(* ===== verification/_CoqProject ===== *)
-Q . S2P
Prelude.v
JsString.v
Json.v
JsObject.v
IsoDate.v
Utf8.v
Sql.v
Truncate.v
Record.v
Keep.v
Conversation.v
ConversationProofs.v
Tar.v
TarProofs.v
Pool.v
PoolProofs.v
Store.v
StoreProofs.v
Kept.v
KeptProofs.v
Notices.v
NoticesProofs.v
RunList.v
RunListProofs.v
Transcript.v
TranscriptProofs.v
Compaction.v
CompactionProofs.v
Settle.v
SettleProofs.v
Delivery.v
DeliveryProofs.v
Party.v
PartyProofs.v
Edit.v
EditProofs.v
FileTools.v
FileToolsProofs.v
Program.v
Tokens.v
TokensProofs.v
Http.v
HttpProofs.v
Hooks.v
HooksProofs.v
FanIn.v
FanInProofs.v
Standing.v
StandingProofs.v
ChartRef.v
ChartRefProofs.v
ChartDoor.v
ChartCycles.v
ChartDoorProofs.v
