(* ===== verification/Prelude.v ===== *)
(** * jr2: a verification of its stores, queues and ledgers

    jr2 runs Workflows (state machines) in a cluster.  The Orchestrator
    (packages/orchestrator) hosts the runs, keeps them in SQLite, hands items
    of work to child runs through Pools, and tells an Agent's conversation what
    happened to its Workspace through a notice ledger.  The Harness
    (packages/harness) runs beside an Agent: it admits Submissions into a
    conversation, runs them one at a time, records every event on disk, and
    sends the record to the Orchestrator, which keeps it after the pod is gone.
    This library models the parts of that code which keep state that must
    survive (a crash, a restart, a repeated request, a hand-over) and proves
    that it does.  Paths below are under src/packages/.

    ** Parts, and how they meet

    - An Agent's output is cut to size by [Truncate] (harness/src/truncate.ts).
    - [FileTools] (harness/src/file-tools.ts) is the Agent's read, write and edit
      over the spawner's file operations, with their queue; [Edit] is the
      replacement of text that an edit makes.
    - A conversation is [Conversation] (harness/src/conversation.ts): its queue,
      its runs, its Settlements and its event stream.  What it records goes
      through [Record] (harness/src/record.ts), from which a new process
      rebuilds it; the same record is sent by [Keep] (harness/src/keep.ts).
    - A run of the engine reads and writes [Transcript]
      (harness/src/transcript.ts), the engine's part of a conversation's folder.
      [Compaction] (harness/src/compaction.ts, harness/src/compaction-summary.ts)
      shortens it: the estimate, the cut point, what the summary is asked over
      and the guard before a request.  [Settle] (harness/src/turn.ts,
      harness/src/menu.ts) closes a cut run's transcript and its picks, and
      makes the messages a provider is given.
    - [Kept] (orchestrator/src/conversations.ts) stores what a keeper sends.
      Its space guard asks the run host which runs are live; its orphan pass
      asks the snapshot store, through the interface [Kept.RunIds].
    - [Delivery] joins the two: the request and its answer ([keepSendOver] of
      harness/src/keep.ts), the route that takes a batch
      (orchestrator/src/http.ts), the ledger that says whose conversation it is
      ([RunHost.conversationPlace] of orchestrator/src/run-host.ts), and [Sys],
      a conversation's keeper, its requests on the wire and the store together.
    - [Store] (orchestrator/src/snapshot-store.ts) keeps the runs' snapshots,
      the dispatch keys, the Hook deliveries and the listing's columns.
    - [Pool] (orchestrator/src/pool.ts) claims the items of a Source, one worker
      each.  Its key lookup is the snapshot store's.
    - [Notices] (orchestrator/src/notices.ts) is the ledger of notices and
      steering messages; a conversation takes its notices with each prompt.
    - [RunList] (orchestrator/src/run-list.ts, [RunHost.history] of
      orchestrator/src/run-host.ts, [grantOpens] of orchestrator/src/tokens.ts)
      lists the live runs and the ended ones of [Store] page by page.
    - [Tar] (orchestrator/src/assembly-tar.ts) is the archive in which an
      Assembly of files travels.
    - [Tokens] (orchestrator/src/tokens.ts, orchestrator/src/callers.ts) makes a
      principal of a bearer: the publish token, the pods' signed tokens, and the
      Callers of the Instance token, the named tokens and the JWT issuers, with
      the scopes that each has.
    - [Http] (orchestrator/src/http.ts) is the bands, the route table and the
      handlers of the routes that a credential opens.  A handler is a [Prog],
      the tree of what it asks of the run host and the stores.
    - [Hooks] (orchestrator/src/hooks.ts, orchestrator/src/hook-kinds/) is the
      Hook's door: what a kind reads from a request ([HookKinds]), jr2's own
      kinds ([Kinds]), [deliver] in its order with the text that a person reads
      ([Door]), and any number of deliveries over the hook log of [Store], with
      failures and process ends between any two steps ([HookLog]).
    - [FanIn] ([deliverHook] of orchestrator/src/run-host.ts) takes a delivery
      of [Hooks] to the open Gates and to the Sources that hear it.
    - [Standing] (the standing part of orchestrator/src/run-host.ts, [swap] of
      orchestrator/src/instance.ts) keeps one run of each standing Pool: the
      heads of [Store], the timers, the hand-overs with what [Pool] carries,
      the pause and the resume, through publishes, process deaths and restores.
    - [ChartRef] (orchestrator/src/chart.ts, open-body.ts) is what a Chart's data
      does: references into the run's context, event and input, the four generic
      actions that write the context, and the canonical text that is its
      identity.  [ChartDoor] (chart.ts) is the door that admits a Chart against
      what its Open body lends: [admitChart] and the class [Door].
    - [Party] (orchestrator/src/party.ts, rest.ts, registration.ts) says which
      events an Agent or a Gate may send into the Machine that invoked it: the
      list that is shown before there is a payload, the check at delivery, and
      the table of the live registrations.  A guard of the author's is a
      [Reader], the tree of what it reads of the event.

    ** Files

    The language and its standard library:
    - [Prelude]: strings as lists of UTF-16 units, results, tactics, lists;
    - [JsString]: split, join, numerals, byte lengths, encodeURIComponent;
    - [Json]: JSON.stringify and JSON.parse; [Utf8]: text as bytes, and the
      interface [JsonLine] (one value per line) between [Record] and [Json];
    - [JsObject]: objects used as dictionaries, the order of Object.keys;
    - [IsoDate]: Date.parse of UTC times, and toISOString, which it reads back;
      [Sql]: SQLite's order of text, ORDER BY and LIMIT;
    - [Program]: a handler as the tree of what it asks for, a world that
      answers it, and the rules for what it may ask where.
    The components, each with one definition per function of the source and of
    its name: [Truncate], [Record] and [Keep] (with their proofs), and
    [Conversation], [Tar], [Pool], [Store], [Kept], [Notices], [RunList],
    [Transcript], [Compaction], [Settle], [Delivery], [Party], [Edit],
    [FileTools], [Tokens], [Http], [Hooks], [FanIn], [Standing], [ChartRef] and
    [ChartDoor], each followed by the file of its proofs ([ChartCycles] holds
    those of the door's cycle check).

    A class with methods is a record of its fields and a function per method.
    An asynchronous method is cut at its [await]s: each piece is an operation,
    and the theorems hold for every order of the operations ([Conversation.Op],
    [Keep.step], [Pool.Event], [Notices]'s [Op], [Delivery.sysStep],
    [Standing.exec]).  A crash is an operation too:
    it keeps what was on disk (a prefix of what was written, torn anywhere) and
    nothing else.  A call that throws is a [result]; a SQLite statement is the
    list operation it performs, and a transaction that throws changes nothing.

    ** What the theorems show

    - Conversation: every Submission settles exactly once, in every state that
      operations and crashes reach ([settled_exactly_once]); they run one at a
      time in admission order ([runs_in_admission_order]); the conversation can
      always run to idle ([always_drains]); a reader that follows by offset
      reads each event once ([offset_follows_stream]) and is never parked with
      something to read ([no_lost_wakeup]); a rebuild loses nothing
      ([crash_rebuilds]).
    - Record: every whole line is read back after any number of process deaths
      and torn writes ([record_survives_tears]); two conversations have
      disjoint folders ([conversations_apart]).
    - Keep: memory, disk and what was sent account for each entry exactly once
      ([keeper_loses_nothing]); a keeper made over a dead one's files goes on
      where it was ([restart_resumes]); what can be sent is sent
      ([pending_entries_move]); a closed keeper stops ([closed_keeper_stops]).
    - Kept: the rows are unique, belong to a kept conversation and fit the cap
      ([kept_within_cap]); a batch is kept once, as sent, however often it
      comes ([batch_kept_once]); the guard sweeps only ended runs, oldest
      first, and no more than needed ([guard_sweeps_ended_oldest_first]); the
      orphan pass deletes exactly the orphans ([orphans_are_exact], against
      the interface [RunIds]).
    - Delivery: over lost, late and repeated requests, restarts and replaced
      pods, the kept conversation reads back as what the Agent said, with
      everything that was answered as kept ([conversation_is_kept]); only the
      pod and the slot in the ledger's row write it ([only_its_pod_writes]);
      what a keeper sends is within what the route takes ([batches_fit]), but
      for a batch with a kind of more than 200 characters, which is lost
      ([long_name_loses_batch]).
    - Store: a dispatch key answers with the run that took it
      ([dispatch_key_answers]); a Hook's delivery is claimed once
      ([delivery_claimed_once]); a sweep takes exactly the old ended runs
      ([sweep_spares]); the listing's columns say what the snapshot says
      ([listing_columns_current]); opening a volume migrates it once
      ([init_migrates_once]); the prefix scan is exact ([prefix_lookup_exact]).
    - RunList: the pages, followed through the cursor's text, partition the
      listing of both halves ([history_pages_partition]) and show only runs
      that the Caller may read ([history_shows_readable]).
    - Pool: one worker per item ([one_worker_per_item]) within the cap
      ([work_is_bounded]); no wake is missed ([no_missed_wake]); a Pool ends
      idle with everything reported ([ends_idle_and_complete]); a hand-over
      keeps the work ([handover_keeps_work]), but for an item whose key is the
      name of an inherited property ([inherited_key_is_dropped]).
    - Notices: nobody is told an entry twice ([notice_heard_once]); everybody
      who was there is told ([audience_is_reached]); an entry is pending only
      while it is wanted ([pending_is_wanted]); raising again changes nothing
      ([replayed_raise_is_noop]); a message's record agrees with the pending
      list ([messages_accounted]), but for two equal messages of one
      millisecond ([identical_messages_stay_held]).
    - Transcript: what was appended is read back after torn writes, and the
      folder always opens ([transcript_survives]).
    - Compaction: a cut keeps every message in the summary's request or in the
      kept tail ([cut_loses_nothing]), at the reference cut point
      ([cut_point_is_reference]); a cut is not repeated for the size that
      caused it ([no_second_cut]); an uncut request has room
      ([uncut_request_has_room]).  Two cases fall short: with tool results as
      large as the budget a cut summarizes nothing
      ([oversized_results_are_not_cut]), and a cut inside a kept turn drops
      the previous summary ([split_turn_forgets_summary]).
    - Settle: every pick of a cut run is answered exactly once
      ([picks_answered_once]), the end of a run answers all
      ([run_end_answers_all]), and a provider only gets tool results that follow
      their call ([provider_gets_paired_results]).
    - Tar: unpacking a packed tree gives the tree ([unpack_pack]), and whatever
      the bytes, only paths inside the root are written ([unpack_confined]).
    - Party: a delivery runs only writings in the sender's reach that are its
      own, and refuses nothing else ([delivered_is_own]); the list shown before
      the payload agrees with the delivery of every payload that passes the
      guards which read it ([payload_guards_count_as_passing]), but for guards
      whose [params] read the payload ([params_hide_the_pick]) and guards that
      read a Gate's Caller ([caller_guard_hides_event]); Rest is exactly the
      absence of work below the Agent's state ([rest_reads_the_work]); the table
      holds the live registrations under late and repeated disposers
      ([table_holds_the_live]).
    - Edit: each old text is replaced at one place, and nothing else of the text
      changes ([edit_changes_only_matches], [first_place_is_edited]); line endings
      and the byte order mark are kept ([edit_keeps_file_form]), but for mixed
      endings ([mixed_endings_change]); a last line of white space alone refuses
      every fuzzy edit ([blank_last_line_refuses]).
    - FileTools: an edit writes at most once, what it read with the edits made
      ([edit_writes_what_it_read]), to a normal path ([tool_paths_are_normal]);
      the calls of one key run one at a time, in order ([one_writer_per_file]),
      but a new file in a linked folder has two keys ([new_file_has_two_keys]);
      a file can be read to its end ([read_reaches_the_end]).
    - Tokens: exactly the publish token, the pods' tokens and the credentials of
      Callers are principals ([principals_are_exact]), and the Instance token
      alone is the operator ([operator_is_the_instance_token]); joined scopes
      open what one of them opens ([joined_scopes_are_union]); an issuer is
      asked for its keys' address at most once in each cooldown
      ([discovery_is_paced]); the named tokens' digests are those of the file's
      last whole text ([digests_are_of_the_text]).
    - Http: whatever the host answers, a handler asks it only for what the
      request's principal may ([access_is_scoped]); a pod's tokens reach that
      pod's Agents and fetches and nothing else
      ([pod_tokens_open_their_doors]); each row of the route table is enforced
      before its handler asks anything ([table_is_enforced]); the route that
      keeps a conversation is the one of [Delivery]
      ([keep_route_is_deliverys]).
    - Hooks: of the deliveries that share an id or a body a second one is claimed
      only after the first gave its claim back ([fan_in_once]); nothing of a
      request is used before the Hook's verifier took it
      ([only_verified_is_heard]); a copy's own line claims too, so the send
      after a 429 or a 503 may not be heard ([seen_copy_claims]); the text that
      a person reads keeps to its limit ([person_text_fits]), but for what
      Slack's escape adds ([slack_escape_is_longer]).
    - FanIn: a Gate gets a delivery at most once, while it is open, and the
      outcome says what happened ([fan_in_is_reported]); following a Pool's
      hand-overs ends ([following_ends]).
    - Standing: of a standing Workflow at most one run is live, and it is the one
      that the head names ([one_standing_run]); each step of the host is a step
      of the Workflow's life, which is living, waiting or paused
      ([host_refines_life]); a paused one gets no run until it is resumed
      ([paused_until_resumed]); runs in a row that start no work are handed
      over three times and no more ([poison_loop_ends]); a new run is given
      what the one before it held ([hand_over_carries]), but for a process that
      dies before the new run's first save ([death_in_a_hand_over_loses]); the
      age timer of a removed Workflow ends the process, and nothing else there
      does ([what_ends_the_process]).  They take two things of the labels
      ([sound]): the save of an end is not lost, and a name stands in each
      Assembly that has it or in none ([lost_end_hosts_two] and
      [ordinary_run_is_handed_over] show what happens else).
    - Chart data: two texts have one canonical JSON exactly when they hold the
      same values ([canonical_identity]); resolving a template looks its
      references up in order and puts the values in once
      ([resolving_is_substitution]); a generic action writes its own path alone
      ([a_write_is_its_own]), but for a path that begins with an integer
      ([integer_head_forgets]) or a name that objects inherit
      ([append_keeps_inherited]); the walk of the raw text misses nothing
      ([raw_faults_are_found]).
    - Chart door: an admitted Chart names only what is lent
      ([authority_is_lent]); its [always] steps end unless guards keep them
      going ([always_steps_end], from the laws of a microstep that the class
      [ChartCycles.Microsteps] states); a field that its schema requires
      resolves ([required_field_resolves], from the laws of the class
      [SchemaChecks], which [validates] has), but for a schema with no type
      ([untyped_schema_passes]); the dataflow check takes a write for its own
      source ([self_supply_passes]), is exponential
      ([dataflow_check_explodes]), and throws below a field whose schema is null
      ([null_field_throws]).
    - Truncate: what is returned is within both limits and the longest such
      ([truncateHead_longest], [truncateTail_longest]).

    ** Bounds and fuel

    - [Json.parse] has the length of the text as fuel: every call consumes a
      unit, and [Json]'s round trip shows it is enough for printed text.
    - [Tar.resolve] counts link expansions from the source's own bound; reading
      a body, a pax body and the archive have the remaining bytes as fuel,
      each iteration taking at least one ([TarProofs] proves the round trip
      with that fuel); a pax length settles within four iterations, checked
      for every length that is let in.
    - [Pool.settle] repeats eventless transitions; [work_is_bounded] shows that
      after every event none is enabled, so its fuel is never what stops it.
    - [FileTools]: the scan of a PNG's chunks has the buffer's length as fuel
      ([animatedFrom_fuel]), and splitting a text by a text the text's length.
    - [Party.evalGuard]'s fuel bounds the names that name further guards; the
      source has no bound, and the theorems hold for every fuel.
    - [Keep]'s tries after [close] are the source's bound.
    - [FanIn.toSource]'s fuel is two rounds more than the hops that the source
      allows; [following_ends] shows that more fuel changes nothing.
    - [ChartRef.scan] has the text's length as fuel, [faultLoop] the number of
      values of the text ([raw_faults_are_found] shows that it is enough), and
      [measureAt] the depth at which the source stops; [ChartDoor.search] and
      [liveFix] have one more than the number of edges ([cycles_none] shows that
      the search misses nothing), and [contextSupplies] the source's own bound.
    - Integers are [Z]: counters of the code stay below 2^53.  The space
      guard's fractions are IEEE doubles ([spec_float]).  Sizes in an archive
      are kept to the octal field's width.

    ** Parameters

    What is not in the source is an argument: new ids and the clock's time;
    [Date.parse] of text that is no UTC time and [Buffer.from] of text outside
    the base64url alphabet; the Source's functions of a Pool ([itemId], the
    item schema, the reads); the answer to a send; the volume's sizes and the
    calls that run while the space guard waits; the model's answer to a summary
    request ([ask]) and the engine's text of a message's content
    ([contentText]); what the authenticator makes of a request's token, and the
    schema library's words for an issue ([issue]); the transitions
    that xstate selects for an event ([getTransitionData]) and its [can]; the
    Unicode normal forms ([NFKC] with the laws of the class [EditProofs.Nfkc],
    [NFD]), [fileURLToPath] and Node's words for an error; the HMAC [sign] with
    the law of the class [TokensProofs.Hmac] (its text is base64url), the hash
    and jose's [decodeJwt] and [jwtVerify]; and the files and the run host
    themselves, a [FileTools.World] and an [Http.World] that answer each
    operation as they like, and in [Standing] what the start of an actor gives
    and how an actor moves and ends.  In [Http], [Number] of a query's text, the words
    of V8 and zod and the listing's query ([parseRunListQuery]) are arguments
    too, and in [Hooks] SHA-256, Ed25519, [JSON.parse] and zod's [safeParse]:
    the theorems hold for every value of them.  In [ChartRef] the sha256, and in
    [ChartDoor] zod's reading of the grammar and of a payload's schema and the
    lines of the trial compile, are arguments.

    ** Not modelled

    The run host's actors and the machine checks are XState's and the
    authors'; of Charts the zod grammar, the compile to a Machine and the files
    that keep them; the open HTTP routes and what a feed writes,
    Kubernetes, git, processes, cryptography, the minting of random tokens,
    the model loop of the pi engine, the command line and the console are input
    and output around the parts above.  Of the modelled files: [collect] (the
    directory walk before packing), the measuring of a volume, the check of a
    Hook kind's own value and the polls of a follow-up post, the query string
    of the listing, the static refusals of a Pool's spec, the load walk's
    warnings about parties and xstate's [stateIn] guards.  JSON
    numbers are integers, and amounts of money whole numbers. *)

From Stdlib Require Import Ascii String Lia ZArith.
From stdpp Require Import base list strings gmap sorting.

(** ** Strings

    A JavaScript string is a sequence of UTF-16 code units; here it is the
    list of those units, each a [Z] in [0, 65536).  [js] turns an ASCII
    literal into such a list. *)

Abbreviation jstr := (list Z).

Fixpoint js (s : string) : jstr :=
  match s with
  | EmptyString => []
  | String c s' => Z.of_N (N_of_ascii c) :: js s'
  end.

(** A literal's units are bytes. *)
Lemma js_bytes s : Forall (λ c, 0 ≤ c < 256)%Z (js s).
Proof.
  induction s as [|c s IH]; constructor; [|done]. pose proof (N_ascii_bounded c). lia.
Qed.

(** ** Results

    A call that may throw returns [result E A]: a value or the thrown error. *)

Inductive result (E A : Type) : Type :=
| Ok (a : A)
| Throw (e : E).
Arguments Ok {E A} a.
Arguments Throw {E A} e.

#[export] Instance result_ret E : MRet (result E) := λ A a, Ok a.
#[export] Instance result_bind E : MBind (result E) := λ A B f r,
  match r with
  | Ok a => f a
  | Throw e => Throw e
  end.


(** [guard_throw b e] is the code's [if (b) throw e]. *)
Definition guard_throw {E} (b : bool) (e : E) : result E unit :=
  if b then Throw e else Ok tt.

Lemma rbind_ok {E A B} (r : result E A) (f : A → result E B) b :
  (r ≫= f) = Ok b → ∃ a, r = Ok a ∧ f a = Ok b.
Proof. destruct r as [a|e]; simpl; [eauto | done]. Qed.

Lemma rok_bind {E A B} (a : A) (f : A → result E B) : (Ok a ≫= f) = f a.
Proof. done. Qed.

Lemma Ok_inj {E A} (a b : A) : @Ok E A a = Ok b → a = b.
Proof. by intros [= ->]. Qed.

Lemma guard_ok {E} b (e : E) u : guard_throw b e = Ok u → b = false.
Proof. by destruct b. Qed.

(** ** Tactics *)

(** Split every [if]/[match] discriminee of the goal or the context. *)
Ltac split_match :=
  repeat match goal with
  | |- context [match ?x with _ => _ end] => destruct x eqn:?
  | H : context [match ?x with _ => _ end] |- _ => destruct x eqn:?
  end.

(** Take a chain of [result] binds that ended in [Ok] apart. *)
Ltac ok_inv :=
  repeat match goal with
  | H : mbind _ _ = Ok _ |- _ =>
      let a := fresh "v" in let E := fresh "E" in
      apply rbind_ok in H; destruct H as [a [E H]]
  | H : guard_throw _ _ = Ok _ |- _ => apply guard_ok in H
  | H : Ok _ = Ok _ |- _ => injection H as H
  | H : Throw _ = Ok _ |- _ => discriminate H
  | H : mret _ = Ok _ |- _ => injection H as H
  end.

(** Turn boolean comparisons on [Z] and [nat] into propositions. *)
Ltac zbool :=
  repeat match goal with
  | H : (_ && _)%bool = true |- _ => apply andb_true_iff in H; destruct H
  | H : (_ && _)%bool = false |- _ => apply andb_false_iff in H
  | H : (_ || _)%bool = true |- _ => apply orb_true_iff in H
  | H : (_ || _)%bool = false |- _ => apply orb_false_iff in H; destruct H
  | H : negb _ = true |- _ => apply negb_true_iff in H
  | H : negb _ = false |- _ => apply negb_false_iff in H
  | H : (_ =? _)%Z = true |- _ => apply Z.eqb_eq in H
  | H : (_ =? _)%Z = false |- _ => apply Z.eqb_neq in H
  | H : (_ <? _)%Z = true |- _ => apply Z.ltb_lt in H
  | H : (_ <? _)%Z = false |- _ => apply Z.ltb_ge in H
  | H : (_ <=? _)%Z = true |- _ => apply Z.leb_le in H
  | H : (_ <=? _)%Z = false |- _ => apply Z.leb_gt in H
  | H : (_ =? _)%nat = true |- _ => apply Nat.eqb_eq in H
  | H : (_ =? _)%nat = false |- _ => apply Nat.eqb_neq in H
  | H : (_ <? _)%nat = true |- _ => apply Nat.ltb_lt in H
  | H : (_ <? _)%nat = false |- _ => apply Nat.ltb_ge in H
  | H : (_ <=? _)%nat = true |- _ => apply Nat.leb_le in H
  | H : (_ <=? _)%nat = false |- _ => apply Nat.leb_gt in H
  | H : bool_decide _ = true |- _ => apply bool_decide_eq_true in H
  | H : bool_decide _ = false |- _ => apply bool_decide_eq_false in H
  end.

Create HintDb jr2.

(** ** Reachability

    A property that holds initially and is kept by every step holds in every
    reachable state. *)
Lemma rtc_invariant {A} (R : relation A) (P : A → Prop) :
  (∀ x y, P x → R x y → P y) → ∀ x y, rtc R x y → P x → P y.
Proof. intros Hs x y Hr. induction Hr; eauto. Qed.

(** ** Lists *)

Lemma last_snoc_inv {A} (l : list A) x : last l = Some x → ∃ l', l = l' ++ [x].
Proof.
  destruct l as [|y l' _] using rev_ind; [done|].
  rewrite last_snoc. intros [= ->]. eauto.
Qed.

Lemma sorted_snoc {A} (R : relation A) (l : list A) x :
  StronglySorted R l → Forall (λ y, R y x) l → StronglySorted R (l ++ [x]).
Proof.
  intros Hs HF. induction Hs as [|y l Hs IH Hy]; [by repeat constructor|].
  apply Forall_cons in HF as [H1 HF]. simpl. constructor; [by apply IH|].
  apply Forall_app. split; [done|by apply Forall_singleton].
Qed.

Lemma filter_all {A} (P : A → Prop) `{∀ x, Decision (P x)} (l : list A) :
  Forall P l → filter P l = l.
Proof.
  induction 1 as [|x l Hx _ IH]; [done|].
  rewrite filter_cons_True; [|done]. by rewrite IH.
Qed.

Lemma filter_none {A} (P : A → Prop) `{∀ x, Decision (P x)} (l : list A) :
  Forall (λ x, ¬ P x) l → filter P l = [].
Proof.
  induction 1 as [|x l Hx _ IH]; [done|].
  rewrite filter_cons_False; done.
Qed.
