(* ===== verification/JsString.v ===== *)
(** * JavaScript strings: UTF-8 length, splitting, joining, numerals

    The string operations of the standard library that the modelled code uses:
    [Buffer.byteLength(s, "utf8")], [s.split(sep)] and [parts.join(sep)] for a
    one-unit separator, [s.endsWith(sep)], [n.toString(radix)],
    [Number.parseInt(s, 10)], [encodeURIComponent(s)].  Each has the lemmas its clients use. *)

From Stdlib Require Import Lia ZArith.
From stdpp Require Import base list strings sets.
From S2P Require Import Prelude.

Open Scope Z_scope.

(** ** UTF-16 surrogates and the UTF-8 length *)

Definition is_high (c : Z) : bool := (0xd800 <=? c) && (c <=? 0xdbff).
Definition is_low (c : Z) : bool := (0xdc00 <=? c) && (c <=? 0xdfff).

(** The UTF-8 size of a code unit that is no half of a pair. A lone surrogate
    is written as U+FFFD, which takes 3 bytes. *)
Definition unit_bytes (c : Z) : Z :=
  if c <=? 0x7f then 1 else if c <=? 0x7ff then 2 else 3.

(** [Buffer.byteLength(s, "utf8")]. *)
Fixpoint utf8ByteLength (s : jstr) : Z :=
  match s with
  | [] => 0
  | c :: s' =>
      match s' with
      | d :: s'' =>
          if is_high c && is_low d then 4 + utf8ByteLength s''
          else unit_bytes c + utf8ByteLength s'
      | [] => unit_bytes c
      end
  end.

(** ** Split and join *)

(** [s.split(sep)] for a separator of one code unit. *)
Fixpoint split_on (sep : Z) (s : jstr) : list jstr :=
  match s with
  | [] => [[]]
  | c :: s' =>
      if c =? sep then [] :: split_on sep s'
      else match split_on sep s' with
           | l :: ls => (c :: l) :: ls
           | [] => [[c]]
           end
  end.

(** [parts.join(sep)]. *)
Fixpoint join (sep : jstr) (parts : list jstr) : jstr :=
  match parts with
  | [] => []
  | p :: ps =>
      match ps with
      | [] => p
      | _ :: _ => p ++ sep ++ join sep ps
      end
  end.

(** [s.endsWith(c)] for one code unit. *)
Definition ends_with (c : Z) (s : jstr) : bool :=
  match last s with
  | Some d => d =? c
  | None => false
  end.

(** ** Numerals *)

Definition digit_char (d : Z) : Z := if d <? 10 then 48 + d else 87 + d.

(** The digits of [n] in base [b], most significant first; the fuel is the
    number of digits that may come out. *)
Fixpoint digits_fuel (fuel : nat) (b n : Z) (acc : jstr) : jstr :=
  match fuel with
  | O => acc
  | S f =>
      let acc' := digit_char (n mod b) :: acc in
      if n / b =? 0 then acc' else digits_fuel f b (n / b) acc'
  end.

(** [n.toString(radix)] of a natural number: a number below [2^k] has at most
    [k] digits in any base of 2 or more, so [Z.log2 n + 1] is enough fuel. *)
Definition to_radix (b n : Z) : jstr :=
  digits_fuel (S (Z.to_nat (Z.log2 n))) b n [].

(** [String(n)] of a natural number. *)
Definition of_int (n : Z) : jstr := to_radix 10 n.

(** The value of one digit of base 10 or less. *)
Definition digit_val (b c : Z) : option Z :=
  if (48 <=? c) && (c <? 48 + b) then Some (c - 48) else None.

(** The longest prefix of digits of base [b], read from [acc]. *)
Fixpoint read_digits (b acc : Z) (s : jstr) : Z :=
  match s with
  | [] => acc
  | c :: s' =>
      match digit_val b c with
      | Some d => read_digits b (acc * b + d) s'
      | None => acc
      end
  end.

(** The white space that [parseInt] and [trim] drop: tab to carriage return,
    space, no-break space, the byte order mark and the Unicode space
    separators. *)
Definition is_space (c : Z) : bool :=
  ((9 <=? c) && (c <=? 13)) || (c =? 32) || (c =? 160) || (c =? 0xfeff) ||
  (c =? 0x1680) || ((0x2000 <=? c) && (c <=? 0x200a)) || (c =? 0x2028) ||
  (c =? 0x2029) || (c =? 0x202f) || (c =? 0x205f) || (c =? 0x3000).

Fixpoint trim_start (s : jstr) : jstr :=
  match s with
  | c :: s' => if is_space c then trim_start s' else s
  | [] => []
  end.

(** [s.trim()]. *)
Definition trim (s : jstr) : jstr := rev (trim_start (rev (trim_start s))).

(** [Number.parseInt(s, 10)]: [None] is [NaN]. *)
Definition parse_int (s : jstr) : option Z :=
  let s := trim_start s in
  let '(sign, s) :=
    match s with
    | 45 :: s' => (-1, s')
    | 43 :: s' => (1, s')
    | _ => (1, s)
    end in
  match s with
  | c :: _ =>
      match digit_val 10 c with
      | Some _ => Some (sign * read_digits 10 0 s)
      | None => None
      end
  | [] => None
  end.

(** ** Percent encoding *)

(** The characters that [encodeURIComponent] leaves as they are: letters,
    digits and [- _ . ! ~ * ' ( )]. *)
Definition uri_unreserved (c : Z) : bool :=
  ((48 <=? c) && (c <=? 57)) || ((65 <=? c) && (c <=? 90)) || ((97 <=? c) && (c <=? 122)) ||
  (c =? 45) || (c =? 95) || (c =? 46) || (c =? 33) || (c =? 126) || (c =? 42) ||
  (c =? 39) || (c =? 40) || (c =? 41).

Definition hex_digit (d : Z) : Z := if d <? 10 then 48 + d else 55 + d.
Definition pct (b : Z) : jstr := [37; hex_digit (b / 16); hex_digit (b mod 16)].

(** The UTF-8 bytes of a code point. *)
Definition utf8_bytes (cp : Z) : list Z :=
  if cp <=? 0x7f then [cp]
  else if cp <=? 0x7ff then [0xc0 + cp / 64; 0x80 + cp mod 64]
  else if cp <=? 0xffff then [0xe0 + cp / 4096; 0x80 + cp / 64 mod 64; 0x80 + cp mod 64]
  else [0xf0 + cp / 262144; 0x80 + cp / 4096 mod 64; 0x80 + cp / 64 mod 64; 0x80 + cp mod 64].

Definition pct_bytes (bs : list Z) : jstr := bs ≫= pct.

(** The code point of a surrogate pair. *)
Definition pair_point (c d : Z) : Z := 0x10000 + (c - 0xd800) * 1024 + (d - 0xdc00).

(** [encodeURIComponent(s)]: [None] is the [URIError] of an unpaired
    surrogate. *)
Fixpoint encodeURIComponent (s : jstr) : option jstr :=
  match s with
  | [] => Some []
  | c :: s' =>
      if uri_unreserved c then cons c <$> encodeURIComponent s'
      else if is_high c then
        match s' with
        | d :: s'' =>
            if is_low d then app (pct_bytes (utf8_bytes (pair_point c d))) <$> encodeURIComponent s''
            else None
        | [] => None
        end
      else if is_low c then None
      else app (pct_bytes (utf8_bytes c)) <$> encodeURIComponent s'
  end.

(** ** Lemmas *)

Lemma unit_bytes_bounds c : 1 <= unit_bytes c <= 3.
Proof. unfold unit_bytes. split_match; lia. Qed.

Lemma high_bytes c : is_high c = true → unit_bytes c = 3.
Proof. unfold is_high, unit_bytes. intros. split_match; zbool; lia. Qed.

Lemma low_bytes c : is_low c = true → unit_bytes c = 3.
Proof. unfold is_low, unit_bytes. intros. split_match; zbool; lia. Qed.

Lemma high_not_low c : is_high c = true → is_low c = false.
Proof.
  unfold is_high, is_low. intros. zbool. apply andb_false_iff.
  rewrite Z.leb_gt. lia.
Qed.

(** Induction that follows the pairs of [utf8ByteLength]. *)
Lemma utf16_ind (P : jstr → Prop) :
  P [] →
  (∀ c, P [c]) →
  (∀ c d s, is_high c && is_low d = true → P s → P (c :: d :: s)) →
  (∀ c d s, is_high c && is_low d = false → P (d :: s) → P (c :: d :: s)) →
  ∀ s, P s.
Proof.
  intros H0 H1 H2 H3 s.
  assert (P s ∧ ∀ c, P (c :: s)) as [? _]; [|done].
  induction s as [|d s [IHs IHc]]; [split; auto|].
  split; [done|]. intros c.
  destruct (is_high c && is_low d) eqn:E; auto.
Qed.

Lemma utf8_pair c d s :
  is_high c && is_low d = true →
  utf8ByteLength (c :: d :: s) = 4 + utf8ByteLength s.
Proof. intros E. simpl. by rewrite E. Qed.

Lemma utf8_single c d s :
  is_high c && is_low d = false →
  utf8ByteLength (c :: d :: s) = unit_bytes c + utf8ByteLength (d :: s).
Proof. intros E. cbn [utf8ByteLength]. by rewrite E. Qed.

Lemma utf8_nonneg s : 0 <= utf8ByteLength s.
Proof.
  induction s as [|c|c d s E IH|c d s E IH] using utf16_ind; [done| | |].
  - simpl. pose proof (unit_bytes_bounds c). lia.
  - rewrite utf8_pair by done. lia.
  - rewrite utf8_single by done. pose proof (unit_bytes_bounds c). lia.
Qed.

Lemma utf8_pos s : s ≠ [] → 0 < utf8ByteLength s.
Proof.
  destruct s as [|c [|d s]]; [done| |]; intros _.
  - simpl. pose proof (unit_bytes_bounds c). lia.
  - cbn [utf8ByteLength]. pose proof (utf8_nonneg s).
    pose proof (utf8_nonneg (d :: s)). pose proof (unit_bytes_bounds c).
    destruct (_ && _); simpl in *; lia.
Qed.

(** A unit that is not a low surrogate never joins with what comes before. *)
Lemma utf8_app a d b :
  is_low d = false →
  utf8ByteLength (a ++ d :: b) = utf8ByteLength a + utf8ByteLength (d :: b).
Proof.
  intros Hd.
  induction a as [|c|c e s E IH|c e s E IH] using utf16_ind; [done| | |].
  - cbn [app]. rewrite utf8_single by (rewrite Hd; apply andb_false_r). done.
  - cbn [app]. rewrite !utf8_pair by done. rewrite IH. lia.
  - cbn [app] in *. rewrite !utf8_single by done. rewrite IH. lia.
Qed.

Lemma utf8_sep_cons c s :
  is_high c = false → utf8ByteLength (c :: s) = unit_bytes c + utf8ByteLength s.
Proof.
  intros Hc. destruct s as [|d s]; [simpl; lia|].
  apply utf8_single. by rewrite Hc.
Qed.

(** The size of joined lines: each line, and one byte per newline. *)
Lemma utf8_join_cons p ps :
  ps ≠ [] →
  utf8ByteLength (join [10] (p :: ps))
  = utf8ByteLength p + 1 + utf8ByteLength (join [10] ps).
Proof.
  intros Hps. destruct ps as [|q qs]; [done|]. cbn [join app].
  rewrite utf8_app by done. rewrite utf8_sep_cons by done.
  change (unit_bytes 10) with 1. lia.
Qed.

Lemma join_snoc sep ps p :
  ps ≠ [] → join sep (ps ++ [p]) = join sep ps ++ sep ++ p.
Proof.
  induction ps as [|q qs IH]; [done|]. intros _.
  destruct qs as [|r rs]; [done|].
  cbn [app join] in *. rewrite IH by done. by rewrite !app_assoc.
Qed.

Lemma utf8_join_snoc ps p :
  ps ≠ [] →
  utf8ByteLength (join [10] (ps ++ [p]))
  = utf8ByteLength (join [10] ps) + 1 + utf8ByteLength p.
Proof.
  intros Hps. rewrite join_snoc by done. cbn [app].
  rewrite utf8_app by done. rewrite utf8_sep_cons by done.
  change (unit_bytes 10) with 1. lia.
Qed.

Lemma split_on_nonempty sep s : split_on sep s ≠ [].
Proof.
  destruct s as [|c s]; simpl; [done|].
  destruct (c =? sep); [done|]. by destruct (split_on sep s).
Qed.

(** Joining what was split gives the string back. *)
Lemma join_split sep s : join [sep] (split_on sep s) = s.
Proof.
  induction s as [|c s IH]; [done|]. simpl.
  pose proof (split_on_nonempty sep s) as Hne.
  destruct (split_on sep s) as [|l ls] eqn:E; [done|].
  destruct (Z.eqb_spec c sep) as [->|Hc].
  - change (join [sep] ([] :: l :: ls)) with (sep :: join [sep] (l :: ls)).
    by rewrite IH.
  - destruct ls as [|m ms]; cbn [join app] in *; by rewrite <- IH.
Qed.

Lemma split_parts_no_sep sep s : Forall (λ l, sep ∉ l) (split_on sep s).
Proof.
  induction s as [|c s IH]; simpl; [repeat constructor; set_solver|].
  destruct (Z.eqb_spec c sep) as [->|Hc]; [constructor; [set_solver|done]|].
  destruct (split_on sep s) as [|l ls]; [repeat constructor; set_solver|].
  inversion IH; subst. constructor; [set_solver|done].
Qed.

(** Splitting what was joined gives the parts back, when no part holds the
    separator. *)
Lemma split_join sep ps :
  ps ≠ [] → Forall (λ l, sep ∉ l) ps → split_on sep (join [sep] ps) = ps.
Proof.
  assert (∀ p s, sep ∉ p → split_on sep (p ++ sep :: s) = p :: split_on sep s) as Happ.
  { induction p as [|c p IH]; intros s Hp; simpl.
    - by rewrite Z.eqb_refl.
    - destruct (Z.eqb_spec c sep); [set_solver|].
      rewrite IH by set_solver. done. }
  assert (∀ p, sep ∉ p → split_on sep p = [p]) as Hone.
  { induction p as [|c p IH]; intros Hp; simpl; [done|].
    destruct (Z.eqb_spec c sep); [set_solver|].
    rewrite IH by set_solver. done. }
  induction ps as [|p ps IH]; [done|]. intros _ HF. inv HF.
  destruct ps as [|q qs]; [by apply Hone|].
  change (join [sep] (p :: q :: qs)) with (p ++ sep :: join [sep] (q :: qs)).
  rewrite Happ by done. by rewrite IH.
Qed.

(** ** Numerals: reading back what was printed *)

Lemma digit_val_char b d : 0 <= d < b → b <= 10 → digit_val b (digit_char d) = Some d.
Proof.
  intros Hd Hb. unfold digit_val, digit_char.
  destruct (Z.ltb_spec d 10); [|lia].
  destruct (Z.leb_spec 48 (48 + d)); [|lia].
  destruct (Z.ltb_spec (48 + d) (48 + b)); [|lia].
  simpl. f_equal. lia.
Qed.

Lemma read_digits_app b acc s t :
  Forall (λ c, is_Some (digit_val b c)) s →
  read_digits b acc (s ++ t) = read_digits b (read_digits b acc s) t.
Proof.
  intros HF. revert acc. induction HF as [|c s [d Hd] _ IH]; intros acc; [done|].
  simpl. rewrite Hd. apply IH.
Qed.

Lemma digits_fuel_spec fuel b n acc :
  2 <= b <= 10 → 0 <= n < b ^ Z.of_nat fuel → fuel ≠ O →
  ∃ ds, digits_fuel fuel b n acc = ds ++ acc
      ∧ ds ≠ [] ∧ Forall (λ c, is_Some (digit_val b c)) ds
      ∧ ∀ a, read_digits b a ds = a * b ^ Z.of_nat (length ds) + n.
Proof.
  intros Hb. revert n acc. induction fuel as [|f IH]; intros n acc Hn Hf; [done|].
  assert (0 <= n mod b < b) by (apply Z.mod_pos_bound; lia).
  assert (digit_val b (digit_char (n mod b)) = Some (n mod b)) as Hd
    by (apply digit_val_char; lia).
  cbn [digits_fuel]. destruct (Z.eqb_spec (n / b) 0) as [E|E].
  - exists [digit_char (n mod b)]. split_and!; [done|done| |].
    + constructor; [eauto|constructor].
    + intros a. cbn [read_digits length]. rewrite Hd.
      change (Z.of_nat 1) with 1. rewrite Z.pow_1_r.
      pose proof (Z.div_mod n b). lia.
  - assert (0 <= n / b < b ^ Z.of_nat f) as Hn'.
    { split; [apply Z.div_pos; lia|]. apply Z.div_lt_upper_bound; [lia|].
      rewrite Nat2Z.inj_succ, Z.pow_succ_r in Hn by lia. lia. }
    assert (f ≠ O) as Hf'. { intros ->. simpl in Hn'. lia. }
    destruct (IH (n / b) (digit_char (n mod b) :: acc) Hn' Hf') as (ds & -> & Hne & HF & Hr).
    exists (ds ++ [digit_char (n mod b)]). split_and!.
    + by rewrite <- app_assoc.
    + by destruct ds.
    + apply Forall_app; split; [done|]. constructor; [eauto|constructor].
    + intros a. rewrite read_digits_app by done. rewrite Hr. simpl. rewrite Hd.
      rewrite length_app, Nat2Z.inj_add, Z.pow_add_r by lia. simpl length.
      change (Z.of_nat 1) with 1. rewrite Z.pow_1_r.
      pose proof (Z.div_mod n b). nia.
Qed.

Lemma to_radix_spec b n :
  2 <= b <= 10 → 0 <= n →
  to_radix b n ≠ [] ∧ Forall (λ c, is_Some (digit_val b c)) (to_radix b n)
  ∧ read_digits b 0 (to_radix b n) = n.
Proof.
  intros Hb Hn. unfold to_radix.
  destruct (digits_fuel_spec (S (Z.to_nat (Z.log2 n))) b n []) as (ds & -> & Hne & HF & Hr);
    [done| |done|].
  - split; [done|]. rewrite Nat2Z.inj_succ, Z2Nat.id by apply Z.log2_nonneg.
    destruct (decide (n = 0)) as [->|]; [simpl; nia|].
    assert (n < 2 ^ Z.succ (Z.log2 n)) by (apply Z.log2_spec; lia).
    assert (2 ^ Z.succ (Z.log2 n) <= b ^ Z.succ (Z.log2 n));
      [|lia]. apply Z.pow_le_mono_l. lia.
  - rewrite app_nil_r. split_and!; [done|done|]. rewrite Hr. lia.
Qed.

Lemma digit_not_space b c : b <= 10 → is_Some (digit_val b c) → is_space c = false.
Proof.
  intros Hb [d Hd]. unfold digit_val in Hd. split_match; [|done]. zbool.
  unfold is_space. repeat (apply orb_false_iff; split);
    try apply Z.eqb_neq; try lia; apply andb_false_iff; rewrite ?Z.leb_gt; lia.
Qed.

(** [Number.parseInt(String(n), 10)] is [n]. *)
Lemma parse_int_of_int n : 0 <= n → parse_int (of_int n) = Some n.
Proof.
  intros Hn. unfold of_int.
  destruct (to_radix_spec 10 n) as (Hne & HF & Hr); [lia|done|].
  destruct (to_radix 10 n) as [|c s]; [done|].
  apply Forall_cons in HF as [Hc Hs].
  unfold parse_int. simpl trim_start.
  rewrite (digit_not_space 10 c) by (done || lia).
  destruct Hc as [d Hd].
  assert (48 <= c <= 57).
  { unfold digit_val in Hd. split_match; [|done]. zbool. lia. }
  assert (match c :: s with
          | 45 :: s' => (-1, s')
          | 43 :: s' => (1, s')
          | _ => (1, c :: s)
          end = (1, c :: s)) as ->.
  { assert (c ≠ 45 ∧ c ≠ 43) as [? ?] by lia.
    repeat (match goal with
            | |- context [match ?x with _ => _ end] => destruct x; try done
            end; try lia). }
  rewrite Hd, Hr. f_equal. lia.
Qed.

(** A number below [b ^ k] has at most [k] digits. *)
Lemma digits_fuel_length f b n acc k :
  2 <= b → 0 <= n < b ^ Z.of_nat k → (1 <= k)%nat →
  (length (digits_fuel f b n acc) <= k + length acc)%nat.
Proof.
  intros Hb. revert n acc k. induction f as [|f IH]; intros n acc k Hn Hk; simpl; [lia|].
  destruct (Z.eqb_spec (n / b) 0) as [E|E]; [simpl; lia|].
  destruct k as [|[|k]]; [lia| |].
  - exfalso. apply E. apply Z.div_small. simpl in Hn. rewrite Z.pow_1_r in Hn. done.
  - specialize (IH (n / b) (digit_char (n mod b) :: acc) (S k)). simpl length in IH.
    assert (0 <= n / b < b ^ Z.of_nat (S k)); [|lia]. split; [apply Z.div_pos; lia|].
    apply Z.div_lt_upper_bound; [lia|].
    rewrite Nat2Z.inj_succ, Z.pow_succ_r in Hn by lia. lia.
Qed.

Lemma to_radix_length b n k :
  2 <= b → 0 <= n < b ^ Z.of_nat k → (1 <= k)%nat → (length (to_radix b n) <= k)%nat.
Proof.
  intros Hb Hn Hk. unfold to_radix.
  pose proof (digits_fuel_length (S (Z.to_nat (Z.log2 n))) b n [] k Hb Hn Hk) as H. cbn [length] in H. lia.
Qed.

(** ** Sizes *)

(** Text joined to text is at most as long as both. *)
Lemma utf8_app_le a b : utf8ByteLength (a ++ b) <= utf8ByteLength a + utf8ByteLength b.
Proof.
  induction a as [|c|c e s E IH|c e s E IH] using utf16_ind; [cbn [app]; change (utf8ByteLength []) with 0; lia| | |].
  - cbn [app]. destruct b as [|d b]; [change (utf8ByteLength []) with 0; lia|].
    change (utf8ByteLength [c]) with (unit_bytes c). destruct (is_high c && is_low d) eqn:E; [|rewrite utf8_single by done; lia].
    rewrite utf8_pair by done. apply andb_true_iff in E as [E1 E2]. rewrite (high_bytes c E1).
    assert (is_high d = false) as Hd by (destruct (is_high d) eqn:Eh; [by rewrite (high_not_low d Eh) in E2|done]).
    rewrite utf8_sep_cons, (low_bytes d E2) by done. lia.
  - cbn [app]. rewrite !utf8_pair by done. lia.
  - cbn [app] in *. rewrite !utf8_single by done. lia.
Qed.

Lemma utf8_le_units s : utf8ByteLength s <= 3 * Z.of_nat (length s).
Proof.
  induction s as [|c s IH]; [done|]. change (c :: s) with ([c] ++ s). etransitivity; [apply utf8_app_le|].
  change (utf8ByteLength [c]) with (unit_bytes c). pose proof (unit_bytes_bounds c). rewrite length_app. cbn [length]. lia.
Qed.

Lemma utf8_ascii s : Forall (λ c, 0 <= c <= 0x7f) s → utf8ByteLength s = Z.of_nat (length s).
Proof.
  induction 1 as [|c s Hc _ IH]; [done|].
  assert (is_high c = false) as Hh by (unfold is_high; apply andb_false_iff; left; apply Z.leb_gt; lia).
  rewrite utf8_sep_cons, IH by done. unfold unit_bytes. cbn [length].
  rewrite (proj2 (Z.leb_le c 0x7f)) by lia. lia.
Qed.
