(* ===== verification/Json.v ===== *)
(** * JSON, as [JSON.stringify] prints it and [JSON.parse] reads it

    Values are null, booleans, integers, strings, arrays and objects (an object
    is its list of members in order).  [stringify] prints without spaces and
    escapes as ECMAScript does, unpaired surrogates included; [parse] reads
    white space and every escape.  Numbers with a fraction or an exponent are
    outside the model. *)

From Stdlib Require Import Lia ZArith.
From stdpp Require Import base list strings sets.
From S2P Require Import Prelude JsString.

Open Scope Z_scope.
Set Warnings "-register-all".

Module Json.

Inductive json :=
| JNull
| JBool (b : bool)
| JNum (n : Z)
| JStr (s : jstr)
| JArr (l : list json)
| JObj (l : list (jstr * json)).

(** The value of an object's member; the last one of a name counts. *)
Definition prop (k : jstr) (v : json) : option json :=
  match v with
  | JObj l => snd <$> last (filter (λ m, m.1 = k) l)
  | _ => None
  end.

(** ** Printing *)

Definition hex_lower (d : Z) : Z := if d <? 10 then 48 + d else 87 + d.

(** [\uXXXX] *)
Definition escape_u (c : Z) : jstr :=
  [92; 117; hex_lower (c / 4096 mod 16); hex_lower (c / 256 mod 16);
   hex_lower (c / 16 mod 16); hex_lower (c mod 16)].

Definition escape_unit (c : Z) : jstr :=
  if c =? 34 then [92; 34]
  else if c =? 92 then [92; 92]
  else if c =? 8 then [92; 98]
  else if c =? 12 then [92; 102]
  else if c =? 10 then [92; 110]
  else if c =? 13 then [92; 114]
  else if c =? 9 then [92; 116]
  else if c <? 32 then escape_u c
  else [c].

(** The inside of a string literal: pairs stay, unpaired surrogates are
    escaped. *)
Fixpoint escape (s : jstr) : jstr :=
  match s with
  | [] => []
  | c :: s' =>
      if is_high c then
        match s' with
        | d :: s'' => if is_low d then c :: d :: escape s'' else escape_u c ++ escape s'
        | [] => escape_u c
        end
      else if is_low c then escape_u c ++ escape s'
      else escape_unit c ++ escape s'
  end.

Definition quote (s : jstr) : jstr := [34] ++ escape s ++ [34].

Definition of_Z (n : Z) : jstr := if n <? 0 then 45 :: of_int (- n) else of_int n.

Fixpoint stringify (v : json) : jstr :=
  match v with
  | JNull => js "null"
  | JBool true => js "true"
  | JBool false => js "false"
  | JNum n => of_Z n
  | JStr s => quote s
  | JArr l => [91] ++ join [44] (map stringify l) ++ [93]
  | JObj l => [123] ++ join [44] (map (λ m, quote m.1 ++ [58] ++ stringify m.2) l) ++ [125]
  end.

(** ** Parsing *)

Definition is_ws (c : Z) : bool := (c =? 32) || (c =? 9) || (c =? 10) || (c =? 13).

Fixpoint skip_ws (s : jstr) : jstr :=
  match s with
  | c :: s' => if is_ws c then skip_ws s' else s
  | [] => []
  end.

Definition hex_val (c : Z) : option Z :=
  if (48 <=? c) && (c <=? 57) then Some (c - 48)
  else if (97 <=? c) && (c <=? 102) then Some (c - 87)
  else if (65 <=? c) && (c <=? 70) then Some (c - 55)
  else None.

(** The escape after a backslash: the unit it stands for, and the rest. *)
Definition unescape (s : jstr) : option (Z * jstr) :=
  match s with
  | [] => None
  | e :: s =>
      if e =? 117 then
        match s with
        | a :: b :: c :: d :: r =>
            x ← hex_val a; y ← hex_val b; z ← hex_val c; w ← hex_val d;
            Some (((x * 16 + y) * 16 + z) * 16 + w, r)
        | _ => None
        end
      else if (e =? 34) || (e =? 92) || (e =? 47) then Some (e, s)
      else if e =? 98 then Some (8, s)
      else if e =? 102 then Some (12, s)
      else if e =? 110 then Some (10, s)
      else if e =? 114 then Some (13, s)
      else if e =? 116 then Some (9, s)
      else None
  end.

(** The rest of a string literal after its opening quote. *)
Fixpoint parse_string (fuel : nat) (s : jstr) : option (jstr * jstr) :=
  match fuel, s with
  | S f, c :: s' =>
      if c =? 34 then Some ([], s')
      else if c =? 92 then
        '(u, r) ← unescape s';
        '(t, r') ← parse_string f r;
        Some (u :: t, r')
      else if c <? 32 then None
      else
        '(t, r') ← parse_string f s';
        Some (c :: t, r')
  | _, _ => None
  end.

Definition is_digit (c : Z) : bool := (48 <=? c) && (c <=? 57).

Fixpoint skip_digits (s : jstr) : jstr :=
  match s with
  | c :: s' => if is_digit c then skip_digits s' else s
  | [] => []
  end.

(** An integer: [0], or digits that start with another one. *)
Definition parse_nat (s : jstr) : option (Z * jstr) :=
  match s with
  | c :: s' =>
      if c =? 48 then Some (0, s')
      else if is_digit c then Some (read_digits 10 0 s, skip_digits s)
      else None
  | [] => None
  end.

Fixpoint starts (p s : jstr) : option jstr :=
  match p, s with
  | [], _ => Some s
  | a :: p', b :: s' => if a =? b then starts p' s' else None
  | _, _ => None
  end.

Definition expect (c : Z) (s : jstr) : option jstr := starts [c] (skip_ws s).

(** Values. [parse_items] and [parse_members] read what follows a value in an
    array or an object: the closing bracket, or a comma and more. *)
Fixpoint parse_value (fuel : nat) (s : jstr) : option (json * jstr) :=
  match fuel with
  | O => None
  | S f =>
      match skip_ws s with
      | [] => None
      | c :: r =>
          if c =? 34 then '(t, r') ← parse_string (length r) r; Some (JStr t, r')
          else if c =? 91 then
            match expect 93 r with
            | Some r' => Some (JArr [], r')
            | None =>
                '(v, r1) ← parse_value f r;
                '(vs, r2) ← parse_items f r1;
                Some (JArr (v :: vs), r2)
            end
          else if c =? 123 then
            match expect 125 r with
            | Some r' => Some (JObj [], r')
            | None =>
                '(m, r1) ← parse_member f r;
                '(ms, r2) ← parse_members f r1;
                Some (JObj (m :: ms), r2)
            end
          else if c =? 45 then '(n, r') ← parse_nat r; Some (JNum (- n), r')
          else if is_digit c then '(n, r') ← parse_nat (c :: r); Some (JNum n, r')
          else match starts (js "null") (c :: r), starts (js "true") (c :: r), starts (js "false") (c :: r) with
               | Some r', _, _ => Some (JNull, r')
               | _, Some r', _ => Some (JBool true, r')
               | _, _, Some r' => Some (JBool false, r')
               | _, _, _ => None
               end
      end
  end
with parse_items (fuel : nat) (s : jstr) : option (list json * jstr) :=
  match fuel with
  | O => None
  | S f =>
      match expect 93 s with
      | Some r => Some ([], r)
      | None =>
          r ← expect 44 s;
          '(v, r1) ← parse_value f r;
          '(vs, r2) ← parse_items f r1;
          Some (v :: vs, r2)
      end
  end
with parse_member (fuel : nat) (s : jstr) : option ((jstr * json) * jstr) :=
  match fuel with
  | O => None
  | S f =>
      r ← expect 34 s;
      '(k, r1) ← parse_string (length r) r;
      r2 ← expect 58 r1;
      '(v, r3) ← parse_value f r2;
      Some ((k, v), r3)
  end
with parse_members (fuel : nat) (s : jstr) : option (list (jstr * json) * jstr) :=
  match fuel with
  | O => None
  | S f =>
      match expect 125 s with
      | Some r => Some ([], r)
      | None =>
          r ← expect 44 s;
          '(m, r1) ← parse_member f r;
          '(ms, r2) ← parse_members f r1;
          Some (m :: ms, r2)
      end
  end.

(** [JSON.parse(s)]: [None] is the [SyntaxError]. Every recursive call is on a
    shorter text or one level deeper, so four times the length is enough. *)
Definition parse (s : jstr) : option json :=
  '(v, r) ← parse_value (S (4 * length s)) s;
  match skip_ws r with
  | [] => Some v
  | _ => None
  end.

(** ** Reading back what was printed *)

(** Induction over values, with the members of arrays and objects. *)
Lemma json_rect' (P : json → Prop) :
  P JNull → (∀ b, P (JBool b)) → (∀ n, P (JNum n)) → (∀ s, P (JStr s)) →
  (∀ l, Forall P l → P (JArr l)) →
  (∀ l, Forall (λ m, P m.2) l → P (JObj l)) → ∀ v, P v.
Proof.
  intros H1 H2 H3 H4 H5 H6. fix IH 1. intros [|b|n|s|l|l].
  - exact H1.
  - exact (H2 b).
  - exact (H3 n).
  - exact (H4 s).
  - apply H5. revert l. fix IHl 1. intros [|v l]; [constructor|constructor; [apply IH|apply IHl]].
  - apply H6. revert l. fix IHl 1. intros [|m l]; [constructor|constructor; [apply IH|apply IHl]].
Qed.

Definition unit_ok (c : Z) : Prop := 0 <= c < 65536.

Lemma js_units s : Forall unit_ok (js s).
Proof. eapply Forall_impl; [apply js_bytes|]. unfold unit_ok. simpl. lia. Qed.

(** Every string of the value is a list of code units. *)
Inductive units_ok : json → Prop :=
| ok_null : units_ok JNull
| ok_bool b : units_ok (JBool b)
| ok_num n : units_ok (JNum n)
| ok_str s : Forall unit_ok s → units_ok (JStr s)
| ok_arr l : Forall units_ok l → units_ok (JArr l)
| ok_obj l : Forall (λ m, Forall unit_ok m.1) l → Forall (λ m, units_ok m.2) l → units_ok (JObj l).

Lemma hex_lower_val d : 0 <= d < 16 → hex_val (hex_lower d) = Some d.
Proof.
  intros Hd. unfold hex_val, hex_lower. destruct (Z.ltb_spec d 10).
  - replace ((48 <=? 48 + d) && (48 + d <=? 57)) with true by (symmetry; apply andb_true_iff; lia).
    f_equal. lia.
  - replace ((48 <=? 87 + d) && (87 + d <=? 57)) with false by (symmetry; apply andb_false_iff; lia).
    replace ((97 <=? 87 + d) && (87 + d <=? 102)) with true by (symmetry; apply andb_true_iff; lia).
    f_equal. lia.
Qed.

Lemma unescape_u c r : unit_ok c → unescape (drop 1 (escape_u c) ++ r) = Some (c, r).
Proof.
  intros Hc. cbn -[hex_val hex_lower Z.div Z.modulo].
  rewrite !hex_lower_val by (apply Z.mod_pos_bound; lia). cbn -[Z.div Z.modulo]. do 2 f_equal.
  unfold unit_ok in Hc.
  rewrite (Z.mod_small (c / 4096)) by (split; [apply Z.div_pos; lia|apply Z.div_lt_upper_bound; lia]).
  Z.to_euclidean_division_equations. lia.
Qed.

Lemma parse_escape_u f c r :
  unit_ok c →
  parse_string (S f) (escape_u c ++ r) = ('(t, r') ← parse_string f r; Some (c :: t, r')).
Proof.
  intros Hc. change (escape_u c ++ r) with (92 :: (drop 1 (escape_u c) ++ r)).
  cbn -[unescape drop]. rewrite unescape_u by done. done.
Qed.

(** Reading an escaped unit gives the unit. *)
Lemma parse_escape_unit f c r :
  unit_ok c →
  parse_string (S f) (escape_unit c ++ r) = ('(t, r') ← parse_string f r; Some (c :: t, r')).
Proof.
  intros Hc. unfold escape_unit.
  repeat match goal with
  | |- context [if ?x =? ?y then _ else _] => destruct (Z.eqb_spec x y) as [->|?]; [reflexivity|]
  end.
  destruct (Z.ltb_spec c 32); [by apply parse_escape_u|].
  cbn. destruct (Z.eqb_spec c 34); [done|]. destruct (Z.eqb_spec c 92); [done|].
  destruct (Z.ltb_spec c 32); [lia|done].
Qed.

Lemma surrogate_plain c : is_high c || is_low c = true → (c =? 34) = false ∧ (c =? 92) = false ∧ (c <? 32) = false.
Proof.
  unfold is_high, is_low. rewrite orb_true_iff, !andb_true_iff, !Z.leb_le, !Z.eqb_neq, Z.ltb_ge. lia.
Qed.

Lemma parse_quoted s f r :
  Forall unit_ok s → (length s < f)%nat → parse_string f (escape s ++ 34 :: r) = Some (s, r).
Proof.
  revert f. induction s as [|c|c d s E IH|c d s E IH] using utf16_ind; intros f HF Hf.
  - destruct f; [simpl in Hf; lia|]. done.
  - destruct f as [|f]; [simpl in Hf; lia|]. apply Forall_cons in HF as [Hc _].
    assert (∀ x, escape [c] = x → x = escape_u c ∨ x = escape_unit c) as Hx.
    { intros x <-. simpl. destruct (is_high c); [auto|]. destruct (is_low c); rewrite ?app_nil_r; auto. }
    destruct f; [simpl in Hf; lia|].
    destruct (Hx _ eq_refl) as [->| ->];
      [rewrite parse_escape_u by done|rewrite parse_escape_unit by done]; done.
  - apply Forall_cons in HF as [Hc HF]. apply Forall_cons in HF as [Hd HF].
    destruct f as [|[|f]]; [simpl in Hf; lia|simpl in Hf; lia|].
    apply andb_true_iff in E as [Eh El]. simpl escape. rewrite Eh, El.
    destruct (surrogate_plain c) as (A1 & A2 & A3); [by rewrite Eh|].
    destruct (surrogate_plain d) as (B1 & B2 & B3); [by rewrite El, orb_true_r|].
    cbn [app parse_string]. rewrite A1, A2, A3, B1, B2, B3.
    rewrite IH by (done || simpl in Hf; lia). done.
  - apply Forall_cons in HF as [Hc HF]. destruct f as [|f]; [simpl in Hf; lia|].
    assert (escape (c :: d :: s) = (if is_high c || is_low c then escape_u c else escape_unit c)
              ++ escape (d :: s)) as ->.
    { remember (d :: s) as ds eqn:Eds. simpl. destruct (is_high c) eqn:Eh; simpl in *.
      - subst ds. by rewrite E.
      - by destruct (is_low c). }
    rewrite <- app_assoc. destruct (_ || _);
      [rewrite parse_escape_u by done|rewrite parse_escape_unit by done];
      (rewrite IH; [done|done|simpl in *; lia]).
Qed.

(** The text after a value does not go on with a digit. *)
Definition stops (r : jstr) : Prop := ∀ c, head r = Some c → is_digit c = false.

Lemma digits_of_int n : 0 <= n → Forall (λ c, is_digit c = true) (of_int n).
Proof.
  intros Hn. destruct (to_radix_spec 10 n) as (_ & HF & _); [lia|done|].
  eapply Forall_impl; [exact HF|]. intros c [d Hd]. unfold digit_val in Hd.
  unfold is_digit. split_match; [|done]. zbool. apply andb_true_iff. lia.
Qed.

Lemma read_digits_stop a r : stops r → read_digits 10 a r = a.
Proof.
  destruct r as [|c r]; [done|]. intros H. simpl. specialize (H c eq_refl).
  unfold is_digit in H. unfold digit_val.
  replace ((48 <=? c) && (c <? 48 + 10)) with false; [done|]. symmetry.
  rewrite andb_false_iff in *. destruct H as [H|H]; [by left|right].
  rewrite Z.leb_gt in H. rewrite Z.ltb_ge. lia.
Qed.

Lemma skip_digits_app s r : Forall (λ c, is_digit c = true) s → stops r → skip_digits (s ++ r) = r.
Proof.
  intros HF Hr. induction HF as [|c s Hc _ IH]; simpl.
  - destruct r as [|c r]; [done|]. simpl. by rewrite (Hr c).
  - by rewrite Hc.
Qed.

Lemma digits_fuel_head fuel b n acc :
  2 <= b → 0 < n < b ^ Z.of_nat fuel → head (digits_fuel fuel b n acc) ≠ Some 48.
Proof.
  intros Hb. revert n acc. induction fuel as [|f IH]; intros n acc Hn; [simpl in Hn; lia|].
  cbn [digits_fuel]. destruct (Z.eqb_spec (n / b) 0) as [E|E].
  - apply Z.div_small_iff in E; [|lia]. rewrite Z.mod_small by lia. simpl.
    unfold digit_char. destruct (Z.ltb_spec n 10); intros [=]; lia.
  - apply IH. split.
    + assert (0 <= n / b) by (apply Z.div_pos; lia). lia.
    + apply Z.div_lt_upper_bound; [lia|].
      rewrite Nat2Z.inj_succ, Z.pow_succ_r in Hn by lia. lia.
Qed.

Lemma of_int_head n : 0 < n → head (of_int n) ≠ Some 48.
Proof.
  intros Hn. apply digits_fuel_head; [lia|]. split; [done|].
  rewrite Nat2Z.inj_succ, Z2Nat.id by apply Z.log2_nonneg.
  assert (n < 2 ^ Z.succ (Z.log2 n)) by (apply Z.log2_spec; lia).
  assert (2 ^ Z.succ (Z.log2 n) <= 10 ^ Z.succ (Z.log2 n)); [|lia].
  apply Z.pow_le_mono_l. lia.
Qed.

Lemma parse_nat_of_int n r : 0 <= n → stops r → parse_nat (of_int n ++ r) = Some (n, r).
Proof.
  intros Hn Hr. destruct (decide (n = 0)) as [->|Hn0]; [done|].
  pose proof (digits_of_int n Hn) as HF. pose proof (of_int_head n) as Hh.
  destruct (to_radix_spec 10 n) as (Hne & HS & Hv); [lia|done|].
  fold (of_int n) in *. destruct (of_int n) as [|c t] eqn:E; [done|].
  unfold parse_nat. cbn [app]. destruct (Z.eqb_spec c 48) as [->|Hc]; [simpl in Hh; by destruct Hh; [lia|]|].
  pose proof HF as HF'. apply Forall_cons in HF' as [-> _].
  change (c :: t ++ r) with ((c :: t) ++ r). rewrite skip_digits_app by done.
  by rewrite read_digits_app, Hv, read_digits_stop.
Qed.

(** The first unit of a printed value: no space, no closing bracket. *)
Definition opens (c : Z) : Prop := is_ws c = false ∧ c ≠ 93 ∧ c ≠ 125.

Lemma digit_opens c : is_digit c = true → opens c.
Proof.
  unfold is_digit, opens, is_ws. rewrite andb_true_iff, !Z.leb_le, !orb_false_iff, !Z.eqb_neq. lia.
Qed.

Lemma of_int_cons n : 0 <= n → ∃ c t, of_int n = c :: t ∧ is_digit c = true.
Proof.
  intros Hn. pose proof (digits_of_int n Hn) as HF.
  destruct (to_radix_spec 10 n) as (Hne & _ & _); [lia|done|].
  fold (of_int n) in *. destruct (of_int n) as [|c t]; [done|]. apply Forall_cons in HF as [? _]. eauto.
Qed.

Lemma stringify_head v : ∃ c t, stringify v = c :: t ∧ opens c.
Proof.
  destruct v as [|[]|n|s|l|l]; try (by eexists _, _; split; [reflexivity|done]).
  simpl. unfold of_Z. destruct (Z.ltb_spec n 0); [by eexists _, _|].
  destruct (of_int_cons n) as (c & t & -> & Hc); [done|].
  eexists _, _; split; [done|]. by apply digit_opens.
Qed.

Lemma skip_ws_head c r : is_ws c = false → skip_ws (c :: r) = c :: r.
Proof. simpl. by intros ->. Qed.

Lemma expect_other d v r : d = 93 ∨ d = 125 → expect d (stringify v ++ r) = None.
Proof.
  intros Hd. destruct (stringify_head v) as (c & t & -> & Hw & H1 & H2).
  unfold expect. cbn [app]. rewrite skip_ws_head by done. simpl.
  destruct (Z.eqb_spec d c); [|done]. lia.
Qed.

Lemma join_cons_concat sep p ps : join [sep] (p :: ps) = p ++ concat (map (cons sep) ps).
Proof.
  revert p. induction ps as [|q ps IH]; intros p; [simpl; by rewrite app_nil_r|].
  change (join [sep] (p :: q :: ps)) with (p ++ [sep] ++ join [sep] (q :: ps)).
  by rewrite IH.
Qed.

Lemma length_escape s : (length s <= length (escape s))%nat.
Proof.
  induction s as [|c|c d s E IH|c d s E IH] using utf16_ind; [done| | |].
  - simpl. assert (1 <= length (escape_unit c))%nat by (unfold escape_unit, escape_u; split_match; simpl; lia).
    split_match; rewrite ?length_app; simpl; lia.
  - apply andb_true_iff in E as [Eh El]. simpl. rewrite Eh, El. simpl. lia.
  - remember (d :: s) as ds eqn:Eds. simpl.
    assert (1 <= length (escape_unit c))%nat by (unfold escape_unit, escape_u; split_match; simpl; lia).
    destruct (is_high c) eqn:Eh; simpl in *.
    + subst ds. rewrite E. rewrite ?length_app; simpl in *; lia.
    + destruct (is_low c); rewrite ?length_app; simpl in *; lia.
Qed.

Lemma parse_quote s r :
  Forall unit_ok s →
  parse_string (length (escape s ++ 34 :: r)) (escape s ++ 34 :: r) = Some (s, r).
Proof.
  intros HF. apply parse_quoted; [done|]. rewrite length_app. simpl. pose proof (length_escape s). lia.
Qed.

Definition reads (v : json) : Prop :=
  units_ok v → ∀ f r, (2 * length (stringify v) < f)%nat → stops r →
  parse_value f (stringify v ++ r) = Some (v, r).

Lemma stops_unit c r : is_digit c = false → stops (c :: r).
Proof. intros H d [= <-]. done. Qed.

Lemma obind_some {A B} (x : A) (f : A → option B) : (Some x ≫= f) = f x.
Proof. done. Qed.

(** What follows the first element, up to the closing bracket. *)
Lemma parse_items_ok l f r :
  Forall reads l → Forall units_ok l →
  (2 * length (concat (map (cons 44%Z) (map stringify l))) < f)%nat →
  parse_items f (concat (map (cons 44%Z) (map stringify l)) ++ 93 :: r) = Some (l, r).
Proof.
  intros HR. revert f. induction HR as [|v l Hv _ IH]; intros [|f] HU Hf; try (simpl in Hf; lia).
  - done.
  - apply Forall_cons in HU as [Uv Ul]. cbn [map concat app] in *.
    rewrite <- app_assoc. cbn [parse_items].
    change (expect 93 (44 :: stringify v ++ concat (map (cons 44%Z) (map stringify l)) ++ 93 :: r)) with (@None jstr).
    change (expect 44 (44 :: ?x)) with (Some x). rewrite obind_some; cbv beta iota.
    cbn [length] in Hf. rewrite length_app in Hf.
    rewrite Hv; [|done|lia|]; [|by destruct l; apply stops_unit].
    simpl. rewrite IH; [done|done|lia].
Qed.

Definition member_text (m : jstr * json) : jstr := quote m.1 ++ [58] ++ stringify m.2.

Lemma parse_member_ok m f r :
  reads m.2 → Forall unit_ok m.1 → units_ok m.2 → stops r →
  (2 * length (member_text m) < f)%nat →
  parse_member f (member_text m ++ r) = Some (m, r).
Proof.
  destruct m as [k v]. unfold member_text, quote. simpl. intros Hv Hk HU Hr Hf.
  destruct f as [|f]; [lia|]. rewrite !length_app in Hf. simpl in Hf.
  cbn [parse_member]. rewrite <- !app_assoc. cbn [app].
  change (expect 34 (34 :: ?x)) with (Some x). rewrite obind_some; cbv beta iota.
  rewrite parse_quote by done. rewrite obind_some; cbv beta iota.
  change (expect 58 (58 :: ?x)) with (Some x). rewrite obind_some; cbv beta iota.
  rewrite Hv; [done|done| |done]. rewrite ?length_app in Hf; simpl in Hf; lia.
Qed.

Lemma parse_members_ok l f r :
  Forall (λ m, reads m.2) l → Forall (λ m, Forall unit_ok m.1) l → Forall (λ m, units_ok m.2) l →
  (2 * length (concat (map (cons 44%Z) (map member_text l))) < f)%nat →
  parse_members f (concat (map (cons 44%Z) (map member_text l)) ++ 125 :: r) = Some (l, r).
Proof.
  intros HR. revert f. induction HR as [|m l Hm _ IH]; intros [|f] HK HU Hf; try (simpl in Hf; lia).
  - done.
  - apply Forall_cons in HU as [Uv Ul]. apply Forall_cons in HK as [Kv Kl].
    cbn [map concat app] in *.
    rewrite <- app_assoc. cbn [parse_members].
    change (expect 125 (44 :: ?x)) with (@None jstr).
    change (expect 44 (44 :: ?x)) with (Some x). rewrite obind_some; cbv beta iota.
    cbn [length] in Hf. rewrite length_app in Hf.
    rewrite parse_member_ok; [|done|done|done|by destruct l; apply stops_unit|lia].
    simpl. rewrite IH; [done|done|done|lia].
Qed.

Lemma parse_value_ok v : reads v.
Proof.
  induction v as [|b|n|s|l IH|l IH] using json_rect'; intros HU [|f] r Hf Hr; try (simpl in Hf; lia).
  - done.
  - by destruct b.
  - cbn [stringify] in *. unfold of_Z in *. destruct (Z.ltb_spec n 0) as [Hn|Hn].
    + cbn [app parse_value]. rewrite skip_ws_head by done. simpl.
      rewrite parse_nat_of_int by (done || lia). simpl. by rewrite Z.opp_involutive.
    + pose proof (parse_nat_of_int n r Hn Hr) as HP.
      destruct (of_int_cons n) as (c & t & E & Hc); [done|]. rewrite E in *. cbn [app] in *.
      destruct (digit_opens c Hc) as (Hw & _ & _).
      cbn [parse_value]. rewrite skip_ws_head by done.
      assert ((c =? 34) = false ∧ (c =? 91) = false ∧ (c =? 123) = false ∧ (c =? 45) = false) as (-> & -> & -> & ->).
      { unfold is_digit in Hc. rewrite andb_true_iff, !Z.leb_le in Hc. rewrite !Z.eqb_neq. lia. }
      by rewrite Hc, HP.
  - inversion HU; subst. cbn [stringify]. unfold quote. rewrite <- !app_assoc. cbn [app parse_value].
    rewrite skip_ws_head by done. simpl. by rewrite parse_quote.
  - inversion HU; subst. cbn [stringify] in *. destruct l as [|v l]; [done|].
    apply Forall_cons in IH as [IHv IHl]. inversion H0 as [|? ? Uv Ul]; subst.
    cbn [map] in *. rewrite join_cons_concat in *. rewrite <- !app_assoc. cbn [app] in *.
    cbn [parse_value]. rewrite skip_ws_head by done. simpl (_ =? _).
    cbn [length] in Hf. rewrite !length_app in Hf. cbn [length] in Hf.
    cbv iota. rewrite expect_other by auto. rewrite IHv; [|done|lia|by destruct l; apply stops_unit].
    rewrite obind_some; cbv beta iota. rewrite parse_items_ok; [done|done|done|lia].
  - inversion HU; subst. cbn [stringify] in *. change (map (λ m : jstr * json, quote m.1 ++ [58] ++ stringify m.2) l) with (map member_text l) in *.
    destruct l as [|m l]; [done|].
    apply Forall_cons in IH as [IHv IHl]. inversion H0 as [|? ? Uk Ukl]; subst. inversion H1 as [|? ? Uv Ul]; subst.
    cbn [map] in *. rewrite join_cons_concat in *. rewrite <- !app_assoc. cbn [app] in *.
    cbn [parse_value]. rewrite skip_ws_head by done. simpl (_ =? _).
    cbn [length] in Hf. rewrite !length_app in Hf. cbn [length] in Hf.
    cbv iota. change (expect 125 (member_text m ++ ?x)) with (@None jstr).
    rewrite parse_member_ok; [|done|done|done|by destruct l; apply stops_unit|lia].
    rewrite obind_some; cbv beta iota. rewrite parse_members_ok; [done|done|done|done|lia].
Qed.

(** Reading a printed value gives it back. *)
Lemma parse_stringify v : units_ok v → parse (stringify v) = Some v.
Proof.
  intros HU. unfold parse. rewrite <- (app_nil_r (stringify v)) at 2.
  rewrite parse_value_ok; [done|done|lia|]. by intros c.
Qed.

(** ** One value per line *)

Lemma hex_lower_big d : 0 <= d → 48 <= hex_lower d.
Proof. unfold hex_lower. destruct (Z.ltb_spec d 10); lia. Qed.

Lemma no_nl_escape_u c : 10 ∉ escape_u c.
Proof.
  unfold escape_u. rewrite !elem_of_cons, elem_of_nil.
  assert (∀ x, 48 <= hex_lower (x mod 16)) as Hx.
  { intros x. apply hex_lower_big. apply Z.mod_pos_bound. lia. }
  pose proof (Hx (c / 4096)). pose proof (Hx (c / 256)). pose proof (Hx (c / 16)). pose proof (Hx c).
  intros H'. by repeat destruct H' as [H'|H']; try lia.
Qed.

Lemma no_nl_escape_unit c : 10 ∉ escape_unit c.
Proof.
  unfold escape_unit.
  repeat match goal with
  | |- context [if ?x =? ?y then _ else _] => destruct (Z.eqb_spec x y); [set_solver|]
  end.
  destruct (c <? 32); [apply no_nl_escape_u|set_solver].
Qed.

Lemma no_nl_escape s : 10 ∉ escape s.
Proof.
  induction s as [|c|c d s E IH|c d s E IH] using utf16_ind; [set_solver| | |].
  - simpl. pose proof (no_nl_escape_u c). pose proof (no_nl_escape_unit c).
    split_match; set_solver.
  - apply andb_true_iff in E as [Eh El]. simpl. rewrite Eh, El.
    unfold is_high, is_low in *. zbool. rewrite !elem_of_cons. intros [?|[?|?]]; [lia|lia|done].
  - remember (d :: s) as ds eqn:Eds. simpl.
    pose proof (no_nl_escape_u c). pose proof (no_nl_escape_unit c).
    destruct (is_high c) eqn:Eh; simpl in *.
    + subst ds. rewrite E. unfold escape_u in *. set_solver.
    + destruct (is_low c); unfold escape_u in *; set_solver.
Qed.

Lemma no_nl_join sep l : sep ≠ 10 → Forall (λ p, 10 ∉ p) l → 10 ∉ join [sep] l.
Proof.
  intros Hs. induction 1 as [|p l Hp Hl IH]; [set_solver|].
  destruct l as [|q l]; [done|].
  change (10 ∉ p ++ [sep] ++ join [sep] (q :: l)). set_solver.
Qed.

Lemma no_nl_quote s : 10 ∉ quote s.
Proof. unfold quote. pose proof (no_nl_escape s). set_solver. Qed.

(** A printed value is on one line. *)
Lemma no_nl_stringify v : 10 ∉ stringify v.
Proof.
  induction v as [|b|n|s|l IH|l IH] using json_rect'.
  - set_solver.
  - destruct b; set_solver.
  - simpl. unfold of_Z.
    assert (∀ m, 0 <= m → 10 ∉ of_int m) as Hm.
    { intros m Hm Hin. pose proof (digits_of_int m Hm) as HF. rewrite Forall_forall in HF.
      by specialize (HF _ Hin). }
    destruct (Z.ltb_spec n 0); [|by apply Hm].
    rewrite elem_of_cons. intros [?|H']; [lia|]. revert H'. apply Hm. lia.
  - apply no_nl_quote.
  - assert (10 ∉ join [44] (map stringify l)); [|set_solver].
    apply no_nl_join; [done|]. by apply Forall_fmap.
  - simpl. assert (10 ∉ join [44] (map member_text l)); [|set_solver].
    apply no_nl_join; [done|]. apply Forall_fmap. eapply Forall_impl; [exact IH|].
    intros m Hm. simpl. unfold member_text. pose proof (no_nl_quote m.1). set_solver.
Qed.

End Json.
