(* ===== verification/JsObject.v ===== *)
(** * JavaScript objects used as dictionaries

    An object with string keys is the list of its members in the order of their
    insertion; [objectKeys] is the order in which [Object.keys] lists them. *)

From Stdlib Require Import Lia ZArith.
From stdpp Require Import base list sets.
From S2P Require Import Prelude JsString Json.

Open Scope Z_scope.

Module JsObject.

Abbreviation obj V := (list (jstr * V)).

(** ** Objects: [{ ...o, [k]: v }], rest without a key, keys *)

Fixpoint objSet {V} (k : jstr) (v : V) (o : obj V) : obj V :=
  match o with
  | [] => [(k, v)]
  | (k', v') :: o' => if bool_decide (k = k') then (k, v) :: o' else (k', v') :: objSet k v o'
  end.

Fixpoint objGet {V} (k : jstr) (o : obj V) : option V :=
  match o with
  | [] => None
  | (k', v) :: o' => if bool_decide (k = k') then Some v else objGet k o'
  end.

(** The value of a key that is an array index: [Object.keys] lists those
    first, in their numeric order. *)
Definition indexOf (k : jstr) : option Z :=
  let n := foldl (λ n c, n * 10 + (c - 48)) 0 k in
  if forallb Json.is_digit k && bool_decide (of_int n = k) && (n <? 4294967295) then Some n else None.

Fixpoint insertIndex (k : jstr) (n : Z) (l : list jstr) : list jstr :=
  match l with
  | [] => [k]
  | k' :: l' => if n <=? default 0 (indexOf k') then k :: l else k' :: insertIndex k n l'
  end.

Definition objectKeys (ks : list jstr) : list jstr :=
  foldr (λ k l, match indexOf k with Some n => insertIndex k n l | None => l end) [] ks
  ++ filter (λ k, indexOf k = None) ks.

Definition objDel {V} (k : jstr) (o : obj V) : obj V := filter (λ kv, kv.1 ≠ k) o.

(** ** Lemmas *)

Lemma objSet_keys {V} k (v : V) o k' : k' ∈ (objSet k v o).*1 ↔ k' = k ∨ k' ∈ o.*1.
Proof.
  induction o as [|[k1 v1] o IH]; simpl; [set_solver|]. case_bool_decide as Hk; subst; simpl; set_solver.
Qed.

Lemma objSet_NoDup {V} k (v : V) o : NoDup o.*1 → NoDup (objSet k v o).*1.
Proof.
  induction o as [|[k1 v1] o IH]; simpl; [intros _; repeat constructor; set_solver|].
  intros [N1 N2]%NoDup_cons. case_bool_decide as Hk; simpl; [subst; by constructor|].
  constructor; [|auto]. rewrite objSet_keys. naive_solver.
Qed.

Lemma objGet_is_Some {V} k (o : obj V) : is_Some (objGet k o) ↔ k ∈ o.*1.
Proof.
  induction o as [|[k1 v1] o IH]; simpl; [rewrite is_Some_alt; set_solver|].
  case_bool_decide as Hk; [subst; split; [set_solver|by eexists]|]. rewrite IH. set_solver.
Qed.

Lemma objGet_elem {V} k (v : V) (o : obj V) : objGet k o = Some v → (k, v) ∈ o.
Proof.
  induction o as [|[k' v'] o IH]; [done|]. cbn. case_bool_decide; [intros [= ->]; subst; by left|right; auto].
Qed.

Lemma objGet_NoDup {V} k (v : V) (o : obj V) : NoDup o.*1 → (k, v) ∈ o → objGet k o = Some v.
Proof.
  induction o as [|[k' v'] o IH]; [by intros _ ?%elem_of_nil|]. cbn. intros [N1 N2]%NoDup_cons [E|E]%elem_of_cons.
  - injection E as -> ->. by rewrite bool_decide_eq_true_2.
  - rewrite bool_decide_eq_false_2; [auto|]. intros ->. apply N1, list_elem_of_fmap. by exists (k', v).
Qed.

Lemma objGet_app {V} k (a b : obj V) : objGet k (a ++ b) = match objGet k a with Some v => Some v | None => objGet k b end.
Proof. induction a as [|[k' v] a IH]; [done|]. cbn. by case_bool_decide. Qed.

Lemma objGet_objSet {V} k k' (v : V) o : objGet k (objSet k' v o) = if decide (k = k') then Some v else objGet k o.
Proof.
  induction o as [|[k1 v1] o IH]; simpl.
  - case_bool_decide; by case_decide.
  - case_bool_decide; simpl; [subst; case_bool_decide; by case_decide|].
    rewrite IH. case_bool_decide; case_decide; try done. congruence.
Qed.

Lemma objGet_objDel {V} k k' (o : obj V) : k ≠ k' → objGet k (objDel k' o) = objGet k o.
Proof.
  intros Hk. induction o as [|[k1 v1] o IH]; [done|]. unfold objDel in *. rewrite filter_cons. simpl.
  case_decide; simpl; rewrite IH; [done|]. by rewrite bool_decide_eq_false_2 by naive_solver.
Qed.

Lemma insertIndex_perm k n l : insertIndex k n l ≡ₚ k :: l.
Proof.
  induction l as [|k' l IH]; simpl; [done|]. destruct (n <=? _); [done|]. transitivity (k' :: k :: l); [by constructor|constructor].
Qed.

Lemma objectKeys_perm ks : objectKeys ks ≡ₚ ks.
Proof.
  unfold objectKeys. induction ks as [|k ks IH]; [done|]. cbn [foldr]. rewrite filter_cons.
  destruct (indexOf k) as [n|] eqn:E.
  - rewrite decide_False by done. rewrite insertIndex_perm. cbn [app]. by constructor.
  - rewrite decide_True by done. rewrite <- Permutation_middle. by constructor.
Qed.

(** Without array indexes the keys come in the order of their insertion. *)
Lemma objectKeys_names ks : Forall (λ k, indexOf k = None) ks → objectKeys ks = ks.
Proof.
  intros HF. unfold objectKeys. rewrite filter_all by done.
  assert (foldr (λ k l, match indexOf k with Some n => insertIndex k n l | None => l end) [] ks = []) as ->; [|done].
  induction HF as [|k ks Hk _ IH]; simpl; [done|]. by rewrite Hk.
Qed.

End JsObject.
