(* ===== verification/IsoDate.v ===== *)
(** * Times as text

    [Date.parse] of a UTC time as [toISOString] and a kubelet write one
    ([YYYY-MM-DDTHH:mm:ssZ], with three digits of a second or none), in
    milliseconds since 1970.  What an engine makes of any other text is not
    fixed by the language: it is an argument of [dateParse].  [toISOString]
    writes a time, and the parse reads it back. *)

From Stdlib Require Import Lia ZArith.
From stdpp Require Import base list strings option.
From S2P Require Import Prelude JsString Json.

Open Scope Z_scope.

Module IsoDate.

(** The number that [n] digits from position [i] write. *)
Definition num (i n : nat) (s : jstr) : option Z :=
  let t := take n (drop i s) in
  if (length t =? n)%nat && forallb Json.is_digit t then Some (foldl (λ a c, a * 10 + (c - 48)) 0 t) else None.

Definition charAt (i : nat) (c : Z) (s : jstr) : bool := bool_decide (s !! i = Some c).

Definition leap (y : Z) : bool := (y mod 4 =? 0) && (negb (y mod 100 =? 0) || (y mod 400 =? 0)).

Definition daysInMonth (y m : Z) : Z :=
  if m =? 2 then (if leap y then 29 else 28)
  else if (m =? 4) || (m =? 6) || (m =? 9) || (m =? 11) then 30 else 31.

(** The days from 1970-01-01 to a date of the proleptic Gregorian calendar;
    the year is counted from March. *)
Definition daysFromCivil (y m d : Z) : Z :=
  let y' := if m <=? 2 then y - 1 else y in
  let era := y' / 400 in
  let yoe := y' - era * 400 in
  let doy := (153 * (if 2 <? m then m - 3 else m + 9) + 2) / 5 + d - 1 in
  let doe := yoe * 365 + yoe / 4 - yoe / 100 + doy in
  era * 146097 + doe - 719468.

(** The milliseconds and the zone at the end of the text. *)
Definition millis (s : jstr) : option Z :=
  if bool_decide (drop 19 s = js "Z") then Some 0
  else if charAt 19 46 s && bool_decide (drop 23 s = js "Z") then num 20 3 s else None.

Definition isoUtc (s : jstr) : option Z :=
  y ← num 0 4 s; m ← num 5 2 s; d ← num 8 2 s;
  h ← num 11 2 s; mi ← num 14 2 s; sec ← num 17 2 s; ms ← millis s;
  if charAt 4 45 s && charAt 7 45 s && charAt 10 84 s && charAt 13 58 s && charAt 16 58 s
     && (1 <=? m) && (m <=? 12) && (1 <=? d) && (d <=? daysInMonth y m) && (h <=? 23) && (mi <=? 59) && (sec <=? 59)
  then Some ((((daysFromCivil y m d * 24 + h) * 60 + mi) * 60 + sec) * 1000 + ms) else None.

(** [Date.parse]; [None] is its [NaN]. *)
Definition dateParse (other : jstr → option Z) (s : jstr) : option Z :=
  match isoUtc s with
  | Some t => Some t
  | None => other s
  end.

Example dateParse_millis : isoUtc (js "2001-09-09T01:46:40.500Z") = Some 1000000000500.
Proof. vm_compute. reflexivity. Qed.

Example dateParse_leap : isoUtc (js "2024-02-29T23:59:59Z") = Some 1709251199000.
Proof. vm_compute. reflexivity. Qed.

Example dateParse_none : isoUtc (js "2023-02-29T00:00:00Z") = None.
Proof. vm_compute. reflexivity. Qed.

(** ** Writing a time *)

(** The month (from March) and the day of month of a day of a year that starts
    on March 1. *)
Definition monthDay (doy : Z) : Z * Z :=
  let mp := (5 * doy + 2) / 153 in
  (mp, doy - (153 * mp + 2) / 5 + 1).

(** The year and its day, of a day of the 400-year cycle. *)
Definition yearDay (doe : Z) : Z * Z :=
  let c := Z.min 3 (doe / 36524) in
  let r := doe - c * 36524 in
  let q := r / 1461 in
  let r' := r - q * 1461 in
  let y := Z.min 3 (r' / 365) in
  (100 * c + 4 * q + y, r' - y * 365).

(** The date that a count of days since 1970-01-01 is. *)
Definition civilFromDays (days : Z) : Z * Z * Z :=
  let z := days + 719468 in
  let '(yoe, doy) := yearDay (z mod 146097) in
  let '(mp, d) := monthDay doy in
  let m := if mp <? 10 then mp + 3 else mp - 9 in
  let y' := yoe + z / 146097 * 400 in
  (if m <=? 2 then y' + 1 else y', m, d).

(** [n] digits of a number, with zeros in front. *)
Fixpoint pad (n : nat) (v : Z) : jstr :=
  match n with
  | O => []
  | S n' => pad n' (v / 10) ++ [48 + v mod 10]
  end.

Definition yearText (y : Z) : jstr :=
  if (0 <=? y) && (y <=? 9999) then pad 4 y
  else (if y <? 0 then js "-" else js "+") ++ pad 6 (Z.abs y).

(** [new Date(t).toISOString()]. *)
Definition toISOString (t : Z) : jstr :=
  let r := t mod 86400000 in
  let '(y, m, d) := civilFromDays (t / 86400000) in
  yearText y ++ js "-" ++ pad 2 m ++ js "-" ++ pad 2 d ++ js "T"
  ++ pad 2 (r / 3600000) ++ js ":" ++ pad 2 (r / 60000 mod 60) ++ js ":" ++ pad 2 (r / 1000 mod 60)
  ++ js "." ++ pad 3 (r mod 1000) ++ js "Z".

Example toISOString_leap : toISOString 1709251199000 = js "2024-02-29T23:59:59.000Z".
Proof. vm_compute. reflexivity. Qed.

(** ** A written time is read back *)

(** A day of a year is a date of it; only the last one needs a leap year. *)
Definition dayIsDate (doy : Z) : bool :=
  let '(mp, d) := monthDay doy in
  let m := if mp <? 10 then mp + 3 else mp - 9 in
  (0 <=? mp) && (mp <=? 11) && (1 <=? d) && (d <=? 31) && (d <=? daysInMonth (if doy =? 365 then 4 else 1) m)
  && ((153 * mp + 2) / 5 + d - 1 =? doy).

Lemma days_are_dates doy : 0 <= doy <= 365 → dayIsDate doy = true.
Proof.
  intros H. assert (forallb (λ i, dayIsDate (Z.of_nat i)) (seq 0 366) = true) as HA by (vm_compute; reflexivity).
  rewrite forallb_forall in HA. specialize (HA (Z.to_nat doy)). rewrite in_seq, Z2Nat.id in HA by lia. apply HA. lia.
Qed.

Lemma yearDay_spec doe yoe doy :
  0 <= doe < 146097 → yearDay doe = (yoe, doy) →
  0 <= yoe < 400 ∧ 0 <= doy <= 365 ∧ yoe * 365 + yoe / 4 - yoe / 100 + doy = doe ∧ (doy = 365 → leap (yoe + 1) = true).
Proof.
  intros H. unfold yearDay. set (c := Z.min 3 (doe / 36524)). set (r := doe - c * 36524). set (q := r / 1461).
  set (r' := r - q * 1461). set (y := Z.min 3 (r' / 365)). intros [= <- <-].
  assert (0 <= c <= 3 ∧ 0 <= r <= 36524 ∧ (r = 36524 → c = 3)) as (Hc & Hr & Hr3)
    by (subst r c; Z.to_euclidean_division_equations; lia).
  assert (0 <= q <= 24 ∧ 0 <= r' <= 1460) as (Hq & Hr') by (subst r' q; Z.to_euclidean_division_equations; lia).
  assert (0 <= y <= 3 ∧ 0 <= r' - y * 365 <= 365 ∧ (r' - y * 365 = 365 → y = 3 ∧ r' = 1460)) as (Hy & Hd & Hl)
    by (subst y; Z.to_euclidean_division_equations; lia).
  split; [lia|]. split; [done|]. split.
  - replace ((100 * c + 4 * q + y) / 4) with (25 * c + q) by (apply Z.div_unique with y; lia).
    replace ((100 * c + 4 * q + y) / 100) with c by (apply Z.div_unique with (4 * q + y); lia). subst r' r. lia.
  - intros E. destruct (Hl E) as [-> E']. unfold leap.
    replace ((100 * c + 4 * q + 3 + 1) mod 4) with 0 by (apply Z.mod_unique with (25 * c + q + 1); lia).
    destruct (decide (q = 24)) as [->|Nq].
    + assert (c = 3) as -> by (apply Hr3; subst r'; lia). done.
    + replace ((100 * c + 4 * q + 3 + 1) mod 100) with (4 * q + 4) by (apply Z.mod_unique with c; lia).
      destruct (4 * q + 4 =? 0) eqn:E0; [lia|done].
Qed.

Lemma leap_cycle y k : leap (y + k * 400) = leap y.
Proof.
  unfold leap. rewrite Z.mod_add by lia. replace (y + k * 400) with (y + (100 * k) * 4) at 1 by ring. rewrite Z.mod_add by lia.
  replace (y + k * 400) with (y + (4 * k) * 100) by ring. by rewrite Z.mod_add by lia.
Qed.

(** The date of a day, read back. *)
Lemma civil_roundtrip days y m d :
  civilFromDays days = (y, m, d) →
  daysFromCivil y m d = days ∧ 1 <= m <= 12 ∧ 1 <= d <= 31 ∧ d <= daysInMonth y m.
Proof.
  unfold civilFromDays. set (z := days + 719468). pose proof (Z.mod_pos_bound z 146097 ltac:(lia)) as Hz.
  destruct (yearDay (z mod 146097)) as [yoe doy] eqn:EY. apply yearDay_spec in EY as (Hy & Hd & Hs & Hl); [|done].
  pose proof (days_are_dates doy Hd) as HD. unfold dayIsDate in HD. destruct (monthDay doy) as [mp d0].
  set (m0 := if mp <? 10 then mp + 3 else mp - 9) in *. intros [= <- <- <-].
  rewrite !andb_true_iff, !Z.leb_le, Z.eqb_eq in HD. destruct HD as [[[[[Hp0 Hp] Hd1] Hd2] Hdim] Hdoy].
  set (y' := yoe + z / 146097 * 400).
  assert ((m0 <=? 2) = (10 <=? mp)) as EM by (subst m0; destruct (mp <? 10) eqn:?; lia).
  assert ((if 2 <? m0 then m0 - 3 else m0 + 9) = mp) as EP
    by (subst m0; destruct (mp <? 10) eqn:?; destruct (2 <? _) eqn:?; lia).
  split_and!; try lia.
  - unfold daysFromCivil. rewrite EP.
    replace (if m0 <=? 2 then (if m0 <=? 2 then y' + 1 else y') - 1 else if m0 <=? 2 then y' + 1 else y') with y'
      by (destruct (m0 <=? 2); ring).
    replace (y' / 400) with (z / 146097) by (apply Z.div_unique with yoe; subst y'; lia).
    replace (y' - z / 146097 * 400) with yoe by (subst y'; ring).
    pose proof (Z.div_mod z 146097). subst z. lia.
  - subst m0; destruct (mp <? 10) eqn:?; lia.
  - subst m0; destruct (mp <? 10) eqn:?; lia.
  - destruct (decide (doy = 365)) as [E|N].
    + specialize (Hl E). rewrite E in Hdim. simpl in Hdim. rewrite EM. unfold daysInMonth in *. destruct (m0 =? 2) eqn:E2; [|done].
      assert ((10 <=? mp) = true) as -> by (rewrite <- EM; lia). unfold y'.
      replace (yoe + z / 146097 * 400 + 1) with (yoe + 1 + z / 146097 * 400) by ring. by rewrite leap_cycle, Hl.
    + apply Z.eqb_neq in N. rewrite N in Hdim. unfold daysInMonth in *. destruct (m0 =? 2); [|exact Hdim].
      change (leap 1) with false in Hdim. cbv iota in Hdim. clear - Hdim. destruct (leap _); lia.
Qed.

Lemma pad_length n v : length (pad n v) = n.
Proof. revert v. induction n as [|n IH]; intros v; simpl; [done|]. rewrite length_app, IH. simpl. lia. Qed.

Lemma pad_digits n v : forallb Json.is_digit (pad n v) = true.
Proof.
  revert v. induction n as [|n IH]; intros v; simpl; [done|]. rewrite forallb_app, IH. simpl.
  pose proof (Z.mod_pos_bound v 10 ltac:(lia)). unfold Json.is_digit. lia.
Qed.

Lemma pad_value n v : 0 <= v < 10 ^ Z.of_nat n → foldl (λ a c, a * 10 + (c - 48)) 0 (pad n v) = v.
Proof.
  revert v. induction n as [|n IH]; intros v Hv; simpl pad; [simpl in *; lia|].
  rewrite foldl_app. cbn [foldl]. rewrite IH; [pose proof (Z.div_mod v 10 ltac:(lia)); lia|].
  rewrite Nat2Z.inj_succ, Z.pow_succ_r in Hv by lia.
  split; [apply Z.div_pos; lia|apply Z.div_lt_upper_bound; lia].
Qed.

Lemma num_pad pre n v post : 0 <= v < 10 ^ Z.of_nat n → num (length pre) n (pre ++ pad n v ++ post) = Some v.
Proof.
  intros Hv. unfold num. rewrite drop_app_length, take_app_length' by (by rewrite pad_length).
  by rewrite pad_length, Nat.eqb_refl, pad_digits, pad_value.
Qed.

(** The fields of the text of a time. *)
Lemma isoUtc_fields y m d h mi s ms :
  0 <= y <= 9999 → 1 <= m <= 12 → 1 <= d <= 31 → d <= daysInMonth y m → 0 <= h <= 23 → 0 <= mi <= 59 → 0 <= s <= 59 → 0 <= ms <= 999 →
  isoUtc (pad 4 y ++ js "-" ++ pad 2 m ++ js "-" ++ pad 2 d ++ js "T" ++ pad 2 h ++ js ":" ++ pad 2 mi ++ js ":" ++ pad 2 s
          ++ js "." ++ pad 3 ms ++ js "Z")
  = Some ((((daysFromCivil y m d * 24 + h) * 60 + mi) * 60 + s) * 1000 + ms).
Proof.
  intros. set (t := pad 4 y ++ _).
  assert (num 0 4 t = Some y) as E1 by (apply (num_pad []); simpl; lia).
  assert (num 5 2 t = Some m) as E2 by (refine (num_pad (pad 4 y ++ js "-") 2 m _ _); simpl; lia).
  assert (num 8 2 t = Some d) as E3 by (refine (num_pad (pad 4 y ++ js "-" ++ pad 2 m ++ js "-") 2 d _ _); simpl; lia).
  assert (num 11 2 t = Some h) as E4 by (refine (num_pad (pad 4 y ++ js "-" ++ pad 2 m ++ js "-" ++ pad 2 d ++ js "T") 2 h _ _); simpl; lia).
  assert (num 14 2 t = Some mi) as E5
    by (refine (num_pad (pad 4 y ++ js "-" ++ pad 2 m ++ js "-" ++ pad 2 d ++ js "T" ++ pad 2 h ++ js ":") 2 mi _ _); simpl; lia).
  assert (num 17 2 t = Some s) as E6
    by (refine (num_pad (pad 4 y ++ js "-" ++ pad 2 m ++ js "-" ++ pad 2 d ++ js "T" ++ pad 2 h ++ js ":" ++ pad 2 mi ++ js ":") 2 s _ _);
        simpl; lia).
  assert (num 20 3 t = Some ms) as E7
    by (refine (num_pad (pad 4 y ++ js "-" ++ pad 2 m ++ js "-" ++ pad 2 d ++ js "T" ++ pad 2 h ++ js ":" ++ pad 2 mi ++ js ":" ++ pad 2 s ++ js ".") 3 ms _ _);
        simpl; lia).
  assert (millis t = Some ms) as EM by (unfold millis; rewrite E7; done).
  unfold isoUtc. rewrite E1, E2, E3, E4, E5, E6, EM. cbn [mbind option_bind].
  change (charAt 4 45 t && charAt 7 45 t && charAt 10 84 t && charAt 13 58 t && charAt 16 58 t) with true.
  repeat match goal with |- context [?a <=? ?b] => replace (a <=? b) with true by lia end. done.
Qed.

(** A time in the years 0 to 9999 is read back from its text. *)
Lemma toISOString_parse t other :
  -62167219200000 <= t < 253402300800000 → dateParse other (toISOString t) = Some t.
Proof.
  intros Ht. unfold toISOString, dateParse. destruct (civilFromDays (t / 86400000)) as [[y m] d] eqn:E.
  apply civil_roundtrip in E as (Hdays & Hm & Hd & Hdim). set (r := t mod 86400000).
  pose proof (Z.mod_pos_bound t 86400000 ltac:(lia)) as Hr. fold r in Hr. pose proof (Z.div_mod t 86400000 ltac:(lia)) as Hdm. fold r in Hdm.
  assert (0 <= y <= 9999) as Hy.
  { assert (-719528 <= daysFromCivil y m d < 2932897) as Hb by (Z.to_euclidean_division_equations; lia). revert Hb. clear - Hm Hd.
    unfold daysFromCivil. intros Hb. destruct (m <=? 2) eqn:?, (2 <? m) eqn:?; Z.to_euclidean_division_equations; lia. }
  unfold yearText. replace ((0 <=? y) && (y <=? 9999)) with true by lia.
  rewrite isoUtc_fields; [| |done..|idtac|idtac|idtac|]; try done; try (Z.to_euclidean_division_equations; lia).
  f_equal. rewrite Hdays. Z.to_euclidean_division_equations; lia.
Qed.

End IsoDate.
