(* ===== verification/Utf8.v ===== *)
(** * UTF-8: how text becomes the bytes of a file and is read back

    [encode] is what Node writes for a string (an unpaired surrogate becomes
    U+FFFD), [decode] what [readFileSync(path, "utf8")] gives for bytes, the
    replacement of malformed sequences (one U+FFFD per maximal subpart)
    included.  [JsonLine] is what the code that keeps one value per line relies
    on; [json_line] shows that [JSON.stringify] and [JSON.parse] provide it. *)

From Stdlib Require Import Lia ZArith.
From stdpp Require Import base list strings sets.
From S2P Require Import Prelude JsString Json.

Open Scope Z_scope.

Definition REPLACEMENT : Z := 0xfffd.

(** The bytes of one code unit that is no half of a pair. *)
Definition encode_unit (c : Z) : list Z :=
  utf8_bytes (if is_high c || is_low c then REPLACEMENT else c).

Fixpoint encode (s : jstr) : list Z :=
  match s with
  | [] => []
  | c :: s' =>
      match s' with
      | d :: s'' =>
          if is_high c && is_low d then utf8_bytes (pair_point c d) ++ encode s''
          else encode_unit c ++ encode s'
      | [] => encode_unit c
      end
  end.

Definition between (lo hi b : Z) : bool := (lo <=? b) && (b <=? hi).
Definition is_cont (b : Z) : bool := between 0x80 0xbf b.

(** The UTF-16 units of a code point. *)
Definition units_of (cp : Z) : jstr :=
  if cp <? 0x10000 then [cp]
  else [0xd800 + (cp - 0x10000) / 1024; 0xdc00 + (cp - 0x10000) mod 1024].

Fixpoint decode (bs : list Z) : jstr :=
  match bs with
  | [] => []
  | b :: r =>
      if b <=? 0x7f then b :: decode r
      else if between 0xc2 0xdf b then
        match r with
        | c :: r1 =>
            if is_cont c then units_of ((b - 0xc0) * 64 + (c - 0x80)) ++ decode r1
            else REPLACEMENT :: decode r
        | [] => [REPLACEMENT]
        end
      else if between 0xe0 0xef b then
        match r with
        | c :: r1 =>
            if between (if b =? 0xe0 then 0xa0 else 0x80) (if b =? 0xed then 0x9f else 0xbf) c then
              match r1 with
              | d :: r2 =>
                  if is_cont d then
                    units_of ((b - 0xe0) * 4096 + (c - 0x80) * 64 + (d - 0x80)) ++ decode r2
                  else REPLACEMENT :: decode r1
              | [] => [REPLACEMENT]
              end
            else REPLACEMENT :: decode r
        | [] => [REPLACEMENT]
        end
      else if between 0xf0 0xf4 b then
        match r with
        | c :: r1 =>
            if between (if b =? 0xf0 then 0x90 else 0x80) (if b =? 0xf4 then 0x8f else 0xbf) c then
              match r1 with
              | d :: r2 =>
                  if is_cont d then
                    match r2 with
                    | e :: r3 =>
                        if is_cont e then
                          units_of ((b - 0xf0) * 262144 + (c - 0x80) * 4096 + (d - 0x80) * 64 + (e - 0x80))
                            ++ decode r3
                        else REPLACEMENT :: decode r2
                    | [] => [REPLACEMENT]
                    end
                  else REPLACEMENT :: decode r1
              | [] => [REPLACEMENT]
              end
            else REPLACEMENT :: decode r
        | [] => [REPLACEMENT]
        end
      else REPLACEMENT :: decode r
  end.

(** A code point that a well-formed text may hold. *)
Definition scalar (cp : Z) : Prop := 0 <= cp < 0xd800 ∨ 0xe000 <= cp < 0x110000.

Ltac btrue :=
  match goal with
  | |- context [between ?lo ?hi ?b] =>
      replace (between lo hi b) with true
        by (symmetry; unfold between; apply andb_true_iff; rewrite !Z.leb_le;
            Z.to_euclidean_division_equations; lia)
  end.
Ltac bfalse :=
  match goal with
  | |- context [between ?lo ?hi ?b] =>
      replace (between lo hi b) with false
        by (symmetry; unfold between; apply andb_false_iff; rewrite !Z.leb_gt;
            Z.to_euclidean_division_equations; lia)
  end.

Lemma decode_point cp r : scalar cp → decode (utf8_bytes cp ++ r) = units_of cp ++ decode r.
Proof.
  intros Hcp. unfold utf8_bytes.
  destruct (Z.leb_spec cp 0x7f) as [H1|H1].
  { cbn [app decode]. rewrite (proj2 (Z.leb_le _ _)) by lia. unfold units_of.
    by rewrite (proj2 (Z.ltb_lt _ _)) by lia. }
  destruct (Z.leb_spec cp 0x7ff) as [H2|H2].
  { cbn [app decode]. rewrite (proj2 (Z.leb_gt _ _)) by (Z.to_euclidean_division_equations; lia).
    btrue. unfold is_cont. btrue. do 2 f_equal. Z.to_euclidean_division_equations; lia. }
  destruct (Z.leb_spec cp 0xffff) as [H3|H3].
  { cbn [app decode]. rewrite (proj2 (Z.leb_gt _ _)) by (Z.to_euclidean_division_equations; lia).
    bfalse. btrue. unfold is_cont. unfold scalar in Hcp.
    destruct (Z.eqb_spec (0xe0 + cp / 4096) 0xe0); destruct (Z.eqb_spec (0xe0 + cp / 4096) 0xed);
      btrue; btrue; do 2 f_equal; Z.to_euclidean_division_equations; lia. }
  cbn [app decode]. rewrite (proj2 (Z.leb_gt _ _)) by (Z.to_euclidean_division_equations; lia).
  unfold scalar in Hcp. bfalse. bfalse. btrue. unfold is_cont.
  destruct (Z.eqb_spec (0xf0 + cp / 262144) 0xf0); destruct (Z.eqb_spec (0xf0 + cp / 262144) 0xf4);
    btrue; btrue; btrue; do 2 f_equal; Z.to_euclidean_division_equations; lia.
Qed.

(** Text without unpaired surrogates, of code units. *)
Fixpoint well_formed (s : jstr) : bool :=
  match s with
  | [] => true
  | c :: s' =>
      if is_high c then
        match s' with
        | d :: s'' => is_low d && well_formed s''
        | [] => false
        end
      else negb (is_low c) && between 0 0xffff c && well_formed s'
  end.

Lemma pair_units c d : is_high c = true → is_low d = true → scalar (pair_point c d) ∧ units_of (pair_point c d) = [c; d].
Proof.
  unfold is_high, is_low, scalar, units_of, pair_point. intros. zbool.
  rewrite (proj2 (Z.ltb_ge _ _)) by lia. split; [lia|].
  f_equal; [|f_equal]; Z.to_euclidean_division_equations; lia.
Qed.

Lemma encode_cons_single c s :
  is_high c = false → encode (c :: s) = encode_unit c ++ encode s.
Proof. intros Hc. simpl. destruct s as [|d s]; [by rewrite app_nil_r|]. by rewrite Hc. Qed.

Lemma decode_encode_app s r : well_formed s = true → decode (encode s ++ r) = s ++ decode r.
Proof.
  induction s as [s IH] using (induction_ltof1 _ (@length Z)). unfold ltof in IH.
  destruct s as [|c s]; [done|]. intros Hw. simpl in Hw. destruct (is_high c) eqn:Eh.
  - destruct s as [|d s]; [done|]. apply andb_true_iff in Hw as [El Hw].
    cbn [encode]. rewrite Eh, El. simpl. rewrite <- app_assoc.
    destruct (pair_units c d Eh El) as [Hs Hu]. rewrite decode_point, Hu by done.
    simpl. by rewrite IH by (simpl; lia || done).
  - apply andb_true_iff in Hw as [Hw' Hw]. apply andb_true_iff in Hw' as [Hl Hb].
    apply negb_true_iff in Hl. rewrite encode_cons_single by done. unfold encode_unit. rewrite Eh, Hl.
    simpl. rewrite <- app_assoc, decode_point; [rewrite IH; [|simpl; lia|done]|].
    + unfold units_of, between in *. zbool. by rewrite (proj2 (Z.ltb_lt _ _)) by lia.
    + unfold scalar, between, is_high, is_low in *. zbool. lia.
Qed.

Lemma encode_pair c d s :
  is_high c && is_low d = true → encode (c :: d :: s) = utf8_bytes (pair_point c d) ++ encode s.
Proof. intros E. cbn [encode]. by rewrite E. Qed.

Lemma encode_single c d s :
  is_high c && is_low d = false → encode (c :: d :: s) = encode_unit c ++ encode (d :: s).
Proof. intros E. remember (d :: s) as ds eqn:Eds. simpl. rewrite Eds, E. by subst. Qed.

Lemma encode_app_sep s c r :
  is_low c = false → encode (s ++ c :: r) = encode s ++ encode (c :: r).
Proof.
  intros Hc. induction s as [|x|x d s E IH|x d s E IH] using utf16_ind.
  - done.
  - cbn [app]. assert (is_high x && is_low c = false) as E by (rewrite Hc; apply andb_false_r).
    remember (c :: r) as cr eqn:Ecr. simpl. subst cr. by rewrite E.
  - cbn [app]. rewrite !encode_pair, IH by done. apply app_assoc.
  - cbn [app] in *. rewrite !encode_single, IH by done. apply app_assoc.
Qed.

Lemma utf8_bytes_big cp b : 0x7f < cp → b ∈ utf8_bytes cp → 0x80 <= b.
Proof.
  intros Hcp. unfold utf8_bytes. rewrite (proj2 (Z.leb_gt _ _)) by lia.
  split_match; rewrite ?elem_of_cons, elem_of_nil; zbool; intros Hb;
    (repeat destruct Hb as [Hb|Hb]); try done; Z.to_euclidean_division_equations; lia.
Qed.

Lemma encode_unit_elem c b : b < 0x80 → b ∈ encode_unit c → b = c.
Proof.
  intros Hb. unfold encode_unit. destruct (is_high c || is_low c) eqn:E.
  - intros H. apply utf8_bytes_big in H; unfold REPLACEMENT; lia.
  - destruct (decide (c <= 0x7f)) as [Hc|Hc].
    + unfold utf8_bytes. rewrite (proj2 (Z.leb_le _ _)) by done. by intros ->%list_elem_of_singleton.
    + intros H. apply utf8_bytes_big in H; lia.
Qed.

(** A byte below 0x80 stands only for its own character. *)
Lemma encode_elem s b : b < 0x80 → b ∈ encode s → b ∈ s.
Proof.
  intros Hb. induction s as [|c|c d s E IH|c d s E IH] using utf16_ind.
  - done.
  - simpl. intros ->%encode_unit_elem; [set_solver|done].
  - rewrite encode_pair by done. intros [H|H]%elem_of_app; [|set_solver].
    apply andb_true_iff in E as [Eh El]. apply utf8_bytes_big in H; [lia|].
    unfold pair_point, is_high, is_low in *. zbool. lia.
  - rewrite encode_single by done. intros [H|H]%elem_of_app; [|set_solver].
    apply encode_unit_elem in H; [set_solver|done].
Qed.

(** ** One value per line *)

Lemma well_formed_app a b : well_formed a = true → well_formed b = true → well_formed (a ++ b) = true.
Proof.
  intros Ha Hb. revert Ha.
  induction a as [a IH] using (induction_ltof1 _ (@length Z)). unfold ltof in IH.
  destruct a as [|c a]; [done|]. simpl. destruct (is_high c).
  - destruct a as [|d a]; [done|]. simpl. rewrite !andb_true_iff. intros [? ?].
    split; [done|]. apply IH; [simpl; lia|done].
  - rewrite !andb_true_iff. intros [[? ?] ?]. split_and!; [done|done|]. apply IH; [simpl; lia|done].
Qed.

Lemma ascii_well_formed s : Forall (λ c, 0 <= c <= 0x7f) s → well_formed s = true.
Proof.
  induction 1 as [|c s Hc _ IH]; [done|]. cbn [well_formed]. unfold is_high, is_low, between.
  rewrite (proj2 (Z.leb_gt 0xd800 c)), (proj2 (Z.leb_gt 0xdc00 c)), (proj2 (Z.leb_le 0 c)),
    (proj2 (Z.leb_le c 0xffff)) by lia. done.
Qed.

Lemma encode_ascii s : Forall (λ c, 0 <= c <= 0x7f) s → encode s = s.
Proof.
  induction 1 as [|c s Hc _ IH]; [done|].
  assert (is_high c = false) as Eh by (unfold is_high; apply andb_false_iff; rewrite Z.leb_gt; lia).
  assert (is_low c = false) as El by (unfold is_low; apply andb_false_iff; rewrite Z.leb_gt; lia).
  rewrite encode_cons_single, IH by done. unfold encode_unit, utf8_bytes. rewrite Eh, El. simpl.
  by rewrite (proj2 (Z.leb_le _ _)) by lia.
Qed.

Lemma escape_u_ascii c : Forall (λ c, 0 <= c <= 0x7f) (Json.escape_u c).
Proof.
  unfold Json.escape_u.
  assert (∀ x, 0 <= Json.hex_lower (x mod 16) <= 0x7f) as Hx.
  { intros x. unfold Json.hex_lower. pose proof (Z.mod_pos_bound x 16). split_match; lia. }
  repeat constructor; try lia; apply Hx.
Qed.

Lemma escape_u_well_formed c : well_formed (Json.escape_u c) = true.
Proof. apply ascii_well_formed, escape_u_ascii. Qed.

Lemma escape_unit_well_formed c :
  Json.unit_ok c → is_high c = false → is_low c = false → well_formed (Json.escape_unit c) = true.
Proof.
  intros Hc Hh Hl. unfold Json.escape_unit.
  repeat match goal with
  | |- context [if ?x =? ?y then _ else _] => destruct (Z.eqb_spec x y); [done|]
  end.
  destruct (c <? 32); [apply escape_u_well_formed|].
  simpl. rewrite Hh, Hl. unfold between, Json.unit_ok in *.
  by rewrite (proj2 (Z.leb_le 0 c)), (proj2 (Z.leb_le c 0xffff)) by lia.
Qed.

Lemma escape_well_formed s : Forall Json.unit_ok s → well_formed (Json.escape s) = true.
Proof.
  induction s as [s IH] using (induction_ltof1 _ (@length Z)). unfold ltof in IH.
  destruct s as [|c s]; [done|]. intros [Hc Hs]%Forall_cons. cbn [Json.escape].
  assert (well_formed (Json.escape s) = true) as Hrest by (apply IH; [simpl; lia|done]).
  destruct (is_high c) eqn:Eh; [destruct s as [|d s]|destruct (is_low c) eqn:El].
  - apply escape_u_well_formed.
  - destruct (is_low d) eqn:El; [|by apply well_formed_app; [apply escape_u_well_formed|]].
    cbn [well_formed]. rewrite Eh, El. apply IH; [simpl; lia|]. by apply Forall_cons in Hs as [_ ?].
  - by apply well_formed_app; [apply escape_u_well_formed|].
  - by apply well_formed_app; [apply escape_unit_well_formed|].
Qed.

Lemma join_well_formed sep l :
  0 <= sep <= 0x7f → Forall (λ p, well_formed p = true) l → well_formed (join [sep] l) = true.
Proof.
  intros Hs. induction 1 as [|p l Hp Hl IH]; [done|]. destruct l as [|q l]; [done|].
  change (well_formed (p ++ [sep] ++ join [sep] (q :: l)) = true).
  apply well_formed_app; [done|]. apply well_formed_app; [|done].
  apply ascii_well_formed. by constructor.
Qed.

Lemma quote_well_formed s : Forall Json.unit_ok s → well_formed (Json.quote s) = true.
Proof.
  intros Hs. apply (well_formed_app [34]); [done|].
  apply well_formed_app; [by apply escape_well_formed|done].
Qed.

(** A unit takes at most 6 bytes of JSON. *)
Lemma escape_unit_bytes c : utf8ByteLength (Json.escape_unit c) <= 6.
Proof.
  unfold Json.escape_unit.
  repeat match goal with
  | |- context [if ?x =? ?y then _ else _] => destruct (Z.eqb_spec x y); [done|]
  end.
  destruct (c <? 32); [by rewrite utf8_ascii by apply escape_u_ascii|].
  change (utf8ByteLength [c]) with (unit_bytes c). pose proof (unit_bytes_bounds c). lia.
Qed.

Lemma escape_bytes s : utf8ByteLength (Json.escape s) <= 6 * Z.of_nat (length s).
Proof.
  assert (∀ c, utf8ByteLength (Json.escape_u c) = 6) as Hu by (intros c; by rewrite utf8_ascii by apply escape_u_ascii).
  induction s as [|c|c d s E IH|c d s E IH] using utf16_ind; [done| | |].
  - cbn [Json.escape]. rewrite !app_nil_r. pose proof (escape_unit_bytes c). destruct (is_high c), (is_low c); rewrite ?Hu; cbn [length]; lia.
  - apply andb_true_iff in E as E'. destruct E' as [Eh El]. cbn [Json.escape]. rewrite Eh, El, utf8_pair by done. cbn [length]. lia.
  - cbn [length] in *. remember (d :: s) as t eqn:Et. cbn [Json.escape].
    assert (∀ x, utf8ByteLength x <= 6 → utf8ByteLength (x ++ Json.escape t) <= 6 + utf8ByteLength (Json.escape t)) as Hx.
    { intros x Hx. etransitivity; [apply utf8_app_le|]. lia. }
    assert (utf8ByteLength (if is_high c then Json.escape_u c ++ Json.escape t
                            else if is_low c then Json.escape_u c ++ Json.escape t else Json.escape_unit c ++ Json.escape t)
            <= 6 + utf8ByteLength (Json.escape t)) as Hc.
    { destruct (is_high c), (is_low c); apply Hx; rewrite ?Hu; try apply escape_unit_bytes; lia. }
    subst t. destruct (is_high c); [|lia]. destruct (is_low d); [done|lia].
Qed.

Lemma quote_bytes s : utf8ByteLength (Json.quote s) <= 6 * Z.of_nat (length s) + 2.
Proof.
  unfold Json.quote. etransitivity; [apply utf8_app_le|]. change (utf8ByteLength [34]) with 1.
  pose proof (utf8_app_le (Json.escape s) [34]) as H. change (utf8ByteLength [34]) with 1 in H. pose proof (escape_bytes s). lia.
Qed.

Lemma stringify_well_formed v : Json.units_ok v → well_formed (Json.stringify v) = true.
Proof.
  induction v as [|b|n|s|l IH|l IH] using Json.json_rect'; intros HU; inversion HU; subst.
  - done.
  - by destruct b.
  - apply ascii_well_formed. cbn [Json.stringify]. unfold Json.of_Z.
    assert (∀ m, 0 <= m → Forall (λ c, 0 <= c <= 0x7f) (of_int m)) as Hm.
    { intros m Hm. eapply Forall_impl; [by apply Json.digits_of_int|].
      intros c. unfold Json.is_digit. rewrite andb_true_iff, !Z.leb_le. lia. }
    destruct (Z.ltb_spec n 0); [constructor; [lia|]|]; apply Hm; lia.
  - by apply quote_well_formed.
  - cbn [Json.stringify]. apply (well_formed_app [91]); [done|]. apply well_formed_app; [|done].
    apply join_well_formed; [done|]. apply Forall_fmap. rewrite Forall_forall in *. naive_solver.
  - cbn [Json.stringify]. apply (well_formed_app [123]); [done|]. apply well_formed_app; [|done].
    apply join_well_formed; [done|]. apply Forall_fmap. rewrite Forall_forall in *.
    intros m Hm. simpl. apply (well_formed_app (Json.quote m.1)); [apply quote_well_formed; naive_solver|].
    apply (well_formed_app [58]); [done|]. naive_solver.
Qed.

(** What the code that keeps one value per line relies on: a printed value is
    one non-empty line that UTF-8 keeps, and it reads back. *)
Class JsonLine (T : Type) := {
  print_line : T → jstr;
  read_line : jstr → option T;
  line_ok : T → Prop;
  read_print : ∀ x, line_ok x → read_line (print_line x) = Some x;
  print_well_formed : ∀ x, line_ok x → well_formed (print_line x) = true;
  no_newline : ∀ x, 10 ∉ print_line x;
  not_blank : ∀ x, print_line x ≠ [];
}.

Lemma json_not_blank v : Json.stringify v ≠ [].
Proof. by destruct (Json.stringify_head v) as (c & t & -> & _). Qed.

#[export] Instance json_line : JsonLine Json.json := {|
  print_line := Json.stringify;
  read_line := Json.parse;
  line_ok := Json.units_ok;
  read_print := Json.parse_stringify;
  print_well_formed := stringify_well_formed;
  no_newline := Json.no_nl_stringify;
  not_blank := json_not_blank;
|}.
