(* ===== verification/Sql.v ===== *)
(** * What the SQLite stores share: text order, ORDER BY and LIMIT

    SQLite compares TEXT by its UTF-8 bytes (the BINARY collation); JavaScript
    strings reach it as UTF-8. *)

From Stdlib Require Import Lia ZArith.
From stdpp Require Import base list strings sets sorting.
From S2P Require Import Prelude JsString Json Utf8.

Open Scope Z_scope.

Module Sql.

(** ** Text *)

Fixpoint bytesLt (a b : list Z) : bool :=
  match a, b with
  | _, [] => false
  | [], _ :: _ => true
  | x :: a', y :: b' => (x <? y) || ((x =? y) && bytesLt a' b')
  end.

(** SQLite's BINARY collation. *)
Definition textLt (a b : jstr) : bool := bytesLt (encode a) (encode b).

(** ** ORDER BY and LIMIT *)

(** [ORDER BY] with a strict order, stable. *)
Fixpoint insertBy {A} (lt : A → A → bool) (x : A) (l : list A) : list A :=
  match l with
  | [] => [x]
  | y :: l' => if lt y x then y :: insertBy lt x l' else x :: l
  end.

Definition orderBy {A} (lt : A → A → bool) (l : list A) : list A := foldr (insertBy lt) [] l.

(** [LIMIT n]: a negative one is none. *)
Definition limitTo {A} (n : Z) (l : list A) : list A := if n <? 0 then l else take (Z.to_nat n) l.

(** ** Lemmas *)

Lemma insertBy_perm {A} (lt : A → A → bool) x l : insertBy lt x l ≡ₚ x :: l.
Proof.
  induction l as [|y l IH]; simpl; [done|]. destruct (lt y x); [|done]. transitivity (y :: x :: l); [by constructor|constructor].
Qed.

Lemma orderBy_perm {A} (lt : A → A → bool) l : orderBy lt l ≡ₚ l.
Proof. induction l as [|x l IH]; simpl; [done|]. etransitivity; [apply insertBy_perm|by constructor]. Qed.

Lemma orderBy_elem {A} (lt : A → A → bool) l x : x ∈ orderBy lt l ↔ x ∈ l.
Proof. by rewrite orderBy_perm. Qed.

Lemma bytesLt_irrefl a : bytesLt a a = false.
Proof. induction a as [|x a IH]; simpl; [done|]. by rewrite Z.ltb_irrefl, Z.eqb_refl, IH. Qed.

Lemma bytesLt_cons x a y b : bytesLt (x :: a) (y :: b) = true ↔ x < y ∨ x = y ∧ bytesLt a b = true.
Proof. simpl. rewrite orb_true_iff, andb_true_iff, Z.ltb_lt, Z.eqb_eq. done. Qed.

Lemma bytesLt_trans a b c : bytesLt a b = true → bytesLt b c = true → bytesLt a c = true.
Proof.
  revert b c. induction a as [|x a IH]; intros [|y b] [|z c]; try done.
  rewrite !bytesLt_cons. intros [?|[-> ?]] [?|[-> ?]]; [left; lia|by left|by left|right; eauto].
Qed.

Lemma bytesLt_total a b : bytesLt a b = true ∨ a = b ∨ bytesLt b a = true.
Proof.
  revert b. induction a as [|x a IH]; intros [|y b]; [auto|by left|by right; right|]. rewrite !bytesLt_cons.
  destruct (Z.lt_trichotomy x y) as [?|[->|?]]; [auto| |auto].
  destruct (IH b) as [?|[->|?]]; auto.
Qed.

Lemma encode_inj a b : well_formed a = true → well_formed b = true → encode a = encode b → a = b.
Proof.
  intros Ha Hb E. rewrite <- (app_nil_r a), <- (app_nil_r b). change (@nil Z) with (decode []).
  by rewrite <- !decode_encode_app, E.
Qed.

Lemma textLt_total a b :
  well_formed a = true → well_formed b = true → textLt a b = true ∨ a = b ∨ textLt b a = true.
Proof.
  intros Ha Hb. unfold textLt. destruct (bytesLt_total (encode a) (encode b)) as [?|[?|?]]; auto using encode_inj.
Qed.

Section Sorting.
Context {A : Type} (lt : A → A → bool) (P : A → Prop).
Hypothesis lt_irrefl : ∀ a, lt a a = false.
Hypothesis lt_trans : ∀ a b c, lt a b = true → lt b c = true → lt a c = true.
Hypothesis lt_total : ∀ a b, P a → P b → lt a b = true ∨ a = b ∨ lt b a = true.

Lemma insertBy_sorted x l :
  P x → Forall P l → x ∉ l → StronglySorted (λ a b, lt a b = true) l →
  StronglySorted (λ a b, lt a b = true) (insertBy lt x l).
Proof.
  intros Hx HP Hn HS. induction HS as [|y l HS IH Hy]; simpl; [repeat constructor|].
  apply Forall_cons in HP as [Py HP]. destruct (lt y x) eqn:E.
  - constructor; [apply IH; [done|set_solver]|]. rewrite Forall_forall. intros z Hz.
    rewrite insertBy_perm in Hz. apply elem_of_cons in Hz as [->|Hin]; [done|]. rewrite Forall_forall in Hy. auto.
  - assert (lt x y = true) as Hxy by (destruct (lt_total x y) as [?|[->|?]]; [done|done|done|set_solver|congruence]).
    constructor; [by constructor|]. constructor; [done|]. eapply Forall_impl; [exact Hy|]. intros z Hz. by eapply lt_trans.
Qed.

Lemma orderBy_sorted l : Forall P l → NoDup l → StronglySorted (λ a b, lt a b = true) (orderBy lt l).
Proof.
  induction l as [|x l IH]; intros HP HN; simpl; [constructor|].
  apply Forall_cons in HP as [Px HP]. apply NoDup_cons in HN as [Hx HN]. apply insertBy_sorted; [done| | |by apply IH].
  - rewrite Forall_forall in *. intros y Hy%orderBy_elem. auto.
  - by rewrite orderBy_elem.
Qed.

(** A filter and a sort commute. *)
Lemma insertBy_filter (Q : A → Prop) `{∀ a, Decision (Q a)} x l :
  P x → Forall P l → x ∉ l → StronglySorted (λ a b, lt a b = true) l →
  filter Q (insertBy lt x l) = if decide (Q x) then insertBy lt x (filter Q l) else filter Q l.
Proof.
  intros Hx HP Hn HS. induction HS as [|y l HS IH Hy]; simpl.
  - rewrite filter_cons, filter_nil. by destruct (decide (Q x)).
  - apply Forall_cons in HP as [Py HP]. destruct (lt y x) eqn:E.
    + rewrite !filter_cons, IH by (done || set_solver). destruct (decide (Q y)), (decide (Q x)); simpl; rewrite ?E; done.
    + assert (lt x y = true) as Hxy by (destruct (lt_total x y) as [?|[->|?]]; [done|done|done|set_solver|congruence]).
      rewrite filter_cons. destruct (decide (Q x)); [|done]. rewrite filter_cons. destruct (decide (Q y)); simpl.
      * by rewrite E.
      * assert (∀ k, Forall (λ z, lt x z = true) k → insertBy lt x k = x :: k) as Hhead.
        { intros [|z k] Hk; simpl; [done|]. apply Forall_cons in Hk as [Hz _]. destruct (lt z x) eqn:Ez; [|done].
          pose proof (lt_trans _ _ _ Hz Ez) as Hxx. by rewrite lt_irrefl in Hxx. }
        rewrite Hhead; [done|]. rewrite Forall_forall in *. intros z [_ Hz]%list_elem_of_filter. eauto.
Qed.

Lemma orderBy_filter (Q : A → Prop) `{∀ a, Decision (Q a)} l :
  Forall P l → NoDup l → orderBy lt (filter Q l) = filter Q (orderBy lt l).
Proof.
  induction l as [|x l IH]; intros HP HN; [done|]. simpl orderBy at 2.
  apply Forall_cons in HP as [Px HP]. apply NoDup_cons in HN as [Hx HN].
  rewrite insertBy_filter; [|done| |by rewrite orderBy_elem|by apply orderBy_sorted].
  - rewrite filter_cons. destruct (decide (Q x)); simpl; by rewrite IH.
  - rewrite Forall_forall in *. intros y Hy%orderBy_elem. auto.
Qed.

Lemma sorted_after l x k :
  StronglySorted (λ a b, lt a b = true) (l ++ x :: k) → filter (λ y, lt x y = true) (l ++ x :: k) = k.
Proof.
  intros HS. induction l as [|y l IH]; simpl in HS.
  - inversion HS as [|? ? HS' Hx]; subst. rewrite app_nil_l, filter_cons, lt_irrefl. by apply filter_all.
  - inversion HS as [|? ? HS' Hy]; subst. simpl. rewrite filter_cons, decide_False; [by apply IH|].
    intros E. rewrite Forall_forall in Hy. assert (lt y x = true) as E' by (apply Hy; set_solver).
    pose proof (lt_trans _ _ _ E E') as Hxx. by rewrite lt_irrefl in Hxx.
Qed.

(** A strict order sorts a list in one way. *)
Lemma sorted_unique l k :
  StronglySorted (λ a b, lt a b = true) l → StronglySorted (λ a b, lt a b = true) k → l ≡ₚ k → l = k.
Proof.
  intros Hl Hk Hp. assert (AntiSymm (=) (λ a b, lt a b = true)) as Ha.
  { intros a b H1 H2. pose proof (lt_trans _ _ _ H1 H2) as Hx. by rewrite lt_irrefl in Hx. }
  by eapply StronglySorted_unique.
Qed.

(** An element that comes after [n] others is not among the first [n]. *)
Lemma insertBy_take n y l :
  StronglySorted (λ a b, lt a b = true) l → (n <= length (filter (λ z, lt z y = true) l))%nat →
  take n (insertBy lt y l) = take n l.
Proof.
  intros HS. revert n. induction HS as [|z l HS IH Hz]; intros n Hn; [destruct n; [done|simpl in Hn; lia]|]. simpl.
  rewrite filter_cons in Hn. destruct (lt z y) eqn:E.
  - rewrite decide_True in Hn by done. destruct n as [|n]; [done|]. simpl in *. f_equal. apply IH. lia.
  - rewrite decide_False in Hn by done. assert (filter (λ w, lt w y = true) l = []) as Hf; [|rewrite Hf in Hn; simpl in Hn; by replace n with 0%nat by lia].
    apply filter_none. eapply Forall_impl; [exact Hz|]. intros w Hw Hy. pose proof (lt_trans _ _ _ Hw Hy). congruence.
Qed.

(** The first [n] of a sorted union need no more than [n] of a part that is
    sorted already. *)
Lemma orderBy_prefix n l x y :
  Forall P (l ++ x ++ y) → NoDup (l ++ x ++ y) → (∀ a b, a ∈ x → b ∈ y → lt a b = true) → y = [] ∨ (n <= length x)%nat →
  take n (orderBy lt (l ++ x ++ y)) = take n (orderBy lt (l ++ x)).
Proof.
  intros HP HN Hxy Hn. destruct Hn as [->|Hn]; [by rewrite app_nil_r|].
  assert (l ++ x ++ y ≡ₚ y ++ l ++ x) as Hperm by solve_Permutation.
  assert (orderBy lt (l ++ x ++ y) = orderBy lt (y ++ l ++ x)) as ->.
  { apply sorted_unique; [by apply orderBy_sorted| |by rewrite !orderBy_perm]. by apply orderBy_sorted; rewrite <- Hperm. }
  rewrite Hperm in HP, HN. clear Hperm. induction y as [|b y IH]; [done|]. simpl.
  apply Forall_cons in HP as [Hb HP]. apply NoDup_cons in HN as [HbN HN]. rewrite insertBy_take.
  - apply IH; try done. intros a c Ha Hc. apply Hxy; [done|by right].
  - by apply orderBy_sorted.
  - transitivity (length x); [done|]. apply submseteq_length, NoDup_submseteq.
    + apply NoDup_app in HN as (_ & _ & HN). by apply NoDup_app in HN as (_ & _ & ?).
    + intros a Ha. apply list_elem_of_filter. split; [apply Hxy; [done|by left]|]. apply orderBy_elem. rewrite !elem_of_app. auto.
Qed.
End Sorting.

(** An induction on well-formed text by its characters. *)
Lemma chars_ind (P : jstr → Prop) :
  P [] → (∀ c s, is_high c = false → is_low c = false → 0 <= c <= 0xffff → well_formed s = true → P s → P (c :: s)) →
  (∀ c d s, is_high c = true → is_low d = true → well_formed s = true → P s → P (c :: d :: s)) →
  ∀ s, well_formed s = true → P s.
Proof.
  intros H0 H1 H2 s. induction s as [s IH] using (induction_ltof1 _ (@length Z)). unfold ltof in IH.
  destruct s as [|c s]; [done|]. simpl. destruct (is_high c) eqn:Eh.
  - destruct s as [|d s]; [done|]. intros [El Hw]%andb_true_iff. apply H2; try done. apply IH; [simpl; lia|done].
  - intros [[El Hb]%andb_true_iff Hw]%andb_true_iff. unfold between in Hb. zbool.
    apply H1; try done. apply IH; [simpl; lia|done].
Qed.

Lemma encode_app p r : well_formed p = true → encode (p ++ r) = encode p ++ encode r.
Proof.
  revert p. apply chars_ind; [done| |].
  - intros c s Hh Hl _ _ IH. cbn [app]. by rewrite !encode_cons_single, IH, (assoc_L (++)).
  - intros c d s Hh Hl _ IH. cbn [app]. by rewrite !encode_pair, IH, (assoc_L (++)) by (by rewrite Hh, Hl).
Qed.

Lemma well_formed_drop p r : well_formed p = true → well_formed (p ++ r) = true → well_formed r = true.
Proof.
  revert p. apply (chars_ind (λ p, well_formed (p ++ r) = true → well_formed r = true)); [done| |].
  - intros c s Hh Hl _ _ IH. simpl. rewrite Hh. intros [_ ?]%andb_true_iff. auto.
  - intros c d s Hh Hl _ IH. simpl. rewrite Hh. intros [_ ?]%andb_true_iff. auto.
Qed.

Lemma NoDup_snoc_new {A} `{EqDecision A} (l : list A) x : NoDup l → NoDup (l ++ (if decide (x ∈ l) then [] else [x])).
Proof.
  intros Hl. case_decide as Hx; [by rewrite app_nil_r|]. apply NoDup_app. split_and!; [done| |apply NoDup_singleton].
  intros y Hy ->%list_elem_of_singleton. done.
Qed.

End Sql.
