(* ===== verification/Truncate.v ===== *)
(** * The output bounds of the Working tools (harness/src/truncate.ts)

    [truncateHead] keeps the first lines of a text that fit in a number of
    lines and a number of UTF-8 bytes, [truncateTail] the last ones; a last
    line that alone is too long is cut from its end on a character boundary.
    The theorems: the bounds hold, the incremental byte count agrees with the
    length of what is returned, and what is kept is the longest that fits. *)

From Stdlib Require Import Lia ZArith.
From stdpp Require Import base list strings sets.
From S2P Require Import Prelude JsString.

Open Scope Z_scope.

Module Truncate.

Definition DEFAULT_MAX_LINES : Z := 2000.
Definition DEFAULT_MAX_BYTES : Z := 50 * 1024.

Inductive Limit := lines | bytes.

Record TruncationResult := {
  content : jstr;
  truncated : bool;
  truncatedBy : option Limit;
  totalLines : Z;
  totalBytes : Z;
  outputLines : Z;
  outputBytes : Z;
  lastLinePartial : bool;
  firstLineExceedsLimit : bool;
  maxLines : Z;
  maxBytes : Z;
}.

Record TruncationOptions := {
  optLines : option Z;
  optBytes : option Z;
}.

Definition splitLinesForCounting (s : jstr) : list jstr :=
  match s with
  | [] => []
  | _ =>
      let ls := split_on 10 s in
      if ends_with 10 s then removelast ls else ls
  end.

Fixpoint replaceUnpairedSurrogates (s : jstr) : jstr :=
  match s with
  | [] => []
  | c :: s' =>
      if is_high c then
        match s' with
        | d :: s'' =>
            if is_low d then c :: d :: replaceUnpairedSurrogates s''
            else 0xfffd :: replaceUnpairedSurrogates s'
        | [] => [0xfffd]
        end
      else if is_low c then 0xfffd :: replaceUnpairedSurrogates s'
      else c :: replaceUnpairedSurrogates s'
  end.

(** [x.toFixed(1)] of [num / den] for a natural [num] and a power of two
    [den]: the quotient is exact in a double below [2^53], and [toFixed] takes
    the nearest tenth, the larger of two. *)
Definition toFixed1 (num den : Z) : jstr :=
  let tenths := (20 * num + den) / (2 * den) in
  of_int (tenths / 10) ++ js "." ++ of_int (tenths mod 10).

Definition formatSize (n : Z) : jstr :=
  if n <? 1024 then of_int n ++ js "B"
  else if n <? 1024 * 1024 then toFixed1 n 1024 ++ js "KB"
  else toFixed1 n (1024 * 1024) ++ js "MB".

(** The character that ends at a position: its UTF-8 bytes, whether it is a
    pair of units, and whether it is an unpaired surrogate.  [previous] is the
    unit before it, if there is one. *)
Definition characterBefore (code : Z) (previous : option Z) : Z * bool * bool :=
  let other :=
    if is_high code || is_low code then (3, false, true)
    else (unit_bytes code, false, false) in
  match previous with
  | Some prev =>
      if is_low code then
        if is_high prev then (4, true, false) else (3, false, true)
      else other
  | None => other
  end.

(** The loop of [truncateStringToBytesFromEnd]. [rs] is the part of the string
    before [i], reversed; the result is [start] and [needsReplacement]. *)
Fixpoint fromEnd (rs : jstr) (limit outBytes : Z) (needs : bool) : nat * bool :=
  match rs with
  | [] => (O, needs)
  | code :: rs' =>
      let '(characterBytes, two, unpaired) := characterBefore code (head rs') in
      if limit <? outBytes + characterBytes then (length rs, needs)
      else
        let needs' := needs || unpaired in
        match two, rs' with
        | true, _ :: rs'' => fromEnd rs'' limit (outBytes + characterBytes) needs'
        | _, _ => fromEnd rs' limit (outBytes + characterBytes) needs'
        end
  end.

Definition truncateStringToBytesFromEnd (str : jstr) (limit : Z) : jstr :=
  if limit <=? 0 then []
  else
    let '(start, needs) := fromEnd (rev str) limit 0 false in
    let output := drop start str in
    if needs then replaceUnpairedSurrogates output else output.

(** The loop of [truncateHead]: [i] counts the lines, [kept] and [keptBytes]
    are what is kept so far. *)
Fixpoint headLoop (ls : list jstr) (i ml mb : Z) (kept : list jstr) (keptBytes : Z)
    : list jstr * Z * Limit :=
  match ls with
  | [] => (kept, keptBytes, lines)
  | line :: rest =>
      if i <? ml then
        let lineBytes := utf8ByteLength line + (if 0 <? i then 1 else 0) in
        if mb <? keptBytes + lineBytes then (kept, keptBytes, bytes)
        else headLoop rest (i + 1) ml mb (kept ++ [line]) (keptBytes + lineBytes)
      else (kept, keptBytes, lines)
  end.

(** The loop of [truncateTail], over the lines from the last to the first. *)
Fixpoint tailLoop (rls : list jstr) (ml mb : Z) (kept : list jstr) (keptBytes : Z)
    : list jstr * Z * Limit * bool :=
  match rls with
  | [] => (kept, keptBytes, lines, false)
  | line :: rest =>
      if Z.of_nat (length kept) <? ml then
        let lineBytes := utf8ByteLength line + (if 0 <? Z.of_nat (length kept) then 1 else 0) in
        if mb <? keptBytes + lineBytes then
          match kept with
          | [] =>
              let e := truncateStringToBytesFromEnd line mb in
              ([e], utf8ByteLength e, bytes, true)
          | _ :: _ => (kept, keptBytes, bytes, false)
          end
        else tailLoop rest ml mb (line :: kept) (keptBytes + lineBytes)
      else (kept, keptBytes, lines, false)
  end.

(** The early return of both: the text is within the limits. *)
Definition whole (s : jstr) (ml mb : Z) : TruncationResult :=
  let tl := Z.of_nat (length (splitLinesForCounting s)) in
  {| content := s; truncated := false; truncatedBy := None;
     totalLines := tl; totalBytes := utf8ByteLength s;
     outputLines := tl; outputBytes := utf8ByteLength s;
     lastLinePartial := false; firstLineExceedsLimit := false;
     maxLines := ml; maxBytes := mb |}.

(** The return of both after the loop. *)
Definition kept_result (s : jstr) (ml mb : Z) (kept : list jstr) (keptBytes : Z)
    (by' : Limit) (partial : bool) : TruncationResult :=
  let by' := if (ml <=? Z.of_nat (length kept)) && (keptBytes <=? mb) then lines else by' in
  let output := join [10] kept in
  {| content := output; truncated := true; truncatedBy := Some by';
     totalLines := Z.of_nat (length (splitLinesForCounting s));
     totalBytes := utf8ByteLength s;
     outputLines := Z.of_nat (length kept); outputBytes := utf8ByteLength output;
     lastLinePartial := partial; firstLineExceedsLimit := false;
     maxLines := ml; maxBytes := mb |}.

(** [None] is the [TypeError] of [Buffer.byteLength(undefined)]: the text is
    empty and a limit is negative. *)
Definition truncateHead (s : jstr) (o : TruncationOptions) : option TruncationResult :=
  let ml := default DEFAULT_MAX_LINES (optLines o) in
  let mb := default DEFAULT_MAX_BYTES (optBytes o) in
  let ls := splitLinesForCounting s in
  if (Z.of_nat (length ls) <=? ml) && (utf8ByteLength s <=? mb) then Some (whole s ml mb)
  else
    match ls with
    | [] => None
    | first :: _ =>
        if mb <? utf8ByteLength first then
          Some {| content := []; truncated := true; truncatedBy := Some bytes;
                  totalLines := Z.of_nat (length ls); totalBytes := utf8ByteLength s;
                  outputLines := 0; outputBytes := 0;
                  lastLinePartial := false; firstLineExceedsLimit := true;
                  maxLines := ml; maxBytes := mb |}
        else
          let '(kept, keptBytes, by') := headLoop ls 0 ml mb [] 0 in
          Some (kept_result s ml mb kept keptBytes by' false)
    end.

Definition truncateTail (s : jstr) (o : TruncationOptions) : TruncationResult :=
  let ml := default DEFAULT_MAX_LINES (optLines o) in
  let mb := default DEFAULT_MAX_BYTES (optBytes o) in
  let ls := splitLinesForCounting s in
  if (Z.of_nat (length ls) <=? ml) && (utf8ByteLength s <=? mb) then whole s ml mb
  else
    let '(kept, keptBytes, by', partial) := tailLoop (rev ls) ml mb [] 0 in
    kept_result s ml mb kept keptBytes by' partial.

(** ** The lines of a text *)

Lemma lines_nonempty s : s ≠ [] → splitLinesForCounting s ≠ [].
Proof.
  destruct s as [|c s]; [done|]. intros _. unfold splitLinesForCounting.
  destruct (ends_with 10 (c :: s)) eqn:E; [|apply split_on_nonempty].
  pose proof (join_split 10 (c :: s)) as Hj.
  pose proof (split_parts_no_sep 10 (c :: s)) as Hn.
  destruct (split_on 10 (c :: s)) as [|l [|m ms]]; [done| |done].
  exfalso. simpl in Hj. subst l. apply Forall_cons in Hn as [Hn _]. apply Hn.
  unfold ends_with in E. destruct (last (c :: s)) as [d|] eqn:El; [|done].
  zbool. subst d. by apply last_Some_elem_of.
Qed.

(** ** Character boundaries *)

(** Cutting between [a] and [b] splits no surrogate pair. *)
Definition boundary (a b : jstr) : Prop :=
  ∀ c d, last a = Some c → head b = Some d → is_high c && is_low d = false.

Lemma utf8_app_boundary a b :
  boundary a b → utf8ByteLength (a ++ b) = utf8ByteLength a + utf8ByteLength b.
Proof.
  destruct b as [|d b]; [rewrite app_nil_r; simpl; lia|].
  induction a as [|c|c e s E IH|c e s E IH] using utf16_ind; intros Hb; [done| | |].
  - cbn [app]. rewrite utf8_single by (apply Hb; done). done.
  - cbn [app]. rewrite !utf8_pair by done. rewrite IH; [lia|].
    intros x y Hx Hy. apply Hb; [|done]. destruct s; [done|]. done.
  - cbn [app] in *. rewrite !utf8_single by done. rewrite IH; [lia|].
    intros x y Hx Hy. apply Hb; done.
Qed.

Lemma utf8_app_ge a b : utf8ByteLength b <= utf8ByteLength (a ++ b).
Proof.
  destruct b as [|d b]; [apply utf8_nonneg|].
  induction a as [|c|c e s E IH|c e s E IH] using utf16_ind; [done| | |]; cbn [app].
  - destruct (is_high c && is_low d) eqn:E.
    + rewrite utf8_pair by done. apply andb_true_iff in E as [_ E].
      rewrite utf8_sep_cons; [rewrite low_bytes by done; lia|].
      destruct (is_high d) eqn:Eh; [|done]. apply high_not_low in Eh. congruence.
    + rewrite utf8_single by done. pose proof (unit_bytes_bounds c). lia.
  - rewrite utf8_pair by done. lia.
  - rewrite utf8_single by done. cbn [app] in IH. pose proof (unit_bytes_bounds c). lia.
Qed.

Lemma replace_pair c d s :
  is_high c && is_low d = true →
  replaceUnpairedSurrogates (c :: d :: s) = c :: d :: replaceUnpairedSurrogates s.
Proof. intros E. apply andb_true_iff in E as [Eh El]. simpl. by rewrite Eh, El. Qed.

Lemma replace_single c d s :
  is_high c && is_low d = false →
  replaceUnpairedSurrogates (c :: d :: s)
  = (if is_high c || is_low c then 0xfffd else c) :: replaceUnpairedSurrogates (d :: s).
Proof.
  intros E. remember (d :: s) as t eqn:Et. simpl.
  destruct (is_high c) eqn:Eh; simpl in *.
  - subst t. by rewrite E.
  - by destruct (is_low c).
Qed.

Lemma utf8_replace s : utf8ByteLength (replaceUnpairedSurrogates s) = utf8ByteLength s.
Proof.
  induction s as [|c|c d s E IH|c d s E IH] using utf16_ind; [done| | |].
  - simpl. destruct (is_high c) eqn:Eh; [by rewrite high_bytes|].
    destruct (is_low c) eqn:El; [by rewrite low_bytes|]. done.
  - rewrite replace_pair, !utf8_pair by done. by rewrite IH.
  - rewrite replace_single, utf8_single by done.
    destruct (is_high c || is_low c) eqn:Es.
    + rewrite utf8_sep_cons by done. rewrite IH. change (unit_bytes 0xfffd) with 3.
      f_equal. apply orb_true_iff in Es as [?|?]; symmetry; auto using high_bytes, low_bytes.
    + apply orb_false_iff in Es as [? ?]. by rewrite utf8_sep_cons, IH.
Qed.

(** ** The end of a long line *)

Lemma characterBefore_cases code rs' cb two unp :
  characterBefore code (head rs') = (cb, two, unp) →
  (∃ prev rest, two = true ∧ rs' = prev :: rest ∧ is_high prev && is_low code = true
     ∧ cb = 4 ∧ unp = false)
  ∨ (two = false ∧ cb = unit_bytes code ∧ unp = (is_high code || is_low code)
     ∧ boundary (rev rs') [code]).
Proof.
  unfold characterBefore. intros H.
  assert (∀ p, p && is_low code = true → p = true) as Hp by (intros []; done).
  destruct rs' as [|prev rest]; simpl in H.
  - right. destruct (is_high code || is_low code) eqn:Es; simplify_eq/=; split_and!; try done.
    apply orb_true_iff in Es as [?|?]; symmetry; auto using high_bytes, low_bytes.
  - destruct (is_low code) eqn:El; [destruct (is_high prev) eqn:Eh|]; simplify_eq.
    + left. exists prev, rest. by rewrite Eh.
    + right. rewrite orb_true_r. split_and!; [done|by rewrite low_bytes|done|].
      intros c d. simpl. rewrite last_snoc. intros [= <-] [= <-]. by rewrite Eh.
    + right. split_and!.
      1-3: destruct (is_high code) eqn:Eh; simplify_eq/=; try done; by rewrite high_bytes.
      intros c d _ [= <-]. rewrite El. apply andb_false_r.
Qed.

Lemma boundary_nil_r a : boundary a [].
Proof. intros c d _ [=]. Qed.

Lemma boundary_snoc_pair a p c t :
  is_high p = true → is_low c = true → boundary (a ++ [p]) (c :: t) → False.
Proof.
  intros Hp Hc Hb. specialize (Hb p c). rewrite last_snoc, Hp, Hc in Hb.
  by specialize (Hb eq_refl eq_refl).
Qed.

(** Two cuts of one list: the one with the longer end. *)
Lemma app_eq_longer {A} (a b a' b' : list A) :
  a ++ b = a' ++ b' → (length b < length b')%nat →
  ∃ x, x ≠ [] ∧ b' = x ++ b ∧ a = a' ++ x.
Proof.
  intros He Hl. exists (drop (length a') a).
  assert (length a' < length a)%nat as Hla.
  { apply (f_equal length) in He. rewrite !length_app in He. lia. }
  assert (a = a' ++ drop (length a') a) as Ha.
  { rewrite <- (take_drop (length a') a) at 1. f_equal.
    apply (f_equal (take (length a'))) in He.
    rewrite take_app_le in He by lia. by rewrite take_app_length in He. }
  split_and!; [|rewrite Ha, <- app_assoc in He; by apply app_inv_head in He|done].
  intros Hd. apply (f_equal length) in Hd. rewrite length_drop in Hd. simpl in Hd. lia.
Qed.

(** The character that did not fit is part of every longer end. *)
Lemma longer_end_too_long code rs' t cb two unp limit :
  characterBefore code (head rs') = (cb, two, unp) →
  boundary (rev (code :: rs')) t → limit < utf8ByteLength t + cb →
  ∀ a' b', rev (code :: rs') ++ t = a' ++ b' → boundary a' b' →
    (length t < length b')%nat → limit < utf8ByteLength b'.
Proof.
  intros Hc Hb Hl a' b' He Hb' Hlen.
  destruct (app_eq_longer _ _ _ _ He Hlen) as (x & Hx & -> & Ha). clear He Hlen.
  destruct x as [|c z _] using rev_ind; [done|].
  simpl in Ha, Hb. rewrite app_assoc in Ha. apply app_inj_tail in Ha as [Ha <-].
  rewrite <- app_assoc. simpl. pose proof (utf8_app_ge z (code :: t)).
  apply characterBefore_cases in Hc
    as [(prev & rest & -> & -> & E & -> & ->) | (-> & -> & -> & Hnb)].
  - assert (z ≠ []) as Hz.
    { intros ->. rewrite app_nil_r in Ha. subst a'. apply andb_true_iff in E as [? ?].
      by apply (boundary_snoc_pair (rev rest) prev code t). }
    destruct z as [|p z _] using rev_ind; [done|].
    simpl in Ha. rewrite app_assoc in Ha. apply app_inj_tail in Ha as [_ <-].
    rewrite <- app_assoc. simpl. pose proof (utf8_app_ge z (prev :: code :: t)) as Hge.
    rewrite utf8_pair in Hge by done. lia.
  - pose proof (utf8_app_boundary [code] t) as Hu. simpl in Hu. simpl in H.
    rewrite Hu in H; [lia|].
    intros c d [= <-] Hd. apply Hb; [|done]. by rewrite last_snoc.
Qed.

(** One turn of the loop moves a whole character from the front part to the
    kept end. *)
Lemma fromEnd_step code rs' t cb two unp :
  characterBefore code (head rs') = (cb, two, unp) → boundary (rev (code :: rs')) t →
  ∃ w rest, (∀ limit out needs,
      fromEnd (code :: rs') limit out needs
      = if limit <? out + cb then (length (code :: rs'), needs)
        else fromEnd rest limit (out + cb) (needs || unp))
    ∧ rev (code :: rs') = rev rest ++ w ∧ w ≠ []
    ∧ boundary (rev rest) (w ++ t)
    ∧ utf8ByteLength (w ++ t) = utf8ByteLength t + cb
    ∧ (unp = false → replaceUnpairedSurrogates (w ++ t) = w ++ replaceUnpairedSurrogates t).
Proof.
  intros Hc Hb.
  destruct (characterBefore_cases _ _ _ _ _ Hc)
    as [(prev & rest & -> & -> & E & -> & ->) | (-> & -> & -> & Hnb)].
  - exists [prev; code], rest. split_and!; try done.
    + intros limit out needs. cbn [fromEnd]. rewrite Hc. by destruct (limit <? out + 4).
    + simpl. by rewrite <- app_assoc.
    + intros c d _ [= <-]. apply andb_true_iff in E as [E _].
      apply high_not_low in E. rewrite E. apply andb_false_r.
    + simpl. rewrite E. lia.
    + intros _. by apply replace_pair.
  - exists [code], rs'. split_and!; try done.
    + intros limit out needs. cbn [fromEnd]. rewrite Hc. by destruct (limit <? _).
    + rewrite utf8_app_boundary; [simpl; lia|].
      intros c d [= <-] Hd. apply Hb; [|done]. simpl. by rewrite last_snoc.
    + intros Eo. apply orb_false_iff in Eo as [Eh El]. simpl. by rewrite Eh, El.
Qed.

Lemma fromEnd_spec n rs t limit needs :
  (length rs <= n)%nat → boundary (rev rs) t → utf8ByteLength t <= limit →
  (needs = false → replaceUnpairedSurrogates t = t) →
  ∃ a b nd, fromEnd rs limit (utf8ByteLength t) needs = (length a, nd)
    ∧ rev rs ++ t = a ++ b ∧ boundary a b ∧ utf8ByteLength b <= limit
    ∧ (nd = false → replaceUnpairedSurrogates b = b)
    ∧ ∀ a' b', a ++ b = a' ++ b' → boundary a' b' →
        (length b < length b')%nat → limit < utf8ByteLength b'.
Proof.
  revert rs t needs. induction n as [|n IH]; intros rs t needs Hn Hb Hl Hr.
  all: destruct rs as [|code rs'];
    [exists [], t, needs; split_and!; try done;
     intros a' b' He _ Hlt; apply (f_equal length) in He; rewrite !length_app in He;
     simpl in He; lia|].
  { simpl in Hn. lia. }
  destruct (characterBefore code (head rs')) as [[cb two] unp] eqn:Hc.
  destruct (fromEnd_step _ _ t _ _ _ Hc Hb) as (w & rest & Hf & Hw & Hwne & Hwb & Hwu & Hwr).
  rewrite Hf. destruct (Z.ltb_spec limit (utf8ByteLength t + cb)) as [Hgt|Hle].
  - exists (rev (code :: rs')), t, needs. split_and!; try done.
    + by rewrite length_rev.
    + by eapply longer_end_too_long.
  - assert (length rest < length (code :: rs'))%nat as Hlr.
    { apply (f_equal length) in Hw. rewrite length_app, !length_rev in Hw.
      destruct w; [done|]. simpl in *. lia. }
    destruct (IH rest (w ++ t) (needs || unp)) as (a & b & nd & H1 & H2 & H3); [lia|done|lia| |].
    { intros Eo. apply orb_false_iff in Eo as [-> ->]. rewrite Hwr by done. by rewrite Hr. }
    exists a, b, nd. rewrite <- Hwu, H1. split_and!; try apply H3; [done|].
    by rewrite <- H2, Hw, <- app_assoc.
Qed.

(** [truncateStringToBytesFromEnd] keeps the longest end on a character
    boundary that fits, with its unpaired surrogates replaced. *)
Lemma fromEnd_longest str limit :
  0 <= limit →
  ∃ a b, str = a ++ b ∧ boundary a b
    ∧ truncateStringToBytesFromEnd str limit = replaceUnpairedSurrogates b
    ∧ utf8ByteLength b <= limit
    ∧ ∀ a' b', str = a' ++ b' → boundary a' b' →
        (length b < length b')%nat → limit < utf8ByteLength b'.
Proof.
  intros Hl. unfold truncateStringToBytesFromEnd.
  destruct (Z.leb_spec limit 0) as [Hz|Hp].
  - exists str, []. rewrite app_nil_r. split_and!; try done.
    intros a' b' -> _ Hb. pose proof (utf8_pos b') as Hu.
    destruct b' as [|c b']; [simpl in Hb; lia|]. specialize (Hu ltac:(done)). lia.
  - destruct (fromEnd_spec (length (rev str)) (rev str) [] limit false)
      as (a & b & nd & H1 & H2 & H3 & H4 & H5 & H6); [lia|apply boundary_nil_r|done|done|].
    rewrite rev_involutive, app_nil_r in H2. subst str.
    change (utf8ByteLength []) with 0 in H1. rewrite H1. exists a, b. split_and!; try done.
    rewrite drop_app_length. destruct nd; [done|]. symmetry. auto.
Qed.

(** ** The size of joined lines *)

Lemma utf8_join_push ps p :
  utf8ByteLength (join [10] (ps ++ [p]))
  = utf8ByteLength (join [10] ps) + (utf8ByteLength p + (if 0 <? Z.of_nat (length ps) then 1 else 0)).
Proof.
  destruct ps as [|q qs]; [simpl; lia|].
  rewrite utf8_join_snoc by done. destruct (Z.ltb_spec 0 (Z.of_nat (length (q :: qs)))); simpl length in *; lia.
Qed.

Lemma utf8_join_unshift p ps :
  utf8ByteLength (join [10] (p :: ps))
  = utf8ByteLength (join [10] ps) + (utf8ByteLength p + (if 0 <? Z.of_nat (length ps) then 1 else 0)).
Proof.
  destruct ps as [|q qs]; [simpl; lia|].
  rewrite utf8_join_cons by done. destruct (Z.ltb_spec 0 (Z.of_nat (length (q :: qs)))); simpl length in *; lia.
Qed.

Lemma utf8_join_prefix ps qs :
  utf8ByteLength (join [10] ps) <= utf8ByteLength (join [10] (ps ++ qs)).
Proof.
  induction qs as [|q qs IH] using rev_ind; [by rewrite app_nil_r|].
  rewrite app_assoc, utf8_join_push. pose proof (utf8_nonneg q).
  destruct (0 <? _); lia.
Qed.

Lemma utf8_join_suffix ps qs :
  utf8ByteLength (join [10] qs) <= utf8ByteLength (join [10] (ps ++ qs)).
Proof.
  induction ps as [|p ps IH]; [done|]. cbn [app].
  rewrite utf8_join_unshift. pose proof (utf8_nonneg p). destruct (0 <? _); lia.
Qed.

(** ** The loops *)

(** What both loops return: the kept lines, the rest, and why they stopped.
    [tooBig] is the size with one more line. *)
Record stopped (ml mb : Z) (kept rest : list jstr) (keptBytes tooBig : Z) : Prop := {
  st_bytes : keptBytes = utf8ByteLength (join [10] kept);
  st_fit : keptBytes <= mb;
  st_lines : Z.of_nat (length kept) <= ml;
  st_stop : rest = [] ∨ Z.of_nat (length kept) = ml ∨ mb < tooBig;
}.

Lemma headLoop_spec ls ml mb kept :
  utf8ByteLength (join [10] kept) <= mb → Z.of_nat (length kept) <= ml →
  ∃ k rest bl, headLoop ls (Z.of_nat (length kept)) ml mb kept (utf8ByteLength (join [10] kept))
      = (k, utf8ByteLength (join [10] k), bl)
    ∧ kept ++ ls = k ++ rest
    ∧ stopped ml mb k rest (utf8ByteLength (join [10] k))
        (utf8ByteLength (join [10] (k ++ take 1 rest))).
Proof.
  revert kept. induction ls as [|line ls IH]; intros kept Hb Hl.
  - exists kept, [], lines. split_and!; [done|done|]. constructor; auto.
  - cbn [headLoop]. destruct (Z.ltb_spec (Z.of_nat (length kept)) ml) as [Hlt|Hge].
    + pose proof (utf8_join_push kept line) as Hp. rewrite <- Hp.
      destruct (Z.ltb_spec mb (utf8ByteLength (join [10] (kept ++ [line])))) as [Hbig|Hok].
      * exists kept, (line :: ls), bytes. split_and!; [done|done|]. constructor; auto.
      * destruct (IH (kept ++ [line])) as (k & rest & bl & H1 & H2 & H3); [done| |].
        { rewrite length_app. simpl. lia. }
        exists k, rest, bl. rewrite <- H1. split_and!; [|by rewrite <- H2, <- app_assoc|done].
        f_equal. rewrite length_app. simpl. lia.
    + exists kept, (line :: ls), lines. split_and!; [done|done|].
      constructor; auto. right. left. lia.
Qed.

Lemma tailLoop_spec rls ml mb kept :
  utf8ByteLength (join [10] kept) <= mb → Z.of_nat (length kept) <= ml →
  (∃ k rest bl, tailLoop rls ml mb kept (utf8ByteLength (join [10] kept))
      = (k, utf8ByteLength (join [10] k), bl, false)
    ∧ rev rls ++ kept = rev rest ++ k
    ∧ stopped ml mb k rest (utf8ByteLength (join [10] k))
        (utf8ByteLength (join [10] (rev (take 1 rest) ++ k))))
  ∨ ∃ line rest, rls = line :: rest ∧ kept = [] ∧ mb < utf8ByteLength line ∧ 1 <= ml
    ∧ tailLoop rls ml mb kept 0
      = (let e := truncateStringToBytesFromEnd line mb in ([e], utf8ByteLength e, bytes, true)).
Proof.
  revert kept. induction rls as [|line rls IH]; intros kept Hb Hl.
  - left. exists kept, [], lines. split_and!; [done|done|]. constructor; auto.
  - cbn [tailLoop]. destruct (Z.ltb_spec (Z.of_nat (length kept)) ml) as [Hlt|Hge].
    + pose proof (utf8_join_unshift line kept) as Hp. rewrite <- Hp.
      destruct (Z.ltb_spec mb (utf8ByteLength (join [10] (line :: kept)))) as [Hbig|Hok].
      * destruct kept as [|k0 kept].
        { right. exists line, rls. simpl in Hbig. split_and!; try done; [simpl in Hlt; lia|].
          change (0 <? Z.of_nat (length (@nil jstr))) with false. cbv iota.
          rewrite Z.add_0_l, Z.add_0_r. destruct (Z.ltb_spec mb (utf8ByteLength line)); [done|lia]. }
        left. exists (k0 :: kept), (line :: rls), bytes. split_and!; [done|done|].
        constructor; auto.
      * destruct (IH (line :: kept)) as [(k & rest & bl & H1 & H2 & H3)|(? & ? & _ & ? & _)];
          [done|simpl length in *; lia| |done].
        left. exists k, rest, bl. rewrite <- H1. split_and!; [done| |done].
        simpl. by rewrite <- app_assoc, <- H2.
    + left. exists kept, (line :: rls), lines. split_and!; [done|done|].
      constructor; auto. right. left. lia.
Qed.

(** ** What is kept is the longest that fits *)

(** A stopped loop kept as many of the first lines as any other choice. *)
Lemma stopped_longest_prefix ml mb kept rest kb :
  stopped ml mb kept rest kb (utf8ByteLength (join [10] (kept ++ take 1 rest))) →
  ∀ m, (m <= length (kept ++ rest))%nat → Z.of_nat m <= ml →
    utf8ByteLength (join [10] (take m (kept ++ rest))) <= mb → (m <= length kept)%nat.
Proof.
  intros [_ _ _ Hs] m Hm Hml Hfit. destruct (decide (m <= length kept)%nat) as [|Hgt]; [done|].
  destruct Hs as [-> | [Hl | Hbig]]; [rewrite app_nil_r in Hm; lia|lia|].
  rewrite take_app_ge in Hfit by lia.
  destruct rest as [|r rest]; [rewrite app_nil_r in Hm; lia|].
  replace (m - length kept)%nat with (S (m - length kept - 1)) in Hfit by lia.
  change (take (S ?n) (r :: rest)) with ([r] ++ take n rest) in Hfit.
  rewrite app_assoc in Hfit. simpl in Hbig. rewrite take_0 in Hbig.
  pose proof (utf8_join_prefix (kept ++ [r]) (take (m - length kept - 1) rest)). lia.
Qed.

Lemma stopped_longest_suffix ml mb kept rest kb ls :
  ls = rev rest ++ kept →
  stopped ml mb kept rest kb (utf8ByteLength (join [10] (rev (take 1 rest) ++ kept))) →
  ∀ m, (m <= length ls)%nat → Z.of_nat m <= ml →
    utf8ByteLength (join [10] (drop (length ls - m) ls)) <= mb → (m <= length kept)%nat.
Proof.
  intros -> [_ _ _ Hs] m Hm Hml Hfit.
  destruct (decide (m <= length kept)%nat) as [|Hgt]; [done|].
  rewrite length_app, length_rev in *.
  destruct Hs as [-> | [Hl | Hbig]]; [simpl in Hm; lia|lia|].
  destruct rest as [|r rest]; [simpl in Hm; lia|].
  simpl in Hbig, Hfit, Hm. rewrite <- app_assoc in Hfit.
  rewrite drop_app_le in Hfit by (rewrite length_rev; lia).
  pose proof (utf8_join_suffix (drop (S (length rest + length kept) - m) (rev rest)) ([r] ++ kept)).
  simpl in *. lia.
Qed.

(** The two limits of a call. *)
Definition limLines (o : TruncationOptions) : Z := default DEFAULT_MAX_LINES (optLines o).
Definition limBytes (o : TruncationOptions) : Z := default DEFAULT_MAX_BYTES (optBytes o).

Lemma lines_empty_fit s o :
  0 <= limLines o → 0 <= limBytes o → splitLinesForCounting s = [] →
  (Z.of_nat (length (splitLinesForCounting s)) <=? limLines o)
    && (utf8ByteLength s <=? limBytes o) = true.
Proof.
  intros Hl Hb Hs. destruct (decide (s = [])) as [->|Hne].
  - apply andb_true_iff. split; apply Z.leb_le; simpl; lia.
  - by apply lines_nonempty in Hne.
Qed.

(** with limits that are not negative, [truncateHead] returns; its byte
    count is that of the text it returns and both limits hold; a text within
    the limits comes back whole; otherwise the result is the first [n] lines,
    where [n] is the largest number of first lines within both limits. *)
Theorem truncateHead_longest (s : jstr) (o : TruncationOptions)
    (Hl : 0 <= limLines o) (Hb : 0 <= limBytes o) :
  let ls := splitLinesForCounting s in
  ∃ res, truncateHead s o = Some res
    ∧ outputBytes res = utf8ByteLength (content res)
    ∧ outputBytes res <= limBytes o ∧ outputLines res <= limLines o
    ∧ (truncated res = true ↔
         limLines o < Z.of_nat (length ls) ∨ limBytes o < utf8ByteLength s)
    ∧ (truncated res = false → content res = s)
    ∧ (truncated res = true → ∃ n,
         content res = join [10] (take n ls) ∧ outputLines res = Z.of_nat n
         ∧ ∀ m, (m <= length ls)%nat → Z.of_nat m <= limLines o →
             utf8ByteLength (join [10] (take m ls)) <= limBytes o → (m <= n)%nat).
Proof.
  intros ls. unfold truncateHead. fold (limLines o) (limBytes o) ls.
  destruct ((_ <=? _) && _) eqn:Efit.
  { zbool. eexists. split; [done|]. simpl. split_and!; try done. split; [done|lia]. }
  assert (limLines o < Z.of_nat (length ls) ∨ limBytes o < utf8ByteLength s) as Hover
    by (zbool; tauto || (destruct Efit; zbool; lia)).
  destruct ls as [|first rest] eqn:Els.
  { exfalso. pose proof (lines_empty_fit s o Hl Hb Els) as Hf. unfold ls in *.
    rewrite Els in Hf. congruence. }
  destruct (Z.ltb_spec (limBytes o) (utf8ByteLength first)) as [Hbig|Hok].
  { eexists. split; [done|]. simpl. split_and!; try done. intros _. exists O.
    split_and!; [done|done|]. intros m Hm _ Hfit. destruct m as [|m]; [lia|]. exfalso.
    pose proof (utf8_join_prefix [first] (take m rest)) as Hp. simpl app in Hp.
    change (take (S m) (first :: rest)) with (first :: take m rest) in Hfit. simpl in *. lia. }
  destruct (headLoop_spec (first :: rest) (limLines o) (limBytes o) [])
    as (k & rest' & bl & H1 & H2 & H3); [done|done|].
  change (Z.of_nat (length (@nil jstr))) with 0 in H1. change (utf8ByteLength (join [10] [])) with 0 in H1.
  rewrite H1. eexists. split; [done|]. simpl in H2.
  pose proof (stopped_longest_prefix _ _ _ _ _ H3) as Hmax. rewrite <- H2 in Hmax.
  cbn [content truncated outputLines outputBytes kept_result].
  split_and!; try done; [apply H3|apply H3|]. intros _. exists (length k).
  split_and!; [by rewrite H2, take_app_length|done|done].
Qed.

Lemma truncateHead_longest_witness :
  0 <= 2 ∧ 0 <= 6 ∧
  ∃ res, truncateHead (js "ab" ++ [10] ++ js "cd" ++ [10] ++ js "ef")
           {| optLines := Some 2; optBytes := Some 6 |} = Some res
    ∧ outputBytes res <= 6 ∧ outputLines res <= 2.
Proof.
  split_and!; [done|done|].
  destruct (truncateHead_longest (js "ab" ++ [10] ++ js "cd" ++ [10] ++ js "ef")
    {| optLines := Some 2; optBytes := Some 6 |}) as (res & H1 & _ & H2 & H3 & _); [done|done|].
  by exists res.
Defined.

(** with limits that are not negative, the byte count of [truncateTail] is
    that of the text it returns and both limits hold; a text within the limits
    comes back whole; otherwise it is the last [n] lines, [n] the largest number
    that fits, unless the last line alone is too long: then it is the longest
    end of that line on a character boundary that fits, with its unpaired
    surrogates replaced by U+FFFD. *)
Theorem truncateTail_longest (s : jstr) (o : TruncationOptions)
    (Hl : 0 <= limLines o) (Hb : 0 <= limBytes o) :
  let ls := splitLinesForCounting s in
  let res := truncateTail s o in
  outputBytes res = utf8ByteLength (content res)
  ∧ outputBytes res <= limBytes o ∧ outputLines res <= limLines o
  ∧ (truncated res = true ↔
       limLines o < Z.of_nat (length ls) ∨ limBytes o < utf8ByteLength s)
  ∧ (truncated res = false → content res = s)
  ∧ (truncated res = true → lastLinePartial res = false → ∃ n,
       content res = join [10] (drop (length ls - n) ls) ∧ outputLines res = Z.of_nat n
       ∧ ∀ m, (m <= length ls)%nat → Z.of_nat m <= limLines o →
           utf8ByteLength (join [10] (drop (length ls - m) ls)) <= limBytes o → (m <= n)%nat)
  ∧ (lastLinePartial res = true → ∃ line a b,
       last ls = Some line ∧ limBytes o < utf8ByteLength line
       ∧ line = a ++ b ∧ boundary a b ∧ content res = replaceUnpairedSurrogates b
       ∧ ∀ a' b', line = a' ++ b' → boundary a' b' →
           utf8ByteLength b' <= limBytes o → (length b' <= length b)%nat).
Proof.
  intros ls res. subst res. unfold truncateTail. fold (limLines o) (limBytes o) ls.
  destruct ((_ <=? _) && _) eqn:Efit.
  { zbool. simpl. split_and!; try done. split; [done|lia]. }
  assert (limLines o < Z.of_nat (length ls) ∨ limBytes o < utf8ByteLength s) as Hover
    by (zbool; destruct Efit; zbool; lia).
  destruct (tailLoop_spec (rev ls) (limLines o) (limBytes o) [])
    as [(k & rest & bl & H1 & H2 & H3)|(line & rest & H1 & _ & H2 & H3 & H4)]; [done|done| |].
  - change (utf8ByteLength (join [10] [])) with 0 in H1. rewrite H1.
    rewrite rev_involutive, app_nil_r in H2.
    pose proof (stopped_longest_suffix _ _ _ _ _ _ H2 H3) as Hmax.
    cbn [content truncated outputLines outputBytes lastLinePartial kept_result].
    split_and!; try done; [apply H3|apply H3|]. intros _ _. exists (length k).
    split_and!; [|done|done]. rewrite H2, length_app.
    replace (length (rev rest) + length k - length k)%nat with (length (rev rest)) by lia.
    by rewrite drop_app_length.
  - rewrite H4. destruct (fromEnd_longest line (limBytes o) Hb) as (a & b & Ha & Hab & He & Hfit & Hmax).
    cbn [content truncated outputLines outputBytes lastLinePartial kept_result join length].
    rewrite He, utf8_replace. split_and!; try done.
    intros _. exists line, a, b. split_and!; try done.
    + rewrite <- (rev_involutive ls), H1. simpl. by rewrite last_snoc.
    + intros a' b' Ea Eb Hf. destruct (decide (length b' <= length b)%nat) as [|Hgt]; [done|].
      specialize (Hmax a' b' Ea Eb ltac:(lia)). lia.
Qed.

Lemma truncateTail_longest_witness :
  0 <= 3 ∧ 0 <= 4 ∧
  lastLinePartial (truncateTail (js "ab" ++ [10; 0xd83d; 0xde00; 0xd83d; 0xde00])
                     {| optLines := Some 3; optBytes := Some 4 |}) = true ∧
  outputBytes (truncateTail (js "ab" ++ [10; 0xd83d; 0xde00; 0xd83d; 0xde00])
                     {| optLines := Some 3; optBytes := Some 4 |}) <= 4.
Proof.
  split_and!; [done|done|reflexivity|].
  destruct (truncateTail_longest (js "ab" ++ [10; 0xd83d; 0xde00; 0xd83d; 0xde00])
    {| optLines := Some 3; optBytes := Some 4 |}) as (_ & H & _); [done|done|]. exact H.
Defined.

(** A text whose last line ends with a newline can be one byte over the limit
    with every line kept: the result then says [truncatedBy = lines] although
    the line limit was not reached. *)
Lemma trailing_newline_by_lines :
  ∃ res, truncateHead (js "abc" ++ [10]) {| optLines := Some 5; optBytes := Some 3 |} = Some res
    ∧ truncatedBy res = Some lines ∧ outputLines res = totalLines res ∧ outputLines res < maxLines res.
Proof. eexists. split; [vm_compute; reflexivity|]. simpl. split_and!; done. Qed.

End Truncate.
