(* ===== verification/Record.v ===== *)
(** * The Agent Server's record of a conversation (harness/src/record.ts)

    [FS] is the part of the file system under the record root: the bytes of
    each file and the directories.  [startRecord], [recorderAt], [readRecord],
    [conversationDirs], [freeDir], [cutTornTail] and [mcpToolsSeat] are the
    functions of those names; [recordLine] is the [line] closure behind the
    recorder's four methods, and [tornLine] a process death in the middle of
    it.  The values that [jsonl] casts to are read through [JsonLine]. *)

From Stdlib Require Import Lia ZArith.
From stdpp Require Import base list strings sets gmap.
From S2P Require Import Prelude JsString Json Utf8.

Open Scope Z_scope.

Module Record.

Abbreviation path := (list jstr).

Record FS := mkFS { files : gmap path (list Z); dirs : gset path }.

Inductive Fault := ENOENT | SyntaxError | TypeError | NamesNoConversation | URIError.

(** [join(dir, part)] for a part without slashes and dots. *)
Definition pathJoin (d : path) (part : jstr) : path :=
  match part with
  | [] => d
  | _ => d ++ [part]
  end.

(** ** Where a conversation is kept *)

Definition escapeDot (s : jstr) : jstr := s ≫= λ c, if c =? 46 then js "%2E" else [c].

Definition segment (part : jstr) : result Fault jstr :=
  match encodeURIComponent part with
  | Some t => Ok (escapeDot t)
  | None => Throw URIError
  end.

Definition conversationDir (root : path) (agentName instanceId : jstr) : result Fault path :=
  a ← segment agentName;
  i ← segment instanceId;
  Ok (pathJoin (pathJoin root a) i).

(** ** The file system *)

Definition under (d p : path) : Prop := ∃ q, p = d ++ q.

#[export] Instance under_dec d p : Decision (under d p).
Proof.
  refine (cast_if (decide (take (length d) p = d))).
  - exists (drop (length d) p). rewrite <- (take_drop (length d) p) at 1. by f_equal.
  - intros [q ->]. by rewrite take_app_length in n.
Defined.

(** [rmSync(dir, { recursive: true, force: true })] *)
Definition rm_rf (d : path) (fs : FS) : FS :=
  mkFS (filter (λ pf, ¬ under d pf.1) (files fs)) (filter (λ p, ¬ under d p) (dirs fs)).

(** [mkdirSync(dir, { recursive: true })]: the directory and its parents. *)
Definition mkdir_p (d : path) (fs : FS) : FS :=
  mkFS (files fs) (list_to_set ((λ n, take n d) <$> seq 0 (S (length d))) ∪ dirs fs).

Definition writeFile (p : path) (bs : list Z) (fs : FS) : FS := mkFS (<[p := bs]> (files fs)) (dirs fs).

Definition appendFile (p : path) (bs : list Z) (fs : FS) : FS :=
  writeFile p (default [] (files fs !! p) ++ bs) fs.

(** ** The recorder *)

Definition recordFile (dir : path) (file : jstr) : path := pathJoin (pathJoin dir (js "record")) file.

Definition RECORD_FILES : list jstr :=
  [js "admitted.jsonl"; js "stream.jsonl"; js "messages.jsonl"; js "over.jsonl"].

(** [buffer.lastIndexOf(byte)] *)
Fixpoint lastIndexOf (b : Z) (bs : list Z) : Z :=
  match bs with
  | [] => -1
  | x :: r =>
      let k := lastIndexOf b r in
      if 0 <=? k then k + 1 else if x =? b then 0 else -1
  end.

(** The bytes that [truncateSync] leaves. *)
Definition keptBytes (bs : list Z) : list Z :=
  let kept := lastIndexOf 0x0a bs + 1 in
  if kept <? Z.of_nat (length bs) then take (Z.to_nat kept) bs else bs.

Definition cutTornTail (p : path) (fs : FS) : FS :=
  match files fs !! p with
  | None => fs
  | Some bytes => writeFile p (keptBytes bytes) fs
  end.

Definition recorderAt (dir : path) (fs : FS) : FS :=
  foldl (λ fs file, cutTornTail (recordFile dir file) fs) fs RECORD_FILES.

Definition identityText (agentName instanceId : jstr) : jstr :=
  Json.stringify (Json.JObj [(js "agentName", Json.JStr agentName); (js "instanceId", Json.JStr instanceId)])
    ++ [10].

(** What [startRecord] does in the conversation's directory. *)
Definition startAt (dir : path) (agentName instanceId : jstr) (fs : FS) : FS :=
  let fs := rm_rf dir fs in
  let fs := mkdir_p (pathJoin dir (js "record")) fs in
  let fs := writeFile (pathJoin dir (js "conversation.json")) (encode (identityText agentName instanceId)) fs in
  recorderAt dir fs.

Definition startRecord (root : path) (agentName instanceId : jstr) (fs : FS) : result Fault FS :=
  dir ← conversationDir root agentName instanceId;
  Ok (startAt dir agentName instanceId fs).

Abbreviation prop := Json.prop.

Definition isNull (v : Json.json) : bool := match v with Json.JNull => true | _ => false end.

(** A line of [admitted.jsonl] or [over.jsonl]: [{ submissionId }]. *)
Record SubmissionLine := Sub { submissionId : jstr }.

Definition printSub (s : SubmissionLine) : jstr :=
  Json.stringify (Json.JObj [(js "submissionId", Json.JStr (submissionId s))]).

Definition readSub (t : jstr) : option SubmissionLine :=
  v ← Json.parse t;
  match prop (js "submissionId") v with
  | Some (Json.JStr s) => Some (Sub s)
  | _ => None
  end.

Definition subJson (s : SubmissionLine) : Json.json :=
  Json.JObj [(js "submissionId", Json.JStr (submissionId s))].

Lemma subJson_ok s : Forall Json.unit_ok (submissionId s) → Json.units_ok (subJson s).
Proof. intros Hs. repeat constructor; done. Qed.

#[export] Instance sub_line : JsonLine SubmissionLine.
Proof.
  refine {| print_line := printSub; read_line := readSub;
            line_ok := λ s, Forall Json.unit_ok (submissionId s) |}.
  - intros s Hs. unfold readSub, printSub. rewrite Json.parse_stringify by by apply subJson_ok.
    simpl. by destruct s.
  - intros s Hs. by apply stringify_well_formed, subJson_ok.
  - intros s. apply Json.no_nl_stringify.
  - intros s. apply json_not_blank.
Defined.

Section Recorder.
Context {Ev Msg : Type} `{JsonLine Ev} `{JsonLine Msg}.

(** The recorder's four methods. *)
Inductive Line := admitted (s : SubmissionLine) | appended (e : Ev) | said (m : Msg) | over (s : SubmissionLine).

Definition fileOf (l : Line) : jstr :=
  match l with
  | admitted _ => js "admitted.jsonl"
  | appended _ => js "stream.jsonl"
  | said _ => js "messages.jsonl"
  | over _ => js "over.jsonl"
  end.

Definition textOf (l : Line) : jstr :=
  match l with
  | admitted s => print_line s
  | appended e => print_line e
  | said m => print_line m
  | over s => print_line s
  end.

Definition bytesOf (l : Line) : list Z := encode (textOf l ++ [10]).

Definition recordLine (dir : path) (fs : FS) (l : Line) : FS :=
  appendFile (recordFile dir (fileOf l)) (bytesOf l) fs.

(** The process dies when [n] bytes of the line are written. *)
Definition tornLine (dir : path) (fs : FS) (l : Line) (n : nat) : FS :=
  appendFile (recordFile dir (fileOf l)) (take n (bytesOf l)) fs.

Record RecordedConversation := mkRecorded {
  rc_agentName : jstr;
  rc_instanceId : jstr;
  rc_admitted : list jstr;
  rc_over : list jstr;
  rc_log : list Ev;
  rc_messages : list Msg;
}.

Definition jsonl (T : Type) `{JsonLine T} (p : path) (fs : FS) : result Fault (list T) :=
  match files fs !! p with
  | None => Ok []
  | Some bytes =>
      let lines := removelast (split_on 10 (decode bytes)) in
      mapM (λ l, match read_line l with Some x => Ok x | None => Throw SyntaxError end)
        (filter (λ l, l ≠ []) lines)
  end.

Definition readRecord (dir : path) (fs : FS) : result Fault RecordedConversation :=
  bytes ← (match files fs !! pathJoin dir (js "conversation.json") with
           | Some b => Ok b | None => Throw ENOENT end);
  identity ← (match Json.parse (decode bytes) with Some v => Ok v | None => Throw SyntaxError end);
  _ ← guard_throw (isNull identity) TypeError;
  match prop (js "agentName") identity, prop (js "instanceId") identity with
  | Some (Json.JStr a), Some (Json.JStr i) =>
      log ← jsonl Ev (recordFile dir (js "stream.jsonl")) fs;
      adm ← jsonl SubmissionLine (recordFile dir (js "admitted.jsonl")) fs;
      ov ← jsonl SubmissionLine (recordFile dir (js "over.jsonl")) fs;
      msgs ← jsonl Msg (recordFile dir (js "messages.jsonl")) fs;
      Ok (mkRecorded a i (submissionId <$> adm) (submissionId <$> ov) log msgs)
  | _, _ => Throw NamesNoConversation
  end.

End Recorder.

(** [entries(dir)]: the names of the directories in it. *)
Definition entries (dir : path) (fs : FS) : list jstr :=
  omap (λ p, if decide (take (length dir) p = dir ∧ length p = S (length dir)) then last p else None)
    (elements (dirs fs)).

Definition conversationDirs (root : path) (fs : FS) : list path :=
  entries root fs ≫= λ agent,
    (λ instance, pathJoin (pathJoin root agent) instance) <$> entries (pathJoin root agent) fs.

(** [dirname(dir)] *)
Definition dirname (d : path) : path := removelast d.

Definition isEmptyDir (d : path) (fs : FS) : bool :=
  bool_decide (Forall (λ p, under d p → p = d) (elements (dirs fs)))
  && bool_decide (Forall (λ pf, ¬ under d pf.1) (map_to_list (files fs))).

(** [rmdirSync] throws on a directory that holds anything; the catch ignores
    it. *)
Definition freeDir (dir : path) (fs : FS) : FS :=
  let fs := rm_rf dir fs in
  if isEmptyDir (dirname dir) fs then mkFS (files fs) (dirs fs ∖ {[dirname dir]}) else fs.

(** ** The MCP tools seat *)

Record McpToolsSeat := mkSeat { held : option Json.json; seatPath : option path }.

Definition mcpToolsSeat (dir : option path) : McpToolsSeat :=
  mkSeat None ((λ d, recordFile d (js "mcp-tools.json")) <$> dir).

Definition seatRead (s : McpToolsSeat) (fs : FS) : result Fault (option Json.json * McpToolsSeat) :=
  match held s, seatPath s with
  | Some t, _ => Ok (Some t, s)
  | None, None => Ok (None, s)
  | None, Some p =>
      match files fs !! p with
      | None => Ok (None, s)
      | Some bytes =>
          v ← (match Json.parse (decode bytes) with Some v => Ok v | None => Throw SyntaxError end);
          _ ← guard_throw (isNull v) TypeError;
          let t := prop (js "tools") v in
          Ok (t, mkSeat t (seatPath s))
      end
  end.

Definition tmpOf (p : path) : path := dirname p ++ (match last p with Some f => [f ++ js ".tmp"] | None => [] end).

Definition toolsText (tools : Json.json) : jstr := Json.stringify (Json.JObj [(js "tools", tools)]) ++ [10].

(** [renameSync(from, to)] *)
Definition rename (from to : path) (fs : FS) : FS :=
  match files fs !! from with
  | Some b => mkFS (<[to := b]> (delete from (files fs))) (dirs fs)
  | None => fs
  end.

(** The file system after each call of [write]: the directory made, [n] bytes
    of the temporary file written, and renamed when all of them are. *)
Definition seatWriteFs (p : path) (tools : Json.json) (n : nat) (fs : FS) : FS :=
  let bs := encode (toolsText tools) in
  let fs := writeFile (tmpOf p) (take n bs) (mkdir_p (dirname p) fs) in
  if (n <? length bs)%nat then fs else rename (tmpOf p) p fs.

Definition seatWrite (tools : Json.json) (s : McpToolsSeat) (fs : FS) : McpToolsSeat * FS :=
  (mkSeat (Some tools) (seatPath s),
   match seatPath s with
   | None => fs
   | Some p => seatWriteFs p tools (length (encode (toolsText tools))) fs
   end).

(** ** Bytes of lines *)

Lemma encode_nl s : encode (s ++ [10]) = encode s ++ [10].
Proof. by rewrite encode_app_sep. Qed.

Lemma lastIndexOf_none b t : b ∉ t → lastIndexOf b t = -1.
Proof.
  induction t as [|x t IH]; [done|]. intros [Hx Ht]%not_elem_of_cons. simpl.
  rewrite IH by done. simpl. by destruct (Z.eqb_spec x b).
Qed.

Lemma lastIndexOf_app b a t : b ∉ t → lastIndexOf b (a ++ t) = lastIndexOf b a.
Proof.
  intros Ht. induction a as [|x a IH]; [by apply lastIndexOf_none|]. simpl. by rewrite IH.
Qed.

Lemma lastIndexOf_snoc b a : lastIndexOf b (a ++ [b]) = Z.of_nat (length a).
Proof.
  induction a as [|x a IH]; simpl; [by rewrite Z.eqb_refl|].
  rewrite IH. destruct (Z.leb_spec 0 (Z.of_nat (length a))); lia.
Qed.

(** Text that ends in a newline, or is empty. *)
Definition whole (a : list Z) : Prop := a = [] ∨ last a = Some 10.

(** Cutting the torn tail leaves the whole lines. *)
Lemma keptBytes_whole a t : whole a → 10 ∉ t → keptBytes (a ++ t) = a.
Proof.
  intros Ha Ht. unfold keptBytes. rewrite lastIndexOf_app by done.
  assert (lastIndexOf 10 a + 1 = Z.of_nat (length a)) as ->.
  { destruct Ha as [->|Hl]; [done|]. apply last_snoc_inv in Hl as [a' ->].
    rewrite lastIndexOf_snoc, length_app. simpl. lia. }
  rewrite length_app. destruct (Z.ltb_spec (Z.of_nat (length a)) (Z.of_nat (length a + length t))).
  - by rewrite Nat2Z.id, take_app_length.
  - destruct t; [by rewrite app_nil_r|simpl in *; lia].
Qed.

Lemma units_of_big cp : 10 < cp → 10 ∉ units_of cp.
Proof.
  intros Hcp. unfold units_of. rewrite ?elem_of_cons.
  split_match; rewrite ?elem_of_cons, elem_of_nil; zbool;
    Z.to_euclidean_division_equations; lia.
Qed.

Lemma decode_no_nl t : Forall (λ b, 0 <= b) t → 10 ∉ t → 10 ∉ decode t.
Proof.
  induction t as [t IH] using (induction_ltof1 _ (@length Z)). unfold ltof in IH.
  intros HF Ht. destruct t as [|b t]; [done|]. cbn [decode].
  apply Forall_cons in HF as [Hb HF]. apply not_elem_of_cons in Ht as [Hb10 Ht].
  assert (10 ≠ REPLACEMENT) as HR by done.
  assert (∀ u, (length u <= length t)%nat → Forall (λ b, 0 <= b) u → 10 ∉ u → 10 ∉ decode u) as IH'.
  { intros u Hu HFu Hu10. apply IH; [simpl; lia|done|done]. }
  clear IH. rename IH' into IH.
  assert (10 ∉ [REPLACEMENT]) by set_solver.
  assert (∀ u, 10 ∉ decode u → 10 ∉ REPLACEMENT :: decode u) as HC by set_solver.
  assert (∀ cp u, 10 < cp → 10 ∉ decode u → 10 ∉ units_of cp ++ decode u) as HU.
  { intros cp u Hcp Hu. pose proof (units_of_big cp Hcp). set_solver. }
  destruct (b <=? 0x7f); [pose proof (IH t); set_solver|].
  repeat match goal with
  | |- context [match ?x with _ => _ end] =>
      match type of x with
      | list Z => destruct x as [|? ?]; [done|]
      | bool => destruct x eqn:?
      end
  end;
  repeat match goal with
  | H : Forall _ (_ :: _) |- _ => apply Forall_cons in H as [? ?]
  | H : 10 ∉ _ :: _ |- _ => apply not_elem_of_cons in H as [? ?]
  end;
  first [apply HU; [unfold between, is_cont, between in *; zbool; split_match; zbool; lia|]|apply HC];
  (apply IH; [simpl; lia|repeat constructor; done|rewrite ?not_elem_of_cons; tauto]).
Qed.

Lemma split_lines ps r :
  Forall (λ p, 10 ∉ p) ps → 10 ∉ r →
  split_on 10 (concat ((λ p, p ++ [10]) <$> ps) ++ r) = ps ++ [r].
Proof.
  intros HF Hr.
  rewrite <- (split_join 10 (ps ++ [r])); [|by destruct ps|by apply Forall_app; auto].
  f_equal. clear Hr. induction HF as [|p ps _ _ IH]; [done|]. cbn [app].
  destruct (ps ++ [r]) as [|q qs] eqn:E; [by destruct ps|].
  change (join [10] (p :: q :: qs)) with (p ++ [10] ++ join [10] (q :: qs)).
  rewrite <- IH, fmap_cons. cbn [concat]. by rewrite <- !app_assoc.
Qed.

Section Lines.
Context {T : Type} `{JsonLine T}.

Definition lineBytes (x : T) : list Z := encode (print_line x ++ [10]).

Lemma encode_no_nl (x : T) : 10 ∉ encode (print_line x).
Proof. intros Hin%encode_elem; [|done]. by eapply no_newline. Qed.

Lemma lineBytes_eq x : lineBytes x = encode (print_line x) ++ [10].
Proof. apply encode_nl. Qed.

(** A line cut before its newline holds none. *)
Lemma torn_no_nl x n : (n < length (lineBytes x))%nat → 10 ∉ take n (lineBytes x).
Proof.
  rewrite lineBytes_eq, length_app. simpl. intros Hn. rewrite take_app_le by lia.
  intros Hin%elem_of_take. destruct Hin as (i & Hi & _).
  apply list_elem_of_lookup_2 in Hi. by eapply encode_no_nl.
Qed.

Lemma decode_lines xs t :
  Forall line_ok xs →
  decode (concat (lineBytes <$> xs) ++ t) = concat ((λ p, p ++ [10]) <$> (print_line <$> xs)) ++ decode t.
Proof.
  induction 1 as [|x xs Hx _ IH]; [done|]. simpl. rewrite lineBytes_eq, <- !app_assoc.
  rewrite decode_encode_app by by apply print_well_formed. f_equal.
  change (decode (10 :: (concat (lineBytes <$> xs) ++ t)) = 10 :: (concat ((λ p, p ++ [10]) <$> (print_line <$> xs)) ++ decode t)).
  by rewrite <- IH.
Qed.

(** Whole lines, and a last one without its newline: [jsonl] reads the whole
    lines. *)
Lemma jsonl_reads p fs xs t :
  default [] (files fs !! p) = concat (lineBytes <$> xs) ++ t →
  Forall line_ok xs → Forall (λ b, 0 <= b) t → 10 ∉ t → jsonl T p fs = Ok xs.
Proof.
  intros E HF Ht0 Ht. unfold jsonl.
  destruct (files fs !! p) as [bytes|]; simpl in E; [subst|].
  - rewrite decode_lines by done.
    rewrite split_lines; [|by apply Forall_fmap, Forall_true; intros x; apply no_newline|by apply decode_no_nl].
    rewrite removelast_last. rewrite filter_all; [|by apply Forall_fmap, Forall_true; intros x; apply not_blank].
    clear t Ht0 Ht. induction HF as [|x xs Hx _ IH]; [done|].
    rewrite fmap_cons. cbn [mapM]. by rewrite read_print, IH.
  - destruct xs as [|x xs]; [done|]. simpl in E. rewrite lineBytes_eq in E.
    by destruct (encode (print_line x)).
Qed.

End Lines.

Lemma utf8_bytes_nonneg cp : 0 <= cp → Forall (λ b, 0 <= b) (utf8_bytes cp).
Proof.
  intros Hcp. unfold utf8_bytes. split_match; repeat constructor; zbool;
    Z.to_euclidean_division_equations; lia.
Qed.

Lemma encode_nonneg s : well_formed s = true → Forall (λ b, 0 <= b) (encode s).
Proof.
  induction s as [s IH] using (induction_ltof1 _ (@length Z)). unfold ltof in IH.
  destruct s as [|c s]; [constructor|]. cbn [well_formed]. destruct (is_high c) eqn:Eh.
  - destruct s as [|d s]; [done|]. intros [El Hw]%andb_true_iff.
    rewrite encode_pair by by rewrite Eh, El. apply Forall_app. split; [|apply IH; [simpl; lia|done]].
    apply utf8_bytes_nonneg. unfold is_high, is_low, pair_point in *. zbool. lia.
  - intros [[Hl Hb]%andb_true_iff Hw]%andb_true_iff. rewrite encode_cons_single by done.
    apply Forall_app. split; [|apply IH; [simpl; lia|done]].
    apply utf8_bytes_nonneg. unfold between, REPLACEMENT in *. zbool. split_match; lia.
Qed.

(** ** The lives of a record

    A record is opened, written to line by line, and left at a process death
    that may tear the last line; then it is opened again. *)
Section Lives.
Context {Ev Msg : Type} `{JsonLine Ev} `{JsonLine Msg}.
Abbreviation Line := (@Line Ev Msg).

Record Life := mkLife { written : list Line; tear : option (Line * nat) }.

Definition live (dir : path) (fs : FS) (lf : Life) : FS :=
  let fs := foldl (recordLine dir) (recorderAt dir fs) (written lf) in
  match tear lf with
  | None => fs
  | Some (l, n) => tornLine dir fs l n
  end.

Definition fine (l : Line) : Prop :=
  match l with
  | admitted s => line_ok s
  | appended e => line_ok e
  | said m => line_ok m
  | over s => line_ok s
  end.

Definition life_ok (lf : Life) : Prop :=
  Forall fine (written lf)
  ∧ match tear lf with None => True | Some (l, n) => fine l ∧ (n < length (bytesOf l))%nat end.

(** What the lines written say. *)
Definition admittedOf (ws : list Line) : list SubmissionLine :=
  omap (λ l, match l with admitted s => Some s | _ => None end) ws.
Definition overOf (ws : list Line) : list SubmissionLine :=
  omap (λ l, match l with over s => Some s | _ => None end) ws.
Definition appendedOf (ws : list Line) : list Ev :=
  omap (λ l, match l with appended e => Some e | _ => None end) ws.
Definition saidOf (ws : list Line) : list Msg :=
  omap (λ l, match l with said m => Some m | _ => None end) ws.

Definition recorded (a i : jstr) (ws : list Line) : RecordedConversation :=
  mkRecorded a i (submissionId <$> admittedOf ws) (submissionId <$> overOf ws) (appendedOf ws) (saidOf ws).

(** The bytes that lines leave in a file. *)
Definition fileBytes (f : jstr) (ws : list Line) : list Z :=
  concat (bytesOf <$> filter (λ l, fileOf l = f) ws).

Lemma fileBytes_cons f l ws :
  fileBytes f (l :: ws) = (if decide (fileOf l = f) then bytesOf l else []) ++ fileBytes f ws.
Proof. unfold fileBytes. rewrite filter_cons. by destruct (decide (fileOf l = f)). Qed.

Lemma fileBytes_app f ws vs : fileBytes f (ws ++ vs) = fileBytes f ws ++ fileBytes f vs.
Proof. unfold fileBytes. by rewrite filter_app, fmap_app, concat_app. Qed.

Lemma bytesOf_last (l : Line) : last (bytesOf l) = Some 10.
Proof. unfold bytesOf. by rewrite encode_nl, last_snoc. Qed.

Lemma fileBytes_whole f (ws : list Line) : whole (fileBytes f ws).
Proof.
  induction ws as [|l ws IH] using rev_ind; [by left|].
  rewrite fileBytes_app. destruct (decide (fileOf l = f)) as [Hf|Hf].
  - right. unfold fileBytes at 2. rewrite filter_cons_True by done.
    change (last (fileBytes f ws ++ (bytesOf l ++ [])) = Some 10).
    by rewrite app_nil_r, last_app, bytesOf_last.
  - unfold fileBytes at 2. rewrite filter_cons_False by done. simpl. by rewrite app_nil_r.
Qed.

Lemma torn_line l n :
  fine l → (n < length (bytesOf l))%nat → (10 ∉ take n (bytesOf l)) ∧ Forall (λ b, 0 <= b) (take n (bytesOf l)).
Proof.
  intros Hl Hn. split.
  - destruct l; by apply torn_no_nl.
  - apply Forall_take. unfold bytesOf. rewrite encode_nl. apply Forall_app. split; [|by repeat constructor].
    apply encode_nonneg. destruct l; by apply print_well_formed.
Qed.

(** The files of the record hold the lines [ws] and, unless it is clean, a
    torn line each. *)
Definition holds (dir : path) (clean : bool) (fs : FS) (ws : list Line) : Prop :=
  ∀ f, f ∈ RECORD_FILES → ∃ t,
    default [] (files fs !! recordFile dir f) = fileBytes f ws ++ t
    ∧ (10 ∉ t) ∧ Forall (λ b, 0 <= b) t ∧ (clean = true → t = []).

Lemma recordFile_inj dir f g :
  f ≠ [] → g ≠ [] → recordFile dir f = recordFile dir g → f = g.
Proof.
  destruct f as [|x f], g as [|y g]; try done. intros _ _. unfold recordFile, pathJoin. simpl.
  intros E%app_inj_tail. apply E.
Qed.

Lemma RECORD_FILES_nonempty f : f ∈ RECORD_FILES → f ≠ [].
Proof. intros Hf ->. revert Hf. by apply (bool_decide_unpack (([] : jstr) ∉ RECORD_FILES)). Qed.

Lemma four_files :
  js "admitted.jsonl" ∈ RECORD_FILES ∧ js "stream.jsonl" ∈ RECORD_FILES
  ∧ js "messages.jsonl" ∈ RECORD_FILES ∧ js "over.jsonl" ∈ RECORD_FILES.
Proof.
  unfold RECORD_FILES. split_and!; [left|right; left|right; right; left|right; right; right; left].
Qed.

Lemma fileOf_known (l : Line) : fileOf l ∈ RECORD_FILES.
Proof. destruct four_files as (? & ? & ? & ?). by destruct l. Qed.

Lemma lookup_append dir f g bs fs :
  f ∈ RECORD_FILES → g ∈ RECORD_FILES →
  default [] (files (appendFile (recordFile dir g) bs fs) !! recordFile dir f)
  = default [] (files fs !! recordFile dir f) ++ (if decide (g = f) then bs else []).
Proof.
  intros Hf Hg. unfold appendFile, writeFile. simpl. destruct (decide (g = f)) as [->|Hne].
  - by rewrite lookup_insert_eq.
  - rewrite lookup_insert_ne; [by rewrite app_nil_r|]. intros E.
    apply Hne. eapply recordFile_inj; [| |done]; by apply RECORD_FILES_nonempty.
Qed.

Lemma holds_line dir fs ws l :
  holds dir true fs ws → holds dir true (recordLine dir fs l) (ws ++ [l]).
Proof.
  intros Hh f Hf. destruct (Hh f Hf) as (t & E & Ht & Ht0 & Hc). rewrite (Hc eq_refl) in E.
  exists []. split_and!; [|set_solver|constructor|done].
  unfold recordLine. rewrite lookup_append by (done || apply fileOf_known).
  rewrite E, fileBytes_app, !app_nil_r. f_equal. unfold fileBytes.
  destruct (decide (fileOf l = f)).
  - rewrite filter_cons_True by done. simpl. by rewrite app_nil_r.
  - by rewrite filter_cons_False.
Qed.

Lemma holds_lines dir fs ws vs :
  holds dir true fs ws → holds dir true (foldl (recordLine dir) fs vs) (ws ++ vs).
Proof.
  revert fs ws. induction vs as [|l vs IH]; intros fs ws Hh; [by rewrite app_nil_r|].
  simpl. replace (ws ++ l :: vs) with ((ws ++ [l]) ++ vs) by by rewrite <- app_assoc.
  by apply IH, holds_line.
Qed.

Lemma holds_torn dir fs ws l n :
  fine l → (n < length (bytesOf l))%nat →
  holds dir true fs ws → holds dir false (tornLine dir fs l n) ws.
Proof.
  intros Hl Hn Hh f Hf. destruct (torn_line l n Hl Hn) as [H1 H2].
  destruct (Hh f Hf) as (t & E & Ht & Ht0 & Hc). rewrite (Hc eq_refl) in E.
  unfold tornLine. rewrite lookup_append by (done || apply fileOf_known). rewrite E, app_nil_r.
  destruct (decide (fileOf l = f)); [by exists (take n (bytesOf l))|].
  exists []. rewrite app_nil_r. split_and!; [done|set_solver|constructor|done].
Qed.

Lemma lookup_cut dir f g fs :
  f ∈ RECORD_FILES → g ∈ RECORD_FILES →
  files (cutTornTail (recordFile dir g) fs) !! recordFile dir f
  = (if decide (g = f) then keptBytes <$> files fs !! recordFile dir f else files fs !! recordFile dir f).
Proof.
  intros Hf Hg. unfold cutTornTail. destruct (decide (g = f)) as [->|Hne].
  - destruct (files fs !! recordFile dir f) eqn:E; simpl; [by rewrite lookup_insert_eq|by rewrite E].
  - destruct (files fs !! recordFile dir g); [|done]. simpl. apply lookup_insert_ne.
    intros E. apply Hne. eapply recordFile_inj; [| |done]; by apply RECORD_FILES_nonempty.
Qed.

Lemma lookup_cuts dir f gs fs :
  f ∈ RECORD_FILES → Forall (λ g, g ∈ RECORD_FILES) gs → NoDup gs →
  files (foldl (λ fs g, cutTornTail (recordFile dir g) fs) fs gs) !! recordFile dir f
  = (if decide (f ∈ gs) then keptBytes <$> files fs !! recordFile dir f else files fs !! recordFile dir f).
Proof.
  intros Hf HF HN. revert fs. induction HN as [|g gs Hg HN IH]; intros fs; [done|].
  apply Forall_cons in HF as [Hg' HF]. cbn [foldl]. rewrite IH by done. rewrite lookup_cut by done.
  destruct (decide (g = f)) as [->|Hne].
  - rewrite decide_False by done. by rewrite decide_True by set_solver.
  - destruct (decide (f ∈ gs)); [by rewrite decide_True by set_solver|by rewrite decide_False by set_solver].
Qed.

Lemma RECORD_FILES_NoDup : NoDup RECORD_FILES.
Proof. by apply (bool_decide_unpack (NoDup RECORD_FILES)). Qed.

(** Opening a record cuts what was torn. *)
Lemma holds_open dir b fs ws : holds dir b fs ws → holds dir true (recorderAt dir fs) ws.
Proof.
  intros Hh f Hf. destruct (Hh f Hf) as (t & E & Ht & Ht0 & _).
  exists []. rewrite app_nil_r. split_and!; [|set_solver|constructor|done].
  unfold recorderAt. rewrite lookup_cuts; [|done|by apply Forall_forall|apply RECORD_FILES_NoDup].
  rewrite decide_True by done.
  destruct (files fs !! recordFile dir f) as [bs|]; simpl in *; subst.
  - by rewrite keptBytes_whole by (done || apply fileBytes_whole).
  - by destruct (fileBytes f ws).
Qed.

Lemma holds_lives dir b fs ws lfs :
  Forall life_ok lfs → holds dir b fs ws →
  ∃ b', holds dir b' (foldl (live dir) fs lfs) (ws ++ concat (written <$> lfs)).
Proof.
  intros HF. revert b fs ws. induction HF as [|lf lfs [Hw Ht] _ IH]; intros b fs ws Hh.
  - exists b. simpl. by rewrite app_nil_r.
  - simpl. rewrite app_assoc. unfold live at 2.
    pose proof (holds_lines dir _ ws (written lf) (holds_open dir b fs ws Hh)) as Hl.
    destruct (tear lf) as [[l n]|]; [|by eapply IH].
    destruct Ht as [Hl1 Hl2]. eapply IH. by apply holds_torn.
Qed.

(** Each file's bytes, by the values of its lines. *)
Lemma file_stream ws : fileBytes (js "stream.jsonl") ws = concat (lineBytes <$> appendedOf ws).
Proof. induction ws as [|l ws IH]; [done|]. rewrite fileBytes_cons, IH. by destruct l. Qed.
Lemma file_said ws : fileBytes (js "messages.jsonl") ws = concat (lineBytes <$> saidOf ws).
Proof. induction ws as [|l ws IH]; [done|]. rewrite fileBytes_cons, IH. by destruct l. Qed.
Lemma file_admitted ws : fileBytes (js "admitted.jsonl") ws = concat (lineBytes <$> admittedOf ws).
Proof. induction ws as [|l ws IH]; [done|]. rewrite fileBytes_cons, IH. by destruct l. Qed.
Lemma file_over ws : fileBytes (js "over.jsonl") ws = concat (lineBytes <$> overOf ws).
Proof. induction ws as [|l ws IH]; [done|]. rewrite fileBytes_cons, IH. by destruct l. Qed.

Lemma fine_of (ws : list Line) :
  Forall fine ws →
  Forall line_ok (appendedOf ws) ∧ Forall line_ok (saidOf ws)
  ∧ Forall line_ok (admittedOf ws) ∧ Forall line_ok (overOf ws).
Proof.
  induction 1 as [|l ws Hl _ IH]; [by repeat constructor|]. destruct IH as (? & ? & ? & ?).
  destruct l; repeat split; try done; by constructor.
Qed.

(** The identity file is apart from the lines. *)
Lemma identity_kept dir p fs (l : Line) :
  p = pathJoin dir (js "conversation.json") →
  files (recordLine dir fs l) !! p = files fs !! p
  ∧ (∀ n, files (tornLine dir fs l n) !! p = files fs !! p)
  ∧ files (recorderAt dir fs) !! p = files fs !! p.
Proof.
  intros ->.
  assert (∀ f, f ∈ RECORD_FILES → recordFile dir f ≠ pathJoin dir (js "conversation.json")) as Hne.
  { intros [|x f] Hf; [by apply RECORD_FILES_nonempty in Hf|]. unfold recordFile, pathJoin. simpl.
    intros E. apply (f_equal length) in E. rewrite !length_app in E. simpl in E. lia. }
  split_and!.
  - apply lookup_insert_ne, Hne, fileOf_known.
  - intros n. apply lookup_insert_ne, Hne, fileOf_known.
  - unfold recorderAt. assert (Forall (λ g, g ∈ RECORD_FILES) RECORD_FILES) as HF by by apply Forall_forall.
    revert fs. induction HF as [|g gs Hg _ IH]; intros fs; [done|]. cbn [foldl]. rewrite IH.
    unfold cutTornTail. destruct (files fs !! recordFile dir g); [|done].
    by apply lookup_insert_ne, Hne.
Qed.

Lemma identity_lives dir p fs lfs :
  p = pathJoin dir (js "conversation.json") → files (foldl (live dir) fs lfs) !! p = files fs !! p.
Proof.
  intros Ep. revert fs. induction lfs as [|lf lfs IH]; intros fs; [done|]. simpl. rewrite IH.
  assert (∀ (ls : list Line) fs, files (foldl (recordLine dir) fs ls) !! p = files fs !! p) as Hls.
  { intros ls. induction ls as [|l ls IHl]; intros fs'; [done|]. simpl. rewrite IHl.
    by destruct (identity_kept dir p fs' l Ep) as (? & _ & _). }
  assert (files (foldl (recordLine dir) (recorderAt dir fs) (written lf)) !! p = files fs !! p) as E.
  { rewrite Hls. by destruct (identity_kept dir p fs (over (Sub [])) Ep) as (_ & _ & ?). }
  unfold live. destruct (tear lf) as [[l n]|]; [|done].
  rewrite <- E. by destruct (identity_kept dir p (foldl (recordLine dir) (recorderAt dir fs) (written lf)) l Ep) as (_ & ? & _).
Qed.

Lemma identity_reads a i :
  Forall Json.unit_ok a → Forall Json.unit_ok i →
  Json.parse (decode (encode (identityText a i)))
  = Some (Json.JObj [(js "agentName", Json.JStr a); (js "instanceId", Json.JStr i)]).
Proof.
  intros Ha Hi. set (v := Json.JObj _).
  assert (Json.units_ok v) as HU.
  { repeat constructor; done. }
  unfold identityText. fold v.
  rewrite <- (app_nil_r (encode _)), decode_encode_app, app_nil_r.
  - unfold Json.parse. rewrite Json.parse_value_ok; [done|done| |by intros c [= <-]].
    rewrite length_app. lia.
  - apply well_formed_app; [by apply stringify_well_formed|done].
Qed.

Lemma identity_props a i (v := Json.JObj [(js "agentName", Json.JStr a); (js "instanceId", Json.JStr i)]) :
  prop (js "agentName") v = Some (Json.JStr a) ∧ prop (js "instanceId") v = Some (Json.JStr i).
Proof. by split. Qed.

Lemma readRecord_holds dir b fs ws a i :
  files fs !! pathJoin dir (js "conversation.json") = Some (encode (identityText a i)) →
  Forall Json.unit_ok a → Forall Json.unit_ok i → Forall fine ws → holds dir b fs ws →
  readRecord dir fs = Ok (recorded a i ws).
Proof.
  intros E Ha Hi HF Hh. destruct (fine_of ws HF) as (F1 & F2 & F3 & F4).
  assert (∀ T `{JsonLine T} f (xs : list T), f ∈ RECORD_FILES → Forall line_ok xs →
    fileBytes f ws = concat (lineBytes <$> xs) → jsonl T (recordFile dir f) fs = Ok xs) as HJ.
  { intros T ? f xs Hf Hxs Ef. destruct (Hh f Hf) as (t & Et & Ht & Ht0 & _). rewrite Ef in Et.
    by eapply jsonl_reads. }
  destruct four_files as (I1 & I2 & I3 & I4).
  unfold readRecord. rewrite E, rok_bind, identity_reads, rok_bind by done.
  unfold isNull, guard_throw. rewrite rok_bind.
  destruct (identity_props a i) as [-> ->].
  rewrite (HJ _ _ _ _ I2 F1 (file_stream ws)), rok_bind.
  rewrite (HJ _ _ _ _ I1 F3 (file_admitted ws)), rok_bind.
  rewrite (HJ _ _ _ _ I4 F4 (file_over ws)), rok_bind.
  by rewrite (HJ _ _ _ _ I3 F2 (file_said ws)), rok_bind.
Qed.

End Lives.

(** ** Starting, finding and freeing a record *)

Lemma escapeDot_app s t : escapeDot (s ++ t) = escapeDot s ++ escapeDot t.
Proof. unfold escapeDot. apply bind_app. Qed.

Fixpoint unpct (t : jstr) : list Z :=
  match t with
  | [] => []
  | c :: r =>
      if c =? 37 then
        match r with
        | h :: l :: r' =>
            match Json.hex_val h, Json.hex_val l with
            | Some a, Some b => a * 16 + b :: unpct r'
            | _, _ => c :: unpct r
            end
        | _ => c :: unpct r
        end
      else c :: unpct r
  end.

Lemma hex_digit_val d : 0 <= d < 16 → Json.hex_val (hex_digit d) = Some d.
Proof.
  intros Hd. unfold Json.hex_val, hex_digit.
  destruct (Z.ltb_spec d 10); split_match; zbool; f_equal; lia.
Qed.

Lemma unpct_pct b r : 0 <= b < 256 → unpct (pct b ++ r) = b :: unpct r.
Proof.
  intros Hb. unfold pct. cbn [app unpct Z.eqb Pos.eqb].
  rewrite !hex_digit_val by (Z.to_euclidean_division_equations; lia).
  f_equal. Z.to_euclidean_division_equations; lia.
Qed.

Lemma escapeDot_pct_bytes bs :
  Forall (λ b, 0 <= b < 256) bs → ∀ t, unpct (escapeDot (pct_bytes bs ++ t)) = bs ++ unpct (escapeDot t).
Proof.
  induction 1 as [|b bs Hb _ IH]; intros t; [done|].
  change (pct_bytes (b :: bs)) with (pct b ++ pct_bytes bs). rewrite <- app_assoc, escapeDot_app.
  assert (escapeDot (pct b) = pct b) as ->.
  { unfold escapeDot, pct. assert (∀ d, 0 <= d < 16 → (hex_digit d =? 46) = false) as Hd.
    { intros d Hd. unfold hex_digit. apply Z.eqb_neq. destruct (Z.ltb_spec d 10); lia. }
    cbn -[Z.div Z.modulo hex_digit]. by rewrite !Hd by (Z.to_euclidean_division_equations; lia). }
  rewrite unpct_pct, IH by done. done.
Qed.

Lemma utf8_bytes_range cp : 0 <= cp < 0x110000 → Forall (λ b, 0 <= b < 256) (utf8_bytes cp).
Proof.
  intros Hcp. unfold utf8_bytes. split_match; repeat constructor; zbool;
    Z.to_euclidean_division_equations; lia.
Qed.

Lemma unpct_plain c r : c ≠ 37 → unpct (c :: r) = c :: unpct r.
Proof. intros Hc. cbn [unpct]. by destruct (Z.eqb_spec c 37). Qed.

Lemma unreserved_ascii c : uri_unreserved c = true → 0 <= c <= 0x7f ∧ c ≠ 37 ∧ c ≠ 47.
Proof.
  unfold uri_unreserved. rewrite !orb_true_iff, !andb_true_iff, !Z.leb_le, !Z.eqb_eq. lia.
Qed.

(** Reading the percent escapes of a segment gives the bytes of the name. *)
Lemma unpct_segment s t :
  Forall Json.unit_ok s → encodeURIComponent s = Some t →
  unpct (escapeDot t) = encode s ∧ well_formed s = true.
Proof.
  revert t. induction s as [s IH] using (induction_ltof1 _ (@length Z)). unfold ltof in IH.
  intros t HF. destruct s as [|c s]; [by intros [= <-]|]. apply Forall_cons in HF as [Hc HF].
  unfold Json.unit_ok in Hc. cbn [encodeURIComponent].
  destruct (uri_unreserved c) eqn:Eu.
  - destruct (encodeURIComponent s) as [t'|] eqn:E; [|done]. intros [= <-].
    apply unreserved_ascii in Eu as (Hc1 & Hc2 & _).
    destruct (IH s ltac:(simpl; lia) t' HF E) as [IH1 IH2].
    assert (is_high c = false ∧ is_low c = false) as [Eh El].
    { unfold is_high, is_low. rewrite !andb_false_iff, !Z.leb_gt. lia. }
    rewrite encode_cons_single by done. unfold encode_unit, utf8_bytes. rewrite Eh, El. simpl.
    rewrite (proj2 (Z.leb_le c 127)) by lia. simpl. rewrite <- IH1. split.
    + unfold escapeDot. simpl. destruct (Z.eqb_spec c 46) as [->|Hd]; [done|]. by apply unpct_plain.
    + unfold between. by rewrite ?Eh, ?El, IH2, (proj2 (Z.leb_le 0 c)), (proj2 (Z.leb_le c 65535)) by lia.
  - destruct (is_high c) eqn:Eh; [destruct s as [|d s]; [done|]; destruct (is_low d) eqn:El; [|done]|].
    + apply Forall_cons in HF as [Hd HF].
      destruct (encodeURIComponent s) as [t'|] eqn:E; [|done]. intros [= <-].
      destruct (IH s ltac:(simpl; lia) t' HF E) as [IH1 IH2].
      rewrite encode_pair by by rewrite Eh, El. split; [|cbn [well_formed]; by rewrite Eh, El].
      rewrite escapeDot_pct_bytes, IH1; [done|]. apply utf8_bytes_range.
      unfold pair_point, is_high, is_low in *. zbool. lia.
    + destruct (is_low c) eqn:El; [done|].
      destruct (encodeURIComponent s) as [t'|] eqn:E; [|done]. intros [= <-].
      destruct (IH s ltac:(simpl; lia) t' HF E) as [IH1 IH2].
      rewrite encode_cons_single by done. unfold encode_unit. rewrite Eh, El. simpl.
      split; [rewrite escapeDot_pct_bytes, IH1; [done|apply utf8_bytes_range; lia]|].
      unfold between. by rewrite ?Eh, ?El, IH2, (proj2 (Z.leb_le 0 c)), (proj2 (Z.leb_le c 65535)) by lia.
Qed.

Lemma segment_inj s1 s2 t :
  Forall Json.unit_ok s1 → Forall Json.unit_ok s2 →
  segment s1 = Ok t → segment s2 = Ok t → s1 = s2.
Proof.
  intros H1 H2. unfold segment.
  destruct (encodeURIComponent s1) as [t1|] eqn:E1; [|done]. intros [= <-].
  destruct (encodeURIComponent s2) as [t2|] eqn:E2; [|done]. intros [= Et].
  apply unpct_segment in E1 as [U1 W1]; [|done]. apply unpct_segment in E2 as [U2 W2]; [|done].
  pose proof (decode_encode_app s1 [] W1) as D1. pose proof (decode_encode_app s2 [] W2) as D2.
  rewrite !app_nil_r in *. rewrite <- D1, <- D2, <- U1, <- U2, Et. done.
Qed.

(** The characters of a segment. *)
Definition segment_char (c : Z) : Prop := c ≠ 46 ∧ c ≠ 47.

Lemma pct_chars b : 0 <= b < 256 → Forall segment_char (pct b).
Proof.
  intros Hb. unfold pct. assert (∀ d, 0 <= d < 16 → segment_char (hex_digit d)) as Hd.
  { intros d Hd. unfold segment_char, hex_digit. destruct (Z.ltb_spec d 10); lia. }
  repeat constructor; try lia; apply Hd; Z.to_euclidean_division_equations; lia.
Qed.

Lemma encoded_chars s t :
  Forall Json.unit_ok s → encodeURIComponent s = Some t → (47 ∉ t) ∧ (t = [] → s = []).
Proof.
  revert t. induction s as [s IH] using (induction_ltof1 _ (@length Z)). unfold ltof in IH.
  intros t HF. destruct s as [|c s]; [by intros [= <-]; split; [set_solver|]|].
  apply Forall_cons in HF as [Hc HF]. unfold Json.unit_ok in Hc.
  assert (∀ bs r, Forall (λ b, 0 <= b < 256) bs → 47 ∉ r → 47 ∉ pct_bytes bs ++ r) as Hp.
  { intros bs r Hbs Hr. rewrite not_elem_of_app. split; [|done].
    unfold pct_bytes. intros (b & Hb & Hin)%list_elem_of_bind.
    rewrite Forall_forall in Hbs. apply Hbs in Hin. apply pct_chars in Hin. rewrite Forall_forall in Hin.
    apply Hin in Hb. by destruct Hb. }
  cbn [encodeURIComponent]. destruct (uri_unreserved c) eqn:Eu.
  - destruct (encodeURIComponent s) as [t'|] eqn:E; [|done]. intros [= <-].
    apply unreserved_ascii in Eu as (_ & _ & Hc2).
    destruct (IH s ltac:(simpl; lia) t' HF E) as [IH1 _]. split; [|done]. set_solver.
  - destruct (is_high c) eqn:Eh; [destruct s as [|d s]; [done|]; destruct (is_low d) eqn:El; [|done]|].
    + apply Forall_cons in HF as [Hd HF].
      destruct (encodeURIComponent s) as [t'|] eqn:E; [|done]. intros [= <-].
      destruct (IH s ltac:(simpl; lia) t' HF E) as [IH1 _].
      assert (0 <= pair_point c d < 0x110000) as Hpp
        by (unfold pair_point, is_high, is_low in *; zbool; lia).
      split; [apply Hp; [by apply utf8_bytes_range|done]|].
      unfold utf8_bytes. split_match; done.
    + destruct (is_low c) eqn:El; [done|].
      destruct (encodeURIComponent s) as [t'|] eqn:E; [|done]. intros [= <-].
      destruct (IH s ltac:(simpl; lia) t' HF E) as [IH1 _].
      split; [apply Hp; [apply utf8_bytes_range; lia|done]|].
      unfold utf8_bytes. split_match; done.
Qed.

Lemma segment_plain s t :
  Forall Json.unit_ok s → segment s = Ok t → Forall segment_char t ∧ (t = [] → s = []).
Proof.
  intros HF. unfold segment. destruct (encodeURIComponent s) as [u|] eqn:E; [|done]. intros [= <-].
  destruct (encoded_chars s u HF E) as [H47 He]. split.
  - unfold escapeDot. rewrite Forall_forall. intros x (c & Hx & Hc)%list_elem_of_bind.
    destruct (Z.eqb_spec c 46) as [Hd|Hd].
    + unfold segment_char. simpl in Hx. rewrite !elem_of_cons, elem_of_nil in Hx. lia.
    + apply list_elem_of_singleton in Hx. subst x. split; [done|]. congruence.
  - intros Hn. apply He. destruct u as [|c u]; [done|]. simpl in Hn. by destruct (c =? 46).
Qed.

Lemma pathJoin_snoc d p : p ≠ [] → pathJoin d p = d ++ [p].
Proof. by destruct p. Qed.

Lemma recordFile_eq dir f : f ≠ [] → recordFile dir f = dir ++ [js "record"; f].
Proof.
  intros Hf. unfold recordFile. rewrite (pathJoin_snoc _ f), (pathJoin_snoc dir) by done.
  by rewrite <- app_assoc.
Qed.

Lemma files_recorderAt_other dir p fs :
  ¬ under dir p → files (recorderAt dir fs) !! p = files fs !! p.
Proof.
  intros Hu. unfold recorderAt.
  assert (Forall (λ g, g ≠ []) RECORD_FILES) as HF by (apply Forall_forall, RECORD_FILES_nonempty).
  revert fs. induction HF as [|g gs Hg _ IH]; intros fs; [done|]. cbn [foldl]. rewrite IH.
  unfold cutTornTail. destruct (files fs !! recordFile dir g); [|done].
  apply lookup_insert_ne. intros <-. apply Hu. rewrite recordFile_eq by done. by eexists.
Qed.

Lemma files_rm_under d p fs : under d p → files (rm_rf d fs) !! p = None.
Proof. intros Hu. simpl. apply map_lookup_filter_None. right. intros x _ Hn. by apply Hn. Qed.

Lemma files_rm_other d p fs : ¬ under d p → files (rm_rf d fs) !! p = files fs !! p.
Proof.
  intros Hu. simpl. destruct (files fs !! p) as [b|] eqn:E.
  - by apply map_lookup_filter_Some.
  - apply map_lookup_filter_None. by left.
Qed.

Section Start.
Context {Ev Msg : Type} `{JsonLine Ev} `{JsonLine Msg}.
Abbreviation Line := (@Line Ev Msg).

(** A fresh record holds no lines and says whose it is. *)
Lemma startRecord_fresh root a i fs fs1 dir :
  conversationDir root a i = Ok dir → startRecord root a i fs = Ok fs1 →
  holds dir true fs1 ([] : list Line)
  ∧ files fs1 !! pathJoin dir (js "conversation.json") = Some (encode (identityText a i)).
Proof.
  intros Hd. unfold startRecord. rewrite Hd, rok_bind. intros <-%Ok_inj.
  unfold startAt. cbv zeta. set (fs2 := writeFile _ _ _). split.
  - apply (holds_open dir true). intros f Hf. exists [].
    split_and!; [|set_solver|constructor|done].
    assert (files fs2 !! recordFile dir f = None) as ->; [|done].
    rewrite recordFile_eq by by apply RECORD_FILES_nonempty.
    subst fs2. unfold writeFile, mkdir_p. cbn [files]. rewrite lookup_insert_ne.
    + apply files_rm_under. by eexists.
    + rewrite pathJoin_snoc by done. intros E%(f_equal length). rewrite !length_app in E. simpl in E. lia.
  - destruct (identity_kept dir _ fs2 (over (Sub []) : Line) eq_refl) as (_ & _ & ->).
    apply lookup_insert_eq.
Qed.

(** C33: A conversation's record survives process deaths. Start a record, then
    let it live any number of lives, each of which opens it, writes any lines
    through the recorder and may end in the middle of a line, at any byte:
    reading it gives the conversation's names and exactly the lines written in
    full, in the order they were written, and never an error. *)
Theorem record_survives_tears root a i fs fs1 dir (lives : list (@Life Ev Msg)) :
  conversationDir root a i = Ok dir → startRecord root a i fs = Ok fs1 →
  Forall Json.unit_ok a → Forall Json.unit_ok i → Forall life_ok lives →
  readRecord dir (foldl (live dir) fs1 lives) = Ok (recorded a i (concat (written <$> lives))).
Proof.
  intros Hd Hs Ha Hi HF. destruct (startRecord_fresh root a i fs fs1 dir Hd Hs) as [Hh Hid].
  destruct (holds_lives dir true fs1 [] lives HF Hh) as [b Hb].
  apply (readRecord_holds dir b); [by rewrite identity_lives|done|done| |done].
  apply Forall_concat, Forall_fmap. eapply Forall_impl; [exact HF|]. by intros lf [Hw _].
Qed.

End Start.

Definition emptyFS : FS := mkFS ∅ ∅.

(** A life that ends in the middle of its second line, then one that ends
    well. *)
Definition twoLives : list (@Life Json.json Json.json) :=
  [mkLife [admitted (Sub (js "s1")); appended (Json.JStr (js "a"))] (Some (appended (Json.JStr (js "b")), 2%nat));
   mkLife [appended (Json.JStr (js "c")); said Json.JNull] None].

Definition started : FS := startAt [js "plan%2Er"; js "1"] (js "plan.r") (js "1") emptyFS.

Lemma record_survives_tears_witness :
  readRecord [js "plan%2Er"; js "1"] (foldl (live [js "plan%2Er"; js "1"]) started twoLives)
  = Ok (recorded (js "plan.r") (js "1") (concat (written <$> twoLives)))
  ∧ appendedOf (concat (written <$> twoLives)) = [Json.JStr (js "a"); Json.JStr (js "c")].
Proof.
  split; [|reflexivity].
  apply (record_survives_tears [] (js "plan.r") (js "1") emptyFS); [reflexivity|reflexivity| | |].
  - by repeat constructor.
  - by repeat constructor.
  - unfold twoLives. repeat constructor; simpl; try done; try lia.
Defined.

Lemma conversationDir_shape root a i dir :
  Forall Json.unit_ok a → Forall Json.unit_ok i → a ≠ [] → i ≠ [] →
  conversationDir root a i = Ok dir →
  ∃ sa si, segment a = Ok sa ∧ segment i = Ok si ∧ dir = root ++ [sa; si]
         ∧ Forall segment_char sa ∧ Forall segment_char si ∧ sa ≠ [] ∧ si ≠ [].
Proof.
  intros Ha Hi Hna Hni Hd. unfold conversationDir in Hd. ok_inv. subst dir.
  destruct (segment_plain a v Ha E) as [Hc He]. destruct (segment_plain i v0 Hi E0) as [Hc0 He0].
  assert (v ≠ []) by auto. assert (v0 ≠ []) by auto.
  exists v, v0. split_and!; try done. rewrite !pathJoin_snoc by done. by rewrite <- app_assoc.
Qed.

(** Conversations are kept apart. Two conversations with different names
    have different directories, both directly under the record root's agent
    directories, with no slash and no dot in a segment; starting or freeing
    the record of one, or writing a line to it, leaves every file of the other
    as it was. *)
Theorem conversations_apart {Ev Msg} `{JsonLine Ev} `{JsonLine Msg}
    root a1 i1 a2 i2 d1 d2 fs fs1 (l : @Line Ev Msg) p :
  Forall Json.unit_ok a1 → Forall Json.unit_ok i1 → Forall Json.unit_ok a2 → Forall Json.unit_ok i2 →
  a1 ≠ [] → i1 ≠ [] → a2 ≠ [] → i2 ≠ [] → (a1, i1) ≠ (a2, i2) →
  conversationDir root a1 i1 = Ok d1 → conversationDir root a2 i2 = Ok d2 →
  startRecord root a1 i1 fs = Ok fs1 → under d2 p →
  d1 ≠ d2
  ∧ (∃ sa si, d1 = root ++ [sa; si] ∧ Forall segment_char (sa ++ si) ∧ sa ≠ [] ∧ si ≠ [])
  ∧ files fs1 !! p = files fs !! p
  ∧ files (recordLine d1 fs l) !! p = files fs !! p
  ∧ files (freeDir d1 fs) !! p = files fs !! p.
Proof.
  intros Ua1 Ui1 Ua2 Ui2 Na1 Ni1 Na2 Ni2 Hne H1 H2 Hs Hu.
  destruct (conversationDir_shape root a1 i1 d1) as (sa1 & si1 & A1 & B1 & -> & C1 & D1 & E1 & F1); try done.
  destruct (conversationDir_shape root a2 i2 d2) as (sa2 & si2 & A2 & B2 & -> & C2 & D2 & E2 & F2); try done.
  assert (¬ under (root ++ [sa1; si1]) p) as Hnu.
  { destruct Hu as [q ->]. intros [q' E]. rewrite <- !app_assoc in E. simplify_eq/=.
    apply Hne. f_equal; by eapply segment_inj. }
  assert (∀ f, f ≠ [] → recordFile (root ++ [sa1; si1]) f ≠ p) as Hrf.
  { intros f Hf <-. apply Hnu. rewrite recordFile_eq by done. by eexists. }
  split_and!.
  - intros E. rewrite E in Hnu. by apply Hnu.
  - exists sa1, si1. split_and!; [done|by apply Forall_app|done|done].
  - unfold startRecord in Hs. rewrite H1, rok_bind in Hs. apply Ok_inj in Hs. subst fs1. unfold startAt.
    rewrite files_recorderAt_other by done. unfold writeFile, mkdir_p. cbn [files].
    rewrite lookup_insert_ne; [by apply files_rm_other|]. intros <-. apply Hnu.
    rewrite pathJoin_snoc by done. by eexists.
  - apply lookup_insert_ne, Hrf. by destruct l.
  - unfold freeDir. destruct (isEmptyDir _ _); by apply files_rm_other.
Qed.

Lemma conversations_apart_witness :
  [js "a"; js "x%2Fy"] ≠ [js "a"; js "x"]
  ∧ files (recordLine (Ev := Json.json) (Msg := Json.json) [js "a"; js "x%2Fy"] emptyFS (over (Sub (js "s"))))
      !! [js "a"; js "x"] = None.
Proof.
  destruct (conversations_apart (Ev := Json.json) (Msg := Json.json) [] (js "a") (js "x/y") (js "a") (js "x")
    [js "a"; js "x%2Fy"] [js "a"; js "x"] emptyFS
    (startAt [js "a"; js "x%2Fy"] (js "a") (js "x/y") emptyFS)
    (over (Sub (js "s"))) [js "a"; js "x"]) as (A & _ & _ & B & _);
    try done; try (by repeat constructor); by exists [].
Defined.

(** ** The MCP tools seat *)

Lemma toolsText_reads t :
  Json.units_ok t → Json.parse (decode (encode (toolsText t))) = Some (Json.JObj [(js "tools", t)]).
Proof.
  intros Ht. assert (Json.units_ok (Json.JObj [(js "tools", t)])) as HU by (repeat constructor; done).
  unfold toolsText. rewrite <- (app_nil_r (encode _)), decode_encode_app, app_nil_r.
  - unfold Json.parse. rewrite Json.parse_value_ok; [done|done| |by intros c [= <-]].
    rewrite length_app. lia.
  - apply well_formed_app; [by apply stringify_well_formed|done].
Qed.

Lemma seatWriteFs_lookup p t n fs :
  p ≠ [] →
  files (seatWriteFs p t n fs) !! p
  = if (n <? length (encode (toolsText t)))%nat then files fs !! p else Some (take n (encode (toolsText t))).
Proof.
  intros Hp. assert (tmpOf p ≠ p) as Hne.
  { destruct p as [|f d _] using rev_ind; [done|]. unfold tmpOf, dirname.
    rewrite removelast_last, last_snoc. intros [_ E]%app_inj_tail.
    apply (f_equal length) in E. rewrite length_app in E. simpl in E. lia. }
  unfold seatWriteFs. destruct (Nat.ltb_spec n (length (encode (toolsText t)))).
  - by apply lookup_insert_ne.
  - unfold rename, writeFile, mkdir_p. cbn [files]. rewrite lookup_insert_eq. cbn [files].
    apply lookup_insert_eq.
Qed.

(** The MCP tools of a conversation are replaced all at once. Write a list
    of tools, then die at any byte while writing another: a new seat reads the
    first list if the temporary file was not complete, and the second one if
    it was. *)
Theorem mcp_tools_all_or_nothing dir t1 t2 n fs (p := recordFile dir (js "mcp-tools.json")) :
  Json.units_ok t1 → Json.units_ok t2 →
  let fs1 := (seatWrite t1 (mcpToolsSeat (Some dir)) fs).2 in
  ∃ s, seatRead (mcpToolsSeat (Some dir)) (seatWriteFs p t2 n fs1)
     = Ok (Some (if (n <? length (encode (toolsText t2)))%nat then t1 else t2), s).
Proof.
  intros H1 H2. unfold seatWrite, mcpToolsSeat. cbn [seatPath fmap option_fmap option_map snd].
  fold p. set (fs1 := seatWriteFs p t1 _ fs). unfold seatRead. cbn [held seatPath].
  assert (p ≠ []) as Hp by (unfold p; rewrite recordFile_eq by done; by destruct dir).
  assert (files fs1 !! p = Some (encode (toolsText t1))) as E1.
  { unfold fs1. by rewrite seatWriteFs_lookup, Nat.ltb_irrefl, take_ge by done. }
  rewrite seatWriteFs_lookup, E1 by done.
  assert (∀ t (w : option Json.json), prop (js "tools") (Json.JObj [(js "tools", t)]) = Some t) as HP by done.
  destruct (Nat.ltb_spec n (length (encode (toolsText t2)))) as [Hn|Hn].
  - rewrite toolsText_reads, rok_bind by done. unfold isNull, guard_throw. rewrite rok_bind.
    rewrite (HP t1 None). by eexists.
  - rewrite take_ge by done. rewrite toolsText_reads, rok_bind by done. unfold isNull, guard_throw.
    rewrite rok_bind. rewrite (HP t2 None). by eexists.
Qed.

Lemma mcp_tools_all_or_nothing_witness :
  ∃ s, seatRead (mcpToolsSeat (Some [js "a"]))
         (seatWriteFs [js "a"; js "record"; js "mcp-tools.json"] (Json.JArr [Json.JNum 1]) 5
            (seatWrite (Json.JArr []) (mcpToolsSeat (Some [js "a"])) emptyFS).2)
     = Ok (Some (Json.JArr []), s).
Proof.
  apply (mcp_tools_all_or_nothing [js "a"] (Json.JArr []) (Json.JArr [Json.JNum 1]) 5 emptyFS);
    by repeat constructor.
Defined.
End Record.
