(* ===== verification/Keep.v ===== *)
(** * The kept conversation's sender (harness/src/keep.ts)

    [Keeper] is the state of a [ConversationKeeper]; [newKeeper] its
    constructor over what the record folder holds; [add], [kick], [close],
    [setSlot] its methods; [timerFires] and [answered]/[sendEnds] the
    continuations of its timer and of a send ([answered] runs up to the end of
    [sendOne], [sendEnds] is the [finally]).  [step] interleaves them in any
    order.  The ghost fields [added] and [done_] list the entries given to
    [add] and those whose batch was answered for good. *)

From Stdlib Require Import Lia ZArith.
From stdpp Require Import base list strings sets gmap sorting.
From S2P Require Import Prelude JsString Json Utf8 Record.

Open Scope Z_scope.

Module Keep.

(** ** Entries *)

Record KeptEntry := mkEntry { id : jstr; seq : Z; at_ : jstr; kind : jstr; text : jstr }.

Inductive KeepAnswer := kept | again | refused | cut.

#[export] Instance KeepAnswer_eq_dec : EqDecision KeepAnswer.
Proof. solve_decision. Defined.

Definition BATCH_BYTES : Z := 512 * 1024.
Definition INTERVAL_MS : Z := 1000.
Definition MAX_BACKOFF_MS : Z := 30000.
Definition CLOSED_TRIES : Z := 3.
Definition ENTRY_CHARS : Z := 64 * 1024.

Definition strlen (s : jstr) : Z := Z.of_nat (length s).

(** [s.slice(-n)] for a positive [n] *)
Definition lastUnits (n : Z) (s : jstr) : jstr := drop (Z.to_nat (Z.max 0 (strlen s - n))) s.

Definition boundEntryText (t : jstr) : jstr :=
  if strlen t <=? ENTRY_CHARS then t
  else
    let half := ENTRY_CHARS / 2 in
    take (Z.to_nat half) t ++ [0x2026] ++ js " [" ++ of_int (strlen t - 2 * half)
      ++ js " characters cut] " ++ [0x2026] ++ lastUnits half t.

Definition entryJson (e : KeptEntry) : Json.json :=
  Json.JObj [(js "id", Json.JStr (id e)); (js "seq", Json.JNum (seq e)); (js "at", Json.JStr (at_ e));
             (js "kind", Json.JStr (kind e)); (js "text", Json.JStr (text e))].

(** [JSON.parse(line) as KeptEntry] *)
Definition readEntry (t : jstr) : option KeptEntry :=
  v ← Json.parse t;
  match Record.prop (js "id") v, Record.prop (js "seq") v, Record.prop (js "at") v,
        Record.prop (js "kind") v, Record.prop (js "text") v with
  | Some (Json.JStr i), Some (Json.JNum n), Some (Json.JStr a), Some (Json.JStr k), Some (Json.JStr x) =>
      Some (mkEntry i n a k x)
  | _, _, _, _, _ => None
  end.

Definition entry_ok (e : KeptEntry) : Prop :=
  Forall Json.unit_ok (id e) ∧ Forall Json.unit_ok (at_ e) ∧ Forall Json.unit_ok (kind e)
  ∧ Forall Json.unit_ok (text e).

Lemma entryJson_ok e : entry_ok e → Json.units_ok (entryJson e).
Proof.
  intros (? & ? & ? & ?). constructor; repeat constructor; simpl; try done; lia.
Qed.

#[export] Instance entry_line : JsonLine KeptEntry.
Proof.
  refine {| print_line := λ e, Json.stringify (entryJson e); read_line := readEntry; line_ok := entry_ok |}.
  - intros e He. unfold readEntry. rewrite Json.parse_stringify by by apply entryJson_ok.
    simpl. by destruct e.
  - intros e He. by apply stringify_well_formed, entryJson_ok.
  - intros e. apply Json.no_nl_stringify.
  - intros e. apply json_not_blank.
Defined.

(** [/^\[([^\]\n]+)\] ?/.exec(body)]: the label and what follows the match. *)
Fixpoint labelEnd (s : jstr) : option (jstr * jstr) :=
  match s with
  | [] => None
  | c :: r =>
      if c =? 93 then Some ([], r)
      else if c =? 10 then None
      else '(l, r') ← labelEnd r; Some (c :: l, r')
  end.

Definition label (body : jstr) : option (jstr * jstr) :=
  match body with
  | c :: s =>
      if c =? 91 then
        match labelEnd s with
        | Some ((_ :: _) as l, r) => Some (l, match r with d :: r' => if d =? 32 then r' else r | [] => r end)
        | _ => None
        end
      else None
  | [] => None
  end.

(** ** The keeper *)

(** [inFlight]: no send, a send of a batch, or a send that has ended and whose
    [finally] has not run. *)
Inductive Flight := Idle | Sending (batch : list KeptEntry) | Ending.

Record Keeper := mkKeeper {
  entriesPath : option Record.path;
  statePath : option Record.path;
  hasSend : bool;
  intervalMs : Z;
  maxBackoffMs : Z;
  pendingEntries : list KeptEntry;
  nextSeq : Z;
  sent : Z;
  slotValue : jstr;
  timer : option Z;
  inFlight : Flight;
  failures : Z;
  closedTries : option Z;
  refusedSaid : bool;
  cutDone : bool;
  disk : Record.FS;
  added : list KeptEntry;
  done_ : list KeptEntry;
}.

Definition set_pendingEntries v (k : Keeper) : Keeper :=
  mkKeeper (entriesPath k) (statePath k) (hasSend k) (intervalMs k) (maxBackoffMs k) v (nextSeq k) (sent k) (slotValue k) (timer k) (inFlight k) (failures k) (closedTries k) (refusedSaid k) (cutDone k) (disk k) (added k) (done_ k).
Definition set_nextSeq v (k : Keeper) : Keeper :=
  mkKeeper (entriesPath k) (statePath k) (hasSend k) (intervalMs k) (maxBackoffMs k) (pendingEntries k) v (sent k) (slotValue k) (timer k) (inFlight k) (failures k) (closedTries k) (refusedSaid k) (cutDone k) (disk k) (added k) (done_ k).
Definition set_sent v (k : Keeper) : Keeper :=
  mkKeeper (entriesPath k) (statePath k) (hasSend k) (intervalMs k) (maxBackoffMs k) (pendingEntries k) (nextSeq k) v (slotValue k) (timer k) (inFlight k) (failures k) (closedTries k) (refusedSaid k) (cutDone k) (disk k) (added k) (done_ k).
Definition set_slotValue v (k : Keeper) : Keeper :=
  mkKeeper (entriesPath k) (statePath k) (hasSend k) (intervalMs k) (maxBackoffMs k) (pendingEntries k) (nextSeq k) (sent k) v (timer k) (inFlight k) (failures k) (closedTries k) (refusedSaid k) (cutDone k) (disk k) (added k) (done_ k).
Definition set_timer v (k : Keeper) : Keeper :=
  mkKeeper (entriesPath k) (statePath k) (hasSend k) (intervalMs k) (maxBackoffMs k) (pendingEntries k) (nextSeq k) (sent k) (slotValue k) v (inFlight k) (failures k) (closedTries k) (refusedSaid k) (cutDone k) (disk k) (added k) (done_ k).
Definition set_inFlight v (k : Keeper) : Keeper :=
  mkKeeper (entriesPath k) (statePath k) (hasSend k) (intervalMs k) (maxBackoffMs k) (pendingEntries k) (nextSeq k) (sent k) (slotValue k) (timer k) v (failures k) (closedTries k) (refusedSaid k) (cutDone k) (disk k) (added k) (done_ k).
Definition set_failures v (k : Keeper) : Keeper :=
  mkKeeper (entriesPath k) (statePath k) (hasSend k) (intervalMs k) (maxBackoffMs k) (pendingEntries k) (nextSeq k) (sent k) (slotValue k) (timer k) (inFlight k) v (closedTries k) (refusedSaid k) (cutDone k) (disk k) (added k) (done_ k).
Definition set_closedTries v (k : Keeper) : Keeper :=
  mkKeeper (entriesPath k) (statePath k) (hasSend k) (intervalMs k) (maxBackoffMs k) (pendingEntries k) (nextSeq k) (sent k) (slotValue k) (timer k) (inFlight k) (failures k) v (refusedSaid k) (cutDone k) (disk k) (added k) (done_ k).
Definition set_refusedSaid v (k : Keeper) : Keeper :=
  mkKeeper (entriesPath k) (statePath k) (hasSend k) (intervalMs k) (maxBackoffMs k) (pendingEntries k) (nextSeq k) (sent k) (slotValue k) (timer k) (inFlight k) (failures k) (closedTries k) v (cutDone k) (disk k) (added k) (done_ k).
Definition set_cutDone v (k : Keeper) : Keeper :=
  mkKeeper (entriesPath k) (statePath k) (hasSend k) (intervalMs k) (maxBackoffMs k) (pendingEntries k) (nextSeq k) (sent k) (slotValue k) (timer k) (inFlight k) (failures k) (closedTries k) (refusedSaid k) v (disk k) (added k) (done_ k).
Definition set_disk v (k : Keeper) : Keeper :=
  mkKeeper (entriesPath k) (statePath k) (hasSend k) (intervalMs k) (maxBackoffMs k) (pendingEntries k) (nextSeq k) (sent k) (slotValue k) (timer k) (inFlight k) (failures k) (closedTries k) (refusedSaid k) (cutDone k) v (added k) (done_ k).
Definition set_added v (k : Keeper) : Keeper :=
  mkKeeper (entriesPath k) (statePath k) (hasSend k) (intervalMs k) (maxBackoffMs k) (pendingEntries k) (nextSeq k) (sent k) (slotValue k) (timer k) (inFlight k) (failures k) (closedTries k) (refusedSaid k) (cutDone k) (disk k) v (done_ k).
Definition set_done_ v (k : Keeper) : Keeper :=
  mkKeeper (entriesPath k) (statePath k) (hasSend k) (intervalMs k) (maxBackoffMs k) (pendingEntries k) (nextSeq k) (sent k) (slotValue k) (timer k) (inFlight k) (failures k) (closedTries k) (refusedSaid k) (cutDone k) (disk k) (added k) v.

(** [send] is absent, or there is nothing more to try. *)
Definition done (k : Keeper) : bool :=
  if hasSend k then
    match closedTries k with
    | Some n => (length (pendingEntries k) =? 0)%nat || (n <=? 0)
    | None => false
    end
  else true.

(** [JSON.parse(...) as { sent?: number; slot?: string }] *)
Definition readState (k : Keeper) : option (option Z * option jstr) :=
  p ← statePath k;
  bytes ← Record.files (disk k) !! p;
  v ← Json.parse (decode bytes);
  Some (match Record.prop (js "sent") v with Some (Json.JNum n) => Some n | _ => None end,
        match Record.prop (js "slot") v with Some (Json.JStr s) => Some s | _ => None end).

Definition stateText (n : Z) (s : jstr) : jstr :=
  Json.stringify (Json.JObj [(js "sent", Json.JNum n); (js "slot", Json.JStr s)]) ++ [10].

Definition writeState (k : Keeper) : Keeper :=
  match statePath k, closedTries k with
  | Some p, None =>
      let fs := Record.writeFile (Record.tmpOf p) (encode (stateText (sent k) (slotValue k)))
                  (Record.mkdir_p (Record.dirname p) (disk k)) in
      set_disk (Record.rename (Record.tmpOf p) p fs) k
  | _, _ => k
  end.

(** The entries of the record, a line that does not parse left out; the torn
    tail is cut. *)
Definition readEntries (p : option Record.path) (fs : Record.FS) : list KeptEntry * Record.FS :=
  match p with
  | None => ([], fs)
  | Some p =>
      let fs := Record.cutTornTail p fs in
      match Record.files fs !! p with
      | None => ([], fs)
      | Some bytes => (omap read_line (filter (λ l, l ≠ []) (split_on 10 (decode bytes))), fs)
      end
  end.

Definition schedule (ms : Z) (k : Keeper) : Keeper :=
  match timer k, inFlight k, hasSend k with
  | None, Idle, true => set_timer (Some ms) k
  | _, _, _ => k
  end.

(** The batch that [sendOne] sends. *)
Fixpoint batchLoop (some : bool) (bytes : Z) (l : list KeptEntry) : list KeptEntry :=
  match l with
  | [] => []
  | e :: l' =>
      let size := utf8ByteLength (print_line e) in
      if some && (BATCH_BYTES <? bytes + size) then []
      else e :: batchLoop true (bytes + size) l'
  end.

Definition closedOut (k : Keeper) : bool :=
  match closedTries k with
  | Some n => n <=? 0
  | None => false
  end.

Definition start (k : Keeper) : Keeper :=
  match inFlight k with
  | Idle =>
      if negb (hasSend k) || (length (pendingEntries k) =? 0)%nat || (length (slotValue k) =? 0)%nat
      then k
      else if closedOut k then k
      else set_inFlight (Sending (batchLoop false 0 (pendingEntries k))) k
  | _ => k
  end.

Definition newKeeper (dir : option Record.path) (send : bool) (interval maxBackoff : Z) (now : Z)
    (fs : Record.FS) : Keeper :=
  let ep := (λ d, Record.recordFile d (js "entries.jsonl")) <$> dir in
  let sp := (λ d, Record.recordFile d (js "keep.json")) <$> dir in
  let '(recorded, fs) := readEntries ep fs in
  let k := mkKeeper ep sp send interval maxBackoff [] (now * 1000) (-1) [] None Idle 0 None false false fs
             recorded [] in
  let state := readState k in
  let k := set_slotValue (default [] (st ← state; st.2)) k in
  let k :=
    match last recorded with
    | Some e =>
        let n := default (-1) (st ← state; st.1) in
        let k := set_nextSeq (seq e + 1) (set_sent n k) in
        set_pendingEntries (filter (λ e, n < seq e) recorded)
          (set_done_ (filter (λ e, ¬ n < seq e) recorded) k)
    | None => k
    end in
  if (length (pendingEntries k) =? 0)%nat then k else schedule 0 k.

(** [slot]'s setter *)
Definition setSlot (s : jstr) (k : Keeper) : Keeper :=
  if bool_decide (s = slotValue k) then k else writeState (set_slotValue s k).

Definition entryOf (uuid iso body : jstr) (k : Keeper) : KeptEntry :=
  match label body with
  | Some (l, rest) => mkEntry uuid (nextSeq k) iso l (boundEntryText rest)
  | None => mkEntry uuid (nextSeq k) iso (js "line") (boundEntryText body)
  end.

(** What [add] stores: the line in the record (an append that fails ends the
    process, [fault] never returns), and the entry in [pendingEntries] unless
    the conversation was cut. *)
Definition stored (e : KeptEntry) (k : Keeper) : Keeper :=
  let k := set_nextSeq (nextSeq k + 1) k in
  let k := match entriesPath k with
           | Some p => set_disk (Record.appendFile p (Record.lineBytes e) (Record.mkdir_p (Record.dirname p) (disk k))) k
           | None => k
           end in
  let k := set_added (added k ++ [e]) k in
  if cutDone k then set_done_ (done_ k ++ [e]) k else set_pendingEntries (pendingEntries k ++ [e]) k.

Definition add (uuid iso body : jstr) (k : Keeper) : Keeper :=
  let k' := stored (entryOf uuid iso body k) k in
  if cutDone k then k' else schedule (intervalMs k) k'.

Definition kick (k : Keeper) : Keeper := start (set_timer None k).

Definition close (k : Keeper) : Keeper :=
  kick (set_closedTries (match closedTries k with None => Some CLOSED_TRIES | c => c end) k).

Definition timerFires (k : Keeper) : Keeper := start (set_timer None k).

Definition lastSeq (batch : list KeptEntry) : Z :=
  match last batch with Some e => seq e | None => 0 end.

(** [sendOne] after the [await]: [None] is a send that threw. *)
Definition answered (batch : list KeptEntry) (a : option KeepAnswer) (k : Keeper) : Keeper :=
  let k := set_inFlight Ending k in
  match default again a with
  | again =>
      set_failures (failures k + 1)
        (set_closedTries (match closedTries k with Some n => Some (n - 1) | None => None end) k)
  | answer =>
      let isCut := match answer with cut => true | _ => false end in
      let k := set_refusedSaid (refusedSaid k || match answer with refused => true | _ => false end) k in
      let k := set_failures 0 k in
      let n := if isCut then length (pendingEntries k) else length batch in
      let k := set_done_ (done_ k ++ (if isCut then pendingEntries k else batch)) k in
      let k := set_pendingEntries (drop n (pendingEntries k)) k in
      let k := set_cutDone (cutDone k || isCut) k in
      writeState (set_sent (Z.max (sent k) (lastSeq batch)) k)
  end.

Definition backoff (k : Keeper) : Z :=
  Z.min (maxBackoffMs k) (intervalMs k * 2 ^ (failures k - 1)).

(** The [finally] of [start]. *)
Definition sendEnds (k : Keeper) : Keeper :=
  let k := set_inFlight Idle k in
  if (length (pendingEntries k) =? 0)%nat then k
  else if failures k =? 0 then start k
  else schedule (backoff k) k.

(** ** Interleavings *)

Inductive step (k : Keeper) : Keeper → Prop :=
| step_add uuid iso body :
    Forall Json.unit_ok uuid → Forall Json.unit_ok iso → Forall Json.unit_ok body →
    step k (add uuid iso body k)
| step_kick : step k (kick k)
| step_close : step k (close k)
| step_slot s : Forall Json.unit_ok s → step k (setSlot s k)
| step_timer ms : timer k = Some ms → step k (timerFires k)
| step_answer batch a : inFlight k = Sending batch → step k (answered batch a k)
| step_end : inFlight k = Ending → step k (sendEnds k).

(** ** Batches *)

Lemma batchLoop_prefix b n l : ∃ rest, l = batchLoop b n l ++ rest.
Proof.
  revert b n. induction l as [|e l IH]; intros b n; [by exists []|]. cbn [batchLoop].
  destruct (b && _); [by exists (e :: l)|]. destruct (IH true (n + utf8ByteLength (print_line e))) as [r Hr].
  exists r. cbn [app]. by f_equal.
Qed.

Lemma batchLoop_nonempty n l : l ≠ [] → batchLoop false n l ≠ [].
Proof. by destruct l. Qed.

Definition batchBytes (l : list KeptEntry) : Z := foldr (λ e n, utf8ByteLength (print_line e) + n) 0 l.

Lemma batchBytes_cons e l : batchBytes (e :: l) = utf8ByteLength (print_line e) + batchBytes l.
Proof. reflexivity. Qed.

Lemma batchLoop_bytes n l : n <= BATCH_BYTES → n + batchBytes (batchLoop true n l) <= BATCH_BYTES.
Proof.
  revert n. induction l as [|e l IH]; intros n Hn; cbn [batchLoop].
  - change (batchBytes []) with 0. lia.
  - cbn [andb]. destruct (Z.ltb_spec BATCH_BYTES (n + utf8ByteLength (print_line e))) as [H1|H1].
    + change (batchBytes []) with 0. lia.
    + specialize (IH _ H1). rewrite batchBytes_cons. lia.
Qed.

Lemma batchLoop_maximal n l e rest :
  l = batchLoop true n l ++ e :: rest → BATCH_BYTES < n + batchBytes (batchLoop true n l ++ [e]).
Proof.
  revert n. induction l as [|x l IH]; intros n E; [done|]. cbn [batchLoop andb] in *.
  destruct (Z.ltb_spec BATCH_BYTES (n + utf8ByteLength (print_line x))) as [H1|H1].
  - cbn [app] in *. assert (x = e) as -> by congruence. rewrite batchBytes_cons. change (batchBytes []) with 0. lia.
  - cbn [app] in *. apply (f_equal tail) in E. cbn [tail] in E. specialize (IH _ E). rewrite batchBytes_cons. lia.
Qed.

(** A batch is a non-empty run of the oldest pending entries, in order. It
    is at most 512 KiB of JSON unless it is one entry alone, and the next
    pending entry would not have fitted. *)
Theorem batch_is_maximal_prefix pend :
  pend ≠ [] →
  let b := batchLoop false 0 pend in
  b ≠ []
  ∧ (batchBytes b <= BATCH_BYTES ∨ length b = 1%nat)
  ∧ (∃ rest, pend = b ++ rest)
  ∧ (∀ e rest, pend = b ++ e :: rest → BATCH_BYTES < batchBytes (b ++ [e])).
Proof.
  intros Hp. destruct pend as [|e l]; [done|]. cbn [batchLoop andb].
  set (n := 0 + utf8ByteLength (print_line e)). cbv zeta. split_and!.
  - done.
  - destruct (Z.leb_spec n BATCH_BYTES) as [Hn|Hn].
    + left. pose proof (batchLoop_bytes n l Hn). rewrite batchBytes_cons. lia.
    + right. destruct l as [|x l]; [done|]. cbn [batchLoop andb].
      rewrite (proj2 (Z.ltb_lt _ _)); [done|]. pose proof (utf8_nonneg (print_line x)). lia.
  - destruct (batchLoop_prefix true n l) as [r Hr]. exists r. cbn [app]. by f_equal.
  - intros x rest E. apply (f_equal tail) in E. cbn [tail app] in E. pose proof (batchLoop_maximal n l x rest E). cbn [app]. rewrite batchBytes_cons. lia.
Qed.

Definition sampleEntry (n : Z) : KeptEntry := mkEntry (js "u") n (js "t") (js "say") (js "hi").

Lemma batch_is_maximal_prefix_witness :
  batchLoop false 0 [sampleEntry 1; sampleEntry 2] = [sampleEntry 1; sampleEntry 2]
  ∧ batchBytes [sampleEntry 1; sampleEntry 2] <= BATCH_BYTES.
Proof.
  destruct (batch_is_maximal_prefix [sampleEntry 1; sampleEntry 2]) as (_ & Hb & _ & _); [done|].
  split; [reflexivity|]. destruct Hb as [Hb|Hb]; [exact Hb|discriminate Hb].
Defined.

(** ** The invariant *)

Definition earlier (a b : KeptEntry) : Prop := seq a < seq b.

Definition stateFileOk (k : Keeper) : Prop :=
  ∀ p bytes, statePath k = Some p → Record.files (disk k) !! p = Some bytes →
  ∃ n s, bytes = encode (stateText n s) ∧ -1 <= n <= sent k ∧ Forall Json.unit_ok s.

Definition diskOk (k : Keeper) : Prop :=
  ∀ p, entriesPath k = Some p →
  default [] (Record.files (disk k) !! p) = concat (Record.lineBytes <$> added k).

Definition pathsOk (k : Keeper) : Prop :=
  ∀ q, statePath k = Some q →
  q ≠ Record.tmpOf q ∧ ∀ p, entriesPath k = Some p → p ≠ q ∧ p ≠ Record.tmpOf q.

Record Inv (k : Keeper) : Prop := {
  i_split : added k = done_ k ++ pendingEntries k;
  i_sorted : StronglySorted earlier (added k);
  i_below : Forall (λ e, 0 <= seq e < nextSeq k) (added k);
  i_nextPos : 0 <= nextSeq k;
  i_next : ∀ e, last (added k) = Some e → nextSeq k = seq e + 1;
  i_sentNext : -1 <= sent k < nextSeq k;
  i_fresh : added k = [] → sent k = -1;
  i_flight : ∀ b, inFlight k = Sending b → b ≠ [] ∧ ∃ rest, pendingEntries k = b ++ rest;
  i_cut : cutDone k = true → pendingEntries k = [];
  i_sent : cutDone k = false →
           Forall (λ e, seq e <= sent k) (done_ k) ∧ Forall (λ e, sent k < seq e) (pendingEntries k);
  i_ok : Forall entry_ok (added k);
  i_slot : Forall Json.unit_ok (slotValue k);
  i_paths : pathsOk k;
  i_disk : diskOk k;
  i_state : stateFileOk k;
}.

(** What the calls that only arm or start a send change. *)
Definition sameData (k k' : Keeper) : Prop :=
  added k' = added k ∧ done_ k' = done_ k ∧ pendingEntries k' = pendingEntries k ∧ nextSeq k' = nextSeq k
  ∧ sent k' = sent k ∧ cutDone k' = cutDone k ∧ slotValue k' = slotValue k
  ∧ entriesPath k' = entriesPath k ∧ statePath k' = statePath k ∧ disk k' = disk k.

Lemma inv_sameData k k' :
  Inv k → sameData k k' →
  (∀ b, inFlight k' = Sending b → inFlight k = Sending b ∨ (b ≠ [] ∧ ∃ rest, pendingEntries k = b ++ rest)) →
  Inv k'.
Proof.
  intros [] (E1 & E2 & E3 & E4 & E5 & E6 & E7 & E8 & E9 & E10) Hf.
  constructor; unfold pathsOk, diskOk, stateFileOk in *;
    rewrite ?E1, ?E2, ?E3, ?E4, ?E5, ?E6, ?E7, ?E8, ?E9, ?E10; try done.
  intros b Hb. destruct (Hf b Hb) as [Hb'|Hb']; eauto.
Qed.

Lemma inv_schedule ms k : Inv k → Inv (schedule ms k).
Proof.
  intros HI. apply (inv_sameData k); [done| |]; unfold schedule; destruct (timer k), (inFlight k) eqn:E, (hasSend k);
    rewrite ?E; simpl; rewrite ?E; try (repeat split; reflexivity); auto.
Qed.

Lemma inv_start k : Inv k → Inv (start k).
Proof.
  intros HI. unfold start. destruct (inFlight k) eqn:E; try done.
  destruct (negb (hasSend k) || (length (pendingEntries k) =? 0)%nat || (length (slotValue k) =? 0)%nat) eqn:Eg; [done|].
  destruct (closedOut k); [done|].
  apply (inv_sameData k); [done|repeat split; reflexivity|].
  simpl. intros b [= <-]. right. zbool. split.
  - apply batchLoop_nonempty. by destruct (pendingEntries k).
  - apply batchLoop_prefix.
Qed.

Lemma inv_set_timer v k : Inv k → Inv (set_timer v k).
Proof. intros HI. apply (inv_sameData k); [done|repeat split; reflexivity|]. simpl. auto. Qed.

Lemma inv_set_closedTries v k : Inv k → Inv (set_closedTries v k).
Proof. intros HI. apply (inv_sameData k); [done|repeat split; reflexivity|]. simpl. auto. Qed.

Lemma inv_set_idle k : Inv k → Inv (set_inFlight Idle k).
Proof. intros HI. apply (inv_sameData k); [done|repeat split; reflexivity|]. simpl. done. Qed.

#[local] Hint Resolve inv_schedule inv_start inv_set_timer inv_set_closedTries inv_set_idle : jr2.

Lemma rename_lookup p bs fs :
  p ≠ Record.tmpOf p →
  Record.files (Record.rename (Record.tmpOf p) p (Record.writeFile (Record.tmpOf p) bs fs)) !! p = Some bs.
Proof.
  intros Hp. unfold Record.rename, Record.writeFile. simpl. rewrite lookup_insert_eq. simpl.
  apply lookup_insert_eq.
Qed.

Lemma rename_other p q bs fs :
  q ≠ p → q ≠ Record.tmpOf p →
  Record.files (Record.rename (Record.tmpOf p) p (Record.writeFile (Record.tmpOf p) bs fs)) !! q
  = Record.files fs !! q.
Proof.
  intros H1 H2. unfold Record.rename, Record.writeFile. simpl. rewrite lookup_insert_eq. simpl.
  by rewrite lookup_insert_ne, lookup_delete_ne, lookup_insert_ne.
Qed.

(** Writing the state file keeps the invariant of a keeper whose old state
    file, if it is not replaced, still holds. *)
Lemma inv_writeState k : Inv k → Inv (writeState k).
Proof.
  intros HI. unfold writeState. destruct (statePath k) as [p|] eqn:Ep; [|done].
  destruct (closedTries k); [done|]. destruct HI. constructor; try done.
  - intros q Hq. simpl in Hq. destruct (i_paths0 p Ep) as (_ & Hpq). destruct (Hpq q Hq).
    simpl. rewrite rename_other by done. by apply i_disk0.
  - intros q bytes Hq. simpl in Hq. rewrite Ep in Hq. injection Hq as <-.
    destruct (i_paths0 p Ep) as (Hp & _).
    simpl. rewrite rename_lookup by done. intros [= <-]. exists (sent k), (slotValue k). split_and!; [done|lia|lia|done].
Qed.

Lemma label_units body l r :
  label body = Some (l, r) → Forall Json.unit_ok body → Forall Json.unit_ok l ∧ Forall Json.unit_ok r.
Proof.
  assert (∀ s l r, labelEnd s = Some (l, r) → Forall Json.unit_ok s →
    Forall Json.unit_ok l ∧ Forall Json.unit_ok r) as HE.
  { induction s as [|c s IH]; intros l' r' E HF; [done|]. cbn [labelEnd] in E.
    apply Forall_cons in HF as [Hc HF].
    destruct (c =? 93); [by injection E as <- <-|]. destruct (c =? 10); [done|].
    destruct (labelEnd s) as [[l1 r1]|]; [|done]. simpl in E. injection E as <- <-.
    destruct (IH l1 r1 eq_refl HF). split; [by constructor|done]. }
  destruct body as [|c s]; [done|]. unfold label. destruct (c =? 91); [|done]. intros E [_ HF]%Forall_cons.
  destruct (labelEnd s) as [[[|x l1] r1]|] eqn:El; try done. destruct (HE _ _ _ El HF) as [H1 H2].
  assert (l = x :: l1 ∧ r = match r1 with d :: r' => if d =? 32 then r' else r1 | [] => r1 end) as [-> ->]
    by (split; congruence).
  split; [exact H1|]. destruct r1 as [|d r1]; [exact H2|].
  destruct (d =? 32); [by apply Forall_cons in H2 as [_ ?]|exact H2].
Qed.

Lemma of_int_units n : 0 <= n → Forall Json.unit_ok (of_int n).
Proof.
  intros Hn. eapply Forall_impl; [by apply Json.digits_of_int|]. intros c.
  unfold Json.is_digit, Json.unit_ok. rewrite andb_true_iff, !Z.leb_le. lia.
Qed.

Lemma boundEntryText_units t : Forall Json.unit_ok t → Forall Json.unit_ok (boundEntryText t).
Proof.
  intros Ht. unfold boundEntryText. destruct (Z.leb_spec (strlen t) ENTRY_CHARS) as [H|H]; [done|].
  cbv zeta. unfold ENTRY_CHARS in *.
  assert (Forall Json.unit_ok [0x2026]) by (apply Forall_singleton; unfold Json.unit_ok; lia).
  rewrite !Forall_app. split_and!; [by apply Forall_take|done|apply Json.js_units|apply of_int_units; change ((64 * 1024) / 2) with 32768; lia
    |apply Json.js_units|done|by apply Forall_drop].
Qed.

Lemma entryOf_ok uuid iso body k :
  Forall Json.unit_ok uuid → Forall Json.unit_ok iso → Forall Json.unit_ok body →
  entry_ok (entryOf uuid iso body k) ∧ seq (entryOf uuid iso body k) = nextSeq k.
Proof.
  intros Hu Hi Hb. unfold entryOf, entry_ok. destruct (label body) as [[l r]|] eqn:E; simpl; (split; [|done]).
  - apply label_units in E as [? ?]; [|done]. split_and!; try done. by apply boundEntryText_units.
  - split_and!; try done; [exact (Json.js_units "line")|by apply boundEntryText_units].
Qed.

Lemma concat_lines_snoc l e :
  concat (Record.lineBytes <$> (l ++ [e])) = concat (Record.lineBytes <$> l) ++ Record.lineBytes e.
Proof. by rewrite fmap_app, concat_app, <- (app_nil_r (Record.lineBytes e)). Qed.

Lemma inv_stored e k : Inv k → entry_ok e → seq e = nextSeq k → Inv (stored e k).
Proof.
  intros [] He Hs. unfold stored. cbv zeta. cbn [entriesPath cutDone set_nextSeq].
  set (k1 := match entriesPath k with Some _ => _ | None => _ end).
  assert (sameData (set_disk (disk k1) (set_nextSeq (nextSeq k + 1) k)) k1
          ∧ inFlight k1 = inFlight k) as [(E1 & E2 & E3 & E4 & E5 & E6 & E7 & E8 & E9 & _) E0].
  { unfold k1. destruct (entriesPath k); repeat split; reflexivity. }
  cbn in E1, E2, E3, E4, E5, E6, E7, E8, E9.
  assert (∀ p, entriesPath k = Some p → default [] (Record.files (disk k1) !! p)
           = concat (Record.lineBytes <$> (added k ++ [e]))) as D1.
  { intros p Hp. rewrite concat_lines_snoc. unfold k1. rewrite Hp. cbn [disk set_disk set_nextSeq].
    unfold Record.appendFile, Record.writeFile. cbn [Record.files Record.mkdir_p].
    rewrite lookup_insert_eq. cbn. f_equal. by apply i_disk0. }
  assert (∀ q, statePath k = Some q → Record.files (disk k1) !! q = Record.files (disk k) !! q) as D2.
  { intros q Hq. unfold k1. destruct (entriesPath k) as [p|] eqn:Hp; [|done]. simpl.
    apply lookup_insert_ne. by apply (i_paths0 q Hq). }
  clearbody k1.
  assert (Forall (λ x, seq x < seq e) (added k)) as HB.
  { eapply Forall_impl; [exact i_below0|]. simpl. lia. }
  cbn [cutDone set_added]. rewrite E6. destruct (cutDone k) eqn:Ec; constructor;
    cbn [added done_ pendingEntries nextSeq sent inFlight cutDone slotValue entriesPath statePath disk
         set_added set_done_ set_pendingEntries];
    unfold pathsOk, diskOk, stateFileOk in *;
    cbn [added done_ pendingEntries nextSeq sent inFlight cutDone slotValue entriesPath statePath disk
         set_added set_done_ set_pendingEntries];
    rewrite ?E0, ?E1, ?E2, ?E3, ?E4, ?E5, ?E6, ?E7, ?E8, ?E9; try done; try lia;
    try (by apply sorted_snoc); try (by destruct (added k));
    try (intros x; rewrite last_snoc; intros [= <-]; lia);
    try (intros q bytes Hq; rewrite D2 by done; by apply i_state0);
    try (apply Forall_app; split; [|first [by apply Forall_singleton|apply Forall_singleton; lia]];
         first [done|eapply Forall_impl; [exact i_below0|simpl; lia]]).
  - rewrite i_split0, i_cut0, !app_nil_r by done. done.
  - by rewrite i_split0, app_assoc.
  - intros b Hb. destruct (i_flight0 b Hb) as [Hn [rest Hr]]. split; [done|].
    exists (rest ++ [e]). by rewrite Hr, app_assoc.
  - intros _. destruct (i_sent0 eq_refl) as [H1 H2]. split; [done|].
    apply Forall_app. split; [done|]. repeat constructor. lia.
Qed.

Lemma inv_add uuid iso body k :
  Forall Json.unit_ok uuid → Forall Json.unit_ok iso → Forall Json.unit_ok body →
  Inv k → Inv (add uuid iso body k).
Proof.
  intros Hu Hi Hb HI. unfold add. cbv zeta. destruct (entryOf_ok uuid iso body k) as [He Hs]; try done.
  destruct (cutDone k); [|apply inv_schedule]; by apply inv_stored.
Qed.

Lemma inv_setSlot s k : Forall Json.unit_ok s → Inv k → Inv (setSlot s k).
Proof.
  intros Hs HI. unfold setSlot. destruct (bool_decide _); [done|].
  apply inv_writeState. destruct HI. by constructor.
Qed.

Lemma lastSeq_app b x : lastSeq (b ++ [x]) = seq x.
Proof. unfold lastSeq. by rewrite last_snoc. Qed.

(** A send answered for good: the oldest entries [gone] leave [pendingEntries]
    and [sent] moves to at least [n]. *)
Record advanced (k k' : Keeper) (gone left : list KeptEntry) (n : Z) (isCut : bool) : Prop := {
  a_pending : pendingEntries k = gone ++ left;
  a_pending' : pendingEntries k' = left;
  a_done : done_ k' = done_ k ++ gone;
  a_sent : sent k' = Z.max (sent k) n;
  a_cut : cutDone k' = cutDone k || isCut;
  a_same : added k' = added k ∧ nextSeq k' = nextSeq k ∧ slotValue k' = slotValue k
           ∧ entriesPath k' = entriesPath k ∧ statePath k' = statePath k ∧ disk k' = disk k;
  a_flight : ∀ b, inFlight k' ≠ Sending b;
}.

Lemma inv_advanced k k' gone left n isCut :
  Inv k → advanced k k' gone left n isCut → n < nextSeq k → added k ≠ [] →
  (isCut = true → left = []) →
  (isCut = false → cutDone k = false ∧ Forall (λ e, seq e <= n) gone ∧ Forall (λ e, n < seq e) left) →
  Inv k'.
Proof.
  intros [] [P P' D S C (A & N & SV & EP & SP & DK) F] Hn Hadd Hcut Hkeep.
  constructor; unfold pathsOk, diskOk, stateFileOk in *;
    rewrite ?P', ?D, ?S, ?C, ?A, ?N, ?SV, ?EP, ?SP, ?DK; try done.
  - by rewrite i_split0, P, app_assoc.
  - lia.
  - intros b Hb. by destruct (F b).
  - destruct isCut; [auto|]. rewrite orb_false_r. intros Hc. destruct Hkeep as [Hk _]; [done|congruence].
  - destruct isCut; [by rewrite orb_true_r|]. rewrite orb_false_r. intros Hc.
    destruct (i_sent0 Hc) as [S1 S2]. rewrite P in S2. apply Forall_app in S2 as [S2 S3].
    destruct Hkeep as (_ & K1 & K2); [done|]. split.
    + apply Forall_app. split; eapply Forall_impl; [exact S1| |exact K1|]; simpl; lia.
    + rewrite Forall_forall in *. intros e He. specialize (S3 e He). specialize (K2 e He). lia.
  - intros q bytes Hq Hb. destruct (i_state0 q bytes Hq Hb) as (m & s & ? & ? & ?).
    exists m, s. split_and!; [done|lia|lia|done].
Qed.

Lemma sorted_app_lt l b x r :
  StronglySorted earlier (l ++ (b ++ [x]) ++ r) →
  Forall (λ e, seq e <= seq x) (b ++ [x]) ∧ Forall (λ e, seq x < seq e) r.
Proof.
  intros HS. apply StronglySorted_app in HS as (_ & _ & HS).
  assert (∀ l1 l2, StronglySorted earlier (l1 ++ l2) → ∀ y z, y ∈ l1 → z ∈ l2 → seq y < seq z) as HL.
  { intros l1 l2 H y z Hy Hz. apply StronglySorted_app in H as (H & _ & _). by apply H. }
  pose proof (HL _ _ HS) as H1. apply StronglySorted_app in HS as (_ & HS & _).
  pose proof (HL _ _ HS) as H2. split.
  - apply Forall_app. split; [|by apply Forall_singleton].
    apply Forall_forall. intros y Hy. assert (seq y < seq x) by (apply H2; set_solver). lia.
  - apply Forall_forall. intros y Hy. apply H1; set_solver.
Qed.

Lemma inv_answered b a k : inFlight k = Sending b → Inv k → Inv (answered b a k).
Proof.
  intros Hf HI. unfold answered. set (ans := default again a). clearbody ans.
  destruct (i_flight k HI b Hf) as [Hn [rest Hr]].
  destruct (decide (ans = again)) as [->|Hans].
  { apply (inv_sameData k); [done|repeat split; reflexivity|]. simpl. done. }
  destruct b as [|x b _] using rev_ind; [done|].
  assert (x ∈ pendingEntries k) as Hx by (rewrite Hr; set_solver).
  assert (cutDone k = false) as Ec.
  { destruct (cutDone k) eqn:Ec; [|done]. apply (i_cut k HI) in Ec. rewrite Ec in Hx. set_solver. }
  assert (seq x < nextSeq k) as Nx.
  { pose proof (i_below k HI) as HB. rewrite Forall_forall in HB. apply HB. rewrite (i_split k HI). set_solver. }
  pose proof (i_sorted k HI) as HS. rewrite (i_split k HI), Hr in HS.
  apply sorted_app_lt in HS as [HS1 HS2].
  assert (added k ≠ []) as Hadd.
  { rewrite (i_split k HI), Hr. by destruct (done_ k), b. }
  destruct ans; [| done | |]; apply inv_writeState.
  - eapply (inv_advanced k _ (b ++ [x]) rest (seq x) false); [done| |done|done|done|done].
    constructor; cbn -[Z.max length app drop]; try done; try (by rewrite ?orb_false_r).
    + by rewrite Hr, drop_app_length.
    + by rewrite lastSeq_app.
  - eapply (inv_advanced k _ (b ++ [x]) rest (seq x) false); [done| |done|done|done|done].
    constructor; cbn -[Z.max length app drop]; try done; try (by rewrite ?orb_false_r).
    + by rewrite Hr, drop_app_length.
    + by rewrite lastSeq_app.
  - eapply (inv_advanced k _ (pendingEntries k) [] (seq x) true); [done| |done|done|done|done].
    constructor; cbn -[Z.max length app drop]; try done.
    + by rewrite app_nil_r.
    + by rewrite drop_all.
    + by rewrite lastSeq_app.
Qed.

Lemma inv_step k k' : step k k' → Inv k → Inv k'.
Proof.
  intros Hs HI. destruct Hs.
  - by apply inv_add.
  - unfold kick. auto with jr2.
  - unfold close, kick. auto with jr2.
  - by apply inv_setSlot.
  - unfold timerFires. auto with jr2.
  - by apply inv_answered.
  - unfold sendEnds. cbv zeta. split_match; auto with jr2.
Qed.

(** ** The constructor over a record *)

Lemma filter_nonblank (xs : list KeptEntry) :
  filter (λ l, l ≠ []) ((print_line <$> xs) ++ [[]]) = print_line <$> xs.
Proof.
  rewrite filter_app, filter_all.
  - rewrite filter_cons_False by (intros Hn; by apply Hn). by rewrite app_nil_r.
  - apply Forall_fmap, Forall_true. intros x. apply not_blank.
Qed.

Lemma readEntries_reads p fs xs t :
  default [] (Record.files fs !! p) = concat (Record.lineBytes <$> xs) ++ t →
  Forall line_ok xs → 10 ∉ t →
  readEntries (Some p) fs = (xs, Record.cutTornTail p fs)
  ∧ default [] (Record.files (Record.cutTornTail p fs) !! p) = concat (Record.lineBytes <$> xs)
  ∧ ∀ q, q ≠ p → Record.files (Record.cutTornTail p fs) !! q = Record.files fs !! q.
Proof.
  intros E HF Ht. unfold readEntries, Record.cutTornTail.
  destruct (Record.files fs !! p) as [bytes|] eqn:Ep; simpl in E.
  - subst bytes. assert (Record.whole (concat (Record.lineBytes <$> xs))) as HW.
    { destruct xs as [|x xs _] using rev_ind; [by left|right].
      by rewrite concat_lines_snoc, Record.lineBytes_eq, app_assoc, last_snoc. }
    rewrite Record.keptBytes_whole by done. cbn [Record.files Record.writeFile]. rewrite lookup_insert_eq.
    split_and!; [|done|intros q Hq; by apply lookup_insert_ne].
    f_equal. rewrite <- (app_nil_r (concat _)), Record.decode_lines by done.
    rewrite Record.split_lines; [|by apply Forall_fmap, Forall_true; intros x; apply no_newline|set_solver].
    rewrite filter_nonblank. clear Ep HW. induction HF as [|x xs Hx _ IH]; [done|].
    rewrite fmap_cons. cbn [omap list_omap]. rewrite read_print by done. by f_equal.
  - rewrite Ep. destruct xs as [|x xs]; [done|]. rewrite fmap_cons in E. cbn [concat] in E.
    rewrite Record.lineBytes_eq in E. by destruct (encode (print_line x)).
Qed.

Lemma stateText_reads n s :
  Forall Json.unit_ok s →
  Json.parse (decode (encode (stateText n s)))
  = Some (Json.JObj [(js "sent", Json.JNum n); (js "slot", Json.JStr s)]).
Proof.
  intros Hs. set (v := Json.JObj _). assert (Json.units_ok v) as HU.
  { constructor; (apply Forall_cons; split; [|apply Forall_singleton]);
      [apply (Json.js_units "sent")|apply (Json.js_units "slot")|apply Json.ok_num|by apply Json.ok_str]. }
  unfold stateText. fold v.
  rewrite <- (app_nil_r (encode _)), decode_encode_app, app_nil_r.
  - unfold Json.parse. rewrite Json.parse_value_ok; [done|done| |by intros c [= <-]].
    rewrite length_app. lia.
  - apply well_formed_app; [by apply stringify_well_formed|done].
Qed.

Lemma readState_reads k p n s :
  statePath k = Some p → Record.files (disk k) !! p = Some (encode (stateText n s)) →
  Forall Json.unit_ok s → readState k = Some (Some n, Some s).
Proof.
  intros Hp E Hs. unfold readState. rewrite Hp, Json.obind_some, E, Json.obind_some.
  by rewrite stateText_reads.
Qed.

Lemma readState_none k p :
  statePath k = Some p → Record.files (disk k) !! p = None → readState k = None.
Proof. intros Hp E. unfold readState. by rewrite Hp, Json.obind_some, E. Qed.

Definition entriesFile (d : Record.path) : Record.path := Record.recordFile d (js "entries.jsonl").
Definition stateFile (d : Record.path) : Record.path := Record.recordFile d (js "keep.json").

Lemma files_apart d :
  entriesFile d ≠ stateFile d ∧ entriesFile d ≠ Record.tmpOf (stateFile d)
  ∧ stateFile d ≠ Record.tmpOf (stateFile d).
Proof.
  unfold entriesFile, stateFile. rewrite !Record.recordFile_eq by done.
  assert (Record.tmpOf (d ++ [js "record"; js "keep.json"]) = d ++ [js "record"; js "keep.json.tmp"]) as ->.
  { unfold Record.tmpOf, Record.dirname. change [js "record"; js "keep.json"] with ([js "record"] ++ [js "keep.json"]).
    rewrite app_assoc, removelast_last, last_snoc, <- app_assoc. done. }
  split_and!; intros E%app_inv_head; discriminate E.
Qed.

(** What a record folder may hold when a keeper is made: the entries [xs] in
    order, perhaps a torn line, and a state that was written before. *)
Record diskHolds (d : Record.path) (fs : Record.FS) (xs : list KeptEntry) (t : list Z) (st : option (Z * jstr)) : Prop := {
  h_lines : default [] (Record.files fs !! entriesFile d) = concat (Record.lineBytes <$> xs) ++ t;
  h_torn : 10 ∉ t;
  h_ok : Forall entry_ok xs;
  h_seq : Forall (λ e, 0 <= seq e) xs;
  h_sorted : StronglySorted earlier xs;
  h_state : Record.files fs !! stateFile d = (λ ns, encode (stateText ns.1 ns.2)) <$> st;
  h_sent : ∀ n s, st = Some (n, s) →
           Forall Json.unit_ok s ∧ -1 <= n ∧ match last xs with Some e => n <= seq e | None => n <= -1 end;
}.

Lemma sorted_split n (xs : list KeptEntry) :
  StronglySorted earlier xs → xs = filter (λ e, ¬ n < seq e) xs ++ filter (λ e, n < seq e) xs.
Proof.
  induction 1 as [|x xs Hs IH Hx]; [done|]. destruct (decide (n < seq x)) as [Hn|Hn].
  - rewrite filter_cons_False, filter_cons_True by (done || intros Hc; by apply Hc).
    rewrite filter_none, (filter_all (λ e, n < seq e)); [done|..];
      (eapply Forall_impl; [exact Hx|]); unfold earlier; simpl; intros; lia.
  - rewrite filter_cons_True, filter_cons_False by done. simpl. by rewrite <- IH.
Qed.

Lemma sorted_last xs (e : KeptEntry) :
  StronglySorted earlier xs → last xs = Some e → Forall (λ x, seq x <= seq e) xs.
Proof.
  intros HS [xs' ->]%last_snoc_inv. apply StronglySorted_app in HS as (H & _ & _).
  apply Forall_app. split; [|by apply Forall_singleton].
  apply Forall_forall. intros x Hx. assert (earlier x e) as Hl by (apply H; set_solver).
  unfold earlier in Hl. lia.
Qed.

(** The keeper that the constructor makes, before its timer. *)
Definition resumed (d : Record.path) (send : bool) (iv mb now : Z) (fs : Record.FS) (xs : list KeptEntry)
    (n : Z) (s : jstr) : Keeper :=
  mkKeeper (Some (entriesFile d)) (Some (stateFile d)) send iv mb
    (match last xs with Some _ => filter (λ e, n < seq e) xs | None => [] end)
    (match last xs with Some e => seq e + 1 | None => now * 1000 end)
    (match last xs with Some _ => n | None => -1 end) s None Idle 0 None false false fs xs
    (match last xs with Some _ => filter (λ e, ¬ n < seq e) xs | None => [] end).

Lemma newKeeper_resumed d send iv mb now fs xs t st :
  diskHolds d fs xs t st →
  let k := resumed d send iv mb now (Record.cutTornTail (entriesFile d) fs) xs
             (default (-1) (fst <$> st)) (default [] (snd <$> st)) in
  newKeeper (Some d) send iv mb now fs
  = if (length (pendingEntries k) =? 0)%nat then k else schedule 0 k.
Proof.
  intros [HL HT HO HP HS HF HN]. unfold newKeeper.
  destruct (readEntries_reads (entriesFile d) fs xs t HL HO HT) as (E1 & E2 & E3).
  change ((λ d, Record.recordFile d (js "entries.jsonl")) <$> Some d) with (Some (entriesFile d)).
  change ((λ d, Record.recordFile d (js "keep.json")) <$> Some d) with (Some (stateFile d)).
  rewrite E1. cbv zeta. set (k0 := mkKeeper _ _ _ _ _ _ _ _ _ _ _ _ _ _ _ _ _ _).
  assert (readState k0 = (λ ns, (Some ns.1, Some ns.2)) <$> st) as ->.
  { destruct (files_apart d) as (Ha & _ & _).
    assert (Record.files (disk k0) !! stateFile d = Record.files fs !! stateFile d) as Ek by by apply E3.
    rewrite HF in Ek. destruct st as [[n s]|]; cbn [fmap option_fmap option_map] in *.
    - eapply readState_reads; [done|exact Ek|]. by destruct (HN n s eq_refl).
    - by eapply readState_none. }
  unfold resumed. destruct st as [[n s]|], (last xs) eqn:El; try reflexivity.
Qed.

Lemma inv_resumed d send iv mb now fs xs t st fs' :
  0 <= now → diskHolds d fs xs t st →
  default [] (Record.files fs' !! entriesFile d) = concat (Record.lineBytes <$> xs) →
  Record.files fs' !! stateFile d = Record.files fs !! stateFile d →
  Inv (resumed d send iv mb now fs' xs (default (-1) (fst <$> st)) (default [] (snd <$> st))).
Proof.
  intros Hnow [HL HT HO HP HS HF HN] E1 E2. set (n := default (-1) (fst <$> st)).
  assert (∀ m s, st = Some (m, s) → n = m) as Hm by (by intros m s ->).
  assert (∀ e, last xs = Some e → n < seq e + 1 ∨ st = None) as Hlt.
  { intros e He. destruct st as [[m s]|]; [left|by right].
    destruct (HN m s eq_refl) as (_ & _ & H). rewrite He in H. unfold n. simpl. lia. }
  constructor; unfold pathsOk, diskOk, stateFileOk;
    cbn [added done_ pendingEntries nextSeq sent inFlight cutDone slotValue entriesPath statePath disk resumed].
  - destruct (last xs) eqn:El; [by apply sorted_split|]. by apply last_None in El as ->.
  - done.
  - destruct (last xs) as [e|] eqn:El.
    + pose proof (sorted_last xs e HS El) as HB. rewrite Forall_forall in *.
      intros x Hx. specialize (HB x Hx). specialize (HP x Hx). lia.
    + apply last_None in El as ->. constructor.
  - destruct (last xs) as [e|] eqn:El; [|lia]. apply last_snoc_inv in El as [ys ->].
    apply Forall_app in HP as [_ HP]. apply Forall_cons in HP as [HP _]. lia.
  - intros e ->. done.
  - assert (-1 <= n) by (destruct st as [[m s]|]; [by destruct (HN m s eq_refl) as (_ & ? & _)|done]).
    destruct (last xs) as [e|] eqn:El; [|lia]. destruct (Hlt e eq_refl) as [H'| ->]; [lia|].
    apply last_snoc_inv in El as [ys ->].
    apply Forall_app in HP as [_ HP]. apply Forall_cons in HP as [HP _]. unfold n. simpl. lia.
  - intros ->. done.
  - done.
  - done.
  - intros _. split; destruct (last xs); try constructor; apply Forall_forall; intros e [He _]%list_elem_of_filter; lia.
  - done.
  - destruct st as [[m s]|]; [|constructor]. by destruct (HN m s eq_refl).
  - intros q [= <-]. destruct (files_apart d) as (H1 & H2 & H3). split; [done|]. by intros p [= <-].
  - by intros p [= <-].
  - intros q bytes [= <-]. rewrite E2, HF. destruct st as [[m s]|]; [|done]. intros [= <-].
    exists m, s. destruct (HN m s eq_refl) as (Hs & Hp & Hl). split_and!; [done|done| |done].
    destruct (last xs); [by rewrite <- (Hm m s)|done].
Qed.

(** ** The lives of a kept conversation

    A keeper is made over a fresh record folder, runs, and dies with its
    process, perhaps in the middle of an entry's line; a new one is made over
    what the folder holds. *)
Inductive lives (d : Record.path) : Keeper → Prop :=
| life_first send iv mb now fs :
    0 <= now → Record.files fs !! entriesFile d = None → Record.files fs !! stateFile d = None →
    lives d (newKeeper (Some d) send iv mb now fs)
| life_step k k' : lives d k → step k k' → lives d k'
| life_restart k send iv mb now t :
    lives d k → 0 <= now → 10 ∉ t →
    lives d (newKeeper (Some d) send iv mb now (Record.appendFile (entriesFile d) t (disk k))).

Definition pathsOf (k : Keeper) := (entriesPath k, statePath k).

Lemma step_paths k k' : step k k' → pathsOf k' = pathsOf k.
Proof.
  assert (∀ k, pathsOf (start k) = pathsOf k) as Hst.
  { intros x. unfold start. by split_match. }
  assert (∀ ms k, pathsOf (schedule ms k) = pathsOf k) as Hsc.
  { intros ms x. unfold schedule. by split_match. }
  assert (∀ k, pathsOf (writeState k) = pathsOf k) as Hw.
  { intros x. unfold writeState. by split_match. }
  intros []; unfold kick, close, kick, timerFires, setSlot, add, answered, sendEnds; cbv zeta.
  - assert (∀ e, pathsOf (stored e k) = pathsOf k) as Hs.
    { intros e. unfold stored. cbv zeta. set (k1 := match entriesPath _ with Some _ => _ | None => _ end).
      assert (pathsOf k1 = pathsOf k) as <- by (unfold k1; by destruct (entriesPath _)).
      clearbody k1. by destruct (cutDone _). }
    destruct (cutDone k); by rewrite ?Hsc, Hs.
  - by rewrite Hst.
  - by rewrite Hst.
  - destruct (bool_decide _); [done|]. by rewrite Hw.
  - by rewrite Hst.
  - destruct (default again a); rewrite ?Hw; done.
  - split_match; rewrite ?Hst, ?Hsc; done.
Qed.

Lemma newKeeper_props d send iv mb now fs xs t st (n := default (-1) (fst <$> st)) :
  0 <= now → diskHolds d fs xs t st →
  let k := newKeeper (Some d) send iv mb now fs in
  Inv k ∧ pathsOf k = (Some (entriesFile d), Some (stateFile d)) ∧ added k = xs
  ∧ pendingEntries k = filter (λ e, n < seq e) xs ∧ done_ k = filter (λ e, ¬ n < seq e) xs
  ∧ (pendingEntries k ≠ [] → send = true → timer k = Some 0)
  ∧ (∀ e, last xs = Some e → nextSeq k = seq e + 1) ∧ hasSend k = send.
Proof.
  intros Hnow HD. cbv zeta. rewrite (newKeeper_resumed d send iv mb now fs xs t st HD).
  set (k := resumed _ _ _ _ _ _ _ _ _).
  assert (Inv k) as HI.
  { destruct (readEntries_reads (entriesFile d) fs xs t) as (_ & E2 & E3); [by destruct HD..|].
    eapply inv_resumed; [done|done|done|]. apply E3. destruct (files_apart d) as (Ha & _ & _). done. }
  assert (pendingEntries k = filter (λ e, n < seq e) xs ∧ done_ k = filter (λ e, ¬ n < seq e) xs) as [HP HD'].
  { unfold k, resumed. cbn [pendingEntries done_]. destruct (last xs) eqn:El; [done|].
    by apply last_None in El as ->. }
  assert (∀ e, last xs = Some e → nextSeq k = seq e + 1) as HN by by intros e He; simpl; rewrite He.
  assert (pathsOf k = (Some (entriesFile d), Some (stateFile d)) ∧ added k = xs
          ∧ timer k = None ∧ inFlight k = Idle ∧ hasSend k = send) as (Hp & Ha & Ht & Hf & Hs) by done.
  clearbody k. destruct (Nat.eqb_spec (length (pendingEntries k)) 0) as [E|E].
  - apply nil_length_inv in E. split_and!; done.
  - split_and!; [by apply inv_schedule|..]; unfold schedule; rewrite Ht, Hf, Hs; destruct send; try done.
Qed.

Lemma diskHolds_fresh d fs :
  Record.files fs !! entriesFile d = None → Record.files fs !! stateFile d = None →
  diskHolds d fs [] [] None.
Proof. intros H1 H2. constructor; rewrite ?H1; try done; try set_solver; constructor. Qed.

Lemma diskHolds_restart d k t :
  Inv k → pathsOf k = (Some (entriesFile d), Some (stateFile d)) → 10 ∉ t →
  ∃ st, diskHolds d (Record.appendFile (entriesFile d) t (disk k)) (added k) t st
      ∧ default (-1) (fst <$> st) <= sent k.
Proof.
  intros HI [= HE HS] Ht. destruct (files_apart d) as (Ha & _ & _).
  assert (∃ st, Record.files (disk k) !! stateFile d = (λ ns, encode (stateText ns.1 ns.2)) <$> st
    ∧ ∀ n s, st = Some (n, s) → -1 <= n <= sent k ∧ Forall Json.unit_ok s) as (st & Hst & Hn).
  { destruct (Record.files (disk k) !! stateFile d) as [bytes|] eqn:Eb.
    - destruct (i_state k HI _ _ HS Eb) as (n & s & -> & ? & ?). exists (Some (n, s)).
      split; [done|]. by intros n' s' [= -> ->].
    - by exists None. }
  exists st. split.
  - constructor.
    + unfold Record.appendFile, Record.writeFile. cbn [Record.files]. rewrite lookup_insert_eq.
      rewrite <- (i_disk k HI _ HE). reflexivity.
    + done.
    + apply (i_ok k HI).
    + eapply Forall_impl; [apply (i_below k HI)|]. simpl. lia.
    + apply (i_sorted k HI).
    + rewrite <- Hst. by apply lookup_insert_ne.
    + intros n s Es. destruct (Hn n s Es) as [H1 H2]. split_and!; [done|lia|].
      pose proof (i_sentNext k HI). destruct (last (added k)) as [e|] eqn:El.
      * pose proof (i_next k HI e El). lia.
      * apply last_None in El. pose proof (i_fresh k HI El). lia.
  - pose proof (i_sentNext k HI). destruct st as [[n s]|]; simpl; [|lia]. destruct (Hn n s eq_refl). lia.
Qed.

Lemma lives_inv d k : lives d k → Inv k ∧ pathsOf k = (Some (entriesFile d), Some (stateFile d)).
Proof.
  induction 1 as [send iv mb now fs Hn H1 H2|k k' _ [HI HP] Hs|k send iv mb now t _ [HI HP] Hn Ht].
  - destruct (newKeeper_props d send iv mb now fs [] [] None Hn) as (? & ? & _); [|done].
    by apply diskHolds_fresh.
  - split; [by eapply inv_step|]. by rewrite (step_paths k k').
  - destruct (diskHolds_restart d k t HI HP Ht) as (st & HD & _).
    destruct (newKeeper_props d send iv mb now _ _ _ _ Hn HD) as (? & ? & _). done.
Qed.


(** A restart goes on where the dead keeper was. The new keeper, made over
    the record folder that a process death left (the last line perhaps torn),
    knows the same entries, has pending at least everything that was pending,
    in order and after some entries whose answer the state file did not yet
    say, gives new entries larger numbers than every old one, and sends at
    once if anything is pending. *)
Theorem restart_resumes d k send iv mb now t :
  lives d k → 0 <= now → 10 ∉ t →
  let k' := newKeeper (Some d) send iv mb now (Record.appendFile (entriesFile d) t (disk k)) in
  added k' = added k
  ∧ (cutDone k = false → ∃ again_, pendingEntries k' = again_ ++ pendingEntries k
       ∧ ∀ e, e ∈ again_ → e ∈ done_ k)
  ∧ (∀ e, e ∈ added k' → seq e < nextSeq k')
  ∧ (pendingEntries k' ≠ [] → send = true → timer k' = Some 0).
Proof.
  intros [HI HP]%lives_inv Hn Ht. cbv zeta. destruct (diskHolds_restart d k t HI HP Ht) as (st & HD & Hst).
  destruct (newKeeper_props d send iv mb now _ _ _ _ Hn HD) as (HI' & _ & HA & HPe & HDo & HT & HN & _).
  split_and!; [done| |  |done].
  - intros Hc. rewrite HPe, (i_split k HI), filter_app. destruct (i_sent k HI Hc) as [_ H2].
    rewrite (filter_all _ (pendingEntries k)).
    + eexists. split; [done|]. intros e [_ He]%list_elem_of_filter. done.
    + eapply Forall_impl; [exact H2|]. simpl. lia.
  - intros e He. pose proof (i_below _ HI') as HB. rewrite Forall_forall in HB. apply (HB e He).
Qed.

(** ** The sends go on, and end *)

Definition armed (k : Keeper) : Prop := timer k ≠ None ∨ inFlight k ≠ Idle ∨ closedOut k = true.

Definition moving (k : Keeper) : Prop :=
  hasSend k = true → slotValue k ≠ [] → pendingEntries k ≠ [] → armed k.

Lemma start_moving k : moving (start k).
Proof.
  unfold start. destruct (inFlight k) eqn:Ef; [|intros _ _ _; right; left; by rewrite Ef..].
  destruct (negb _ || _ || _) eqn:Eg.
  - intros Hs Hv Hp. rewrite Hs in Eg. destruct (pendingEntries k), (slotValue k); done.
  - destruct (closedOut k) eqn:Ec; intros _ _ _; [by right; right|by right; left].
Qed.

Lemma schedule_moving ms k : moving (schedule ms k).
Proof.
  unfold schedule, moving, armed. destruct (timer k) eqn:Et; [intros _ _ _; left; by rewrite Et|].
  destruct (inFlight k) eqn:Ef; [|intros _ _ _; right; left; by rewrite Ef..].
  destruct (hasSend k) eqn:Es; [intros _ _ _; by left|congruence].
Qed.

(** A slot is stated before there are entries to send. *)
Definition slotFirst (k k' : Keeper) : Prop :=
  step k k' ∧ (slotValue k = [] → pendingEntries k ≠ [] → slotValue k' = []).

Lemma moving_step k k' : Inv k → moving k → slotFirst k k' → moving k'.
Proof.
  intros HI HM [Hs Hslot]. destruct Hs as [uuid iso body| | |s Hs| |b a Hb|].
  - unfold add. cbv zeta. destruct (cutDone k) eqn:Ec; [|apply schedule_moving].
    intros _ _ Hp. destruct Hp. assert (pendingEntries (stored (entryOf uuid iso body k) k) = pendingEntries k) as ->.
    { unfold stored. cbv zeta. set (k1 := match entriesPath _ with Some _ => _ | None => _ end).
      assert (pendingEntries k1 = pendingEntries k ∧ cutDone k1 = cutDone k) as [<- Ek]
        by (unfold k1; by destruct (entriesPath _)).
      clearbody k1. cbn [cutDone set_added]. by rewrite Ek, Ec. }
    by apply (i_cut k HI).
  - apply start_moving.
  - apply start_moving.
  - unfold setSlot in *. destruct (bool_decide _); [done|].
    assert (hasSend (writeState (set_slotValue s k)) = hasSend k
      ∧ pendingEntries (writeState (set_slotValue s k)) = pendingEntries k
      ∧ slotValue (writeState (set_slotValue s k)) = s
      ∧ (armed k → armed (writeState (set_slotValue s k)))) as (E1 & E2 & E3 & E4).
    { unfold writeState, armed. cbn. by destruct (statePath k), (closedTries k). }
    unfold moving. rewrite E1, E2, E3 in *. intros H1 H2 H3. apply E4, HM; [done| |done].
    intros H4. by apply H2, Hslot.
  - apply start_moving.
  - intros _ _ _. right. left. unfold answered.
    assert (∀ k, inFlight (writeState k) = inFlight k) as Hw.
    { intros x. unfold writeState. by split_match. }
    destruct (default again a); rewrite ?Hw; done.
  - unfold sendEnds. cbv zeta. destruct (Nat.eqb_spec (length (pendingEntries (set_inFlight Idle k))) 0) as [E|E].
    + intros _ _ Hp. by apply nil_length_inv in E.
    + destruct (_ =? 0); [apply start_moving|apply schedule_moving].
Qed.

(** Nothing that can be sent waits for ever for someone to ask. From a
    keeper made over any record that an earlier one left, through any
    interleaving in which the slot is stated before the entries it labels:
    while there is a way to send, a slot and an entry pending, a timer is
    armed, a send is in flight, or the closed keeper has used its last try. *)
Theorem pending_entries_move d send iv mb now fs xs t st k :
  0 <= now → diskHolds d fs xs t st →
  rtc slotFirst (newKeeper (Some d) send iv mb now fs) k →
  hasSend k = true → slotValue k ≠ [] → pendingEntries k ≠ [] → armed k.
Proof.
  intros Hn HD Hr. destruct (newKeeper_props d send iv mb now fs xs t st Hn HD) as (HI & _ & _ & _ & _ & HT & _ & HS).
  assert (Inv k ∧ moving k) as [_ HM]; [|done].
  eapply (rtc_invariant slotFirst (λ k, Inv k ∧ moving k)); [|exact Hr|].
  - intros x y [HIx HMx] Hst. split; [eapply inv_step; [apply Hst|done]|by eapply moving_step].
  - split; [done|]. intros Hs _ Hp. left. by rewrite HT by congruence.
Qed.

Inductive closedRun : Keeper → nat → Keeper → Prop :=
| run_nil k : closedRun k 0 k
| run_quiet k k' n k'' :
    k' = kick k ∨ k' = close k ∨ (timer k ≠ None ∧ k' = timerFires k) ∨ (inFlight k = Ending ∧ k' = sendEnds k) →
    closedRun k' n k'' → closedRun k n k''
| run_answer k b a n k'' :
    inFlight k = Sending b → closedRun (answered b a k) n k'' → closedRun k (S n) k''.

Definition closedOk (k : Keeper) (n : Z) : Prop :=
  closedTries k = Some n ∧ ∀ b, inFlight k = Sending b → 0 < n.

Lemma closedOk_start k n : closedOk k n → closedOk (start k) n.
Proof.
  intros [H1 H2]. unfold start. destruct (inFlight k) eqn:Ef; [|split; [done|by rewrite Ef]..].
  destruct (negb _ || _ || _); [split; [done|by rewrite Ef]|].
  destruct (closedOut k) eqn:Ec; [split; [done|by rewrite Ef]|].
  split; [done|]. intros b _. unfold closedOut in Ec. rewrite H1 in Ec. by apply Z.leb_gt.
Qed.

Definition left_ (k : Keeper) (n : Z) : nat := length (pendingEntries k) + Z.to_nat n.

Lemma start_pending k : pendingEntries (start k) = pendingEntries k.
Proof. unfold start. by split_match. Qed.

Lemma quiet_closedOk k k' n :
  k' = kick k ∨ k' = close k ∨ (timer k ≠ None ∧ k' = timerFires k) ∨ (inFlight k = Ending ∧ k' = sendEnds k) →
  closedOk k n → closedOk k' n ∧ pendingEntries k' = pendingEntries k ∧ (Inv k → Inv k').
Proof.
  intros Hq [H1 H2]. split_and!.
  - destruct Hq as [->|[->|[[_ ->]|[_ ->]]]].
    + by apply closedOk_start.
    + unfold close, kick. apply closedOk_start. rewrite H1. by split.
    + by apply closedOk_start.
    + unfold sendEnds. cbv zeta. destruct (_ =? 0)%nat; [by split|]. destruct (_ =? 0).
      * by apply closedOk_start.
      * unfold schedule. by split_match; split.
  - destruct Hq as [->|[->|[[_ ->]|[_ ->]]]]; unfold kick, close, kick, timerFires, sendEnds; cbv zeta;
      rewrite ?start_pending; try done.
    destruct (_ =? 0)%nat; [done|]. destruct (_ =? 0); rewrite ?start_pending; [done|].
    unfold schedule. by split_match.
  - intros HI. destruct Hq as [->|[->|[[Ht ->]|[Hf ->]]]].
    + eapply inv_step; [apply step_kick|done].
    + eapply inv_step; [apply step_close|done].
    + destruct (timer k) as [ms|] eqn:Et; [|done]. eapply inv_step; [by eapply step_timer|done].
    + eapply inv_step; [by apply step_end|done].
Qed.

Lemma writeState_pending k : pendingEntries (writeState k) = pendingEntries k.
Proof. unfold writeState. by split_match. Qed.
Lemma writeState_closed k : closedTries (writeState k) = closedTries k.
Proof. unfold writeState. by split_match. Qed.
Lemma writeState_flight k : inFlight (writeState k) = inFlight k.
Proof. unfold writeState. by split_match. Qed.

(** Every answer takes an entry off, or a try. *)
Lemma answer_closedOk k b a n :
  Inv k → inFlight k = Sending b → closedOk k n →
  ∃ n', closedOk (answered b a k) n' ∧ (S (left_ (answered b a k) n') <= left_ k n)%nat.
Proof.
  intros HI Hf [H1 H2]. specialize (H2 b Hf). destruct (i_flight k HI b Hf) as [Hn [rest Hr]].
  unfold answered. destruct (default again a); unfold left_, closedOk.
  2: { exists (n - 1). cbn -[Z.sub Z.to_nat]. rewrite H1. split; [split; [done|done]|]. lia. }
  all: exists n; rewrite writeState_closed, writeState_flight, writeState_pending; cbn -[drop];
    (split; [done|]); rewrite Hr, length_drop, length_app; destruct b; [done|]; simpl; lia.
Qed.

(** A closed keeper stops. After [close], with no new entries, whatever the
    timers and the kicks do, at most three failed sends more and one per
    pending entry are made. *)
Theorem closed_keeper_stops d k n k' :
  lives d k → closedTries k = None → closedRun (close k) n k' →
  (n <= length (pendingEntries k) + 3)%nat.
Proof.
  intros [HI _]%lives_inv Hc Hr.
  assert (closedOk (close k) 3) as HO.
  { unfold close, kick. apply closedOk_start. rewrite Hc. by split. }
  assert (Inv (close k)) as HI' by (eapply inv_step; [apply step_close|done]).
  assert (∀ k1 n1 k2, closedRun k1 n1 k2 → ∀ m, Inv k1 → closedOk k1 m → (n1 <= left_ k1 m)%nat) as HG.
  { clear. induction 1 as [k1|k1 k2 n1 k3 Hq _ IH|k1 b a n1 k3 Hf _ IH]; intros m HI HO; [lia| |].
    - destruct (quiet_closedOk k1 k2 m Hq HO) as (HO' & Hp & HI'). specialize (IH m (HI' HI) HO').
      unfold left_ in *. by rewrite Hp in IH.
    - destruct (answer_closedOk k1 b a m HI Hf HO) as (m' & HO' & Hl).
      specialize (IH m' (inv_answered b a k1 Hf HI) HO'). lia. }
  specialize (HG _ _ _ Hr 3 HI' HO). unfold left_ in HG.
  unfold close, kick in HG. rewrite start_pending in HG. exact HG.
Qed.

(** The wait before the next try of a batch that failed is never longer
    than the largest backoff. It doubles with each failure until then. *)
Theorem backoff_doubles_to_cap k :
  0 < intervalMs k → 1 <= failures k →
  backoff k <= maxBackoffMs k
  ∧ (let k' := set_failures (failures k + 1) k in
     backoff k' = maxBackoffMs k ∨ backoff k' = 2 * (intervalMs k * 2 ^ (failures k - 1))).
Proof.
  intros Hi Hf. unfold backoff. cbn. split; [lia|].
  replace (failures k + 1 - 1) with (Z.succ (failures k - 1)) by lia. rewrite Z.pow_succ_r by lia. lia.
Qed.

(** ** A run *)

Definition w0 : Keeper := newKeeper (Some [js "d"]) true INTERVAL_MS MAX_BACKOFF_MS 5 Record.emptyFS.
Definition w1 : Keeper := setSlot (js "planner") w0.
Definition w2 : Keeper := add (js "u1") (js "t1") (js "[say] hi") w1.
Definition w3 : Keeper := timerFires w2.

Lemma w0_lives : lives [js "d"] w0.
Proof. by apply life_first. Qed.

Lemma w2_steps : slotFirst w0 w1 ∧ slotFirst w1 w2 ∧ step w2 w3.
Proof.
  split_and!.
  - split; [apply step_slot; by apply (Json.js_units "planner")|by intros _ []].
  - split; [apply step_add; [apply (Json.js_units "u1")|apply (Json.js_units "t1")|apply (Json.js_units "[say] hi")]|].
    intros E. by vm_compute in E.
  - apply (step_timer w2 1000). by vm_compute.
Qed.

Lemma w3_lives : lives [js "d"] w3.
Proof.
  destruct w2_steps as ([H1 _] & [H2 _] & H3).
  eapply life_step; [eapply life_step; [eapply life_step; [apply w0_lives|exact H1]|exact H2]|exact H3].
Qed.


Lemma restart_resumes_witness :
  added (newKeeper (Some [js "d"]) true 1000 30000 9
           (Record.appendFile (entriesFile [js "d"]) [123] (disk w3))) = added w3.
Proof.
  destruct (restart_resumes [js "d"] w3 true 1000 30000 9 [123] w3_lives) as (H & _);
    [lia|set_solver|exact H].
Defined.

Lemma pending_entries_move_witness : armed w2.
Proof.
  destruct w2_steps as (H1 & H2 & _).
  apply (pending_entries_move [js "d"] true INTERVAL_MS MAX_BACKOFF_MS 5 Record.emptyFS [] [] None).
  - lia.
  - by apply diskHolds_fresh.
  - eapply rtc_l; [exact H1|]. by apply rtc_once.
  - by vm_compute.
  - by vm_compute.
  - by vm_compute.
Defined.

Lemma closed_keeper_stops_witness : (0 <= length (pendingEntries w3) + 3)%nat ∧ closedTries w3 = None.
Proof.
  split; [|by vm_compute].
  apply (closed_keeper_stops [js "d"] w3 0 (close w3)); [exact w3_lives|by vm_compute|apply run_nil].
Defined.

Lemma backoff_doubles_to_cap_witness : backoff (set_failures 4 w3) <= 30000.
Proof. apply (backoff_doubles_to_cap (set_failures 4 w3)); by vm_compute. Defined.
End Keep.
