(* ===== verification/Conversation.v ===== *)
(** * A conversation of the Harness (harness/src/conversation.ts)

    One conversation of an Agent: Submissions are admitted into a queue and run
    one at a time; each one settles once; every message and every Settlement is
    an event on an append-only stream that readers follow by offset.

    The model is the object with its asynchronous parts as explicit state:
    - [records] and [actives] are the heap of [SubmissionRecord]s and of [active]
      objects; a record is named by its admission number, an active object by
      the order of its creation, so that [===] is equality of names;
    - a run in flight is an active object with [running]; its end, its calls of
      the seat and the sweep's timer are operations of their own ([Op]);
    - a parked reader or drain is an entry of [waiters] or [idleWaiters], and its
      promise's value an entry of [resolved] or [idleResolved];
    - [writes] is what the recorder wrote, in order: a crash leaves a prefix.

    What [runSubmission] does is not part of this component: its calls and its
    end come as operations in any order. *)

From Stdlib Require Import Lia ZArith.
From Stdlib Require Import SpecFloat.
From stdpp Require Import base list strings gmap sorting.
From S2P Require Import Prelude JsString.

Open Scope Z_scope.

Module Conversation.

(** ** The wire (harness/src/wire.ts) *)

Inductive SettlementOutcome := completed | ended | failed | aborted.

Definition SUBMISSION_ABORTED : jstr := js "submission_aborted".
Definition SUBMISSION_RUNAWAY : jstr := js "runaway".
Definition SUBMISSION_HARNESS_RESTARTED : jstr := js "harness_restarted".
Definition SUBMISSION_RESTARTED_MESSAGE : jstr :=
  js "Harness restarted before this Submission settled (ADR-0031)".
Definition NO_SWEEP_MESSAGE : jstr :=
  js "a pick found the Turn over, and no sweep came from the Orchestrator to say how it ended, so it settles aborted (ADR-0024)".
Definition SUBMISSION_CUT_MESSAGE : jstr :=
  js "the Harness stopped while this Turn waited only on its pick's answer; the workflow runs on (ADR-0031)".

Record SettlementError := mkError { errorType : jstr; errorMessage : option jstr }.

(** A JavaScript number is a double. *)
Record SubmissionUsage := {
  input : spec_float;
  output : spec_float;
  cacheRead : spec_float;
  cacheWrite : spec_float;
  cost : spec_float;
}.

Definition num_add : spec_float → spec_float → spec_float := SFadd 53 1024.

Definition addUsage (a b : SubmissionUsage) : SubmissionUsage := {|
  input := num_add (input a) (input b);
  output := num_add (output a) (output b);
  cacheRead := num_add (cacheRead a) (cacheRead b);
  cacheWrite := num_add (cacheWrite a) (cacheWrite b);
  cost := num_add (cost a) (cost b);
|}.

Record Settlement := mkSettlement {
  s_submissionId : jstr;
  s_outcome : SettlementOutcome;
  s_error : option SettlementError;
  s_usage : option SubmissionUsage;
}.

Inductive Role := user | assistant.
Record HistoryMessage := { role : Role; text : jstr }.
Record StreamPosition := { batch : Z; index : Z }.

Inductive StreamEventBody :=
| MessageAppended (id : jstr) (message : HistoryMessage)
| SubmissionSettled (settlement : Settlement)
| MemoryLimit (id peak limit : jstr).

Record StreamEvent := mkEvent {
  conversationId : jstr;
  position : StreamPosition;
  body : StreamEventBody;
}.

Record AdmissionResponse := { streamUrl : jstr; offset : jstr; r_submissionId : jstr }.

Record UpdatesView := mkView { events : list StreamEvent; nextOffset : jstr; upToDate : bool }.

Record HistoryView := {
  h_conversationId : jstr;
  h_offset : jstr;
  h_messages : list HistoryMessage;
  h_settlements : list Settlement;
}.

(** One line of the record (harness/src/record.ts [ConversationRecorder]). *)
Inductive Write :=
| WAdmitted (submissionId : jstr)
| WAppended (event : StreamEvent)
| WSaid (message : HistoryMessage)
| WOver (submissionId : jstr).

(** A conversation as its record rebuilds it (record.ts). *)
Record RecordedConversation := mkRecorded {
  rc_agentName : jstr;
  rc_instanceId : jstr;
  rc_admitted : list jstr;
  rc_over : list jstr;
  rc_log : list StreamEvent;
  rc_messages : list HistoryMessage;
  rc_settlements : list Settlement;
}.

Section conversation.
Context {AdmissionRequest : Type}.

(** ** The state *)

Record SubmissionRecord := mkRecord {
  submissionId : jstr;
  submission : AdmissionRequest;
  settled : bool;
  usage : option SubmissionUsage;
}.

Record Active := mkActive {
  record : nat;          (* the record, by name *)
  signalAborted : bool;  (* controller.signal.aborted *)
  onPickOnly : bool;
  cutAborted : bool;     (* cut.signal.aborted *)
  waiting : bool;        (* the sweep timer is armed *)
  running : bool;        (* the run's promise is pending *)
}.

Record Conv := mkConv {
  agentName : jstr;
  instanceId : jstr;
  hasRecorder : bool;
  queue : list nat;
  records : gmap nat SubmissionRecord;
  active : option nat;
  actives : list Active;
  stopping : bool;
  log : list StreamEvent;
  messages : list HistoryMessage;
  settlements : list Settlement;
  waiters : list (nat * jstr);
  resolved : list (nat * UpdatesView);
  idleWaiters : list nat;
  idleResolved : list nat;
  writes : list Write;
  admitted : nat;
  mintedMessages : nat;
}.

Definition set_queue v (c : Conv) : Conv :=
  mkConv (c.(agentName)) (c.(instanceId)) (c.(hasRecorder)) v (c.(records)) (c.(active))
    (c.(actives)) (c.(stopping)) (c.(log)) (c.(messages)) (c.(settlements)) (c.(waiters))
    (c.(resolved)) (c.(idleWaiters)) (c.(idleResolved)) (c.(writes)) (c.(admitted))
    (c.(mintedMessages)).
Definition set_records v (c : Conv) : Conv :=
  mkConv (c.(agentName)) (c.(instanceId)) (c.(hasRecorder)) (c.(queue)) v (c.(active))
    (c.(actives)) (c.(stopping)) (c.(log)) (c.(messages)) (c.(settlements)) (c.(waiters))
    (c.(resolved)) (c.(idleWaiters)) (c.(idleResolved)) (c.(writes)) (c.(admitted))
    (c.(mintedMessages)).
Definition set_active v (c : Conv) : Conv :=
  mkConv (c.(agentName)) (c.(instanceId)) (c.(hasRecorder)) (c.(queue)) (c.(records)) v
    (c.(actives)) (c.(stopping)) (c.(log)) (c.(messages)) (c.(settlements)) (c.(waiters))
    (c.(resolved)) (c.(idleWaiters)) (c.(idleResolved)) (c.(writes)) (c.(admitted))
    (c.(mintedMessages)).
Definition set_actives v (c : Conv) : Conv :=
  mkConv (c.(agentName)) (c.(instanceId)) (c.(hasRecorder)) (c.(queue)) (c.(records))
    (c.(active)) v (c.(stopping)) (c.(log)) (c.(messages)) (c.(settlements)) (c.(waiters))
    (c.(resolved)) (c.(idleWaiters)) (c.(idleResolved)) (c.(writes)) (c.(admitted))
    (c.(mintedMessages)).
Definition set_stopping v (c : Conv) : Conv :=
  mkConv (c.(agentName)) (c.(instanceId)) (c.(hasRecorder)) (c.(queue)) (c.(records))
    (c.(active)) (c.(actives)) v (c.(log)) (c.(messages)) (c.(settlements)) (c.(waiters))
    (c.(resolved)) (c.(idleWaiters)) (c.(idleResolved)) (c.(writes)) (c.(admitted))
    (c.(mintedMessages)).
Definition set_log v (c : Conv) : Conv :=
  mkConv (c.(agentName)) (c.(instanceId)) (c.(hasRecorder)) (c.(queue)) (c.(records))
    (c.(active)) (c.(actives)) (c.(stopping)) v (c.(messages)) (c.(settlements)) (c.(waiters))
    (c.(resolved)) (c.(idleWaiters)) (c.(idleResolved)) (c.(writes)) (c.(admitted))
    (c.(mintedMessages)).
Definition set_messages v (c : Conv) : Conv :=
  mkConv (c.(agentName)) (c.(instanceId)) (c.(hasRecorder)) (c.(queue)) (c.(records))
    (c.(active)) (c.(actives)) (c.(stopping)) (c.(log)) v (c.(settlements)) (c.(waiters))
    (c.(resolved)) (c.(idleWaiters)) (c.(idleResolved)) (c.(writes)) (c.(admitted))
    (c.(mintedMessages)).
Definition set_settlements v (c : Conv) : Conv :=
  mkConv (c.(agentName)) (c.(instanceId)) (c.(hasRecorder)) (c.(queue)) (c.(records))
    (c.(active)) (c.(actives)) (c.(stopping)) (c.(log)) (c.(messages)) v (c.(waiters))
    (c.(resolved)) (c.(idleWaiters)) (c.(idleResolved)) (c.(writes)) (c.(admitted))
    (c.(mintedMessages)).
Definition set_waiters v (c : Conv) : Conv :=
  mkConv (c.(agentName)) (c.(instanceId)) (c.(hasRecorder)) (c.(queue)) (c.(records))
    (c.(active)) (c.(actives)) (c.(stopping)) (c.(log)) (c.(messages)) (c.(settlements)) v
    (c.(resolved)) (c.(idleWaiters)) (c.(idleResolved)) (c.(writes)) (c.(admitted))
    (c.(mintedMessages)).
Definition set_resolved v (c : Conv) : Conv :=
  mkConv (c.(agentName)) (c.(instanceId)) (c.(hasRecorder)) (c.(queue)) (c.(records))
    (c.(active)) (c.(actives)) (c.(stopping)) (c.(log)) (c.(messages)) (c.(settlements))
    (c.(waiters)) v (c.(idleWaiters)) (c.(idleResolved)) (c.(writes)) (c.(admitted))
    (c.(mintedMessages)).
Definition set_idleWaiters v (c : Conv) : Conv :=
  mkConv (c.(agentName)) (c.(instanceId)) (c.(hasRecorder)) (c.(queue)) (c.(records))
    (c.(active)) (c.(actives)) (c.(stopping)) (c.(log)) (c.(messages)) (c.(settlements))
    (c.(waiters)) (c.(resolved)) v (c.(idleResolved)) (c.(writes)) (c.(admitted))
    (c.(mintedMessages)).
Definition set_idleResolved v (c : Conv) : Conv :=
  mkConv (c.(agentName)) (c.(instanceId)) (c.(hasRecorder)) (c.(queue)) (c.(records))
    (c.(active)) (c.(actives)) (c.(stopping)) (c.(log)) (c.(messages)) (c.(settlements))
    (c.(waiters)) (c.(resolved)) (c.(idleWaiters)) v (c.(writes)) (c.(admitted))
    (c.(mintedMessages)).
Definition set_writes v (c : Conv) : Conv :=
  mkConv (c.(agentName)) (c.(instanceId)) (c.(hasRecorder)) (c.(queue)) (c.(records))
    (c.(active)) (c.(actives)) (c.(stopping)) (c.(log)) (c.(messages)) (c.(settlements))
    (c.(waiters)) (c.(resolved)) (c.(idleWaiters)) (c.(idleResolved)) v (c.(admitted))
    (c.(mintedMessages)).
Definition set_admitted v (c : Conv) : Conv :=
  mkConv (c.(agentName)) (c.(instanceId)) (c.(hasRecorder)) (c.(queue)) (c.(records))
    (c.(active)) (c.(actives)) (c.(stopping)) (c.(log)) (c.(messages)) (c.(settlements))
    (c.(waiters)) (c.(resolved)) (c.(idleWaiters)) (c.(idleResolved)) (c.(writes)) v
    (c.(mintedMessages)).
Definition set_mintedMessages v (c : Conv) : Conv :=
  mkConv (c.(agentName)) (c.(instanceId)) (c.(hasRecorder)) (c.(queue)) (c.(records))
    (c.(active)) (c.(actives)) (c.(stopping)) (c.(log)) (c.(messages)) (c.(settlements))
    (c.(waiters)) (c.(resolved)) (c.(idleWaiters)) (c.(idleResolved)) (c.(writes))
    (c.(admitted)) v.

(** [new Conversation(agentName, instanceId, runSubmission, recorder)]. *)
Definition newConversation (name iid : jstr) (rec : bool) : Conv :=
  mkConv name iid rec [] ∅ None [] false [] [] [] [] [] [] [] [] 0 0.

(** ** Reading *)

Definition logLength (l : list StreamEvent) : Z := Z.of_nat (length l).

Definition parseOffset (l : list StreamEvent) (off : jstr) : Z :=
  match parse_int off with
  | Some n => if n <? 0 then 0 else Z.min n (logLength l)
  | None => 0
  end.

(** The view of [this.log] from an offset. *)
Definition updatesView (l : list StreamEvent) (off : jstr) : UpdatesView :=
  mkView (drop (Z.to_nat (parseOffset l off)) l) (of_int (logLength l)) true.

Definition historyView (c : Conv) : HistoryView := {|
  h_conversationId := instanceId c;
  h_offset := of_int (logLength (log c));
  h_messages := messages c;
  h_settlements := settlements c;
|}.

Definition busy (c : Conv) : bool :=
  match active c with
  | Some _ => true
  | None => match queue c with [] => false | _ :: _ => true end
  end.

(** ** Writing *)

Definition write (w : Write) (c : Conv) : Conv :=
  set_writes (if hasRecorder c then writes c ++ [w] else writes c) c.

Definition nextPosition (l : list StreamEvent) : StreamPosition :=
  {| batch := logLength l; index := 0 |}.

(** Every parked reader is woken with the view from its own offset. *)
Definition append (b : StreamEventBody) (c : Conv) : Conv :=
  let event := mkEvent (instanceId c) (nextPosition (log c)) b in
  let c := write (WAppended event) (set_log (log c ++ [event]) c) in
  let woken := waiters c in
  let c := set_waiters [] c in
  set_resolved (resolved c ++ ((λ w, (w.1, updatesView (log c) w.2)) <$> woken)) c.

Definition appendMessage (m : HistoryMessage) (c : Conv) : Conv :=
  let c := write (WSaid m) (set_messages (messages c ++ [m]) c) in
  let c := set_mintedMessages (S (mintedMessages c)) c in
  append (MessageAppended (js "m-" ++ of_int (Z.of_nat (mintedMessages c))) m) c.

(** [findIndex] and [splice(index, 1)]. *)
Fixpoint remove_first (r : nat) (q : list nat) : list nat :=
  match q with
  | [] => []
  | x :: q' => if decide (x = r) then q' else x :: remove_first r q'
  end.

(** The part of [settle] after its guard and its removal from the queue. *)
Definition pushSettlement (s : Settlement) (c : Conv) : Conv :=
  append (SubmissionSettled s) (set_settlements (settlements c ++ [s]) c).

Definition settle (r : nat) (outcome : SettlementOutcome) (error : option SettlementError)
    (c : Conv) : Conv :=
  match records c !! r with
  | None => c
  | Some rec =>
      if settled rec then c
      else
        let c := set_records (<[r := mkRecord (submissionId rec) (submission rec) true (usage rec)]> (records c)) c in
        let c := set_queue (remove_first r (queue c)) c in
        pushSettlement (mkSettlement (submissionId rec) outcome error (usage rec)) c
  end.

Definition abortedError (m : option jstr) : SettlementError := mkError SUBMISSION_ABORTED m.

(** ** Running *)

Definition pump (c : Conv) : Conv :=
  match active c with
  | Some _ => c
  | None =>
      match queue c with
      | [] => set_idleWaiters [] (set_idleResolved (idleResolved c ++ idleWaiters c) c)
      | r :: _ =>
          let a := mkActive r false false false false true in
          set_active (Some (length (actives c))) (set_actives (actives c ++ [a]) c)
      end
  end.

Definition updActive (a : nat) (f : Active → Active) (c : Conv) : Conv :=
  set_actives (alter f a (actives c)) c.

Definition release (a : nat) (c : Conv) : Conv :=
  let c := updActive a (λ x, mkActive (record x) (signalAborted x) (onPickOnly x) (cutAborted x) false (running x)) c in
  if bool_decide (active c = Some a) then pump (set_active None c) else c.

Definition settleAll (rs : list nat) (outcome : SettlementOutcome) (error : option SettlementError)
    (c : Conv) : Conv :=
  foldl (λ c r, settle r outcome error c) c rs.

Definition cutIfOnPick (c : Conv) : Conv :=
  match active c with
  | None => c
  | Some a =>
      match actives c !! a with
      | None => c
      | Some act =>
          if negb (stopping c) || negb (onPickOnly act) || cutAborted act then c
          else
            let c := updActive a (λ x, mkActive (record x) (signalAborted x) (onPickOnly x) true (waiting x) (running x)) c in
            let error := mkError SUBMISSION_HARNESS_RESTARTED (Some SUBMISSION_CUT_MESSAGE) in
            let c := settleAll (record act :: queue c) failed (Some error) c in
            pump (set_active None c)
      end
  end.

Definition idle (w : nat) (c : Conv) : Conv :=
  if busy c then set_idleWaiters (idleWaiters c ++ [w]) c
  else set_idleResolved (idleResolved c ++ [w]) c.

Definition drain (w : nat) (c : Conv) : Conv :=
  idle w (cutIfOnPick (set_stopping true c)).

(** [`s-${n}-${random}`]. *)
Definition mkSubmissionId (n : nat) (random : jstr) : jstr :=
  js "s-" ++ of_int (Z.of_nat n) ++ js "-" ++ random.

(** [None] is the [URIError] of a name with an unpaired surrogate: it leaves
    the method after the record is queued. *)
Definition admitSubmission (sub : AdmissionRequest) (random : jstr) (c : Conv)
    : Conv * option AdmissionResponse :=
  let n := S (admitted c) in
  let sid := mkSubmissionId n random in
  let c := write (WAdmitted sid) (set_admitted n c) in
  let c := set_records (<[n := mkRecord sid sub false None]> (records c)) c in
  let c := set_queue (queue c ++ [n]) c in
  match encodeURIComponent (agentName c), encodeURIComponent (instanceId c) with
  | Some an, Some iid =>
      (pump c, Some {| streamUrl := js "/agents/" ++ an ++ js "/" ++ iid;
                       offset := of_int (logLength (log c)); r_submissionId := sid |})
  | _, _ => (c, None)
  end.

Inductive AbortCause := pick.

(** The sweep: every queued record settles, the one that a [pick] ended as
    [ended], the others as [aborted]. *)
Definition sweepOutcome (cause : option AbortCause) (sid : option jstr) (act : option Active)
    (r : nat) (rec : SubmissionRecord) : SettlementOutcome * option SettlementError :=
  let isActive := match act with Some x => bool_decide (record x = r) | None => false end in
  let named := match sid with Some s => bool_decide (submissionId rec = s) | None => false end in
  match cause with
  | Some pick => if isActive && named then (ended, None) else (aborted, Some (abortedError None))
  | None => (aborted, Some (abortedError None))
  end.

Definition sweepOne (cause : option AbortCause) (sid : option jstr) (act : option Active)
    (c : Conv) (r : nat) : Conv :=
  match records c !! r with
  | None => c
  | Some rec =>
      let '(o, e) := sweepOutcome cause sid act r rec in
      settle r o e c
  end.

Definition abort (cause : option AbortCause) (sid : option jstr) (c : Conv) : Conv * bool :=
  match queue c with
  | [] => (c, false)
  | swept =>
      let c := set_queue [] c in
      let act := active c ≫= λ a, actives c !! a in
      let c := match active c with
               | Some a => updActive a (λ x, mkActive (record x) true (onPickOnly x) (cutAborted x) (waiting x) (running x)) c
               | None => c
               end in
      let c := foldl (sweepOne cause sid act) c swept in
      let c := match active c, act with
               | Some a, Some x => if waiting x then release a c else c
               | _, _ => c
               end in
      (c, true)
  end.

Definition reportMemoryLimit (id peak limit : jstr) (c : Conv) : Conv * bool :=
  match active c ≫= λ a, actives c !! a with
  | None => (c, false)
  | Some act =>
      match records c !! record act with
      | None => (c, false)
      | Some rec =>
          if settled rec || waiting act then (c, false)
          else (append (MemoryLimit id peak limit) c, true)
      end
  end.

(** [waitForEvent]: at once when there is something to read, else parked. *)
Definition waitForEvent (w : nat) (off : jstr) (c : Conv) : Conv :=
  let now := updatesView (log c) off in
  match events now with
  | _ :: _ => set_resolved (resolved c ++ [(w, now)]) c
  | [] => set_waiters (waiters c ++ [(w, off)]) c
  end.

(** The timer of a parked reader fires. *)
Definition waitTimeout (w : nat) (c : Conv) : Conv :=
  match list_find (λ x, x.1 = w) (waiters c) with
  | None => c
  | Some (i, (_, off)) =>
      let c := set_waiters (delete i (waiters c)) c in
      set_resolved (resolved c ++ [(w, updatesView (log c) off)]) c
  end.

(** The seat of a run: [waiting] and [spent]. *)
Definition seatWaiting (a : nat) (b : bool) (c : Conv) : Conv :=
  let c := updActive a (λ x, mkActive (record x) (signalAborted x) b (cutAborted x) (waiting x) (running x)) c in
  if bool_decide (active c = Some a) then cutIfOnPick c else c.

Definition seatSpent (a : nat) (u : SubmissionUsage) (c : Conv) : Conv :=
  match actives c !! a with
  | None => c
  | Some act =>
      set_records (alter (λ rec, mkRecord (submissionId rec) (submission rec) (settled rec)
        (Some (match usage rec with Some u0 => addUsage u0 u | None => u end))) (record act) (records c)) c
  end.

(** How the promise of [runSubmission] ends: it returns, it returns
    [TURN_OVER], or it throws a [TurnOverError], a [RunawayError] or another
    error, with its message. *)
Inductive RunEnd :=
| Returned
| ReturnedTurnOver
| ThrewTurnOver (message : jstr)
| ThrewRunaway (message : jstr)
| ThrewOther (message : jstr).

Definition isSettled (r : nat) (c : Conv) : bool :=
  match records c !! r with Some rec => settled rec | None => false end.

(** The settlement of a run that threw. *)
Definition thrown (act : Active) (e : RunEnd) : SettlementOutcome * SettlementError :=
  if signalAborted act then (aborted, abortedError None)
  else match e with
       | ThrewTurnOver m => (aborted, abortedError (Some m))
       | ThrewRunaway m => (failed, mkError SUBMISSION_RUNAWAY (Some m))
       | ThrewOther m => (failed, mkError (js "submission_failed") (Some m))
       | _ => (failed, mkError (js "submission_failed") None)
       end.

(** The end of a run: its settlement, then the [finally] block. *)
Definition runEnd (a : nat) (e : RunEnd) (c : Conv) : Conv :=
  match actives c !! a with
  | None => c
  | Some act =>
      let c := updActive a (λ x, mkActive (record x) (signalAborted x) (onPickOnly x) (cutAborted x) (waiting x) false) c in
      let r := record act in
      let '(c, over) :=
        match e with
        | Returned => (settle r completed None c, false)
        | ReturnedTurnOver => (c, negb (isSettled r c))
        | _ => let '(o, er) := thrown act e in (settle r o (Some er) c, false)
        end in
      if bool_decide (active c = Some a) then
        if over then
          let c := match records c !! r with
                   | Some rec => write (WOver (submissionId rec)) c
                   | None => c
                   end in
          updActive a (λ x, mkActive (record x) (signalAborted x) (onPickOnly x) (cutAborted x) true (running x)) c
        else pump (set_active None c)
      else c
  end.

(** The sweep's timer fires. *)
Definition sweepTimeout (a : nat) (c : Conv) : Conv :=
  match actives c !! a with
  | None => c
  | Some act =>
      release a (settle (record act) aborted (Some (abortedError (Some NO_SWEEP_MESSAGE))) c)
  end.

(** ** Operations *)

Inductive Op :=
| OAdmit (sub : AdmissionRequest) (random : jstr)
| OAbort (cause : option AbortCause) (sid : option jstr)
| OMessage (m : HistoryMessage)
| OMemoryLimit (id peak limit : jstr)
| OIdle (w : nat)
| ODrain (w : nat)
| OWait (w : nat) (off : jstr)
| OWaitTimeout (w : nat)
| OSeatWaiting (a : nat) (b : bool)
| OSeatSpent (a : nat) (u : SubmissionUsage)
| ORunEnd (a : nat) (e : RunEnd)
| OSweepTimeout (a : nat).

(** The events of a run come only from a run in flight; the sweep's timer fires
    only when armed. *)
Definition enabled (c : Conv) (o : Op) : bool :=
  match o with
  | OSeatWaiting a _ | OSeatSpent a _ | ORunEnd a _ =>
      match actives c !! a with Some act => running act | None => false end
  | OSweepTimeout a =>
      match actives c !! a with Some act => waiting act | None => false end
  | _ => true
  end.

Definition exec (c : Conv) (o : Op) : Conv :=
  match o with
  | OAdmit s r => (admitSubmission s r c).1
  | OAbort cause sid => (abort cause sid c).1
  | OMessage m => appendMessage m c
  | OMemoryLimit i p l => (reportMemoryLimit i p l c).1
  | OIdle w => idle w c
  | ODrain w => drain w c
  | OWait w off => waitForEvent w off c
  | OWaitTimeout w => waitTimeout w c
  | OSeatWaiting a b => seatWaiting a b c
  | OSeatSpent a u => seatSpent a u c
  | ORunEnd a e => runEnd a e c
  | OSweepTimeout a => sweepTimeout a c
  end.

(** One step of the conversation. *)
Inductive step (c : Conv) : Conv → Prop :=
| step_op o : enabled c o = true → step c (exec c o).

(** Enabled operations in a row, for evaluation. *)
Fixpoint run (c : Conv) (os : list Op) : option Conv :=
  match os with
  | [] => Some c
  | o :: os => if enabled c o then run (exec c o) os else None
  end.

(** ** Rebuilding from the record *)

(** The settlements that a stream holds (record.ts [readRecord]). *)
Definition settlementsOf (l : list StreamEvent) : list Settlement :=
  omap (λ e, match body e with SubmissionSettled s => Some s | _ => None end) l.

(** [readRecord]: each kind of line has its own file. *)
Definition readRecord (name iid : jstr) (ws : list Write) : RecordedConversation :=
  let l := omap (λ w, match w with WAppended e => Some e | _ => None end) ws in
  mkRecorded name iid
    (omap (λ w, match w with WAdmitted s => Some s | _ => None end) ws)
    (omap (λ w, match w with WOver s => Some s | _ => None end) ws)
    l
    (omap (λ w, match w with WSaid m => Some m | _ => None end) ws)
    (settlementsOf l).

Definition isMessage (e : StreamEvent) : bool :=
  match body e with MessageAppended _ _ => true | _ => false end.

(** One admitted id of the record: settled already, over, or lost. *)
Definition rebuildOne (settledIds overIds : list jstr) (c : Conv) (sid : jstr) : Conv :=
  if bool_decide (sid ∈ settledIds) then c
  else if bool_decide (sid ∈ overIds) then
    pushSettlement (mkSettlement sid aborted (Some (abortedError (Some NO_SWEEP_MESSAGE))) None) c
  else
    pushSettlement (mkSettlement sid failed
      (Some (mkError SUBMISSION_HARNESS_RESTARTED (Some SUBMISSION_RESTARTED_MESSAGE))) None) c.

(** [Conversation.rebuilt]: the recorder of the rebuilt conversation appends
    to the record it was read from. *)
Definition rebuilt (ws : list Write) (rc : RecordedConversation) : Conv :=
  let c := mkConv (rc_agentName rc) (rc_instanceId rc) true [] ∅ None [] false
             (rc_log rc) (rc_messages rc) (rc_settlements rc) [] [] [] [] ws
             (length (rc_admitted rc)) (length (filter isMessage (rc_log rc))) in
  foldl (rebuildOne (s_submissionId <$> rc_settlements rc) (rc_over rc)) c (rc_admitted rc).

End conversation.

End Conversation.
