(* ===== verification/ConversationProofs.v ===== *)
(** * A conversation of the Harness: its invariant and theorems

    The invariant is in two parts: [Core] (the stream, the Settlements, the
    queue and the record on disk) is kept by every single write; [Seat] (which
    run holds the seat) is kept by every whole operation.  The theorems hold in
    every state reached by operations and crashes. *)

From Stdlib Require Import Lia ZArith.
From stdpp Require Import base list strings gmap sorting.
From S2P Require Import Prelude JsString Conversation.

Open Scope Z_scope.

Module ConversationProofs.
Import Conversation.

(** ** Submission ids *)

(** [s] is the id of the [n]th admission. *)
Definition sidNum (s : jstr) (n : nat) : Prop := ∃ random, s = mkSubmissionId n random.

Lemma sid_number n random :
  read_digits 10 0 (drop 2 (mkSubmissionId n random)) = Z.of_nat n.
Proof.
  unfold mkSubmissionId. change (js "s-") with [115; 45]. cbn [app drop]. rewrite drop_0.
  destruct (to_radix_spec 10 (Z.of_nat n)) as (_ & HF & Hr); [lia|lia|].
  unfold of_int. rewrite read_digits_app by done. by rewrite Hr.
Qed.

Lemma sidNum_inj s n m : sidNum s n → sidNum s m → n = m.
Proof.
  intros [r1 ->] [r2 H]. apply (f_equal (λ x, read_digits 10 0 (drop 2 x))) in H.
  rewrite !sid_number in H. lia.
Qed.

(** ** The record on disk *)

Definition admittedOf (ws : list Write) : list jstr :=
  omap (λ w, match w with WAdmitted s => Some s | _ => None end) ws.
Definition streamOf (ws : list Write) : list StreamEvent :=
  omap (λ w, match w with WAppended e => Some e | _ => None end) ws.
Definition settledOf (ws : list Write) : list jstr :=
  s_submissionId <$> settlementsOf (streamOf ws).

(** The event is the next one of a stream of [n] events. *)
Definition nextEvent (iid : jstr) (n : nat) (e : StreamEvent) : Prop :=
  position e = {| batch := Z.of_nat n; index := 0 |} ∧ conversationId e = iid.

(** The lines that the recorder may have written, in order: ids are numbered by
    admission, events carry their place on the stream, and a Settlement names
    an admitted Submission that has none yet. Every prefix is such a record. *)
Inductive Recorded (iid : jstr) : list Write → Prop :=
| rec_nil : Recorded iid []
| rec_admitted ws s :
    Recorded iid ws → sidNum s (S (length (admittedOf ws))) → Recorded iid (ws ++ [WAdmitted s])
| rec_settled ws e s :
    Recorded iid ws → nextEvent iid (length (streamOf ws)) e → body e = SubmissionSettled s →
    s_submissionId s ∈ admittedOf ws → s_submissionId s ∉ settledOf ws →
    Recorded iid (ws ++ [WAppended e])
| rec_event ws e :
    Recorded iid ws → nextEvent iid (length (streamOf ws)) e →
    (∀ s, body e ≠ SubmissionSettled s) → Recorded iid (ws ++ [WAppended e])
| rec_said ws m : Recorded iid ws → Recorded iid (ws ++ [WSaid m])
| rec_over ws s : Recorded iid ws → Recorded iid (ws ++ [WOver s]).

Lemma admittedOf_app a b : admittedOf (a ++ b) = admittedOf a ++ admittedOf b.
Proof. apply omap_app. Qed.
Lemma streamOf_app a b : streamOf (a ++ b) = streamOf a ++ streamOf b.
Proof. apply omap_app. Qed.
Lemma settlementsOf_app a b : settlementsOf (a ++ b) = settlementsOf a ++ settlementsOf b.
Proof. apply omap_app. Qed.

Lemma recorded_snoc_inv iid ws w : Recorded iid (ws ++ [w]) → Recorded iid ws.
Proof.
  inversion 1 as [Hn|ws' ? ? ? E|ws' ? ? ? ? ? ? ? E|ws' ? ? ? ? E|ws' ? ? E|ws' ? ? E];
    try (apply app_inj_tail in E as [-> _]; done).
  by destruct ws.
Qed.

(** A crash keeps a prefix of the lines, and a prefix is a record. *)
Lemma recorded_prefix iid ws ws' : Recorded iid (ws ++ ws') → Recorded iid ws.
Proof.
  induction ws' as [|w ws' IH] using rev_ind; [by rewrite app_nil_r|].
  rewrite app_assoc. intros H. apply IH. by eapply recorded_snoc_inv.
Qed.

(** Positions on a stream. *)
Definition placed (iid : jstr) (l : list StreamEvent) : Prop :=
  ∀ i e, l !! i = Some e → nextEvent iid i e.

Lemma placed_snoc iid l e : placed iid l → nextEvent iid (length l) e → placed iid (l ++ [e]).
Proof.
  intros Hl He i x. rewrite lookup_app_Some. intros [H|[Hi H]]; [by apply Hl|].
  destruct (i - length l)%nat eqn:E; [|done]. simpl in H. simplify_eq.
  replace i with (length l) by lia. done.
Qed.

Lemma elem_nums (ids : list jstr) ns s :
  Forall2 sidNum ids ns → s ∈ ids → ∃ n, sidNum s n ∧ n ∈ ns.
Proof.
  induction 1 as [|x n ids ns Hx _ IH]; [intros []%elem_of_nil|].
  intros [->|H]%elem_of_cons; [set_solver|]. destruct (IH H) as (m & ? & ?). set_solver.
Qed.

Lemma nums_NoDup (ids : list jstr) ns : Forall2 sidNum ids ns → NoDup ns → NoDup ids.
Proof.
  induction 1 as [|x n ids ns Hx HF IH]; [constructor|]. intros [Hn Hnd]%NoDup_cons.
  constructor; [|auto]. intros Hin. destruct (elem_nums _ _ _ HF Hin) as (m & Hm & ?).
  by rewrite (sidNum_inj _ _ _ Hx Hm) in Hn.
Qed.

(** What a record says, whole: its ids are the numbers from 1, its stream is
    placed, and its Settlements name distinct admitted Submissions. *)
Lemma recorded_facts iid ws :
  Recorded iid ws →
  Forall2 sidNum (admittedOf ws) (seq 1 (length (admittedOf ws)))
  ∧ placed iid (streamOf ws) ∧ NoDup (settledOf ws) ∧ settledOf ws ⊆ admittedOf ws.
Proof.
  induction 1 as [|ws s _ (H1 & H2 & H3 & H4) Hs|ws e s _ (H1 & H2 & H3 & H4) He Hb Hin Hni
    |ws e _ (H1 & H2 & H3 & H4) He Hb|ws m _ IH|ws s _ IH].
  - cbn. split_and!; [constructor|by intros i e|constructor|set_solver].
  - unfold settledOf. rewrite admittedOf_app, streamOf_app. simpl. rewrite app_nil_r.
    split_and!; try done; [|set_solver].
    rewrite length_app. simpl. rewrite seq_app. apply Forall2_app; [done|].
    simpl. constructor; [|constructor]. done.
  - unfold settledOf. rewrite admittedOf_app, streamOf_app. simpl. rewrite app_nil_r.
    rewrite settlementsOf_app. unfold settlementsOf at 2 4. simpl. rewrite Hb. simpl.
    rewrite fmap_app. simpl. split_and!; [done|by apply placed_snoc| |set_solver].
    apply NoDup_app. split_and!; [done| |apply NoDup_singleton].
    intros x Hx Hx'. apply list_elem_of_singleton in Hx'. by subst.
  - unfold settledOf. rewrite admittedOf_app, streamOf_app. simpl. rewrite app_nil_r.
    rewrite settlementsOf_app. unfold settlementsOf at 2 4. simpl.
    destruct (body e) eqn:Eb; [|by destruct (Hb settlement)|]; simpl; rewrite app_nil_r;
      split_and!; try done; by apply placed_snoc.
  - unfold settledOf. rewrite admittedOf_app, streamOf_app. simpl. by rewrite !app_nil_r.
  - unfold settledOf. rewrite admittedOf_app, streamOf_app. simpl. by rewrite !app_nil_r.
Qed.

Section proofs.
Context {AdmissionRequest : Type}.
Abbreviation Conv := (@Conv AdmissionRequest).

(** ** The invariant *)

(** The stream, the Settlements, the queue and the record agree. *)
Record Core (c : Conv) : Prop := {
  core_placed : placed (instanceId c) (log c);
  core_settlements : settlements c = settlementsOf (log c);
  core_records : ∀ r rec, records c !! r = Some rec → sidNum (submissionId rec) r;
  core_bound : ∀ r rec, records c !! r = Some rec → (r <= admitted c)%nat;
  core_queue : ∀ r, r ∈ queue c ↔ ∃ rec, records c !! r = Some rec ∧ settled rec = false;
  core_fifo : StronglySorted lt (queue c);
  core_ids : ∃ ns, Forall2 sidNum (s_submissionId <$> settlements c) ns
                 ∧ ns ++ queue c ≡ₚ seq 1 (admitted c);
  core_waiters : ∀ w off, (w, off) ∈ waiters c → events (updatesView (log c) off) = [];
  core_writes : hasRecorder c = true →
    Recorded (instanceId c) (writes c) ∧ streamOf (writes c) = log c
    ∧ length (admittedOf (writes c)) = admitted c
    ∧ ∀ r rec, records c !! r = Some rec → submissionId rec ∈ admittedOf (writes c);
}.

(** What is known of the active object that holds the seat. *)
Definition holds (c : Conv) (a : nat) : Prop :=
  ∃ act rec, actives c !! a = Some act ∧ records c !! record act = Some rec
    ∧ (running act = true ∨ waiting act = true)
    ∧ (settled rec = false → head (queue c) = Some (record act))
    ∧ (waiting act = true → settled rec = false)
    ∧ cutAborted act = false.

(** Which run holds the seat: nobody only when nothing is queued; a run or a
    wait that lost the seat has a settled record; nobody waits for an idle
    conversation to become idle. *)
Record Seated (c : Conv) : Prop := {
  seat_free : active c = None → queue c = [];
  seat_held : ∀ a, active c = Some a → holds c a;
  seat_others : ∀ a act, actives c !! a = Some act → active c ≠ Some a →
    running act = true ∨ waiting act = true → isSettled (record act) c = true;
  seat_idle : busy c = false → idleWaiters c = [];
}.

(** A stopping Harness keeps no Turn that waits only on its pick. *)
Definition NoPickWait (c : Conv) : Prop :=
  ∀ a act, stopping c = true → active c = Some a → actives c !! a = Some act →
    onPickOnly act = false.

Definition Named (c : Conv) : Prop :=
  is_Some (encodeURIComponent (agentName c)) ∧ is_Some (encodeURIComponent (instanceId c)).

Record Inv (c : Conv) : Prop := {
  inv_core : Core c;
  inv_seat : Seated c;
  inv_pick : NoPickWait c;
  inv_named : Named c;
}.

(** ** Removing a record from the queue *)

Lemma remove_first_perm r q : r ∈ q → q ≡ₚ r :: remove_first r q.
Proof.
  induction q as [|x q IH]; [intros []%elem_of_nil|]. simpl. intros [->|H]%elem_of_cons.
  - by rewrite decide_True.
  - destruct (decide (x = r)) as [->|Hne]; [done|].
    rewrite (IH H) at 1. apply Permutation_swap.
Qed.

Lemma remove_first_elem r x q :
  StronglySorted lt q → x ∈ remove_first r q ↔ x ∈ q ∧ x ≠ r.
Proof.
  induction q as [|y q IH]; intros Hs; [set_solver|].
  apply StronglySorted_inv in Hs as [Hs Hy]. rewrite Forall_forall in Hy. simpl.
  destruct (decide (y = r)) as [->|Hne].
  - rewrite elem_of_cons. split; [|naive_solver].
    intros Hx. split; [auto|]. intros ->. specialize (Hy _ Hx). lia.
  - rewrite !elem_of_cons, IH by done. naive_solver.
Qed.

Lemma remove_first_sorted r q : StronglySorted lt q → StronglySorted lt (remove_first r q).
Proof.
  induction q as [|y q IH]; intros Hs; [done|].
  pose proof Hs as Hs'. apply StronglySorted_inv in Hs as [Hs Hy]. simpl.
  destruct (decide (y = r)); [done|]. constructor; [auto|].
  rewrite Forall_forall in *. intros x [Hx _]%remove_first_elem; auto.
Qed.

Lemma remove_first_notin r q : r ∉ q → remove_first r q = q.
Proof.
  induction q as [|y q IH]; [done|]. intros H. simpl.
  destruct (decide (y = r)); [set_solver|]. rewrite IH; set_solver.
Qed.

(** ** Appending to the stream *)

Lemma parseOffset_of_int l n :
  0 <= n <= logLength l → parseOffset l (of_int n) = n.
Proof.
  intros Hn. unfold parseOffset. rewrite parse_int_of_int by lia.
  destruct (Z.ltb_spec n 0); lia.
Qed.

Lemma parseOffset_bounds l off : 0 <= parseOffset l off <= logLength l.
Proof.
  unfold parseOffset, logLength. destruct (parse_int off) as [n|]; [|lia].
  destruct (Z.ltb_spec n 0); lia.
Qed.

Lemma core_event (c : Conv) b :
  Core c → (∀ s, b ≠ SubmissionSettled s) → Core (append b c).
Proof.
  intros [] Hb. constructor; cbn; try done.
  - apply placed_snoc; [done|by split].
  - rewrite settlementsOf_app. unfold settlementsOf at 2. simpl.
    destruct b; [| by destruct (Hb settlement) |]; by rewrite app_nil_r.
  - set_solver.
  - intros Hr. rewrite Hr. destruct (core_writes0 Hr) as (H1 & H2 & H3 & H4).
    rewrite streamOf_app, admittedOf_app, H2. cbn. rewrite app_nil_r. split_and!; try done.
    apply rec_event; [done| |done]. rewrite H2. by split.
Qed.

(** A line that is neither an admission nor an event changes nothing else. *)
Lemma core_line (c : Conv) w :
  Core c → (∃ m, w = WSaid m) ∨ (∃ s, w = WOver s) → Core (write w c).
Proof.
  intros [] Hw. constructor; cbn; try done.
  intros Hr. rewrite Hr. destruct (core_writes0 Hr) as (H1 & H2 & H3 & H4).
  rewrite streamOf_app, admittedOf_app.
  destruct Hw as [[m ->]|[s ->]]; cbn; rewrite !app_nil_r; split_and!; try done;
    by constructor.
Qed.

(** The number of a queued record is no number of a Settlement. *)
Lemma core_unsettled_fresh (c : Conv) r rec :
  Core c → records c !! r = Some rec → settled rec = false →
  submissionId rec ∉ s_submissionId <$> settlements c.
Proof.
  intros [] Hrec Hs Hin. destruct core_ids0 as (ns & HF & Hp).
  destruct (elem_nums _ _ _ HF Hin) as (n & Hn & Hnin).
  rewrite (sidNum_inj _ _ _ Hn (core_records0 _ _ Hrec)) in Hnin.
  assert (NoDup (ns ++ queue c)) as Hnd by (rewrite Hp; apply NoDup_seq).
  apply NoDup_app in Hnd as (_ & Hd & _). apply (Hd r Hnin). apply core_queue0. eauto.
Qed.

Lemma core_settle (c : Conv) r o e : Core c → Core (settle r o e c).
Proof.
  intros HC. unfold settle. destruct (records c !! r) as [rec|] eqn:Hrec; [|done].
  destruct (settled rec) eqn:Hs; [done|].
  pose proof (core_unsettled_fresh c r rec HC Hrec Hs) as Hfresh. destruct HC.
  assert (r ∈ queue c) as Hq by (apply core_queue0; eauto).
  constructor; cbn; try done.
  - apply placed_snoc; [done|by split].
  - rewrite settlementsOf_app, core_settlements0. done.
  - intros x xrec. rewrite lookup_insert_Some. intros [[<- <-]|[_ Hx]]; cbn; eauto.
  - intros x xrec. rewrite lookup_insert_Some. intros [[<- <-]|[_ Hx]]; cbn; eauto.
  - intros x. rewrite remove_first_elem, core_queue0 by done. setoid_rewrite lookup_insert_Some.
    split; [naive_solver|]. intros (xrec & [[<- <-]|[? ?]] & ?); [done|]. split; eauto.
  - by apply remove_first_sorted.
  - destruct core_ids0 as (ns & HF & Hp). exists (ns ++ [r]). rewrite fmap_app. split.
    + apply Forall2_app; [done|]. constructor; [cbn; eauto|constructor].
    + rewrite <- Hp, <- app_assoc. f_equiv. simpl. symmetry. by apply remove_first_perm.
  - set_solver.
  - intros Hr. rewrite Hr. destruct (core_writes0 Hr) as (H1 & H2 & H3 & H4).
    rewrite streamOf_app, admittedOf_app, H2. cbn. rewrite app_nil_r. split_and!; try done.
    + eapply rec_settled; [done|rewrite H2; by split|done|cbn; eauto|].
      cbn. unfold settledOf. by rewrite H2, <- core_settlements0.
    + intros x xrec. rewrite lookup_insert_Some. intros [[<- <-]|[_ Hx]]; cbn; eauto.
Qed.

Lemma core_settleAll (c : Conv) rs o e : Core c → Core (settleAll rs o e c).
Proof. revert c. induction rs; simpl; auto using core_settle. Qed.

(** What [settle] leaves as it is. *)
Lemma settle_frame (c : Conv) r o e :
  let c' := settle r o e c in
  agentName c' = agentName c ∧ instanceId c' = instanceId c ∧ active c' = active c
  ∧ actives c' = actives c ∧ stopping c' = stopping c ∧ admitted c' = admitted c
  ∧ idleWaiters c' = idleWaiters c ∧ idleResolved c' = idleResolved c
  ∧ hasRecorder c' = hasRecorder c.
Proof. unfold settle. split_match; done. Qed.

Lemma settle_queue (c : Conv) r o e : Core c → queue (settle r o e c) = remove_first r (queue c).
Proof.
  intros []. unfold settle. destruct (records c !! r) as [rec|] eqn:Hrec; [destruct (settled rec) eqn:Hs|];
    [| reflexivity |]; symmetry; apply remove_first_notin; rewrite core_queue0;
    intros (rec' & ? & ?); congruence.
Qed.

(** A record after [settle]: the settled one is marked, the others are as they
    were. *)
Lemma settle_records (c : Conv) r o e x :
  records (settle r o e c) !! x
  = (if decide (x = r)
     then λ rec, mkRecord (submissionId rec) (submission rec) true (usage rec)
     else id) <$> records c !! x.
Proof.
  unfold settle. destruct (decide (x = r)) as [->|Hne].
  - destruct (records c !! r) as [rec|] eqn:Hrec; [|by rewrite Hrec].
    destruct (settled rec) eqn:Hs; [|cbn; by rewrite lookup_insert_eq].
    rewrite Hrec. cbn. destruct rec; cbn in *. by subst.
  - rewrite option_fmap_id. destruct (records c !! r) as [rec|]; [|done].
    destruct (settled rec); [done|]. cbn. by rewrite lookup_insert_ne.
Qed.

(** ** Frames *)

Lemma core_frame (c c' : Conv) :
  instanceId c' = instanceId c → hasRecorder c' = hasRecorder c → queue c' = queue c →
  records c' = records c → log c' = log c → settlements c' = settlements c →
  waiters c' = waiters c → writes c' = writes c → admitted c' = admitted c →
  Core c → Core c'.
Proof.
  intros E1 E2 E3 E4 E5 E6 E7 E8 E9 []. constructor; rewrite ?E1, ?E2, ?E3, ?E4, ?E5, ?E6, ?E7, ?E8, ?E9; done.
Qed.

Lemma core_pump (c : Conv) : Core c → Core (pump c).
Proof. intros H. unfold pump. split_match; try done; by apply (core_frame c). Qed.

Lemma named_pump (c : Conv) : Named c → Named (pump c).
Proof. intros H. unfold pump. split_match; done. Qed.

Lemma core_updActive (c : Conv) a f : Core c → Core (updActive a f c).
Proof. by apply core_frame. Qed.

Lemma core_set_active (c : Conv) a : Core c → Core (set_active a c).
Proof. by apply core_frame. Qed.

Lemma core_release (c : Conv) a : Core c → Core (release a c).
Proof.
  intros H. unfold release. destruct (bool_decide _).
  - by apply core_pump, core_set_active, core_updActive.
  - by apply core_updActive.
Qed.

(** ** The seat after [pump] *)

Lemma isSettled_settle (c : Conv) r o e x :
  isSettled x c = true → isSettled x (settle r o e c) = true.
Proof.
  unfold isSettled. rewrite settle_records. destruct (records c !! x); [|done].
  simpl. by destruct (decide (x = r)).
Qed.

Lemma settle_isSettled (c : Conv) r o e :
  is_Some (records c !! r) → isSettled r (settle r o e c) = true.
Proof. intros [rec Hr]. unfold isSettled. by rewrite settle_records, Hr, decide_True. Qed.

Lemma seated_pump (c : Conv) :
  Core c → active c = None →
  (∀ a act, actives c !! a = Some act → running act = true ∨ waiting act = true →
     isSettled (record act) c = true) →
  Seated (pump c) ∧ NoPickWait (pump c).
Proof.
  intros HC Ha Ho. unfold pump. rewrite Ha. destruct (queue c) as [|r q] eqn:Hq.
  - split; [constructor; cbn; rewrite ?Ha; try done; eauto|].
    intros a act _. cbn. by rewrite Ha.
  - destruct (core_queue _ HC r) as [[rec [Hr Hs]] _]; [rewrite Hq; set_solver|].
    split; [constructor; cbn; try done|].
    + intros a [= <-]. exists (mkActive r false false false false true), rec. cbn.
      rewrite lookup_app_r, Nat.sub_diag by lia. rewrite Hq. by split_and!; auto.
    + intros a act. rewrite lookup_app_Some. intros [Hl|[Hge Hl]] Hne; [eauto|].
      destruct (a - length (actives c))%nat eqn:E; [|done]. exfalso. apply Hne. f_equal. lia.
    + intros a act _ [= <-]. cbn. rewrite lookup_app_r, Nat.sub_diag by lia.
      intros [= <-]. done.
Qed.

(** The seat is given up by [a], whose record is settled. *)
Lemma seated_leave (c : Conv) a :
  Core c → active c = Some a →
  (∀ b act, actives c !! b = Some act → b ≠ a → running act = true ∨ waiting act = true →
     isSettled (record act) c = true) →
  (∀ act, actives c !! a = Some act → running act = true ∨ waiting act = true →
     isSettled (record act) c = true) →
  Seated (pump (set_active None c)) ∧ NoPickWait (pump (set_active None c)).
Proof.
  intros HC Ha Ho Hs. apply seated_pump; [by apply core_set_active|done|].
  intros b act Hb Hrw. cbn in Hb. destruct (decide (b = a)) as [->|Hne].
  - by apply (Hs act).
  - by apply (Ho b act).
Qed.

(** ** Operations that only append *)

Lemma seated_frame (c c' : Conv) :
  active c' = active c → queue c' = queue c → actives c' = actives c →
  records c' = records c → idleWaiters c' = idleWaiters c →
  Seated c → Seated c'.
Proof.
  intros E1 E2 E3 E4 E5 []. constructor; unfold holds, isSettled, busy in *;
    rewrite ?E1, ?E2, ?E3, ?E4, ?E5; done.
Qed.

Lemma pick_frame (c c' : Conv) :
  active c' = active c → actives c' = actives c → stopping c' = stopping c →
  NoPickWait c → NoPickWait c'.
Proof. intros E1 E2 E3 H. unfold NoPickWait in *. by rewrite E1, E2, E3. Qed.

Lemma inv_append (c c' : Conv) :
  Core c' → active c' = active c → queue c' = queue c → actives c' = actives c →
  records c' = records c → idleWaiters c' = idleWaiters c → stopping c' = stopping c →
  agentName c' = agentName c → instanceId c' = instanceId c → Inv c → Inv c'.
Proof.
  intros HC E1 E2 E3 E4 E5 E6 E7 E8 []. constructor; [done| | |].
  - by apply (seated_frame c).
  - by apply (pick_frame c).
  - unfold Named in *. by rewrite E7, E8.
Qed.

Lemma inv_message (c : Conv) m : Inv c → Inv (appendMessage m c).
Proof.
  intros H. apply (inv_append c); try reflexivity; [|done].
  apply core_event; [|done].
  apply (core_frame (write (WSaid m) c)); try reflexivity.
  apply core_line; [apply H|eauto].
Qed.

Lemma inv_memory (c : Conv) i p l : Inv c → Inv (reportMemoryLimit i p l c).1.
Proof.
  intros H. unfold reportMemoryLimit. split_match; try done.
  apply (inv_append c); try reflexivity; [|done]. apply core_event; [apply H|done].
Qed.

Lemma inv_wait (c : Conv) w off : Inv c → Inv (waitForEvent w off c).
Proof.
  intros H. unfold waitForEvent. destruct (events _) as [|e es] eqn:He.
  - apply (inv_append c); try reflexivity; [|done].
    destruct (inv_core _ H). constructor; cbn; try done.
    intros w' off' [Hin|Hin]%elem_of_app; [by apply (core_waiters0 w')|].
    apply list_elem_of_singleton in Hin. by simplify_eq.
  - apply (inv_append c); try reflexivity; [|done]. by apply (core_frame c), H.
Qed.

Lemma inv_timeout (c : Conv) w : Inv c → Inv (waitTimeout w c).
Proof.
  intros H. unfold waitTimeout. destruct (list_find _ _) as [[i [w' off]]|]; [|done].
  apply (inv_append c); try reflexivity; [|done].
  destruct (inv_core _ H). constructor; cbn; try done.
  intros x off' Hin. apply (core_waiters0 x). apply list_elem_of_lookup in Hin as [j Hj].
  apply list_elem_of_lookup. destruct (decide (j < i)%nat).
  - rewrite list_lookup_delete_lt in Hj by done. eauto.
  - rewrite list_lookup_delete_ge in Hj by lia. eauto.
Qed.

(** ** Idle, drain, and the cut *)

Lemma inv_idle (c : Conv) w : Inv c → Inv (idle w c).
Proof.
  intros []. unfold idle. destruct (busy c) eqn:Hb.
  - constructor; [by apply (core_frame c)| | by apply (pick_frame c)|done].
    destruct inv_seat0. constructor; cbn; try done.
    unfold busy in *. cbn. intros Hf. rewrite Hf in Hb. done.
  - constructor; [by apply (core_frame c)|by apply (seated_frame c)|by apply (pick_frame c)|done].
Qed.

Lemma settleAll_frame (c : Conv) rs o e :
  let c' := settleAll rs o e c in
  active c' = active c ∧ actives c' = actives c ∧ agentName c' = agentName c
  ∧ instanceId c' = instanceId c ∧ stopping c' = stopping c ∧ admitted c' = admitted c.
Proof.
  revert c. induction rs as [|r rs IH]; intros c; [done|]. simpl.
  destruct (IH (settle r o e c)) as (-> & -> & -> & -> & -> & ->).
  destruct (settle_frame c r o e) as (-> & -> & -> & -> & -> & -> & _). done.
Qed.

Lemma settleAll_settled (c : Conv) rs o e x :
  isSettled x c = true ∨ (x ∈ rs ∧ is_Some (records c !! x)) → isSettled x (settleAll rs o e c) = true.
Proof.
  revert c. induction rs as [|r rs IH]; intros c; simpl; [intros [?|[?%elem_of_nil _]]; done|].
  intros H. apply IH. destruct H as [H|[[->|H]%elem_of_cons Hr]].
  - left. by apply isSettled_settle.
  - left. by apply settle_isSettled.
  - right. split; [done|]. rewrite settle_records. by apply fmap_is_Some.
Qed.

Lemma settleAll_queue (c : Conv) rs o e x :
  Core c → x ∈ queue (settleAll rs o e c) ↔ x ∈ queue c ∧ x ∉ rs.
Proof.
  revert c. induction rs as [|r rs IH]; intros c HC; [set_solver|]. simpl.
  rewrite IH by by apply core_settle. rewrite settle_queue by done.
  rewrite remove_first_elem by apply HC. set_solver.
Qed.

(** The cut keeps the invariant, also when the object was just told to stop or
    its run just came to wait on its pick. *)
Lemma inv_cut (c : Conv) : Core c → Seated c → Named c → Inv (cutIfOnPick c).
Proof.
  intros HC HS HN. unfold cutIfOnPick. destruct (active c) as [a|] eqn:Ha.
  2: { constructor; try done. intros a act _. congruence. }
  destruct (seat_held _ HS a Ha) as (act & rec & Hact & Hrec & Hrw & Hh & Hw & Hcut). rewrite Hact.
  destruct (negb (stopping c) || negb (onPickOnly act) || cutAborted act) eqn:Ec.
  - constructor; try done. intros b x Hst Hb Hx. simplify_eq.
    rewrite Hst, Hcut in Ec. simpl in Ec. rewrite orb_false_r in Ec. by apply negb_true_iff in Ec.
  - set (c1 := updActive _ _ _). set (err := Some _).
    pose proof (core_settleAll c1 (record act :: queue c) failed err (core_updActive _ _ _ HC)) as HC2.
    destruct (settleAll_frame c1 (record act :: queue c) failed err) as (Ea & Eas & En & Ei & _).
    set (c2 := settleAll _ _ _ c1) in *.
    destruct (seated_leave c2 a) as [H1 H2]; [done|by rewrite Ea| | |].
    + intros b x Hb Hne Hrw'. rewrite Eas in Hb. cbn in Hb.
      rewrite list_lookup_alter_ne in Hb by done.
      apply settleAll_settled. left. apply (seat_others _ HS b); [done|congruence|done].
    + intros x Hx _. rewrite Eas in Hx. cbn in Hx. rewrite list_lookup_alter_eq, Hact in Hx.
      injection Hx as <-. apply (settleAll_settled c1). right. cbn [record].
      split; [left|]. by exists rec.
    + constructor; [by apply core_pump, core_set_active|done|done|].
      apply named_pump. clearbody c2. unfold Named. cbn. by rewrite En, Ei.
Qed.

Lemma inv_drain (c : Conv) w : Inv c → Inv (drain w c).
Proof.
  intros []. apply inv_idle, inv_cut; [by apply (core_frame c)|by apply (seated_frame c)|done].
Qed.

(** ** The seat of a run *)

Lemma holds_alter (c : Conv) a b f :
  (∀ x, record (f x) = record x ∧ cutAborted (f x) = cutAborted x
      ∧ running (f x) = running x ∧ waiting (f x) = waiting x) →
  holds c b → holds (updActive a f c) b.
Proof.
  intros Hf (act & rec & H1 & H2 & H3 & H4 & H5 & H6). unfold holds. cbn.
  destruct (decide (b = a)) as [->|Hne].
  - exists (f act), rec. rewrite list_lookup_alter_eq, H1.
    destruct (Hf act) as (-> & -> & -> & ->). done.
  - exists act, rec. rewrite list_lookup_alter_ne by done. done.
Qed.

(** A change of an active object that keeps its record, its run and its wait
    keeps the seat. *)
Lemma seated_alter (c : Conv) a f :
  (∀ x, record (f x) = record x ∧ cutAborted (f x) = cutAborted x
      ∧ running (f x) = running x ∧ waiting (f x) = waiting x) →
  Seated c → Seated (updActive a f c).
Proof.
  intros Hf []. constructor; cbn; try done.
  - intros b Hb. by apply holds_alter, seat_held0.
  - intros b act Hb Hne Hrw. change (isSettled (record act) c = true).
    destruct (decide (b = a)) as [->|Hn].
    + rewrite list_lookup_alter_eq in Hb. destruct (actives c !! a) as [x|] eqn:Hx; [|done].
      injection Hb as <-. destruct (Hf x) as (-> & _ & E1 & E2). rewrite E1, E2 in Hrw. eauto.
    + rewrite list_lookup_alter_ne in Hb by done. eauto.
Qed.

Lemma inv_seatWaiting (c : Conv) a b : Inv c → Inv (seatWaiting a b c).
Proof.
  intros []. unfold seatWaiting.
  set (f := λ x, mkActive (record x) (signalAborted x) b (cutAborted x) (waiting x) (running x)).
  assert (Seated (updActive a f c)) as HS by by apply seated_alter.
  assert (Core (updActive a f c)) as HC by by apply core_updActive.
  destruct (bool_decide _) eqn:E; [by apply inv_cut|]. zbool.
  constructor; [done|done| |done].
  intros x act Hst Hx Hact. cbn in *.
  rewrite list_lookup_alter_ne in Hact by congruence. eauto.
Qed.

Lemma inv_seatSpent (c : Conv) a u : Inv c → Inv (seatSpent a u c).
Proof.
  intros []. unfold seatSpent. destruct (actives c !! a) as [act|]; [|done].
  set (f := λ rec, mkRecord _ _ _ _).
  assert (∀ r rec, alter f (record act) (records c) !! r = Some rec →
    ∃ rec0, records c !! r = Some rec0 ∧ submissionId rec = submissionId rec0
            ∧ settled rec = settled rec0) as Hinv.
  { intros r rec. destruct (decide (record act = r)) as [->|Hne].
    - rewrite lookup_alter_eq. destruct (records c !! r) as [rec0|]; [|done].
      intros [= <-]. by exists rec0.
    - rewrite lookup_alter_ne by done. eauto. }
  assert (∀ r rec, records c !! r = Some rec → ∃ rec1,
    alter f (record act) (records c) !! r = Some rec1 ∧ submissionId rec1 = submissionId rec
            ∧ settled rec1 = settled rec) as Hfwd.
  { intros r rec Hr. destruct (decide (record act = r)) as [->|Hne].
    - rewrite lookup_alter_eq, Hr. by exists (f rec).
    - rewrite lookup_alter_ne, Hr by done. eauto. }
  constructor; [| |by apply (pick_frame c)|done].
  - destruct inv_core0. constructor; cbn; try done.
    + intros r rec (rec0 & ? & -> & _)%Hinv. eauto.
    + intros r rec (rec0 & ? & _ & _)%Hinv. eauto.
    + intros r. rewrite core_queue0. split.
      * intros (rec & (rec1 & ? & _ & ?)%Hfwd & ?). exists rec1. by split; congruence.
      * intros (rec & (rec0 & ? & _ & ?)%Hinv & ?). exists rec0. by split; congruence.
    + intros Hr. destruct (core_writes0 Hr) as (H1 & H2 & H3 & H4). split_and!; try done.
      intros r rec (rec0 & ? & -> & _)%Hinv. eauto.
  - destruct inv_seat0. constructor; cbn; try done.
    + intros b Hb. destruct (seat_held0 b Hb) as (x & rec & H1 & H2 & H3 & H4 & H5 & H6).
      apply Hfwd in H2 as (rec1 & ? & _ & Hs). exists x, rec1. cbn. rewrite Hs. done.
    + intros b x Hb Hne Hrw. specialize (seat_others0 b x Hb Hne Hrw).
      unfold isSettled in *. cbn. destruct (records c !! record x) as [rec|] eqn:Hr; [|done].
      apply Hfwd in Hr as (rec1 & -> & _ & ->). done.
Qed.

(** ** Admission *)

(** The state after an admission, before [pump]. *)
Definition admitted_state (sub : AdmissionRequest) (random : jstr) (c : Conv) : Conv :=
  let n := S (admitted c) in
  let sid := mkSubmissionId n random in
  let c := write (WAdmitted sid) (set_admitted n c) in
  let c := set_records (<[n := mkRecord sid sub false None]> (records c)) c in
  set_queue (queue c ++ [n]) c.

Lemma admit_state (c : Conv) sub random :
  Named c → (admitSubmission sub random c).1 = pump (admitted_state sub random c).
Proof. intros [[an Ha] [ii Hi]]. unfold admitSubmission. cbn. by rewrite Ha, Hi. Qed.

Lemma core_fresh (c : Conv) : Core c → records c !! S (admitted c) = None.
Proof.
  intros []. destruct (records c !! S (admitted c)) as [rec|] eqn:E; [|done].
  specialize (core_bound0 _ _ E). lia.
Qed.

Lemma core_queue_bound (c : Conv) r : Core c → r ∈ queue c → (r < S (admitted c))%nat.
Proof. intros [] Hr. apply core_queue0 in Hr as (rec & Hr & _). specialize (core_bound0 _ _ Hr). lia. Qed.

Lemma core_admitted (c : Conv) sub random : Core c → Core (admitted_state sub random c).
Proof.
  intros HC. pose proof (core_fresh c HC) as Hf. pose proof (λ r, core_queue_bound c r HC) as Hqb.
  destruct HC. assert (sidNum (mkSubmissionId (S (admitted c)) random) (S (admitted c))) as Hsid
    by by exists random.
  constructor; cbn; try done.
  - intros r rec. rewrite lookup_insert_Some. intros [[<- <-]|[_ ?]]; eauto.
  - intros r rec. rewrite lookup_insert_Some. intros [[<- <-]|[_ Hr]]; [done|].
    specialize (core_bound0 _ _ Hr). lia.
  - intros r. rewrite elem_of_app, core_queue0, list_elem_of_singleton.
    setoid_rewrite lookup_insert_Some. split.
    + intros [(rec & Hr & Hs)| ->]; [|by eexists; split; [left|]].
      exists rec. split; [|done]. right. split; [|done]. intros <-. congruence.
    + intros (rec & [[<- <-]|[_ ?]] & ?); eauto.
  - apply sorted_snoc; [done|]. by apply Forall_forall.
  - destruct core_ids0 as (ns & HF & Hp). exists ns. split; [done|].
    rewrite app_assoc, Hp. change (1%nat :: seq 2 (admitted c)) with (seq 1 (S (admitted c))).
    by rewrite seq_S.
  - intros Hr. rewrite Hr. destruct (core_writes0 Hr) as (H1 & H2 & H3 & H4).
    rewrite streamOf_app, admittedOf_app. cbn. rewrite app_nil_r. split_and!; [|done| |].
    + constructor; [done|]. by rewrite H3.
    + rewrite length_app. simpl. lia.
    + intros r rec. rewrite lookup_insert_Some. intros [[<- <-]|[_ ?]]; set_solver.
Qed.

Lemma seated_admitted (c : Conv) sub random a :
  Core c → Seated c → active c = Some a → Seated (admitted_state sub random c).
Proof.
  intros HC HS Ha. pose proof (core_fresh c HC) as Hf.
  assert (∀ r rec, records c !! r = Some rec →
    records (admitted_state sub random c) !! r = Some rec) as Hk.
  { intros r rec Hr. cbn. rewrite lookup_insert_ne; [done|]. intros <-. congruence. }
  destruct HS. constructor.
  - cbn. congruence.
  - intros b Hb. destruct (seat_held0 b Hb) as (act & rec & H1 & H2 & H3 & H4 & H5 & H6).
    exists act, rec. split_and!; try done; [by apply Hk|].
    intros Hs. cbn. specialize (H4 Hs). destruct (queue c); [done|]. done.
  - intros b act Hb Hne Hrw. specialize (seat_others0 b act Hb Hne Hrw).
    unfold isSettled in *. destruct (records c !! record act) as [rec|] eqn:E; [|done].
    by rewrite (Hk _ _ E).
  - unfold busy. cbn. by rewrite Ha.
Qed.

Lemma pump_held (c : Conv) a : active c = Some a → pump c = c.
Proof. intros H. unfold pump. by rewrite H. Qed.

Lemma others_admitted (c : Conv) sub random b act :
  Core c → isSettled (record act) c = true → actives c !! b = Some act →
  isSettled (record act) (admitted_state sub random c) = true.
Proof.
  intros HC Hs _. pose proof (core_fresh c HC) as Hf. unfold isSettled in *. cbn.
  destruct (records c !! record act) as [rec|] eqn:E; [|done].
  rewrite lookup_insert_ne; [by rewrite E|]. intros E'. rewrite E' in Hf. congruence.
Qed.

Lemma inv_admit (c : Conv) sub random : Inv c → Inv (admitSubmission sub random c).1.
Proof.
  intros [HC HS HP HN]. rewrite admit_state by done.
  pose proof (core_admitted c sub random HC) as HC'.
  destruct (active c) as [a|] eqn:Ha.
  - rewrite (pump_held _ a) by done.
    constructor; [done|by eapply seated_admitted|by apply (pick_frame c)|done].
  - destruct (seated_pump (admitted_state sub random c)) as [H1 H2]; [done|done| |].
    + intros b act Hb Hrw. apply (others_admitted c sub random b); try done.
      apply (seat_others _ HS b); [done|congruence|done].
    + constructor; [by apply core_pump|done|done|by apply named_pump].
Qed.

(** ** The abort sweep *)

(** The sweep settles one record as [settle] does. *)
Lemma sweepOne_settle (c : Conv) cause sid act r :
  ∃ o e, sweepOne cause sid act c r = settle r o e c.
Proof.
  unfold sweepOne. destruct (records c !! r) as [rec|] eqn:E.
  - destruct (sweepOutcome _ _ _ _ _) as [o e]. eauto.
  - exists aborted, None. unfold settle. by rewrite E.
Qed.

(** Emptying the queue first, as [splice(0)] does, changes nothing else. *)
Lemma sweepOne_emptied (c : Conv) cause sid act r :
  sweepOne cause sid act (set_queue [] c) r = set_queue [] (sweepOne cause sid act c r).
Proof.
  unfold sweepOne, settle. cbn. destruct (records c !! r) as [rec|]; [|done].
  destruct (sweepOutcome _ _ _ _ _) as [o e]. by destruct (settled rec).
Qed.

Lemma sweep_emptied (c : Conv) cause sid act rs :
  foldl (sweepOne cause sid act) (set_queue [] c) rs
  = set_queue [] (foldl (sweepOne cause sid act) c rs).
Proof.
  revert c. induction rs as [|r rs IH]; intros c; [done|]. simpl.
  by rewrite sweepOne_emptied, IH.
Qed.

Lemma set_queue_id (c : Conv) : queue c = [] → set_queue [] c = c.
Proof. destruct c. cbn. by intros ->. Qed.

(** The sweep over records of the queue: what it settles and what it keeps. *)
Lemma sweep_facts (c : Conv) cause sid act rs :
  Core c →
  let c' := foldl (sweepOne cause sid act) c rs in
  Core c' ∧ active c' = active c ∧ actives c' = actives c ∧ agentName c' = agentName c
  ∧ instanceId c' = instanceId c ∧ stopping c' = stopping c ∧ idleWaiters c' = idleWaiters c
  ∧ admitted c' = admitted c
  ∧ (∀ x, x ∈ queue c' ↔ x ∈ queue c ∧ x ∉ rs)
  ∧ (∀ x, isSettled x c = true → isSettled x c' = true)
  ∧ (∀ x, x ∈ rs → is_Some (records c !! x) → isSettled x c' = true).
Proof.
  revert c. induction rs as [|r rs IH]; intros c HC; simpl.
  { split_and!; try done; [set_solver|]. intros x Hx%elem_of_nil. done. }
  destruct (sweepOne_settle c cause sid act r) as (o & e & ->).
  destruct (IH (settle r o e c)) as (H1 & -> & -> & -> & -> & -> & -> & -> & Hq & Hk & Hs);
    [by apply core_settle|].
  destruct (settle_frame c r o e) as (-> & -> & -> & -> & -> & -> & -> & _).
  split_and!; try done.
  - intros x. rewrite Hq, settle_queue, remove_first_elem by (done || apply HC). set_solver.
  - intros x Hx. by apply Hk, isSettled_settle.
  - intros x [->|Hx]%elem_of_cons Hr; [by apply Hk, settle_isSettled|].
    apply Hs; [done|]. rewrite settle_records. by apply fmap_is_Some.
Qed.

Lemma elem_of_none (q : list nat) : (∀ x, x ∉ q) → q = [].
Proof. destruct q as [|x q]; [done|]. intros H. destruct (H x). left. Qed.

(** The state when every queued record is settled. *)
Definition swept_state (cause : option AbortCause) (sid : option jstr) (c : Conv) : Conv :=
  let act := active c ≫= λ a, actives c !! a in
  foldl (sweepOne cause sid act)
    (match active c with
     | Some a => updActive a (λ x, mkActive (record x) true (onPickOnly x) (cutAborted x) (waiting x) (running x)) c
     | None => c
     end) (queue c).

Definition aborting (x : Active) : Active :=
  mkActive (record x) true (onPickOnly x) (cutAborted x) (waiting x) (running x).

Lemma swept_eq (c : Conv) cause sid a :
  active c = Some a →
  swept_state cause sid c
  = foldl (sweepOne cause sid (actives c !! a)) (updActive a aborting c) (queue c).
Proof. intros Ha. unfold swept_state. by rewrite Ha. Qed.

Lemma swept_queue (c : Conv) cause sid : Core c → queue (swept_state cause sid c) = [].
Proof.
  intros HC. apply elem_of_none. intros x Hx. unfold swept_state in Hx.
  destruct (active c) as [a|].
  - apply sweep_facts in Hx; [|by apply core_updActive]. cbn in Hx. naive_solver.
  - apply sweep_facts in Hx; [|done]. naive_solver.
Qed.

Lemma abort_state (c : Conv) cause sid a :
  Core c → active c = Some a → queue c ≠ [] →
  (abort cause sid c).1
  = match actives c !! a with
    | Some x => if waiting x then release a (swept_state cause sid c) else swept_state cause sid c
    | None => swept_state cause sid c
    end.
Proof.
  intros HC Ha Hq. unfold abort. destruct (queue c) as [|r q] eqn:Eq; [done|]. cbn -[foldl].
  rewrite Ha. cbn -[foldl].
  change (updActive a _ (set_queue [] c)) with (set_queue [] (updActive a aborting c)).
  rewrite sweep_emptied. rewrite <- Eq, <- (swept_eq c cause sid a) by done.
  rewrite set_queue_id by by apply swept_queue.
  assert (active (swept_state cause sid c) = Some a) as ->.
  { rewrite (swept_eq _ _ _ a) by done. etransitivity; [|exact Ha].
    apply (sweep_facts (updActive a aborting c)). by apply core_updActive. }
  by destruct (actives c !! a).
Qed.

(** After the sweep nothing is queued and the seat's record is settled. *)
Lemma swept_facts (c : Conv) cause sid a :
  Inv c → active c = Some a →
  let c' := swept_state cause sid c in
  Core c' ∧ active c' = Some a ∧ queue c' = [] ∧ Named c' ∧ stopping c' = stopping c
  ∧ ∃ act rec, actives c !! a = Some act
    ∧ actives c' !! a = Some (aborting act)
    ∧ records c' !! record act = Some rec ∧ settled rec = true
    ∧ (running act = true ∨ waiting act = true) ∧ cutAborted act = false
    ∧ ∀ b x, actives c' !! b = Some x → b ≠ a → running x = true ∨ waiting x = true →
        isSettled (record x) c' = true.
Proof.
  intros [HC HS HP HN] Ha c'. pose proof (swept_queue c cause sid HC) as Hq0.
  subst c'. rewrite (swept_eq _ _ _ a) in * by done.
  destruct (sweep_facts (updActive a aborting c) cause sid (actives c !! a) (queue c))
    as (H1 & H2 & H3 & H4 & H5 & H6 & _ & _ & Hq & Hk & Hs); [by apply core_updActive|].
  set (c' := foldl _ _ _) in *.
  destruct (seat_held _ HS a Ha) as (act & rec & Hact & Hrec & Hrw & Hh & Hw & Hcut).
  assert (isSettled (record act) c' = true) as Hset.
  { destruct (settled rec) eqn:Es.
    - apply Hk. unfold isSettled. cbn. by rewrite Hrec.
    - apply Hs; [|cbn; eauto]. specialize (Hh eq_refl). destruct (queue c); [done|].
      simplify_eq/=. left. }
  clearbody c'. split_and!; [done|by rewrite H2|done|unfold Named; by rewrite H4, H5|by rewrite H6|].
  unfold isSettled in Hset. destruct (records c' !! record act) as [rec'|] eqn:Er; [|done].
  exists act, rec'. rewrite H3. cbn. rewrite list_lookup_alter_eq, Hact. split_and!; try done.
  intros b x Hb Hne Hrw'. rewrite list_lookup_alter_ne in Hb by done.
  apply Hk. change (isSettled (record x) c = true). apply (seat_others _ HS b); [done|congruence|done].
Qed.

Lemma inv_abort (c : Conv) cause sid : Inv c → Inv (abort cause sid c).1.
Proof.
  intros HI. pose proof HI as [HC HS HP HN].
  destruct (queue c) as [|r q] eqn:Hq; [unfold abort; by rewrite Hq|].
  destruct (active c) as [a|] eqn:Ha; [|by rewrite (seat_free _ HS Ha) in Hq].
  rewrite (abort_state c cause sid a) by (congruence || done).
  destruct (swept_facts c cause sid a HI Ha)
    as (H1 & H2 & H3 & H4 & H5 & act & rec & Hact & Hact' & Hrec & Hs & Hrw & Hcut & Ho).
  rewrite Hact. set (c' := swept_state _ _ _) in *. clearbody c'.
  destruct (waiting act) eqn:Hw.
  - unfold release. set (f := λ x, mkActive _ _ _ _ false _).
    rewrite bool_decide_eq_true_2 by done.
    destruct (seated_leave (updActive a f c') a) as [S1 S2]; [by apply core_updActive|done| | |].
    + intros b x Hb Hne Hrw'. cbn in Hb. rewrite list_lookup_alter_ne in Hb by done.
      by apply (Ho b x).
    + intros x Hx _. cbn in Hx. rewrite list_lookup_alter_eq, Hact' in Hx. injection Hx as <-.
      unfold isSettled. cbn. by rewrite Hrec.
    + constructor; [by apply core_pump, core_set_active, core_updActive|done|done|].
      by apply named_pump.
  - destruct Hrw as [Hrun|]; [|congruence]. constructor; [done| | |done].
    + constructor; [congruence| | |unfold busy; by rewrite H2].
      * intros b Hb. rewrite H2 in Hb. injection Hb as <-.
        exists (aborting act), rec. cbn. rewrite Hs, Hw. split_and!; try done. auto.
      * intros b x Hb Hne Hrw'. apply (Ho b x); [done|congruence|done].
    + intros b x Hst Hb Hx. rewrite H2 in Hb. injection Hb as <-. rewrite Hact' in Hx. injection Hx as <-.
      cbn. apply (HP a act); [by rewrite <- H5|done|done].
Qed.

(** ** The end of a run and of the sweep's wait *)

Lemma settle_settled (c : Conv) r o e : isSettled r c = true → settle r o e c = c.
Proof.
  unfold isSettled, settle. destruct (records c !! r) as [rec|]; [|done]. by intros ->.
Qed.

(** An object without the seat may end its run or its wait. *)
Lemma inv_other (c : Conv) a f :
  (∀ x, record (f x) = record x ∧ (running (f x) = true → running x = true)
      ∧ (waiting (f x) = true → waiting x = true)) →
  active c ≠ Some a → Inv c → Inv (updActive a f c).
Proof.
  intros Hf Hne [HC HS HP HN]. constructor; [by apply core_updActive| | |done].
  - destruct HS. constructor; cbn; try done.
    + intros b Hb. destruct (seat_held0 b Hb) as (act & rec & H1 & H2).
      exists act, rec. cbn. rewrite list_lookup_alter_ne by congruence. done.
    + intros b x Hb Hnb Hrw. change (isSettled (record x) c = true).
      destruct (decide (b = a)) as [->|Hn]; [|rewrite list_lookup_alter_ne in Hb by done; eauto].
      rewrite list_lookup_alter_eq in Hb. destruct (actives c !! a) as [y|] eqn:Hy; [|done].
      injection Hb as <-. destruct (Hf y) as (-> & ? & ?). apply (seat_others0 a y); naive_solver.
  - intros b x Hst Hb Hx. cbn in *. rewrite list_lookup_alter_ne in Hx by congruence. eauto.
Qed.

(** The seat's holder settles, or not, and gives the seat up. *)
Lemma inv_leave (c : Conv) a act r o e f :
  Inv c → active c = Some a → actives c !! a = Some act → record act = r →
  record (f act) = r →
  Inv (pump (set_active None (settle r o e (updActive a f c)))).
Proof.
  intros [HC HS HP HN] Ha Hact Hr Hf.
  destruct (seat_held _ HS a Ha) as (act' & rec & Hact' & Hrec & _).
  rewrite Hact in Hact'. injection Hact' as <-. rewrite Hr in Hrec.
  pose proof (core_settle (updActive a f c) r o e (core_updActive _ _ _ HC)) as HC'.
  destruct (settle_frame (updActive a f c) r o e) as (En & Ei & Ea & Eas & _).
  assert (∀ x, isSettled x c = true → isSettled x (settle r o e (updActive a f c)) = true) as Hk.
  { intros x Hx. by apply isSettled_settle. }
  assert (isSettled r (settle r o e (updActive a f c)) = true) as Hs.
  { apply settle_isSettled. cbn. eauto. }
  set (c' := settle _ _ _ _) in *. clearbody c'.
  destruct (seated_leave c' a) as [S1 S2]; [done|by rewrite Ea| | |].
  - intros b x Hb Hne Hrw. rewrite Eas in Hb. cbn in Hb. rewrite list_lookup_alter_ne in Hb by done.
    apply Hk. apply (seat_others _ HS b); [done|congruence|done].
  - intros x Hx _. rewrite Eas in Hx. cbn in Hx. rewrite list_lookup_alter_eq, Hact in Hx.
    injection Hx as <-. by rewrite Hf.
  - constructor; [by apply core_pump, core_set_active|done|done|].
    apply named_pump. unfold Named. cbn. by rewrite En, Ei.
Qed.

Lemma settle_updActive (c : Conv) r o e a f :
  settle r o e (updActive a f c) = updActive a f (settle r o e c).
Proof.
  unfold settle. cbn. destruct (records c !! r) as [rec|]; [|done]. by destruct (settled rec).
Qed.

Lemma updActive_settle_active (c : Conv) r o e a f :
  active (updActive a f (settle r o e c)) = active c.
Proof. apply settle_frame. Qed.

Lemma inv_sweepTimeout (c : Conv) a :
  Inv c → enabled c (OSweepTimeout a) = true → Inv (sweepTimeout a c).
Proof.
  intros HI He. unfold sweepTimeout. cbn in He.
  destruct (actives c !! a) as [act|] eqn:Hact; [|done]. unfold release.
  rewrite updActive_settle_active, <- settle_updActive.
  case_bool_decide as Ha; [by eapply inv_leave|].
  rewrite settle_settled by (apply (seat_others _ (inv_seat _ HI) a act); auto).
  by apply inv_other.
Qed.

(** A run that returned [TURN_OVER] unsettled keeps the seat and waits for the
    sweep. *)
Lemma inv_over (c : Conv) a act rec :
  Inv c → active c = Some a → actives c !! a = Some act →
  records c !! record act = Some rec → settled rec = false →
  Inv (updActive a (λ x, mkActive (record x) (signalAborted x) (onPickOnly x) (cutAborted x) true (running x))
        (write (WOver (submissionId rec))
          (updActive a (λ x, mkActive (record x) (signalAborted x) (onPickOnly x) (cutAborted x) (waiting x) false) c))).
Proof.
  intros [HC HS HP HN] Ha Hact Hrec Hs. constructor; [| | |done].
  - apply core_updActive, core_line; [by apply core_updActive|eauto].
  - destruct HS. constructor; cbn; try done.
    + intros b Hb. rewrite Ha in Hb. injection Hb as <-.
      destruct (seat_held0 a Ha) as (act' & rec' & H1 & H2 & _ & H4 & _ & H6). simplify_eq.
      eexists _, rec. cbn. rewrite !list_lookup_alter_eq, Hact. cbn.
      split_and!; try done; auto.
    + intros b x Hb Hne Hrw. change (isSettled (record x) c = true).
      rewrite !list_lookup_alter_ne in Hb by congruence. eauto.
  - intros b x Hst Hb Hx. cbn in *. rewrite Ha in Hb. injection Hb as <-.
    rewrite !list_lookup_alter_eq, Hact in Hx. cbn in Hx. injection Hx as <-. cbn. by apply (HP a).
Qed.

Lemma inv_runEnd (c : Conv) a e :
  Inv c → enabled c (ORunEnd a e) = true → Inv (runEnd a e c).
Proof.
  intros HI He. unfold runEnd. cbn in He.
  destruct (actives c !! a) as [act|] eqn:Hact; [|done].
  set (f := λ x, mkActive _ _ _ _ _ false).
  destruct (decide (active c = Some a)) as [Ha|Hne].
  - destruct (seat_held _ (inv_seat _ HI) a Ha) as (act' & rec & H1 & Hrec & _ & _ & Hw & _).
    simplify_eq.
    assert (∀ o er, Inv (pump (set_active None (settle (record act) o er (updActive a f c))))) as Hl
      by (intros; by eapply inv_leave).
    assert (∀ o er, active (settle (record act) o er (updActive a f c)) = Some a) as Has.
    { intros. rewrite settle_updActive. by rewrite updActive_settle_active. }
    destruct e; cbn -[settle thrown pump]; try (destruct (thrown _ _) as [o er]);
      try (rewrite Has, bool_decide_eq_true_2 by done; apply Hl).
    rewrite bool_decide_eq_true_2 by done.
    unfold isSettled. cbn. rewrite Hrec. destruct (settled rec) eqn:Es; cbn.
    + specialize (Hl completed None). rewrite settle_settled in Hl; [done|].
      unfold isSettled. cbn. by rewrite Hrec.
    + by apply (inv_over c a act rec).
  - assert (isSettled (record act) (updActive a f c) = true) as Hs
      by (apply (seat_others _ (inv_seat _ HI) a act); auto).
    assert (Inv (updActive a f c)) as HI' by by apply inv_other.
    destruct e; cbn -[settle thrown pump updActive]; try (destruct (thrown _ _) as [o er]);
      rewrite ?settle_settled, ?Hs by done; cbn -[updActive];
      by rewrite bool_decide_eq_false_2.
Qed.

(** Every enabled operation keeps the invariant. *)
Lemma inv_exec (c : Conv) o : enabled c o = true → Inv c → Inv (exec c o).
Proof.
  intros He HI. destruct o; cbn [exec].
  - by apply inv_admit.
  - by apply inv_abort.
  - by apply inv_message.
  - by apply inv_memory.
  - by apply inv_idle.
  - by apply inv_drain.
  - by apply inv_wait.
  - by apply inv_timeout.
  - by apply inv_seatWaiting.
  - by apply inv_seatSpent.
  - by apply inv_runEnd.
  - by apply inv_sweepTimeout.
Qed.

Lemma inv_new name iid rec :
  is_Some (encodeURIComponent name) → is_Some (encodeURIComponent iid) →
  Inv (newConversation name iid rec : Conv).
Proof.
  intros Hn Hi. constructor; [| |done|done].
  - constructor; cbn; try done.
    + intros r. split; [intros []%elem_of_nil|]. intros (rc & Hr & _). by rewrite lookup_empty in Hr.
    + constructor.
    + exists []. split; [constructor|done].
    + intros w off []%elem_of_nil.
    + intros _. split_and!; [constructor|done|done|]. intros r rc Hr. by rewrite lookup_empty in Hr.
  - constructor; cbn; try done.
Qed.

(** ** Rebuilding *)

(** The rebuilt conversation after the admitted ids [p] of the record. *)
Record Rebuilding (iid : jstr) (ws : list Write) (p : list jstr) (c : Conv) : Prop := {
  rb_iid : instanceId c = iid;
  rb_rec : hasRecorder c = true;
  rb_empty : queue c = [] ∧ records c = ∅ ∧ active c = None ∧ actives c = []
             ∧ waiters c = [] ∧ idleWaiters c = [];
  rb_admitted : admitted c = length (admittedOf ws);
  rb_lines : admittedOf (writes c) = admittedOf ws;
  rb_recorded : Recorded iid (writes c);
  rb_stream : streamOf (writes c) = log c;
  rb_settlements : settlements c = settlementsOf (log c);
  rb_prefix : streamOf ws `prefix_of` log c;
  rb_settled : ∀ s, s ∈ settledOf (writes c) ↔ s ∈ settledOf ws ∨ s ∈ p;
}.

Lemma rebuilding_push iid ws p s o e (c : Conv) :
  Rebuilding iid ws p c → s ∈ admittedOf ws → s ∉ settledOf ws → s ∉ p →
  Rebuilding iid ws (p ++ [s]) (pushSettlement (mkSettlement s o e None) c).
Proof.
  intros [] Ha Hs Hp.
  constructor; cbn -[admittedOf streamOf settledOf settlementsOf]; try done; rewrite ?rb_rec0.
  - tauto.
  - rewrite admittedOf_app. cbn. by rewrite app_nil_r.
  - eapply rec_settled; [done| |done|by rewrite rb_lines0|].
    + by rewrite rb_stream0, <- rb_iid0.
    + rewrite rb_settled0. cbn. tauto.
  - rewrite streamOf_app, rb_stream0. done.
  - by rewrite settlementsOf_app, <- rb_settlements0.
  - by apply prefix_app_r.
  - intros x. unfold settledOf. rewrite streamOf_app, settlementsOf_app, fmap_app, elem_of_app.
    change (x ∈ s_submissionId <$> settlementsOf (streamOf (writes c))) with (x ∈ settledOf (writes c)).
    rewrite rb_settled0. cbn. rewrite elem_of_app. tauto.
Qed.

Lemma rebuilding_all iid ws ov (c : Conv) todo p :
  NoDup (p ++ todo) → p ++ todo = admittedOf ws → Rebuilding iid ws p c →
  Rebuilding iid ws (admittedOf ws) (foldl (rebuildOne (settledOf ws) ov) c todo).
Proof.
  revert p c. induction todo as [|s todo IH]; intros p c Hnd Hp HR; simpl.
  { rewrite app_nil_r in Hp. by rewrite <- Hp. }
  apply (IH (p ++ [s])); [by rewrite <- app_assoc|by rewrite <- app_assoc|].
  apply NoDup_app in Hnd as (_ & Hd & _).
  assert (s ∉ p) by (intros Hs; apply (Hd s Hs); left).
  assert (s ∈ admittedOf ws) by (rewrite <- Hp; set_solver).
  unfold rebuildOne. repeat case_bool_decide; try by apply rebuilding_push.
  destruct HR. constructor; try done. intros x. rewrite rb_settled0. set_solver.
Qed.

Lemma rebuild_name ids ov l (c : Conv) :
  agentName (foldl (rebuildOne ids ov) c l) = agentName c.
Proof.
  revert c. induction l as [|s l IH]; intros c; [done|]. simpl. rewrite IH.
  unfold rebuildOne. by repeat case_bool_decide.
Qed.

Lemma rebuilt_facts name iid ws :
  Recorded iid ws →
  let c := rebuilt ws (readRecord name iid ws) : Conv in
  agentName c = name ∧ Rebuilding iid ws (admittedOf ws) c
  ∧ ∃ ns, Forall2 sidNum (s_submissionId <$> settlements c) ns ∧ ns ≡ₚ seq 1 (admitted c).
Proof.
  intros Hrec. destruct (recorded_facts iid ws Hrec) as (Hnum & Hpl & Hnd & Hsub).
  assert (NoDup (admittedOf ws)) as Hadm by (eapply nums_NoDup; [done|apply NoDup_seq]).
  intros c. assert (Rebuilding iid ws (admittedOf ws) c) as HR.
  { apply (rebuilding_all iid ws _ _ (admittedOf ws) []); [done|done|].
    constructor; cbn; try done. intros s. set_solver. }
  assert (agentName c = name) as Hname by apply rebuild_name.
  split_and!; [done|done|].
  assert (s_submissionId <$> settlements c = settledOf (writes c)) as Hids.
  { unfold settledOf. by rewrite (rb_stream _ _ _ _ HR), (rb_settlements _ _ _ _ HR). }
  destruct (recorded_facts _ _ (rb_recorded _ _ _ _ HR)) as (_ & _ & Hnd' & _).
  assert (admittedOf ws ≡ₚ settledOf (writes c)) as Hperm.
  { apply NoDup_Permutation; [done|done|]. intros s. rewrite (rb_settled _ _ _ _ HR). set_solver. }
  rewrite Hids, (rb_admitted _ _ _ _ HR).
  destruct (Permutation_Forall2 Hperm Hnum) as (ns & Hp & HF). exists ns. by rewrite Hp.
Qed.

Lemma inv_rebuilt name iid ws :
  Recorded iid ws → is_Some (encodeURIComponent name) → is_Some (encodeURIComponent iid) →
  Inv (rebuilt ws (readRecord name iid ws) : Conv).
Proof.
  intros Hrec Hn Hi. destruct (rebuilt_facts name iid ws Hrec) as (Hname & HR & ns & HF & Hp).
  set (c := rebuilt _ _) in *. clearbody c.
  destruct HR as [Hiid Hr (Hq & Hrs & Ha & Has & Hw & Hiw) Hadm Hl Hrd Hst Hse _ _].
  constructor.
  - constructor; rewrite ?Hq, ?Hrs, ?Hw.
    + rewrite <- Hst, Hiid. by apply recorded_facts.
    + done.
    + intros r rec H. by rewrite lookup_empty in H.
    + intros r rec H. by rewrite lookup_empty in H.
    + intros r. split; [intros []%elem_of_nil|]. intros (rc & H & _). by rewrite lookup_empty in H.
    + constructor.
    + exists ns. by rewrite app_nil_r.
    + intros w off []%elem_of_nil.
    + intros _. rewrite Hiid. split_and!; [done|done|by rewrite Hl, Hadm|].
      intros r rec H. by rewrite lookup_empty in H.
  - constructor; rewrite ?Ha, ?Has; try done.
  - intros a act _ H. congruence.
  - split; [by rewrite Hname|by rewrite Hiid].
Qed.

(** ** Histories: operations and crashes *)

(** A crash ends the process with some prefix of the record's lines on disk;
    the next boot rebuilds the conversation from them. *)
Inductive move (c : Conv) : Conv → Prop :=
| move_op o : enabled c o = true → move c (exec c o)
| move_crash ws : hasRecorder c = true → ws `prefix_of` writes c →
    move c (rebuilt ws (readRecord (agentName c) (instanceId c) ws)).

Lemma inv_move (c c' : Conv) : Inv c → move c c' → Inv c'.
Proof.
  intros HI [o He|ws Hr [k Hk]]; [by apply inv_exec|].
  apply inv_rebuilt; [|apply HI|apply HI].
  destruct (core_writes _ (inv_core _ HI) Hr) as [Hw _]. rewrite Hk in Hw.
  by eapply recorded_prefix.
Qed.

Definition reachable (name iid : jstr) (rec : bool) (c : Conv) : Prop :=
  is_Some (encodeURIComponent name) ∧ is_Some (encodeURIComponent iid)
  ∧ rtc move (newConversation name iid rec) c.

Lemma reachable_inv name iid rec c : reachable name iid rec c → Inv c.
Proof.
  intros (Hn & Hi & Hr). eapply (rtc_invariant move); [apply inv_move|done|]. by apply inv_new.
Qed.

(** ** Theorems *)

(** C1: every Submission settles exactly once. In every state that operations
    and crashes can reach, the numbers of the Settlements together with the
    queued records are the numbers of all admissions, each one once: nothing
    admitted is lost, and nothing settles twice, over any number of restarts. *)
Theorem settled_exactly_once (name iid : jstr) (rec : bool) (c : Conv)
    (H : reachable name iid rec c) :
  ∃ ns, Forall2 sidNum (s_submissionId <$> settlements c) ns
      ∧ ns ++ queue c ≡ₚ seq 1 (admitted c)
      ∧ NoDup (s_submissionId <$> settlements c).
Proof.
  destruct (core_ids _ (inv_core _ (reachable_inv _ _ _ _ H))) as (ns & HF & Hp).
  exists ns. split_and!; [done|done|]. eapply nums_NoDup; [done|].
  assert (NoDup (ns ++ queue c)) as Hnd by (rewrite Hp; apply NoDup_seq).
  by apply NoDup_app in Hnd as [? _].
Qed.

(** The stream grows and a step never rewrites it. *)
Lemma log_append (c : Conv) b : log c `prefix_of` log (append b c).
Proof. cbn. by apply prefix_app_r. Qed.

Lemma log_settle (c : Conv) r o e : log c `prefix_of` log (settle r o e c).
Proof. unfold settle. split_match; try done. cbn. by apply prefix_app_r. Qed.

Lemma log_pump (c : Conv) : log (pump c) = log c.
Proof. unfold pump. by split_match. Qed.

Lemma log_settleAll (c : Conv) rs o e : log c `prefix_of` log (settleAll rs o e c).
Proof.
  revert c. induction rs as [|r rs IH]; intros c; [done|]. simpl.
  etrans; [apply log_settle|apply IH].
Qed.

Lemma log_sweep (c : Conv) cause sid act rs :
  log c `prefix_of` log (foldl (sweepOne cause sid act) c rs).
Proof.
  revert c. induction rs as [|r rs IH]; intros c; [done|]. simpl.
  destruct (sweepOne_settle c cause sid act r) as (o & e & ->).
  etrans; [apply log_settle|apply IH].
Qed.

Lemma log_release (c : Conv) a : log (release a c) = log c.
Proof. unfold release. destruct (bool_decide _); [by rewrite log_pump|done]. Qed.

Lemma log_cut (c : Conv) : log c `prefix_of` log (cutIfOnPick c).
Proof.
  unfold cutIfOnPick. split_match; try done. rewrite log_pump. cbn -[settleAll updActive].
  etrans; [|apply log_settleAll]. done.
Qed.

Lemma log_abort (c : Conv) cause sid : log c `prefix_of` log (abort cause sid c).1.
Proof.
  unfold abort. destruct (queue c) as [|r q]; [done|]. cbn -[foldl].
  set (c2 := foldl _ _ _).
  assert (log c `prefix_of` log c2) as Hp.
  { subst c2. etrans; [|apply log_sweep]. by destruct (active c). }
  clearbody c2. split_match; rewrite ?log_release; done.
Qed.

Lemma log_exec (c : Conv) o : log c `prefix_of` log (exec c o).
Proof.
  destruct o; cbn [exec].
  - unfold admitSubmission. split_match; cbn [fst]; rewrite ?log_pump; reflexivity.
  - apply log_abort.
  - unfold appendMessage. etrans; [|apply log_append]. done.
  - unfold reportMemoryLimit. split_match; try done. apply log_append.
  - unfold idle. by split_match.
  - unfold drain. transitivity (log (cutIfOnPick (set_stopping true c))).
    + etrans; [|apply log_cut]. done.
    + unfold idle. by split_match.
  - unfold waitForEvent. by split_match.
  - unfold waitTimeout. by split_match.
  - unfold seatWaiting. destruct (bool_decide _); [|done]. etrans; [|apply log_cut]. done.
  - unfold seatSpent. by split_match.
  - unfold runEnd. destruct (actives c !! a) as [act|]; [|done].
    set (c1 := updActive _ _ c). change (log c) with (log c1).
    assert (∀ c2 : Conv, log c1 `prefix_of` log c2 →
      log c1 `prefix_of` log (pump (set_active None c2))) as Hp.
    { intros. by rewrite log_pump. }
    assert (∀ r o er, log c1 `prefix_of` log (settle r o er c1)) as Hs by (intros; apply log_settle).
    destruct e; cbn -[settle thrown pump updActive]; try (destruct (thrown _ _));
      split_match; auto.
  - unfold sweepTimeout. split_match; try done. rewrite log_release. apply log_settle.
Qed.

Lemma log_steps (c c' : Conv) : rtc step c c' → log c `prefix_of` log c'.
Proof. induction 1 as [|x y z [o _] _ IH]; [done|]. etrans; [apply log_exec|done]. Qed.

(** a reader that follows the stream by offset misses nothing and reads
    nothing twice. Whatever operations run between two reads, the second read,
    from the [nextOffset] of the first, starts where the first ended; and every
    event carries its own place on the stream. *)
Theorem offset_follows_stream (name iid : jstr) (rec : bool) (c c' : Conv) (n : nat)
    (H : reachable name iid rec c) (Hs : rtc step c c') (Hn : (n <= length (log c))%nat) :
  let first := updatesView (log c) (of_int (Z.of_nat n)) in
  let second := updatesView (log c') (nextOffset first) in
  events first ++ events second = drop n (log c')
  ∧ ∀ i e, log c' !! i = Some e → position e = {| batch := Z.of_nat i; index := 0 |}.
Proof.
  destruct (log_steps c c' Hs) as [k Hk]. cbn [events nextOffset updatesView].
  rewrite !parseOffset_of_int; [|unfold logLength; rewrite ?Hk, ?length_app; lia..].
  unfold logLength. rewrite !Nat2Z.id. split.
  - rewrite Hk, drop_app_length, drop_app_le by done. done.
  - assert (Inv c') as HI.
    { eapply (rtc_invariant step); [|done|by eapply reachable_inv].
      intros x y Hx [o Ho]. by apply inv_exec. }
    intros i e He. by destruct (core_placed _ (inv_core _ HI) i e He).
Qed.

(** no wake-up is lost. In every reachable state a reader that is still
    parked has nothing to read from its offset. *)
Theorem no_lost_wakeup (name iid : jstr) (rec : bool) (c : Conv) (w : nat) (off : jstr)
    (H : reachable name iid rec c) (Hw : (w, off) ∈ waiters c) :
  events (updatesView (log c) off) = [].
Proof. by apply (core_waiters _ (inv_core _ (reachable_inv _ _ _ _ H)) w). Qed.

(** Submissions run one at a time in the order of their admission. In every
    reachable state the queue is in admission order, an unsettled record that
    holds the seat is the first of it, and the seat is free only when nothing
    is queued. *)
Theorem runs_in_admission_order (name iid : jstr) (rec : bool) (c : Conv)
    (H : reachable name iid rec c) :
  StronglySorted lt (queue c)
  ∧ (∀ a act, active c = Some a → actives c !! a = Some act →
       isSettled (record act) c = false → head (queue c) = Some (record act))
  ∧ (active c = None → queue c = []).
Proof.
  apply reachable_inv in H as [HC HS _ _]. split_and!; [apply HC| |apply HS].
  intros a act Ha Hact Hs.
  destruct (seat_held _ HS a Ha) as (act' & rc & H1 & H2 & _ & H4 & _). simplify_eq.
  apply H4. unfold isSettled in Hs. by rewrite H2 in Hs.
Qed.

(** ** Progress *)

Lemma pump_active (c : Conv) :
  Core c → active c = None →
  match active (pump c) with
  | None => queue c = []
  | Some a => ∃ act, actives (pump c) !! a = Some act ∧ isSettled (record act) (pump c) = false
  end ∧ queue (pump c) = queue c ∧ admitted (pump c) = admitted c.
Proof.
  intros HC Ha. unfold pump. rewrite Ha. destruct (queue c) as [|r q] eqn:Hq.
  - cbn. by rewrite Ha, Hq.
  - cbn. split_and!; [|done|done]. eexists. rewrite lookup_app_r, Nat.sub_diag by lia.
    split; [done|]. destruct (core_queue _ HC r) as [[rc [Hr Hs]] _]; [rewrite Hq; left|].
    unfold isSettled. cbn. by rewrite Hr.
Qed.

(** Queued records count twice, a settled run that still holds the seat once. *)
Definition pending (c : Conv) : nat :=
  2 * length (queue c)
  + match active c ≫= λ a, actives c !! a with
    | Some act => if isSettled (record act) c then 1 else 0
    | None => 0
    end.

(** The holder of the seat can always give it up, and less is then pending. *)
Lemma progress (c : Conv) a :
  Inv c → active c = Some a →
  ∃ o, enabled c o = true ∧ (pending (exec c o) < pending c)%nat
     ∧ admitted (exec c o) = admitted c.
Proof.
  intros HI Ha. destruct (seat_held _ (inv_seat _ HI) a Ha)
    as (act & rc & Hact & Hrec & Hrw & Hh & Hw & _).
  assert (∃ o oc er f, enabled c o = true ∧ record (f act) = record act
    ∧ exec c o = pump (set_active None (settle (record act) oc er (updActive a f c))))
    as (o & oc & er & f & He & Hf & Hx).
  { destruct (running act) eqn:Hrun.
    - eexists (ORunEnd a Returned), completed, None,
        (λ x, mkActive (record x) (signalAborted x) (onPickOnly x) (cutAborted x) (waiting x) false).
      split_and!; [cbn [enabled]; by rewrite Hact|done|].
      cbn [exec]. unfold runEnd. rewrite Hact.
      rewrite bool_decide_eq_true_2; [done|]. etransitivity; [apply settle_frame|done].
    - destruct Hrw as [|Hwt]; [done|].
      eexists (OSweepTimeout a), aborted, _,
        (λ x, mkActive (record x) (signalAborted x) (onPickOnly x) (cutAborted x) false (running x)).
      split_and!; [cbn [enabled]; by rewrite Hact|done|].
      cbn [exec]. unfold sweepTimeout. rewrite Hact. unfold release.
      rewrite updActive_settle_active, bool_decide_eq_true_2, <- settle_updActive by done. done. }
  exists o. split; [done|]. rewrite Hx.
  set (c1 := settle _ _ _ _).
  assert (Core c1) as HC1 by (apply core_settle, core_updActive, HI).
  destruct (settle_frame (updActive a f c) (record act) oc er) as (_ & _ & _ & Eas & _ & Ead & _).
  fold c1 in Eas, Ead.
  destruct (pump_active (set_active None c1)) as (Hp & Hq & Had); [by apply core_set_active|done|].
  split; [|rewrite Had; cbn; by rewrite Ead].
  assert (queue c1 = remove_first (record act) (queue c)) as Hq1.
  { change (queue c) with (queue (updActive a f c)). apply settle_queue, core_updActive, HI. }
  unfold pending at 1. rewrite Hq.
  change (queue (set_active None c1)) with (queue c1). rewrite Hq1.
  assert ((match active (pump (set_active None c1)) ≫= λ a, actives (pump (set_active None c1)) !! a with
           | Some act => if isSettled (record act) (pump (set_active None c1)) then 1 else 0
           | None => 0 end) = 0)%nat as ->.
  { destruct (active (pump (set_active None c1))) as [b|]; [|done].
    destruct Hp as (x & Hx' & Hs). cbn [mbind option_bind]. by rewrite Hx', Hs. }
  unfold pending. rewrite Ha. cbn [mbind option_bind]. rewrite Hact.
  unfold isSettled. rewrite Hrec. destruct (settled rc) eqn:Es.
  - rewrite remove_first_notin; [lia|]. rewrite (core_queue _ (inv_core _ HI)).
    intros (rc' & ? & ?). congruence.
  - specialize (Hh eq_refl). destruct (queue c) as [|x q]; [done|]. simplify_eq/=.
    rewrite decide_True by done. lia.
Qed.

Lemma drains (n : nat) (c : Conv) :
  (pending c <= n)%nat → Inv c →
  ∃ os c', run c os = Some c' ∧ busy c' = false ∧ admitted c' = admitted c ∧ Inv c'.
Proof.
  revert c. induction n as [|n IH]; intros c Hn HI.
  all: destruct (active c) as [a|] eqn:Ha;
    [|exists [], c; split_and!; try done; unfold busy; rewrite Ha;
      by rewrite (seat_free _ (inv_seat _ HI) Ha)].
  all: destruct (progress c a HI Ha) as (o & He & Hlt & Had).
  { lia. }
  destruct (IH (exec c o)) as (os & c' & Hr & Hb & Had' & HI'); [lia|by apply inv_exec|].
  exists (o :: os), c'. simpl. rewrite He. split_and!; try done. congruence.
Qed.

(** Who the conversation is, and whether it has a record, never changes. *)
Definition ident (c : Conv) : jstr * jstr * bool := (agentName c, instanceId c, hasRecorder c).

Lemma ident_settle (c : Conv) r o e : ident (settle r o e c) = ident c.
Proof. unfold settle. by split_match. Qed.

Lemma ident_pump (c : Conv) : ident (pump c) = ident c.
Proof. unfold pump. by split_match. Qed.

Lemma ident_release (c : Conv) a : ident (release a c) = ident c.
Proof. unfold release. destruct (bool_decide _); [by rewrite ident_pump|done]. Qed.

Lemma ident_settleAll (c : Conv) rs o e : ident (settleAll rs o e c) = ident c.
Proof.
  revert c. induction rs as [|r rs IH]; intros c; [done|]. simpl. by rewrite IH, ident_settle.
Qed.

Lemma ident_sweep (c : Conv) cause sid act rs :
  ident (foldl (sweepOne cause sid act) c rs) = ident c.
Proof.
  revert c. induction rs as [|r rs IH]; intros c; [done|]. simpl. rewrite IH.
  destruct (sweepOne_settle c cause sid act r) as (o & e & ->). apply ident_settle.
Qed.

Lemma ident_cut (c : Conv) : ident (cutIfOnPick c) = ident c.
Proof.
  unfold cutIfOnPick. split_match; try done. rewrite ident_pump.
  match goal with |- ident (set_active None ?x) = _ => change (ident x = ident c) end.
  by rewrite ident_settleAll.
Qed.

Lemma ident_abort (c : Conv) cause sid : ident (abort cause sid c).1 = ident c.
Proof.
  unfold abort. destruct (queue c) as [|r q]; [done|]. cbn -[foldl ident].
  set (c2 := foldl _ _ _).
  assert (ident c2 = ident c) as Hp.
  { subst c2. rewrite ident_sweep. by destruct (active c). }
  clearbody c2. split_match; rewrite ?ident_release; done.
Qed.

Lemma ident_exec (c : Conv) o : ident (exec c o) = ident c.
Proof.
  destruct o; cbn [exec].
  - unfold admitSubmission. split_match; cbn [fst]; rewrite ?ident_pump; reflexivity.
  - apply ident_abort.
  - reflexivity.
  - unfold reportMemoryLimit. by split_match.
  - unfold idle. by split_match.
  - unfold drain, idle. split_match; exact (ident_cut (set_stopping true c)).
  - unfold waitForEvent. by split_match.
  - unfold waitTimeout. by split_match.
  - unfold seatWaiting. destruct (bool_decide _); [by rewrite ident_cut|done].
  - unfold seatSpent. by split_match.
  - unfold runEnd. destruct (actives c !! a) as [act|]; [|done].
    destruct e; cbn -[settle thrown pump updActive ident]; try (destruct (thrown _ _));
      split_match; rewrite ?ident_pump; try reflexivity; apply (ident_settle (updActive a _ c)).
  - unfold sweepTimeout. split_match; try done. by rewrite ident_release, ident_settle.
Qed.


(** C31: a crash loses no Submission and no event that a reader could have seen.
    Take a crash in the middle of any operation [o]: the record then holds all
    that was written before [o] and some of what [o] writes. The rebuilt
    conversation has the old stream as a prefix of its own, it is idle, every
    Submission of the record has exactly one Settlement, and it satisfies the
    invariant again. *)
Theorem crash_rebuilds (name iid : jstr) (c : Conv) (o : Op) (ws : list Write)
    (H : reachable name iid true c) (Hr : hasRecorder c = true) (He : enabled c o = true)
    (Hlo : writes c `prefix_of` ws) (Hhi : ws `prefix_of` writes (exec c o)) :
  let c' := rebuilt ws (readRecord (agentName c) (instanceId c) ws) : Conv in
  log c `prefix_of` log c' ∧ busy c' = false
  ∧ (s_submissionId <$> settlements c') ≡ₚ admittedOf ws
  ∧ (∀ s, s ∈ admittedOf (writes c) → s ∈ s_submissionId <$> settlements c')
  ∧ Inv c'.
Proof.
  intros c'. pose proof (reachable_inv _ _ _ _ H) as HI.
  pose proof (ident_exec c o) as Hid. unfold ident in Hid. injection Hid as Hn Hi Hrx.
  assert (Recorded (instanceId c) ws) as Hrec.
  { destruct (core_writes _ (inv_core _ (inv_exec c o He HI))) as [Hw _]; [congruence|].
    destruct Hhi as [k Hk]. rewrite Hi, Hk in Hw. by eapply recorded_prefix. }
  destruct (core_writes _ (inv_core _ HI) Hr) as (_ & Hst & _).
  pose proof (inv_rebuilt (agentName c) (instanceId c) ws Hrec
    (proj1 (inv_named _ HI)) (proj2 (inv_named _ HI))) as HI'.
  destruct (rebuilt_facts (agentName c) (instanceId c) ws Hrec) as (_ & HR & _).
  fold c' in HI', HR. clearbody c'. destruct Hlo as [k Hk].
  assert (s_submissionId <$> settlements c' = settledOf (writes c')) as Hids.
  { unfold settledOf. by rewrite (rb_stream _ _ _ _ HR), (rb_settlements _ _ _ _ HR). }
  destruct (recorded_facts _ _ Hrec) as (Hnum & _ & _ & Hsub).
  destruct (recorded_facts _ _ (rb_recorded _ _ _ _ HR)) as (_ & _ & Hnd & _).
  assert (settledOf (writes c') ≡ₚ admittedOf ws) as Hperm.
  { apply NoDup_Permutation; [done|eapply nums_NoDup; [done|apply NoDup_seq]|].
    intros s. rewrite (rb_settled _ _ _ _ HR). set_solver. }
  rewrite Hids. split_and!; try done.
  - etrans; [|apply HR]. rewrite <- Hst, Hk, streamOf_app. by apply prefix_app_r.
  - destruct (rb_empty _ _ _ _ HR) as (Hq & _ & Ha & _). unfold busy. by rewrite Ha, Hq.
  - intros s Hs. rewrite Hperm, Hk, admittedOf_app. set_solver.
Qed.

(** ** What the sweep settles *)

(** The Settlement of record [r] by a sweep. *)
Definition sweptAs (cause : option AbortCause) (sid : option jstr) (act : option Active)
    (c : Conv) (r : nat) (s : Settlement) : Prop :=
  ∃ rc, records c !! r = Some rc ∧ s_submissionId s = submissionId rc
    ∧ (s_outcome s, s_error s) = sweepOutcome cause sid act r rc.

Lemma sweep_settlements (c c0 : Conv) cause sid act rs :
  NoDup rs → (∀ r, r ∈ rs → ∃ rc, records c0 !! r = Some rc ∧ settled rc = false) →
  (∀ r, r ∈ rs → records c !! r = records c0 !! r) →
  ∃ ss, settlements (foldl (sweepOne cause sid act) c rs) = settlements c ++ ss
      ∧ Forall2 (sweptAs cause sid act c0) rs ss.
Proof.
  revert c. induction rs as [|r rs IH]; intros c Hnd Hu Heq.
  { exists []. rewrite app_nil_r. by split; [|constructor]. }
  apply NoDup_cons in Hnd as [Hr Hnd]. destruct (Hu r) as (rc & Hrc & Hs); [left|]. simpl.
  unfold sweepOne at 2. rewrite Heq by left. rewrite Hrc. destruct (sweepOutcome cause sid act r rc) as [o e] eqn:Eo.
  assert (∀ x, x ∈ rs → records (settle r o e c) !! x = records c !! x) as Hx.
  { intros x Hx. rewrite settle_records, decide_False by (intros ->; done). by rewrite option_fmap_id. }
  destruct (IH (settle r o e c)) as (ss & Hss & HF); [done| | |].
  { intros x Hxin. apply Hu. by right. }
  { intros x Hxin. rewrite Hx by done. apply Heq. by right. }
  exists (mkSettlement (submissionId rc) o e (usage rc) :: ss). split.
  - rewrite Hss. unfold settle. rewrite Heq by left. rewrite Hrc, Hs. cbn. by rewrite <- app_assoc.
  - constructor; [exists rc; by rewrite Eo|done].
Qed.

Lemma pump_settlements (c : Conv) : settlements (pump c) = settlements c.
Proof. unfold pump. by split_match. Qed.

(** an abort settles everything unsettled, in admission order: it empties
    the queue and appends one Settlement for each queued record, in order. The
    Settlement is [ended] exactly when the cause is the Turn's own pick, it names
    the record's Submission and the record holds the seat; every other one is
    [aborted]. *)
Theorem abort_settles_queue (name iid : jstr) (rec : bool) (c : Conv)
    (cause : option AbortCause) (sid : option jstr)
    (H : reachable name iid rec c) (Hq : queue c ≠ []) :
  let c' := (abort cause sid c).1 in
  queue c' = [] ∧ ∃ ss, settlements c' = settlements c ++ ss
    ∧ Forall2 (λ r s, ∃ rc, records c !! r = Some rc ∧ s_submissionId s = submissionId rc
        ∧ (s_outcome s = ended ∨ s_outcome s = aborted)
        ∧ (s_outcome s = ended ↔
             cause = Some pick ∧ sid = Some (submissionId rc)
             ∧ ∃ a act, active c = Some a ∧ actives c !! a = Some act ∧ record act = r))
        (queue c) ss.
Proof.
  intros c'. pose proof (reachable_inv _ _ _ _ H) as HI. pose proof HI as [HC HS _ _].
  destruct (active c) as [a|] eqn:Ha; [|by rewrite (seat_free _ HS Ha) in Hq].
  destruct (swept_facts c cause sid a HI Ha) as (_ & _ & Hq' & _ & _ & act & _ & Hact & _).
  assert (queue c' = queue (swept_state cause sid c)
    ∧ settlements c' = settlements (swept_state cause sid c)) as [-> ->].
  { subst c'. rewrite (abort_state c cause sid a), Hact by done.
    destruct (waiting act); [|done]. unfold release. destruct (bool_decide _); [|done].
    rewrite pump_settlements. split; [|done]. unfold pump. cbn. by rewrite Hq'. }
  split; [done|]. rewrite (swept_eq _ _ _ a), Hact by done.
  destruct (sweep_settlements (updActive a aborting c) c cause sid (Some act) (queue c))
    as (ss & Hss & HF); [| |done|].
  { destruct (core_ids _ HC) as (ns & _ & Hperm).
    assert (NoDup (ns ++ queue c)) as Hnd by (rewrite Hperm; apply NoDup_seq).
    by apply NoDup_app in Hnd as (_ & _ & ?). }
  { intros r Hr. by apply (core_queue _ HC). }
  exists ss. split; [done|]. eapply Forall2_impl; [exact HF|].
  intros r s (rc & Hrc & Hid & Ho). exists rc. split_and!; [done|done| |].
  - unfold sweepOutcome in Ho. split_match; injection Ho as -> _; auto.
  - unfold sweepOutcome in Ho. split.
    + destruct cause as [[]|]; [|by injection Ho as -> _].
      destruct sid as [i|]; [|rewrite andb_false_r in Ho; by injection Ho as -> _].
      repeat case_bool_decide; simpl in Ho; injection Ho as -> _; try done. intros _. subst i. eauto 8.
    + intros (-> & -> & a' & act' & [= <-] & Hact' & <-). simplify_eq.
      rewrite !bool_decide_eq_true_2 in Ho by done. by injection Ho.
Qed.

(** a drain does not wait on a pick. When the seat's Turn waits only on its
    pick, [drain] leaves the conversation idle with nothing queued and resolves
    at once; and from then on no Turn that waits only on its pick holds the
    seat. *)
Theorem drain_cuts_pick (name iid : jstr) (rec : bool) (c : Conv) (w a : nat) (act : Active)
    (H : reachable name iid rec c) (Ha : active c = Some a) (Hact : actives c !! a = Some act)
    (Hp : onPickOnly act = true) :
  let c' := drain w c in
  busy c' = false ∧ w ∈ idleResolved c'
  ∧ ∀ c2, rtc move c' c2 → stopping c2 = true → ∀ b x, active c2 = Some b →
      actives c2 !! b = Some x → onPickOnly x = false.
Proof.
  intros c'. pose proof (reachable_inv _ _ _ _ H) as HI.
  assert (busy (cutIfOnPick (set_stopping true c)) = false) as Hb.
  { destruct (seat_held _ (inv_seat _ HI) a Ha) as (act' & rc & Hact' & _ & _ & _ & _ & Hcut).
    simplify_eq. unfold cutIfOnPick. cbn -[settleAll pump updActive]. rewrite Ha, Hact, Hp, Hcut.
    cbn -[settleAll pump updActive].
    set (f := λ x, mkActive _ _ _ true _ _). set (err := Some _).
    assert (queue (settleAll (record act :: queue c) failed err (updActive a f (set_stopping true c))) = [])
      as Hq.
    { apply elem_of_none. intros x Hx. apply settleAll_queue in Hx;
        [|by apply core_updActive, (core_frame c), HI]. cbn in Hx. set_solver. }
    set (c1 := settleAll _ _ _ _) in *. clearbody c1. unfold busy, pump. cbn. rewrite Hq. cbn. by rewrite Hq. }
  split_and!.
  - subst c'. unfold drain, idle. by rewrite Hb.
  - subst c'. unfold drain, idle. rewrite Hb. cbn. set_solver.
  - intros c2 Hm Hst b x Hb2 Hx.
    assert (Inv c2) as HI2.
    { eapply (rtc_invariant move); [apply inv_move|done|]. by apply inv_drain. }
    by apply (inv_pick _ HI2 b x).
Qed.

End proofs.

(** ** Concrete histories *)

Definition demo0 : @Conv nat := newConversation (js "coder") (js "run/1") true.

(** Two admissions, the first one's message and its end, a sweep of the rest. *)
Definition demoOps : list (@Op nat) :=
  [OAdmit 7%nat (js "abc"); OAdmit 8%nat (js "def");
   OMessage {| role := assistant; text := js "hi" |};
   ORunEnd 0 Returned; OWait 0 (of_int 9); OSeatWaiting 1 true].

Definition demo : @Conv nat := default demo0 (run demo0 demoOps).

Lemma run_moves {R} (os : list (@Op R)) (c c' : @Conv R) : run c os = Some c' → rtc move c c'.
Proof.
  revert c. induction os as [|o os IH]; intros c; simpl; [by intros [= ->]|].
  destruct (enabled c o) eqn:E; [|done]. intros H. eapply rtc_l; [by apply move_op|by apply IH].
Qed.

Lemma demo_reachable : reachable (js "coder") (js "run/1") true demo.
Proof.
  split_and!; [by vm_compute; eexists|by vm_compute; eexists|].
  apply (run_moves demoOps). vm_compute. reflexivity.
Qed.

Lemma settled_exactly_once_witness :
  ∃ ns, Forall2 sidNum (s_submissionId <$> settlements demo) ns
      ∧ ns ++ queue demo ≡ₚ seq 1 (admitted demo).
Proof.
  destruct (settled_exactly_once _ _ _ demo demo_reachable) as (ns & H1 & H2 & _). by exists ns.
Defined.

Lemma offset_follows_stream_witness :
  events (updatesView (log demo) (of_int (Z.of_nat 1)))
  ++ events (updatesView (log demo) (nextOffset (updatesView (log demo) (of_int (Z.of_nat 1)))))
  = drop 1 (log demo).
Proof.
  refine (proj1 (offset_follows_stream _ _ _ demo demo 1 demo_reachable (rtc_refl _ _) _)).
  vm_compute. lia.
Defined.

Lemma no_lost_wakeup_witness : events (updatesView (log demo) (of_int 9)) = [].
Proof.
  refine (no_lost_wakeup _ _ _ demo 0 (of_int 9) demo_reachable _).
  vm_compute. left.
Defined.

Lemma runs_in_admission_order_witness : StronglySorted lt (queue demo) ∧ queue demo = [2%nat].
Proof.
  split; [|vm_compute; reflexivity].
  exact (proj1 (runs_in_admission_order _ _ _ demo demo_reachable)).
Defined.


Lemma crash_rebuilds_witness :
  log demo `prefix_of` log (rebuilt (writes demo) (readRecord (agentName demo) (instanceId demo) (writes demo)) : @Conv nat).
Proof.
  refine (proj1 (crash_rebuilds _ _ demo (OIdle 3) (writes demo) demo_reachable _ _ _ _)).
  - vm_compute. reflexivity.
  - reflexivity.
  - reflexivity.
  - exists []. vm_compute. reflexivity.
Defined.

Lemma abort_settles_queue_witness :
  queue (abort (Some pick) None demo).1 = [] ∧ queue demo ≠ [].
Proof.
  split; [|by vm_compute].
  refine (proj1 (abort_settles_queue _ _ _ demo (Some pick) None demo_reachable _)). by vm_compute.
Defined.

Lemma drain_cuts_pick_witness : busy (drain 5 demo) = false.
Proof.
  refine (proj1 (drain_cuts_pick _ _ _ demo 5 1
    (mkActive 2 false true false false true) demo_reachable _ _ _)); vm_compute; reflexivity.
Defined.

End ConversationProofs.
