(* ===== verification/Tar.v ===== *)
(** * The Assembly's wire form (orchestrator/src/assembly-tar.ts)

    One ustar archive, packed by [packAssembly] and unpacked by
    [unpackAssembly].  Paths and targets are JavaScript strings, archives and
    file bodies lists of bytes.  A refusal is the entry and the [Reason] of the
    message.  [packAssembly] takes what [collect] found; [unpackAssembly] gives
    the file system calls that it makes, in the order it makes them.  The
    archive comes to [ByteReader] in chunks. *)

From Stdlib Require Import Lia ZArith.
From stdpp Require Import base list strings sets gmap.
From S2P Require Import Prelude JsString Json Utf8.

Open Scope Z_scope.

Module Tar.

Inductive Reason :=
| PathEmpty | PathNul | PathAbsolute | PathDotDot | PathDot
| LinkEmpty | LinkNul | LinkAbsolute | LinkLong
| ResolvesOutside | LinkLoop | ResolvesAbsolute
| PathLong | FileLarge
| NotOctal | PaxNoLength | PaxLength | PaxKey | PaxTwice
| NotUstar | Checksum | EntryType_ | PaxAfterPax | PaxLarge | CarriesBody | LinkpathNoLink
| EndsEarly | PaxLast | EndsInPax | PathTwice | NoParent | EndsInBody | EndsInPadding.

Record AssemblyTarRefusal := refuse { entry : jstr; reason : Reason }.

Abbreviation res := (result AssemblyTarRefusal).

Inductive EntryType := dir | file | symlink.

#[export] Instance EntryType_eq_dec : EqDecision EntryType.
Proof. solve_decision. Defined.

Definition BLOCK : nat := 512.
Definition NAME_MAX : nat := 100.
Definition PREFIX_MAX : nat := 155.
Definition LINK_MAX : nat := 100.
Definition PAX_VALUE_MAX : Z := 4096.
Definition PAX_BODY_MAX : Z := 16 * 1024.
Definition SIZE_MAX : Z := 8 ^ 11 - 1.
Definition LINK_EXPANSIONS_MAX : nat := 40.

Definition TYPEFLAG (t : EntryType) : Z := match t with file => 48 | dir => 53 | symlink => 50 end.

(** ** Paths *)

Definition slash : Z := 47.
Abbreviation segments := (split_on slash).

(** [Buffer.compare] *)
Fixpoint compareBytes (a b : list Z) : Z :=
  match a, b with
  | [], [] => 0
  | [], _ => -1
  | _, [] => 1
  | x :: a', y :: b' => if x =? y then compareBytes a' b' else if x <? y then -1 else 1
  end.

Fixpoint compareSegments (a b : list jstr) : Z :=
  match a, b with
  | x :: a', y :: b' =>
      let c := compareBytes (encode x) (encode y) in
      if c =? 0 then compareSegments a' b' else c
  | _, _ => Z.of_nat (length a) - Z.of_nat (length b)
  end.

Definition comparePaths (a b : jstr) : Z := compareSegments (segments a) (segments b).

(** [keys.sort(comparePaths)] *)
Fixpoint insertPath (p : jstr) (l : list jstr) : list jstr :=
  match l with
  | [] => [p]
  | q :: l' => if 0 <? comparePaths p q then q :: insertPath p l' else p :: l
  end.

Definition sortPaths (l : list jstr) : list jstr := foldr insertPath [] l.

Definition startsSlash (p : jstr) : bool := match p with c :: _ => c =? slash | [] => false end.

Definition isDots (s : jstr) : bool := bool_decide (s = [46; 46]).
Definition isDot (s : jstr) : bool := bool_decide (s = []) || bool_decide (s = [46]).

Definition checkEntryPath (path : jstr) : res unit :=
  _ ← guard_throw (bool_decide (path = [])) (refuse path PathEmpty);
  _ ← guard_throw (bool_decide (0 ∈ path)) (refuse path PathNul);
  _ ← guard_throw (startsSlash path) (refuse path PathAbsolute);
  _ ← guard_throw (existsb isDots (segments path)) (refuse path PathDotDot);
  guard_throw (existsb isDot (segments path)) (refuse path PathDot).

Definition checkLinkTarget (path target : jstr) : res unit :=
  _ ← guard_throw (bool_decide (target = [])) (refuse path LinkEmpty);
  _ ← guard_throw (bool_decide (0 ∈ target)) (refuse path LinkNul);
  _ ← guard_throw (startsSlash target) (refuse path LinkAbsolute);
  guard_throw (PAX_VALUE_MAX <? utf8ByteLength target) (refuse path LinkLong).

(** A [Map]: its entries in insertion order. *)
Fixpoint mapGet {V} (k : jstr) (m : list (jstr * V)) : option V :=
  match m with
  | [] => None
  | (k', v) :: m' => if bool_decide (k = k') then Some v else mapGet k m'
  end.

Fixpoint mapSet {V} (k : jstr) (v : V) (m : list (jstr * V)) : list (jstr * V) :=
  match m with
  | [] => [(k, v)]
  | (k', v') :: m' => if bool_decide (k = k') then (k, v) :: m' else (k', v') :: mapSet k v m'
  end.

Abbreviation linkMap := (list (jstr * jstr)).

(** The loop of [checkLinkInside]. [n] more expansions are allowed; for a given
    [n] the loop consumes [pending], and an expansion refills it. *)
Fixpoint resolve (path : jstr) (links : linkMap) (n : nat) : list jstr → list jstr → res unit :=
  fix go (stack pending : list jstr) : res unit :=
    match pending with
    | [] => Ok tt
    | seg :: rest =>
        if isDot seg then go stack rest
        else if isDots seg then
          match stack with
          | [] => Throw (refuse path ResolvesOutside)
          | _ => go (removelast stack) rest
          end
        else
          match mapGet (join [slash] (stack ++ [seg])) links with
          | None => go (stack ++ [seg]) rest
          | Some target =>
              match n with
              | O => Throw (refuse path LinkLoop)
              | S n' =>
                  if startsSlash target then Throw (refuse path ResolvesAbsolute)
                  else resolve path links n' stack (segments target ++ rest)
              end
          end
    end.

Definition checkLinkInside (path : jstr) (links : linkMap) : res unit :=
  resolve path links LINK_EXPANSIONS_MAX (removelast (segments path))
    (segments (default [] (mapGet path links))).

(** The loop of [splitName] at index [i], with the bytes before it and the
    rest. *)
Fixpoint splitLoop (before rest : list Z) : option (list Z * list Z) :=
  match rest with
  | [] | [_] => None
  | c :: name =>
      if c =? slash then
        if (PREFIX_MAX <? length before)%nat then None
        else if (length name <=? NAME_MAX)%nat && (0 <? length name)%nat && negb (bool_decide (name = [slash]))
        then Some (before, name)
        else splitLoop (before ++ [c]) name
      else splitLoop (before ++ [c]) name
  end.

Definition splitName (full : jstr) : option (list Z * list Z) :=
  let bytes := encode full in
  if (length bytes <=? NAME_MAX)%nat then Some ([], bytes) else splitLoop [] bytes.

(** ** Pack *)

Record PackEntry := mkEntry { path : jstr; type : EntryType; mode : Z; target : jstr; body : list Z }.

(** [s.padStart(n, "0")] *)
Definition padStart (n : nat) (s : jstr) : jstr := repeat 48 (n - length s) ++ s.

(** A field of the block: the bytes, then NULs. *)
Definition pad (w : nat) (bs : list Z) : list Z := take w bs ++ repeat 0 (w - length bs).

Definition octal (w : nat) (v : Z) : list Z := pad w (padStart (w - 1) (to_radix 8 v) ++ [0]).

Definition sumBytes (b : list Z) : Z := foldr Z.add 0 b.

(** The fields before the checksum, and after it. *)
Definition blockHead (name : list Z) (md size : Z) : list Z :=
  pad 100 name ++ octal 8 md ++ octal 8 0 ++ octal 8 0 ++ octal 12 size ++ octal 12 0.

Definition blockTail (flag : Z) (link prefix : list Z) : list Z :=
  [flag] ++ pad 100 link ++ js "ustar" ++ [0] ++ js "00" ++ repeat 0 64
    ++ octal 8 0 ++ octal 8 0 ++ pad 155 prefix ++ repeat 0 12.

Definition ustarBlock (split : list Z * list Z) (flag md size : Z) (link : list Z) : list Z :=
  let h := blockHead split.2 md size in
  let t := blockTail flag link split.1 in
  let sum := sumBytes (h ++ repeat 0x20 8 ++ t) in
  h ++ padStart 6 (to_radix 8 sum) ++ [0; 0x20] ++ t.

(** The loop of [paxRecord]: at most three rounds change the length. *)
Fixpoint paxLength (fuel : nat) (restBytes len : Z) : Z :=
  let next := Z.of_nat (length (of_int len)) + restBytes in
  match fuel with
  | O => len
  | S f => if next =? len then len else paxLength f restBytes next
  end.

Definition paxRecord (key value : jstr) : jstr :=
  let rest := [32] ++ key ++ [61] ++ value ++ [10] in
  let restBytes := utf8ByteLength rest in
  of_int (paxLength 4 restBytes (restBytes + 1)) ++ rest.

Definition padding (n : nat) : list Z := repeat 0 ((BLOCK - n mod BLOCK) mod BLOCK).

Definition subEnd (n : nat) (bs : list Z) : list Z := drop (length bs - n) bs.

Definition header (p : jstr) (t : EntryType) (md size : Z) (tgt : jstr) : res (list Z) :=
  _ ← guard_throw (PAX_VALUE_MAX <? utf8ByteLength p) (refuse p PathLong);
  _ ← guard_throw (SIZE_MAX <? size) (refuse p FileLarge);
  let full := match t with dir => p ++ [slash] | _ => p end in
  let fits := splitName full in
  let longTarget := Z.of_nat LINK_MAX <? utf8ByteLength tgt in
  let noFit := match fits with None => true | Some _ => false end in
  let pax :=
    if noFit || longTarget then
      let body := encode ((if longTarget then paxRecord (js "linkpath") tgt else [])
                          ++ (if noFit then paxRecord (js "path") p else [])) in
      ustarBlock ([], js "././@PaxHeader") 120 420 (Z.of_nat (length body)) []
        ++ body ++ padding (length body)
    else [] in
  let split := default ([], subEnd NAME_MAX (encode full)) fits in
  let linkField := if longTarget then take LINK_MAX (encode tgt) else encode tgt in
  Ok (pax ++ ustarBlock split (TYPEFLAG t) md size linkField).

Definition linksOf (es : list PackEntry) : linkMap :=
  foldl (λ m e, match type e with symlink => mapSet (path e) (target e) m | _ => m end) [] es.

Definition packOne (links : linkMap) (e : PackEntry) : res (list Z) :=
  _ ← checkEntryPath (path e);
  match type e with
  | symlink =>
      _ ← checkLinkTarget (path e) (target e);
      _ ← checkLinkInside (path e) links;
      header (path e) symlink (mode e) 0 (target e)
  | dir => header (path e) dir (mode e) 0 []
  | file =>
      h ← header (path e) file (mode e) (Z.of_nat (length (body e))) [];
      Ok (h ++ body e ++ padding (length (body e)))
  end.

Definition packAssembly (entries : list PackEntry) : res (list Z) :=
  parts ← mapM (packOne (linksOf entries)) entries;
  Ok (concat parts ++ repeat 0 (BLOCK * 2)).

(** ** Reading bytes *)

(** [chunks] are buffered; [source] is what the iterator has left. *)
Record ByteReader := mkReader { chunks : list (list Z); rlength : nat; source : list (list Z) }.

Definition newReader (input : list (list Z)) : ByteReader := mkReader [] 0 input.

(** [fill(n)]: the iterator's end is the end of [source]. *)
Fixpoint fillLoop (n : nat) (cs : list (list Z)) (len : nat) (src : list (list Z)) : ByteReader :=
  if (len <? n)%nat then
    match src with
    | [] => mkReader cs len []
    | b :: src' =>
        match b with
        | [] => fillLoop n cs len src'
        | _ => fillLoop n (cs ++ [b]) (len + length b) src'
        end
    end
  else mkReader cs len src.

Definition fill (n : nat) (r : ByteReader) : ByteReader := fillLoop n (chunks r) (rlength r) (source r).

(** [take(n)]: the bytes and the chunks left. *)
Fixpoint takeLoop (need : nat) (cs : list (list Z)) : list Z * list (list Z) :=
  match need, cs with
  | O, _ => ([], cs)
  | _, [] => ([], [])
  | _, hd :: cs' =>
      if (length hd <=? need)%nat then
        let '(out, more) := takeLoop (need - length hd) cs' in (hd ++ out, more)
      else (take need hd, drop need hd :: cs')
  end.

Definition takeBytes (n : nat) (r : ByteReader) : list Z * ByteReader :=
  let '(out, more) := takeLoop n (chunks r) in
  (out, mkReader more (rlength r - n) (source r)).

Definition read (n : nat) (r : ByteReader) : option (list Z) * ByteReader :=
  let r := fill n r in
  if (n <=? rlength r)%nat then let '(b, r) := takeBytes n r in (Some b, r) else (None, r).

Definition readSome (max : nat) (r : ByteReader) : option (list Z) * ByteReader :=
  let r := fill 1 r in
  if (rlength r =? 0)%nat then (None, r)
  else let '(b, r) := takeBytes (Nat.min max (length (default [] (head (chunks r))))) r in (Some b, r).

(** ** Unpack *)

Definition sub (b : list Z) (offset len : nat) : list Z := take len (drop offset b).

Fixpoint untilNul (bs : list Z) : list Z :=
  match bs with
  | [] => []
  | c :: r => if c =? 0 then [] else c :: untilNul r
  end.

Definition field (b : list Z) (offset len : nat) : list Z := untilNul (sub b offset len).

Definition isOctal (s : jstr) : bool :=
  negb (bool_decide (s = [])) && forallb (λ c, (48 <=? c) && (c <=? 55)) s.

Definition readOctal (b : list Z) (offset len : nat) (p : jstr) : res Z :=
  let s := trim (field b offset len) in
  if isOctal s then Ok (read_digits 8 0 s) else Throw (refuse p NotOctal).

Inductive ParsedType := Entry (t : EntryType) | PaxHeader.

Record Parsed := mkParsed { p_path : jstr; p_type : ParsedType; p_mode : Z; p_size : Z; p_target : jstr }.

Record Pax := mkPax { pax_path : option jstr; pax_linkpath : option jstr }.

(** The bytes before the first [c], and after it. *)
Fixpoint cutAt (c : Z) (bs : list Z) : option (list Z * list Z) :=
  match bs with
  | [] => None
  | x :: r => if x =? c then Some ([], r) else '(a, b) ← cutAt c r; Some (x :: a, b)
  end.

Definition isLength (s : list Z) : bool :=
  match s with
  | c :: r => (49 <=? c) && (c <=? 57) && forallb (λ c, (48 <=? c) && (c <=? 57)) r
  | [] => false
  end.

(** Key and value of a record: [eq > 0] or the whole record is the key. *)
Definition keyOf (record : jstr) : jstr :=
  match cutAt 61 record with Some ((_ :: _) as k, _) => k | _ => record end.
Definition valueOf (record : jstr) : jstr :=
  match cutAt 61 record with Some (_, v) => v | None => record end.

(** Every record takes at least one byte. *)
Fixpoint parsePaxLoop (fuel : nat) (rest : list Z) (at_ : jstr) (pax : Pax) : res Pax :=
  match rest, fuel with
  | [], _ => Ok pax
  | _, O => Ok pax
  | _, S f =>
      let lengthText := match cutAt 32 rest with Some (t, _) => t | None => [] end in
      if isLength lengthText then
        let len := read_digits 10 0 lengthText in
        if (Z.of_nat (length rest) <? len)
           || negb (bool_decide (rest !! Z.to_nat (len - 1) = Some 10))
        then Throw (refuse at_ PaxLength)
        else
          let n := Z.to_nat len in
          let space := length lengthText in
          let record := decode (sub rest (space + 1) (n - 1 - (space + 1))) in
          let rest := drop n rest in
          let key := keyOf record in
          if bool_decide (key = js "path") then
            match pax_path pax with
            | Some _ => Throw (refuse at_ PaxTwice)
            | None => parsePaxLoop f rest at_ (mkPax (Some (valueOf record)) (pax_linkpath pax))
            end
          else if bool_decide (key = js "linkpath") then
            match pax_linkpath pax with
            | Some _ => Throw (refuse at_ PaxTwice)
            | None => parsePaxLoop f rest at_ (mkPax (pax_path pax) (Some (valueOf record)))
            end
          else Throw (refuse at_ PaxKey)
      else Throw (refuse at_ PaxNoLength)
  end.

Definition parsePax (bs : list Z) (at_ : jstr) : res Pax := parsePaxLoop (length bs) bs at_ (mkPax None None).

Definition headerSum (b : list Z) : Z :=
  sumBytes (take 148 b ++ repeat 0x20 8 ++ drop 156 b).

Definition typeOf (flag : list Z) : option ParsedType :=
  match flag with
  | [c] =>
      if c =? 120 then Some PaxHeader
      else if (c =? 48) || (c =? 0) then Some (Entry file)
      else if c =? 53 then Some (Entry dir)
      else if c =? 50 then Some (Entry symlink)
      else None
  | _ => None
  end.

Definition parseHeader (b : list Z) (pax : option Pax) : res Parsed :=
  let name := decode (field b 0 100) in
  let prefix := decode (field b 345 155) in
  let path := default (match prefix with [] => name | _ => prefix ++ [slash] ++ name end) (x ← pax; pax_path x) in
  _ ← guard_throw (negb (bool_decide (sub b 257 6 = js "ustar" ++ [0]))
                   || negb (bool_decide (sub b 263 2 = js "00"))) (refuse path NotUstar);
  sum ← readOctal b 148 8 path;
  _ ← guard_throw (negb (sum =? headerSum b)) (refuse path Checksum);
  ty ← (match typeOf (sub b 156 1) with Some t => Ok t | None => Throw (refuse path EntryType_) end);
  let path := match ty with
              | Entry dir => if ends_with slash path then removelast path else path
              | _ => path
              end in
  size ← readOctal b 124 12 path;
  _ ← (match ty with
       | PaxHeader =>
           _ ← guard_throw (match pax with Some _ => true | None => false end) (refuse path PaxAfterPax);
           guard_throw (PAX_BODY_MAX <? size) (refuse path PaxLarge)
       | Entry file => Ok tt
       | Entry _ => guard_throw (negb (size =? 0)) (refuse path CarriesBody)
       end);
  _ ← (match x ← pax; pax_linkpath x, ty with
       | Some _, Entry symlink => Ok tt
       | Some _, _ => Throw (refuse path LinkpathNoLink)
       | None, _ => Ok tt
       end);
  md ← readOctal b 100 8 path;
  Ok (mkParsed path ty md size (default (decode (field b 157 100)) (x ← pax; pax_linkpath x))).

(** The file system calls of [unpackAssembly], each on a path under the
    directory. *)
Inductive Call :=
| MkDir (p : jstr)
| WriteFile (p : jstr) (bs : list Z) (md : Z)
| Symlink (tgt p : jstr)
| Chmod (p : jstr) (md : Z).

(** The state of the loop. *)
Record Unpacking := mkUnpacking {
  reader : ByteReader;
  seen : list (jstr * EntryType);
  links : linkMap;
  dirModes : list (jstr * Z);
  calls : list Call;
}.

(** The body of a file: [while (left > 0)]. Each chunk is not empty, so [left]
    rounds are enough. *)
Fixpoint readBody (fuel need : nat) (r : ByteReader) : option (list Z) * ByteReader :=
  match need, fuel with
  | O, _ => (Some [], r)
  | _, O => (None, r)
  | _, S f =>
      match readSome need r with
      | (None, r) => (None, r)
      | (Some chunk, r) =>
          match readBody f (need - length chunk) r with
          | (Some rest, r) => (Some (chunk ++ rest), r)
          | (None, r) => (None, r)
          end
      end
  end.

(** [path.slice(0, path.lastIndexOf("/"))] *)
Definition parentOf (p : jstr) : option jstr :=
  match removelast (segments p) with
  | [] => None
  | l => Some (join [slash] l)
  end.

(** What the loop does with an entry that is no pax header. *)
Definition unpackEntry (e : Parsed) (t : EntryType) (u : Unpacking) : res Unpacking :=
  _ ← checkEntryPath (p_path e);
  _ ← guard_throw (match mapGet (p_path e) (seen u) with Some _ => true | None => false end)
        (refuse (p_path e) PathTwice);
  _ ← (match parentOf (p_path e) with
       | Some parent => guard_throw (negb (bool_decide (mapGet parent (seen u) = Some dir))) (refuse (p_path e) NoParent)
       | None => Ok tt
       end);
  let seen' := mapSet (p_path e) t (seen u) in
  match t with
  | dir =>
      Ok (mkUnpacking (reader u) seen' (links u) (dirModes u ++ [(p_path e, Z.land (p_mode e) 4095)])
            (calls u ++ [MkDir (p_path e)]))
  | symlink =>
      _ ← checkLinkTarget (p_path e) (p_target e);
      Ok (mkUnpacking (reader u) seen' (mapSet (p_path e) (p_target e) (links u)) (dirModes u) (calls u))
  | file =>
      let size := Z.to_nat (p_size e) in
      match readBody size size (reader u) with
      | (None, _) => Throw (refuse (p_path e) EndsInBody)
      | (Some bs, r) =>
          let u' r := mkUnpacking r seen' (links u) (dirModes u)
                        (calls u ++ [WriteFile (p_path e) bs (Z.land (p_mode e) 4095)]) in
          let n := length (padding size) in
          if (n =? 0)%nat then Ok (u' r)
          else match read n r with
               | (None, _) => Throw (refuse (p_path e) EndsInPadding)
               | (Some _, r) => Ok (u' r)
               end
      end
  end.

(** The [for (;;)] loop. Each round reads a block, so the number of bytes is
    enough fuel. *)
Fixpoint unpackLoop (fuel : nat) (pax : option Pax) (u : Unpacking) : res Unpacking :=
  match fuel with
  | O => Throw (refuse [] EndsEarly)
  | S f =>
      match read BLOCK (reader u) with
      | (None, _) => Throw (refuse [] EndsEarly)
      | (Some block, r) =>
          let u := mkUnpacking r (seen u) (links u) (dirModes u) (calls u) in
          if forallb (λ b, b =? 0) block then
            match pax with
            | Some x => Throw (refuse (default [] (pax_path x)) PaxLast)
            | None => Ok u
            end
          else
            e ← parseHeader block pax;
            match p_type e with
            | PaxHeader =>
                let size := Z.to_nat (p_size e) in
                match read (size + length (padding size)) r with
                | (None, _) => Throw (refuse (p_path e) EndsInPax)
                | (Some bs, r) =>
                    x ← parsePax (take size bs) (p_path e);
                    unpackLoop f (Some x) (mkUnpacking r (seen u) (links u) (dirModes u) (calls u))
                end
            | Entry t => u ← unpackEntry e t u; unpackLoop f None u
            end
      end
  end.

(** The links, once every entry is there; then the modes of the directories. *)
Definition finishLinks (ls : linkMap) : res (list Call) :=
  mapM (λ p, _ ← checkLinkInside p ls; Ok (Symlink (default [] (mapGet p ls)) p)) (sortPaths ls.*1).

Definition unpackAssembly (input : list (list Z)) : res (list Call) :=
  u ← unpackLoop (S (length (concat input))) None (mkUnpacking (newReader input) [] [] [] []);
  sls ← finishLinks (links u);
  Ok (calls u ++ sls ++ (uncurry Chmod <$> rev (dirModes u))).

End Tar.
