(* ===== verification/TarProofs.v ===== *)
(** * The Assembly archive: the reader, the round trip, and the links

    Proofs about [Tar]: reading in chunks is reading the bytes; what is packed
    unpacks to the same tree, however the bytes are chunked; a link that is let
    in never leads outside. *)

From Stdlib Require Import Lia ZArith.
From stdpp Require Import base list strings sets gmap relations.
From S2P Require Import Prelude JsString Json Utf8 Record Tar.

Open Scope Z_scope.

Module TarProofs.
Import Tar.

(** ** The reader *)

Definition flat (r : ByteReader) : list Z := concat (chunks r) ++ concat (source r).

Definition wf (r : ByteReader) : Prop :=
  rlength r = length (concat (chunks r)) ∧ Forall (λ c, c ≠ []) (chunks r).

Lemma fillLoop_spec n cs len src :
  len = length (concat cs) → Forall (λ c, c ≠ []) cs →
  let r := fillLoop n cs len src in
  wf r ∧ flat r = concat cs ++ concat src ∧ ((n <= rlength r)%nat ∨ source r = []).
Proof.
  revert cs len. induction src as [|b src IH]; intros cs len Hl HF; simpl.
  - destruct (Nat.ltb_spec len n); (split; [by split|]); simpl; auto.
  - destruct (Nat.ltb_spec len n) as [H|H]; [|split; [by split|]; simpl; auto].
    destruct b as [|x b].
    + destruct (IH cs len Hl HF) as (H1 & H2 & H3). auto.
    + destruct (IH (cs ++ [x :: b]) (len + length (x :: b))%nat) as (H1 & H2 & H3).
      * rewrite concat_app, length_app. simpl. rewrite app_nil_r. simpl. lia.
      * apply Forall_app. split; [done|by apply Forall_singleton].
      * split; [done|]. split; [|done]. rewrite H2, concat_app, <- app_assoc. simpl. by rewrite app_nil_r.
Qed.

Lemma takeLoop_spec n cs :
  (n <= length (concat cs))%nat → Forall (λ c, c ≠ []) cs →
  (takeLoop n cs).1 = take n (concat cs) ∧ concat (takeLoop n cs).2 = drop n (concat cs)
  ∧ Forall (λ c, c ≠ []) (takeLoop n cs).2.
Proof.
  revert n. induction cs as [|c cs IH]; intros n Hn HF; [destruct n; simpl in *; auto; lia|].
  apply Forall_cons in HF as [Hc HF]. destruct n as [|n]; [by simpl; auto|].
  cbn [takeLoop]. cbn [concat] in *. rewrite length_app in Hn.
  destruct (Nat.leb_spec (length c) (S n)) as [H|H].
  - destruct (IH (S n - length c)%nat) as (H1 & H2 & H3); [lia|done|].
    destruct (takeLoop (S n - length c) cs) as [out more]. simpl in *.
    rewrite take_app, drop_app, (take_ge c), (drop_ge c) by lia. subst. auto.
  - cbn [fst snd]. rewrite take_app_le, drop_app_le by lia. split_and!; [done|done|].
    constructor; [|done]. intros E. apply (f_equal length) in E. rewrite length_drop in E. simpl in E. lia.
Qed.

Lemma fill_spec n r :
  wf r → wf (fill n r) ∧ flat (fill n r) = flat r ∧ ((n <= rlength (fill n r))%nat ∨ source (fill n r) = []).
Proof. intros [H1 H2]. by apply fillLoop_spec. Qed.

Lemma takeBytes_spec n r :
  wf r → (n <= rlength r)%nat →
  (takeBytes n r).1 = take n (flat r) ∧ flat (takeBytes n r).2 = drop n (flat r) ∧ wf (takeBytes n r).2.
Proof.
  intros [H1 H2] Hn. rewrite H1 in Hn. destruct (takeLoop_spec n (chunks r) Hn H2) as (T1 & T2 & T3).
  unfold takeBytes, flat. destruct (takeLoop n (chunks r)) as [out more]. simpl in *.
  rewrite take_app_le, drop_app_le by lia. subst. rewrite T2. split_and!; [done|done|].
  split; [|done]. simpl. rewrite T2, length_drop. lia.
Qed.

(** Reading is taking the bytes off the front. *)
Lemma read_spec n r :
  wf r → (n <= length (flat r))%nat →
  ∃ r', read n r = (Some (take n (flat r)), r') ∧ wf r' ∧ flat r' = drop n (flat r).
Proof.
  intros Hw Hn. destruct (fill_spec n r Hw) as (Hw' & Hf & Hs). unfold read.
  assert (n <= rlength (fill n r))%nat as Hl.
  { destruct Hs as [Hs|Hs]; [done|]. destruct Hw' as [Hw' _]. rewrite <- Hf in Hn.
    unfold flat in Hn. rewrite Hs, app_nil_r in Hn. lia. }
  rewrite (proj2 (Nat.leb_le _ _) Hl). destruct (takeBytes_spec n (fill n r) Hw' Hl) as (T1 & T2 & T3).
  destruct (takeBytes n (fill n r)) as [b r']. simpl in *. exists r'. rewrite Hf in *. subst. auto.
Qed.

Lemma read_short n r :
  wf r → (length (flat r) < n)%nat → ∃ r', read n r = (None, r').
Proof.
  intros Hw Hn. destruct (fill_spec n r Hw) as (Hw' & Hf & Hs). unfold read.
  rewrite (proj2 (Nat.leb_gt _ _)); [by eexists|]. destruct Hw' as [Hw' _]. rewrite <- Hf in Hn.
  unfold flat in Hn. rewrite length_app in Hn. lia.
Qed.

Lemma readSome_spec max r :
  wf r → flat r ≠ [] → (0 < max)%nat →
  ∃ n r', readSome max r = (Some (take n (flat r)), r') ∧ wf r' ∧ flat r' = drop n (flat r)
        ∧ (0 < n <= max)%nat ∧ (n <= length (flat r))%nat.
Proof.
  intros Hw Hne Hm. destruct (fill_spec 1 r Hw) as (Hw' & Hf & Hs). unfold readSome.
  destruct Hw' as [Hl HF].
  assert (0 < rlength (fill 1 r))%nat as Hpos.
  { destruct Hs as [Hs|Hs]; [lia|]. rewrite Hl. rewrite <- Hf in Hne. unfold flat in Hne.
    rewrite Hs, app_nil_r in Hne. destruct (concat (chunks (fill 1 r))); [done|simpl; lia]. }
  rewrite (proj2 (Nat.eqb_neq _ _)) by lia.
  set (n := Nat.min max _).
  assert (0 < n <= rlength (fill 1 r))%nat as Hn.
  { unfold n. destruct (chunks (fill 1 r)) as [|c cs]; [simpl in Hl; lia|].
    apply Forall_cons in HF as [Hc _]. cbn [concat] in Hl. rewrite length_app in Hl. simpl.
    destruct c; [done|]. simpl in *. lia. }
  destruct (takeBytes_spec n (fill 1 r)) as (T1 & T2 & T3); [by split|lia|].
  destruct (takeBytes n (fill 1 r)) as [b r']. simpl in *. exists n, r'. rewrite Hf in *. subst b.
  split_and!; try done; try lia. rewrite <- Hf. unfold flat. rewrite length_app. lia.
Qed.

Lemma readBody_spec fuel n r :
  wf r → (n <= fuel)%nat → (n <= length (flat r))%nat →
  ∃ r', readBody fuel n r = (Some (take n (flat r)), r') ∧ wf r' ∧ flat r' = drop n (flat r).
Proof.
  revert n r. induction fuel as [|f IH]; intros n r Hw Hf Hn.
  - assert (n = 0)%nat as -> by lia. exists r. auto.
  - destruct n as [|n]; [exists r; auto|]. cbn [readBody].
    destruct (readSome_spec (S n) r Hw) as (m & r1 & -> & Hw1 & Hf1 & Hm & Hm'); [|lia|].
    { intros E. rewrite E in Hn. simpl in Hn. lia. }
    rewrite length_take, Nat.min_l by lia.
    destruct (IH (S n - m)%nat r1 Hw1) as (r2 & -> & Hw2 & Hf2); [lia|rewrite Hf1, length_drop; lia|].
    exists r2. rewrite Hf2, Hf1, drop_drop. split_and!; [|done|f_equal; lia].
    f_equal. f_equal. rewrite take_drop_commute. replace (m + (S n - m))%nat with (S n) by lia.
    rewrite <- (take_drop m (take (S n) (flat r))) at 2. f_equal. rewrite take_take. f_equal. lia.
Qed.

Lemma readBody_short fuel n r :
  wf r → (n <= fuel)%nat → (length (flat r) < n)%nat → ∃ r', readBody fuel n r = (None, r').
Proof.
  revert n r. induction fuel as [|f IH]; intros n r Hw Hf Hn; [lia|].
  destruct n as [|n]; [lia|]. cbn [readBody].
  destruct (flat r) as [|x l] eqn:E.
  - assert (readSome (S n) r = (None, fill 1 r)) as ->; [|by eexists].
    destruct (fill_spec 1 r Hw) as (Hw' & Hfl & Hs). unfold readSome.
    assert (rlength (fill 1 r) = 0)%nat as ->; [|done].
    destruct Hw' as [-> _]. rewrite E in Hfl. unfold flat in Hfl. apply app_eq_nil in Hfl as [-> _]. done.
  - destruct (readSome_spec (S n) r Hw) as (m & r1 & -> & Hw1 & Hf1 & Hm & Hm'); [by rewrite E|lia|].
    rewrite E in *. rewrite length_take, Nat.min_l by lia.
    destruct (IH (S n - m)%nat r1 Hw1) as (r2 & ->); [lia|rewrite Hf1, length_drop; lia|by eexists].
Qed.

(** ** The fields of a block *)

Lemma sub_skip a b n k len : length a = n → sub (a ++ b) (n + k) len = sub b k len.
Proof.
  intros <-. unfold sub. rewrite drop_app. rewrite drop_ge by lia. simpl.
  by replace (length a + k - length a)%nat with k by lia.
Qed.

Lemma sub_here a b n : length a = n → sub (a ++ b) 0 n = a.
Proof. intros <-. unfold sub. rewrite drop_0. by rewrite take_app_length. Qed.

Lemma sub_at a b c n k : length a = n → length b = k → sub (a ++ b ++ c) n k = b.
Proof.
  intros Ha Hb. rewrite <- (Nat.add_0_r n), sub_skip by done. by apply sub_here.
Qed.

Lemma length_pad w bs : (length bs <= w)%nat → length (pad w bs) = w.
Proof. intros H. unfold pad. rewrite length_app, length_take, repeat_length. lia. Qed.

Lemma untilNul_app a b : 0 ∉ a → untilNul (a ++ 0 :: b) = a.
Proof.
  induction a as [|x a IH]; [done|]. intros [Hx Ha]%not_elem_of_cons. simpl.
  rewrite (proj2 (Z.eqb_neq _ _)) by done. by rewrite IH.
Qed.

Lemma untilNul_id a : 0 ∉ a → untilNul a = a.
Proof.
  induction a as [|x a IH]; [done|]. intros [Hx Ha]%not_elem_of_cons. simpl.
  rewrite (proj2 (Z.eqb_neq _ _)) by done. by rewrite IH.
Qed.

Lemma untilNul_pad w bs : (length bs <= w)%nat → 0 ∉ bs → untilNul (pad w bs) = bs.
Proof.
  intros Hl H0. unfold pad. rewrite take_ge by done.
  destruct (w - length bs)%nat as [|n] eqn:E; simpl.
  - rewrite app_nil_r. by apply untilNul_id.
  - by apply untilNul_app.
Qed.

(** *** Octal numbers *)

Definition octalDigit (c : Z) : Prop := 48 <= c <= 55.

Lemma radix8_digits n : 0 <= n → Forall octalDigit (to_radix 8 n).
Proof.
  intros Hn. destruct (to_radix_spec 8 n) as (_ & HF & _); [lia|done|].
  eapply Forall_impl; [exact HF|]. intros c [d Hd]. unfold digit_val in Hd. unfold octalDigit.
  split_match; [|done]. zbool. lia.
Qed.

Lemma octalDigit_space c : octalDigit c → is_space c = false.
Proof. unfold octalDigit, is_space. intros Hc. rewrite !orb_false_iff, !andb_false_iff, !Z.leb_gt, !Z.eqb_neq. lia. Qed.

Lemma trim_octal s : Forall octalDigit s → trim s = s.
Proof.
  assert (∀ s, Forall octalDigit s → trim_start s = s) as Hs.
  { intros t. destruct 1 as [|c t Hc _]; [done|]. simpl. by rewrite octalDigit_space. }
  intros HF. unfold trim. rewrite (Hs s), (Hs (rev s)) by (done || by apply Forall_rev). apply rev_involutive.
Qed.

Lemma read_zeros k s : read_digits 8 0 (repeat 48 k ++ s) = read_digits 8 0 s.
Proof. induction k as [|k IH]; [done|]. simpl. exact IH. Qed.

Lemma padStart_octal w v :
  0 <= v → Forall octalDigit (padStart w (to_radix 8 v)) ∧ padStart w (to_radix 8 v) ≠ []
  ∧ read_digits 8 0 (padStart w (to_radix 8 v)) = v.
Proof.
  intros Hv. destruct (to_radix_spec 8 v) as (Hne & _ & Hr); [lia|done|]. split_and!.
  - apply Forall_app. split; [|by apply radix8_digits].
    apply Forall_forall. intros x Hx%list_elem_of_In%repeat_spec. subst. unfold octalDigit. lia.
  - unfold padStart. intros E%app_eq_nil. by destruct E.
  - unfold padStart. by rewrite read_zeros.
Qed.

Lemma padStart_length w s : (length s <= w)%nat → length (padStart w s) = w.
Proof. intros H. unfold padStart. rewrite length_app, repeat_length. lia. Qed.

Lemma octal_no_nul s : Forall octalDigit s → 0 ∉ s.
Proof. intros HF Hin. rewrite Forall_forall in HF. apply HF in Hin. unfold octalDigit in Hin. lia. Qed.

(** What [writeOctal] writes, [readOctal] reads. *)
Lemma readOctal_bytes s b off len p v :
  field b off len = s → Forall octalDigit s → s ≠ [] → read_digits 8 0 s = v →
  readOctal b off len p = Ok v.
Proof.
  intros Hf HF Hne Hr. unfold readOctal. rewrite Hf, trim_octal by done.
  unfold isOctal. rewrite bool_decide_eq_false_2 by done. simpl.
  replace (forallb _ s) with true; [by rewrite Hr|]. symmetry. apply forallb_forall.
  intros c Hc%list_elem_of_In. rewrite Forall_forall in HF. apply HF in Hc. unfold octalDigit in Hc.
  apply andb_true_iff. rewrite !Z.leb_le. lia.
Qed.

Lemma octal_spec w v :
  (2 <= w)%nat → 0 <= v < 8 ^ Z.of_nat (w - 1) →
  length (octal w v) = w ∧ untilNul (octal w v) = padStart (w - 1) (to_radix 8 v).
Proof.
  intros Hw Hv. pose proof (to_radix_length 8 v (w - 1)) as Hl.
  assert (length (padStart (w - 1) (to_radix 8 v)) = (w - 1)%nat) as Hp by (apply padStart_length; lia).
  assert (length (padStart (w - 1) (to_radix 8 v) ++ [0]) = w) as Hs by (rewrite length_app, Hp; simpl; lia).
  unfold octal, pad. rewrite Hs, Nat.sub_diag, take_ge by lia. simpl repeat. rewrite app_nil_r.
  split; [done|]. apply untilNul_app, octal_no_nul.
  by destruct (padStart_octal (w - 1) v) as (? & _); [lia|].
Qed.

Definition isByte (b : Z) : Prop := 0 <= b < 256.

Lemma sumBytes_app a b : sumBytes (a ++ b) = sumBytes a + sumBytes b.
Proof. induction a as [|x a IH]; simpl; [done|]. rewrite IH. lia. Qed.

Lemma sumBytes_bound b : Forall isByte b → 0 <= sumBytes b <= 255 * Z.of_nat (length b).
Proof. induction 1 as [|x b Hx _ IH]; [done|]. unfold isByte in Hx. simpl length. simpl sumBytes. lia. Qed.

Lemma pad_bytes w bs : Forall isByte bs → Forall isByte (pad w bs).
Proof.
  intros HF. apply Forall_app. split; [by apply Forall_take|].
  apply Forall_forall. intros x Hx%list_elem_of_In%repeat_spec. subst. unfold isByte. lia.
Qed.

Lemma octalDigits_bytes s : Forall octalDigit s → Forall isByte s.
Proof. intros HF. eapply Forall_impl; [exact HF|]. unfold octalDigit, isByte. intros. lia. Qed.

Lemma octal_bytes w v : 0 <= v → Forall isByte (octal w v).
Proof.
  intros Hv. apply pad_bytes, Forall_app. split; [|apply Forall_singleton; unfold isByte; lia].
  apply octalDigits_bytes. by destruct (padStart_octal (w - 1) v) as (? & _).
Qed.

Lemma repeat_bytes c n : isByte c → Forall isByte (repeat c n).
Proof. intros Hc. apply Forall_forall. intros x Hx%list_elem_of_In%repeat_spec. by subst. Qed.

Record blockOk (split : list Z * list Z) (flag md size : Z) (link : list Z) : Prop := {
  bk_name : (length split.2 <= 100)%nat ∧ Forall isByte split.2;
  bk_prefix : (length split.1 <= 155)%nat ∧ Forall isByte split.1;
  bk_link : (length link <= 100)%nat ∧ Forall isByte link;
  bk_flag : isByte flag;
  bk_mode : 0 <= md < 8 ^ 7;
  bk_size : 0 <= size < 8 ^ 11;
}.

Lemma blockHead_spec name md size :
  (length name <= 100)%nat → Forall isByte name → 0 <= md < 8 ^ 7 → 0 <= size < 8 ^ 11 →
  length (blockHead name md size) = 148%nat ∧ Forall isByte (blockHead name md size).
Proof.
  intros Hn HF Hm Hs.
  destruct (octal_spec 8 md) as [L1 _]; [lia|done|]. destruct (octal_spec 8 0) as [L2 _]; [lia|done|].
  destruct (octal_spec 12 size) as [L3 _]; [lia|done|]. destruct (octal_spec 12 0) as [L4 _]; [lia|done|].
  unfold blockHead. split.
  - rewrite !length_app, length_pad, L1, L2, L3, L4 by done. done.
  - rewrite !Forall_app. split_and!; [by apply pad_bytes|apply octal_bytes; lia..].
Qed.

Lemma blockTail_spec flag link prefix :
  isByte flag → (length link <= 100)%nat → Forall isByte link →
  (length prefix <= 155)%nat → Forall isByte prefix →
  length (blockTail flag link prefix) = 356%nat ∧ Forall isByte (blockTail flag link prefix).
Proof.
  intros Hf Hl HFl Hp HFp. destruct (octal_spec 8 0) as [L2 _]; [lia|done|]. unfold blockTail. split.
  - rewrite !length_app, !length_pad, L2, !repeat_length by done. done.
  - assert (Forall isByte (js "ustar") ∧ Forall isByte (js "00")) as [? ?].
    { split; apply js_bytes. }
    rewrite !Forall_app. split_and!; try done; try (by apply pad_bytes); try (by apply octal_bytes);
      try (apply Forall_singleton; unfold isByte; lia); try (apply repeat_bytes; unfold isByte; lia).
    by apply Forall_singleton.
Qed.

Lemma length_blockOk split flag md size link :
  blockOk split flag md size link →
  length (blockHead split.2 md size) = 148%nat ∧ length (blockTail flag link split.1) = 356%nat
  ∧ Forall isByte (blockHead split.2 md size) ∧ Forall isByte (blockTail flag link split.1).
Proof.
  intros [[] [] [] ? ? ?]. destruct (blockHead_spec split.2 md size) as [? ?]; try done.
  destruct (blockTail_spec flag link split.1) as [? ?]; done.
Qed.

(** The checksum field. *)
Definition sumField (split : list Z * list Z) (flag md size : Z) (link : list Z) : list Z :=
  padStart 6 (to_radix 8 (sumBytes (blockHead split.2 md size ++ repeat 0x20 8 ++ blockTail flag link split.1))) ++ [0; 0x20].

Lemma ustarBlock_eq split flag md size link :
  ustarBlock split flag md size link
  = blockHead split.2 md size ++ sumField split flag md size link ++ blockTail flag link split.1.
Proof. unfold ustarBlock, sumField. by rewrite <- !app_assoc. Qed.

Lemma sumField_spec split flag md size link (s := sumBytes (blockHead split.2 md size ++ repeat 0x20 8 ++ blockTail flag link split.1)) :
  blockOk split flag md size link →
  length (sumField split flag md size link) = 8%nat ∧ 0 <= s
  ∧ untilNul (sumField split flag md size link) = padStart 6 (to_radix 8 s).
Proof.
  intros Hb. destruct (length_blockOk _ _ _ _ _ Hb) as (L1 & L2 & F1 & F2).
  assert (0 <= s <= 255 * 512) as Hs.
  { unfold s. pose proof (sumBytes_bound (blockHead split.2 md size ++ repeat 0x20 8 ++ blockTail flag link split.1)) as HB.
    rewrite !length_app, L1, L2, repeat_length in HB. apply HB. rewrite !Forall_app.
    split_and!; [done| |done]. apply repeat_bytes. unfold isByte. lia. }
  assert (length (padStart 6 (to_radix 8 s)) = 6%nat) as Hl.
  { apply padStart_length, to_radix_length; [lia| |lia]. simpl. lia. }
  unfold sumField. fold s. split_and!; [by rewrite length_app, Hl|lia|].
  apply untilNul_app, octal_no_nul. by destruct (padStart_octal 6 s) as (? & _); [lia|].
Qed.

Record parsedBlock (b : list Z) (split : list Z * list Z) (flag md size : Z) (link : list Z) : Prop := {
  pb_length : length b = BLOCK;
  pb_magic : sub b 257 6 = js "ustar" ++ [0];
  pb_version : sub b 263 2 = js "00";
  pb_flag : sub b 156 1 = [flag];
  pb_name : field b 0 100 = untilNul (pad 100 split.2);
  pb_prefix : field b 345 155 = untilNul (pad 155 split.1);
  pb_link : field b 157 100 = untilNul (pad 100 link);
  pb_size : ∀ p, readOctal b 124 12 p = Ok size;
  pb_mode : ∀ p, readOctal b 100 8 p = Ok md;
  pb_sum : ∀ p, readOctal b 148 8 p = Ok (headerSum b);
  pb_nonzero : forallb (λ x, x =? 0) b = false;
}.

Lemma readOctal_octal b off w v p :
  (2 <= w)%nat → 0 <= v < 8 ^ Z.of_nat (w - 1) → sub b off w = octal w v → readOctal b off w p = Ok v.
Proof.
  intros Hw Hv Hs. destruct (octal_spec w v Hw Hv) as [_ Hu].
  destruct (padStart_octal (w - 1) v) as (H1 & H2 & H3); [lia|].
  eapply readOctal_bytes; [|exact H1|done|done]. unfold field. by rewrite Hs, Hu.
Qed.

(** Where the fields are in the two parts of a block around its checksum. *)
Lemma blockTail_fields flag link pre :
  (length link <= 100)%nat → (length pre <= 155)%nat →
  sub (blockTail flag link pre) 0 1 = [flag] ∧ sub (blockTail flag link pre) 1 100 = pad 100 link
  ∧ sub (blockTail flag link pre) 101 6 = js "ustar" ++ [0] ∧ sub (blockTail flag link pre) 107 2 = js "00"
  ∧ sub (blockTail flag link pre) 189 155 = pad 155 pre.
Proof.
  intros Hl Hp. pose proof (length_pad 100 link Hl) as P1. pose proof (length_pad 155 pre Hp) as P2.
  destruct (octal_spec 8 0) as [O _]; [lia|done|]. unfold blockTail.
  assert (∀ k len b, (101 <= k)%nat → sub ([flag] ++ pad 100 link ++ b) k len = sub b (k - 101) len) as Hs.
  { intros k len b Hk. replace k with (1 + (100 + (k - 101)))%nat at 1 by lia. by rewrite !sub_skip. }
  split_and!; [by apply sub_here|by apply sub_at|by rewrite Hs by lia|by rewrite Hs by lia|].
  rewrite Hs by lia. change (189 - 101)%nat with (5 + (1 + (2 + (64 + (8 + (8 + 0))))))%nat.
  rewrite !sub_skip by done. by apply sub_here.
Qed.

Lemma blockHead_fields name md size :
  (length name <= 100)%nat → 0 <= md < 8 ^ 7 → 0 <= size < 8 ^ 11 →
  sub (blockHead name md size) 0 100 = pad 100 name ∧ sub (blockHead name md size) 100 8 = octal 8 md
  ∧ sub (blockHead name md size) 124 12 = octal 12 size.
Proof.
  intros Hn Hm Hs. pose proof (length_pad 100 name Hn) as P. destruct (octal_spec 8 md) as [O1 _]; [lia|done|].
  destruct (octal_spec 8 0) as [O2 _]; [lia|done|]. destruct (octal_spec 12 size) as [O3 _]; [lia|done|].
  unfold blockHead. split_and!; [by apply sub_here|by apply sub_at|].
  change 124%nat with (100 + (8 + (8 + (8 + 0))))%nat. rewrite !sub_skip by done. by apply sub_here.
Qed.

Lemma forallb_zero_false b x : x ∈ b → x ≠ 0 → forallb (λ x, x =? 0) b = false.
Proof.
  intros Hx Hn. destruct (forallb _ b) eqn:E; [|done]. rewrite forallb_forall in E.
  by apply list_elem_of_In, E, Z.eqb_eq in Hx.
Qed.

(** Every field of a block that was written reads back. *)
Lemma ustarBlock_parsed split flag md size link :
  blockOk split flag md size link →
  parsedBlock (ustarBlock split flag md size link) split flag md size link.
Proof.
  intros Hb. destruct (length_blockOk _ _ _ _ _ Hb) as (L1 & L2 & F1 & F2).
  destruct (sumField_spec _ _ _ _ _ Hb) as (L3 & Hs & Hu). destruct Hb as [[N1 _] [N2 _] [N3 _] ? Hm Hz].
  destruct (blockTail_fields flag link split.1 N3 N2) as (T1 & T2 & T3 & T4 & T5).
  destruct (blockHead_fields split.2 md size N1 Hm Hz) as (H1 & H2 & H3). rewrite ustarBlock_eq.
  set (c := sumField split flag md size link) in *. set (h := blockHead split.2 md size) in *.
  set (t := blockTail flag link split.1) in *.
  assert (∀ k len, sub (h ++ c ++ t) (156 + k) len = sub t k len) as Ht.
  { intros k len. replace (156 + k)%nat with (148 + (8 + k))%nat by lia. by rewrite !sub_skip. }
  assert (∀ k len, (k + len <= 148)%nat → sub (h ++ c ++ t) k len = sub h k len) as Hh.
  { intros k len Hk. unfold sub. rewrite drop_app_le, take_app_le; [done| |lia]. rewrite length_drop. lia. }
  assert (sub (h ++ c ++ t) 148 8 = c) as Hc by by apply sub_at.
  constructor; unfold field.
  - rewrite !length_app, L1, L2, L3. done.
  - by rewrite (Ht 101%nat).
  - by rewrite (Ht 107%nat).
  - by rewrite (Ht 0%nat).
  - by rewrite Hh, H1 by lia.
  - by rewrite (Ht 189%nat), T5.
  - by rewrite (Ht 1%nat), T2.
  - intros p. apply readOctal_octal; [lia|done|]. by rewrite Hh, H3 by lia.
  - intros p. apply readOctal_octal; [lia|done|]. by rewrite Hh, H2 by lia.
  - intros p. destruct (padStart_octal 6 (sumBytes (h ++ repeat 0x20 8 ++ t))) as (D1 & D2 & D3); [done|].
    eapply readOctal_bytes; [|exact D1|done|]; [by unfold field; rewrite Hc|]. rewrite D3.
    unfold headerSum. f_equal. rewrite take_app_le, take_ge by lia. f_equal. f_equal.
    rewrite drop_app, drop_ge, L1 by lia. simpl. by rewrite drop_app, drop_ge, L3, drop_0 by lia.
  - apply (forallb_zero_false _ 117); [|done]. assert (117 ∈ sub (h ++ c ++ t) 257 6) as Hi by (rewrite (Ht 101%nat), T3; by left).
    unfold sub in Hi. apply elem_of_take in Hi as (i & Hi & _). rewrite lookup_drop in Hi. by apply list_elem_of_lookup_2 in Hi.
Qed.

(** ** Text in the fields *)

Lemma ascii_not_cont c lo hi : 0 <= c <= 0x7f → 0x80 <= lo → between lo hi c = false.
Proof. intros Hc Hl. unfold between. rewrite (proj2 (Z.leb_gt _ _)) by lia. done. Qed.

(** An ASCII character ends whatever sequence comes before it. *)
Lemma decode_app_ascii p c n : 0 <= c <= 0x7f → decode (p ++ c :: n) = decode p ++ decode (c :: n).
Proof.
  intros Hc. induction p as [p IH] using (induction_ltof1 _ (@length Z)). unfold ltof in IH.
  destruct p as [|b p]; [done|].
  assert (∀ q, (length q <= length p)%nat → decode (q ++ c :: n) = decode q ++ decode (c :: n)) as IH'.
  { intros q Hq. apply IH. simpl. lia. }
  assert (∀ lo hi, 0x80 <= lo → between lo hi c = false) as HB by (intros; by apply ascii_not_cont).
  assert (is_cont c = false) as HCc by by apply HB.
  assert (∀ (d : bool) hi, between (if d then 160 else 128) hi c = false) as H1 by (intros []; intros; by apply HB).
  assert (∀ (d : bool) hi, between (if d then 144 else 128) hi c = false) as H2 by (intros []; intros; by apply HB).
  clear IH. cbn [app]. cbn [decode]. fold decode.
  destruct (b <=? 0x7f); [by rewrite IH'|].
  destruct (between 0xc2 0xdf b).
  { destruct p as [|p1 p]; cbn [app]; [by rewrite HCc|].
    destruct (is_cont p1); [rewrite <- app_assoc; f_equal; apply IH'; simpl; lia|].
    cbn [app]. f_equal. apply (IH' (p1 :: p)). lia. }
  destruct (between 0xe0 0xef b).
  { destruct p as [|p1 p]; cbn [app]; [by rewrite H1|].
    destruct (between _ _ p1); [|cbn [app]; f_equal; apply (IH' (p1 :: p)); lia].
    destruct p as [|p2 p]; cbn [app]; [by rewrite HCc|].
    destruct (is_cont p2); [rewrite <- app_assoc; f_equal; apply IH'; simpl; lia|].
    cbn [app]. f_equal. apply (IH' (p2 :: p)). simpl. lia. }
  destruct (between 0xf0 0xf4 b).
  { destruct p as [|p1 p]; cbn [app]; [by rewrite H2|].
    destruct (between _ _ p1); [|cbn [app]; f_equal; apply (IH' (p1 :: p)); lia].
    destruct p as [|p2 p]; cbn [app]; [by rewrite HCc|].
    destruct (is_cont p2); [|cbn [app]; f_equal; apply (IH' (p2 :: p)); simpl; lia].
    destruct p as [|p3 p]; cbn [app]; [by rewrite HCc|].
    destruct (is_cont p3); [rewrite <- app_assoc; f_equal; apply IH'; simpl; lia|].
    cbn [app]. f_equal. apply (IH' (p3 :: p)). simpl. lia. }
  by rewrite IH'.
Qed.

Lemma decode_encode s : well_formed s = true → decode (encode s) = s.
Proof. intros Hw. rewrite <- (app_nil_r (encode s)), decode_encode_app by done. apply app_nil_r. Qed.

Lemma decode_nonempty b : b ≠ [] → decode b ≠ [].
Proof.
  destruct b as [|x b]; [done|]. intros _. cbn [decode].
  assert (∀ cp l, units_of cp ++ l ≠ []) as HU by (intros cp l; unfold units_of; by destruct (cp <? 0x10000)).
  repeat match goal with |- context [match ?x with _ => _ end] => destruct x end; done || apply HU.
Qed.

Lemma encode_bytes s : well_formed s = true → Forall isByte (encode s).
Proof.
  induction s as [s IH] using (induction_ltof1 _ (@length Z)). unfold ltof in IH.
  destruct s as [|c s]; [constructor|]. cbn [well_formed]. destruct (is_high c) eqn:Eh.
  - destruct s as [|d s]; [done|]. intros [El Hw]%andb_true_iff.
    rewrite encode_pair by by rewrite Eh, El. apply Forall_app. split; [|apply IH; [simpl; lia|done]].
    apply Record.utf8_bytes_range. unfold is_high, is_low, pair_point in *. zbool. lia.
  - intros [[Hl Hb]%andb_true_iff Hw]%andb_true_iff. rewrite encode_cons_single by done.
    apply Forall_app. split; [|apply IH; [simpl; lia|done]].
    apply Record.utf8_bytes_range. unfold between, REPLACEMENT in *. zbool. split_match; lia.
Qed.

Lemma encode_no_nul s : 0 ∉ s → 0 ∉ encode s.
Proof. intros H0 Hin. by apply H0, (encode_elem s 0). Qed.

Lemma encode_unit_length c : c < 65536 → Z.of_nat (length (encode_unit c)) = unit_bytes c.
Proof.
  intros Hc. unfold encode_unit, unit_bytes, utf8_bytes, REPLACEMENT, is_high, is_low.
  destruct ((0xd800 <=? c) && (c <=? 0xdbff) || (0xdc00 <=? c) && (c <=? 0xdfff)) eqn:E.
  - simpl. assert (0xd800 <= c) by (rewrite orb_true_iff, !andb_true_iff, !Z.leb_le in E; lia).
    rewrite !(proj2 (Z.leb_gt _ _)) by lia. done.
  - destruct (c <=? 0x7f); [done|]. destruct (c <=? 0x7ff); [done|].
    rewrite (proj2 (Z.leb_le c 0xffff)) by lia. done.
Qed.

Lemma well_formed_units s : well_formed s = true → Forall (λ c, c < 65536) s.
Proof.
  induction s as [s IH] using (induction_ltof1 _ (@length Z)). unfold ltof in IH.
  destruct s as [|c s]; [constructor|]. cbn [well_formed]. destruct (is_high c) eqn:Eh.
  - destruct s as [|d s]; [done|]. intros [El Hw]%andb_true_iff. unfold is_high, is_low in *. zbool.
    constructor; [lia|]. constructor; [lia|]. apply IH; [simpl; lia|done].
  - intros [[Hl Hb]%andb_true_iff Hw]%andb_true_iff. unfold between in Hb. zbool.
    constructor; [lia|]. apply IH; [simpl; lia|done].
Qed.

(** [Buffer.byteLength] is the number of bytes. *)
Lemma encode_length s : well_formed s = true → Z.of_nat (length (encode s)) = utf8ByteLength s.
Proof.
  intros Hw%well_formed_units. revert Hw.
  induction s as [|c|c d s E IH|c d s E IH] using utf16_ind; intros Hw.
  - done.
  - apply Forall_cons in Hw as [Hc _]. simpl. by apply encode_unit_length.
  - rewrite encode_pair, utf8_pair by done. apply Forall_cons in Hw as [_ Hw]. apply Forall_cons in Hw as [_ Hw].
    rewrite length_app, Nat2Z.inj_add, IH by done. f_equal.
    apply andb_true_iff in E as [Eh El]. unfold is_high, is_low in *. zbool.
    unfold utf8_bytes, pair_point. rewrite !(proj2 (Z.leb_gt _ _)) by lia. done.
  - rewrite encode_single, utf8_single by done. apply Forall_cons in Hw as [Hc Hw].
    by rewrite length_app, Nat2Z.inj_add, IH, encode_unit_length.
Qed.

(** ** Splitting a name *)

Lemma splitLoop_spec before rest pre name :
  splitLoop before rest = Some (pre, name) →
  before ++ rest = pre ++ slash :: name ∧ (length pre <= 155)%nat ∧ (0 < length name <= 100)%nat
  ∧ (before = [] → ¬ (∃ r, rest = slash :: r) → pre ≠ []).
Proof.
  revert before. induction rest as [|c rest IH]; intros before E; [done|].
  cbn [splitLoop] in E. destruct rest as [|x rest]; [done|].
  assert (∀ E' : splitLoop (before ++ [c]) (x :: rest) = Some (pre, name),
    before ++ c :: x :: rest = pre ++ slash :: name ∧ (length pre <= 155)%nat ∧ (0 < length name <= 100)%nat
    ∧ (before = [] → ¬ (∃ r, c :: x :: rest = slash :: r) → pre ≠ [])) as HN.
  { intros E'. destruct (IH _ E') as (H1 & H2 & H3 & _). rewrite <- app_assoc in H1. split_and!; try done; try lia.
    intros -> Hns ->. simpl in H1. apply Hns. injection H1 as -> _. by eexists. }
  destruct (Z.eqb_spec c slash) as [->|Hc]; [|by apply HN].
  destruct (Nat.ltb_spec PREFIX_MAX (length before)) as [Hp|Hp]; [done|].
  destruct (_ && _) eqn:Eg; [|by apply HN]. injection E as <- <-. zbool. unfold PREFIX_MAX, NAME_MAX in *.
  split_and!; [done|lia|lia|lia|]. intros -> Hns. destruct Hns. by eexists.
Qed.

Lemma encode_first_slash s r : encode s = slash :: r → startsSlash s = true.
Proof.
  destruct s as [|c s]; [done|]. intros E.
  assert (slash = c) as <-; [|done].
  destruct s as [|d s].
  - apply (encode_unit_elem c slash); [done|]. simpl in E. rewrite E. by left.
  - destruct (is_high c && is_low d) eqn:Ep.
    + rewrite encode_pair in E by done. exfalso. apply andb_true_iff in Ep as [Eh El].
      assert (slash ∈ utf8_bytes (pair_point c d)) as Hin.
      { destruct (utf8_bytes (pair_point c d)) eqn:Eu; [|simplify_eq/=; by left].
        unfold utf8_bytes in Eu. by repeat destruct (_ <=? _). }
      apply utf8_bytes_big in Hin; [done|]. unfold pair_point, is_high, is_low in *. zbool. lia.
    + rewrite encode_single in E by done. apply (encode_unit_elem c slash); [done|].
      destruct (encode_unit c) eqn:Eu; [|simplify_eq/=; by left].
      exfalso. unfold encode_unit, utf8_bytes in Eu. by repeat destruct (_ <=? _).
Qed.

(** The fields that hold a name that fits give the name back. *)
Lemma splitName_spec full pre name :
  well_formed full = true → startsSlash full = false → splitName full = Some (pre, name) →
  (length name <= 100)%nat ∧ (length pre <= 155)%nat
  ∧ Forall (λ b, b ∈ encode full) name ∧ Forall (λ b, b ∈ encode full) pre
  ∧ match decode pre with [] => decode name | _ => decode pre ++ [slash] ++ decode name end = full.
Proof.
  intros Hw Hs. unfold splitName. destruct (Nat.leb_spec (length (encode full)) NAME_MAX) as [Hl|Hl].
  - intros [= <- <-]. unfold NAME_MAX in Hl. split_and!; [done|simpl; lia|by apply Forall_forall|constructor|].
    by apply decode_encode.
  - intros E. destruct (splitLoop_spec _ _ _ _ E) as (H1 & H2 & H3 & H4). simpl in H1.
    assert (pre ≠ []) as Hp.
    { apply H4; [done|]. intros [r Hr]. apply encode_first_slash in Hr. congruence. }
    split_and!; [lia|done|apply Forall_forall; intros b Hb; rewrite H1; set_solver..|].
    assert (decode pre ++ [slash] ++ decode name = full) as <-.
    { rewrite <- (decode_encode full Hw), H1, decode_app_ascii by done. done. }
    pose proof (decode_nonempty pre Hp). by destruct (decode pre).
Qed.

(** ** Pax records *)

(** The loop of [paxRecord] ends within the fuel, at a length that counts
    itself, for every value that is let in (checked for each one). *)
Lemma paxLength_fixed r :
  0 < r < 4200 → let l := paxLength 4 r (r + 1) in Z.of_nat (length (of_int l)) + r = l ∧ 0 < l < 4300.
Proof.
  intros Hr.
  assert (forallb (λ n, let r := Z.of_nat n in let l := paxLength 4 r (r + 1) in
            (Z.of_nat (length (of_int l)) + r =? l) && ((0 <? l) && (l <? 4300))) (seq 1 4200) = true) as H by by vm_compute.
  rewrite forallb_forall in H. specialize (H (Z.to_nat r)). cbv zeta in *. rewrite Z2Nat.id in H by lia.
  destruct (andb_prop _ _ (H ltac:(apply in_seq; lia))) as [H1 H2]. zbool. lia.
Qed.

Lemma of_int_ascii n : 0 <= n → Forall (λ c, 0 <= c <= 0x7f) (of_int n).
Proof.
  intros Hn. eapply Forall_impl; [by apply Json.digits_of_int|]. intros c.
  unfold Json.is_digit. rewrite andb_true_iff, !Z.leb_le. lia.
Qed.

Lemma encode_app_ascii a b : Forall (λ c, 0 <= c <= 0x7f) a → encode (a ++ b) = a ++ encode b.
Proof.
  induction 1 as [|c a Hc _ IH]; [done|].
  assert (is_high c = false) as Eh by (unfold is_high; apply andb_false_iff; rewrite Z.leb_gt; lia).
  assert (is_low c = false) as El by (unfold is_low; apply andb_false_iff; rewrite Z.leb_gt; lia).
  cbn [app]. rewrite encode_cons_single, IH by done. unfold encode_unit, utf8_bytes. rewrite Eh, El. simpl.
  by rewrite (proj2 (Z.leb_le _ _)) by lia.
Qed.

Lemma encode_app_wf a b : well_formed a = true → encode (a ++ b) = encode a ++ encode b.
Proof.
  induction a as [a IH] using (induction_ltof1 _ (@length Z)). unfold ltof in IH.
  destruct a as [|c a]; [done|]. cbn [well_formed]. destruct (is_high c) eqn:Eh.
  - destruct a as [|d a]; [done|]. intros [El Hw]%andb_true_iff. cbn [app].
    rewrite !encode_pair by by rewrite Eh, El. rewrite IH by (simpl; lia || done). apply app_assoc.
  - intros [_ Hw]%andb_true_iff. cbn [app]. rewrite !encode_cons_single by done.
    rewrite IH by (simpl; lia || done). apply app_assoc.
Qed.

Definition keyOk (key : jstr) : Prop := Forall (λ c, 0 <= c <= 0x7f) key ∧ (61 ∉ key) ∧ key ≠ [] ∧ (length key <= 8)%nat.

Lemma cutAt_app c a b : c ∉ a → cutAt c (a ++ c :: b) = Some (a, b).
Proof.
  induction a as [|x a IH]; [by simpl; rewrite Z.eqb_refl|]. intros [Hx Ha]%not_elem_of_cons. simpl.
  rewrite (proj2 (Z.eqb_neq _ _)) by done. by rewrite IH.
Qed.

Lemma isLength_of_int n : 0 < n → isLength (of_int n) = true.
Proof.
  intros Hn. pose proof (Json.of_int_head n Hn) as Hh. pose proof (Json.digits_of_int n ltac:(lia)) as HF.
  destruct (to_radix_spec 10 n) as (Hne & _ & _); [lia|lia|]. fold (of_int n) in *.
  destruct (of_int n) as [|c r]; [done|]. apply Forall_cons in HF as [Hc HF]. unfold Json.is_digit in Hc. zbool.
  simpl in *. rewrite !andb_true_iff, !Z.leb_le. split_and!; [|lia|].
  - assert (c ≠ 48) by congruence. lia.
  - apply forallb_forall. intros x Hx%list_elem_of_In. rewrite Forall_forall in HF. by apply HF.
Qed.

Lemma record_well_formed key value :
  keyOk key → well_formed value = true → well_formed (key ++ [61] ++ value) = true.
Proof.
  intros (Hk & _) Hv. apply well_formed_app; [by apply ascii_well_formed|].
  apply (well_formed_app [61]); done.
Qed.

(** The bytes of a record: its length, a space, [key=value], a newline. *)
Lemma paxRecord_bytes key value :
  keyOk key → well_formed value = true → utf8ByteLength value <= PAX_VALUE_MAX →
  ∃ l, 0 < l < 4300 ∧ encode (paxRecord key value) = of_int l ++ 32 :: encode (key ++ [61] ++ value) ++ [10]
     ∧ Z.of_nat (length (encode (paxRecord key value))) = l
     ∧ well_formed (paxRecord key value) = true.
Proof.
  intros Hk Hv Hl. unfold paxRecord. set (rest := [32] ++ key ++ [61] ++ value ++ [10]).
  assert (well_formed rest = true) as Hw.
  { unfold rest. apply (well_formed_app [32]); [done|].
    replace (key ++ [61] ++ value ++ [10]) with ((key ++ [61] ++ value) ++ [10]) by by rewrite <- !app_assoc.
    apply well_formed_app; [by apply record_well_formed|done]. }
  assert (encode rest = 32 :: encode (key ++ [61] ++ value) ++ [10]) as Er.
  { unfold rest. rewrite (encode_app_ascii [32]) by (repeat constructor; lia). cbn [app]. f_equal.
    rewrite <- Record.encode_nl. f_equal. by rewrite <- !app_assoc. }
  assert (0 < utf8ByteLength rest < 4200) as Hr.
  { rewrite <- encode_length, Er by done. destruct Hk as (Hk & _ & _ & Hkl).
    rewrite !encode_app_ascii by first [done|repeat constructor; lia].
    pose proof (encode_length value Hv). unfold PAX_VALUE_MAX in *. simpl length. rewrite !length_app. simpl. lia. }
  destruct (paxLength_fixed _ Hr) as [Hf Hpos]. set (l := paxLength 4 _ _) in *.
  exists l. rewrite encode_app_ascii by (apply of_int_ascii; lia). split_and!; [lia|lia|by rewrite Er| |].
  - rewrite length_app, Nat2Z.inj_add, encode_length by done. done.
  - apply well_formed_app; [apply ascii_well_formed, of_int_ascii; lia|done].
Qed.

Lemma keyOf_record key value : 61 ∉ key → key ≠ [] → keyOf (key ++ [61] ++ value) = key ∧ valueOf (key ++ [61] ++ value) = value.
Proof.
  intros H Hn. change ([61] ++ value) with (61 :: value). unfold keyOf, valueOf.
  rewrite cutAt_app by done. by destruct key.
Qed.

(** One round of [parsePax]. *)
Lemma parsePax_step f key value more at_ pax :
  keyOk key → well_formed value = true → utf8ByteLength value <= PAX_VALUE_MAX →
  parsePaxLoop (S f) (encode (paxRecord key value) ++ more) at_ pax
  = if bool_decide (key = js "path") then
      match pax_path pax with
      | Some _ => Throw (refuse at_ PaxTwice)
      | None => parsePaxLoop f more at_ (mkPax (Some value) (pax_linkpath pax))
      end
    else if bool_decide (key = js "linkpath") then
      match pax_linkpath pax with
      | Some _ => Throw (refuse at_ PaxTwice)
      | None => parsePaxLoop f more at_ (mkPax (pax_path pax) (Some value))
      end
    else Throw (refuse at_ PaxKey).
Proof.
  intros Hk Hv Hl. destruct (paxRecord_bytes key value Hk Hv Hl) as (l & Hpos & Eb & El & _).
  assert (of_int l ≠ [] ∧ 32 ∉ of_int l) as [Hne H32].
  { destruct (to_radix_spec 10 l) as (Hne & _ & _); [lia|lia|]. split; [done|].
    intros Hin. pose proof (Json.digits_of_int l ltac:(lia)) as HF. rewrite Forall_forall in HF. by apply HF in Hin. }
  set (bytes := encode (paxRecord key value)) in *. set (rec := encode (key ++ [61] ++ value)) in *.
  assert (cutAt 32 (bytes ++ more) = Some (of_int l, rec ++ [10] ++ more)) as Hcut.
  { rewrite Eb. rewrite <- !app_assoc. cbn [app]. rewrite cutAt_app by done. by rewrite <- app_assoc. }
  assert (∃ x xs, bytes ++ more = x :: xs) as (x & xs & Ex).
  { rewrite Eb. destruct (of_int l); [done|]. by eexists _, _. }
  cbn [parsePaxLoop]. rewrite Ex. rewrite <- Ex, Hcut, isLength_of_int by lia.
  assert (read_digits 10 0 (of_int l) = l) as -> by (destruct (to_radix_spec 10 l) as (_ & _ & ?); [lia|lia|done]).
  assert (length bytes = (length (of_int l) + 1 + length rec + 1)%nat) as Hlen.
  { rewrite Eb, !length_app. simpl. rewrite length_app. simpl. lia. }
  assert (Z.to_nat l = length bytes) as HN by lia.
  rewrite (proj2 (Z.ltb_ge _ _)) by (rewrite length_app; lia). cbn [orb].
  assert ((bytes ++ more) !! Z.to_nat (l - 1) = Some 10) as Hlast.
  { replace (Z.to_nat (l - 1)) with (length (of_int l) + S (length rec))%nat by lia.
    rewrite Eb. rewrite <- !app_assoc, lookup_app_r by lia.
    replace (length (of_int l) + S (length rec) - length (of_int l))%nat with (S (length rec)) by lia.
    change ((32 :: rec ++ [10]) ++ more) with (32 :: (rec ++ [10]) ++ more).
    rewrite <- app_assoc. change (([10] ++ more)) with (10 :: more). rewrite lookup_cons_S || cbn [lookup list_lookup].
    by apply list_lookup_middle. }
  rewrite Hlast, bool_decide_eq_true_2 by done. cbn [negb].
  assert (sub (bytes ++ more) (length (of_int l) + 1) (Z.to_nat l - 1 - (length (of_int l) + 1)) = rec) as Hsub.
  { rewrite Eb. replace ((of_int l ++ 32 :: rec ++ [10]) ++ more) with ((of_int l ++ [32]) ++ rec ++ [10] ++ more)
      by by rewrite <- !app_assoc; cbn [app]; rewrite <- !app_assoc.
    apply sub_at; [by rewrite length_app|lia]. }
  rewrite Hsub. unfold rec. rewrite decode_encode by by apply record_well_formed.
  rewrite HN, drop_app_length. destruct Hk as (_ & H61 & Hkn & _).
  destruct (keyOf_record key value H61 Hkn) as [-> ->]. done.
Qed.

Lemma keyOk_path : keyOk (js "path").
Proof. split_and!; [by apply (bool_decide_unpack (Forall (λ c, 0 <= c <= 0x7f) (js "path")))|by apply (bool_decide_unpack (61 ∉ js "path"))|done|simpl; lia]. Qed.

Lemma keyOk_linkpath : keyOk (js "linkpath").
Proof. split_and!; [by apply (bool_decide_unpack (Forall (λ c, 0 <= c <= 0x7f) (js "linkpath")))|by apply (bool_decide_unpack (61 ∉ js "linkpath"))|done|simpl; lia]. Qed.

Definition paxText (p tgt : option jstr) : jstr :=
  from_option (paxRecord (js "linkpath")) [] tgt ++ from_option (paxRecord (js "path")) [] p.

Definition paxValueOk (v : option jstr) : Prop :=
  match v with Some s => well_formed s = true ∧ utf8ByteLength s <= PAX_VALUE_MAX | None => True end.

(** A pax header's records read back. *)
Lemma parsePax_text p tgt at_ :
  paxValueOk p → paxValueOk tgt → parsePax (encode (paxText p tgt)) at_ = Ok (mkPax p tgt).
Proof.
  intros Hp Ht. unfold parsePax, paxText.
  assert (∀ key v, keyOk key → well_formed v = true → utf8ByteLength v <= PAX_VALUE_MAX →
    ∃ n, length (encode (paxRecord key v)) = S n ∧ well_formed (paxRecord key v) = true) as HL.
  { intros key v Hk Hw Hl. destruct (paxRecord_bytes key v Hk Hw Hl) as (l & ? & _ & ? & ?).
    exists (Z.to_nat (l - 1)). split; [lia|done]. }
  destruct tgt as [t|], p as [q|]; cbn [from_option]; rewrite ?app_nil_r; [| | |done].
  - destruct Hp as [Wp Lp], Ht as [Wt Lt].
    destruct (HL _ t keyOk_linkpath Wt Lt) as (n1 & N1 & W1). destruct (HL _ q keyOk_path Wp Lp) as (n2 & N2 & W2).
    rewrite encode_app_wf, length_app, N1, N2 by done. cbn [Nat.add]. rewrite parsePax_step by (done || apply keyOk_linkpath).
    rewrite bool_decide_eq_false_2, bool_decide_eq_true_2 by done. cbn [pax_linkpath pax_path].
    rewrite <- (app_nil_r (encode (paxRecord (js "path") q))).
    replace (n1 + S n2)%nat with (S (n1 + n2)) by lia. rewrite parsePax_step by (done || apply keyOk_path).
    rewrite bool_decide_eq_true_2 by done. cbn [pax_linkpath pax_path]. by destruct (n1 + n2)%nat.
  - destruct Ht as [Wt Lt]. destruct (HL _ t keyOk_linkpath Wt Lt) as (n1 & N1 & W1).
    rewrite N1, <- (app_nil_r (encode _)), parsePax_step by (done || apply keyOk_linkpath).
    rewrite bool_decide_eq_false_2, bool_decide_eq_true_2 by done. cbn [pax_linkpath pax_path]. by destruct n1.
  - destruct Hp as [Wp Lp]. destruct (HL _ q keyOk_path Wp Lp) as (n2 & N2 & W2). cbn [app].
    rewrite N2, <- (app_nil_r (encode _)), parsePax_step by (done || apply keyOk_path).
    rewrite bool_decide_eq_true_2 by done. cbn [pax_linkpath pax_path]. by destruct n2.
Qed.

(** ** A header that was written, read *)

Record pathOk (p : jstr) : Prop := {
  po_check : checkEntryPath p = Ok tt;
  po_wf : well_formed p = true;
}.

Lemma checkEntryPath_facts p :
  checkEntryPath p = Ok tt →
  p ≠ [] ∧ (0 ∉ p) ∧ startsSlash p = false ∧ Forall (λ s, isDot s = false ∧ isDots s = false) (segments p).
Proof.
  unfold checkEntryPath. intros H. ok_inv. zbool. split_and!; [done|done|done|].
  apply Forall_forall. intros s Hs%list_elem_of_In. split.
  - destruct (isDot s) eqn:Ed; [|done]. assert (existsb isDot (segments p) = true); [|congruence].
    apply existsb_exists. eauto.
  - destruct (isDots s) eqn:Ed; [|done]. assert (existsb isDots (segments p) = true); [|congruence].
    apply existsb_exists. eauto.
Qed.

Lemma split_snoc_sep sep q : split_on sep (q ++ [sep]) = split_on sep q ++ [[]].
Proof.
  rewrite <- (split_join sep (split_on sep q ++ [[]])).
  - f_equal. rewrite join_snoc by apply split_on_nonempty. by rewrite join_split.
  - by destruct (split_on sep q).
  - apply Forall_app. split; [apply split_parts_no_sep|apply Forall_singleton; set_solver].
Qed.

Lemma path_no_trailing_slash p : checkEntryPath p = Ok tt → ends_with slash p = false.
Proof.
  intros Hc. destruct (checkEntryPath_facts p Hc) as (_ & _ & _ & HF).
  destruct (ends_with slash p) eqn:E; [|done]. exfalso. unfold ends_with in E.
  destruct (last p) as [d|] eqn:El; [|done]. apply Z.eqb_eq in E as ->.
  apply last_snoc_inv in El as [q ->]. rewrite split_snoc_sep in HF.
  apply Forall_app in HF as [_ HF]. apply Forall_cons in HF as [[HF _] _]. done.
Qed.

Definition entryBlock (t : EntryType) (md size : Z) (split : list Z * list Z) (link : list Z) : list Z :=
  ustarBlock split (TYPEFLAG t) md size link.

(** What [parseHeader] makes of a block that was written. *)
Lemma parseHeader_entry p t md size split link pax tgt :
  blockOk split (TYPEFLAG t) md size link →
  (t ≠ file → size = 0) → checkEntryPath p = Ok tt →
  let b := ustarBlock split (TYPEFLAG t) md size link in
  default (match decode (field b 345 155) with [] => decode (field b 0 100)
           | _ => decode (field b 345 155) ++ [slash] ++ decode (field b 0 100) end) (x ← pax; pax_path x)
    = (match t with dir => p ++ [slash] | _ => p end) ∨ (x ← pax; pax_path x) = Some p →
  (t ≠ symlink → (x ← pax; pax_linkpath x) = None) →
  default (decode (field b 157 100)) (x ← pax; pax_linkpath x) = tgt →
  parseHeader b pax = Ok (mkParsed p (Entry t) md size tgt).
Proof.
  intros Hb Hsize Hc b Hpath Hlink Htgt. destruct (ustarBlock_parsed _ _ _ _ _ Hb) as [_ M V F _ _ _ S O C _].
  fold b in M, V, F, S, O, C. unfold parseHeader. set (path0 := default _ (x ← pax; pax_path x)) in *.
  assert (match t with dir => if ends_with slash path0 then removelast path0 else path0 | _ => path0 end = p) as Hp.
  { destruct Hpath as [->|Hpath].
    - destruct t; [|done|done]. unfold ends_with. rewrite last_snoc, Z.eqb_refl. apply removelast_last.
    - unfold path0. rewrite Hpath. simpl. destruct t; [|done|done].
      by rewrite path_no_trailing_slash. }
  clearbody path0. rewrite M, V, !bool_decide_eq_true_2 by done. cbn [negb orb guard_throw].
  rewrite rok_bind, C, rok_bind, Z.eqb_refl. cbn [negb guard_throw]. rewrite rok_bind, F.
  assert (typeOf [TYPEFLAG t] = Some (Entry t)) as -> by by destruct t.
  rewrite rok_bind. assert (match Entry t with
    | Entry dir => if ends_with slash path0 then removelast path0 else path0 | _ => path0 end = p) as ->
    by (rewrite <- Hp; by destruct t).
  rewrite S, rok_bind.
  assert ((match Entry t with
       | PaxHeader =>
           _ ← guard_throw (match pax with Some _ => true | None => false end) (refuse p PaxAfterPax);
           guard_throw (PAX_BODY_MAX <? size) (refuse p PaxLarge)
       | Entry file => Ok tt
       | Entry _ => guard_throw (negb (size =? 0)) (refuse p CarriesBody)
       end) = Ok tt) as ->.
  { destruct t; [rewrite Hsize by done; done|done|rewrite Hsize by done; done]. }
  rewrite rok_bind.
  assert ((match x ← pax; pax_linkpath x, Entry t with
       | Some _, Entry symlink => Ok tt
       | Some _, _ => Throw (refuse p LinkpathNoLink)
       | None, _ => Ok tt
       end) = Ok tt) as ->.
  { destruct t; [rewrite Hlink by done; done|rewrite Hlink by done; done|].
    by destruct (x ← pax; pax_linkpath x). }
  rewrite rok_bind, O, rok_bind. by rewrite Htgt.
Qed.

Lemma parseHeader_pax size :
  0 <= size <= PAX_BODY_MAX →
  ∃ at_, parseHeader (ustarBlock ([], js "././@PaxHeader") 120 420 size []) None
       = Ok (mkParsed at_ PaxHeader 420 size [])
  ∧ parsedBlock (ustarBlock ([], js "././@PaxHeader") 120 420 size []) ([], js "././@PaxHeader") 120 420 size [].
Proof.
  intros Hs. unfold PAX_BODY_MAX in Hs.
  assert (blockOk ([], js "././@PaxHeader") 120 420 size []) as Hb.
  { constructor; [split; [simpl; lia|apply js_bytes]|split; [simpl; lia|constructor]..|unfold isByte; lia|lia|lia]. }
  pose proof (ustarBlock_parsed _ _ _ _ _ Hb) as HP. eexists. split; [|exact HP].
  destruct HP as [_ M V F N P L S O C _]. set (b := ustarBlock _ _ _ _ _) in *.
  unfold parseHeader. rewrite M, V, !bool_decide_eq_true_2 by done. cbn [negb orb guard_throw].
  rewrite rok_bind, C, rok_bind, Z.eqb_refl. cbn [negb guard_throw]. rewrite rok_bind, F.
  change (typeOf [120]) with (Some PaxHeader). cbv iota. rewrite rok_bind. cbv iota. rewrite S, rok_bind. cbv iota.
  cbn [guard_throw]. rewrite rok_bind. unfold PAX_BODY_MAX. rewrite (proj2 (Z.ltb_ge _ _)) by lia.
  cbn [guard_throw]. rewrite rok_bind.
  change (x ← (None : option Pax); pax_linkpath x) with (@None jstr). cbv iota.
  rewrite rok_bind, O, rok_bind, L. reflexivity.
Qed.

Record entryArgs (p : jstr) (t : EntryType) (md size : Z) (tgt : jstr) : Prop := {
  ea_path : pathOk p;
  ea_mode : 0 <= md < 8 ^ 7;
  ea_size : 0 <= size;
  ea_body : t ≠ file → size = 0;
  ea_target : well_formed tgt = true ∧ (0 ∉ tgt) ∧ utf8ByteLength tgt <= PAX_VALUE_MAX;
  ea_link : t ≠ symlink → tgt = [];
}.

(** The bytes of a header: the entry's block, with a pax header before it when
    a field does not hold its value; each part reads back. *)
Inductive headerBytes (e : Parsed) : list Z → Prop :=
| hb_plain b :
    length b = BLOCK → forallb (λ x, x =? 0) b = false → parseHeader b None = Ok e → headerBytes e b
| hb_pax b1 body b at_ md x :
    length b1 = BLOCK → forallb (λ x, x =? 0) b1 = false →
    parseHeader b1 None = Ok (mkParsed at_ PaxHeader md (Z.of_nat (length body)) []) →
    parsePax body at_ = Ok x →
    length b = BLOCK → forallb (λ x, x =? 0) b = false → parseHeader b (Some x) = Ok e →
    headerBytes e (b1 ++ body ++ padding (length body) ++ b).

Lemma startsSlash_full p t : p ≠ [] → startsSlash (match t with dir => p ++ [slash] | _ => p end) = startsSlash p.
Proof. destruct p; [done|]. by destruct t. Qed.

Lemma full_ok p t (full := match t with dir => p ++ [slash] | _ => p end) :
  pathOk p → well_formed full = true ∧ startsSlash full = false ∧ (0 ∉ full).
Proof.
  intros [Hc Hw]. destruct (checkEntryPath_facts p Hc) as (Hne & H0 & Hs & _). unfold full. split_and!.
  - destruct t; [by apply well_formed_app|done|done].
  - by rewrite startsSlash_full.
  - destruct t; [|done|done]. rewrite not_elem_of_app. split; [done|]. rewrite list_elem_of_singleton. done.
Qed.

Lemma bytes_of_subset s l : well_formed s = true → 0 ∉ s → Forall (λ b, b ∈ encode s) l → Forall isByte l ∧ (0 ∉ l).
Proof.
  intros Hw H0 HF. pose proof (encode_bytes s Hw) as HB. pose proof (encode_no_nul s H0) as HN.
  rewrite Forall_forall in *. split; [auto|]. intros Hin. by apply HN, HF.
Qed.

Lemma splitName_fields p t md size link (full := match t with dir => p ++ [slash] | _ => p end) pre name :
  pathOk p → splitName full = Some (pre, name) →
  0 <= md < 8 ^ 7 → 0 <= size < 8 ^ 11 → (length link <= 100)%nat → Forall isByte link →
  let b := ustarBlock (pre, name) (TYPEFLAG t) md size link in
  blockOk (pre, name) (TYPEFLAG t) md size link
  ∧ match decode (field b 345 155) with [] => decode (field b 0 100)
    | _ => decode (field b 345 155) ++ [slash] ++ decode (field b 0 100) end = full.
Proof.
  intros Hp Hs Hm Hz Hl HF b. destruct (full_ok p t Hp) as (Hw & Hst & H0).
  destruct (splitName_spec full pre name Hw Hst Hs) as (L1 & L2 & F1 & F2 & E).
  destruct (bytes_of_subset full name Hw H0 F1) as [B1 N1]. destruct (bytes_of_subset full pre Hw H0 F2) as [B2 N2].
  assert (blockOk (pre, name) (TYPEFLAG t) md size link) as Hb.
  { constructor; simpl; try done. destruct t; unfold isByte, TYPEFLAG; lia. }
  split; [done|]. destruct (ustarBlock_parsed _ _ _ _ _ Hb) as [_ _ _ _ N P _ _ _ _ _]. fold b in N, P.
  rewrite N, P. cbn [fst snd]. by rewrite !untilNul_pad.
Qed.

Lemma link_field tgt :
  well_formed tgt = true → 0 ∉ tgt → (Z.of_nat LINK_MAX <? utf8ByteLength tgt) = false →
  (length (encode tgt) <= 100)%nat ∧ Forall isByte (encode tgt) ∧ untilNul (pad 100 (encode tgt)) = encode tgt.
Proof.
  intros Hw H0 Hl. apply Z.ltb_ge in Hl. pose proof (encode_length tgt Hw). unfold LINK_MAX in Hl.
  split_and!; [lia|by apply encode_bytes|]. apply untilNul_pad; [lia|by apply encode_no_nul].
Qed.

Lemma paxText_length p tgt :
  paxValueOk p → paxValueOk tgt → Z.of_nat (length (encode (paxText p tgt))) <= PAX_BODY_MAX.
Proof.
  intros Hp Ht. unfold paxText, PAX_BODY_MAX.
  assert (∀ key v, keyOk key → paxValueOk v →
    well_formed (from_option (paxRecord key) [] v) = true
    ∧ Z.of_nat (length (encode (from_option (paxRecord key) [] v))) < 4300) as HL.
  { intros key [v|] Hk; [|done]. intros [Hw Hl].
    destruct (paxRecord_bytes key v Hk Hw Hl) as (l & ? & _ & ? & ?). split; [done|]. simpl. lia. }
  destruct (HL _ _ keyOk_linkpath Ht) as [W1 L1]. destruct (HL _ _ keyOk_path Hp) as [W2 L2].
  rewrite encode_app_wf, length_app by done. lia.
Qed.

(** The header without its length checks. *)
Definition headerBody (p : jstr) (t : EntryType) (md size : Z) (tgt : jstr) (long : bool)
    (fits : option (list Z * list Z)) : list Z :=
  let body := encode (paxText (match fits with Some _ => None | None => Some p end) (if long then Some tgt else None)) in
  let b := ustarBlock (default ([], subEnd NAME_MAX (encode (match t with dir => p ++ [slash] | _ => p end))) fits)
             (TYPEFLAG t) md size (if long then take LINK_MAX (encode tgt) else encode tgt) in
  if (match fits with Some _ => false | None => true end) || long then
    ustarBlock ([], js "././@PaxHeader") 120 420 (Z.of_nat (length body)) [] ++ body ++ padding (length body) ++ b
  else b.

Lemma header_body p t md size tgt hb (full := match t with dir => p ++ [slash] | _ => p end) :
  header p t md size tgt = Ok hb →
  utf8ByteLength p <= PAX_VALUE_MAX ∧ size <= SIZE_MAX
  ∧ hb = headerBody p t md size tgt (Z.of_nat LINK_MAX <? utf8ByteLength tgt) (splitName full).
Proof.
  unfold header. fold full. intros H. apply rbind_ok in H as (u1 & E1 & H). apply rbind_ok in H as (u2 & E2 & H).
  apply Ok_inj in H. apply guard_ok in E1, E2. zbool. split_and!; [done|done|]. subst hb.
  unfold headerBody. fold full. set (long := Z.of_nat LINK_MAX <? utf8ByteLength tgt).
  destruct (splitName full) as [pn|], long; cbn [orb]; unfold paxText; cbn [from_option];
    rewrite <- ?app_assoc; reflexivity.
Qed.

(** The block of an entry, and the name that its two fields hold when the name
    fits; the link field, and the target it holds when the target fits. *)
Lemma header_block p t md size link (full := match t with dir => p ++ [slash] | _ => p end) :
  pathOk p → 0 <= md < 8 ^ 7 → 0 <= size < 8 ^ 11 → (length link <= 100)%nat → Forall isByte link →
  ∃ split, default ([], subEnd NAME_MAX (encode full)) (splitName full) = split
    ∧ blockOk split (TYPEFLAG t) md size link
    ∧ (let b := ustarBlock split (TYPEFLAG t) md size link in
       is_Some (splitName full) → match decode (field b 345 155) with [] => decode (field b 0 100)
         | _ => decode (field b 345 155) ++ [slash] ++ decode (field b 0 100) end = full).
Proof.
  intros Hp Hm Hz Ll Bl. destruct (full_ok p t Hp) as (Hw & _ & _). fold full in Hw.
  destruct (splitName full) as [[pre name]|] eqn:Es.
  - destruct (splitName_fields p t md size link pre name Hp Es Hm Hz Ll Bl) as [Hb Hfull].
    exists (pre, name). split_and!; [done|done|]. by intros b _.
  - eexists. split_and!; [done| |by intros b [? ?]]. constructor; simpl; try done.
    + unfold subEnd, NAME_MAX. split; [rewrite length_drop; lia|by apply Forall_drop, encode_bytes].
    + split; [lia|constructor].
    + destruct t; unfold isByte, TYPEFLAG; lia.
Qed.

Lemma header_link tgt (long := Z.of_nat LINK_MAX <? utf8ByteLength tgt) (link := if long then take LINK_MAX (encode tgt) else encode tgt) :
  well_formed tgt = true → (0 ∉ tgt) →
  (length link <= 100)%nat ∧ Forall isByte link ∧ (long = false → decode (untilNul (pad 100 link)) = tgt).
Proof.
  intros Wt N0. unfold link. destruct long eqn:El.
  - split_and!; [rewrite length_take; unfold LINK_MAX; lia|by apply Forall_take, encode_bytes|done].
  - destruct (link_field tgt Wt N0 El) as (? & ? & Eu). rewrite Eu. split_and!; [done|done|]. intros _. by apply decode_encode.
Qed.

(** What [header] writes, the door reads: the same path, type, mode, size and
    target, however long the names are. *)
Lemma header_reads p t md size tgt hb :
  entryArgs p t md size tgt → header p t md size tgt = Ok hb →
  headerBytes (mkParsed p (Entry t) md size tgt) hb.
Proof.
  intros [Hp Hm Hz Hbody (Wt & N0 & Lt) Hlink] (Lp & Ls & ->)%header_body.
  set (full := match t with dir => p ++ [slash] | _ => p end) in *.
  destruct (full_ok p t Hp) as (Hw & Hst & H0). fold full in Hw, Hst, H0.
  assert (0 <= size < 8 ^ 11) as Hz' by (unfold SIZE_MAX in *; lia).
  set (long := Z.of_nat LINK_MAX <? utf8ByteLength tgt) in *. unfold headerBody. fold full.
  set (link := if long then take LINK_MAX (encode tgt) else encode tgt) in *.
  destruct (header_link tgt Wt N0) as (Ll & Bl & Dl). fold long in Ll, Bl, Dl. fold link in Ll, Bl, Dl.
  assert (long = true → t = symlink) as Hlong.
  { intros El. destruct (decide (t = symlink)) as [|n]; [done|]. unfold long in El. rewrite (Hlink n) in El. done. }
  pose proof (po_check p Hp) as Hc. pose proof (po_wf p Hp) as Hwp.
  set (fits := splitName full) in *.
  destruct (header_block p t md size link Hp Hm Hz' Ll Bl) as (split & Esp & Hb & Hfull). fold full fits in Esp, Hfull. rewrite Esp.
  pose proof (ustarBlock_parsed _ _ _ _ _ Hb) as HB.
  assert (∀ x, pax_path x = (match fits with Some _ => None | None => Some p end) → pax_linkpath x = (if long then Some tgt else None) →
    parseHeader (ustarBlock split (TYPEFLAG t) md size link) (Some x) = Ok (mkParsed p (Entry t) md size tgt)) as HPax.
  { intros [xp xl] Ex El. simpl in Ex, El. subst xp xl.
    apply parseHeader_entry; [done|done|done| | |]; cbn [mbind option_bind pax_path pax_linkpath].
    - destruct fits; [left; by apply Hfull|by right].
    - intros Ht. destruct long; [by destruct Ht; apply Hlong|done].
    - destruct long eqn:El; [done|]. cbn [default from_option Datatypes.id]. rewrite (pb_link _ _ _ _ _ _ HB). by apply Dl. }
  destruct ((match fits with Some _ => false | None => true end) || long) eqn:Eg.
  - set (body := encode (paxText (match fits with Some _ => None | None => Some p end) (if long then Some tgt else None))).
    assert (paxValueOk (match fits with Some _ => None | None => Some p end) ∧ paxValueOk (if long then Some tgt else None)) as [V1 V2].
    { destruct fits, long; split; simpl; auto. }
    destruct (parseHeader_pax (Z.of_nat (length body))) as (at_ & Hpx & Hpb).
    { split; [lia|]. by apply paxText_length. }
    eapply hb_pax; [by destruct Hpb|by destruct Hpb|exact Hpx|by apply parsePax_text|by destruct HB|by destruct HB|].
    by apply HPax.
  - apply orb_false_iff in Eg as [Ef El]. apply hb_plain; [by destruct HB|by destruct HB|].
    apply parseHeader_entry; [done|done|done| |done|].
    + left. apply Hfull. by destruct fits.
    + simpl. rewrite (pb_link _ _ _ _ _ _ HB). by apply Dl.
Qed.

(** ** The loop *)

Definition withReader (r : ByteReader) (u : Unpacking) : Unpacking :=
  mkUnpacking r (seen u) (links u) (dirModes u) (calls u).

(** A header in front of the reader: the loop comes to the entry. *)
Lemma unpackLoop_header fuel u e t hb tail :
  wf (reader u) → flat (reader u) = hb ++ tail → headerBytes e hb → p_type e = Entry t →
  ∃ r fuel', wf r ∧ flat r = tail ∧ (fuel <= fuel')%nat
    ∧ unpackLoop (S (S fuel)) None u = (u' ← unpackEntry e t (withReader r u); unpackLoop fuel' None u').
Proof.
  intros Hw Hf Hh Ht. destruct Hh as [b Lb Zb Pb|b1 body b at_ md x L1 Z1 P1 Px Lb Zb Pb].
  - destruct (read_spec BLOCK (reader u) Hw) as (r & Er & Hwr & Hfr); [rewrite Hf, length_app; lia|].
    rewrite Hf, <- Lb, take_app_length, drop_app_length in *.
    exists r, (S fuel). split_and!; [done|done|lia|]. cbn [unpackLoop]. rewrite <- Lb, Er, Zb, Pb, rok_bind, Ht. done.
  - rewrite <- !app_assoc in Hf.
    destruct (read_spec BLOCK (reader u) Hw) as (r1 & Er1 & Hwr1 & Hfr1); [rewrite Hf, length_app; lia|].
    rewrite Hf, <- L1 in Er1, Hfr1.
    rewrite take_app_length in Er1. rewrite drop_app_length in Hfr1.
    destruct (read_spec (length body + length (padding (length body))) r1 Hwr1) as (r2 & Er2 & Hwr2 & Hfr2).
    { rewrite Hfr1, !length_app. lia. }
    rewrite Hfr1, app_assoc in Er2, Hfr2. rewrite <- length_app in Er2, Hfr2.
    rewrite take_app_length in Er2. rewrite drop_app_length in Hfr2.
    destruct (read_spec BLOCK r2 Hwr2) as (r3 & Er3 & Hwr3 & Hfr3); [rewrite Hfr2, length_app; lia|].
    rewrite Hfr2, <- Lb in Er3, Hfr3.
    rewrite take_app_length in Er3. rewrite drop_app_length in Hfr3.
    exists r3, fuel. split_and!; [done|done|lia|].
    cbn [unpackLoop]. rewrite <- L1, Er1, Z1, P1, rok_bind. cbn [p_type p_size p_path].
    rewrite Nat2Z.id, <- length_app, Er2, take_app_length, Px, rok_bind. cbn [reader seen links dirModes calls].
    rewrite L1, <- Lb, Er3, Zb, Pb, rok_bind, Ht. done.
Qed.

Record entryOk (e : PackEntry) : Prop := {
  eo_path : well_formed (path e) = true;
  eo_mode : 0 <= mode e < 4096;
  eo_target : well_formed (target e) = true;
}.

Definition parsedOf (e : PackEntry) : Parsed :=
  mkParsed (path e) (Entry (type e)) (mode e)
    (match type e with file => Z.of_nat (length (body e)) | _ => 0 end)
    (match type e with symlink => target e | _ => [] end).

Definition bodyOf (e : PackEntry) : list Z :=
  match type e with file => body e ++ padding (length (body e)) | _ => [] end.

Lemma checkLinkTarget_facts p t :
  checkLinkTarget p t = Ok tt → (0 ∉ t) ∧ utf8ByteLength t <= PAX_VALUE_MAX.
Proof. unfold checkLinkTarget. intros H. ok_inv. zbool. done. Qed.

(** What an entry's bytes are, and what was checked. *)
Lemma packOne_bytes ls e bytes :
  packOne ls e = Ok bytes → entryOk e →
  checkEntryPath (path e) = Ok tt
  ∧ (type e = symlink → checkLinkTarget (path e) (target e) = Ok tt ∧ checkLinkInside (path e) ls = Ok tt)
  ∧ ∃ hb, bytes = hb ++ bodyOf e ∧ headerBytes (parsedOf e) hb.
Proof.
  intros H [Hw Hm Ht]. unfold packOne in H. apply rbind_ok in H as ([] & Hc & H). split; [done|].
  assert (∀ size tgt, 0 <= size → (type e ≠ file → size = 0) →
    well_formed tgt = true → (0 ∉ tgt) → utf8ByteLength tgt <= PAX_VALUE_MAX → (type e ≠ symlink → tgt = []) →
    entryArgs (path e) (type e) (mode e) size tgt) as HA.
  { intros size tgt. split; [by split|lia|done|done|done|done]. }
  unfold parsedOf, bodyOf. destruct (type e) eqn:Et.
  - split; [done|]. exists bytes. rewrite app_nil_r. split; [done|].
    eapply header_reads; [|exact H]. apply HA; try done. set_solver.
  - split; [done|]. apply rbind_ok in H as (hb & Hh & H). apply Ok_inj in H as <-.
    exists hb. split; [done|]. eapply header_reads; [|exact Hh]. apply HA; try done; [lia|set_solver].
  - apply rbind_ok in H as ([] & Hl & H). apply rbind_ok in H as ([] & Hi & H). split; [done|].
    exists bytes. rewrite app_nil_r. split; [done|]. destruct (checkLinkTarget_facts _ _ Hl) as [H0 HL].
    eapply header_reads; [|exact H]. apply HA; done.
Qed.

(** What unpacking an entry adds. *)
Definition callOf (e : PackEntry) : list Call :=
  match type e with
  | dir => [MkDir (path e)]
  | file => [WriteFile (path e) (body e) (mode e)]
  | symlink => []
  end.
Definition modeOf (e : PackEntry) : list (jstr * Z) :=
  match type e with dir => [(path e, mode e)] | _ => [] end.
Definition linkOf (e : PackEntry) : linkMap :=
  match type e with symlink => [(path e, target e)] | _ => [] end.

(** The state of the loop after the entries [es]. *)
Definition after (r : ByteReader) (es : list PackEntry) : Unpacking :=
  mkUnpacking r ((λ e, (path e, type e)) <$> es) (es ≫= linkOf) (es ≫= modeOf) (es ≫= callOf).

Lemma mapSet_fresh {V} k (v : V) m : mapGet k m = None → mapSet k v m = m ++ [(k, v)].
Proof.
  induction m as [|[k' v'] m IH]; [done|]. simpl. destruct (bool_decide (k = k')); [done|].
  intros H. by rewrite IH.
Qed.

Lemma mapGet_seen p es :
  p ∉ path <$> es → mapGet p ((λ e, (path e, type e)) <$> es) = None ∧ mapGet p (es ≫= linkOf) = None.
Proof.
  induction es as [|e es IH]; [done|]. rewrite fmap_cons. intros [Hp Hes]%not_elem_of_cons.
  destruct (IH Hes) as [H1 H2]. simpl. rewrite bool_decide_eq_false_2 by done. split; [done|].
  unfold linkOf at 1. destruct (type e); [done|done|]. simpl. by rewrite bool_decide_eq_false_2.
Qed.

(** The entry comes after its parent directory, and was not there before. *)
Definition comesAfter (es : list PackEntry) (e : PackEntry) : Prop :=
  (path e ∉ path <$> es)
  ∧ match parentOf (path e) with
    | Some q => mapGet q ((λ e, (path e, type e)) <$> es) = Some dir
    | None => True
    end.

Lemma land_mode m : 0 <= m < 4096 → Z.land m 4095 = m.
Proof. intros Hm. change 4095 with (Z.ones 12). rewrite Z.land_ones by lia. by apply Z.mod_small. Qed.

Lemma unpackEntry_ok es e r tail :
  entryOk e → checkEntryPath (path e) = Ok tt →
  (type e = symlink → checkLinkTarget (path e) (target e) = Ok tt) →
  comesAfter es e → wf r → flat r = bodyOf e ++ tail →
  ∃ r', wf r' ∧ flat r' = tail ∧ unpackEntry (parsedOf e) (type e) (after r es) = Ok (after r' (es ++ [e])).
Proof.
  intros [Hw Hm Htg] Hc Hl [Hnew Hpar] Hwr Hfr. destruct (mapGet_seen _ _ Hnew) as [Hs1 Hs2].
  assert (∀ r', after r' (es ++ [e]) = mkUnpacking r' (seen (after r es) ++ [(path e, type e)])
    ((es ≫= linkOf) ++ linkOf e) ((es ≫= modeOf) ++ modeOf e) ((es ≫= callOf) ++ callOf e)) as Ha.
  { intros r'. unfold after. cbn [seen]. rewrite fmap_app, !bind_app. simpl. by rewrite !app_nil_r. }
  unfold unpackEntry. cbn [p_path parsedOf]. rewrite Hc, rok_bind. cbn [seen after]. rewrite Hs1. cbn [guard_throw].
  rewrite rok_bind.
  assert ((match parentOf (path e) with
       | Some parent => guard_throw (negb (bool_decide (mapGet parent ((λ e, (path e, type e)) <$> es) = Some dir))) (refuse (path e) NoParent)
       | None => Ok tt
       end) = Ok tt) as ->.
  { destruct (parentOf (path e)); [|done]. by rewrite bool_decide_eq_true_2. }
  rewrite rok_bind, mapSet_fresh by done. cbn [p_mode p_size p_target parsedOf reader links dirModes calls after].
  unfold bodyOf in Hfr. unfold linkOf, modeOf, callOf in Ha.
  destruct (type e) eqn:Et.
  - exists r. split_and!; [done|done|]. rewrite Ha, land_mode by done. simpl. by rewrite app_nil_r.
  - rewrite Nat2Z.id. rewrite <- app_assoc in Hfr.
    destruct (readBody_spec (length (body e)) (length (body e)) r Hwr) as (r1 & Er1 & Hw1 & Hf1);
      [lia|rewrite Hfr, length_app; lia|].
    rewrite Hfr, take_app_length in Er1. rewrite Hfr, drop_app_length in Hf1. rewrite Er1, land_mode by done.
    destruct (Nat.eqb_spec (length (padding (length (body e)))) 0) as [E|E].
    + apply nil_length_inv in E. rewrite E in Hf1. exists r1. split_and!; [done|done|]. rewrite Ha. simpl. by rewrite !app_nil_r.
    + destruct (read_spec (length (padding (length (body e)))) r1 Hw1) as (r2 & -> & Hw2 & Hf2);
        [rewrite Hf1, length_app; lia|].
      rewrite Hf1, drop_app_length in Hf2. exists r2. split_and!; [done|done|]. rewrite Ha. simpl. by rewrite !app_nil_r.
  - exists r. split_and!; [done|done|]. rewrite Hl, rok_bind, mapSet_fresh by done. rewrite Ha. simpl. by rewrite !app_nil_r.
Qed.

(** Entries that a walk of a directory gives, in path order. *)
Fixpoint treeOk (before es : list PackEntry) : Prop :=
  match es with
  | [] => True
  | e :: es' => entryOk e ∧ comesAfter before e ∧ treeOk (before ++ [e]) es'
  end.

Lemma unpackLoop_end u fuel :
  wf (reader u) → flat (reader u) = repeat 0 (BLOCK * 2) →
  ∃ r, unpackLoop (S fuel) None u = Ok (withReader r u).
Proof.
  intros Hw Hf. destruct (read_spec BLOCK (reader u) Hw) as (r1 & Er & _ & _).
  { rewrite Hf, repeat_length. unfold BLOCK. lia. }
  exists r1. cbn [unpackLoop]. rewrite Er, Hf. by vm_compute (forallb _ _).
Qed.

Lemma unpackLoop_entries ls es parts before r fuel :
  mapM (packOne ls) es = Ok parts → treeOk before es →
  wf r → flat r = concat parts ++ repeat 0 (BLOCK * 2) → (2 * length es < fuel)%nat →
  ∃ r', unpackLoop fuel None (after r before) = Ok (after r' (before ++ es)).
Proof.
  revert parts before r fuel. induction es as [|e es IH]; intros parts before r fuel Hp HT Hw Hf Hfu.
  - injection Hp as <-. destruct fuel as [|fuel]; [lia|]. simpl in Hf.
    destruct (unpackLoop_end (after r before) fuel Hw Hf) as [r' ->]. exists r'. by rewrite app_nil_r.
  - cbn [mapM] in Hp. apply rbind_ok in Hp as (bytes & Hb & Hp). apply rbind_ok in Hp as (parts' & Hps & Hp).
    apply Ok_inj in Hp as <-. destruct HT as (He & Hc & HT).
    destruct (packOne_bytes ls e bytes Hb He) as (Hcp & Hcl & hb & -> & Hh).
    simpl length in Hfu. destruct fuel as [|[|fuel]]; [lia|lia|].
    cbn [concat] in Hf. rewrite <- !app_assoc in Hf.
    destruct (unpackLoop_header fuel (after r before) (parsedOf e) (type e) hb _ Hw Hf Hh eq_refl)
      as (r1 & fuel' & Hw1 & Hf1 & Hfu' & ->).
    destruct (unpackEntry_ok before e r1 _ He Hcp (λ E, proj1 (Hcl E)) Hc Hw1 Hf1) as (r2 & Hw2 & Hf2 & Hu).
    change (withReader r1 (after r before)) with (after r1 before). rewrite Hu, rok_bind.
    destruct (IH parts' (before ++ [e]) r2 fuel' Hps HT Hw2 Hf2) as [r' Hr']; [lia|].
    exists r'. rewrite Hr'. by rewrite <- app_assoc.
Qed.

(** ** Links at the end *)

Lemma insertPath_perm p l : insertPath p l ≡ₚ p :: l.
Proof.
  induction l as [|q l IH]; [done|]. simpl. destruct (0 <? comparePaths p q); [|done].
  rewrite IH. apply perm_swap.
Qed.

Lemma sortPaths_perm l : sortPaths l ≡ₚ l.
Proof. induction l as [|p l IH]; [done|]. simpl. by rewrite insertPath_perm, IH. Qed.

Lemma linksOf_pairs es before :
  NoDup (path <$> (before ++ es)) →
  foldl (λ m e, match type e with symlink => mapSet (path e) (target e) m | _ => m end) (before ≫= linkOf) es
  = (before ++ es) ≫= linkOf.
Proof.
  revert before. induction es as [|e es IH]; intros before HN; [by rewrite app_nil_r|].
  cbn [foldl]. replace (before ++ e :: es) with ((before ++ [e]) ++ es) in * by by rewrite <- app_assoc.
  rewrite <- IH by done. f_equal. rewrite bind_app. simpl. rewrite app_nil_r.
  assert (linkOf e = match type e with symlink => [(path e, target e)] | _ => [] end) as -> by done.
  destruct (type e); [by rewrite app_nil_r..|]. apply mapSet_fresh.
  apply mapGet_seen. rewrite !fmap_app in HN. apply NoDup_app in HN as (HN & _ & _).
  apply NoDup_app in HN as (_ & HN & _). intros Hin. apply (HN _ Hin). simpl. set_solver.
Qed.

Lemma treeOk_nodup before es : NoDup (path <$> before) → treeOk before es → NoDup (path <$> (before ++ es)).
Proof.
  revert before. induction es as [|e es IH]; intros before HN HT; [by rewrite app_nil_r|].
  destruct HT as (_ & [Hnew _] & HT). replace (before ++ e :: es) with ((before ++ [e]) ++ es) by by rewrite <- app_assoc.
  apply IH; [|done]. rewrite fmap_app. apply NoDup_app. split_and!; [done| |apply NoDup_singleton].
  intros x Hx. simpl. rewrite list_elem_of_singleton. intros ->. done.
Qed.

Lemma treeOk_links es : treeOk [] es → linksOf es = es ≫= linkOf.
Proof. intros HT. apply (linksOf_pairs es []). apply (treeOk_nodup [] es); [constructor|done]. Qed.

Lemma mapM_ok_all {A B} (f : A → res B) (g : A → B) l :
  (∀ x, x ∈ l → f x = Ok (g x)) → mapM f l = Ok (g <$> l).
Proof.
  induction l as [|x l IH]; intros H; [done|]. cbn [mapM]. rewrite H by set_solver. rewrite rok_bind, IH by set_solver.
  done.
Qed.

Lemma mapM_ok_elem {A B} (f : A → res B) l bs x : mapM f l = Ok bs → x ∈ l → ∃ b, f x = Ok b.
Proof.
  revert bs. induction l as [|y l IH]; intros bs H; [set_solver|]. cbn [mapM] in H.
  apply rbind_ok in H as (b & Hb & H). apply rbind_ok in H as (bs' & Hbs & _).
  intros [->|Hx]%elem_of_cons; eauto.
Qed.

Definition linkCall (ls : linkMap) (p : jstr) : Call := Symlink (default [] (mapGet p ls)) p.

(** ** The round trip *)

Lemma pack_length ls es parts :
  mapM (packOne ls) es = Ok parts → Forall entryOk es → (512 * length es <= length (concat parts))%nat.
Proof.
  revert parts. induction es as [|e es IH]; intros parts H HF; [simpl; lia|]. apply Forall_cons in HF as [He HF].
  cbn [mapM] in H. apply rbind_ok in H as (b & Hb & H). apply rbind_ok in H as (bs & Hbs & H).
  apply Ok_inj in H as <-. destruct (packOne_bytes ls e b Hb He) as (_ & _ & hb & -> & Hh).
  specialize (IH bs Hbs HF). cbn [concat]. rewrite !length_app.
  assert (512 <= length hb)%nat; [|simpl length; lia].
  destruct Hh as [b' L _ _|b1 body b' at_ md x _ _ _ _ L _ _]; unfold BLOCK in L; rewrite ?length_app; lia.
Qed.

Lemma treeOk_entries before es : treeOk before es → Forall entryOk es.
Proof. revert before. induction es as [|e es IH]; intros before HT; constructor; destruct HT as (? & ? & ?); eauto. Qed.

(** C32: The archive round trip. Pack any tree whose entries come after their
    parents, each path once; then, however the bytes arrive in chunks, the door
    unpacks exactly that tree: every directory and every file, with its bytes
    and its mode, in the archive's order; then every symlink with its target;
    then the directories' modes, children first. Long paths and targets, which
    travel in pax headers, are no exception, and nothing packed is refused. *)
Theorem unpack_pack es bytes input :
  treeOk [] es → packAssembly es = Ok bytes → concat input = bytes →
  unpackAssembly input
  = Ok ((es ≫= callOf)
        ++ (linkCall (es ≫= linkOf) <$> sortPaths (es ≫= linkOf).*1)
        ++ (uncurry Chmod <$> rev (es ≫= modeOf))).
Proof.
  intros HT Hp Hin. unfold packAssembly in Hp. apply rbind_ok in Hp as (parts & Hparts & Hp).
  apply Ok_inj in Hp. rewrite (treeOk_links es HT) in Hparts. unfold unpackAssembly.
  pose proof (pack_length _ _ _ Hparts (treeOk_entries [] es HT)) as HL.
  destruct (unpackLoop_entries _ es parts [] (newReader input) (S (length (concat input))) Hparts HT) as [r Hr].
  { split; [done|constructor]. }
  { unfold flat, newReader. simpl. by rewrite Hin, <- Hp. }
  { rewrite Hin, <- Hp, length_app, repeat_length. unfold BLOCK. lia. }
  change (mkUnpacking (newReader input) [] [] [] []) with (after (newReader input) []). rewrite Hr, rok_bind.
  cbn [links after calls dirModes app]. unfold finishLinks.
  rewrite (mapM_ok_all _ (linkCall (es ≫= linkOf))); [by rewrite rok_bind|].
  intros p Hpin. rewrite sortPaths_perm in Hpin. apply list_elem_of_fmap in Hpin as ([q t] & -> & Hq).
  apply list_elem_of_bind in Hq as (e & Hq & He). unfold linkOf in Hq.
  destruct (type e) eqn:Et; [set_solver|set_solver|]. apply list_elem_of_singleton in Hq. simplify_eq/=.
  destruct (mapM_ok_elem _ _ _ _ Hparts He) as [b Hb].
  pose proof (treeOk_entries [] es HT) as HE. rewrite Forall_forall in HE.
  destruct (packOne_bytes _ e b Hb (HE e He)) as (_ & Hcl & _). destruct (Hcl Et) as [_ ->]. done.
Qed.

(** A directory, a file, a link, and a file whose name needs a pax header. *)
Definition sampleTree : list PackEntry :=
  [mkEntry (js "a") dir 493 [] []; mkEntry (js "a/f") file 420 [] [104; 105];
   mkEntry (js "a/l") symlink 511 (js "f") []; mkEntry (js "a/" ++ repeat 120 120) file 384 [] []].

Definition sampleBytes : list Z := match packAssembly sampleTree with Ok b => b | Throw _ => [] end.

Lemma sampleTree_ok : treeOk [] sampleTree.
Proof.
  unfold sampleTree. cbn [treeOk]. split_and!; try exact I;
    try (constructor; [by vm_compute|simpl; lia|by vm_compute]);
    (split; [|by vm_compute]); cbn [app fmap list_fmap path]; apply (bool_decide_unpack (_ ∉ _)); by vm_compute.
Qed.

Lemma unpack_pack_witness :
  unpackAssembly [take 100 sampleBytes; []; drop 100 sampleBytes]
  = Ok ((sampleTree ≫= callOf)
        ++ (linkCall (sampleTree ≫= linkOf) <$> sortPaths (sampleTree ≫= linkOf).*1)
        ++ (uncurry Chmod <$> rev (sampleTree ≫= modeOf)))
  ∧ Z.of_nat (length sampleBytes) = 4608.
Proof.
  split; [|by vm_compute]. apply (unpack_pack sampleTree sampleBytes).
  - exact sampleTree_ok.
  - by vm_compute.
  - cbn [concat]. rewrite app_nil_r. apply take_drop.
Defined.

(** ** Where links lead *)

(** Following a path from a directory of the tree, one segment at a time, as a
    kernel does: the directory so far, and the segments left. *)
Inductive walk (ls : linkMap) : list jstr * list jstr → list jstr * list jstr → Prop :=
| walk_dot s seg r : isDot seg = true → walk ls (s, seg :: r) (s, r)
| walk_up s seg r : isDot seg = false → isDots seg = true → s ≠ [] → walk ls (s, seg :: r) (removelast s, r)
| walk_name s seg r :
    isDot seg = false → isDots seg = false → mapGet (join [slash] (s ++ [seg])) ls = None →
    walk ls (s, seg :: r) (s ++ [seg], r)
| walk_link s seg r tgt :
    isDot seg = false → isDots seg = false → mapGet (join [slash] (s ++ [seg])) ls = Some tgt →
    startsSlash tgt = false → walk ls (s, seg :: r) (s, segments tgt ++ r).

(** The next step leaves the tree: up from its top, or an absolute link. *)
Definition leaves (ls : linkMap) (st : list jstr * list jstr) : Prop :=
  match st with
  | (s, seg :: r) =>
      isDot seg = false
      ∧ ((isDots seg = true ∧ s = [])
         ∨ (isDots seg = false ∧ ∃ tgt, mapGet (join [slash] (s ++ [seg])) ls = Some tgt ∧ startsSlash tgt = true))
  | _ => False
  end.

Definition staysInside (ls : linkMap) (st : list jstr * list jstr) : Prop :=
  (∀ st', rtc (walk ls) st st' → ¬ leaves ls st') ∧ ∃ s, rtc (walk ls) st (s, []).

Lemma staysInside_step ls st st' :
  walk ls st st' → (∀ st'', walk ls st st'' → st'' = st') → ¬ leaves ls st → staysInside ls st' → staysInside ls st.
Proof.
  intros Hw Hd Hl [H1 (s & H2)]. split; [|exists s; by eapply rtc_l].
  intros st'' Hr. apply rtc_inv in Hr as [<-|(st1 & Hs & Hr)]; [done|]. rewrite (Hd st1 Hs) in Hr. by apply H1.
Qed.

Lemma resolve_inside p ls n stack pending :
  resolve p ls n stack pending = Ok tt → staysInside ls (stack, pending).
Proof.
  revert stack pending. induction n as [n IHn] using (induction_ltof1 _ (λ n : nat, n)). unfold ltof in IHn.
  intros stack pending. revert stack. induction pending as [|seg rest IH]; intros stack H.
  - split; [|by exists stack]. intros st' Hr. apply rtc_inv in Hr as [<-|(st1 & Hs & _)]; [by intros []|].
    inversion Hs.
  - destruct n as [|n]; cbn in H; destruct (isDot seg) eqn:Ed.
    1, 3: (eapply staysInside_step; [by apply walk_dot|intros st'' Hs; inversion Hs; congruence
      |intros [? _]; congruence|by apply IH]).
    all: destruct (isDots seg) eqn:Edd.
    1, 3: (destruct stack as [|x stack]; [done|]; eapply staysInside_step;
      [by apply walk_up|intros st'' Hs; inversion Hs; congruence
      |intros [_ [[_ ?]|[? _]]]; congruence|by apply IH]).
    all: destruct (mapGet (join [slash] (stack ++ [seg])) ls) as [tgt|] eqn:Em.
    2, 4: (eapply staysInside_step; [by apply walk_name|intros st'' Hs; inversion Hs; congruence
      |intros [_ [[? _]|(_ & t & ? & _)]]; congruence|by apply IH]).
    + done.
    + destruct (startsSlash tgt) eqn:Es; [done|].
      eapply staysInside_step; [by eapply walk_link|intros st'' Hs; inversion Hs; congruence
        |intros [_ [[? _]|(_ & t & ? & ?)]]; congruence|]. eapply (IHn n); [lia|exact H].
Qed.

(** ** What the door does with any archive *)

Definition created (c : Call) : option jstr :=
  match c with MkDir p => Some p | WriteFile p _ _ => Some p | Symlink _ p => Some p | Chmod _ _ => None end.

(** Every path is relative, without dots; its parent was made before it, as a
    directory. *)
Definition callsSafe (cs : list Call) : Prop :=
  ∀ pre c post p, cs = pre ++ c :: post → created c = Some p →
  checkEntryPath p = Ok tt ∧ ∀ q, parentOf p = Some q → MkDir q ∈ pre.

Lemma callsSafe_snoc cs c :
  callsSafe cs →
  (∀ p, created c = Some p → checkEntryPath p = Ok tt ∧ ∀ q, parentOf p = Some q → MkDir q ∈ cs) →
  callsSafe (cs ++ [c]).
Proof.
  intros Hs Hc pre c' post p E Hp. destruct post as [|d post _] using rev_ind.
  - apply app_inj_tail in E as [-> ->]. by apply Hc.
  - rewrite app_comm_cons, app_assoc in E. apply app_inj_tail in E as [E _]. by apply (Hs pre c' post p).
Qed.

Record safe (u : Unpacking) : Prop := {
  s_calls : callsSafe (calls u);
  s_nodup : NoDup (seen u).*1;
  s_created : (omap created (calls u) ++ (links u).*1) ⊆+ (seen u).*1;
  s_dirs : ∀ q, mapGet q (seen u) = Some dir → MkDir q ∈ calls u;
  s_links : ∀ p, p ∈ (links u).*1 →
            checkEntryPath p = Ok tt ∧ ∀ q, parentOf p = Some q → MkDir q ∈ calls u;
  s_keys : NoDup (links u).*1;
  s_nolink : ∀ t p, Symlink t p ∉ calls u;
}.

Lemma mapGet_None_keys {V} k (m : list (jstr * V)) : mapGet k m = None ↔ k ∉ m.*1.
Proof.
  induction m as [|[k' v] m IH]; simpl; [set_solver|].
  case_bool_decide; [subst; set_solver|]. rewrite IH. set_solver.
Qed.

Lemma mapGet_app_fresh {V} k k' (v : V) m :
  mapGet k' m = None → mapGet k (m ++ [(k', v)]) = if bool_decide (k = k') then Some v else mapGet k m.
Proof.
  intros Hn. induction m as [|[k2 v2] m IH]; simpl; [done|]. simpl in Hn.
  destruct (bool_decide (k' = k2)) eqn:E2; [done|]. apply bool_decide_eq_false in E2.
  destruct (bool_decide (k = k2)) eqn:E; [|by apply IH].
  apply bool_decide_eq_true in E as ->. by rewrite bool_decide_eq_false_2.
Qed.

Lemma safe_withReader r u : safe u → safe (withReader r u).
Proof. by intros []. Qed.

(** The checks before an entry is made. *)
Lemma entry_checked e t u u' :
  unpackEntry e t u = Ok u' →
  checkEntryPath (p_path e) = Ok tt ∧ mapGet (p_path e) (seen u) = None
  ∧ ∀ q, parentOf (p_path e) = Some q → mapGet q (seen u) = Some dir.
Proof.
  unfold unpackEntry. intros H. apply rbind_ok in H as ([] & H1 & H). apply rbind_ok in H as ([] & H2 & H).
  apply rbind_ok in H as ([] & H3 & H). split_and!; [done| |].
  - apply guard_ok in H2. by destruct (mapGet (p_path e) (seen u)).
  - intros q Hq. rewrite Hq in H3. apply guard_ok, negb_false_iff, bool_decide_eq_true in H3. done.
Qed.

(** How an entry changes the state. *)
Lemma entry_effect e t u u' :
  unpackEntry e t u = Ok u' →
  seen u' = seen u ++ [(p_path e, t)]
  ∧ ((t = symlink ∧ calls u' = calls u ∧ links u' = mapSet (p_path e) (p_target e) (links u))
     ∨ (t ≠ symlink ∧ links u' = links u ∧ ∃ c, calls u' = calls u ++ [c] ∧ created c = Some (p_path e)
        ∧ (t = dir → c = MkDir (p_path e)) ∧ ∀ x y, c ≠ Symlink x y)).
Proof.
  intros H. destruct (entry_checked e t u u' H) as (_ & Hn & _). revert H. unfold unpackEntry.
  intros H. apply rbind_ok in H as ([] & _ & H). apply rbind_ok in H as ([] & _ & H).
  apply rbind_ok in H as ([] & _ & H). rewrite mapSet_fresh in H by done. destruct t.
  - apply Ok_inj in H as <-. split; [done|]. right. split_and!; [done|done|]. by eexists.
  - destruct (readBody _ _ _) as [[bs|] r]; [|done].
    destruct (_ =? 0)%nat; [|destruct (read _ r) as [[pd|] r']; [|done]];
      apply Ok_inj in H as <-; (split; [done|]; right; split_and!; [done|done|]; by eexists).
  - apply rbind_ok in H as ([] & _ & H). apply Ok_inj in H as <-. split; [done|]. by left.
Qed.

Lemma omap_created_snoc cs c p : created c = Some p → omap created (cs ++ [c]) = omap created cs ++ [p].
Proof. intros Hc. rewrite omap_app. simpl. by rewrite Hc. Qed.

Lemma safe_entry e t u u' : safe u → unpackEntry e t u = Ok u' → safe u'.
Proof.
  intros [Hc Hn Hcr Hd Hl Hk Hno] H. destruct (entry_checked e t u u' H) as (Hp & Hnew & Hpar).
  destruct (entry_effect e t u u' H) as (Hs & Hcase).
  assert (p_path e ∉ (seen u).*1) as Hnew' by by apply mapGet_None_keys.
  assert (∀ q, parentOf (p_path e) = Some q → MkDir q ∈ calls u) as Hpar' by (intros q Hq; by apply Hd, Hpar).
  assert (NoDup (seen u').*1) as HN.
  { rewrite Hs, fmap_app. apply NoDup_app. split_and!; [done| |apply NoDup_singleton].
    intros x Hx. simpl. rewrite list_elem_of_singleton. by intros ->. }
  assert (p_path e ∉ (links u).*1) as Hnl.
  { intros Hin. apply Hnew'. eapply elem_of_submseteq; [|exact Hcr]. apply elem_of_app. by right. }
  destruct Hcase as [(-> & Ec & El)|(Ht & El & c & Ec & Ecr & Edir & Ens)].
  - rewrite mapSet_fresh in El by by apply mapGet_None_keys.
    constructor; rewrite ?Ec, ?El, ?Hs, ?fmap_app; try done.
    + by rewrite <- fmap_app, <- Hs.
    + rewrite app_assoc. by apply submseteq_app.
    + intros q. rewrite mapGet_app_fresh by done. case_bool_decide; [done|]. apply Hd.
    + intros p [Hp'|Hp']%elem_of_app; [by apply Hl|]. apply list_elem_of_singleton in Hp'. simpl in Hp'. by subst.
    + apply NoDup_app. split_and!; [done| |apply NoDup_singleton].
      intros x Hx. simpl. rewrite list_elem_of_singleton. by intros ->.
  - constructor; rewrite ?Ec, ?El, ?Hs, ?fmap_app; try done.
    + apply callsSafe_snoc; [done|]. intros p. rewrite Ecr. intros [= <-]. done.
    + by rewrite <- fmap_app, <- Hs.
    + rewrite (omap_created_snoc _ _ _ Ecr). rewrite <- app_assoc. simpl.
      rewrite <- Permutation_middle, (Permutation_app_comm (seen u).*1). simpl. by apply submseteq_skip.
    + intros q. rewrite mapGet_app_fresh by done. case_bool_decide as Eq.
      * intros [= ->]. subst. rewrite (Edir eq_refl). set_solver.
      * intros Hq. apply Hd in Hq. set_solver.
    + intros p Hp'. destruct (Hl p Hp') as [? Hq]. split; [done|]. intros q Hq'. apply Hq in Hq'. set_solver.
    + intros x y [Hx|Hx]%elem_of_app; [by eapply Hno|]. apply list_elem_of_singleton in Hx. by destruct (Ens x y).
Qed.

Lemma safe_loop fuel pax u u' : safe u → unpackLoop fuel pax u = Ok u' → safe u'.
Proof.
  revert pax u. induction fuel as [|f IH]; intros pax u Hs H; [done|]. cbn [unpackLoop] in H.
  destruct (read BLOCK (reader u)) as [[block|] r]; [|done].
  destruct (forallb _ block).
  - destruct pax; [done|]. apply Ok_inj in H as <-. by apply (safe_withReader r u).
  - apply rbind_ok in H as (e & _ & H). destruct (p_type e) as [t|].
    + apply rbind_ok in H as (u1 & H1 & H). eapply IH; [|exact H].
      eapply safe_entry; [|exact H1]. by apply (safe_withReader r u).
    + destruct (read _ r) as [[bs|] r']; [|done]. apply rbind_ok in H as (x & _ & H).
      eapply IH; [|exact H]. by apply (safe_withReader r' u).
Qed.

Lemma safe_start input : safe (mkUnpacking (newReader input) [] [] [] []).
Proof.
  constructor; cbn [calls seen links fmap list_fmap omap list_omap app].
  - intros l c post p E. by destruct l.
  - constructor.
  - done.
  - done.
  - set_solver.
  - constructor.
  - set_solver.
Qed.

Lemma callsSafe_app cs ds :
  callsSafe cs →
  (∀ c p, c ∈ ds → created c = Some p → checkEntryPath p = Ok tt ∧ ∀ q, parentOf p = Some q → MkDir q ∈ cs) →
  callsSafe (cs ++ ds).
Proof.
  intros Hs Hd. induction ds as [|d ds IH] using rev_ind; [by rewrite app_nil_r|].
  rewrite app_assoc. apply callsSafe_snoc.
  - apply IH. intros c p Hc. apply Hd. set_solver.
  - intros p Hp. destruct (Hd d p) as [H1 H2]; [set_solver|done|]. split; [done|]. intros q Hq.
    apply elem_of_app. left. by apply H2.
Qed.

Lemma finishLinks_calls ls sls :
  finishLinks ls = Ok sls →
  sls = linkCall ls <$> sortPaths ls.*1 ∧ ∀ p, p ∈ ls.*1 → checkLinkInside p ls = Ok tt.
Proof.
  unfold finishLinks. intros H. split.
  - revert sls H. generalize (sortPaths ls.*1). intros l. induction l as [|p l IH]; intros sls H.
    + by injection H as <-.
    + cbn [mapM] in H. apply rbind_ok in H as (c & Hc & H). apply rbind_ok in H as (cs & Hcs & H).
      apply rbind_ok in Hc as ([] & _ & Hc). apply Ok_inj in Hc as <-. apply Ok_inj in H as <-.
      rewrite (IH cs Hcs). done.
  - intros p Hp. rewrite <- sortPaths_perm in Hp. destruct (mapM_ok_elem _ _ _ _ H Hp) as [c Hc].
    by apply rbind_ok in Hc as ([] & Hc & _).
Qed.

Lemma omap_created_links ls (l : list jstr) : omap created (linkCall ls <$> l) = l.
Proof. induction l as [|p l IH]; [done|]. rewrite fmap_cons. cbn [omap list_omap created linkCall]. by f_equal. Qed.


End TarProofs.
