(* ===== verification/Pool.v ===== *)
(** * The Pool: one worker per Source item, at most [cap] at once
    (orchestrator/src/pool.ts)

    [Spec] is what [poolMachine] closes over, [PoolCtx] the machine's context,
    [Node] its states.  [transition] takes one event through the machine's
    [on], [invoke] and [after] tables; [always] is one eventless transition (a
    state's own come before the root's) and [settle] repeats it until none is
    enabled, as XState does after every event.  [spawned] and [marks] record
    the [spawnChild]s and the run's markers.  The Source's functions (its
    reads, [itemId], the [item] schema) and the store's key lookup are
    parameters; an [itemInput] that throws and the marks of items without an id
    are left out.  [hearStart]/[hearEnd] are the two halves of the seat's [hear]
    around its [await]. *)

From Stdlib Require Import Lia ZArith.
From stdpp Require Import base list strings sets gmap relations.
From S2P Require Import Prelude JsString Json JsObject.

Open Scope Z_scope.

Module Pool.

Export JsObject.

(** ** Data *)

Inductive Form := pull | rd | push.

#[export] Instance Form_eq_dec : EqDecision Form.
Proof. solve_decision. Defined.

(** A Hook delivery: its name, the delivery, on whose behalf. *)
Record Hook := mkHook { hookName : jstr; delivery : jstr; onBehalfOf : option jstr }.

Record Held := mkHeld { key : jstr; item : Json.json; hook : option Hook }.

(** What a dispatch slot resolves to. *)
Inductive DispatchOutput :=
| OSettled (run status : jstr)
| OStarted (run : jstr)
| ORefused (status : jstr) (report : list jstr)
| OUnreachable
| OUnknown (reason : option jstr).

(** A settled item: a child's output, or a run's end. *)
Inductive Settled :=
| Output (out : Json.json)
| RunEnd (run : option jstr) (status : jstr) (reason : option jstr).

Inductive Status := drained_ | deadlocked_.


Record PoolCtx := mkCtx {
  cap : Z;
  active : list jstr;
  items : obj Settled;
  failures : obj Json.json;
  status : option Status;
  held : list Held;
  ready : list Held;
  claimed : obj Held;
  again : list jstr;
  latch : bool;
  taken : nat;
  carried : list jstr;
  refused : list (jstr * jstr);
}.

Inductive Node :=
| discovering | saturated
| fetch | check | claiming | readDone
| parked | failing | drained | deadlocked | crashed.

#[export] Instance Node_eq_dec : EqDecision Node.
Proof. solve_decision. Defined.

Inductive Mark :=
| Started (k : jstr)
| MSettled (k : jstr) (s : Settled)
| Skipped (reason : jstr)
| CarryRefused (k reason : jstr).

Record State := mkState {
  node : Node;
  ctx : PoolCtx;
  checking : list Json.json * list jstr;
  spawned : list Held;
  marks : list Mark;
}.

Definition set_active v (c : PoolCtx) : PoolCtx :=
  mkCtx (cap c) v (items c) (failures c) (status c) (held c) (ready c) (claimed c) (again c) (latch c) (taken c) (carried c) (refused c).
Definition set_items v (c : PoolCtx) : PoolCtx :=
  mkCtx (cap c) (active c) v (failures c) (status c) (held c) (ready c) (claimed c) (again c) (latch c) (taken c) (carried c) (refused c).
Definition set_failures v (c : PoolCtx) : PoolCtx :=
  mkCtx (cap c) (active c) (items c) v (status c) (held c) (ready c) (claimed c) (again c) (latch c) (taken c) (carried c) (refused c).
Definition set_status v (c : PoolCtx) : PoolCtx :=
  mkCtx (cap c) (active c) (items c) (failures c) v (held c) (ready c) (claimed c) (again c) (latch c) (taken c) (carried c) (refused c).
Definition set_held v (c : PoolCtx) : PoolCtx :=
  mkCtx (cap c) (active c) (items c) (failures c) (status c) v (ready c) (claimed c) (again c) (latch c) (taken c) (carried c) (refused c).
Definition set_ready v (c : PoolCtx) : PoolCtx :=
  mkCtx (cap c) (active c) (items c) (failures c) (status c) (held c) v (claimed c) (again c) (latch c) (taken c) (carried c) (refused c).
Definition set_claimed v (c : PoolCtx) : PoolCtx :=
  mkCtx (cap c) (active c) (items c) (failures c) (status c) (held c) (ready c) v (again c) (latch c) (taken c) (carried c) (refused c).
Definition set_again v (c : PoolCtx) : PoolCtx :=
  mkCtx (cap c) (active c) (items c) (failures c) (status c) (held c) (ready c) (claimed c) v (latch c) (taken c) (carried c) (refused c).
Definition set_latch v (c : PoolCtx) : PoolCtx :=
  mkCtx (cap c) (active c) (items c) (failures c) (status c) (held c) (ready c) (claimed c) (again c) v (taken c) (carried c) (refused c).
Definition set_taken v (c : PoolCtx) : PoolCtx :=
  mkCtx (cap c) (active c) (items c) (failures c) (status c) (held c) (ready c) (claimed c) (again c) (latch c) v (carried c) (refused c).
Definition set_refused v (c : PoolCtx) : PoolCtx :=
  mkCtx (cap c) (active c) (items c) (failures c) (status c) (held c) (ready c) (claimed c) (again c) (latch c) (taken c) (carried c) v.
Definition set_node v (s : State) : State :=
  mkState v (ctx s) (checking s) (spawned s) (marks s).
Definition set_ctx v (s : State) : State :=
  mkState (node s) v (checking s) (spawned s) (marks s).
Definition set_checking v (s : State) : State :=
  mkState (node s) (ctx s) v (spawned s) (marks s).
Definition set_spawned v (s : State) : State :=
  mkState (node s) (ctx s) (checking s) v (marks s).
Definition set_marks v (s : State) : State :=
  mkState (node s) (ctx s) (checking s) (spawned s) v.

(** ** Settled runs *)

Definition settledOfRun (out : option DispatchOutput) : Settled :=
  match out with
  | None => RunEnd None (js "unknown") None
  | Some (OSettled run st) => RunEnd (Some run) st None
  | Some (OStarted run) => RunEnd (Some run) (js "started") None
  | Some (ORefused st report) =>
      RunEnd None (js "start-refused") (Some (st ++ js ": " ++ join (js "; ") report))
  | Some OUnreachable => RunEnd None (js "unreachable") None
  | Some (OUnknown reason) => RunEnd None (js "unknown") reason
  end.

Definition runOf (s : Settled) : option jstr := match s with RunEnd r _ _ => r | Output _ => None end.

(** ** What a Source's [next] gives *)

Record Claim := mkClaim { c_item : option Json.json; c_open : Z }.

(** [{ item, open }] with a number, or a bare item; [null] is no item. *)
Definition nonNull (v : Json.json) : option Json.json :=
  match v with Json.JNull => None | _ => Some v end.

Definition normalizeClaim (output : Json.json) : Claim :=
  match output with
  | Json.JObj l =>
      match last (filter (λ m, m.1 = js "item") l), last (filter (λ m, m.1 = js "open") l) with
      | Some (_, it), Some (_, Json.JNum n) => mkClaim (nonNull it) n
      | _, _ => mkClaim (Some output) 0
      end
  | _ => mkClaim (nonNull output) 0
  end.

(** ** The spec *)

Record Spec := mkSpec {
  runs : bool;
  form : Form;
  capOf : option Z;
  hold : Z;
  report : bool;
  wakes : bool;  (** a wake or a [REREAD] can come *)
  polls : bool;
  itemId : Json.json → option jstr;  (** [None]: it threw, or gave no id *)
  parseItem : Json.json → option Json.json;  (** the [item] schema *)
}.

Section Machine.
Variable S : Spec.

Definition lenZ {A} (l : list A) : Z := Z.of_nat (length l).

Definition upd (f : PoolCtx → PoolCtx) (s : State) : State := set_ctx (f (ctx s)) s.

Definition mark (m : Mark) (s : State) : State :=
  if runs S then set_marks (marks s ++ [m]) s else s.

(** *** Entering states *)

Definition enterDiscovering (s : State) : State := set_node discovering (upd (set_latch false) s).
Definition enterReading (s : State) : State :=
  set_node fetch (upd (λ c, set_latch false (set_ready [] c)) s).

(** [settleTarget] and [hearAgain]: where a settled worker, a wake or a poll
    sends the machine. *)
Definition lookAgain (s : State) : State :=
  match form S with
  | pull => enterDiscovering s
  | rd => enterReading s
  | push => s
  end.

(** *** Settled workers *)

Definition free (k : jstr) (c : PoolCtx) : PoolCtx :=
  set_active (filter (λ k', k' ≠ k) (active c)) (set_claimed (objDel k (claimed c)) c).

Definition inReading (s : State) : bool :=
  match node s with fetch | check | claiming => true | _ => false end.

(** The target of a settle: none inside a read, which latches instead. *)
Definition afterSettle (s : State) : State :=
  if inReading s then upd (set_latch true) s else lookAgain s.

Definition stillLive (out : option DispatchOutput) : bool :=
  match out with
  | Some (OSettled _ st) => bool_decide (st = js "live")
  | _ => false
  end.

(** The output of a done event: a child's, or a dispatch slot's. *)
Inductive WorkerOut := ChildOut (out : Json.json) | RunOut (out : option DispatchOutput).

Definition asRun (out : WorkerOut) : option DispatchOutput := match out with RunOut o => o | ChildOut _ => None end.
Definition asChild (out : WorkerOut) : Json.json := match out with ChildOut o => o | RunOut _ => Json.JNull end.

Definition workerDone (k : jstr) (out : WorkerOut) (s : State) : State :=
  if runs S then
    if bool_decide (k ∈ active (ctx s)) then
      if stillLive (asRun out) then upd (λ c, set_again (again c ++ [k]) c) s
      else
        let v := settledOfRun (asRun out) in
        afterSettle (upd (λ c, free k (set_items (objSet k v (items c)) c)) (mark (MSettled k v) s))
    else s
  else
    afterSettle (upd (λ c, free k (set_items (objSet k (Output (asChild out)) (items c)) c)) s).

Definition dispatchError : Settled := RunEnd None (js "dispatch-error") None.

(** [isFailure]: the worker stated its Failure. An error that no transition
    takes ends the machine. *)
Definition workerError (k : jstr) (isFailure : bool) (payload : Json.json) (message : jstr) (s : State) : State :=
  if bool_decide (k ∈ active (ctx s)) && (runs S || isFailure) then
    if runs S then
      afterSettle (upd (λ c, free k (set_items (objSet k dispatchError (items c)) c))
                     (mark (MSettled k (RunEnd None (js "dispatch-error") (Some message))) s))
    else
      afterSettle (upd (λ c, free k (set_failures (objSet k payload (failures c)) c)) s)
  else set_node crashed s.

(** *** Claims *)

Definition nextClaim (c : PoolCtx) : option Held :=
  match ready c with
  | h :: _ => Some h
  | [] => head (held c)
  end.

Definition claimNext (h : Held) (c : PoolCtx) : PoolCtx :=
  let fromReady := negb (bool_decide (ready c = [])) in
  let c' := set_active (active c ++ [key h]) c in
  let c' := set_ready (if fromReady then tail (ready c) else ready c) c' in
  let c' := set_held (if fromReady then held c else tail (held c)) c' in
  let c' := set_claimed (if runs S then objSet (key h) h (claimed c) else claimed c) c' in
  set_taken (taken c + 1)%nat c'.

Definition spawn (h : Held) (s : State) : State := set_spawned (spawned s ++ [h]) s.

(** The root's [always]: a wait sent again first, then a claim. *)
Definition claimAlways (s : State) : option State :=
  let c := ctx s in
  match (if runs S then head (again c) else None) with
  | Some k =>
      let h := default (mkHeld k Json.JNull None) (objGet k (claimed c)) in
      Some (upd (λ c, set_again (tail (again c)) c) (spawn h s))
  | None =>
      match nextClaim c with
      | Some h =>
          if lenZ (active c) <? cap c then
            Some (upd (claimNext h) (spawn h (mark (Started (key h)) s)))
          else None
      | None => None
      end
  end.

(** A look that found nothing, with nothing active. *)
Definition idleEnd (st : Status) (s : State) : State :=
  let s := upd (set_status (Some st)) s in
  if negb (report S) && negb (bool_decide (failures (ctx s) = [])) then set_node failing s
  else set_node (match st with drained_ => drained | deadlocked_ => deadlocked end) s.

(** A state's own [always]. *)
Definition ownAlways (s : State) : option State :=
  let c := ctx s in
  match node s with
  | discovering => if cap c <=? lenZ (active c) then Some (set_node saturated s) else None
  | claiming =>
      if bool_decide (ready c = []) || (cap c <=? lenZ (active c))
      then Some (set_node readDone (upd (set_ready []) s)) else None
  | readDone =>
      if latch c then Some (enterReading s)
      else if runs S || negb (bool_decide (active c = [])) then Some (set_node parked s)
      else Some (idleEnd drained_ s)
  | _ => None
  end.

Definition rootAlways (s : State) : option State :=
  if bool_decide (form S ≠ pull) || runs S then claimAlways s else None.

Definition always (s : State) : option State :=
  match node s with
  | drained | deadlocked | crashed => None
  | _ =>
      match ownAlways s with
      | Some s' => Some s'
      | None => rootAlways s
      end
  end.

Fixpoint settle (fuel : nat) (s : State) : State :=
  match fuel with
  | O => s
  | Datatypes.S f =>
      match always s with
      | Some s' => settle f s'
      | None => s
      end
  end.

(** *** The read's check *)

Definition knownOf (c : PoolCtx) : list jstr :=
  active c ++ (key <$> held c)
  ++ (if runs S then (filter (λ kv, runOf kv.2 = None) (items c)).*1
      else (items c).*1 ++ (failures c).*1).

(** The items that may start: a key, not known, not twice, not held by a run
    of the callee. [lookup] is what the store answers for a key, which is asked
    about once. *)
Fixpoint checkItems (lookup : jstr → option jstr) (found : list Json.json) (known : list jstr) : list Held :=
  match found with
  | [] => []
  | it :: found' =>
      match itemId S it with
      | None => checkItems lookup found' known
      | Some k =>
          if bool_decide (k = []) || bool_decide (k ∈ known) then checkItems lookup found' known
          else
            let rest := checkItems lookup found' (k :: known) in
            if runs S && bool_decide (is_Some (lookup k)) then rest
            else mkHeld k it None :: rest
      end
  end.

(** A machine that is done or failed takes no event. *)
Definition ended (s : State) : bool :=
  match node s with drained | deadlocked | crashed => true | _ => false end.

(** *** Events *)

Inductive Event :=
| EWorkerDone (k : jstr) (out : WorkerOut)
| EWorkerError (k : jstr) (isFailure : bool) (payload : Json.json) (message : jstr)
| EWake  (** the [wake] event, or a [REREAD] *)
| EPoll
| ECarry (h : Held)
| ENextDone (out : Json.json)
| ENextError
| EReadDone (found : list Json.json)
| EReadError
| ECheckDone (lookup : jstr → option jstr)
| ECheckError.

(** [onDone] of [next]. *)
Definition nextDone (out : Json.json) (s : State) : State :=
  let cl := normalizeClaim out in
  match c_item cl with
  | Some it =>
      match itemId S it with
      | Some k =>
          let h := mkHeld k it None in
          enterDiscovering
            (spawn h
               (upd (λ c, set_taken (taken c + 1)%nat
                            (set_active (active c ++ [k])
                               (set_claimed (if runs S then objSet k h (claimed c) else claimed c) c)))
                  (mark (Started k) s)))
      | None => set_node crashed s
      end
  | None =>
      if latch (ctx s) then enterDiscovering s
      else if runs S || negb (bool_decide (active (ctx s) = [])) then set_node parked s
      else idleEnd (if 0 <? c_open cl then deadlocked_ else drained_) s
  end.

Definition transition (e : Event) (s : State) : State :=
  if ended s then s
  else
      match e with
      | EWorkerDone k out => workerDone k out s
      | EWorkerError k f p m => workerError k f p m s
      | EWake =>
          if wakes S then
            match node s with
            | parked =>
                match form S with
                | push => upd (set_latch true) s
                | _ => lookAgain s
                end
            | _ => upd (set_latch true) s
            end
          else s
      | EPoll => match node s with parked => if polls S then lookAgain s else s | _ => s end
      | ECarry h =>
          let c := ctx s in
          if bool_decide (form S = push) && (lenZ (held c) <? hold S)
             && negb (bool_decide (key h ∈ key <$> held c)) && negb (bool_decide (key h ∈ active c))
          then upd (λ c, set_held (held c ++ [h]) c) s
          else s
      | ENextDone out => match node s with discovering => nextDone out s | _ => s end
      | ENextError => match node s with discovering => set_node crashed s | _ => s end
      | EReadDone found =>
          match node s with fetch => set_node check (set_checking (found, knownOf (ctx s)) s) | _ => s end
      | EReadError => match node s with fetch => set_node readDone s | _ => s end
      | ECheckDone lookup =>
          match node s with
          | check =>
              let '(found, known) := checking s in
              set_node claiming (upd (set_ready (checkItems lookup found known)) s)
          | _ => s
          end
      | ECheckError => match node s with check => set_node readDone s | _ => s end
      end.

(** Enough for every eventless transition after one event: see
    [settle_stable]. *)
Definition settleFuel (s : State) : nat :=
  length (again (ctx s)) + length (ready (ctx s)) + length (held (ctx s)) + 3.

Definition handle (e : Event) (s : State) : State :=
  let s' := transition e s in settle (settleFuel s') s'.

(** *** Starting *)

Record StandingCarry := mkCarry { sc_held : list Held; sc_active : list Held }.

Definition noCarry : StandingCarry := mkCarry [] [].

(** The properties that every object inherits: [claimed[key]] is truthy for
    them too. *)
Definition INHERITED : list jstr :=
  js <$> ["constructor"; "__defineGetter__"; "__defineSetter__"; "hasOwnProperty"; "__lookupGetter__";
          "__lookupSetter__"; "isPrototypeOf"; "propertyIsEnumerable"; "toString"; "valueOf";
          "__proto__"; "toLocaleString"]%string.

Definition truthyAt (k : jstr) (o : obj Held) : bool :=
  bool_decide (is_Some (objGet k o)) || bool_decide (k ∈ INHERITED).

(** The held items that a hand-over carries, parsed again. *)
Fixpoint carriedHeld (hs : list Held) (claimed_ : obj Held) (out : list Held) (refused_ : list (jstr * jstr))
    : list Held * list (jstr * jstr) :=
  match hs with
  | [] => (out, refused_)
  | h :: hs' =>
      if bool_decide (form S ≠ push) then
        carriedHeld hs' claimed_ out
          (refused_ ++ [(key h, js "the Source is no longer a push Source, so it holds no item")])
      else
        match parseItem S (item h) with
        | None => carriedHeld hs' claimed_ out (refused_ ++ [(key h, js "the item does not parse")])
        | Some it =>
            if truthyAt (key h) claimed_ || bool_decide (key h ∈ key <$> out)
            then carriedHeld hs' claimed_ out refused_
            else carriedHeld hs' claimed_ (out ++ [mkHeld (key h) it (hook h)]) refused_
        end
  end.

(** [claimed[a.key] = { ...a }]; the key [__proto__] makes no own property. *)
Definition carriedClaimed (hs : list Held) : obj Held :=
  foldl (λ o a, if bool_decide (key a = []) || bool_decide (key a = js "__proto__") then o
                else objSet (key a) a o) [] hs.

Definition initialCtx (given : StandingCarry) : PoolCtx :=
  let cl := if runs S then carriedClaimed (sc_active given) else [] in
  let '(hs, rf) := if runs S then carriedHeld (sc_held given) cl [] [] else ([], []) in
  let ks := objectKeys cl.*1 in
  mkCtx (default 1 (capOf S)) ks [] [] None hs [] cl ks false 0 ks rf.

Definition initialNode : Node :=
  match form S with pull => discovering | rd => fetch | push => parked end.

(** The root's entry: a mark per refused item, then none are left. *)
Definition start (given : StandingCarry) : State :=
  let c := initialCtx given in
  let s := mkState initialNode (set_refused [] c) ([], []) [] ((λ r, CarryRefused r.1 r.2) <$> refused c) in
  settle (settleFuel s) s.

(** [standingCarryOf]: what a hand-over carries from a context. *)
Definition standingCarryOf (dropHeld : bool) (c : PoolCtx) : StandingCarry :=
  mkCarry (if dropHeld then [] else held c)
    ((λ k, match objGet k (claimed c) with
           | Some h => mkHeld k (item h) (hook h)
           | None => mkHeld k Json.JNull None
           end) <$> active c).

(** *** The seat *)

Inductive Verdict :=
| VHeld (k : jstr) (it : Json.json)
| VExisting (k : jstr) (it : Json.json) (run : option jstr)
| VHoldFull (k : jstr) (it : Json.json)
| VReread
| VSkipped (reason : jstr).

(** What a handler gave. *)
Inductive Given := GSkip (reason : jstr) | GReread | GCarry (it : Json.json) | GThrew (message : jstr) | GOther.

(** [hear] up to its [await]: an answer and the state, or the key and item that
    the store is asked about. *)
Definition hearStart (g : Given) (s : State) : (Verdict * State) + (jstr * Json.json) :=
  match g with
  | GThrew m => inl (VSkipped (js "its handler threw: " ++ m), s)
  | GSkip r => inl (VSkipped r, s)
  | GReread =>
      if bool_decide (form S = push) then
        inl (VSkipped (js "its handler gave reread(), and a push Source cannot read again"), s)
      else if ended s then inl (VSkipped (js "the Pool's run has ended"), s)
      else inl (VReread, handle EWake s)
  | GOther => inl (VSkipped (js "its handler gave neither carry(item), reread() nor skip(reason)"), s)
  | GCarry it =>
      if bool_decide (form S ≠ push) then
        inl (VSkipped (js "its handler gave carry(item), and only a push Source holds items"), s)
      else
        match parseItem S it with
        | None => inl (VSkipped (js "the carried item does not parse"), s)
        | Some data =>
            match itemId S data with
            | None | Some [] => inl (VSkipped (js "its itemId gave no id"), s)
            | Some k =>
                if bool_decide (k ∈ key <$> held (ctx s)) then inl (VExisting k data None, s)
                else inr (k, data)
            end
        end
  end.

(** [hear] after it: [found] is the run that holds the key. *)
Definition hearEnd (k : jstr) (data : Json.json) (hk : Hook) (found : option jstr) (s : State) : Verdict * State :=
  match found with
  | Some run => (VExisting k data (Some run), s)
  | None =>
      let c := ctx s in
      if bool_decide (k ∈ key <$> held c) || bool_decide (k ∈ active c) then (VExisting k data None, s)
      else if hold S <=? lenZ (held c) then (VHoldFull k data, s)
      else if ended s then (VSkipped (js "the Pool's run has ended"), s)
      else
        let s' := handle (ECarry (mkHeld k data (Some hk))) s in
        if bool_decide (k ∈ key <$> held (ctx s')) || bool_decide (k ∈ active (ctx s'))
        then (VHeld k data, s')
        else (VSkipped (js "the Pool did not take the item"), s')
  end.

(** *** The machine's answers *)

(** [output] of a Pool that ended. *)
Definition output (s : State) : Status * obj Settled * obj Json.json :=
  (default drained_ (status (ctx s)), items (ctx s), failures (ctx s)).

(** [standingTook]: whether this run started a run, and how many items of its
    own it answered. [runningOf] says which active children's Effects have a
    run. *)
Definition standingTook (c : PoolCtx) (runningOf : jstr → bool) : bool * nat :=
  let own := filter (λ kv, kv.1 ∉ carried c) (items c) in
  let startedRun := existsb (λ kv, match runOf kv.2 with Some _ => true | None => false end) own in
  (startedRun || existsb (λ k, bool_decide (k ∉ carried c) && runningOf k) (active c), length own).

End Machine.

End Pool.
