(* ===== verification/PoolProofs.v ===== *)
(** * The Pool: proofs

    Invariants of every state that a Pool reaches from its start through any
    sequence of events. *)

From Stdlib Require Import Lia ZArith.
From stdpp Require Import base list strings sets gmap relations.
From S2P Require Import Prelude JsString Json JsObject Pool.

Open Scope Z_scope.

Module PoolProofs.
Import Pool.

Section Proofs.
Variable S : Spec.

(** The states of a Pool: its start, with what a hand-over gave it, and what
    each event makes of them. *)
Inductive reach (given : StandingCarry) : State → Prop :=
| reach_start : reach given (start S given)
| reach_event s e : reach given s → reach given (handle S e s).

(** ** Eventless transitions end *)

Definition nodeRank (n : Node) : nat :=
  match n with discovering => 1 | claiming => 2 | readDone => 1 | _ => 0 end.

Definition measure_ (s : State) : nat :=
  length (again (ctx s)) + length (ready (ctx s)) + length (held (ctx s)) + nodeRank (node s).

Inductive moved (s s' : State) : Prop :=
| m_saturated : node s = discovering → s' = set_node saturated s → moved s s'
| m_claimed : node s = claiming → s' = set_node readDone (upd (set_ready []) s) → moved s s'
| m_reread : node s = readDone → latch (ctx s) = true → s' = enterReading s → moved s s'
| m_parked :
    node s = readDone → latch (ctx s) = false → runs S = true ∨ active (ctx s) ≠ [] →
    s' = set_node parked s → moved s s'
| m_idle :
    node s = readDone → latch (ctx s) = false → runs S = false → active (ctx s) = [] →
    s' = idleEnd S drained_ s → moved s s'
| m_again k rest :
    runs S = true → again (ctx s) = k :: rest →
    s' = upd (λ c, set_again rest c)
           (spawn (default (mkHeld k Json.JNull None) (objGet k (claimed (ctx s)))) s) → moved s s'
| m_claim h :
    ended s = false → nextClaim (ctx s) = Some h → lenZ (active (ctx s)) < cap (ctx s) →
    form S ≠ pull ∨ runs S = true →
    s' = upd (claimNext S h) (spawn h (mark S (Started (key h)) s)) → moved s s'.

(** One eventless transition is one of these. *)
Lemma always_moved s s' : always S s = Some s' → moved s s'.
Proof.
  assert (∀ s', ended s = false → rootAlways S s = Some s' → moved s s') as HR.
  { intros x He H. unfold rootAlways in H. destruct (bool_decide (form S ≠ pull) || runs S) eqn:Eg; [|done].
    assert (form S ≠ pull ∨ runs S = true) as Hg by (apply orb_true_iff in Eg; rewrite bool_decide_eq_true in Eg; done).
    unfold claimAlways in H. destruct (if runs S then head (again (ctx s)) else None) as [k|] eqn:Ea.
    - destruct (runs S) eqn:Er; [|done]. destruct (again (ctx s)) as [|k' rest] eqn:Eag; [done|].
      injection Ea as ->. injection H as <-. eapply m_again; [done|done|]. unfold upd. simpl. by rewrite Eag.
    - destruct (nextClaim (ctx s)) as [h|] eqn:En; [|done].
      destruct (Z.ltb_spec (lenZ (active (ctx s))) (cap (ctx s))); [|done]. injection H as <-.
      by eapply m_claim. }
  unfold always, ownAlways. unfold ended in HR. destruct (node s) eqn:En; try done; try (by apply HR).
  - destruct (cap (ctx s) <=? lenZ (active (ctx s))); [|by apply HR]. intros [= <-]. by apply m_saturated.
  - destruct (bool_decide _ || _); [|by apply HR]. intros [= <-]. by apply m_claimed.
  - destruct (latch (ctx s)) eqn:El; [intros [= <-]; by apply m_reread|].
    destruct (runs S || negb (bool_decide (active (ctx s) = []))) eqn:Ep; intros [= <-].
    + apply m_parked; [done|done| |done]. apply orb_true_iff in Ep as [?|Ep]; [by left|right].
      by apply negb_true_iff, bool_decide_eq_false in Ep.
    + apply orb_false_iff in Ep as [? Ep]. apply negb_false_iff, bool_decide_eq_true in Ep. by apply m_idle.
Qed.

Lemma nextClaim_cases c h :
  nextClaim c = Some h → (∃ rest, ready c = h :: rest) ∨ (ready c = [] ∧ ∃ rest, held c = h :: rest).
Proof.
  unfold nextClaim. destruct (ready c) as [|h' rest]; [|intros [= ->]; left; eauto].
  destruct (held c) as [|h' rest]; [done|]. intros [= ->]. right. eauto.
Qed.

(** What a claim does to the lists. *)
Lemma claimNext_fields c h :
  nextClaim c = Some h →
  active (claimNext S h c) = active c ++ [key h]
  ∧ ((∃ rest, ready c = h :: rest ∧ ready (claimNext S h c) = rest ∧ held (claimNext S h c) = held c)
     ∨ (ready c = [] ∧ ready (claimNext S h c) = [] ∧ ∃ rest, held c = h :: rest ∧ held (claimNext S h c) = rest))
  ∧ again (claimNext S h c) = again c ∧ cap (claimNext S h c) = cap c ∧ latch (claimNext S h c) = latch c
  ∧ carried (claimNext S h c) = carried c ∧ items (claimNext S h c) = items c
  ∧ failures (claimNext S h c) = failures c ∧ status (claimNext S h c) = status c
  ∧ claimed (claimNext S h c) = (if runs S then objSet (key h) h (claimed c) else claimed c).
Proof.
  intros Hn. split; [done|]. split; [|done]. unfold claimNext.
  destruct (nextClaim_cases c h Hn) as [[rest Hr]|[Hr [rest Hh]]].
  - left. exists rest. cbn. rewrite Hr. done.
  - right. cbn. rewrite Hr. cbn. rewrite Hh. eauto 6.
Qed.

Lemma moved_measure s s' : moved s s' → (measure_ s' < measure_ s)%nat.
Proof.
  unfold measure_. intros [Hn ->|Hn ->|Hn Hl ->|Hn Hl Hp ->|Hn Hl Hr Ha ->|k rest Hr Ha ->|h He Hc Hlt Hg ->].
  - simpl. rewrite Hn. simpl. lia.
  - simpl. rewrite Hn. simpl. lia.
  - simpl. rewrite Hn. simpl. lia.
  - simpl. rewrite Hn. simpl. lia.
  - unfold idleEnd. cbv zeta. destruct (negb (report S) && _); simpl; rewrite Hn; simpl; lia.
  - simpl. rewrite Ha. simpl. lia.
  - assert (node (upd (claimNext S h) (spawn h (mark S (Started (key h)) s))) = node s
      ∧ ctx (upd (claimNext S h) (spawn h (mark S (Started (key h)) s))) = claimNext S h (ctx s)) as [-> ->].
    { unfold mark. by destruct (runs S). }
    destruct (claimNext_fields (ctx s) h Hc) as (_ & [(rest & E1 & E2 & E3)|(E1 & E2 & rest & E3 & E4)] & E5 & _);
      rewrite ?E1, ?E2, ?E3, ?E4, E5; simpl; lia.
Qed.

Lemma settle_ends n s : (measure_ s <= n)%nat → always S (settle S n s) = None.
Proof.
  revert s. induction n as [|n IH]; intros s Hn; simpl.
  - destruct (always S s) as [s'|] eqn:E; [|done]. apply always_moved, moved_measure in E. lia.
  - destruct (always S s) as [s'|] eqn:E; [|done]. apply IH.
    apply always_moved, moved_measure in E. lia.
Qed.

Lemma settleFuel_enough s : (measure_ s <= settleFuel s)%nat.
Proof. unfold measure_, settleFuel. destruct (node s); simpl; lia. Qed.

(** After every event the machine is at rest. *)
Lemma reach_stable given s : reach given s → always S s = None.
Proof. intros []; apply settle_ends, settleFuel_enough. Qed.

(** A property that the start has, and that every event and every eventless
    transition keeps, holds in every state. An event comes to a state at rest. *)
Lemma reach_invariant given (P : State → Prop) :
  (∀ s s', P s → moved s s' → P s') →
  P (mkState (initialNode S) (set_refused [] (initialCtx S given)) ([], []) []
       ((λ r, CarryRefused r.1 r.2) <$> refused (initialCtx S given))) →
  (∀ e s, P s → always S s = None → P (transition S e s)) →
  ∀ s, reach given s → P s.
Proof.
  intros Hm H0 Ht. assert (∀ n s, P s → P (settle S n s)) as Hs.
  { induction n as [|n IH]; intros s Hp; simpl; [done|]. destruct (always S s) as [s'|] eqn:E; [|done].
    apply IH. eapply Hm; [exact Hp|]. by apply always_moved. }
  induction 1 as [|s e Hr IH]; [by apply Hs|]. apply Hs, Ht; [done|]. by eapply reach_stable.
Qed.

(** ** The events *)

Inductive stepped (s s' : State) : Prop :=
| t_same : s' = s → stepped s s'
| t_settled k v m :
    ended s = false → (runs S = true → k ∈ active (ctx s)) →
    s' = afterSettle S (upd (λ c, free k (set_items (objSet k v (items c)) c)) (set_marks m s)) → stepped s s'
| t_failed k p :
    ended s = false → runs S = false → k ∈ active (ctx s) →
    s' = afterSettle S (upd (λ c, free k (set_failures (objSet k p (failures c)) c)) s) → stepped s s'
| t_wait k :
    runs S = true → k ∈ active (ctx s) → s' = upd (λ c, set_again (again c ++ [k]) c) s → stepped s s'
| t_crash : s' = set_node crashed s → stepped s s'
| t_latch : ended s = false → node s ≠ parked ∨ form S = push → s' = upd (set_latch true) s → stepped s s'
| t_look : node s = parked → s' = lookAgain S s → stepped s s'
| t_carry h :
    ended s = false → form S = push → lenZ (held (ctx s)) < hold S → key h ∉ key <$> held (ctx s) → key h ∉ active (ctx s) →
    s' = upd (λ c, set_held (held c ++ [h]) c) s → stepped s s'
| t_next out : node s = discovering → s' = nextDone S out s → stepped s s'
| t_read found :
    node s = fetch → s' = set_node check (set_checking (found, knownOf S (ctx s)) s) → stepped s s'
| t_readError : node s = fetch ∨ node s = check → s' = set_node readDone s → stepped s s'
| t_check lookup :
    node s = check →
    s' = set_node claiming (upd (set_ready (checkItems S lookup (checking s).1 (checking s).2)) s) → stepped s s'.

Lemma state_eta_marks s : s = set_marks (marks s) s.
Proof. by destruct s. Qed.

Lemma workerDone_stepped k out s : ended s = false → stepped s (workerDone S k out s).
Proof.
  intros He. unfold workerDone. destruct (runs S) eqn:Er.
  - case_bool_decide; [|by apply t_same]. destruct (stillLive _); [by eapply t_wait|].
    eapply t_settled; [done|done|]. unfold mark. by rewrite Er.
  - eapply (t_settled _ _ k _ (marks s)); [done|congruence|]. by rewrite <- state_eta_marks.
Qed.

Lemma workerError_stepped k f p m s : ended s = false → stepped s (workerError S k f p m s).
Proof.
  intros He. unfold workerError. destruct (bool_decide _ && _) eqn:Eg; [|by apply t_crash].
  apply andb_true_iff in Eg as [Hk%bool_decide_eq_true Hf]. destruct (runs S) eqn:Er.
  - eapply t_settled; [done|done|]. unfold mark. by rewrite Er.
  - by eapply t_failed.
Qed.

Lemma transition_stepped e s : stepped s (transition S e s).
Proof.
  unfold transition. destruct (ended s) eqn:He; [by apply t_same|].
  destruct e as [k out|k f p m| | |h|out| |found| |lk|].
  - by apply workerDone_stepped.
  - by apply workerError_stepped.
  - destruct (wakes S); [|by apply t_same].
    destruct (decide (node s = parked)) as [Hp|Hp].
    + rewrite Hp. destruct (form S) eqn:Ef; [by apply t_look|by apply t_look|]. apply t_latch; auto.
    + assert (stepped s (upd (set_latch true) s)) by (apply t_latch; auto). by destruct (node s).
  - destruct (node s) eqn:En; try (by apply t_same). destruct (polls S); [by apply t_look|by apply t_same].
  - destruct (_ && _) eqn:Eg; [|by apply t_same].
    apply andb_true_iff in Eg as [[[G1 G2]%andb_true_iff G3]%andb_true_iff G4]. zbool.
    by eapply (t_carry _ _ h).
  - destruct (node s) eqn:En; try (by apply t_same). by eapply t_next.
  - destruct (node s) eqn:En; try (by apply t_same). by apply t_crash.
  - destruct (node s) eqn:En; try (by apply t_same). by eapply t_read.
  - destruct (node s) eqn:En; try (by apply t_same). apply t_readError; auto.
  - destruct (node s) eqn:En; try (by apply t_same). eapply (t_check _ _ lk); [done|]. by destruct (checking s).
  - destruct (node s) eqn:En; try (by apply t_same). apply t_readError; auto.
Qed.

(** *** What the targets change *)

Record sameMost (s1 s2 : State) : Prop := {
  sm_active : active (ctx s2) = active (ctx s1);
  sm_held : held (ctx s2) = held (ctx s1);
  sm_items : items (ctx s2) = items (ctx s1);
  sm_failures : failures (ctx s2) = failures (ctx s1);
  sm_cap : cap (ctx s2) = cap (ctx s1);
  sm_carried : carried (ctx s2) = carried (ctx s1);
  sm_status : status (ctx s2) = status (ctx s1);
  sm_again : again (ctx s2) = again (ctx s1);
  sm_claimed : claimed (ctx s2) = claimed (ctx s1);
  sm_spawned : spawned s2 = spawned s1;
  sm_checking : checking s2 = checking s1;
}.

(** How a look again, or a latch instead, changes the state. *)
Inductive looked (s1 s2 : State) : Prop :=
| l_latch : inReading s1 = true → node s2 = node s1 → ready (ctx s2) = ready (ctx s1) →
            latch (ctx s2) = true → looked s1 s2
| l_push : form S = push → s2 = s1 → looked s1 s2
| l_look : inReading s1 = false → form S ≠ push → latch (ctx s2) = false →
           node s2 = (match form S with pull => discovering | _ => fetch end) →
           (form S = rd → ready (ctx s2) = []) → (form S = pull → ready (ctx s2) = ready (ctx s1)) → looked s1 s2.

Lemma lookAgain_looked s : inReading s = false → sameMost s (lookAgain S s) ∧ looked s (lookAgain S s).
Proof.
  intros Hr. unfold lookAgain. destruct (form S) eqn:Ef.
  - split; [by constructor|]. apply l_look; rewrite ?Ef; done.
  - split; [by constructor|]. apply l_look; rewrite ?Ef; done.
  - split; [by constructor|]. by apply l_push.
Qed.

Lemma afterSettle_looked s : sameMost s (afterSettle S s) ∧ looked s (afterSettle S s).
Proof.
  unfold afterSettle. destruct (inReading s) eqn:E; [|by apply lookAgain_looked].
  split; [by constructor|]. by apply l_latch.
Qed.

(** ** The core invariant *)

Definition cap0 : Z := default 1 (capOf S).

Definition formOfNode (n : Node) : Prop :=
  match n with
  | discovering | saturated => form S = pull
  | fetch | check | claiming | readDone => form S = rd
  | _ => True
  end.

Record Core (given : StandingCarry) (s : State) : Prop := {
  c_cap : cap (ctx s) = cap0;
  c_carried : carried (ctx s) = carried (initialCtx S given);
  c_len : lenZ (active (ctx s)) <= Z.max cap0 (lenZ (carried (initialCtx S given)));
  c_node : formOfNode (node s);
  c_ready : node s ≠ claiming → node s ≠ crashed → ready (ctx s) = [];
  c_parked : node s = parked → form S ≠ push → latch (ctx s) = false;
  c_end : node s = drained ∨ node s = deadlocked ∨ node s = failing →
          active (ctx s) = [] ∧ runs S = false ∧ form S ≠ push
          ∧ (node s = drained → status (ctx s) = Some drained_)
          ∧ (node s = deadlocked → status (ctx s) = Some deadlocked_)
          ∧ (node s = failing ↔ report S = false ∧ failures (ctx s) ≠ []);
  c_held : form S ≠ push → held (ctx s) = [];
  c_hold : lenZ (held (ctx s)) <= Z.max (hold S) (lenZ (held (initialCtx S given)));
}.

Lemma idleEnd_fields st s (s' := idleEnd S st s) :
  active (ctx s') = active (ctx s) ∧ held (ctx s') = held (ctx s) ∧ ready (ctx s') = ready (ctx s)
  ∧ failures (ctx s') = failures (ctx s) ∧ items (ctx s') = items (ctx s) ∧ cap (ctx s') = cap (ctx s)
  ∧ carried (ctx s') = carried (ctx s) ∧ status (ctx s') = Some st ∧ spawned s' = spawned s
  ∧ (node s' = failing ∧ report S = false ∧ failures (ctx s) ≠ []
     ∨ node s' = (match st with drained_ => drained | deadlocked_ => deadlocked end)
       ∧ ¬ (report S = false ∧ failures (ctx s) ≠ [])).
Proof.
  unfold s', idleEnd. cbv zeta.
  destruct (negb (report S) && negb (bool_decide (failures (ctx (upd (set_status (Some st)) s)) = []))) eqn:E;
    cbn in E; split_and!; try done.
  - left. apply andb_true_iff in E as [E1 E2]. zbool. done.
  - right. split; [done|]. intros [H1 H2]. rewrite H1 in E. simpl in E.
    by apply negb_false_iff, bool_decide_eq_true in E.
Qed.

Lemma core_idleEnd given st s :
  Core given s → active (ctx s) = [] → runs S = false → form S ≠ push → ready (ctx s) = [] →
  Core given (idleEnd S st s).
Proof.
  intros [] Ha Hr Hnp Hrd. destruct (idleEnd_fields st s) as (E1 & E2 & E3 & E4 & E5 & E6 & E7 & E8 & E9 & Hn).
  constructor; rewrite ?E1, ?E2, ?E3, ?E4, ?E5, ?E6, ?E7, ?E8; try done.
  - destruct Hn as [[-> _]|[-> _]]; [done|by destruct st].
  - destruct Hn as [[-> _]|[-> _]]; [done|by destruct st].
  - intros _. split_and!; [done|done|done| | |].
    + destruct Hn as [(-> & _)|(-> & _)]; [done|by destruct st].
    + destruct Hn as [(-> & _)|(-> & _)]; [done|by destruct st].
    + destruct Hn as [(-> & ? & ?)|(-> & ?)]; [done|]. split; [by destruct st|done].
Qed.

Lemma core_moved given s s' : Core given s → moved s s' → Core given s'.
Proof.
  intros HC Hm. destruct Hm as [Hn ->|Hn ->|Hn Hl ->|Hn Hl Hp ->|Hn Hl Hr Ha ->|k rest Hr Ha ->|h He Hc Hlt Hg ->].
  - destruct HC. rewrite Hn in *. constructor; cbn; try done.
    + intros _ _. by apply c_ready0.
    + intros [?|[?|?]]; done.
  - destruct HC. rewrite Hn in *. constructor; cbn; try done; by intros [?|[?|?]].
  - destruct HC. rewrite Hn in *. constructor; cbn; try done; by intros [?|[?|?]].
  - destruct HC. rewrite Hn in *. constructor; cbn; try done.
    + intros _ _. by apply c_ready0.
    + intros [?|[?|?]]; done.
  - apply core_idleEnd; [done|done|done| |]; destruct HC; rewrite Hn in *; cbn in *; [congruence|].
    by apply c_ready0.
  - destruct HC. by constructor.
  - assert (node (upd (claimNext S h) (spawn h (mark S (Started (key h)) s))) = node s
      ∧ ctx (upd (claimNext S h) (spawn h (mark S (Started (key h)) s))) = claimNext S h (ctx s)) as [En Ec].
    { unfold mark. by destruct (runs S). }
    destruct (claimNext_fields (ctx s) h Hc) as (Ea & Hrh & _ & Ecap & El & Ecar & _ & Ef & Es & _).
    destruct HC. constructor; rewrite ?En, ?Ec, ?Ea, ?Ecap, ?El, ?Ecar, ?Ef, ?Es; try done.
    + unfold lenZ in *. rewrite length_app. simpl. lia.
    + intros Hx. destruct Hrh as [(rest & Hr & _ & _)|(_ & Hr & _)]; [|done].
      intros ?. by rewrite c_ready0 in Hr.
    + intros Hx. destruct (c_end0 Hx) as (_ & _ & Hnp & _). exfalso. specialize (c_held0 Hnp).
      destruct Hrh as [(rest & Hr & _ & _)|(_ & _ & rest & Hh & _)]; [|congruence].
      rewrite c_ready0 in Hr; [done|..]; destruct Hx as [Hx|[Hx|Hx]]; by rewrite Hx.
    + intros Hx. specialize (c_held0 Hx). destruct Hrh as [(rest & _ & _ & ->)|(_ & _ & rest & Hh & ->)]; [done|congruence].
    + unfold lenZ in *. destruct Hrh as [(rest & _ & _ & ->)|(_ & _ & rest & Hh & ->)]; [done|].
      rewrite Hh in c_hold0. simpl in c_hold0. lia.
Qed.

(** Only these fields matter to a settle's first half. *)
Lemma free_fields k c :
  held (free k c) = held c ∧ ready (free k c) = ready c ∧ cap (free k c) = cap c
  ∧ carried (free k c) = carried c ∧ latch (free k c) = latch c ∧ status (free k c) = status c
  ∧ active (free k c) = filter (λ k', k' ≠ k) (active c)
  ∧ items (free k c) = items c ∧ failures (free k c) = failures c ∧ again (free k c) = again c.
Proof. done. Qed.

Lemma core_looked given s s1 s2 :
  Core given s → ended s = false → cap (ctx s1) = cap (ctx s) → carried (ctx s1) = carried (ctx s) →
  (length (active (ctx s1)) <= length (active (ctx s)))%nat → node s1 = node s →
  ready (ctx s1) = ready (ctx s) → latch (ctx s1) = latch (ctx s) → held (ctx s1) = held (ctx s) →
  (node s = failing → form S ≠ push) →
  sameMost s1 s2 → looked s1 s2 → Core given s2.
Proof.
  intros [] He Ecap Ecar Elen Enode Erd Elt Ehd Hfp [] Hl.
  assert (lenZ (active (ctx s2)) <= Z.max cap0 (lenZ (carried (initialCtx S given)))) as HA
    by (unfold lenZ in *; rewrite sm_active0; lia).
  destruct Hl as [Hr Hn2 Hr2 Hl2|Hp ->|Hr Hnp Hl2 Hn2 Hrd Hpl].
  - assert (inReading s = true) as Hr' by (revert Hr; unfold inReading; by rewrite Enode).
    constructor; rewrite ?Hn2, ?Hr2, ?sm_cap0, ?sm_carried0, ?sm_held0, ?Ecap, ?Ecar, ?Ehd, ?Enode, ?Erd; try done.
    + intros Hp. unfold inReading in Hr'. by rewrite Hp in Hr'.
    + intros Hx. exfalso. unfold inReading in Hr'. by destruct Hx as [Hx|[Hx|Hx]]; rewrite Hx in Hr'.
  - constructor; rewrite ?Ecap, ?Ecar, ?Ehd, ?Enode, ?Erd, ?Elt; try done.
    intros Hx. exfalso. destruct Hx as [Hx|[Hx|Hx]].
    + unfold ended in He. by rewrite Hx in He.
    + unfold ended in He. by rewrite Hx in He.
    + by apply Hfp in Hx.
  - assert (inReading s = false) as Hr' by (revert Hr; unfold inReading; by rewrite Enode).
    assert (ready (ctx s2) = []) as Hr0.
    { destruct (form S) eqn:Ef; [|by apply Hrd|done]. rewrite Hpl, Erd by done.
      apply c_ready0; intros Hx; [unfold inReading in Hr'|unfold ended in He]; by rewrite Hx in *. }
    constructor; rewrite ?Hn2, ?Hr0, ?sm_cap0, ?sm_carried0, ?sm_held0, ?Ecap, ?Ecar, ?Ehd; try done.
    + by destruct (form S) eqn:Ef.
    + intros Hx. by destruct (form S), Hx as [?|[?|?]].
Qed.

Lemma core_nextDone given out s : Core given s → node s = discovering → lenZ (active (ctx s)) < cap (ctx s) →
  Core given (nextDone S out s).
Proof.
  intros HC Hn Hlt. unfold nextDone. cbv zeta.
  assert (ready (ctx s) = []) as Hr.
  { destruct HC. rewrite Hn in *. by apply c_ready0. }
  destruct (c_item _) as [it|].
  - destruct (itemId S it) as [k|].
    + destruct HC. rewrite Hn in *. unfold mark. destruct (runs S); constructor; cbn; try done;
        try (by intros [?|[?|?]]); unfold lenZ in *; rewrite length_app; simpl; lia.
    + destruct HC. constructor; cbn; try done; by intros [?|[?|?]].
  - destruct (latch (ctx s)) eqn:El.
    + destruct HC. rewrite Hn in *. constructor; cbn; try done.
    + destruct (runs S || negb (bool_decide (active (ctx s) = []))) eqn:Eg.
      * destruct HC. rewrite Hn in *. constructor; cbn; try done.
        intros [?|[?|?]]; done.
      * apply orb_false_iff in Eg as [? Ea]. apply negb_false_iff, bool_decide_eq_true in Ea.
        apply core_idleEnd; try done. destruct HC. rewrite Hn in *. cbn in *. congruence.
Qed.

Lemma core_transition given e s : Core given s → always S s = None → Core given (transition S e s).
Proof.
  intros HC Hst. assert (node s = failing → form S ≠ push) as Hfp by (intros Hf; destruct HC; by apply c_end0; auto).
  destruct (transition_stepped e s) as [->|k v m He Hk ->|k p He Hrn Hk ->|k Hrn Hk ->| ->|He Hp ->|Hn ->
    |h He Hf Hlt Hh Ha ->|out Hn ->|found Hn ->|Hn ->|lk Hn ->]; try done.
  - set (s1 := upd (λ c, free k (set_items (objSet k v (items c)) c)) (set_marks m s)).
    destruct (afterSettle_looked s1). eapply (core_looked given s s1); try done. apply length_filter.
  - set (s1 := upd (λ c, free k (set_failures (objSet k p (failures c)) c)) s).
    destruct (afterSettle_looked s1). eapply (core_looked given s s1); try done. apply length_filter.
  - destruct HC. by constructor.
  - destruct HC. constructor; cbn; try done; by intros [?|[?|?]].
  - destruct HC. constructor; cbn; try done. destruct Hp; [done|]. intros. congruence.
  - destruct (lookAgain_looked s) as [??]; [unfold inReading; by rewrite Hn|].
    eapply (core_looked given s s); try done. unfold ended; by rewrite Hn.
  - destruct HC. constructor; cbn; try done.
    unfold lenZ in *. rewrite length_app. simpl. lia.
  - apply core_nextDone; [done|done|]. revert Hst. unfold always, ownAlways. rewrite Hn.
    destruct (Z.leb_spec (cap (ctx s)) (lenZ (active (ctx s)))); [done|]. done.
  - destruct HC. rewrite Hn in *. constructor; cbn; try done; [intros _ _; by apply c_ready0|by intros [?|[?|?]]].
  - destruct HC. assert (form S = rd ∧ ready (ctx s) = []) as [Hf Hr].
    { destruct Hn as [Hn|Hn]; rewrite Hn in *; (split; [done|by apply c_ready0]). }
    constructor; cbn; try done; by intros [?|[?|?]].
  - destruct HC. rewrite Hn in *. constructor; cbn; try done; by intros [?|[?|?]].
Qed.

Lemma core_initial given (c := initialCtx S given) :
  Core given (mkState (initialNode S) (set_refused [] c) ([], []) []
       ((λ r, CarryRefused r.1 r.2) <$> refused c)).
Proof.
  unfold c, initialCtx. destruct (if runs S then _ else ([], [])) as [hs rf] eqn:E.
  constructor; cbn; unfold initialCtx; rewrite ?E; cbn; try done; try lia.
  - unfold initialNode. destruct (form S) eqn:Ef; by rewrite ?Ef.
  - unfold initialNode. destruct (form S); intros [?|[?|?]]; done.
  - intros Hf. destruct (runs S); [|congruence]. revert E. generalize (@nil (jstr * jstr)).
    generalize (carriedClaimed (sc_active given)). intros o.
    induction (sc_held given) as [|h l IH]; intros rs; simpl; [congruence|].
    rewrite bool_decide_eq_true_2 by done. apply IH.
Qed.

Lemma reach_core given s : reach given s → Core given s.
Proof.
  intros Hr. revert s Hr. apply reach_invariant; [apply core_moved|apply core_initial|].
  intros. by apply core_transition.
Qed.

(** ** Keys *)

Lemma checkItems_keys lk found known :
  NoDup (key <$> checkItems S lk found known) ∧ (∀ k, k ∈ key <$> checkItems S lk found known → k ∉ known).
Proof.
  revert known. induction found as [|it found IH]; intros known; simpl; [split; [constructor|set_solver]|].
  destruct (itemId S it) as [k|]; [|apply IH].
  destruct (bool_decide (k = []) || bool_decide (k ∈ known)) eqn:E; [apply IH|].
  apply orb_false_iff in E as [_ Hk%bool_decide_eq_false]. destruct (IH (k :: known)) as [I1 I2].
  destruct (runs S && _); [|rewrite fmap_cons; cbn [key]].
  - split; [done|]. intros k' Hk'%I2. set_solver.
  - split; [constructor; [|done]|set_solver]. intros Hin%I2. set_solver.
Qed.

Record Keys (s : State) : Prop := {
  k_nodup : form S ≠ pull → NoDup (active (ctx s) ++ (key <$> held (ctx s)) ++ (key <$> ready (ctx s)));
  k_check : node s = check → ∀ k, k ∈ active (ctx s) → k ∈ (checking s).2;
  k_acc : runs S = false → ∀ k, k ∈ key <$> spawned s →
          k ∈ active (ctx s) ∨ k ∈ (items (ctx s)).*1 ∨ k ∈ (failures (ctx s)).*1;
  k_once : runs S = false → form S = rd → NoDup ((key <$> spawned s) ++ (key <$> ready (ctx s)));
  k_spent : runs S = false → node s = check → ∀ k, k ∈ key <$> spawned s → k ∈ (checking s).2;
}.

(** A step that keeps the keys, drops ready items and does not start a check. *)
Lemma keys_same s s' :
  Keys s → active (ctx s') = active (ctx s) → held (ctx s') = held (ctx s) →
  ready (ctx s') = ready (ctx s) ∨ ready (ctx s') = [] → items (ctx s') = items (ctx s) →
  failures (ctx s') = failures (ctx s) → spawned s' = spawned s →
  (node s' = check → node s = check ∧ checking s' = checking s) → Keys s'.
Proof.
  intros [] Ea Eh Er Ei Ef Es Hn. constructor; rewrite ?Ea, ?Eh, ?Ei, ?Ef, ?Es.
  - intros Hf. specialize (k_nodup0 Hf). destruct Er as [-> | ->]; [done|].
    rewrite fmap_nil, app_nil_r. rewrite (assoc_L (++)) in k_nodup0. by apply NoDup_app in k_nodup0 as [? _].
  - intros [? ->]%Hn. auto.
  - done.
  - intros Hr Hf. specialize (k_once0 Hr Hf). destruct Er as [-> | ->]; [done|].
    rewrite fmap_nil, app_nil_r. by apply NoDup_app in k_once0 as [? _].
  - intros ? [? ->]%Hn. auto.
Qed.

Lemma keys_looked s1 s2 : Keys s1 → sameMost s1 s2 → looked s1 s2 → Keys s2.
Proof.
  intros HK [] Hl. destruct Hl as [Hr Hn2 Hr2 Hl2|Hp ->|Hr Hnp Hl2 Hn2 Hrd Hpl]; [|done|].
  - eapply (keys_same s1); try done; [by left|]. intros ?. by rewrite <- Hn2.
  - eapply (keys_same s1); try done; [|by destruct (form S) eqn:E; rewrite Hn2].
    destruct (form S) eqn:E; [left|right|]; auto; done.
Qed.

(** Freeing a key that its settle recorded. *)
Lemma keys_freed k c' s s1 :
  Keys s → s1 = upd (λ c, free k (c' c)) s ∨ (∃ m, s1 = upd (λ c, free k (c' c)) (set_marks m s)) →
  active (c' (ctx s)) = active (ctx s) → held (c' (ctx s)) = held (ctx s) → ready (c' (ctx s)) = ready (ctx s) →
  (∀ k', k' = k ∨ k' ∈ (items (ctx s)).*1 ∨ k' ∈ (failures (ctx s)).*1 →
         k' ∈ (items (c' (ctx s))).*1 ∨ k' ∈ (failures (c' (ctx s))).*1) → Keys s1.
Proof.
  intros [] H1 Ea Eh Er Hif. pose proof (free_fields k (c' (ctx s))) as (F1 & F2 & _ & _ & _ & _ & F3 & F4 & F5 & _).
  assert (ctx s1 = free k (c' (ctx s)) ∧ node s1 = node s ∧ checking s1 = checking s ∧ spawned s1 = spawned s)
    as (E1 & E2 & E3 & E4) by (destruct H1 as [->|[m ->]]; done).
  constructor; rewrite ?E1, ?E2, ?E3, ?E4, ?F1, ?F2, ?F3, ?F4, ?F5, ?Ea, ?Eh, ?Er.
  - intros Hf. specialize (k_nodup0 Hf). apply NoDup_app in k_nodup0 as (N1 & N2 & N3). apply NoDup_app.
    split; [by apply NoDup_filter|]. split; [|done]. intros x [_ Hx]%list_elem_of_filter. by apply N2.
  - intros Hn x [_ Hx]%list_elem_of_filter. auto.
  - intros Hr x Hx. destruct (decide (x = k)) as [->|Hne]; [right; by apply Hif; left|].
    destruct (k_acc0 Hr x Hx) as [?|?]; [left; by apply list_elem_of_filter|right; apply Hif; by right].
  - done.
  - done.
Qed.

Lemma claim_state h s (s' := upd (claimNext S h) (spawn h (mark S (Started (key h)) s))) :
  node s' = node s ∧ ctx s' = claimNext S h (ctx s) ∧ checking s' = checking s ∧ spawned s' = spawned s ++ [h].
Proof. unfold s', mark. by destruct (runs S). Qed.

(** Outside a check and outside [claiming] a read Pool has nothing to claim. *)
Lemma no_claim_in_check given s : Core given s → node s = check → nextClaim (ctx s) = None.
Proof.
  intros [] Hn. rewrite Hn in *. unfold nextClaim. rewrite c_ready0 by done.
  rewrite c_held0 by (cbn in c_node0; congruence). done.
Qed.

Lemma keys_claim given h s :
  Core given s → Keys s → nextClaim (ctx s) = Some h →
  Keys (upd (claimNext S h) (spawn h (mark S (Started (key h)) s))).
Proof.
  intros HC [] Hc. destruct (claim_state h s) as (En & Ec & Ek & Es). cbv zeta in *.
  destruct (claimNext_fields (ctx s) h Hc) as (Ea & Hrh & _ & _ & _ & _ & Ei & Ef & _).
  constructor; rewrite ?En, ?Ec, ?Ek, ?Es, ?Ea, ?Ei, ?Ef.
  - intros Hf. specialize (k_nodup0 Hf).
    destruct Hrh as [(rest & Hr & -> & ->)|(Hr & -> & rest & Hh & ->)]; rewrite ?Hr, ?Hh, ?fmap_cons in k_nodup0;
      (eapply NoDup_Permutation_proper; [|exact k_nodup0]); solve_Permutation.
  - intros Hn. by rewrite (no_claim_in_check given s HC Hn) in Hc.
  - intros Hr k. rewrite fmap_app, !elem_of_app. intros [Hk|Hk]; [|cbn in Hk; set_solver].
    destruct (k_acc0 Hr k Hk) as [?|?]; auto.
  - intros Hr Hf. specialize (k_once0 Hr Hf).
    destruct Hrh as [(rest & Hrd & -> & _)|(_ & _ & rest & Hh & _)].
    + rewrite Hrd, fmap_cons in k_once0. by rewrite fmap_app, <- (assoc_L (++)).
    + destruct HC. rewrite c_held0 in Hh by congruence. done.
  - intros _ Hn. by rewrite (no_claim_in_check given s HC Hn) in Hc.
Qed.

Lemma keys_moved given s s' : Core given s → Keys s → moved s s' → Keys s'.
Proof.
  intros HC HK Hm.
  destruct Hm as [Hn ->|Hn ->|Hn Hl ->|Hn Hl Hp ->|Hn Hl Hr Ha ->|k rest Hr Ha ->|h He Hc Hlt Hg ->].
  - eapply (keys_same s); try done. by left.
  - eapply (keys_same s); try done. by right.
  - eapply (keys_same s); try done. by right.
  - eapply (keys_same s); try done. by left.
  - destruct (idleEnd_fields drained_ s) as (E1 & E2 & E3 & E4 & E5 & _ & _ & _ & E9 & [(E & _)|(E & _)]);
      (eapply (keys_same s); try done; [by left|rewrite E; done]).
  - destruct HK. constructor; cbn; try done; intros; congruence.
  - by eapply keys_claim.
Qed.

Lemma keys_nextDone out s : Keys s → form S = pull → node s = discovering → Keys (nextDone S out s).
Proof.
  intros HK Hf Hn. unfold nextDone. cbv zeta. destruct (c_item _) as [it|].
  - destruct (itemId S it) as [k|]; [|eapply (keys_same s); try done; by left].
    destruct HK. unfold mark. destruct (runs S) eqn:Er; constructor; cbn; try done; try congruence.
    intros _ x. rewrite fmap_app, !elem_of_app. intros [Hk|Hk]; [|cbn in Hk; set_solver].
    destruct (k_acc0 eq_refl x Hk) as [?|?]; auto.
  - destruct (latch (ctx s)); [eapply (keys_same s); try done; by left|].
    destruct (runs S || _); [eapply (keys_same s); try done; by left|].
    destruct (idleEnd_fields (if 0 <? c_open (normalizeClaim out) then deadlocked_ else drained_) s)
      as (E1 & E2 & E3 & E4 & E5 & _ & _ & _ & E9 & [(E & _)|(E & _)]);
      (eapply (keys_same s); try done; [by left|rewrite E; by destruct (0 <? _)]).
Qed.

Lemma keys_checked given lk s :
  Core given s → Keys s → node s = check →
  Keys (set_node claiming (upd (set_ready (checkItems S lk (checking s).1 (checking s).2)) s)).
Proof.
  intros HC [] Hn. destruct (checkItems_keys lk (checking s).1 (checking s).2) as [N1 N2]. destruct HC.
  rewrite Hn in *. cbn in c_node0.
  constructor; cbn; try done.
  - intros Hf. rewrite c_held0 by congruence. cbn. specialize (k_nodup0 Hf). apply NoDup_app in k_nodup0 as (? & _ & _).
    apply NoDup_app. split_and!; [done| |done]. intros k Hk Hk'%N2. auto.
  - intros Hr Hf. apply NoDup_app. split_and!; [|intros k Hk Hk'%N2; by apply Hk', k_spent0|done].
    specialize (k_once0 Hr Hf). by apply NoDup_app in k_once0 as (? & _).
Qed.

Lemma keys_transition given e s : Core given s → Keys s → Keys (transition S e s).
Proof.
  intros HC HK.
  destruct (transition_stepped e s) as [->|k v m He Hk ->|k p He Hrn Hk ->|k Hrn Hk ->| ->|He Hp ->|Hn ->
    |h He Hf Hlt Hh Ha ->|out Hn ->|found Hn ->|Hn ->|lk Hn ->]; try done.
  - eapply keys_looked; [|apply afterSettle_looked..].
    eapply (keys_freed k (λ c, set_items (objSet k v (items c)) c)); [exact HK|right; eauto|done..|].
    intros k'. cbn. rewrite objSet_keys. tauto.
  - eapply keys_looked; [|apply afterSettle_looked..].
    eapply (keys_freed k (λ c, set_failures (objSet k p (failures c)) c)); [exact HK|left; eauto|done..|].
    intros k'. cbn. rewrite objSet_keys. tauto.
  - eapply (keys_same s); try done. by left.
  - eapply (keys_same s); try done. by left.
  - eapply (keys_same s); try done. by left.
  - destruct (lookAgain_looked s) as [??]; [unfold inReading; by rewrite Hn|]. by eapply keys_looked.
  - destruct HK. constructor; cbn; try done. intros Hx. specialize (k_nodup0 Hx). rewrite fmap_app.
    assert (ready (ctx s) = []) as Hr.
    { destruct HC. apply c_ready0; intros E; [rewrite E in *; cbn in *; congruence|]. unfold ended in He. by rewrite E in He. }
    rewrite Hr in *. cbn in *. rewrite app_nil_r in *.
    eapply NoDup_Permutation_proper; [|apply (NoDup_cons_2 (key h)); [|exact k_nodup0]]; [solve_Permutation|].
    rewrite elem_of_app. tauto.
  - apply keys_nextDone; [done| |done]. destruct HC. by rewrite Hn in *.
  - destruct HK. constructor; cbn; try done.
    + unfold knownOf. set_solver.
    + intros Hr _ k Hk. unfold knownOf. rewrite Hr. specialize (k_acc0 Hr k Hk). set_solver.
  - eapply (keys_same s); try done. by left.
  - by eapply keys_checked.
Qed.

Lemma foldl_keep {A B} (P : A → Prop) (f : A → B → A) l a : (∀ a b, P a → P (f a b)) → P a → P (foldl f a l).
Proof. intros Hf. revert a. induction l; simpl; auto. Qed.

Lemma carriedClaimed_NoDup hs : NoDup (carriedClaimed hs).*1.
Proof.
  unfold carriedClaimed. apply (foldl_keep (λ o : obj Held, NoDup o.*1)); [|constructor].
  intros o a Ho. destruct (_ || _); [done|]. by apply objSet_NoDup.
Qed.

Lemma carriedHeld_NoDup hs cl out rf :
  NoDup (cl.*1 ++ (key <$> out)) → NoDup (cl.*1 ++ (key <$> (carriedHeld S hs cl out rf).1)).
Proof.
  revert out rf. induction hs as [|h hs IH]; intros out rf Ho; simpl; [done|].
  case_bool_decide; [by apply IH|]. destruct (parseItem S (item h)) as [it|]; [|by apply IH].
  destruct (truthyAt (key h) cl || bool_decide (key h ∈ key <$> out)) eqn:E; [by apply IH|].
  apply IH. apply orb_false_iff in E as [[E1%bool_decide_eq_false _]%orb_false_iff E2%bool_decide_eq_false].
  rewrite objGet_is_Some in E1. rewrite fmap_app. cbn.
  eapply NoDup_Permutation_proper; [|apply (NoDup_cons_2 (key h)); [|exact Ho]]; [solve_Permutation|].
  rewrite elem_of_app. tauto.
Qed.

Lemma keys_initial given (c := initialCtx S given) :
  Keys (mkState (initialNode S) (set_refused [] c) ([], []) [] ((λ r, CarryRefused r.1 r.2) <$> refused c)).
Proof.
  unfold c, initialCtx. destruct (if runs S then _ else ([], [])) as [hs rf] eqn:E.
  constructor; cbn; try (unfold initialNode; by destruct (form S)); try set_solver; [|intros; constructor].
  intros Hf. rewrite app_nil_r. destruct (runs S); [|injection E as <- <-; constructor].
  pose proof (carriedHeld_NoDup (sc_held given) (carriedClaimed (sc_active given)) [] []) as HN.
  rewrite E in HN. rewrite objectKeys_perm. apply HN. cbn. rewrite app_nil_r. apply carriedClaimed_NoDup.
Qed.

Lemma reach_keys given s : reach given s → Keys s.
Proof.
  intros Hr. cut (Core given s ∧ Keys s); [tauto|]. revert s Hr. apply reach_invariant.
  - intros s s' [HC HK] Hm. eauto using core_moved, keys_moved.
  - split; [apply core_initial|apply keys_initial].
  - intros e s [HC HK] Hs. eauto using core_transition, keys_transition.
Qed.

(** ** Wakes *)

Definition resting (n : Node) : Prop := n = parked ∨ n = drained ∨ n = deadlocked ∨ n = failing.

(** The machine still owes a look, or began one. *)
Definition owes (s : State) : Prop :=
  (latch (ctx s) = true ∧ ¬ resting (node s))
  ∨ node s = fetch ∨ node s = discovering ∨ node s = saturated ∨ node s = crashed.

Lemma owes_moved s s' : owes s → moved s s' → owes s'.
Proof.
  unfold owes, resting. intros HO Hm.
  destruct Hm as [Hn ->|Hn ->|Hn Hl ->|Hn Hl Hp ->|Hn Hl Hr Ha ->|k rest Hr Ha ->|h He Hc Hlt Hg ->].
  - cbn. auto.
  - left. rewrite Hn in HO. cbn. naive_solver.
  - cbn. auto.
  - exfalso. rewrite Hn, Hl in HO. naive_solver.
  - exfalso. rewrite Hn, Hl in HO. naive_solver.
  - done.
  - destruct (claim_state h s) as (En & Ec & _). cbv zeta in *. rewrite En, Ec.
    by destruct (claimNext_fields (ctx s) h Hc) as (_ & _ & _ & _ & -> & _).
Qed.

Lemma settle_keeps (P : State → Prop) n s : (∀ s s', P s → moved s s' → P s') → P s → P (settle S n s).
Proof.
  intros HP. revert s. induction n as [|n IH]; intros s Hs; simpl; [done|].
  destruct (always S s) as [s'|] eqn:E; [|done]. apply IH. eapply HP; [done|]. by apply always_moved.
Qed.

Lemma owes_look s1 s2 : form S ≠ push → looked s1 s2 → owes s2.
Proof.
  intros Hf Hl. unfold owes, resting. destruct Hl as [Hr Hn2 _ Hl2|Hp ->|_ _ _ Hn2 _ _]; [|done|].
  - left. split; [done|]. rewrite Hn2. unfold inReading in Hr. destruct (node s1); naive_solver.
  - right. rewrite Hn2. destruct (form S); auto.
Qed.

Lemma owes_transition given e s :
  Core given s → form S ≠ push → latch (ctx s) = true → ¬ resting (node s) → owes (transition S e s).
Proof.
  intros HC Hf Hlt Hnr. assert (owes s) as HO by (by left).
  destruct (transition_stepped e s) as [->|k v m He Hk ->|k p He Hrn Hk ->|k Hrn Hk ->| ->|He Hp ->|Hn ->
    |h He Hf' Hl Hh Ha ->|out Hn ->|found Hn ->|Hn ->|lk Hn ->]; try done.
  - eapply owes_look; [done|apply afterSettle_looked].
  - eapply owes_look; [done|apply afterSettle_looked].
  - unfold owes. cbn. auto.
  - unfold owes. by left.
  - by destruct Hnr; left.
  - unfold nextDone. cbv zeta. destruct (c_item _) as [it|]; [destruct (itemId S it)|]; unfold owes; cbn; auto.
    rewrite Hlt. cbn. auto.
  - left. split; [done|]. unfold resting. cbn. naive_solver.
  - left. split; [done|]. unfold resting. cbn. naive_solver.
  - left. split; [done|]. unfold resting. cbn. naive_solver.
Qed.

(** A machine at rest, outside a look's end, does not notice the latch. *)
Lemma rootAlways_latch s : rootAlways S s = None → rootAlways S (upd (set_latch true) s) = None.
Proof.
  unfold rootAlways, claimAlways. destruct (bool_decide _ || _); [|done].
  change (again (ctx (upd (set_latch true) s))) with (again (ctx s)).
  destruct (if runs S then _ else None); [done|].
  change (nextClaim (ctx (upd (set_latch true) s))) with (nextClaim (ctx s)).
  destruct (nextClaim (ctx s)) as [h|]; [|done].
  change (ctx (upd (set_latch true) s)) with (set_latch true (ctx s)). cbn [active cap set_latch].
  by destruct (_ <? _).
Qed.

Lemma always_latch s : always S s = None → always S (upd (set_latch true) s) = None.
Proof.
  pose proof (rootAlways_latch s) as HR. unfold always, ownAlways.
  change (node (upd (set_latch true) s)) with (node s).
  change (ctx (upd (set_latch true) s)) with (set_latch true (ctx s)).
  cbn [active cap set_latch ready latch].
  destruct (node s); try done.
  - by destruct (_ <=? _).
  - by destruct (_ || _).
  - destruct (latch (ctx s)); [done|]. by destruct (_ || _).
Qed.

Lemma settle_rest n s : always S s = None → settle S n s = s.
Proof. intros H. destruct n; simpl; [done|]. by rewrite H. Qed.

(** ** Held items are not lost *)

Definition kept (k : jstr) (s : State) : Prop := k ∈ key <$> held (ctx s) ∨ k ∈ active (ctx s).

Lemma kept_moved k s s' : kept k s → moved s s' → kept k s'.
Proof.
  unfold kept. intros HO Hm.
  destruct Hm as [Hn ->|Hn ->|Hn Hl ->|Hn Hl Hp ->|Hn Hl Hr Ha ->|k' rest Hr Ha ->|h He Hc Hlt Hg ->]; try done.
  - by destruct (idleEnd_fields drained_ s) as (-> & -> & _).
  - destruct (claim_state h s) as (_ & Ec & _). cbv zeta in *. rewrite Ec.
    destruct (claimNext_fields (ctx s) h Hc) as (-> & [(rest & _ & _ & ->)|(_ & _ & rest & Hh & ->)] & _); [set_solver|].
    rewrite Hh in HO. set_solver.
Qed.

Lemma carriedClaimed_all hs o :
  NoDup (o.*1 ++ (key <$> hs)) → (∀ h, h ∈ hs → key h ≠ [] ∧ key h ≠ js "__proto__") →
  foldl (λ o a, if bool_decide (key a = []) || bool_decide (key a = js "__proto__") then o
                else objSet (key a) a o) o hs
  = o ++ ((λ a, (key a, a)) <$> hs).
Proof.
  revert o. induction hs as [|h hs IH]; intros o HN Hk; simpl; [by rewrite app_nil_r|].
  destruct (Hk h) as [H1 H2]; [set_solver|].
  rewrite (bool_decide_eq_false_2 (key h = [])) by done.
  rewrite (bool_decide_eq_false_2 (key h = js "__proto__")) by done. simpl.
  assert (objSet (key h) h o = o ++ [(key h, h)]) as ->.
  { rewrite fmap_cons in HN. apply NoDup_app in HN as (_ & HN & _).
    assert (key h ∉ o.*1) as Hno by (intros Hx; apply (HN _ Hx); left). clear -Hno.
    induction o as [|[k1 v1] o IH]; simpl in *; [done|]. rewrite bool_decide_eq_false_2 by set_solver.
    f_equal. apply IH. set_solver. }
  rewrite IH; [by rewrite <- (assoc_L (++))| |intros; apply Hk; set_solver].
  rewrite fmap_app, <- (assoc_L (++)). done.
Qed.

Lemma carriedHeld_all hs cl out rf :
  form S = push → NoDup (cl.*1 ++ (key <$> out) ++ (key <$> hs)) →
  (∀ h, h ∈ hs → parseItem S (item h) = Some (item h) ∧ key h ∉ INHERITED) →
  carriedHeld S hs cl out rf = (out ++ hs, rf).
Proof.
  intros Hf. revert out. induction hs as [|h hs IH]; intros out HN Hh; simpl; [by rewrite app_nil_r|].
  rewrite bool_decide_eq_false_2 by congruence. destruct (Hh h) as [-> Hi]; [set_solver|].
  rewrite fmap_cons in HN. assert ((key h ∉ cl.*1) ∧ key h ∉ key <$> out) as [H1 H2].
  { rewrite (assoc_L (++)) in HN. apply NoDup_app in HN as (_ & HN & _).
    assert (key h ∉ cl.*1 ++ (key <$> out)) as Hx by (intros Hx; apply (HN _ Hx); left). set_solver. }
  unfold truthyAt. rewrite (bool_decide_eq_false_2 (is_Some _)) by (by rewrite objGet_is_Some).
  rewrite (bool_decide_eq_false_2 (_ ∈ INHERITED)), (bool_decide_eq_false_2 (key h ∈ key <$> out)) by done. simpl.
  assert (mkHeld (key h) (item h) (hook h) = h) as -> by (by destruct h).
  rewrite IH; [by rewrite <- (assoc_L (++))| |intros; apply Hh; set_solver].
  rewrite fmap_app, <- (assoc_L (++)). done.
Qed.

(** ** The items of the active keys *)

Definition backed (s : State) : Prop :=
  runs S = true → ∀ k, k ∈ active (ctx s) → ∃ h, objGet k (claimed (ctx s)) = Some h ∧ key h = k.

Lemma backed_claim h s s' :
  backed s → active (ctx s') = active (ctx s) ++ [key h] →
  claimed (ctx s') = (if runs S then objSet (key h) h (claimed (ctx s)) else claimed (ctx s)) → backed s'.
Proof.
  intros HB Ea Ec Hr k. rewrite Ea, Ec, Hr, objGet_objSet. intros [Hk|Hk]%elem_of_app.
  - case_decide; [subst; eauto|]. by apply HB.
  - apply list_elem_of_singleton in Hk as ->. rewrite decide_True by done. eauto.
Qed.

Lemma backed_free k s s' :
  backed s → active (ctx s') = filter (λ k', k' ≠ k) (active (ctx s)) →
  claimed (ctx s') = objDel k (claimed (ctx s)) → backed s'.
Proof.
  intros HB Ea Ec Hr k'. rewrite Ea, Ec. intros [Hne Hk]%list_elem_of_filter. rewrite objGet_objDel by done. by apply HB.
Qed.

Lemma backed_same s s' :
  backed s → active (ctx s') = active (ctx s) → claimed (ctx s') = claimed (ctx s) → backed s'.
Proof. unfold backed. intros HB -> ->. done. Qed.

Lemma idleEnd_claimed st s : claimed (ctx (idleEnd S st s)) = claimed (ctx s).
Proof. unfold idleEnd. cbv zeta. by destruct (_ && _). Qed.

Lemma backed_moved s s' : backed s → moved s s' → backed s'.
Proof.
  intros HB Hm.
  destruct Hm as [Hn ->|Hn ->|Hn Hl ->|Hn Hl Hp ->|Hn Hl Hr Ha ->|k' rest Hr Ha ->|h He Hc Hlt Hg ->];
    try (by eapply (backed_same s)).
  - apply (backed_same s); [done| |apply idleEnd_claimed]. by destruct (idleEnd_fields drained_ s) as (-> & _).
  - destruct (claim_state h s) as (_ & Ec & _). cbv zeta in *.
    destruct (claimNext_fields (ctx s) h Hc) as (Ea & _ & _ & _ & _ & _ & _ & _ & _ & Ek).
    eapply (backed_claim h s); rewrite ?Ec; done.
Qed.

Lemma backed_nextDone out s : backed s → backed (nextDone S out s).
Proof.
  intros HB. unfold nextDone. cbv zeta. destruct (c_item _) as [it|].
  - destruct (itemId S it) as [k|]; [|done]. eapply (backed_claim (mkHeld k it None) s); unfold mark; by destruct (runs S).
  - destruct (latch (ctx s)); [by eapply (backed_same s)|]. destruct (_ || _); [by eapply (backed_same s)|].
    apply (backed_same s); [done| |apply idleEnd_claimed].
    by match goal with |- active (ctx (idleEnd S ?st s)) = _ => destruct (idleEnd_fields st s) as (-> & _) end.
Qed.

Lemma backed_transition e s : backed s → backed (transition S e s).
Proof.
  intros HB.
  destruct (transition_stepped e s) as [->|k v m He Hk ->|k p He Hrn Hk ->|k Hrn Hk ->| ->|He Hp ->|Hn ->
    |h He Hf' Hl Hh Ha ->|out Hn ->|found Hn ->|Hn ->|lk Hn ->]; try (by eapply (backed_same s)).
  - match goal with |- backed (afterSettle S ?s1) => destruct (afterSettle_looked s1) as [[] _] end.
    eapply (backed_free k s); [done|by rewrite sm_active0|by rewrite sm_claimed0].
  - intros Hr. congruence.
  - destruct (lookAgain_looked s) as [[] _]; [unfold inReading; by rewrite Hn|]. by eapply (backed_same s).
  - by apply backed_nextDone.
Qed.

Lemma carriedClaimed_keyed hs k h : objGet k (carriedClaimed hs) = Some h → key h = k.
Proof.
  revert k h. unfold carriedClaimed.
  apply (foldl_keep (λ o : obj Held, ∀ k h, objGet k o = Some h → key h = k)); [|done].
  intros o a Ho k h. destruct (_ || _); [apply Ho|]. rewrite objGet_objSet. case_decide; [congruence|apply Ho].
Qed.

Lemma reach_backed given s : reach given s → backed s.
Proof.
  revert s. apply reach_invariant; [exact backed_moved| |intros; by apply backed_transition].
  intros Hr k. unfold initialCtx. destruct (if runs S then _ else ([], [])) as [hs rf]. cbn. rewrite Hr.
  rewrite objectKeys_perm. intros [h Hh]%objGet_is_Some. eauto using carriedClaimed_keyed.
Qed.

End Proofs.

(** ** The theorems *)

(** C40: In every state that a Pool reaches, through any sequence of worker
    ends, wakes, polls, reads, checks and carries, its machine is at rest (no
    eventless transition is left, and none runs for ever), no more workers are
    active than its [cap], or than a hand-over gave it, and no more items are
    held than its [hold], or than a hand-over gave it. *)
Theorem work_is_bounded (S : Spec) (given : StandingCarry) (s : State) :
  reach S given s →
  always S s = None
  ∧ lenZ (active (ctx s)) <= Z.max (default 1 (capOf S)) (lenZ (active (initialCtx S given)))
  ∧ lenZ (held (ctx s)) <= Z.max (hold S) (lenZ (held (initialCtx S given))).
Proof.
  intros Hr. pose proof (reach_core S given s Hr) as []. split; [by eapply reach_stable|]. split; [|done].
  assert (active (initialCtx S given) = carried (initialCtx S given)) as ->; [|done].
  unfold initialCtx. by destruct (if runs S then _ else ([], [])).
Qed.


(** A Pool of child workers ends only when it is idle: nothing is active,
    every item it ever started is among the outputs or the failures it reports,
    its status is the end it came to, and it fails exactly when it holds a
    failure and does not report. A Pool of runs never ends on its own. *)
Theorem ends_idle_and_complete (S : Spec) (given : StandingCarry) (s : State) :
  reach S given s → node s = drained ∨ node s = deadlocked ∨ node s = failing →
  runs S = false ∧ active (ctx s) = []
  ∧ (∀ h, h ∈ spawned s → key h ∈ (items (ctx s)).*1 ∨ key h ∈ (failures (ctx s)).*1)
  ∧ (node s = drained → (output s).1.1 = drained_) ∧ (node s = deadlocked → (output s).1.1 = deadlocked_)
  ∧ (node s = failing ↔ report S = false ∧ failures (ctx s) ≠ []).
Proof.
  intros Hr Hn. pose proof (reach_core S given s Hr) as []. pose proof (reach_keys S given s Hr) as [].
  destruct (c_end0 Hn) as (Ha & Hrn & _ & H1 & H2 & H3). split_and!; try done.
  - intros h Hh. destruct (k_acc0 Hrn (key h)) as [Hx|?]; [by apply list_elem_of_fmap_2| |done].
    rewrite Ha in Hx. by apply not_elem_of_nil in Hx.
  - intros E. unfold output. simpl. by rewrite H1.
  - intros E. unfold output. simpl. by rewrite H2.
Qed.

(** A wake is never lost. A parked Pool that hears one starts a look; any
    other live Pool latches it and is otherwise left as it was; and with the
    latch set no event parks the Pool or lets it end as drained or
    deadlocked: it keeps the latch until it starts a new look. *)
Theorem no_missed_wake (S : Spec) (given : StandingCarry) (s : State) :
  reach S given s → form S ≠ push → wakes S = true → ended s = false → node s ≠ failing →
  (node s = parked → node (handle S EWake s) ∈ [fetch; discovering; saturated])
  ∧ (node s ≠ parked → handle S EWake s = upd (set_latch true) s)
  ∧ (latch (ctx s) = true → ∀ e, owes (handle S e s)).
Proof.
  intros Hr Hf Hw He Hn. pose proof (reach_core S given s Hr) as HC. split_and!.
  - intros Hp. unfold handle, transition. rewrite He, Hw, Hp. generalize (settleFuel). intros fuel.
    assert (node (lookAgain S s) ∈ [fetch; discovering; saturated]) as Hl
      by (unfold lookAgain; destruct (form S); [set_solver|set_solver|done]).
    destruct (form S) eqn:E; [| |done]; cbv zeta.
    all: apply (settle_keeps S (λ s, node s ∈ [fetch; discovering; saturated])); [|done].
    all: intros s1 s2 Hs1; destruct 1 as [H1 ->|H1 ->|H1 H2 ->|H1 H2 H3 ->|H1 H2 H3 H4 ->|k rest H1 H2 ->|h H1 H2 H3 H4 ->];
      try (by rewrite H1 in Hs1; set_solver); try done.
    all: by destruct (claim_state S h s1) as (-> & _).
  - intros Hp. assert (transition S EWake s = upd (set_latch true) s) as Ht.
    { unfold transition. rewrite He, Hw. by destruct (node s). }
    unfold handle. rewrite Ht. apply settle_rest, always_latch. by eapply reach_stable.
  - intros Hl e. unfold handle. apply settle_keeps; [apply owes_moved|].
    eapply owes_transition; [done|done|done|]. unfold resting, ended in *. destruct HC.
    intros [Hx|[Hx|[Hx|Hx]]]; [|by rewrite Hx in He..|done]. by rewrite c_parked0 in Hl.
Qed.

(** A push Pool that runs takes every carried item it has room for: the
    answer is [held] and the item is held or already active afterwards; the
    same key again answers [existing], and a full hold answers [hold-full],
    both without a change. *)
Theorem carry_is_taken (S : Spec) (given : StandingCarry) (s : State) k data hk :
  reach S given s → form S = push → ended s = false →
  (k ∈ key <$> held (ctx s) ∨ k ∈ active (ctx s) → hearEnd S k data hk None s = (VExisting k data None, s))
  ∧ (k ∉ key <$> held (ctx s) → k ∉ active (ctx s) → hold S <= lenZ (held (ctx s)) →
     hearEnd S k data hk None s = (VHoldFull k data, s))
  ∧ (k ∉ key <$> held (ctx s) → k ∉ active (ctx s) → lenZ (held (ctx s)) < hold S →
     (hearEnd S k data hk None s).1 = VHeld k data ∧ kept k (hearEnd S k data hk None s).2).
Proof.
  intros Hr Hf He. unfold hearEnd. cbv zeta. split_and!.
  - intros [Hk|Hk].
    + by rewrite bool_decide_eq_true_2.
    + by rewrite (bool_decide_eq_true_2 (k ∈ active _)), orb_true_r.
  - intros H1 H2 H3. rewrite !bool_decide_eq_false_2 by done. simpl. destruct (Z.leb_spec (hold S) (lenZ (held (ctx s)))); [done|lia].
  - intros H1 H2 H3. rewrite (bool_decide_eq_false_2 (k ∈ key <$> held (ctx s))) by done.
    rewrite (bool_decide_eq_false_2 (k ∈ active (ctx s))) by done. simpl.
    destruct (Z.leb_spec (hold S) (lenZ (held (ctx s)))); [lia|]. rewrite He.
    set (s' := handle S _ s). assert (kept k s') as Hk.
    { unfold s', handle. apply settle_keeps; [apply kept_moved|]. unfold transition. rewrite He.
      rewrite (bool_decide_eq_true_2 (form S = push)) by done. simpl.
      destruct (Z.ltb_spec (lenZ (held (ctx s))) (hold S)); [|lia]. rewrite !bool_decide_eq_false_2 by done. simpl.
      left. cbn. rewrite fmap_app. set_solver. }
    clearbody s'. destruct Hk as [Hk|Hk].
    + rewrite bool_decide_eq_true_2 by done. split; [done|by left].
    + rewrite (bool_decide_eq_true_2 (k ∈ active _)), orb_true_r by done. split; [done|by right].
Qed.

Lemma carry_keys b c : key <$> sc_active (standingCarryOf b c) = active c.
Proof.
  unfold standingCarryOf. cbn. rewrite <- list_fmap_compose. rewrite <- (list_fmap_id (active c)) at 2.
  apply list_fmap_ext. intros _ k _. cbn. by destruct (objGet k _).
Qed.

(** What a hand-over makes of a context, when every key can be carried. *)
Lemma handover_ctx (S S' : Spec) given s (c' := initialCtx S' (standingCarryOf false (ctx s))) :
  reach S given s → runs S' = true → form S' = push →
  (∀ h, h ∈ held (ctx s) → parseItem S' (item h) = Some (item h) ∧ key h ∉ INHERITED) →
  (∀ k, k ∈ active (ctx s) → k ≠ [] ∧ k ≠ js "__proto__") → form S = push →
  claimed c' = ((λ a, (key a, a)) <$> sc_active (standingCarryOf false (ctx s)))
  ∧ active c' = objectKeys (active (ctx s)) ∧ again c' = active c' ∧ held c' = held (ctx s) ∧ refused c' = [].
Proof.
  intros Hr Hr' Hf' Hh Ha Hf. pose proof (reach_keys S given s Hr) as [].
  assert (form S ≠ pull) as Hnp by congruence. specialize (k_nodup0 Hnp).
  set (hs := sc_active (standingCarryOf false (ctx s))).
  pose proof (carry_keys false (ctx s)) as Ek. fold hs in Ek.
  rewrite (assoc_L (++)) in k_nodup0. apply NoDup_app in k_nodup0 as (HN & _ & _).
  assert (carriedClaimed hs = (λ a, (key a, a)) <$> hs) as Ecl.
  { unfold carriedClaimed. rewrite carriedClaimed_all; [done| |].
    - change (NoDup (key <$> hs)). rewrite Ek. by apply NoDup_app in HN as (? & _).
    - intros h Hin. apply Ha. rewrite <- Ek. by apply list_elem_of_fmap_2. }
  assert ((carriedClaimed hs).*1 = active (ctx s)) as Ecl1.
  { rewrite Ecl, <- Ek, <- list_fmap_compose. by apply list_fmap_ext. }
  unfold c', initialCtx. rewrite Hr'. change (sc_active (standingCarryOf false (ctx s))) with hs.
  change (sc_held (standingCarryOf false (ctx s))) with (held (ctx s)).
  rewrite carriedHeld_all; [|done|by rewrite Ecl1|done]. cbn [claimed active again held refused].
  rewrite Ecl1. by rewrite Ecl.
Qed.

Lemma objGet_tagged (hs : list Held) k :
  k ∈ key <$> hs → NoDup (key <$> hs) →
  ∃ h, h ∈ hs ∧ key h = k ∧ objGet k ((λ a, (key a, a)) <$> hs) = Some h.
Proof.
  induction hs as [|a hs IH]; [set_solver|]. rewrite !fmap_cons. intros Hk [Hn Hd]%NoDup_cons. simpl.
  case_bool_decide as E; [subst; exists a; set_solver|].
  destruct IH as (h & ? & ? & ?); [set_solver|done|]. exists h. set_solver.
Qed.

(** A hand-over keeps a push Pool's work: the run that takes over holds the
    same items in the same order, has the same active keys (in the same order
    too, when none is a number), each with the item it was claimed for, waits
    again for every one of them, and refuses none, as long as each held item
    still parses to itself and no key is empty or names a property that every
    JavaScript object inherits. *)
Theorem handover_keeps_work (S S' : Spec) (given : StandingCarry) (s : State) :
  reach S given s → runs S = true → runs S' = true → form S = push → form S' = push →
  (∀ h, h ∈ held (ctx s) → parseItem S' (item h) = Some (item h) ∧ key h ∉ INHERITED) →
  (∀ k, k ∈ active (ctx s) → k ≠ [] ∧ k ≠ js "__proto__") →
  let c' := initialCtx S' (standingCarryOf false (ctx s)) in
  held c' = held (ctx s) ∧ active c' ≡ₚ active (ctx s)
  ∧ (Forall (λ k, indexOf k = None) (active (ctx s)) → active c' = active (ctx s))
  ∧ again c' = active c' ∧ refused c' = []
  ∧ ∀ k, k ∈ active (ctx s) → ∃ h, objGet k (claimed (ctx s)) = Some h ∧ objGet k (claimed c') = Some h.
Proof.
  intros Hr Hrn Hrn' Hf Hf' Hh Ha c'.
  destruct (handover_ctx S S' given s Hr Hrn' Hf' Hh Ha Hf) as (Ec & E1 & E2 & E3 & E4). fold c' in E1. rewrite E1.
  split_and!; [done|apply objectKeys_perm|apply objectKeys_names|by rewrite <- E1|done|].
  intros k Hk. destruct (reach_backed S given s Hr Hrn k Hk) as (h & Hg & Hkey). exists h. split; [done|].
  fold c' in Ec. rewrite Ec. pose proof (reach_keys S given s Hr) as [].
  assert (form S ≠ pull) as Hnp by congruence. specialize (k_nodup0 Hnp). apply NoDup_app in k_nodup0 as (HN & _ & _).
  set (hs := sc_active (standingCarryOf false (ctx s))).
  pose proof (carry_keys false (ctx s)) as Ek. fold hs in Ek.
  destruct (objGet_tagged hs k) as (h' & Hin & Hk' & ->); [by rewrite Ek|by rewrite Ek|].
  unfold hs, standingCarryOf in Hin. cbn in Hin. apply list_elem_of_fmap in Hin as (k0 & E & _).
  assert (k0 = k) as -> by (rewrite E in Hk'; by destruct (objGet k0 _)).
  rewrite Hg in E. rewrite E, <- Hkey. by destruct h.
Qed.

(** A held item whose key is the name of an inherited property, such as
    [constructor], does not survive a hand-over: it is neither held, nor
    active, nor refused with a reason. *)
Theorem inherited_key_is_dropped (Sp : Spec) (it : Json.json) (hk : option Hook) (k : jstr) :
  runs Sp = true → form Sp = push → parseItem Sp it = Some it → k ∈ INHERITED →
  held (initialCtx Sp (mkCarry [mkHeld k it hk] [])) = [] ∧ active (initialCtx Sp (mkCarry [mkHeld k it hk] [])) = []
  ∧ refused (initialCtx Sp (mkCarry [mkHeld k it hk] [])) = [].
Proof.
  intros Hr Hf Hp Hk. unfold initialCtx. rewrite Hr. cbn [sc_active sc_held carriedHeld carriedClaimed foldl key item].
  rewrite (bool_decide_eq_false_2 (form Sp ≠ push)) by (intros Hx; done). rewrite Hp.
  unfold truthyAt. rewrite (bool_decide_eq_true_2 (k ∈ INHERITED)), orb_true_r by done. done.
Qed.

(** ** Witnesses *)

Definition nameOf (j : Json.json) : option jstr := match j with Json.JStr s => Some s | _ => None end.

Definition sampleSpec (f : Form) (r : bool) : Spec := mkSpec r f (Some 2) 3 false true true nameOf Some.

Definition str (s : string) : Json.json := Json.JStr (js s).

(** A read that found three items, two of which fit the cap, and one settled. *)
Definition readEvents : list Event :=
  [EReadDone [str "a"; str "b"; str "a"; str "c"]; ECheckDone (λ _, None);
   EWorkerDone (js "a") (ChildOut (str "out"))].

Definition after (S : Spec) (es : list Event) : State := foldl (λ s e, handle S e s) (start S noCarry) es.

Lemma after_reach S es : reach S noCarry (after S es).
Proof.
  unfold after. assert (∀ s, reach S noCarry s → reach S noCarry (foldl (λ s e, handle S e s) s es)) as H.
  { induction es as [|e es IH]; intros s Hs; simpl; [done|]. apply IH. by constructor. }
  apply H. constructor.
Qed.

Lemma work_is_bounded_witness :
  let S := sampleSpec rd false in
  let s := after S readEvents in
  active (ctx s) = [js "b"] ∧ node s = fetch
  ∧ (always S s = None
     ∧ lenZ (active (ctx s)) <= Z.max (default 1 (capOf S)) (lenZ (active (initialCtx S noCarry)))
     ∧ lenZ (held (ctx s)) <= Z.max (hold S) (lenZ (held (initialCtx S noCarry)))).
Proof.
  intros S s. split; [vm_compute; reflexivity|]. split; [vm_compute; reflexivity|].
  apply (work_is_bounded S noCarry s). apply after_reach.
Defined.


(** A read that found one item, whose worker failed, then an empty read. *)
Definition failEvents : list Event :=
  [EReadDone [str "a"]; ECheckDone (λ _, None); EWorkerError (js "a") true (str "broken") (js "m");
   EReadDone []; ECheckDone (λ _, None)].

Lemma ends_idle_and_complete_witness :
  let S := sampleSpec rd false in
  let s := after S failEvents in
  node s = failing
  ∧ (runs S = false ∧ active (ctx s) = []
     ∧ (∀ h, h ∈ spawned s → key h ∈ (items (ctx s)).*1 ∨ key h ∈ (failures (ctx s)).*1)
     ∧ (node s = drained → (output s).1.1 = drained_) ∧ (node s = deadlocked → (output s).1.1 = deadlocked_)
     ∧ (node s = failing ↔ report S = false ∧ failures (ctx s) ≠ [])).
Proof.
  intros S s. assert (node s = failing) as Hn by (vm_compute; reflexivity). split; [exact Hn|].
  apply (ends_idle_and_complete S noCarry s); [apply after_reach|by right; right].
Defined.

Lemma no_missed_wake_witness :
  let S := sampleSpec rd false in
  let s := after S [EWake] in
  latch (ctx s) = true
  ∧ ((node s = parked → node (handle S EWake s) ∈ [fetch; discovering; saturated])
     ∧ (node s ≠ parked → handle S EWake s = upd (set_latch true) s)
     ∧ (latch (ctx s) = true → ∀ e, owes (handle S e s))).
Proof.
  intros S s. split; [vm_compute; reflexivity|].
  apply (no_missed_wake S noCarry s); [apply after_reach|done|reflexivity|vm_compute; reflexivity|vm_compute; done].
Defined.

Lemma carry_is_taken_witness :
  let S := sampleSpec push true in
  let s := start S noCarry in
  let data := str "k" in
  let hk := mkHook (js "h") (js "d") None in
  (js "k" ∈ key <$> held (ctx s) ∨ js "k" ∈ active (ctx s) →
   hearEnd S (js "k") data hk None s = (VExisting (js "k") data None, s))
  ∧ (js "k" ∉ key <$> held (ctx s) → js "k" ∉ active (ctx s) → hold S <= lenZ (held (ctx s)) →
     hearEnd S (js "k") data hk None s = (VHoldFull (js "k") data, s))
  ∧ (js "k" ∉ key <$> held (ctx s) → js "k" ∉ active (ctx s) → lenZ (held (ctx s)) < hold S →
     (hearEnd S (js "k") data hk None s).1 = VHeld (js "k") data ∧ kept (js "k") (hearEnd S (js "k") data hk None s).2).
Proof.
  intros S s.
  intros data hk.
  apply (carry_is_taken S noCarry s); [apply reach_start|reflexivity|vm_compute; reflexivity].
Defined.

(** Three carried items: two claimed, one held. *)
Definition carryEvents : list Event :=
  [ECarry (mkHeld (js "x") (str "x") None); ECarry (mkHeld (js "y") (str "y") None);
   ECarry (mkHeld (js "z") (str "z") None)].

Lemma handover_keeps_work_witness :
  let S := sampleSpec push true in
  let s := after S carryEvents in
  let c' := initialCtx S (standingCarryOf false (ctx s)) in
  (active (ctx s) = [js "x"; js "y"] ∧ key <$> held (ctx s) = [js "z"])
  ∧ (held c' = held (ctx s) ∧ active c' ≡ₚ active (ctx s)
     ∧ (Forall (λ k, indexOf k = None) (active (ctx s)) → active c' = active (ctx s))
     ∧ again c' = active c' ∧ refused c' = []
     ∧ ∀ k, k ∈ active (ctx s) → ∃ h, objGet k (claimed (ctx s)) = Some h ∧ objGet k (claimed c') = Some h).
Proof.
  intros S s. assert (active (ctx s) = [js "x"; js "y"]) as Ea by (vm_compute; reflexivity).
  assert (held (ctx s) = [mkHeld (js "z") (str "z") None]) as Eh by (vm_compute; reflexivity).
  intros c'. split; [split; [exact Ea|rewrite Eh; reflexivity]|].
  apply (handover_keeps_work S S noCarry s); [apply after_reach|reflexivity..| |].
  - intros h. rewrite Eh. intros ->%list_elem_of_singleton. split; [reflexivity|].
    apply (bool_decide_eq_false_1 _). vm_compute. reflexivity.
  - intros k. rewrite Ea. intros [->|[->|[]%not_elem_of_nil]%elem_of_cons]%elem_of_cons;
      (split; vm_compute; discriminate).
Defined.

Lemma inherited_key_is_dropped_witness :
  let c' := initialCtx (sampleSpec push true) (mkCarry [mkHeld (js "constructor") (str "constructor") None] []) in
  held c' = [] ∧ active c' = [] ∧ refused c' = [].
Proof.
  apply (inherited_key_is_dropped (sampleSpec push true)); [reflexivity|reflexivity|reflexivity|].
  apply (bool_decide_eq_true_1 _). vm_compute. reflexivity.
Defined.

End PoolProofs.
