(* ===== verification/Store.v ===== *)
(** * The snapshot store (orchestrator/src/snapshot-store.ts)

    [Store] is the database: the four tables as lists of rows in rowid order
    (an insert takes the largest rowid, so it appends), with NULL as [None] and
    the columns that [init] adds in [columns].  Each method is the statement it
    runs: an upsert updates the row of its key or appends one, a comparison
    with NULL selects nothing, text compares by its UTF-8 bytes.  The time of
    a call is an argument. *)

From Stdlib Require Import Lia ZArith.
From stdpp Require Import base list strings sets sorting.
From S2P Require Import Prelude JsString Json Utf8 Sql.

Open Scope Z_scope.

Module Store.
Import Json Sql.

(** ** Rows *)

Record Row := mkRow {
  run_id : jstr;
  status : jstr;
  snapshot : option jstr;
  reason : option jstr;
  updated_at : option jstr;
  dispatch_effect : option jstr;
  dispatch_workflow : option jstr;
  workflow : option jstr;
  started_at : option jstr;
  summary : option jstr;
  listed_at : option jstr;
  machine_key : option jstr;
}.

Inductive HookKind :=
| pending | delivered | seen | hold_full | no_live_run | handshake | payload_refused | unreadable | too_large | follow_up.

#[export] Instance HookKind_eq_dec : EqDecision HookKind.
Proof. solve_decision. Defined.

(** A line of the hook log. *)
Record HookLogLine := mkLine {
  hook : jstr;
  at_ : jstr;
  kind : HookKind;
  line_status : Z;
  delivery : option jstr;
  digest : option jstr;
  key : option jstr;
  detail : option json;
}.

(** Its row: an id, and the detail as text. *)
Record HookRow := mkHookRow { id : Z; line : HookLogLine; detailText : option jstr }.

Inductive Paused := cancel | errors | bound.

Record StandingHead := mkHead {
  h_workflow : jstr;
  h_run : jstr;
  h_since : jstr;
  h_streak : Z;
  h_paused : option Paused;
}.

(** The columns that a volume from an older store lacks. *)
Inductive Column :=
| c_dispatch_effect | c_dispatch_workflow | c_workflow | c_started_at | c_summary | c_listed_at | c_machine_key.

#[export] Instance Column_eq_dec : EqDecision Column.
Proof. solve_decision. Defined.

Record Store := mkStore {
  columns : list Column;
  machine_snapshots : list Row;
  hook_log : list HookRow;
  hookSeq : Z;
  standing : list StandingHead;
  run_machines : list (jstr * jstr);
}.

Definition set_columns v (c : Store) : Store :=
  mkStore v (machine_snapshots c) (hook_log c) (hookSeq c) (standing c) (run_machines c).
Definition set_machine_snapshots v (c : Store) : Store :=
  mkStore (columns c) v (hook_log c) (hookSeq c) (standing c) (run_machines c).
Definition set_hook_log v (c : Store) : Store :=
  mkStore (columns c) (machine_snapshots c) v (hookSeq c) (standing c) (run_machines c).
Definition set_hookSeq v (c : Store) : Store :=
  mkStore (columns c) (machine_snapshots c) (hook_log c) v (standing c) (run_machines c).
Definition set_standing v (c : Store) : Store :=
  mkStore (columns c) (machine_snapshots c) (hook_log c) (hookSeq c) v (run_machines c).
Definition set_run_machines v (c : Store) : Store :=
  mkStore (columns c) (machine_snapshots c) (hook_log c) (hookSeq c) (standing c) v.

Definition LIVE : jstr := js "live".

(** ** What a row takes out of its blob *)

Definition text (v : option json) : option jstr :=
  match v with Some (JStr s) => Some s | _ => None end.

Definition member (k : string) (v : option json) : list (jstr * json) :=
  match v with Some x => [(js k, x)] | None => [] end.

Definition summaryOf (blob : json) : json :=
  let failure := prop (js "failure") blob in
  JObj (member "startedBy" (prop (js "startedBy") blob)
        ++ member "assembly" (JStr <$> text (prop (js "assembly") blob))
        ++ member "dispatchedBy" (prop (js "dispatchedBy") blob)
        ++ member "failure" (JStr <$> text (f ← failure; prop (js "reason") f))
        ++ member "fault" (JStr <$> text (prop (js "fault") blob))).

Record Listing := mkListing { l_workflow : option jstr; l_startedAt : jstr; l_summary : jstr }.

Definition listingOf (blob : json) (fallback : jstr) : Listing :=
  mkListing (text (prop (js "workflow") blob))
    (default fallback (text (prop (js "startedAt") blob)))
    (stringify (summaryOf blob)).

Definition dispatchEffectOf (blob : json) : option jstr :=
  by_ ← prop (js "dispatchedBy") blob;
  match text (prop (js "key") by_) with
  | Some k => Some k
  | None => text (prop (js "effect") by_)
  end.

Definition hasStartedAt (blob : json) : bool := bool_decide (is_Some (text (prop (js "startedAt") blob))).

Definition dispatchWorkflowOf (blob : json) : option jstr := text (prop (js "workflow") blob).

(** ** Reading rows *)

Inductive Fault := SyntaxError | TypeError.

Record StoredSnapshot := mkStored {
  s_runId : jstr;
  s_status : jstr;
  s_snapshot : option json;
  s_reason : option jstr;
  s_startedAt : option jstr;
}.

Definition blobOf (row : Row) : option json := t ← snapshot row; parse t.

Definition storedOf (row : Row) : result Fault StoredSnapshot :=
  match snapshot row with
  | None => Ok (mkStored (run_id row) (status row) None (reason row) (started_at row))
  | Some t =>
      match parse t with
      | Some v => Ok (mkStored (run_id row) (status row) (Some v) (reason row) (started_at row))
      | None => Throw SyntaxError
      end
  end.

Fixpoint mapThrow {A B} (f : A → result Fault B) (l : list A) : result Fault (list B) :=
  match l with
  | [] => Ok []
  | a :: l' => b ← f a; bs ← mapThrow f l'; Ok (b :: bs)
  end.

Definition rowOf (r : jstr) (db : Store) : option Row :=
  head (filter (λ row, run_id row = r) (machine_snapshots db)).

Definition load (r : jstr) (db : Store) : result Fault (option StoredSnapshot) :=
  match rowOf r db with
  | Some row => s ← storedOf row; Ok (Some s)
  | None => Ok None
  end.

Definition live (db : Store) : result Fault (list StoredSnapshot) :=
  mapThrow storedOf (filter (λ row, status row = LIVE) (machine_snapshots db)).

(** [json_extract(snapshot, '$.assembly')]: an object or array comes as text. *)
Definition jsonExtract (k : jstr) (v : json) : option jstr :=
  match prop k v with
  | Some (JStr s) => Some s
  | Some (JArr l) => Some (stringify (JArr l))
  | Some (JObj l) => Some (stringify (JObj l))
  | _ => None
  end.

Fixpoint mapAppend (k r : jstr) (m : list (jstr * list jstr)) : list (jstr * list jstr) :=
  match m with
  | [] => [(k, [r])]
  | (k', rs) :: m' => if bool_decide (k = k') then (k', rs ++ [r]) :: m' else (k', rs) :: mapAppend k r m'
  end.

Definition liveAssemblies (db : Store) : list (jstr * list jstr) :=
  foldl (λ held row,
           match (v ← blobOf row; jsonExtract (js "assembly") v) with
           | Some a => mapAppend a (run_id row) held
           | None => held
           end) []
    (filter (λ row, status row = LIVE) (machine_snapshots db)).

(** [CHAR(0x10FFFF)] *)
Definition LAST_CHAR : jstr := [0xdbff; 0xdfff].

Definition findIdsByPrefix (prefix : jstr) (limit : Z) (db : Store) : list jstr :=
  limitTo limit
    (orderBy textLt
       (filter (λ r, textLt r prefix = false ∧ textLt r (prefix ++ LAST_CHAR) = true) (run_id <$> machine_snapshots db))).

Definition findByDispatch (w k : jstr) (db : Store) : option jstr :=
  run_id <$> head (filter (λ row, dispatch_workflow row = Some w ∧ dispatch_effect row = Some k) (machine_snapshots db)).

(** ** Listing *)

Record EndedQuery := mkQuery {
  q_statuses : option (list jstr);
  q_workflows : option (list jstr);
  q_workflow : option jstr;
  q_since : option jstr;
  q_after : option (jstr * jstr);
  q_limit : Z;
}.

Record EndedRow := mkEnded {
  e_runId : jstr;
  e_workflow : jstr;
  e_status : jstr;
  e_reason : option json;
  e_startedAt : jstr;
  e_endedAt : option jstr;
  e_startedBy : option json;
  e_assembly : option json;
  e_dispatchedBy : option json;
}.

(** [substr(workflow, 1, instr(workflow, '/') - 1)], when there is a slash. *)
Fixpoint wrapperOf (w : jstr) : option jstr :=
  match w with
  | [] => None
  | c :: w' => if c =? 47 then Some [] else cons c <$> wrapperOf w'
  end.

Definition opt {A} (o : option A) (f : A → bool) : bool := match o with Some a => f a | None => true end.

(** The [WHERE] of [listRows]. *)
Definition selects (isLive : bool) (q : EndedQuery) (row : Row) : bool :=
  Bool.eqb (bool_decide (status row = LIVE)) isLive
  && match workflow row, started_at row with
     | Some w, Some st =>
         opt (q_statuses q) (λ l, bool_decide (status row ∈ l))
         && opt (q_workflows q)
              (λ l, bool_decide (w ∈ l) || match wrapperOf w with Some p => bool_decide (p ∈ l) | None => false end)
         && opt (q_workflow q) (λ x, bool_decide (w = x))
         && opt (q_since q) (λ x, negb (textLt st x))
         && opt (q_after q)
              (λ c, textLt st c.1 || (bool_decide (st = c.1) && textLt (run_id row) c.2))
     | _, _ => false
     end.

(** [ORDER BY started_at DESC, run_id DESC] *)
Definition newer (a b : Row) : bool :=
  let sa := default [] (started_at a) in
  let sb := default [] (started_at b) in
  textLt sb sa || (bool_decide (sa = sb) && textLt (run_id b) (run_id a)).

Definition endedRowOf (row : Row) : result Fault EndedRow :=
  match (match summary row with None => JObj [] | Some t => default (JObj []) (parse t) end) with
  | JNull => Throw TypeError
  | s =>
      let r :=
        match reason row with
        | Some r => Some (JStr r)
        | None =>
            match prop (js "failure") s with
            | Some JNull | None => prop (js "fault") s
            | Some v => Some v
            end
        end in
      Ok (mkEnded (run_id row) (default [] (workflow row)) (status row) r (default [] (started_at row)) (updated_at row)
            (prop (js "startedBy") s) (prop (js "assembly") s) (prop (js "dispatchedBy") s))
  end.

Definition noneOf (o : option (list jstr)) : bool := match o with Some [] => true | _ => false end.

(** The rows of one page. *)
Definition pageRows (isLive : bool) (q : EndedQuery) (db : Store) : list Row :=
  if noneOf (q_statuses q) || noneOf (q_workflows q) then []
  else limitTo (q_limit q) (orderBy newer (filter (λ row, selects isLive q row = true) (machine_snapshots db))).

Definition listRows (isLive : bool) (q : EndedQuery) (db : Store) : result Fault (list EndedRow) :=
  mapThrow endedRowOf (pageRows isLive q db).

Definition ended (q : EndedQuery) (db : Store) : result Fault (list EndedRow) := listRows false q db.

Definition liveRows (q : EndedQuery) (db : Store) : result Fault (list EndedRow) :=
  listRows true (mkQuery None (q_workflows q) (q_workflow q) (q_since q) (q_after q) (q_limit q)) db.

(** ** Writing rows *)

(** [INSERT ... ON CONFLICT(run_id) DO UPDATE] *)
Definition upsert (r : jstr) (ins : Row) (upd : Row → Row) (rows : list Row) : list Row :=
  if bool_decide (r ∈ run_id <$> rows) then (λ row, if bool_decide (run_id row = r) then upd row else row) <$> rows
  else rows ++ [ins].

(** [UPDATE ... WHERE run_id = ?] *)
Definition updateRow (r : jstr) (upd : Row → Row) (rows : list Row) : list Row :=
  (λ row, if bool_decide (run_id row = r) then upd row else row) <$> rows.

Definition savedRow (r : jstr) (blob : json) (st now : jstr) (startedAt key : option jstr) : Row :=
  let listing := listingOf blob now in
  mkRow r st (Some (stringify blob)) None (Some now) (dispatchEffectOf blob) (dispatchWorkflowOf blob)
    (l_workflow listing) startedAt (Some (l_summary listing)) (Some now) key.

Definition save (r : jstr) (blob : json) (st now : jstr) (db : Store) : Store :=
  let at0 := l_startedAt (listingOf blob now) in
  set_machine_snapshots
    (upsert r (savedRow r blob st now (Some at0) None)
       (λ row, savedRow r blob st now
                 (if hasStartedAt blob then Some at0 else Some (default at0 (started_at row))) (machine_key row))
       (machine_snapshots db)) db.

(** The times of a row whose blob is not touched: current columns stay current. *)
Definition touched (st : jstr) (why now : jstr) (row : Row) : Row :=
  mkRow (run_id row) st (snapshot row) (Some why) (Some now) (dispatch_effect row) (dispatch_workflow row)
    (workflow row) (started_at row) (summary row)
    (if bool_decide (listed_at row = updated_at row) then Some now else listed_at row) (machine_key row).

Definition markLost (r why now : jstr) (db : Store) : Store :=
  set_machine_snapshots
    (upsert r (mkRow r (js "lost") None (Some why) (Some now) None None None None None None None)
       (touched (js "lost") why now) (machine_snapshots db)) db.

Definition markDrifted (r why now : jstr) (db : Store) : Store :=
  set_machine_snapshots (updateRow r (touched (js "drifted") why now) (machine_snapshots db)) db.

Definition sweptRow (olderThan : jstr) (db : Store) (row : Row) : bool :=
  negb (bool_decide (status row = LIVE))
  && match updated_at row with Some u => textLt u olderThan | None => false end
  && negb (bool_decide (run_id row ∈ h_run <$> standing db)).

Definition sweep (olderThan : jstr) (db : Store) : list jstr * Store :=
  let swept := run_id <$> filter (λ row, sweptRow olderThan db row = true) (machine_snapshots db) in
  let rows := filter (λ row, sweptRow olderThan db row = false) (machine_snapshots db) in
  let db1 := set_hook_log (filter (λ l, textLt (at_ (line l)) olderThan = false) (hook_log db)) (set_machine_snapshots rows db) in
  (swept,
   if bool_decide (swept = []) then db1
   else set_run_machines (filter (λ m, Some m.1 ∈ machine_key <$> rows) (run_machines db)) db1).

Definition keepMachine (r k : jstr) (doc : json) (db : Store) : Store :=
  let docs := if bool_decide (k ∈ (run_machines db).*1) then run_machines db else run_machines db ++ [(k, stringify doc)] in
  set_machine_snapshots
    (updateRow r (λ row, mkRow (run_id row) (status row) (snapshot row) (reason row) (updated_at row)
                           (dispatch_effect row) (dispatch_workflow row) (workflow row) (started_at row)
                           (summary row) (listed_at row) (Some k)) (machine_snapshots db))
    (set_run_machines docs db).

(** An empty Workflow is falsy too. *)
Definition keptMachine (r : jstr) (db : Store) : result Fault (option (jstr * json)) :=
  match (row ← rowOf r db; k ← machine_key row; m ← head (filter (λ m, m.1 = k) (run_machines db)); Some (row, m.2)) with
  | Some (row, doc) =>
      match workflow row with
      | Some (c :: w) =>
          match parse doc with
          | Some v => Ok (Some (c :: w, v))
          | None => Throw SyntaxError
          end
      | _ => Ok None
      end
  | None => Ok None
  end.

(** ** The hook log *)

Definition CLAIMED_KINDS : list HookKind := [pending; delivered; seen].

(** A line that makes this delivery a repeat. *)
Definition repeats (h dl dg : jstr) (l : HookRow) : bool :=
  bool_decide (hook (line l) = h)
  && (bool_decide (delivery (line l) = Some dl) || bool_decide (digest (line l) = Some dg))
  && bool_decide (kind (line l) ∈ CLAIMED_KINDS).

Definition insertHook (l : HookLogLine) (txt : option jstr) (db : Store) : Z * Store :=
  let n := hookSeq db + 1 in
  (n, set_hookSeq n (set_hook_log (hook_log db ++ [mkHookRow n l txt]) db)).

Definition claimHookDelivery (h dl dg now : jstr) (db : Store) : option Z * Store :=
  if existsb (repeats h dl dg) (hook_log db) then (None, db)
  else
    let '(n, db') := insertHook (mkLine h now pending 0 (Some dl) (Some dg) None None) None db in
    (Some n, db').

Definition finished (l : HookLogLine) (txt : option jstr) (row : HookRow) : HookRow :=
  mkHookRow (id row)
    (mkLine (hook (line row)) (at_ (line row)) (kind l) (line_status l) (delivery (line row)) (digest (line row)) (key l) None) txt.

Definition writeHookLine (l : HookLogLine) (claimed : option Z) (db : Store) : Store :=
  let txt := stringify <$> detail l in
  match claimed with
  | Some n =>
      set_hook_log ((λ row, if id row =? n then finished l txt row else row) <$> hook_log db) db
  | None =>
      (insertHook (mkLine (hook l) (at_ l) (kind l) (line_status l) (delivery l) (digest l) (key l) None) txt db).2
  end.

Definition hookLineOf (row : HookRow) : result Fault HookLogLine :=
  let l := line row in
  match detailText row with
  | None => Ok l
  | Some t =>
      match parse t with
      | Some v => Ok (mkLine (hook l) (at_ l) (kind l) (line_status l) (delivery l) (digest l) (key l) (Some v))
      | None => Throw SyntaxError
      end
  end.

Definition hookLog (h : jstr) (limit : Z) (db : Store) : result Fault (list HookLogLine) :=
  mapThrow hookLineOf
    (limitTo limit (orderBy (λ a b, id b <? id a) (filter (λ row, hook (line row) = h) (hook_log db)))).

(** ** Standing heads *)

Definition standingHeads (db : Store) : list StandingHead := standing db.

Definition writeStanding (head : StandingHead) (db : Store) : Store :=
  let w := h_workflow head in
  set_standing
    (if bool_decide (w ∈ h_workflow <$> standing db) then
       (λ h, if bool_decide (h_workflow h = w) then head else h) <$> standing db
     else standing db ++ [head]) db.

(** ** Opening a volume *)

(** The values a new column has. *)
Definition nullColumn (c : Column) (row : Row) : Row :=
  let 'mkRow r st sn re up de dw wf sa su li mk := row in
  match c with
  | c_dispatch_effect => mkRow r st sn re up None dw wf sa su li mk
  | c_dispatch_workflow => mkRow r st sn re up de None wf sa su li mk
  | c_workflow => mkRow r st sn re up de dw None sa su li mk
  | c_started_at => mkRow r st sn re up de dw wf None su li mk
  | c_summary => mkRow r st sn re up de dw wf sa None li mk
  | c_listed_at => mkRow r st sn re up de dw wf sa su None mk
  | c_machine_key => mkRow r st sn re up de dw wf sa su li None
  end.

(** [if (!columns.some(...)) ALTER TABLE ... ADD COLUMN] *)
Definition addColumn (c : Column) (db : Store) : Store :=
  if bool_decide (c ∈ columns db) then db
  else set_columns (columns db ++ [c]) (set_machine_snapshots (nullColumn c <$> machine_snapshots db) db).

Definition withDispatchWorkflow (w : option jstr) (row : Row) : Row :=
  mkRow (run_id row) (status row) (snapshot row) (reason row) (updated_at row) (dispatch_effect row) w
    (workflow row) (started_at row) (summary row) (listed_at row) (machine_key row).

Definition fillDispatchWorkflow (db : Store) : Store :=
  set_machine_snapshots
    ((λ row,
        match dispatch_effect row, blobOf row with
        | Some _, Some blob => withDispatchWorkflow (dispatchWorkflowOf blob) row
        | _, _ => row
        end) <$> machine_snapshots db) db.

Definition relisted (now : jstr) (blob : json) (row : Row) : Row :=
  let listing := listingOf blob (default now (updated_at row)) in
  mkRow (run_id row) (status row) (snapshot row) (reason row) (updated_at row) (dispatch_effect row) (dispatch_workflow row)
    (l_workflow listing)
    (if hasStartedAt blob then Some (l_startedAt listing) else Some (default (l_startedAt listing) (started_at row)))
    (Some (l_summary listing)) (updated_at row) (machine_key row).

Definition fillListing (now : jstr) (db : Store) : Store :=
  set_machine_snapshots
    ((λ row,
        if bool_decide (listed_at row = updated_at row) then row
        else match blobOf row with
             | Some blob => relisted now blob row
             | None => row
             end) <$> machine_snapshots db) db.

Definition init (now : jstr) (db : Store) : Store :=
  let had := columns db in
  let db := addColumn c_dispatch_effect db in
  let db := if bool_decide (c_dispatch_workflow ∈ had) then db
            else fillDispatchWorkflow (addColumn c_dispatch_workflow db) in
  let db := foldl (λ db c, addColumn c db) db [c_workflow; c_started_at; c_summary; c_listed_at] in
  addColumn c_machine_key (fillListing now db).

(** A volume with no database. *)
Definition empty : Store := mkStore [] [] [] 0 [] [].

(** ** The calls of a store, in order *)

Inductive Op :=
| OSave (r : jstr) (blob : json) (st now : jstr)
| OLost (r why now : jstr)
| ODrifted (r why now : jstr)
| OSweep (olderThan : jstr)
| OKeep (r k : jstr) (doc : json)
| OClaim (h dl dg now : jstr)
| OHookLine (l : HookLogLine) (claimed : option Z)
| OStanding (head : StandingHead)
| OInit (now : jstr).

Definition exec (db : Store) (o : Op) : Store :=
  match o with
  | OSave r blob st now => save r blob st now db
  | OLost r why now => markLost r why now db
  | ODrifted r why now => markDrifted r why now db
  | OSweep t => (sweep t db).2
  | OKeep r k doc => keepMachine r k doc db
  | OClaim h dl dg now => (claimHookDelivery h dl dg now db).2
  | OHookLine l c => writeHookLine l c db
  | OStanding head => writeStanding head db
  | OInit now => init now db
  end.

End Store.
