(* ===== verification/StoreProofs.v ===== *)
(** * The snapshot store: proofs *)

From Stdlib Require Import Lia ZArith.
From stdpp Require Import base list strings sets sorting.
From S2P Require Import Prelude JsString Json Utf8 Sql Store.

Open Scope Z_scope.

Module StoreProofs.
Import Json Sql Store.

(** ** Rows by their id *)

Definition findRow (r : jstr) (rows : list Row) : option Row := head (filter (λ row, run_id row = r) rows).

Lemma findRow_None r rows : findRow r rows = None ↔ r ∉ run_id <$> rows.
Proof.
  unfold findRow. induction rows as [|x rows IH]; [split; [set_solver|done]|].
  rewrite filter_cons. destruct (decide (run_id x = r)) as [<-|Hne]; simpl.
  - split; [done|]. intros Hx. destruct Hx. left.
  - rewrite IH. set_solver.
Qed.

Lemma findRow_id r rows row : findRow r rows = Some row → run_id row = r ∧ row ∈ rows.
Proof.
  unfold findRow. intros H. assert (row ∈ filter (λ row, run_id row = r) rows) as Hin.
  { destruct (filter _ rows); [done|]. injection H as ->. left. }
  by apply list_elem_of_filter in Hin.
Qed.

(** A row map that keeps ids acts on each row where it stands. *)
Lemma findRow_map r f rows :
  (∀ row, run_id (f row) = run_id row) → findRow r (f <$> rows) = f <$> findRow r rows.
Proof.
  intros Hf. unfold findRow. induction rows as [|x rows IH]; [done|].
  rewrite fmap_cons, !filter_cons, Hf. by destruct (decide (run_id x = r)).
Qed.

Lemma findRow_updateRow r f rows r' :
  (∀ row, run_id row = r → run_id (f row) = r) →
  findRow r' (updateRow r f rows) = if decide (r' = r) then f <$> findRow r rows else findRow r' rows.
Proof.
  intros Hf. unfold updateRow. rewrite findRow_map.
  2: { intros row. case_bool_decide; [rewrite Hf; done|done]. }
  destruct (findRow r' rows) as [row|] eqn:E; simpl.
  - apply findRow_id in E as He. destruct He as [<- _]. case_decide as Hd; [|by rewrite bool_decide_eq_false_2].
    subst r. rewrite bool_decide_eq_true_2 by done. by rewrite E.
  - case_decide; [subst; by rewrite E|done].
Qed.

Lemma findRow_upsert r ins f rows r' :
  run_id ins = r → (∀ row, run_id row = r → run_id (f row) = r) →
  findRow r' (upsert r ins f rows)
  = if decide (r' = r) then Some (match findRow r rows with Some row => f row | None => ins end) else findRow r' rows.
Proof.
  intros Hi Hf. unfold upsert. case_bool_decide as Hin.
  - etransitivity; [apply (findRow_updateRow r f rows r' Hf)|]. case_decide; [|done].
    destruct (findRow r rows) eqn:E; [done|]. by apply findRow_None in E.
  - apply findRow_None in Hin. unfold findRow in *. rewrite filter_app, filter_cons, filter_nil, Hi.
    case_decide as Hd.
    + subst r'. rewrite decide_True by done. rewrite Hin. destruct (filter _ rows); done.
    + rewrite decide_False by congruence. by rewrite app_nil_r.
Qed.

Lemma updateRow_ids r f rows : (∀ row, run_id row = r → run_id (f row) = r) → run_id <$> updateRow r f rows = run_id <$> rows.
Proof.
  intros Hf. unfold updateRow. rewrite <- list_fmap_compose. apply list_fmap_ext. intros _ row _. simpl.
  case_bool_decide; [rewrite Hf; done|done].
Qed.

Lemma upsert_ids r ins f rows :
  run_id ins = r → (∀ row, run_id row = r → run_id (f row) = r) →
  run_id <$> upsert r ins f rows = (run_id <$> rows) ++ (if decide (r ∈ run_id <$> rows) then [] else [r]).
Proof.
  intros Hi Hf. unfold upsert. case_bool_decide.
  - rewrite decide_True by done. rewrite app_nil_r. by apply (updateRow_ids r f rows).
  - rewrite decide_False by done. by rewrite fmap_app, fmap_cons, Hi.
Qed.

(** ** One row for each run *)

Definition uniqueRuns (db : Store) : Prop := NoDup (run_id <$> machine_snapshots db).

(** What [init] never changes in a row. *)
Definition coreOf (row : Row) : jstr * jstr * option jstr * option jstr * option jstr :=
  (run_id row, status row, snapshot row, reason row, updated_at row).

Lemma coreOf_map (f : Row → Row) (rows : list Row) : (∀ row, coreOf (f row) = coreOf row) → coreOf <$> (f <$> rows) = coreOf <$> rows.
Proof. intros Hf. rewrite <- list_fmap_compose. apply list_fmap_ext. intros _ row _. apply Hf. Qed.

Lemma nullColumn_core c row : coreOf (nullColumn c row) = coreOf row.
Proof. destruct row, c; done. Qed.

Lemma addColumn_core c db : coreOf <$> machine_snapshots (addColumn c db) = coreOf <$> machine_snapshots db.
Proof. unfold addColumn. case_bool_decide; [done|]. apply coreOf_map, nullColumn_core. Qed.

Lemma fillDispatchWorkflow_core db :
  coreOf <$> machine_snapshots (fillDispatchWorkflow db) = coreOf <$> machine_snapshots db.
Proof. apply coreOf_map. intros row. by destruct (dispatch_effect row), (blobOf row). Qed.

Lemma fillListing_core now db : coreOf <$> machine_snapshots (fillListing now db) = coreOf <$> machine_snapshots db.
Proof. apply coreOf_map. intros row. case_bool_decide; [done|]. by destruct (blobOf row). Qed.

Lemma init_core now db : coreOf <$> machine_snapshots (init now db) = coreOf <$> machine_snapshots db.
Proof.
  unfold init. cbn [foldl]. rewrite addColumn_core, fillListing_core, !addColumn_core.
  case_bool_decide; by rewrite ?fillDispatchWorkflow_core, !addColumn_core.
Qed.

Lemma init_ids now db : run_id <$> machine_snapshots (init now db) = run_id <$> machine_snapshots db.
Proof.
  assert (∀ rows : list Row, run_id <$> rows = (λ c : jstr * jstr * option jstr * option jstr * option jstr, c.1.1.1.1) <$> (coreOf <$> rows)) as E
    by (intros rows; rewrite <- list_fmap_compose; by apply list_fmap_ext).
  by rewrite !E, init_core.
Qed.

Lemma exec_unique db o : uniqueRuns db → uniqueRuns (exec db o).
Proof.
  unfold uniqueRuns. intros Hu. destruct o; cbn [exec].
  - simpl. rewrite upsert_ids by done. by apply NoDup_snoc_new.
  - simpl. rewrite upsert_ids by done. by apply NoDup_snoc_new.
  - simpl. by rewrite updateRow_ids by done.
  - unfold sweep. case_bool_decide; simpl.
    all: eapply sublist_NoDup; [exact Hu|apply fmap_sublist, sublist_filter].
  - simpl. by rewrite updateRow_ids by done.
  - unfold claimHookDelivery. by destruct (existsb _ _).
  - unfold writeHookLine. by destruct claimed.
  - done.
  - by rewrite init_ids.
Qed.

(** ** Saving and loading *)

(** The start a save gives a run: the blob's own, the row's, or this save's time. *)
Definition startOf (r : jstr) (blob : json) (now : jstr) (db : Store) : jstr :=
  match text (prop (js "startedAt") blob) with
  | Some t => t
  | None => default now (row ← rowOf r db; started_at row)
  end.

(** A saved run loads as it was saved: its status, its blob as a JSON
    value, no reason, and its start, which is the blob's own, else the one the
    row already had, else the time of this save. No other run's row changes. *)
Theorem saved_run_loads (r : jstr) (blob : json) (st now : jstr) (db : Store) :
  units_ok blob →
  load r (save r blob st now db) = Ok (Some (mkStored r st (Some blob) None (Some (startOf r blob now db))))
  ∧ ∀ r', r' ≠ r → rowOf r' (save r blob st now db) = rowOf r' db.
Proof.
  intros Hu. assert (∀ r', rowOf r' (save r blob st now db) = findRow r' (machine_snapshots (save r blob st now db))) as E
    by done. split.
  - unfold load. rewrite E. simpl. rewrite findRow_upsert by done. rewrite decide_True by done.
    unfold startOf, rowOf. fold (findRow r (machine_snapshots db)). unfold hasStartedAt, storedOf.
    destruct (findRow r (machine_snapshots db)) as [row|]; simpl; rewrite parse_stringify by done; simpl.
    + by destruct (text _).
    + by destruct (text _).
  - intros r' Hr'. rewrite E. simpl. rewrite findRow_upsert by done. by rewrite decide_False.
Qed.

(** ** Idempotency keys *)

Definition hasKey (w k : jstr) (row : Row) : Prop := dispatch_workflow row = Some w ∧ dispatch_effect row = Some k.

#[local] Instance hasKey_dec w k row : Decision (hasKey w k row).
Proof. unfold hasKey. apply _. Defined.

Definition firstWith (w k : jstr) (rows : list Row) : option jstr := run_id <$> head (filter (hasKey w k) rows).

Lemma findByDispatch_first w k db : findByDispatch w k db = firstWith w k (machine_snapshots db).
Proof. unfold findByDispatch, firstWith. done. Qed.

(** The first row of a key stays the first when no other row gains the key, and
    it does not lose it. *)
Lemma firstWith_map w k r f rows :
  (∀ row, run_id (f row) = run_id row) → (∀ row, run_id row ≠ r → hasKey w k (f row) → hasKey w k row) →
  (∀ row, run_id row = r → hasKey w k row → hasKey w k (f row)) →
  firstWith w k rows = Some r → firstWith w k (f <$> rows) = Some r.
Proof.
  intros H1 H2 H3. unfold firstWith. induction rows as [|x rows IH]; [done|].
  rewrite fmap_cons, !filter_cons. destruct (decide (hasKey w k x)) as [Hx|Hx]; simpl.
  - intros [= Hr]. rewrite decide_True by auto. simpl. by rewrite H1, Hr.
  - intros Hr. destruct (decide (hasKey w k (f x))) as [Hf|Hf]; [|by apply IH].
    simpl. rewrite H1. destruct (decide (run_id x = r)) as [->|Hne]; [done|]. by destruct Hx; apply H2.
Qed.

Lemma firstWith_filter w k r (Q : Row → Prop) `{∀ row, Decision (Q row)} rows :
  (∀ row, row ∈ rows → run_id row = r → Q row) → firstWith w k rows = Some r → firstWith w k (filter Q rows) = Some r.
Proof.
  intros HQ. unfold firstWith. induction rows as [|x rows IH]; [done|].
  rewrite !filter_cons. destruct (decide (hasKey w k x)) as [Hx|Hx]; simpl.
  - intros [= Hr]. rewrite decide_True by (apply HQ; [left|done]). rewrite filter_cons_True by done. simpl. by rewrite Hr.
  - intros Hr. assert (run_id <$> head (filter (hasKey w k) (filter Q rows)) = Some r) as E.
    { apply IH; [|done]. intros row Hin. apply HQ. by right. }
    destruct (decide (Q x)); [rewrite filter_cons_False by done|]; done.
Qed.

Lemma firstWith_app w k r rows rows' : firstWith w k rows = Some r → firstWith w k (rows ++ rows') = Some r.
Proof. unfold firstWith. rewrite filter_app. by destruct (filter _ rows). Qed.

Lemma firstWith_updateRow w k r r' f rows :
  (∀ row, run_id row = r' → run_id (f row) = r') → (r' ≠ r → ∀ row, hasKey w k (f row) → hasKey w k row) →
  (r' = r → ∀ row, hasKey w k row → hasKey w k (f row)) →
  firstWith w k rows = Some r → firstWith w k (updateRow r' f rows) = Some r.
Proof.
  intros H1 H2 H3. apply firstWith_map.
  - intros row. case_bool_decide; [rewrite H1; done|done].
  - intros row Hne. case_bool_decide; [|done]. apply H2. congruence.
  - intros row He. case_bool_decide; [|done]. apply H3. congruence.
Qed.

Lemma firstWith_upsert w k r r' ins f rows :
  (∀ row, run_id row = r' → run_id (f row) = r') → (r' ≠ r → ∀ row, hasKey w k (f row) → hasKey w k row) →
  (r' = r → ∀ row, hasKey w k row → hasKey w k (f row)) →
  firstWith w k rows = Some r → firstWith w k (upsert r' ins f rows) = Some r.
Proof.
  intros H1 H2 H3 Hr. unfold upsert. case_bool_decide; [by apply (firstWith_updateRow w k r r' f rows)|by apply firstWith_app].
Qed.

(** A volume that [init] opened. *)
Definition opened (db : Store) : Prop := ∀ c, c ∈ columns db.

Lemma addColumn_opened c db : opened db → addColumn c db = db.
Proof. intros Ho. unfold addColumn. by rewrite bool_decide_eq_true_2. Qed.

Lemma init_opened now db : opened db → init now db = fillListing now db.
Proof.
  intros Ho. unfold init. simpl foldl. rewrite bool_decide_eq_true_2 by apply Ho.
  rewrite !(addColumn_opened _ db) by done. by rewrite addColumn_opened.
Qed.

Lemma exec_opened db o : opened db → opened (exec db o).
Proof.
  intros Ho. destruct o; simpl; try done.
  - unfold sweep. by case_bool_decide.
  - unfold claimHookDelivery. by destruct (existsb _ _).
  - unfold writeHookLine. by destruct claimed.
  - by rewrite init_opened.
Qed.

(** What does not take a key from its run: a save of the run keeps the key, a
    save of another does not carry it, and a sweep spares the run. *)
Definition harmless (w k r : jstr) (db : Store) (o : Op) : Prop :=
  match o with
  | OSave r' blob _ _ =>
      let has := dispatchWorkflowOf blob = Some w ∧ dispatchEffectOf blob = Some k in
      if bool_decide (r' = r) then has else ¬ has
  | OSweep t => r ∉ (sweep t db).1
  | _ => True
  end.

Fixpoint harmlessAll (w k r : jstr) (db : Store) (os : list Op) : Prop :=
  match os with
  | [] => True
  | o :: os' => harmless w k r db o ∧ harmlessAll w k r (exec db o) os'
  end.

Lemma sweep_rows t db : machine_snapshots (sweep t db).2 = filter (λ row, sweptRow t db row = false) (machine_snapshots db).
Proof. unfold sweep. by case_bool_decide. Qed.

Lemma sweep_spared t db r row :
  r ∉ (sweep t db).1 → row ∈ machine_snapshots db → run_id row = r → sweptRow t db row = false.
Proof.
  intros Hr Hin <-. destruct (sweptRow t db row) eqn:E; [|done]. destruct Hr.
  unfold sweep. simpl. apply list_elem_of_fmap_2. by apply list_elem_of_filter.
Qed.

Lemma key_kept w k r db o :
  opened db → harmless w k r db o → firstWith w k (machine_snapshots db) = Some r →
  firstWith w k (machine_snapshots (exec db o)) = Some r.
Proof.
  intros Ho Hh Hr. destruct o; cbn [exec harmless] in *.
  - apply firstWith_upsert; [done| | |done]; case_bool_decide; done.
  - by apply firstWith_upsert.
  - by apply firstWith_updateRow.
  - rewrite sweep_rows. apply firstWith_filter; [|done]. intros row Hin Hrow. by eapply sweep_spared.
  - by apply firstWith_updateRow.
  - unfold claimHookDelivery. by destruct (existsb _ _).
  - unfold writeHookLine. by destruct claimed.
  - done.
  - rewrite init_opened by done. simpl. apply firstWith_map; [| | |done]; intros row;
      case_bool_decide; try done; by destruct (blobOf row).
Qed.


(** ** The listing columns *)

(** The columns say what the blob says. *)
Definition columnsMatch (row : Row) : Prop :=
  ∀ b, blobOf row = Some b →
  workflow row = dispatchWorkflowOf b ∧ summary row = Some (stringify (summaryOf b))
  ∧ ∃ t, started_at row = Some t ∧ ∀ own, text (prop (js "startedAt") b) = Some own → t = own.

(** Two times that agree promise as much. *)
Definition truthful (row : Row) : Prop := listed_at row = updated_at row → columnsMatch row.

Definition Listed (row : Row) : Prop :=
  columnsMatch row ∧ (is_Some (blobOf row) → listed_at row = updated_at row).

Definition LISTING : list Column := [c_workflow; c_started_at; c_summary; c_listed_at].

(** A volume that a store with the columns wrote, or one from before them. *)
Definition volumeOk (db : Store) : Prop :=
  (∀ c, c ∈ LISTING → c ∈ columns db) ∧ Forall truthful (machine_snapshots db)
  ∨ (∀ c, c ∈ LISTING → c ∉ columns db) ∧ Forall (λ row, is_Some (updated_at row)) (machine_snapshots db).

Lemma relisted_listed now b row : blobOf row = Some b → Listed (relisted now b row).
Proof.
  intros Hb. split; [|done]. intros b'. unfold blobOf in *. simpl. rewrite Hb. intros [= <-]. split_and!; [done|done|].
  unfold hasStartedAt. destruct (text _) as [own|] eqn:E; simpl; eexists; (split; [done|]); [|done]. by intros ? [= ->].
Qed.

Lemma savedRow_listed r blob st now sa mk :
  units_ok blob → (∀ own, text (prop (js "startedAt") blob) = Some own → sa = Some own) → is_Some sa →
  Listed (savedRow r blob st now sa mk).
Proof.
  intros Hu Hown [t ->]. split; [|done]. intros b. unfold blobOf. simpl. rewrite parse_stringify by done. intros [= <-].
  split_and!; [done|done|]. exists t. split; [done|]. intros own Ho. apply Hown in Ho. congruence.
Qed.

Lemma fillListing_listed now db : Forall truthful (machine_snapshots db) → Forall Listed (machine_snapshots (fillListing now db)).
Proof.
  intros HT. simpl. apply Forall_fmap. eapply Forall_impl; [exact HT|]. intros row Ht. simpl.
  case_bool_decide as E; [by split; [apply Ht|]|]. destruct (blobOf row) as [b|] eqn:Eb; [by apply relisted_listed|].
  split; [intros b; congruence|]. rewrite Eb. by intros [? ?].
Qed.

Lemma Listed_truthful row : Listed row → truthful row.
Proof. intros [? _] _. done. Qed.

(** Rows that differ elsewhere. *)
Lemma truthful_same row row' :
  snapshot row' = snapshot row → workflow row' = workflow row → summary row' = summary row →
  started_at row' = started_at row → listed_at row' = listed_at row → updated_at row' = updated_at row →
  truthful row → truthful row'.
Proof. unfold truthful, columnsMatch, blobOf. intros -> -> -> -> -> ->. done. Qed.

Lemma Listed_same row row' :
  snapshot row' = snapshot row → workflow row' = workflow row → summary row' = summary row →
  started_at row' = started_at row → (listed_at row = updated_at row → listed_at row' = updated_at row') →
  Listed row → Listed row'.
Proof. unfold Listed, columnsMatch, blobOf. intros -> -> -> -> H [? ?]. split; auto. Qed.

Lemma truthful_nullColumn c row : c ∉ LISTING → truthful row → truthful (nullColumn c row).
Proof.
  intros Hc. apply truthful_same; destruct row, c; simpl; try done; destruct Hc; unfold LISTING; set_solver.
Qed.

Lemma truthful_addColumn c db :
  c ∉ LISTING ∨ c ∈ columns db → Forall truthful (machine_snapshots db) → Forall truthful (machine_snapshots (addColumn c db)).
Proof.
  intros Hc HT. unfold addColumn. case_bool_decide; [done|]. destruct Hc as [Hc|]; [|done].
  simpl. apply Forall_fmap. eapply Forall_impl; [exact HT|]. intros row. by apply truthful_nullColumn.
Qed.

Lemma columns_addColumn c c' db : c' ∈ columns (addColumn c db) ↔ c' = c ∨ c' ∈ columns db.
Proof. unfold addColumn. case_bool_decide; simpl; set_solver. Qed.

Lemma truthful_fillDispatch db :
  Forall truthful (machine_snapshots db) → Forall truthful (machine_snapshots (fillDispatchWorkflow db)).
Proof.
  intros HT. simpl. apply Forall_fmap. eapply Forall_impl; [exact HT|]. intros row Ht. simpl.
  destruct (dispatch_effect row), (blobOf row); done.
Qed.

(** The rows between the dispatch columns and the listing ones. *)
Definition dispatchPart (db : Store) : Store :=
  let db1 := addColumn c_dispatch_effect db in
  if bool_decide (c_dispatch_workflow ∈ columns db) then db1
  else fillDispatchWorkflow (addColumn c_dispatch_workflow db1).

Lemma init_parts now db :
  init now db
  = addColumn c_machine_key (fillListing now (foldl (λ db c, addColumn c db) (dispatchPart db) LISTING)).
Proof. done. Qed.

Lemma dispatchPart_columns db c :
  c ∈ columns (dispatchPart db) ↔ c = c_dispatch_effect ∨ c = c_dispatch_workflow ∨ c ∈ columns db.
Proof.
  unfold dispatchPart. case_bool_decide; simpl; rewrite !columns_addColumn; [|tauto].
  split; [tauto|]. intros [?|[->|?]]; auto.
Qed.

Lemma dispatchPart_truthful db : Forall truthful (machine_snapshots db) → Forall truthful (machine_snapshots (dispatchPart db)).
Proof.
  intros HT. unfold dispatchPart. assert (Forall truthful (machine_snapshots (addColumn c_dispatch_effect db))) as H1
    by (apply truthful_addColumn; [left; unfold LISTING; set_solver|done]).
  case_bool_decide; [done|]. apply truthful_fillDispatch, truthful_addColumn; [left; unfold LISTING; set_solver|done].
Qed.

Lemma dispatchPart_core db : coreOf <$> machine_snapshots (dispatchPart db) = coreOf <$> machine_snapshots db.
Proof. unfold dispatchPart. case_bool_decide; by rewrite ?fillDispatchWorkflow_core, !addColumn_core. Qed.

Lemma updated_core (rows rows' : list Row) :
  coreOf <$> rows' = coreOf <$> rows → Forall (λ row, is_Some (updated_at row)) rows →
  Forall (λ row, is_Some (updated_at row)) rows'.
Proof.
  assert (∀ l : list Row, Forall (λ row, is_Some (updated_at row)) l
            ↔ Forall (λ c : jstr * jstr * option jstr * option jstr * option jstr, is_Some c.2) (coreOf <$> l)) as HF
    by (intros l; by rewrite Forall_fmap).
  rewrite !HF. by intros ->.
Qed.

Lemma listingPart_truthful db :
  volumeOk db → Forall truthful (machine_snapshots (foldl (λ db c, addColumn c db) (dispatchPart db) LISTING)).
Proof.
  intros [[Hc HT]|[Hc HU]].
  - simpl. repeat (apply truthful_addColumn; [right; rewrite ?columns_addColumn, dispatchPart_columns;
      repeat right; apply Hc; unfold LISTING; set_solver|]). by apply dispatchPart_truthful.
  - cbn [foldl LISTING]. set (db3 := addColumn c_summary _).
    assert (Forall (λ row, is_Some (updated_at row)) (machine_snapshots db3)) as HU3.
    { eapply updated_core; [|exact HU]. unfold db3. by rewrite !addColumn_core, dispatchPart_core. }
    assert (c_listed_at ∉ columns db3) as Hn.
    { unfold db3. rewrite !columns_addColumn, dispatchPart_columns. intros Hx.
      assert (c_listed_at ∈ columns db) as Hy by naive_solver. revert Hy. apply Hc. unfold LISTING. set_solver. }
    clearbody db3. unfold addColumn. rewrite bool_decide_eq_false_2 by done. simpl. apply Forall_fmap.
    eapply Forall_impl; [exact HU3|]. intros [] [u Hu]. simpl in *. unfold truthful. simpl. congruence.
Qed.

Lemma init_listed now db : volumeOk db → Forall Listed (machine_snapshots (init now db)).
Proof.
  intros Hv. rewrite init_parts. pose proof (fillListing_listed now _ (listingPart_truthful db Hv)) as HL.
  unfold addColumn at 1. case_bool_decide; [done|]. simpl machine_snapshots at 1. apply Forall_fmap.
  eapply Forall_impl; [exact HL|]. intros row. apply Listed_same; by destruct row.
Qed.

Lemma init_opens now db : opened (init now db).
Proof.
  intros c. rewrite init_parts. rewrite columns_addColumn. simpl. rewrite !columns_addColumn, dispatchPart_columns.
  destruct c; tauto.
Qed.

Lemma Forall_updateRow (P : Row → Prop) r f rows :
  (∀ row, P row → P (f row)) → Forall P rows → Forall P (updateRow r f rows).
Proof.
  intros Hf HP. unfold updateRow. apply Forall_fmap. eapply Forall_impl; [exact HP|]. intros row Hrow. simpl.
  case_bool_decide; auto.
Qed.

Lemma Forall_upsert (P : Row → Prop) r ins f rows :
  P ins → (∀ row, P row → P (f row)) → Forall P rows → Forall P (upsert r ins f rows).
Proof.
  intros Hi Hf HP. unfold upsert. case_bool_decide; [by apply (Forall_updateRow P r f rows)|].
  apply Forall_app. by repeat constructor.
Qed.

Definition opOk (o : Op) : Prop := match o with OSave _ blob _ _ => units_ok blob | _ => True end.

Lemma touched_listed st why now row : Listed row → Listed (touched st why now row).
Proof. apply Listed_same; try done. intros E. simpl. by rewrite bool_decide_eq_true_2. Qed.

Lemma own_start blob now own : text (prop (js "startedAt") blob) = Some own → l_startedAt (listingOf blob now) = own.
Proof. intros E. unfold listingOf. cbn [l_startedAt]. by rewrite E. Qed.

Lemma exec_listed db o :
  opened db → opOk o → Forall Listed (machine_snapshots db) → Forall Listed (machine_snapshots (exec db o)).
Proof.
  intros Ho Hok HL. destruct o; cbn [exec opOk] in *.
  - apply Forall_upsert; [| |done].
    + apply savedRow_listed; [done| |done]. intros own E. by rewrite (own_start blob now own).
    + intros row Hrow. apply savedRow_listed; [done| |by destruct (hasStartedAt blob)].
      intros own E. unfold hasStartedAt. rewrite (own_start blob now own) by done. by rewrite E.
  - apply Forall_upsert; [|apply touched_listed|done]. split; [intros b; done|by intros [? ?]].
  - apply Forall_updateRow; [apply touched_listed|done].
  - rewrite sweep_rows. rewrite Forall_forall in *. intros row [_ Hin]%list_elem_of_filter. auto.
  - apply Forall_updateRow; [|done]. intros row. by apply Listed_same.
  - unfold claimHookDelivery. by destruct (existsb _ _).
  - unfold writeHookLine. by destruct claimed.
  - done.
  - rewrite init_opened by done. apply fillListing_listed. eapply Forall_impl; [exact HL|]. apply Listed_truthful.
Qed.

(** Every listed row, none left out. *)
Definition everyQuery : EndedQuery := mkQuery None None None None None (-1).

(** A listing never parses a snapshot, and does not need to: on a volume
    that this store or an older one wrote, after [init] and then any sequence
    of calls, the Workflow, start and summary columns of every row with a
    blob are the ones that its blob gives, so every ended run whose blob names
    a Workflow is listed under that Workflow. *)
Theorem listing_columns_current (now : jstr) (db0 : Store) (os : list Op) :
  volumeOk db0 → Forall opOk os →
  let db := foldl exec (init now db0) os in
  Forall columnsMatch (machine_snapshots db)
  ∧ ∀ row b w, row ∈ machine_snapshots db → blobOf row = Some b → prop (js "workflow") b = Some (JStr w) →
    status row ≠ LIVE → row ∈ pageRows false everyQuery db ∧ workflow row = Some w.
Proof.
  intros Hv Hos db.
  assert (Forall Listed (machine_snapshots db)) as HL.
  { assert (Forall Listed (machine_snapshots (init now db0))) as H0 by (by apply init_listed).
    pose proof (init_opens now db0) as Ho. unfold db. clear db. revert H0 Ho. generalize (init now db0).
    induction Hos as [|o os Hok Hos IH]; intros db H0 Ho; simpl; [done|]. apply IH; [by apply exec_listed|by apply exec_opened]. }
  clearbody db. split; [eapply Forall_impl; [exact HL|]; by intros ? [? _]|].
  intros row b w Hin Hb Hw Hs. rewrite Forall_forall in HL. destruct (HL row Hin) as [HM _].
  destruct (HM b Hb) as (E1 & _ & t & E2 & _). unfold dispatchWorkflowOf in E1. rewrite Hw in E1. simpl in E1.
  split; [|done]. unfold pageRows, limitTo. simpl. apply orderBy_elem, list_elem_of_filter. split; [|done].
  unfold selects. rewrite bool_decide_eq_false_2 by done. by rewrite E1, E2.
Qed.

Lemma map_fix {A} (f : A → A) (l : list A) : Forall (λ x, f x = x) l → f <$> l = l.
Proof. induction 1 as [|x l Hx _ IH]; [done|]. by rewrite fmap_cons, Hx, IH. Qed.

(** A row that [fillListing] leaves. *)
Definition settled (row : Row) : Prop := listed_at row = updated_at row ∨ blobOf row = None.

Lemma fillListing_settled now db : Forall settled (machine_snapshots (fillListing now db)).
Proof.
  simpl. apply Forall_fmap, Forall_forall. intros row _. unfold settled. simpl.
  case_bool_decide; [by left|]. destruct (blobOf row) eqn:E; [by left|by right].
Qed.

Lemma fillListing_fix now db : Forall settled (machine_snapshots db) → fillListing now db = db.
Proof.
  intros HS. unfold fillListing. rewrite map_fix; [by destruct db|]. eapply Forall_impl; [exact HS|]. intros row [E|E]; simpl.
  - by rewrite bool_decide_eq_true_2.
  - case_bool_decide; [done|]. by rewrite E.
Qed.

(** Opening a volume migrates it once and loses nothing: after [init] every
    column is there, no row's id, status, blob, reason or time of the last
    write has changed, and a second [init], at any time, changes nothing. *)
Theorem init_migrates_once (now later : jstr) (db : Store) :
  opened (init now db) ∧ coreOf <$> machine_snapshots (init now db) = coreOf <$> machine_snapshots db
  ∧ init later (init now db) = init now db.
Proof.
  split; [apply init_opens|]. split; [apply init_core|]. rewrite (init_opened later) by apply init_opens.
  apply fillListing_fix. rewrite init_parts. pose proof (fillListing_settled now (foldl (λ db c, addColumn c db) (dispatchPart db) LISTING)) as HS.
  unfold addColumn at 1. case_bool_decide; [done|]. simpl machine_snapshots at 1. apply Forall_fmap.
  eapply Forall_impl; [exact HS|]. by intros [].
Qed.

(** ** The sweep *)

Lemma filter_sub {A} (P Q : A → Prop) `{∀ x, Decision (P x)} `{∀ x, Decision (Q x)} (l : list A) :
  (∀ x, x ∈ l → P x → Q x) → filter P (filter Q l) = filter P l.
Proof.
  induction l as [|x l IH]; intros HPQ; [done|]. rewrite !filter_cons.
  assert (filter P (filter Q l) = filter P l) as E by (apply IH; intros y Hy; apply HPQ; by right).
  destruct (decide (Q x)) as [Hq|Hq].
  - rewrite filter_cons. by destruct (decide (P x)); rewrite E.
  - rewrite decide_False by (intros Hp; apply Hq, HPQ; [left|done]). done.
Qed.

Lemma sweep_standing t db : standing (sweep t db).2 = standing db.
Proof. unfold sweep. by case_bool_decide. Qed.

Lemma rowOf_sweep t db r : r ∉ (sweep t db).1 → rowOf r (sweep t db).2 = rowOf r db.
Proof.
  intros Hr. unfold rowOf. rewrite sweep_rows. f_equal. apply filter_sub. intros row Hin Hrow. by eapply sweep_spared.
Qed.

Lemma keptMachine_sweep t db r : r ∉ (sweep t db).1 → keptMachine r (sweep t db).2 = keptMachine r db.
Proof.
  intros Hr. unfold keptMachine. rewrite rowOf_sweep by done.
  destruct (rowOf r db) as [row|] eqn:E; [|done]. cbn -[sweep]. destruct (machine_key row) as [k|] eqn:Ek; [|done].
  cbn -[sweep].
  assert (filter (λ m, m.1 = k) (run_machines (sweep t db).2) = filter (λ m, m.1 = k) (run_machines db)) as ->; [|done].
  unfold sweep. case_bool_decide; [done|]. cbn [snd run_machines set_run_machines].
  apply filter_sub. intros m _ ->. rewrite <- Ek. apply list_elem_of_fmap_2, list_elem_of_filter.
  apply findRow_id in E as [Hid Hin]. split; [|done]. by eapply sweep_spared.
Qed.

(** A sweep takes exactly the runs it names: no live run, no run that a
    standing Workflow's head names, and no run last written at or after the
    time is swept; a run it does not name keeps its row and its kept Machine; a
    run it names is gone, and so are the hook log's older lines alone. *)
Theorem sweep_spares (t : jstr) (db : Store) :
  uniqueRuns db →
  let swept := (sweep t db).1 in
  let db' := (sweep t db).2 in
  (∀ row, row ∈ machine_snapshots db →
     status row = LIVE ∨ run_id row ∈ h_run <$> standing db
     ∨ (∀ u, updated_at row = Some u → textLt u t = false) → run_id row ∉ swept)
  ∧ (∀ r, r ∉ swept → rowOf r db' = rowOf r db ∧ keptMachine r db' = keptMachine r db)
  ∧ (∀ r, r ∈ swept → is_Some (rowOf r db) ∧ rowOf r db' = None)
  ∧ standing db' = standing db
  ∧ ∀ l, l ∈ hook_log db' ↔ l ∈ hook_log db ∧ textLt (at_ (line l)) t = false.
Proof.
  intros Hu swept db'.
  assert (∀ r, r ∈ swept → ∃ row, row ∈ machine_snapshots db ∧ run_id row = r ∧ sweptRow t db row = true) as Hsw.
  { unfold swept, sweep. simpl. intros r (row & -> & [Hs Hin]%list_elem_of_filter)%list_elem_of_fmap. eauto. }
  assert (∀ row row', row ∈ machine_snapshots db → row' ∈ machine_snapshots db → run_id row = run_id row' → row = row') as Hone.
  { intros row row' [i Hi]%list_elem_of_lookup [j Hj]%list_elem_of_lookup E. unfold uniqueRuns in Hu.
    assert (i = j) as <-; [|congruence]. eapply NoDup_lookup; [exact Hu| |]; rewrite list_lookup_fmap.
    - by rewrite Hi.
    - by rewrite Hj, E. }
  split_and!.
  - intros row Hin Hwhy Hs. apply Hsw in Hs as (row' & Hin' & E & Hs). rewrite (Hone row' row) in Hs by done.
    unfold sweptRow in Hs. zbool. destruct Hwhy as [?|[?|Hw]]; [done|done|].
    destruct (updated_at row) as [u|]; [|done]. specialize (Hw u eq_refl). congruence.
  - intros r Hr. split; [by apply rowOf_sweep|by apply keptMachine_sweep].
  - intros r Hr. apply Hsw in Hr as (row & Hin & E & Hs). split.
    + destruct (rowOf r db) eqn:Er; [done|]. apply findRow_None in Er. destruct Er. rewrite <- E. by apply list_elem_of_fmap_2.
    + unfold db', rowOf. rewrite sweep_rows. apply findRow_None. intros (row' & E' & [Hs' Hin']%list_elem_of_filter)%list_elem_of_fmap.
      assert (row' = row) as -> by (apply Hone; congruence || done). congruence.
  - apply sweep_standing.
  - intros l. unfold db', sweep. case_bool_decide; simpl; rewrite list_elem_of_filter; tauto.
Qed.

(** ** Hook deliveries *)

(** The line of a claimed delivery, while it counts. *)
Definition claimLine (h dl dg now : jstr) (n : Z) (l : HookRow) : Prop :=
  id l = n ∧ hook (line l) = h ∧ delivery (line l) = Some dl ∧ digest (line l) = Some dg ∧ at_ (line l) = now
  ∧ kind (line l) ∈ CLAIMED_KINDS.

(** What leaves the claim: a finish of it with a kind that counts, and a sweep
    that is not past its time. *)
Definition keepsClaim (n : Z) (now : jstr) (o : Op) : Prop :=
  match o with
  | OHookLine l (Some m) => m = n → kind l ∈ CLAIMED_KINDS
  | OSweep t => textLt now t = false
  | _ => True
  end.

Lemma init_hook_log now db : hook_log (init now db) = hook_log db.
Proof.
  assert (∀ c db, hook_log (addColumn c db) = hook_log db) as Ha by (intros c d; unfold addColumn; by case_bool_decide).
  rewrite init_parts, Ha. simpl. rewrite !Ha. unfold dispatchPart. case_bool_decide; simpl; by rewrite !Ha.
Qed.

Lemma claim_kept h dl dg now n db o :
  keepsClaim n now o → Exists (claimLine h dl dg now n) (hook_log db) →
  Exists (claimLine h dl dg now n) (hook_log (exec db o)).
Proof.
  intros Hk. rewrite !Exists_exists. intros (l & Hin & Hl). destruct o; cbn [exec keepsClaim] in *; try (by eauto).
  - exists l. split; [|done]. destruct Hl as (_ & _ & _ & _ & Hat & _). unfold sweep.
    case_bool_decide; simpl; apply list_elem_of_filter; by rewrite Hat.
  - exists l. split; [|done]. unfold claimHookDelivery. destruct (existsb _ _); [done|]. simpl. set_solver.
  - unfold writeHookLine. destruct claimed as [m|]; [|exists l; split; [simpl; set_solver|done]].
    destruct (decide (id l = m)) as [E|E].
    + exists (finished l0 (stringify <$> detail l0) l). split.
      * apply list_elem_of_fmap. exists l. split; [|done]. by rewrite (proj2 (Z.eqb_eq _ _)).
      * destruct Hl as (H1 & H2 & H3 & H4 & H5 & H6). repeat split; simpl; try done. apply Hk. congruence.
    + exists l. split; [|done]. apply list_elem_of_fmap. exists l. split; [|done]. by rewrite (proj2 (Z.eqb_neq _ _)).
  - exists l. by rewrite init_hook_log.
Qed.

Lemma claim_refused h dl dg now n db :
  Exists (claimLine h dl dg now n) (hook_log db) → ∀ dl' dg' now', dl' = dl ∨ dg' = dg →
  claimHookDelivery h dl' dg' now' db = (None, db).
Proof.
  rewrite Exists_exists. intros (l & Hin & H1 & H2 & H3 & H4 & _ & H6) dl' dg' now' Hd. unfold claimHookDelivery.
  assert (existsb (repeats h dl' dg') (hook_log db) = true) as ->; [|done].
  apply existsb_exists. exists l. split; [by apply list_elem_of_In|]. unfold repeats.
  rewrite H2, H3, H4, (bool_decide_eq_true_2 (h = h)), (bool_decide_eq_true_2 (_ ∈ _)), andb_true_r by done. simpl.
  apply orb_true_iff. destruct Hd as [->| ->]; [left|right]; by apply bool_decide_eq_true_2.
Qed.

(** Of the deliveries of one Hook that share an id or a digest, one is
    claimed: after a claim, every later claim with the same id or the same
    digest is refused and changes nothing, through any sequence of calls that
    finishes the line only with a kind that counts and does not sweep past it.
    A delivery that is finished with a kind that does not count (a full hold,
    no live run) is claimed again when it is sent again. *)
Theorem delivery_claimed_once (h dl dg now : jstr) (db : Store) (n : Z) :
  (claimHookDelivery h dl dg now db).1 = Some n →
  let db1 := (claimHookDelivery h dl dg now db).2 in
  (∀ os dl' dg' now', Forall (keepsClaim n now) os → dl' = dl ∨ dg' = dg →
     claimHookDelivery h dl' dg' now' (foldl exec db1 os) = (None, foldl exec db1 os))
  ∧ (∀ l now', kind l ∉ CLAIMED_KINDS →
     is_Some (claimHookDelivery h dl dg now' (writeHookLine l (Some n) db1)).1).
Proof.
  intros Hc db1. assert (existsb (repeats h dl dg) (hook_log db) = false ∧ hookSeq db + 1 = n
      ∧ hook_log db1 = hook_log db ++ [mkHookRow n (mkLine h now pending 0 (Some dl) (Some dg) None None) None])
    as (Hno & Hn & Hlog).
  { unfold db1, claimHookDelivery in *. destruct (existsb _ _); [done|]. simpl in *. injection Hc as <-. done. }
  split.
  - intros os dl' dg' now' Hos. eapply claim_refused.
    assert (Exists (claimLine h dl dg now n) (hook_log db1)) as H1.
    { rewrite Hlog, Exists_app. right. constructor. repeat split. simpl. unfold CLAIMED_KINDS. left. }
    clearbody db1. clear Hlog. revert db1 H1.
    induction Hos as [|o os Ho Hos IH]; intros db1 H1; simpl; [done|]. by apply IH, claim_kept.
  - intros l now' Hk. unfold claimHookDelivery.
    destruct (existsb (repeats h dl dg) (hook_log (writeHookLine l (Some n) db1))) eqn:E; [|by eexists]. exfalso.
    apply existsb_exists in E as (x & Hin%list_elem_of_In & Hx).
    simpl in Hin. rewrite Hlog, fmap_app in Hin.
    assert (∀ y, repeats h dl dg (finished l (stringify <$> detail l) y) = false) as Hf.
    { intros y. unfold repeats. simpl. rewrite (bool_decide_eq_false_2 (kind l ∈ _)) by done. by rewrite andb_false_r. }
    apply elem_of_app in Hin as [(y & -> & Hy)%list_elem_of_fmap|Hin].
    + destruct (id y =? n); [by rewrite Hf in Hx|].
      assert (existsb (repeats h dl dg) (hook_log db) = true) as Hyes; [|congruence].
      apply existsb_exists. exists y. split; [by apply list_elem_of_In|done].
    + cbn in Hin. rewrite Z.eqb_refl in Hin. apply list_elem_of_singleton in Hin as ->. by rewrite Hf in Hx.
Qed.


(** ** Pages *)

Definition cursorOf (row : Row) : jstr * jstr := (default [] (started_at row), run_id row).

Definition withAfter (q : EndedQuery) (c : jstr * jstr) : EndedQuery :=
  mkQuery (q_statuses q) (q_workflows q) (q_workflow q) (q_since q) (Some c) (q_limit q).

Definition unlimited (q : EndedQuery) : EndedQuery :=
  mkQuery (q_statuses q) (q_workflows q) (q_workflow q) (q_since q) (q_after q) (-1).

(** A reader that follows the cursor until a page is empty. *)
Fixpoint pages (fuel : nat) (isLive : bool) (q : EndedQuery) (db : Store) : list (list Row) :=
  match fuel with
  | O => []
  | S f =>
      match last (pageRows isLive q db) with
      | Some x => pageRows isLive q db :: pages f isLive (withAfter q (cursorOf x)) db
      | None => []
      end
  end.

Definition textsOk (row : Row) : Prop :=
  well_formed (run_id row) = true ∧ well_formed (default [] (started_at row)) = true.

Lemma newer_spec a b :
  newer a b = true
  ↔ textLt (cursorOf b).1 (cursorOf a).1 = true
    ∨ (cursorOf a).1 = (cursorOf b).1 ∧ textLt (run_id b) (run_id a) = true.
Proof. unfold newer. rewrite orb_true_iff, andb_true_iff, bool_decide_eq_true. done. Qed.

Lemma newer_irrefl a : newer a a = false.
Proof.
  apply not_true_iff_false. rewrite newer_spec. unfold textLt. rewrite !bytesLt_irrefl. naive_solver.
Qed.

Lemma newer_trans a b c : newer a b = true → newer b c = true → newer a c = true.
Proof.
  rewrite !newer_spec. unfold textLt. intros [H1|[E1 H1]] [H2|[E2 H2]].
  - left. by eapply bytesLt_trans.
  - left. by rewrite <- E2.
  - left. by rewrite E1.
  - right. split; [congruence|by eapply bytesLt_trans].
Qed.

Section Pages.
Variables (isLive : bool) (db : Store) (q : EndedQuery).
Hypothesis unique : uniqueRuns db.
Hypothesis texts : Forall textsOk (machine_snapshots db).
Hypothesis limit_pos : 0 < q_limit q.
Hypothesis no_after : q_after q = None.

Definition inDb (row : Row) : Prop := row ∈ machine_snapshots db.

Lemma newer_total a b : inDb a → inDb b → newer a b = true ∨ a = b ∨ newer b a = true.
Proof.
  intros Ha Hb. rewrite !newer_spec. rewrite Forall_forall in texts.
  destruct (texts a Ha) as [W1 W2], (texts b Hb) as [W3 W4].
  destruct (textLt_total _ _ W2 W4) as [?|[E|?]]; [auto| |auto].
  destruct (textLt_total _ _ W1 W3) as [?|[E'|?]]; [auto| |auto]. right. left.
  apply list_elem_of_lookup in Ha as [i Hi]. apply list_elem_of_lookup in Hb as [j Hj].
  assert (i = j) as <-; [|congruence]. eapply NoDup_lookup; [exact unique| |]; rewrite list_lookup_fmap.
  - by rewrite Hi.
  - by rewrite Hj, E'.
Qed.

Lemma rows_NoDup : NoDup (machine_snapshots db).
Proof. by eapply NoDup_fmap_1. Qed.

(** The whole listing, in order. *)
Definition listing : list Row := pageRows isLive (unlimited q) db.

Definition sel (row : Row) : Prop := selects isLive (unlimited q) row = true.

#[local] Instance sel_dec row : Decision (sel row).
Proof. unfold sel. apply _. Defined.

Hypothesis asks : noneOf (q_statuses q) || noneOf (q_workflows q) = false.

Lemma listing_order : listing = orderBy newer (filter sel (machine_snapshots db)).
Proof. unfold listing, pageRows. simpl. by rewrite asks. Qed.

Lemma sel_rows_ok : Forall inDb (filter sel (machine_snapshots db)) ∧ NoDup (filter sel (machine_snapshots db)).
Proof.
  split; [|apply NoDup_filter, rows_NoDup]. apply Forall_forall. by intros row [_ ?]%list_elem_of_filter.
Qed.

Lemma listing_sorted : StronglySorted (λ a b, newer a b = true) listing.
Proof.
  rewrite listing_order. destruct sel_rows_ok. by apply (orderBy_sorted newer inDb newer_irrefl newer_trans newer_total).
Qed.

Lemma selects_after x row :
  selects isLive (unlimited (withAfter q (cursorOf x))) row = true ↔ sel row ∧ newer x row = true.
Proof.
  unfold sel, selects, unlimited, withAfter. simpl. rewrite no_after. simpl.
  destruct (workflow row), (started_at row) as [st|] eqn:Es; rewrite ?andb_false_r, ?andb_true_r;
    try (split; [done|by intros [? _]]).
  rewrite newer_spec. unfold cursorOf. rewrite Es. simpl.
  rewrite !andb_true_iff, orb_true_iff, andb_true_iff, bool_decide_eq_true. naive_solver.
Qed.

Lemma page_after x l k :
  listing = l ++ x :: k → pageRows isLive (unlimited (withAfter q (cursorOf x))) db = k.
Proof.
  intros E. unfold pageRows. simpl. rewrite asks. unfold limitTo. simpl.
  transitivity (orderBy newer (filter (λ row, newer x row = true) (filter sel (machine_snapshots db)))).
  - f_equal. rewrite list_filter_filter. apply list_filter_iff. intros row.
    rewrite selects_after. naive_solver.
  - destruct sel_rows_ok. rewrite (orderBy_filter newer inDb newer_irrefl newer_trans newer_total) by done.
    rewrite <- listing_order, E. apply (sorted_after newer inDb newer_irrefl newer_trans newer_total).
    rewrite <- E. apply listing_sorted.
Qed.

Lemma page_take q' : q_limit q' = q_limit q → q_statuses q' = q_statuses q → q_workflows q' = q_workflows q →
  pageRows isLive q' db = take (Z.to_nat (q_limit q)) (pageRows isLive (unlimited q') db).
Proof.
  intros E1 E2 E3. unfold pageRows. simpl. rewrite E2, E3, asks, E1. unfold limitTo.
  destruct (Z.ltb_spec (q_limit q) 0); [lia|]. done.
Qed.

Lemma pages_suffix fuel q' l k :
  listing = l ++ k → pageRows isLive (unlimited q') db = k → (length k < fuel)%nat →
  q' = q ∨ (∃ c, q' = withAfter q c) →
  concat (pages fuel isLive q' db) = k ∧ Forall (λ p, (length p <= Z.to_nat (q_limit q))%nat) (pages fuel isLive q' db).
Proof.
  revert q' l k. induction fuel as [|fuel IH]; intros q' l k El Ek Hf Hq; [lia|]. simpl.
  assert (pageRows isLive q' db = take (Z.to_nat (q_limit q)) k) as ->.
  { rewrite page_take, Ek; [done|..]; destruct Hq as [->|[c ->]]; done. }
  destruct (last (take (Z.to_nat (q_limit q)) k)) as [x|] eqn:Ex.
  - apply last_snoc_inv in Ex as [p Ep]. set (k' := drop (Z.to_nat (q_limit q)) k).
    assert (k = p ++ x :: k') as Ek' by (rewrite <- (take_drop (Z.to_nat (q_limit q)) k), Ep, <- (assoc_L (++)); done).
    destruct (IH (withAfter q' (cursorOf x)) (l ++ p ++ [x]) k') as [I1 I2].
    + by rewrite El, Ek', <- !(assoc_L (++)).
    + assert (withAfter q' (cursorOf x) = withAfter q (cursorOf x)) as -> by (destruct Hq as [->|[c ->]]; done).
      apply (page_after x (l ++ p)). by rewrite El, Ek', <- !(assoc_L (++)).
    + rewrite Ek', length_app in Hf. simpl in Hf. lia.
    + right. exists (cursorOf x). by destruct Hq as [->|[c ->]].
    + split.
      * rewrite concat_cons, I1. unfold k'. apply take_drop.
      * constructor; [rewrite length_take; lia|done].
  - apply last_None in Ex. destruct k as [|y k]; [done|]. exfalso.
    assert (0 < Z.to_nat (q_limit q))%nat by lia. destruct (Z.to_nat (q_limit q)); [lia|done].
Qed.
End Pages.

(** Following a listing's cursor page by page gives the whole listing, in
    its order, with no run twice and none left out: the pages, each of at
    most [limit] runs, are the unlimited listing cut up, and it takes no more
    pages than there are rows. *)
Theorem pages_partition_listing (isLive : bool) (db : Store) (q : EndedQuery) :
  uniqueRuns db → Forall textsOk (machine_snapshots db) → 0 < q_limit q → q_after q = None →
  let ps := pages (S (length (machine_snapshots db))) isLive q db in
  concat ps = pageRows isLive (unlimited q) db
  ∧ Forall (λ p, (length p <= Z.to_nat (q_limit q))%nat) ps ∧ NoDup (run_id <$> concat ps).
Proof.
  intros Hu Ht Hl Ha ps.
  assert (NoDup (run_id <$> pageRows isLive (unlimited q) db)) as HN.
  { unfold pageRows. simpl. destruct (_ || _); [constructor|]. unfold limitTo. simpl.
    assert (∀ l : list Row, NoDup (run_id <$> l) → NoDup (run_id <$> orderBy newer l)) as Ho.
    { intros l Hn. eapply NoDup_Permutation_proper; [|exact Hn]. apply fmap_Permutation.
      apply orderBy_perm. }
    apply Ho. eapply sublist_NoDup; [exact Hu|apply fmap_sublist, sublist_filter]. }
  destruct (noneOf (q_statuses q) || noneOf (q_workflows q)) eqn:En.
  - assert (pageRows isLive q db = [] ∧ pageRows isLive (unlimited q) db = []) as [E1 E2]
      by (unfold pageRows; simpl; by rewrite En).
    unfold ps. simpl. rewrite E1, E2. simpl. split_and!; [done|constructor|constructor].
  - assert (length (pageRows isLive (unlimited q) db) <= length (machine_snapshots db))%nat as Hlen.
    { rewrite <- (length_fmap run_id), <- (length_fmap run_id (machine_snapshots db)).
      apply submseteq_length, NoDup_submseteq; [done|]. intros r (row & -> & Hin)%list_elem_of_fmap.
      apply list_elem_of_fmap_2. unfold pageRows in Hin. simpl in Hin. rewrite En in Hin.
      unfold limitTo in Hin. simpl in Hin. by apply orderBy_elem, list_elem_of_filter in Hin as [_ ?]. }
    destruct (pages_suffix isLive db q Hu Ht Hl Ha En (S (length (machine_snapshots db))) q [] (pageRows isLive (unlimited q) db))
      as [H1 H2]; [done|done|lia|by left|]. fold ps in H1, H2. rewrite H1. done.
Qed.

(** ** Prefixes *)

Lemma bytes_range p x u :
  bytesLt x p = false ∧ bytesLt x (p ++ u) = true ↔ ∃ r, x = p ++ r ∧ bytesLt r u = true.
Proof.
  revert x. induction p as [|b p IH]; intros x; simpl.
  - split; [intros [_ H]; eauto|]. intros (r & -> & H). split; [by destruct r|done].
  - destruct x as [|c x]; simpl; [split; [by intros []|by intros (? & ? & ?)]|].
    destruct (Z.ltb_spec c b) as [Hlt|Hge]; simpl; [split; [by intros []|intros (r & [= -> ->] & _); lia]|].
    destruct (Z.eqb_spec c b) as [->|Hne]; simpl.
    + rewrite IH. split; intros (r & E & H); exists r; split; congruence || done.
    + split; [by intros []|]. intros (r & [= -> _] & _). lia.
Qed.

Definition LAST_BYTES : list Z := [0xf4; 0x8f; 0xbf; 0xbf].

Lemma last_bytes s : encode (LAST_CHAR ++ s) = LAST_BYTES ++ encode s.
Proof. done. Qed.

(** A character before the last one has smaller bytes. *)
Lemma point_before cp s :
  0 <= cp < 0x10ffff → bytesLt (utf8_bytes cp ++ s) LAST_BYTES = true.
Proof.
  intros Hc. unfold utf8_bytes, LAST_BYTES. destruct (Z.leb_spec cp 0x7f); [|destruct (Z.leb_spec cp 0x7ff); [|destruct (Z.leb_spec cp 0xffff)]];
    cbn [app]; rewrite !bytesLt_cons.
  - left. lia.
  - left. Z.to_euclidean_division_equations. lia.
  - left. Z.to_euclidean_division_equations. lia.
  - assert (cp = 262144 * (cp / 262144) + 4096 * (cp / 4096 mod 64) + 64 * (cp / 64 mod 64) + cp mod 64) as E.
    { Z.to_euclidean_division_equations. lia. }
    pose proof (Z.mod_pos_bound (cp / 4096) 64). pose proof (Z.mod_pos_bound (cp / 64) 64). pose proof (Z.mod_pos_bound cp 64).
    assert (0 <= cp / 262144) by (apply Z.div_pos; lia).
    set (a := cp / 262144) in *. set (b := cp / 4096 mod 64) in *. set (c := cp / 64 mod 64) in *. set (d := cp mod 64) in *.
    clearbody a b c d. destruct (decide (a < 4)); [left; lia|]. right. split; [lia|].
    destruct (decide (b < 15)); [left; lia|]. right. split; [lia|].
    destruct (decide (c < 63)); [left; lia|]. right. split; [lia|]. left. lia.
Qed.

Lemma before_last s : well_formed s = true → bytesLt (encode s) LAST_BYTES = true ↔ ¬ LAST_CHAR `prefix_of` s.
Proof.
  intros Hw. split.
  - intros H [r ->]. rewrite last_bytes in H. by destruct (encode r).
  - intros Hn. destruct s as [|c s]; [done|]. simpl in Hw. destruct (is_high c) eqn:Eh.
    + destruct s as [|d s]; [done|]. apply andb_true_iff in Hw as [El _]. rewrite encode_pair by (by rewrite Eh, El).
      apply point_before. destruct (decide (c = 0xdbff ∧ d = 0xdfff)) as [[-> ->]|Hne]; [by destruct Hn; exists s|].
      unfold is_high, is_low, pair_point in *. zbool. lia.
    + apply andb_true_iff in Hw as [[El Hb]%andb_true_iff _]. rewrite encode_cons_single by done.
      unfold encode_unit. apply negb_true_iff in El. rewrite Eh, El. cbn [orb]. apply point_before. unfold between in Hb. zbool. lia.
Qed.

(** A row id is in the range of a prefix. *)
Lemma range_prefix p x :
  well_formed p = true → well_formed x = true →
  textLt x p = false ∧ textLt x (p ++ LAST_CHAR) = true ↔ p `prefix_of` x ∧ ¬ (p ++ LAST_CHAR) `prefix_of` x.
Proof.
  intros Hp Hx. unfold textLt. rewrite encode_app by done. change (encode LAST_CHAR) with LAST_BYTES. rewrite bytes_range. split.
  - intros (r & E & Hr). assert (x = p ++ decode r) as Ex.
    { rewrite <- decode_encode_app, <- E by done. rewrite <- (app_nil_r (encode x)), decode_encode_app by done. by rewrite app_nil_r. }
    assert (r = encode (decode r)) as Er.
    { rewrite Ex, encode_app in E by done. by apply app_inv_head in E. }
    split; [by exists (decode r)|]. intros [s Hs]. rewrite Er in Hr. rewrite Ex in Hs.
    rewrite <- (assoc_L (++)) in Hs. apply app_inv_head in Hs. rewrite Hs, last_bytes in Hr. by destruct (encode s).
  - intros [[s ->] Hn]. exists (encode s). split; [by rewrite encode_app|]. apply before_last.
    + by apply (well_formed_drop p).
    + intros [k ->]. destruct Hn. exists k. by rewrite (assoc_L (++)).
Qed.

(** A prefix resolves soundly: the ids that [findIdsByPrefix] gives are
    exactly the ids of rows, in any status, that start with the prefix (and not
    with the prefix and then U+10FFFF, the bound of the range), and when two are
    asked for and one comes, it is the only one. *)
Theorem prefix_lookup_exact (p : jstr) (db : Store) :
  well_formed p = true → uniqueRuns db → Forall (λ row, well_formed (run_id row) = true) (machine_snapshots db) →
  (∀ x, x ∈ findIdsByPrefix p (-1) db
        ↔ x ∈ run_id <$> machine_snapshots db ∧ p `prefix_of` x ∧ ¬ (p ++ LAST_CHAR) `prefix_of` x)
  ∧ ∀ x, findIdsByPrefix p 2 db = [x] →
    ∀ y, y ∈ run_id <$> machine_snapshots db → p `prefix_of` y → ¬ (p ++ LAST_CHAR) `prefix_of` y → y = x.
Proof.
  intros Hp Hu Hw.
  assert (∀ x, x ∈ findIdsByPrefix p (-1) db
        ↔ x ∈ run_id <$> machine_snapshots db ∧ p `prefix_of` x ∧ ¬ (p ++ LAST_CHAR) `prefix_of` x) as H1.
  { intros x. unfold findIdsByPrefix, limitTo. simpl. rewrite orderBy_elem, list_elem_of_filter.
    split; [intros [HR Hin]|intros (Hin & HP)]; apply list_elem_of_fmap in Hin as He; destruct He as (row & -> & Hrow);
      rewrite Forall_forall in Hw; specialize (Hw row Hrow).
    - split; [done|]. by apply range_prefix.
    - split; [|done]. by apply range_prefix. }
  split; [done|]. intros x Hx y Hy Hpy Hn.
  assert (y ∈ findIdsByPrefix p (-1) db) as Hin by (by apply H1).
  assert (findIdsByPrefix p 2 db = take 2 (findIdsByPrefix p (-1) db)) as E by done.
  rewrite Hx in E. destruct (findIdsByPrefix p (-1) db) as [|a [|b l]]; [done| |done].
  injection E as ->. by apply list_elem_of_singleton in Hin.
Qed.

(** ** Witnesses *)

Definition runBlob (w k : string) : json :=
  JObj [(js "workflow", JStr (js w)); (js "startedAt", JStr (js "2026-01-01T00:00:00.000Z"));
        (js "dispatchedBy", JObj [(js "effect", JStr (js k))])].

Lemma runBlob_ok w k : units_ok (runBlob w k).
Proof. repeat first [apply js_units | constructor]. Qed.

Definition T1 : jstr := js "2026-01-01T00:00:01.000Z".
Definition T2 : jstr := js "2026-01-01T00:00:02.000Z".
Definition T3 : jstr := js "2026-02-01T00:00:00.000Z".

Definition fresh : Store := init T1 empty.

Lemma saved_run_loads_witness :
  let db1 := save (js "run1") (runBlob "w" "k") LIVE T1 fresh in
  load (js "run1") db1
  = Ok (Some (mkStored (js "run1") LIVE (Some (runBlob "w" "k")) None (Some (startOf (js "run1") (runBlob "w" "k") T1 fresh))))
  ∧ ∀ r', r' ≠ js "run1" → rowOf r' db1 = rowOf r' fresh.
Proof. apply (saved_run_loads (js "run1") (runBlob "w" "k") LIVE T1 fresh). apply runBlob_ok. Defined.

(** The run is lost, another run is saved, and an old run is swept. *)
Definition laterOps : list Op :=
  [OLost (js "run1") (js "gone") T2; OSave (js "run2") (runBlob "w" "other") (js "ended") T2; OInit T3; OSweep T2].


(** A volume from before the listing columns. *)
Definition oldVolume : Store :=
  mkStore [] [mkRow (js "run0") (js "ended") (Some (stringify (runBlob "w" "k"))) None (Some T1)
                None None None None None None None] [] 0 [] [].

Lemma listing_columns_current_witness :
  let db := foldl exec (init T2 oldVolume) laterOps in
  (run_id <$> pageRows false everyQuery db = [js "run2"])
  ∧ (Forall columnsMatch (machine_snapshots db)
     ∧ ∀ row b w, row ∈ machine_snapshots db → blobOf row = Some b → prop (js "workflow") b = Some (JStr w) →
       status row ≠ LIVE → row ∈ pageRows false everyQuery db ∧ workflow row = Some w).
Proof.
  intros db. split; [vm_compute; reflexivity|]. apply (listing_columns_current T2 oldVolume laterOps).
  - right. split; [intros c _; apply not_elem_of_nil|]. repeat constructor. by eexists.
  - repeat first [apply (runBlob_ok "w" "other") | exact I | apply Forall_cons; split | apply Forall_nil].
Defined.

Definition sweptStore : Store :=
  save (js "run2") (runBlob "w" "b") LIVE T1 (save (js "run1") (runBlob "w" "a") (js "ended") T1 fresh).

Lemma sweep_spares_witness :
  let swept := (sweep T3 sweptStore).1 in
  let db' := (sweep T3 sweptStore).2 in
  swept = [js "run1"]
  ∧ ((∀ row, row ∈ machine_snapshots sweptStore →
       status row = LIVE ∨ run_id row ∈ h_run <$> standing sweptStore
       ∨ (∀ u, updated_at row = Some u → textLt u T3 = false) → run_id row ∉ swept)
     ∧ (∀ r, r ∉ swept → rowOf r db' = rowOf r sweptStore ∧ keptMachine r db' = keptMachine r sweptStore)
     ∧ (∀ r, r ∈ swept → is_Some (rowOf r sweptStore) ∧ rowOf r db' = None)
     ∧ standing db' = standing sweptStore
     ∧ ∀ l, l ∈ hook_log db' ↔ l ∈ hook_log sweptStore ∧ textLt (at_ (line l)) T3 = false).
Proof.
  intros swept db'. split; [vm_compute; reflexivity|]. apply (sweep_spares T3 sweptStore).
  unfold uniqueRuns. apply (bool_decide_eq_true_1 _). vm_compute. reflexivity.
Defined.

Lemma delivery_claimed_once_witness :
  let db1 := (claimHookDelivery (js "h") (js "d1") (js "g1") T1 fresh).2 in
  (∀ os dl' dg' now', Forall (keepsClaim 1 T1) os → dl' = js "d1" ∨ dg' = js "g1" →
     claimHookDelivery (js "h") dl' dg' now' (foldl exec db1 os) = (None, foldl exec db1 os))
  ∧ (∀ l now', kind l ∉ CLAIMED_KINDS →
     is_Some (claimHookDelivery (js "h") (js "d1") (js "g1") now' (writeHookLine l (Some 1) db1)).1).
Proof. apply (delivery_claimed_once (js "h") (js "d1") (js "g1") T1 fresh 1). vm_compute. reflexivity. Defined.

(** Three ended runs, two of which started at the same time. *)
Definition history : Store :=
  save (js "c") (runBlob "w" "c") (js "ended") T1
    (save (js "b") (JObj [(js "workflow", JStr (js "w"))]) (js "ended") T2
       (save (js "a") (runBlob "w" "a") (js "ended") T1 fresh)).

Definition twoAPage : EndedQuery := mkQuery None None None None None 2.

Lemma pages_partition_listing_witness :
  let ps := pages (S (length (machine_snapshots history))) false twoAPage history in
  (map (map run_id) ps = [[js "b"; js "c"]; [js "a"]])
  ∧ (concat ps = pageRows false (unlimited twoAPage) history
     ∧ Forall (λ p, (length p <= Z.to_nat (q_limit twoAPage))%nat) ps ∧ NoDup (run_id <$> concat ps)).
Proof.
  intros ps. split; [vm_compute; reflexivity|]. apply (pages_partition_listing false history twoAPage).
  - unfold uniqueRuns. apply (bool_decide_eq_true_1 _). vm_compute. reflexivity.
  - unfold textsOk. apply (bool_decide_eq_true_1 _). vm_compute. reflexivity.
  - simpl. lia.
  - reflexivity.
Defined.

Lemma prefix_lookup_exact_witness :
  (∀ x, x ∈ findIdsByPrefix (js "run") (-1) sweptStore
        ↔ x ∈ run_id <$> machine_snapshots sweptStore ∧ js "run" `prefix_of` x ∧ ¬ (js "run" ++ LAST_CHAR) `prefix_of` x)
  ∧ ∀ x, findIdsByPrefix (js "run") 2 sweptStore = [x] →
    ∀ y, y ∈ run_id <$> machine_snapshots sweptStore → js "run" `prefix_of` y →
    ¬ (js "run" ++ LAST_CHAR) `prefix_of` y → y = x.
Proof.
  apply (prefix_lookup_exact (js "run") sweptStore).
  - vm_compute. reflexivity.
  - unfold uniqueRuns. apply (bool_decide_eq_true_1 _). vm_compute. reflexivity.
  - apply (bool_decide_eq_true_1 _). vm_compute. reflexivity.
Defined.

End StoreProofs.
