(* ===== verification/Kept.v ===== *)
(** * The kept conversations (orchestrator/src/conversations.ts)

    [Db] is [conversations.db] with the store's own flags: its two tables as
    lists of rows, [full], the cap, and the listeners of each conversation.
    [append] is the transaction of one batch: its statements in order, with the
    rollback of an insert that breaks a unique index as a [Throw].  [heard]
    records what each listener was called with.  The space guard takes the
    volume's size and use as numbers (IEEE doubles, as [spec_float]) and what
    other calls do to the store while it waits as a parameter. *)

From Stdlib Require Import Lia ZArith SpecFloat.
From stdpp Require Import base list strings sets sorting.
From S2P Require Import Prelude JsString Json Utf8 Sql Keep Store.

Open Scope Z_scope.

Module Kept.
Import Sql.

(** ** Rows *)

(** An entry as the Harness sends it; the Agent comes from the ledger. *)
Abbreviation SentEntry := Keep.KeptEntry.

Record ConversationEntry := mkCEntry { id : jstr; seq : Z; at_ : jstr; agent : jstr; kind : jstr; text : jstr }.

Record ConversationRow := mkConv {
  instance_id : jstr;
  run_id : jstr;
  c_agent : jstr;
  bytes : Z;
  cut : bool;
  swept : option jstr;
  created_at : jstr;
  updated_at : jstr;
}.

(** A row of [entries]: its text is a printed entry. *)
Record EntryRow := mkEntryRow { r_instance : jstr; r_seq : Z; r_id : jstr; r_entry : jstr }.

Record Db := mkDb {
  conversations : list ConversationRow;
  entries : list EntryRow;
  full : bool;
  capBytes : Z;
  listeners : list (jstr * list nat);
  heard : list (nat * list ConversationEntry);
}.

Definition set_conversations v (d : Db) : Db := mkDb v (entries d) (full d) (capBytes d) (listeners d) (heard d).
Definition set_entries v (d : Db) : Db := mkDb (conversations d) v (full d) (capBytes d) (listeners d) (heard d).
Definition set_full v (d : Db) : Db := mkDb (conversations d) (entries d) v (capBytes d) (listeners d) (heard d).
Definition set_listeners v (d : Db) : Db := mkDb (conversations d) (entries d) (full d) (capBytes d) v (heard d).
Definition set_heard v (d : Db) : Db := mkDb (conversations d) (entries d) (full d) (capBytes d) (listeners d) v.

Definition SWEPT_NO_SPACE : jstr := js "no space".
Definition CONVERSATION_CAP_BYTES : Z := 8 * 1024 * 1024.
Definition CUT_KIND : jstr := js "cut".

Definition newDb (cap : option Z) : Db := mkDb [] [] false (default CONVERSATION_CAP_BYTES cap) [] [].

(** ** Entries *)

Definition entryJson (e : ConversationEntry) : Json.json :=
  Json.JObj [(js "id", Json.JStr (id e)); (js "seq", Json.JNum (seq e)); (js "at", Json.JStr (at_ e));
             (js "agent", Json.JStr (agent e)); (js "kind", Json.JStr (kind e)); (js "text", Json.JStr (text e))].

Definition printEntry (e : ConversationEntry) : jstr := Json.stringify (entryJson e).

Definition str (k : string) (v : Json.json) : option jstr :=
  match Json.prop (js k) v with Some (Json.JStr s) => Some s | _ => None end.

Definition num (k : string) (v : Json.json) : option Z :=
  match Json.prop (js k) v with Some (Json.JNum n) => Some n | _ => None end.

(** [JSON.parse(r.entry) as ConversationEntry] *)
Definition parseEntry (t : jstr) : option ConversationEntry :=
  v ← Json.parse t;
  i ← str "id" v; n ← num "seq" v; a ← str "at" v; g ← str "agent" v; k ← str "kind" v; x ← str "text" v;
  Some (mkCEntry i n a g k x).

(** ** Appending *)

Definition row (inst : jstr) (d : Db) : option ConversationRow :=
  head (filter (λ r, instance_id r = inst) (conversations d)).

Definition hasId (inst i : jstr) (es : list EntryRow) : bool :=
  existsb (λ r, bool_decide (r_instance r = inst) && bool_decide (r_id r = i)) es.

Definition hasSeq (inst : jstr) (n : Z) (es : list EntryRow) : bool :=
  existsb (λ r, bool_decide (r_instance r = inst) && (r_seq r =? n)) es.

(** [MAX(seq)], 0 of none. *)
Definition lastSeq (inst : jstr) (es : list EntryRow) : Z :=
  match filter (λ r, r_instance r = inst) es with
  | [] => 0
  | r :: rs => foldl (λ m r, Z.max m (r_seq r)) (r_seq r) rs
  end.

Inductive Fault := UniqueConstraint | SyntaxError.

(** [INSERT INTO entries]: the primary key and the unique index refuse. *)
Definition insertRow (inst : jstr) (n : Z) (i entry : jstr) (es : list EntryRow) : result Fault (list EntryRow) :=
  if hasSeq inst n es || hasId inst i es then Throw UniqueConstraint
  else Ok (es ++ [mkEntryRow inst n i entry]).

Definition capText (n : Z) : jstr :=
  if n mod (1024 * 1024) =? 0 then of_int (n / (1024 * 1024)) ++ js " MiB" else of_int n ++ js " bytes".

Definition cutText (isFull : bool) (cap : Z) : jstr :=
  if isFull then js "the Orchestrator keeps no more of this conversation: its state volume is full (ADR-0065)"
  else js "the Orchestrator keeps no more of this conversation: it is at its cap of " ++ capText cap ++ js " (ADR-0023)".

(** The seq an entry is kept under: its own, or one after the last. *)
Definition seatOf (inst : jstr) (e : SentEntry) (es : list EntryRow) : Z :=
  if hasSeq inst (Keep.seq e) es then lastSeq inst es + 1 else Keep.seq e.

Definition entryOf (ag : jstr) (n : Z) (e : SentEntry) : ConversationEntry :=
  mkCEntry (Keep.id e) n (Keep.at_ e) ag (Keep.kind e) (Keep.text e).

Definition markerOf (now ag : jstr) (n : Z) (isFull : bool) (cap : Z) : ConversationEntry :=
  mkCEntry (CUT_KIND ++ js "-" ++ of_int n) n now ag CUT_KIND (cutText isFull cap).

(** What the batch's loop has so far. *)
Record Batch := mkBatch { b_entries : list EntryRow; b_added : list ConversationEntry; b_kept : Z; b_bytes : Z; b_cut : bool }.

(** The loop over the batch, in order of [seq]. *)
Fixpoint appendLoop (inst ag now : jstr) (isFull : bool) (cap : Z) (sent : list SentEntry) (b : Batch) : result Fault Batch :=
  match sent with
  | [] => Ok b
  | e :: sent' =>
      if hasId inst (Keep.id e) (b_entries b) then appendLoop inst ag now isFull cap sent' b
      else
        let n := seatOf inst e (b_entries b) in
        let json := printEntry (entryOf ag n e) in
        let size := utf8ByteLength json in
        if isFull || (cap <? b_bytes b + size) then
          let m := markerOf now ag n isFull cap in
          es ← insertRow inst n (id m) (printEntry m) (b_entries b);
          Ok (mkBatch es (b_added b ++ [m]) (b_kept b) (b_bytes b) true)
        else
          es ← insertRow inst n (Keep.id e) json (b_entries b);
          appendLoop inst ag now isFull cap sent'
            (mkBatch es (b_added b ++ [entryOf ag n e]) (b_kept b + 1) (b_bytes b + size) (b_cut b))
  end.

Record AppendResult := mkAppend { a_kept : Z; a_cut : bool }.

Definition updateConv (inst : jstr) (f : ConversationRow → ConversationRow) (l : list ConversationRow) : list ConversationRow :=
  (λ r, if bool_decide (instance_id r = inst) then f r else r) <$> l.

(** The listeners of the conversation hear what was added. *)
Definition notify (inst : jstr) (added : list ConversationEntry) (d : Db) : Db :=
  if bool_decide (added = []) then d
  else
    let ls := match head (filter (λ l, l.1 = inst) (listeners d)) with Some l => l.2 | None => [] end in
    set_heard (heard d ++ ((λ l, (l, added)) <$> ls)) d.

#[export] Instance ConversationEntry_eq_dec : EqDecision ConversationEntry.
Proof. solve_decision. Defined.

Definition append (runId inst ag : jstr) (sent : list SentEntry) (now : jstr) (d : Db) : result Fault (AppendResult * Db) :=
  let found := row inst d in
  let d1 :=
    match found with
    | Some _ => d
    | None => set_conversations (conversations d ++ [mkConv inst runId ag 0 false None now now]) d
    end in
  let r := default (mkConv inst runId ag 0 false None now now) found in
  if cut r || bool_decide (is_Some (swept r)) then Ok (mkAppend 0 (cut r), d1)
  else
    b ← appendLoop inst ag now (full d) (capBytes d) (orderBy (λ a b, Keep.seq a <? Keep.seq b) sent)
          (mkBatch (entries d1) [] 0 (bytes r) false);
    let conv r := mkConv (instance_id r) (run_id r) (c_agent r) (b_bytes b) (b_cut b) (swept r) (created_at r) now in
    let d2 := set_entries (b_entries b) (set_conversations (updateConv inst conv (conversations d1)) d1) in
    Ok (mkAppend (b_kept b) (b_cut b), notify inst (b_added b) d2).

(** ** Reading *)

Record KeptConversation := mkKept { k_agent : jstr; k_instance : jstr; k_bytes : Z; k_cut : bool; k_swept : option jstr }.

(** [list(runId)], [ORDER BY created_at, instance_id] *)
Definition listConversations (runId : jstr) (d : Db) : list KeptConversation :=
  (λ r, mkKept (c_agent r) (instance_id r) (bytes r) (cut r) ((λ _, SWEPT_NO_SPACE) <$> swept r))
  <$> orderBy (λ a b, textLt (created_at a) (created_at b)
                      || (bool_decide (created_at a = created_at b) && textLt (instance_id a) (instance_id b)))
        (filter (λ r, run_id r = runId) (conversations d)).

Definition conversation (runId inst : jstr) (d : Db) : option KeptConversation :=
  head (filter (λ c, k_instance c = inst) (listConversations runId d)).

Fixpoint parseAll (l : list EntryRow) : result Fault (list ConversationEntry) :=
  match l with
  | [] => Ok []
  | r :: l' => match parseEntry (r_entry r) with
               | Some e => es ← parseAll l'; Ok (e :: es)
               | None => Throw SyntaxError
               end
  end.

(** [entries(instanceId, after, limit)] *)
Definition entriesAfter (inst : jstr) (after limit : Z) (d : Db) : result Fault (list ConversationEntry) :=
  parseAll (limitTo limit (orderBy (λ a b, r_seq a <? r_seq b)
                             (filter (λ r, r_instance r = inst ∧ after < r_seq r) (entries d)))).

Definition sweptRuns (runIds : list jstr) (d : Db) : list jstr :=
  filter (λ r, existsb (λ c, bool_decide (run_id c = r) && bool_decide (is_Some (swept c))) (conversations d) = true)
    (remove_dups runIds).

(** [follow] and the function it returns. *)
Fixpoint addListener (inst : jstr) (n : nat) (l : list (jstr * list nat)) : list (jstr * list nat) :=
  match l with
  | [] => [(inst, [n])]
  | (i, ns) :: l' => if bool_decide (i = inst) then (i, if bool_decide (n ∈ ns) then ns else ns ++ [n]) :: l' else (i, ns) :: addListener inst n l'
  end.

Definition follow (inst : jstr) (n : nat) (d : Db) : Db := set_listeners (addListener inst n (listeners d)) d.

Definition unfollow (inst : jstr) (n : nat) (d : Db) : Db :=
  set_listeners
    (filter (λ l, l.1 ≠ inst ∨ l.2 ≠ [])
       ((λ l, if bool_decide (l.1 = inst) then (l.1, filter (λ m, m ≠ n) l.2) else l) <$> listeners d)) d.

(** ** Deleting *)

Definition ofRun (runId : jstr) (d : Db) (inst : jstr) : bool :=
  existsb (λ c, bool_decide (run_id c = runId) && bool_decide (instance_id c = inst)) (conversations d).

Definition deleteEntriesOf (runId : jstr) (d : Db) : Db :=
  set_entries (filter (λ r, ofRun runId d (r_instance r) = false) (entries d)) d.

Definition deleteRun (runId : jstr) (d : Db) : Db :=
  let d1 := deleteEntriesOf runId d in
  set_conversations (filter (λ c, run_id c ≠ runId) (conversations d1)) d1.

Definition deleteRuns (runIds : list jstr) (d : Db) : Db := foldl (λ d r, deleteRun r d) d runIds.

(** [SELECT DISTINCT run_id ... ORDER BY run_id] *)
Definition runIds (d : Db) : list jstr := orderBy textLt (remove_dups (run_id <$> conversations d)).

(** [MIN(created_at)] of a run's rows *)
Definition minText (l : list jstr) : jstr :=
  match l with [] => [] | t :: ts => foldl (λ m t, if textLt t m then t else m) t ts end.

Definition oldestOf (runId : jstr) (d : Db) : jstr :=
  minText (created_at <$> filter (λ c, run_id c = runId ∧ swept c = None) (conversations d)).

Definition runsOldestFirst (d : Db) : list jstr :=
  orderBy (λ a b, textLt (oldestOf a d) (oldestOf b d) || (bool_decide (oldestOf a d = oldestOf b d) && textLt a b))
    (remove_dups (run_id <$> filter (λ c, swept c = None) (conversations d))).

Definition sweepForSpace (runId now : jstr) (d : Db) : Db :=
  let d1 := deleteEntriesOf runId d in
  set_conversations
    ((λ c, if bool_decide (run_id c = runId)
           then mkConv (instance_id c) (run_id c) (c_agent c) 0 (cut c) (Some SWEPT_NO_SPACE) (created_at c) now
           else c) <$> conversations d1) d1.

(** ** The space guard *)

(** 0.8 and 0.95, and a number above a part of the volume. *)
Definition GUARD_SWEEP_AT : spec_float := S754_finite false 7205759403792794 (-53).
Definition GUARD_FULL_AT : spec_float := S754_finite false 8556839292003942 (-53).

Definition part (at_ capacity : spec_float) : spec_float := SFmul 53 1024 at_ capacity.
Definition isPositive (x : spec_float) : bool := SFltb (S754_zero false) x.

Section Guard.
Variable usedBytes : Db → spec_float.  (** the port's [used()] *)
Variable isLive : jstr → bool.  (** the port's [isLive(runId)] *)
Variable others : jstr → Db → Db.  (** the calls that run while [isLive(runId)] is awaited *)

Fixpoint guardLoop (capacity : spec_float) (now : jstr) (runs : list jstr) (used : spec_float) (swept_ : list jstr) (d : Db)
    : list jstr * spec_float * Db :=
  match runs with
  | [] => (swept_, used, d)
  | r :: runs' =>
      if SFltb used (part GUARD_SWEEP_AT capacity) then (swept_, used, d)
      else
        let d1 := others r d in
        if isLive r then guardLoop capacity now runs' used swept_ d1
        else
          let d2 := sweepForSpace r now d1 in
          guardLoop capacity now runs' (usedBytes d2) (swept_ ++ [r]) d2
  end.

Definition guardSpace (capacity : spec_float) (now : jstr) (d : Db) : list jstr * Db :=
  if negb (isPositive capacity) then ([], d)
  else
    let used := usedBytes d in
    let '(sw, used, d1) :=
      if SFltb (part GUARD_SWEEP_AT capacity) used then guardLoop capacity now (runsOldestFirst d) used [] d
      else ([], used, d) in
    (sw, set_full (SFltb (part GUARD_FULL_AT capacity) used) d1).
End Guard.

(** ** Orphans *)

(** What the run store promises here: the ids that share a prefix come sorted,
    so a run's own id, when it has a row, is the first of its own prefix. *)
Class RunIds (T : Type) := {
  findIdsByPrefix : jstr → Z → T → list jstr;
  hasRun : jstr → T → Prop;
  runs_ok : T → Prop;
  own_id_first r runs : runs_ok runs → well_formed r = true →
    head (findIdsByPrefix r 1 runs) = Some r ↔ hasRun r runs;
}.

Definition deleteOrphanConversations `{RunIds T} (runs : T) (d : Db) : list jstr * Db :=
  let orphans := filter (λ r, head (findIdsByPrefix r 1 runs) ≠ Some r) (runIds d) in
  (orphans, deleteRuns orphans d).

End Kept.
