(* ===== verification/KeptProofs.v ===== *)
(** * The kept conversations: proofs *)

From Stdlib Require Import Lia ZArith SpecFloat.
From stdpp Require Import base list strings sets sorting relations.
From S2P Require Import Prelude JsString Json Utf8 Sql Keep Store StoreProofs Kept.

Open Scope Z_scope.

Module KeptProofs.
Import Sql Kept.

(** ** Rows of one conversation *)

Definition seqKey (r : EntryRow) : jstr * Z := (r_instance r, r_seq r).
Definition idKey (r : EntryRow) : jstr * jstr := (r_instance r, r_id r).
Definition entryBytes (r : EntryRow) : Z := utf8ByteLength (r_entry r).

(** The bytes of a conversation's rows. *)
Definition total (inst : jstr) (es : list EntryRow) : Z :=
  foldr (λ r n, (if bool_decide (r_instance r = inst) then entryBytes r else 0) + n) 0 es.

Lemma total_app inst es es' : total inst (es ++ es') = total inst es + total inst es'.
Proof. unfold total. induction es as [|r es IH]; cbn [app foldr]; [done|]. rewrite IH. lia. Qed.

Lemma total_none inst es : Forall (λ r, r_instance r ≠ inst) es → total inst es = 0.
Proof. unfold total. induction 1 as [|r es Hr _ IH]; cbn [foldr]; [done|]. rewrite bool_decide_eq_false_2 by done. lia. Qed.

Lemma total_one inst n i t : total inst [mkEntryRow inst n i t] = utf8ByteLength t.
Proof. cbn. rewrite bool_decide_eq_true_2 by done. unfold entryBytes. cbn. lia. Qed.

Lemma hasId_spec inst i es : hasId inst i es = true ↔ (inst, i) ∈ idKey <$> es.
Proof.
  unfold hasId. rewrite existsb_exists, list_elem_of_fmap. split.
  - intros (r & Hin%list_elem_of_In & H). zbool. exists r. split; [|done]. unfold idKey. by subst.
  - intros (r & [= -> ->] & Hin). exists r. split; [by apply list_elem_of_In|]. by rewrite !bool_decide_eq_true_2.
Qed.

Lemma hasSeq_spec inst n es : hasSeq inst n es = true ↔ (inst, n) ∈ seqKey <$> es.
Proof.
  unfold hasSeq. rewrite existsb_exists, list_elem_of_fmap. split.
  - intros (r & Hin%list_elem_of_In & H). zbool. exists r. split; [|done]. unfold seqKey. by subst.
  - intros (r & [= -> ->] & Hin). exists r. split; [by apply list_elem_of_In|].
    by rewrite bool_decide_eq_true_2, Z.eqb_refl.
Qed.

Lemma foldl_max_ge (rs : list EntryRow) m : m <= foldl (λ m r, Z.max m (r_seq r)) m rs.
Proof. revert m. induction rs as [|r rs IH]; intros m; simpl; [lia|]. specialize (IH (Z.max m (r_seq r))). lia. Qed.

Lemma foldl_max_in (rs : list EntryRow) m r : r ∈ rs → r_seq r <= foldl (λ m r, Z.max m (r_seq r)) m rs.
Proof.
  revert m. induction rs as [|x rs IH]; intros m; [set_solver|]. intros [->|Hin]%elem_of_cons; simpl; [|by apply IH].
  pose proof (foldl_max_ge rs (Z.max m (r_seq x))). lia.
Qed.

Lemma lastSeq_max inst es r : r ∈ es → r_instance r = inst → r_seq r <= lastSeq inst es.
Proof.
  intros Hin Hi. unfold lastSeq. assert (r ∈ filter (λ r, r_instance r = inst) es) as Hf by (by apply list_elem_of_filter).
  destruct (filter _ es) as [|x rs]; [set_solver|]. apply elem_of_cons in Hf as [->|Hf]; [apply foldl_max_ge|by apply foldl_max_in].
Qed.

(** The seat of an entry is free. *)
Lemma seatOf_free inst e es : hasSeq inst (seatOf inst e es) es = false.
Proof.
  unfold seatOf. destruct (hasSeq inst (Keep.seq e) es) eqn:E; [|done].
  apply not_true_iff_false. rewrite hasSeq_spec. intros (r & [= Hi Hn] & Hin)%list_elem_of_fmap.
  pose proof (lastSeq_max inst es r Hin (eq_sym Hi)). lia.
Qed.

(** ** One batch *)

Record uniqueRows (es : list EntryRow) : Prop := {
  u_seq : NoDup (seqKey <$> es);
  u_id : NoDup (idKey <$> es);
}.

Lemma insertRow_ok inst n i t es es' :
  insertRow inst n i t es = Ok es' →
  es' = es ++ [mkEntryRow inst n i t] ∧ (uniqueRows es → uniqueRows es') ∧ hasId inst i es' = true.
Proof.
  unfold insertRow. destruct (hasSeq inst n es || hasId inst i es) eqn:E; [done|]. intros [= <-].
  apply orb_false_iff in E as [E1 E2]. apply not_true_iff_false in E1, E2. rewrite hasSeq_spec in E1. rewrite hasId_spec in E2.
  split; [done|]. split.
  - intros [H1 H2]. split; rewrite fmap_app; apply NoDup_app; (split; [done|]); (split; [|apply NoDup_singleton]).
    + intros x Hx ->%list_elem_of_singleton. done.
    + intros x Hx ->%list_elem_of_singleton. done.
  - apply hasId_spec. rewrite fmap_app. set_solver.
Qed.

(** A batch's loop from [b] to [b']: rows of the conversation are added at the
    end, the byte count follows them up to the marker of a cut, and without a
    cut every sent entry has a row. *)
Record Grown (inst ag : jstr) (cap : Z) (sent : list SentEntry) (b b' : Batch) : Prop := {
  g_rows : ∃ new, b_entries b' = b_entries b ++ new ∧ Forall (λ r, r_instance r = inst) new
                  ∧ (b_cut b' = false →
                     ∀ r, r ∈ new → ∃ e, e ∈ sent ∧ r_id r = Keep.id e ∧ r_entry r = printEntry (entryOf ag (r_seq r) e));
  g_unique : uniqueRows (b_entries b) → uniqueRows (b_entries b');
  g_cap : b_bytes b <= cap → b_bytes b' <= cap;
  g_total : ∃ extra, total inst (b_entries b') - b_bytes b' = total inst (b_entries b) - b_bytes b + extra
                     ∧ (b_cut b' = false → extra = 0)
                     ∧ (b_cut b' = true → ∃ m, m ∈ b_entries b' ∧ r_instance m = inst ∧ extra = entryBytes m);
  g_ids : b_cut b' = false → ∀ e, e ∈ sent → hasId inst (Keep.id e) (b_entries b') = true;
}.

Lemma hasId_app inst i es new : hasId inst i es = true → hasId inst i (es ++ new) = true.
Proof. rewrite !hasId_spec, fmap_app. set_solver. Qed.

Lemma appendLoop_grown inst ag now isFull cap sent b b' :
  b_cut b = false → appendLoop inst ag now isFull cap sent b = Ok b' → Grown inst ag cap sent b b'.
Proof.
  revert b. induction sent as [|e sent IH]; intros b Hc; cbn [appendLoop].
  - intros [= <-]. split; [exists []; rewrite app_nil_r; split_and!; [done|constructor|set_solver]|done|done| |].
    + exists 0. split_and!; [lia|done|congruence].
    + intros _ e He. by apply elem_of_nil in He.
  - destruct (hasId inst (Keep.id e) (b_entries b)) eqn:Eid.
    { intros H. destruct (IH b Hc H) as [(new & En & Hn & Hcon) Hu Hcap Ht Hids]. split; [|done|done|done|].
      { exists new. split_and!; [done|done|]. intros Hf r Hr. destruct (Hcon Hf r Hr) as (x & ? & ?). exists x. split; [by right|done]. }
      intros Hf x [->|Hx]%elem_of_cons; [|by apply Hids]. rewrite En. by apply hasId_app. }
    cbv zeta. set (n := seatOf inst e (b_entries b)). set (json := printEntry (entryOf ag n e)).
    destruct (isFull || (cap <? b_bytes b + utf8ByteLength json)) eqn:Efull.
    + set (m := markerOf now ag n isFull cap). intros (es & Hi & [= <-])%rbind_ok.
      apply insertRow_ok in Hi as (-> & Hu & _). split; cbn [b_entries b_bytes b_cut].
      * eexists. split_and!; [done|by repeat constructor|done].
      * done.
      * done.
      * exists (entryBytes (mkEntryRow inst n (id m) (printEntry m))). split_and!; [|done|].
        -- rewrite total_app, total_one. unfold entryBytes. cbn [r_entry]. lia.
        -- intros _. exists (mkEntryRow inst n (id m) (printEntry m)). split_and!; [|done|done]. set_solver.
      * done.
    + apply orb_false_iff in Efull as [_ Hle%Z.ltb_ge]. intros (es & Hi & H)%rbind_ok.
      apply insertRow_ok in Hi as (-> & Hu & Hid).
      apply IH in H as [(new & En & Hn & Hcon) Hu' Hcap (x & Ht & Hx1 & Hx2) Hids]; [|exact Hc].
      cbn [b_entries b_bytes b_cut] in *. split.
      * rewrite En, <- (assoc_L (++)). eexists. split_and!; [done|by constructor|].
        intros Hf r [->|Hr]%elem_of_cons; [exists e; split; [left|done]|].
        destruct (Hcon Hf r Hr) as (y & ? & ?). exists y. split; [by right|done].
      * auto.
      * auto.
      * exists x. split_and!; [|done|done]. rewrite Ht, total_app, total_one. lia.
      * intros Hf y [->|Hy]%elem_of_cons; [|by apply Hids]. rewrite En. by apply hasId_app.
Qed.

(** ** The store's invariant *)

Record Inv (d : Db) : Prop := {
  i_convs : NoDup (instance_id <$> conversations d);
  i_rows : uniqueRows (entries d);
  i_owner : ∀ r, r ∈ entries d → ∃ c, c ∈ conversations d ∧ instance_id c = r_instance r ∧ swept c = None;
  i_cap : ∀ c, c ∈ conversations d → 0 <= capBytes d → bytes c <= capBytes d;
  i_bytes : ∀ c, c ∈ conversations d → swept c = None →
            ∃ extra, total (instance_id c) (entries d) = bytes c + extra
                     ∧ (cut c = false → extra = 0)
                     ∧ (cut c = true → ∃ m, m ∈ entries d ∧ r_instance m = instance_id c ∧ extra = entryBytes m);
}.

Lemma row_spec inst d r : row inst d = Some r → r ∈ conversations d ∧ instance_id r = inst.
Proof.
  unfold row. intros H. assert (r ∈ filter (λ r, instance_id r = inst) (conversations d)) as Hin.
  { destruct (filter _ _); [done|]. injection H as ->. left. }
  apply list_elem_of_filter in Hin. tauto.
Qed.

Lemma row_none inst d : row inst d = None → inst ∉ instance_id <$> conversations d.
Proof.
  unfold row. intros H (r & -> & Hin)%list_elem_of_fmap.
  assert (r ∈ filter (λ x, instance_id x = instance_id r) (conversations d)) as Hf by (by apply list_elem_of_filter).
  destruct (filter _ _); [by apply elem_of_nil in Hf|done].
Qed.

Lemma same_conv d c c' :
  Inv d → c ∈ conversations d → c' ∈ conversations d → instance_id c = instance_id c' → c = c'.
Proof.
  intros [HN _ _ _ _] [i Hi]%list_elem_of_lookup [j Hj]%list_elem_of_lookup E.
  assert (i = j) as <-; [|congruence]. eapply NoDup_lookup; [exact HN| |]; rewrite list_lookup_fmap.
  - by rewrite Hi.
  - by rewrite Hj, E.
Qed.

(** The store with a row for the conversation, and that row. *)
Definition withRow (runId inst ag now : jstr) (d : Db) : Db :=
  match row inst d with
  | Some _ => d
  | None => set_conversations (conversations d ++ [mkConv inst runId ag 0 false None now now]) d
  end.

Definition theRow (runId inst ag now : jstr) (d : Db) : ConversationRow :=
  default (mkConv inst runId ag 0 false None now now) (row inst d).

Lemma no_rows d inst : Inv d → inst ∉ instance_id <$> conversations d → total inst (entries d) = 0.
Proof.
  intros [_ _ Ho _ _] Hn. apply total_none, Forall_forall. intros r Hr <-. destruct (Ho r Hr) as (c & Hc & E & _).
  apply Hn. rewrite <- E. by apply list_elem_of_fmap_2.
Qed.

Lemma inv_withRow runId inst ag now d :
  Inv d → Inv (withRow runId inst ag now d) ∧ theRow runId inst ag now d ∈ conversations (withRow runId inst ag now d)
          ∧ instance_id (theRow runId inst ag now d) = inst.
Proof.
  intros HI. unfold withRow, theRow. destruct (row inst d) as [r|] eqn:E.
  - apply row_spec in E as [??]. done.
  - apply row_none in E. pose proof (no_rows d inst HI E) as H0. destruct HI. split; [|cbn; split; [set_solver|done]].
    split; cbn [conversations entries set_conversations capBytes].
    + rewrite fmap_app. apply NoDup_app. split_and!; [done| |apply NoDup_singleton]. intros x Hx ->%list_elem_of_singleton. done.
    + done.
    + intros r Hr. destruct (i_owner0 r Hr) as (c & Hc & ? & ?). exists c. split; [set_solver|done].
    + intros c [Hc| ->%list_elem_of_singleton]%elem_of_app; [by apply i_cap0|done].
    + intros c [Hc| ->%list_elem_of_singleton]%elem_of_app; [by apply i_bytes0|]. intros _. exists 0.
      cbn [instance_id bytes cut]. split_and!; [lia|done|done].
Qed.

(** What [append] does, by its two ends. *)
Lemma append_cases runId inst ag sent now d r d' :
  append runId inst ag sent now d = Ok (r, d') →
  let r0 := theRow runId inst ag now d in
  let d1 := withRow runId inst ag now d in
  (cut r0 || bool_decide (is_Some (swept r0)) = true ∧ r = mkAppend 0 (cut r0) ∧ d' = d1)
  ∨ (cut r0 = false ∧ swept r0 = None ∧ ∃ b,
       appendLoop inst ag now (full d) (capBytes d) (orderBy (λ a b, Keep.seq a <? Keep.seq b) sent)
         (mkBatch (entries d1) [] 0 (bytes r0) false) = Ok b
       ∧ r = mkAppend (b_kept b) (b_cut b)
       ∧ d' = notify inst (b_added b)
                (set_entries (b_entries b)
                   (set_conversations
                      (updateConv inst
                         (λ r, mkConv (instance_id r) (run_id r) (c_agent r) (b_bytes b) (b_cut b) (swept r) (created_at r) now)
                         (conversations d1)) d1))).
Proof.
  unfold append. fold (withRow runId inst ag now d) (theRow runId inst ag now d). cbv zeta.
  destruct (cut _ || bool_decide _) eqn:E; [intros [= <- <-]; by left|].
  apply orb_false_iff in E as [E1 E2%bool_decide_eq_false]. intros (b & Hb & [= <- <-])%rbind_ok. right.
  split; [done|]. split; [by apply eq_None_not_Some|]. eauto.
Qed.

Lemma notify_fields inst added d :
  conversations (notify inst added d) = conversations d ∧ entries (notify inst added d) = entries d
  ∧ full (notify inst added d) = full d ∧ capBytes (notify inst added d) = capBytes d
  ∧ listeners (notify inst added d) = listeners d.
Proof. unfold notify. by case_bool_decide. Qed.

Lemma updateConv_ids inst f l : (∀ r, instance_id (f r) = instance_id r) → instance_id <$> updateConv inst f l = instance_id <$> l.
Proof.
  intros Hf. unfold updateConv. rewrite <- list_fmap_compose. apply list_fmap_ext. intros _ r _. cbn. by case_bool_decide.
Qed.

(** The rows after a batch: the conversation's own, and the others' as they were. *)
Lemma updateConv_elem inst f l c :
  c ∈ updateConv inst f l → ∃ c0, c0 ∈ l ∧ (instance_id c0 = inst ∧ c = f c0 ∨ instance_id c0 ≠ inst ∧ c = c0).
Proof. intros (c0 & -> & Hin)%list_elem_of_fmap. exists c0. split; [done|]. case_bool_decide; auto. Qed.

Lemma elem_updateConv inst f l c0 :
  c0 ∈ l → (if bool_decide (instance_id c0 = inst) then f c0 else c0) ∈ updateConv inst f l.
Proof. intros Hin. apply list_elem_of_fmap. eauto. Qed.

Lemma total_other inst inst' es new :
  Forall (λ r, r_instance r = inst) new → inst' ≠ inst → total inst' (es ++ new) = total inst' es.
Proof.
  intros Hn Hne. rewrite total_app, (total_none inst' new); [lia|]. eapply Forall_impl; [exact Hn|]. cbn. congruence.
Qed.

Lemma kept_append runId inst ag sent now d r d' :
  Inv d → append runId inst ag sent now d = Ok (r, d') → Inv d'.
Proof.
  intros HI Ha. destruct (inv_withRow runId inst ag now d HI) as (H1 & Hin & Hid).
  apply append_cases in Ha as [(_ & _ & ->)|(Hcut & Hsw & b & Hb & _ & ->)]; [done|]. cbv zeta in *.
  set (r0 := theRow runId inst ag now d) in *. set (d1 := withRow runId inst ag now d) in *.
  assert (capBytes d1 = capBytes d) as Ecap by (unfold d1, withRow; by destruct (row inst d)).
  apply appendLoop_grown in Hb as [(new & En & Hn & _) Hu Hcap (x & Ht & Hx0 & Hx1) _]; [|done]. cbn [b_entries b_bytes b_cut] in *.
  match goal with |- Inv (notify _ _ ?d2) => destruct (notify_fields inst (b_added b) d2) as (N1 & N2 & _ & N4 & _) end.
  pose proof H1 as [C1 C2 C3 C4 C5]. destruct (C5 r0 Hin Hsw) as (y & Hy & Hy0 & _). rewrite (Hy0 Hcut) in Hy. rewrite Hid in Hy.
  split; rewrite ?N1, ?N2, ?N4; cbn [conversations entries set_entries set_conversations capBytes].
  - by rewrite updateConv_ids.
  - auto.
  - intros e. rewrite En. intros [He|He]%elem_of_app.
    + destruct (C3 e He) as (c & Hc & Ec & Es). eexists. split; [by apply elem_updateConv|]. by case_bool_decide.
    + rewrite Forall_forall in Hn. specialize (Hn e He). exists (mkConv (instance_id r0) (run_id r0) (c_agent r0) (b_bytes b) (b_cut b) (swept r0) (created_at r0) now).
      split_and!; [|cbn; congruence|done].
      pose proof (elem_updateConv inst (λ r, mkConv (instance_id r) (run_id r) (c_agent r) (b_bytes b) (b_cut b) (swept r) (created_at r) now) _ _ Hin) as HE.
      by rewrite bool_decide_eq_true_2 in HE.
  - intros c (c0 & Hc0 & [[E ->]|[E ->]])%updateConv_elem Hnn; [|by apply C4]. cbn. rewrite Ecap in *. apply Hcap. by apply C4.
  - intros c (c0 & Hc0 & [[E ->]|[E ->]])%updateConv_elem; cbn [instance_id swept bytes cut].
    + intros _. rewrite E. exists x. split_and!; [lia|done|done].
    + intros Hs. destruct (C5 c0 Hc0 Hs) as (z & Hz & Hz0 & Hz1). exists z. rewrite En, (total_other inst) by done. split_and!; [done|done|].
      intros Hc. destruct (Hz1 Hc) as (m & ? & ? & ?). exists m. split_and!; [set_solver|done|done].
Qed.

(** ** Deleting *)

Lemma total_filter inst (Q : EntryRow → Prop) `{∀ r, Decision (Q r)} es :
  (∀ r, r ∈ es → r_instance r = inst → Q r) → total inst (filter Q es) = total inst es.
Proof.
  induction es as [|r es IH]; intros HQ; [done|]. rewrite filter_cons.
  assert (total inst (filter Q es) = total inst es) as E by (apply IH; intros x Hx; apply HQ; by right).
  change (total inst (r :: es)) with ((if bool_decide (r_instance r = inst) then entryBytes r else 0) + total inst es).
  destruct (decide (Q r)) as [Hr|Hr].
  - change (total inst (r :: filter Q es)) with ((if bool_decide (r_instance r = inst) then entryBytes r else 0) + total inst (filter Q es)).
    by rewrite E.
  - rewrite bool_decide_eq_false_2; [by rewrite E|]. intros Hi. apply Hr, HQ; [left|done].
Qed.

Lemma ofRun_spec runId d inst : ofRun runId d inst = true ↔ ∃ c, c ∈ conversations d ∧ run_id c = runId ∧ instance_id c = inst.
Proof.
  unfold ofRun. rewrite existsb_exists. split.
  - intros (c & Hin%list_elem_of_In & H). zbool. eauto.
  - intros (c & Hin & <- & <-). exists c. split; [by apply list_elem_of_In|]. by rewrite !bool_decide_eq_true_2.
Qed.

(** The entries of the other runs' conversations are the ones that stay. *)
Lemma ofRun_other d runId c : Inv d → c ∈ conversations d → run_id c ≠ runId → ofRun runId d (instance_id c) = false.
Proof.
  intros HI Hc Hr. apply not_true_iff_false. rewrite ofRun_spec. intros (c' & Hc' & Hr' & E).
  rewrite (same_conv d c' c) in Hr' by done. done.
Qed.

Lemma uniqueRows_filter (Q : EntryRow → Prop) `{∀ r, Decision (Q r)} es : uniqueRows es → uniqueRows (filter Q es).
Proof. intros [H1 H2]. split; (eapply sublist_NoDup; [eassumption|apply fmap_sublist, sublist_filter]). Qed.

Lemma inv_rows_of_others d runId c :
  Inv d → c ∈ conversations d → run_id c ≠ runId →
  total (instance_id c) (entries (deleteEntriesOf runId d)) = total (instance_id c) (entries d)
  ∧ ∀ m, m ∈ entries d → r_instance m = instance_id c → m ∈ entries (deleteEntriesOf runId d).
Proof.
  intros HI Hc Hr. pose proof (ofRun_other d runId c HI Hc Hr) as Ho. split.
  - apply total_filter. by intros r _ ->.
  - intros m Hm E. apply list_elem_of_filter. by rewrite E.
Qed.

Lemma owner_other d runId r :
  Inv d → r ∈ entries (deleteEntriesOf runId d) →
  ∃ c, c ∈ conversations d ∧ instance_id c = r_instance r ∧ swept c = None ∧ run_id c ≠ runId.
Proof.
  intros [_ _ Ho _ _] [Hf Hin]%list_elem_of_filter. destruct (Ho r Hin) as (c & Hc & E & Hs). exists c. split_and!; try done.
  intros Hr. apply not_true_iff_false in Hf. apply Hf, ofRun_spec. eauto.
Qed.

Lemma inv_deleteRun runId d : Inv d → Inv (deleteRun runId d).
Proof.
  intros HI. pose proof HI as [C1 C2 C3 C4 C5]. unfold deleteRun. cbv zeta.
  split; cbn [conversations entries set_conversations capBytes].
  - eapply sublist_NoDup; [exact C1|]. apply fmap_sublist, sublist_filter.
  - by apply uniqueRows_filter.
  - intros r Hr. destruct (owner_other d runId r HI Hr) as (c & Hc & E & Hs & Hne). exists c. split; [|done]. by apply list_elem_of_filter.
  - intros c [_ Hc]%list_elem_of_filter. by apply C4.
  - intros c [Hne Hc]%list_elem_of_filter Hs. destruct (inv_rows_of_others d runId c HI Hc Hne) as [-> Hm].
    destruct (C5 c Hc Hs) as (x & Hx & Hx0 & Hx1). exists x. split_and!; [done|done|].
    intros Hcut. destruct (Hx1 Hcut) as (m & ? & ? & ?). exists m. auto.
Qed.

Lemma inv_deleteRuns runIds d : Inv d → Inv (deleteRuns runIds d).
Proof. unfold deleteRuns. revert d. induction runIds as [|r rs IH]; intros d HI; simpl; [done|]. by apply IH, inv_deleteRun. Qed.

Lemma sweptConv_ids runId now (l : list ConversationRow) :
  instance_id <$> ((λ c, if bool_decide (run_id c = runId)
                         then mkConv (instance_id c) (run_id c) (c_agent c) 0 (cut c) (Some SWEPT_NO_SPACE) (created_at c) now
                         else c) <$> l) = instance_id <$> l.
Proof. rewrite <- list_fmap_compose. apply list_fmap_ext. intros _ c _. cbn. by case_bool_decide. Qed.

Lemma inv_sweepForSpace runId now d : Inv d → Inv (sweepForSpace runId now d).
Proof.
  intros HI. pose proof HI as [C1 C2 C3 C4 C5]. unfold sweepForSpace. cbv zeta.
  split; cbn [conversations entries set_conversations capBytes].
  - by rewrite sweptConv_ids.
  - by apply uniqueRows_filter.
  - intros r Hr. destruct (owner_other d runId r HI Hr) as (c & Hc & E & Hs & Hne). exists c. split; [|done].
    apply list_elem_of_fmap. exists c. by rewrite bool_decide_eq_false_2.
  - intros c (c0 & -> & Hc)%list_elem_of_fmap Hnn. case_bool_decide; [done|by apply C4].
  - intros c (c0 & -> & Hc)%list_elem_of_fmap. case_bool_decide as Hne; [done|]. intros Hs.
    destruct (inv_rows_of_others d runId c0 HI Hc Hne) as [-> Hm].
    destruct (C5 c0 Hc Hs) as (x & Hx & Hx0 & Hx1). exists x. split_and!; [done|done|].
    intros Hcut. destruct (Hx1 Hcut) as (m & ? & ? & ?). exists m. auto.
Qed.

(** ** The store's states *)

Inductive step (d : Db) : Db → Prop :=
| s_append runId inst ag sent now r d' : append runId inst ag sent now d = Ok (r, d') → step d d'
| s_deleteRuns runIds : step d (deleteRuns runIds d)
| s_sweep runId now : step d (sweepForSpace runId now d)
| s_full v : step d (set_full v d)
| s_follow inst n : step d (follow inst n d)
| s_unfollow inst n : step d (unfollow inst n d).

Lemma kept_new cap : Inv (newDb cap).
Proof. split; cbn; try set_solver; try constructor; constructor. Qed.

Lemma kept_step d d' : Inv d → step d d' → Inv d'.
Proof.
  intros HI []; [by eapply kept_append|by apply inv_deleteRuns|by apply inv_sweepForSpace|..]; destruct HI; by constructor.
Qed.

Lemma append_capBytes runId inst ag sent now d r d' : append runId inst ag sent now d = Ok (r, d') → capBytes d' = capBytes d.
Proof.
  intros Ha. assert (capBytes (withRow runId inst ag now d) = capBytes d) as E by (unfold withRow; by destruct (row inst d)).
  apply append_cases in Ha as [(_ & _ & ->)|(_ & _ & b & _ & _ & ->)]; [done|].
  match goal with |- capBytes (notify _ _ ?d2) = _ => destruct (notify_fields inst (b_added b) d2) as (_ & _ & _ & -> & _) end. done.
Qed.

Lemma step_capBytes d d' : step d d' → capBytes d' = capBytes d.
Proof.
  intros [runId inst ag sent now r d'' Ha|runIds| | | |]; try done; [by eapply append_capBytes|].
  unfold deleteRuns. revert d. induction runIds as [|r rs IH]; intros d; simpl; [done|]. by rewrite IH.
Qed.

Lemma kept_reach cap d : rtc step (newDb cap) d → Inv d ∧ capBytes d = capBytes (newDb cap).
Proof.
  intros Hr. apply (rtc_invariant step (λ d, Inv d ∧ capBytes d = capBytes (newDb cap))) in Hr; [done| |split; [apply kept_new|done]].
  intros x y [HI E] Hs. split; [by eapply kept_step|]. by rewrite (step_capBytes x y).
Qed.

(** The kept conversations are bounded and exact. In every state that
    batches, deletions, sweeps and listeners lead to: no conversation has two
    entries with one seq, or with one id; every entry belongs to a conversation
    that is not swept; the byte count of a conversation is never above the cap;
    and it is the bytes of its entries, less the one marker of a cut. *)
Theorem kept_within_cap (cap : option Z) (d : Db) :
  rtc step (newDb cap) d → 0 <= default CONVERSATION_CAP_BYTES cap →
  NoDup (seqKey <$> entries d) ∧ NoDup (idKey <$> entries d)
  ∧ (∀ r, r ∈ entries d → ∃ c, c ∈ conversations d ∧ instance_id c = r_instance r ∧ swept c = None)
  ∧ ∀ c, c ∈ conversations d →
    bytes c <= default CONVERSATION_CAP_BYTES cap
    ∧ (swept c = None →
       if cut c then ∃ m, m ∈ entries d ∧ r_instance m = instance_id c ∧ total (instance_id c) (entries d) = bytes c + entryBytes m
       else total (instance_id c) (entries d) = bytes c).
Proof.
  intros Hr Hcap. apply kept_reach in Hr as [[C1 [C2 C2'] C3 C4 C5] E]. split_and!; [done|done|done|].
  intros c Hc. change (capBytes (newDb cap)) with (default CONVERSATION_CAP_BYTES cap) in E. rewrite <- E in *.
  split; [by apply C4|].
  intros Hs. destruct (C5 c Hc Hs) as (x & Hx & Hx0 & Hx1). destruct (cut c); [|rewrite Hx0 in Hx by done; lia].
  destruct (Hx1 eq_refl) as (m & Hm & Hi & ->). eauto.
Qed.

(** ** Batches sent again *)

Lemma appendLoop_known inst ag now isFull cap sent b :
  (∀ e, e ∈ sent → hasId inst (Keep.id e) (b_entries b) = true) → appendLoop inst ag now isFull cap sent b = Ok b.
Proof.
  induction sent as [|e sent IH]; intros Hk; [done|]. cbn [appendLoop]. rewrite Hk by left. apply IH. intros x Hx. apply Hk. by right.
Qed.

(** The row of a conversation after its rows were rewritten. *)
Lemma row_updateConv inst f d es added r :
  row inst d = Some r → (∀ r, instance_id (f r) = instance_id r) →
  row inst (notify inst added (set_entries es (set_conversations (updateConv inst f (conversations d)) d))) = Some (f r).
Proof.
  intros Hr Hf. unfold row in *.
  destruct (notify_fields inst added (set_entries es (set_conversations (updateConv inst f (conversations d)) d))) as (-> & _).
  cbn [conversations set_entries set_conversations]. revert Hr. unfold updateConv.
  induction (conversations d) as [|x l IH]; [done|]. rewrite fmap_cons, !filter_cons.
  destruct (decide (instance_id x = inst)) as [E|E].
  - rewrite bool_decide_eq_true_2 by done. rewrite decide_True by (by rewrite Hf). by intros [= ->].
  - rewrite bool_decide_eq_false_2 by done. by rewrite decide_False.
Qed.

Lemma row_withRow runId inst ag now d : row inst (withRow runId inst ag now d) = Some (theRow runId inst ag now d).
Proof.
  unfold withRow, theRow. destruct (row inst d) as [r|] eqn:E; [done|]. unfold row in *. cbn. rewrite filter_app, filter_cons_True by done.
  destruct (filter _ (conversations d)); [done|discriminate].
Qed.

(** A conversation that has a row is not given another. *)
Lemma withRow_found runId inst ag now d r : row inst d = Some r → withRow runId inst ag now d = d ∧ theRow runId inst ag now d = r.
Proof. unfold withRow, theRow. by intros ->. Qed.

Lemma filter_unique {A B} `{EqDecision B} (f : A → B) (k : B) (l : list A) :
  k ∈ f <$> l → NoDup (f <$> l) → ∃ x, filter (λ x, f x = k) l = [x].
Proof.
  induction l as [|x l IH]; [set_solver|]. rewrite !fmap_cons. intros Hk [Hn HN]%NoDup_cons. rewrite filter_cons.
  destruct (decide (f x = k)) as [<-|Hne].
  - exists x. f_equal. apply filter_none, Forall_forall. intros y Hy E. apply Hn. rewrite <- E. by apply list_elem_of_fmap_2.
  - apply IH; [set_solver|done].
Qed.

(** Reading an entry that was printed. *)
Lemma parse_printEntry e :
  Forall Json.unit_ok (id e) → Forall Json.unit_ok (at_ e) → Forall Json.unit_ok (agent e) →
  Forall Json.unit_ok (kind e) → Forall Json.unit_ok (text e) → parseEntry (printEntry e) = Some e.
Proof.
  intros H1 H2 H3 H4 H5. unfold parseEntry, printEntry. rewrite Json.parse_stringify.
  - by destruct e.
  - unfold entryJson. repeat first [assumption | apply Json.js_units | constructor].
Qed.

(** What a batch and its Agent are made of. *)
Definition unitsOk (ag : jstr) (e : SentEntry) : Prop :=
  Forall Json.unit_ok (Keep.id e) ∧ Forall Json.unit_ok (Keep.at_ e) ∧ Forall Json.unit_ok ag
  ∧ Forall Json.unit_ok (Keep.kind e) ∧ Forall Json.unit_ok (Keep.text e).

(** A batch is kept exactly once. After a batch of a conversation that is
    neither swept nor cut by it, every entry of the batch has one row, under its
    id, that reads back as the entry (with the Agent of the ledger); no row from
    before is lost or changed; and the same batch sent again, at any time
    before the next change, keeps nothing, changes no entry and tells no
    listener. After a batch that cuts the conversation, every later batch
    keeps nothing and leaves the store as it is. *)
Theorem batch_kept_once (cap : option Z) (runId inst ag now : jstr) (sent : list SentEntry) (d d' : Db) (r : AppendResult) :
  rtc step (newDb cap) d → (∀ c, row inst d = Some c → swept c = None) → Forall (unitsOk ag) sent →
  append runId inst ag sent now d = Ok (r, d') →
  (∃ new, entries d' = entries d ++ new)
  ∧ (a_cut r = false →
     (∀ e, e ∈ sent → ∃ x, filter (λ x, idKey x = (inst, Keep.id e)) (entries d') = [x])
     ∧ (∀ x, x ∈ entries d' → x ∉ entries d →
        ∃ e, e ∈ sent ∧ r_id x = Keep.id e ∧ parseEntry (r_entry x) = Some (entryOf ag (r_seq x) e))
     ∧ ∀ now', ∃ d'', append runId inst ag sent now' d' = Ok (mkAppend 0 false, d'')
                      ∧ entries d'' = entries d' ∧ heard d'' = heard d')
  ∧ (a_cut r = true → ∀ runId' ag' sent' now', append runId' inst ag' sent' now' d' = Ok (mkAppend 0 true, d')).
Proof.
  intros Hr Hns Hok Ha. pose proof (kept_append runId inst ag sent now d r d' (proj1 (kept_reach cap d Hr)) Ha) as HI'.
  assert (swept (theRow runId inst ag now d) = None) as Hsw
    by (unfold theRow; destruct (row inst d) eqn:E; [by apply Hns|done]).
  pose proof (row_withRow runId inst ag now d) as Hrow.
  assert (entries (withRow runId inst ag now d) = entries d) as Ee by (unfold withRow; by destruct (row inst d)).
  apply append_cases in Ha as [(Hc & -> & ->)|(Hcut & _ & b & Hb & -> & ->)]; cbv zeta in *.
  - rewrite Hsw in Hc. rewrite (bool_decide_eq_false_2 (is_Some None)), orb_false_r in Hc by apply is_Some_None.
    cbn [a_cut]. rewrite Hc. split; [exists []; by rewrite app_nil_r|]. split; [done|]. intros _ runId' ag' sent' now'.
    unfold append. fold (withRow runId' inst ag' now' (withRow runId inst ag now d)) (theRow runId' inst ag' now' (withRow runId inst ag now d)).
    destruct (withRow_found runId' inst ag' now' _ _ Hrow) as [-> ->]. by rewrite Hc.
  - set (d1 := withRow runId inst ag now d) in *. set (r0 := theRow runId inst ag now d) in *.
    apply appendLoop_grown in Hb as [(new & En & Hn & Hcon) _ _ _ Hids]; [|done]. cbn [b_entries b_cut a_cut] in *.
    set (f := λ r, mkConv (instance_id r) (run_id r) (c_agent r) (b_bytes b) (b_cut b) (swept r) (created_at r) now) in *.
    set (d2 := notify inst _ _) in *.
    assert (row inst d2 = Some (f r0)) as Hrow2 by (by apply row_updateConv).
    assert (entries d2 = b_entries b) as Ee2 by (unfold d2; by rewrite (proj1 (proj2 (notify_fields _ _ _)))).
    clearbody d2. rewrite Ee in En.
    split; [exists new; by rewrite Ee2|]. split.
    + intros Hcf. split_and!.
      * intros e He. assert (hasId inst (Keep.id e) (entries d2) = true) as Hid.
        { rewrite Ee2. apply Hids; [done|]. by apply orderBy_elem. }
        apply hasId_spec in Hid. destruct HI' as [_ [_ Hu] _ _ _]. by apply filter_unique.
      * intros x Hx Hnx. rewrite Ee2, En in Hx. apply elem_of_app in Hx as [?|Hx]; [done|].
        destruct (Hcon Hcf x Hx) as (e & He & Hi & ->). apply orderBy_elem in He. exists e. split_and!; [done|done|].
        rewrite Forall_forall in Hok. destruct (Hok e He) as (? & ? & ? & ? & ?). by apply parse_printEntry.
      * intros now'. unfold append.
        fold (withRow runId inst ag now' d2) (theRow runId inst ag now' d2).
        destruct (withRow_found runId inst ag now' _ _ Hrow2) as [-> ->]. cbn [cut swept f bytes].
        rewrite Hcf, Hsw. rewrite (bool_decide_eq_false_2 (is_Some None)) by apply is_Some_None. cbn [orb].
        rewrite appendLoop_known.
        -- rewrite rok_bind. cbv zeta. cbn [b_kept b_cut b_added b_entries]. eexists. split; [done|]. done.
        -- cbn [b_entries]. intros e He. rewrite Ee2. by apply Hids.
    + intros Hct runId' ag' sent' now'. unfold append.
      fold (withRow runId' inst ag' now' d2) (theRow runId' inst ag' now' d2).
      destruct (withRow_found runId' inst ag' now' _ _ Hrow2) as [-> ->]. cbn [cut f]. by rewrite Hct.
Qed.

(** ** The space guard *)

Section Guard.
Variables (usedBytes : Db → spec_float) (isLive : jstr → bool) (others : jstr → Db → Db).
Variables (capacity : spec_float) (now : jstr).

Abbreviation loop := (guardLoop usedBytes isLive others capacity now).
Abbreviation ended := (λ r, isLive r = false).

Lemma guardLoop_sweeps runs used sw d sw' used' d' :
  loop runs used sw d = (sw', used', d') →
  ∃ n, sw' = sw ++ filter ended (take n runs)
       ∧ ((length runs <= n)%nat ∨ SFltb used' (part GUARD_SWEEP_AT capacity) = true).
Proof.
  revert used sw d. induction runs as [|r runs IH]; intros used sw d; simpl.
  - intros [= <- <- <-]. exists 0%nat. rewrite app_nil_r. auto.
  - destruct (SFltb used _) eqn:Eb; [intros [= <- <- <-]; exists 0%nat; rewrite app_nil_r; auto|].
    destruct (isLive r) eqn:El; intros H; apply IH in H as (n & -> & Hn); exists (S n); cbn [take]; rewrite filter_cons.
    + rewrite decide_False by congruence. split; [done|]. destruct Hn; [left; lia|by right].
    + rewrite decide_True by done. rewrite <- (assoc_L (++)). split; [done|]. destruct Hn; [left; lia|by right].
Qed.

(** A conversation: its row and its entries. *)
Definition sameConv (inst : jstr) (d d' : Db) : Prop :=
  row inst d' = row inst d
  ∧ filter (λ r, r_instance r = inst) (entries d') = filter (λ r, r_instance r = inst) (entries d).

Hypothesis others_steps : ∀ r d, rtc step d (others r d).

Lemma sweepForSpace_other inst r d c :
  Inv d → row inst d = Some c → run_id c ≠ r → sameConv inst d (sweepForSpace r now d).
Proof.
  intros HI Hrow Hr. apply row_spec in Hrow as Hc. destruct Hc as [Hc Hi]. pose proof (ofRun_other d r c HI Hc Hr) as Ho. split.
  - unfold row, sweepForSpace in *. cbn [conversations set_conversations deleteEntriesOf set_entries].
    revert Hrow Hr. clear. induction (conversations d) as [|x l IH]; [done|]. rewrite fmap_cons, !filter_cons.
    destruct (decide (instance_id x = inst)) as [E|E].
    + intros [= ->] Hr. rewrite bool_decide_eq_false_2 by done. by rewrite decide_True.
    + intros Hrow Hr. rewrite decide_False; [by apply IH|]. by case_bool_decide.
  - unfold sweepForSpace, deleteEntriesOf. cbn [entries set_conversations set_entries].
    apply StoreProofs.filter_sub. intros x _ ->. by rewrite <- Hi.
Qed.

Lemma guardLoop_spares inst runs used sw d sw' used' d' c :
  Inv d → row inst d = Some c → isLive (run_id c) = true →
  (∀ r d, sameConv inst d (others r d)) → loop runs used sw d = (sw', used', d') → sameConv inst d d'.
Proof.
  intros HI Hrow Hl Hsame. revert used sw d HI Hrow. induction runs as [|r runs IH]; intros used sw d HI Hrow; simpl.
  - by intros [= _ _ <-].
  - destruct (SFltb used _); [by intros [= _ _ <-]|].
    pose proof (Hsame r d) as [S1 S2]. assert (Inv (others r d)) as HI1 by (eapply (rtc_invariant step Inv); [apply kept_step|apply others_steps|done]).
    assert (row inst (others r d) = Some c) as Hrow1 by congruence.
    destruct (isLive r) eqn:El; intros H.
    + apply IH in H as [H1 H2]; [|done|done]. split; congruence.
    + destruct (sweepForSpace_other inst r (others r d) c HI1 Hrow1) as [T1 T2]; [congruence|].
      apply IH in H as [H1 H2]; [|by apply inv_sweepForSpace|congruence]. split; congruence.
Qed.
End Guard.

(** The space guard takes only what it may. Over 80% of the volume it sweeps
    ended runs, the oldest first and none left out between, until the use is
    below 80% or no ended run is left; the conversations of a live run keep
    their row and every entry, whatever other calls do meanwhile to other
    conversations; and the store is full afterwards exactly when the last use
    it measured is above 95%. *)
Theorem guard_sweeps_ended_oldest_first (cap : option Z) usedBytes isLive others (capacity : spec_float) (now : jstr) (d : Db) :
  rtc step (newDb cap) d → (∀ r d, rtc step d (others r d)) → isPositive capacity = true →
  let sw := (guardSpace usedBytes isLive others capacity now d).1 in
  let d' := (guardSpace usedBytes isLive others capacity now d).2 in
  (∃ n used', sw = filter (λ r, isLive r = false) (take n (runsOldestFirst d))
     ∧ full d' = SFltb (part GUARD_FULL_AT capacity) used'
     ∧ ((length (runsOldestFirst d) <= n)%nat ∨ SFltb used' (part GUARD_SWEEP_AT capacity) = true
        ∨ n = 0%nat ∧ SFltb (part GUARD_SWEEP_AT capacity) used' = false))
  ∧ ∀ inst c, row inst d = Some c → isLive (run_id c) = true → (∀ r d, sameConv inst d (others r d)) → sameConv inst d d'.
Proof.
  intros Hr Ho Hp. unfold guardSpace. rewrite Hp. cbn [negb]. apply kept_reach in Hr as [HI _].
  destruct (SFltb (part GUARD_SWEEP_AT capacity) (usedBytes d)) eqn:Ea.
  - destruct (guardLoop _ _ _ _ _ _ _ _ _) as [[sw used'] d1] eqn:El. cbn [fst snd]. split.
    + apply guardLoop_sweeps in El as (n & -> & Hn). exists n, used'. split_and!; [done|done|]. destruct Hn; auto.
    + intros inst c Hrow Hl Hs. eapply guardLoop_spares in El as [H1 H2]; [|done|done|done|done|done]. split; done.
  - cbn [fst snd]. split; [|done]. exists 0%nat, (usedBytes d). split_and!; [done|done|]. auto.
Qed.

(** ** Orphans *)

Definition storeOk (db : Store.Store) : Prop := Forall (λ row, well_formed (Store.run_id row) = true) (Store.machine_snapshots db).

(** The snapshot store keeps the promise. *)
Lemma store_own_id_first r db :
  StoreProofs.uniqueRuns db ∧ storeOk db → well_formed r = true →
  head (Store.findIdsByPrefix r 1 db) = Some r ↔ r ∈ Store.run_id <$> Store.machine_snapshots db.
Proof.
  intros [Hu Hok] Hw. unfold Store.findIdsByPrefix, limitTo. change (1 <? 0) with false. cbv iota.
  set (l := filter _ _). assert (∀ x, x ∈ l ↔ x ∈ Store.run_id <$> Store.machine_snapshots db
    ∧ textLt x r = false ∧ textLt x (r ++ Store.LAST_CHAR) = true) as Hl by (intros x; unfold l; rewrite list_elem_of_filter; tauto).
  assert (∀ x, x ∈ Store.run_id <$> Store.machine_snapshots db → well_formed x = true) as Hwf.
  { intros x (row & -> & Hin)%list_elem_of_fmap. unfold storeOk in Hok. rewrite Forall_forall in Hok. auto. }
  assert (StronglySorted (λ a b, textLt a b = true) (orderBy textLt l)) as HS.
  { apply (orderBy_sorted textLt (λ x, well_formed x = true)).
    - intros a. apply bytesLt_irrefl.
    - intros a b c. apply bytesLt_trans.
    - intros a b. apply textLt_total.
    - apply Forall_forall. intros x [Hx _]%Hl. by apply Hwf.
    - apply NoDup_filter. exact Hu. }
  pose proof (orderBy_elem textLt l) as Hel. change (Z.to_nat 1) with 1%nat.
  destruct (orderBy textLt l) as [|h t] eqn:E; cbn [take head].
  - split; [done|]. intros Hr. assert (r ∈ @nil jstr) as Hx; [|by apply elem_of_nil in Hx].
    apply Hel, Hl. split_and!; [done|apply bytesLt_irrefl|]. apply StoreProofs.range_prefix; [done|done|]. split; [done|].
    intros [k Hk]. apply (f_equal length) in Hk. rewrite !length_app in Hk. cbn in Hk. lia.
  - split.
    + intros [= ->]. apply Hl, Hel. left.
    + intros Hr. f_equal. assert (r ∈ h :: t) as [->|Hin]%elem_of_cons; [|done|].
      * apply Hel, Hl. split_and!; [done|apply bytesLt_irrefl|]. apply StoreProofs.range_prefix; [done|done|]. split; [done|].
        intros [k Hk]. apply (f_equal length) in Hk. rewrite !length_app in Hk. cbn in Hk. lia.
      * inversion HS as [|? ? _ Hh]; subst. rewrite Forall_forall in Hh. specialize (Hh r Hin).
        assert (h ∈ l) as (_ & Hc & _)%Hl by (apply Hel; left). congruence.
Qed.

#[export] Instance store_runIds : RunIds Store.Store := {|
  findIdsByPrefix := Store.findIdsByPrefix;
  hasRun r db := r ∈ Store.run_id <$> Store.machine_snapshots db;
  runs_ok db := StoreProofs.uniqueRuns db ∧ storeOk db;
  own_id_first := store_own_id_first;
|}.

Lemma deleteRuns_convs rs d c : c ∈ conversations (deleteRuns rs d) ↔ c ∈ conversations d ∧ run_id c ∉ rs.
Proof.
  unfold deleteRuns. revert d. induction rs as [|r rs IH]; intros d; simpl; [set_solver|].
  rewrite IH. unfold deleteRun. cbn [conversations set_conversations deleteEntriesOf set_entries]. rewrite list_elem_of_filter. set_solver.
Qed.

Lemma deleteRuns_entries rs d c :
  Inv d → c ∈ conversations d → run_id c ∉ rs →
  filter (λ r, r_instance r = instance_id c) (entries (deleteRuns rs d)) = filter (λ r, r_instance r = instance_id c) (entries d).
Proof.
  unfold deleteRuns. revert d. induction rs as [|r rs IH]; intros d HI Hc Hr; simpl; [done|]. apply not_elem_of_cons in Hr as [Hne Hr].
  rewrite IH; [|by apply inv_deleteRun| |done].
  - unfold deleteRun, deleteEntriesOf. cbn [entries set_conversations set_entries]. apply StoreProofs.filter_sub.
    intros x _ ->. by apply ofRun_other.
  - unfold deleteRun. cbn [conversations set_conversations deleteEntriesOf set_entries]. by apply list_elem_of_filter.
Qed.

(** Against any run store that keeps its promise on prefixes, the orphan
    pass deletes exactly the kept conversations whose run has no row: it names
    those runs, keeps the row and the entries of every other conversation, and
    leaves no orphan. *)
Theorem orphans_are_exact `{RunIds T} (runs : T) (cap : option Z) (d : Db) :
  runs_ok runs → rtc step (newDb cap) d → (∀ c, c ∈ conversations d → well_formed (run_id c) = true) →
  let orphans := (deleteOrphanConversations runs d).1 in
  let d' := (deleteOrphanConversations runs d).2 in
  (∀ r, r ∈ orphans ↔ r ∈ run_id <$> conversations d ∧ ¬ hasRun r runs)
  ∧ (∀ c, c ∈ conversations d → hasRun (run_id c) runs →
       c ∈ conversations d'
       ∧ filter (λ r, r_instance r = instance_id c) (entries d') = filter (λ r, r_instance r = instance_id c) (entries d))
  ∧ ∀ c, c ∈ conversations d' → ¬ ¬ hasRun (run_id c) runs.
Proof.
  intros Hok Hr Hw orphans d'. apply kept_reach in Hr as [HI _].
  assert (∀ r, r ∈ run_id <$> conversations d → head (findIdsByPrefix r 1 runs) = Some r ↔ hasRun r runs) as Hid.
  { intros r (c & -> & Hc)%list_elem_of_fmap. apply own_id_first; auto. }
  assert (∀ r, r ∈ orphans ↔ r ∈ run_id <$> conversations d ∧ ¬ hasRun r runs) as Ho.
  { intros r. unfold orphans, deleteOrphanConversations. cbn [fst]. rewrite list_elem_of_filter. unfold runIds.
    rewrite orderBy_elem, elem_of_remove_dups. pose proof (Hid r). tauto. }
  assert (∀ c, c ∈ conversations d' ↔ c ∈ conversations d ∧ run_id c ∉ orphans) as Hd by (intros c; apply deleteRuns_convs).
  split_and!; [done| |].
  - intros c Hc Hrun. assert (run_id c ∉ orphans) as Hn by (rewrite Ho; tauto). split; [by apply Hd|]. by apply deleteRuns_entries.
  - intros c [Hc Hn]%Hd Hno. apply Hn, Ho. split; [by apply list_elem_of_fmap_2|done].
Qed.

(** ** Witnesses *)

Definition e1 : SentEntry := Keep.mkEntry (js "u1") 1 (js "t1") (js "say") (js "hello").
Definition e2 : SentEntry := Keep.mkEntry (js "u2") 2 (js "t2") (js "say") (js "world").

(** A store that holds two conversations, one of which is cut. *)
Definition sampleCap : option Z := Some 100.

Definition okOr (d : Db) (r : result Fault (AppendResult * Db)) : Db := match r with Ok (_, d') => d' | Throw _ => d end.

Definition k1 : Db := okOr (newDb sampleCap) (append (js "run1") (js "i1") (js "coder") [e1] (js "n1") (newDb sampleCap)).
Definition k2 : Db := okOr k1 (append (js "run1") (js "i1") (js "coder") [e2; e1] (js "n2") k1).

Lemma k1_reach : rtc step (newDb sampleCap) k1.
Proof.
  apply rtc_once. unfold k1. destruct (append _ _ _ _ _ _) as [[r d']|] eqn:E; [by eapply s_append|]. vm_compute in E. done.
Qed.

Lemma k2_reach : rtc step (newDb sampleCap) k2.
Proof.
  eapply rtc_r; [apply k1_reach|]. unfold k2. destruct (append _ _ _ _ _ k1) as [[r d']|] eqn:E; [by eapply s_append|].
  vm_compute in E. done.
Qed.

Lemma kept_within_cap_witness :
  cut <$> conversations k2 = [true]
  ∧ (NoDup (seqKey <$> entries k2) ∧ NoDup (idKey <$> entries k2)
     ∧ (∀ r, r ∈ entries k2 → ∃ c, c ∈ conversations k2 ∧ instance_id c = r_instance r ∧ swept c = None)
     ∧ ∀ c, c ∈ conversations k2 →
       bytes c <= default CONVERSATION_CAP_BYTES sampleCap
       ∧ (swept c = None →
          if cut c then ∃ m, m ∈ entries k2 ∧ r_instance m = instance_id c ∧ total (instance_id c) (entries k2) = bytes c + entryBytes m
          else total (instance_id c) (entries k2) = bytes c)).
Proof. split; [vm_compute; reflexivity|]. apply (kept_within_cap sampleCap k2); [apply k2_reach|vm_compute; discriminate]. Defined.

Lemma batch_kept_once_witness :
  let d := newDb None in
  ∃ r d', append (js "run1") (js "i1") (js "coder") [e2; e1] (js "n1") d = Ok (r, d') ∧ a_cut r = false
  ∧ (∃ new, entries d' = entries d ++ new)
  ∧ (a_cut r = false →
     (∀ e, e ∈ [e2; e1] → ∃ x, filter (λ x, idKey x = (js "i1", Keep.id e)) (entries d') = [x])
     ∧ (∀ x, x ∈ entries d' → x ∉ entries d →
        ∃ e, e ∈ [e2; e1] ∧ r_id x = Keep.id e ∧ parseEntry (r_entry x) = Some (entryOf (js "coder") (r_seq x) e))
     ∧ ∀ now', ∃ d'', append (js "run1") (js "i1") (js "coder") [e2; e1] now' d' = Ok (mkAppend 0 false, d'')
                      ∧ entries d'' = entries d' ∧ heard d'' = heard d')
  ∧ (a_cut r = true → ∀ runId' ag' sent' now', append runId' (js "i1") ag' sent' now' d' = Ok (mkAppend 0 true, d')).
Proof.
  intros d. destruct (append (js "run1") (js "i1") (js "coder") [e2; e1] (js "n1") d) as [[r d']|] eqn:E.
  - exists r, d'. split; [reflexivity|]. split; [vm_compute in E; by injection E as <- _|].
    apply (batch_kept_once None (js "run1") (js "i1") (js "coder") (js "n1") [e2; e1] d d' r); [reflexivity|done| |exact E].
    apply Forall_cons_2; [|apply Forall_cons_2; [|apply Forall_nil_2]]; split_and!; apply Json.js_units.
  - exfalso. vm_compute in E. discriminate.
Defined.

Definition ofZ (n : Z) : spec_float := binary_normalize 53 1024 n 0 false.

(** 100 bytes for each conversation, on a volume of 100. *)
Definition sampleUsed (d : Db) : spec_float := ofZ (100 * Z.of_nat (length (entries d))).

Lemma guard_sweeps_ended_oldest_first_witness :
  let d := k1 in
  let g := guardSpace sampleUsed (λ _, false) (λ _ d, d) (ofZ 100) (js "n3") d in
  g.1 = [js "run1"]
  ∧ ((∃ n used', g.1 = filter (λ r, (λ _ : jstr, false) r = false) (take n (runsOldestFirst d))
       ∧ full g.2 = SFltb (part GUARD_FULL_AT (ofZ 100)) used'
       ∧ ((length (runsOldestFirst d) <= n)%nat ∨ SFltb used' (part GUARD_SWEEP_AT (ofZ 100)) = true
          ∨ n = 0%nat ∧ SFltb (part GUARD_SWEEP_AT (ofZ 100)) used' = false))
     ∧ ∀ inst c, row inst d = Some c → (λ _ : jstr, false) (run_id c) = true →
       (∀ r d, sameConv inst d ((λ (_ : jstr) (d : Db), d) r d)) → sameConv inst d g.2).
Proof.
  intros d g. split; [vm_compute; reflexivity|].
  apply (guard_sweeps_ended_oldest_first sampleCap sampleUsed (λ _, false) (λ (_ : jstr) d, d) (ofZ 100) (js "n3") d).
  - apply k1_reach.
  - intros _ x. constructor.
  - vm_compute. reflexivity.
Defined.

(** The conversations of [run1]; the run store knows another run only. *)
Definition otherRuns : Store.Store :=
  Store.save (js "run12") (Json.JObj []) Store.LIVE (js "n0") (Store.init (js "n0") Store.empty).

Lemma orphans_are_exact_witness :
  let orphans := (deleteOrphanConversations otherRuns k1).1 in
  let d' := (deleteOrphanConversations otherRuns k1).2 in
  orphans = [js "run1"]
  ∧ ((∀ r, r ∈ orphans ↔ r ∈ run_id <$> conversations k1 ∧ ¬ hasRun r otherRuns)
     ∧ (∀ c, c ∈ conversations k1 → hasRun (run_id c) otherRuns →
          c ∈ conversations d'
          ∧ filter (λ r, r_instance r = instance_id c) (entries d') = filter (λ r, r_instance r = instance_id c) (entries k1))
     ∧ ∀ c, c ∈ conversations d' → ¬ ¬ hasRun (run_id c) otherRuns).
Proof.
  intros orphans d'. split; [vm_compute; reflexivity|].
  apply (orphans_are_exact otherRuns sampleCap k1); [|apply k1_reach|].
  - split; [unfold StoreProofs.uniqueRuns|unfold storeOk]; apply (bool_decide_eq_true_1 _); vm_compute; reflexivity.
  - intros c Hc. assert (Forall (λ c, well_formed (run_id c) = true) (conversations k1)) as HF
      by (apply (bool_decide_eq_true_1 _); vm_compute; reflexivity). rewrite Forall_forall in HF. auto.
Defined.

End KeptProofs.
