(* ===== verification/Notices.v ===== *)
(** * The notice ledger (orchestrator/src/notices.ts)

    [Ledger] is the state of a [NoticeLedger]: the pending entries in the order
    raised, the sources and retries ever seen, the members of each Workspace,
    the steering record, and, in memory only, the reservations.  Each method is
    a function on it; the ones that change something answer whether they did.
    An entry of the pending list is changed in place through a reference the
    code found by a search: [alterFirst] changes or removes the first entry
    that the search finds.  [newId] is an argument of the methods that call it,
    and what [Date.parse] gives for text that is no UTC time is a parameter. *)

From Stdlib Require Import Lia ZArith.
From stdpp Require Import base list strings sets gmap relations.
From S2P Require Import Prelude JsString Json JsObject IsoDate.

Open Scope Z_scope.

Module Notices.
Import JsObject.

(** ** Bodies (orchestrator/src/wire.ts) *)

Inductive Scope := workspace | conversation | slot.

#[export] Instance Scope_eq_dec : EqDecision Scope.
Proof. solve_decision. Defined.

(** [answer] is a [PickAnswer], plain data that the ledger never reads. *)
Inductive Notice :=
| MemoryLimit (agent peak limit : option jstr)
| ConversationNew (reason : jstr)
| PickAnswer (pick : jstr) (cut : bool) (answer : option Json.json) (stopped : bool).

Inductive Party := agentParty | gateParty.

Inductive SteeringAuthor :=
| caller (via name : jstr) (onBehalfOf : option jstr)
| machine (from : option (Party * jstr)).

Record SteeringMessage := mkMessage { m_text : jstr; author : SteeringAuthor; m_at : jstr }.

Inductive LedgerBody :=
| ANotice (n : Notice)
| Steering (m : SteeringMessage).

Definition scopeOf (b : LedgerBody) : Scope :=
  match b with
  | ANotice (MemoryLimit _ _ _) => workspace
  | ANotice _ => conversation
  | Steering _ => slot
  end.

Definition isSteering (b : LedgerBody) : bool := match b with Steering _ => true | ANotice _ => false end.

(** ** The JSON text of a body, which tells two bodies apart *)

Definition strProp (k : string) (v : option jstr) : list (jstr * Json.json) :=
  match v with Some s => [(js k, Json.JStr s)] | None => [] end.

Definition noticeJson (n : Notice) : Json.json :=
  match n with
  | MemoryLimit agent peak limit =>
      Json.JObj ([(js "kind", Json.JStr (js "memory-limit")); (js "scope", Json.JStr (js "workspace"))]
                 ++ strProp "agent" agent ++ strProp "peak" peak ++ strProp "limit" limit)
  | ConversationNew reason =>
      Json.JObj [(js "kind", Json.JStr (js "conversation-new")); (js "scope", Json.JStr (js "conversation"));
                 (js "reason", Json.JStr reason)]
  | PickAnswer pick cut answer stopped =>
      Json.JObj ([(js "kind", Json.JStr (js "pick-answer")); (js "scope", Json.JStr (js "conversation"));
                  (js "pick", Json.JStr pick); (js "cut", Json.JBool cut)]
                 ++ match answer with Some a => [(js "answer", a)] | None => [] end
                 ++ if stopped then [(js "stopped", Json.JBool true)] else [])
  end.

Definition partyJson (p : Party * jstr) : Json.json :=
  Json.JObj [(js "party", Json.JStr (match p.1 with agentParty => js "agent" | gateParty => js "gate" end)); (js "id", Json.JStr p.2)].

Definition authorJson (a : SteeringAuthor) : Json.json :=
  match a with
  | caller via name onBehalfOf =>
      Json.JObj ([(js "kind", Json.JStr (js "caller")); (js "via", Json.JStr via); (js "name", Json.JStr name)]
                 ++ strProp "onBehalfOf" onBehalfOf)
  | machine from =>
      Json.JObj ((js "kind", Json.JStr (js "machine")) :: match from with Some p => [(js "from", partyJson p)] | None => [] end)
  end.

Definition bodyText (b : LedgerBody) : jstr :=
  Json.stringify
    match b with
    | ANotice n => noticeJson n
    | Steering m =>
        Json.JObj [(js "kind", Json.JStr (js "steering")); (js "scope", Json.JStr (js "slot"));
                   (js "text", Json.JStr (m_text m)); (js "author", authorJson (author m)); (js "at", Json.JStr (m_at m))]
    end.

(** ** State *)

Inductive SteeringOutcome := held | heard | not_delivered.

#[export] Instance SteeringOutcome_eq_dec : EqDecision SteeringOutcome.
Proof. solve_decision. Defined.

Record SteeringRecord := mkRecord {
  s_id : jstr; s_agent : jstr; s_author : SteeringAuthor; s_text : jstr; s_at : jstr; outcome : SteeringOutcome;
}.

Definition set_outcome v (r : SteeringRecord) : SteeringRecord :=
  mkRecord (s_id r) (s_agent r) (s_author r) (s_text r) (s_at r) v.

Definition STEERING_RECORD_MAX : Z := 100.
Definition AUDIENCE_SKEW_MS : Z := 2000.

(** Where an admission, or a step boundary, may hear notices. *)
Record NoticeScope := mkScope {
  sc_conversation : option jstr; sc_workspace : option jstr; sc_taker : option jstr; sc_slot : option jstr;
  sc_turn : bool; only : option (list jstr); except : option (list jstr); exceptPrefix : option jstr;
}.

Record NoticeRetry := mkRetry { r_slot : jstr; r_cut : option jstr; retried : bool }.

Record PendingNotice := mkPending {
  id : jstr; notice : LedgerBody; to : jstr; source : option jstr;
  audience : option (list jstr); retry : option (list NoticeRetry);
  heardBy : option (list jstr); told_ : option (list jstr);
}.

Definition set_audience v (p : PendingNotice) : PendingNotice :=
  mkPending (id p) (notice p) (to p) (source p) v (retry p) (heardBy p) (told_ p).
Definition set_retry v (p : PendingNotice) : PendingNotice :=
  mkPending (id p) (notice p) (to p) (source p) (audience p) v (heardBy p) (told_ p).
Definition set_heardBy v (p : PendingNotice) : PendingNotice :=
  mkPending (id p) (notice p) (to p) (source p) (audience p) (retry p) v (told_ p).
Definition set_told v (p : PendingNotice) : PendingNotice :=
  mkPending (id p) (notice p) (to p) (source p) (audience p) (retry p) (heardBy p) v.

Record NoticeMember := mkMember { taker : jstr; n_slot : jstr; continued : bool; open : bool; since : jstr }.

Record NoticeLedgerState := mkLedgerState {
  st_pending : list PendingNotice; st_seen : list jstr; st_retriesSeen : option (list jstr);
  st_members : option (obj (list NoticeMember)); st_steering : option (list SteeringRecord);
}.

Record Ledger := mkLedger {
  pending : list PendingNotice; seen : list jstr; retriesSeen : list jstr; members : obj (list NoticeMember);
  reserved : gset jstr; asRetry : gmap jstr jstr; steering : list SteeringRecord;
}.

Definition set_pending v (l : Ledger) : Ledger :=
  mkLedger v (seen l) (retriesSeen l) (members l) (reserved l) (asRetry l) (steering l).
Definition set_seen v (l : Ledger) : Ledger :=
  mkLedger (pending l) v (retriesSeen l) (members l) (reserved l) (asRetry l) (steering l).
Definition set_retriesSeen v (l : Ledger) : Ledger :=
  mkLedger (pending l) (seen l) v (members l) (reserved l) (asRetry l) (steering l).
Definition set_members v (l : Ledger) : Ledger :=
  mkLedger (pending l) (seen l) (retriesSeen l) v (reserved l) (asRetry l) (steering l).
Definition set_reserved v (l : Ledger) : Ledger :=
  mkLedger (pending l) (seen l) (retriesSeen l) (members l) v (asRetry l) (steering l).
Definition set_asRetry v (l : Ledger) : Ledger :=
  mkLedger (pending l) (seen l) (retriesSeen l) (members l) (reserved l) v (steering l).
Definition set_steering v (l : Ledger) : Ledger :=
  mkLedger (pending l) (seen l) (retriesSeen l) (members l) (reserved l) (asRetry l) v.

Record TakenNotices := mkTaken { ids : list jstr; notices : list LedgerBody; raised : list (LedgerBody * option jstr) }.

Record RaiseOptions := mkOptions { o_retry : option NoticeRetry; o_told : option (list jstr); o_at : option jstr }.

(** ** Sets and searches *)

(** [Set.add]: a [Set] keeps the order of the first additions. *)
Definition setAdd (x : jstr) (s : list jstr) : list jstr := if bool_decide (x ∈ s) then s else s ++ [x].

(** [[...new Set(l)]]. *)
Definition uniq (l : list jstr) : list jstr := foldl (λ s x, setAdd x s) [] l.

(** [x ?? []]. *)
Abbreviation orNone := (default []).

(** Change the first element a search finds, or remove it ([None]). *)
Fixpoint alterFirst {A} (found : A → bool) (f : A → option A) (l : list A) : list A :=
  match l with
  | [] => []
  | x :: l' => if found x then match f x with Some y => y :: l' | None => l' end else x :: alterFirst found f l'
  end.

Definition findFirst {A} (found : A → bool) (l : list A) : option A := snd <$> list_find (λ x, found x = true) l.

(** [s.startsWith(p)]. *)
Definition startsWith (p s : jstr) : bool := bool_decide (p `prefix_of` s).

(** [s.lastIndexOf("/")], cut there: [slot.slice(0, Math.max(0, slot.lastIndexOf("/")))]. *)
Definition slotMachine (s : jstr) : jstr :=
  match list_find (λ c, c = 47) (rev s) with
  | Some (n, _) => take (length s - S n) s
  | None => []
  end.

(** ** Steering messages *)

(** Whether a record is the record of this message to this slot. *)
Definition recordOf (r : SteeringRecord) (m : SteeringMessage) (s : jstr) : bool :=
  bool_decide (s_agent r = s) && bool_decide (s_at r = m_at m) && bool_decide (s_text r = m_text m).

(** [#outcome]: the outcome of a message, on its record. *)
Definition setOutcome (m : SteeringMessage) (s : jstr) (o : SteeringOutcome) (rs : list SteeringRecord) : list SteeringRecord :=
  alterFirst (λ r, recordOf r m s) (λ r, Some (set_outcome o r)) rs.

(** [#retired]: a message put back after its Machine ended stays retired. *)
Definition isRetired (m : SteeringMessage) (s : jstr) (rs : list SteeringRecord) : bool :=
  existsb (λ r, bool_decide (outcome r = not_delivered) && recordOf r m s) rs.

(** [#trimRecord]: remove the oldest records that are not held while there are
    [over] too many. *)
Fixpoint trimLoop (over : Z) (rs : list SteeringRecord) : list SteeringRecord :=
  match rs with
  | [] => []
  | r :: rs' =>
      if over <=? 0 then rs
      else if bool_decide (outcome r = held) then r :: trimLoop over rs'
      else trimLoop (over - 1) rs'
  end.

Definition trimRecord (rs : list SteeringRecord) : list SteeringRecord :=
  trimLoop (Z.of_nat (length rs) - STEERING_RECORD_MAX) rs.

Definition steer (newId : jstr) (m : SteeringMessage) (s : jstr) (l : Ledger) : jstr * Ledger :=
  let l := set_pending (pending l ++ [mkPending newId (Steering m) s None None None None None]) l in
  (newId, set_steering (trimRecord (steering l ++ [mkRecord newId s (author m) (m_text m) (m_at m) held])) l).

(** Whether an ended Machine instance takes the slot [s] with it: its own, or
    one of a Machine below it; the run's end takes every slot. *)
Definition endsSlot (mach : option jstr) (s : jstr) : bool :=
  match mach with
  | None => true
  | Some m => bool_decide (slotMachine s = m) || startsWith (m ++ js ".") (slotMachine s)
  end.

(** The loop of [retire], over the pending entries as it found them. *)
Fixpoint retireLoop (mach : option jstr) (ps : list PendingNotice) (l : Ledger) : list PendingNotice * Ledger * bool :=
  match ps with
  | [] => ([], l, false)
  | p :: ps' =>
      match notice p with
      | Steering m =>
          if endsSlot mach (to p) then
            let l := set_reserved (reserved l ∖ {[id p]}) l in
            let l := set_steering (setOutcome m (to p) not_delivered (steering l)) l in
            let '(kept, l, _) := retireLoop mach ps' l in (kept, l, true)
          else let '(kept, l, ch) := retireLoop mach ps' l in (p :: kept, l, ch)
      | ANotice _ => let '(kept, l, ch) := retireLoop mach ps' l in (p :: kept, l, ch)
      end
  end.

Definition retire (mach : option jstr) (l : Ledger) : bool * Ledger :=
  let '(kept, l, changed) := retireLoop mach (pending l) l in (changed, set_pending kept l).

Definition steeringRecord (l : Ledger) : list SteeringRecord := steering l.

(** ** Reservations *)

(** A Workspace notice is reserved for each conversation on its own. *)
Definition reservation (p : PendingNotice) (tk : option jstr) : jstr :=
  if bool_decide (scopeOf (notice p) = workspace) then id p ++ [0] ++ default [] tk else id p.

Definition retryMark (src s : jstr) : jstr := src ++ [0] ++ js "retry" ++ [0] ++ s.

(** Whether any conversation holds a reservation on this notice. *)
Definition reservedByAny (p : PendingNotice) (l : Ledger) : bool :=
  existsb (λ k, bool_decide (k = id p) || startsWith (id p ++ [0]) k) (elements (reserved l)).

(** ** Audiences *)

Section audience.
Variable otherDate : jstr → option Z.

(** Whether a member was admitted before the kill, for all that the clocks
    tell: a time that does not parse is no bound on the kill, and a bound that
    no member meets. *)
Definition wasThere (at_ : option jstr) (m : NoticeMember) : bool :=
  match at_ ≫= IsoDate.dateParse otherDate with
  | None => true
  | Some t =>
      match IsoDate.dateParse otherDate (since m) with
      | Some s => s <=? t + AUDIENCE_SKEW_MS
      | None => false
      end
  end.

Definition audienceOf (ws : jstr) (o : RaiseOptions) (l : Ledger) : list jstr :=
  filter (λ t, t ∉ orNone (o_told o))
    (taker <$> filter (λ m, (open m || continued m) && wasThere (o_at o) m = true) (orNone (objGet ws (members l)))).

End audience.

(** Whether every member, and every retry, has heard the notice. *)
Definition allHeard (p : PendingNotice) : bool :=
  match audience p with
  | Some a => bool_decide (scopeOf (notice p) = workspace) && forallb (λ t, bool_decide (t ∈ orNone (heardBy p))) a
              && negb (existsb (λ r, negb (retried r)) (orNone (retry p)))
  | None => false
  end.

(** [r.retried = true] on each retry that [isIt] picks. *)
Definition markRetried (isIt : NoticeRetry → bool) (p : PendingNotice) : PendingNotice :=
  set_retry (option_map (map (λ r, if isIt r then mkRetry (r_slot r) (r_cut r) true else r)) (retry p)) p.

(** [#retireIfHeard], on the entry itself: [None] is its removal. *)
Definition retireIfHeard (p : PendingNotice) : option PendingNotice := if allHeard p then None else Some p.

(** ** Twins *)

Definition isSame (n : LedgerBody) (t : jstr) (p : PendingNotice) : bool :=
  bool_decide (source p = None) && bool_decide (to p = t) && bool_decide (bodyText (notice p) = bodyText n).

(** [#twin]'s search. *)
Definition isTwin (n : LedgerBody) (t : jstr) (l : Ledger) (p : PendingNotice) : bool :=
  isSame n t p
  && (negb (bool_decide (scopeOf (notice p) = workspace)) || (bool_decide (orNone (heardBy p) = []) && negb (reservedByAny p l))).

Definition awaits (tk : jstr) (p : PendingNotice) : bool :=
  negb (bool_decide (tk ∈ orNone (heardBy p)))
  && match audience p with None => true | Some a => bool_decide (tk ∈ a) end.

(** [#equal]: the position of the entry that [tk] restores. *)
Definition equal (n : LedgerBody) (t tk : jstr) (l : Ledger) : option nat :=
  match list_find (λ p, isSame n t p && awaits tk p = true) (pending l) with
  | Some (i, _) => Some i
  | None =>
      match list_find (λ p, isSame n t p = true) (rev (pending l)) with
      | Some (i, _) => Some (length (pending l) - S i)%nat
      | None => None
      end
  end.

(** ** Raising *)

Definition isSource (src t : jstr) (p : PendingNotice) : bool := bool_decide (source p = Some src) && bool_decide (to p = t).

(** [#addRetry]. *)
Definition addRetry (newId : jstr) (n : Notice) (t src : jstr) (rt : option NoticeRetry) (l : Ledger) : bool * Ledger :=
  match rt with
  | None => (false, l)
  | Some r =>
      if negb (bool_decide (scopeOf (ANotice n) = workspace)) then (false, l)
      else if bool_decide (retryMark src (r_slot r) ∈ retriesSeen l) then (false, l)
      else
        let l := set_retriesSeen (setAdd (retryMark src (r_slot r)) (retriesSeen l)) l in
        match findFirst (isSource src t) (pending l) with
        | Some _ => (true, set_pending (alterFirst (isSource src t) (λ p, Some (set_retry (Some (orNone (retry p) ++ [r])) p)) (pending l)) l)
        | None => (true, set_pending (pending l ++ [mkPending newId (ANotice n) t (Some src) (Some []) (Some [r]) None None]) l)
        end
  end.

(** A later event of the same words joins its twin: its audience and its retry. *)
Definition joinTwin (aud : list jstr) (rt : option NoticeRetry) (p : PendingNotice) : bool * PendingNotice :=
  let a := uniq (orNone (audience p) ++ aud) in
  let p' := set_audience (Some a) p in
  let grown := negb (length a =? length (orNone (audience p)))%nat in
  match rt with
  | Some r =>
      if existsb (λ x, bool_decide (r_slot x = r_slot r)) (orNone (retry p)) then (grown, p')
      else (true, set_retry (Some (orNone (retry p) ++ [r])) p')
  | None => (grown, p')
  end.

Section raise.
Variable otherDate : jstr → option Z.

(** The rest of [raise], once the source is marked. *)
Definition raiseNew (newId : jstr) (n : Notice) (t : jstr) (src : option jstr) (o : RaiseOptions) (changed : bool) (l : Ledger)
  : bool * Ledger :=
  let inWorkspace := bool_decide (scopeOf (ANotice n) = workspace) in
  let aud := if inWorkspace then Some (audienceOf otherDate t o l) else None in
  let pushed :=
    if bool_decide (aud = Some []) && bool_decide (o_retry o = None) then (changed, l)
    else (true, set_pending (pending l ++ [mkPending newId (ANotice n) t src aud ((λ r, [r]) <$> o_retry o) None
                 (if inWorkspace && negb (bool_decide (orNone (o_told o) = [])) then o_told o else None)]) l) in
  match src with
  | Some _ => pushed
  | None =>
      match findFirst (isTwin (ANotice n) t l) (pending l) with
      | None => pushed
      | Some twin =>
          match aud with
          | None => (changed, l)
          | Some a =>
              (changed || (joinTwin a (o_retry o) twin).1,
               set_pending (alterFirst (isTwin (ANotice n) t l) (λ p, Some (joinTwin a (o_retry o) p).2) (pending l)) l)
          end
      end
  end.

Definition raise (newId : jstr) (n : Notice) (t : jstr) (src : option jstr) (older : list jstr) (o : RaiseOptions) (l : Ledger)
  : bool * Ledger :=
  let changed := existsb (λ s, negb (bool_decide (s ∈ seen l))) older in
  let l := set_seen (foldl (λ s x, setAdd x s) (seen l) older) l in
  match src with
  | Some s =>
      if bool_decide (s ∈ seen l) then let '(ch, l) := addRetry newId n t s (o_retry o) l in (ch || changed, l)
      else
        let l := set_seen (setAdd s (seen l)) l in
        let l := match o_retry o with
                 | Some r => set_retriesSeen (setAdd (retryMark s (r_slot r)) (retriesSeen l)) l
                 | None => l
                 end in
        raiseNew newId n t src o true l
  | None => raiseNew newId n t src o changed l
  end.

(** ** Taking *)

(** [#retryFor]: the cut Turn's retry that this take is. *)
Definition retryFor (p : PendingNotice) (sc : NoticeScope) (tk : option jstr) : option NoticeRetry :=
  match tk with
  | Some t =>
      if sc_turn sc && negb (bool_decide (t ∈ orNone (told_ p)))
      then findFirst (λ r, negb (retried r) && bool_decide (Some (r_slot r) = sc_slot sc)) (orNone (retry p))
      else None
  | None => None
  end.

(** [#retryTold]: a Turn of a retried slot in a conversation that was told. *)
Definition retryToldOne (sc : NoticeScope) (t ws : jstr) (p : PendingNotice) : option PendingNotice :=
  if bool_decide (to p = ws) && bool_decide (t ∈ orNone (told_ p)) then
    let isIt r := negb (retried r) && bool_decide (Some (r_slot r) = sc_slot sc) in
    if existsb isIt (orNone (retry p)) then
      retireIfHeard (markRetried isIt p)
    else Some p
  else Some p.

Definition retryTold (sc : NoticeScope) (tk : option jstr) (l : Ledger) : Ledger :=
  match tk, sc_workspace sc with
  | Some t, Some ws => if sc_turn sc then set_pending (omap (retryToldOne sc t ws) (pending l)) l else l
  | _, _ => l
  end.

(** Whether the scope's filters on sources let the notice through. *)
Definition sourceFits (sc : NoticeScope) (p : PendingNotice) : bool :=
  match only sc with None => true | Some ss => match source p with Some s => bool_decide (s ∈ ss) | None => false end end
  && match except sc, source p with Some ss, Some s => negb (bool_decide (s ∈ ss)) | _, _ => true end
  && match exceptPrefix sc, source p with Some pre, Some s => negb (startsWith pre s) | _, _ => true end.

Definition addressed (sc : NoticeScope) (tk : option jstr) (p : PendingNotice) : bool :=
  match scopeOf (notice p) with
  | conversation => bool_decide (Some (to p) = sc_conversation sc)
  | slot => bool_decide (Some (to p) = sc_slot sc)
  | workspace =>
      match tk with
      | Some t =>
          bool_decide (Some (to p) = sc_workspace sc) && negb (bool_decide (t ∈ orNone (heardBy p)))
          && (match audience p with None => true | Some a => bool_decide (t ∈ a) end || bool_decide (is_Some (retryFor p sc tk)))
      | None => false
      end
  end.

Definition eligible (sc : NoticeScope) (tk : option jstr) (l : Ledger) : list PendingNotice :=
  filter (λ p, negb (bool_decide (reservation p tk ∈ reserved l)) && sourceFits sc p && addressed sc tk p = true) (pending l).

Definition takerOf (sc : NoticeScope) : option jstr :=
  match sc_taker sc with Some t => Some t | None => sc_conversation sc end.

Definition reserve (sc : NoticeScope) (tk : option jstr) (l : Ledger) (p : PendingNotice) : Ledger :=
  let key := reservation p tk in
  let l := set_reserved (reserved l ∪ {[key]}) l in
  match retryFor p sc tk with
  | Some r => set_asRetry (<[key := r_slot r]> (asRetry l)) l
  | None => l
  end.

(** Equal notices are said once. *)
Fixpoint sayOnce (said : list jstr) (bs : list LedgerBody) : list LedgerBody :=
  match bs with
  | [] => []
  | b :: bs' => if bool_decide (bodyText b ∈ said) then sayOnce said bs' else b :: sayOnce (bodyText b :: said) bs'
  end.

Definition take (sc : NoticeScope) (l : Ledger) : TakenNotices * Ledger :=
  let tk := takerOf sc in
  let l := retryTold sc tk l in
  let taken := eligible sc tk l in
  (mkTaken (id <$> taken) (sayOnce [] (notice <$> taken)) ((λ p, (notice p, source p)) <$> taken),
   foldl (reserve sc tk) l taken).

Definition peek (sc : NoticeScope) (l : Ledger) : list (jstr * LedgerBody * option jstr) :=
  (λ p, (id p, notice p, source p)) <$> eligible sc (takerOf sc) l.

(** ** Putting back *)

Definition noOptions : RaiseOptions := mkOptions None None None.

Definition restore (newId : jstr) (b : LedgerBody) (t : jstr) (src tk : option jstr) (l : Ledger) : bool * Ledger :=
  match b with
  | Steering m =>
      let same p := bool_decide (to p = t)
                    && match notice p with Steering m' => bool_decide (m_at m' = m_at m) && bool_decide (m_text m' = m_text m) | _ => false end in
      if isRetired m t (steering l) || existsb same (pending l) then (false, l)
      else
        let l := set_pending (pending l ++ [mkPending newId b t None None None None None]) l in
        (true, set_steering (setOutcome m t held (steering l)) l)
  | ANotice n =>
      let inWorkspace := bool_decide (scopeOf b = workspace) in
      let found :=
        match src with
        | None =>
            match inWorkspace, tk with
            | true, Some c => equal b t c l
            | _, _ => fst <$> list_find (λ p, isTwin b t l p = true) (pending l)
            end
        | Some s => fst <$> list_find (λ p, isSource s t p = true) (pending l)
        end in
      match found ≫= λ i, (λ p, (i, p)) <$> (pending l !! i) with
      | Some (i, p) =>
          match bool_decide (scopeOf (notice p) = workspace), tk with
          | true, Some c =>
              let heardBy_ := orNone (heardBy p) in
              let inAudience := match audience p with None => true | Some a => bool_decide (c ∈ a) end in
              if negb (bool_decide (c ∈ heardBy_)) && inAudience then (false, l)
              else
                let p := set_heardBy (Some (filter (λ x, x ≠ c) heardBy_)) p in
                let p := if inAudience then p else set_audience (Some (orNone (audience p) ++ [c])) p in
                (true, set_pending (<[i := p]> (pending l)) l)
          | _, _ => (false, l)
          end
      | None =>
          let l := match src with Some s => set_seen (setAdd s (seen l)) l | None => l end in
          if inWorkspace then
            match tk with
            | None => (false, l)
            | Some c => (true, set_pending (pending l ++ [mkPending newId b t src (Some [c]) None None None]) l)
            end
          else
            match src with
            | None => raise newId n t None [] noOptions l
            | Some _ => (true, set_pending (pending l ++ [mkPending newId b t src None None None None]) l)
            end
      end
  end.

End raise.

(** ** Hearing *)

Definition isId (i : jstr) (p : PendingNotice) : bool := bool_decide (id p = i).

(** The entry of a Workspace notice that [tk] heard. *)
Definition heardThere (tk : option jstr) (asSlot : option jstr) (p : PendingNotice) : option PendingNotice :=
  let p := match asSlot with
           | Some s => markRetried (λ r, bool_decide (r_slot r = s)) p
           | None => p
           end in
  let p := match tk with
           | Some t => if bool_decide (t ∈ orNone (heardBy p)) then p else set_heardBy (Some (orNone (heardBy p) ++ [t])) p
           | None => p
           end in
  retireIfHeard p.

Definition deliverOne (tk : option jstr) (l : Ledger) (i : jstr) : Ledger :=
  match findFirst (isId i) (pending l) with
  | None => set_reserved (reserved l ∖ {[i]}) l
  | Some p =>
      let key := reservation p tk in
      let l := set_reserved (reserved l ∖ {[key]}) l in
      if negb (bool_decide (scopeOf (notice p) = workspace)) then
        let l := set_pending (alterFirst (isId i) (λ _, None) (pending l)) l in
        match notice p with
        | Steering m => set_steering (setOutcome m (to p) heard (steering l)) l
        | ANotice _ => l
        end
      else
        let asSlot := asRetry l !! key in
        let l := match asSlot with Some _ => set_asRetry (delete key (asRetry l)) l | None => l end in
        set_pending (alterFirst (isId i) (heardThere tk asSlot) (pending l)) l
  end.

Definition delivered (is_ : list jstr) (tk : option jstr) (l : Ledger) : Ledger := foldl (deliverOne tk) l is_.

Definition acknowledge (is_ : list jstr) (tk : jstr) (l : Ledger) : Z * Ledger :=
  let mine := filter (λ i, match findFirst (isId i) (pending l) with
                           | Some p => bool_decide (reservation p (Some tk) ∈ reserved l)
                           | None => false
                           end = true) is_ in
  (Z.of_nat (length mine), delivered mine (Some tk) l).

Definition releaseOne (tk : option jstr) (l : Ledger) (i : jstr) : Ledger :=
  let key := match findFirst (isId i) (pending l) with Some p => reservation p tk | None => i end in
  set_asRetry (delete key (asRetry l)) (set_reserved (reserved l ∖ {[key]}) l).

Definition release (is_ : list jstr) (tk : option jstr) (l : Ledger) : Ledger := foldl (releaseOne tk) l is_.

(** ** Members *)

Definition isTaker (t : jstr) (m : NoticeMember) : bool := bool_decide (taker m = t).

(** [member] without its [open]. *)
Definition admitted (ws tk sl : jstr) (cont : bool) (since_ : jstr) (l : Ledger) : bool * Ledger :=
  let ms := orNone (objGet ws (members l)) in
  match findFirst (isTaker tk) ms with
  | Some known =>
      if open known && Bool.eqb (continued known) cont then (false, l)
      else (true, set_members (objSet ws (alterFirst (isTaker tk)
                    (λ m, Some (mkMember (taker m) (n_slot m) cont true (since m))) ms) (members l)) l)
  | None => (true, set_members (objSet ws (ms ++ [mkMember tk sl cont true since_]) (members l)) l)
  end.

(** [#leave]: [tk] leaves each audience in [ws] that it has not heard. *)
Definition leaveOne (tk ws : jstr) (p : PendingNotice) : option PendingNotice :=
  match audience p with
  | Some a =>
      if bool_decide (scopeOf (notice p) = workspace) && bool_decide (to p = ws)
         && negb (bool_decide (tk ∈ orNone (heardBy p))) && bool_decide (tk ∈ a)
      then retireIfHeard (set_audience (Some (filter (λ t, t ≠ tk) a)) p)
      else Some p
  | None => Some p
  end.

Definition leave (tk ws : jstr) (ps : list PendingNotice) : list PendingNotice := omap (leaveOne tk ws) ps.

(** The Turn of one conversation ended: on the members' list and the pending
    entries. *)
Definition endOne (ws : jstr) (acc : bool * list NoticeMember * list PendingNotice) (tk : jstr)
  : bool * list NoticeMember * list PendingNotice :=
  let '(changed, ms, ps) := acc in
  match findFirst (isTaker tk) ms with
  | None => acc
  | Some m =>
      if continued m then
        (true, alterFirst (isTaker tk) (λ m, Some (mkMember (taker m) (n_slot m) (continued m) false (since m))) ms, ps)
      else (true, alterFirst (isTaker tk) (λ _, None) ms, leave tk ws ps)
  end.

(** The member list back in the map; an empty one leaves it. *)
Definition putMembers (ws : jstr) (ms : list NoticeMember) (o : obj (list NoticeMember)) : obj (list NoticeMember) :=
  if bool_decide (length ms = 0%nat) then objDel ws o else objSet ws ms o.

Definition ended (ws : jstr) (takers : list jstr) (l : Ledger) : bool * Ledger :=
  let '(changed, ms, ps) := foldl (endOne ws) (false, orNone (objGet ws (members l)), pending l) takers in
  (changed, set_pending ps (set_members (putMembers ws ms (members l)) l)).

Definition forgetOne (tk : jstr) (acc : bool * Ledger) (e : jstr * list NoticeMember) : bool * Ledger :=
  let '(changed, l) := acc in
  match findFirst (isTaker tk) e.2 with
  | None => acc
  | Some _ =>
      let ms := alterFirst (isTaker tk) (λ _, None) e.2 in
      (true, set_pending (leave tk e.1 (pending l)) (set_members (putMembers e.1 ms (members l)) l))
  end.

Definition forget (tk : jstr) (l : Ledger) : bool * Ledger := foldl (forgetOne tk) (false, l) (members l).

(** ** Told by a [bash] answer *)

Definition isOf (src : jstr) (p : PendingNotice) : bool := bool_decide (source p = Some src).

Definition toldThem (takers : list jstr) (a : list jstr) (p : PendingNotice) : PendingNotice :=
  set_audience (Some (filter (λ t, t ∉ takers ∨ t ∈ orNone (heardBy p)) a)) (set_told (Some (uniq (orNone (told_ p) ++ takers))) p).

Definition told (src : jstr) (takers : list jstr) (l : Ledger) : bool * Ledger :=
  if bool_decide (takers = []) then (false, l)
  else
    match findFirst (isOf src) (pending l) with
    | Some p =>
        match audience p with
        | Some a =>
            let p' := toldThem takers a p in
            if (length (orNone (audience p')) =? length a)%nat && (length (orNone (told_ p')) =? length (orNone (told_ p)))%nat
            then (false, set_pending (alterFirst (isOf src) (λ _, Some p') (pending l)) l)
            else (true, set_pending (alterFirst (isOf src) (λ _, retireIfHeard p') (pending l)) l)
        | None => (false, l)
        end
    | None => (false, l)
    end.

(** ** The persisted form *)

Definition state (l : Ledger) : NoticeLedgerState :=
  mkLedgerState (pending l) (seen l)
    (if bool_decide (retriesSeen l = []) then None else Some (retriesSeen l))
    (if bool_decide (length (members l) = 0%nat) then None
     else Some ((λ k, (k, orNone (objGet k (members l)))) <$> objectKeys (members l).*1))
    (if bool_decide (length (steering l) = 0%nat) then None else Some (steering l)).

(** The constructor. *)
Definition newLedger (st : option NoticeLedgerState) : Ledger :=
  match st with
  | None => mkLedger [] [] [] [] ∅ ∅ []
  | Some s =>
      mkLedger (st_pending s) (uniq (st_seen s)) (uniq (orNone (st_retriesSeen s)))
        (foldl (λ o e, objSet e.1 e.2 o) [] (orNone (st_members s))) ∅ ∅ (orNone (st_steering s))
  end.

End Notices.
