(* ===== verification/NoticesProofs.v ===== *)
(** * The notice ledger: what is promised to a conversation

    [Op] is one call of a ledger method and [apply] its effect.  Every call is
    a sequence of small steps ([mstep]), each with a label that says which
    entry it changed and how; the theorems are inductions over those steps. *)

From Stdlib Require Import Lia ZArith.
From stdpp Require Import base list strings sets gmap relations.
From S2P Require Import Prelude JsString Json JsObject IsoDate Notices.

Open Scope Z_scope.

Module NoticesProofs.
Import JsObject Notices.

Section ledger.
Context (otherDate : jstr → option Z).

(** ** Calls *)

Inductive Op :=
| OSteer (newId : jstr) (m : SteeringMessage) (s : jstr)
| ORetire (mach : option jstr)
| ORaise (newId : jstr) (n : Notice) (t : jstr) (src : option jstr) (older : list jstr) (o : RaiseOptions)
| OTake (sc : NoticeScope)
| ORestore (newId : jstr) (b : LedgerBody) (t : jstr) (src tk : option jstr)
| ODeliver (is_ : list jstr) (tk : option jstr)
| OAck (is_ : list jstr) (tk : jstr)
| ORelease (is_ : list jstr) (tk : option jstr)
| OAdmitted (ws tk sl : jstr) (cont : bool) (since_ : jstr)
| OEnded (ws : jstr) (takers : list jstr)
| OForget (tk : jstr)
| OTold (src : jstr) (takers : list jstr)
| ORestart.

Definition apply (op : Op) (l : Ledger) : Ledger :=
  match op with
  | OSteer i m s => (steer i m s l).2
  | ORetire mach => (retire mach l).2
  | ORaise i n t src older o => (raise otherDate i n t src older o l).2
  | OTake sc => (take sc l).2
  | ORestore i b t src tk => (restore otherDate i b t src tk l).2
  | ODeliver is_ tk => delivered is_ tk l
  | OAck is_ tk => (acknowledge is_ tk l).2
  | ORelease is_ tk => release is_ tk l
  | OAdmitted ws tk sl cont s => (admitted ws tk sl cont s l).2
  | OEnded ws tks => (ended ws tks l).2
  | OForget tk => (forget tk l).2
  | OTold src tks => (told src tks l).2
  | ORestart => newLedger (Some (state l))
  end.

(** The id [newId] gave for a call, and the message key that a call sends. *)
Definition mint (op : Op) : list jstr :=
  match op with OSteer i _ _ | ORaise i _ _ _ _ _ | ORestore i _ _ _ _ => [i] | _ => [] end.

Definition mkey (m : SteeringMessage) (s : jstr) : jstr * jstr * jstr := (s, m_at m, m_text m).

Definition sends (op : Op) : list (jstr * jstr * jstr) := match op with OSteer _ m s => [mkey m s] | _ => [] end.

(** What the callers keep to: [newId] gives an id it never gave, without a NUL;
    ids passed back have none either; a raise names a retry that no Turn took. *)
Definition idOk (i : jstr) : Prop := 0 ∉ i.

Definition opOk (used : list jstr) (op : Op) : Prop :=
  Forall (λ i, idOk i ∧ i ∉ used) (mint op)
  ∧ match op with
    | ODeliver is_ _ | OAck is_ _ | ORelease is_ _ => Forall idOk is_
    | ORaise _ _ _ _ _ o => ∀ r, o_retry o = Some r → retried r = false
    | _ => True
    end.

(** A run of calls, each of which keeps to the rules and to [Q]. *)
Record Used := mkUsed { u_ids : list jstr; u_keys : list (jstr * jstr * jstr) }.

Definition use (op : Op) (u : Used) : Used := mkUsed (mint op ++ u_ids u) (sends op ++ u_keys u).

Inductive path (Q : Used → Op → Prop) : Used → Ledger → Used → Ledger → Prop :=
| path_nil u l : path Q u l u l
| path_snoc u l u' l' op : path Q u l u' l' → opOk (u_ids u') op → Q u' op → path Q u l (use op u') (apply op l').

Definition anyOp : Used → Op → Prop := λ _ _, True.

Definition reach (u : Used) (l : Ledger) : Prop := path anyOp (mkUsed [] []) (newLedger None) u l.

(** ** Small steps *)

(** What a change of one entry means to the conversations. *)
Inductive Eff := Hear (tk : option jstr) | Unhear (c : jstr) | Leave (tk ws : jstr) | Tell (takers : list jstr) | Other.

Inductive change : Eff → PendingNotice → option PendingNotice → Prop :=
| ch_retry p r : retried r = false → change Other p (Some (set_retry (Some (orNone (retry p) ++ [r])) p))
| ch_widen p a : change Other p (Some (set_audience (Some (uniq (orNone (audience p) ++ a))) p))
| ch_join p a r : retried r = false →
    change Other p (Some (set_retry (Some (orNone (retry p) ++ [r])) (set_audience (Some (uniq (orNone (audience p) ++ a))) p)))
| ch_mark p f : change Other p (retireIfHeard (markRetried f p))
| ch_hear p tk s : scopeOf (notice p) = workspace → change (Hear tk) p (heardThere tk s p)
| ch_unhear p c : scopeOf (notice p) = workspace →
    change (Unhear c) p (Some (set_audience (if bool_decide (c ∈ orNone (audience p)) then audience p
                                             else match audience p with None => None | Some a => Some (a ++ [c]) end)
                                 (set_heardBy (Some (filter (λ x, x ≠ c) (orNone (heardBy p)))) p)))
| ch_leave p tk ws : change (Leave tk ws) p (leaveOne tk ws p)
| ch_told p tks a : audience p = Some a → change (Tell tks) p (retireIfHeard (toldThem tks a p))
| ch_told_same p tks a : audience p = Some a → filter (λ t, t ∉ tks ∨ t ∈ orNone (heardBy p)) a = a →
    change (Tell tks) p (Some (toldThem tks a p)).

(** Replace or remove the entry at a position. *)
Definition put (i : nat) (o : option PendingNotice) (ps : list PendingNotice) : list PendingNotice :=
  match o with Some p => <[i := p]> ps | None => delete i ps end.

Inductive Label :=
| LChange (p : PendingNotice) (e : Eff)
| LGone (p : PendingNotice)
| LMessageGone (p : PendingNotice)
| LPush (p : PendingNotice)
| LMessage (i : jstr)
| LReserve (k : jstr)
| LDone (k : jstr)
| LFree (k : jstr)
| LMark
| LRestart.

(** A new entry: a Workspace notice that somebody is to hear. *)
Definition pushOk (p : PendingNotice) : Prop :=
  isSteering (notice p) = false ∧ (scopeOf (notice p) = workspace → is_Some (audience p) ∧ allHeard p = false).

(** The keys of the pending messages, and the record. *)
Definition pendingKeys (ps : list PendingNotice) : list (jstr * jstr * jstr) :=
  omap (λ p, match notice p with Steering m => Some (mkey m (to p)) | ANotice _ => None end) ps.

(** An id that no entry has. *)
Definition fresh (i : jstr) (l : Ledger) : Prop := idOk i ∧ i ∉ id <$> pending l.

Inductive mstep : Label → Ledger → Ledger → Prop :=
| ms_change l n p e o : pending l !! n = Some p → change e p o → mstep (LChange p e) l (set_pending (put n o (pending l)) l)
| ms_gone l n p : pending l !! n = Some p → isSteering (notice p) = false → scopeOf (notice p) ≠ workspace →
    mstep (LGone p) l (set_pending (delete n (pending l)) l)
| ms_message_gone l n p m o : pending l !! n = Some p → notice p = Steering m → o ≠ held →
    mstep (LMessageGone p) l (set_steering (setOutcome m (to p) o (steering l)) (set_pending (delete n (pending l)) l))
| ms_push l p : pushOk p → fresh (id p) l → mstep (LPush p) l (set_pending (pending l ++ [p]) l)
| ms_message l i m s : fresh i l → mstep (LMessage i) l (steer i m s l).2
| ms_back l i m s : fresh i l → isRetired m s (steering l) = false → mkey m s ∉ pendingKeys (pending l) →
    mstep (LMessage i) l (set_steering (setOutcome m s held (steering l))
                            (set_pending (pending l ++ [mkPending i (Steering m) s None None None None None]) l))
| ms_reserve l k : (∃ p tk, p ∈ pending l ∧ k = reservation p tk) → mstep (LReserve k) l (set_reserved (reserved l ∪ {[k]}) l)
| ms_done l k :
    (∀ p t, p ∈ pending l → t ≠ [] → reservation p (Some t) = k →
       scopeOf (notice p) = workspace ∧ t ∈ orNone (heardBy p)) →
    mstep (LDone k) l (set_reserved (reserved l ∖ {[k]}) l)
| ms_free l k : mstep (LFree k) l (set_reserved (reserved l ∖ {[k]}) l)
| ms_mark l sn rs ms ar : seen l ⊆ sn → retriesSeen l ⊆ rs →
    mstep LMark l (mkLedger (pending l) sn rs ms (reserved l) ar (steering l))
| ms_restart l sn rs ms ar : seen l ⊆ sn → retriesSeen l ⊆ rs →
    mstep LRestart l (mkLedger (pending l) sn rs ms ∅ ar (steering l)).

Inductive msteps (ok : Label → Prop) : Ledger → Ledger → Prop :=
| mss_nil l : msteps ok l l
| mss_cons l l' l'' lb : mstep lb l l' → ok lb → msteps ok l' l'' → msteps ok l l''.

Lemma msteps_trans (ok : Label → Prop) l l' l'' : msteps ok l l' → msteps ok l' l'' → msteps ok l l''.
Proof. induction 1; [done|]. intros. eapply mss_cons; eauto. Qed.

Lemma msteps_one (ok : Label → Prop) l l' lb : mstep lb l l' → ok lb → msteps ok l l'.
Proof. intros. eapply mss_cons; [done..|constructor]. Qed.

Lemma msteps_mono (ok ok' : Label → Prop) l l' : (∀ lb, ok lb → ok' lb) → msteps ok l l' → msteps ok' l l'.
Proof. intros Hm. induction 1; [constructor|]. eapply mss_cons; eauto. Qed.

(** Which steps a call may take. *)
Definition okFor (op : Op) (lb : Label) : Prop :=
  match lb with
  | LPush p => id p ∈ mint op
  | LMessage i => ∃ m s, op = OSteer i m s ∨ ∃ src tk, op = ORestore i (Steering m) s src tk
  | LReserve k => ∃ sc p, op = OTake sc ∧ k = reservation p (takerOf sc) ∧ idOk (id p)
  | LFree k => ∃ is_ tk i, op = ORelease is_ tk ∧ i ∈ is_ ∧ (k = i ∨ ∃ t, k = i ++ [0] ++ t)
  | LChange p (Hear tk) =>
      ∃ is_, id p ∈ is_ ∧ (op = ODeliver is_ tk ∨ ∃ t, tk = Some t ∧ op = OAck is_ t)
  | LChange p (Unhear c) => ∃ i b t src, op = ORestore i b t src (Some c)
  | LChange p (Leave tk ws) => op = OForget tk ∨ ∃ tks, op = OEnded ws tks ∧ tk ∈ tks
  | LChange p (Tell tks) => ∃ src, op = OTold src tks ∧ source p = Some src
  | LRestart => op = ORestart
  | _ => True
  end.

(** ** Searches *)

Lemma findFirst_put {A} (f : A → bool) (l : list A) (p : A) :
  findFirst f l = Some p → ∃ n, l !! n = Some p ∧ f p = true
    ∧ ∀ g : A → option A, alterFirst f g l = match g p with Some q => <[n := q]> l | None => delete n l end.
Proof.
  unfold findFirst. intros ([n p'] & E & E')%fmap_Some. simpl in E'. subst p'.
  apply list_find_Some in E as (E1 & E2 & E3). exists n. split_and!; [done..|].
  revert n E1 E3. induction l as [|x l IH]; intros [|n] E1 E3 g; try done; simpl in *.
  - injection E1 as ->. by rewrite E2.
  - assert (f x = false) as -> by (apply not_true_is_false, (E3 0%nat); [done|lia]).
    rewrite (IH n); [by destruct (g p)|done|]. intros j y Hj Hy. apply (E3 (S j)); [done|lia].
Qed.

Lemma findFirst_none {A} (f : A → bool) (l : list A) : findFirst f l = None ↔ ∀ x, x ∈ l → f x = false.
Proof.
  unfold findFirst. rewrite fmap_None, list_find_None, Forall_forall. split; intros H x Hx; specialize (H x Hx); by destruct (f x).
Qed.

Lemma findFirst_some {A} (f : A → bool) (l : list A) p : findFirst f l = Some p → p ∈ l ∧ f p = true.
Proof. intros (n & H & ? & _)%findFirst_put. split; [by eapply list_elem_of_lookup_2|done]. Qed.

Lemma alterFirst_none {A} (f : A → bool) g (l : list A) : findFirst f l = None → alterFirst f g l = l.
Proof.
  rewrite findFirst_none. induction l as [|x l IH]; intros H; [done|]. simpl. rewrite H by left. by rewrite IH by (intros; apply H; by right).
Qed.

Lemma setAdd_elem x y s : x ∈ setAdd y s ↔ x = y ∨ x ∈ s.
Proof. unfold setAdd. case_bool_decide; [|rewrite elem_of_app, list_elem_of_singleton]; naive_solver. Qed.

Lemma setAdds_elem x ys s : x ∈ foldl (λ s x, setAdd x s) s ys ↔ x ∈ ys ∨ x ∈ s.
Proof. revert s. induction ys as [|y ys IH]; intros s; simpl; [set_solver|]. rewrite IH, setAdd_elem. set_solver. Qed.

Lemma uniq_elem x l : x ∈ uniq l ↔ x ∈ l.
Proof. unfold uniq. rewrite setAdds_elem. set_solver. Qed.

(** ** Calls are small steps *)

Lemma ledger_eta l : mkLedger (pending l) (seen l) (retriesSeen l) (members l) (reserved l) (asRetry l) (steering l) = l.
Proof. by destruct l. Qed.

Lemma msteps_mark (ok : Label → Prop) l l' :
  ok LMark → pending l' = pending l → reserved l' = reserved l → steering l' = steering l → seen l ⊆ seen l' →
  retriesSeen l ⊆ retriesSeen l' → msteps ok l l'.
Proof.
  intros. apply (msteps_one ok l l' LMark); [|done]. rewrite <- (ledger_eta l'). rewrite H0, H1, H2. by constructor.
Qed.

(** One search that ends in a change of the entry it found. *)
Lemma msteps_alter (ok : Label → Prop) (f : PendingNotice → bool) (g : PendingNotice → option PendingNotice) l e :
  (∀ p, p ∈ pending l → f p = true → change e p (g p) ∧ ok (LChange p e)) →
  msteps ok l (set_pending (alterFirst f g (pending l)) l).
Proof.
  intros H. destruct (findFirst f (pending l)) as [p|] eqn:E.
  - apply findFirst_put in E as (n & E1 & E2 & E3). destruct (H p) as [H1 H2]; [by eapply list_elem_of_lookup_2|done|].
    rewrite E3. by apply (msteps_one ok _ _ (LChange p e)); [apply (ms_change l n p e (g p))|].
  - rewrite alterFirst_none by done. destruct l. constructor.
Qed.

Lemma omap_prefix (f : PendingNotice → option PendingNotice) (pre post : list PendingNotice) (ok : Label → Prop) l :
  (∀ p, p ∈ post → f p = Some p ∨ ∃ e, change e p (f p) ∧ ok (LChange p e)) →
  msteps ok (set_pending (pre ++ post) l) (set_pending (pre ++ omap f post) l).
Proof.
  revert pre. induction post as [|p post IH]; intros pre H; [constructor|].
  assert (msteps ok (set_pending (pre ++ p :: post) l)
            (set_pending (pre ++ match f p with Some q => q :: post | None => post end) l)) as Hs.
  { destruct (H p) as [->|(e & H1 & H2)]; [by left|constructor|].
    apply (msteps_one _ _ _ (LChange p e)); [|done].
    assert (pre ++ match f p with Some q => q :: post | None => post end = put (length pre) (f p) (pre ++ p :: post)) as ->.
    { destruct (f p) as [q|]; simpl; [by rewrite insert_app_r_alt, Nat.sub_diag by lia|].
      by rewrite delete_middle. }
    apply (ms_change (set_pending (pre ++ p :: post) l)); [|done]. cbn [pending set_pending]. by apply list_lookup_middle. }
  eapply msteps_trans; [exact Hs|]. cbn [omap list_omap]. destruct (f p) as [q|].
  - rewrite !(cons_middle q), !app_assoc. apply IH. intros. apply H. by right.
  - apply IH. intros. apply H. by right.
Qed.

Lemma msteps_omap (ok : Label → Prop) (f : PendingNotice → option PendingNotice) l :
  (∀ p, p ∈ pending l → f p = Some p ∨ ∃ e, change e p (f p) ∧ ok (LChange p e)) →
  msteps ok l (set_pending (omap f (pending l)) l).
Proof. intros H. pose proof (omap_prefix f [] (pending l) ok l H) as H'. by destruct l. Qed.

(** ** Ids *)

Lemma retire_some p q : retireIfHeard p = Some q → q = p ∧ allHeard p = false.
Proof. unfold retireIfHeard. destruct (allHeard p); naive_solver. Qed.

Lemma heardThere_some tk s p q :
  heardThere tk s p = Some q →
  allHeard q = false ∧ id q = id p ∧ notice q = notice p ∧ to q = to p ∧ source q = source p ∧ audience q = audience p
  ∧ (∀ t, t ∈ orNone (heardBy q) ↔ t ∈ orNone (heardBy p) ∨ tk = Some t).
Proof.
  unfold heardThere. intros [-> Ha]%retire_some. split; [done|]. clear Ha.
  destruct s as [s|], tk as [t|]; simpl; repeat case_bool_decide; simpl; split_and!; try done; intros x;
    rewrite ?elem_of_app, ?list_elem_of_singleton; naive_solver.
Qed.

Lemma leaveOne_some tk ws p q :
  leaveOne tk ws p = Some q →
  q = p ∨ allHeard q = false ∧ to p = ws ∧ ∃ a, audience p = Some a ∧ q = set_audience (Some (filter (λ t, t ≠ tk) a)) p.
Proof.
  unfold leaveOne. destruct (audience p) as [a|]; [|naive_solver]. destruct (_ && _) eqn:E; [|naive_solver].
  intros [-> ?]%retire_some. zbool. right. eauto.
Qed.

Definition sameEntry (p q : PendingNotice) : Prop := id q = id p ∧ notice q = notice p ∧ to q = to p ∧ source q = source p.

Lemma change_same e p q : change e p (Some q) → sameEntry p q.
Proof.
  unfold sameEntry. intros Hc. remember (Some q) as o eqn:E. destruct Hc; try (injection E as <-; done).
  - apply retire_some in E as [-> _]. done.
  - apply heardThere_some in E as (_ & ? & ? & ? & ? & _). done.
  - apply leaveOne_some in E as [->|(_ & _ & a & _ & ->)]; done.
  - apply retire_some in E as [-> _]. done.
Qed.

Lemma retire_none p : retireIfHeard p = None → scopeOf (notice p) = workspace.
Proof. unfold retireIfHeard, allHeard. destruct (audience p); [|done]. destruct (_ && _) eqn:E; [|done]. by zbool. Qed.

Lemma change_gone e p : change e p None → scopeOf (notice p) = workspace.
Proof.
  intros Hc. remember None as o eqn:E. destruct Hc; try done.
  - by apply retire_none in E.
  - unfold leaveOne in E. destruct (audience p); [|done]. destruct (_ && _); [|done]. by apply retire_none in E.
  - by apply retire_none in E.
Qed.

Definition idsOk (l : Ledger) : Prop := NoDup (id <$> pending l) ∧ Forall (λ p, idOk (id p)) (pending l).

(** The ids a step adds. *)
Definition adds (lb : Label) : list jstr := match lb with LPush p => [id p] | LMessage i => [i] | _ => [] end.

Lemma put_ids n p e o (ps : list PendingNotice) :
  ps !! n = Some p → change e p o → (id <$> put n o ps) `sublist_of` (id <$> ps).
Proof.
  intros Hn Hc. destruct o as [q|]; simpl.
  - apply change_same in Hc as (Hi & _). rewrite list_fmap_insert. rewrite list_insert_id; [done|].
    by rewrite list_lookup_fmap, Hn, Hi.
  - apply fmap_sublist, sublist_delete.
Qed.

Lemma mstep_ids lb l l' : mstep lb l l' → (id <$> pending l') `sublist_of` (id <$> pending l) ++ adds lb.
Proof.
  destruct 1; cbn [pending set_pending set_steering set_reserved steer snd adds]; rewrite ?app_nil_r, ?fmap_app; try done.
  - by eapply put_ids.
  - apply fmap_sublist, sublist_delete.
  - apply fmap_sublist, sublist_delete.
Qed.

Lemma adds_fresh lb l l' : mstep lb l l' → ∀ i, i ∈ adds lb → fresh i l.
Proof. destruct 1; simpl; intros j; rewrite ?list_elem_of_singleton; try (intros ->; done); intros H'; by apply elem_of_nil in H'. Qed.

Lemma mstep_idsOk lb l l' :
  mstep lb l l' → idsOk l → idsOk l'.
Proof.
  intros Hm [HN HF]. pose proof (adds_fresh _ _ _ Hm) as Ha. pose proof (mstep_ids _ _ _ Hm) as Hs. unfold idsOk.
  assert (Forall idOk (id <$> pending l')) as HF'.
  { apply Forall_forall. intros i Hi. pose proof (elem_of_sublist _ _ _ Hi Hs) as Hi2. clear Hi. rename Hi2 into Hi.
    rewrite Forall_forall in HF. apply elem_of_app in Hi as [(p & -> & Hp)%list_elem_of_fmap|Hi]; [auto|by apply Ha]. }
  split; [|rewrite Forall_fmap in HF'; exact HF'].
  eapply sublist_NoDup; [|exact Hs]. apply NoDup_app. split_and!; [done| |].
  - intros x Hx Hx'. by apply (Ha x).
  - destruct lb; simpl; repeat constructor; set_solver.
Qed.

Lemma idsOk_inj l p q : idsOk l → p ∈ pending l → q ∈ pending l → id p = id q → p = q.
Proof.
  intros [HN _] Hp Hq E. apply list_elem_of_lookup in Hp as [i Hp], Hq as [j Hq].
  assert (i = j) as ->; [|naive_solver]. eapply NoDup_lookup; [exact HN| |]; rewrite list_lookup_fmap.
  - by rewrite Hp.
  - by rewrite Hq, E.
Qed.

(** The entry of an id that is pending elsewhere in the list is the found one. *)
Lemma idsOk_at l n p q : idsOk l → pending l !! n = Some p → q ∈ delete n (pending l) → id q ≠ id p.
Proof.
  intros [HN _] Hn Hq E. pose proof (take_drop_middle _ _ _ Hn) as Hd. rewrite <- Hd in HN. rewrite fmap_app, fmap_cons in HN.
  rewrite delete_take_drop in Hq. apply NoDup_app in HN as (_ & H1 & [H2 _]%NoDup_cons).
  apply elem_of_app in Hq as [Hq|Hq].
  - apply (H1 (id q)); [by apply list_elem_of_fmap_2|]. rewrite E. left.
  - apply H2. rewrite <- E. by apply list_elem_of_fmap_2.
Qed.

(** ** Keys *)

Lemma key_split i j t s : idOk i → idOk j → i ++ 0 :: t = j ++ 0 :: s → i = j ∧ t = s.
Proof.
  unfold idOk. revert j. induction i as [|x i IH]; intros [|y j] Hi Hj E; simpl in *.
  - by injection E as ->.
  - injection E as <- _. destruct Hj. left.
  - injection E as -> _. destruct Hi. left.
  - injection E as -> E. apply IH in E as [-> ->]; [done| |]; intros H0; [apply Hi|apply Hj]; by right.
Qed.

Lemma key_nul i j t : idOk i → i ≠ j ++ 0 :: t.
Proof. unfold idOk. intros Hi ->. apply Hi, elem_of_app. right. left. Qed.

Lemma reservation_inj l p q s t :
  idsOk l → p ∈ pending l → q ∈ pending l → reservation p s = reservation q t →
  p = q ∧ (scopeOf (notice p) = workspace → default [] s = default [] t).
Proof.
  intros Hi Hp Hq. assert (idOk (id p) ∧ idOk (id q)) as [H1 H2].
  { destruct Hi as [_ HF]. rewrite Forall_forall in HF. auto. }
  unfold reservation. repeat case_bool_decide; intros E.
  - apply key_split in E as [E Et]; [|done..]. eauto using idsOk_inj.
  - symmetry in E. by apply key_nul in E.
  - by apply key_nul in E.
  - split; [by eapply idsOk_inj|done].
Qed.

Lemma reservation_not_id l p q t :
  idsOk l → p ∈ pending l → idOk q → reservation p t = q → scopeOf (notice p) ≠ workspace ∧ id p = q.
Proof.
  intros _ _ Hq. unfold reservation. case_bool_decide; [|done]. intros E. symmetry in E. by apply key_nul in E.
Qed.

Lemma steps_idsOk (ok : Label → Prop) l l' : msteps ok l l' → idsOk l → idsOk l'.
Proof. induction 1; eauto using mstep_idsOk. Qed.

(** ** Each call *)

Lemma put_found (p q : PendingNotice) n e o l :
  idsOk l → pending l !! n = Some p → change e p o → q ∈ put n o (pending l) → id q = id p → o = Some q.
Proof.
  intros Hi Hn Hc Hq E. destruct o as [q'|]; simpl in *; [|by destruct (idsOk_at l n p q Hi Hn Hq)].
  apply list_elem_of_lookup in Hq as [j Hj]. apply list_lookup_insert_Some in Hj as [(_ & -> & _)|[Hne Hj]]; [done|].
  exfalso. apply Hne. destruct Hi as [HN _]. apply (NoDup_lookup (id <$> pending l) n j (id p)); [done| |]; rewrite list_lookup_fmap.
  - by rewrite Hn.
  - by rewrite Hj, <- E.
Qed.

Lemma set_pending_id l ps : pending l = ps → set_pending ps l = l.
Proof. intros <-. by destruct l. Qed.

(** An entry found by a search on something it has changed and freed: the
    reservations of it that are dropped belong to conversations that heard it. *)
Lemma steps_done (ok : Label → Prop) l p tk o k :
  idsOk l → idOk (id p) → k = reservation p tk →
  (∀ q, q ∈ pending l → id q = id p → scopeOf (notice p) = workspace ∧ o = Some q) →
  (∀ q, o = Some q → notice q = notice p ∧ ∀ t, tk = Some t → t ∈ orNone (heardBy q)) →
  (∀ k, ok (LDone k)) → msteps ok l (set_reserved (reserved l ∖ {[k]}) l).
Proof.
  intros Hi Hp -> Hq Ho Hok. apply (msteps_one _ _ _ (LDone (reservation p tk))); [|done]. apply ms_done. intros q t Hin Ht E.
  assert (idOk (id q)) as Hiq by (destruct Hi as [_ HF]; rewrite Forall_forall in HF; auto).
  assert (id q = id p ∧ (scopeOf (notice p) = workspace → t = default [] tk)) as [E1 E2].
  { revert E. unfold reservation. repeat case_bool_decide; cbn [default]; intros E.
    - apply key_split in E as [E1 E2]; [|done..]. by split.
    - symmetry in E. by apply key_nul in E.
    - by apply key_nul in E.
    - done. }
  destruct (Hq q Hin E1) as [Hw ->]. destruct (Ho q eq_refl) as [En Hh]. rewrite En. split; [done|]. apply Hh.
  specialize (E2 Hw). destruct tk; naive_solver.
Qed.

(** The loop does not read the pending entries it is to leave. *)
Lemma retireLoop_pending mach ps x l :
  retireLoop mach ps (set_pending x l) =
    ((retireLoop mach ps l).1.1, set_pending x (retireLoop mach ps l).1.2, (retireLoop mach ps l).2).
Proof.
  revert l. induction ps as [|p ps IH]; intros l; [done|]. simpl.
  destruct (notice p) as [nt|m]; [|destruct (endsSlot _ _)].
  - rewrite IH. by destruct (retireLoop mach ps l) as [[? ?] ?].
  - set (l3 := set_steering _ (set_reserved _ l)).
    change (set_steering _ (set_reserved _ (set_pending x l))) with (set_pending x l3). rewrite IH.
    by destruct (retireLoop mach ps l3) as [[? ?] ?].
  - rewrite IH. by destruct (retireLoop mach ps l) as [[? ?] ?].
Qed.

Lemma retire_loop (ok : Label → Prop) mach ps : ∀ l pre,
  (∀ p, ok (LMessageGone p)) → (∀ k, ok (LDone k)) → idsOk l → pending l = pre ++ ps →
  msteps ok l (set_pending (pre ++ (retireLoop mach ps l).1.1) (retireLoop mach ps l).1.2).
Proof.
  induction ps as [|p ps IH]; intros l pre Hok1 Hok2 Hi E; simpl; [rewrite (set_pending_id l) by done; constructor|].
  assert (msteps ok l (set_pending (pre ++ p :: (retireLoop mach ps l).1.1) (retireLoop mach ps l).1.2)) as Hkeep.
  { rewrite cons_middle, app_assoc. apply IH; [done..|]. by rewrite <- app_assoc. }
  destruct (notice p) as [nt|m] eqn:En; [by destruct (retireLoop mach ps l) as [[? ?] ?]|].
  destruct (endsSlot mach (to p)); [|by destruct (retireLoop mach ps l) as [[? ?] ?]]. clear Hkeep.
  assert (pending l !! length pre = Some p) as Hn by (rewrite E; by apply list_lookup_middle).
  set (l1 := set_steering (setOutcome m (to p) not_delivered (steering l)) (set_pending (delete (length pre) (pending l)) l)).
  assert (mstep (LMessageGone p) l l1) as H1 by (by eapply ms_message_gone).
  assert (idsOk l1) as Hi1 by (by eapply mstep_idsOk).
  assert (pending l1 = pre ++ ps) as E1 by (simpl; by rewrite E, delete_middle).
  set (l2 := set_reserved (reserved l ∖ {[id p]}) l1).
  assert (msteps ok l1 l2) as H2.
  { apply (steps_done ok l1 p None None (id p)); [done| | | |done|done].
    - destruct Hi as [_ HF]. rewrite Forall_forall in HF. apply HF. by eapply list_elem_of_lookup_2.
    - unfold reservation. by rewrite En.
    - intros q Hq Eq. by destruct (idsOk_at l (length pre) p q Hi Hn). }
  specialize (IH l2 pre Hok1 Hok2 Hi1 E1).
  eapply mss_cons; [exact H1|apply Hok1|]. eapply msteps_trans; [exact H2|]. clear -IH.
  set (l3 := set_steering _ (set_reserved _ l)). change l2 with (set_pending (delete (length pre) (pending l)) l3) in IH.
  rewrite retireLoop_pending in IH. by destruct (retireLoop mach ps l3) as [[k l'] c].
Qed.

Lemma steps_retire mach l : idsOk l → msteps (okFor (ORetire mach)) l (apply (ORetire mach) l).
Proof.
  intros Hi. pose proof (retire_loop (okFor (ORetire mach)) mach (pending l) l []) as H. simpl. unfold retire.
  destruct (retireLoop mach (pending l) l) as [[k l'] c]. by apply H.
Qed.

Lemma allHeard_retry p r : r ∈ orNone (retry p) → retried r = false → allHeard p = false.
Proof.
  intros Hr Hf. unfold allHeard. destruct (audience p); [|done].
  assert (existsb (λ r, negb (retried r)) (orNone (retry p)) = true) as ->.
  { apply existsb_exists. exists r. split; [by apply list_elem_of_In|]. by rewrite Hf. }
  by rewrite andb_false_r.
Qed.

Lemma allHeard_member p a t : audience p = Some a → t ∈ a → t ∉ orNone (heardBy p) → allHeard p = false.
Proof.
  intros E Ht Hn. unfold allHeard. rewrite E.
  assert (forallb (λ t, bool_decide (t ∈ orNone (heardBy p))) a = false) as ->; [|by rewrite andb_false_r].
  apply not_true_is_false. rewrite forallb_forall. intros H. apply Hn. apply list_elem_of_In in Ht. apply H in Ht. by apply bool_decide_eq_true in Ht.
Qed.

Lemma steps_push (ok : Label → Prop) l p : pushOk p → fresh (id p) l → ok (LPush p) → msteps ok l (set_pending (pending l ++ [p]) l).
Proof. intros. by eapply msteps_one; [apply ms_push|]. Qed.

Lemma steps_addRetry (ok : Label → Prop) i n t src rt l :
  fresh i l → (∀ r, rt = Some r → retried r = false) → ok LMark → (∀ p, ok (LChange p Other)) → (∀ p, id p = i → ok (LPush p)) →
  msteps ok l (addRetry i n t src rt l).2.
Proof.
  intros Hnew Hr O1 O2 O3. unfold addRetry. destruct rt as [r|]; [|constructor]. specialize (Hr r eq_refl).
  case_bool_decide as Hw; [|constructor]. simpl. case_bool_decide; [constructor|].
  set (l1 := set_retriesSeen _ l). apply (msteps_trans _ _ l1).
  { apply msteps_mark; try done. intros x Hx. apply setAdd_elem. by right. }
  destruct (findFirst _ _) as [q|] eqn:E; cbn [snd].
  - apply (msteps_alter ok (isSource src t) _ l1 Other). intros p _ _. by split; [apply ch_retry|].
  - apply (steps_push ok l1); [|done|by apply O3]. split; [done|]. intros _. split; [by eexists|].
    by apply (allHeard_retry _ r); [left|].
Qed.

Lemma joinTwin_change a rt p : (∀ r, rt = Some r → retried r = false) → change Other p (Some (joinTwin a rt p).2).
Proof.
  intros Hr. unfold joinTwin. destruct rt as [r|]; [|apply ch_widen]. destruct (existsb _ _); [apply ch_widen|]. apply ch_join. auto.
Qed.

Lemma steps_raiseNew (ok : Label → Prop) i n t src o ch l :
  fresh i l → (∀ r, o_retry o = Some r → retried r = false) → (∀ p, ok (LChange p Other)) → (∀ p, id p = i → ok (LPush p)) →
  msteps ok l (raiseNew otherDate i n t src o ch l).2.
Proof.
  intros Hnew Hr O2 O3. unfold raiseNew. set (aud := if bool_decide _ then _ else _). set (told' := if _ && _ then o_told o else None).
  assert (scopeOf (ANotice n) = workspace → is_Some aud) as Haud by (unfold aud; intros ->; by eexists). clearbody aud told'.
  match goal with |- msteps _ _ (match _ with Some _ => ?x | None => _ end).2 => set (pushed := x) end.
  assert (msteps ok l pushed.2) as Hp.
  { unfold pushed. destruct (bool_decide _ && bool_decide _) eqn:E; cbn [snd]; [apply mss_nil|].
    apply steps_push; [|done|by apply O3]. split; [done|]. intros Hw. split; [by apply Haud|]. destruct (Haud Hw) as [a ->].
    apply andb_false_iff in E as [E|E]; zbool.
    - destruct a as [|x a]; [done|]. apply (allHeard_member _ (x :: a) x); [done|left|set_solver].
    - destruct (o_retry o) as [r|] eqn:Er; [|done]. apply (allHeard_retry _ r); [left|by apply Hr]. }
  destruct src as [s|]; [done|]. destruct (findFirst _ _) as [tw|] eqn:E; [|done]. destruct aud as [a|]; [|constructor].
  apply (msteps_alter ok (isTwin (ANotice n) t l) _ l Other). intros p _ _. split; [by apply joinTwin_change|done].
Qed.

Lemma steps_raise (ok : Label → Prop) i n t src older o l :
  fresh i l → (∀ r, o_retry o = Some r → retried r = false) → ok LMark → (∀ p, ok (LChange p Other)) → (∀ p, id p = i → ok (LPush p)) →
  msteps ok l (raise otherDate i n t src older o l).2.
Proof.
  intros Hnew Hr O1 O2 O3. unfold raise. set (l1 := set_seen _ l). apply (msteps_trans _ _ l1).
  { apply msteps_mark; try done. intros x Hx. apply setAdds_elem. by right. }
  destruct src as [s|]; [|by apply steps_raiseNew].
  case_bool_decide.
  - pose proof (steps_addRetry ok i n t s (o_retry o) l1 Hnew Hr O1 O2 O3) as H1. by destruct (addRetry _ _ _ _ _ _) as [c l'].
  - set (l2 := match o_retry o with Some _ => _ | None => _ end). apply (msteps_trans _ _ l2); [|by apply steps_raiseNew; [unfold l2; destruct (o_retry o)|..]].
    apply msteps_mark; unfold l2; destruct (o_retry o); try done; intros x Hx; simpl; rewrite ?setAdd_elem; auto.
Qed.

Lemma steps_retryTold (ok : Label → Prop) sc tk l : (∀ p, ok (LChange p Other)) → msteps ok l (retryTold sc tk l).
Proof.
  intros O. unfold retryTold. destruct tk as [t|], (sc_workspace sc) as [ws|]; try constructor.
  destruct (sc_turn sc); [|constructor]. apply msteps_omap. intros p _. unfold retryToldOne.
  destruct (_ && _); [|by left]. destruct (existsb _ _); [|by left]. right. exists Other. split; [apply ch_mark|done].
Qed.

Lemma reserve_pending sc tk l p : pending (reserve sc tk l p) = pending l.
Proof. unfold reserve. by destruct (retryFor _ _ _). Qed.

Lemma steps_reserve (ok : Label → Prop) sc tk ps l :
  (∀ p, p ∈ ps → ok (LReserve (reservation p tk))) → ok LMark → (∀ p, p ∈ ps → p ∈ pending l) → msteps ok l (foldl (reserve sc tk) l ps).
Proof.
  intros O1 O2. revert l O1. induction ps as [|p ps IH]; intros l O1 Hp; [constructor|]. simpl.
  apply (msteps_trans _ _ (reserve sc tk l p)).
  - eapply mss_cons; [apply (ms_reserve l (reservation p tk))|apply O1; by left|].
    { exists p, tk. split; [apply Hp; by left|done]. }
    unfold reserve. destruct (retryFor _ _ _); [by apply msteps_mark|constructor].
  - apply IH; [intros q Hq; apply O1; by right|]. intros q Hq. rewrite reserve_pending. apply Hp. by right.
Qed.

Lemma steps_take (ok : Label → Prop) sc l :
  idsOk l → (∀ p, ok (LChange p Other)) → (∀ p, idOk (id p) → ok (LReserve (reservation p (takerOf sc)))) → ok LMark →
  msteps ok l (take sc l).2.
Proof.
  intros Hi O1 O2 O3. unfold take. cbn [snd]. pose proof (steps_retryTold ok sc (takerOf sc) l O1) as H1.
  eapply msteps_trans; [exact H1|]. set (l1 := retryTold _ _ _) in *.
  assert (idsOk l1) as [_ HF] by (by eapply steps_idsOk). rewrite Forall_forall in HF.
  assert (∀ p, p ∈ eligible sc (takerOf sc) l1 → p ∈ pending l1) as He by (intros p [_ ?]%list_elem_of_filter; done).
  apply steps_reserve; auto.
Qed.

Lemma find_at (f : PendingNotice → bool) (ps : list PendingNotice) n :
  fst <$> list_find (λ p, f p = true) ps = Some n → ∃ p, ps !! n = Some p ∧ f p = true.
Proof.
  intros ([n' p] & E & E')%fmap_Some. simpl in E'. subst n'. apply list_find_Some in E as (? & ? & _). eauto.
Qed.

Lemma pendingKeys_elem k ps : k ∈ pendingKeys ps ↔ ∃ p m, p ∈ ps ∧ notice p = Steering m ∧ k = mkey m (to p).
Proof.
  unfold pendingKeys. rewrite list_elem_of_omap. split.
  - intros (p & Hp & E). destruct (notice p) as [n|m] eqn:En; [done|]. injection E as <-. eauto.
  - intros (p & m & Hp & En & ->). exists p. by rewrite En.
Qed.

Lemma steps_restore i b t src tk l : fresh i l → msteps (okFor (ORestore i b t src tk)) l (apply (ORestore i b t src tk) l).
Proof.
  intros Hnew. cbn [apply]. destruct b as [n|m]; cbn [restore].
  - set (found := match src with None => _ | Some _ => _ end). clearbody found.
    destruct (found ≫= _) as [[k p]|] eqn:E.
    + destruct found as [k'|]; [|done]. simpl in E. apply fmap_Some in E as (p' & Hp & [= -> ->]).
      case_bool_decide as Hw; [|constructor]. destruct tk as [c|]; [|constructor].
      set (inA := match audience p' with None => true | Some _ => _ end). destruct (_ && _); [constructor|]. simpl.
      apply (msteps_one _ _ _ (LChange p' (Unhear c))); [|simpl; eauto].
      pose proof (ms_change l k' p' (Unhear c) _ Hp (ch_unhear p' c Hw)) as Hm. cbn [put] in Hm.
      match goal with |- mstep _ _ (set_pending (<[_ := ?entry]> _) _) =>
        assert (entry
              = set_audience (if bool_decide (c ∈ orNone (audience p')) then audience p'
                              else match audience p' with None => None | Some a => Some (a ++ [c]) end)
                  (set_heardBy (Some (filter (λ x, x ≠ c) (orNone (heardBy p')))) p')) as Ex end; [|by rewrite Ex].
      unfold inA. destruct p' as [? ? ? ? [a|] ? ? ?]; simpl.
      all: repeat case_bool_decide; done.
    + set (l1 := match src with Some _ => _ | None => _ end).
      assert (∀ ok : Label → Prop, ok LMark → msteps ok l l1) as H1.
      { intros ok Hok. apply msteps_mark; unfold l1; destruct src; try done. intros x Hx. simpl. rewrite setAdd_elem. auto. }
      assert (fresh i l1) as Hnew1 by (unfold l1; by destruct src).
      eapply msteps_trans; [by apply H1|]. clearbody l1. case_bool_decide as Hw.
      * destruct tk as [c|]; [|constructor]. apply steps_push; [|done|by left]. split; [done|]. intros _. split; [by eexists|].
        apply (allHeard_member _ [c] c); [done|left|set_solver].
      * destruct src as [s|]; [|apply steps_raise; [done..|]; intros p <-; by left].
        apply steps_push; [|done|by left]. by split.
  - destruct (isRetired m t (steering l)) eqn:E1; [constructor|]. simpl. destruct (existsb _ _) eqn:E2; [constructor|]. simpl.
    apply (msteps_one _ _ _ (LMessage i)); [|simpl; eauto 8]. apply ms_back; [done..|].
    rewrite pendingKeys_elem. intros (p & m' & Hp & En & [= E3 E4 E5]). apply not_true_iff_false in E2. apply E2.
    apply existsb_exists. exists p. split; [by apply list_elem_of_In|]. rewrite En, E4, E5, E3.
    by rewrite !bool_decide_eq_true_2.
Qed.

Lemma reserved_same l : set_reserved (reserved l) l = l.
Proof. by destruct l. Qed.

(** One id of a delivery. *)
Lemma steps_deliverOne (ok : Label → Prop) i tk l :
  idsOk l → idOk i → (∀ p, id p = i → ok (LChange p (Hear tk))) → (∀ p, ok (LGone p)) → (∀ p, ok (LMessageGone p)) →
  (∀ k, ok (LDone k)) → ok LMark → msteps ok l (deliverOne tk l i).
Proof.
  intros Hi Hid O1 O2 O3 O4 O5. unfold deliverOne. destruct (findFirst (isId i) (pending l)) as [p|] eqn:E.
  2:{ apply (msteps_one _ _ _ (LDone i)); [|done]. apply ms_done. intros p t Hp Ht Er. exfalso.
      destruct (reservation_not_id l p i (Some t) Hi Hp Hid Er) as [_ Ei].
      rewrite findFirst_none in E. specialize (E p Hp). unfold isId in E. by rewrite bool_decide_eq_true_2 in E. }
  pose proof (findFirst_some _ _ _ E) as [Hp Hf]. unfold isId in Hf. apply bool_decide_eq_true in Hf.
  apply findFirst_put in E as (n & Hn & _ & Halt). set (l0 := set_reserved _ l).
  case_bool_decide as Hw; simpl.
  - (* a Workspace notice *)
    set (s := asRetry l !! reservation p tk). set (l1 := set_pending (put n (heardThere tk s p) (pending l)) l).
    assert (change (Hear tk) p (heardThere tk s p)) as Hc by (by apply ch_hear).
    assert (mstep (LChange p (Hear tk)) l l1) as H1 by (by apply ms_change).
    eapply mss_cons; [exact H1|by apply O1|].
    eapply msteps_trans; [apply (steps_done ok l1 p tk (heardThere tk s p) (reservation p tk)); try done|].
    + by eapply mstep_idsOk.
    + by rewrite Hf.
    + intros q Hq Eq. split; [done|]. by eapply put_found.
    + intros q Hq. apply heardThere_some in Hq as (_ & _ & ? & _ & _ & _ & Hh). split; [done|]. intros t Et. apply Hh. by right.
    + destruct s as [s'|] eqn:Es; apply msteps_mark; try done; simpl; rewrite ?Halt; unfold s in *; try rewrite Es; by destruct (heardThere _ _ _).
  - (* a notice or a message with one taker *)
    set (l1 := match notice p with Steering m => set_steering (setOutcome m (to p) heard (steering l)) (set_pending (delete n (pending l)) l)
               | ANotice _ => set_pending (delete n (pending l)) l end).
    assert (∃ lb, mstep lb l l1 ∧ ok lb) as (lb & H1 & H2).
    { unfold l1. destruct (notice p) as [nt|m] eqn:En.
      - exists (LGone p). split; [|done]. by apply ms_gone; rewrite ?En.
      - exists (LMessageGone p). split; [|done]. by eapply ms_message_gone. }
    eapply mss_cons; [exact H1|done|].
    assert (pending l1 = delete n (pending l)) as El1 by (unfold l1; by destruct (notice p)).
    eapply msteps_trans; [apply (steps_done ok l1 p tk None (reservation p tk)); try done|].
    + by eapply mstep_idsOk.
    + by rewrite Hf.
    + intros q Hq Eq. rewrite El1 in Hq. by destruct (idsOk_at l n p q Hi Hn).
    + rewrite Halt. unfold l0, l1. destruct (notice p); apply mss_nil.
Qed.

(** The steps of a delivery, which add no entry. *)
Definition okDeliver (is_ : list jstr) (tk : option jstr) (lb : Label) : Prop :=
  match lb with
  | LChange p (Hear tk') => id p ∈ is_ ∧ tk' = tk
  | LGone _ | LMessageGone _ | LDone _ | LMark => True
  | _ => False
  end.

Lemma steps_delivered is_ tk l : idsOk l → Forall idOk is_ → msteps (okDeliver is_ tk) l (delivered is_ tk l).
Proof.
  intros Hi HF. unfold delivered.
  assert (∀ js, Forall idOk js → js ⊆ is_ → ∀ l, idsOk l → msteps (okDeliver is_ tk) l (foldl (deliverOne tk) l js)) as H; [|by apply H].
  clear l Hi HF. intros js Hjs Hsub. induction Hjs as [|i js Hid _ IH]; intros l Hi; [constructor|]. simpl.
  assert (msteps (okDeliver is_ tk) l (deliverOne tk l i)) as H1.
  { apply steps_deliverOne; try done. intros p <-. split; [|done]. apply Hsub. by left. }
  eapply msteps_trans; [exact H1|]. apply IH; [intros x Hx; apply Hsub; by right|].
  by eapply steps_idsOk.
Qed.

Lemma okDeliver_ok is_ tk lb : okDeliver is_ tk lb → okFor (ODeliver is_ tk) lb.
Proof. destruct lb as [p e| | | | | | | | |]; try done. destruct e; try done. intros [? ->]. simpl. eauto. Qed.

Lemma steps_release (ok : Label → Prop) is_ tk l :
  (∀ k i, i ∈ is_ → (k = i ∨ ∃ t, k = i ++ [0] ++ t) → ok (LFree k)) → ok LMark → msteps ok l (release is_ tk l).
Proof.
  unfold release. revert l. induction is_ as [|i is_ IH]; intros l O1 O2; [constructor|]. simpl.
  apply (msteps_trans _ _ (releaseOne tk l i)); [|apply IH; [|done]; intros; eapply O1; [by right|done]].
  unfold releaseOne. set (k := match _ with Some _ => _ | None => _ end). eapply mss_cons; [apply (ms_free l k)| |].
  - apply (O1 k i); [by left|]. unfold k. destruct (findFirst _ _) as [p|] eqn:E; [|by left].
    apply findFirst_some in E as [_ E]. unfold isId in E. apply bool_decide_eq_true in E. unfold reservation. rewrite E.
    case_bool_decide; eauto.
  - by apply msteps_mark.
Qed.

Lemma steps_leave (ok : Label → Prop) tk ws l :
  (∀ p, ok (LChange p (Leave tk ws))) → msteps ok l (set_pending (leave tk ws (pending l)) l).
Proof. intros O. apply msteps_omap. intros p _. right. exists (Leave tk ws). split; [apply ch_leave|done]. Qed.

Lemma set_pending_twice l x y : set_pending x (set_pending y l) = set_pending x l.
Proof. done. Qed.

Lemma steps_ended (ok : Label → Prop) ws tks l :
  (∀ p tk, tk ∈ tks → ok (LChange p (Leave tk ws))) → ok LMark → msteps ok l (ended ws tks l).2.
Proof.
  intros O1 O2. unfold ended.
  assert (∀ tks' acc, tks' ⊆ tks → msteps ok (set_pending acc.2 l) (set_pending (foldl (endOne ws) acc tks').2 l)) as H.
  { induction tks' as [|tk tks' IH]; intros [[c ms] ps] Hs; [constructor|]. simpl.
    eapply msteps_trans; [|apply IH; set_solver]. unfold endOne. destruct (findFirst _ _) as [m|]; [|constructor].
    destruct (continued m); [constructor|].
    apply (steps_leave ok tk ws (set_pending ps l)). intros p. apply O1. apply Hs. by left. }
  specialize (H tks (false, orNone (objGet ws (members l)), pending l) (reflexivity _)). destruct (foldl _ _ _) as [[c ms] ps].
  simpl in *. rewrite (set_pending_id l) in H by done. eapply msteps_trans; [exact H|]. by apply msteps_mark.
Qed.

Lemma steps_forget (ok : Label → Prop) tk l :
  (∀ p ws, ok (LChange p (Leave tk ws))) → ok LMark → msteps ok l (forget tk l).2.
Proof.
  intros O1 O2. unfold forget.
  assert (∀ es acc, msteps ok acc.2 (foldl (forgetOne tk) acc es).2) as H; [|by apply (H (members l) (false, l))].
  induction es as [|e es IH]; intros [c l0]; [constructor|]. simpl. eapply msteps_trans; [|apply IH].
  unfold forgetOne. destruct (findFirst _ _); [|constructor]. simpl.
  eapply msteps_trans; [by apply (steps_leave ok tk e.1 l0)|]. by apply msteps_mark.
Qed.

Lemma filter_whole {A} (P : A → Prop) `{∀ x, Decision (P x)} (l : list A) : length (filter P l) = length l → filter P l = l.
Proof.
  induction l as [|x l IH]; [done|]. rewrite filter_cons. case_decide; simpl; [intros [= E]; by rewrite IH|].
  pose proof (length_filter P l). lia.
Qed.

Lemma steps_told src tks l : msteps (okFor (OTold src tks)) l (told src tks l).2.
Proof.
  unfold told. case_bool_decide; [constructor|]. destruct (findFirst _ _) as [p|] eqn:E; [|constructor].
  destruct (audience p) as [a|] eqn:Ea; [|constructor].
  pose proof (findFirst_some _ _ _ E) as [Hp Hf]. unfold isOf in Hf. apply bool_decide_eq_true in Hf.
  apply findFirst_put in E as (n & Hn & _ & Halt). set (p' := toldThem tks a p).
  assert (okFor (OTold src tks) (LChange p (Tell tks))) as Hok by (simpl; eauto).
  destruct (_ && _) eqn:El; cbn [snd]; rewrite Halt.
  - apply (msteps_one _ _ _ (LChange p (Tell tks))); [|done]. apply (ms_change l n p (Tell tks) (Some p')); [done|].
    apply ch_told_same; [done|]. zbool. simpl in *. by apply filter_whole.
  - apply (msteps_one _ _ _ (LChange p (Tell tks))); [|done].
    pose proof (ms_change l n p (Tell tks) (retireIfHeard p') Hn (ch_told p tks a Ea)) as Hm. by destruct (retireIfHeard p').
Qed.

Lemma steps_restart l : msteps (okFor ORestart) l (apply ORestart l).
Proof.
  apply (msteps_one _ _ _ LRestart); [|done]. cbn [apply newLedger].
  assert ((orNone (st_steering (state l))) = steering l) as ->.
  { simpl. case_bool_decide as E; [|done]. symmetry. by apply nil_length_inv. }
  apply ms_restart.
  - intros x Hx. by apply uniq_elem.
  - intros x Hx. apply uniq_elem. simpl. case_bool_decide as E; [by rewrite E in Hx|done].
Qed.

Lemma apply_steps used op l : idsOk l → opOk used op → id <$> pending l ⊆ used → msteps (okFor op) l (apply op l).
Proof.
  intros Hi [Hm Ho] Hu. assert (∀ i, i ∈ mint op → fresh i l) as Hnew.
  { intros i Hin. rewrite Forall_forall in Hm. destruct (Hm i Hin) as [? H']. split; [done|]. intros H2. by apply H', Hu. }
  destruct op; cbn [apply]; try specialize (Hnew newId (list_elem_of_here _ _)).
  - apply (msteps_one _ _ _ (LMessage newId)); [by apply ms_message|simpl; eauto].
  - by apply steps_retire.
  - apply steps_raise; [done..|]. intros p <-. by left.
  - apply steps_take; try done. intros p Hp. simpl. eauto.
  - by apply steps_restore.
  - eapply msteps_mono; [apply okDeliver_ok|by apply steps_delivered].
  - unfold acknowledge. cbn [snd]. eapply msteps_mono; [|apply steps_delivered; [done|apply Forall_forall; intros i [_ Hin]%list_elem_of_filter; by eapply Forall_forall]].
    intros [p e| | | | | | | | |]; try done. destruct e; try done. intros [Hin ->]. simpl.
    exists is_. apply list_elem_of_filter in Hin as [_ Hin]. eauto.
  - apply steps_release; [|done]. intros k i Hin Hk. by exists is_, tk, i.
  - unfold admitted. destruct (findFirst _ _); [destruct (_ && _)|]; simpl; [constructor| |]; by apply msteps_mark.
  - apply steps_ended; [|done]. intros p tk Hin. right. eauto.
  - apply steps_forget; [|done]. intros p ws. by left.
  - apply steps_told.
  - apply steps_restart.
Qed.

(** ** The invariant of every reachable ledger *)

(** A Workspace notice is pending only while somebody is to hear it. *)
Definition wanted (p : PendingNotice) : Prop :=
  scopeOf (notice p) = workspace → is_Some (audience p) ∧ allHeard p = false.

Definition keyOf (i k : jstr) : Prop := k = i ∨ ∃ t, k = i ++ [0] ++ t.

Record Inv (used : list jstr) (l : Ledger) : Prop := mkInv {
  inv_ids : idsOk l;
  inv_used : id <$> pending l ⊆ used;
  inv_idOk : Forall idOk used;
  inv_reserved : ∀ k, k ∈ reserved l → ∃ i, i ∈ used ∧ keyOf i k;
  inv_wanted : ∀ p, p ∈ pending l → wanted p;
}.

Lemma change_wanted e p q : change e p (Some q) → wanted p → wanted q.
Proof.
  intros Hc Hp Hw. pose proof (change_same _ _ _ Hc) as (_ & En & _). rewrite En in Hw. clear En. specialize (Hp Hw) as [[a Ha] Hp].
  remember (Some q) as o eqn:E. destruct Hc; try injection E as <-.
  - split; [by eexists|]. apply (allHeard_retry _ r); [|done]. simpl. apply elem_of_app. right. by left.
  - split; [by eexists|]. revert Hp. unfold allHeard. simpl. rewrite Ha, Hw. simpl.
    rewrite !andb_false_iff. intros [Hf|Hr]; [left|by right]. apply not_true_iff_false. apply not_true_iff_false in Hf.
    contradict Hf. rewrite forallb_forall in *. intros x Hx. apply Hf. apply list_elem_of_In, uniq_elem, elem_of_app. left. by apply list_elem_of_In.
  - split; [by eexists|]. apply (allHeard_retry _ r); [|done]. simpl. apply elem_of_app. right. by left.
  - apply retire_some in E as [-> ?]. split; [by eexists|done].
  - apply heardThere_some in E as (? & _ & _ & _ & _ & -> & _). split; [by eexists|done].
  - split; [simpl; rewrite Ha; case_bool_decide; eexists; reflexivity|].
    apply (allHeard_member _ (orNone (if bool_decide (c ∈ orNone (audience p)) then audience p
             else match audience p with None => None | Some a => Some (a ++ [c]) end)) c).
    + simpl. rewrite Ha. by case_bool_decide.
    + rewrite Ha. case_bool_decide as Hc; [done|]. simpl. apply elem_of_app. right. by left.
    + simpl. rewrite list_elem_of_filter. naive_solver.
  - apply leaveOne_some in E as [->|(? & _ & b & _ & ->)]; split; try done; by eexists.
  - apply retire_some in E as [-> ?]. split; [by eexists|done].
  - split; [by eexists|]. revert Hp. unfold allHeard. simpl. rewrite Ha. assert (a0 = a) as -> by congruence. by rewrite H0.
Qed.

Lemma put_elem q n o (ps : list PendingNotice) : q ∈ put n o ps → o = Some q ∨ q ∈ ps.
Proof.
  destruct o as [x|]; simpl.
  - intros [j Hj]%list_elem_of_lookup. apply list_lookup_insert_Some in Hj as [(_ & -> & _)|[_ Hj]]; [by left|right].
    by eapply list_elem_of_lookup_2.
  - intros H. right. by eapply elem_of_sublist, sublist_delete.
Qed.

(** Every entry after a step is an old one, an old one changed, or a new one. *)
Lemma mstep_entries lb l l' q :
  mstep lb l l' → q ∈ pending l' →
  q ∈ pending l ∨ (∃ p e, lb = LChange p e ∧ p ∈ pending l ∧ change e p (Some q)) ∨ (id q ∈ adds lb ∧ wanted q).
Proof.
  intros Hm Hq. destruct Hm; cbn [pending set_pending set_steering set_reserved steer snd] in Hq; auto.
  - apply put_elem in Hq as [->|?]; [|auto]. right. left. exists p, e. split_and!; [done|by eapply list_elem_of_lookup_2|done].
  - left. by eapply elem_of_sublist, sublist_delete.
  - left. by eapply elem_of_sublist, sublist_delete.
  - apply elem_of_app in Hq as [?|Hq%list_elem_of_singleton]; [auto|]. subst q. right. right. split; [by left|]. destruct H as [_ H]. exact H.
  - apply elem_of_app in Hq as [?|Hq%list_elem_of_singleton]; [auto|]. subst q. right. right. split; [by left|done].
  - apply elem_of_app in Hq as [?|Hq%list_elem_of_singleton]; [auto|]. subst q. right. right. split; [by left|done].
Qed.

Lemma mstep_inv used lb l l' : adds lb ⊆ used → mstep lb l l' → Inv used l → Inv used l'.
Proof.
  intros Ha Hm [H1 H2 H3 H4 H5]. constructor.
  - by eapply mstep_idsOk.
  - intros i Hi. pose proof (elem_of_sublist _ _ _ Hi (mstep_ids _ _ _ Hm)) as Hi'. apply elem_of_app in Hi' as [?|?]; auto.
  - done.
  - destruct Hm; cbn [reserved set_pending set_steering set_reserved steer snd]; intros x Hx; try (by apply H4); try set_solver.
    apply elem_of_union in Hx as [Hx|Hx%elem_of_singleton]; [by apply H4|]. subst x. destruct H as (p & tk & Hp & ->).
    exists (id p). split; [by apply H2, list_elem_of_fmap_2|]. unfold reservation, keyOf. case_bool_decide; eauto.
  - intros q Hq. destruct (mstep_entries _ _ _ _ Hm Hq) as [?|[(p & e & _ & Hp & Hc)|[_ ?]]]; [auto| |done]. eauto using change_wanted.
Qed.

(** An induction over the small steps of a run of calls. *)
Lemma path_steps (Q : Used → Op → Prop) (P : Ledger → Prop) u l u' l' :
  (∀ u op lb l l', opOk (u_ids u) op → Q u op → Inv (u_ids (use op u)) l → okFor op lb → mstep lb l l' → P l → P l') →
  path Q u l u' l' → Inv (u_ids u) l → P l → Inv (u_ids u') l' ∧ P l'.
Proof.
  intros Hstep Hp. induction Hp as [|u l u' l' op _ IH Hok HQ]; intros Hi HP; [done|]. specialize (IH Hi HP) as [HI HP'].
  pose proof (apply_steps _ op l' (inv_ids _ _ HI) Hok (inv_used _ _ HI)) as Hms.
  assert (Inv (u_ids (use op u')) l') as HI'.
  { destruct HI as [I1 I2 I3 I4 I5]. simpl. constructor; [done| | | |done].
    - intros x Hx. apply elem_of_app. right. by apply I2.
    - apply Forall_app. split; [|done]. destruct Hok as [Hm _]. eapply Forall_impl; [exact Hm|]. naive_solver.
    - intros k (i & ? & ?)%I4. exists i. split; [|done]. apply elem_of_app. by right. }
  clear HI. induction Hms as [l0|l0 l1 l2 lb Hm Hl _ IH]; [done|]. apply IH.
  - by eapply Hstep.
  - eapply mstep_inv; [|done..]. intros i Hin. simpl. apply elem_of_app. left.
    destruct lb; simpl in Hin; try (by apply elem_of_nil in Hin); apply list_elem_of_singleton in Hin as ->; [exact Hl|].
    destruct Hl as (m & s & [->|(? & ? & ->)]); by left.
Qed.

(** The same, for an id that is in use already. *)
Lemma path_steps' (Q : Used → Op → Prop) (P : Ledger → Prop) i u l u' l' :
  (∀ u op lb l l', opOk (u_ids u) op → Q u op → Inv (u_ids (use op u)) l → i ∈ u_ids (use op u) → okFor op lb →
     mstep lb l l' → P l → P l') →
  path Q u l u' l' → Inv (u_ids u) l → i ∈ u_ids u → P l → Inv (u_ids u') l' ∧ P l'.
Proof.
  intros Hstep Hp HI Hi HP.
  assert (path (λ u op, Q u op ∧ i ∈ u_ids u) u l u' l' ∧ i ∈ u_ids u') as [Hp' _].
  { clear HI HP. induction Hp as [|u l u' l' op _ IH Hok HQ]; [split; [constructor|done]|]. destruct (IH Hi).
    split; [by apply path_snoc|]. simpl. apply elem_of_app. by right. }
  refine (path_steps _ P _ _ _ _ _ Hp' HI HP). intros u0 op lb l0 l0' H1 [H2 H3] H4. eapply Hstep; try done.
  simpl. apply elem_of_app. by right.
Qed.

Lemma ledger_inv u l : reach u l → Inv (u_ids u) l.
Proof.
  intros Hr. apply (path_steps anyOp (λ _, True) (mkUsed [] []) (newLedger None)); [done|done| |done].
  constructor; simpl; try done; [split; constructor|]. intros p Hp. by apply elem_of_nil in Hp.
Qed.

(** ** Heard once *)

Lemma change_heard e p q t :
  change e p (Some q) → t ∈ orNone (heardBy p) → e ≠ Unhear t → t ∈ orNone (heardBy q).
Proof.
  intros Hc Ht He. remember (Some q) as o eqn:E. destruct Hc; try injection E as <-; try done.
  - by apply retire_some in E as [-> _].
  - apply heardThere_some in E as (_ & _ & _ & _ & _ & _ & Hh). apply Hh. by left.
  - simpl. apply list_elem_of_filter. split; [congruence|done].
  - by apply leaveOne_some in E as [->|(_ & _ & a & _ & ->)].
  - by apply retire_some in E as [-> _].
Qed.

(** The conversation [t] has heard the entry [i], if it is pending still. *)
Definition Heard (i t : jstr) (l : Ledger) : Prop :=
  ∀ p, p ∈ pending l → id p = i → scopeOf (notice p) = workspace ∧ t ∈ orNone (heardBy p).

(** ... or holds it reserved; a notice with one taker is reserved for all. *)
Definition Spent (i t : jstr) (l : Ledger) : Prop :=
  ∀ p, p ∈ pending l → id p = i →
  if bool_decide (scopeOf (notice p) = workspace) then t ∈ orNone (heardBy p) ∨ reservation p (Some t) ∈ reserved l
  else id p ∈ reserved l.

(** The calls that give a notice back to a conversation: a failed admission's
    release, the restore of one that no model heard, a restart. *)
Definition putsBack (t : jstr) (op : Op) : Prop := ∃ i b to src, op = ORestore i b to src (Some t).

Definition givesUp (i t : jstr) (op : Op) : Prop :=
  putsBack t op ∨ op = ORestart ∨ ∃ is_ tk, op = ORelease is_ tk ∧ i ∈ is_.

Lemma notAdded (Q : Used → Op → Prop) i u l u' l' :
  i ∈ u_ids u → path Q u l u' l' → path (λ u op, Q u op ∧ i ∉ mint op) u l u' l' ∧ i ∈ u_ids u'.
Proof.
  intros Hi Hp. induction Hp as [|u l u' l' op _ IH Hok HQ]; [split; [constructor|done]|]. specialize (IH Hi) as [IH Hi'].
  split; [|simpl; apply elem_of_app; by right]. apply path_snoc; [done|done|]. split; [done|]. destruct Hok as [Hm _].
  rewrite Forall_forall in Hm. intros Hx. by apply Hm in Hx as [_ ?].
Qed.

Lemma adds_mint op lb : okFor op lb → adds lb ⊆ mint op.
Proof.
  intros Hl i Hi. destruct lb; simpl in Hi; try (by apply elem_of_nil in Hi); apply list_elem_of_singleton in Hi as ->; [exact Hl|].
  destruct Hl as (m & s & [->|(? & ? & ->)]); by left.
Qed.

Lemma mstep_heard i t op lb l l' :
  i ∉ mint op → ¬ putsBack t op → okFor op lb → mstep lb l l' → Heard i t l → Heard i t l'.
Proof.
  intros Hi Hr Hok Hm HH q Hq Eq. destruct (mstep_entries _ _ _ _ Hm Hq) as [?|[(p & e & -> & Hp & Hc)|[Ha _]]].
  - by apply HH.
  - pose proof (change_same _ _ _ Hc) as (E1 & E2 & _). destruct (HH p Hp) as [H1 H2]; [congruence|].
    rewrite E2. split; [done|]. eapply change_heard; [done..|]. intros ->. apply Hr. exact Hok.
  - exfalso. apply Hi. rewrite Eq in Ha. by eapply adds_mint.
Qed.

Lemma spent_reserved i t l p :
  Spent i t l → p ∈ pending l → id p = i →
  scopeOf (notice p) = workspace ∧ t ∈ orNone (heardBy p) ∨ reservation p (Some t) ∈ reserved l.
Proof.
  intros HS Hp E. specialize (HS p Hp E). case_bool_decide as Hw; [naive_solver|]. right. unfold reservation.
  by rewrite bool_decide_eq_false_2.
Qed.

Lemma spent_intro i t l :
  (∀ p, p ∈ pending l → id p = i → scopeOf (notice p) = workspace ∧ t ∈ orNone (heardBy p) ∨ reservation p (Some t) ∈ reserved l) →
  Spent i t l.
Proof.
  intros H p Hp E. specialize (H p Hp E). case_bool_decide as Hw; [naive_solver|]. destruct H as [[? _]|H]; [done|].
  unfold reservation in H. by rewrite bool_decide_eq_false_2 in H.
Qed.

Lemma mstep_spent used i t op lb l l' :
  t ≠ [] → i ∉ mint op → ¬ givesUp i t op → opOk used op → idsOk l → okFor op lb → mstep lb l l' → Spent i t l → Spent i t l'.
Proof.
  intros Ht Hi Hg Hop Hids Hok Hm HS. apply spent_intro. intros q Hq Eq.
  destruct (mstep_entries _ _ _ _ Hm Hq) as [Hp|[(p & e & -> & Hp & Hc)|[Ha _]]].
  - destruct (spent_reserved i t l q HS Hp Eq) as [?|Hr]; [by left|].
    destruct Hm; cbn [reserved set_pending set_steering set_reserved steer snd]; try (by right).
    + right. set_solver.
    + destruct (decide (reservation q (Some t) = k)) as [E|]; [left; by eapply H|]. right. set_solver.
    + destruct (decide (reservation q (Some t) = k)) as [E|]; [|right; set_solver]. exfalso. apply Hg. right. right.
      destruct Hok as (is_ & tk & j & -> & Hj & Hk). exists is_, tk. split; [done|].
      assert (idOk j) as Hjo by (destruct Hop as [_ Hop]; rewrite Forall_forall in Hop; auto).
      assert (idOk (id q)) as Hqo by (destruct Hids as [_ HF]; rewrite Forall_forall in HF; auto).
      rewrite <- Eq. subst k. unfold reservation in Hk. case_bool_decide; destruct Hk as [Hk|[t' Hk]].
      * symmetry in Hk. by apply key_nul in Hk.
      * apply key_split in Hk as [-> _]; done.
      * by rewrite Hk.
      * by apply key_nul in Hk.
    + exfalso. apply Hg. right. by left.
  - pose proof (change_same _ _ _ Hc) as (E1 & E2 & _).
    assert (reservation q (Some t) = reservation p (Some t)) as Er by (unfold reservation; by rewrite E1, E2).
    assert (reserved l' = reserved l) as El by (inversion Hm; done). rewrite Er, El, E2.
    destruct (spent_reserved i t l p HS Hp) as [[Hw Hh]|?]; [congruence| |by right]. left. split; [done|].
    eapply change_heard; [done..|]. intros ->. apply Hg. left. exact Hok.
  - exfalso. apply Hi. rewrite Eq in Ha. by eapply adds_mint.
Qed.

(** Only another conversation may still take the entry, and only as a
    Workspace notice. *)
Definition onlyOthers (i t : jstr) (l : Ledger) : Prop :=
  ∀ sc, i ∈ ids (take sc l).1 → takerOf sc ≠ Some t ∧ ∃ p, p ∈ pending l ∧ id p = i ∧ scopeOf (notice p) = workspace.

(** A property of the entries that every change keeps survives [retryTold]. *)
Lemma retryTold_entry sc tk l q :
  q ∈ pending (retryTold sc tk l) → ∃ p, p ∈ pending l ∧ sameEntry p q ∧ heardBy q = heardBy p ∧ audience q = audience p.
Proof.
  unfold retryTold. assert (q ∈ pending l → ∃ p, p ∈ pending l ∧ sameEntry p q ∧ heardBy q = heardBy p ∧ audience q = audience p) as H.
  { intros. by exists q. }
  destruct tk as [t|], (sc_workspace sc) as [ws|]; try done. destruct (sc_turn sc); [|done]. clear H.
  simpl. intros (p & Hp & E)%list_elem_of_omap. exists p. split; [done|]. unfold retryToldOne in E.
  destruct (_ && _); [|by injection E as <-]. destruct (existsb _ _); [|by injection E as <-]. by apply retire_some in E as [-> _].
Qed.

Lemma retryTold_reserved sc tk l : reserved (retryTold sc tk l) = reserved l.
Proof. unfold retryTold. destruct tk, (sc_workspace sc); try done. by destruct (sc_turn sc). Qed.

Lemma taken_entry sc l i :
  i ∈ ids (take sc l).1 → ∃ q, q ∈ pending (retryTold sc (takerOf sc) l) ∧ id q = i
    ∧ (reservation q (takerOf sc) ∉ reserved l) ∧ sourceFits sc q = true ∧ addressed sc (takerOf sc) q = true.
Proof.
  simpl. intros (q & -> & Hq)%list_elem_of_fmap. exists q. unfold eligible in Hq. apply list_elem_of_filter in Hq as [E Hq].
  zbool. by rewrite retryTold_reserved in *.
Qed.

Lemma spent_others i t l : Spent i t l → onlyOthers i t l.
Proof.
  intros HS sc (q & Hq & Eq & Hr & _ & Ha)%taken_entry. destruct (retryTold_entry _ _ _ _ Hq) as (p & Hp & (E1 & E2 & _) & E3 & _).
  assert (id p = i) as Ei by congruence. pose proof (HS p Hp Ei) as Hs.
  unfold reservation in Hr. rewrite E1, E2 in Hr.
  case_bool_decide as Hw; [|by rewrite Ei in *]. split; [|by exists p]. intros Et. rewrite Et in *.
  unfold addressed in Ha. rewrite E2, Hw, E3 in Ha. zbool. unfold reservation in Hs. rewrite bool_decide_eq_true_2 in Hs by done.
  destruct Hs; [zbool; done|done].
Qed.

Lemma heard_others i t l : Heard i t l → onlyOthers i t l.
Proof. intros HH. apply spent_others, spent_intro. intros p Hp Ei. left. by apply HH. Qed.

Lemma reserve_grows sc tk ps l k :
  k ∈ reserved (foldl (reserve sc tk) l ps) ↔ k ∈ reserved l ∨ ∃ p, p ∈ ps ∧ k = reservation p tk.
Proof.
  revert l. induction ps as [|p ps IH]; intros l; simpl; [set_solver|]. rewrite IH.
  assert (reserved (reserve sc tk l p) = reserved l ∪ {[reservation p tk]}) as ->.
  { unfold reserve. by destruct (retryFor _ _ _). }
  rewrite elem_of_union, elem_of_singleton. setoid_rewrite elem_of_cons. naive_solver.
Qed.

Lemma reserves_pending sc tk ps l : pending (foldl (reserve sc tk) l ps) = pending l.
Proof. revert l. induction ps as [|p ps IH]; intros l; [done|]. simpl. by rewrite IH, reserve_pending. Qed.

Lemma take_spends sc t l i : idsOk l → takerOf sc = Some t → i ∈ ids (take sc l).1 → Spent i t (take sc l).2.
Proof.
  intros Hi Et Hin. apply spent_intro. unfold take. cbn [snd]. rewrite Et. set (l1 := retryTold sc (Some t) l).
  intros p Hp Ei. right. rewrite reserves_pending in Hp. apply reserve_grows. right.
  simpl in Hin. rewrite Et in Hin. apply list_elem_of_fmap in Hin as (q & -> & Hq). fold l1 in Hq. exists q.
  assert (p = q) as ->; [|done]. assert (idsOk l1) as Hi1.
  { eapply steps_idsOk; [|exact Hi]. by apply (steps_retryTold (λ _, True)). }
  eapply idsOk_inj; [done|done| |done]. unfold eligible in Hq. by apply list_elem_of_filter in Hq as [_ ?].
Qed.

Lemma deliver_hears is_ t i l : idsOk l → Forall idOk is_ → i ∈ is_ → Heard i t (delivered is_ (Some t) l).
Proof.
  intros Hi HF. unfold delivered. revert l Hi. induction HF as [|j is_ Hj HF IH]; intros l Hi Hin; [by apply elem_of_nil in Hin|].
  simpl. assert (idsOk (deliverOne (Some t) l j)) as Hi1.
  { eapply steps_idsOk; [|exact Hi]. by apply (steps_deliverOne (λ _, True)). }
  destruct (decide (i ∈ is_)) as [?|Hn]; [by apply IH|]. assert (i = j) as -> by (by apply elem_of_cons in Hin as [?|?]).
  assert (Heard j t (deliverOne (Some t) l j)) as Hd.
  { unfold deliverOne. destruct (findFirst (isId j) (pending l)) as [p|] eqn:E.
    2:{ intros q Hq Eq. simpl in Hq. rewrite findFirst_none in E. specialize (E q Hq). unfold isId in E.
        by rewrite bool_decide_eq_true_2 in E. }
    pose proof (findFirst_some _ _ _ E) as [Hp Hf]. unfold isId in Hf. apply bool_decide_eq_true in Hf.
    apply findFirst_put in E as (n & Hn' & _ & Halt). case_bool_decide as Hw; simpl.
    - intros q Hq Eq. set (s := asRetry l !! reservation p (Some t)) in *.
      assert (q ∈ put n (heardThere (Some t) s p) (pending l)) as Hq'.
      { destruct s; simpl in Hq; rewrite Halt in Hq; done. }
      assert (heardThere (Some t) s p = Some q) as Eh.
      { eapply put_found; [exact Hi|exact Hn'|by apply ch_hear|exact Hq'|congruence]. }
      apply heardThere_some in Eh as (_ & _ & -> & _ & _ & _ & Hh). split; [done|]. apply Hh. by right.
    - intros q Hq Eq. exfalso. assert (q ∈ delete n (pending l)) as Hq' by (rewrite Halt in Hq; by destruct (notice p)).
      by apply (idsOk_at l n p q Hi Hn' Hq'); congruence. }
  pose proof (steps_delivered is_ (Some t) _ Hi1 HF) as Hms. clear -Hms Hd otherDate.
  unfold delivered in Hms. induction Hms as [|x x1 x2 lb Hm Hl _ IH]; [done|]. apply IH.
  apply (mstep_heard j t (ODeliver is_ (Some t)) lb x); [apply not_elem_of_nil| |by apply okDeliver_ok|done|done].
  by intros (? & ? & ? & ? & ?).
Qed.

(** Nobody is told twice. Once a conversation takes an entry of the ledger,
    no take of that conversation carries it again, whatever calls come between,
    unless one gives it up: a release of it, a restore to this conversation, or
    a restart, which forgets reservations. Once it is delivered there, not even
    a restart or a release brings it back. A notice or message with one taker
    is carried to nobody else either; a Workspace notice may go to the others
    of its audience. *)
Theorem notice_heard_once u l sc t i :
  reach u l → takerOf sc = Some t → t ≠ [] → i ∈ ids (take sc l).1 →
  (∀ u' l', path (λ _ op, ¬ givesUp i t op) u (take sc l).2 u' l' → onlyOthers i t l')
  ∧ ∀ u1 l1 is_ u' l', path anyOp u (take sc l).2 u1 l1 → i ∈ is_ → Forall idOk is_ →
      path (λ _ op, ¬ putsBack t op) u1 (delivered is_ (Some t) l1) u' l' → onlyOthers i t l'.
Proof.
  intros Hr Et Hne Hin. pose proof (ledger_inv _ _ Hr) as HI.
  assert (path anyOp u l (use (OTake sc) u) (apply (OTake sc) l)) as Htake.
  { apply path_snoc; [constructor|by split; [constructor|]|done]. }
  assert (Inv (u_ids u) (take sc l).2) as HI1 by (by apply (path_steps anyOp (λ _, True) _ _ _ _ (λ _ _ _ _ _ _ _ _ _ _ _, I) Htake)).
  assert (i ∈ u_ids u) as Hiu.
  { destruct (taken_entry _ _ _ Hin) as (q & Hq & <- & _). destruct (retryTold_entry _ _ _ _ Hq) as (p & Hp & (-> & _) & _).
    by apply (inv_used _ _ HI), list_elem_of_fmap_2. }
  split.
  - intros u' l' Hp. apply spent_others. apply (notAdded _ i) in Hp as [Hp _]; [|done].
    refine (proj2 (path_steps _ (Spent i t) _ _ _ _ _ Hp HI1 (take_spends sc t l i (inv_ids _ _ HI) Et Hin))).
    intros u0 op lb l0 l0' Hok [Hg Hm] HI0 Hl Hms. apply (mstep_spent (u_ids u0) i t op lb l0); try done. by apply inv_ids in HI0.
  - intros u1 l1 is_ u' l' Hp1 Hi HF Hp. apply heard_others.
    destruct (notAdded _ i _ _ _ _ Hiu Hp1) as [_ Hiu1].
    destruct (path_steps anyOp (λ _, True) _ _ _ _ (λ _ _ _ _ _ _ _ _ _ _ _, I) Hp1 HI1 I) as [HI2 _].
    assert (path anyOp u1 l1 (use (ODeliver is_ (Some t)) u1) (apply (ODeliver is_ (Some t)) l1)) as Hd.
    { apply path_snoc; [constructor|by split; [constructor|]|done]. }
    destruct (path_steps anyOp (λ _, True) _ _ _ _ (λ _ _ _ _ _ _ _ _ _ _ _, I) Hd HI2 I) as [HI3 _]. simpl in HI3.
    apply (notAdded _ i) in Hp as [Hp _]; [|done].
    refine (proj2 (path_steps _ (Heard i t) _ _ _ _ _ Hp HI3 (deliver_hears is_ t i l1 (inv_ids _ _ HI2) HF Hi))).
    intros u0 op lb l0 l0' Hok [Hg Hm] HI0 Hl Hms. by apply (mstep_heard i t op lb l0).
Qed.

(** ** Everybody who was there is told *)

(** The conversation [t] is still to hear the Workspace notice [i] of [src]. *)
Definition awaited (src ws i t : jstr) (p : PendingNotice) : Prop :=
  id p = i ∧ scopeOf (notice p) = workspace ∧ to p = ws ∧ source p = Some src
  ∧ t ∈ orNone (audience p) ∧ t ∉ orNone (heardBy p).

Definition Waiting (src ws i t : jstr) (l : Ledger) : Prop :=
  (∃ p, p ∈ pending l ∧ awaited src ws i t p) ∧ i ++ [0] ++ t ∉ reserved l.

(** The calls after which [t] need not hear it: it heard it, its own answer
    told it, it left the Workspace or was forgotten, or it took it. *)
Definition settles (src ws i t : jstr) (op : Op) : Prop :=
  match op with
  | ODeliver is_ tk => i ∈ is_ ∧ tk = Some t
  | OAck is_ tk => i ∈ is_ ∧ tk = t
  | OTold s tks => s = src ∧ t ∈ tks
  | OEnded w tks => w = ws ∧ t ∈ tks
  | OForget tk => tk = t
  | OTake sc => takerOf sc = Some t
  | _ => False
  end.

Lemma retire_member p a t : audience p = Some a → t ∈ a → t ∉ orNone (heardBy p) → retireIfHeard p = Some p.
Proof. intros. unfold retireIfHeard. by rewrite (allHeard_member p a t). Qed.

Lemma change_awaited src ws i t op e p o :
  okFor op (LChange p e) → ¬ settles src ws i t op → change e p o → awaited src ws i t p →
  ∃ q, o = Some q ∧ awaited src ws i t q.
Proof.
  intros Hok Hs Hc (E1 & E2 & E3 & E4 & E5 & E6).
  destruct (audience p) as [a|] eqn:Ea; [|by apply elem_of_nil in E5]. simpl in E5. unfold awaited.
  destruct Hc.
  - eexists. split; [done|]. simpl. by rewrite Ea.
  - eexists. split; [done|]. simpl. rewrite Ea, uniq_elem, elem_of_app. naive_solver.
  - eexists. split; [done|]. simpl. rewrite Ea, uniq_elem, elem_of_app. naive_solver.
  - exists (markRetried f p). split; [by apply (retire_member _ a t)|]. simpl. by rewrite Ea.
  - assert (tk ≠ Some t) as Hne.
    { intros ->. apply Hs. simpl in Hok. destruct Hok as (is_ & Hin & [->|(t' & [= <-] & ->)]); simpl; by rewrite E1 in Hin. }
    destruct (heardThere tk s p) as [q|] eqn:Eh.
    + pose proof (heardThere_some _ _ _ _ Eh) as (_ & ? & ? & ? & ? & Eq & Hh). exists q. split; [done|].
      rewrite Eq, Ea. split_and!; [congruence..|done|]. rewrite Hh. naive_solver.
    + exfalso. unfold heardThere in Eh. set (q := match tk with Some _ => _ | None => _ end) in Eh.
      assert (audience q = Some a ∧ t ∉ orNone (heardBy q)) as [Hq1 Hq2].
      { unfold q. destruct s as [s|], tk as [t'|]; simpl; repeat case_bool_decide; simpl; split; try done;
          rewrite elem_of_app, list_elem_of_singleton; naive_solver. }
      by rewrite (retire_member q a t) in Eh.
  - eexists. split; [done|]. simpl. rewrite Ea, list_elem_of_filter. split_and!; try done; [|naive_solver].
    case_bool_decide; simpl; [done|]. apply elem_of_app. by left.
  - destruct (decide (tk = t ∧ ws0 = ws)) as [[-> ->]|Hne].
    { exfalso. apply Hs. destruct Hok as [->|(tks & -> & ?)]; simpl; auto. }
    unfold leaveOne. rewrite Ea. destruct (_ && _) eqn:Ec; [|exists p; rewrite Ea; done]. zbool.
    assert (t ∈ filter (λ x, x ≠ tk) a) as Hin by (apply list_elem_of_filter; split; [naive_solver|done]).
    eexists. split; [by apply (retire_member _ (filter (λ x, x ≠ tk) a) t)|]. done.
  - assert (t ∉ tks) as Hne.
    { intros Hin. apply Hs. destruct Hok as (s & -> & Es). simpl. split; [congruence|done]. }
    assert (a0 = a) as -> by congruence.
    assert (t ∈ filter (λ x, x ∉ tks ∨ x ∈ orNone (heardBy p)) a) as Hin by (apply list_elem_of_filter; split; [by left|done]).
    exists (toldThem tks a p). split; [|done].
    by apply (retire_member (toldThem tks a p) (filter (λ x, x ∉ tks ∨ x ∈ orNone (heardBy p)) a) t).
  - eexists. split; [done|]. assert (a0 = a) as -> by congruence. simpl. rewrite H0. done.
Qed.

Lemma put_other q n o p (ps : list PendingNotice) : ps !! n = Some p → q ∈ ps → q = p ∨ q ∈ put n o ps.
Proof.
  intros Hn [j Hj]%list_elem_of_lookup. destruct (decide (j = n)) as [->|Hne]; [left; congruence|right].
  destruct o as [x|]; simpl; apply list_elem_of_lookup.
  - exists j. by rewrite list_lookup_insert_ne.
  - destruct (decide (j < n)%nat).
    + exists j. by rewrite list_lookup_delete_lt.
    + exists (pred j). rewrite list_lookup_delete_ge by lia. by replace (S (pred j)) with j by lia.
Qed.

(** What a step does to an entry with an audience. *)
Lemma mstep_keeps lb l l' p :
  mstep lb l l' → p ∈ pending l → scopeOf (notice p) = workspace →
  p ∈ pending l' ∨ ∃ e o, lb = LChange p e ∧ change e p o ∧ ∀ q, o = Some q → q ∈ pending l'.
Proof.
  intros Hm Hp Hw. destruct Hm; cbn [pending set_pending set_steering set_reserved steer snd]; auto; try (left; apply elem_of_app; by left).
  - destruct (put_other p n o p0 (pending l)) as [->|?]; [done|done| |by left].
    right. exists e, o. split_and!; [done..|]. intros q ->. simpl. apply list_elem_of_insert. by eapply lookup_lt_Some.
  - destruct (put_other p n None p0 (pending l)) as [->|?]; [done|done|done|by left].
  - destruct (put_other p n None p0 (pending l)) as [->|?]; [done|done| |by left]. by rewrite H0 in Hw.
Qed.

Lemma mstep_waiting used src ws i t op lb l l' :
  t ≠ [] → ¬ settles src ws i t op → Inv used l → i ∈ used → okFor op lb → mstep lb l l' →
  Waiting src ws i t l → Waiting src ws i t l'.
Proof.
  intros Ht Hs HI Hi Hok Hm [(p & Hp & Ha) Hr]. pose proof Ha as (Ei & Hw & _). split.
  - destruct (mstep_keeps _ _ _ _ Hm Hp Hw) as [?|(e & o & -> & Hc & Ho)]; [by exists p|].
    destruct (change_awaited _ _ _ _ op e p o Hok Hs Hc Ha) as (q & -> & Hq). exists q. auto.
  - destruct Hm; cbn [reserved set_pending set_steering set_reserved steer snd]; try done; try set_solver.
    rewrite elem_of_union, elem_of_singleton. intros [?|E]; [done|]. destruct Hok as (sc & q & -> & -> & Hq). apply Hs. simpl.
    assert (idOk i) as Hio by (pose proof (inv_idOk _ _ HI) as HF; rewrite Forall_forall in HF; auto).
    unfold reservation in E. case_bool_decide.
    + apply key_split in E as [_ E]; [|done..]. destruct (takerOf sc); naive_solver.
    + symmetry in E. by apply key_nul in E.
Qed.

Lemma awaited_taken src ws i t sc l :
  Waiting src ws i t l → takerOf sc = Some t → sc_workspace sc = Some ws → only sc = None → except sc = None →
  exceptPrefix sc = None → i ∈ ids (take sc l).1.
Proof.
  intros [(p & Hp & Ha) Hr] Et Ew E1 E2 E3.
  assert (∃ q, q ∈ pending (retryTold sc (takerOf sc) l) ∧ awaited src ws i t q) as (q & Hq & (Hi & Hw & Hto & Hsrc & Hau & Hh)).
  { unfold retryTold. rewrite Et, Ew. destruct (sc_turn sc); [|by exists p]. simpl.
    destruct (retryToldOne sc t ws p) as [q|] eqn:Eq.
    - exists q. split; [apply list_elem_of_omap; eauto|]. unfold retryToldOne in Eq.
      destruct (_ && _); [|by injection Eq as <-]. destruct (existsb _ _); [|by injection Eq as <-].
      by apply retire_some in Eq as [-> _].
    - exfalso. destruct Ha as (_ & _ & _ & _ & Hau & Hh). destruct (audience p) as [a|] eqn:Ea; [|by apply elem_of_nil in Hau].
      unfold retryToldOne in Eq. destruct (_ && _); [|done]. destruct (existsb _ _); [|done].
      by rewrite (retire_member _ a t) in Eq. }
  simpl. apply list_elem_of_fmap. exists q. split; [done|]. apply list_elem_of_filter. split; [|done].
  rewrite retryTold_reserved. unfold reservation, sourceFits, addressed. rewrite Hw, Hi, Et, E1, E2, E3, Hto, Ew.
  simpl. rewrite (bool_decide_eq_false_2 (_ ∈ reserved l)) by done. rewrite (bool_decide_eq_false_2 (t ∈ _)) by done. simpl.
  rewrite bool_decide_eq_true_2 by done. simpl. destruct (audience q) as [a|]; [|done]. simpl in Hau. by rewrite bool_decide_eq_true_2.
Qed.

Lemma raise_waits u l i n ws src older o m :
  Inv (u_ids u) l → opOk (u_ids u) (ORaise i n ws (Some src) older o) → src ∉ seen l → src ∉ older →
  scopeOf (ANotice n) = workspace →
  m ∈ orNone (objGet ws (members l)) → open m || continued m = true → wasThere otherDate (o_at o) m = true →
  taker m ∉ orNone (o_told o) →
  Waiting src ws i (taker m) (apply (ORaise i n ws (Some src) older o) l).
Proof.
  intros HI [Hf _] Hsn Hol Hws Hm Hopen Hthere Htold. apply Forall_singleton in Hf as [Hio Hnew].
  assert (i ++ [0] ++ taker m ∉ reserved l) as Hres.
  { intros (j & Hj & Hk)%(inv_reserved _ _ HI). pose proof (inv_idOk _ _ HI) as HF. rewrite Forall_forall in HF.
    destruct Hk as [Hk|[t Hk]].
    - symmetry in Hk. apply key_nul in Hk; [done|by apply HF].
    - apply key_split in Hk as [Hij _]; [by rewrite Hij in Hnew|done|by apply HF]. }
  cbn [apply]. unfold raise. rewrite bool_decide_eq_false_2 by (simpl; rewrite setAdds_elem; naive_solver).
  set (l1 := match o_retry o with Some _ => _ | None => _ end).
  assert (members l1 = members l ∧ pending l1 = pending l ∧ reserved l1 = reserved l) as (Em & Ep & Er).
  { unfold l1. by destruct (o_retry o). }
  assert (taker m ∈ audienceOf otherDate ws o l1) as Ha.
  { unfold audienceOf. rewrite Em. apply list_elem_of_filter. split; [done|]. apply list_elem_of_fmap_2, list_elem_of_filter.
    by rewrite Hopen, Hthere. }
  unfold raiseNew. rewrite (bool_decide_eq_true_2 (scopeOf (ANotice n) = workspace) Hws). rewrite (bool_decide_eq_false_2 (Some _ = Some [])).
  2:{ intros [= E]. rewrite E in Ha. by apply elem_of_nil in Ha. }
  split; [|simpl; by rewrite Er]. eexists. split; [simpl; apply elem_of_app; right; by left|]. split_and!; try done. apply not_elem_of_nil.
Qed.


(** A Workspace notice is pending exactly while somebody is to hear it: each
    one that is pending has an audience fixed at its raise, with a member that
    has not heard it, or a cut Turn whose next Turn has not taken it. So no
    notice waits for nobody. *)
Theorem pending_is_wanted u l p :
  reach u l → p ∈ pending l → scopeOf (notice p) = workspace →
  ∃ a, audience p = Some a
    ∧ ((∃ t, t ∈ a ∧ t ∉ orNone (heardBy p)) ∨ ∃ r, r ∈ orNone (retry p) ∧ retried r = false).
Proof.
  intros Hr Hp Hw. destruct (inv_wanted _ _ (ledger_inv _ _ Hr) p Hp Hw) as [[a Ha] Hall]. exists a. split; [done|].
  unfold allHeard in Hall. rewrite Ha, Hw in Hall. simpl in Hall. apply andb_false_iff in Hall as [Hall|Hall].
  - left. destruct (decide (Exists (λ t, t ∉ orNone (heardBy p)) a)) as [(t & ? & ?)%Exists_exists|Hn]; [eauto|exfalso].
    apply not_true_iff_false in Hall. apply Hall, forallb_forall. intros t Ht. apply bool_decide_eq_true.
    destruct (decide (t ∈ orNone (heardBy p))); [done|]. destruct Hn. apply Exists_exists. exists t. by rewrite list_elem_of_In.
  - right. apply negb_false_iff, existsb_exists in Hall as (r & Hin & Hr'). exists r. split; [by apply list_elem_of_In|].
    by apply negb_true_iff in Hr'.
Qed.

(** ** The same event raised again *)

(** What a raise of [src] leaves behind, and nothing takes away. *)
Definition Marked (n : Notice) (src : jstr) (older : list jstr) (o : RaiseOptions) (l : Ledger) : Prop :=
  src ∈ seen l ∧ older ⊆ seen l
  ∧ ∀ r, o_retry o = Some r → scopeOf (ANotice n) = workspace → retryMark src (r_slot r) ∈ retriesSeen l.

Lemma mstep_marks lb l l' : mstep lb l l' → seen l ⊆ seen l' ∧ retriesSeen l ⊆ retriesSeen l'.
Proof. destruct 1; done. Qed.

Lemma raiseNew_marks i n t src o ch l :
  seen (raiseNew otherDate i n t src o ch l).2 = seen l ∧ retriesSeen (raiseNew otherDate i n t src o ch l).2 = retriesSeen l.
Proof.
  unfold raiseNew. set (aud := if bool_decide _ then _ else _). clearbody aud.
  destruct src; [|destruct (findFirst _ _); [by destruct aud|]]; by destruct (bool_decide _ && bool_decide _).
Qed.

Lemma addRetry_marks i n t src rt l :
  seen (addRetry i n t src rt l).2 = seen l
  ∧ ∀ r, rt = Some r → scopeOf (ANotice n) = workspace → retryMark src (r_slot r) ∈ retriesSeen (addRetry i n t src rt l).2.
Proof.
  unfold addRetry. destruct rt as [r|]; [|done]. case_bool_decide as Hw; simpl; [|by split].
  case_bool_decide; [by split; [|intros r' [= <-]]|].
  destruct (findFirst _ _); simpl; (split; [done|]); intros r' [= <-] _; apply setAdd_elem; by left.
Qed.

Lemma raise_marks i n t src older o l : Marked n src older o (raise otherDate i n t (Some src) older o l).2.
Proof.
  unfold raise, Marked. set (l1 := set_seen _ l).
  assert (older ⊆ seen l1) as Ho by (intros x Hx; apply setAdds_elem; by left).
  case_bool_decide as Hs.
  - pose proof (addRetry_marks i n t src (o_retry o) l1) as [E Hr]. destruct (addRetry _ _ _ _ _ _) as [ch l2]. simpl in *.
    by rewrite E.
  - set (l2 := match o_retry o with Some _ => _ | None => _ end).
    destruct (raiseNew_marks i n t (Some src) o true l2) as [-> ->].
    assert (seen l2 = setAdd src (seen l1)) as E by (unfold l2; by destruct (o_retry o)). rewrite E. split_and!.
    + apply setAdd_elem. by left.
    + intros x Hx. apply setAdd_elem. right. by apply Ho.
    + intros r Er _. unfold l2. rewrite Er. apply setAdd_elem. by left.
Qed.

Lemma setAdd_same x s : x ∈ s → setAdd x s = s.
Proof. intros. unfold setAdd. by rewrite bool_decide_eq_true_2. Qed.

Lemma marked_noop i n t src older o l :
  Marked n src older o l → raise otherDate i n t (Some src) older o l = (false, l).
Proof.
  intros (Hs & Ho & Hr). unfold raise.
  assert (foldl (λ s x, setAdd x s) (seen l) older = seen l) as ->.
  { induction older as [|x older IH]; [done|]. simpl. rewrite setAdd_same by (apply Ho; by left). apply IH.
    - intros y Hy. apply Ho. by right. }
  assert (set_seen (seen l) l = l) as -> by (by destruct l). rewrite bool_decide_eq_true_2 by done.
  assert (existsb (λ s, negb (bool_decide (s ∈ seen l))) older = false) as ->.
  { apply not_true_iff_false. intros (x & Hx & E)%existsb_exists. zbool. apply E, Ho. by apply list_elem_of_In. }
  unfold addRetry. destruct (o_retry o) as [r|]; [|done]. case_bool_decide as Hw; [|done]. simpl.
  by rewrite bool_decide_eq_true_2 by auto.
Qed.

(** The same event is one notice. After a raise with a source, a second
    raise of the same event, by another witness or a replayed stream, changes
    nothing and says so, whatever calls come in between: deliveries, the
    notice's retirement and restarts included. *)
Theorem replayed_raise_is_noop u l i n t src older o u' l' i' :
  reach u l → opOk (u_ids u) (ORaise i n t (Some src) older o) →
  path anyOp (use (ORaise i n t (Some src) older o) u) (raise otherDate i n t (Some src) older o l).2 u' l' →
  raise otherDate i' n t (Some src) older o l' = (false, l').
Proof.
  intros Hr Hok Hp. apply marked_noop. pose proof (ledger_inv _ _ Hr) as HI. set (op := ORaise i n t (Some src) older o) in *.
  assert (path anyOp u l (use op u) (apply op l)) as Hraise by (by apply path_snoc; [constructor|..]).
  destruct (path_steps anyOp (λ _, True) _ _ _ _ (λ _ _ _ _ _ _ _ _ _ _ _, I) Hraise HI I) as [HI1 _].
  refine (proj2 (path_steps _ (Marked n src older o) _ _ _ _ _ Hp HI1 (raise_marks i n t src older o l))).
  intros u0 op' lb l0 l0' _ _ _ _ Hm (H1 & H2 & H3). destruct (mstep_marks _ _ _ Hm) as [S1 S2].
  split_and!; [by apply S1|by etransitivity|]. intros. apply S2. by apply H3.
Qed.

(** ** The record of the messages *)

Definition rkey (r : SteeringRecord) : jstr * jstr * jstr := (s_agent r, s_at r, s_text r).

Lemma recordOf_key r m s : recordOf r m s = true ↔ rkey r = mkey m s.
Proof.
  unfold recordOf, rkey, mkey. rewrite !andb_true_iff, !bool_decide_eq_true. split.
  - by intros [[-> ->] ->].
  - by intros [= -> -> ->].
Qed.

(** What the callers keep to when they send messages: no message to a slot is
    sent twice with the same time and text, and only a sent one is put back. *)
Definition sendsOnce (u : Used) (op : Op) : Prop :=
  match op with
  | OSteer _ m s => mkey m s ∉ u_keys u
  | ORestore _ (Steering m) s _ _ => mkey m s ∈ u_keys u
  | _ => True
  end.

Record MInv (keys : list (jstr * jstr * jstr)) (l : Ledger) : Prop := mkMInv {
  m_records : NoDup (rkey <$> steering l);
  m_pending : NoDup (pendingKeys (pending l));
  m_held : ∀ r, r ∈ steering l → outcome r = held ↔ rkey r ∈ pendingKeys (pending l);
  m_keys : (rkey <$> steering l) ++ pendingKeys (pending l) ⊆ keys;
}.

Lemma setOutcome_keys m s o rs : rkey <$> setOutcome m s o rs = rkey <$> rs.
Proof. unfold setOutcome. induction rs as [|r rs IH]; [done|]. simpl. destruct (recordOf r m s); [done|exact (f_equal (cons (rkey r)) IH)]. Qed.

Lemma setOutcome_elem m s o rs r' :
  NoDup (rkey <$> rs) → r' ∈ setOutcome m s o rs →
  rkey r' = mkey m s ∧ outcome r' = o ∨ rkey r' ≠ mkey m s ∧ r' ∈ rs.
Proof.
  unfold setOutcome. induction rs as [|r rs IH]; intros HN Hin; simpl in *; [by apply elem_of_nil in Hin|].
  apply NoDup_cons in HN as [Hr HN]. destruct (recordOf r m s) eqn:E.
  - apply recordOf_key in E. apply elem_of_cons in Hin as [->|Hin]; [by left|]. right. split; [|by right].
    intros E'. apply Hr. rewrite E, <- E'. by apply list_elem_of_fmap_2.
  - assert (rkey r ≠ mkey m s) as Hne by (intros ?%recordOf_key; congruence).
    apply elem_of_cons in Hin as [->|Hin]; [right; split; [done|by left]|].
    destruct (IH HN Hin) as [?|[? ?]]; [by left|right; split; [done|by right]].
Qed.

Lemma pendingKeys_app ps qs : pendingKeys (ps ++ qs) = pendingKeys ps ++ pendingKeys qs.
Proof. unfold pendingKeys. by rewrite omap_app. Qed.

Lemma pendingKeys_put n p e o ps : ps !! n = Some p → change e p o → pendingKeys (put n o ps) = pendingKeys ps.
Proof.
  intros Hn Hc. rewrite <- (take_drop_middle _ _ _ Hn) at 2.
  assert (put n o ps = firstn n ps ++ match o with Some q => q :: drop (S n) ps | None => drop (S n) ps end) as ->.
  { destruct o as [q|]; simpl; [|apply delete_take_drop]. by apply insert_take_drop, lookup_lt_Some with p. }
  rewrite !pendingKeys_app. f_equal. unfold pendingKeys. destruct o as [q|].
  - apply change_same in Hc as (_ & En & Et & _). simpl. by rewrite En, Et.
  - assert (scopeOf (notice p) = workspace) as Hw by (by eapply change_gone). simpl. destruct (notice p) as [[]|]; done.
Qed.

Lemma pendingKeys_delete n p ps :
  ps !! n = Some p →
  pendingKeys ps ≡ₚ match notice p with Steering m => [mkey m (to p)] | ANotice _ => [] end ++ pendingKeys (delete n ps).
Proof.
  intros Hn. rewrite <- (take_drop_middle _ _ _ Hn) at 1. rewrite delete_take_drop, !pendingKeys_app.
  unfold pendingKeys at 2. simpl. destruct (notice p); [done|]. simpl. symmetry. apply Permutation_middle.
Qed.

Lemma mstep_messages keys lb l l' :
  (∀ i, lb ≠ LMessage i) → mstep lb l l' → MInv keys l → MInv keys l'.
Proof.
  intros Hlb Hm [H1 H2 H3 H4].
  assert (steering l' = steering l → pendingKeys (pending l') = pendingKeys (pending l) → MInv keys l') as Hsame.
  { intros E1 E2. constructor; by rewrite ?E1, ?E2. }
  destruct Hm; try (by apply Hsame); try (by destruct (Hlb i)).
  - apply Hsame; [done|]. by apply (pendingKeys_put n p e).
  - apply Hsame; [done|]. pose proof (pendingKeys_delete _ _ _ H) as HP. simpl. clear -HP H H0.
    rewrite <- (take_drop_middle _ _ _ H) at 2. rewrite delete_take_drop, !pendingKeys_app. f_equal. unfold pendingKeys. simpl.
    by destruct (notice p).
  - pose proof (pendingKeys_delete _ _ _ H) as HP. rewrite H0 in HP. simpl in HP.
    assert ((mkey m (to p) ∉ pendingKeys (delete n (pending l))) ∧ NoDup (pendingKeys (delete n (pending l)))) as [N1 N2].
    { rewrite HP in H2. by apply NoDup_cons in H2. }
    constructor; cbn [steering pending set_steering set_pending].
    + by rewrite setOutcome_keys.
    + done.
    + intros r [[Ek Eo]|[Ek Hr]]%setOutcome_elem; [split; [congruence|by rewrite Ek]| |done].
      rewrite (H3 r Hr), HP, elem_of_cons. naive_solver.
    + rewrite setOutcome_keys. intros k [Hk|Hk]%elem_of_app; apply H4, elem_of_app; [by left|right]. rewrite HP. by right.
  - apply Hsame; [done|]. cbn [pending set_pending]. rewrite pendingKeys_app. unfold pendingKeys at 2. destruct H as [Hs _].
    simpl. destruct (notice p); [|done]. by rewrite app_nil_r.
Qed.

Lemma NoDup_snoc {A} (l : list A) x : NoDup l → x ∉ l → NoDup (l ++ [x]).
Proof. intros. apply NoDup_app. split_and!; [done| |apply NoDup_singleton]. intros y ? ->%list_elem_of_singleton. done. Qed.

Lemma trimLoop_sub over rs : trimLoop over rs `sublist_of` rs.
Proof.
  revert over. induction rs as [|r rs IH]; intros over; simpl; [done|]. destruct (over <=? 0); [done|].
  case_bool_decide; [by apply sublist_skip|by apply sublist_cons].
Qed.

Lemma steer_messages i m s keys l :
  mkey m s ∉ keys → MInv keys l → MInv (mkey m s :: keys) (steer i m s l).2.
Proof.
  intros Hk [H1 H2 H3 H4]. cbn [steer snd].
  assert (mkey m s ∉ (rkey <$> steering l) ++ pendingKeys (pending l)) as Hn by (intros ?; by apply Hk, H4).
  rewrite not_elem_of_app in Hn. destruct Hn as [Hn1 Hn2].
  pose proof (trimLoop_sub (Z.of_nat (length (steering l ++ [mkRecord i s (author m) (m_text m) (m_at m) held])) - STEERING_RECORD_MAX)
    (steering l ++ [mkRecord i s (author m) (m_text m) (m_at m) held])) as Hsub. fold (trimRecord (steering l ++ [mkRecord i s (author m) (m_text m) (m_at m) held])) in Hsub.
  set (rs' := trimRecord _) in *.
  assert (pendingKeys (pending l ++ [mkPending i (Steering m) s None None None None None]) = pendingKeys (pending l) ++ [mkey m s]) as Ep
    by (by rewrite pendingKeys_app).
  constructor; cbn [steering pending set_steering set_pending]; rewrite ?Ep.
  - eapply sublist_NoDup; [|by apply fmap_sublist]. rewrite fmap_app. by apply NoDup_snoc.
  - by apply NoDup_snoc.
  - intros r Hr. pose proof (elem_of_sublist _ _ _ Hr Hsub) as [Hr'|Hr']%elem_of_app.
    + rewrite (H3 r Hr'), elem_of_app, list_elem_of_singleton. split; [by left|]. intros [?|E]; [done|].
      destruct Hn1. rewrite <- E. by apply list_elem_of_fmap_2.
    + apply list_elem_of_singleton in Hr' as ->. split; [|done]. intros _. apply elem_of_app. right. by left.
  - intros k [Hk'|[Hk'|Hk']%elem_of_app]%elem_of_app.
    + pose proof (elem_of_sublist _ _ _ Hk' (fmap_sublist rkey _ _ Hsub)) as Hk''. rewrite fmap_app in Hk''.
      apply elem_of_app in Hk'' as [?|Hk3]; [right; apply H4, elem_of_app; by left|].
      apply list_elem_of_singleton in Hk3 as ->. by left.
    + right. apply H4, elem_of_app. by right.
    + apply list_elem_of_singleton in Hk' as ->. by left.
Qed.

Lemma restore_messages i m s src tk keys l :
  mkey m s ∈ keys → MInv keys l → MInv keys (restore otherDate i (Steering m) s src tk l).2.
Proof.
  intros Hk HM. cbn [restore]. destruct (isRetired _ _ _) eqn:E1; [done|]. simpl. destruct (existsb _ _) eqn:E2; [done|]. simpl.
  assert (mkey m s ∉ pendingKeys (pending l)) as Hn.
  { rewrite pendingKeys_elem. intros (p & m' & Hp & En & [= E3 E4 E5]). apply not_true_iff_false in E2. apply E2.
    apply existsb_exists. exists p. split; [by apply list_elem_of_In|]. rewrite En, E4, E5, E3. by rewrite !bool_decide_eq_true_2. }
  destruct HM as [H1 H2 H3 H4].
  assert (pendingKeys (pending l ++ [mkPending i (Steering m) s None None None None None]) = pendingKeys (pending l) ++ [mkey m s]) as Ep
    by (by rewrite pendingKeys_app).
  constructor; cbn [steering pending set_steering set_pending]; rewrite ?Ep, ?setOutcome_keys; [done|by apply NoDup_snoc| |].
  - intros r [[Ek Eo]|[Ek Hr]]%setOutcome_elem; [| |done].
    + split; [intros _|done]. rewrite Ek. apply elem_of_app. right. by left.
    + rewrite (H3 r Hr), elem_of_app, list_elem_of_singleton. naive_solver.
  - intros k [?|[?|?]%elem_of_app]%elem_of_app; [apply H4, elem_of_app; by left|apply H4, elem_of_app; by right|].
    apply list_elem_of_singleton in H as ->. done.
Qed.

Lemma path_messages u l u' l' :
  path sendsOnce u l u' l' → Inv (u_ids u) l → MInv (u_keys u) l → MInv (u_keys u') l'.
Proof.
  intros Hp. induction Hp as [|u l u' l' op Hp IH Hok HQ]; intros HI HM; [done|]. specialize (IH HI HM).
  destruct (path_steps sendsOnce (λ _, True) _ _ _ _ (λ _ _ _ _ _ _ _ _ _ _ _, I) Hp HI I) as [HI' _].
  pose proof (apply_steps _ op l' (inv_ids _ _ HI') Hok (inv_used _ _ HI')) as Hms.
  assert ((∃ i m s, op = OSteer i m s) ∨ (∃ i m s src tk, op = ORestore i (Steering m) s src tk) ∨ ∀ i, ¬ okFor op (LMessage i)) as Hc.
  { destruct op; try (right; right; intros i (m' & s' & [?|(? & ? & ?)]); done); [left; eauto|].
    destruct b; [|right; left; eauto 8]. right. right. intros i (m' & s' & [?|(? & ? & ?)]); done. }
  destruct Hc as [(i & m & s & ->)|[(i & m & s & src & tk & ->)|Hno]].
  - by apply steer_messages.
  - by apply restore_messages.
  - assert (sends op = []) as Es. { destruct op; try done. destruct (Hno newId). simpl. eauto. }
    simpl. rewrite Es. simpl. clear -Hms IH Hno otherDate. induction Hms as [|x x1 x2 lb Hm Hl _ IHm]; [done|]. apply IHm.
    eapply mstep_messages; [|exact Hm|done]. intros i ->. by apply (Hno i).
Qed.

Lemma retireLoop_keeps mach ps l p m :
  p ∈ (retireLoop mach ps l).1.1 → notice p = Steering m → endsSlot mach (to p) = false.
Proof.
  revert l. induction ps as [|q ps IH]; intros l Hp En; simpl in Hp; [by apply elem_of_nil in Hp|].
  destruct (notice q) as [nt|m'] eqn:Eq; [|destruct (endsSlot mach (to q)) eqn:Es].
  - specialize (IH l). destruct (retireLoop mach ps l) as [[k l'] c]. apply elem_of_cons in Hp as [->|Hp]; [congruence|auto].
  - revert Hp. set (l3 := set_steering _ _). specialize (IH l3). destruct (retireLoop mach ps l3) as [[k l'] c]. auto.
  - specialize (IH l). destruct (retireLoop mach ps l) as [[k l'] c]. apply elem_of_cons in Hp as [->|Hp]; [done|auto].
Qed.

(** The record of the messages is true. While no slot is sent the same text
    at the same time twice, a message's record says [held] exactly while the
    message is pending, so it is waiting for a Turn; and once the Machine
    instance of a slot ended, no message to the slot is held: each one was heard
    or is recorded as not delivered. *)
Theorem messages_accounted u l :
  path sendsOnce (mkUsed [] []) (newLedger None) u l →
  (∀ r, r ∈ steering l →
     outcome r = held ↔ ∃ p m, p ∈ pending l ∧ notice p = Steering m ∧ rkey r = mkey m (to p))
  ∧ ∀ mach r, r ∈ steering (retire mach l).2 → endsSlot mach (s_agent r) = true → outcome r ≠ held.
Proof.
  intros Hp.
  assert (Inv [] (newLedger None)) as HI0 by (by apply (ledger_inv (mkUsed [] [])); constructor).
  assert (MInv [] (newLedger None)) as HM0.
  { constructor; simpl; [constructor|constructor| |done]. intros r Hr. by apply elem_of_nil in Hr. }
  split.
  - intros r Hr. pose proof (path_messages _ _ _ _ Hp HI0 HM0) as HM. rewrite (m_held _ _ HM r Hr). apply pendingKeys_elem.
  - intros mach r Hr Hs Ho.
    assert (path sendsOnce (mkUsed [] []) (newLedger None) (use (ORetire mach) u) (apply (ORetire mach) l)) as Hp'
      by (apply path_snoc; [done|by split; [constructor|]|done]).
    pose proof (path_messages _ _ _ _ Hp' HI0 HM0) as HM. apply (m_held _ _ HM r Hr), pendingKeys_elem in Ho as (p & m & Hin & En & Ek).
    cbn [apply] in Hin. unfold retire in Hin. pose proof (retireLoop_keeps mach (pending l) l p m) as Hk.
    destruct (retireLoop _ _ _) as [[k l'] c]. specialize (Hk Hin En). unfold rkey, mkey in Ek. injection Ek as Ea _ _. congruence.
Qed.

Lemma findFirst_head {A} (f : A → bool) x l : f x = true → findFirst f (x :: l) = Some x.
Proof. intros E. unfold findFirst. simpl. by rewrite decide_True. Qed.

(** The delivery of the oldest entry, a message. *)
Lemma deliver_message tk i m s ps l :
  pending l = mkPending i (Steering m) s None None None None None :: ps →
  deliverOne tk l i = set_steering (setOutcome m s heard (steering l)) (set_pending ps (set_reserved (reserved l ∖ {[i]}) l)).
Proof.
  intros E. unfold deliverOne. rewrite E, findFirst_head by (by apply bool_decide_eq_true).
  cbn [notice scopeOf to]. unfold reservation. cbn [notice scopeOf id].
  rewrite bool_decide_eq_false_2 by done. cbn [negb set_reserved pending steering set_pending]. rewrite E. cbn [alterFirst].
  unfold isId. cbn [id]. by rewrite bool_decide_eq_true_2.
Qed.

(** Two equal messages to a slot, sent and heard. *)
Definition heardBoth (m : SteeringMessage) (s i1 i2 : jstr) (tk : option jstr) : Ledger :=
  delivered [i1; i2] tk (steer i2 m s (steer i1 m s (newLedger None)).2).2.

(** Two messages of the same text that a slot is sent in the same
    millisecond share the first one's record: when both are heard, and nothing
    is pending, the second's record says [held] still, and the run's end does
    not retire it. *)
Theorem identical_messages_stay_held m s i1 i2 tk :
  pending (heardBoth m s i1 i2 tk) = [] ∧ outcome <$> steering (heardBoth m s i1 i2 tk) = [heard; held]
  ∧ retire None (heardBoth m s i1 i2 tk) = (false, heardBoth m s i1 i2 tk).
Proof.
  set (l := heardBoth m s i1 i2 tk).
  assert (∀ i a o, recordOf (mkRecord i s a (m_text m) (m_at m) o) m s = true) as Hrec by (intros; by apply recordOf_key).
  assert (l = mkLedger [] [] [] [] (∅ ∖ {[i1]} ∖ {[i2]}) ∅
                [mkRecord i1 s (author m) (m_text m) (m_at m) heard; mkRecord i2 s (author m) (m_text m) (m_at m) held]) as ->; [|done].
  unfold l, heardBoth, delivered. cbn [foldl].
  rewrite (deliver_message tk i1 m s [mkPending i2 (Steering m) s None None None None None]) by reflexivity.
  rewrite (deliver_message tk i2 m s []) by reflexivity.
  unfold setOutcome. simpl. rewrite Hrec. simpl. unfold set_outcome. simpl. by rewrite Hrec.
Qed.

End ledger.

(** ** Witnesses

    A conversation [c1] is admitted in the Workspace [w], and a memory kill
    there raises a notice. *)

Definition noDate : jstr → option Z := λ _, None.
Definition killed : Notice := MemoryLimit None (Some (js "1.9Gi")) (Some (js "2Gi")).
Definition atKill : RaiseOptions := mkOptions None None (Some (js "2026-01-01T00:00:01Z")).
Definition c1 : jstr := js "c1".
Definition inW : NoticeScope := mkScope None (Some (js "w")) (Some c1) (Some (js "m/coder")) true None None None.

Definition opAdmit : Op := OAdmitted (js "w") c1 (js "m/coder") true (js "2026-01-01T00:00:00.500Z").
Definition opKill : Op := ORaise (js "n1") killed (js "w") (Some (js "k1")) [] atKill.

Definition w0 : Ledger := apply noDate opAdmit (newLedger None).
Definition w1 : Ledger := apply noDate opKill w0.
Definition u0 : Used := mkUsed [] [].
Definition u1 : Used := use opKill u0.

Lemma kill_ok : opOk (u_ids u0) opKill.
Proof. split; [|by intros r]. apply Forall_singleton. unfold idOk. split; apply (bool_decide_eq_true_1 _); vm_compute; reflexivity. Qed.

Lemma w0_reach : reach noDate u0 w0.
Proof. apply (path_snoc noDate anyOp u0 _ u0 _ opAdmit); [constructor|by split; [constructor|]|done]. Qed.

Lemma w1_reach : reach noDate u1 w1.
Proof. apply (path_snoc noDate anyOp u0 _ u0 _ opKill); [apply w0_reach|apply kill_ok|done]. Qed.

Lemma notice_heard_once_witness :
  ids (take inW w1).1 = [js "n1"]
  ∧ (∀ u' l', path noDate (λ _ op, ¬ givesUp (js "n1") c1 op) u1 (take inW w1).2 u' l' → onlyOthers (js "n1") c1 l')
  ∧ ∀ u2 l2 is_ u' l', path noDate anyOp u1 (take inW w1).2 u2 l2 → js "n1" ∈ is_ → Forall idOk is_ →
      path noDate (λ _ op, ¬ putsBack c1 op) u2 (delivered is_ (Some c1) l2) u' l' → onlyOthers (js "n1") c1 l'.
Proof.
  split; [vm_compute; reflexivity|].
  apply (notice_heard_once noDate u1 w1 inW c1 (js "n1")); [apply w1_reach|reflexivity|discriminate|].
  apply (bool_decide_eq_true_1 _); vm_compute; reflexivity.
Defined.


Lemma pending_is_wanted_witness :
  ∃ p, pending w1 = [p] ∧ ∃ a, audience p = Some a
    ∧ ((∃ t, t ∈ a ∧ t ∉ orNone (heardBy p)) ∨ ∃ r, r ∈ orNone (retry p) ∧ retried r = false).
Proof.
  exists (mkPending (js "n1") (ANotice killed) (js "w") (Some (js "k1")) (Some [c1]) None None None).
  split; [vm_compute; reflexivity|]. apply (pending_is_wanted noDate u1 w1); [apply w1_reach| |reflexivity].
  assert (pending w1 = [mkPending (js "n1") (ANotice killed) (js "w") (Some (js "k1")) (Some [c1]) None None None]) as ->
    by (vm_compute; reflexivity). left.
Defined.

(** The notice was taken, delivered and retired, and the host restarted. *)
Definition w4 : Ledger := apply noDate ORestart (apply noDate (ODeliver [js "n1"] (Some c1)) (apply noDate (OTake inW) w1)).

Lemma replayed_raise_is_noop_witness :
  pending w4 = [] ∧ raise noDate (js "n2") killed (js "w") (Some (js "k1")) [] atKill w4 = (false, w4).
Proof.
  split; [vm_compute; reflexivity|].
  apply (replayed_raise_is_noop noDate u0 w0 (js "n1") killed (js "w") (js "k1") [] atKill u1 w4 (js "n2"));
    [apply w0_reach|apply kill_ok|].
  apply (path_snoc noDate anyOp _ _ u1 _ ORestart); [|by split; [constructor|]|done].
  apply (path_snoc noDate anyOp _ _ u1 _ (ODeliver [js "n1"] (Some c1))); [| |done].
  - apply (path_snoc noDate anyOp _ _ u1 _ (OTake inW)); [constructor|by split; [constructor|]|done].
  - split; [constructor|]. apply Forall_singleton. unfold idOk. apply (bool_decide_eq_true_1 _); vm_compute; reflexivity.
Defined.

Definition hello : SteeringMessage := mkMessage (js "hello") (machine None) (js "2026-01-01T00:00:00Z").

Definition wSent : Ledger := apply noDate (OSteer (js "s1") hello (js "m/coder")) (newLedger None).

Lemma messages_accounted_witness :
  outcome <$> steering wSent = [held] ∧ outcome <$> steering (retire (Some (js "m")) wSent).2 = [not_delivered]
  ∧ (∀ r, r ∈ steering wSent →
       outcome r = held ↔ ∃ p m, p ∈ pending wSent ∧ notice p = Steering m ∧ rkey r = mkey m (to p))
  ∧ ∀ mach r, r ∈ steering (retire mach wSent).2 → endsSlot mach (s_agent r) = true → outcome r ≠ held.
Proof.
  split; [vm_compute; reflexivity|]. split; [vm_compute; reflexivity|].
  apply (messages_accounted noDate (use (OSteer (js "s1") hello (js "m/coder")) u0) wSent).
  apply (path_snoc noDate sendsOnce u0 _ u0 _ (OSteer (js "s1") hello (js "m/coder"))); [constructor| |].
  - split; [|done]. apply Forall_singleton. unfold idOk. split; apply (bool_decide_eq_true_1 _); vm_compute; reflexivity.
  - apply not_elem_of_nil.
Defined.

End NoticesProofs.
