(* ===== verification/RunList.v ===== *)
(** * The run listing (orchestrator/src/run-list.ts, [RunHost.history],
    [grantOpens] of orchestrator/src/tokens.ts)

    A page of [GET /runs]: the live runs of the host's registry, the store's
    [live] rows that the registry does not hold, and the ended runs of the store,
    in one order.  [Host] is the registry as the listing reads it; the two reads
    of the store take the store (and, for the first, the registry) as they are
    when each is awaited.  What [Buffer.from] makes of text outside the base64url
    alphabet and [Date.parse] of text that is no UTC time are parameters. *)

From Stdlib Require Import Lia ZArith.
From stdpp Require Import base list strings sets sorting.
From S2P Require Import Prelude JsString Json Utf8 Sql IsoDate Store.

Open Scope Z_scope.

Module RunList.
Import Json Sql.

(** ** Statuses *)

Definition ENDED_STATUSES : list jstr := js <$> ["done"; "failed"; "error"; "cancelled"; "lost"; "drifted"]%string.
Definition LIVE_STATUS : jstr := js "active".

Definition isEndedStatus (word : jstr) : bool := bool_decide (word ∈ ENDED_STATUSES).

Definition shownOfRow (word : jstr) : jstr :=
  if bool_decide (word = js "live") then LIVE_STATUS else if isEndedStatus word then word else js "error".

(** ** Grants *)

Inductive GrantItem :=
| GName (name : jstr)
| GGates (workflow : jstr) (gates : list jstr).

Inductive Grant := All | Items (items : list GrantItem).

(** [workflow.slice(0, cut)] where [cut = workflow.indexOf("/")], when [cut > 0]. *)
Definition nameOpens (name workflow : jstr) : bool :=
  bool_decide (name = workflow)
  || match Store.wrapperOf workflow with
     | Some p => negb (bool_decide (p = [])) && bool_decide (name = p)
     | None => false
     end.

Definition itemName (i : GrantItem) : jstr := match i with GName n => n | GGates w _ => w end.

Definition grantOpens (g : option Grant) (workflow : jstr) : bool :=
  match g with
  | None => false
  | Some All => true
  | Some (Items l) => existsb (λ i, nameOpens (itemName i) workflow) l
  end.

Definition grantOpensGate (g : option Grant) (workflow gate : jstr) : bool :=
  match g with
  | None => false
  | Some All => true
  | Some (Items l) =>
      existsb (λ i, match i with
                    | GName n => nameOpens n workflow
                    | GGates w gates => nameOpens w workflow && bool_decide (gate ∈ gates)
                    end) l
  end.

(** ** Order *)

(** JavaScript's [<] on strings compares their units. *)
Definition jsLt (a b : jstr) : bool := bytesLt a b.

Record RunSummary := mkSummary {
  runId : jstr;
  workflow : jstr;
  status : jstr;
  reason : option json;
  startedBy : option json;
  startedAt : jstr;
  endedAt : option (option jstr);
  assembly : option json;
  openGates : Z;
  placing : list jstr;
  dispatchedBy : option json;
}.

(** The comparator's sign. *)
Definition newestFirst (a b : RunSummary) : Z :=
  if negb (bool_decide (startedAt a = startedAt b)) then (if jsLt (startedAt a) (startedAt b) then 1 else -1)
  else if jsLt (runId a) (runId b) then 1 else if jsLt (runId b) (runId a) then -1 else 0.

Definition isAfter (startedAt_ runId_ : jstr) (after : jstr * jstr) : bool :=
  jsLt startedAt_ after.1 || (bool_decide (startedAt_ = after.1) && jsLt runId_ after.2).

(** [Array.sort], which is stable. *)
Definition sortRuns (l : list RunSummary) : list RunSummary := orderBy (λ a b, newestFirst a b <? 0) l.

(** ** Cursors *)

Definition b64char (n : Z) : Z :=
  if n <? 26 then 65 + n else if n <? 52 then 71 + n else if n <? 62 then n - 4 else if n =? 62 then 45 else 95.

Definition b64val (c : Z) : option Z :=
  if (65 <=? c) && (c <=? 90) then Some (c - 65)
  else if (97 <=? c) && (c <=? 122) then Some (c - 71)
  else if (48 <=? c) && (c <=? 57) then Some (c + 4)
  else if c =? 45 then Some 62 else if c =? 95 then Some 63 else None.

Fixpoint toBase64url (bs : list Z) : jstr :=
  match bs with
  | [] => []
  | [a] => [b64char (a / 4); b64char (a mod 4 * 16)]
  | [a; b] => [b64char (a / 4); b64char (a mod 4 * 16 + b / 16); b64char (b mod 16 * 4)]
  | a :: b :: c :: bs' =>
      b64char (a / 4) :: b64char (a mod 4 * 16 + b / 16) :: b64char (b mod 16 * 4 + c / 64) :: b64char (c mod 64) :: toBase64url bs'
  end.

(** The bytes of sextets; one left over is dropped. *)
Fixpoint ofSextets (vs : list Z) : list Z :=
  match vs with
  | a :: b :: c :: d :: vs' => (a * 4 + b / 16) :: (b mod 16 * 16 + c / 4) :: (c mod 4 * 64 + d) :: ofSextets vs'
  | [a; b; c] => [a * 4 + b / 16; b mod 16 * 16 + c / 4]
  | [a; b] => [a * 4 + b / 16]
  | _ => []
  end.

Section cursor.
Variable otherBytes : jstr → list Z.
Variable otherDate : jstr → option Z.

Definition fromBase64url (s : jstr) : list Z :=
  match mapM b64val s with
  | Some vs => ofSextets vs
  | None => otherBytes s
  end.

Definition encodeCursor (startedAt_ runId_ : jstr) : jstr :=
  toBase64url (encode (stringify (JArr [JStr startedAt_; JStr runId_]))).

Definition decodeCursor (cursor : jstr) : option (jstr * jstr) :=
  match parse (decode (fromBase64url cursor)) with
  | Some (JArr [JStr st; JStr r]) => if bool_decide (is_Some (IsoDate.dateParse otherDate st)) then Some (st, r) else None
  | _ => None
  end.
End cursor.

(** ** Workspaces in [placing] *)

Inductive PlacingChild := mkChild (id : jstr) (value : json) (children : list PlacingChild).

Definition isPlacing (value : json) : bool := match value with JStr s => bool_decide (s = js "placing") | _ => false end.

Fixpoint placingAt (path : list jstr) (c : PlacingChild) : list jstr :=
  let 'mkChild i v cs := c in
  let here := path ++ [i] in
  (if isPlacing v then [join (js "/") here] else []) ++ concat (map (placingAt here) cs).

Definition placingOf (value : json) (children : list PlacingChild) : list jstr :=
  (if isPlacing value then [[]] else []) ++ concat (map (placingAt []) children).

(** ** A page *)

(** A hosted run, as the listing reads its status and its open Gates. *)
Record HostedRun := mkHosted {
  h_runId : jstr;
  h_workflow : jstr;
  h_status : jstr;
  h_reason : option jstr;
  h_fault : option jstr;
  h_startedBy : option json;
  h_startedAt : jstr;
  h_assembly : option jstr;
  h_gates : Z;
  h_value : json;
  h_children : list PlacingChild;
  h_dispatchedBy : option json;
}.

Abbreviation Host := (list HostedRun).

Definition summaryOf (s : HostedRun) : RunSummary :=
  mkSummary (h_runId s) (h_workflow s) (h_status s)
    (JStr <$> match h_reason s with Some r => Some r | None => h_fault s end)
    (h_startedBy s) (h_startedAt s) None (JStr <$> h_assembly s) (h_gates s) (placingOf (h_value s) (h_children s)) (h_dispatchedBy s).

Record RunListQuery := mkListQuery {
  live : bool;
  ended : option (list jstr);
  q_workflow : option jstr;
  q_since : option jstr;
  q_after : option (jstr * jstr);
  limit : Z;
}.

Record RunPage := mkPage { runs : list RunSummary; next : option jstr }.

(** [readable] is ["all"] ([None]) or the names of the Caller's grant. *)
Definition grantOf (readable : option (list jstr)) : option Grant :=
  Some match readable with None => All | Some l => Items (GName <$> l) end.

Definition hasRun (h : Host) (r : jstr) : bool := bool_decide (r ∈ h_runId <$> h).

Definition liveOf (q : RunListQuery) (readable : option (list jstr)) (h : Host) : list RunSummary :=
  if live q then
    summaryOf <$> filter (λ s,
      bool_decide (h_status s = LIVE_STATUS) && grantOpens (grantOf readable) (h_workflow s)
      && Store.opt (q_workflow q) (λ w, bool_decide (h_workflow s = w))
      && Store.opt (q_since q) (λ t, negb (jsLt (h_startedAt s) t))
      && Store.opt (q_after q) (isAfter (h_startedAt s) (h_runId s)) = true) h
  else [].

Definition filterOf (q : RunListQuery) (readable : option (list jstr)) (statuses : option (list jstr)) (n : Z) : Store.EndedQuery :=
  Store.mkQuery statuses readable (q_workflow q) (q_since q) (q_after q) n.

Definition rowSummary (isEnded : bool) (row : Store.EndedRow) : RunSummary :=
  mkSummary (Store.e_runId row) (Store.e_workflow row) (if isEnded then shownOfRow (Store.e_status row) else LIVE_STATUS)
    (match Store.e_reason row with Some r => Some r | None => if isEnded then None else Some (JStr (js "waiting for restore")) end)
    (Store.e_startedBy row) (Store.e_startedAt row) (if isEnded then Some (Store.e_endedAt row) else None)
    (Store.e_assembly row) 0 [] (Store.e_dispatchedBy row).

Definition notHosted (h : Host) (rows : list Store.EndedRow) : list RunSummary :=
  rowSummary false <$> filter (λ row, hasRun h (Store.e_runId row) = false) rows.

Definition endedRows (rows : list Store.EndedRow) : list RunSummary := rowSummary true <$> rows.

Definition waitingOf (q : RunListQuery) (readable : option (list jstr)) (n : Z) (h : Host) (db : Store.Store)
  : result Store.Fault (list RunSummary) :=
  if live q then
    rows ← Store.liveRows (filterOf q readable None n) db; Ok (notHosted h rows)
  else Ok [].

Definition endedOf (q : RunListQuery) (readable : option (list jstr)) (n : Z) (db : Store.Store) : result Store.Fault (list RunSummary) :=
  match ended q with
  | Some statuses => rows ← Store.ended (filterOf q readable (Some statuses) n) db; Ok (endedRows rows)
  | None => Ok []
  end.

(** The two halves in one order; a live run wins over its row. *)
Definition merge (lv stored : list RunSummary) : list RunSummary :=
  sortRuns (lv ++ filter (λ r, runId r ∉ (runId <$> lv)) stored).

Definition pageOf (n : Z) (merged : list RunSummary) : RunPage :=
  let page := take (Z.to_nat n) merged in
  mkPage page
    (match last page with
     | Some r => if n <? Z.of_nat (length merged) then Some (encodeCursor (startedAt r) (runId r)) else None
     | None => None
     end).

(** [h] is the registry at the call, [h1] and [db1] the state at the first read
    of the store, [db2] the store at the second. *)
Definition history (q : RunListQuery) (readable : option (list jstr)) (h h1 : Host) (db1 db2 : Store.Store)
  : result Store.Fault RunPage :=
  waiting ← waitingOf q readable (limit q + 1 + Z.of_nat (length h)) h1 db1;
  endedRuns ← endedOf q readable (limit q + 1) db2;
  Ok (pageOf (limit q) (merge (liveOf q readable h) (waiting ++ endedRuns))).

End RunList.
