(* ===== verification/RunListProofs.v ===== *)
(** * The run listing: pages of two halves are one listing *)

From Stdlib Require Import Lia ZArith.
From stdpp Require Import base list strings sets sorting.
From S2P Require Import Prelude JsString Json Utf8 Sql IsoDate Store StoreProofs RunList.

Open Scope Z_scope.

Module RunListProofs.
Import Json Sql RunList.

(** ** Text of ASCII characters: one order, for JavaScript and for SQLite *)

Definition ascii (s : jstr) : Prop := Forall (λ c, 0 <= c <= 0x7f) s.

#[export] Instance ascii_dec s : Decision (ascii s).
Proof. unfold ascii. apply _. Defined.

Lemma ascii_plain c : 0 <= c <= 0x7f → is_high c = false ∧ is_low c = false.
Proof. intros. unfold is_high, is_low. split; apply andb_false_iff; left; apply Z.leb_gt; lia. Qed.

Lemma textLt_ascii a b : ascii a → ascii b → textLt a b = jsLt a b.
Proof. intros Ha Hb. unfold textLt, jsLt. by rewrite !encode_ascii. Qed.

(** ** Cursors *)

Lemma b64_char n : 0 <= n < 64 → b64val (b64char n) = Some n.
Proof.
  intros Hn. unfold b64char, b64val.
  destruct (Z.ltb_spec n 26); [|destruct (Z.ltb_spec n 52); [|destruct (Z.ltb_spec n 62); [|destruct (Z.eqb_spec n 62)]]].
  - assert ((65 <=? 65 + n) && (65 + n <=? 90) = true) as -> by (apply andb_true_iff; split; apply Z.leb_le; lia). f_equal. lia.
  - assert ((65 <=? 71 + n) && (71 + n <=? 90) = false) as -> by (apply andb_false_iff; right; apply Z.leb_gt; lia).
    assert ((97 <=? 71 + n) && (71 + n <=? 122) = true) as -> by (apply andb_true_iff; split; apply Z.leb_le; lia). f_equal. lia.
  - assert ((65 <=? n - 4) && (n - 4 <=? 90) = false) as -> by (apply andb_false_iff; left; apply Z.leb_gt; lia).
    assert ((97 <=? n - 4) && (n - 4 <=? 122) = false) as -> by (apply andb_false_iff; left; apply Z.leb_gt; lia).
    assert ((48 <=? n - 4) && (n - 4 <=? 57) = true) as -> by (apply andb_true_iff; split; apply Z.leb_le; lia). f_equal. lia.
  - by subst.
  - by replace n with 63 by lia.
Qed.

(** The six-bit groups of bytes. *)
Fixpoint sextets (bs : list Z) : list Z :=
  match bs with
  | [] => []
  | [a] => [a / 4; a mod 4 * 16]
  | [a; b] => [a / 4; a mod 4 * 16 + b / 16; b mod 16 * 4]
  | a :: b :: c :: bs' => a / 4 :: a mod 4 * 16 + b / 16 :: b mod 16 * 4 + c / 64 :: c mod 64 :: sextets bs'
  end.

Lemma triples_ind (Q : list Z → Prop) :
  Q [] → (∀ a, Q [a]) → (∀ a b, Q [a; b]) → (∀ a b c bs, Q bs → Q (a :: b :: c :: bs)) → ∀ bs, Q bs.
Proof.
  intros H0 H1 H2 H3. fix IH 1. intros [|a [|b [|c bs]]]; [done|apply H1|apply H2|apply H3, IH].
Qed.

Ltac six := repeat match goal with
  | |- context [?x / ?y] => lazymatch goal with H : 0 <= x mod y < y |- _ => fail | _ => pose proof (Z.mod_pos_bound x y ltac:(lia)); pose proof (Z.div_mod x y ltac:(lia)) end
  | |- context [?x mod ?y] => lazymatch goal with H : 0 <= x mod y < y |- _ => fail | _ => pose proof (Z.mod_pos_bound x y ltac:(lia)); pose proof (Z.div_mod x y ltac:(lia)) end
  end.

Lemma sextets_ok bs : Forall (λ b, 0 <= b < 256) bs → Forall (λ v, 0 <= v < 64) (sextets bs) ∧ toBase64url bs = b64char <$> sextets bs.
Proof.
  revert bs. apply (triples_ind (λ bs, Forall (λ b, 0 <= b < 256) bs → Forall (λ v, 0 <= v < 64) (sextets bs) ∧ toBase64url bs = b64char <$> sextets bs)).
  - done.
  - intros a Ha. rewrite Forall_singleton in Ha. split; [|done]. repeat constructor; six; lia.
  - intros a b H. apply Forall_cons in H as [Ha Hb]. rewrite Forall_singleton in Hb. split; [|done]. repeat constructor; six; lia.
  - intros a b c bs IH H. apply Forall_cons in H as [Ha H]. apply Forall_cons in H as [Hb H]. apply Forall_cons in H as [Hc H].
    destruct (IH H) as [I1 I2]. split; [simpl; repeat (apply Forall_cons; split; [six; lia|]); done|].
    cbn [toBase64url sextets]. by rewrite I2.
Qed.

Lemma ofSextets_sextets bs : Forall (λ b, 0 <= b < 256) bs → ofSextets (sextets bs) = bs.
Proof.
  revert bs. apply (triples_ind (λ bs, Forall (λ b, 0 <= b < 256) bs → ofSextets (sextets bs) = bs)).
  - done.
  - intros a Ha. rewrite Forall_singleton in Ha. simpl. f_equal. six. lia.
  - intros a b H. apply Forall_cons in H as [Ha Hb]. rewrite Forall_singleton in Hb. simpl. repeat f_equal; six; lia.
  - intros a b c bs IH H. apply Forall_cons in H as [Ha H]. apply Forall_cons in H as [Hb H]. apply Forall_cons in H as [Hc H].
    cbn [sextets ofSextets]. rewrite (IH H). repeat f_equal; six; lia.
Qed.

Lemma base64_roundtrip other bs : Forall (λ b, 0 <= b < 256) bs → fromBase64url other (toBase64url bs) = bs.
Proof.
  intros H. destruct (sextets_ok bs H) as [H1 H2]. unfold fromBase64url. rewrite H2.
  assert (mapM b64val (b64char <$> sextets bs) = Some (sextets bs)) as ->; [|by apply ofSextets_sextets].
  apply mapM_Some. clear H2. induction H1 as [|v vs Hv _ IH]; simpl; constructor; [by apply b64_char|done].
Qed.

Lemma ascii_app a b : ascii (a ++ b) ↔ ascii a ∧ ascii b.
Proof. apply Forall_app. Qed.

Lemma ascii_escape_unit c : 0 <= c <= 0x7f → ascii (escape_unit c).
Proof.
  intros Hc. assert (ascii (escape_u c)) as Hu.
  { unfold escape_u, hex_lower. repeat constructor; six; repeat case_match; zbool; try lia. }
  unfold escape_unit. repeat case_match; try done; repeat constructor; lia.
Qed.

Lemma ascii_escape s : ascii s → ascii (escape s).
Proof.
  induction 1 as [|c s Hc Hs IH]; [constructor|]. destruct (ascii_plain c Hc) as [H1 H2]. simpl. rewrite H1, H2. simpl.
  apply ascii_app. split; [by apply ascii_escape_unit|done].
Qed.

Lemma ascii_quote s : ascii s → ascii (quote s).
Proof. intros Hs. unfold quote. rewrite !ascii_app. split_and!; [by repeat constructor|by apply ascii_escape|by repeat constructor]. Qed.

Section cursor.
Context (otherBytes : jstr → list Z) (otherDate : jstr → option Z).

(** A cursor that a page gave is read back as the run it names. *)
Lemma cursor_roundtrip st r :
  ascii st → ascii r → is_Some (IsoDate.dateParse otherDate st) →
  decodeCursor otherBytes otherDate (encodeCursor st r) = Some (st, r).
Proof.
  intros Hs Hr Hd. unfold decodeCursor, encodeCursor. set (v := JArr [JStr st; JStr r]).
  assert (ascii (stringify v)) as Ha.
  { assert (stringify v = [91] ++ (quote st ++ [44] ++ quote r) ++ [93]) as -> by reflexivity.
    rewrite !ascii_app. split_and!; try (by repeat constructor); by apply ascii_quote. }
  rewrite base64_roundtrip.
  2:{ rewrite encode_ascii by done. eapply Forall_impl; [exact Ha|]. simpl. intros. lia. }
  rewrite <- (app_nil_r (encode _)), decode_encode_app by (by apply ascii_well_formed). simpl decode. rewrite app_nil_r.
  rewrite parse_stringify.
  - unfold v. by rewrite bool_decide_eq_true_2.
  - unfold v. repeat constructor; unfold unit_ok; (eapply Forall_impl; [first [exact Hs|exact Hr]|]; simpl; intros; lia).
Qed.
End cursor.

(** ** Order *)

Definition before (a b : RunSummary) : bool := newestFirst a b <? 0.

Lemma before_spec a b :
  before a b = true ↔ jsLt (startedAt b) (startedAt a) = true ∨ startedAt a = startedAt b ∧ jsLt (runId b) (runId a) = true.
Proof.
  unfold before, newestFirst, jsLt. case_bool_decide as E; simpl.
  - rewrite E, bytesLt_irrefl. destruct (bytesLt (runId a) (runId b)) eqn:E1; [|destruct (bytesLt (runId b) (runId a)) eqn:E2].
    + split; [done|]. intros [?|[_ E2]]; [done|]. pose proof (bytesLt_trans _ _ _ E1 E2) as Hx. by rewrite bytesLt_irrefl in Hx.
    + split; [auto|done].
    + split; [done|]. naive_solver.
  - destruct (bytesLt (startedAt a) (startedAt b)) eqn:E1.
    + split; [done|]. intros [E2|[? _]]; [|done]. pose proof (bytesLt_trans _ _ _ E1 E2) as Hx. by rewrite bytesLt_irrefl in Hx.
    + split; [|done]. intros _. destruct (bytesLt_total (startedAt a) (startedAt b)) as [?|[?|?]]; [congruence|done|by left].
Qed.

Lemma before_irrefl a : before a a = false.
Proof. apply not_true_iff_false. rewrite before_spec. unfold jsLt. rewrite !bytesLt_irrefl. naive_solver. Qed.

Lemma before_trans a b c : before a b = true → before b c = true → before a c = true.
Proof.
  rewrite !before_spec. unfold jsLt. intros [H1|[E1 H1]] [H2|[E2 H2]].
  - left. by eapply bytesLt_trans.
  - left. by rewrite <- E2.
  - left. by rewrite E1.
  - right. split; [congruence|by eapply bytesLt_trans].
Qed.

(** Runs of a list with unique ids are ordered one way or the other. *)
Lemma before_total (u : list RunSummary) a b :
  NoDup (runId <$> u) → a ∈ u → b ∈ u → before a b = true ∨ a = b ∨ before b a = true.
Proof.
  intros HN Ha Hb. rewrite !before_spec. unfold jsLt.
  destruct (bytesLt_total (startedAt a) (startedAt b)) as [?|[E|?]]; auto.
  destruct (bytesLt_total (runId a) (runId b)) as [?|[Ei|?]]; [auto| |auto]. right. left.
  apply list_elem_of_lookup in Ha as [i Hi], Hb as [j Hj]. assert (i = j) as ->; [|congruence].
  eapply NoDup_lookup; [exact HN| |]; rewrite list_lookup_fmap; [by rewrite Hi|by rewrite Hj, Ei].
Qed.

Lemma isAfter_before x r : isAfter (startedAt r) (runId r) (startedAt x, runId x) = before x r.
Proof.
  apply eq_true_iff_eq. rewrite before_spec. unfold isAfter. simpl.
  rewrite orb_true_iff, andb_true_iff, bool_decide_eq_true. naive_solver.
Qed.

(** ** Pages *)

(** A page needs one run past its limit. *)
Lemma pageOf_take n m m' : 0 <= n → take (S (Z.to_nat n)) m = take (S (Z.to_nat n)) m' → pageOf n m = pageOf n m'.
Proof.
  intros Hn E. unfold pageOf.
  assert (take (Z.to_nat n) m = take (Z.to_nat n) m') as ->.
  { apply (f_equal (take (Z.to_nat n))) in E. rewrite !take_take in E. by replace (Z.to_nat n `min` S (Z.to_nat n))%nat with (Z.to_nat n) in E by lia. }
  assert ((n <? Z.of_nat (length m)) = (n <? Z.of_nat (length m'))) as ->; [|done].
  apply (f_equal length) in E. rewrite !length_take in E. apply eq_true_iff_eq. rewrite !Z.ltb_lt. lia.
Qed.

Definition sortedRuns (l : list RunSummary) : Prop := StronglySorted (λ a b, before a b = true) l.

Lemma sortRuns_sorted l : NoDup (runId <$> l) → sortedRuns (sortRuns l).
Proof.
  intros HN. apply (orderBy_sorted before (λ a, a ∈ l) before_irrefl before_trans (λ a b, before_total l a b HN)); [by apply Forall_forall|].
  by eapply NoDup_fmap_1.
Qed.

Lemma sortRuns_perm l k : NoDup (runId <$> l) → l ≡ₚ k → sortRuns l = sortRuns k.
Proof.
  intros HN Hp. apply (sorted_unique before before_irrefl before_trans).
  - by apply sortRuns_sorted.
  - apply sortRuns_sorted. by rewrite <- Hp.
  - unfold sortRuns. by rewrite !orderBy_perm.
Qed.

Lemma sort_prefix n l x y :
  NoDup (runId <$> l ++ x ++ y) → sortedRuns (x ++ y) → y = [] ∨ (n <= length x)%nat →
  take n (sortRuns (l ++ x ++ y)) = take n (sortRuns (l ++ x)).
Proof.
  intros HN HS Hn.
  apply (orderBy_prefix before (λ r, r ∈ l ++ x ++ y) before_irrefl before_trans (λ a b, before_total _ a b HN)); [by apply Forall_forall| | |done].
  - by eapply NoDup_fmap_1.
  - intros a b Ha Hb. exact (StronglySorted_app_1_elem_of (λ a b, before a b = true) x y a b HS Ha Hb).
Qed.

(** Of two sorted parts, as many as the page holds are enough. *)
Lemma sort_prefixes n l x1 y1 x2 y2 :
  NoDup (runId <$> l ++ (x1 ++ y1) ++ x2 ++ y2) → sortedRuns (x1 ++ y1) → sortedRuns (x2 ++ y2) →
  y1 = [] ∨ (n <= length x1)%nat → y2 = [] ∨ (n <= length x2)%nat →
  take n (sortRuns (l ++ x1 ++ x2)) = take n (sortRuns (l ++ (x1 ++ y1) ++ x2 ++ y2)).
Proof.
  intros HN S1 S2 H1 H2.
  assert (l ++ (x1 ++ y1) ++ x2 ++ y2 ≡ₚ (l ++ x2 ++ y2) ++ x1 ++ y1) as P1 by solve_Permutation.
  assert ((l ++ x2 ++ y2) ++ x1 ≡ₚ (l ++ x1) ++ x2 ++ y2) as P2 by solve_Permutation.
  rewrite (sortRuns_perm _ _ HN P1), (sort_prefix n (l ++ x2 ++ y2) x1 y1); [|by rewrite <- P1|done|done].
  assert (NoDup (runId <$> (l ++ x2 ++ y2) ++ x1)) as HN'.
  { rewrite P1, app_assoc in HN. rewrite fmap_app in HN. by apply NoDup_app in HN as (? & _). }
  rewrite (sortRuns_perm _ _ HN' P2), (sort_prefix n (l ++ x1) x2 y2); [by rewrite app_assoc|by rewrite <- P2|done|done].
Qed.

Lemma sorted_filter (P : RunSummary → Prop) `{∀ x, Decision (P x)} l : sortedRuns l → sortedRuns (filter P l).
Proof.
  unfold sortedRuns. induction 1 as [|x l HS IH Hx]; [constructor|]. rewrite filter_cons. case_decide; [|done].
  apply StronglySorted_cons. split; [|done]. apply Forall_forall. intros y [_ Hy]%list_elem_of_filter. rewrite Forall_forall in Hx. auto.
Qed.

Lemma filter_split {A} (P : A → Prop) `{∀ x, Decision (P x)} (l : list A) :
  (length (filter P l) + length (filter (λ x, ¬ P x) l) = length l)%nat.
Proof. induction l as [|x l IH]; [done|]. rewrite !filter_cons. repeat case_decide; simpl; try done; lia. Qed.

(** ** The store's half *)

Definition noRow : Store.EndedRow := Store.mkEnded [] [] [] None [] None None None None.

(** The row of a listing, when its summary is an object. *)
Definition readRow (row : Store.Row) : Store.EndedRow := match Store.endedRowOf row with Ok e => e | Throw _ => noRow end.

Definition rowReads (row : Store.Row) : Prop := Store.endedRowOf row = Ok (readRow row).

Lemma readRow_key row : rowReads row → Store.e_runId (readRow row) = Store.run_id row
  ∧ Store.e_startedAt (readRow row) = default [] (Store.started_at row) ∧ Store.e_workflow (readRow row) = default [] (Store.workflow row).
Proof.
  unfold rowReads. generalize (readRow row). intros e. unfold Store.endedRowOf.
  destruct (match Store.summary row with Some _ => _ | None => _ end); intros E; try done; by injection E as <-.
Qed.

Lemma mapThrow_ok {A B} (f : A → result Store.Fault B) (g : A → B) l :
  (∀ x, x ∈ l → f x = Ok (g x)) → Store.mapThrow f l = Ok (g <$> l).
Proof.
  induction l as [|x l IH]; intros H; [done|]. simpl. rewrite H by left. simpl. rewrite IH; [done|]. intros y Hy. apply H. by right.
Qed.

Lemma unique_row (rows : list Store.Row) x y :
  NoDup (Store.run_id <$> rows) → x ∈ rows → y ∈ rows → Store.run_id x = Store.run_id y → x = y.
Proof.
  intros HN [i Hi]%list_elem_of_lookup [j Hj]%list_elem_of_lookup E. assert (i = j) as ->; [|congruence].
  eapply NoDup_lookup; [exact HN| |]; rewrite list_lookup_fmap; [by rewrite Hi|by rewrite Hj, E].
Qed.

Section pages.
Context (otherBytes : jstr → list Z) (otherDate : jstr → option Z).
Context (h : Host) (db : Store.Store) (q0 : RunListQuery) (readable : option (list jstr)).

(** The registry and the store as the host keeps them: ids are unique, a hosted
    run that is active has no ended row, ids and times are ASCII text, a start
    is a time, and a row's summary is what [save] wrote. *)
Hypothesis rows_unique : NoDup (Store.run_id <$> Store.machine_snapshots db).
Hypothesis hosted_unique : NoDup (h_runId <$> h).
Hypothesis one_half : ∀ s row, s ∈ h → h_status s = LIVE_STATUS → row ∈ Store.machine_snapshots db →
  Store.run_id row = h_runId s → Store.status row = Store.LIVE.
Hypothesis rows_ok : ∀ row, row ∈ Store.machine_snapshots db →
  ascii (Store.run_id row) ∧ ascii (default [] (Store.started_at row)) ∧ rowReads row
  ∧ is_Some (IsoDate.dateParse otherDate (default [] (Store.started_at row))).
Hypothesis hosted_ok : ∀ s, s ∈ h → ascii (h_runId s) ∧ ascii (h_startedAt s) ∧ is_Some (IsoDate.dateParse otherDate (h_startedAt s)).
Hypothesis limit_pos : 0 < limit q0.

(** The query of the page after a cursor. *)
Definition at_ (a : option (jstr * jstr)) : RunListQuery :=
  mkListQuery (live q0) (ended q0) (q_workflow q0) (q_since q0) a (limit q0).

Definition storeQuery (isLive : bool) (a : option (jstr * jstr)) (n : Z) : Store.EndedQuery :=
  filterOf (at_ a) readable (if isLive then None else ended q0) n.

Definition rowsOf (isLive : bool) (a : option (jstr * jstr)) : list Store.Row := Store.pageRows isLive (storeQuery isLive a (-1)) db.

Lemma rowsOf_elem isLive a row : row ∈ rowsOf isLive a → row ∈ Store.machine_snapshots db ∧ Store.selects isLive (storeQuery isLive a (-1)) row = true.
Proof.
  unfold rowsOf, Store.pageRows. destruct (_ || _); [by intros ?%elem_of_nil|]. unfold limitTo. simpl.
  rewrite orderBy_elem, list_elem_of_filter. tauto.
Qed.

Lemma pageRows_limit isLive a n : 0 <= n → Store.pageRows isLive (storeQuery isLive a n) db = take (Z.to_nat n) (rowsOf isLive a).
Proof.
  intros Hn. unfold rowsOf, Store.pageRows. simpl. destruct (_ || _); [by rewrite take_nil|]. unfold limitTo. simpl.
  assert ((n <? 0) = false) as -> by (apply Z.ltb_ge; lia). done.
Qed.

Lemma read_rows (rows : list Store.Row) :
  rows ⊆ Store.machine_snapshots db → Store.mapThrow Store.endedRowOf rows = Ok (readRow <$> rows).
Proof. intros Hs. apply mapThrow_ok. intros row Hr. by apply rows_ok, Hs. Qed.

(** The summaries of the store's rows, in their order. *)
Definition summaries (isLive : bool) (a : option (jstr * jstr)) : list RunSummary := rowSummary (negb isLive) ∘ readRow <$> rowsOf isLive a.

Definition W (a : option (jstr * jstr)) : list RunSummary :=
  if live q0 then filter (λ r, hasRun h (runId r) = false) (summaries true a) else [].

Definition E (a : option (jstr * jstr)) : list RunSummary := match ended q0 with Some _ => summaries false a | None => [] end.

Definition L (a : option (jstr * jstr)) : list RunSummary := liveOf (at_ a) readable h.

Lemma newer_before (b : bool) x y :
  x ∈ Store.machine_snapshots db → y ∈ Store.machine_snapshots db →
  before (rowSummary b (readRow x)) (rowSummary b (readRow y)) = Store.newer x y.
Proof.
  intros Hx Hy. destruct (rows_ok x Hx) as (X1 & X2 & X3 & _), (rows_ok y Hy) as (Y1 & Y2 & Y3 & _).
  destruct (readRow_key x X3) as (Ex1 & Ex2 & _), (readRow_key y Y3) as (Ey1 & Ey2 & _).
  apply eq_true_iff_eq. rewrite before_spec. unfold Store.newer. simpl. rewrite Ex1, Ex2, Ey1, Ey2.
  rewrite !textLt_ascii by done. by rewrite orb_true_iff, andb_true_iff, bool_decide_eq_true.
Qed.

Lemma rowsOf_sorted isLive a : StronglySorted (λ x y, Store.newer x y = true) (rowsOf isLive a) ∧ NoDup (rowsOf isLive a).
Proof.
  unfold rowsOf, Store.pageRows. destruct (_ || _); [split; constructor|]. unfold limitTo. simpl.
  assert (NoDup (filter (λ row, Store.selects isLive (storeQuery isLive a (-1)) row = true) (Store.machine_snapshots db))) as HN.
  { apply NoDup_filter. by eapply NoDup_fmap_1. }
  split; [|by rewrite orderBy_perm].
  apply (orderBy_sorted Store.newer (StoreProofs.inDb db) StoreProofs.newer_irrefl StoreProofs.newer_trans); [|by apply Forall_forall; intros x [_ ?]%list_elem_of_filter|done].
  apply StoreProofs.newer_total; [done|]. apply Forall_forall. intros row Hr. destruct (rows_ok row Hr) as (? & ? & _).
  split; by apply ascii_well_formed.
Qed.

Lemma summaries_sorted isLive a : sortedRuns (summaries isLive a).
Proof.
  destruct (rowsOf_sorted isLive a) as [HS _]. unfold summaries.
  assert (rowsOf isLive a ⊆ Store.machine_snapshots db) as Hsub by (intros x [? _]%rowsOf_elem; done).
  induction HS as [|x l HS IH Hx]; [constructor|]. apply StronglySorted_cons. split.
  - apply Forall_fmap, Forall_forall. intros y Hy. simpl. rewrite newer_before; [|apply Hsub; by left|apply Hsub; by right].
    rewrite Forall_forall in Hx. auto.
  - apply IH. intros y Hy. apply Hsub. by right.
Qed.

Lemma summaries_ids isLive a : runId <$> summaries isLive a = Store.run_id <$> rowsOf isLive a.
Proof.
  unfold summaries. rewrite <- list_fmap_compose. apply list_fmap_ext. intros i row Hi. simpl.
  apply list_elem_of_lookup_2, rowsOf_elem in Hi as [Hi _]. destruct (rows_ok row Hi) as (_ & _ & Hr & _). by destruct (readRow_key row Hr) as (-> & _).
Qed.

Lemma summaries_NoDup isLive a : NoDup (runId <$> summaries isLive a).
Proof.
  rewrite summaries_ids. unfold rowsOf, Store.pageRows. destruct (_ || _); [constructor|]. unfold limitTo. simpl.
  rewrite orderBy_perm. eapply sublist_NoDup; [exact rows_unique|]. apply fmap_sublist, sublist_filter.
Qed.

(** ** After a cursor *)

Definition later (c : jstr * jstr) (r : RunSummary) : Prop := isAfter (startedAt r) (runId r) c = true.

#[local] Instance later_dec c r : Decision (later c r).
Proof. unfold later. apply _. Defined.

Lemma filter_iff_in {A} (P Q : A → Prop) `{∀ x, Decision (P x), ∀ x, Decision (Q x)} (l : list A) :
  (∀ x, x ∈ l → P x ↔ Q x) → filter P l = filter Q l.
Proof.
  induction l as [|x l IH]; intros Hl; [done|]. rewrite !filter_cons, IH by (intros y Hy; apply Hl; by right).
  pose proof (Hl x (list_elem_of_here _ _)). repeat case_decide; tauto.
Qed.

Lemma filter_map {A B} (f : A → B) (P : B → Prop) `{∀ x, Decision (P x)} (l : list A) :
  filter P (f <$> l) = f <$> filter (λ x, P (f x)) l.
Proof. induction l as [|x l IH]; [done|]. rewrite fmap_cons, !filter_cons, IH. by case_decide. Qed.

Lemma rowsOf_after isLive c :
  ascii c.1 → ascii c.2 →
  rowsOf isLive (Some c) = filter (λ row, isAfter (default [] (Store.started_at row)) (Store.run_id row) c = true) (rowsOf isLive None).
Proof.
  intros H1 H2. unfold rowsOf, Store.pageRows. simpl. destruct (_ || _); [done|]. unfold limitTo. simpl.
  set (S0 := filter (λ row, Store.selects isLive (storeQuery isLive None (-1)) row = true) (Store.machine_snapshots db)).
  transitivity (orderBy Store.newer (filter (λ row, isAfter (default [] (Store.started_at row)) (Store.run_id row) c = true) S0)).
  - f_equal. unfold S0. rewrite list_filter_filter. apply filter_iff_in. intros row Hr. destruct (rows_ok row Hr) as (R1 & R2 & _).
    unfold Store.selects, storeQuery, filterOf, isAfter. simpl. rewrite <- !textLt_ascii by done.
    destruct (Store.workflow row), (Store.started_at row); rewrite ?andb_false_r, ?andb_true_r; try (split; [done|by intros [_ ?]]).
    simpl. rewrite !andb_true_iff. naive_solver.
  - apply (orderBy_filter Store.newer (StoreProofs.inDb db) StoreProofs.newer_irrefl StoreProofs.newer_trans).
    + apply StoreProofs.newer_total; [done|]. apply Forall_forall. intros row Hr. destruct (rows_ok row Hr) as (? & ? & _).
      split; by apply ascii_well_formed.
    + by apply Forall_forall; intros x [_ ?]%list_elem_of_filter.
    + apply NoDup_filter. by eapply NoDup_fmap_1.
Qed.

Lemma summaries_after isLive c :
  ascii c.1 → ascii c.2 → summaries isLive (Some c) = filter (later c) (summaries isLive None).
Proof.
  intros H1 H2. unfold summaries. rewrite rowsOf_after by done. rewrite filter_map. f_equal.
  apply filter_iff_in. intros row [Hr _]%rowsOf_elem. destruct (rows_ok row Hr) as (_ & _ & Hk & _).
  destruct (readRow_key row Hk) as (E1 & E2 & _). unfold later. simpl. by rewrite E1, E2.
Qed.

Definition U (a : option (jstr * jstr)) : list RunSummary := L a ++ W a ++ E a.

Definition full (a : option (jstr * jstr)) : list RunSummary := sortRuns (U a).

Lemma L_after c : L (Some c) = filter (later c) (L None).
Proof.
  unfold L, liveOf. simpl. destruct (live q0); [|done]. rewrite filter_map, list_filter_filter. f_equal.
  apply list_filter_iff. intros s. unfold later. simpl. rewrite andb_true_r, !andb_true_iff. tauto.
Qed.

Lemma U_after c : ascii c.1 → ascii c.2 → U (Some c) = filter (later c) (U None).
Proof.
  intros H1 H2. unfold U. rewrite !filter_app, L_after. f_equal. f_equal.
  - unfold W. destruct (live q0); [|done]. rewrite summaries_after by done. rewrite !list_filter_filter.
    apply list_filter_iff. tauto.
  - unfold E. destruct (ended q0); [|done]. by apply summaries_after.
Qed.

(** ** Ids *)

Lemma L_elem a r : r ∈ L a → ∃ s, s ∈ h ∧ h_status s = LIVE_STATUS ∧ r = summaryOf s.
Proof.
  unfold L, liveOf. simpl. destruct (live q0); [|by intros ?%elem_of_nil].
  intros (s & -> & [Hs Hin]%list_elem_of_filter)%list_elem_of_fmap. zbool. eauto.
Qed.

Lemma summaries_elem isLive a r :
  r ∈ summaries isLive a → ∃ row, row ∈ Store.machine_snapshots db ∧ Store.selects isLive (storeQuery isLive a (-1)) row = true
    ∧ r = rowSummary (negb isLive) (readRow row) ∧ runId r = Store.run_id row ∧ startedAt r = default [] (Store.started_at row)
    ∧ Bool.eqb (bool_decide (Store.status row = Store.LIVE)) isLive = true.
Proof.
  intros (row & -> & [Hr Hs]%rowsOf_elem)%list_elem_of_fmap. exists row. destruct (rows_ok row Hr) as (_ & _ & Hk & _).
  destruct (readRow_key row Hk) as (E1 & E2 & _). split_and!; try done. unfold Store.selects in Hs. by apply andb_true_iff in Hs as [? _].
Qed.

Lemma U_NoDup a : NoDup (runId <$> U a).
Proof.
  unfold U. rewrite !fmap_app. apply NoDup_app. split_and!.
  - unfold L, liveOf. destruct (live (at_ a)); [|constructor]. rewrite <- list_fmap_compose.
    eapply sublist_NoDup; [exact hosted_unique|]. change (runId ∘ summaryOf) with h_runId. apply fmap_sublist, sublist_filter.
  - intros i (r & -> & Hr)%list_elem_of_fmap Hi. apply L_elem in Hr as (s & Hs & Hst & ->). simpl in *.
    rewrite <- fmap_app in Hi. apply list_elem_of_fmap in Hi as (r' & Ei & [Hr|Hr]%elem_of_app).
    + unfold W in Hr. destruct (live q0); [|by apply elem_of_nil in Hr]. apply list_elem_of_filter in Hr as [Hn _].
      unfold hasRun in Hn. apply bool_decide_eq_false in Hn. apply Hn. rewrite <- Ei. by apply list_elem_of_fmap_2.
    + unfold E in Hr. destruct (ended q0); [|by apply elem_of_nil in Hr].
      apply summaries_elem in Hr as (row & Hrow & _ & _ & Er & _ & Hl). rewrite (one_half s row) in Hl by congruence.
      rewrite bool_decide_eq_true_2 in Hl; done.
  - apply NoDup_app. split_and!.
    + unfold W. destruct (live q0); [|constructor]. eapply sublist_NoDup; [apply (summaries_NoDup true a)|].
      apply fmap_sublist, sublist_filter.
    + intros i (r & -> & Hr)%list_elem_of_fmap Hi. unfold W in Hr. destruct (live q0); [|by apply elem_of_nil in Hr].
      apply list_elem_of_filter in Hr as [_ Hr]. apply list_elem_of_fmap in Hi as (r' & Ei & Hr').
      unfold E in Hr'. destruct (ended q0); [|by apply elem_of_nil in Hr'].
      apply summaries_elem in Hr as (x & Hx & _ & _ & Ex & _ & Hl), Hr' as (y & Hy & _ & _ & Ey & _ & Hl').
      assert (x = y) as -> by (eapply unique_row; [exact rows_unique|done|done|congruence]).
      destruct (bool_decide _); done.
    + unfold E. destruct (ended q0); [|constructor]. apply summaries_NoDup.
Qed.

Lemma full_sorted a : sortedRuns (full a).
Proof. apply sortRuns_sorted, U_NoDup. Qed.

Lemma full_after c : ascii c.1 → ascii c.2 → full (Some c) = filter (later c) (full None).
Proof.
  intros H1 H2. unfold full. rewrite U_after by done.
  apply (orderBy_filter before (λ r, r ∈ U None) before_irrefl before_trans (λ a b, before_total (U None) a b (U_NoDup None))).
  - by apply Forall_forall.
  - eapply NoDup_fmap_1, U_NoDup.
Qed.

Lemma full_readable r : r ∈ full None → ascii (startedAt r) ∧ ascii (runId r) ∧ is_Some (IsoDate.dateParse otherDate (startedAt r)).
Proof.
  unfold full, sortRuns, U. rewrite orderBy_elem, !elem_of_app. intros [Hr|[Hr|Hr]].
  - apply L_elem in Hr as (s & Hs & _ & ->). destruct (hosted_ok s Hs) as (? & ? & ?). done.
  - unfold W in Hr. destruct (live q0); [|by apply elem_of_nil in Hr]. apply list_elem_of_filter in Hr as [_ Hr].
    apply summaries_elem in Hr as (row & Hrow & _ & _ & -> & -> & _). destruct (rows_ok row Hrow) as (? & ? & _ & ?). done.
  - unfold E in Hr. destruct (ended q0); [|by apply elem_of_nil in Hr].
    apply summaries_elem in Hr as (row & Hrow & _ & _ & -> & -> & _). destruct (rows_ok row Hrow) as (? & ? & _ & ?). done.
Qed.

(** The page after a run of the listing holds what follows it. *)
Lemma full_suffix l x k : full None = l ++ x :: k → full (Some (startedAt x, runId x)) = k.
Proof.
  intros Ef. assert (x ∈ full None) as Hx by (rewrite Ef; apply elem_of_app; right; by left).
  destruct (full_readable x Hx) as (H1 & H2 & _). rewrite full_after, Ef by done.
  pose proof (full_sorted None) as HS. rewrite Ef in HS.
  rewrite <- (sorted_after before (λ _, False) before_irrefl before_trans (λ a b H, match H with end) l x k HS) at 2.
  apply list_filter_iff. intros r. unfold later. by rewrite isAfter_before.
Qed.

(** ** What a page asks of the store is enough *)

Definition Wn (a : option (jstr * jstr)) : list RunSummary :=
  if live q0 then filter (λ r, hasRun h (runId r) = false) (take (Z.to_nat (limit q0 + 1 + Z.of_nat (length h))) (summaries true a)) else [].

Definition En (a : option (jstr * jstr)) : list RunSummary := take (Z.to_nat (limit q0 + 1)) (E a).

Lemma W_prefix a : ∃ y, W a = Wn a ++ y ∧ (y = [] ∨ (Z.to_nat (limit q0 + 1) <= length (Wn a))%nat).
Proof.
  unfold W, Wn. destruct (live q0); [|by exists []; auto]. set (n := Z.to_nat (limit q0 + 1 + Z.of_nat (length h))).
  set (s := summaries true a). exists (filter (λ r, hasRun h (runId r) = false) (drop n s)).
  rewrite <- filter_app, take_drop. split; [done|].
  destruct (decide (length s <= n)%nat) as [Hl|Hl]; [left; by rewrite drop_ge|right].
  assert (length (take n s) = n) as Hn by (rewrite length_take; lia).
  assert (length (filter (λ r, ¬ hasRun h (runId r) = false) (take n s)) <= length h)%nat as Hh.
  { rewrite <- (length_fmap runId), <- (length_fmap h_runId h). apply submseteq_length, NoDup_submseteq.
    - eapply sublist_NoDup; [apply (summaries_NoDup true a)|]. apply fmap_sublist. etransitivity; [apply sublist_filter|apply sublist_take].
    - intros i (r & -> & [Hr _]%list_elem_of_filter)%list_elem_of_fmap. unfold hasRun in Hr.
      apply not_false_iff_true, bool_decide_eq_true in Hr. done. }
  pose proof (filter_split (λ r, hasRun h (runId r) = false) (take n s)). lia.
Qed.

Lemma E_prefix a : ∃ y, E a = En a ++ y ∧ (y = [] ∨ (Z.to_nat (limit q0 + 1) <= length (En a))%nat).
Proof.
  unfold En. exists (drop (Z.to_nat (limit q0 + 1)) (E a)). rewrite take_drop. split; [done|].
  destruct (decide (length (E a) <= Z.to_nat (limit q0 + 1))%nat); [left; by rewrite drop_ge|right]. rewrite length_take. lia.
Qed.

Lemma W_sorted a : sortedRuns (W a).
Proof. unfold W. destruct (live q0); [|constructor]. apply sorted_filter, summaries_sorted. Qed.

Lemma E_sorted a : sortedRuns (E a).
Proof. unfold E. destruct (ended q0); [|constructor]. apply summaries_sorted. Qed.

Lemma merge_take a : take (Z.to_nat (limit q0 + 1)) (sortRuns (L a ++ Wn a ++ En a)) = take (Z.to_nat (limit q0 + 1)) (full a).
Proof.
  destruct (W_prefix a) as (yw & Ew & Hw), (E_prefix a) as (ye & Ee & He). unfold full, U.
  pose proof (U_NoDup a) as HN. unfold U in HN. pose proof (W_sorted a) as Sw. pose proof (E_sorted a) as Se.
  rewrite Ew in *. rewrite Ee in *. by apply sort_prefixes.
Qed.

(** ** A page *)

Lemma waiting_is a : waitingOf (at_ a) readable (limit q0 + 1 + Z.of_nat (length h)) h db = Ok (Wn a).
Proof.
  unfold waitingOf, Wn. cbn [live at_]. destruct (live q0); [|done]. unfold Store.liveRows, Store.listRows.
  set (n := limit q0 + 1 + Z.of_nat (length h)).
  change (Store.mkQuery None _ _ _ _ _) with (storeQuery true a n). rewrite pageRows_limit by lia.
  rewrite read_rows; [|intros x Hx; eapply elem_of_sublist in Hx; [|apply sublist_take]; by apply rowsOf_elem in Hx as [? _]].
  simpl. f_equal. unfold notHosted, summaries. rewrite <- fmap_take, filter_map, filter_map, <- !list_fmap_compose. done.
Qed.

Lemma ended_is a : endedOf (at_ a) readable (limit q0 + 1) db = Ok (En a).
Proof.
  unfold endedOf, En, E. cbn [ended at_]. destruct (ended q0) as [st|] eqn:Es; [|by rewrite take_nil].
  unfold Store.ended, Store.listRows. assert (filterOf (at_ a) readable (Some st) (limit q0 + 1) = storeQuery false a (limit q0 + 1)) as ->
    by (unfold storeQuery; by rewrite Es). rewrite pageRows_limit by lia.
  rewrite read_rows; [|intros x Hx; eapply elem_of_sublist in Hx; [|apply sublist_take]; by apply rowsOf_elem in Hx as [? _]].
  simpl. f_equal. unfold endedRows, summaries. by rewrite <- fmap_take, <- list_fmap_compose.
Qed.

Lemma waiting_all a : waitingOf (at_ a) readable (-1) h db = Ok (W a).
Proof.
  unfold waitingOf, W. cbn [live at_]. destruct (live q0); [|done]. unfold Store.liveRows, Store.listRows.
  change (Store.pageRows true _ db) with (rowsOf true a). rewrite read_rows by (intros x [? _]%rowsOf_elem; done).
  simpl. f_equal. unfold notHosted, summaries. rewrite filter_map, filter_map, <- !list_fmap_compose. done.
Qed.

Lemma ended_all a : endedOf (at_ a) readable (-1) db = Ok (E a).
Proof.
  unfold endedOf, E. cbn [ended at_]. destruct (ended q0) as [st|] eqn:Es; [|done].
  unfold Store.ended, Store.listRows. assert (filterOf (at_ a) readable (Some st) (-1) = storeQuery false a (-1)) as ->
    by (unfold storeQuery; by rewrite Es). change (Store.pageRows false _ db) with (rowsOf false a).
  rewrite read_rows by (intros x [? _]%rowsOf_elem; done). simpl. f_equal. unfold endedRows, summaries. by rewrite <- list_fmap_compose.
Qed.

Lemma history_is a : history (at_ a) readable h h db db = Ok (pageOf (limit q0) (full a)).
Proof.
  unfold history. rewrite waiting_is. simpl. rewrite ended_is. simpl. f_equal. apply pageOf_take; [lia|].
  replace (S (Z.to_nat (limit q0))) with (Z.to_nat (limit q0 + 1)) by lia. rewrite <- merge_take. unfold merge. f_equal. f_equal.
  f_equal. apply filter_all, Forall_forall. intros r Hr Hl.
  destruct (W_prefix a) as (yw & Ew & _), (E_prefix a) as (ye & Ee & _).
  pose proof (U_NoDup a) as HN. unfold U in HN. rewrite fmap_app in HN. apply NoDup_app in HN as (_ & Hd & _).
  apply (Hd (runId r)); [done|]. apply list_elem_of_fmap_2. rewrite Ew, Ee, !elem_of_app. apply elem_of_app in Hr. tauto.
Qed.

(** A reader that follows the pages' cursors. *)
Fixpoint follow (fuel : nat) (a : option (jstr * jstr)) : list (list RunSummary) :=
  match fuel with
  | O => []
  | S f =>
      match history (at_ a) readable h h db db with
      | Throw _ => []
      | Ok p =>
          runs p ::
          match next p with
          | Some t => match decodeCursor otherBytes otherDate t with Some c => follow f (Some c) | None => [] end
          | None => []
          end
      end
  end.

Lemma follow_suffix fuel a l :
  full None = l ++ full a → (length (full a) < fuel)%nat →
  concat (follow fuel a) = full a ∧ Forall (λ p, (length p <= Z.to_nat (limit q0))%nat) (follow fuel a).
Proof.
  revert a l. induction fuel as [|f IH]; intros a l Ef Hf; [lia|]. cbn [follow]. rewrite history_is. cbn [runs].
  set (n := Z.to_nat (limit q0)). assert (0 < n)%nat by lia. set (page := take n (full a)).
  assert (length page <= n)%nat by (unfold page; rewrite length_take; lia).
  unfold pageOf. fold n page. cbn [next runs]. destruct (last page) as [x|] eqn:El.
  2:{ apply last_None in El. assert (full a = []) as Ea.
      { destruct (full a) as [|y t] eqn:Ey; [done|]. unfold page in El. replace n with (S (pred n)) in El by lia. done. }
      rewrite El. simpl. rewrite Ea. split; [done|]. apply Forall_singleton. simpl. lia. }
  destruct (Z.ltb_spec (limit q0) (Z.of_nat (length (full a)))) as [Hlt|Hge].
  2:{ assert (page = full a) as Ep by (unfold page; apply take_ge; lia). simpl. rewrite app_nil_r, Ep. split; [done|].
      constructor; [by rewrite <- Ep|constructor]. }
  apply last_snoc_inv in El as [p Ep].
  assert (full a = p ++ x :: drop n (full a)) as Ea.
  { rewrite <- (take_drop n (full a)) at 1. fold page. by rewrite Ep, <- app_assoc. }
  assert (x ∈ full None) as Hx by (rewrite Ef, Ea; rewrite !elem_of_app; right; right; by left).
  destruct (full_readable x Hx) as (X1 & X2 & X3). rewrite cursor_roundtrip by done.
  assert (full (Some (startedAt x, runId x)) = drop n (full a)) as Enx.
  { apply (full_suffix (l ++ p)). by rewrite Ef, Ea at 1; rewrite <- app_assoc. }
  destruct (IH (Some (startedAt x, runId x)) (l ++ page)) as [I1 I2].
  - rewrite Enx, <- app_assoc. unfold page. by rewrite take_drop.
  - rewrite Enx, length_drop. lia.
  - split; [|by constructor]. cbn [concat]. rewrite I1, Enx. apply take_drop.
Qed.
End pages.

(** The registry and the store as the host keeps them: ids are unique, a hosted
    run that is active has no ended row, ids and times are ASCII text, a start
    is a time, and a row's summary is what [save] wrote. *)
Definition listable (otherDate : jstr → option Z) (h : Host) (db : Store.Store) : Prop :=
  NoDup (Store.run_id <$> Store.machine_snapshots db) ∧ NoDup (h_runId <$> h)
  ∧ (∀ s row, s ∈ h → h_status s = LIVE_STATUS → row ∈ Store.machine_snapshots db →
       Store.run_id row = h_runId s → Store.status row = Store.LIVE)
  ∧ (∀ row, row ∈ Store.machine_snapshots db →
       ascii (Store.run_id row) ∧ ascii (default [] (Store.started_at row)) ∧ rowReads row
       ∧ is_Some (IsoDate.dateParse otherDate (default [] (Store.started_at row))))
  ∧ ∀ s, s ∈ h → ascii (h_runId s) ∧ ascii (h_startedAt s) ∧ is_Some (IsoDate.dateParse otherDate (h_startedAt s)).

(** C35: The pages of [GET /runs] are one listing. A reader that follows each
    page's [next] through its text gets every run that the query selects, the
    registry's and the store's, once and newest start first, in pages of at
    most [limit] runs: the few rows a page asks of the store, one past its
    limit and one more for each hosted run, are always enough. *)
Theorem history_pages_partition (otherBytes : jstr → list Z) (otherDate : jstr → option Z) (h : Host) (db : Store.Store)
    (q : RunListQuery) (readable : option (list jstr)) :
  listable otherDate h db → q_after q = None → 0 < limit q →
  ∃ waiting endedRuns,
    waitingOf q readable (-1) h db = Ok waiting ∧ endedOf q readable (-1) db = Ok endedRuns
    ∧ (∀ fuel, (length (liveOf q readable h ++ waiting ++ endedRuns) < fuel)%nat →
         concat (follow otherBytes otherDate h db q readable fuel None) = sortRuns (liveOf q readable h ++ waiting ++ endedRuns)
         ∧ Forall (λ p, (length p <= Z.to_nat (limit q))%nat) (follow otherBytes otherDate h db q readable fuel None))
    ∧ NoDup (runId <$> liveOf q readable h ++ waiting ++ endedRuns).
Proof.
  intros (H1 & H2 & H3 & H4 & H5) Ha Hl. assert (at_ q None = q) as Eq by (destruct q; simpl in *; by rewrite Ha).
  exists (W h db q readable None), (E db q readable None).
  assert (liveOf q readable h ++ W h db q readable None ++ E db q readable None = U h db q readable None) as EU
    by (unfold U, L; by rewrite Eq).
  split; [by rewrite <- (waiting_all otherDate h db q readable H4 None), Eq|].
  split; [by rewrite <- (ended_all otherDate db q readable H4 None), Eq|]. rewrite EU. split; [|by eapply U_NoDup].
  intros fuel Hf. eapply (follow_suffix otherBytes otherDate h db q readable) with (l := []); try done.
  unfold full, sortRuns. by rewrite orderBy_perm.
Qed.

(** ** Grants *)

Lemma mapThrow_elem {A B} (f : A → result Store.Fault B) l bs b :
  Store.mapThrow f l = Ok bs → b ∈ bs → ∃ a, a ∈ l ∧ f a = Ok b.
Proof.
  revert bs. induction l as [|x l IH]; intros bs E Hb; simpl in E.
  - injection E as <-. by apply elem_of_nil in Hb.
  - ok_inv. subst bs. apply elem_of_cons in Hb as [->|Hb]; [exists x; split; [by left|done]|].
    destruct (IH _ E1 Hb) as (a & ? & ?). exists a. split; [by right|done].
Qed.

Lemma grant_rules w names :
  [] ∉ names →
  bool_decide (w ∈ names) || match Store.wrapperOf w with Some p => bool_decide (p ∈ names) | None => false end = true →
  grantOpens (Some (Items (GName <$> names))) w = true.
Proof.
  intros Hn H. simpl. apply existsb_exists. apply orb_true_iff in H as [H|H].
  - apply bool_decide_eq_true in H. exists (GName w). split; [by apply list_elem_of_In, list_elem_of_fmap_2|].
    unfold nameOpens. simpl. by rewrite bool_decide_eq_true_2.
  - destruct (Store.wrapperOf w) as [p|] eqn:E; [|done]. apply bool_decide_eq_true in H.
    exists (GName p). split; [by apply list_elem_of_In, list_elem_of_fmap_2|]. unfold nameOpens. simpl. rewrite E.
    rewrite (bool_decide_eq_false_2 (p = [])) by naive_solver. rewrite (bool_decide_eq_true_2 (p = p)) by done. apply orb_true_r.
Qed.

Lemma listed_opens isLive q readable st n db rows e :
  (∀ l, readable = Some l → [] ∉ l) →
  Store.listRows isLive (Store.mkQuery st readable (q_workflow q) (q_since q) (q_after q) n) db = Ok rows → e ∈ rows →
  grantOpens (grantOf readable) (Store.e_workflow e) = true.
Proof.
  intros Hg Hr He. destruct (mapThrow_elem _ _ _ _ Hr He) as (row & Hrow & Erow).
  assert (Store.e_workflow e = default [] (Store.workflow row)) as ->.
  { destruct (readRow_key row) as (_ & _ & E3); [unfold rowReads, readRow; by rewrite Erow|].
    unfold readRow in E3. by rewrite Erow in E3. }
  assert (Store.selects isLive (Store.mkQuery st readable (q_workflow q) (q_since q) (q_after q) n) row = true) as Hs.
  { unfold Store.pageRows in Hrow. destruct (_ || _); [by apply elem_of_nil in Hrow|].
    assert (row ∈ orderBy Store.newer (filter (λ r, Store.selects isLive (Store.mkQuery st readable (q_workflow q) (q_since q) (q_after q) n) r = true) (Store.machine_snapshots db))) as H.
    { unfold limitTo in Hrow. destruct (_ <? 0); [done|]. by eapply elem_of_sublist, sublist_take. }
    by apply orderBy_elem, list_elem_of_filter in H as [? _]. }
  unfold Store.selects in Hs. simpl in Hs. destruct (Store.workflow row) as [w|], (Store.started_at row); rewrite ?andb_false_r in Hs; try done.
  simpl. unfold grantOf. destruct readable as [names|]; [|done]. apply grant_rules; [by apply Hg|]. simpl in Hs. rewrite !andb_true_iff in Hs. tauto.
Qed.

(** A Caller's list shows its own. Every run on a page of the listing, from
    the registry or from the store, is of a Workflow that the Caller's grant
    opens by the rule of the other routes, whatever the registry and the store
    hold and whenever they are read. *)
Theorem history_shows_readable q readable h h1 db1 db2 p :
  (∀ l, readable = Some l → [] ∉ l) → history q readable h h1 db1 db2 = Ok p →
  Forall (λ r, grantOpens (grantOf readable) (workflow r) = true) (runs p).
Proof.
  intros Hg Hh. unfold history in Hh. ok_inv. subst p. apply Forall_forall. intros r Hr. simpl in Hr.
  eapply elem_of_sublist in Hr; [|apply sublist_take]. unfold merge, sortRuns in Hr. rewrite orderBy_elem in Hr.
  apply elem_of_app in Hr as [Hr|[_ Hr]%list_elem_of_filter].
  - unfold liveOf in Hr. destruct (live q); [|by apply elem_of_nil in Hr].
    apply list_elem_of_fmap in Hr as (s & -> & [Hs _]%list_elem_of_filter). zbool. done.
  - apply elem_of_app in Hr as [Hr|Hr].
    + unfold waitingOf in E0. destruct (live q); [|injection E0 as <-; by apply elem_of_nil in Hr]. ok_inv. subst v.
      unfold notHosted in Hr. apply list_elem_of_fmap in Hr as (e & -> & [_ He]%list_elem_of_filter). simpl.
      by eapply (listed_opens true q).
    + unfold endedOf in E1. destruct (ended q) as [st|]; [|injection E1 as <-; by apply elem_of_nil in Hr]. ok_inv. subst v0.
      unfold endedRows in Hr. apply list_elem_of_fmap in Hr as (e & -> & He). simpl. by eapply (listed_opens false q).
Qed.

(** ** Witnesses: a hosted run, a run that waits for its restore, and an ended
    one of a Chart, a page each *)

Definition blob (w st : string) : json := JObj [(js "workflow", JStr (js w)); (js "startedAt", JStr (js st))].

Definition d1 : Store.Store := Eval vm_compute in
  Store.save (js "r2") (blob "plan/weekly" "2026-01-02T00:00:00.000Z") (js "done") (js "2026-01-05T00:00:00.000Z")
    (Store.save (js "r1") (blob "plan" "2026-01-01T00:00:00.000Z") (js "live") (js "2026-01-04T00:00:00.000Z")
       (Store.init (js "n0") Store.empty)).

Definition h1 : Host :=
  [mkHosted (js "r3") (js "plan") LIVE_STATUS None None None (js "2026-01-03T00:00:00.000Z") None 1 (JStr (js "placing")) [] None].

Definition qAll : RunListQuery := mkListQuery true (Some ENDED_STATUSES) None None None 1.

Definition noBytes : jstr → list Z := λ _, [].
Definition noTime : jstr → option Z := λ _, None.

Lemma h1_listable : listable noTime h1 d1.
Proof.
  unfold listable. split_and!.
  - apply (bool_decide_eq_true_1 _). vm_compute. reflexivity.
  - apply (bool_decide_eq_true_1 _). vm_compute. reflexivity.
  - intros s row Hs _ Hr E. exfalso. apply list_elem_of_singleton in Hs as ->.
    assert (Forall (λ row, Store.run_id row ≠ js "r3") (Store.machine_snapshots d1)) as HF
      by (apply (bool_decide_eq_true_1 _); vm_compute; reflexivity). rewrite Forall_forall in HF. by apply (HF row).
  - intros row Hr. assert (Forall (λ row, ascii (Store.run_id row) ∧ ascii (default [] (Store.started_at row))
      ∧ is_Some (IsoDate.dateParse noTime (default [] (Store.started_at row)))) (Store.machine_snapshots d1)) as HF
      by (apply (bool_decide_eq_true_1 _); vm_compute; reflexivity). rewrite Forall_forall in HF.
    destruct (HF row Hr) as (? & ? & ?). split_and!; try done.
    unfold d1 in Hr. simpl in Hr. repeat (apply elem_of_cons in Hr as [->|Hr]; [vm_compute; reflexivity|]). by apply elem_of_nil in Hr.
  - intros s ->%list_elem_of_singleton. split_and!; apply (bool_decide_eq_true_1 _); vm_compute; reflexivity.
Qed.

Lemma history_pages_partition_witness :
  map (map runId) (follow noBytes noTime h1 d1 qAll (Some [js "plan"]) 4 None) = [[js "r3"]; [js "r2"]; [js "r1"]]
  ∧ ∃ waiting endedRuns,
      waitingOf qAll (Some [js "plan"]) (-1) h1 d1 = Ok waiting ∧ endedOf qAll (Some [js "plan"]) (-1) d1 = Ok endedRuns
      ∧ (∀ fuel, (length (liveOf qAll (Some [js "plan"]) h1 ++ waiting ++ endedRuns) < fuel)%nat →
           concat (follow noBytes noTime h1 d1 qAll (Some [js "plan"]) fuel None)
             = sortRuns (liveOf qAll (Some [js "plan"]) h1 ++ waiting ++ endedRuns)
           ∧ Forall (λ p, (length p <= Z.to_nat (limit qAll))%nat) (follow noBytes noTime h1 d1 qAll (Some [js "plan"]) fuel None))
      ∧ NoDup (runId <$> liveOf qAll (Some [js "plan"]) h1 ++ waiting ++ endedRuns).
Proof.
  split; [vm_compute; reflexivity|].
  apply (history_pages_partition noBytes noTime h1 d1 qAll (Some [js "plan"])); [apply h1_listable|reflexivity|reflexivity].
Defined.

Lemma history_shows_readable_witness :
  ∃ p, history qAll (Some [js "plan"]) h1 h1 d1 d1 = Ok p ∧ length (runs p) = 1%nat
    ∧ Forall (λ r, grantOpens (grantOf (Some [js "plan"])) (workflow r) = true) (runs p).
Proof.
  destruct (history qAll (Some [js "plan"]) h1 h1 d1 d1) as [p|] eqn:E; [|exfalso; vm_compute in E; discriminate].
  exists p. split; [reflexivity|]. split; [vm_compute in E; by injection E as <-|].
  apply (history_shows_readable qAll (Some [js "plan"]) h1 h1 d1 d1 p); [|exact E].
  intros l [= <-]. apply (bool_decide_eq_true_1 _). vm_compute. reflexivity.
Defined.

End RunListProofs.
