(* ===== verification/Transcript.v ===== *)
(** * The transcript a model's context is read from (harness/src/transcript.ts)

    [EnginePart] is the engine part of one conversation: its id, its entries
    and the file that holds them.  A message is what the Harness reads of a
    pi-ai message; members that it only carries along are left out.  The
    entries are on disk before they are in memory: [append] changes both, and
    [tornAppend] is a process death in the middle of it.  The time and a new
    id are arguments.  Amounts of money are whole numbers, as JSON numbers
    are. *)

From Stdlib Require Import Lia ZArith.
From stdpp Require Import base list strings sets gmap.
From S2P Require Import Prelude JsString Json Utf8 Record.

Open Scope Z_scope.

Module Transcript.
Import Json.

(** ** Messages *)

Record Cost := mkCost { c_input : Z; c_output : Z; c_cacheRead : Z; c_cacheWrite : Z; c_total : Z }.

Record Usage := mkUsage {
  input : Z; output : Z; cacheRead : Z; cacheWrite : Z;
  cacheWrite1h : option Z; reasoning : option Z;
  totalTokens : Z; cost : Cost;
}.

Record ToolCall := mkCall { call_id : jstr; call_name : jstr; arguments : json }.

Inductive Block := text (t : jstr) | thinking (t : jstr) | toolCall (c : ToolCall) | image (data : json).

Inductive Content := Text (s : jstr) | Blocks (l : list Block).

Record UserMessage := mkUser { u_content : Content; u_timestamp : Z }.

Record AssistantMessage := mkAssistant {
  a_content : list Block; api : jstr; provider : jstr; a_model : jstr; a_usage : Usage;
  stopReason : jstr; a_timestamp : Z;
}.

Record ToolResultMessage := mkResult {
  toolCallId : jstr; toolName : jstr; r_content : list Block; isError : bool; r_timestamp : Z;
}.

Inductive Message := user (m : UserMessage) | assistant (m : AssistantMessage) | toolResult (m : ToolResultMessage).

Record CompactionSummaryMessage := mkSummary { s_summary : jstr; s_tokensBefore : Z; s_timestamp : Z }.

Inductive EngineMessage := carried (m : Message) | compactionSummary (m : CompactionSummaryMessage).

(** ** Entries *)

Record CompactionDetails := mkDetails { readFiles : list jstr; modifiedFiles : list jstr }.

Record CompactionEntry := mkCompaction {
  summary : jstr; firstKept : nat; tokensBefore : Z; details : CompactionDetails; usage : Usage; timestamp : Z;
}.

Inductive TranscriptEntry := message (m : Message) | submission | compaction (c : CompactionEntry).

Definition isCompaction (e : TranscriptEntry) : bool := match e with compaction _ => true | _ => false end.

(** ** The branch and the context *)

Fixpoint branchWalk (entries : list TranscriptEntry) (stop : option nat) (i : nat) : nat :=
  match i with
  | O => O
  | S i' =>
      if bool_decide (stop = Some i) then i
      else
        let stop := match entries !! i with Some (compaction c) => Some (firstKept c) | _ => stop end in
        branchWalk entries stop i'
  end.

Definition branchStart (entries : list TranscriptEntry) : nat := branchWalk entries None (length entries - 1).

Definition summaryMessage (e : CompactionEntry) : CompactionSummaryMessage :=
  mkSummary (summary e) (tokensBefore e) (timestamp e).

(** The newest Compaction and its index: the loop from the last entry back. *)
Fixpoint newestFrom (entries : list TranscriptEntry) (n : nat) : option (nat * CompactionEntry) :=
  match n with
  | O => None
  | S i => match entries !! i with Some (compaction c) => Some (i, c) | _ => newestFrom entries i end
  end.

Definition newestCompaction (entries : list TranscriptEntry) : option (nat * CompactionEntry) :=
  newestFrom entries (length entries).

Definition messagesOf (e : TranscriptEntry) : list EngineMessage :=
  match e with
  | message m => [carried m]
  | compaction c => [compactionSummary (summaryMessage c)]
  | submission => []
  end.

(** [l.slice(a, b)] *)
Definition slice {A} (a b : nat) (l : list A) : list A := take (b - a) (drop a l).

Definition contextOf (entries : list TranscriptEntry) (start : nat) : list EngineMessage :=
  match newestCompaction entries with
  | None => entries ≫= messagesOf
  | Some (newest, cut) =>
      let kept := if (start <=? firstKept cut)%nat then (firstKept cut - start)%nat else newest in
      [compactionSummary (summaryMessage cut)]
        ++ (slice kept newest entries ≫= messagesOf) ++ (drop (newest + 1) entries ≫= messagesOf)
  end.

(** ** The engine part *)

Record EnginePart := mkPart { id : jstr; entries : list TranscriptEntry; path : option Record.path }.

Definition branch (p : EnginePart) : nat * list TranscriptEntry :=
  let start := branchStart (entries p) in (start, drop start (entries p)).

Definition context (p : EnginePart) : list EngineMessage := let '(start, es) := branch p in contextOf es start.

(** *** One entry on one line *)

Definition costJson (c : Cost) : json :=
  JObj [(js "input", JNum (c_input c)); (js "output", JNum (c_output c)); (js "cacheRead", JNum (c_cacheRead c));
        (js "cacheWrite", JNum (c_cacheWrite c)); (js "total", JNum (c_total c))].

Definition optMember (k : jstr) (n : option Z) : list (jstr * json) :=
  match n with Some n => [(k, JNum n)] | None => [] end.

Definition usageJson (u : Usage) : json :=
  JObj ([(js "input", JNum (input u)); (js "output", JNum (output u)); (js "cacheRead", JNum (cacheRead u));
         (js "cacheWrite", JNum (cacheWrite u))]
        ++ optMember (js "cacheWrite1h") (cacheWrite1h u) ++ optMember (js "reasoning") (reasoning u)
        ++ [(js "totalTokens", JNum (totalTokens u)); (js "cost", costJson (cost u))]).

Definition blockJson (b : Block) : json :=
  match b with
  | text t => JObj [(js "type", JStr (js "text")); (js "text", JStr t)]
  | thinking t => JObj [(js "type", JStr (js "thinking")); (js "thinking", JStr t)]
  | toolCall c => JObj [(js "type", JStr (js "toolCall")); (js "id", JStr (call_id c));
                        (js "name", JStr (call_name c)); (js "arguments", arguments c)]
  | image d => JObj [(js "type", JStr (js "image")); (js "data", d)]
  end.

Definition messageJson (m : Message) : json :=
  match m with
  | user u =>
      JObj [(js "role", JStr (js "user"));
            (js "content", match u_content u with Text s => JStr s | Blocks l => JArr (blockJson <$> l) end);
            (js "timestamp", JNum (u_timestamp u))]
  | assistant a =>
      JObj [(js "role", JStr (js "assistant")); (js "content", JArr (blockJson <$> a_content a));
            (js "api", JStr (api a)); (js "provider", JStr (provider a)); (js "model", JStr (a_model a));
            (js "usage", usageJson (a_usage a)); (js "stopReason", JStr (stopReason a));
            (js "timestamp", JNum (a_timestamp a))]
  | toolResult r =>
      JObj [(js "role", JStr (js "toolResult")); (js "toolCallId", JStr (toolCallId r));
            (js "toolName", JStr (toolName r)); (js "content", JArr (blockJson <$> r_content r));
            (js "isError", JBool (isError r)); (js "timestamp", JNum (r_timestamp r))]
  end.

Definition detailsJson (d : CompactionDetails) : json :=
  JObj [(js "readFiles", JArr (JStr <$> readFiles d)); (js "modifiedFiles", JArr (JStr <$> modifiedFiles d))].

Definition entryJson (e : TranscriptEntry) : json :=
  match e with
  | message m => JObj [(js "type", JStr (js "message")); (js "message", messageJson m)]
  | submission => JObj [(js "type", JStr (js "submission"))]
  | compaction c =>
      JObj [(js "type", JStr (js "compaction")); (js "summary", JStr (summary c));
            (js "firstKept", JNum (Z.of_nat (firstKept c))); (js "tokensBefore", JNum (tokensBefore c));
            (js "details", detailsJson (details c)); (js "usage", usageJson (usage c));
            (js "timestamp", JNum (timestamp c))]
  end.

Definition lineOf (v : json) : list Z := encode (stringify v ++ [10]).

(** *** Appending: the file first, then the array *)

Definition append (e : TranscriptEntry) (st : EnginePart * Record.FS) : EnginePart * Record.FS :=
  let '(p, fs) := st in
  (mkPart (id p) (entries p ++ [e]) (path p),
   match path p with
   | Some f => Record.appendFile f (lineOf (entryJson e)) fs
   | None => fs
   end).

(** The process dies when [n] bytes of the line are written. *)
Definition tornAppend (e : TranscriptEntry) (n : nat) (st : EnginePart * Record.FS) : Record.FS :=
  match path st.1 with
  | Some f => Record.appendFile f (take n (lineOf (entryJson e))) st.2
  | None => st.2
  end.

Definition appendMessage (m : Message) := append (message m).
Definition appendSubmission := append submission.
Definition appendCompaction (c : CompactionEntry) := append (compaction c).

(** ** Reading a transcript *)

Definition TRANSCRIPT_VERSION : Z := 1.
Definition TRANSCRIPT : jstr := js "transcript.jsonl".

Inductive Why :=
| NoTranscript
| Empty
| DoesNotParse (line : nat)
| NoHeader
| OtherVersion (v : option json)
| NoMessage (line : nat)
| FirstKeptNotBefore (line : nat)
| UnknownType (line : nat) (type : option json).

(** *** The casts: a member of another type than the declared one is outside the
    model, and reads as the empty value of its type. *)

Definition num (v : option json) : Z := match v with Some (JNum n) => n | _ => 0 end.
Definition str (v : option json) : jstr := match v with Some (JStr s) => s | _ => [] end.
Definition arr (v : option json) : list json := match v with Some (JArr l) => l | _ => [] end.
Definition obj (v : option json) : json := default JNull v.
Definition optNum (v : option json) : option Z := match v with Some (JNum n) => Some n | _ => None end.

Definition castCost (v : json) : Cost :=
  mkCost (num (prop (js "input") v)) (num (prop (js "output") v)) (num (prop (js "cacheRead") v))
    (num (prop (js "cacheWrite") v)) (num (prop (js "total") v)).

Definition castUsage (v : json) : Usage :=
  mkUsage (num (prop (js "input") v)) (num (prop (js "output") v)) (num (prop (js "cacheRead") v))
    (num (prop (js "cacheWrite") v)) (optNum (prop (js "cacheWrite1h") v)) (optNum (prop (js "reasoning") v))
    (num (prop (js "totalTokens") v)) (castCost (obj (prop (js "cost") v))).

Definition castBlock (v : json) : Block :=
  if bool_decide (str (prop (js "type") v) = js "text") then text (str (prop (js "text") v))
  else if bool_decide (str (prop (js "type") v) = js "thinking") then thinking (str (prop (js "thinking") v))
  else if bool_decide (str (prop (js "type") v) = js "toolCall") then
    toolCall (mkCall (str (prop (js "id") v)) (str (prop (js "name") v)) (obj (prop (js "arguments") v)))
  else image (obj (prop (js "data") v)).

Definition castMessage (v : json) : Message :=
  if bool_decide (str (prop (js "role") v) = js "user") then
    user (mkUser (match prop (js "content") v with Some (JStr s) => Text s | c => Blocks (castBlock <$> arr c) end)
            (num (prop (js "timestamp") v)))
  else if bool_decide (str (prop (js "role") v) = js "assistant") then
    assistant (mkAssistant (castBlock <$> arr (prop (js "content") v)) (str (prop (js "api") v))
      (str (prop (js "provider") v)) (str (prop (js "model") v)) (castUsage (obj (prop (js "usage") v)))
      (str (prop (js "stopReason") v)) (num (prop (js "timestamp") v)))
  else
    toolResult (mkResult (str (prop (js "toolCallId") v)) (str (prop (js "toolName") v))
      (castBlock <$> arr (prop (js "content") v))
      (match prop (js "isError") v with Some (JBool b) => b | _ => false end) (num (prop (js "timestamp") v))).

Definition castCompaction (v : json) : CompactionEntry :=
  let d := obj (prop (js "details") v) in
  mkCompaction (str (prop (js "summary") v)) (Z.to_nat (num (prop (js "firstKept") v)))
    (num (prop (js "tokensBefore") v))
    (mkDetails ((λ f, str (Some f)) <$> arr (prop (js "readFiles") d))
       ((λ f, str (Some f)) <$> arr (prop (js "modifiedFiles") d)))
    (castUsage (obj (prop (js "usage") v))) (num (prop (js "timestamp") v)).

(** *** The checks *)

Definition isStr (s : jstr) (v : option json) : bool :=
  match v with Some (JStr t) => bool_decide (t = s) | _ => false end.

(** The entry at index [i], which is line [i + 2]. *)
Definition readEntry (i : nat) (v : json) : result Why TranscriptEntry :=
  let type := prop (js "type") v in
  if isStr (js "message") type then
    let role := prop (js "role") (obj (prop (js "message") v)) in
    if isStr (js "user") role || isStr (js "assistant") role || isStr (js "toolResult") role
    then Ok (message (castMessage (obj (prop (js "message") v))))
    else Throw (NoMessage (i + 2))
  else if isStr (js "compaction") type then
    match prop (js "firstKept") v with
    | Some (JNum k) =>
        if (k <? 0) || (Z.of_nat i <=? k) then Throw (FirstKeptNotBefore (i + 2))
        else Ok (compaction (castCompaction v))
    | _ => Throw (FirstKeptNotBefore (i + 2))
    end
  else if isStr (js "submission") type then Ok submission
  else Throw (UnknownType (i + 2) type).

Fixpoint readEntries (i : nat) (vs : list json) : result Why (list TranscriptEntry) :=
  match vs with
  | [] => Ok []
  | v :: vs' => e ← readEntry i v; es ← readEntries (S i) vs'; Ok (e :: es)
  end.

Fixpoint parseLines (i : nat) (lines : list jstr) : result Why (list json) :=
  match lines with
  | [] => Ok []
  | l :: lines' =>
      match parse l with
      | None => Throw (DoesNotParse (i + 1))
      | Some v => vs ← parseLines (S i) lines'; Ok (v :: vs)
      end
  end.

(** The text of the file, once its torn tail is cut. *)
Definition readText (t : jstr) : result Why (jstr * list TranscriptEntry) :=
  let lines := removelast (split_on 10 t) in
  _ ← guard_throw (bool_decide (lines = [])) Empty;
  values ← parseLines 0 lines;
  match values with
  | [] => Throw Empty
  | header :: rest =>
      match isStr (js "transcript") (prop (js "type") header), prop (js "id") header with
      | true, Some (JStr i) =>
          match prop (js "version") header with
          | Some (JNum v) =>
              _ ← guard_throw (negb (v =? TRANSCRIPT_VERSION)) (OtherVersion (Some (JNum v)));
              es ← readEntries 0 rest;
              Ok (i, es)
          | w => Throw (OtherVersion w)
          end
      | _, _ => Throw NoHeader
      end
  end.

Definition readTranscript (f : Record.path) (fs : Record.FS) : Record.FS * result Why (jstr * list TranscriptEntry) :=
  let fs := Record.cutTornTail f fs in
  (fs, match Record.files fs !! f with
       | None => Throw NoTranscript
       | Some bytes => readText (decode bytes)
       end).

(** ** Opening *)

Inductive HistoryRole := fromUser | fromAssistant.
Record HistoryMessage := mkHistory { h_role : HistoryRole; h_text : jstr }.

(** What the code reads of a [Model]: who answers, and the sizes. *)
Record Model := mkModel { m_api : jstr; m_provider : jstr; m_id : jstr; contextWindow : Z; maxTokens : Z }.

Definition noCost : Cost := mkCost 0 0 0 0 0.
Definition noUsage : Usage := mkUsage 0 0 0 0 None None 0 noCost.

Definition providerMessage (now : Z) (model : Model) (h : HistoryMessage) : Message :=
  match h_role h with
  | fromUser => user (mkUser (Text (h_text h)) now)
  | fromAssistant =>
      assistant (mkAssistant [text (h_text h)] (m_api model) (m_provider model) (m_id model) noUsage (js "stop") now)
  end.

Definition seeded (now : Z) (model : Model) (history : list HistoryMessage) : list TranscriptEntry :=
  (λ h, message (providerMessage now model h)) <$> history.

Definition headerJson (i cwd created : jstr) : json :=
  JObj [(js "type", JStr (js "transcript")); (js "version", JNum TRANSCRIPT_VERSION); (js "id", JStr i);
        (js "cwd", JStr cwd); (js "created", JStr created)].

(** What a conversation opens its engine part with: a new id, the directory and
    model of its first Turn, the time, and the record's history. *)
Record Opening := mkOpening {
  o_id : jstr; o_cwd : jstr; o_model : Model; o_now : Z; o_created : jstr; o_history : list HistoryMessage;
}.

Definition newEntries (o : Opening) : list TranscriptEntry := seeded (o_now o) (o_model o) (o_history o).

Definition newBytes (o : Opening) : list Z :=
  encode (concat ((λ v, stringify v ++ [10])
                    <$> headerJson (o_id o) (o_cwd o) (o_created o) :: (entryJson <$> newEntries o))).

Definition newPath (f : Record.path) : Record.path :=
  removelast f ++ (match last f with Some x => [x ++ js ".new"] | None => [] end).

(** [engineSeat(dir, ...).dir(name)] makes the directory. *)
Definition engineDir (dir : Record.path) (name : jstr) : Record.path :=
  Record.pathJoin (Record.pathJoin dir (js "engine")) name.

(** The answer of [openEnginePart], the file system after it, and the reason
    that it says on the pod's log. *)
Definition openEnginePart (dir : option Record.path) (name : jstr) (o : Opening) (fs : Record.FS)
    : EnginePart * Record.FS * option Why :=
  match dir with
  | None => (mkPart (o_id o) (newEntries o) None, fs, None)
  | Some d =>
      let fs := Record.mkdir_p (engineDir d name) fs in
      let f := Record.pathJoin (engineDir d name) TRANSCRIPT in
      match readTranscript f fs with
      | (fs, Ok (i, es)) => (mkPart i es (Some f), fs, None)
      | (fs, Throw why) =>
          (mkPart (o_id o) (newEntries o) (Some f),
           Record.rename (newPath f) f (Record.writeFile (newPath f) (newBytes o) fs),
           if bool_decide (o_history o = []) then None else Some why)
      end
  end.

(** A process death in [openEnginePart], after [n] bytes of the new file: the
    rename, which comes after the last byte, was not made. *)
Definition tornOpen (d : Record.path) (name : jstr) (o : Opening) (n : nat) (fs : Record.FS) : Record.FS :=
  let fs := Record.mkdir_p (engineDir d name) fs in
  let f := Record.pathJoin (engineDir d name) TRANSCRIPT in
  match readTranscript f fs with
  | (fs, Ok _) => fs
  | (fs, Throw _) => Record.writeFile (newPath f) (take n (newBytes o)) fs
  end.

End Transcript.
