(* ===== verification/TranscriptProofs.v ===== *)
(** * The transcript: what a restart reads back *)

From Stdlib Require Import Lia ZArith.
From stdpp Require Import base list strings sets gmap.
From S2P Require Import Prelude JsString Json Utf8 Record Transcript.

Open Scope Z_scope.

Module TranscriptProofs.
Import Json Transcript.

(** ** One entry on one line *)

Lemma castUsage_json u : castUsage (usageJson u) = u.
Proof. by destruct u as [i o cr cw [x|] [y|] tt [a b c d e]]. Qed.

Lemma castBlock_json b : castBlock (blockJson b) = b.
Proof. by destruct b as [t|t|[i n a]|d]. Qed.

Lemma castBlocks_json (l : list Block) : castBlock <$> (blockJson <$> l) = l.
Proof. induction l as [|b l IH]; [done|]. by rewrite !fmap_cons, castBlock_json, IH. Qed.

Lemma castMessage_json m : castMessage (messageJson m) = m.
Proof.
  destruct m as [[[s|l] t]|a|r].
  - done.
  - change (castMessage (messageJson (user (mkUser (Blocks l) t))))
      with (user (mkUser (Blocks (castBlock <$> (blockJson <$> l))) t)). by rewrite castBlocks_json.
  - destruct a as [l a p m u s t].
    change (assistant (mkAssistant (castBlock <$> (blockJson <$> l)) a p m (castUsage (usageJson u)) s t)
            = assistant (mkAssistant l a p m u s t)). by rewrite castBlocks_json, castUsage_json.
  - destruct r as [i n l b t].
    change (toolResult (mkResult i n (castBlock <$> (blockJson <$> l)) b t) = toolResult (mkResult i n l b t)).
    by rewrite castBlocks_json.
Qed.

Lemma castStrs (l : list jstr) : (λ f, str (Some f)) <$> (JStr <$> l) = l.
Proof. induction l as [|b l IH]; [done|]. rewrite !fmap_cons, IH. done. Qed.

Lemma castCompaction_json c : castCompaction (entryJson (compaction c)) = c.
Proof.
  destruct c as [s k tb [rf mf] u t].
  change (mkCompaction s (Z.to_nat (Z.of_nat k)) tb
            (mkDetails ((λ f, str (Some f)) <$> (JStr <$> rf)) ((λ f, str (Some f)) <$> (JStr <$> mf)))
            (castUsage (usageJson u)) t = mkCompaction s k tb (mkDetails rf mf) u t).
  by rewrite !castStrs, castUsage_json, Nat2Z.id.
Qed.

(** A Compaction keeps an entry before it. *)
Definition keeps_before (i : nat) (e : TranscriptEntry) : Prop :=
  match e with compaction c => (firstKept c < i)%nat | _ => True end.

Lemma readEntry_json i e : keeps_before i e → readEntry i (entryJson e) = Ok e.
Proof.
  destruct e as [m| |c]; intros Hk.
  - transitivity (@Ok Why _ (message (castMessage (messageJson m)))); [|by rewrite castMessage_json].
    by destruct m.
  - done.
  - transitivity (if (Z.of_nat (firstKept c) <? 0) || (Z.of_nat i <=? Z.of_nat (firstKept c))
                  then Throw (FirstKeptNotBefore (i + 2))
                  else Ok (compaction (castCompaction (entryJson (compaction c)))) : result Why TranscriptEntry); [done|].
    rewrite castCompaction_json. simpl in Hk.
    destruct (Z.ltb_spec (Z.of_nat (firstKept c)) 0); [lia|].
    destruct (Z.leb_spec (Z.of_nat i) (Z.of_nat (firstKept c))); [lia|done].
Qed.

(** ** A file of whole lines *)

Definition kept_before (es : list TranscriptEntry) : Prop := ∀ i e, es !! i = Some e → keeps_before i e.

Lemma kept_before_app es es' : kept_before (es ++ es') → kept_before es.
Proof. intros H i e Hi. apply H. by rewrite lookup_app_l by by eapply lookup_lt_Some. Qed.

Lemma readEntries_json es k :
  (∀ i e, es !! i = Some e → keeps_before (k + i) e) → readEntries k (entryJson <$> es) = Ok es.
Proof.
  revert k. induction es as [|e es IH]; intros k Hk; [done|].
  rewrite fmap_cons. cbn [readEntries]. rewrite readEntry_json, rok_bind by (specialize (Hk 0%nat e eq_refl); by rewrite Nat.add_0_r in Hk).
  rewrite IH; [done|]. intros i e' Hi. specialize (Hk (S i) e' Hi). by replace (S k + i)%nat with (k + S i)%nat by lia.
Qed.

Lemma parseLines_json vs k : Forall units_ok vs → parseLines k (stringify <$> vs) = Ok vs.
Proof.
  intros H. revert k. induction H as [|v vs Hv _ IH]; intros k; [done|].
  rewrite fmap_cons. cbn [parseLines]. by rewrite parse_stringify, IH.
Qed.

(** The values of a transcript's lines. *)
Definition linesOf (i cwd created : jstr) (es : list TranscriptEntry) : list json :=
  headerJson i cwd created :: (entryJson <$> es).

Definition fileOf (i cwd created : jstr) (es : list TranscriptEntry) : list Z := concat (lineOf <$> linesOf i cwd created es).

Definition entries_ok (es : list TranscriptEntry) : Prop := Forall (λ e, units_ok (entryJson e)) es.

Lemma linesOf_ok i cwd created es :
  Forall unit_ok i → Forall unit_ok cwd → Forall unit_ok created → entries_ok es → Forall units_ok (linesOf i cwd created es).
Proof.
  intros Hi Hc Hd He. constructor; [|by apply Forall_fmap].
  repeat constructor; try apply js_units; try done.
Qed.

Lemma readText_file i cwd created es :
  Forall units_ok (linesOf i cwd created es) → kept_before es → readText (decode (fileOf i cwd created es)) = Ok (i, es).
Proof.
  intros HU HK. unfold fileOf. rewrite <- (app_nil_r (concat _)).
  change (lineOf <$> linesOf i cwd created es) with (Record.lineBytes <$> linesOf i cwd created es).
  rewrite Record.decode_lines by done. change (decode []) with (@nil Z).
  unfold readText. rewrite Record.split_lines; [|by apply Forall_fmap, Forall_true; intros v; apply no_nl_stringify|set_solver].
  rewrite removelast_last. change (print_line <$> linesOf i cwd created es) with (stringify <$> linesOf i cwd created es).
  rewrite bool_decide_eq_false_2 by (unfold linesOf; by rewrite fmap_cons). unfold guard_throw. rewrite rok_bind.
  rewrite parseLines_json, rok_bind by done. unfold linesOf.
  change ((es' ← readEntries 0 (entryJson <$> es); Ok (i, es')) = (Ok (i, es) : result Why (jstr * list TranscriptEntry))).
  rewrite readEntries_json; [done|]. intros k e Hk. by apply HK.
Qed.

(** ** The lives of a transcript

    A process opens the engine part, appends entries, and dies: in the
    opening, in the middle of a line, or between two lines. *)

Inductive Life :=
| dies (o : Opening) (n : nat)
| lives (o : Opening) (es : list TranscriptEntry) (tear : option (TranscriptEntry * nat)).

Definition live (d : Record.path) (name : jstr) (fs : Record.FS) (lf : Life) : Record.FS :=
  match lf with
  | dies o n => tornOpen d name o n fs
  | lives o es tear =>
      let '(p, fs, _) := openEnginePart (Some d) name o fs in
      let st := foldl (λ st e, append e st) (p, fs) es in
      match tear with
      | None => st.2
      | Some (e, n) => tornAppend e n st
      end
  end.

(** What the transcript is to hold: its id and its entries, once there is one. *)
Definition Held := option (jstr * list TranscriptEntry).

Definition holdNext (s : Held) (lf : Life) : Held :=
  match lf, s with
  | dies _ _, s => s
  | lives o es _, None => Some (o_id o, newEntries o ++ es)
  | lives _ es _, Some (i, old) => Some (i, old ++ es)
  end.

Definition opening_ok (o : Opening) : Prop :=
  Forall unit_ok (o_id o) ∧ Forall unit_ok (o_cwd o) ∧ Forall unit_ok (o_created o) ∧ entries_ok (newEntries o).

Definition life_ok (lf : Life) : Prop :=
  match lf with
  | dies _ _ => True
  | lives o es tear =>
      opening_ok o ∧ entries_ok es
      ∧ match tear with None => True | Some (e, n) => units_ok (entryJson e) ∧ (n < length (lineOf (entryJson e)))%nat end
  end.

Lemma lineOf_eq v : lineOf v = encode (stringify v) ++ [10].
Proof. apply Record.encode_nl. Qed.

Lemma lines_whole vs : Record.whole (concat (lineOf <$> vs)).
Proof.
  induction vs as [|v vs _] using rev_ind; [by left|]. right.
  rewrite fmap_app, concat_app. cbn [fmap list_fmap concat]. rewrite app_nil_r, lineOf_eq, app_assoc. apply last_snoc.
Qed.

Lemma fileOf_snoc i cwd created es e :
  fileOf i cwd created (es ++ [e]) = fileOf i cwd created es ++ lineOf (entryJson e).
Proof. unfold fileOf, linesOf. rewrite !fmap_cons, !fmap_app, !fmap_cons. cbn [concat]. rewrite concat_app. cbn [fmap list_fmap concat]. by rewrite app_nil_r, app_assoc. Qed.

Lemma encode_lines vs : encode (concat ((λ v, stringify v ++ [10]) <$> vs)) = concat (lineOf <$> vs).
Proof.
  induction vs as [|v vs IH]; [done|]. rewrite !fmap_cons. cbn [concat]. rewrite lineOf_eq, <- IH, <- !app_assoc.
  cbn [app]. rewrite encode_app_sep, encode_cons_single by done. done.
Qed.

Lemma newBytes_file o : newBytes o = fileOf (o_id o) (o_cwd o) (o_created o) (newEntries o).
Proof. apply encode_lines. Qed.

(** The file holds [s], and after its whole lines at most a torn one. *)
Definition holds (f : Record.path) (fs : Record.FS) (s : Held) : Prop :=
  match s with
  | None => Record.files fs !! f = None
  | Some (i, es) => ∃ cwd created t,
      Record.files fs !! f = Some (fileOf i cwd created es ++ t)
      ∧ (10 ∉ t) ∧ Forall units_ok (linesOf i cwd created es)
  end.

Definition transcriptFile (d : Record.path) (name : jstr) : Record.path := Record.pathJoin (engineDir d name) TRANSCRIPT.

Lemma newPath_ne d name : newPath (transcriptFile d name) ≠ transcriptFile d name.
Proof.
  unfold transcriptFile, newPath. rewrite Record.pathJoin_snoc by done. rewrite removelast_last, last_snoc.
  intros [_ E]%app_inj_tail. done.
Qed.

Lemma readTranscript_file f fs i cwd created es t :
  Record.files fs !! f = Some (fileOf i cwd created es ++ t) → 10 ∉ t →
  Forall units_ok (linesOf i cwd created es) → kept_before es →
  readTranscript f fs = (Record.writeFile f (fileOf i cwd created es) fs, Ok (i, es)).
Proof.
  intros E Ht HU HK. unfold readTranscript, Record.cutTornTail. rewrite E.
  rewrite Record.keptBytes_whole by (done || apply lines_whole). cbv zeta. f_equal.
  unfold Record.writeFile. cbn [Record.files]. rewrite lookup_insert_eq. by apply readText_file.
Qed.

Lemma readTranscript_none f fs : Record.files fs !! f = None → readTranscript f fs = (fs, Throw NoTranscript).
Proof. intros E. unfold readTranscript, Record.cutTornTail. rewrite E. cbv zeta. by rewrite E. Qed.

(** Opening a file that holds [s] gives [s], or a new part where there is none. *)
Lemma open_holds d name o fs s (f := transcriptFile d name) :
  opening_ok o → holds f fs s → (∀ i es, s = Some (i, es) → kept_before es) →
  ∃ fs' why i es, openEnginePart (Some d) name o fs = (mkPart i es (Some f), fs', why)
    ∧ holdNext s (lives o [] None) = Some (i, es)
    ∧ ∃ cwd created, Record.files fs' !! f = Some (fileOf i cwd created es) ∧ Forall units_ok (linesOf i cwd created es).
Proof.
  intros (H1 & H2 & H3 & H4) Hs Hk. unfold openEnginePart. cbv zeta. fold (transcriptFile d name). fold f.
  destruct s as [[i es]|]; cbn [holds] in Hs.
  - destruct Hs as (cwd & created & t & E & Ht & HU). rewrite (readTranscript_file _ _ i cwd created es t) by eauto.
    eexists _, None, i, es. split; [done|]. split; [cbn; by rewrite app_nil_r|]. exists cwd, created. split; [|done].
    apply lookup_insert_eq.
  - rewrite readTranscript_none by done. eexists _, _, _, _. split; [done|]. split; [cbn; by rewrite app_nil_r|].
    exists (o_cwd o), (o_created o). split; [|by apply linesOf_ok].
    unfold Record.rename, Record.writeFile. cbn [Record.files]. rewrite lookup_insert_eq. cbn [Record.files].
    by rewrite lookup_insert_eq, newBytes_file.
Qed.

Lemma tornOpen_holds d name o n fs s (f := transcriptFile d name) :
  holds f fs s → (∀ i es, s = Some (i, es) → kept_before es) → holds f (tornOpen d name o n fs) s.
Proof.
  intros Hs Hk. unfold tornOpen. cbv zeta. fold (transcriptFile d name). fold f.
  destruct s as [[i es]|]; cbn [holds] in Hs.
  - destruct Hs as (cwd & created & t & E & Ht & HU). rewrite (readTranscript_file _ _ i cwd created es t) by eauto.
    exists cwd, created, []. rewrite app_nil_r. split_and!; [apply lookup_insert_eq|set_solver|done].
  - rewrite readTranscript_none by done. cbn [holds]. unfold Record.writeFile. cbn [Record.files].
    by rewrite lookup_insert_ne by apply newPath_ne.
Qed.

(** Appends grow the file and the array alike. *)
Lemma appends_hold f i cwd created es0 fs0 es :
  Record.files fs0 !! f = Some (fileOf i cwd created es0) →
  let st := foldl (λ st e, append e st) (mkPart i es0 (Some f), fs0) es in
  st.1 = mkPart i (es0 ++ es) (Some f) ∧ Record.files st.2 !! f = Some (fileOf i cwd created (es0 ++ es)).
Proof.
  revert es0 fs0. induction es as [|e es IH]; intros es0 fs0 H0; simpl; [by rewrite app_nil_r|].
  rewrite (cons_middle e es0 es), app_assoc. apply IH.
  unfold Record.appendFile, Record.writeFile. cbn [Record.files]. rewrite lookup_insert_eq, H0. cbn [default].
  by rewrite fileOf_snoc.
Qed.

Lemma tornLine_no_nl v n : (n < length (lineOf v))%nat → 10 ∉ take n (lineOf v).
Proof. exact (Record.torn_no_nl v n). Qed.

Lemma live_holds d name fs s lf (f := transcriptFile d name) :
  holds f fs s → life_ok lf → (∀ i es, s = Some (i, es) → kept_before es) → holds f (live d name fs lf) (holdNext s lf).
Proof.
  intros Hs Hl Hk. destruct lf as [o n|o es tear]; [by apply tornOpen_holds|].
  destruct Hl as (Ho & He & Ht). cbn [live].
  destruct (open_holds d name o fs s Ho Hs Hk) as (fs' & why & i & es0 & -> & HN & cwd & created & Hf & HU). fold f in Hf |- *.
  destruct (appends_hold f i cwd created es0 fs' es Hf) as [E1 E2].
  assert (holdNext s (lives o es tear) = Some (i, es0 ++ es)) as ->.
  { destruct s as [[i' es']|]; cbn in HN |- *; rewrite app_nil_r in HN; by simplify_eq. }
  assert (Forall units_ok (linesOf i cwd created (es0 ++ es))) as HU'.
  { unfold linesOf in *. rewrite fmap_app. apply Forall_cons in HU as [? ?]. constructor; [done|].
    apply Forall_app. split; [done|]. by apply Forall_fmap. }
  set (st := foldl _ _ es) in *. destruct tear as [[e n]|].
  - destruct Ht as [_ Hn]. unfold tornAppend. rewrite E1. cbn [path].
    exists cwd, created, (take n (lineOf (entryJson e))). split_and!; [|by apply tornLine_no_nl|done].
    unfold Record.appendFile, Record.writeFile. cbn [Record.files]. by rewrite lookup_insert_eq, E2.
  - exists cwd, created, []. rewrite app_nil_r. split_and!; [done|set_solver|done].
Qed.

Lemma held_grows i es ls : ∃ more, foldl holdNext (Some (i, es)) ls = Some (i, es ++ more).
Proof.
  revert es. induction ls as [|lf ls IH]; intros es; [exists []; by rewrite app_nil_r|].
  destruct lf as [o n|o es' tear]; cbn [foldl holdNext]; [apply IH|].
  destruct (IH (es ++ es')) as [more ->]. exists (es' ++ more). by rewrite app_assoc.
Qed.

Lemma lives_hold d name ls fs s :
  holds (transcriptFile d name) fs s → Forall life_ok ls →
  (∀ i es, foldl holdNext s ls = Some (i, es) → kept_before es) →
  holds (transcriptFile d name) (foldl (live d name) fs ls) (foldl holdNext s ls).
Proof.
  intros Hs HL. revert fs s Hs. induction HL as [|lf ls Hlf _ IH]; intros fs s Hs HK; [done|].
  cbn [foldl] in *. apply IH; [|done]. apply live_holds; [done|done|]. intros i es ->.
  assert (∃ more, holdNext (Some (i, es)) lf = Some (i, es ++ more)) as [m1 E1] by apply (held_grows i es [lf]).
  rewrite E1 in HK. destruct (held_grows i (es ++ m1) ls) as [m2 E2].
  apply (kept_before_app es (m1 ++ m2)). rewrite app_assoc. by eapply HK.
Qed.

(** What a model read survives its Harness. A conversation whose transcript
    does not exist yet is opened by any number of processes, each of which
    seeds it or goes on with it, appends entries, and may die while it writes
    the new file or in the middle of a line, at any byte. The next process opens
    the part with the id that the first one gave it, and with exactly the
    entries it was seeded with and every entry appended in full since, in
    order; the record's history is not seeded again. *)
Theorem transcript_survives d name fs ls o :
  Record.files fs !! transcriptFile d name = None → Forall life_ok ls → opening_ok o →
  (∀ i es, foldl holdNext None ls = Some (i, es) → kept_before es) →
  let '(p, _, _) := openEnginePart (Some d) name o (foldl (live d name) fs ls) in
  holdNext (foldl holdNext None ls) (lives o [] None) = Some (id p, entries p)
  ∧ path p = Some (transcriptFile d name).
Proof.
  intros Hf HL Ho HK.
  destruct (open_holds d name o _ _ Ho (lives_hold d name ls fs None Hf HL HK) HK)
    as (fs' & why & i & es & -> & HN & _). done.
Qed.

Definition sampleModel : Model := mkModel (js "a") (js "p") (js "m") 200000 32768.

Definition sampleOpening (s : string) : Opening :=
  mkOpening (js s) (js "/work") sampleModel 7 (js "2026-01-01T00:00:00Z") [mkHistory fromUser (js "hi")].

Definition askedOf (s : string) : TranscriptEntry := message (user (mkUser (Text (js s)) 8)).

(** A first process that dies while it seeds, a second that dies in a line, a
    third that compacts. *)
Definition threeLives : list Life :=
  [dies (sampleOpening "first") 20; lives (sampleOpening "second") [submission; askedOf "a"] (Some (askedOf "b", 9%nat));
   lives (sampleOpening "third") [askedOf "c"; compaction (mkCompaction (js "s") 3 10 (mkDetails [] []) noUsage 9)] None].

Lemma transcript_survives_witness :
  let '(p, _, _) := openEnginePart (Some [js "d"]) (js "pi") (sampleOpening "last") (foldl (live [js "d"] (js "pi")) Record.emptyFS threeLives) in
  Some (js "second", newEntries (sampleOpening "second") ++ [submission; askedOf "a"; askedOf "c";
         compaction (mkCompaction (js "s") 3 10 (mkDetails [] []) noUsage 9)]) = Some (id p, entries p)
  ∧ path p = Some (transcriptFile [js "d"] (js "pi")).
Proof.
  apply (transcript_survives [js "d"] (js "pi") Record.emptyFS threeLives (sampleOpening "last")).
  - reflexivity.
  - repeat first [apply js_units | apply Nat.ltb_lt; vm_compute; reflexivity | constructor].
  - repeat first [apply js_units | constructor].
  - intros i es [= <- <-] k e Hk. do 5 (destruct k as [|k]; [simpl in Hk; simplify_eq; simpl; lia|]). done.
Defined.
End TranscriptProofs.
