(* ===== verification/Compaction.v ===== *)
(** * Compaction (harness/src/compaction.ts, harness/src/compaction-summary.ts)

    When the context of a Turn grows over what its model can read, the oldest
    part of it is replaced by a summary.  [findCutPoint] and
    [prepareCompaction] choose what is summarized and what is kept, [compact]
    asks for the summary, [compactIfOver] decides when and appends the cut.
    The model's answer to a summary request ([ask], with pi-ai's retries) and
    pi-ai's [contentText] are parameters.  A request that fails throws its
    words. *)

From Stdlib Require Import Lia ZArith SpecFloat.
From stdpp Require Import base list strings sets gmap.
From S2P Require Import Prelude JsString Json JsObject Utf8 Sql Record Transcript.

Open Scope Z_scope.

Module Compaction.
Import Json Sql Transcript.

(** ** Settings (compaction.ts) *)

Record CompactionSettings := mkSettings { enabled : bool; reserveTokens : Z; keepRecentTokens : Z }.

Definition RESERVE_FLOOR : Z := 16384.
Definition SMALL_WINDOW_RESERVE_MIN : Z := 1024.
Definition KEEP_RECENT_TOKENS : Z := 20000.

Definition compactionSettingsFor (model : Model) (keep : Z) : CompactionSettings :=
  if negb (0 <? contextWindow model) then mkSettings false RESERVE_FLOOR keep
  else
    let reserve := Z.max RESERVE_FLOOR (maxTokens model) in
    mkSettings true
      (if contextWindow model <=? reserve * 2 then Z.max SMALL_WINDOW_RESERVE_MIN (contextWindow model / 3) else reserve)
      keep.

Definition overContextThreshold (contextTokens window : Z) (s : CompactionSettings) : bool :=
  if negb (enabled s) then false else window - reserveTokens s <? contextTokens.

(** ** The estimate *)

Definition calculateContextTokens (u : Usage) : Z :=
  if totalTokens u =? 0 then input u + output u + cacheRead u + cacheWrite u else totalTokens u.

Definition getAssistantUsage (m : EngineMessage) : option Usage :=
  match m with
  | carried (assistant a) =>
      if negb (bool_decide (stopReason a = js "aborted")) && negb (bool_decide (stopReason a = js "error"))
         && (0 <? calculateContextTokens (a_usage a))
      then Some (a_usage a) else None
  | _ => None
  end.

Fixpoint lastUsage (es : list TranscriptEntry) : option Usage :=
  match es with
  | [] => None
  | e :: es' =>
      match lastUsage es' with
      | Some u => Some u
      | None => match e with message m => getAssistantUsage (carried m) | _ => None end
      end
  end.

Definition getLastAssistantUsage (es : list TranscriptEntry) : option Usage := lastUsage es.

Definition ESTIMATED_IMAGE_CHARS : Z := 4800.

Definition len (s : jstr) : Z := Z.of_nat (length s).

Definition textAndImageChars (b : Block) : Z :=
  match b with text t => len t | image _ => ESTIMATED_IMAGE_CHARS | _ => 0 end.

Definition sumZ (l : list Z) : Z := foldr Z.add 0 l.

Definition estimateTextAndImageContentChars (c : Content) : Z :=
  match c with
  | Text s => len s
  | Blocks l => sumZ (textAndImageChars <$> l)
  end.

(** [Math.ceil(chars / 4)] *)
Definition ceil4 (chars : Z) : Z := (chars + 3) / 4.

Definition assistantChars (b : Block) : Z :=
  match b with
  | text t => len t
  | thinking t => len t
  | toolCall c => len (call_name c) + len (stringify (arguments c))
  | image _ => 0
  end.

Definition estimateTokens (m : EngineMessage) : Z :=
  match m with
  | carried (user u) => ceil4 (estimateTextAndImageContentChars (u_content u))
  | carried (assistant a) => ceil4 (sumZ (assistantChars <$> a_content a))
  | carried (toolResult r) => ceil4 (estimateTextAndImageContentChars (Blocks (r_content r)))
  | compactionSummary s => ceil4 (len (s_summary s))
  end.

Record ContextEstimate := mkEstimate {
  tokens : Z; usageTokens : Z; trailingTokens : Z; lastUsageIndex : option nat;
}.

(** The newest valid usage, and its index. *)
Fixpoint usageFrom (ms : list EngineMessage) (n : nat) : option (nat * Usage) :=
  match n with
  | O => None
  | S i =>
      match ms !! i ≫= getAssistantUsage with
      | Some u => Some (i, u)
      | None => usageFrom ms i
      end
  end.

Definition estimateContextTokens (ms : list EngineMessage) : ContextEstimate :=
  match usageFrom ms (length ms) with
  | None => let e := sumZ (estimateTokens <$> ms) in mkEstimate e 0 e None
  | Some (i, u) =>
      let ut := calculateContextTokens u in
      let tt := sumZ (estimateTokens <$> drop (i + 1) ms) in
      mkEstimate (ut + tt) ut tt (Some i)
  end.

(** ** The cut point *)

Definition isUserEntry (e : option TranscriptEntry) : bool :=
  match e with Some (message (user _)) => true | _ => false end.

Definition isCutPoint (e : option TranscriptEntry) : bool :=
  match e with Some (message (user _)) | Some (message (assistant _)) => true | _ => false end.

Definition findValidCutPoints (es : list TranscriptEntry) (startIndex endIndex : nat) : list nat :=
  filter (λ i, isCutPoint (es !! i) = true) (seq startIndex (endIndex - startIndex)).

Fixpoint turnStartFrom (es : list TranscriptEntry) (startIndex : nat) (n : nat) : option nat :=
  match n with
  | O => None
  | S i =>
      if (i <? startIndex)%nat then None
      else if isUserEntry (es !! i) then Some i else turnStartFrom es startIndex i
  end.

(** [-1] is [None]. *)
Definition findTurnStartIndex (es : list TranscriptEntry) (entryIndex startIndex : nat) : option nat :=
  turnStartFrom es startIndex (S entryIndex).

Record CutPoint := mkCutPoint { firstKeptEntryIndex : nat; turnStartIndex : option nat; isSplitTurn : bool }.

(** The loop from the end back, until the budget: the index where it is spent. *)
Fixpoint budgetFrom (es : list TranscriptEntry) (startIndex : nat) (keep accumulated : Z) (n : nat) : option nat :=
  match n with
  | O => None
  | S i =>
      if (i <? startIndex)%nat then None
      else
        match es !! i with
        | Some (message m) =>
            let accumulated := accumulated + estimateTokens (carried m) in
            if keep <=? accumulated then Some i else budgetFrom es startIndex keep accumulated i
        | _ => budgetFrom es startIndex keep accumulated i
        end
  end.

(** The move back over the marks of Submissions. *)
Fixpoint overMarks (es : list TranscriptEntry) (startIndex n : nat) : nat :=
  match n with
  | O => O
  | S i =>
      if (startIndex <? n)%nat then
        match es !! i with
        | Some submission => overMarks es startIndex i
        | _ => n
        end
      else n
  end.

Definition findCutPoint (es : list TranscriptEntry) (startIndex endIndex : nat) (keep : Z) : CutPoint :=
  match findValidCutPoints es startIndex endIndex with
  | [] => mkCutPoint startIndex None false
  | first :: rest =>
      let cutIndex :=
        match budgetFrom es startIndex keep 0 endIndex with
        | Some i => default first (find (λ point, (i <=? point)%nat) (first :: rest))
        | None => first
        end in
      let cutIndex := overMarks es startIndex cutIndex in
      let isUserMessage := isUserEntry (es !! cutIndex) in
      let turnStart := if isUserMessage then None else findTurnStartIndex es cutIndex startIndex in
      mkCutPoint cutIndex turnStart (negb isUserMessage && bool_decide (is_Some turnStart))
  end.

(** ** The file lists *)

Record FileOps := mkOps { ops_read : list jstr; ops_written : list jstr; ops_edited : list jstr }.

(** [set.add(x)], for a set as the list of its members in the order added. *)
Definition setAdd (x : jstr) (s : list jstr) : list jstr := if bool_decide (x ∈ s) then s else s ++ [x].

Definition fileOpsOfBlock (ops : FileOps) (b : Block) : FileOps :=
  match b with
  | toolCall c =>
      match prop (js "path") (arguments c) with
      | Some (JStr (x :: p)) =>
          let path := x :: p in
          if bool_decide (call_name c = js "read") then mkOps (setAdd path (ops_read ops)) (ops_written ops) (ops_edited ops)
          else if bool_decide (call_name c = js "write") then mkOps (ops_read ops) (setAdd path (ops_written ops)) (ops_edited ops)
          else if bool_decide (call_name c = js "edit") then mkOps (ops_read ops) (ops_written ops) (setAdd path (ops_edited ops))
          else ops
      | _ => ops
      end
  | _ => ops
  end.

Definition extractFileOpsFromMessage (ops : FileOps) (m : Message) : FileOps :=
  match m with
  | assistant a => foldl fileOpsOfBlock ops (a_content a)
  | _ => ops
  end.

(** [list.sort()]: by UTF-16 units. *)
Definition sorted (l : list jstr) : list jstr := orderBy bytesLt l.

Definition computeFileLists (ops : FileOps) : CompactionDetails :=
  let modified := foldl (λ s f, setAdd f s) [] (ops_edited ops ++ ops_written ops) in
  mkDetails (sorted (filter (λ f, f ∉ modified) (ops_read ops))) (sorted modified).

Definition nl : jstr := [10].

Definition formatFileOperations (reads modifieds : list jstr) : jstr :=
  let sections :=
    (match reads with [] => [] | _ => [js "<read-files>" ++ nl ++ join nl reads ++ nl ++ js "</read-files>"] end)
    ++ (match modifieds with [] => [] | _ => [js "<modified-files>" ++ nl ++ join nl modifieds ++ nl ++ js "</modified-files>"] end) in
  match sections with [] => [] | _ => nl ++ nl ++ join (nl ++ nl) sections end.

(** ** The summary request *)

Definition COMPACTION_SUMMARY_PREFIX : jstr :=
  js "The conversation history before this point was compacted into the following summary:" ++ nl
  ++ nl
  ++ js "<summary>" ++ nl.

Definition COMPACTION_SUMMARY_SUFFIX : jstr :=
  nl
  ++ js "</summary>".

Definition SUMMARIZATION_PROMPT : jstr :=
  js "The messages above are a conversation to summarize. Create a structured context checkpoint summary that another LLM will use to continue the work." ++ nl
  ++ nl
  ++ js "Use this EXACT format:" ++ nl
  ++ nl
  ++ js "## Goal" ++ nl
  ++ js "[What is the user trying to accomplish? Can be multiple items if the session covers different tasks.]" ++ nl
  ++ nl
  ++ js "## Constraints & Preferences" ++ nl
  ++ js "- [Any constraints, preferences, or requirements mentioned by user]" ++ nl
  ++ js "- [Or " ++ [34] ++ js "(none)" ++ [34] ++ js " if none were mentioned]" ++ nl
  ++ nl
  ++ js "## Progress" ++ nl
  ++ js "### Done" ++ nl
  ++ js "- [x] [Completed tasks/changes]" ++ nl
  ++ nl
  ++ js "### In Progress" ++ nl
  ++ js "- [ ] [Current work]" ++ nl
  ++ nl
  ++ js "### Blocked" ++ nl
  ++ js "- [Issues preventing progress, if any]" ++ nl
  ++ nl
  ++ js "## Key Decisions" ++ nl
  ++ js "- **[Decision]**: [Brief rationale]" ++ nl
  ++ nl
  ++ js "## Next Steps" ++ nl
  ++ js "1. [Ordered list of what should happen next]" ++ nl
  ++ nl
  ++ js "## Critical Context" ++ nl
  ++ js "- [Any data, examples, or references needed to continue]" ++ nl
  ++ js "- [Or " ++ [34] ++ js "(none)" ++ [34] ++ js " if not applicable]" ++ nl
  ++ nl
  ++ js "Keep each section concise. Preserve exact file paths, function names, and error messages.".

Definition UPDATE_SUMMARIZATION_PROMPT : jstr :=
  js "The messages above are NEW conversation messages to incorporate into the existing summary provided in <previous-summary> tags." ++ nl
  ++ nl
  ++ js "Update the existing structured summary with new information. RULES:" ++ nl
  ++ js "- PRESERVE all existing information from the previous summary" ++ nl
  ++ js "- ADD new progress, decisions, and context from the new messages" ++ nl
  ++ js "- UPDATE the Progress section: move items from " ++ [34] ++ js "In Progress" ++ [34] ++ js " to " ++ [34] ++ js "Done" ++ [34] ++ js " when completed" ++ nl
  ++ js "- UPDATE " ++ [34] ++ js "Next Steps" ++ [34] ++ js " based on what was accomplished" ++ nl
  ++ js "- PRESERVE exact file paths, function names, and error messages" ++ nl
  ++ js "- If something is no longer relevant, you may remove it" ++ nl
  ++ nl
  ++ js "Use this EXACT format:" ++ nl
  ++ nl
  ++ js "## Goal" ++ nl
  ++ js "[Preserve existing goals, add new ones if the task expanded]" ++ nl
  ++ nl
  ++ js "## Constraints & Preferences" ++ nl
  ++ js "- [Preserve existing, add new ones discovered]" ++ nl
  ++ nl
  ++ js "## Progress" ++ nl
  ++ js "### Done" ++ nl
  ++ js "- [x] [Include previously done items AND newly completed items]" ++ nl
  ++ nl
  ++ js "### In Progress" ++ nl
  ++ js "- [ ] [Current work - update based on progress]" ++ nl
  ++ nl
  ++ js "### Blocked" ++ nl
  ++ js "- [Current blockers - remove if resolved]" ++ nl
  ++ nl
  ++ js "## Key Decisions" ++ nl
  ++ js "- **[Decision]**: [Brief rationale] (preserve all previous, add new)" ++ nl
  ++ nl
  ++ js "## Next Steps" ++ nl
  ++ js "1. [Update based on current state]" ++ nl
  ++ nl
  ++ js "## Critical Context" ++ nl
  ++ js "- [Preserve important context, add new if needed]" ++ nl
  ++ nl
  ++ js "Keep each section concise. Preserve exact file paths, function names, and error messages.".

Definition TURN_PREFIX_SUMMARIZATION_PROMPT : jstr :=
  js "This is the PREFIX of a turn that was too large to keep. The SUFFIX (recent work) is retained." ++ nl
  ++ nl
  ++ js "Summarize the prefix to provide context for the retained suffix:" ++ nl
  ++ nl
  ++ js "## Original Request" ++ nl
  ++ js "[What did the user ask for in this turn?]" ++ nl
  ++ nl
  ++ js "## Early Progress" ++ nl
  ++ js "- [Key decisions and work done in the prefix]" ++ nl
  ++ nl
  ++ js "## Context for Suffix" ++ nl
  ++ js "- [Information needed to understand the retained recent work]" ++ nl
  ++ nl
  ++ js "Be concise. Focus on what's needed to understand the kept suffix.".

Definition compactionSummaryText (s : jstr) : jstr := COMPACTION_SUMMARY_PREFIX ++ s ++ COMPACTION_SUMMARY_SUFFIX.

Definition summaryAsUser (s : CompactionSummaryMessage) : Message :=
  user (mkUser (Blocks [text (compactionSummaryText (s_summary s))]) (s_timestamp s)).

Definition summaryLlmMessages (ms : list EngineMessage) : list Message :=
  (λ m, match m with compactionSummary s => summaryAsUser s | carried m => m end) <$> ms.

Definition TOOL_RESULT_MAX_CHARS : nat := 2000.

Definition truncateForSummary (t : jstr) (maxChars : nat) : jstr :=
  if (length t <=? maxChars)%nat then t
  else take maxChars t ++ nl ++ nl ++ js "[... " ++ of_int (Z.of_nat (length t - maxChars)) ++ js " more characters truncated]".

(** [Object.entries(arguments)] as the summarizer reads it. *)
Definition argsText (v : json) : jstr :=
  match v with
  | JObj l => join (js ", ") ((λ k, k ++ js "=" ++ stringify (obj (prop k v))) <$> JsObject.objectKeys l.*1)
  | _ => []
  end.

(** What the provider answers a summary request with. *)
Record Response := mkResponse { rs_stopReason : jstr; rs_errorMessage : option jstr; rs_content : list Block; rs_usage : Usage }.

Section Request.
Variable contentText : Content → option jstr → jstr.  (** pi-ai's *)

Definition userPart (c : Content) (label : jstr → jstr) : list jstr :=
  match contentText c (Some []) with [] => [] | t => [label t] end.

Definition assistantParts (l : list Block) : list jstr :=
  let thinkingParts := omap (λ b, match b with thinking t => Some t | _ => None end) l in
  let toolCalls := omap (λ b, match b with toolCall c => Some (call_name c ++ js "(" ++ argsText (arguments c) ++ js ")") | _ => None end) l in
  (match thinkingParts with [] => [] | _ => [js "[Assistant thinking]: " ++ join nl thinkingParts] end)
  ++ (if existsb (λ b, match b with text _ => true | _ => false end) l
      then [js "[Assistant]: " ++ contentText (Blocks l) None] else [])
  ++ (match toolCalls with [] => [] | _ => [js "[Assistant tool calls]: " ++ join (js "; ") toolCalls] end).

Definition messageParts (m : Message) : list jstr :=
  match m with
  | user u => userPart (u_content u) (λ t, js "[User]: " ++ t)
  | assistant a => assistantParts (a_content a)
  | toolResult r =>
      userPart (Blocks (r_content r)) (λ t, js "[Tool result]: " ++ truncateForSummary t TOOL_RESULT_MAX_CHARS)
  end.

Definition serializeConversation (ms : list Message) : jstr := join (nl ++ nl) (ms ≫= messageParts).

Definition conversationText (ms : list Message) : jstr :=
  js "<conversation>" ++ nl ++ serializeConversation (summaryLlmMessages (carried <$> ms)) ++ nl
  ++ js "</conversation>" ++ nl ++ nl.

(** The texts of the two requests. *)
Definition summaryPrompt (ms : list Message) (previousSummary : option jstr) : jstr :=
  match previousSummary with
  | Some ((_ :: _) as p) =>
      conversationText ms ++ js "<previous-summary>" ++ nl ++ p ++ nl ++ js "</previous-summary>" ++ nl ++ nl
      ++ UPDATE_SUMMARIZATION_PROMPT
  | _ => conversationText ms ++ SUMMARIZATION_PROMPT
  end.

Definition turnPrefixPrompt (ms : list Message) : jstr := conversationText ms ++ TURN_PREFIX_SUMMARIZATION_PROMPT.

(** [Math.floor(part * n)] in doubles; 0.8 and 0.5. *)
Definition floorPart (part : spec_float) (n : Z) : Z :=
  match SFmul 53 1024 part (binary_normalize 53 1024 n 0 false) with
  | S754_finite s m e => Z.shiftr (if s then Zneg m else Zpos m) (- e)
  | _ => 0
  end.
Definition HISTORY_PART : spec_float := S754_finite false 7205759403792794 (-53).
Definition PREFIX_PART : spec_float := S754_finite false 4503599627370496 (-53).

(** [Math.min(n, capOf(model))] *)
Definition capped (n : Z) (model : Model) : Z := if 0 <? maxTokens model then Z.min n (maxTokens model) else n.

Variable ask : jstr → Z → Response.  (** [summaryCall]: a prompt and the most tokens of its answer *)

Definition orElse (t : option jstr) (other : jstr) : jstr := match t with Some ((_ :: _) as m) => m | _ => other end.

Definition answerTo (r : Response) (abortedText failedText : jstr) : result jstr (jstr * Usage) :=
  if bool_decide (rs_stopReason r = js "aborted") then Throw (orElse (rs_errorMessage r) abortedText)
  else if bool_decide (rs_stopReason r = js "error") then Throw (failedText ++ orElse (rs_errorMessage r) (js "Unknown error"))
  else Ok (contentText (Blocks (rs_content r)) None, rs_usage r).

Definition generateSummary (model : Model) (reserve : Z) (ms : list Message) (previousSummary : option jstr)
    : result jstr (jstr * Usage) :=
  answerTo (ask (summaryPrompt ms previousSummary) (capped (floorPart HISTORY_PART reserve) model))
    (js "Summarization aborted") (js "Summarization failed: ").

Definition generateTurnPrefixSummary (model : Model) (reserve : Z) (ms : list Message) : result jstr (jstr * Usage) :=
  answerTo (ask (turnPrefixPrompt ms) (capped (floorPart PREFIX_PART reserve) model))
    (js "Turn prefix summarization aborted") (js "Turn prefix summarization failed: ").

Definition optSum (a b : option Z) : option Z :=
  match a, b with
  | None, None => None
  | _, _ => Some (default 0 a + default 0 b)
  end.

Definition combineUsage (a b : Usage) : Usage :=
  mkUsage (input a + input b) (output a + output b) (cacheRead a + cacheRead b) (cacheWrite a + cacheWrite b)
    (optSum (cacheWrite1h a) (cacheWrite1h b)) (optSum (reasoning a) (reasoning b)) (totalTokens a + totalTokens b)
    (mkCost (c_input (cost a) + c_input (cost b)) (c_output (cost a) + c_output (cost b))
       (c_cacheRead (cost a) + c_cacheRead (cost b)) (c_cacheWrite (cost a) + c_cacheWrite (cost b))
       (c_total (cost a) + c_total (cost b))).

(** ** The cut *)

Record PreparedCut := mkPrepared {
  p_firstKept : nat; messagesToSummarize : list Message; turnPrefixMessages : list Message; p_isSplitTurn : bool;
  p_tokensBefore : Z; previousSummary : option jstr; fileOps : FileOps;
}.

Definition messageOf (e : TranscriptEntry) : list Message := match e with message m => [m] | _ => [] end.

Definition prepareCompaction (br : nat * list TranscriptEntry) (s : CompactionSettings)
    : result jstr (option PreparedCut) :=
  let '(start, es) := br in
  match last es with
  | None | Some (compaction _) => Ok None
  | _ =>
      let prev := newestCompaction es in
      let boundaryStart :=
        match prev with
        | None => 0%nat
        | Some (i, c) =>
            if (start <=? firstKept c)%nat && (firstKept c - start <? length es)%nat
            then (firstKept c - start)%nat else (i + 1)%nat
        end in
      let ops0 :=
        match prev with
        | None => mkOps [] [] []
        | Some (_, c) =>
            mkOps (foldl (λ s f, setAdd f s) [] (readFiles (details c))) []
              (foldl (λ s f, setAdd f s) [] (modifiedFiles (details c)))
        end in
      let tokensBefore := tokens (estimateContextTokens (contextOf es start)) in
      let cut := findCutPoint es boundaryStart (length es) (keepRecentTokens s) in
      let k := firstKeptEntryIndex cut in
      _ ← guard_throw (bool_decide (es !! k = None)) (js "the cut keeps no entry of the transcript");
      let historyEnd := if isSplitTurn cut then default 0%nat (turnStartIndex cut) else k in
      let toSummarize := slice boundaryStart historyEnd es ≫= messageOf in
      let prefix := if isSplitTurn cut then slice (default 0%nat (turnStartIndex cut)) k es ≫= messageOf else [] in
      let ops := foldl extractFileOpsFromMessage (foldl extractFileOpsFromMessage ops0 toSummarize) prefix in
      Ok (Some (mkPrepared (start + k) toSummarize prefix (isSplitTurn cut) tokensBefore ((λ p, summary p.2) <$> prev) ops))
  end.

Definition compact (p : PreparedCut) (model : Model) (s : CompactionSettings) (now : Z) : result jstr CompactionEntry :=
  su ← (if p_isSplitTurn p && negb (bool_decide (turnPrefixMessages p = [])) then
          history ← (if bool_decide (messagesToSummarize p = []) then Ok (js "No prior history.", None)
                     else h ← generateSummary model (reserveTokens s) (messagesToSummarize p) (previousSummary p);
                          Ok (h.1, Some h.2));
          prefix ← generateTurnPrefixSummary model (reserveTokens s) (turnPrefixMessages p);
          Ok (history.1 ++ nl ++ nl ++ js "---" ++ nl ++ nl ++ js "**Turn Context (split turn):**" ++ nl ++ nl ++ prefix.1,
              match history.2 with Some u => combineUsage u prefix.2 | None => prefix.2 end)
        else generateSummary model (reserveTokens s) (messagesToSummarize p) (previousSummary p));
  let d := computeFileLists (fileOps p) in
  Ok (mkCompaction (su.1 ++ formatFileOperations (readFiles d) (modifiedFiles d)) (p_firstKept p) (p_tokensBefore p) d su.2 now).

Record Cut := mkCut { c_messages : list EngineMessage; c_tokensBefore : Z; c_tokensAfter : Z }.

(** [aborted]: whether the run's signal has fired. *)
Definition compactIfOver (model : Model) (s : CompactionSettings) (aborted : bool) (now : Z)
    (st : EnginePart * Record.FS) : result jstr (option Cut * (EnginePart * Record.FS)) :=
  let part := st.1 in
  if aborted then Ok (None, st)
  else if negb (overContextThreshold (tokens (estimateContextTokens (context part))) (contextWindow model) s) then Ok (None, st)
  else
    let br := branch part in
    let stale := match newestCompaction br.2 with
                 | Some (i, _) => bool_decide (getLastAssistantUsage (drop (i + 1) br.2) = None)
                 | None => false
                 end in
    if stale then Ok (None, st)
    else
      prepared ← prepareCompaction br s;
      match prepared with
      | None => Ok (None, st)
      | Some p =>
          cut ← compact p model s now;
          let st' := appendCompaction cut st in
          let rebuilt := context st'.1 in
          Ok (Some (mkCut rebuilt (tokensBefore cut) (sumZ (estimateTokens <$> rebuilt))), st')
      end.

End Request.
End Compaction.
