(* ===== verification/CompactionProofs.v ===== *)
(** * Compaction: what a cut keeps, and that nothing is lost *)

From Stdlib Require Import Lia ZArith SpecFloat.
From stdpp Require Import base list strings sets gmap.
From S2P Require Import Prelude JsString Json Utf8 Sql Record Transcript TranscriptProofs Compaction.

Open Scope Z_scope.

Module CompactionProofs.
Import Json Transcript TranscriptProofs Compaction.

(** ** The newest Compaction *)

Lemma newestFrom_spec es n i c :
  newestFrom es n = Some (i, c) ↔
  (i < n)%nat ∧ es !! i = Some (compaction c) ∧ ∀ j c', (i < j < n)%nat → es !! j ≠ Some (compaction c').
Proof.
  induction n as [|n IH]; cbn [newestFrom].
  - split; [done|]. intros [H _]. lia.
  - assert (∀ x, es !! n = x → (∀ c0, x ≠ Some (compaction c0)) →
      (newestFrom es n = Some (i, c) ↔
       (i < S n)%nat ∧ es !! i = Some (compaction c) ∧ ∀ j c', (i < j < S n)%nat → es !! j ≠ Some (compaction c'))) as HN.
    { intros x E Hx. rewrite IH. split; intros (H1 & H2 & H3).
      - split_and!; [lia|done|]. intros j c' Hj. destruct (decide (j = n)) as [->|]; [by rewrite E|apply H3; lia].
      - assert (i ≠ n) by (intros ->; rewrite E in H2; by eapply Hx). split_and!; [lia|done|]. intros j c' Hj. apply H3. lia. }
    destruct (es !! n) as [[m| |c0]|] eqn:E; [by apply (HN _ eq_refl)|by apply (HN _ eq_refl)| |by apply (HN _ eq_refl)].
    split.
    + intros [= <- <-]. split_and!; [lia|done|]. intros j c' Hj. lia.
    + intros (H1 & H2 & H3). destruct (decide (i = n)) as [->|]; [congruence|]. destruct (H3 n c0); [lia|done].
Qed.

Lemma newest_spec es i c :
  newestCompaction es = Some (i, c) ↔
  es !! i = Some (compaction c) ∧ ∀ j c', (i < j)%nat → es !! j ≠ Some (compaction c').
Proof.
  unfold newestCompaction. rewrite newestFrom_spec. split.
  - intros (H1 & H2 & H3). split; [done|]. intros j c' Hj E. apply (H3 j c'); [|done]. split; [lia|]. by eapply lookup_lt_Some.
  - intros (H2 & H3). split_and!; [by eapply lookup_lt_Some|done|]. intros j c' Hj. apply H3. lia.
Qed.

Lemma newest_none es : newestCompaction es = None ↔ ∀ j c, es !! j ≠ Some (compaction c).
Proof.
  unfold newestCompaction. assert (∀ n, newestFrom es n = None ↔ ∀ j c, (j < n)%nat → es !! j ≠ Some (compaction c)) as H.
  { induction n as [|n IH]; cbn [newestFrom]; [split; [intros _ j c; lia|done]|].
    destruct (es !! n) as [[m| |c0]|] eqn:E; [| |split; [done|intros Hx; destruct (Hx n c0); [lia|done]]|];
      (rewrite IH; split; intros Hx j c Hj; [destruct (decide (j = n)) as [->|]; [by rewrite E|apply Hx; lia]|apply Hx; lia]). }
  rewrite H. split; intros Hx j c; [|intros _; apply Hx]. intros E. apply (Hx j c); [by eapply lookup_lt_Some|done].
Qed.

Lemma newest_drop es s i c :
  newestCompaction es = Some (i, c) → (s <= i)%nat → newestCompaction (drop s es) = Some ((i - s)%nat, c).
Proof.
  rewrite !newest_spec. intros [H1 H2] Hs. rewrite lookup_drop. replace (s + (i - s))%nat with i by lia.
  split; [done|]. intros j c' Hj. rewrite lookup_drop. apply H2. lia.
Qed.

Lemma newest_snoc es e :
  newestCompaction (es ++ [e]) = match e with compaction c => Some (length es, c) | _ => newestCompaction es end.
Proof.
  assert (∀ n, (n <= length es)%nat → newestFrom (es ++ [e]) n = newestFrom es n) as H.
  { induction n as [|n IH]; intros Hn; [done|]. cbn [newestFrom]. rewrite lookup_app_l, IH by lia. done. }
  unfold newestCompaction. rewrite length_app. cbn [length]. rewrite Nat.add_1_r. cbn [newestFrom].
  rewrite lookup_app_r, Nat.sub_diag by lia. cbn. rewrite H by lia. by destruct e.
Qed.

(** ** Transcripts that cuts make

    A cut keeps an entry before it, and what it keeps starts no earlier than
    what the cut before it kept. *)

Definition later_keeps (es : list TranscriptEntry) : Prop :=
  ∀ i j ci cj, (i < j)%nat → es !! i = Some (compaction ci) → es !! j = Some (compaction cj) → (firstKept ci <= firstKept cj)%nat.

Definition wf (es : list TranscriptEntry) : Prop := kept_before es ∧ later_keeps es.

(** Where the entries start that no summary covers. *)
Definition keptFrom (es : list TranscriptEntry) : nat :=
  match newestCompaction es with Some (_, c) => firstKept c | None => 0 end.

Lemma wf_newest es i c : wf es → newestCompaction es = Some (i, c) → (firstKept c < i < length es)%nat.
Proof. intros [H _] [E _]%newest_spec. specialize (H i _ E). simpl in H. apply lookup_lt_Some in E. lia. Qed.

Lemma wf_snoc es e :
  wf es → match e with compaction c => (keptFrom es <= firstKept c < length es)%nat | _ => True end → wf (es ++ [e]).
Proof.
  intros [H1 H2] He. split.
  - intros i e' [Hi|[Hl Hi]]%lookup_app_Some; [by apply H1|]. apply list_lookup_singleton_Some in Hi as [Hi <-].
    replace i with (length es) by lia. destruct e; simpl; lia.
  - intros i j ci cj Hij Hi Hj. apply lookup_app_Some in Hj as [Hj|[Hl Hj]].
    + rewrite lookup_app_l in Hi by (apply lookup_lt_Some in Hj; lia). by eapply H2.
    + apply list_lookup_singleton_Some in Hj as [Hj ->]. rewrite lookup_app_l in Hi by lia.
      unfold keptFrom in He. destruct (newestCompaction es) as [[n c]|] eqn:En.
      * apply newest_spec in En as [E1 E2]. destruct (decide (i = n)) as [->|]; [simplify_eq; lia|].
        destruct (decide (n < i)%nat) as [Hn|]; [by destruct (E2 i ci Hn)|].
        assert (firstKept ci <= firstKept c)%nat by (eapply (H2 i n); [lia|done|done]). lia.
      * rewrite newest_none in En. by destruct (En i ci).
Qed.

(** ** The branch reaches what the newest cut keeps *)

Lemma walk_below es n s :
  later_keeps es → (∀ j c, (j <= n)%nat → es !! j = Some (compaction c) → (firstKept c <= s)%nat) →
  (branchWalk es (Some s) n <= s)%nat.
Proof.
  intros HL. revert s. induction n as [|n IH]; intros s Hs; cbn [branchWalk]; [lia|].
  case_bool_decide as E; [injection E as ->; lia|].
  destruct (es !! S n) as [[m| |c]|] eqn:En; [apply IH; intros j c' Hj; apply Hs; lia| | |].
  - apply IH. intros j c' Hj. apply Hs. lia.
  - assert (firstKept c <= s)%nat by (eapply Hs; [|exact En]; lia).
    enough (branchWalk es (Some (firstKept c)) n <= firstKept c)%nat by lia.
    apply IH. intros j c' Hj Ej. eapply (HL j (S n)); [lia|done|done].
  - apply IH. intros j c' Hj. apply Hs. lia.
Qed.

Lemma walk_none es n : (∀ j c, es !! j ≠ Some (compaction c)) → branchWalk es None n = 0%nat.
Proof.
  intros H. induction n as [|n IH]; [done|]. cbn [branchWalk]. rewrite bool_decide_eq_false_2 by done.
  destruct (es !! S n) as [[m| |c]|] eqn:E; try done. by destruct (H (S n) c).
Qed.

Lemma walk_to es i c n :
  wf es → newestCompaction es = Some (i, c) → (i <= n)%nat → (branchWalk es None n <= firstKept c)%nat.
Proof.
  intros HW HN Hi. pose proof (wf_newest es i c HW HN) as Hk. apply newest_spec in HN as [E1 E2].
  induction n as [|n IH]; [lia|]. cbn [branchWalk]. rewrite bool_decide_eq_false_2 by done.
  destruct (decide (i = S n)) as [->|Hne].
  - rewrite E1. apply walk_below; [apply HW|]. intros j c' Hj Ej. eapply (proj2 HW j (S n)); [lia|done|done].
  - destruct (es !! S n) as [[m| |c']|] eqn:E; try (apply IH; lia). destruct (E2 (S n) c'); [lia|done].
Qed.

Lemma branchStart_below es : wf es → (branchStart es <= keptFrom es)%nat.
Proof.
  intros HW. unfold branchStart, keptFrom. destruct (newestCompaction es) as [[i c]|] eqn:E.
  - pose proof (wf_newest es i c HW E). eapply walk_to; [done|done|lia].
  - rewrite walk_none; [lia|]. by apply newest_none.
Qed.

(** ** The context, of the whole transcript *)

Definition contextSpec (es : list TranscriptEntry) : list EngineMessage :=
  match newestCompaction es with
  | None => es ≫= messagesOf
  | Some (i, c) =>
      [compactionSummary (summaryMessage c)] ++ (slice (firstKept c) i es ≫= messagesOf) ++ (drop (i + 1) es ≫= messagesOf)
  end.

Lemma slice_drop {A} s a b (l : list A) : (s <= a)%nat → slice (a - s) (b - s) (drop s l) = slice a b l.
Proof. intros H. unfold slice. rewrite drop_drop. by replace (s + (a - s))%nat with a by lia; replace (b - s - (a - s))%nat with (b - a)%nat by lia. Qed.

Lemma slice_app {A} a b c (l : list A) : (a <= b <= c)%nat → slice a b l ++ slice b c l = slice a c l.
Proof.
  intros H. unfold slice. replace (c - a)%nat with ((b - a) + (c - b))%nat by lia.
  rewrite <- (take_take_drop (drop a l)), drop_drop. by replace (a + (b - a))%nat with b by lia.
Qed.

Lemma slice_end {A} a (l : list A) : slice a (length l) l = drop a l.
Proof. unfold slice. apply take_ge. by rewrite length_drop. Qed.

Lemma context_eq es : wf es → contextOf (drop (branchStart es) es) (branchStart es) = contextSpec es.
Proof.
  intros HW. pose proof (branchStart_below es HW) as HB. set (s := branchStart es) in *. unfold contextOf, contextSpec, keptFrom in *.
  destruct (newestCompaction es) as [[i c]|] eqn:E.
  - pose proof (wf_newest es i c HW E). rewrite (newest_drop es s i c) by (done || lia).
    destruct (Nat.leb_spec s (firstKept c)); [|lia]. rewrite slice_drop by done. cbv zeta.
    rewrite drop_drop. by replace (s + (i - s + 1))%nat with (i + 1)%nat by lia.
  - replace s with 0%nat by lia. rewrite drop_0, E. done.
Qed.

(** The messages in it that are no summaries. *)
Definition plain (ms : list EngineMessage) : list Message := omap (λ m, match m with carried m => Some m | _ => None end) ms.

Lemma plain_app a b : plain (a ++ b) = plain a ++ plain b.
Proof. apply omap_app. Qed.

Lemma plain_messagesOf es : plain (es ≫= messagesOf) = es ≫= messageOf.
Proof.
  induction es as [|e es IH]; [done|]. rewrite !bind_cons, plain_app, IH. f_equal. by destruct e.
Qed.

Lemma kept_split es i c :
  wf es → newestCompaction es = Some (i, c) →
  drop (firstKept c) es = slice (firstKept c) i es ++ compaction c :: drop (i + 1) es.
Proof.
  intros HW E. pose proof (wf_newest es i c HW E) as Hi. apply newest_spec in E as [E _].
  rewrite <- slice_end, <- (slice_app (firstKept c) i (length es)) by lia. f_equal. rewrite slice_end.
  rewrite (drop_S es (compaction c) i) by done. by rewrite Nat.add_1_r.
Qed.

Lemma plain_context es : wf es → plain (contextSpec es) = drop (keptFrom es) es ≫= messageOf.
Proof.
  intros HW. unfold contextSpec, keptFrom. destruct (newestCompaction es) as [[i c]|] eqn:E.
  - rewrite (kept_split es i c) by done. rewrite !plain_app, !plain_messagesOf, bind_app, bind_cons. done.
  - rewrite drop_0. apply plain_messagesOf.
Qed.

(** ** Where a cut goes *)

Lemma cutPoints_elem es a e i : i ∈ findValidCutPoints es a e ↔ (a <= i < e)%nat ∧ isCutPoint (es !! i) = true.
Proof.
  unfold findValidCutPoints. rewrite list_elem_of_filter, elem_of_seq. split; intros [H1 H2]; (split; [lia || done|]); (done || lia).
Qed.

Lemma overMarks_spec es a n :
  (a <= n)%nat → (a <= overMarks es a n <= n)%nat
  ∧ (overMarks es a n = n ∨ es !! overMarks es a n = Some submission)
  ∧ ∀ i, (overMarks es a n <= i < n)%nat → es !! i = Some submission.
Proof.
  induction n as [|n IH]; intros Ha; [split; [simpl; lia|split; [by left|simpl; lia]]|]. cbn [overMarks].
  destruct (Nat.ltb_spec a (S n)) as [Hl|Hl]; [|split; [lia|split; [by left|lia]]].
  destruct (es !! n) as [[m| |c]|] eqn:E; try (split; [lia|split; [by left|lia]]).
  destruct IH as (H1 & H2 & H3); [lia|]. split; [lia|]. split.
  - right. destruct H2 as [->|H2]; done.
  - intros i Hi. destruct (decide (i = n)) as [->|]; [done|]. apply H3. lia.
Qed.

Lemma turnStart_spec es a n t : turnStartFrom es a n = Some t → (a <= t < n)%nat ∧ isUserEntry (es !! t) = true.
Proof.
  induction n as [|n IH]; cbn [turnStartFrom]; [done|]. destruct (Nat.ltb_spec n a); [done|].
  destruct (isUserEntry (es !! n)) eqn:E; [intros [= <-]; split; [lia|done]|]. intros [? ?]%IH. split; [lia|done].
Qed.

(** The first entry a cut keeps is in the range, and is a mark or a message
    that a cut may start at, but where there is no such message. *)
Lemma findCutPoint_range es a e keep (cp := findCutPoint es a e keep) (k := firstKeptEntryIndex cp) :
  (a < e)%nat →
  (a <= k < e)%nat
  ∧ (k = a ∨ isCutPoint (es !! k) = true ∨ es !! k = Some submission)
  ∧ (isSplitTurn cp = true → ∃ t, turnStartIndex cp = Some t ∧ (a <= t <= k)%nat).
Proof.
  intros Hae. unfold k, cp, findCutPoint.
  destruct (findValidCutPoints es a e) as [|p ps] eqn:E; [cbn; split_and!; [lia|lia|by left|done]|].
  set (raw := match budgetFrom es a keep 0 e with Some _ => _ | None => p end).
  assert (raw ∈ findValidCutPoints es a e) as Hr%cutPoints_elem.
  { rewrite E. unfold raw. destruct (budgetFrom _ _ _ _ _) as [i|]; [|by left].
    destruct (find _ (p :: ps)) as [q|] eqn:Ef; cbn [default]; [|by left].
    apply find_some in Ef as [Hq _]. by apply list_elem_of_In. }
  destruct Hr as [Hr1 Hr2]. destruct (overMarks_spec es a raw) as (H1 & H2 & _); [lia|].
  set (k' := overMarks es a raw) in *. cbn [firstKeptEntryIndex isSplitTurn turnStartIndex]. split; [lia|]. split.
  - destruct H2 as [->|H2]; [right; by left|right; by right].
  - intros [Hu Ht]%andb_true_iff. destruct (isUserEntry (es !! k')); [done|].
    apply bool_decide_eq_true_1 in Ht as [t Ht]. exists t. split; [done|]. apply turnStart_spec in Ht. lia.
Qed.

(** ** What a prepared cut summarizes *)

Definition summarized (p : PreparedCut) : list Message := messagesToSummarize p ++ turnPrefixMessages p.

Definition entry_may_start (e : option TranscriptEntry) : Prop := isCutPoint e = true ∨ e = Some submission.

Lemma isCompaction_last es c : last es = Some (compaction c) → newestCompaction es = Some ((length es - 1)%nat, c).
Proof. intros [l ->]%last_snoc_inv. rewrite newest_snoc, length_app. simpl. f_equal. f_equal. lia. Qed.

Lemma prepare_spec es s :
  wf es →
  prepareCompaction (branchStart es, drop (branchStart es) es) s = Ok None
  ∨ ∃ p, prepareCompaction (branchStart es, drop (branchStart es) es) s = Ok (Some p)
      ∧ (keptFrom es <= p_firstKept p < length es)%nat
      ∧ summarized p = slice (keptFrom es) (p_firstKept p) es ≫= messageOf
      ∧ (p_firstKept p = keptFrom es ∨ entry_may_start (es !! p_firstKept p))
      ∧ previousSummary p = (λ n, summary n.2) <$> newestCompaction es.
Proof.
  intros HW. pose proof (branchStart_below es HW) as HB. set (st := branchStart es) in *.
  unfold prepareCompaction. set (br := drop st es).
  assert (match newestCompaction br with Some (i, c) => newestCompaction es = Some ((st + i)%nat, c) ∧ (st <= firstKept c < st + i)%nat
          | None => newestCompaction es = None ∧ st = 0%nat end) as HN.
  { unfold keptFrom in HB. destruct (newestCompaction es) as [[i c]|] eqn:E.
    - pose proof (wf_newest es i c HW E). unfold br. rewrite (newest_drop es st i c) by (done || lia).
      split; [f_equal; f_equal; lia|lia].
    - assert (st = 0%nat) by lia. unfold br. replace st with 0%nat. by rewrite drop_0, E. }
  destruct (last br) as [e|] eqn:El; [|by left].
  assert (br ≠ []) as Hbr by by destruct br.
  assert (length br = length es - st)%nat as Hlen by (unfold br; by rewrite length_drop).
  assert (0 < length br)%nat by (destruct br; [done|simpl; lia]).
  set (a := match newestCompaction br with Some _ => _ | None => 0%nat end).
  assert (st + a = keptFrom es ∧ a < length br)%nat as [Ha Ha'].
  { unfold a, keptFrom. destruct (newestCompaction br) as [[i c]|] eqn:E.
    - destruct HN as [-> Hk]. pose proof (proj1 (proj1 (newest_spec br i c) E)) as Hi%lookup_lt_Some.
      destruct (Nat.leb_spec st (firstKept c)); [|lia]. destruct (Nat.ltb_spec (firstKept c - st) (length br)); simpl; lia.
    - destruct HN as [-> ->]. lia. }
  destruct (findCutPoint_range br a (length br) (keepRecentTokens s) Ha') as (Hk & Hstart & Hsplit).
  set (cp := findCutPoint br a (length br) (keepRecentTokens s)) in *. set (k := firstKeptEntryIndex cp) in *.
  assert (is_Some (br !! k)) as [ek Ek] by (apply lookup_lt_is_Some; lia).
  assert (es !! (st + k)%nat = br !! k) as Ees by (unfold br; by rewrite lookup_drop).
  set (historyEnd := if isSplitTurn cp then _ else k). set (prefix := if isSplitTurn cp then _ else []).
  assert ((slice a historyEnd br ≫= messageOf) ++ prefix = slice (keptFrom es) (st + k) es ≫= messageOf) as HF.
  { transitivity (slice a k br ≫= messageOf).
    - unfold historyEnd, prefix. destruct (isSplitTurn cp); [|by rewrite app_nil_r].
      destruct (Hsplit eq_refl) as (t & -> & Ht). cbn [default]. by rewrite <- bind_app, slice_app.
    - f_equal. unfold br. rewrite <- Ha, <- (slice_drop st (st + a) (st + k)) by lia. f_equal; lia. }
  rewrite bool_decide_eq_false_2 by (by rewrite Ek). unfold guard_throw. rewrite rok_bind.
  destruct e as [m| |c]; [right|right|by left]; (eexists; split; [reflexivity|]);
    unfold summarized, entry_may_start; cbn [p_firstKept messagesToSummarize turnPrefixMessages previousSummary]; rewrite Ees;
    (split; [lia|]); (split; [exact HF|]); (split; [destruct Hstart as [->|?]; [by left|by right]|]);
    (destruct (newestCompaction br) as [[i c]|]; [by destruct HN as [-> _]|by destruct HN as [-> _]]).
Qed.

(** ** Conversations that are cut again and again *)

Section Reach.
Context (contentText : Content → option jstr → jstr) (ask : jstr → Z → Response).
Abbreviation compactIfOver := (compactIfOver contentText ask).
Abbreviation State := (EnginePart * Record.FS)%type.

(** What a call of [compactIfOver] does. *)
Lemma compactIfOver_spec model s ab now st r st' :
  compactIfOver model s ab now st = Ok (r, st') →
  r = None ∧ st' = st
  ∨ ∃ p c cut, r = Some cut ∧ prepareCompaction (branch st.1) s = Ok (Some p) ∧ compact contentText ask p model s now = Ok c
      ∧ firstKept c = p_firstKept p ∧ st' = appendCompaction c st ∧ c_messages cut = context st'.1.
Proof.
  unfold Compaction.compactIfOver. cbv zeta. destruct ab; [intros [= <- <-]; by left|].
  destruct (negb _); [intros [= <- <-]; by left|]. destruct (match newestCompaction _ with Some _ => _ | None => false end); [intros [= <- <-]; by left|].
  intros ([p|] & Hp & H)%rbind_ok; [|injection H as <- <-; by left]. right.
  apply rbind_ok in H as (c & Hc & H). injection H as <- <-. exists p, c. eexists. split_and!; try done.
  unfold compact in Hc. apply rbind_ok in Hc as (su & _ & Hc). by injection Hc as <-.
Qed.

(** What one call gives to summaries. *)
Definition summarizedBy (s : CompactionSettings) (r : option Cut) (st : State) : list Message :=
  match r, prepareCompaction (branch st.1) s with
  | Some _, Ok (Some p) => summarized p
  | _, _ => []
  end.

(** A conversation: messages and marks are appended, and a cut may be taken
    at any point, with any model and settings. The second argument lists the
    messages that summaries were asked for, in order. *)
Inductive reach : State → list Message → Prop :=
| reach_new p fs : newestCompaction (entries p) = None → reach (p, fs) []
| reach_message m st g : reach st g → reach (appendMessage m st) g
| reach_submission st g : reach st g → reach (appendSubmission st) g
| reach_cut model s ab now st g r st' :
    reach st g → compactIfOver model s ab now st = Ok (r, st') → reach st' (g ++ summarizedBy s r st).

Definition inv (es : list TranscriptEntry) (g : list Message) : Prop :=
  wf es ∧ g = take (keptFrom es) es ≫= messageOf ∧ (keptFrom es = 0%nat ∨ entry_may_start (es !! keptFrom es)).

Lemma keptFrom_le es : wf es → (keptFrom es <= length es)%nat.
Proof.
  intros HW. unfold keptFrom. destruct (newestCompaction es) as [[i c]|] eqn:E; [|lia].
  pose proof (wf_newest es i c HW E). lia.
Qed.

Lemma may_start_in es k : entry_may_start (es !! k) → (k < length es)%nat.
Proof. intros H. apply lookup_lt_is_Some. destruct H as [H|H]; [by destruct (es !! k)|by rewrite H]. Qed.

Lemma entries_append e (st : State) : entries (append e st).1 = entries st.1 ++ [e].
Proof. by destruct st. Qed.

Lemma inv_snoc es g e : inv es g → isCompaction e = false → inv (es ++ [e]) g.
Proof.
  intros (HW & Hg & Hs) He.
  assert (keptFrom (es ++ [e]) = keptFrom es) as E by (unfold keptFrom; rewrite newest_snoc; by destruct e).
  unfold inv. rewrite E. split_and!.
  - apply wf_snoc; [done|by destruct e].
  - rewrite take_app_le by by apply keptFrom_le. done.
  - destruct Hs as [|Hs]; [by left|right]. by rewrite lookup_app_l by by apply may_start_in.
Qed.

Lemma reach_inv st g : reach st g → inv (entries st.1) g.
Proof.
  induction 1 as [p fs HN|m st g _ IH|st g _ IH|model s ab now st g r st' _ IH Hc].
  - assert (wf (entries p)) as HW.
    { rewrite newest_none in HN. split; [intros i e Hi; by destruct e as [| |c]; [| |destruct (HN i c)]|].
      intros i j ci cj _ Hi. by destruct (HN i ci). }
    split_and!; [done| |left]; unfold keptFrom; cbn [fst]; by rewrite HN.
  - unfold appendMessage. rewrite entries_append. by apply inv_snoc.
  - unfold appendSubmission. rewrite entries_append. by apply inv_snoc.
  - apply compactIfOver_spec in Hc as [[-> ->]|(p & c & cut & -> & Hp & _ & Hk & -> & _)]; [by rewrite app_nil_r|].
    destruct IH as (HW & Hg & Hs). unfold appendCompaction. rewrite entries_append. unfold summarizedBy. rewrite Hp.
    unfold branch in Hp. cbv zeta in Hp.
    destruct (prepare_spec (entries st.1) s HW) as [E|(p' & E & Hr & Hsum & Hstart & _)]; rewrite E in Hp; [done|].
    injection Hp as <-. set (es := entries st.1) in *.
    assert (keptFrom (es ++ [compaction c]) = p_firstKept p') as E' by (unfold keptFrom; by rewrite newest_snoc).
    unfold inv. rewrite E'. split_and!.
    + apply wf_snoc; [done|]. rewrite Hk. lia.
    + rewrite take_app_le, Hg, Hsum, <- bind_app by lia. f_equal.
      change (take (keptFrom es) es ++ slice (keptFrom es) (p_firstKept p') es = take (p_firstKept p') es).
      unfold slice. rewrite take_take_drop. f_equal. lia.
    + rewrite lookup_app_l by lia. destruct Hstart as [->|]; [done|by right].
Qed.

Lemma reach_wf st g : reach st g → wf (entries st.1).
Proof. by intros [HW _]%reach_inv. Qed.

Lemma reach_context st g : reach st g → context st.1 = contextSpec (entries st.1).
Proof. intros HW%reach_wf. unfold context, branch. by apply context_eq. Qed.


(** ** Tool results and their calls *)

(** An answer that made the call, and whose calls the engine runs: it runs none
    of an answer that ended [error] or [aborted]. *)
Definition runsId (a : AssistantMessage) (i : jstr) : Prop :=
  stopReason a ≠ js "error" ∧ stopReason a ≠ js "aborted" ∧ ∃ c, toolCall c ∈ a_content a ∧ call_id c = i.

(** How the engine appends: a tool result comes after the answer that made its
    call, with only tool results between. *)
Definition answers (es : list TranscriptEntry) : Prop :=
  ∀ i r, es !! i = Some (message (toolResult r)) → ∃ j a, (j < i)%nat ∧ es !! j = Some (message (assistant a))
    ∧ runsId a (toolCallId r) ∧ ∀ n, (j < n < i)%nat → ∃ r', es !! n = Some (message (toolResult r')).

Lemma bind_messageOf_split es pre m post :
  es ≫= messageOf = pre ++ m :: post → ∃ l1 l2, es = l1 ++ message m :: l2 ∧ pre = l1 ≫= messageOf.
Proof.
  revert pre. induction es as [|e es IH]; intros pre H; [by destruct pre|]. rewrite bind_cons in H.
  destruct e as [m'| |c]; cbn [messageOf app] in H.
  - destruct pre as [|x pre]; cbn [app] in H; [injection H as -> _; by exists [], es|]. injection H as <- H.
    destruct (IH pre H) as (l1 & l2 & -> & ->). by exists (message m' :: l1), l2.
  - destruct (IH pre H) as (l1 & l2 & -> & ->). by exists (submission :: l1), l2.
  - destruct (IH pre H) as (l1 & l2 & -> & ->). by exists (compaction c :: l1), l2.
Qed.

(** A cut never parts a tool result from its call: every result that the model
    reads has the answer that made its call before it in the same context. *)
Lemma result_has_call st g pre r post :
  reach st g → answers (entries st.1) → plain (context st.1) = pre ++ toolResult r :: post →
  ∃ a, assistant a ∈ pre ∧ runsId a (toolCallId r).
Proof.
  intros H HA. rewrite (reach_context st g H). apply reach_inv in H as (HW & _ & Hs). rewrite plain_context by done.
  set (es := entries st.1) in *. set (k := keptFrom es) in *. intros (l1 & l2 & E & ->)%bind_messageOf_split.
  assert (∀ n, drop k es !! n = es !! (k + n)%nat) as HD by (intros; by rewrite lookup_drop).
  assert (es !! (k + length l1)%nat = Some (message (toolResult r))) as Hi by (by rewrite <- HD, E, list_lookup_middle).
  destruct (HA _ _ Hi) as (j & a & Hj & Ej & Hc & Hb). exists a. split; [|done].
  assert (k <= j)%nat as Hkj.
  { destruct (decide (k <= j)%nat) as [|Hn]; [done|exfalso]. destruct Hs as [Hs|Hs]; [lia|]. unfold entry_may_start in Hs.
    destruct (decide (length l1 = 0)%nat) as [E0|].
    - rewrite E0, Nat.add_0_r in Hi. rewrite Hi in Hs. by destruct Hs.
    - destruct (Hb k) as [r' Er]; [lia|]. rewrite Er in Hs. by destruct Hs. }
  apply list_elem_of_bind. exists (message (assistant a)). split; [by left|].
  apply (list_elem_of_lookup_2 l1 (j - k)). rewrite <- (lookup_app_l l1 (message (toolResult r) :: l2)) by lia.
  rewrite <- E, HD. by replace (k + (j - k))%nat with j by lia.
Qed.

(** ** One cut for one growth *)

(** An entry that reports no new size of the context. *)
Definition no_reading (e : TranscriptEntry) : Prop :=
  match e with message m => getAssistantUsage (carried m) = None | submission => True | compaction _ => False end.

Definition appendAll (es : list TranscriptEntry) (st : State) : State := foldl (λ st e, append e st) st es.

Lemma entries_appendAll es st : entries (appendAll es st).1 = entries st.1 ++ es.
Proof.
  revert st. induction es as [|e es IH]; intros st; [by rewrite app_nil_r|]. cbn [appendAll foldl]. fold (appendAll es (append e st)).
  by rewrite IH, entries_append, <- app_assoc.
Qed.

Lemma no_reading_usage more : Forall no_reading more → getLastAssistantUsage more = None.
Proof.
  induction 1 as [|e es He _ IH]; [done|]. unfold getLastAssistantUsage in *. cbn [lastUsage]. rewrite IH. by destruct e.
Qed.

(** A cut is not repeated for the size that caused it. After a cut, and any
    entries since that report no valid size of their own (an answer that ended
    in an error or an abort, a prompt, a tool result), the next request takes
    no other cut, asks for no summary, and leaves the transcript as it is,
    whatever the sizes that the kept messages still report. *)
Theorem no_second_cut model s ab now st g cut st1 more model' s' ab' now' :
  reach st g → compactIfOver model s ab now st = Ok (Some cut, st1) → Forall no_reading more →
  compactIfOver model' s' ab' now' (appendAll more st1) = Ok (None, appendAll more st1).
Proof.
  intros HR HC HM. pose proof (reach_wf _ _ (reach_cut _ _ _ _ _ _ _ _ HR HC)) as HW1.
  apply compactIfOver_spec in HC as [[? _]|(p & c & cut' & _ & _ & _ & _ & -> & _)]; [done|].
  unfold appendCompaction in *. rewrite entries_append in HW1. set (es := entries st.1) in *.
  set (st2 := appendAll more _). assert (entries st2.1 = (es ++ [compaction c]) ++ more) as E2.
  { unfold st2. by rewrite entries_appendAll, entries_append. }
  assert (wf (entries st2.1) ∧ newestCompaction (entries st2.1) = Some (length es, c)) as [HW2 HN2].
  { rewrite E2. clear E2 st2. induction more as [|e more IH] using rev_ind; [rewrite app_nil_r; split; [done|by rewrite newest_snoc]|].
    apply Forall_app in HM as [HM He]. apply Forall_cons_1 in He as [He _]. destruct (IH HM) as [I1 I2].
    rewrite app_assoc. split; [apply wf_snoc; [done|by destruct e]|]. rewrite newest_snoc. by destruct e. }
  pose proof (branchStart_below _ HW2) as HB. pose proof (wf_newest _ _ _ HW2 HN2) as Hi.
  unfold keptFrom in HB. rewrite HN2 in HB.
  unfold Compaction.compactIfOver. cbv zeta. destruct ab'; [done|]. destruct (negb _); [done|].
  unfold branch. cbv zeta. cbn [snd]. rewrite (newest_drop _ _ _ _ HN2) by lia.
  rewrite drop_drop. replace (_ + (_ - _ + 1))%nat with (length es + 1)%nat by lia.
  rewrite bool_decide_eq_true_2; [done|]. rewrite E2, drop_app_length' by (rewrite length_app; simpl; lia).
  by apply no_reading_usage.
Qed.

End Reach.

(** ** The cut point, by a reference definition *)

Definition entryTokens (e : TranscriptEntry) : Z := match e with message m => estimateTokens (carried m) | _ => 0 end.

(** The estimate of the messages from index [i] up to [e]. *)
Definition tokensFrom (es : list TranscriptEntry) (i e : nat) : Z := sumZ (entryTokens <$> slice i e es).

(** The first cut point with less than the budget after it; where every cut
    point has more after it, the first one. *)
Definition cutReference (es : list TranscriptEntry) (a e : nat) (keep : Z) : option nat :=
  let points := findValidCutPoints es a e in
  match find (λ p, tokensFrom es (p + 1) e <? keep) points with
  | Some p => Some p
  | None => head points
  end.

Lemma sumZ_nonneg l : Forall (λ x, 0 <= x) l → 0 <= sumZ l.
Proof. induction 1; simpl; lia. Qed.

Lemma len_nonneg s : 0 <= len s.
Proof. unfold len. lia. Qed.

Lemma ceil4_nonneg n : 0 <= n → 0 <= ceil4 n.
Proof. intros. apply Z.div_pos; lia. Qed.

Lemma chars_nonneg c : 0 <= estimateTextAndImageContentChars c.
Proof.
  destruct c as [s|l]; [apply len_nonneg|]. apply sumZ_nonneg, Forall_fmap, Forall_true.
  intros []; simpl; try apply len_nonneg; done.
Qed.

Lemma assistantChars_nonneg b : 0 <= assistantChars b.
Proof.
  destruct b as [t|t|c|d]; cbn [assistantChars]; try apply len_nonneg; [|done].
  pose proof (len_nonneg (call_name c)). pose proof (len_nonneg (stringify (arguments c))). lia.
Qed.

Lemma entryTokens_nonneg e : 0 <= entryTokens e.
Proof.
  destruct e as [[u|a|r]| |c]; cbn [entryTokens estimateTokens]; try done; apply ceil4_nonneg; try apply chars_nonneg.
  apply sumZ_nonneg, Forall_fmap, Forall_true. apply assistantChars_nonneg.
Qed.

Lemma slice_cons {A} i e (l : list A) x : l !! i = Some x → (i < e)%nat → slice i e l = x :: slice (S i) e l.
Proof.
  intros Hx Hi. unfold slice. rewrite (drop_S l x i) by done. replace (e - i)%nat with (S (e - S i)) by lia. done.
Qed.

Lemma slice_none {A} i e (l : list A) : l !! i = None → slice i e l = [].
Proof. intros H%lookup_ge_None. unfold slice. rewrite drop_ge by done. by rewrite take_nil. Qed.

Lemma tokensFrom_step es i e :
  (i < e)%nat → tokensFrom es i e = (match es !! i with Some x => entryTokens x | None => 0 end) + tokensFrom es (S i) e.
Proof.
  intros Hi. unfold tokensFrom. destruct (es !! i) as [x|] eqn:E; [by rewrite (slice_cons i e es x)|].
  rewrite !slice_none; [done| |done]. apply lookup_ge_None in E. apply lookup_ge_None. lia.
Qed.

Lemma tokensFrom_end es i e : (e <= i)%nat → tokensFrom es i e = 0.
Proof. intros H. unfold tokensFrom, slice. by replace (e - i)%nat with 0%nat by lia. Qed.

Lemma tokensFrom_mono es i j e : (i <= j)%nat → tokensFrom es j e <= tokensFrom es i e.
Proof.
  induction 1 as [|j' Hij IH]; [done|]. destruct (decide (j' < e)%nat).
  - rewrite (tokensFrom_step es j' e) in IH by lia. pose proof entryTokens_nonneg as HT.
    destruct (es !! j') as [x|]; [specialize (HT x)|]; lia.
  - rewrite tokensFrom_end in * by lia. done.
Qed.

(** The loop stops at the last index from which the budget is spent. *)
Lemma budgetFrom_spec es a keep e n :
  (n <= e)%nat → tokensFrom es n e < keep →
  match budgetFrom es a keep (tokensFrom es n e) n with
  | Some i => (a <= i < n)%nat ∧ keep <= tokensFrom es i e ∧ tokensFrom es (S i) e < keep
  | None => ∀ j, (a <= j)%nat → tokensFrom es j e < keep
  end.
Proof.
  intros Hn Hk. induction n as [|n IH]; cbn [budgetFrom].
  { intros j _. pose proof (tokensFrom_mono es 0 j e). lia. }
  destruct (Nat.ltb_spec n a) as [Hl|Hl].
  { intros j Hj. pose proof (tokensFrom_mono es (S n) j e). lia. }
  pose proof (tokensFrom_step es n e ltac:(lia)) as ET.
  destruct (es !! n) as [[m| |c]|]; cbn [entryTokens] in ET.
  2-4: rewrite Z.add_0_l in ET; rewrite <- ET in *; specialize (IH ltac:(lia) Hk);
    destruct (budgetFrom _ _ _ _ n); [|done]; split_and!; [lia|lia|apply IH..].
  rewrite Z.add_comm, <- ET. destruct (Z.leb_spec keep (tokensFrom es n e)); [split_and!; [lia|lia|done|done]|].
  specialize (IH ltac:(lia) ltac:(lia)). destruct (budgetFrom _ _ _ _ n); [|done]. split_and!; [lia|lia|apply IH..].
Qed.

Lemma find_ext_in {A} (f g : A → bool) l : (∀ x, x ∈ l → f x = g x) → find f l = find g l.
Proof.
  induction l as [|x l IH]; intros H; [done|]. simpl. rewrite (H x) by by left. destruct (g x); [done|].
  apply IH. intros y Hy. apply H. by right.
Qed.

Lemma find_all {A} (f : A → bool) x l : f x = true → find f (x :: l) = Some x.
Proof. intros H. simpl. by rewrite H. Qed.

(** The incremental search for the cut is the search that its comment
    describes. With a positive budget, [findCutPoint] cuts at the first user
    message or answer after which fewer tokens than the budget follow, moved
    back over the marks of Submissions; where every such message has the
    budget or more after it, at the first of them; and it keeps everything
    where there is none. *)
Theorem cut_point_is_reference es a e keep :
  0 < keep →
  firstKeptEntryIndex (findCutPoint es a e keep)
  = match cutReference es a e keep with Some p => overMarks es a p | None => a end.
Proof.
  intros Hk. unfold findCutPoint, cutReference. cbv zeta.
  destruct (findValidCutPoints es a e) as [|p ps] eqn:E; [done|]. cbn [firstKeptEntryIndex head].
  assert (∀ q, q ∈ p :: ps → (a <= q < e)%nat) as HP by (intros q Hq; rewrite <- E in Hq; by apply cutPoints_elem in Hq as [? _]).
  pose proof (budgetFrom_spec es a keep e e ltac:(lia)) as HB. rewrite tokensFrom_end in HB by done. specialize (HB Hk).
  destruct (budgetFrom es a keep 0 e) as [i|].
  - destruct HB as (Hi & H1 & H2). rewrite (find_ext_in _ (λ q, tokensFrom es (q + 1) e <? keep)).
    { by destruct (find _ (p :: ps)). }
    intros q Hq. apply HP in Hq. destruct (Nat.leb_spec i q), (Z.ltb_spec (tokensFrom es (q + 1) e) keep); try done; exfalso.
    + pose proof (tokensFrom_mono es (S i) (q + 1) e). lia.
    + pose proof (tokensFrom_mono es (q + 1) i e). lia.
  - rewrite find_all; [done|]. apply Z.ltb_lt, HB. destruct (HP p); [by left|lia].
Qed.

(** ** The room that an uncut request leaves *)

(** A request that is not cut, to a model with a window of more than two
    answers, leaves room for a whole answer. *)
Theorem uncut_request_has_room model keep n :
  2 * Z.max RESERVE_FLOOR (maxTokens model) < contextWindow model →
  overContextThreshold n (contextWindow model) (compactionSettingsFor model keep) = false →
  n + maxTokens model <= contextWindow model.
Proof.
  intros Hw. unfold overContextThreshold, compactionSettingsFor, RESERVE_FLOOR in *.
  destruct (Z.ltb_spec 0 (contextWindow model)); [|lia]. cbn [negb enabled reserveTokens].
  destruct (Z.leb_spec (contextWindow model) (Z.max 16384 (maxTokens model) * 2)); [lia|]. intros ?%Z.ltb_ge. lia.
Qed.

(** ** Two cuts that do not do what they are for *)

Lemma find_none_all {A} (f : A → bool) l : (∀ x, x ∈ l → f x = false) → find f l = None.
Proof.
  induction l as [|x l IH]; intros H; [done|]. simpl. rewrite (H x) by by left. apply IH. intros y Hy. apply H. by right.
Qed.

Lemma slice_elem {A} a b (l : list A) x : x ∈ slice a b l → ∃ i, (a <= i < b)%nat ∧ l !! i = Some x.
Proof.
  intros (i & Hi & Hl)%elem_of_take. rewrite lookup_drop in Hi. exists (a + i)%nat. split; [lia|done].
Qed.

Lemma filter_seq_first (P : nat → Prop) `{∀ x, Decision (P x)} a n p ps :
  filter P (seq a n) = p :: ps → ∀ i, (a <= i < p)%nat → ¬ P i.
Proof.
  revert a. induction n as [|n IH]; intros a; [done|]. cbn [seq]. rewrite filter_cons. destruct (decide (P a)) as [|Hn].
  - intros [= <- _] i Hi. lia.
  - intros E i Hi. destruct (decide (i = a)) as [->|]; [done|]. eapply IH; [exact E|lia].
Qed.

(** Before the first cut point of a transcript there is nothing to summarize. *)
Lemma nothing_before_first es e p ps :
  answers es → findValidCutPoints es 0 e = p :: ps → slice 0 p es ≫= messageOf = [].
Proof.
  intros HA HP. assert (p ∈ findValidCutPoints es 0 e) as [Hp _]%cutPoints_elem by (rewrite HP; by left).
  assert (∀ i, (i < p)%nat → isCutPoint (es !! i) = false) as Hn.
  { intros i Hi. destruct (isCutPoint (es !! i)) eqn:E; [|done].
    unfold findValidCutPoints in HP. by destruct (filter_seq_first _ _ _ _ _ HP i); [lia|]. }
  destruct (slice 0 p es ≫= messageOf) as [|m l] eqn:E; [done|exfalso].
  assert (m ∈ slice 0 p es ≫= messageOf) as (x & Hx & Hin)%list_elem_of_bind by (rewrite E; by left).
  apply slice_elem in Hin as (i & Hi & Ei). destruct x as [m'| |c]; cbn in Hx; [|by apply elem_of_nil in Hx..].
  apply list_elem_of_singleton in Hx as <-. destruct m as [u|a|r].
  - specialize (Hn i ltac:(lia)). by rewrite Ei in Hn.
  - specialize (Hn i ltac:(lia)). by rewrite Ei in Hn.
  - destruct (HA i r Ei) as (j & a & Hj & Ej & _). specialize (Hn j ltac:(lia)). by rewrite Ej in Hn.
Qed.

(** A cut may summarize nothing. When the newest answer's tool results
    alone are as large as the budget of kept work, so that every user message
    and answer has the budget or more after it, the first cut of a
    conversation keeps the whole of it: the summary is asked for no message,
    and the context, which was over the threshold, only grows by it. *)
Theorem oversized_results_are_not_cut es s p :
  newestCompaction es = None → answers es → 0 < keepRecentTokens s →
  (∀ q, q ∈ findValidCutPoints es 0 (length es) → keepRecentTokens s <= tokensFrom es (q + 1) (length es)) →
  prepareCompaction (branchStart es, drop (branchStart es) es) s = Ok (Some p) →
  summarized p = [].
Proof.
  intros HN HA Hk HQ Hp. assert (wf es) as HW.
  { rewrite newest_none in HN. split; [intros i e Hi; by destruct e as [| |c]; [| |destruct (HN i c)]|].
    intros i j ci cj _ Hi. by destruct (HN i ci). }
  destruct (prepare_spec es s HW) as [E|(p' & E & Hr & Hsum & _)]; rewrite E in Hp; [done|]. injection Hp as <-.
  rewrite Hsum. unfold keptFrom. rewrite HN.
  assert (p_firstKept p' = firstKeptEntryIndex (findCutPoint es 0 (length es) (keepRecentTokens s))) as Ek.
  { assert (branchStart es = 0%nat) as E0 by (pose proof (branchStart_below es HW) as HB; unfold keptFrom in HB; rewrite HN in HB; lia).
    rewrite E0, drop_0 in E. unfold prepareCompaction in E. rewrite HN in E. cbv zeta in E.
    destruct (last es) as [[m| |c]|]; try done; apply rbind_ok in E as (_ & _ & E); by injection E as <-. }
  rewrite Ek, cut_point_is_reference by done. unfold cutReference. cbv zeta.
  rewrite find_none_all; [|intros q Hq; apply Z.ltb_ge, HQ, Hq].
  destruct (findValidCutPoints es 0 (length es)) as [|q qs] eqn:EP; cbn [head]; [by unfold slice; rewrite take_0|].
  destruct (overMarks_spec es 0 q) as (H1 & _ & _); [lia|].
  pose proof (nothing_before_first es _ q qs HA EP) as H0.
  rewrite <- (slice_app 0 (overMarks es 0 q) q), bind_app in H0 by lia. by apply app_eq_nil in H0 as [-> _].
Qed.

Definition withPrevious (prev : option jstr) (p : PreparedCut) : PreparedCut :=
  mkPrepared (p_firstKept p) (messagesToSummarize p) (turnPrefixMessages p) (p_isSplitTurn p) (p_tokensBefore p) prev (fileOps p).

(** A cut may drop the summary of all the work before it. When a cut splits
    the turn that the previous cut's kept work starts with, there is no message
    between the two, and the new summary is made without the previous one: it
    is the same whatever the previous summary said, and the context that the
    model reads from then on has no other trace of it. *)
Theorem split_turn_forgets_summary contentText ask p prev model s now :
  p_isSplitTurn p = true → turnPrefixMessages p ≠ [] → messagesToSummarize p = [] →
  compact contentText ask (withPrevious prev p) model s now = compact contentText ask p model s now.
Proof.
  intros H1 H2 H3. unfold compact, withPrevious.
  cbn [p_firstKept messagesToSummarize turnPrefixMessages p_isSplitTurn p_tokensBefore previousSummary fileOps].
  rewrite H1, H3, (bool_decide_eq_false_2 _ H2), (bool_decide_eq_true_2 ([] = [])) by done. done.
Qed.

(** ** Witnesses *)

Definition sampleText (c : Content) (_ : option jstr) : jstr :=
  match c with Text s => s | Blocks l => concat (omap (λ b, match b with text t => Some t | _ => None end) l) end.

Definition sampleAsk (_ : jstr) (_ : Z) : Response := mkResponse (js "stop") None [text (js "what was done")] noUsage.

Definition spent (n : Z) : Usage := mkUsage n 0 0 0 None None n noCost.

Definition asked (s : string) : TranscriptEntry := message (user (mkUser (Text (js s)) 1)).
Definition callOf (i : string) : Block := toolCall (mkCall (js i) (js "read") (JObj [(js "path", JStr (js i))])).
Definition answer (s : string) (calls : list Block) (n : Z) : TranscriptEntry :=
  message (assistant (mkAssistant (text (js s) :: calls) [] [] [] (spent n) (js "toolUse") 2)).
Definition resultOf (i : string) (t : jstr) : TranscriptEntry :=
  message (toolResult (mkResult (js i) (js "read") [text t] false 3)).

Definition smallModel : Model := mkModel [] [] [] 3000 1000.
Definition smallSettings : CompactionSettings := compactionSettingsFor smallModel 10.

Definition begun : EnginePart * Record.FS := (mkPart (js "id") [] None, Record.emptyFS).

(** Two Submissions, then a cut at the second one's prompt. *)
Definition firstTurns : list TranscriptEntry :=
  [submission; asked "please look at the first thing"; answer "looked at it" [] 100;
   submission; asked "please look at the second thing"; answer "I read it" [callOf "f"] 2500; resultOf "f" (js "ok")].

Definition stateBefore : EnginePart * Record.FS := appendAll firstTurns begun.

Definition cutOf (st : EnginePart * Record.FS) : EnginePart * Record.FS :=
  match compactIfOver sampleText sampleAsk smallModel smallSettings false 9 st with
  | Ok (_, st') => st'
  | Throw _ => st
  end.

Definition stateCut : EnginePart * Record.FS := cutOf stateBefore.

Lemma reach_all contentText ask es st g :
  Forall (λ e, isCompaction e = false) es → reach contentText ask st g → reach contentText ask (appendAll es st) g.
Proof.
  intros HF. revert st. induction HF as [|e es He _ IH]; intros st HR; [done|]. apply (IH (append e st)).
  destruct e; [by apply reach_message|by apply reach_submission|done].
Qed.

Lemma begun_reach contentText ask : reach contentText ask begun [].
Proof. by constructor. Qed.

Lemma before_reach : reach sampleText sampleAsk stateBefore [].
Proof. apply reach_all; [by repeat constructor|apply begun_reach]. Qed.

Definition cutTaken : option Cut :=
  match compactIfOver sampleText sampleAsk smallModel smallSettings false 9 stateBefore with Ok (r, _) => r | Throw _ => None end.

Lemma cut_taken : compactIfOver sampleText sampleAsk smallModel smallSettings false 9 stateBefore = Ok (cutTaken, stateCut).
Proof. vm_compute. reflexivity. Qed.

Lemma cut_reach : reach sampleText sampleAsk stateCut (summarizedBy smallSettings cutTaken stateBefore).
Proof. exact (reach_cut _ _ _ _ _ _ _ _ _ _ before_reach cut_taken). Qed.


Lemma cut_answers : answers (entries stateCut.1).
Proof.
  intros i r Hi. assert (i = 6%nat) as ->.
  { assert (i < 8)%nat by (apply lookup_lt_Some in Hi; exact Hi).
    do 6 (destruct i as [|i]; [vm_compute in Hi; discriminate|]). destruct i as [|i]; [done|]. destruct i; [vm_compute in Hi; discriminate|lia]. }
  vm_compute in Hi. injection Hi as <-. eexists 5%nat, _. split; [lia|]. split; [reflexivity|]. split; [|lia].
  split; [discriminate|]. split; [discriminate|]. eexists. split; [right; left|reflexivity].
Qed.

(** The next request fails, and the prompt after it is not cut for the size
    that the cut answer still reports. *)
Definition afterCut : list TranscriptEntry :=
  [message (assistant (mkAssistant [] [] [] [] (spent 0) (js "error") 4)); submission; asked "again"].

Lemma no_second_cut_witness :
  overContextThreshold (tokens (estimateContextTokens (context (appendAll afterCut stateCut).1))) 3000 smallSettings = true
  ∧ compactIfOver sampleText sampleAsk smallModel smallSettings false 10 (appendAll afterCut stateCut) = Ok (None, appendAll afterCut stateCut).
Proof.
  split; [vm_compute; reflexivity|]. destruct cutTaken as [cut|] eqn:E; [|exfalso; vm_compute in E; discriminate].
  apply (no_second_cut sampleText sampleAsk smallModel smallSettings false 9 stateBefore [] cut stateCut afterCut);
    [exact before_reach|rewrite <- E; exact cut_taken|repeat constructor].
Defined.

Lemma cut_point_is_reference_witness :
  firstKeptEntryIndex (findCutPoint firstTurns 0 7 10) = 3%nat ∧ cutReference firstTurns 0 7 10 = Some 4%nat.
Proof.
  assert (cutReference firstTurns 0 7 10 = Some 4%nat) as E by (vm_compute; reflexivity).
  split; [|exact E]. rewrite (cut_point_is_reference firstTurns 0 7 10) by lia. rewrite E. vm_compute. reflexivity.
Defined.

(** One answer that reads two files, which have the budget between them. *)
Definition twoReads : list TranscriptEntry :=
  [submission; asked "compare"; answer "reading" [callOf "a"; callOf "b"] 190000;
   resultOf "a" (repeat 97 41); resultOf "b" (repeat 98 41)].

Definition largeSettings : CompactionSettings := compactionSettingsFor sampleModel 20.

Definition preparedOf (es : list TranscriptEntry) (s : CompactionSettings) : option PreparedCut :=
  match prepareCompaction (branchStart es, drop (branchStart es) es) s with Ok p => p | Throw _ => None end.

Lemma twoReads_answers : answers twoReads.
Proof.
  intros i r Hi. destruct i as [|[|[|[|[|i]]]]]; try discriminate Hi; injection Hi as <-; exists 2%nat; eexists;
    (split; [lia|]); (split; [reflexivity|]).
  - split; [split_and!; [discriminate|discriminate|eexists; split; [right; left|reflexivity]]|lia].
  - split; [split_and!; [discriminate|discriminate|eexists; split; [right; right; left|reflexivity]]|]. intros n Hn. replace n with 3%nat by lia. by eexists.
Qed.

Lemma oversized_results_are_not_cut_witness :
  overContextThreshold (tokens (estimateContextTokens (contextOf twoReads 0))) 200000 largeSettings = true
  ∧ ∃ p, prepareCompaction (branchStart twoReads, drop (branchStart twoReads) twoReads) largeSettings = Ok (Some p) ∧ summarized p = [].
Proof.
  split; [vm_compute; reflexivity|].
  assert (∃ p, prepareCompaction (branchStart twoReads, drop (branchStart twoReads) twoReads) largeSettings = Ok (Some p)) as [p Hp].
  { destruct (preparedOf twoReads largeSettings) as [p|] eqn:E; [|exfalso; vm_compute in E; discriminate]. exists p.
    unfold preparedOf in E. destruct (prepareCompaction _ _); [by rewrite E|done]. }
  exists p. split; [exact Hp|]. apply (oversized_results_are_not_cut twoReads largeSettings); [reflexivity|exact twoReads_answers|vm_compute; reflexivity| |exact Hp].
  assert (forallb (λ q, 20 <=? tokensFrom twoReads (q + 1) 5) (findValidCutPoints twoReads 0 5) = true) as HF by (vm_compute; reflexivity).
  rewrite forallb_forall in HF. intros q Hq. apply Z.leb_le, (HF q), list_elem_of_In, Hq.
Defined.

(** The turn that the first cut keeps goes on until it is cut itself. *)
Definition stateLater : EnginePart * Record.FS := appendAll [answer "and there is more in it" [] 2600] stateCut.

Lemma split_turn_forgets_summary_witness :
  (∃ g, reach sampleText sampleAsk stateLater g) ∧
  ∃ p old, preparedOf (entries stateLater.1) smallSettings = Some p ∧ previousSummary p = Some old ∧ old ≠ []
    ∧ ∀ prev, compact sampleText sampleAsk (withPrevious prev p) smallModel smallSettings 11
              = compact sampleText sampleAsk p smallModel smallSettings 11.
Proof.
  split; [eexists; apply reach_all; [by repeat constructor|exact cut_reach]|].
  destruct (preparedOf (entries stateLater.1) smallSettings) as [p|] eqn:E; [|exfalso; vm_compute in E; discriminate].
  vm_compute in E. injection E as <-. eexists _, _. split; [reflexivity|]. split; [reflexivity|]. split; [discriminate|].
  intros prev. apply (split_turn_forgets_summary sampleText sampleAsk); [reflexivity|discriminate|reflexivity].
Defined.

End CompactionProofs.
