(* ===== verification/Settle.v ===== *)
(** * The messages a provider gets (harness/src/turn.ts, harness/src/menu.ts)

    A restart or an abort leaves calls with no result in the history.
    [settled] answers each Menu call of it with jr2's own text before the
    history is sent, and [unrunAnswers] answers, at a run's end, the calls that
    the run never started.  [settled] gives the messages with a flag on the
    ones it added (the [added] set holds those very objects).  The leading
    system message, which the engine makes for each run, is left out. *)

From Stdlib Require Import Lia ZArith.
From stdpp Require Import base list strings sets.
From S2P Require Import Prelude JsString Json Transcript Compaction.

Open Scope Z_scope.

Module Settle.
Import Json Transcript Compaction.

(** ** jr2's texts (menu.ts) *)

Definition MENU_TOOL_PREFIX : jstr := js "mcp__jr2__".

Definition startsWith (p s : jstr) : bool := bool_decide (take (length p) s = p).

Definition isPick (c : ToolCall) : bool := startsWith MENU_TOOL_PREFIX (call_name c).

Definition cutPickResult (tool : jstr) : jstr :=
  js "This pick reached the workflow, but its answer did not reach you: your turn was cut while the "
  ++ js "workflow ran `" ++ tool ++ js "`. The workflow did not stop, and it does not run a pick twice. Its result "
  ++ js "comes in the next message. Do not call `" ++ tool ++ js "` again to get it.".

Definition unsentPickResult (tool : jstr) : jstr :=
  js "This pick did not reach the workflow: your turn was cut while you were still writing your call to "
  ++ js "`" ++ tool ++ js "`. Nothing ran. You may call `" ++ tool ++ js "` again if the newest " ++ [34]
  ++ js "Allowed now" ++ [34] ++ js " still lists it.".

Definition unrunResult : jstr := js "This call did not run: your turn ended before it started.".

(** ** Answers (turn.ts) *)

Definition answerOf (now : Z) (c : ToolCall) (t : jstr) (err : bool) : ToolResultMessage :=
  mkResult (call_id c) (call_name c) [text t] err now.

Definition callsOf (l : list Block) : list ToolCall := omap (λ b, match b with toolCall c => Some c | _ => None end) l.

Definition resultIds (ms : list EngineMessage) : list jstr :=
  omap (λ m, match m with carried (toolResult r) => Some (toolCallId r) | _ => None end) ms.

Definition nonEmptyBlock (b : Block) : bool :=
  match b with
  | toolCall _ => true
  | text t | thinking t => negb (bool_decide (t = []))
  | image _ => false
  end.

Definition hasCall (l : list Block) : bool := existsb (λ b, match b with toolCall _ => true | _ => false end) l.

Definition settleAbandonedMessage (m : EngineMessage) : EngineMessage :=
  match m with
  | carried (assistant a) =>
      if bool_decide (stopReason a = js "aborted") then
        match filter (λ b, nonEmptyBlock b = true) (a_content a) with
        | [] => m
        | kept =>
            carried (assistant (mkAssistant kept (api a) (provider a) (a_model a) (a_usage a)
              (if hasCall kept then js "toolUse" else js "stop") (a_timestamp a)))
        end
      else m
  | _ => m
  end.

Section Settled.
Variable now : Z.

(** The [close] closure: the answers to the calls of the open message. *)
Fixpoint close (answered : list jstr) (delivered cut : bool) (open : list ToolCall) : list ToolResultMessage :=
  match open with
  | [] => []
  | c :: open' =>
      if bool_decide (call_id c ∈ answered) then close answered delivered cut open'
      else
        let t :=
          if negb delivered then (if isPick c then Some (unsentPickResult (call_name c)) else None)
          else if cut then Some unrunResult
          else if isPick c then Some (cutPickResult (call_name c)) else None in
        match t with
        | None => close answered delivered true open'
        | Some t => answerOf now c t (bool_decide (t = unrunResult)) :: close answered delivered true open'
        end
  end.

Definition isResult (m : EngineMessage) : bool := match m with carried (toolResult _) => true | _ => false end.

(** The calls that a message opens, and whether they were delivered. *)
Definition opens (m : EngineMessage) : option (list ToolCall * bool) :=
  match m, settleAbandonedMessage m with
  | carried (assistant a), carried (assistant sent) =>
      Some (if bool_decide (stopReason a = js "error") then [] else callsOf (a_content sent),
            negb (bool_decide (stopReason a = js "aborted")) && negb (bool_decide (stopReason a = js "error")))
  | _, _ => None
  end.

Definition closed (answered : list jstr) (st : list ToolCall * bool) : list (EngineMessage * bool) :=
  (λ r, (carried (toolResult r), true)) <$> close answered st.2 false st.1.

Fixpoint settleLoop (answered : list jstr) (st : list ToolCall * bool) (ms : list EngineMessage) : list (EngineMessage * bool) :=
  match ms with
  | [] => closed answered st
  | m :: ms' =>
      let before := if isResult m then [] else closed answered st in
      let st := if isResult m then st else ([], st.2) in
      before ++ (settleAbandonedMessage m, false) :: settleLoop answered (default st (opens m)) ms'
  end.

Definition settled (ms : list EngineMessage) : list (EngineMessage * bool) := settleLoop (resultIds ms) ([], true) ms.

Definition settleCutPicks (ms : list EngineMessage) : list EngineMessage := (settled ms).*1.

(** The tail of added answers: the loop from the last message back, while the
    messages are tool results. *)
Fixpoint resultTail (l : list (EngineMessage * bool)) : list (EngineMessage * bool) :=
  match l with
  | x :: l' => if isResult x.1 then x :: resultTail l' else []
  | [] => []
  end.

Definition cutPickAnswers (ms : list EngineMessage) : list EngineMessage :=
  (rev (filter (λ x, x.2 = true) (resultTail (rev (settled ms))))).*1.

Definition convertToLlm (ms : list EngineMessage) : list Message :=
  (λ m, match m with compactionSummary s => summaryAsUser s | carried m => m end) <$> settleCutPicks ms.

(** The last answer of the context and what follows it. *)
Fixpoint lastAnswer (ms : list EngineMessage) : option (AssistantMessage * list EngineMessage) :=
  match ms with
  | [] => None
  | m :: ms' =>
      match lastAnswer ms' with
      | Some x => Some x
      | None => match m with carried (assistant a) => Some (a, ms') | _ => None end
      end
  end.

Definition unrunAnswers (ms : list EngineMessage) : list ToolResultMessage :=
  match lastAnswer ms with
  | None => []
  | Some (a, after) =>
      if bool_decide (stopReason a = js "aborted") || bool_decide (stopReason a = js "error") then []
      else (λ c, answerOf now c unrunResult true) <$> filter (λ c, call_id c ∉ resultIds after) (callsOf (a_content a))
  end.

End Settled.

(** ** What the record keeps of a message *)

Definition textBlocks (l : list Block) : jstr := join nl (omap (λ b, match b with text t => Some t | _ => None end) l).

Definition userText (u : UserMessage) : jstr := match u_content u with Text s => s | Blocks l => textBlocks l end.

Definition historyMessage (m : EngineMessage) : option HistoryMessage :=
  match m with
  | carried (user u) => match userText u with [] => None | t => Some (mkHistory fromUser t) end
  | carried (assistant a) =>
      if bool_decide (stopReason a = js "error") || bool_decide (stopReason a = js "aborted") then None
      else match textBlocks (a_content a) with [] => None | t => Some (mkHistory fromAssistant t) end
  | _ => None
  end.

End Settle.
