(* ===== verification/SettleProofs.v ===== *)
(** * The messages a provider gets: every pick answered once, no result alone *)

From Stdlib Require Import Lia ZArith.
From stdpp Require Import base list strings sets.
From S2P Require Import Prelude JsString Json Record Transcript TranscriptProofs Compaction CompactionProofs Settle.

Open Scope Z_scope.

Module SettleProofs.
Import Json Transcript TranscriptProofs Compaction CompactionProofs Settle.

(** ** The added answers, message by message *)

Definition addedFor (now : Z) (answered : list jstr) (m : EngineMessage) : list (EngineMessage * bool) :=
  match opens m with Some st => closed now answered st | None => [] end.

Lemma closed_added now answered st : filter (λ x, x.2 = true) (closed now answered st) = closed now answered st.
Proof. apply filter_all, Forall_fmap, Forall_true. by intros r. Qed.

Lemma closed_not_kept now answered st : filter (λ x, x.2 = false) (closed now answered st) = [].
Proof. apply filter_none, Forall_fmap, Forall_true. by intros r. Qed.

Lemma closed_nil now answered d : closed now answered ([], d) = [].
Proof. done. Qed.

Lemma opens_result m : isResult m = true → opens m = None.
Proof. by destruct m as [[| |r]|]. Qed.

(** What is added is the answers to the calls of each message, in order; what
    is not added is the history, each aborted answer settled. *)
Lemma loop_added now answered st ms :
  filter (λ x, x.2 = true) (settleLoop now answered st ms) = closed now answered st ++ (ms ≫= addedFor now answered).
Proof.
  revert st. induction ms as [|m ms IH]; intros st; [by rewrite app_nil_r; apply closed_added|].
  cbn [settleLoop]. cbv zeta. rewrite filter_app, filter_cons_False, IH, bind_cons by done. unfold addedFor at 2.
  destruct (isResult m) eqn:E; [by rewrite (opens_result m E)|]. rewrite closed_added. f_equal.
  destruct (opens m) as [st'|]; [done|]. cbn [default]. by rewrite closed_nil.
Qed.

Lemma loop_kept now answered st ms :
  filter (λ x, x.2 = false) (settleLoop now answered st ms) = (λ m, (settleAbandonedMessage m, false)) <$> ms.
Proof.
  revert st. induction ms as [|m ms IH]; intros st; [apply closed_not_kept|].
  cbn [settleLoop]. cbv zeta. rewrite filter_app, filter_cons_True, IH, fmap_cons by done.
  destruct (isResult m); [done|]. by rewrite closed_not_kept.
Qed.

(** ** What the answers say *)

Definition unansweredOf (answered : list jstr) (cs : list ToolCall) : list ToolCall := filter (λ c, call_id c ∉ answered) cs.

Lemma unanswered_cons answered c cs :
  unansweredOf answered (c :: cs)
  = if bool_decide (call_id c ∈ answered) then unansweredOf answered cs else c :: unansweredOf answered cs.
Proof. unfold unansweredOf. rewrite filter_cons. case_bool_decide; case_decide; done. Qed.

Lemma close_aborted now answered cut cs :
  close now answered false cut cs
  = (λ c, answerOf now c (unsentPickResult (call_name c)) false) <$> filter (λ c, isPick c = true) (unansweredOf answered cs).
Proof.
  revert cut. induction cs as [|c cs IH]; intros cut; [done|]. cbn [close]. rewrite unanswered_cons.
  destruct (bool_decide (call_id c ∈ answered)); [apply IH|]. cbn [negb].
  rewrite filter_cons. destruct (isPick c) eqn:Ep; [|rewrite decide_False by done; apply IH].
  by rewrite decide_True, fmap_cons, IH, bool_decide_eq_false_2 by done.
Qed.

Lemma close_after_cut now answered cs :
  close now answered true true cs = (λ c, answerOf now c unrunResult true) <$> unansweredOf answered cs.
Proof.
  induction cs as [|c cs IH]; [done|]. cbn [close]. rewrite unanswered_cons.
  destruct (bool_decide (call_id c ∈ answered)); [apply IH|]. rewrite fmap_cons. cbn [negb].
  by rewrite bool_decide_eq_true_2, IH.
Qed.

Lemma close_finished now answered cs :
  close now answered true false cs
  = match unansweredOf answered cs with
    | [] => []
    | c :: rest =>
        (if isPick c then [answerOf now c (cutPickResult (call_name c)) false] else [])
        ++ ((λ c, answerOf now c unrunResult true) <$> rest)
    end.
Proof.
  induction cs as [|c cs IH]; [done|]. cbn [close]. rewrite unanswered_cons.
  destruct (bool_decide (call_id c ∈ answered)); [apply IH|]. cbn [negb].
  destruct (isPick c); [|apply close_after_cut]. by rewrite close_after_cut, bool_decide_eq_false_2 by done.
Qed.

(** What the history says of a call with no result, by how its answer ended. *)
Definition saysOf (now : Z) (answered : list jstr) (a : AssistantMessage) : list ToolResultMessage :=
  let open := unansweredOf answered (callsOf (a_content a)) in
  if bool_decide (stopReason a = js "error") then []
  else if bool_decide (stopReason a = js "aborted") then
    (λ c, answerOf now c (unsentPickResult (call_name c)) false) <$> filter (λ c, isPick c = true) open
  else
    match open with
    | [] => []
    | c :: rest =>
        (if isPick c then [answerOf now c (cutPickResult (call_name c)) false] else [])
        ++ ((λ c, answerOf now c unrunResult true) <$> rest)
    end.

Lemma callsOf_kept l : callsOf (filter (λ b, nonEmptyBlock b = true) l) = callsOf l.
Proof.
  induction l as [|b l IH]; [done|]. rewrite filter_cons. unfold callsOf in *.
  destruct b as [t|t|c|d]; cbn [nonEmptyBlock]; case_decide; cbn [omap list_omap]; rewrite ?IH; done.
Qed.

Lemma settle_calls a :
  ∃ a', settleAbandonedMessage (carried (assistant a)) = carried (assistant a') ∧ callsOf (a_content a') = callsOf (a_content a).
Proof.
  cbn [settleAbandonedMessage]. case_bool_decide; [|by eexists].
  destruct (filter _ (a_content a)) as [|b l] eqn:E; [by eexists|]. eexists. split; [done|]. cbn [a_content]. by rewrite <- E, callsOf_kept.
Qed.

Lemma addedFor_says now answered a :
  addedFor now answered (carried (assistant a)) = (λ r, (carried (toolResult r), true)) <$> saysOf now answered a.
Proof.
  unfold addedFor, opens, closed, saysOf. cbv zeta. destruct (settle_calls a) as (a' & E & Ec). rewrite E.
  cbn [fst snd]. f_equal. rewrite Ec. destruct (bool_decide (stopReason a = js "error")); [done|].
  destruct (bool_decide (stopReason a = js "aborted")); [apply close_aborted|apply close_finished].
Qed.

Lemma addedFor_other now answered m : (∀ a, m ≠ carried (assistant a)) → addedFor now answered m = [].
Proof. intros H. destruct m as [[u|a|r]|s]; [done|by destruct (H a)|done|done]. Qed.

(** ** Results and their ids *)

Lemma resultIds_app a b : resultIds (a ++ b) = resultIds a ++ resultIds b.
Proof. apply omap_app. Qed.

Lemma resultIds_cons m ms :
  resultIds (m :: ms) = (match m with carried (toolResult r) => [toolCallId r] | _ => [] end) ++ resultIds ms.
Proof. by destruct m as [[| |r]|]. Qed.

Lemma resultIds_results rs : resultIds ((λ r, carried (toolResult r)) <$> rs) = toolCallId <$> rs.
Proof. induction rs as [|r rs IH]; [done|]. rewrite fmap_cons, resultIds_cons, IH. done. Qed.

Lemma resultIds_settle ms : resultIds (settleAbandonedMessage <$> ms) = resultIds ms.
Proof.
  induction ms as [|m ms IH]; [done|]. rewrite fmap_cons, !resultIds_cons, IH. f_equal.
  destruct m as [[u|a|r]|s]; try done. by destruct (settle_calls a) as (a' & -> & _).
Qed.

(** The results among messages, by their flag. *)
Lemma resultIds_flags (l : list (EngineMessage * bool)) :
  resultIds l.*1 ≡ₚ resultIds (filter (λ x, x.2 = true) l).*1 ++ resultIds (filter (λ x, x.2 = false) l).*1.
Proof.
  induction l as [|[m f] l IH]; [done|]. rewrite fmap_cons, resultIds_cons, IH. cbn [fst]. destruct f.
  - rewrite filter_cons_True, filter_cons_False, fmap_cons, resultIds_cons, <- app_assoc by done. done.
  - rewrite filter_cons_False, filter_cons_True, fmap_cons, resultIds_cons by done. cbn [fst].
    rewrite !app_assoc. apply Permutation_app_tail, Permutation_app_comm.
Qed.

Definition callIds (ms : list EngineMessage) : list jstr :=
  ms ≫= λ m, match m with carried (assistant a) => call_id <$> callsOf (a_content a) | _ => [] end.

(** The answers that are added for one message. *)
Definition says (now : Z) (answered : list jstr) (m : EngineMessage) : list ToolResultMessage :=
  match m with carried (assistant a) => saysOf now answered a | _ => [] end.

Lemma says_ids now answered a :
  toolCallId <$> saysOf now answered a `sublist_of` call_id <$> unansweredOf answered (callsOf (a_content a)).
Proof.
  unfold saysOf. cbv zeta. destruct (bool_decide (stopReason a = js "error")); [apply sublist_nil_l|].
  set (open := unansweredOf _ _). destruct (bool_decide (stopReason a = js "aborted")).
  - rewrite <- list_fmap_compose. change (toolCallId ∘ _) with call_id. apply fmap_sublist, sublist_filter.
  - destruct open as [|c rest]; [done|]. rewrite fmap_app, <- list_fmap_compose. change (toolCallId ∘ _) with call_id.
    rewrite fmap_cons. destruct (isPick c); [by apply sublist_skip|by apply sublist_cons].
Qed.

Lemma added_ids now ms answered :
  resultIds (ms ≫= addedFor now answered).*1 = toolCallId <$> (ms ≫= says now answered).
Proof.
  induction ms as [|m ms IH]; [done|]. rewrite !bind_cons, !fmap_app, resultIds_app, IH. f_equal.
  destruct m as [[u|a|r]|s]; try done. rewrite addedFor_says. cbn [says].
  rewrite <- list_fmap_compose. apply resultIds_results.
Qed.

Lemma added_sublist now ms answered : toolCallId <$> (ms ≫= says now answered) `sublist_of` callIds ms.
Proof.
  unfold callIds. induction ms as [|m ms IH]; [done|]. rewrite !bind_cons, fmap_app. apply sublist_app; [|done].
  destruct m as [[u|a|r]|s]; try done. cbn [says]. etrans; [apply says_ids|]. apply fmap_sublist, sublist_filter.
Qed.

Lemma added_new now ms answered i : i ∈ toolCallId <$> (ms ≫= says now answered) → i ∉ answered.
Proof.
  intros (r & -> & (m & Hr & _)%list_elem_of_bind)%list_elem_of_fmap. destruct m as [[u|a|r']|s]; try by apply elem_of_nil in Hr.
  cbn [says] in Hr. assert (toolCallId r ∈ call_id <$> unansweredOf answered (callsOf (a_content a))) as Hin.
  { eapply elem_of_sublist; [|apply (says_ids now)]. by apply list_elem_of_fmap_2. }
  apply list_elem_of_fmap in Hin as (c & -> & Hc). by apply list_elem_of_filter in Hc as [? _].
Qed.

Lemma says_pick now answered a c :
  stopReason a ≠ js "error" → c ∈ callsOf (a_content a) → isPick c = true → call_id c ∉ answered →
  call_id c ∈ toolCallId <$> saysOf now answered a.
Proof.
  intros He Hc Hp Hn. unfold saysOf. cbv zeta. rewrite (bool_decide_eq_false_2 _ He).
  assert (c ∈ unansweredOf answered (callsOf (a_content a))) as Hin by (by apply list_elem_of_filter).
  destruct (bool_decide (stopReason a = js "aborted")).
  - rewrite <- list_fmap_compose. apply list_elem_of_fmap. exists c. split; [done|]. by apply list_elem_of_filter.
  - destruct (unansweredOf _ _) as [|c' rest]; [by apply elem_of_nil in Hin|]. rewrite fmap_app. apply elem_of_app.
    apply elem_of_cons in Hin as [<-|Hin]; [left; rewrite Hp; by left|right].
    rewrite <- list_fmap_compose. apply list_elem_of_fmap. by exists c.
Qed.

(** A history with calls that a restart or an abort cut is sent with each
    pick answered once, and truly. Nothing of the history is dropped or moved
    (an aborted answer is only settled), and to each answer's calls with no
    result [saysOf] adds: none where the provider failed; that the pick was not
    sent where an abort cut the answer; and else, for the first of them, that
    the pick reached the workflow, and for the rest that they did not run.
    Where no id is used twice, no call then has two results, and every pick
    but one of a failed answer has one. *)
Theorem picks_answered_once now ms :
  NoDup (resultIds ms) → NoDup (callIds ms) →
  NoDup (resultIds (settleCutPicks now ms))
  ∧ (∀ a c, carried (assistant a) ∈ ms → stopReason a ≠ js "error" → c ∈ callsOf (a_content a) → isPick c = true →
       call_id c ∈ resultIds (settleCutPicks now ms))
  ∧ (filter (λ x, x.2 = false) (settled now ms)).*1 = settleAbandonedMessage <$> ms
  ∧ (filter (λ x, x.2 = true) (settled now ms)).*1 = (λ r, carried (toolResult r)) <$> (ms ≫= says now (resultIds ms)).
Proof.
  intros HR HC. set (answered := resultIds ms).
  assert ((filter (λ x, x.2 = false) (settled now ms)).*1 = settleAbandonedMessage <$> ms) as E0.
  { unfold settled. rewrite loop_kept, <- list_fmap_compose. done. }
  assert (resultIds (filter (λ x, x.2 = true) (settled now ms)).*1 = toolCallId <$> (ms ≫= says now answered)) as E1.
  { unfold settled. rewrite loop_added, closed_nil. apply added_ids. }
  assert (resultIds (settleCutPicks now ms) ≡ₚ (toolCallId <$> (ms ≫= says now answered)) ++ answered) as EP.
  { unfold settleCutPicks. rewrite resultIds_flags, E0, E1, resultIds_settle. done. }
  split_and!; [| |exact E0|].
  - rewrite EP. apply NoDup_app. split_and!; [|intros i; apply added_new|done].
    eapply sublist_NoDup; [exact HC|apply added_sublist].
  - intros a c Ha He Hc Hp. rewrite EP. apply elem_of_app. destruct (decide (call_id c ∈ answered)); [by right|left].
    apply (says_pick now answered a c) in Hc; [|done..]. apply list_elem_of_fmap in Hc as (r & -> & Hr).
    apply list_elem_of_fmap_2, list_elem_of_bind. by exists (carried (assistant a)).
  - unfold settled. rewrite loop_added, closed_nil. cbn [app]. clear. fold answered. generalize answered. intros ans.
    induction ms as [|m ms IH]; [done|]. rewrite !bind_cons, !fmap_app, IH. f_equal.
    destruct m as [[u|a|r]|s]; try done. rewrite addedFor_says, <- list_fmap_compose. done.
Qed.

(** ** No result without its call *)

(** Every result among [l] has, before it there or in [em], the answer that
    made its call. *)
Fixpoint paired (em l : list EngineMessage) : Prop :=
  match l with
  | [] => True
  | m :: l' =>
      match m with
      | carried (toolResult r) => ∃ a, carried (assistant a) ∈ em ∧ runsId a (toolCallId r)
      | _ => True
      end ∧ paired (em ++ [m]) l'
  end.

Lemma paired_app em a b : paired em (a ++ b) ↔ paired em a ∧ paired (em ++ a) b.
Proof.
  revert em. induction a as [|m a IH]; intros em; cbn [paired app]; [rewrite app_nil_r; tauto|].
  rewrite IH, <- app_assoc. cbn [app]. tauto.
Qed.

Lemma paired_split em l pre r post :
  paired em l → l = pre ++ carried (toolResult r) :: post → ∃ a, carried (assistant a) ∈ em ++ pre ∧ runsId a (toolCallId r).
Proof. intros H ->. apply paired_app in H as [_ [H _]]. exact H. Qed.

Lemma split_paired em l :
  (∀ pre r post, l = pre ++ carried (toolResult r) :: post → ∃ a, carried (assistant a) ∈ em ++ pre ∧ runsId a (toolCallId r)) →
  paired em l.
Proof.
  revert em. induction l as [|m l IH]; intros em H; [done|]. cbn [paired]. split.
  - destruct m as [[u|a|r]|s]; try done. destruct (H [] r l eq_refl) as (a & Ha & Hr). rewrite app_nil_r in Ha. by exists a.
  - apply IH. intros pre r post ->. rewrite <- app_assoc. apply (H (m :: pre) r post). done.
Qed.

(** The calls of a settled answer are calls that count as run. *)
Lemma settle_runs a c :
  stopReason a ≠ js "error" → c ∈ callsOf (a_content a) →
  ∃ a', settleAbandonedMessage (carried (assistant a)) = carried (assistant a') ∧ runsId a' (call_id c).
Proof.
  intros He Hc.
  assert (toolCall c ∈ a_content a) as Hin.
  { apply list_elem_of_omap in Hc as (b & Hb & Eb). destruct b; try done. by injection Eb as ->. }
  cbn [settleAbandonedMessage]. case_bool_decide as Ea.
  - assert (toolCall c ∈ filter (λ b, nonEmptyBlock b = true) (a_content a)) as Hk by (by apply list_elem_of_filter).
    destruct (filter _ (a_content a)) as [|b l]; [by apply elem_of_nil in Hk|]. eexists. split; [done|].
    assert (hasCall (b :: l) = true) as ->.
    { unfold hasCall. apply existsb_exists. exists (toolCall c). split; [by apply list_elem_of_In|done]. }
    split_and!; [done|done|by exists c].
  - exists a. split; [done|]. split_and!; [done|done|by exists c].
Qed.

Lemma runsId_settle a i :
  runsId a i → ∃ a', settleAbandonedMessage (carried (assistant a)) = carried (assistant a') ∧ runsId a' i.
Proof.
  intros (H1 & H2 & c & Hc & <-). apply settle_runs; [done|]. apply list_elem_of_omap. by exists (toolCall c).
Qed.

(** Calls that an answer among the sent messages made. *)
Definition covered (em : list EngineMessage) (cs : list ToolCall) : Prop :=
  ∀ c, c ∈ cs → ∃ a, carried (assistant a) ∈ em ∧ runsId a (call_id c).

Lemma close_calls now answered d cut cs r : r ∈ close now answered d cut cs → ∃ c, c ∈ cs ∧ toolCallId r = call_id c.
Proof.
  revert cut. induction cs as [|c cs IH]; intros cut; cbn [close]; [by intros ?%elem_of_nil|].
  assert (∀ cut', r ∈ close now answered d cut' cs → ∃ c0, c0 ∈ c :: cs ∧ toolCallId r = call_id c0) as HI.
  { intros cut' (c' & Hc & E)%IH. exists c'. split; [by right|done]. }
  destruct (bool_decide (call_id c ∈ answered)); [apply HI|]. cbv zeta.
  destruct (if negb d then _ else _); [|apply HI]. intros [->|H]%elem_of_cons; [|by eapply HI]. exists c. split; [by left|done].
Qed.

Lemma paired_closed now answered em st :
  covered em st.1 → paired em (closed now answered st).*1.
Proof.
  intros HC. apply split_paired. intros pre r post E.
  assert (carried (toolResult r) ∈ (closed now answered st).*1) as Hin by (rewrite E; apply elem_of_app; right; by left).
  unfold closed in Hin. rewrite <- list_fmap_compose in Hin. apply list_elem_of_fmap in Hin as (r' & E' & Hr).
  injection E' as ->. apply close_calls in Hr as (c & Hc & ->). destruct (HC c Hc) as (a & Ha & Hr). exists a. split; [set_solver|done].
Qed.

Lemma covered_mono em em' cs : em ⊆ em' → covered em cs → covered em' cs.
Proof. intros HS HC c Hc. destruct (HC c Hc) as (a & Ha & Hr). exists a. split; [by apply HS|done]. Qed.

Lemma opens_covered m st' em :
  opens m = Some st' → settleAbandonedMessage m ∈ em → covered em st'.1.
Proof.
  intros Ho Hm. destruct m as [[u|a|r]|s]; try done. unfold opens in Ho. destruct (settle_calls a) as (a' & E & Ec).
  rewrite E in Ho. injection Ho as <-. cbn [fst]. case_bool_decide as He; [by intros c ?%elem_of_nil|].
  rewrite Ec. intros c Hc. destruct (settle_runs a c He Hc) as (a'' & E' & Hr). rewrite E in E'. injection E' as <-.
  exists a'. split; [by rewrite <- E|done].
Qed.

Lemma loop_paired now answered ms seen em st :
  paired seen ms → (∀ m, m ∈ seen → settleAbandonedMessage m ∈ em) → covered em st.1 →
  paired em (settleLoop now answered st ms).*1.
Proof.
  revert seen em st. induction ms as [|m ms IH]; intros seen em st HP HS HC; cbn [settleLoop]; [by apply paired_closed|].
  cbv zeta. destruct HP as [Hm HP]. rewrite fmap_app, fmap_cons. cbn [fst].
  set (before := if isResult m then [] else closed now answered st).
  assert (paired em before.*1) as HB by (unfold before; destruct (isResult m); [done|by apply paired_closed]).
  apply paired_app. split; [done|]. cbn [paired]. split.
  - destruct m as [[u|a|r]|s]; try done; [by destruct (settle_calls a) as (a' & -> & _)|]. cbn [settleAbandonedMessage].
    destruct Hm as (a & Ha & Hr). destruct (runsId_settle a _ Hr) as (a' & E & Hr'). exists a'. split; [|done].
    apply elem_of_app. left. rewrite <- E. by apply HS.
  - apply (IH (seen ++ [m])); [done| |].
    + intros m' [Hm'|Hm'%list_elem_of_singleton]%elem_of_app; apply elem_of_app;
      [left; apply elem_of_app; left; by apply HS|right; rewrite Hm'; by left].
    + destruct (opens m) as [st'|] eqn:Eo; cbn [default].
      * eapply opens_covered; [done|]. apply elem_of_app. right. by left.
      * destruct (isResult m); [|by intros c ?%elem_of_nil]. eapply covered_mono; [|exact HC]. set_solver.
Qed.

Lemma paired_context ms :
  (∀ pre r post, plain ms = pre ++ toolResult r :: post → ∃ a, assistant a ∈ pre ∧ runsId a (toolCallId r)) → paired [] ms.
Proof.
  intros H. apply split_paired. intros pre r post ->. destruct (H (plain pre) r (plain post)) as (a & Ha & Hr).
  - by rewrite plain_app.
  - exists a. split; [|done]. apply list_elem_of_omap in Ha as (m & Hm & Em). destruct m; [|done]. by injection Em as ->.
Qed.

(** C21: No provider gets a tool result without its call. However often a
    conversation is cut, whichever of its answers a restart, an abort or a
    provider error ended: in the messages that its next request carries, every
    tool result, the engine's and those that jr2 adds, has before it the answer
    that made its call, and that answer is one that is sent (it ended neither
    in an error nor, once settled, in an abort). *)
Theorem provider_gets_paired_results contentText ask st g now pre r post :
  reach contentText ask st g → answers (entries st.1) → convertToLlm now (context st.1) = pre ++ toolResult r :: post →
  ∃ a, assistant a ∈ pre ∧ runsId a (toolCallId r).
Proof.
  intros HR HA E. unfold convertToLlm in E.
  assert (paired [] (context st.1)) as HP.
  { apply paired_context. intros pre' r' post' E'. by eapply result_has_call. }
  assert (paired [] (settleCutPicks now (context st.1))) as HQ.
  { apply (loop_paired _ _ _ []); [done|by intros m ?%elem_of_nil|by intros c ?%elem_of_nil]. }
  apply fmap_app_inv in E as (l1 & l2 & -> & E2 & E). symmetry in E2. apply fmap_cons_inv in E2 as (m & l2' & Em & -> & ->).
  destruct m as [m|s]; [|done]. subst m.
  destruct (paired_split [] _ l1 r l2' HQ E) as (a & Ha & Hr). exists a. split; [|done].
  apply list_elem_of_fmap. exists (carried (assistant a)). done.
Qed.

(** ** The end of a run, and a new start *)

(** When a run has ended, the answers that it appends leave no call of its last
    answer without a result. *)
Theorem run_end_answers_all now ms a after c :
  lastAnswer ms = Some (a, after) → stopReason a ≠ js "aborted" → stopReason a ≠ js "error" → c ∈ callsOf (a_content a) →
  call_id c ∈ resultIds (after ++ ((λ r, carried (toolResult r)) <$> unrunAnswers now ms)).
Proof.
  intros E H1 H2 Hc. unfold unrunAnswers. rewrite E, (bool_decide_eq_false_2 _ H1), (bool_decide_eq_false_2 _ H2). cbn [orb].
  rewrite resultIds_app. apply elem_of_app. destruct (decide (call_id c ∈ resultIds after)); [by left|right].
  rewrite resultIds_results, <- list_fmap_compose. apply list_elem_of_fmap. exists c. split; [done|]. by apply list_elem_of_filter.
Qed.

(** A part that is seeded with the record's history says again what was said. *)
Theorem seed_says_history now model h :
  h_text h ≠ [] → historyMessage (carried (providerMessage now model h)) = Some h.
Proof.
  destruct h as [[|] t]; intros Ht; cbn; [|rewrite (bool_decide_eq_false_2 (js "stop" = js "error")), (bool_decide_eq_false_2 (js "stop" = js "aborted")) by done; cbn];
    by destruct t.
Qed.

(** ** Witnesses *)

Definition pick (i : string) : Block := toolCall (mkCall (js i) (js "mcp__jr2__done") (JObj [])).

Definition answerMessage (stop : string) (calls : list Block) : EngineMessage :=
  carried (assistant (mkAssistant calls [] [] [] noUsage (js stop) 5)).

(** An answer cut by a restart after its first result, and one cut by an abort. *)
Definition cutHistory : list EngineMessage :=
  [answerMessage "toolUse" [callOf "r"; pick "p"; pick "q"]; carried (toolResult (mkResult (js "r") (js "read") [] false 6));
   carried (user (mkUser (Text (js "go on")) 7)); answerMessage "aborted" [pick "s"]].

Lemma picks_answered_once_witness :
  resultIds (settleCutPicks 9 cutHistory) = [js "r"; js "p"; js "q"; js "s"]
  ∧ NoDup (resultIds (settleCutPicks 9 cutHistory))
  ∧ (∀ a c, carried (assistant a) ∈ cutHistory → stopReason a ≠ js "error" → c ∈ callsOf (a_content a) → isPick c = true →
       call_id c ∈ resultIds (settleCutPicks 9 cutHistory)).
Proof.
  split; [vm_compute; reflexivity|].
  destruct (picks_answered_once 9 cutHistory) as (H1 & H2 & _); [| |split; [exact H1|exact H2]];
    apply (bool_decide_eq_true_1 _); vm_compute; reflexivity.
Defined.

(** The cut conversation, with a pick that a restart cut. *)
Definition stateOut : EnginePart * Record.FS := appendAll [answer "done" [pick "p"] 1200] stateCut.

Lemma out_answers : answers (entries stateOut.1).
Proof.
  unfold stateOut. rewrite entries_appendAll. intros i r [Hi|[_ Hi]]%lookup_app_Some.
  - pose proof (lookup_lt_Some _ _ _ Hi) as Hl. destruct (cut_answers i r Hi) as (j & a & Hj & Ej & Hr & Hb). exists j, a.
    split_and!; [done|by rewrite lookup_app_l by lia|done|]. intros n Hn. destruct (Hb n Hn) as [r' Er]. exists r'.
    by rewrite lookup_app_l by lia.
  - apply list_lookup_singleton_Some in Hi as [_ Hi]. discriminate.
Qed.

Lemma out_reach : reach sampleText sampleAsk stateOut (summarizedBy smallSettings cutTaken stateBefore).
Proof. apply reach_all; [by repeat constructor|exact cut_reach]. Qed.

Lemma provider_gets_paired_results_witness :
  ∃ pre r post a, convertToLlm 9 (context stateOut.1) = pre ++ toolResult r :: post
    ∧ toolCallId r = js "p" ∧ assistant a ∈ pre ∧ runsId a (toolCallId r).
Proof.
  set (r := mkResult (js "p") (js "mcp__jr2__done") [text (cutPickResult (js "mcp__jr2__done"))] false 9).
  set (pre := take 5 (convertToLlm 9 (context stateOut.1))).
  assert (convertToLlm 9 (context stateOut.1) = pre ++ toolResult r :: []) as E by (vm_compute; reflexivity).
  destruct (provider_gets_paired_results sampleText sampleAsk stateOut _ 9 pre r [] out_reach out_answers E) as (a & Ha & Hr).
  exists pre, r, [], a. split; [exact E|]. split; [reflexivity|]. split; [exact Ha|exact Hr].
Defined.

End SettleProofs.
