(* ===== verification/Delivery.v ===== *)
(** * From a keeper to the kept conversations

    The request that [keepSendOver] (harness/src/keep.ts) makes of a batch and
    what it makes of the response; the route [POST /agents/:instanceId/conversation]
    (orchestrator/src/http.ts) with the body's schema; and where the entries of a
    conversation may come from, [RunHost.conversationPlace]
    (orchestrator/src/run-host.ts).  [Sys] puts a conversation's keeper
    ([Keep]), its requests on the wire and the store ([Kept]) together: a
    request may be delivered late, more than once or never, a response may be
    lost, the Harness may restart, and its pod may be replaced. *)

From Stdlib Require Import Lia ZArith.
From stdpp Require Import base list strings sets.
From S2P Require Import Prelude JsString Json Utf8 JsObject Sql Record Keep Store Kept.

Open Scope Z_scope.

Module Delivery.
Import Json Keep.

(** ** The request *)

(** [url.replace(/\/+$/, "")] *)
Fixpoint dropSlashes (rev_ : jstr) : jstr :=
  match rev_ with
  | c :: r => if c =? 47 then dropSlashes r else rev_
  | [] => []
  end.

Definition baseOf (url : jstr) : jstr := rev (dropSlashes (rev url)).

Record Request := mkRequest { url : jstr; slotHeader : jstr; body : jstr }.

Definition batchJson (entries : list KeptEntry) : json := JObj [(js "entries", JArr (Keep.entryJson <$> entries))].

(** [None]: [encodeURIComponent] throws. *)
Definition keepRequest (reachUrl inst slot : jstr) (entries : list KeptEntry) : option Request :=
  i ← encodeURIComponent inst;
  Some (mkRequest (baseOf reachUrl ++ js "/agents/" ++ i ++ js "/conversation") slot (stringify (batchJson entries))).

(** ** The response *)

(** [payload]: the JSON of the body, or none where it is no JSON. *)
Record Response := mkResponse { status : Z; unreachable : bool; payload : option json }.

(** [res.ok] of an answer that the Custodian did not make itself *)
Definition accepted (r : Response) : bool := (200 <=? status r) && (status r <=? 299) && negb (unreachable r).

Definition saysCut (r : Response) : bool :=
  match payload r with
  | Some v => match prop (js "cut") v with Some (JBool true) => true | _ => false end
  | None => false
  end.

(** [None]: the fetch threw, or was aborted. *)
Definition keepAnswerOf (res : option Response) : KeepAnswer :=
  match res with
  | None => again
  | Some r =>
      if accepted r then (if saysCut r then cut else kept)
      else if unreachable r then again
      else if (500 <=? status r) || bool_decide (status r ∈ [408; 409; 425; 429]) then again
      else refused
  end.

(** [keepSendOver]'s function, where [fetch_] is the request's outcome. *)
Definition keepSendOver (reachUrl inst slot : jstr) (entries : list KeptEntry) (fetch_ : Request → option Response) : KeepAnswer :=
  keepAnswerOf (r ← keepRequest reachUrl inst slot entries; fetch_ r).

(** ** The body *)

Definition CONVERSATION_BATCH_MAX : Z := 4 * 1024 * 1024.

(** [readJson]: an object, or [{}]. *)
Definition readJson (raw : jstr) : json :=
  match parse raw with
  | Some ((JObj _ | JArr _) as v) => v
  | _ => JObj []
  end.

Definition MAX_SAFE_INTEGER : Z := 9007199254740991.

(** [z.string().min(lo).max(hi)] *)
Definition stringBetween (lo hi : Z) (s : jstr) : bool := (lo <=? strlen s) && (strlen s <=? hi).

(** The entry's schema. [z.number().int()] takes the safe integers. *)
Definition entryFits (e : KeptEntry) : bool :=
  stringBetween 1 200 (id e) && ((0 <=? seq e) && (seq e <=? MAX_SAFE_INTEGER)) && (strlen (at_ e) <=? 64)
  && stringBetween 1 200 (kind e).

Definition schemaEntry (v : json) : option KeptEntry :=
  match prop (js "id") v, prop (js "seq") v, prop (js "at") v, prop (js "kind") v, prop (js "text") v with
  | Some (JStr i), Some (JNum n), Some (JStr a), Some (JStr k), Some (JStr x) =>
      let e := mkEntry i n a k x in
      if entryFits e then Some e else None
  | _, _, _, _, _ => None
  end.

(** [conversationBatch.safeParse]: its data, or none. *)
Definition conversationBatch (v : json) : option (list KeptEntry) :=
  match prop (js "entries") v with
  | Some (JArr l) => mapM schemaEntry l
  | _ => None
  end.

(** ** Whose conversation it is *)

(** An admission of the ledger, as far as a place is read from it. *)
Record AgentAdmission := mkAdmission {
  ad_instanceId : option jstr;
  ad_agent : option jstr;
  ad_sandbox : option jstr;
  ad_slot : option jstr;
}.

Abbreviation Ledger := (JsObject.obj AgentAdmission).

Record ConversationPlace := mkPlace {
  p_runId : jstr;
  p_live : bool;
  p_agent : option jstr;
  p_sandbox : option jstr;
  p_slot : option jstr;
}.

(** What a place is read from: the runs of the registry, the runs that a
    restore left unhosted, and the store's rows. *)
Record Host := mkHost {
  runs : list (jstr * Ledger);
  unhosted : list (jstr * Ledger);
  store : Store.Store;
}.

Definition strMember (k : string) (v : json) : option jstr :=
  match prop (js k) v with Some (JStr s) => Some s | _ => None end.

Definition admissionOf (v : json) : AgentAdmission :=
  mkAdmission (strMember "instanceId" v) (strMember "agent" v) (strMember "sandbox" v) (strMember "slot" v).

(** [snapshot?.agents ?? {}] of a saved blob *)
Definition ledgerOf (snapshot : option json) : Ledger :=
  match v ← snapshot; prop (js "agents") v with
  | Some (JObj l) => foldl (λ o m, JsObject.objSet m.1 (admissionOf m.2) o) [] l
  | _ => []
  end.

(** [Object.entries] *)
Definition ledgerRows (o : Ledger) : list (jstr * AgentAdmission) :=
  omap (λ k, pair k <$> JsObject.objGet k o) (JsObject.objectKeys o.*1).

(** [instanceId] is the conversation [key] or one that a reroll gave it:
    [`${key}-r`], then digits to the end. *)
Definition rerollOf (key inst : jstr) : bool :=
  bool_decide (inst = key)
  || match starts (key ++ js "-r") inst with
     | Some ((_ :: _) as n) => forallb is_digit n
     | _ => false
     end.

Definition ledgerRow (inst : jstr) (o : Ledger) : option AgentAdmission :=
  match head (filter (λ r, default r.1 (ad_instanceId r.2) = inst) (ledgerRows o)) with
  | Some r => Some r.2
  | None => snd <$> head (filter (λ r, rerollOf r.1 inst = true) (ledgerRows o))
  end.

Definition placeIn (runId : jstr) (isLive : bool) (inst : jstr) (o : Ledger) : ConversationPlace :=
  match ledgerRow inst o with
  | Some (mkAdmission _ (Some ag) sb sl) => mkPlace runId isLive (Some ag) sb sl
  | _ => mkPlace runId isLive None None None
  end.

Definition runOf (inst : jstr) : jstr := default [] (head (split_on 47 inst)).

Definition conversationPlace (inst : jstr) (h : Host) : result Store.Fault (option ConversationPlace) :=
  let runId := runOf inst in
  match JsObject.objGet runId (runs h), JsObject.objGet runId (unhosted h) with
  | Some agents, _ | None, Some agents => Ok (Some (placeIn runId true inst agents))
  | None, None =>
      stored ← Store.load runId (store h);
      match stored with
      | None => Ok None
      | Some s =>
          Ok (Some (placeIn runId (bool_decide (Store.s_status s = Store.LIVE)) inst (ledgerOf (Store.s_snapshot s))))
      end
  end.

(** ** The route *)

Inductive Principal :=
| caller
| publisher
| sandboxToken (sandbox : jstr)
| agent (sandbox slot : jstr).

Definition fault (code : Z) (text : jstr) : Response := mkResponse code false (Some (JObj [(js "error", JStr text)])).

(** [authenticated]: the principal, or the refusal. [auth] is what the
    configured authenticator makes of the request; without one, every request
    is trusted. *)
Definition authenticated (auth : option (option Principal)) : Principal + Response :=
  match auth with
  | None => inl caller
  | Some None => inr (fault 401 (js "unauthorized"))
  | Some (Some publisher) => inr (fault 403 (js "the publish token publishes an Assembly (PUT /assembly) and does nothing else"))
  | Some (Some p) => inl p
  end.

(** The token is an Agent's, and not of the place's pod and slot. *)
Definition wrongToken (p : Principal) (place : ConversationPlace) : bool :=
  match p with
  | agent sb sl => negb (bool_decide (p_sandbox place = Some sb) && bool_decide (p_slot place = Some sl))
  | _ => false
  end.

(** A text between double quotes *)
Definition quoted (s : jstr) : jstr := [34] ++ s ++ [34].

Definition isAgent (p : Principal) : bool := match p with agent _ _ => true | _ => false end.

(** An uncaught throw of the handler. *)
Definition crash : Response := mkResponse 500 false None.

Section Route.
(** The first issue that the schema's library names. *)
Variable issue : json → jstr.

Definition postConversation (auth : option (option Principal)) (h : Host) (inst raw now : jstr) (d : option Kept.Db)
    : Response * option Kept.Db :=
  match authenticated auth with
  | inr r => (r, d)
  | inl p =>
      match d with
      | None => (fault 404 (js "this Orchestrator keeps no conversation"), d)
      | Some db =>
          if bool_decide (is_Some auth) && negb (isAgent p) then
            (fault 403 (js "only the Harness of the conversation's pod writes it: this token cannot (ADR-0023)"), d)
          else if CONVERSATION_BATCH_MAX <? utf8ByteLength raw then
            (fault 413 (js "a batch is at most " ++ of_int CONVERSATION_BATCH_MAX ++ js " bytes: send fewer entries"), d)
          else
            match conversationBatch (readJson raw) with
            | None => (fault 400 (js "a batch is { entries: Array<{ id, seq, at, kind, text }> }: " ++ issue (readJson raw)), d)
            | Some entries =>
                match conversationPlace inst h with
                | Throw _ => (crash, d)
                | Ok None => (fault 404 (js "no run for instance " ++ quoted inst), d)
                | Ok (Some place) =>
                    match p_agent place with
                    | None =>
                        if p_live place then
                          (fault 409 (js "the run does not name instance " ++ quoted inst ++ js " yet " ++ [0x2014] ++ js " send again"), d)
                        else (fault 404 (js "run " ++ quoted (p_runId place) ++ js " has no conversation " ++ quoted inst), d)
                    | Some ag =>
                        if wrongToken p place then
                          (fault 403 (js "this token cannot write the conversation of instance " ++ quoted inst), d)
                        else
                          match Kept.append (p_runId place) inst ag entries now db with
                          | Throw _ => (crash, d)
                          | Ok (r, db') =>
                              (mkResponse 200 false
                                 (Some (JObj [(js "kept", JNum (Kept.a_kept r)); (js "cut", JBool (Kept.a_cut r))])), Some db')
                          end
                    end
                end
            end
      end
  end.

End Route.

(** ** A conversation, its keeper and the store together *)

(** What [k] has on its way. *)
Definition flightOf (k : Keeper) : list (list KeptEntry) :=
  match inFlight k with Sending b => [b] | _ => [] end.

Record Sys := mkSys {
  keeper : Keeper;
  dir : Record.path;
  db : Kept.Db;
  wire : list (list KeptEntry);  (** every batch that was ever sent *)
  replies : list (list KeptEntry * Response);  (** every response that the route made *)
  given : list KeptEntry;  (** every entry that a keeper of the conversation was given *)
  acked : list KeptEntry;  (** every entry of a batch whose answer was [kept] *)
  stopped : bool;  (** a batch was refused, or answered with a cut *)
  removed : bool;  (** the run's conversations were deleted *)
}.

Definition withKeeper (k : Keeper) (s : Sys) : Sys :=
  mkSys k (dir s) (db s) (wire s ++ flightOf k) (replies s) (given s) (acked s) (stopped s) (removed s).

(** The keeper's steps that neither take an entry nor settle one. *)
Inductive own (k : Keeper) : Keeper → Prop :=
| own_kick : own k (kick k)
| own_close : own k (close k)
| own_slot slot : Forall unit_ok slot → own k (setSlot slot k)
| own_timer ms : timer k = Some ms → own k (timerFires k)
| own_again b : inFlight k = Sending b → own k (answered b (Some again) k)
| own_end : inFlight k = Ending → own k (sendEnds k).

(** What else happens to the store, with the runs it deletes. *)
Inductive elsewhere (inst : jstr) (d : Kept.Db) : list jstr → Kept.Db → Prop :=
| else_append runId inst' ag sent now r d' :
    inst' ≠ inst → Kept.append runId inst' ag sent now d = Ok (r, d') → elsewhere inst d [] d'
| else_delete runIds : elsewhere inst d runIds (Kept.deleteRuns runIds d)
| else_sweep runId now : elsewhere inst d [] (Kept.sweepForSpace runId now d)
| else_full v : elsewhere inst d [] (Kept.set_full v d)
| else_follow i n : elsewhere inst d [] (Kept.follow i n d)
| else_unfollow i n : elsewhere inst d [] (Kept.unfollow i n d).

Definition isKept (a : KeepAnswer) : bool := match a with kept => true | _ => false end.

Section System.
Variable issue : json → jstr.
Variables inst ag : jstr.  (** the conversation, and the Agent that the ledger names for it *)

(** The steps.  An id is fresh (it is a random UUID).  A response that is
    accepted is one that the route made of the batch: the Custodian marks its
    own.  A process that starts with an empty record starts its numbers at
    the clock's time, which is then later than any number given before. *)
Inductive sysStep (s : Sys) : Sys → Prop :=
| sys_add uuid iso body :
    Forall unit_ok uuid → Forall unit_ok iso → Forall unit_ok body → uuid ∉ id <$> given s →
    let k := keeper s in
    sysStep s (withKeeper (add uuid iso body k)
                 (mkSys k (dir s) (db s) (wire s) (replies s) (given s ++ [Keep.entryOf uuid iso body k]) (acked s)
                    (stopped s) (removed s)))
| sys_own k : own (keeper s) k → sysStep s (withKeeper k s)
| sys_deliver b auth h now r d :
    b ∈ wire s → (∀ p a, conversationPlace inst h = Ok (Some p) → p_agent p = Some a → a = ag) →
    postConversation issue auth h inst (stringify (batchJson b)) now (Some (db s)) = (r, Some d) →
    sysStep s (mkSys (keeper s) (dir s) d (wire s) (replies s ++ [(b, r)]) (given s) (acked s) (stopped s) (removed s))
| sys_answer b res :
    inFlight (keeper s) = Sending b → (∀ r, res = Some r → accepted r = true → (b, r) ∈ replies s) →
    let a := keepAnswerOf res in
    a ≠ again →
    sysStep s (withKeeper (answered b (Some a) (keeper s))
                 (mkSys (keeper s) (dir s) (db s) (wire s) (replies s) (given s)
                    (if isKept a then acked s ++ b else acked s) (stopped s || negb (isKept a)) (removed s)))
| sys_restart send iv mb now t :
    0 <= now → 10 ∉ t → (added (keeper s) = [] → Forall (λ e, seq e < now * 1000) (given s)) →
    sysStep s (withKeeper (newKeeper (Some (dir s)) send iv mb now (Record.appendFile (entriesFile (dir s)) t (disk (keeper s)))) s)
| sys_replace dir' send iv mb now fs :
    0 <= now → Record.files fs !! entriesFile dir' = None → Record.files fs !! stateFile dir' = None →
    Forall (λ e, seq e < now * 1000) (given s) →
    sysStep s (withKeeper (newKeeper (Some dir') send iv mb now fs)
                 (mkSys (keeper s) dir' (db s) (wire s) (replies s) (given s) (acked s) (stopped s) (removed s)))
| sys_store rs d :
    elsewhere inst (db s) rs d →
    sysStep s (mkSys (keeper s) (dir s) d (wire s) (replies s) (given s) (acked s) (stopped s)
                 (removed s || bool_decide (runOf inst ∈ rs))).

(** A new conversation over an empty store. *)
Inductive sysStart : Sys → Prop :=
| start_new dir send iv mb now fs cap :
    0 <= now → Record.files fs !! entriesFile dir = None → Record.files fs !! stateFile dir = None →
    sysStart (mkSys (newKeeper (Some dir) send iv mb now fs) dir (Kept.newDb cap) [] [] [] [] false false).

Inductive reached : Sys → Prop :=
| reached_start s : sysStart s → reached s
| reached_step s s' : reached s → sysStep s s' → reached s'.

(** The store still keeps the conversation: it is not cut, not swept, and was
    not deleted. *)
Definition keeping (s : Sys) : Prop :=
  removed s = false ∧ ∀ c, Kept.row inst (db s) = Some c → Kept.cut c = false ∧ Kept.swept c = None.

(** An entry as the store keeps it. *)
Definition keptAs (e : KeptEntry) : Kept.ConversationEntry := Kept.entryOf ag (seq e) e.

End System.

End Delivery.
