(* ===== verification/DeliveryProofs.v ===== *)
(** * From a keeper to the kept conversations: proofs *)

From Stdlib Require Import Lia ZArith.
From stdpp Require Import base list strings sets sorting.
From S2P Require Import Prelude JsString Json Utf8 JsObject Sql Record Keep Store Kept KeptProofs Delivery.

Open Scope Z_scope.

Module DeliveryProofs.
Import Json Sql Keep Delivery.

(** ** The body of a request *)

Lemma batchJson_ok b : Forall entry_ok b → units_ok (batchJson b).
Proof.
  intros Hb. constructor; [by repeat constructor; try apply js_units|]. constructor; [|done]. constructor. apply Forall_fmap.
  eapply Forall_impl; [exact Hb|]. apply entryJson_ok.
Qed.

Lemma readJson_batch b : Forall entry_ok b → readJson (stringify (batchJson b)) = batchJson b.
Proof. intros Hb. unfold readJson. by rewrite parse_stringify by by apply batchJson_ok. Qed.

Lemma schemaEntry_entry e : schemaEntry (Keep.entryJson e) = if entryFits e then Some e else None.
Proof. by destruct e. Qed.

(** The schema takes a batch whole or not at all. *)
Lemma conversationBatch_batch b :
  conversationBatch (batchJson b) = if forallb entryFits b then Some b else None.
Proof.
  change (mapM schemaEntry (Keep.entryJson <$> b) = if forallb entryFits b then Some b else None).
  induction b as [|e b IH]; [done|]. rewrite fmap_cons. cbn [mapM forallb]. rewrite schemaEntry_entry, IH.
  destruct (entryFits e); [|done]. by destruct (forallb entryFits b).
Qed.

(** ** The route *)

(** What an accepted request did: the route passed it to the store. *)
Definition appended (auth : option (option Principal)) (h : Host) (inst raw now : jstr) (d : Kept.Db) (r : Response) (d' : Kept.Db) : Prop :=
  ∃ p entries place ag res,
    authenticated auth = inl p ∧ (is_Some auth → isAgent p = true)
    ∧ utf8ByteLength raw <= CONVERSATION_BATCH_MAX
    ∧ conversationBatch (readJson raw) = Some entries
    ∧ conversationPlace inst h = Ok (Some place) ∧ p_agent place = Some ag ∧ wrongToken p place = false
    ∧ Kept.append (p_runId place) inst ag entries now d = Ok (res, d')
    ∧ accepted r = true ∧ saysCut r = Kept.a_cut res.

Lemma post_cases issue auth h inst raw now d r d' :
  postConversation issue auth h inst raw now (Some d) = (r, Some d') →
  (d' = d ∧ accepted r = false) ∨ appended auth h inst raw now d r d'.
Proof.
  unfold postConversation.
  destruct (authenticated auth) as [p|r0] eqn:Ep.
  2: { intros [= <- <-]. left. split; [done|]. revert Ep. unfold authenticated.
       destruct auth as [[[]|]|]; try discriminate; by intros [= <-]. }
  destruct (bool_decide (is_Some auth) && negb (isAgent p)) eqn:Ea; [intros [= <- <-]; by left|].
  destruct (_ <? _) eqn:Es; [intros [= <- <-]; by left|].
  destruct (conversationBatch _) as [es|] eqn:Ec; [|intros [= <- <-]; by left].
  destruct (conversationPlace inst h) as [[pl|]|] eqn:El; try (intros [= <- <-]; by left).
  destruct (p_agent pl) as [ag|] eqn:Eg; [|destruct (p_live pl); intros [= <- <-]; by left].
  destruct (wrongToken p pl) eqn:Ew; [intros [= <- <-]; by left|].
  destruct (Kept.append _ _ _ _ _ _) as [[res db']|] eqn:Eap; intros [= <- <-]; [|by left].
  right. exists p, es, pl, ag, res. zbool. split_and!; try done.
  - intros Hs. destruct Ea as [Ea|Ea]; zbool; done.
  - cbn. by destruct (Kept.a_cut res).
Qed.

(** ** One delivery *)

Section Rows.
Variables inst ag : jstr.

(** The row in which the store keeps an entry under its own number. *)
Definition rowOf (e : KeptEntry) : Kept.EntryRow :=
  Kept.mkEntryRow inst (seq e) (id e) (Kept.printEntry (keptAs ag e)).

(** The rows of the conversation are entries of [G] under their own numbers. *)
Definition rowsFrom (G : list KeptEntry) (es : list Kept.EntryRow) : Prop :=
  ∀ r, r ∈ es → Kept.r_instance r = inst → ∃ e, e ∈ G ∧ r = rowOf e.

Record distinct (G : list KeptEntry) : Prop := {
  d_seq : ∀ a b, a ∈ G → b ∈ G → seq a = seq b → a = b;
  d_id : ∀ a b, a ∈ G → b ∈ G → id a = id b → a = b;
}.

Lemma hasId_row G es e :
  distinct G → rowsFrom G es → e ∈ G → Kept.hasId inst (id e) es = true → rowOf e ∈ es.
Proof.
  intros HG HR He (r & [= Hi Hr] & Hin)%KeptProofs.hasId_spec%list_elem_of_fmap.
  destruct (HR r Hin (eq_sym Hi)) as (e' & He' & ->). cbn in Hr. by rewrite (d_id G HG e e').
Qed.

Lemma seatOf_own G es e :
  distinct G → rowsFrom G es → e ∈ G → Kept.hasId inst (id e) es = false → Kept.seatOf inst e es = seq e.
Proof.
  intros HG HR He Hid. unfold Kept.seatOf. destruct (Kept.hasSeq inst (seq e) es) eqn:E; [|done]. exfalso.
  apply KeptProofs.hasSeq_spec, list_elem_of_fmap in E as (r & [= Hi Hr] & Hin).
  destruct (HR r Hin (eq_sym Hi)) as (e' & He' & ->). cbn in Hr. rewrite (d_seq G HG e e') in Hid by done.
  assert (Kept.hasId inst (id e') es = true) as Ht; [|congruence].
  apply KeptProofs.hasId_spec, list_elem_of_fmap. by exists (rowOf e').
Qed.

(** A batch of entries of [G], taken without a cut. *)
Lemma appendLoop_rows G now isFull cap sent b b' :
  distinct G → (∀ e, e ∈ sent → e ∈ G) → rowsFrom G (Kept.b_entries b) →
  Kept.appendLoop inst ag now isFull cap sent b = Ok b' → Kept.b_cut b' = false →
  rowsFrom G (Kept.b_entries b') ∧ (∀ r, r ∈ Kept.b_entries b → r ∈ Kept.b_entries b')
  ∧ ∀ e, e ∈ sent → rowOf e ∈ Kept.b_entries b'.
Proof.
  intros HG. revert b. induction sent as [|e sent IH]; intros b HS HR; cbn [Kept.appendLoop].
  { intros [= <-] _. split_and!; [done|done|]. intros e He. by apply elem_of_nil in He. }
  assert (e ∈ G) as He by (apply HS; left). assert (∀ x, x ∈ sent → x ∈ G) as HS' by (intros x Hx; apply HS; by right).
  destruct (Kept.hasId inst (id e) (Kept.b_entries b)) eqn:Eid.
  { intros Hl Hc. destruct (IH b HS' HR Hl Hc) as (H1 & H2 & H3). split_and!; [done|done|].
    intros x [->|Hx]%elem_of_cons; [|auto]. apply H2. by eapply hasId_row. }
  cbv zeta. rewrite (seatOf_own G) by done. destruct (isFull || _); intros (es & Hi & H)%rbind_ok.
  { by injection H as <-. }
  apply KeptProofs.insertRow_ok in Hi as (-> & _ & _). intros Hc.
  apply IH in H as (H1 & H2 & H3); [|done| |done]; cbn [Kept.b_entries] in *.
  - split_and!; [done|intros r Hr; apply H2; set_solver|].
    intros x [->|Hx]%elem_of_cons; [|auto]. apply H2, elem_of_app. right. by left.
  - intros r [Hr| ->%list_elem_of_singleton]%elem_of_app; [by apply HR|]. intros _. by exists e.
Qed.

Definition takes (d : Kept.Db) : Prop := ∀ c, Kept.row inst d = Some c → Kept.cut c = false ∧ Kept.swept c = None.

Lemma append_rows G runId sent now d res d' :
  distinct G → (∀ e, e ∈ sent → e ∈ G) → takes d' →
  Kept.append runId inst ag sent now d = Ok (res, d') →
  takes d ∧ (rowsFrom G (Kept.entries d) → rowsFrom G (Kept.entries d') ∧ ∀ e, e ∈ sent → rowOf e ∈ Kept.entries d')
  ∧ (∀ r, r ∈ Kept.entries d → r ∈ Kept.entries d').
Proof.
  intros HG HS HT Ha. pose proof (KeptProofs.row_withRow runId inst ag now d) as Hw.
  assert (Kept.entries (KeptProofs.withRow runId inst ag now d) = Kept.entries d) as Ee
    by (unfold KeptProofs.withRow; by destruct (Kept.row inst d)).
  assert (∀ c, Kept.row inst d = Some c → KeptProofs.theRow runId inst ag now d = c) as Hc
    by (intros c E; unfold KeptProofs.theRow; by rewrite E).
  apply KeptProofs.append_cases in Ha as [(Hn & _ & ->)|(H1 & H2 & b & Hb & _ & ->)].
  - destruct (HT _ Hw) as [E1 E2]. rewrite E1, E2, bool_decide_eq_false_2 in Hn by apply is_Some_None. done.
  - match goal with |- context [Kept.notify inst ?l ?d2] => set (d3 := Kept.notify inst l d2) in * end.
    assert (Kept.entries d3 = Kept.b_entries b) as E3 by (unfold d3; by rewrite (proj1 (proj2 (KeptProofs.notify_fields _ _ _)))).
    pose proof (KeptProofs.row_updateConv inst
       (λ r, Kept.mkConv (Kept.instance_id r) (Kept.run_id r) (Kept.c_agent r) (Kept.b_bytes b) (Kept.b_cut b) (Kept.swept r) (Kept.created_at r) now)
       _ (Kept.b_entries b) (Kept.b_added b) _ Hw (λ _, eq_refl)) as Hrow.
    fold d3 in Hrow. destruct (HT _ Hrow) as [Hcut _]. cbn [Kept.cut] in Hcut.
    split; [intros c E; rewrite <- (Hc c E); done|]. rewrite E3.
    pose proof Hb as Hg. apply KeptProofs.appendLoop_grown in Hg as [(new & En & _) _ _ _ _]; [|done]. cbn [Kept.b_entries] in En.
    rewrite Ee in En. split.
    + intros HR. eapply (appendLoop_rows G) in Hb as (R1 & R2 & R3); [|done| | |done].
      * split; [done|]. intros e He. apply R3. by apply orderBy_elem.
      * intros e He%orderBy_elem. auto.
      * cbn [Kept.b_entries]. by rewrite Ee.
    + intros r Hr. rewrite En. set_solver.
Qed.

(** ** What else happens to the store *)

Lemma elsewhere_step rs d d' : elsewhere inst d rs d' → KeptProofs.step d d'.
Proof. intros []; econstructor; eassumption. Qed.

Lemma no_row_no_entries d :
  KeptProofs.Inv d → Kept.row inst d = None → filter (λ r, Kept.r_instance r = inst) (Kept.entries d) = [].
Proof.
  intros HI Hn%KeptProofs.row_none. apply filter_none, Forall_forall. intros r Hr E.
  destruct (KeptProofs.i_owner d HI r Hr) as (c & Hc & Ec & _). apply Hn. rewrite <- E, <- Ec. by apply list_elem_of_fmap_2.
Qed.

Lemma updateConv_other inst' f l :
  inst' ≠ inst → (∀ r, Kept.instance_id (f r) = Kept.instance_id r) →
  head (filter (λ r, Kept.instance_id r = inst) (Kept.updateConv inst' f l)) = head (filter (λ r, Kept.instance_id r = inst) l).
Proof.
  intros Hne Hf. unfold Kept.updateConv. induction l as [|x l IH]; [done|]. rewrite fmap_cons, !filter_cons.
  destruct (decide (Kept.instance_id x = inst')) as [E|E].
  - rewrite bool_decide_eq_true_2 by done. rewrite Hf, !decide_False by congruence. exact IH.
  - rewrite bool_decide_eq_false_2 by done. destruct (decide (Kept.instance_id x = inst)); [done|exact IH].
Qed.

Lemma append_other runId inst' ag' sent now d r d' :
  inst' ≠ inst → Kept.append runId inst' ag' sent now d = Ok (r, d') → KeptProofs.sameConv inst d d'.
Proof.
  intros Hne Ha.
  assert (KeptProofs.sameConv inst d (KeptProofs.withRow runId inst' ag' now d)) as [W1 W2].
  { unfold KeptProofs.withRow, KeptProofs.sameConv. destruct (Kept.row inst' d); [done|]. split; [|done].
    unfold Kept.row. cbn. rewrite filter_app, filter_cons, decide_False by done. by rewrite app_nil_r. }
  apply KeptProofs.append_cases in Ha as [(_ & _ & ->)|(_ & _ & b & Hb & _ & ->)]; [done|].
  apply KeptProofs.appendLoop_grown in Hb as [(new & En & Hn & _) _ _ _ _]; [|done]. cbn [Kept.b_entries] in En.
  match goal with |- KeptProofs.sameConv _ _ (Kept.notify _ ?l ?d2) => destruct (KeptProofs.notify_fields inst' l d2) as (N1 & N2 & _) end.
  split.
  - rewrite <- W1. unfold Kept.row. rewrite N1. by apply updateConv_other.
  - rewrite N2, <- W2. cbn [Kept.entries Kept.set_entries]. rewrite En, filter_app, (filter_none _ new), app_nil_r; [done|].
    eapply Forall_impl; [exact Hn|]. cbn. congruence.
Qed.

Lemma deleteRuns_row rs d c :
  Kept.row inst d = Some c → Kept.run_id c ∉ rs → Kept.row inst (Kept.deleteRuns rs d) = Some c.
Proof.
  unfold Kept.deleteRuns. revert d. induction rs as [|r rs IH]; intros d Hc Hr; simpl; [done|].
  apply not_elem_of_cons in Hr as [Hne Hr]. apply IH; [|done]. revert Hc.
  unfold Kept.row, Kept.deleteRun. cbn [Kept.conversations Kept.set_conversations Kept.deleteEntriesOf Kept.set_entries].
  induction (Kept.conversations d) as [|x l IHl]; [done|]. rewrite !filter_cons.
  destruct (decide (Kept.instance_id x = inst)) as [E|E].
  - intros [= ->]. rewrite decide_True by done. by rewrite filter_cons_True.
  - intros Hl. destruct (decide (Kept.run_id x ≠ r)); [rewrite filter_cons_False by done|]; auto.
Qed.

(** Nothing else touches a conversation that is still kept. *)
Lemma elsewhere_same rs d d' :
  KeptProofs.Inv d → elsewhere inst d rs d' → runOf inst ∉ rs →
  (∀ c, Kept.row inst d = Some c → Kept.run_id c = runOf inst) → takes d' →
  KeptProofs.sameConv inst d d'.
Proof.
  intros HI He Hrs Hrun HT. pose proof (KeptProofs.kept_step d d' HI (elsewhere_step _ _ _ He)) as HI'.
  destruct He as [runId inst' ag' sent now r d' Hne Ha|rs|runId now| | |]; try done; [by eapply append_other| |].
  - destruct (Kept.row inst d) as [c|] eqn:Ec.
    + rewrite <- (Hrun c eq_refl) in Hrs. destruct (KeptProofs.row_spec _ _ _ Ec) as [Hin Hid]. split.
      * by rewrite (deleteRuns_row rs d c), Ec.
      * rewrite <- Hid. by apply KeptProofs.deleteRuns_entries.
    + assert (Kept.row inst (Kept.deleteRuns rs d) = None) as En.
      { destruct (Kept.row inst (Kept.deleteRuns rs d)) as [c|] eqn:E; [|done]. exfalso.
        apply KeptProofs.row_spec in E as [Hin Hid]. apply KeptProofs.deleteRuns_convs in Hin as [Hin _].
        apply KeptProofs.row_none in Ec. apply Ec. rewrite <- Hid. by apply list_elem_of_fmap_2. }
      split; [congruence|]. by rewrite !no_row_no_entries.
  - destruct (Kept.row inst d) as [c|] eqn:Ec.
    + destruct (decide (Kept.run_id c = runId)) as [E|E]; [exfalso|by eapply KeptProofs.sweepForSpace_other].
      assert (∃ c', Kept.row inst (Kept.sweepForSpace runId now d) = Some c' ∧ Kept.swept c' ≠ None) as (c' & Hc' & Hs).
      { clear -Ec E. revert Ec. unfold Kept.row, Kept.sweepForSpace. cbn [Kept.conversations Kept.set_conversations Kept.deleteEntriesOf Kept.set_entries].
        induction (Kept.conversations d) as [|x l IHl]; [done|]. rewrite fmap_cons, !filter_cons.
        destruct (decide (Kept.instance_id x = inst)) as [Ex|Ex].
        - intros [= ->]. rewrite bool_decide_eq_true_2 by done. cbn [Kept.instance_id]. rewrite decide_True by done. by eexists.
        - intros Hl. rewrite decide_False by (by case_bool_decide). auto. }
      destruct (HT c' Hc'). done.
    + assert (Kept.row inst (Kept.sweepForSpace runId now d) = None) as En.
      { destruct (Kept.row inst (Kept.sweepForSpace runId now d)) as [c|] eqn:E; [|done]. exfalso.
        apply KeptProofs.row_spec in E as [(x & -> & Hin)%list_elem_of_fmap Hid]. apply KeptProofs.row_none in Ec. apply Ec.
        apply list_elem_of_fmap. exists x. split; [|done]. rewrite <- Hid. by case_bool_decide. }
      split; [congruence|]. by rewrite !no_row_no_entries.
Qed.
End Rows.

(** ** The keeper's side *)

(** What a step leaves of the entries. *)
Definition dataOf (k : Keeper) := (added k, done_ k, nextSeq k, cutDone k).

Lemma start_data k : dataOf (start k) = dataOf k.
Proof. unfold start. by split_match. Qed.

Lemma schedule_data ms k : dataOf (schedule ms k) = dataOf k.
Proof. unfold schedule. by split_match. Qed.

Lemma writeState_data k : dataOf (writeState k) = dataOf k.
Proof. unfold writeState. by split_match. Qed.

Lemma own_data k k' : own k k' → dataOf k' = dataOf k.
Proof.
  intros []; unfold kick, close, kick, timerFires, setSlot, sendEnds; cbv zeta.
  - by rewrite start_data.
  - by rewrite start_data.
  - destruct (bool_decide _); [done|]. by rewrite writeState_data.
  - by rewrite start_data.
  - done.
  - split_match; by rewrite ?start_data, ?schedule_data.
Qed.

Lemma own_step k k' : own k k' → step k k'.
Proof. intros []; by econstructor. Qed.

Lemma add_data uuid iso body k (e := Keep.entryOf uuid iso body k) :
  dataOf (add uuid iso body k)
  = (added k ++ [e], (if cutDone k then done_ k ++ [e] else done_ k), nextSeq k + 1, cutDone k).
Proof.
  assert (dataOf (stored e k)
    = (added k ++ [e], (if cutDone k then done_ k ++ [e] else done_ k), nextSeq k + 1, cutDone k)) as Hs.
  { unfold stored. cbv zeta. destruct (entriesPath _); cbn [cutDone set_added set_disk set_nextSeq]; destruct (cutDone k) eqn:Ec; unfold dataOf; cbn -[Z.add]; by rewrite Ec. }
  unfold add. fold e. destruct (cutDone k); [exact Hs|]. by rewrite schedule_data.
Qed.

Lemma answered_data b a k :
  a ≠ again →
  dataOf (answered b (Some a) k)
  = (added k, (if decide (a = cut) then done_ k ++ pendingEntries k else done_ k ++ b), nextSeq k,
     if decide (a = cut) then true else cutDone k).
Proof.
  intros Ha. unfold answered. cbv zeta. destruct a; [|done|..]; cbn -[writeState dataOf]; rewrite writeState_data;
    unfold dataOf; cbn; by rewrite ?orb_false_r, ?orb_true_r.
Qed.

(** A keeper that a process starts with. *)
Lemma newKeeper_start d send iv mb now fs xs t st :
  diskHolds d fs xs t st →
  let k := newKeeper (Some d) send iv mb now fs in
  cutDone k = false ∧ (xs = [] → nextSeq k = now * 1000).
Proof.
  intros HD. cbv zeta. rewrite (newKeeper_resumed d send iv mb now fs xs t st HD).
  match goal with |- context [resumed ?a ?b ?c ?e ?f ?g ?h ?i ?j] => set (k := resumed a b c e f g h i j) end.
  assert (cutDone k = false ∧ (xs = [] → nextSeq k = now * 1000)) as [E1 E2] by (split; [done|by intros ->]).
  destruct (_ =? 0)%nat; [done|]. pose proof (schedule_data 0 k) as [= _ _ -> ->]. done.
Qed.

(** Memory, disk and the wire of one conversation: [G] was given, [A] was
    answered with [kept]. *)
Record KeeperInv (k : Keeper) (d : Record.path) (W : list (list KeptEntry)) (G A : list KeptEntry) (st : bool) : Prop := {
  v_inv : Inv k;
  v_paths : pathsOf k = (Some (entriesFile d), Some (stateFile d));
  v_given : ∃ old, G = old ++ added k;
  v_sorted : StronglySorted earlier G;
  v_below : Forall (λ e, 0 <= seq e < nextSeq k) G;
  v_ids : NoDup (id <$> G);
  v_ok : Forall entry_ok G;
  v_wire : ∀ b e, b ∈ W → e ∈ b → e ∈ G;
  v_flight : ∀ b, inFlight k = Sending b → b ∈ W;
  v_acked : ∀ e, e ∈ A → e ∈ G;
  v_done : st = false → cutDone k = false ∧ ∀ e, e ∈ done_ k → e ∈ A;
}.

(** What [k] sends is among what it was given. *)
Lemma keeperInv_sends k d W G A st :
  Inv k → pathsOf k = (Some (entriesFile d), Some (stateFile d)) → (∃ old, G = old ++ added k) →
  StronglySorted earlier G → Forall (λ e, 0 <= seq e < nextSeq k) G → NoDup (id <$> G) → Forall entry_ok G →
  (∀ b e, b ∈ W → e ∈ b → e ∈ G) → (∀ e, e ∈ A → e ∈ G) →
  (st = false → cutDone k = false ∧ ∀ e, e ∈ done_ k → e ∈ A) →
  KeeperInv k d (W ++ flightOf k) G A st.
Proof.
  intros HI HP [old ->] HS HB HN HO HW HA HD. constructor; try done; [by exists old| |].
  - intros b e [Hb|Hb]%elem_of_app He; [by eapply HW|]. unfold flightOf in Hb.
    destruct (inFlight k) as [|b'|] eqn:Ef; [by apply elem_of_nil in Hb| |by apply elem_of_nil in Hb].
    apply list_elem_of_singleton in Hb as ->. destruct (i_flight k HI b' Ef) as [_ [rest Hr]].
    rewrite (i_split k HI), Hr. set_solver.
  - intros b Hb. unfold flightOf. rewrite Hb. set_solver.
Qed.

Lemma keeperInv_own k k' d W G A st :
  KeeperInv k d W G A st → own k k' → KeeperInv k' d (W ++ flightOf k') G A st.
Proof.
  intros [] Ho. pose proof (own_data k k' Ho) as [= E1 E2 E3 E4]. apply own_step in Ho as Hs.
  apply keeperInv_sends; rewrite ?E1, ?E2, ?E3, ?E4; try done; [by eapply inv_step|by rewrite (step_paths k k')].
Qed.

Lemma keeperInv_answer k b a d W G A st :
  KeeperInv k d W G A st → inFlight k = Sending b → a ≠ again →
  let k' := answered b (Some a) k in
  KeeperInv k' d (W ++ flightOf k') G (if isKept a then A ++ b else A) (st || negb (isKept a)).
Proof.
  intros [] Hf Ha. cbv zeta. pose proof (step_answer k b (Some a) Hf) as Hs.
  pose proof (answered_data b a k Ha) as [= E1 E2 E3 E4].
  apply keeperInv_sends; rewrite ?E1, ?E2, ?E3, ?E4; try done; [by eapply inv_step|by rewrite (step_paths k _ Hs)|..].
  { destruct (isKept a); [|done]. intros e [He|He]%elem_of_app; [auto|]. eapply v_wire0; [by apply v_flight0|done]. }
  intros [-> Hk]%orb_false_iff. destruct a; [|done..]. cbn [isKept]. rewrite !decide_False by done.
  destruct v_done0 as [Hc Hd]; [done|]. split; [done|]. set_solver.
Qed.

Lemma keeperInv_add uuid iso body k d W G A st (e := Keep.entryOf uuid iso body k) :
  KeeperInv k d W G A st → Forall unit_ok uuid → Forall unit_ok iso → Forall unit_ok body → uuid ∉ id <$> G →
  let k' := add uuid iso body k in
  KeeperInv k' d (W ++ flightOf k') (G ++ [e]) A st.
Proof.
  intros [HI HP [old ->] HS HB HN HO HW _ HA HD] H1 H2 H3 Hu. cbv zeta. pose proof (step_add k uuid iso body H1 H2 H3) as Hs.
  pose proof (add_data uuid iso body k) as [= E1 E2 E3 E4]. fold e in E1, E2.
  assert (seq e = nextSeq k ∧ id e = uuid) as [Hseq Hid] by (unfold e, Keep.entryOf; by destruct (label body) as [[]|]).
  apply keeperInv_sends; rewrite ?E1, ?E2, ?E3, ?E4.
  - by eapply inv_step.
  - by rewrite (step_paths k _ Hs).
  - exists old. by rewrite (assoc_L (++)).
  - apply sorted_snoc; [done|]. eapply Forall_impl; [exact HB|]. unfold earlier. cbn. lia.
  - apply Forall_app. split; [eapply Forall_impl; [exact HB|]; cbn; lia|]. constructor; [|done].
    pose proof (i_nextPos k HI). lia.
  - rewrite fmap_app. apply NoDup_app. split_and!; [done| |apply NoDup_singleton].
    intros x Hx ->%list_elem_of_singleton. by rewrite Hid in Hx.
  - apply Forall_app. split; [done|]. constructor; [by apply entryOf_ok|done].
  - intros b x Hb Hx. apply elem_of_app. left. by eapply HW.
  - intros x Hx. apply elem_of_app. left. by apply HA.
  - intros Hst. destruct (HD Hst) as [-> Hd]. done.
Qed.

(** A process that starts over a record folder. *)
Lemma keeperInv_start d send iv mb now fs xs t st W G A stop :
  diskHolds d fs xs t st → 0 <= now →
  (∃ old, G = old ++ xs) → StronglySorted earlier G → Forall (λ e, 0 <= seq e) G → NoDup (id <$> G) → Forall entry_ok G →
  (∀ b e, b ∈ W → e ∈ b → e ∈ G) → (∀ e, e ∈ A → e ∈ G) → (xs = [] → Forall (λ e, seq e < now * 1000) G) →
  (stop = false → ∀ e, e ∈ xs → seq e <= default (-1) (fst <$> st) → e ∈ A) →
  let k := newKeeper (Some d) send iv mb now fs in
  KeeperInv k d (W ++ flightOf k) G A stop.
Proof.
  intros HD Hn [old ->] HS HB HN HO HW HAG Hclock HA. cbv zeta.
  destruct (newKeeper_props d send iv mb now fs xs t st Hn HD) as (HI & HP & Ea & _ & Ed & _ & Hnext & _).
  destruct (newKeeper_start d send iv mb now fs xs t st HD) as [Hc Hseq].
  apply keeperInv_sends; rewrite ?Ea, ?Ed; try done; [by exists old| |].
  - rewrite Forall_forall in *. intros e He. split; [auto|]. destruct (last xs) as [l|] eqn:El.
    + rewrite (Hnext l eq_refl). apply last_snoc_inv in El as [ys ->]. rewrite (assoc_L (++)) in HS, He.
      apply elem_of_app in He as [He| ->%list_elem_of_singleton]; [|lia].
      pose proof (StronglySorted_app_1_elem_of earlier _ _ e l HS He) as Hlt. specialize (Hlt ltac:(by left)). unfold earlier in Hlt. lia.
    + apply last_None in El as ->. rewrite Hseq by done. by apply (Hclock eq_refl).
  - intros Hst. split; [done|]. intros e [He Hin]%list_elem_of_filter. apply HA; [done|done|lia].
Qed.

Lemma keeperInv_restart d k send iv mb now t W G A stop :
  KeeperInv k d W G A stop → 0 <= now → 10 ∉ t → (added k = [] → Forall (λ e, seq e < now * 1000) G) →
  let k' := newKeeper (Some d) send iv mb now (Record.appendFile (entriesFile d) t (disk k)) in
  KeeperInv k' d (W ++ flightOf k') G A stop.
Proof.
  intros [] Hn Ht Hclock. destruct (diskHolds_restart d k t v_inv0 v_paths0 Ht) as (st & HD & Hle).
  eapply (keeperInv_start _ _ _ _ _ _ _ _ _ _ _ _ _ HD); try done.
  - eapply Forall_impl; [exact v_below0|]. cbn. lia.
  - intros Hst e He Hseq. destruct (v_done0 Hst) as [Hc Hd]. apply Hd.
    rewrite (i_split k v_inv0) in He. apply elem_of_app in He as [He|He]; [done|exfalso].
    destruct (i_sent k v_inv0 Hc) as [_ Hp]. rewrite Forall_forall in Hp. specialize (Hp e He). lia.
Qed.

Lemma keeperInv_fresh d k d0 send iv mb now fs W G A stop :
  KeeperInv k d0 W G A stop → 0 <= now → Record.files fs !! entriesFile d = None → Record.files fs !! stateFile d = None →
  Forall (λ e, seq e < now * 1000) G →
  let k' := newKeeper (Some d) send iv mb now fs in
  KeeperInv k' d (W ++ flightOf k') G A stop.
Proof.
  intros [] Hn H1 H2 Hclock. eapply (keeperInv_start _ _ _ _ _ _ _ _ _ _ _ _ _ (diskHolds_fresh d fs H1 H2)); try done.
  - exists G. by rewrite app_nil_r.
  - eapply Forall_impl; [exact v_below0|]. cbn. lia.
  - intros _ e He. by apply elem_of_nil in He.
Qed.

Lemma sorted_compare (G : list KeptEntry) a b :
  StronglySorted earlier G → a ∈ G → b ∈ G → a = b ∨ earlier a b ∨ earlier b a.
Proof.
  induction 1 as [|x G _ IH Hx]; [by intros ?%elem_of_nil|]. rewrite Forall_forall in Hx.
  intros [->|Ha]%elem_of_cons [->|Hb]%elem_of_cons; auto.
Qed.

Lemma keeperInv_distinct k d W G A st : KeeperInv k d W G A st → distinct G.
Proof.
  intros []. split.
  - intros a b Ha Hb E. destruct (sorted_compare G a b) as [?|[?|?]]; try done; unfold earlier in *; lia.
  - intros a b [i Hi]%list_elem_of_lookup [j Hj]%list_elem_of_lookup E. assert (i = j) as <-; [|congruence].
    eapply NoDup_lookup; [exact v_ids0| |]; rewrite list_lookup_fmap; [by rewrite Hi|by rewrite Hj, E].
Qed.

(** ** The store's side *)

Lemma append_runs runId inst' ag' sent now d r d' c :
  Kept.append runId inst' ag' sent now d = Ok (r, d') → c ∈ Kept.conversations d' →
  (∃ c0, c0 ∈ Kept.conversations d ∧ Kept.instance_id c = Kept.instance_id c0 ∧ Kept.run_id c = Kept.run_id c0)
  ∨ (Kept.instance_id c = inst' ∧ Kept.run_id c = runId).
Proof.
  intros Ha Hc.
  assert (∃ c0, c0 ∈ Kept.conversations (KeptProofs.withRow runId inst' ag' now d)
                ∧ Kept.instance_id c = Kept.instance_id c0 ∧ Kept.run_id c = Kept.run_id c0) as (c0 & Hin & Ei & Er).
  { apply KeptProofs.append_cases in Ha as [(_ & _ & ->)|(_ & _ & b & _ & _ & ->)]; [by exists c|].
    match type of Hc with _ ∈ Kept.conversations (Kept.notify _ ?l ?d2) => rewrite (proj1 (KeptProofs.notify_fields inst' l d2)) in Hc end.
    cbn [Kept.conversations Kept.set_entries Kept.set_conversations] in Hc.
    apply KeptProofs.updateConv_elem in Hc as (c0 & Hc0 & [[_ ->]|[_ ->]]); by exists c0. }
  unfold KeptProofs.withRow in Hin. destruct (Kept.row inst' d); [left; eauto|].
  cbn in Hin. apply elem_of_app in Hin as [Hin| ->%list_elem_of_singleton]; [left; eauto|by right].
Qed.

Lemma conversationPlace_run inst h p : conversationPlace inst h = Ok (Some p) → p_runId p = runOf inst.
Proof.
  assert (∀ l o, p_runId (placeIn (runOf inst) l inst o) = runOf inst) as Hp.
  { intros l o. unfold placeIn. by destruct (ledgerRow inst o) as [[? [?|] ? ?]|]. }
  unfold conversationPlace. destruct (JsObject.objGet (runOf inst) (runs h)) as [o|]; [intros [= <-]; apply Hp|].
  destruct (JsObject.objGet (runOf inst) (unhosted h)) as [o|]; [intros [= <-]; apply Hp|]. intros (s & _ & H)%rbind_ok. destruct s; [|done]. injection H as <-. apply Hp.
Qed.

Section Store.
Variables inst ag : jstr.

Record StoreInv (d : Kept.Db) (rem : bool) (G A : list KeptEntry) (R : list (list KeptEntry * Response)) : Prop := {
  w_inv : KeptProofs.Inv d;
  w_run : ∀ c, c ∈ Kept.conversations d → Kept.instance_id c = inst → Kept.run_id c = runOf inst;
  w_rows : rem = false → takes inst d → rowsFrom inst ag G (Kept.entries d);
  w_acked : rem = false → takes inst d → ∀ e, e ∈ A → rowOf inst ag e ∈ Kept.entries d;
  w_replies : rem = false → takes inst d → ∀ b r e,
    (b, r) ∈ R → accepted r = true → saysCut r = false → e ∈ b → rowOf inst ag e ∈ Kept.entries d;
}.

Lemma storeInv_new cap G : StoreInv (Kept.newDb cap) false G [] [].
Proof.
  split; [apply KeptProofs.kept_new|..].
  - intros c Hc. by apply elem_of_nil in Hc.
  - intros _ _ r Hr. by apply elem_of_nil in Hr.
  - intros _ _ e He. by apply elem_of_nil in He.
  - intros _ _ b r e He. by apply elem_of_nil in He.
Qed.

Lemma storeInv_more d rem G A R G' : (∀ e, e ∈ G → e ∈ G') → StoreInv d rem G A R → StoreInv d rem G' A R.
Proof. intros HG []. split; try done. intros H1 H2 r Hr Hi. destruct (w_rows0 H1 H2 r Hr Hi) as (e & He & ->). eauto. Qed.

Lemma storeInv_acked d rem G A R b r :
  StoreInv d rem G A R → (b, r) ∈ R → accepted r = true → saysCut r = false → StoreInv d rem G (A ++ b) R.
Proof. intros [] Hin Ha Hc. split; try done. intros H1 H2 e [He|He]%elem_of_app; eauto. Qed.

Lemma storeInv_append d rem G A R b r runId' name entries_ now res d' :
  StoreInv d rem G A R → distinct G → (∀ e, e ∈ b → e ∈ G) → entries_ = b → name = ag → runId' = runOf inst →
  Kept.append runId' inst name entries_ now d = Ok (res, d') → StoreInv d' rem G A (R ++ [(b, r)]).
Proof.
  intros [] HG Hb -> -> -> Ha. split.
  - by eapply KeptProofs.kept_append.
  - intros c Hc Hi. destruct (append_runs _ _ _ _ _ _ _ _ c Ha Hc) as [(c0 & H1 & H2 & ->)|[_ ->]]; [|done].
    apply w_run0; [done|congruence].
  - intros Hr Ht. destruct (append_rows inst ag G _ _ _ _ _ _ HG Hb Ht Ha) as (T & R1 & R2). by apply R1, w_rows0.
  - intros Hr Ht e He. destruct (append_rows inst ag G _ _ _ _ _ _ HG Hb Ht Ha) as (T & R1 & R2). by apply R2, w_acked0.
  - intros Hr Ht b' r' e Hin Hok Hc He. destruct (append_rows inst ag G _ _ _ _ _ _ HG Hb Ht Ha) as (T & R1 & R2).
    apply elem_of_app in Hin as [Hin|[= -> ->]%list_elem_of_singleton]; [eapply R2, w_replies0; eauto|].
    destruct R1 as [_ R1]; [by apply w_rows0|]. auto.
Qed.

Lemma storeInv_elsewhere d rem G A R rs d' :
  StoreInv d rem G A R → elsewhere inst d rs d' → StoreInv d' (rem || bool_decide (runOf inst ∈ rs)) G A R.
Proof.
  intros [] He. pose proof (elsewhere_step inst _ _ _ He) as Hs.
  assert (∀ c, Kept.row inst d = Some c → Kept.run_id c = runOf inst) as Hrun.
  { intros c [H1 H2]%KeptProofs.row_spec. auto. }
  assert (rem || bool_decide (runOf inst ∈ rs) = false → takes inst d' → rem = false ∧ takes inst d
    ∧ ∀ r, Kept.r_instance r = inst → r ∈ Kept.entries d' ↔ r ∈ Kept.entries d) as HK.
  { intros [-> Hn%bool_decide_eq_false]%orb_false_iff Ht.
    destruct (elsewhere_same inst rs d d') as [S1 S2]; try done. split_and!; [done|intros c Hc; apply Ht; congruence|].
    intros r Hr. split; intros Hin.
    - assert (r ∈ filter (λ r, Kept.r_instance r = inst) (Kept.entries d)) as Hf; [rewrite <- S2; by apply list_elem_of_filter|].
      by apply list_elem_of_filter in Hf as [_ ?].
    - assert (r ∈ filter (λ r, Kept.r_instance r = inst) (Kept.entries d')) as Hf; [rewrite S2; by apply list_elem_of_filter|].
      by apply list_elem_of_filter in Hf as [_ ?]. }
  split.
  - by eapply KeptProofs.kept_step.
  - intros c Hc Hi. destruct He as [runId' inst' ag' sent now r d' Hne Ha|rs|runId' now| | |]; try (by apply w_run0).
    + destruct (append_runs _ _ _ _ _ _ _ _ c Ha Hc) as [(c0 & H1 & H2 & ->)|[Ei _]]; [|congruence]. apply w_run0; [done|congruence].
    + apply KeptProofs.deleteRuns_convs in Hc as [Hc _]. by apply w_run0.
    + apply list_elem_of_fmap in Hc as (x & -> & Hx). revert Hi. destruct (bool_decide (Kept.run_id x = runId')); intros Hi; by apply (w_run0 x).
  - intros Hr Ht r Hin Hi. destruct (HK Hr Ht) as (? & ? & E). apply E in Hin; [|done]. by apply w_rows0.
  - intros Hr Ht e Hin. destruct (HK Hr Ht) as (? & ? & E). apply E; [done|]. by apply w_acked0.
  - intros Hr Ht b r e Hin H1 H2 H3. destruct (HK Hr Ht) as (? & ? & E). apply E; [done|]. by eapply w_replies0.
Qed.

End Store.

(** ** The system *)

Section System.
Variable issue : json → jstr.
Variables inst ag : jstr.

Definition SysInv (s : Sys) : Prop :=
  KeeperInv (keeper s) (dir s) (wire s) (given s) (acked s) (stopped s)
  ∧ StoreInv inst ag (db s) (removed s) (given s) (acked s) (replies s).

Lemma sysInv_start s : sysStart s → SysInv s.
Proof.
  intros [d send iv mb now fs cap Hn H1 H2]. split; [|apply storeInv_new]. cbn.
  pose proof (keeperInv_start d send iv mb now fs [] [] None [] [] [] false (diskHolds_fresh d fs H1 H2) Hn) as HK.
  assert (flightOf (newKeeper (Some d) send iv mb now fs) = []) as Ef.
  { rewrite (newKeeper_resumed d send iv mb now fs [] [] None) by by apply diskHolds_fresh. by destruct send. }
  cbv zeta in HK. rewrite Ef in HK. apply HK; try done; try constructor; try (by exists []); set_solver.
Qed.

Lemma sysInv_deliver s b auth h now r d :
  SysInv s → b ∈ wire s → (∀ p a, conversationPlace inst h = Ok (Some p) → p_agent p = Some a → a = ag) →
  postConversation issue auth h inst (stringify (batchJson b)) now (Some (db s)) = (r, Some d) →
  StoreInv inst ag d (removed s) (given s) (acked s) (replies s ++ [(b, r)]).
Proof.
  intros [HK HS] Hb Hag Hp. assert (∀ e, e ∈ b → e ∈ given s) as HG by (intros e; by apply (v_wire _ _ _ _ _ _ HK)).
  assert (Forall entry_ok b) as Hok.
  { pose proof (v_ok _ _ _ _ _ _ HK) as Hv. rewrite Forall_forall in *. auto. }
  apply post_cases in Hp as [[-> Hr]|(p & es & pl & name & res & _ & _ & _ & Hread & Hpl & Hn & _ & Ha & _ & _)].
  - destruct HS. split; try done. intros H1 H2 b' r' e [Hin|[= -> ->]%list_elem_of_singleton]%elem_of_app; [eauto|congruence].
  - rewrite readJson_batch, conversationBatch_batch in Hread by done. destruct (forallb entryFits b); [|done]. injection Hread as <-.
    eapply storeInv_append; [exact HS|by eapply keeperInv_distinct|done|done| | |exact Ha].
    + by eapply Hag.
    + by eapply conversationPlace_run.
Qed.

Lemma sysInv_step s s' : SysInv s → sysStep issue inst ag s s' → SysInv s'.
Proof.
  intros HSI Hs. pose proof HSI as [HK HS]. destruct Hs as
    [uuid iso body H1 H2 H3 Hu k|k Ho|b auth h now r d Hb Hag Hp|b res Hf Hres a Ha|send iv mb now t Hn Ht Hclock
    |d' send iv mb now fs Hn H1 H2 Hclock|rs d He].
  - split; [by apply keeperInv_add|]. eapply storeInv_more; [|exact HS]. cbn. set_solver.
  - split; [by eapply keeperInv_own|exact HS].
  - split; [exact HK|]. exact (sysInv_deliver s b auth h now r d HSI Hb Hag Hp).
  - split; [by apply keeperInv_answer|]. cbn [db removed given acked replies withKeeper].
    destruct (isKept a) eqn:Ek; [|exact HS].
    destruct res as [r|]; [|done]. unfold a, keepAnswerOf in Ek.
    destruct (accepted r) eqn:Eacc; [|destruct (unreachable r); [done|]; by destruct (_ || _)].
    eapply storeInv_acked; [exact HS|by apply Hres|done|by destruct (saysCut r)].
  - split; [by apply keeperInv_restart|exact HS].
  - split; [by eapply keeperInv_fresh|exact HS].
  - split; [exact HK|]. by eapply storeInv_elsewhere.
Qed.

Lemma reached_inv s : reached issue inst ag s → SysInv s.
Proof. induction 1 as [s Hs|s s' _ IH Hs]; [by apply sysInv_start|by eapply sysInv_step]. Qed.

(** ** What a reader of the store reads *)

Definition bySeq (a b : Kept.EntryRow) : bool := Kept.r_seq a <? Kept.r_seq b.

Lemma parseAll_rows l :
  Forall unit_ok ag → Forall entry_ok l → Kept.parseAll (rowOf inst ag <$> l) = Ok (keptAs ag <$> l).
Proof.
  intros Hag. induction 1 as [|e l (H1 & H2 & H3 & H4) _ IH]; [done|].
  rewrite !fmap_cons. cbn [Kept.parseAll rowOf Kept.r_entry]. rewrite KeptProofs.parse_printEntry by done. by rewrite IH.
Qed.

(** The entries of [G] that have a row. *)
Definition keptOf (G : list KeptEntry) (es : list Kept.EntryRow) : list KeptEntry :=
  filter (λ e, Kept.hasId inst (id e) es = true) G.

Lemma ordered_rows G es :
  distinct G → StronglySorted earlier G → Forall (λ e, 0 <= seq e) G → NoDup (KeptProofs.seqKey <$> es) → rowsFrom inst ag G es →
  orderBy bySeq (filter (λ r, Kept.r_instance r = inst ∧ -1 < Kept.r_seq r) es) = rowOf inst ag <$> keptOf G es.
Proof.
  intros HG HS HP HN HR. set (rows := filter _ es).
  assert (∀ r, r ∈ rows ↔ r ∈ rowOf inst ag <$> keptOf G es) as Hel.
  { intros r. unfold rows, keptOf. rewrite list_elem_of_filter, list_elem_of_fmap. setoid_rewrite list_elem_of_filter. split.
    - intros [[Hi _] Hin]. destruct (HR r Hin Hi) as (e & He & ->). exists e. split_and!; [done| |done].
      apply KeptProofs.hasId_spec, list_elem_of_fmap. by exists (rowOf inst ag e).
    - intros (e & -> & Hid & He). rewrite Forall_forall in HP. specialize (HP e He). split; [split; [done|cbn; lia]|]. by eapply hasId_row. }
  assert (NoDup rows) as Hnd.
  { apply (NoDup_fmap_1 KeptProofs.seqKey). eapply sublist_NoDup; [exact HN|]. apply fmap_sublist, sublist_filter. }
  assert (StronglySorted (λ a b, bySeq a b = true) (rowOf inst ag <$> keptOf G es)) as Hsorted.
  { unfold keptOf. clear -HS. induction HS as [|e G HS IH He]; [constructor|]. rewrite filter_cons. destruct (decide _); [|done].
    rewrite fmap_cons. constructor; [done|]. apply Forall_forall. intros r (x & -> & [_ Hx]%list_elem_of_filter)%list_elem_of_fmap.
    rewrite Forall_forall in He. unfold bySeq. cbn. apply Z.ltb_lt. by apply He. }
  assert (∀ r, bySeq r r = false) as Hirr by (intros r; apply Z.ltb_irrefl).
  assert (∀ a b c, bySeq a b = true → bySeq b c = true → bySeq a c = true) as Htr by (unfold bySeq; intros; zbool; lia).
  apply (sorted_unique bySeq); [done|done| |done|].
  - apply (orderBy_sorted bySeq (λ r, r ∈ rows)); [done|done| |by apply Forall_forall|done].
    intros a b (x & -> & Hx)%Hel%list_elem_of_fmap (y & -> & Hy)%Hel%list_elem_of_fmap. unfold bySeq. cbn. rewrite !Z.ltb_lt.
    unfold keptOf in *. rewrite list_elem_of_filter in Hx, Hy.
    destruct (sorted_compare G x y) as [->|[?|?]]; [done|tauto|tauto|by right; left|by left|by right; right].
  - rewrite orderBy_perm. apply NoDup_Permutation; [done| |exact Hel].
    apply (NoDup_fmap_1 Kept.r_seq). rewrite <- list_fmap_compose.
    change (Kept.r_seq ∘ rowOf inst ag) with seq. eapply sublist_NoDup; [|apply fmap_sublist, sublist_filter].
    clear -HS. induction HS as [|e G _ IH He]; [constructor|]. rewrite fmap_cons. constructor; [|done].
    intros (x & E & Hx)%list_elem_of_fmap. rewrite Forall_forall in He. specialize (He x Hx). unfold earlier in He. lia.
Qed.

Lemma limit_all {A} n (l : list A) : Z.of_nat (length l) <= n → limitTo n l = l.
Proof. intros Hn. unfold limitTo. destruct (Z.ltb_spec n 0); [done|]. apply take_ge. lia. Qed.

(** A sublist with every element of a list without repetition is the list. *)
Lemma sublist_full {A} (l k : list A) : sublist l k → NoDup k → (∀ x, x ∈ k → x ∈ l) → l = k.
Proof.
  induction 1 as [|x l k Hs IH|x l k Hs IH]; intros [Hx HN]%NoDup_cons Hin || intros HN Hin; [done|..].
  - f_equal. apply IH; [done|]. intros y Hy. assert (y ∈ x :: l) as [->|?]%elem_of_cons by (apply Hin; by right); done.
  - exfalso. apply Hx. eapply elem_of_sublist; [|exact Hs]. apply Hin. by left.
Qed.

(** C2: A kept conversation is what its Agent said. Over any interleaving of
    the Harness and the Orchestrator, with requests that are delivered late,
    repeatedly, out of order or never, lost answers, restarts of the Harness
    over its record, and pods that are lost and replaced: while the store
    keeps the conversation, reading it gives entries that the keepers were
    given, each once, in their order and word for word, and among them
    everything that was answered as kept. So while no batch was refused or cut
    it has every entry that the keeper is done with; and once the keeper of
    the only pod has nothing pending, it is the whole conversation. *)
Theorem conversation_is_kept s limit :
  Forall unit_ok ag → reached issue inst ag s → keeping inst s → Z.of_nat (length (given s)) <= limit →
  ∃ ks, Kept.entriesAfter inst (-1) limit (db s) = Ok (keptAs ag <$> ks)
    ∧ sublist ks (given s) ∧ NoDup ks ∧ (∀ e, e ∈ acked s → e ∈ ks)
    ∧ (stopped s = false → ∀ e, e ∈ done_ (keeper s) → e ∈ ks)
    ∧ (stopped s = false → given s = added (keeper s) → pendingEntries (keeper s) = [] → ks = given s).
Proof.
  intros Hag HR [Hrem Htk] Hlim. apply reached_inv in HR as [HK HS]. pose proof (keeperInv_distinct _ _ _ _ _ _ HK) as HD.
  destruct HS as [[_ [HN _] _ _ _] _ Hrows Hacked _]. specialize (Hrows Hrem Htk). specialize (Hacked Hrem Htk).
  destruct HK as [HI _ _ Hsort Hbel Hids Hok _ _ HA Hdone].
  assert (NoDup (given s)) as HNG by (by eapply NoDup_fmap_1).
  assert (sublist (keptOf (given s) (Kept.entries (db s))) (given s)) as Hsub by apply sublist_filter.
  assert (∀ e, e ∈ acked s → e ∈ keptOf (given s) (Kept.entries (db s))) as Hin.
  { intros e He. apply list_elem_of_filter. split; [|by apply HA].
    apply KeptProofs.hasId_spec, list_elem_of_fmap. exists (rowOf inst ag e). auto. }
  exists (keptOf (given s) (Kept.entries (db s))). split_and!.
  - unfold Kept.entriesAfter. rewrite (ordered_rows (given s)); try done.
    + rewrite limit_all; [|rewrite length_fmap; apply sublist_length in Hsub; lia]. apply parseAll_rows; [done|].
      rewrite Forall_forall in *. intros e [_ He]%list_elem_of_filter. auto.
    + eapply Forall_impl; [exact Hbel|]. cbn. lia.
  - done.
  - by eapply sublist_NoDup.
  - auto.
  - intros Hst e He. destruct (Hdone Hst) as [_ Hd]. auto.
  - intros Hst Hall Hp. apply sublist_full; [done|done|]. intros e He. destruct (Hdone Hst) as [_ Hd]. apply Hin, Hd.
    rewrite Hall, (i_split _ HI), Hp, app_nil_r in He. done.
Qed.
End System.

(** ** The sizes of requests *)

Lemma bytes_app a b m n : utf8ByteLength a <= m → utf8ByteLength b <= n → utf8ByteLength (a ++ b) <= m + n.
Proof. pose proof (utf8_app_le a b). lia. Qed.

Lemma boundEntryText_length t : strlen t < 2 ^ 53 → strlen (boundEntryText t) <= ENTRY_CHARS + 64.
Proof.
  intros Ht. unfold boundEntryText, ENTRY_CHARS. destruct (Z.leb_spec (strlen t) (64 * 1024)) as [?|Hlong]; [lia|]. cbv zeta.
  change (64 * 1024 / 2) with 32768. set (n := strlen t - 2 * 32768).
  assert (length (of_int n) <= 16)%nat as Hd.
  { apply to_radix_length; [lia| |lia]. change (10 ^ Z.of_nat 16) with 10000000000000000. change (2 ^ 53) with 9007199254740992 in Ht. lia. }
  unfold lastUnits, strlen in *. rewrite !length_app, length_drop.
  rewrite length_take.
  change (length [0x2026]) with 1%nat. change (length (js " [")) with 2%nat. change (length (js " characters cut] ")) with 17%nat. lia.
Qed.

(** The text of an entry, from its fields. *)
Lemma entry_bytes e :
  0 <= seq e <= MAX_SAFE_INTEGER →
  utf8ByteLength (print_line e) <= 200 + 6 * (strlen (id e) + strlen (at_ e) + strlen (kind e) + strlen (text e)).
Proof.
  intros Hs. assert (utf8ByteLength (of_Z (seq e)) <= 16) as Hn.
  { unfold of_Z. destruct (Z.ltb_spec (seq e) 0); [lia|]. rewrite utf8_ascii.
    - assert (length (of_int (seq e)) <= 16)%nat; [|lia]. apply to_radix_length; [lia| |lia].
      change (10 ^ Z.of_nat 16) with 10000000000000000. unfold MAX_SAFE_INTEGER in Hs. lia.
    - eapply Forall_impl; [apply digits_of_int; lia|]. intros c. unfold is_digit. rewrite andb_true_iff, !Z.leb_le. lia. }
  cbn [print_line entry_line entryJson stringify map join fst snd]. unfold strlen. rewrite <- !app_assoc.
  etransitivity.
  - repeat (eapply bytes_app; [first [apply quote_bytes|exact Hn|reflexivity]|]);
      first [apply quote_bytes|exact Hn|reflexivity].
  - cbn -[Z.mul Z.of_nat Z.add]. lia.
Qed.

Lemma join_bytes (l : list jstr) :
  utf8ByteLength (join [44] l) <= foldr (λ s n, utf8ByteLength s + n) 0 l + Z.of_nat (length l).
Proof.
  induction l as [|s [|t l] IH]; [done|cbn -[utf8ByteLength]; lia|].
  change (join [44] (s :: t :: l)) with (s ++ [44] ++ join [44] (t :: l)).
  pose proof (utf8_app_le s ([44] ++ join [44] (t :: l))). pose proof (utf8_app_le [44] (join [44] (t :: l))) as H1.
  change (utf8ByteLength [44]) with 1 in H1. remember (t :: l) as k. cbn [foldr length]. lia.
Qed.

(** The body is the entries, a comma for each, and a frame. *)
Lemma body_bytes b : utf8ByteLength (stringify (batchJson b)) <= batchBytes b + Z.of_nat (length b) + 70.
Proof.
  change (stringify (batchJson b)) with ([123] ++ (quote (js "entries") ++ [58] ++ [91] ++ join [44] (map stringify (entryJson <$> b)) ++ [93]) ++ [125]).
  rewrite <- !app_assoc.
  assert (utf8ByteLength (join [44] (map stringify (entryJson <$> b))) <= batchBytes b + Z.of_nat (length b)) as Hj.
  { etransitivity; [apply join_bytes|]. rewrite length_map, length_fmap. apply Z.add_le_mono_r.
    clear. unfold batchBytes. induction b as [|e b IH]; [done|]. rewrite fmap_cons. cbn [map foldr]. apply Z.add_le_mono; [reflexivity|exact IH]. }
  etransitivity.
  - repeat (eapply bytes_app; [first [exact Hj|apply quote_bytes|reflexivity]|]); reflexivity.
  - change (length (js "entries")) with 7%nat. cbn -[Z.mul Z.of_nat Z.add batchBytes]. lia.
Qed.

Lemma batchBytes_length b : Z.of_nat (length b) <= batchBytes b.
Proof.
  induction b as [|e b IH]; [done|]. rewrite batchBytes_cons. cbn [length].
  pose proof (utf8_pos (print_line e) (json_not_blank _)). lia.
Qed.

(** What [add] is given: the id and the time of the Harness, and a body that
    names its kind in at most 200 characters. *)
Definition sensible (e : KeptEntry) : Prop :=
  ∃ uuid iso body k, e = Keep.entryOf uuid iso body k
    ∧ Forall unit_ok uuid ∧ Forall unit_ok iso ∧ Forall unit_ok body
    ∧ 1 <= strlen uuid <= 200 ∧ strlen iso <= 64 ∧ strlen body < 2 ^ 53
    ∧ (∀ l rest, label body = Some (l, rest) → strlen l <= 200) ∧ 0 <= nextSeq k <= MAX_SAFE_INTEGER.

Lemma label_length body l r : label body = Some (l, r) → 1 <= strlen l ∧ strlen r <= strlen body.
Proof.
  assert (∀ s l r, labelEnd s = Some (l, r) → (length r <= length s)%nat) as He.
  { induction s as [|c s IH]; intros l' r'; [done|]. cbn [labelEnd]. destruct (c =? 93); [intros [= <- <-]; cbn; lia|].
    destruct (c =? 10); [done|]. destruct (labelEnd s) as [[l1 r1]|] eqn:E; [|done]. intros [= <- <-]. specialize (IH _ _ eq_refl). cbn. lia. }
  unfold label, strlen. destruct body as [|c s]; [done|]. destruct (c =? 91); [|done].
  destruct (labelEnd s) as [[[|x l1] r1]|] eqn:E; [done| |done]. intros [= <- <-]. specialize (He _ _ _ E). cbn [length].
  split; [lia|]. destruct r1 as [|d r1]; [cbn; lia|]. destruct (d =? 32); cbn [length] in *; lia.
Qed.

Lemma sensible_fits e :
  sensible e → entry_ok e ∧ entryFits e = true ∧ utf8ByteLength (print_line e) <= BATCH_BYTES.
Proof.
  intros (uuid & iso & body & k & -> & H1 & H2 & H3 & H4 & H5 & H6 & H7 & H8).
  destruct (entryOf_ok uuid iso body k H1 H2 H3) as [Hok Hseq]. split; [done|].
  set (e := Keep.entryOf uuid iso body k) in *.
  assert (id e = uuid ∧ at_ e = iso ∧ 1 <= strlen (kind e) <= 200 ∧ strlen (text e) <= ENTRY_CHARS + 64) as (Ei & Ea & Hk & Ht).
  { unfold e, Keep.entryOf. destruct (label body) as [[l r]|] eqn:El; cbn [id at_ kind text].
    - specialize (H7 l r eq_refl). apply label_length in El as [? ?]. split_and!; [done|done|lia|lia|].
      apply boundEntryText_length. lia.
    - split_and!; [done|done|by vm_compute|by vm_compute|]. by apply boundEntryText_length. }
  split.
  - unfold entryFits, stringBetween. rewrite Ei, Ea, Hseq. rewrite !andb_true_iff, !Z.leb_le. lia.
  - etransitivity; [apply entry_bytes; lia|]. rewrite Ei, Ea. unfold BATCH_BYTES, ENTRY_CHARS in *. lia.
Qed.

(** What a keeper sends, the route can read. A batch of a keeper's entries
    is within the 4 MiB that the route takes, with its frame and its commas, and
    the route reads exactly the entries that were sent; so one entry is never
    too large to be kept. It holds for bodies of any text that names its kind
    in at most 200 characters. *)
Theorem batches_fit pend (b := batchLoop false 0 pend) :
  Forall sensible pend →
  utf8ByteLength (stringify (batchJson b)) <= CONVERSATION_BATCH_MAX
  ∧ conversationBatch (readJson (stringify (batchJson b))) = Some b.
Proof.
  intros Hp. assert (Forall sensible b) as Hb.
  { destruct (batchLoop_prefix false 0 pend) as [rest E]. rewrite E in Hp. by apply Forall_app in Hp as [? _]. }
  split.
  - assert (batchBytes b <= BATCH_BYTES) as Hle.
    { unfold b. destruct pend as [|e l]; [by vm_compute|]. cbn [batchLoop andb]. rewrite batchBytes_cons.
      apply Forall_cons in Hp as [He _]. apply batchLoop_bytes. cbn. by apply sensible_fits. }
    pose proof (body_bytes b). pose proof (batchBytes_length b). unfold BATCH_BYTES, CONVERSATION_BATCH_MAX in *. lia.
  - rewrite readJson_batch, conversationBatch_batch.
    + assert (forallb entryFits b = true) as ->; [|done]. apply forallb_forall.
      intros e He%list_elem_of_In. rewrite Forall_forall in Hb. by apply sensible_fits, Hb.
    + eapply Forall_impl; [exact Hb|]. by intros e (? & _ & _)%sensible_fits.
Qed.

(** ** Who may write a conversation *)

(** The ledger of a run: of its registration, of the restore that left it
    unhosted, or of its row. *)
Definition ledgerFor (h : Host) (runId : jstr) (o : Ledger) : Prop :=
  JsObject.objGet runId (runs h) = Some o
  ∨ (JsObject.objGet runId (runs h) = None ∧ JsObject.objGet runId (unhosted h) = Some o)
  ∨ (JsObject.objGet runId (runs h) = None ∧ JsObject.objGet runId (unhosted h) = None
     ∧ ∃ s, Store.load runId (store h) = Ok (Some s) ∧ o = ledgerOf (Store.s_snapshot s)).

Lemma ledgerRow_member inst o adm :
  ledgerRow inst o = Some adm →
  ∃ key, JsObject.objGet key o = Some adm ∧ (default key (ad_instanceId adm) = inst ∨ rerollOf key inst = true).
Proof.
  assert (∀ r, r ∈ ledgerRows o → JsObject.objGet r.1 o = Some r.2) as Hrows.
  { intros [k a] (k' & _ & E)%list_elem_of_omap. destruct (JsObject.objGet k' o) eqn:Ek; [|done]. by injection E as <- <-. }
  assert (∀ (Q : jstr * AgentAdmission → Prop) `{∀ r, Decision (Q r)} r, head (filter Q (ledgerRows o)) = Some r → Q r ∧ r ∈ ledgerRows o) as Hh.
  { intros Q HQ r Hr. apply (proj1 (list_elem_of_filter Q (ledgerRows o) r)). destruct (filter Q _); [done|]. injection Hr as ->. left. }
  unfold ledgerRow. destruct (head (filter _ (ledgerRows o))) as [r|] eqn:E.
  - intros [= <-]. apply Hh in E as [? ?]. exists r.1. auto.
  - clear E. destruct (head (filter _ (ledgerRows o))) as [r|] eqn:E; [|done]. intros [= <-]. apply Hh in E as [? ?]. exists r.1. auto.
Qed.

Lemma conversationPlace_ledger inst h p ag :
  conversationPlace inst h = Ok (Some p) → p_agent p = Some ag →
  ∃ o adm, ledgerFor h (runOf inst) o ∧ ledgerRow inst o = Some adm
    ∧ ad_agent adm = Some ag ∧ ad_sandbox adm = p_sandbox p ∧ ad_slot adm = p_slot p.
Proof.
  assert (∀ l o, placeIn (runOf inst) l inst o = p → p_agent p = Some ag → ledgerFor h (runOf inst) o →
    ∃ o adm, ledgerFor h (runOf inst) o ∧ ledgerRow inst o = Some adm
      ∧ ad_agent adm = Some ag ∧ ad_sandbox adm = p_sandbox p ∧ ad_slot adm = p_slot p) as Hp.
  { intros l o <-. unfold placeIn. destruct (ledgerRow inst o) as [[i [a|] sb sl]|] eqn:El; cbn; [|done..].
    intros [= ->] Ho. by exists o, (mkAdmission i (Some ag) sb sl). }
  unfold conversationPlace. destruct (JsObject.objGet (runOf inst) (runs h)) as [o|] eqn:E1.
  { intros [= E] Ha. eapply Hp; [exact E|done|by left]. }
  destruct (JsObject.objGet (runOf inst) (unhosted h)) as [o|] eqn:E2.
  { intros [= E] Ha. eapply Hp; [exact E|done|by right; left]. }
  intros (s & Es & H)%rbind_ok Ha. destruct s as [s|]; [|done]. injection H as E.
  eapply Hp; [exact E|done|]. right; right. eauto.
Qed.

(** C22: Only its own pod writes a conversation. Where requests are
    authenticated, a request that the route accepts, or that changes the
    store at all, has the control token of the pod and the slot that the
    ledger of the conversation's run names, in a row of that conversation or
    of the one that a reroll replaced; what is written is the request's
    batch, under that row's Agent; and no other conversation changes. *)
Theorem only_its_pod_writes issue principal h inst raw now d r d' :
  postConversation issue (Some principal) h inst raw now (Some d) = (r, Some d') → accepted r = true ∨ d' ≠ d →
  ∃ sandbox slot ledger key adm ag entries res,
    principal = Some (agent sandbox slot)
    ∧ ledgerFor h (runOf inst) ledger ∧ JsObject.objGet key ledger = Some adm
    ∧ (default key (ad_instanceId adm) = inst ∨ rerollOf key inst = true)
    ∧ ad_sandbox adm = Some sandbox ∧ ad_slot adm = Some slot ∧ ad_agent adm = Some ag
    ∧ conversationBatch (readJson raw) = Some entries
    ∧ Kept.append (runOf inst) inst ag entries now d = Ok (res, d')
    ∧ ∀ other, other ≠ inst → KeptProofs.sameConv other d d'.
Proof.
  intros Hp Hch. apply post_cases in Hp as [[-> Hr]|(p & es & pl & ag & res & Hau & Hag & _ & Hread & Hpl & Hn & Hw & Ha & _ & _)].
  { destruct Hch; [congruence|done]. }
  destruct (conversationPlace_ledger _ _ _ _ Hpl Hn) as (o & adm & Ho & Hrow & Ead & Esb & Esl).
  destruct (ledgerRow_member _ _ _ Hrow) as (key & Hkey & Hof).
  rewrite (conversationPlace_run _ _ _ Hpl) in Ha.
  assert (principal = Some p) as ->.
  { revert Hau. unfold authenticated. destruct principal as [[]|]; try discriminate; by intros [= <-]. }
  specialize (Hag (ex_intro _ _ eq_refl)). destruct p as [| | |sb sl]; try discriminate.
  cbn [wrongToken] in Hw. apply negb_false_iff, andb_true_iff in Hw as [H1%bool_decide_eq_true H2%bool_decide_eq_true].
  exists sb, sl, o, key, adm, ag, es, res. split_and!; try done; [congruence|congruence|].
  intros other Hne. eapply append_other; [|exact Ha]. done.
Qed.

Lemma answered_done b a k : a ≠ again → a ≠ cut → done_ (answered b (Some a) k) = done_ k ++ b.
Proof. intros Ha Hc. pose proof (answered_data b a k Ha) as [= _ E _ _]. by rewrite decide_False in E. Qed.

(** One long name loses a batch. The keeper bounds the text of an entry but
    not its kind, which is the name that a model gave a tool: when one entry's
    kind has more than 200 characters, the route refuses the whole batch
    whatever the store and the ledger, the keeper takes that as final, and none
    of the batch's entries, however short, is pending any more or kept. *)
Theorem long_name_loses_batch issue sandbox slot h inst now d k b e :
  Inv k → inFlight k = Sending b → e ∈ b → 200 < strlen (kind e) →
  utf8ByteLength (stringify (batchJson b)) <= CONVERSATION_BATCH_MAX →
  let '(r, d') := postConversation issue (Some (Some (agent sandbox slot))) h inst (stringify (batchJson b)) now (Some d) in
  let k' := answered b (Some (keepAnswerOf (Some r))) k in
  d' = Some d ∧ keepAnswerOf (Some r) = refused ∧ pendingEntries k = b ++ pendingEntries k' ∧ done_ k' = done_ k ++ b.
Proof.
  intros HI Hf He Hk Hs. destruct (i_flight k HI b Hf) as [_ [rest Hr]].
  assert (Forall entry_ok b) as Hok.
  { pose proof (i_ok k HI) as Ho. rewrite (i_split k HI), Hr, !Forall_app in Ho. by destruct Ho as (_ & ? & _). }
  assert (forallb entryFits b = false) as Hfit.
  { apply not_true_iff_false. rewrite forallb_forall. intros Hall. apply list_elem_of_In in He. specialize (Hall e He).
    unfold entryFits, stringBetween in Hall. rewrite !andb_true_iff, !Z.leb_le in Hall. lia. }
  unfold postConversation. cbn [authenticated isAgent negb andb]. rewrite andb_false_r.
  destruct (Z.ltb_spec CONVERSATION_BATCH_MAX (utf8ByteLength (stringify (batchJson b)))); [lia|].
  rewrite readJson_batch, conversationBatch_batch, Hfit by done. cbv zeta. change (keepAnswerOf (Some (fault 400 _))) with refused.
  split_and!; [done|done| |].
  - unfold answered. cbn -[writeState pendingEntries drop]. rewrite writeState_pending. cbn -[drop]. by rewrite Hr, drop_app_length.
  - by apply answered_done.
Qed.

(** ** A run *)

Definition iid : jstr := js "run1/i1".
Definition coder : jstr := js "coder".

(** A host with one run, whose ledger names the conversation. *)
Definition host0 : Host :=
  mkHost [(js "run1", [(iid, mkAdmission None (Some coder) (Some (js "pod")) (Some (js "planner")))])] []
    (Store.mkStore [] [] [] 0 [] []).

Definition pod : option (option Principal) := Some (Some (agent (js "pod") (js "planner"))).

Definition s0 : Sys := mkSys w0 [js "d"] (Kept.newDb None) [] [] [] [] false false.
Definition s1 : Sys := withKeeper w1 s0.
Definition s2 : Sys :=
  withKeeper w2
    (mkSys w1 (dir s1) (db s1) (wire s1) (replies s1)
       (given s1 ++ [Keep.entryOf (js "u1") (js "t1") (js "[say] hi") w1]) (acked s1) (stopped s1) (removed s1)).
Definition s3 : Sys := withKeeper w3 s2.

Definition batch3 : list KeptEntry := default [] (head (wire s3)).
Definition body3 : jstr := stringify (batchJson batch3).
Definition post3 : Response * option Kept.Db := postConversation (λ _, []) pod host0 iid body3 (js "n1") (Some (db s3)).
Definition db4 : Kept.Db := default (db s3) post3.2.
Definition s4 : Sys :=
  mkSys (keeper s3) (dir s3) db4 (wire s3) (replies s3 ++ [(batch3, post3.1)]) (given s3) (acked s3) (stopped s3) (removed s3).
Definition s5 : Sys :=
  withKeeper (answered batch3 (Some (keepAnswerOf (Some post3.1))) (keeper s4))
    (mkSys (keeper s4) (dir s4) (db s4) (wire s4) (replies s4) (given s4)
       (if isKept (keepAnswerOf (Some post3.1)) then acked s4 ++ batch3 else acked s4)
       (stopped s4 || negb (isKept (keepAnswerOf (Some post3.1)))) (removed s4)).

Lemma post3_writes : postConversation (λ _, []) pod host0 iid body3 (js "n1") (Some (db s3)) = (post3.1, Some db4).
Proof. by vm_compute. Qed.

Lemma w2_timer : timer w2 = Some 1000.
Proof. by vm_compute. Qed.

Lemma w3_sends : inFlight w3 = Sending batch3 ∧ batch3 ∈ wire s3.
Proof.
  assert (wire s3 = [batch3]) as E by (by vm_compute). split; [by vm_compute|]. rewrite E. left.
Qed.

Lemma s5_reached : reached (λ _, []) iid coder s5.
Proof.
  assert (reached (λ _, []) iid coder s3) as H3.
  { eapply reached_step; [|apply sys_own, (own_timer w2 1000), w2_timer].
    eapply (reached_step _ _ _ s1).
    - eapply reached_step; [apply reached_start, (start_new [js "d"] true INTERVAL_MS MAX_BACKOFF_MS 5 Record.emptyFS None); [lia|done|done]|].
      apply (sys_own _ _ _ s0), own_slot, js_units.
    - apply (sys_add _ _ _ s1); [apply js_units..|]. change (given s1) with (@nil KeptEntry). apply not_elem_of_nil. }
  destruct w3_sends as [Hf Hw].
  eapply (reached_step _ _ _ s4).
  - eapply (reached_step _ _ _ s3); [exact H3|].
    apply (sys_deliver _ _ _ s3 batch3 pod host0 (js "n1")); [exact Hw| |exact post3_writes].
    intros p a Hp Ha.
    assert (conversationPlace iid host0 = Ok (Some (mkPlace (js "run1") true (Some coder) (Some (js "pod")) (Some (js "planner"))))) as E
      by (by vm_compute).
    rewrite E in Hp. injection Hp as <-. by injection Ha.
  - apply (sys_answer _ _ _ s4 batch3 (Some post3.1)); [exact Hf| |by vm_compute].
    intros r [= <-] _. unfold s4. cbn [replies]. set_solver.
Qed.

(** The store has what the Agent said, whole. *)
Lemma conversation_is_kept_witness :
  (∃ ks, Kept.entriesAfter iid (-1) 10 (db s5) = Ok (keptAs coder <$> ks) ∧ ks = given s5) ∧ length (given s5) = 1%nat.
Proof.
  split; [|by vm_compute].
  destruct (conversation_is_kept (λ _, []) iid coder s5 10) as (ks & H1 & _ & _ & _ & _ & H2).
  - apply js_units.
  - apply s5_reached.
  - split; [by vm_compute|]. intros c Hc.
    assert ((λ c, (Kept.cut c, Kept.swept c)) <$> Kept.row iid (db s5) = Some (false, None)) as E by (by vm_compute).
    rewrite Hc in E. by injection E.
  - by vm_compute.
  - exists ks. split; [exact H1|]. apply H2; by vm_compute.
Defined.

Lemma only_its_pod_writes_witness :
  ∃ sandbox slot, Some (agent (js "pod") (js "planner")) = Some (agent sandbox slot) ∧ KeptProofs.sameConv (js "run2/i1") (db s3) db4.
Proof.
  destruct (only_its_pod_writes (λ _, []) (Some (agent (js "pod") (js "planner"))) host0 iid body3 (js "n1") (db s3) post3.1 db4)
    as (sb & sl & _ & _ & _ & _ & _ & _ & H1 & _ & _ & _ & _ & _ & _ & _ & _ & H2).
  - exact post3_writes.
  - left. by vm_compute.
  - exists sb, sl. split; [exact H1|]. by apply H2.
Defined.

Lemma batches_fit_witness :
  conversationBatch (readJson (stringify (batchJson (batchLoop false 0 (pendingEntries w2))))) = Some (pendingEntries w2).
Proof.
  destruct (batches_fit (pendingEntries w2)) as [_ H].
  - assert (pendingEntries w2 = [Keep.entryOf (js "u1") (js "t1") (js "[say] hi") w1]) as -> by (by vm_compute).
    constructor; [|done]. exists (js "u1"), (js "t1"), (js "[say] hi"), w1. split_and!; try apply js_units; try (by vm_compute).
    intros l rest Hl. assert (label (js "[say] hi") = Some (js "say", js "hi")) as E by (by vm_compute).
    rewrite E in Hl. by injection Hl as <- <-.
  - rewrite H. by vm_compute.
Defined.

(** A batch with a name of 201 letters, and a greeting. *)
Definition longBody : jstr := [91] ++ repeat 97 201 ++ js "] x".
Definition l2 : Keeper := add (js "u1") (js "t1") longBody w1.
Definition l3 : Keeper := add (js "u2") (js "t2") (js "[say] hi") l2.
Definition l4 : Keeper := timerFires l3.
Definition longBatch : list KeptEntry := match inFlight l4 with Sending b => b | _ => [] end.

Lemma l4_inv : Inv l4.
Proof.
  apply (inv_step l3); [apply (step_timer l3 1000); by vm_compute|].
  apply (inv_step l2); [apply step_add; apply js_units|].
  apply (inv_step w1).
  - apply step_add; [apply js_units..|]. unfold longBody. rewrite !Forall_app. split_and!; [by constructor| |apply js_units].
    apply Forall_forall. intros c ->%list_elem_of_In%repeat_spec. done.
  - apply (inv_step w0); [apply step_slot, js_units|]. by apply (lives_inv [js "d"]), w0_lives.
Qed.

Lemma long_name_loses_batch_witness :
  let '(r, d') := postConversation (λ _, []) pod host0 iid (stringify (batchJson longBatch)) (js "n1") (Some (db s3)) in
  let k' := answered longBatch (Some (keepAnswerOf (Some r))) l4 in
  d' = Some (db s3) ∧ keepAnswerOf (Some r) = refused ∧ pendingEntries l4 = longBatch ++ pendingEntries k'
  ∧ done_ k' = done_ l4 ++ longBatch.
Proof.
  apply (long_name_loses_batch (λ _, []) (js "pod") (js "planner") host0 iid (js "n1") (db s3) l4 longBatch
           (default (sampleEntry 0) (head longBatch))).
  - exact l4_inv.
  - by vm_compute.
  - assert (∃ e l, longBatch = e :: l) as (e & l & ->) by (by vm_compute; eauto). left.
  - by vm_compute.
  - by vm_compute.
Defined.

End DeliveryProofs.
