(* ===== verification/Party.v ===== *)
(** * Parties: who may send which event into a Machine
    (orchestrator/src/party.ts, rest.ts, and the registration table of
    registration.ts)

    A Machine's states are a tree; a state is named by its path of keys from
    the root, so its parent is the path without its last key.  A guard that an
    author wrote is a [Reader]: the tree of what it reads of the event, which is
    what the Proxy of the code sees.  What xstate selects for a real event and
    what its [can] reads are parameters. *)

From Stdlib Require Import Lia ZArith.
From stdpp Require Import base list strings sets.
From S2P Require Import Prelude JsString Json JsObject.

Open Scope Z_scope.

Module Party.
Import Json.

(** ** Senders and events *)

Inductive PartyKind := agentParty | gateParty.

#[export] Instance PartyKind_eq_dec : EqDecision PartyKind.
Proof. solve_decision. Defined.

(** The Caller that a Gate's event carries. *)
Record SenderCaller := mkCaller { via : option jstr; name : option jstr; onBehalfOf : option jstr; checked : option (list jstr) }.

Record Sender := mkSender { party : PartyKind; sid : jstr; by_ : SenderCaller }.

Definition noCaller : SenderCaller := mkCaller None None None None.

Definition SENDER_KEY : jstr := js "sender".

Abbreviation Event := (JsObject.obj json).

Definition optMember (k : string) (v : option json) : list (jstr * json) :=
  match v with Some x => [(js k, x)] | None => [] end.

Definition senderJson (s : Sender) : json :=
  JObj ([(js "party", JStr (match party s with agentParty => js "agent" | gateParty => js "gate" end)); (js "id", JStr (sid s))]
        ++ optMember "via" (JStr <$> via (by_ s)) ++ optMember "name" (JStr <$> name (by_ s))
        ++ optMember "onBehalfOf" (JStr <$> onBehalfOf (by_ s))
        ++ optMember "checked" ((λ l, JArr (JStr <$> l)) <$> checked (by_ s))).

(** ** What a guard reads *)

(** [event.k] or [k in event]; and the keys, as a spread reads them. *)
Inductive Reader (A : Type) :=
| Ret (a : A)
| Throws
| ReadKey (k : jstr) (next_ : option json → Reader A)
| ReadKeys (next_ : list jstr → Reader A).
#[global] Arguments Ret {A}.
#[global] Arguments Throws {A}.
#[global] Arguments ReadKey {A}.
#[global] Arguments ReadKeys {A}.

(** The answer on an event ([None]: it threw), and the keys that were read by
    name, which are what the Proxy's traps see. *)
Fixpoint run {A} (r : Reader A) (e : Event) : option A * list jstr :=
  match r with
  | Ret a => (Some a, [])
  | Throws => (None, [])
  | ReadKey k next_ => let '(a, ks) := run (next_ (JsObject.objGet k e)) e in (a, k :: ks)
  | ReadKeys next_ => run (next_ e.*1) e
  end.

(** The keys that are not payload *)
Definition isPayload (k : jstr) : bool := negb (bool_decide (k = js "type") || bool_decide (k = SENDER_KEY)).

Definition looked (ks : list jstr) : bool := existsb isPayload ks.

(** ** Machines *)

Section Contexts.
Context {Ctx : Type}.

(** The [params] of a guard object: none, a value, or a function. *)
Inductive Params := PNone | PValue (v : json) | PFn (f : Ctx → Reader json).

(** A guard as it is written: by name, a function, or one of xstate's
    combinators. *)
Inductive Guard :=
| GRef (key : jstr) (params : Params)
| GFn (f : Ctx → option json → Reader bool)
| GAnd (members : list Guard)
| GOr (members : list Guard)
| GNot (members : list Guard).

Abbreviation path := (list jstr).

Record Transition := mkTransition {
  guard : option Guard;
  target : option (list path);
  actions : nat;
  reenter : bool;
}.

Record Invoke := mkInvoke { inv_src : option jstr; inv_id : jstr }.

Inductive NodeType := atomic | compound | parallel | final | history.

#[export] Instance NodeType_eq_dec : EqDecision NodeType.
Proof. solve_decision. Defined.

Inductive StateNode := mkNode {
  n_type : NodeType;
  invoke : list Invoke;
  transitions : list (jstr * list Transition);
  states : list (jstr * StateNode);
}.

Inductive ActorLogic := agentLogic | gateSlot | otherLogic.
Inductive Audience := agentOnly | external | any.

#[export] Instance ActorLogic_eq_dec : EqDecision ActorLogic.
Proof. solve_decision. Defined.

Record Machine := mkMachine {
  root : StateNode;
  actors : JsObject.obj ActorLogic;
  guards : jstr → option Guard;
  vocabulary : option (list (jstr * option Audience));
}.

(** A state value *)
Inductive Value := VStr (s : jstr) | VObj (l : list (jstr * Value)).

Inductive Status := active | done | error | stopped.

#[export] Instance Status_eq_dec : EqDecision Status.
Proof. solve_decision. Defined.

Record Snapshot := mkSnapshot {
  machine : Machine;
  value : Value;
  context : Ctx;
  status : Status;
  nodes : list path;  (** [_nodes] *)
  children : list (jstr * Status);
}.

(** An actor that invoked another: its snapshot when it is a Machine's, and its
    timers, as [scheduledFor] lists them: the id and the event's type. *)
Record Actor := mkActor { snapshotOf : option Snapshot; scheduled : list (jstr * jstr) }.

(** *** The tree *)

Fixpoint nodeAt (n : StateNode) (p : path) : option StateNode :=
  match p with
  | [] => Some n
  | k :: p' => c ← JsObject.objGet k (states n); nodeAt c p'
  end.

(** The state and the ones above it, nearest first: [for (n = p; n; n = n.parent)] *)
Fixpoint prefixes (p : path) : list path :=
  match p with
  | [] => [[]]
  | k :: p' => [] :: (cons k <$> prefixes p')
  end.

Definition upwards (p : path) : list path := rev (prefixes p).

(** *** Parties of a state *)

Definition isGateInvoke (inv : Invoke) (m : Machine) : bool :=
  match inv_src inv with
  | Some src => bool_decide (src = js "gate") || bool_decide (JsObject.objGet src (actors m) = Some gateSlot)
  | None => false
  end.

Definition partyOf (m : Machine) (inv : Invoke) : option Sender :=
  match inv_src inv with
  | None => None
  | Some src =>
      if isGateInvoke inv m then Some (mkSender gateParty (inv_id inv) noCaller)
      else if bool_decide (JsObject.objGet src (actors m) = Some agentLogic) then Some (mkSender agentParty src noCaller)
      else None
  end.

Definition partiesAt (n : StateNode) (m : Machine) : list Sender := omap (partyOf m) (invoke n).

Definition partiesOf (m : Machine) (p : path) : list Sender :=
  match nodeAt (root m) p with Some n => partiesAt n m | None => [] end.

Definition hasParty (m : Machine) (p : path) : bool := negb (bool_decide (length (partiesOf m p) = 0%nat)).

(** Every state, in document order. *)
Fixpoint nodesBelow (p : path) (n : StateNode) : list (path * StateNode) :=
  (p, n) :: flat_map (λ c, nodesBelow (p ++ [c.1]) c.2) (states n).

Definition allNodes (m : Machine) : list (path * StateNode) := nodesBelow [] (root m).

(** *** [sentBy] *)

Definition SENT_BY : jstr := js "jr2.sentBy".

Definition senderIdOf (v : json) : jstr :=
  match prop (js "id") v with Some (JStr s) => s | _ => [] end.

Definition sentByGuard (_ : Ctx) (params : option json) : Reader bool :=
  ReadKey SENDER_KEY (λ s,
    Ret (match s with
         | None => true
         | Some v => bool_decide (senderIdOf v = senderIdOf (default JNull params))
         end)).

(** The ids that a guard names, and whether a combinator hides one. *)
Fixpoint sentByIds (g : Guard) : option (list jstr * bool) :=
  let all := fix all (l : list Guard) : list (list jstr * bool) :=
    match l with
    | [] => []
    | g' :: l' => match sentByIds g' with Some m => m :: all l' | None => all l' end
    end in
  match g with
  | GRef k (PValue v) => if bool_decide (k = SENT_BY) then Some ([senderIdOf v], false) else None
  | GAnd l => match all l with
              | [] => None
              | named => Some (remove_dups (named ≫= fst), existsb snd named)
              end
  | GOr l | GNot l => match all l with [] => None | _ => Some ([], true) end
  | _ => None
  end.

Definition declines (g : option Guard) (senderId : jstr) : bool :=
  match g ≫= sentByIds with
  | Some (ids, false) => existsb (λ i, negb (bool_decide (i = senderId))) ids
  | _ => false
  end.

Definition senderIds (m : Machine) : list jstr * list jstr :=
  let ps := allNodes m ≫= λ n, partiesAt n.2 m in
  (sid <$> filter (λ s, party s = agentParty) ps, sid <$> filter (λ s, party s = gateParty) ps).

(** The first [sentBy] that names no party: its state, event and id. *)
Definition unknownSentBy (m : Machine) : option (path * jstr * jstr) :=
  let '(agents, gates) := senderIds m in
  head (allNodes m ≫= λ n, transitions n.2 ≫= λ w, w.2 ≫= λ t,
          (λ i, (n.1, w.1, i)) <$>
            filter (λ i, (i ∉ agents) ∧ (i ∉ gates)) (match guard t ≫= sentByIds with Some (ids, _) => ids | None => [] end)).

(** *** Who may take a writing *)

Definition isAncestorOrSelf (a b : path) : bool := existsb (λ n, bool_decide (n = a)) (upwards b).

Definition ownerOf (p : path) (m : Machine) : option path := head (filter (λ n, hasParty m n = true) (upwards p)).

Definition seatOf (s : Snapshot) (invokeId : jstr) : option path :=
  let found := fst <$> filter (λ n, existsb (λ i, bool_decide (inv_id i = invokeId)) (invoke n.2) = true) (allNodes (machine s)) in
  match found with
  | [] | [_] => head found
  | f :: _ => Some (default f (head (filter (λ p, p ∈ nodes s) found)))
  end.

(** The states from [source] up to [seat], [seat] left out. *)
Fixpoint until (seat : path) (l : list path) : list path :=
  match l with
  | [] => []
  | n :: l' => if bool_decide (n = seat) then [] else n :: until seat l'
  end.

Definition inReach (m : Machine) (seat source : path) : bool :=
  isAncestorOrSelf source seat
  || (isAncestorOrSelf seat source && forallb (λ n, negb (hasParty m n)) (until seat (upwards source))).

Definition audienceOf (m : Machine) (type : jstr) : option Audience :=
  v ← vocabulary m; a ← JsObject.objGet type v; a.

Definition mayTake (m : Machine) (sender : Sender) (seat source : path) (type : jstr) : bool :=
  if negb (inReach m seat source) then false
  else
    match audienceOf m type with
    | Some any => true
    | Some agentOnly => bool_decide (party sender = agentParty)
    | Some external => bool_decide (party sender ≠ agentParty)
    | None => match ownerOf source m with None => true | Some o => bool_decide (o = seat) end
    end.

(** ** Selection *)

Inductive Tri := yes | no | unknown.

#[export] Instance Tri_eq_dec : EqDecision Tri.
Proof. solve_decision. Defined.

Definition ofBool (b : bool) : Tri := if b then yes else no.

Definition triAnd (l : list Tri) : Tri :=
  if bool_decide (no ∈ l) then no else if bool_decide (unknown ∈ l) then unknown else yes.
Definition triOr (l : list Tri) : Tri :=
  if bool_decide (yes ∈ l) then yes else if bool_decide (unknown ∈ l) then unknown else no.
Definition triNot (l : list Tri) : Tri :=
  match l with unknown :: _ => unknown | yes :: _ => no | _ => yes end.

(** [None]: the evaluation threw. The fuel bounds the names that name names. *)
Fixpoint evalGuard (fuel : nat) (m : Machine) (ctx : Ctx) (g : Guard) (e : Event) : option Tri :=
  match fuel with
  | O => None
  | S f =>
      resolved ← match g with GRef k _ => guards m k | _ => Some g end;
      match resolved with
      | GRef _ _ => evalGuard f m ctx resolved e
      | GAnd l => triAnd <$> mapM (λ g', evalGuard f m ctx g' e) l
      | GOr l => triOr <$> mapM (λ g', evalGuard f m ctx g' e) l
      | GNot l => triNot <$> mapM (λ g', evalGuard f m ctx g' e) l
      | GFn fn =>
          params ← match g with
                   | GRef _ (PValue v) => Some (Some v)
                   | GRef _ (PFn pf) => Some <$> (run (pf ctx) e).1
                   | _ => Some None
                   end;
          let '(v, ks) := run (fn ctx params) e in
          b ← v;
          Some (if looked ks then unknown else ofBool b)
      end
  end.

(** Selection over the guards' answers: [pass] is whether a guard lets its
    writing be selected, [None] that it threw.  A selected writing comes with
    the state it is written on. *)
Definition candidates (n : StateNode) (type : jstr) : list Transition :=
  default [] (JsObject.objGet type (transitions n)) ++ default [] (JsObject.objGet (js "*") (transitions n)).

Fixpoint firstPassing (pass : Guard → option bool) (l : list Transition) : option (list Transition) :=
  match l with
  | [] => Some []
  | t :: l' =>
      match guard t with
      | None => Some [t]
      | Some g => b ← pass g; if b : bool then Some [t] else firstPassing pass l'
      end
  end.

Definition next (pass : Guard → option bool) (p : path) (n : StateNode) (type : jstr) : option (list (path * Transition)) :=
  match firstPassing pass (candidates n type) with Some ts => Some (map (pair p) ts) | None => None end.

Definition orElse {A} (inner : list A) (outer : option (list A)) : option (list A) :=
  match inner with [] => outer | _ => Some inner end.

(** The writings of every region whose value is not empty. *)
Definition selectRegions {A} (selectAt : jstr → Value → option (list A)) : list (jstr * Value) → option (list A) :=
  fix regions l :=
    match l with
    | [] => Some []
    | (k, sub) :: l' =>
        if (match sub with VStr [] => true | _ => false end) then regions l'
        else
          a ← selectAt k sub;
          b ← regions l';
          Some (a ++ b)
    end.

Fixpoint select (pass : Guard → option bool) (type : jstr) (p : path) (n : StateNode) (v : Value) : option (list (path * Transition)) :=
  match v with
  | VStr k =>
      c ← JsObject.objGet k (states n);
      inner ← next pass (p ++ [k]) c type;
      orElse inner (next pass p n type)
  | VObj [(k, sub)] =>
      c ← JsObject.objGet k (states n);
      inner ← select pass type (p ++ [k]) c sub;
      orElse inner (next pass p n type)
  | VObj l =>
      all ← selectRegions (λ k sub, c ← JsObject.objGet k (states n); select pass type (p ++ [k]) c sub) l;
      orElse all (next pass p n type)
  end.

Definition blindPass (fuel : nat) (m : Machine) (ctx : Ctx) (e : Event) (g : Guard) : option bool :=
  (λ t, negb (bool_decide (t = no))) <$> evalGuard fuel m ctx g e.

(** The event of the probe: its type and its sender. *)
Definition probe (type : jstr) (sender : option Sender) : Event :=
  (js "type", JStr type) :: match sender with Some s => [(SENDER_KEY, senderJson s)] | None => [] end.

Definition selectPayloadBlind (fuel : nat) (s : Snapshot) (type : jstr) (sender : option Sender) : option (list (path * Transition)) :=
  select (blindPass fuel (machine s) (context s) (probe type sender)) type [] (root (machine s)) (value s).

Definition moves (ts : list (path * Transition)) : bool :=
  existsb (λ t, bool_decide (is_Some (target t.2)) || (0 <? Z.of_nat (actions t.2))) ts.

(** ** What a registration may send *)

Record PartySeat := mkSeat { sender : option Sender; invokeId : option jstr; invoker : option Actor }.

Definition seated (reg : PartySeat) : option (Sender * path * Snapshot) :=
  s ← sender reg; i ← invokeId reg; a ← invoker reg; snap ← snapshotOf a; p ← seatOf snap i; Some (s, p, snap).

(** [None] is [undefined]: the question cannot be asked. *)
Definition takesNow (fuel : nat) (reg : PartySeat) (type : jstr) : option bool :=
  '(s, seat, snap) ← seated reg;
  Some (match selectPayloadBlind fuel snap type (Some s) with
        | None => true
        | Some ts => moves ts && forallb (λ t, mayTake (machine snap) s seat t.1 type) ts
        end).

Section Xstate.
(** [machine.getTransitionData(snapshot, event)]: the writings that xstate
    selects, [None] when a guard throws. *)
Variable getTransitionData : Snapshot → Event → option (list (path * Transition)).
(** [snapshot.can(event)], as a reader of the event. *)
Variable can : Snapshot → Reader bool.

Definition eventType (e : Event) : jstr := match JsObject.objGet (js "type") e with Some (JStr t) => t | _ => [] end.

(** The writings that are not the sender's: each with the parties that own it. *)
Definition notTaken (reg : PartySeat) (e : Event) : list (path * list Sender) :=
  match seated reg with
  | None => []
  | Some (s, seat, snap) =>
      match getTransitionData snap e with
      | None => []
      | Some ts =>
          (λ t, (t.1, match ownerOf t.1 (machine snap) with Some o => partiesOf (machine snap) o | None => [] end))
          <$> filter (λ t, mayTake (machine snap) s seat t.1 (eventType e) = false) ts
      end
  end.

(** Before the payload is known, with no sender to ask as. *)
Definition mayMove (inv : option Actor) (type : jstr) : bool :=
  match inv with
  | None => true
  | Some a =>
      match snapshotOf a with
      | None => true
      | Some snap =>
          let '(b, ks) := run (can snap) [(js "type", JStr type)] in
          match b with
          | Some true | None => true
          | Some false => existsb (λ k, negb (bool_decide (k = js "type"))) ks
          end
      end
  end.

Definition takenNow (fuel : nat) (reg : PartySeat) (type : jstr) : bool :=
  default (mayMove (invoker reg) type) (takesNow fuel reg type).

(** ** Rest *)

(** Is the state active? [last_] is the last key of its path. *)
Fixpoint isActiveFrom (last_ : option jstr) (v : option Value) (p : path) : bool :=
  match p with
  | [] => true
  | k :: p' =>
      match v with
      | Some (VStr s) => bool_decide (s = k) && bool_decide (last_ = Some k)
      | Some (VObj l) => match JsObject.objGet k l with Some v' => isActiveFrom last_ (Some v') p' | None => false end
      | None => false
      end
  end.

Definition isActive (s : Snapshot) (p : path) : bool := isActiveFrom (last p) (Some (value s)) p.

Definition member (k : jstr) (v : option Value) : option Value :=
  match v with Some (VObj l) => JsObject.objGet k l | _ => None end.

(** [const child = node.states[key]; if (child) ...] *)
Definition atKey {A} (f : StateNode → list A) (k : jstr) : list (jstr * StateNode) → list A :=
  fix go l := match l with [] => [] | (k', c) :: l' => if bool_decide (k = k') then f c else go l' end.

(** The states below, where the value names them: a parallel state's regions
    all are. *)
Fixpoint visitBelow (p : path) (n : StateNode) (v : option Value) : list path :=
  if bool_decide (n_type n = parallel) then
    flat_map (λ c, (p ++ [c.1]) :: visitBelow (p ++ [c.1]) c.2 (member c.1 v)) (states n)
  else
    match v with
    | Some (VStr k) => atKey (λ c, (p ++ [k]) :: visitBelow (p ++ [k]) c None) k (states n)
    | Some (VObj l) => flat_map (λ kv, atKey (λ c, (p ++ [kv.1]) :: visitBelow (p ++ [kv.1]) c (Some kv.2)) kv.1 (states n)) l
    | None => []
    end.

Definition valueAt (s : Snapshot) (p : path) : option Value := foldl (λ v k, member k v) (Some (value s)) p.

Definition activeBelow (s : Snapshot) (p : path) : list path :=
  match nodeAt (root (machine s)) p with
  | Some n => visitBelow p n (valueAt s p)
  | None => []
  end.

Definition isInside (n s : path) : bool := existsb (λ a, bool_decide (a = s)) (upwards n).

Definition nodeTransitions (s : Snapshot) (p : path) (type : jstr) : list Transition :=
  match nodeAt (root (machine s)) p with Some n => default [] (JsObject.objGet type (transitions n)) | None => [] end.

(** A transition of [p] with a target inside [s], or [s] itself from [s]
    without re-entering it. *)
Definition movesInside (s p : path) (tr : Transition) : bool :=
  existsb (λ tgt, if bool_decide (tgt = s) then bool_decide (p = s) && negb (reenter tr) else isInside tgt s)
    (default [] (target tr)).

Definition handledInside (snap : Snapshot) (s : path) (type : jstr) : bool :=
  existsb (λ p, existsb (movesInside s p) (nodeTransitions snap p type)) (s :: activeBelow snap s).

Definition holdingTimers (a : Actor) (snap : Snapshot) (s : path) : list jstr :=
  fst <$> filter (λ t, handledInside snap s t.2 = true) (scheduled a).

Definition runningBelow (snap : Snapshot) (s : path) : list jstr :=
  activeBelow snap s ≫= λ p,
    match nodeAt (root (machine snap)) p with
    | Some n => inv_id <$> filter (λ i, JsObject.objGet (inv_id i) (children snap) = Some active) (invoke n)
    | None => []
    end.

Definition atRest (a : Actor) (snap : Snapshot) (s : path) : bool :=
  bool_decide (runningBelow snap s = []) && bool_decide (holdingTimers a snap s = []).

Inductive RestReading := rest | busy | gone.

#[export] Instance RestReading_eq_dec : EqDecision RestReading.
Proof. solve_decision. Defined.

Definition restOf (reg : PartySeat) : RestReading :=
  match invoker reg, invokeId reg with
  | Some a, Some i =>
      match snapshotOf a with
      | None => rest
      | Some snap =>
          if negb (bool_decide (status snap = active)) then gone
          else
            match seatOf snap i with
            | None => rest
            | Some seat => if negb (isActive snap seat) then gone else if atRest a snap seat then rest else busy
            end
      end
  | _, _ => rest
  end.

(** ** The registration table *)

(** A def: its name, and its schema over a payload. *)
Record EventDef := mkDef { def_name : jstr; safeParse : json → option (list (jstr * json)) }.

Record Registration := mkReg {
  address : jstr;
  runId : jstr;
  reg_id : jstr;
  defs : list (jstr * EventDef);
  menu : option (list (jstr * EventDef));
  seat_ : PartySeat;
}.

(** In Menu order, then the rest of the derived set. *)
Definition allowedPicks (fuel : nat) (reg : Registration) : list jstr :=
  if bool_decide (restOf (seat_ reg) = busy) then []
  else
    let ordered := remove_dups (filter (λ n, n ∈ (defs reg).*1) (default (defs reg) (menu reg)).*1 ++ (defs reg).*1) in
    filter (λ n, takenNow fuel (seat_ reg) n = true) ordered.

Definition acceptsNow (fuel : nat) (reg : Registration) : list jstr :=
  filter (λ n, takenNow fuel (seat_ reg) n = true) (defs reg).*1.

Inductive Refusal :=
| UnknownAddress
| SenderField
| NotAccepted
| InvalidPayload
| NotTaken (writings : list (path * list Sender)).

(** The sender that an event carries: a Gate's has its Caller. *)
Definition senderOf (s : Sender) (caller : option SenderCaller) : Sender :=
  match caller, party s with
  | Some c, gateParty => mkSender gateParty (sid s) c
  | _, _ => s
  end.

Definition eventOf (data : list (jstr * json)) (def : EventDef) (s : option Sender) : Event :=
  let e := JsObject.objSet (js "type") (JStr (def_name def)) data in
  match s with Some s => JsObject.objSet SENDER_KEY (senderJson s) e | None => e end.

(** [payload ?? {}] *)
Definition bodyOf (payload : option json) : json :=
  match payload with Some JNull | None => JObj [] | Some v => v end.

(** [SENDER_KEY in payload] *)
Definition hasSenderField (payload : option json) : bool := bool_decide (is_Some (v ← payload; prop SENDER_KEY v)).

(** [deliver]: the event that the Machine gets, or the refusal. *)
Definition deliver (reg : option Registration) (type : jstr) (payload : option json) (caller : option SenderCaller)
    : result Refusal Event :=
  match reg with
  | None => Throw UnknownAddress
  | Some reg =>
      if hasSenderField payload then Throw SenderField
      else
        match JsObject.objGet type (defs reg) with
        | None => Throw NotAccepted
        | Some def =>
            match safeParse def (bodyOf payload) with
            | None => Throw InvalidPayload
            | Some data =>
                let e := eventOf data def ((λ s, senderOf s caller) <$> sender (seat_ reg)) in
                match (if bool_decide (is_Some (sender (seat_ reg))) then notTaken (seat_ reg) e else []) with
                | [] => Ok e
                | others => Throw (NotTaken others)
                end
            end
        end
  end.

End Xstate.
End Contexts.

(** ** The table's own state *)

(** A registration call [n] has its address and its run; its disposer may run
    more than once, at any time. *)
Record Call := mkCall { c_id : nat; c_address : jstr; c_run : jstr }.

#[export] Instance Call_eq_dec : EqDecision Call.
Proof. solve_decision. Defined.

Record Table := mkTable {
  byAddress : JsObject.obj Call;
  ofRun : JsObject.obj (list Call);
  disposed : list nat;
  closedHeard : list Call;  (** what [watch.closed] was called with *)
}.

Definition newTable : Table := mkTable [] [] [] [].

(** [None]: the address is live already. *)
Definition register (c : Call) (t : Table) : option Table :=
  if bool_decide (is_Some (JsObject.objGet (c_address c) (byAddress t))) then None
  else
    let runRegs := default [] (JsObject.objGet (c_run c) (ofRun t)) in
    Some (mkTable (JsObject.objSet (c_address c) c (byAddress t))
            (JsObject.objSet (c_run c) (if bool_decide (c ∈ runRegs) then runRegs else runRegs ++ [c]) (ofRun t))
            (disposed t) (closedHeard t)).

Definition dispose (c : Call) (t : Table) : Table :=
  let byA := if bool_decide (JsObject.objGet (c_address c) (byAddress t) = Some c)
             then JsObject.objDel (c_address c) (byAddress t) else byAddress t in
  let ofR := match JsObject.objGet (c_run c) (ofRun t) with
             | None => ofRun t
             | Some l =>
                 let l' := filter (λ x, x ≠ c) l in
                 if bool_decide (l' = []) then JsObject.objDel (c_run c) (ofRun t) else JsObject.objSet (c_run c) l' (ofRun t)
             end in
  let first := bool_decide (c_id c ∉ disposed t) in
  mkTable byA ofR (if first then disposed t ++ [c_id c] else disposed t)
    (if first then closedHeard t ++ [c] else closedHeard t).

Definition lookupAt (a : jstr) (t : Table) : option Call := JsObject.objGet a (byAddress t).
Definition byRun (r : jstr) (t : Table) : list Call := default [] (JsObject.objGet r (ofRun t)).

End Party.
