(* ===== verification/PartyProofs.v ===== *)
(** * What the party rules promise

    The payload-blind list of picks against xstate's own selection, the
    writings that a delivery may run, the reading of Rest and the registration
    table, all of Party.v. *)

From Stdlib Require Import Lia ZArith.
From stdpp Require Import base list strings sets.
From S2P Require Import Prelude JsString Json JsObject Party.

Open Scope Z_scope.

Module PartyProofs.
Import Json Party.

(** ** Guards *)

(** Reads the event by name only. *)
Fixpoint tracked {A} (r : Reader A) : Prop :=
  match r with
  | Ret _ | Throws => True
  | ReadKey _ f => ∀ v, tracked (f v)
  | ReadKeys _ => False
  end.

(** Reads no payload. *)
Fixpoint readsNoPayload {A} (r : Reader A) : Prop :=
  match r with
  | Ret _ | Throws => True
  | ReadKey k f => isPayload k = false ∧ ∀ v, readsNoPayload (f v)
  | ReadKeys _ => False
  end.

(** Two events that agree outside the payload. *)
Definition agree (e e' : Event) : Prop := ∀ k, isPayload k = false → JsObject.objGet k e = JsObject.objGet k e'.

Lemma run_agree {A} (r : Reader A) e e' :
  tracked r → agree e e' → looked (run r e).2 = false → run r e' = run r e.
Proof.
  intros Ht Ha. induction r as [a| |k f IH|f IH]; simpl; try done.
  destruct (run (f (JsObject.objGet k e)) e) as [a ks] eqn:E. simpl. intros [Hk Hks]%orb_false_iff.
  rewrite <-(Ha _ Hk), (IH _ (Ht _)); by rewrite E.
Qed.

Lemma run_noPayload {A} (r : Reader A) e e' : readsNoPayload r → agree e e' → run r e' = run r e.
Proof.
  intros Ht Ha. induction r as [a| |k f IH|f IH]; simpl; try done.
  destruct Ht as [Hk Ht]. by rewrite <-(Ha _ Hk), (IH _ (Ht _)).
Qed.

Section Contexts.
Context {Ctx : Type}.
Implicit Types (m : @Machine Ctx) (g : @Guard Ctx) (n : @StateNode Ctx) (snap : @Snapshot Ctx).

Fixpoint trackedGuard (g : @Guard Ctx) : Prop :=
  let all := fix all (l : list Guard) : Prop := match l with [] => True | x :: l' => trackedGuard x ∧ all l' end in
  match g with
  | GRef _ (PFn f) => ∀ ctx, readsNoPayload (f ctx)
  | GRef _ _ => True
  | GFn f => ∀ ctx p, tracked (f ctx p)
  | GAnd l | GOr l | GNot l => all l
  end.

Definition trackedMachine m : Prop := ∀ k g, guards m k = Some g → trackedGuard g.

Lemma tracked_members l : (fix all (l : list Guard) : Prop := match l with [] => True | x :: l' => trackedGuard x ∧ all l' end) l → Forall trackedGuard l.
Proof. induction l; naive_solver. Qed.

(** What a guard answers on a real event: the first member that settles [and]
    or [or] ends it; [None] when it throws. *)
Fixpoint everyM {A} (f : A → option bool) (l : list A) : option bool :=
  match l with [] => Some true | x :: l' => b ← f x; if b : bool then everyM f l' else Some false end.
Fixpoint someM {A} (f : A → option bool) (l : list A) : option bool :=
  match l with [] => Some false | x :: l' => b ← f x; if b : bool then Some true else someM f l' end.

Fixpoint holdsGuard (fuel : nat) m (ctx : Ctx) g (e : Event) : option bool :=
  match fuel with
  | O => None
  | S f =>
      resolved ← match g with GRef k _ => guards m k | _ => Some g end;
      match resolved with
      | GRef _ _ => holdsGuard f m ctx resolved e
      | GAnd l => everyM (λ g', holdsGuard f m ctx g' e) l
      | GOr l => someM (λ g', holdsGuard f m ctx g' e) l
      | GNot l => match l with [] => Some true | g' :: _ => negb <$> holdsGuard f m ctx g' e end
      | GFn fn =>
          params ← match g with
                   | GRef _ (PValue v) => Some (Some v)
                   | GRef _ (PFn pf) => Some <$> (run (pf ctx) e).1
                   | _ => Some None
                   end;
          (run (fn ctx params) e).1
      end
  end.

(** [b] is an answer that [t] allows. *)
Definition fitsTri (t : Tri) (b : bool) : Prop :=
  match t with yes => b = true | no => b = false | unknown => True end.

Lemma everyM_true {A} (f : A → option bool) l : everyM f l = Some true ↔ Forall (λ x, f x = Some true) l.
Proof.
  induction l as [|x l IH]; simpl; [done|]. rewrite Forall_cons, <-IH.
  destruct (f x) as [[]|]; simpl; naive_solver.
Qed.

Lemma someM_false {A} (f : A → option bool) l : someM f l = Some false ↔ Forall (λ x, f x = Some false) l.
Proof.
  induction l as [|x l IH]; simpl; [done|]. rewrite Forall_cons, <-IH.
  destruct (f x) as [[]|]; simpl; naive_solver.
Qed.

Lemma everyM_false {A} (f : A → option bool) l : everyM f l = Some false → Exists (λ x, f x = Some false) l.
Proof.
  induction l as [|x l IH]; simpl; [done|]. destruct (f x) as [[]|] eqn:E; simpl; intros H; try done.
  - right. auto.
  - by left.
Qed.

Lemma someM_true {A} (f : A → option bool) l : someM f l = Some true → Exists (λ x, f x = Some true) l.
Proof.
  induction l as [|x l IH]; simpl; [done|]. destruct (f x) as [[]|] eqn:E; simpl; intros H; try done.
  - by left.
  - right. auto.
Qed.

Section Kleene.
Context (ev : @Guard Ctx → option Tri) (hd_ : @Guard Ctx → option bool).

Lemma triAnd_fits l ts b :
  Forall (λ g, ∀ t b, ev g = Some t → hd_ g = Some b → fitsTri t b) l →
  mapM ev l = Some ts → everyM hd_ l = Some b → fitsTri (triAnd ts) b.
Proof.
  intros Hl Hts%mapM_Some_1 Hb. unfold triAnd. destruct (bool_decide (no ∈ ts)) eqn:Eno.
  - apply bool_decide_eq_true in Eno. destruct b; [|done]. exfalso.
    apply list_elem_of_lookup in Eno as [i Hi]. apply everyM_true in Hb.
    destruct (Forall2_lookup_r _ _ _ _ _ Hts Hi) as (g & Hg & Hev).
    pose proof (Forall_lookup_1 _ _ _ _ Hl Hg _ _ Hev (Forall_lookup_1 _ _ _ _ Hb Hg)). done.
  - apply bool_decide_eq_false in Eno. destruct (bool_decide (unknown ∈ ts)) eqn:Eu; [done|].
    apply bool_decide_eq_false in Eu. destruct b; [done|]. exfalso.
    apply everyM_false, Exists_exists in Hb as (g & Hg & Hb).
    apply list_elem_of_lookup in Hg as [i Hi]. destruct (Forall2_lookup_l _ _ _ _ _ Hts Hi) as (t & Ht & Hev).
    pose proof (Forall_lookup_1 _ _ _ _ Hl Hi _ _ Hev Hb) as Hf.
    apply list_elem_of_lookup_2 in Ht. destruct t; done.
Qed.

Lemma triOr_fits l ts b :
  Forall (λ g, ∀ t b, ev g = Some t → hd_ g = Some b → fitsTri t b) l →
  mapM ev l = Some ts → someM hd_ l = Some b → fitsTri (triOr ts) b.
Proof.
  intros Hl Hts%mapM_Some_1 Hb. unfold triOr. destruct (bool_decide (yes ∈ ts)) eqn:Eno.
  - apply bool_decide_eq_true in Eno. destruct b; [done|]. exfalso.
    apply list_elem_of_lookup in Eno as [i Hi]. apply someM_false in Hb.
    destruct (Forall2_lookup_r _ _ _ _ _ Hts Hi) as (g & Hg & Hev).
    pose proof (Forall_lookup_1 _ _ _ _ Hl Hg _ _ Hev (Forall_lookup_1 _ _ _ _ Hb Hg)). done.
  - apply bool_decide_eq_false in Eno. destruct (bool_decide (unknown ∈ ts)) eqn:Eu; [done|].
    apply bool_decide_eq_false in Eu. destruct b; [|done]. exfalso.
    apply someM_true, Exists_exists in Hb as (g & Hg & Hb).
    apply list_elem_of_lookup in Hg as [i Hi]. destruct (Forall2_lookup_l _ _ _ _ _ Hts Hi) as (t & Ht & Hev).
    pose proof (Forall_lookup_1 _ _ _ _ Hl Hi _ _ Hev Hb) as Hf.
    apply list_elem_of_lookup_2 in Ht. destruct t; done.
Qed.

Lemma triNot_fits l ts b :
  Forall (λ g, ∀ t b, ev g = Some t → hd_ g = Some b → fitsTri t b) l →
  mapM ev l = Some ts → match l with [] => Some true | g' :: _ => negb <$> hd_ g' end = Some b → fitsTri (triNot ts) b.
Proof.
  intros Hl Hts%mapM_Some_1 Hb. destruct Hts as [|g t l ts Hg _]; simpl in *; [by simplify_eq|].
  apply Forall_cons in Hl as [Hf _]. apply fmap_Some in Hb as (b' & Hb & ->).
  specialize (Hf _ _ Hg Hb). destruct t; simpl in *; by subst.
Qed.
End Kleene.

(** The blind answer of a guard is never wrong: a certain one is the answer on
    every event that agrees with the probe outside the payload. *)
Lemma evalGuard_fits fuel m ctx e e' :
  trackedMachine m → agree e e' →
  ∀ g t b, trackedGuard g → evalGuard fuel m ctx g e = Some t → holdsGuard fuel m ctx g e' = Some b → fitsTri t b.
Proof.
  intros Hm Ha. induction fuel as [|fuel IH]; [done|]. intros g t b Hg. cbn [evalGuard holdsGuard].
  destruct (match g with GRef k _ => guards m k | _ => Some g end) as [r|] eqn:Er; [|done]. simpl.
  assert (Hr : trackedGuard r) by (destruct g; naive_solver).
  assert (Hmem : ∀ l, Forall trackedGuard l → Forall (λ g, ∀ t b, evalGuard fuel m ctx g e = Some t → holdsGuard fuel m ctx g e' = Some b → fitsTri t b) l)
    by (intros l Hl; eapply Forall_impl; [exact Hl|]; intros x Hx t' b'; by apply IH).
  destruct r as [k p|fn|l|l|l].
  - by apply IH.
  - rewrite !bind_Some. intros (ps & Hps & H1) (ps' & Hps' & H2).
    assert (ps' = ps) as ->.
    { destruct g as [k []| | | |]; simplify_eq; try done.
      rewrite (run_noPayload _ e e') in Hps' by (done || apply Hg). congruence. }
    destruct (run (fn ctx ps) e) as [v ks] eqn:E. apply bind_Some in H1 as (b' & -> & H1). simplify_eq.
    destruct (looked ks) eqn:El; [done|].
    rewrite (run_agree _ e e') in H2; [|apply Hr|done|by rewrite E]. rewrite E in H2. simpl in H2. injection H2 as <-. by destruct b'.
  - rewrite fmap_Some. intros (ts & Hts & ->). apply triAnd_fits with (2 := Hts), Hmem, tracked_members, Hr.
  - rewrite fmap_Some. intros (ts & Hts & ->). apply triOr_fits with (2 := Hts), Hmem, tracked_members, Hr.
  - rewrite fmap_Some. intros (ts & Hts & ->) Hb. eapply triNot_fits; [apply Hmem, tracked_members, Hr|done|done].
Qed.

(** ** The tree and its values *)

Lemma nodeAt_snoc n p k : nodeAt n (p ++ [k]) = c ← nodeAt n p; JsObject.objGet k (states c).
Proof.
  revert n. induction p as [|k' p IH]; intros n; simpl.
  - by destruct (JsObject.objGet k (states n)).
  - destruct (JsObject.objGet k' (states n)); simpl; auto.
Qed.

Lemma Value_nested_ind (P : Value → Prop) :
  (∀ s, P (VStr s)) → (∀ l, Forall (λ kv, P kv.2) l → P (VObj l)) → ∀ v, P v.
Proof.
  intros Hs Ho. fix IH 1. intros [s|l]; [apply Hs|]. apply Ho.
  induction l as [|[k v] l IHl]; constructor; [apply IH|apply IHl].
Qed.

(** *** The states above a state *)

Lemma upwards_snoc p k : upwards (p ++ [k]) = (p ++ [k]) :: upwards p.
Proof.
  unfold upwards. assert (prefixes (p ++ [k]) = prefixes p ++ [p ++ [k]]) as ->.
  { induction p as [|x p IH]; [done|]. simpl. by rewrite IH, fmap_app. }
  by rewrite rev_app_distr.
Qed.

Lemma prefix_snoc (q p : list jstr) k : q `prefix_of` p ++ [k] ↔ q = p ++ [k] ∨ q `prefix_of` p.
Proof.
  split.
  - intros [l Hl]. destruct l as [|x l _] using rev_ind.
    + left. by rewrite app_nil_r in Hl.
    + right. rewrite app_assoc in Hl. apply app_inj_tail in Hl as [-> _]. by exists l.
  - intros [->|H]; [done|]. by apply prefix_app_r.
Qed.

Lemma elem_of_upwards q p : q ∈ upwards p ↔ q `prefix_of` p.
Proof.
  induction p as [|k p IH] using rev_ind.
  - unfold upwards. simpl. rewrite list_elem_of_singleton. split; [by intros ->|]. intros [l Hl]. by destruct q.
  - by rewrite upwards_snoc, elem_of_cons, IH, prefix_snoc.
Qed.

Lemma isAncestorOrSelf_spec a b : isAncestorOrSelf a b = true ↔ a `prefix_of` b.
Proof.
  unfold isAncestorOrSelf. rewrite <-elem_of_upwards, existsb_exists. setoid_rewrite <-list_elem_of_In.
  split; [intros (x & Hx & ->%bool_decide_eq_true); done|]. intros. exists a. by rewrite bool_decide_eq_true.
Qed.

Lemma isInside_spec q p : isInside q p = true ↔ p `prefix_of` q.
Proof. apply isAncestorOrSelf_spec. Qed.

(** No state at or above [p], and strictly below [top], invokes a party. *)
Definition noPartyBelow m (top p : list jstr) : Prop :=
  ∀ q, q `prefix_of` p → top `prefix_of` q → q ≠ top → partiesOf m q = [].

Lemma hasParty_false m p : hasParty m p = false ↔ partiesOf m p = [].
Proof.
  unfold hasParty. rewrite negb_false_iff, bool_decide_eq_true. split; [apply nil_length_inv|by intros ->].
Qed.

Lemma elem_of_until seat p q : seat `prefix_of` p → q ∈ until seat (upwards p) ↔ q `prefix_of` p ∧ seat `prefix_of` q ∧ q ≠ seat.
Proof.
  induction p as [|k p IH] using rev_ind; intros Hp.
  - destruct Hp as [l Hl]. destruct seat; [|done]. simpl. split; [intros H; inversion H|].
    intros ([l' Hl'] & _ & Hq). by destruct q.
  - rewrite upwards_snoc. simpl. case_bool_decide as Hs.
    + split; [intros H; inversion H|]. subst seat. intros (Hq & Hq' & Hne). exfalso. apply Hne.
      by apply (anti_symm prefix).
    + apply prefix_snoc in Hp as [->|Hp]; [done|]. rewrite elem_of_cons, (IH Hp), prefix_snoc. split.
      * intros [->|(? & ? & ?)]; [|by auto]. split; [by left|]. split; [by apply prefix_app_r|done].
      * intros ([->|?] & ? & ?); auto.
Qed.

(** In reach: at or above the seat, or below it with no party between. *)
Definition Reach m (seat source : list jstr) : Prop :=
  source `prefix_of` seat ∨ (seat `prefix_of` source ∧ noPartyBelow m seat source).

Lemma inReach_spec m seat source : inReach m seat source = true ↔ Reach m seat source.
Proof.
  unfold inReach, Reach. rewrite orb_true_iff, andb_true_iff, !isAncestorOrSelf_spec.
  split; (intros [|[Hs H]]; [by left|right]); (split; [done|]).
  - intros q Hq Hsq Hne. apply hasParty_false. rewrite forallb_forall in H.
    apply negb_true_iff, H, list_elem_of_In, elem_of_until; auto.
  - apply forallb_forall. intros q Hq%list_elem_of_In. apply elem_of_until in Hq as (? & ? & ?); [|done].
    apply negb_true_iff, hasParty_false. by apply H.
Qed.

(** [o] is the nearest state at or above [p] that invokes a party. *)
Definition NearestParty m (p o : list jstr) : Prop :=
  o `prefix_of` p ∧ partiesOf m o ≠ [] ∧ noPartyBelow m o p.

Lemma ownerOf_Some m p o : ownerOf p m = Some o ↔ NearestParty m p o.
Proof.
  unfold ownerOf, NearestParty. induction p as [|k p IH] using rev_ind.
  - unfold upwards. simpl. rewrite filter_cons. destruct (decide (hasParty m [] = true)) as [H|H]; simpl.
    + split.
      * intros [= <-]. split; [done|]. split; [intros E%hasParty_false; congruence|].
        intros q [l Hl] _ Hq. by destruct q.
      * intros ([l Hl] & _). by destruct o.
    + split; [done|]. intros ([l Hl] & Hp & _). apply not_true_is_false, hasParty_false in H. by destruct o.
  - rewrite upwards_snoc, filter_cons. destruct (decide (hasParty m (p ++ [k]) = true)) as [H|H]; simpl.
    + split.
      * intros [= <-]. split; [done|]. split; [intros E%hasParty_false; congruence|].
        intros q Hq Hq' Hne. exfalso. by apply Hne, (anti_symm prefix).
      * intros (Ho & Hp & Hn). f_equal. destruct (decide (p ++ [k] = o)); [done|].
        specialize (Hn _ (reflexivity _) Ho n). apply hasParty_false in Hn. congruence.
    + apply not_true_is_false, hasParty_false in H. rewrite IH. split; intros (Ho & Hp & Hn).
      * split; [by apply prefix_app_r|]. split; [done|]. intros q [->|?]%prefix_snoc; auto.
      * apply prefix_snoc in Ho as [->|Ho]; [done|]. split; [done|]. split; [done|].
        intros q ?. apply Hn, prefix_snoc. auto.
Qed.

Lemma ownerOf_None m p : ownerOf p m = None ↔ ∀ q, q `prefix_of` p → partiesOf m q = [].
Proof.
  unfold ownerOf. rewrite head_None. split.
  - intros H q Hq%elem_of_upwards. apply hasParty_false. destruct (hasParty m q) eqn:E; [|done].
    assert (Hin : q ∈ filter (λ x, hasParty m x = true) (upwards p)) by by apply list_elem_of_filter.
    rewrite H in Hin. by apply not_elem_of_nil in Hin.
  - intros H. apply filter_none, Forall_forall. intros q Hq%elem_of_upwards Hp. apply H, hasParty_false in Hq. congruence.
Qed.

(** Owned: an unset audience gives a writing to the nearest party at or above
    it, and to everyone when there is none; a set one gives it by kind. *)
Definition Owned m (s : Sender) (seat source : list jstr) (type : jstr) : Prop :=
  match audienceOf m type with
  | Some any => True
  | Some agentOnly => party s = agentParty
  | Some external => party s = gateParty
  | None => (∀ q, q `prefix_of` source → partiesOf m q = []) ∨ NearestParty m source seat
  end.

Lemma mayTake_spec m s seat source type :
  mayTake m s seat source type = true ↔ Reach m seat source ∧ Owned m s seat source type.
Proof.
  unfold mayTake, Owned. rewrite <-inReach_spec. destruct (inReach m seat source); simpl; [|naive_solver].
  destruct (audienceOf m type) as [[]|].
  - rewrite bool_decide_eq_true. naive_solver.
  - rewrite bool_decide_eq_true. destruct (party s); naive_solver.
  - naive_solver.
  - rewrite <-ownerOf_None, <-ownerOf_Some. destruct (ownerOf source m); rewrite ?bool_decide_eq_true; naive_solver.
Qed.

(** ** Selection *)

(** The guards that selection may ask for an event of this type. *)
Definition askable m (type : jstr) (g : @Guard Ctx) : Prop :=
  ∃ p n t, nodeAt (root m) p = Some n ∧ t ∈ candidates n type ∧ guard t = Some g.

Lemma firstPassing_ext (f f' : Guard → option bool) (l : list (@Transition Ctx)) :
  (∀ t g, t ∈ l → guard t = Some g → f g = f' g) → firstPassing f l = firstPassing f' l.
Proof.
  induction l as [|t l IH]; intros H; simpl; [done|].
  destruct (guard t) as [g|] eqn:Eg; [|done]. rewrite (H t g) by (done || left).
  destruct (f' g) as [[]|]; simpl; try done. apply IH. intros t' g' ?. apply H. by right.
Qed.

Lemma next_ext m (f f' : Guard → option bool) type p n :
  (∀ g, askable m type g → f g = f' g) → nodeAt (root m) p = Some n → next f p n type = next f' p n type.
Proof.
  intros H Hn. unfold next. rewrite (firstPassing_ext f f'); [done|].
  intros t g Ht Hg. apply H. by exists p, n, t.
Qed.

Lemma selectRegions_ext {A} (f f' : jstr → Value → option (list A)) l :
  (∀ k v, (k, v) ∈ l → f k v = f' k v) → selectRegions f l = selectRegions f' l.
Proof.
  induction l as [|[k v] l IH]; intros H; [done|]. simpl.
  rewrite (H k v), IH; [done| |by left]. intros k' v' ?. apply H. by right.
Qed.

Lemma select_ext m (f f' : Guard → option bool) type v :
  (∀ g, askable m type g → f g = f' g) →
  ∀ p n, nodeAt (root m) p = Some n → select f type p n v = select f' type p n v.
Proof.
  intros H. induction v as [k|l IH] using Value_nested_ind; intros p n Hn.
  - simpl. destruct (JsObject.objGet k (states n)) as [c|] eqn:Ec; [|done]. simpl.
    rewrite (next_ext m f f' type (p ++ [k]) c) by (done || by rewrite nodeAt_snoc, Hn). by rewrite (next_ext m f f' type p n).
  - assert (Hsub : ∀ k c sub, JsObject.objGet k (states n) = Some c → (∃ kv, kv ∈ l ∧ kv.2 = sub) →
        select f type (p ++ [k]) c sub = select f' type (p ++ [k]) c sub).
    { intros k c sub Hc (kv & Hin & <-). apply (proj1 (Forall_forall _ _) IH); [done|]. by rewrite nodeAt_snoc, Hn. }
    clear IH. cbn [select]. rewrite (next_ext m f f' type p n) by done.
    destruct l as [|[k sub] [|x l]]; [done| |].
    + destruct (JsObject.objGet k (states n)) as [c|] eqn:Ec; [|done]. simpl.
      rewrite (Hsub k c sub); [done|done|]. exists (k, sub). split; [by left|done].
    + rewrite (selectRegions_ext _ (λ k sub, c ← JsObject.objGet k (states n); select f' type (p ++ [k]) c sub)); [done|].
      intros k' sub' Hin. destruct (JsObject.objGet k' (states n)) as [c|] eqn:Ec; [|done]. simpl. eauto.
Qed.

(** *** The list of picks and the delivery *)

Section Xstate.
Context (getTransitionData : @Snapshot Ctx → Event → option (list (list jstr * @Transition Ctx))).

(** What xstate documents of its selection: of each active state, deepest
    first, the first writing whose guard holds. *)
Definition selectsByGuards (fuel : nat) : Prop :=
  ∀ snap e, getTransitionData snap e
    = select (λ g, holdsGuard fuel (machine snap) (context snap) g e) (eventType e) [] (root (machine snap)) (value snap).

(** The payload of [e] passes every guard that the probe could not answer, and
    no guard that is asked throws. *)
Definition payloadPasses (fuel : nat) snap (s : Sender) (e : Event) : Prop :=
  ∀ g, askable (machine snap) (eventType e) g →
    trackedGuard g
    ∧ is_Some (holdsGuard fuel (machine snap) (context snap) g e)
    ∧ ∃ t, evalGuard fuel (machine snap) (context snap) g (probe (eventType e) (Some s)) = Some t
           ∧ (t = unknown → holdsGuard fuel (machine snap) (context snap) g e = Some true).

Lemma probe_agrees e (s : Sender) :
  JsObject.objGet (js "type") e = Some (JStr (eventType e)) → JsObject.objGet SENDER_KEY e = Some (senderJson s) →
  agree (probe (eventType e) (Some s)) e.
Proof.
  intros Ht Hs k [Hk|Hk]%negb_false_iff%orb_true_iff; apply bool_decide_eq_true in Hk as ->; by rewrite ?Ht, ?Hs.
Qed.

Lemma blind_selects fuel snap (s : Sender) e :
  selectsByGuards fuel → trackedMachine (machine snap) →
  agree (probe (eventType e) (Some s)) e → payloadPasses fuel snap s e →
  selectPayloadBlind fuel snap (eventType e) (Some s) = getTransitionData snap e.
Proof.
  intros Hx Hm Ha Hp. rewrite Hx. apply select_ext with (m := machine snap); [|done].
  intros g Hg. destruct (Hp g Hg) as (Htr & [b Hb] & t & Ht & Hu). unfold blindPass. rewrite Ht, Hb. simpl. f_equal.
  pose proof (evalGuard_fits _ _ _ _ _ Hm Ha g t b Htr Ht Hb) as Hf.
  destruct t; simpl in *; [by subst..|]. specialize (Hu eq_refl). congruence.
Qed.

Lemma notTaken_nil reg s seat snap e ts :
  seated reg = Some (s, seat, snap) → getTransitionData snap e = Some ts →
  notTaken getTransitionData reg e = [] ↔ forallb (λ t, mayTake (machine snap) s seat t.1 (eventType e)) ts = true.
Proof.
  intros Hs Ht. unfold notTaken. rewrite Hs, Ht. clear Ht.
  induction ts as [|t ts IH]; simpl; [done|]. rewrite filter_cons.
  destruct (mayTake (machine snap) s seat t.1 (eventType e)) eqn:E; simpl; [|done]. apply IH.
Qed.

(** The list of picks that the code reads before a payload exists agrees
    with the delivery.  Let the guards read the event by name, and their
    [params] no payload.  For every event whose payload passes the guards that
    the probe could not answer, the code says that the run takes the event's
    type from this sender exactly when xstate, given that event, selects
    something that moves and every writing it selects is the sender's. *)
Theorem payload_guards_count_as_passing fuel reg s seat snap e ts :
  selectsByGuards fuel → seated reg = Some (s, seat, snap) → trackedMachine (machine snap) →
  JsObject.objGet (js "type") e = Some (JStr (eventType e)) → JsObject.objGet SENDER_KEY e = Some (senderJson s) →
  payloadPasses fuel snap s e → getTransitionData snap e = Some ts →
  takesNow fuel reg (eventType e) = Some (moves ts && bool_decide (notTaken getTransitionData reg e = [])).
Proof.
  intros Hx Hs Hm Ht Hsd Hp Hts. unfold takesNow. rewrite Hs. simpl.
  rewrite (blind_selects fuel snap s e) by auto using probe_agrees. rewrite Hts. f_equal. f_equal.
  apply eq_true_iff_eq. rewrite bool_decide_eq_true. symmetry. by apply notTaken_nil.
Qed.

Lemma eventOf_type data def (s : option Sender) : eventType (eventOf data def s) = def_name def.
Proof. unfold eventType, eventOf. destruct s; by rewrite !JsObject.objGet_objSet. Qed.

Lemma eventOf_sender data def (s : Sender) : JsObject.objGet SENDER_KEY (eventOf data def (Some s)) = Some (senderJson s).
Proof. unfold eventOf. by rewrite JsObject.objGet_objSet. Qed.

Lemma seated_sender (reg : @PartySeat Ctx) s seat snap : seated reg = Some (s, seat, snap) → sender reg = Some s.
Proof.
  unfold seated. destruct (sender reg); [|done]. simpl. intros H.
  repeat (apply bind_Some in H as (? & ? & H)). by simplify_eq.
Qed.

(** C23: A delivery never runs another party's writing, and refuses nothing
    else once the body is valid.  The event that the Machine would get carries
    the def's name and the registration's own sender, whatever the body says;
    it is delivered exactly when every writing that xstate selects for it is in
    the seat's reach (at or above the seat, or below it with no party-invoking
    state between) and is the sender's (by the audience, or by the nearest
    party-invoking state at or above the writing). *)
Theorem delivered_is_own (reg : @Registration Ctx) type payload caller def data s seat snap ts :
  seated (seat_ reg) = Some (s, seat, snap) →
  hasSenderField payload = false → JsObject.objGet type (defs reg) = Some def →
  safeParse def (bodyOf payload) = Some data →
  let e := eventOf data def (Some (senderOf s caller)) in
  getTransitionData snap e = Some ts →
  eventType e = def_name def ∧ JsObject.objGet SENDER_KEY e = Some (senderJson (senderOf s caller))
  ∧ (deliver getTransitionData (Some reg) type payload caller = Ok e
     ↔ ∀ p t, (p, t) ∈ ts →
         Reach (machine snap) seat p ∧ Owned (machine snap) s seat p (def_name def)).
Proof.
  intros Hs Hf Hd Hp e Hts. pose proof (eventOf_type data def (Some (senderOf s caller))) as He.
  split; [done|]. split; [apply eventOf_sender|].
  unfold deliver. rewrite Hf, Hd, Hp, (seated_sender _ _ _ _ Hs). simpl. fold e.
  assert (Hn : notTaken getTransitionData (seat_ reg) e = [] ↔ ∀ p t, (p, t) ∈ ts →
         Reach (machine snap) seat p ∧ Owned (machine snap) s seat p (def_name def)).
  { rewrite (notTaken_nil _ _ _ _ _ _ Hs Hts), forallb_forall. fold e in He. rewrite He.
    setoid_rewrite mayTake_spec. split.
    - intros H p t Hin%list_elem_of_In. apply (H _ Hin).
    - intros H [p t] Hin%list_elem_of_In. by apply (H p t). }
  rewrite <-Hn. destruct (notTaken _ _ _); naive_solver.
Qed.

End Xstate.

(** ** Rest *)

(** A value of a tree's states, as xstate writes it: a leaf's is empty, or its
    key alone; a parallel state's names every region. *)
Inductive fits : @StateNode Ctx → Value → Prop :=
| fits_leaf n : states n = [] → fits n (VObj [])
| fits_str n k c : n_type n ≠ parallel → JsObject.objGet k (states n) = Some c → states c = [] → fits n (VStr k)
| fits_one n k c v : n_type n ≠ parallel → JsObject.objGet k (states n) = Some c → fits c v → fits n (VObj [(k, v)])
| fits_regions n l :
    n_type n = parallel → NoDup (states n).*1 → (∀ k, k ∈ l.*1 ↔ k ∈ (states n).*1) →
    (∀ k c v, JsObject.objGet k (states n) = Some c → JsObject.objGet k l = Some v → fits c v) → fits n (VObj l).

(** The active states of a value, by their paths. *)
Inductive activeIn : @StateNode Ctx → Value → list jstr → Prop :=
| active_self n v : activeIn n v []
| active_named n k c : JsObject.objGet k (states n) = Some c → activeIn n (VStr k) [k]
| active_inside n l k c v r :
    JsObject.objGet k (states n) = Some c → JsObject.objGet k l = Some v → activeIn c v r → activeIn n (VObj l) (k :: r).

Lemma objGet_one k k' (v v' : Value) : JsObject.objGet k [(k', v')] = Some v → k = k' ∧ v = v'.
Proof. simpl. case_decide || case_bool_decide; naive_solver. Qed.

Lemma isActiveFrom_leaf n v k c r : fits n v → JsObject.objGet k (states n) = Some c → states c = [] → is_Some (nodeAt c r) → r = [].
Proof. intros _ _ Hc [x Hx]. destruct r; [done|]. simpl in Hx. by rewrite Hc in Hx. Qed.

Lemma isActive_spec n v r :
  fits n v → is_Some (nodeAt n r) → isActiveFrom (last r) (Some v) r = true ↔ activeIn n v r.
Proof.
  intros Hf. revert r. induction Hf as [n Hn|n k c Hp Hk Hc|n k c v Hp Hk Hf IH|n l Hp Hnd Hl Hf IH];
    intros [|k' r] Hr; try (split; [constructor|done]).
  - destruct Hr as [x Hx]. simpl in Hx. by rewrite Hn in Hx.
  - simpl in Hr. destruct (JsObject.objGet k' (states n)) as [c'|] eqn:Ek; [|by destruct Hr].
    cbn [isActiveFrom]. rewrite andb_true_iff, !bool_decide_eq_true. split.
    + intros [-> Hlast]. assert (c' = c) as -> by congruence.
      rewrite (isActiveFrom_leaf n (VStr k') k' c r); [by econstructor| |done..]. by econstructor.
    + intros H. by inversion H.
  - simpl in Hr. destruct (JsObject.objGet k' (states n)) as [c'|] eqn:Ek; [|by destruct Hr].
    cbn [isActiveFrom]. destruct (JsObject.objGet k' [(k, v)]) as [v'|] eqn:Ev.
    + apply objGet_one in Ev as Ev'. destruct Ev' as [-> ->]. assert (c' = c) as -> by congruence.
      assert (isActiveFrom (last (k :: r)) (Some v) r = isActiveFrom (last r) (Some v) r) as -> by by destruct r.
      rewrite IH by done. split; [by econstructor|]. intros H. inversion H; subst. congruence.
    + split; [done|]. intros H. inversion H; subst. congruence.
  - simpl in Hr. destruct (JsObject.objGet k' (states n)) as [c'|] eqn:Ek; [|by destruct Hr].
    cbn [isActiveFrom]. destruct (JsObject.objGet k' l) as [v'|] eqn:Ev.
    + assert (isActiveFrom (last (k' :: r)) (Some v') r = isActiveFrom (last r) (Some v') r) as -> by by destruct r.
      rewrite (IH _ _ _ Ek Ev) by done. split; [by econstructor|]. intros H. inversion H; subst. congruence.
    + split; [done|]. intros H. inversion H; subst. congruence.
Qed.

Lemma atKey_get {A} (f : @StateNode Ctx → list A) k l :
  atKey f k l = match JsObject.objGet k l with Some c => f c | None => [] end.
Proof. induction l as [|[k' c] l IH]; [done|]. simpl. by case_bool_decide. Qed.

Lemma elem_of_flat_map {A B} (f : A → list B) l y : y ∈ flat_map f l ↔ ∃ x, x ∈ l ∧ y ∈ f x.
Proof. rewrite list_elem_of_In, in_flat_map. by setoid_rewrite list_elem_of_In. Qed.

Lemma visitBelow_leaf p n : states n = [] → visitBelow p n None = [].
Proof. destruct n as [t i tr st]. simpl. intros ->. by destruct (bool_decide (t = parallel)). Qed.

(** The states that a visit lists are the active ones strictly below. *)
Lemma elem_of_visitBelow n v p q :
  fits n v → q ∈ visitBelow p n (Some v) ↔ ∃ r, r ≠ [] ∧ q = p ++ r ∧ activeIn n v r.
Proof.
  intros Hf. revert p. induction Hf as [n Hn|n k c Hp Hk Hc|n k c v Hp Hk Hf IH|n l Hp Hnd Hl Hf IH]; intros p.
  - destruct n as [t i tr st]. simpl in *. subst. assert (Hno : ∀ r, activeIn (mkNode t i tr []) (VObj []) r → r = []).
    { intros r H. by inversion H. }
    destruct (bool_decide (t = parallel)); simpl; (split; [by intros ?%not_elem_of_nil|intros (r & Hr & _ & H%Hno); done]).
  - destruct n as [t i tr st]. cbn [visitBelow]. rewrite bool_decide_eq_false_2 by done. rewrite atKey_get, Hk.
    rewrite visitBelow_leaf, list_elem_of_singleton by done. split.
    + intros ->. exists [k]. split; [done|]. split; [done|]. by econstructor.
    + intros (r & Hr & -> & H). by inversion H.
  - destruct n as [t i tr st]. cbn [visitBelow]. rewrite bool_decide_eq_false_2 by done. cbn [flat_map fst snd]. rewrite atKey_get, Hk, app_nil_r, elem_of_cons, IH. split.
    + intros [->|(r & Hr & -> & H)].
      * exists [k]. split; [done|]. split; [done|]. econstructor; [done| |constructor]. simpl. by rewrite bool_decide_eq_true_2.
      * exists (k :: r). split; [done|]. split; [by rewrite <-app_assoc|]. econstructor; [done| |done]. simpl. by rewrite bool_decide_eq_true_2.
    + intros (r & Hr & -> & H). inversion H as [| |? ? k' c' v' r' Hc' Hv' Ha]; subst; [done|].
      apply objGet_one in Hv' as [-> ->]. simpl in Hk, Hc'. assert (c' = c) as -> by congruence.
      destruct r' as [|x r']; [by left|right]. exists (x :: r'). split; [done|]. by rewrite <-app_assoc.
  - destruct n as [t i tr st]. cbn [visitBelow]. rewrite bool_decide_eq_true_2 by done. rewrite elem_of_flat_map. simpl in *. split.
    + intros ([k c] & Hin & Hq). simpl in Hq. apply JsObject.objGet_NoDup in Hin as Hk; [|done].
      assert (is_Some (JsObject.objGet k l)) as [v Hv]. { apply JsObject.objGet_is_Some, Hl, list_elem_of_fmap. by exists (k, c). }
      rewrite Hv in Hq. rewrite elem_of_cons, (IH _ _ _ Hk Hv) in Hq. destruct Hq as [->|(r & Hr & -> & H)].
      * exists [k]. split; [done|]. split; [done|]. econstructor; [done|done|constructor].
      * exists (k :: r). split; [done|]. split; [by rewrite <-app_assoc|]. by econstructor.
    + intros (r & Hr & -> & H). inversion H as [| |? ? k' c' v' r' Hc' Hv' Ha]; subst; [done|]. simpl in Hc'.
      exists (k', c'). split; [by apply JsObject.objGet_elem|]. simpl. rewrite Hv', elem_of_cons, (IH _ _ _ Hc' Hv').
      destruct r' as [|x r']; [by left|right]. exists (x :: r'). split; [done|]. by rewrite <-app_assoc.
Qed.

Lemma member_None r : foldl (λ v k, member k v) None r = None.
Proof. by induction r. Qed.

Lemma activeIn_cons n l k r c v :
  JsObject.objGet k (states n) = Some c → JsObject.objGet k l = Some v → activeIn n (VObj l) (k :: r) ↔ activeIn c v r.
Proof.
  intros Hc Hv. split; [|by econstructor]. intros H. inversion H; subst. congruence.
Qed.

(** Below an active state, the value is the one that its path leads to. *)
Lemma activeIn_at n v p :
  fits n v → activeIn n v p →
  ∃ c, nodeAt n p = Some c ∧
    match foldl (λ v k, member k v) (Some v) p with
    | Some v' => fits c v' ∧ ∀ r, activeIn n v (p ++ r) ↔ activeIn c v' r
    | None => states c = [] ∧ ∀ r, activeIn n v (p ++ r) ↔ r = []
    end.
Proof.
  intros Hf Ha. induction Ha as [n v|n k c Hk|n l k c v r Hk Hv Ha IH].
  - by exists n.
  - exists c. simpl. rewrite Hk. split; [done|]. inversion Hf as [|? ? c' _ Hk' Hc'| |]; subst.
    split; [congruence|]. intros r. split; [intros H; by inversion H|intros ->]. by econstructor.
  - assert (fits c v) as Hc.
    { inversion Hf as [|? ? c' _ Hk'|? ? ? ? ? Hk'|]; subst; simplify_eq; [|by eauto].
      apply objGet_one in Hv as [-> ->]. congruence. }
    destruct (IH Hc) as (c' & Hc' & Hm). exists c'. simpl. rewrite Hk, Hv. split; [done|].
    destruct (foldl _ _ r); (split; [apply Hm|]); intros r'; simpl; rewrite (activeIn_cons n l k _ c v) by done; apply Hm.
Qed.

Lemma elem_of_activeBelow snap p q :
  fits (root (machine snap)) (value snap) → activeIn (root (machine snap)) (value snap) p →
  q ∈ activeBelow snap p ↔ p `prefix_of` q ∧ q ≠ p ∧ activeIn (root (machine snap)) (value snap) q.
Proof.
  intros Hf Ha. destruct (activeIn_at _ _ _ Hf Ha) as (c & Hc & Hm).
  assert (Hq : (∃ r, r ≠ [] ∧ q = p ++ r ∧ activeIn (root (machine snap)) (value snap) (p ++ r))
               ↔ p `prefix_of` q ∧ q ≠ p ∧ activeIn (root (machine snap)) (value snap) q).
  { split.
    - intros (r & Hr & -> & H). split; [by exists r|]. split; [|done]. intros E. apply Hr. by apply app_inv_head with p; rewrite app_nil_r.
    - intros ([r ->] & Hne & H). exists r. split; [intros ->; by rewrite app_nil_r in Hne|done]. }
  rewrite <-Hq. unfold activeBelow, valueAt. rewrite Hc. destruct (foldl _ _ _) as [v'|]; destruct Hm as [Hs Hm]; setoid_rewrite Hm.
  - by apply elem_of_visitBelow.
  - rewrite visitBelow_leaf by done. split; [by intros ?%not_elem_of_nil|naive_solver].
Qed.

(** The work of a state: a running child that an active state strictly below
    it invoked, or a pending timer that an active state at or below it handles
    by a move to a state inside it, or to itself without entering it again. *)
Definition runsBelow snap (seat : list jstr) : Prop :=
  ∃ q n inv, activeIn (root (machine snap)) (value snap) q ∧ seat `prefix_of` q ∧ q ≠ seat
    ∧ nodeAt (root (machine snap)) q = Some n ∧ inv ∈ invoke n
    ∧ JsObject.objGet (inv_id inv) (children snap) = Some active.

Definition timerHolds (a : @Actor Ctx) snap (seat : list jstr) : Prop :=
  ∃ id type q n tr targets tgt, (id, type) ∈ scheduled a
    ∧ activeIn (root (machine snap)) (value snap) q ∧ seat `prefix_of` q
    ∧ nodeAt (root (machine snap)) q = Some n ∧ tr ∈ default [] (JsObject.objGet type (transitions n))
    ∧ target tr = Some targets ∧ tgt ∈ targets ∧ seat `prefix_of` tgt
    ∧ (tgt = seat → q = seat ∧ reenter tr = false).

Lemma not_nil_elem {A} (l : list A) : l ≠ [] ↔ ∃ x, x ∈ l.
Proof.
  split; [destruct l as [|x l]; [done|exists x; by left]|]. intros [x Hx] ->. by apply not_elem_of_nil in Hx.
Qed.

Lemma runningBelow_spec snap seat :
  fits (root (machine snap)) (value snap) → activeIn (root (machine snap)) (value snap) seat →
  runningBelow snap seat ≠ [] ↔ runsBelow snap seat.
Proof.
  intros Hf Ha. unfold runningBelow, runsBelow. rewrite not_nil_elem. split.
  - intros [i Hi]. apply list_elem_of_bind in Hi as (q & Hi & Hq).
    apply elem_of_activeBelow in Hq as (? & ? & ?); [|done..].
    destruct (nodeAt (root (machine snap)) q) as [n|] eqn:En; [|by apply not_elem_of_nil in Hi].
    apply list_elem_of_fmap in Hi as (inv & -> & [? ?]%list_elem_of_filter). by exists q, n, inv.
  - intros (q & n & inv & Hq & Hp & Hne & Hn & Hi & Hc). 
    exists (inv_id inv). apply list_elem_of_bind. exists q. split; [|by apply elem_of_activeBelow].
    rewrite Hn. apply list_elem_of_fmap. exists inv. split; [done|]. by apply list_elem_of_filter.
Qed.

Lemma existsb_elem {A} (f : A → bool) l : existsb f l = true ↔ ∃ x, x ∈ l ∧ f x = true.
Proof. rewrite existsb_exists. by setoid_rewrite list_elem_of_In. Qed.

Lemma movesInside_spec (q seat : list jstr) (tr : @Transition Ctx) :
  movesInside seat q tr = true
  ↔ ∃ targets tgt, target tr = Some targets ∧ tgt ∈ targets ∧ seat `prefix_of` tgt ∧ (tgt = seat → q = seat ∧ reenter tr = false).
Proof.
  assert (Ht : ∀ tgt, (if bool_decide (tgt = seat) then bool_decide (q = seat) && negb (reenter tr) else isInside tgt seat) = true
                ↔ seat `prefix_of` tgt ∧ (tgt = seat → q = seat ∧ reenter tr = false)).
  { intros tgt. case_bool_decide as E; [|rewrite isInside_spec; naive_solver].
    rewrite andb_true_iff, bool_decide_eq_true, negb_true_iff. subst. naive_solver. }
  unfold movesInside. rewrite existsb_elem. setoid_rewrite Ht.
  destruct (target tr) as [targets|]; simpl; [naive_solver|]. split; [|naive_solver]. by intros (? & ?%not_elem_of_nil & _).
Qed.

Lemma handledInside_spec snap seat type :
  fits (root (machine snap)) (value snap) → activeIn (root (machine snap)) (value snap) seat →
  handledInside snap seat type = true ↔
  ∃ q n tr, activeIn (root (machine snap)) (value snap) q ∧ seat `prefix_of` q
    ∧ nodeAt (root (machine snap)) q = Some n ∧ tr ∈ default [] (JsObject.objGet type (transitions n))
    ∧ movesInside seat q tr = true.
Proof.
  intros Hf Ha.
  assert (Hact : ∀ q, q ∈ seat :: activeBelow snap seat ↔ activeIn (root (machine snap)) (value snap) q ∧ seat `prefix_of` q).
  { intros q. rewrite elem_of_cons, elem_of_activeBelow by done. split.
    - intros [->|(? & ? & ?)]; by split.
    - intros [? ?]. destruct (decide (q = seat)); auto. }
  unfold handledInside. rewrite existsb_elem. setoid_rewrite Hact. split.
  - intros (q & [Hq Hp] & (tr & Htr & Hh)%existsb_elem). unfold nodeTransitions in Htr.
    destruct (nodeAt (root (machine snap)) q) as [n|] eqn:En; [|by apply not_elem_of_nil in Htr]. by exists q, n, tr.
  - intros (q & n & tr & ? & ? & Hn & Htr & Hh). exists q. split; [done|].
    apply existsb_elem. exists tr. unfold nodeTransitions. by rewrite Hn.
Qed.

Lemma holdingTimers_spec (a : @Actor Ctx) snap seat :
  fits (root (machine snap)) (value snap) → activeIn (root (machine snap)) (value snap) seat →
  holdingTimers a snap seat ≠ [] ↔ timerHolds a snap seat.
Proof.
  intros Hf Ha. unfold holdingTimers, timerHolds. rewrite not_nil_elem. split.
  - intros [i Hi]. apply list_elem_of_fmap in Hi as ([i' ty] & -> & [Hx Hin]%list_elem_of_filter).
    apply handledInside_spec in Hx as (q & n & tr & ? & ? & ? & ? & Hm); [|done..].
    apply movesInside_spec in Hm as (targets & tgt & ?). exists i', ty, q, n, tr, targets, tgt. naive_solver.
  - intros (i & ty & q & n & tr & targets & tgt & Hin & ? & ? & ? & ? & Hx).
    exists i. apply list_elem_of_fmap. exists (i, ty). split; [done|]. apply list_elem_of_filter. split; [|done].
    apply handledInside_spec; [done..|]. exists q, n, tr. do 4 (split; [done|]). apply movesInside_spec. by exists targets, tgt.
Qed.

(** An Agent's state that is active reads [busy] exactly when it has work:
    a running child that an active state strictly below it invoked, or a
    pending timer that an active state at or below it handles by a move that
    stays inside it.  While it is busy no pick is allowed; an Agent whose state
    is no longer active reads [gone]. *)
Theorem rest_reads_the_work fuel can_ (reg : @Registration Ctx) a i snap seat n :
  invoker (seat_ reg) = Some a → invokeId (seat_ reg) = Some i → snapshotOf a = Some snap →
  status snap = active → seatOf snap i = Some seat → nodeAt (root (machine snap)) seat = Some n →
  fits (root (machine snap)) (value snap) →
  (restOf (seat_ reg) = gone ↔ ¬ activeIn (root (machine snap)) (value snap) seat)
  ∧ (restOf (seat_ reg) = busy ↔
       activeIn (root (machine snap)) (value snap) seat ∧ (runsBelow snap seat ∨ timerHolds a snap seat))
  ∧ (restOf (seat_ reg) = busy → allowedPicks can_ fuel reg = []).
Proof.
  intros Ha Hi Hs Hst Hseat Hn Hf.
  assert (Hact : isActive snap seat = true ↔ activeIn (root (machine snap)) (value snap) seat)
    by (apply isActive_spec; [done|by eexists]).
  assert (Hrest : atRest a snap seat = true ↔ runningBelow snap seat = [] ∧ holdingTimers a snap seat = [])
    by (unfold atRest; by rewrite andb_true_iff, !bool_decide_eq_true).
  assert (Hr : restOf (seat_ reg) = if negb (isActive snap seat) then gone else if atRest a snap seat then rest else busy)
    by (unfold restOf; rewrite Ha, Hi, Hs, Hst, Hseat; done).
  rewrite <-Hact. split; [|split].
  - rewrite Hr. destruct (isActive snap seat), (atRest a snap seat); simpl; naive_solver.
  - rewrite Hr. destruct (isActive snap seat) eqn:E; simpl; [|naive_solver].
    pose proof (proj1 Hact eq_refl) as Hin.
    rewrite <-runningBelow_spec, <-holdingTimers_spec by done.
    destruct (atRest a snap seat) eqn:Er; [destruct (proj1 Hrest eq_refl) as [-> ->]; naive_solver|].
    split; [|done]. intros _. split; [done|].
    destruct (decide (runningBelow snap seat = [])) as [E1|]; [|by left]. right. intros E2.
    enough (false = true) by done. apply Hrest. by split.
  - intros Hb. unfold allowedPicks. by rewrite bool_decide_eq_true_2.
Qed.

End Contexts.

(** ** The registration table *)

(** A history of the table: the calls that registered, in order, and the
    disposers that ran, any number of times and at any later time.  A call's id
    is the identity of its registration, which is new for each call. *)
Inductive history_ : Table → list Call → list Call → Prop :=
| history_new : history_ newTable [] []
| history_register t t' regs disp c :
    history_ t regs disp → c_id c ∉ c_id <$> regs → register c t = Some t' → history_ t' (regs ++ [c]) disp
| history_dispose t regs disp c :
    history_ t regs disp → c ∈ regs → history_ (dispose c t) regs (disp ++ [c]).

Definition live (regs disp : list Call) : list Call := filter (λ c, c ∉ disp) regs.

Record TableInv (t : Table) (regs disp : list Call) : Prop := {
  ti_ids : NoDup (c_id <$> regs);
  ti_disp : ∀ c, c ∈ disp → c ∈ regs;
  ti_address : ∀ a c, lookupAt a t = Some c ↔ c ∈ live regs disp ∧ c_address c = a;
  ti_run : ∀ r, byRun r t = filter (λ c, c_run c = r) (live regs disp);
  ti_disposed : ∀ c, c ∈ regs → c_id c ∈ disposed t ↔ c ∈ disp;
  ti_disposed_ids : ∀ i, i ∈ disposed t → i ∈ c_id <$> regs;
  ti_closed : ∀ c, c ∈ closedHeard t ↔ c ∈ disp;
  ti_closed_once : NoDup (closedHeard t);
}.

Lemma live_register regs disp c : c ∉ disp → live (regs ++ [c]) disp = live regs disp ++ [c].
Proof. intros H. unfold live. by rewrite filter_app, filter_cons_True, filter_nil. Qed.

Lemma live_dispose regs disp c : live regs (disp ++ [c]) = filter (λ x, x ≠ c) (live regs disp).
Proof.
  unfold live. rewrite list_filter_filter. apply list_filter_iff. intros x.
  rewrite elem_of_app, list_elem_of_singleton. naive_solver.
Qed.

Lemma objGet_objDel_self {V} k (o : JsObject.obj V) : JsObject.objGet k (JsObject.objDel k o) = None.
Proof.
  destruct (JsObject.objGet k (JsObject.objDel k o)) as [v|] eqn:E; [|done].
  apply JsObject.objGet_elem, list_elem_of_filter in E as [H _]. done.
Qed.

Lemma register_inv c t t' regs disp :
  TableInv t regs disp → c_id c ∉ c_id <$> regs → register c t = Some t' → TableInv t' (regs ++ [c]) disp.
Proof.
  intros I Hc. unfold register. case_bool_decide as Hfree; [done|]. intros [= <-].
  assert (Hnew : c ∉ regs) by (intros H; apply Hc, list_elem_of_fmap; by exists c).
  assert (Hnd : c ∉ disp) by (intros H%(ti_disp _ _ _ I); done).
  assert (Hrun : c ∉ byRun (c_run c) t).
  { rewrite (ti_run _ _ _ I). intros [_ [_ H]%list_elem_of_filter]%list_elem_of_filter. done. }
  split; simpl.
  - rewrite fmap_app. apply NoDup_app. split; [apply I|]. split; [|apply NoDup_singleton].
    intros x Hx ->%list_elem_of_singleton. done.
  - intros x Hx. apply elem_of_app. left. by apply I.
  - intros a x. unfold lookupAt. simpl. rewrite JsObject.objGet_objSet, live_register, elem_of_app, list_elem_of_singleton by done.
    pose proof (ti_address _ _ _ I a x) as Hx. unfold lookupAt in Hx. case_decide as Ea.
    + subst a. split; [intros [= ->]; auto|]. intros [[Hl| ->] Hax]; [|done]. exfalso. apply Hfree. exists x. apply (ti_address _ _ _ I). auto.
    + rewrite Hx. naive_solver.
  - intros r. unfold byRun. simpl. rewrite JsObject.objGet_objSet, live_register, filter_app, <-(ti_run _ _ _ I) by done.
    unfold byRun in *. case_decide as Er.
    + subst r. simpl. by rewrite bool_decide_eq_false_2, filter_cons_True by done.
    + by rewrite filter_cons_False, filter_nil, app_nil_r.
  - intros x [Hx| ->%list_elem_of_singleton]%elem_of_app; [by apply I|].
    split; [|done]. intros H%(ti_disposed_ids _ _ _ I). done.
  - intros i Hi%(ti_disposed_ids _ _ _ I). rewrite fmap_app. apply elem_of_app. by left.
  - apply I.
  - apply I.
Qed.

Lemma dispose_inv c t regs disp : TableInv t regs disp → c ∈ regs → TableInv (dispose c t) regs (disp ++ [c]).
Proof.
  intros I Hc.
  assert (Hclosed : c_id c ∉ disposed t ↔ c ∉ closedHeard t) by by rewrite (ti_disposed _ _ _ I), (ti_closed _ _ _ I).
  assert (Hids : ∀ x y, x ∈ regs → y ∈ regs → c_id x = c_id y → x = y).
  { intros x y [i Hi]%list_elem_of_lookup [j Hj]%list_elem_of_lookup E.
    assert (i = j) as ->; [|congruence]. eapply NoDup_lookup; [apply (ti_ids _ _ _ I)|..]; rewrite list_lookup_fmap.
    - by rewrite Hi.
    - rewrite Hj. simpl. by rewrite E. }
  split.
  - apply I.
  - intros x [Hx| ->%list_elem_of_singleton]%elem_of_app; [by apply I|done].
  - intros a x. rewrite live_dispose, list_elem_of_filter. unfold lookupAt, dispose. simpl.
    pose proof (ti_address _ _ _ I a x) as Hx. unfold lookupAt in Hx. case_bool_decide as E.
    + destruct (decide (a = c_address c)) as [->|Hne].
      * rewrite objGet_objDel_self. rewrite E in Hx. naive_solver.
      * rewrite JsObject.objGet_objDel, Hx by done. naive_solver.
    + rewrite Hx. split; [|naive_solver]. intros [Hl Ha]. split; [|done]. split; [|done]. intros ->. apply E. subst. apply (ti_address _ _ _ I). auto.
  - intros r. rewrite live_dispose, list_filter_filter.
    rewrite (list_filter_iff _ (λ x, x ≠ c ∧ c_run x = r)), <-list_filter_filter, <-(ti_run _ _ _ I) by naive_solver.
    unfold byRun, dispose. simpl.
    assert (Hr : r ≠ c_run c → filter (λ x, x ≠ c) (default [] (JsObject.objGet r (ofRun t))) = default [] (JsObject.objGet r (ofRun t))).
    { intros Hne. apply filter_all, Forall_forall. intros x Hx ->. pose proof (ti_run _ _ _ I r) as Hb. unfold byRun in Hb.
      rewrite Hb in Hx. apply list_elem_of_filter in Hx as [Hx _]. done. }
    destruct (JsObject.objGet (c_run c) (ofRun t)) as [l|] eqn:El.
    + case_bool_decide as En; destruct (decide (r = c_run c)) as [->|Hne].
      * rewrite objGet_objDel_self, El. simpl. done.
      * by rewrite JsObject.objGet_objDel, Hr by done.
      * rewrite JsObject.objGet_objSet, decide_True, El by done. done.
      * by rewrite JsObject.objGet_objSet, decide_False, Hr by done.
    + destruct (decide (r = c_run c)) as [->|Hne]; [by rewrite El|]. by rewrite Hr.
  - intros x Hx. unfold dispose. simpl. rewrite elem_of_app, list_elem_of_singleton, <-(ti_disposed _ _ _ I x Hx).
    case_bool_decide as E; [rewrite elem_of_app, list_elem_of_singleton|]; naive_solver.
  - intros i. unfold dispose. simpl. case_bool_decide; [|apply I]. rewrite elem_of_app, list_elem_of_singleton.
    intros [?| ->]; [by apply I|]. apply list_elem_of_fmap. by exists c.
  - intros x. unfold dispose. simpl. rewrite (bool_decide_ext _ _ Hclosed), elem_of_app, list_elem_of_singleton, <-(ti_closed _ _ _ I x).
    case_bool_decide as E; [rewrite elem_of_app, list_elem_of_singleton|]; naive_solver.
  - unfold dispose. simpl. rewrite (bool_decide_ext _ _ Hclosed). case_bool_decide as E; [|apply I].
    apply NoDup_app. split; [apply I|]. split; [|apply NoDup_singleton]. intros x Hx ->%list_elem_of_singleton. done.
Qed.

Lemma history_inv t regs disp : history_ t regs disp → TableInv t regs disp.
Proof.
  induction 1 as [|t t' regs disp c H IH Hc Hr|t regs disp c H IH Hc].
  - split; try done; try (by constructor); try (by intros ? ?%not_elem_of_nil).
    intros a c. split; [done|]. intros [H _]. by apply not_elem_of_nil in H.
  - by apply register_inv with t.
  - by apply dispose_inv.
Qed.

(** However the registrations and their disposers interleave, with
    disposers run twice and run late, the table holds exactly the live
    registrations: an address answers its one live registration, a run answers
    its own in the order they registered, a registration is refused exactly
    when its address is live, and each one that was disposed is heard as closed
    once.  A late disposer never takes away a later registration. *)
Theorem table_holds_the_live t regs disp :
  history_ t regs disp →
  (∀ a c, lookupAt a t = Some c ↔ c ∈ live regs disp ∧ c_address c = a)
  ∧ (∀ r, byRun r t = filter (λ c, c_run c = r) (live regs disp))
  ∧ (∀ c, register c t = None ↔ ∃ c', c' ∈ live regs disp ∧ c_address c' = c_address c)
  ∧ NoDup (closedHeard t) ∧ (∀ c, c ∈ closedHeard t ↔ c ∈ disp).
Proof.
  intros H%history_inv. split; [apply H|]. split; [apply H|]. split; [|split; apply H].
  intros c. unfold register. case_bool_decide as E.
  - split; [|done]. intros _. destruct E as [c' Hc']. exists c'. by apply H.
  - split; [done|]. intros (c' & Hc'). exfalso. apply E. exists c'. by apply (ti_address _ _ _ H).
Qed.

(** ** Witnesses: a release-notes Machine *)

Section Listed.
Context {Ctx : Type}.

Lemma nodeAt_listed (n : @StateNode Ctx) p q c : nodeAt n p = Some c → c ∈ (nodesBelow q n).*2.
Proof.
  revert n q. induction p as [|k p IH]; intros n q.
  - intros [= <-]. destruct n. simpl. by left.
  - simpl. intros (d & Hd%JsObject.objGet_elem & Hc)%bind_Some. apply (IH _ (q ++ [k])) in Hc.
    apply list_elem_of_fmap in Hc as (x & -> & Hx). apply list_elem_of_fmap. exists x. split; [done|].
    destruct n as [t i tr st]. simpl in *. right. apply elem_of_flat_map. by exists (k, d).
Qed.

(** The guards that may be asked, listed. *)
Lemma askable_listed (m : @Machine Ctx) type g : askable m type g → g ∈ (allNodes m).*2 ≫= λ n, omap guard (candidates n type).
Proof.
  intros (p & n & t & Hn & Ht & Hg). apply list_elem_of_bind. exists n. split; [|by apply nodeAt_listed with p].
  apply list_elem_of_omap. by exists t.
Qed.
End Listed.

(** [draft]'s writings of [done]; the Agent [writer] and the Gate [editor] are
    seated there. *)
Definition notesMachine (named : jstr → option (@Guard unit)) (onDone : list Transition) : @Machine unit :=
  let leaf t := mkNode t [] [] [] in
  mkMachine
    (mkNode compound [] []
       [(js "draft", mkNode compound [mkInvoke (Some (js "writer")) (js "w0"); mkInvoke (Some (js "gate")) (js "editor")]
                       [(js "done", onDone); (js "tick", [mkTransition None (Some [[js "draft"; js "check"]]) 0 false])]
                       [(js "idle", leaf atomic); (js "check", mkNode atomic [mkInvoke (Some (js "lint")) (js "l0")] [] [])]);
        (js "review", leaf atomic); (js "published", leaf final)])
    [(js "writer", agentLogic)] named None.

Definition notesIn (named : jstr → option (@Guard unit)) (onDone : list Transition) (at_ : jstr) (running : list (jstr * Status)) : @Snapshot unit :=
  mkSnapshot (notesMachine named onDone) (VObj [(js "draft", VStr at_)]) tt active
    [[]; [js "draft"]; [js "draft"; at_]] running.

Definition anyObject (v : json) : option (list (jstr * json)) := match v with JObj l => Some l | _ => None end.

Definition notesReg (s : Sender) (i : jstr) (a : @Actor unit) : @Registration unit :=
  let d := [(js "done", mkDef (js "done") anyObject)] in
  mkReg (js "addr") (js "run") (js "w") d None (mkSeat (Some s) (Some i) (Some a)).

Definition writer : Sender := mkSender agentParty (js "writer") noCaller.
Definition editor : Sender := mkSender gateParty (js "editor") noCaller.

(** xstate's selection, with five names of names at most. *)
Definition byGuards (snap : @Snapshot unit) (e : Event) : option (list (list jstr * @Transition unit)) :=
  select (λ g, holdsGuard 5 (machine snap) (context snap) g e) (eventType e) [] (root (machine snap)) (value snap).

Definition isApproved (v : option json) : bool :=
  match v with Some (JStr s) => bool_decide (s = js "approved") | _ => false end.

Definition namedGuards (k : jstr) : option (@Guard unit) :=
  if bool_decide (k = SENT_BY) then Some (GFn sentByGuard)
  else if bool_decide (k = js "approved") then
    Some (GFn (λ _ p, Ret (isApproved (p ≫= prop (js "verdict")))))
  else None.

(** [and([sentBy("writer"), ({ event }) => event.verdict === "approved"])], then
    a writing with no guard. *)
Definition verdictRead : @Guard unit :=
  GFn (λ _ _, ReadKey (js "verdict") (λ v, Ret (isApproved v))).

Definition toReview : Transition :=
  mkTransition (Some (GAnd [GRef SENT_BY (PValue (JObj [(js "id", JStr (js "writer"))])); verdictRead])) (Some [[js "review"]]) 0 false.
Definition toPublished : @Transition unit := mkTransition None (Some [[js "published"]]) 0 false.

Definition notesSnap : @Snapshot unit := notesIn namedGuards [toReview; toPublished] (js "idle") [].
Definition notesActor : @Actor unit := mkActor (Some notesSnap) [].

Definition approvedBody : json := JObj [(js "verdict", JStr (js "approved"))].
Definition approvedEvent : Event :=
  eventOf [(js "verdict", JStr (js "approved"))] (mkDef (js "done") anyObject) (Some writer).

Lemma notes_tracked (onDone : list (@Transition unit)) : trackedMachine (notesMachine namedGuards onDone).
Proof.
  intros k g H. change (namedGuards k = Some g) in H. unfold namedGuards in H.
  repeat case_bool_decide; simplify_eq; simpl; done.
Qed.

Lemma notes_passes : payloadPasses 5 notesSnap writer approvedEvent.
Proof.
  intros g Hg%askable_listed.
  change (g ∈ [GAnd [GRef SENT_BY (PValue (JObj [(js "id", JStr (js "writer"))])); verdictRead]]) in Hg.
  apply list_elem_of_singleton in Hg as ->. split; [by simpl|].
  split; [exists true; by vm_compute|]. exists unknown. split; by vm_compute.
Qed.

Lemma payload_guards_count_as_passing_witness :
  takesNow 5 (seat_ (notesReg writer (js "w0") notesActor)) (eventType approvedEvent) = Some true.
Proof.
  refine (eq_trans (payload_guards_count_as_passing byGuards 5 (seat_ (notesReg writer (js "w0") notesActor)) writer [js "draft"] notesSnap
             approvedEvent [([js "draft"], toReview)] _ _ (notes_tracked _) _ _ notes_passes _) _).
  - intros snap e. reflexivity.
  - vm_compute. reflexivity.
  - vm_compute. reflexivity.
  - vm_compute. reflexivity.
  - vm_compute. reflexivity.
  - vm_compute. reflexivity.
Defined.

(** The Agent's [done] is its own; the Gate's runs the other writing. *)
Lemma delivered_is_own_witness :
  deliver byGuards (Some (notesReg writer (js "w0") notesActor)) (js "done") (Some approvedBody) None = Ok approvedEvent.
Proof.
  refine (proj2 (proj2 (proj2 (delivered_is_own byGuards (notesReg writer (js "w0") notesActor) (js "done") (Some approvedBody) None
           (mkDef (js "done") anyObject) [(js "verdict", JStr (js "approved"))] writer [js "draft"] notesSnap
           [([js "draft"], toReview)] _ _ _ _ _))) _).
  - vm_compute. reflexivity.
  - vm_compute. reflexivity.
  - vm_compute. reflexivity.
  - vm_compute. reflexivity.
  - vm_compute. reflexivity.
  - intros p t Hin. apply list_elem_of_singleton in Hin. injection Hin as -> ->. apply mayTake_spec. vm_compute. reflexivity.
Defined.

(** With a child of [check] running, the Agent is busy. *)
Definition busySnap : @Snapshot unit := notesIn namedGuards [toReview; toPublished] (js "check") [(js "l0", active)].
Definition busyActor : @Actor unit := mkActor (Some busySnap) [(js "t0", js "tick")].

Lemma busySnap_fits : fits (root (machine busySnap)) (value busySnap).
Proof.
  eapply fits_one; [done|vm_compute; reflexivity|]. eapply fits_str; [done|vm_compute; reflexivity|done].
Qed.

Lemma rest_reads_the_work_witness :
  restOf (seat_ (notesReg writer (js "w0") busyActor)) = busy
  ∧ allowedPicks (λ _, Ret true) 5 (notesReg writer (js "w0") busyActor) = [].
Proof.
  assert (Hb : restOf (seat_ (notesReg writer (js "w0") busyActor)) = busy) by (vm_compute; reflexivity).
  split; [exact Hb|].
  refine (proj2 (proj2 (rest_reads_the_work 5 (λ _, Ret true) (notesReg writer (js "w0") busyActor) busyActor (js "w0") busySnap [js "draft"] _
           _ _ _ _ _ _ busySnap_fits)) Hb); vm_compute; reflexivity.
Defined.

(** Two registrations at one address: the second after the first's disposer,
    which then runs again, late. *)
Definition call1 : Call := mkCall 1 (js "a") (js "r").
Definition call2 : Call := mkCall 2 (js "a") (js "r").

Definition firstTable : Table := default newTable (register call1 newTable).
Definition secondTable : Table := default newTable (register call2 (dispose call1 firstTable)).
Definition againTable : Table := dispose call1 secondTable.

Lemma again_history : history_ againTable [call1; call2] [call1; call1].
Proof.
  apply (history_dispose secondTable [call1; call2] [call1] call1); [|by apply list_elem_of_here].
  apply (history_register (dispose call1 firstTable) secondTable [call1] [call1] call2); [|by apply (bool_decide_unpack _)|reflexivity].
  apply (history_dispose firstTable [call1] [] call1); [|by apply list_elem_of_here].
  apply (history_register newTable firstTable [] [] call1); [apply history_new|by apply not_elem_of_nil|reflexivity].
Qed.

Lemma table_holds_the_live_witness : lookupAt (js "a") againTable = Some call2 ∧ register call1 againTable = None.
Proof.
  destruct (table_holds_the_live againTable _ _ again_history) as (Hl & _ & Hr & _). split.
  - apply Hl. split; [by apply (bool_decide_unpack _)|reflexivity].
  - apply Hr. exists call2. split; [by apply (bool_decide_unpack _)|reflexivity].
Defined.

(** ** What the blind list hides *)

(** [{ type: "approved", params: ({ event }) => ({ verdict: event.verdict }) }] *)
Definition verdictParams : @Guard unit :=
  GRef (js "approved") (PFn (λ _, ReadKey (js "verdict") (λ v, Ret (JObj [(js "verdict", default JNull v)])))).
Definition paramsSnap : @Snapshot unit :=
  notesIn namedGuards [mkTransition (Some verdictParams) (Some [[js "review"]]) 0 false] (js "idle") [].
Definition paramsReg : @Registration unit := notesReg writer (js "w0") (mkActor (Some paramsSnap) []).

(** A guard whose [params] function reads the payload is not counted as
    unknown: what [params] reads is not looked at, so a guard that itself reads
    no payload answers yes or no on the missing fields.  So there is a Machine
    in which the Agent's Allowed picks are empty, while the delivery of the very
    pick is taken and moves the run. *)
Theorem params_hide_the_pick :
  (∀ fuel (m : @Machine unit) ctx k pf fn e t,
     guards m k = Some (GFn fn) → (∀ p, readsNoPayload (fn ctx p)) →
     evalGuard fuel m ctx (GRef k (PFn pf)) e = Some t → t ≠ unknown)
  ∧ (∀ can_, allowedPicks can_ 5 paramsReg = [])
  ∧ ∃ e ts, deliver byGuards (Some paramsReg) (js "done") (Some approvedBody) None = Ok e
            ∧ byGuards paramsSnap e = Some ts ∧ moves ts = true.
Proof.
  split; [|split].
  - intros fuel m ctx k pf fn e t Hk Hfn. destruct fuel as [|fuel]; [done|]. cbn [evalGuard]. rewrite Hk. simpl.
    intros (p & _ & H)%bind_Some. destruct (run (fn ctx p) e) as [v ks] eqn:E. apply bind_Some in H as (b & -> & H).
    assert (looked ks = false) as El.
    { change ks with (snd (Some b, ks)). rewrite <-E. clear E H. specialize (Hfn p).
      induction (fn ctx p) as [a| |k' f IH|f IH]; simpl; try done. destruct Hfn as [Hk' Hf].
      specialize (IH _ (Hf (JsObject.objGet k' e))). destruct (run (f (JsObject.objGet k' e)) e). simpl in *. by rewrite Hk', IH. }
    rewrite El in H. simplify_eq. by destruct b.
  - intros can_. unfold allowedPicks. vm_compute. reflexivity.
  - exists approvedEvent, [([js "draft"], mkTransition (Some verdictParams) (Some [[js "review"]]) 0 false)].
    split; [vm_compute; reflexivity|]. split; [vm_compute; reflexivity|reflexivity].
Qed.

(** A guard of the Gate's Caller: [({ event }) => event.sender.name === "alice"]. *)
Definition byAlice : @Guard unit :=
  GFn (λ _ _, ReadKey SENDER_KEY (λ s, Ret (match s ≫= prop (js "name") with Some (JStr v) => bool_decide (v = js "alice") | _ => false end))).
Definition aliceSnap : @Snapshot unit :=
  notesIn namedGuards [mkTransition (Some byAlice) (Some [[js "published"]]) 0 false] (js "idle") [].
Definition aliceReg : @Registration unit := notesReg editor (js "editor") (mkActor (Some aliceSnap) []).
Definition alice : SenderCaller := mkCaller (Some (js "token")) (Some (js "alice")) None (Some [js "via"; js "name"]).

(** The probe's sender has no Caller, and a read of the sender is not payload:
    a Gate whose guard asks who answers it says that it accepts nothing, while
    that Caller's answer is taken. *)
Theorem caller_guard_hides_event :
  (∀ can_, acceptsNow can_ 5 aliceReg = [])
  ∧ ∃ e ts, deliver byGuards (Some aliceReg) (js "done") None (Some alice) = Ok e
            ∧ byGuards aliceSnap e = Some ts ∧ moves ts = true.
Proof.
  split; [intros can_; vm_compute; reflexivity|].
  exists (eventOf [] (mkDef (js "done") anyObject) (Some (mkSender gateParty (js "editor") alice))),
    [([js "draft"], mkTransition (Some byAlice) (Some [[js "published"]]) 0 false)].
  split; [vm_compute; reflexivity|]. split; [vm_compute; reflexivity|reflexivity].
Qed.

End PartyProofs.
