(* ===== verification/Edit.v ===== *)
(** * The edit tool's replacement of text (harness/src/file-tools.ts)

    A file's text is a list of UTF-16 units; offsets and lengths count units.
    An edit replaces a text that occurs once; when a text occurs only in the
    fuzzy view of the file, every edit is made in that view and the touched
    lines are written from it.  [NFKC] is [normalize("NFKC")], which is the
    JavaScript engine's. *)

From Stdlib Require Import Lia ZArith.
From stdpp Require Import base list strings sets.
From S2P Require Import Prelude JsString.

Open Scope Z_scope.

Module Edit.

(** ** Searching a string *)

Fixpoint startsWith (p s : jstr) : bool :=
  match p, s with
  | [], _ => true
  | c :: p', d :: s' => (c =? d) && startsWith p' s'
  | _ :: _, [] => false
  end.

(** [s.indexOf(needle)]: [None] is -1. *)
Fixpoint indexOf (needle s : jstr) : option nat :=
  if startsWith needle s then Some O
  else match s with [] => None | _ :: s' => S <$> indexOf needle s' end.

(** [s.split(sep)] for a [sep] that is not empty; each part but the last takes
    at least one unit. *)
Fixpoint splitFuel (fuel : nat) (sep s : jstr) : list jstr :=
  match fuel with
  | O => [s]
  | S f =>
      match indexOf sep s with
      | None => [s]
      | Some i => take i s :: splitFuel f sep (drop (i + length sep) s)
      end
  end.

Definition splitStr (sep s : jstr) : list jstr :=
  match sep with
  | [] => map (λ c, [c]) s
  | _ => splitFuel (length s) sep s
  end.

(** ** Line endings *)

Definition CR : Z := 13.
Definition LF : Z := 10.
Definition BOM : Z := 0xfeff.

Inductive Ending := crlf | lf.

Definition detectLineEnding (content : jstr) : Ending :=
  match indexOf [LF] content, indexOf [CR; LF] content with
  | None, _ => lf
  | _, None => lf
  | Some lfIdx, Some crlfIdx => if (crlfIdx <? lfIdx)%nat then crlf else lf
  end.

(** [.replace(/\r\n/g, "\n")] *)
Fixpoint replaceCrLf (s : jstr) : jstr :=
  match s with
  | c :: s' =>
      match s' with
      | d :: s'' => if (c =? CR) && (d =? LF) then LF :: replaceCrLf s'' else c :: replaceCrLf s'
      | [] => [c]
      end
  | [] => []
  end.

Definition normalizeToLF (text : jstr) : jstr := map (λ c, if c =? CR then LF else c) (replaceCrLf text).

Definition restoreLineEndings (text : jstr) (ending : Ending) : jstr :=
  match ending with
  | crlf => flat_map (λ c, if c =? LF then [CR; LF] else [c]) text
  | lf => text
  end.

Definition stripBom (content : jstr) : jstr * jstr :=
  match content with
  | c :: s => if c =? BOM then ([BOM], s) else ([], content)
  | [] => ([], [])
  end.

(** ** Lines *)

(** [content.match(/[^\n]*\n|[^\n]+/g) ?? []]; [line] is the line so far. *)
Fixpoint linesFrom (line s : jstr) : list jstr :=
  match s with
  | [] => match line with [] => [] | _ => [line] end
  | c :: s' => if c =? LF then (line ++ [LF]) :: linesFrom [] s' else linesFrom (line ++ [c]) s'
  end.

Definition splitLinesWithEndings (content : jstr) : list jstr := linesFrom [] content.

Record Span := mkSpan { start : nat; end_ : nat }.

Fixpoint spansFrom (offset : nat) (ls : list jstr) : list Span :=
  match ls with
  | [] => []
  | line :: ls' => mkSpan offset (offset + length line) :: spansFrom (offset + length line) ls'
  end.

Definition getLineSpans (content : jstr) : list Span := spansFrom 0 (splitLinesWithEndings content).

(** ** Replacements *)

Record Edit := mkEdit { oldText : jstr; newText : jstr }.

Record Replacement := mkReplacement { editIndex : nat; matchIndex : nat; matchLength : nat; r_newText : jstr }.

Inductive EditError :=
| EmptyOldText (i : nat)
| NotFound (i : nat)
| Duplicate (i : nat) (occurrences : Z)
| Overlap (previous current : nat)
| OutsideBase
| LineCount
| NoChange.

(** The first line that holds the offset, and its number. *)
Fixpoint startLineOf (i : nat) (lines : list Span) (offset : nat) : option (nat * list Span) :=
  match lines with
  | [] => None
  | l :: ls => if (start l <=? offset)%nat && (offset <? end_ l)%nat then Some (i, lines) else startLineOf (S i) ls offset
  end.

(** From there, the first line that ends at or after the offset. *)
Fixpoint endLineOf (i : nat) (lines : list Span) (offset : nat) : option nat :=
  match lines with
  | [] => None
  | l :: ls => if (end_ l <? offset)%nat then endLineOf (S i) ls offset else Some i
  end.

Definition getReplacementLineRange (lines : list Span) (r : Replacement) : result EditError (nat * nat) :=
  match startLineOf 0 lines (matchIndex r) with
  | None => Throw OutsideBase
  | Some (startLine, rest) =>
      match endLineOf startLine rest (matchIndex r + matchLength r) with
      | None => Throw OutsideBase
      | Some endLine => Ok (startLine, S endLine)
      end
  end.

(** From the last to the first, so that the offsets hold.  No replacement is
    before [offset]. *)
Definition applyReplacements (content : jstr) (rs : list Replacement) (offset : nat) : jstr :=
  foldr (λ r result,
    let i := (matchIndex r - offset)%nat in take i result ++ r_newText r ++ drop (i + matchLength r) result) content rs.

(** [.sort((a, b) => a.matchIndex - b.matchIndex)], which is stable. *)
Fixpoint insertReplacement (r : Replacement) (l : list Replacement) : list Replacement :=
  match l with
  | [] => [r]
  | x :: l' => if (matchIndex r <=? matchIndex x)%nat then r :: l else x :: insertReplacement r l'
  end.

Definition sortReplacements (l : list Replacement) : list Replacement := foldr insertReplacement [] l.

Record Group := mkGroup { startLine : nat; endLine : nat; members : list Replacement }.

(** One replacement of the grouping loop; the groups are newest first. *)
Definition addToGroups (lines : list Span) (groups : list Group) (r : Replacement) : result EditError (list Group) :=
  match getReplacementLineRange lines r with
  | Throw e => Throw e
  | Ok (s, e) =>
      match groups with
      | current :: older =>
          if (s <? endLine current)%nat
          then Ok (mkGroup (startLine current) (Nat.max (endLine current) e) (members current ++ [r]) :: older)
          else Ok (mkGroup s e [r] :: groups)
      | [] => Ok [mkGroup s e [r]]
      end
  end.

Fixpoint groupAll (lines : list Span) (groups : list Group) (rs : list Replacement) : result EditError (list Group) :=
  match rs with
  | [] => Ok groups
  | r :: rs' => match addToGroups lines groups r with Ok g => groupAll lines g rs' | Throw e => Throw e end
  end.

Definition slice (s : jstr) (a b : nat) : jstr := take (b - a) (drop a s).

(** The writing loop: the original lines up to a group, then the group from the
    base. *)
Fixpoint writeGroups (originalLines : list jstr) (baseContent : jstr) (baseLines : list Span) (at_ : nat) (groups : list Group) : jstr :=
  match groups with
  | [] => concat (drop at_ originalLines)
  | g :: gs =>
      let from := default O (start <$> baseLines !! startLine g) in
      let to := default O (end_ <$> baseLines !! (endLine g - 1)%nat) in
      concat (take (startLine g - at_) (drop at_ originalLines))
      ++ applyReplacements (slice baseContent from to) (members g) from
      ++ writeGroups originalLines baseContent baseLines (endLine g) gs
  end.

Definition applyReplacementsPreservingUnchangedLines (originalContent baseContent : jstr) (rs : list Replacement) : result EditError jstr :=
  let originalLines := splitLinesWithEndings originalContent in
  let baseLines := getLineSpans baseContent in
  if negb (length originalLines =? length baseLines)%nat then Throw LineCount
  else
    match groupAll baseLines [] (sortReplacements rs) with
    | Throw e => Throw e
    | Ok groups => Ok (writeGroups originalLines baseContent baseLines 0 (rev groups))
    end.

(** ** The fuzzy view *)

Definition trimEnd (s : jstr) : jstr := rev (trim_start (rev s)).

Definition between (lo hi c : Z) : bool := (lo <=? c) && (c <=? hi).

(** The four [replace] calls, in their order. *)
Definition plainQuote (c : Z) : Z := if between 0x2018 0x201b c then 39 else c.
Definition plainDouble (c : Z) : Z := if between 0x201c 0x201f c then 34 else c.
Definition plainDash (c : Z) : Z := if between 0x2010 0x2015 c || (c =? 0x2212) then 45 else c.
Definition plainSpace (c : Z) : Z :=
  if (c =? 0xa0) || between 0x2002 0x200a c || (c =? 0x202f) || (c =? 0x205f) || (c =? 0x3000) then 32 else c.

Definition plain (c : Z) : Z := plainSpace (plainDash (plainDouble (plainQuote c))).

Section Normal.
Variable NFKC : jstr → jstr.

Definition normalizeForFuzzyMatch (text : jstr) : jstr :=
  map plain (join [LF] (map trimEnd (split_on LF (NFKC text)))).

Record Match := mkMatch { index : nat; m_length : nat; usedFuzzyMatch : bool }.

(** [None]: [found] is false. *)
Definition fuzzyFindText (content old : jstr) : option Match :=
  match indexOf old content with
  | Some i => Some (mkMatch i (length old) false)
  | None =>
      match indexOf (normalizeForFuzzyMatch old) (normalizeForFuzzyMatch content) with
      | None => None
      | Some i => Some (mkMatch i (length (normalizeForFuzzyMatch old)) true)
      end
  end.

Definition countOccurrences (content old : jstr) : Z :=
  Z.of_nat (length (splitStr (normalizeForFuzzyMatch old) (normalizeForFuzzyMatch content))) - 1.

(** ** The edits *)

Definition normalizeEdit (e : Edit) : Edit := mkEdit (normalizeToLF (oldText e)) (normalizeToLF (newText e)).

Fixpoint firstEmpty (i : nat) (edits : list Edit) : option nat :=
  match edits with
  | [] => None
  | e :: es => match oldText e with [] => Some i | _ => firstEmpty (S i) es end
  end.

Definition needsFuzzy (content : jstr) (edits : list Edit) : bool :=
  existsb (λ e, match fuzzyFindText content (oldText e) with Some m => usedFuzzyMatch m | None => false end) edits.

Fixpoint matchEdits (base : jstr) (i : nat) (edits : list Edit) : result EditError (list Replacement) :=
  match edits with
  | [] => Ok []
  | e :: es =>
      match fuzzyFindText base (oldText e) with
      | None => Throw (NotFound i)
      | Some m =>
          let occurrences := countOccurrences base (oldText e) in
          if 1 <? occurrences then Throw (Duplicate i occurrences)
          else
            match matchEdits base (S i) es with
            | Throw err => Throw err
            | Ok rs => Ok (mkReplacement i (index m) (m_length m) (newText e) :: rs)
            end
      end
  end.

Fixpoint firstOverlap (rs : list Replacement) : option (nat * nat) :=
  match rs with
  | previous :: rs' =>
      match rs' with
      | current :: _ =>
          if (matchIndex current <? matchIndex previous + matchLength previous)%nat
          then Some (editIndex previous, editIndex current)
          else firstOverlap rs'
      | [] => None
      end
  | [] => None
  end.

Definition applyEditsToNormalizedContent (normalizedContent : jstr) (edits : list Edit) : result EditError jstr :=
  let normalizedEdits := map normalizeEdit edits in
  match firstEmpty 0 normalizedEdits with
  | Some i => Throw (EmptyOldText i)
  | None =>
      let fuzzy := needsFuzzy normalizedContent normalizedEdits in
      let base := if fuzzy then normalizeForFuzzyMatch normalizedContent else normalizedContent in
      matched ← matchEdits base 0 normalizedEdits;
      let sorted := sortReplacements matched in
      match firstOverlap sorted with
      | Some (a, b) => Throw (Overlap a b)
      | None =>
          newContent ← (if fuzzy then applyReplacementsPreservingUnchangedLines normalizedContent base sorted
                        else Ok (applyReplacements base sorted 0));
          if bool_decide (normalizedContent = newContent) then Throw NoChange else Ok newContent
      end
  end.

(** The text of a file after the edits. *)
Definition editText (raw : jstr) (edits : list Edit) : result EditError jstr :=
  let '(bom, content) := stripBom raw in
  let originalEnding := detectLineEnding content in
  newContent ← applyEditsToNormalizedContent (normalizeToLF content) edits;
  Ok (bom ++ restoreLineEndings newContent originalEnding).

End Normal.

(** ** The words of an error *)

Definition quoteNum (n : nat) : jstr := of_int (Z.of_nat n).

Definition editErrorText (path : jstr) (totalEdits : nat) (e : EditError) : jstr :=
  let one := (totalEdits =? 1)%nat in
  match e with
  | EmptyOldText i =>
      if one then js "oldText must not be empty in " ++ path ++ js "."
      else js "edits[" ++ quoteNum i ++ js "].oldText must not be empty in " ++ path ++ js "."
  | NotFound i =>
      if one then js "Could not find the exact text in " ++ path ++ js ". The old text must match exactly including all whitespace and newlines."
      else js "Could not find edits[" ++ quoteNum i ++ js "] in " ++ path ++ js ". The oldText must match exactly including all whitespace and newlines."
  | Duplicate i n =>
      if one then js "Found " ++ of_int n ++ js " occurrences of the text in " ++ path ++ js ". The text must be unique. Please provide more context to make it unique."
      else js "Found " ++ of_int n ++ js " occurrences of edits[" ++ quoteNum i ++ js "] in " ++ path ++ js ". Each oldText must be unique. Please provide more context to make it unique."
  | Overlap a b =>
      js "edits[" ++ quoteNum a ++ js "] and edits[" ++ quoteNum b ++ js "] overlap in " ++ path ++ js ". Merge them into one edit or target disjoint regions."
  | OutsideBase => js "Replacement range is outside the base content."
  | LineCount => js "Cannot preserve unchanged lines because the base content has a different line count."
  | NoChange =>
      if one then js "No changes made to " ++ path ++ js ". The replacement produced identical content. This might indicate an issue with special characters or the text not existing as expected."
      else js "No changes made to " ++ path ++ js ". The replacements produced identical content."
  end.

End Edit.
