(* ===== verification/EditProofs.v ===== *)
(** * What an edit changes

    The edits of Edit.v against what the tool says it does: each text is
    replaced where it was found, once, and nothing else of the file changes. *)

From Stdlib Require Import Lia ZArith Sorting.Sorted.
From stdpp Require Import base list strings sets sorting.
From S2P Require Import Prelude JsString Edit.

Open Scope Z_scope.

Module EditProofs.
Import Edit.

(** ** Searching *)

Lemma startsWith_spec p s : startsWith p s = true ↔ ∃ t, s = p ++ t.
Proof.
  revert s. induction p as [|c p IH]; intros s; simpl; [split; [by exists s|done]|].
  destruct s as [|d s]; [split; [done|by intros [? ?]]|]. rewrite andb_true_iff, IH, Z.eqb_eq. naive_solver.
Qed.

(** [r] occurs in [s] at [i]. *)
Definition occursAt (n s : jstr) (i : nat) : Prop := take (length n) (drop i s) = n ∧ (i + length n <= length s)%nat.

Lemma occursAt_app n a b : occursAt n (a ++ n ++ b) (length a).
Proof. split; [by rewrite drop_app_length, take_app_length|rewrite !length_app; lia]. Qed.

Lemma occursAt_split n s i : occursAt n s i → s = take i s ++ n ++ drop (i + length n) s.
Proof. intros [H _]. rewrite <-H at 1. by rewrite <-drop_drop, !take_drop. Qed.

Lemma indexOf_Some n s i : indexOf n s = Some i → occursAt n s i.
Proof.
  revert i. induction s as [|c s IH]; intros i; simpl.
  - destruct (startsWith n []) eqn:E; [|done]. intros [= <-]. apply startsWith_spec in E as [t Ht].
    destruct n; [by split|done].
  - destruct (startsWith n (c :: s)) eqn:E.
    + intros [= <-]. apply startsWith_spec in E as [t ->]. apply (occursAt_app n []).
    + intros (j & Hj & ->)%fmap_Some. destruct (IH _ Hj). split; [done|simpl; lia].
Qed.

Lemma indexOf_None n s : indexOf n s = None ↔ ∀ a b, s ≠ a ++ n ++ b.
Proof.
  induction s as [|c s IH]; simpl.
  - destruct (startsWith n []) eqn:E.
    + split; [done|]. apply startsWith_spec in E as [t Ht]. intros H. by destruct (H [] t).
    + split; [|done]. intros _ a b Hab. assert (startsWith n [] = true); [|congruence].
      apply startsWith_spec. exists b. by destruct a.
  - destruct (startsWith n (c :: s)) eqn:E.
    + split; [done|]. apply startsWith_spec in E as [t Ht]. intros H. by destruct (H [] t).
    + rewrite fmap_None, IH. split; intros H a b Hab.
      * destruct a as [|x a]; [|simplify_eq/=; by apply (H a b)].
        assert (startsWith n (c :: s) = true); [|congruence]. apply startsWith_spec. by exists b.
      * apply (H (c :: a) b). simpl. by f_equal.
Qed.

(** ** Splicing *)

(** The second text is the first with each old text, in order, replaced by its
    new one. *)
Inductive Splices : list (jstr * jstr) → jstr → jstr → Prop :=
| splices_nil s : Splices [] s s
| splices_cons pre old new es s s' :
    Splices es s s' → Splices ((old, new) :: es) (pre ++ old ++ s) (pre ++ new ++ s').

Definition apart (a b : Replacement) : Prop := (matchIndex a + matchLength a <= matchIndex b)%nat.

(** What a replacement replaces. *)
Definition pieceOf (content : jstr) (offset : nat) (r : Replacement) : jstr * jstr :=
  (take (matchLength r) (drop (matchIndex r - offset) content), r_newText r).

Lemma applyReplacements_cons content r rs offset :
  applyReplacements content (r :: rs) offset =
  take (matchIndex r - offset) (applyReplacements content rs offset) ++ r_newText r
  ++ drop (matchIndex r - offset + matchLength r) (applyReplacements content rs offset).
Proof. done. Qed.

Lemma applyReplacements_shift content rs offset k :
  (k <= length content)%nat → Forall (λ r, (offset + k <= matchIndex r)%nat) rs →
  applyReplacements content rs offset = take k content ++ applyReplacements (drop k content) rs (offset + k).
Proof.
  intros Hk H. induction H as [|r rs Hr _ IH]; [simpl; by rewrite take_drop|].
  rewrite !applyReplacements_cons, IH. clear IH. set (x := applyReplacements (drop k content) rs _).
  assert (Hl : length (take k content) = k) by (rewrite length_take; lia).
  rewrite take_app_ge, drop_app_ge by lia. rewrite Hl.
  replace (matchIndex r - offset - k)%nat with (matchIndex r - (offset + k))%nat by lia.
  replace (matchIndex r - offset + matchLength r - k)%nat with (matchIndex r - (offset + k) + matchLength r)%nat by lia.
  by rewrite <-app_assoc.
Qed.

Lemma applyReplacements_splices content rs offset :
  StronglySorted apart rs →
  Forall (λ r, (offset <= matchIndex r)%nat ∧ (matchIndex r + matchLength r <= offset + length content)%nat) rs →
  Splices (map (pieceOf content offset) rs) content (applyReplacements content rs offset).
Proof.
  intros Hs. revert content offset. induction Hs as [|r rs Hs IH Hr]; intros content offset Hb; [constructor|].
  apply Forall_cons in Hb as [[Hr1 Hr2] Hb].
  set (i := (matchIndex r - offset)%nat). set (k := (i + matchLength r)%nat).
  assert (Hk : (k <= length content)%nat) by (unfold k, i; lia).
  assert (Hgt : Forall (λ x, (offset + k <= matchIndex x)%nat) rs).
  { eapply Forall_impl; [exact Hr|]. unfold apart, k, i. intros x Hx. lia. }
  assert (Heq : applyReplacements content (r :: rs) offset
                = take i content ++ r_newText r ++ applyReplacements (drop k content) rs (offset + k)).
  { rewrite applyReplacements_cons. fold i. fold k. rewrite (applyReplacements_shift content rs offset k) by done.
    assert (Hl : length (take k content) = k) by (rewrite length_take; lia).
    rewrite take_app_le, take_take, drop_app_ge, Hl, Nat.sub_diag by lia.
    by replace (i `min` k)%nat with i by (unfold k; lia). }
  rewrite Heq. simpl. unfold pieceOf at 1. fold i.
  assert (Hc : content = take i content ++ take (matchLength r) (drop i content) ++ drop k content).
  { unfold k. by rewrite <-drop_drop, !take_drop. }
  rewrite Hc at 3. apply splices_cons.
  assert (map (pieceOf content offset) rs = map (pieceOf (drop k content) (offset + k)) rs) as ->.
  { apply list_eq_Forall2, Forall2_fmap, Forall_Forall2_diag. eapply Forall_impl; [exact Hgt|]. intros x Hx. simpl in Hx. unfold pieceOf.
    rewrite drop_drop. by replace (k + (matchIndex x - (offset + k)))%nat with (matchIndex x - offset)%nat by lia. }
  apply IH. apply Forall_forall. intros x Hx. rewrite length_drop.
  pose proof (proj1 (Forall_forall _ _) Hb _ Hx). pose proof (proj1 (Forall_forall _ _) Hgt _ Hx). simpl in *. lia.
Qed.

(** ** Sorting *)

Lemma insertReplacement_perm r l : insertReplacement r l ≡ₚ r :: l.
Proof.
  induction l as [|x l IH]; simpl; [done|]. destruct (matchIndex r <=? matchIndex x)%nat; [done|]. rewrite IH. constructor.
Qed.

Lemma sortReplacements_perm l : sortReplacements l ≡ₚ l.
Proof. induction l as [|r l IH]; simpl; [done|]. by rewrite insertReplacement_perm, IH. Qed.

Definition before (a b : Replacement) : Prop := (matchIndex a <= matchIndex b)%nat.

Lemma sortReplacements_sorted l : StronglySorted before (sortReplacements l).
Proof.
  induction l as [|r l IH]; simpl; [constructor|].
  induction IH as [|x l' Hs IHs Hx]; simpl; [by repeat constructor|].
  destruct (Nat.leb_spec (matchIndex r) (matchIndex x)).
  - constructor; [by constructor|]. constructor; [done|]. eapply Forall_impl; [exact Hx|]. unfold before. intros; lia.
  - constructor; [done|]. rewrite insertReplacement_perm. constructor; [unfold before; lia|done].
Qed.

Lemma sorted_id l : StronglySorted before l → sortReplacements l = l.
Proof.
  induction 1 as [|x l Hs IH Hx]; [done|]. simpl. rewrite IH. destruct l as [|y l]; [done|]. simpl.
  apply Forall_cons in Hx as [Hx _]. unfold before in Hx. by rewrite (proj2 (Nat.leb_le _ _) Hx).
Qed.

Lemma firstOverlap_apart l : firstOverlap l = None → StronglySorted apart l.
Proof.
  intros H. apply Sorted_StronglySorted.
  { unfold apart. intros a b c Hab Hbc. lia. }
  induction l as [|a l IH]; [constructor|]. simpl in H. destruct l as [|b l]; [by repeat constructor|].
  destruct (Nat.ltb_spec (matchIndex b) (matchIndex a + matchLength a)); [done|].
  constructor; [by apply IH|]. constructor. done.
Qed.

(** ** Lines *)

Lemma linesFrom_concat line s : concat (linesFrom line s) = line ++ s.
Proof.
  revert line. induction s as [|c s IH]; intros line; simpl.
  - destruct line; simpl; by rewrite ?app_nil_r.
  - destruct (Z.eqb_spec c LF) as [->|]; simpl; rewrite IH; simpl; by rewrite <-app_assoc.
Qed.

Lemma lines_concat s : concat (splitLinesWithEndings s) = s.
Proof. apply (linesFrom_concat []). Qed.

(** The offset at which line [i] starts. *)
Definition off (ls : list jstr) (i : nat) : nat := length (concat (take i ls)).

Lemma off_cons l ls i : off (l :: ls) (S i) = (length l + off ls i)%nat.
Proof. unfold off. simpl. by rewrite length_app. Qed.

Lemma off_mono ls i j : (i <= j)%nat → (off ls i <= off ls j)%nat.
Proof.
  revert i j. induction ls as [|l ls IH]; intros i j Hij; [unfold off; rewrite !take_nil; done|].
  destruct i as [|i]; [unfold off at 1; simpl; lia|]. destruct j as [|j]; [lia|]. rewrite !off_cons. specialize (IH i j). lia.
Qed.

Lemma off_all ls i : (length ls <= i)%nat → off ls i = length (concat ls).
Proof. intros H. unfold off. by rewrite take_ge. Qed.

Lemma spansFrom_lookup o ls i :
  (i < length ls)%nat → spansFrom o ls !! i = Some (mkSpan (o + off ls i) (o + off ls (S i))).
Proof.
  revert o i. induction ls as [|l ls IH]; intros o i Hi; simpl in *; [lia|]. destruct i as [|i]; simpl.
  - unfold off. simpl. rewrite app_nil_r. f_equal. f_equal; lia.
  - rewrite IH, !off_cons by lia. f_equal. f_equal; lia.
Qed.

Lemma spansFrom_length o ls : length (spansFrom o ls) = length ls.
Proof. revert o. induction ls as [|l ls IH]; intros o; simpl; auto. Qed.

Lemma startLineOf_Some i o ls k s rest :
  startLineOf i (spansFrom o ls) k = Some (s, rest) →
  ∃ j, s = (i + j)%nat ∧ (j < length ls)%nat ∧ rest = spansFrom (o + off ls j) (drop j ls)
       ∧ (o + off ls j <= k < o + off ls (S j))%nat.
Proof.
  revert i o. induction ls as [|l ls IH]; intros i o; simpl; [done|].
  destruct ((o <=? k)%nat && (k <? o + length l)%nat) eqn:E.
  - intros [= <- <-]. apply andb_true_iff in E as [E1%Nat.leb_le E2%Nat.ltb_lt]. exists O.
    rewrite off_cons. unfold off. simpl. split_and!; try lia. by rewrite Nat.add_0_r.
  - intros (j & -> & Hj & -> & Hk)%IH. exists (S j). rewrite !off_cons. simpl. split_and!; try lia. f_equal. lia.
Qed.

Lemma endLineOf_Some i o ls k e :
  endLineOf i (spansFrom o ls) k = Some e →
  ∃ j, e = (i + j)%nat ∧ (j < length ls)%nat ∧ (k <= o + off ls (S j))%nat.
Proof.
  revert i o. induction ls as [|l ls IH]; intros i o; simpl; [done|].
  destruct (Nat.ltb_spec (o + length l) k).
  - intros (j & -> & Hj & Hk)%IH. exists (S j). rewrite off_cons. split_and!; lia.
  - intros [= <-]. exists O. rewrite off_cons. unfold off. simpl. split_and!; lia.
Qed.

Lemma off_drop ls i j : (off ls i + off (drop i ls) j = off ls (i + j))%nat.
Proof. unfold off. rewrite <-length_app, <-concat_app. by rewrite take_take_drop. Qed.

Lemma lineRange_spec ls r s e :
  getReplacementLineRange (spansFrom 0 ls) r = Ok (s, e) →
  (s < e <= length ls)%nat ∧ (off ls s <= matchIndex r < off ls (S s))%nat ∧ (matchIndex r + matchLength r <= off ls e)%nat.
Proof.
  unfold getReplacementLineRange. destruct (startLineOf 0 (spansFrom 0 ls) (matchIndex r)) as [[s' rest]|] eqn:E1; [|done].
  apply startLineOf_Some in E1 as (j & -> & Hj & -> & Hk). simpl in *.
  destruct (endLineOf j _ _) as [e'|] eqn:E2; [|done]. intros [= <- <-].
  apply endLineOf_Some in E2 as (j' & -> & Hj' & Hk'). rewrite length_drop in Hj'. rewrite off_drop in Hk'.
  replace (j + S j')%nat with (S (j + j')) in Hk' by lia. split_and!; lia.
Qed.

(** ** Groups of lines *)

Record GroupOk (ls : list jstr) (g : Group) : Prop := {
  go_lines : (startLine g < endLine g <= length ls)%nat;
  go_some : members g ≠ [];
  go_in : Forall (λ r, (off ls (startLine g) <= matchIndex r)%nat ∧ (matchIndex r + matchLength r <= off ls (endLine g))%nat) (members g);
}.

(** The groups so far, newest first, hold the replacements so far in order. *)
Record GroupsOk (ls : list jstr) (groups : list Group) (rs : list Replacement) : Prop := {
  gs_ok : Forall (GroupOk ls) groups;
  gs_order : StronglySorted (λ a b, (endLine b <= startLine a)%nat) groups;
  gs_members : concat (members <$> rev groups) = rs;
}.

Lemma off_lt ls i j : (off ls i < off ls j)%nat → (i < j)%nat.
Proof. intros H. destruct (decide (j <= i)%nat) as [Hji|]; [|lia]. pose proof (off_mono ls j i Hji). lia. Qed.

Lemma addToGroups_ok ls groups gs rs r :
  GroupsOk ls groups rs → StronglySorted before (rs ++ [r]) →
  addToGroups (spansFrom 0 ls) groups r = Ok gs → GroupsOk ls gs (rs ++ [r]).
Proof.
  intros [Hok Ho Hm] Hs. unfold addToGroups.
  destruct (getReplacementLineRange (spansFrom 0 ls) r) as [[s e]|] eqn:Er; [|done].
  apply lineRange_spec in Er as (Hse & Hi & He). destruct groups as [|cur older].
  { intros [= <-]. simpl in Hm. subst rs. split; simpl; [|by repeat constructor|done].
    constructor; [|constructor]. split; simpl; [lia|done|]. constructor; [lia|constructor]. }
  apply Forall_cons in Hok as [Hc Hold]. apply StronglySorted_inv in Ho as [Ho Hco].
  destruct (Nat.ltb_spec s (endLine cur)) as [Hlt|Hge]; intros [= <-].
  - assert (Hst : (startLine cur <= s)%nat).
    { destruct Hc as [_ Hne Hin]. destruct (members cur) as [|x ms] eqn:Em; [done|]. apply Forall_cons in Hin as [[Hx _] _].
      assert (x ∈ rs) as Hxr.
      { subst rs. simpl. rewrite fmap_app, concat_app. simpl. rewrite Em. apply elem_of_app. right. rewrite app_nil_r. by left. }
      pose proof (StronglySorted_app_1_elem_of _ _ _ x r Hs Hxr (list_elem_of_here _ _)) as Hbr. unfold before in Hbr.
      assert (off ls (startLine cur) < off ls (S s))%nat as Hoff by lia. apply off_lt in Hoff. lia. }
    split; simpl.
    + constructor; [|done]. destruct Hc as [Hl Hne Hin]. split; simpl; [lia|by destruct (members cur)|].
      apply Forall_app. split; [eapply Forall_impl; [exact Hin|]|constructor; [|constructor]].
      * intros x [? ?]. pose proof (off_mono ls (endLine cur) (endLine cur `max` e)). lia.
      * pose proof (off_mono ls (startLine cur) s). pose proof (off_mono ls e (endLine cur `max` e)). lia.
    + by constructor.
    + subst rs. simpl. rewrite !fmap_app, !concat_app. simpl. by rewrite !app_nil_r, app_assoc.
  - split.
    + constructor; [|by constructor]. split; simpl; [lia|done|]. constructor; [lia|constructor].
    + constructor; [by constructor|]. constructor; [simpl; lia|]. eapply Forall_impl; [exact Hco|]. intros x Hx. simpl in *.
      pose proof (go_lines _ _ Hc). lia.
    + subst rs. simpl. rewrite !fmap_app, !concat_app. simpl. by rewrite ?app_nil_r.
Qed.

Lemma groupAll_ok ls groups gs rs rs' :
  GroupsOk ls groups rs → StronglySorted before (rs ++ rs') →
  groupAll (spansFrom 0 ls) groups rs' = Ok gs → GroupsOk ls gs (rs ++ rs').
Proof.
  revert groups rs. induction rs' as [|r rs' IH]; intros groups rs Hg Hs; simpl.
  - intros [= <-]. by rewrite app_nil_r.
  - destruct (addToGroups _ groups r) as [g|] eqn:Ea; [|done]. intros H.
    rewrite (cons_middle r), app_assoc in Hs |- *. apply (IH g); [|done|done].
    eapply addToGroups_ok; [done| |done]. by apply StronglySorted_app_1_l in Hs.
Qed.

(** A text by lines: a line is kept, or a run of lines of the base is spliced. *)
Inductive PerLines : list jstr → list jstr → list (jstr * jstr) → jstr → Prop :=
| per_nil : PerLines [] [] [] []
| per_keep o b os bs es r : PerLines os bs es r → PerLines (o :: os) (b :: bs) es (o ++ r)
| per_group os bs os' bs' es es' r r' :
    length os = length bs → es ≠ [] → Splices es (concat bs) r → PerLines os' bs' es' r' →
    PerLines (os ++ os') (bs ++ bs') (es ++ es') (r ++ r').

Lemma per_keep_all os bs os' bs' es r :
  length os = length bs → PerLines os' bs' es r → PerLines (os ++ os') (bs ++ bs') es (concat os ++ r).
Proof.
  revert bs. induction os as [|o os IH]; intros [|b bs] Hl H; simplify_eq/=; [done|].
  rewrite <-app_assoc. constructor. by apply IH.
Qed.

Lemma per_all os bs : length os = length bs → PerLines os bs [] (concat os).
Proof.
  revert bs. induction os as [|o os IH]; intros [|b bs] H; simplify_eq/=; [constructor|]. apply per_keep. by apply IH.
Qed.

Lemma slice_lines ls a b : (a <= b)%nat → slice (concat ls) (off ls a) (off ls b) = concat (take (b - a) (drop a ls)).
Proof.
  intros Hab. unfold slice.
  assert (concat ls = concat (take a ls) ++ concat (take (b - a) (drop a ls)) ++ concat (drop (b - a) (drop a ls))) as ->.
  { by rewrite <-!concat_app, take_drop, take_drop. }
  rewrite drop_app_length' by done.
  assert (off ls b - off ls a = length (concat (take (b - a) (drop a ls))))%nat as ->; [|by rewrite take_app_length].
  pose proof (off_drop ls a (b - a)) as H. unfold off in *. replace (a + (b - a))%nat with b in H by lia. lia.
Qed.

Lemma piece_slice s a b r :
  (a <= matchIndex r)%nat → (matchIndex r + matchLength r <= b)%nat → pieceOf (slice s a b) a r = pieceOf s 0 r.
Proof.
  intros Ha Hb. unfold pieceOf, slice. f_equal. rewrite Nat.sub_0_r, take_drop_commute, take_take.
  rewrite Nat.min_l by lia. rewrite <-take_drop_commute, drop_drop. f_equal. f_equal. lia.
Qed.

Lemma writeGroups_per orig ls at_ gs :
  length orig = length ls → (at_ <= length ls)%nat →
  Forall (GroupOk ls) gs → StronglySorted (λ a b, (endLine a <= startLine b)%nat) gs → Forall (λ g, (at_ <= startLine g)%nat) gs →
  StronglySorted apart (concat (members <$> gs)) →
  PerLines (drop at_ orig) (drop at_ ls) (map (pieceOf (concat ls) 0) (concat (members <$> gs)))
    (writeGroups orig (concat ls) (spansFrom 0 ls) at_ gs).
Proof.
  intros Hlen. revert at_. induction gs as [|g gs IH]; intros at_ Hat Hok Ho Hge Hap.
  { simpl. apply per_all. rewrite !length_drop. lia. }
  apply Forall_cons in Hok as [Hg Hok]. apply StronglySorted_inv in Ho as [Ho Hgo]. apply Forall_cons in Hge as [Hge _].
  simpl in Hap. apply StronglySorted_app in Hap as (_ & Hapg & Hap).
  pose proof (go_lines _ _ Hg) as Hl. simpl. rewrite !spansFrom_lookup by lia. simpl.
  replace (S (endLine g - 1)) with (endLine g) by lia. rewrite map_app.
  assert (Hsplit : ∀ l : list jstr, drop at_ l = take (startLine g - at_) (drop at_ l) ++ take (endLine g - startLine g) (drop (startLine g) l) ++ drop (endLine g) l).
  { intros l. rewrite <-(take_drop (startLine g - at_) (drop at_ l)) at 1. f_equal. rewrite drop_drop.
    replace (at_ + (startLine g - at_))%nat with (startLine g) by lia.
    rewrite <-(take_drop (endLine g - startLine g) (drop (startLine g) l)) at 1. rewrite drop_drop.
    by replace (startLine g + (endLine g - startLine g))%nat with (endLine g) by lia. }
  rewrite (Hsplit orig) at 1. rewrite (Hsplit ls) at 1.
  apply per_keep_all; [rewrite !length_take, !length_drop; lia|]. apply per_group.
  - rewrite !length_take, !length_drop. lia.
  - destruct (members g) eqn:E; [by destruct (go_some _ _ Hg)|done].
  - rewrite slice_lines by lia. rewrite <-slice_lines by lia.
    assert (map (pieceOf (concat ls) 0) (members g) = map (pieceOf (slice (concat ls) (off ls (startLine g)) (off ls (endLine g))) (off ls (startLine g))) (members g)) as ->.
    { apply list_eq_Forall2, Forall2_fmap, Forall_Forall2_diag. eapply Forall_impl; [apply (go_in _ _ Hg)|].
      intros r [Hr1 Hr2]. symmetry. by apply piece_slice. }
    apply applyReplacements_splices; [done|]. eapply Forall_impl; [apply (go_in _ _ Hg)|]. intros r [Hr1 Hr2]. split; [done|].
    assert (length (slice (concat ls) (off ls (startLine g)) (off ls (endLine g))) = off ls (endLine g) - off ls (startLine g))%nat as ->.
    { unfold slice. rewrite length_take, length_drop. pose proof (off_mono ls (endLine g) (length ls)).
      rewrite (off_all ls (length ls)) in * by lia. lia. }
    pose proof (off_mono ls (startLine g) (endLine g)). lia.
  - apply IH; [lia|done|done| |done]. eapply Forall_impl; [exact Hgo|]. intros x Hx. done.
Qed.

Lemma apart_before rs : StronglySorted apart rs → StronglySorted before rs.
Proof.
  induction 1 as [|r rs _ IH Hr]; constructor; [done|]. eapply Forall_impl; [exact Hr|]. unfold apart, before. intros; lia.
Qed.

Lemma StronglySorted_rev {A} (R : relation A) l : StronglySorted R l → StronglySorted (flip R) (rev l).
Proof.
  induction 1 as [|x l Hs IH Hx]; simpl; [constructor|]. apply StronglySorted_app. split_and!; [|done|by repeat constructor].
  intros a b Ha Hb%list_elem_of_singleton. subst. rewrite list_elem_of_In, <-in_rev, <-list_elem_of_In in Ha.
  by apply (proj1 (Forall_forall _ _) Hx).
Qed.

(** The lines that no replacement touches keep their original text. *)
Lemma preserving_per original base rs new :
  StronglySorted apart rs →
  applyReplacementsPreservingUnchangedLines original base rs = Ok new →
  PerLines (splitLinesWithEndings original) (splitLinesWithEndings base) (map (pieceOf base 0) rs) new.
Proof.
  intros Hap. unfold applyReplacementsPreservingUnchangedLines, getLineSpans. rewrite spansFrom_length.
  destruct (Nat.eqb_spec (length (splitLinesWithEndings original)) (length (splitLinesWithEndings base))) as [Hl|]; simpl; [|done].
  rewrite sorted_id by by apply apart_before.
  set (ls := splitLinesWithEndings base) in *.
  destruct (groupAll (spansFrom 0 ls) [] rs) as [gs|] eqn:Eg; [|done]. intros [= <-].
  apply (groupAll_ok ls [] gs [] rs) in Eg as [Hok Ho Hm]; [|by split; [constructor|constructor|]|by apply apart_before].
  simpl in Hm. subst rs. rewrite <-(lines_concat base). fold ls.
  rewrite <-(drop_0 (splitLinesWithEndings original)), <-(drop_0 ls) at 1. rewrite (drop_0 (splitLinesWithEndings original)).
  apply (writeGroups_per _ ls 0); [done|lia|by apply Forall_rev| |by apply Forall_true; lia|done].
  by apply (StronglySorted_rev _ gs) in Ho.
Qed.

(** ** The fuzzy view *)

(** What Unicode says of NFKC: a line feed is a boundary and comes from nothing
    else; and a text in the fuzzy view is in NFKC (no ASCII quote, dash or space
    composes with what follows, and a part of a normal text is normal). *)
Class Nfkc (NFKC : jstr → jstr) : Prop := {
  nfkc_nil : NFKC [] = [];
  nfkc_lines s : split_on LF (NFKC s) = map NFKC (split_on LF s);
  nfkc_settled s : NFKC (normalizeForFuzzyMatch NFKC s) = normalizeForFuzzyMatch NFKC s;
}.

(** A unit is plain already, or it is a space, or it becomes a quote or a dash. *)
Lemma plain_cases c :
  plain c = c ∨ (plain c = 32 ∧ is_space c = true) ∨ (plain c ∈ [39; 34; 45] ∧ 0x2010 <= c <= 0x2212 ∧ is_space c = false).
Proof.
  assert (Hcls : ∀ lo hi, 0x200a < lo → hi < 0x2028 → between lo hi c = true → 0x2010 <= lo → 0x2010 <= c <= 0x2212 ∧ is_space c = false).
  { unfold between, is_space. intros. lia. }
  unfold plain. destruct (between 0x2018 0x201b c) eqn:E1.
  { right. right. unfold plainQuote. rewrite E1. split; [by left|]. by apply (Hcls 0x2018 0x201b). }
  unfold plainQuote. rewrite E1. destruct (between 0x201c 0x201f c) eqn:E2.
  { right. right. unfold plainDouble. rewrite E2. split; [by right; left|]. by apply (Hcls 0x201c 0x201f). }
  unfold plainDouble. rewrite E2. destruct (between 0x2010 0x2015 c || (c =? 0x2212)) eqn:E3.
  { right. right. unfold plainDash. rewrite E3. split; [by right; right; left|]. unfold between, is_space in *. lia. }
  unfold plainDash. rewrite E3. unfold plainSpace. destruct (_ || (c =? 0x3000)) eqn:E4; [|by left].
  right. left. split; [done|]. unfold between, is_space in *. lia.
Qed.

Ltac plain_const Hin := by repeat (apply elem_of_cons in Hin as [->|Hin]; [done|]); apply elem_of_nil in Hin.

Lemma plain_space c : is_space (plain c) = is_space c.
Proof. destruct (plain_cases c) as [->|[[-> ->]|(Hin & _ & ->)]]; [done|done|]. plain_const Hin. Qed.

Lemma plain_plain c : plain (plain c) = plain c.
Proof. destruct (plain_cases c) as [H|[[-> _]|(Hin & _)]]; [by rewrite !H|done|]. plain_const Hin. Qed.

Lemma plain_LF c : plain c = LF ↔ c = LF.
Proof.
  split; [|by intros ->]. destruct (plain_cases c) as [->|[[-> _]|(Hin & _)]]; [done|done|]. plain_const Hin.
Qed.

Lemma split_plain s : split_on LF (map plain s) = map (map plain) (split_on LF s).
Proof.
  induction s as [|c s IH]; [done|]. simpl. destruct (Z.eqb_spec c LF) as [->|Hc]; [simpl; by rewrite IH|].
  rewrite (proj2 (Z.eqb_neq _ _)) by by rewrite plain_LF. rewrite IH. destruct (split_on LF s); done.
Qed.

Lemma trim_start_plain s : trim_start (map plain s) = map plain (trim_start s).
Proof. induction s as [|c s IH]; [done|]. simpl. rewrite plain_space. by destruct (is_space c). Qed.

Lemma trim_start_idem s : trim_start (trim_start s) = trim_start s.
Proof. induction s as [|c s IH]; [done|]. simpl. destruct (is_space c) eqn:E; [done|]. simpl. by rewrite E. Qed.

Lemma trimEnd_plain s : trimEnd (map plain (trimEnd s)) = map plain (trimEnd s).
Proof. unfold trimEnd. rewrite <-map_rev, rev_involutive, trim_start_plain, trim_start_idem. by rewrite map_rev. Qed.

Lemma trimEnd_sub s c : c ∈ trimEnd s → c ∈ s.
Proof.
  unfold trimEnd. rewrite !list_elem_of_In, <-in_rev. intros H. apply in_rev. revert H. induction (rev s) as [|d t IH]; [done|].
  simpl. destruct (is_space d); [|done]. intros H. right. auto.
Qed.

Section View.
Context (NFKC : jstr → jstr) `{!Nfkc NFKC}.
Abbreviation view := (normalizeForFuzzyMatch NFKC).

(** The lines of the view are the views of the lines. *)
Lemma view_lines s : split_on LF (view s) = map (λ l, map plain (trimEnd (NFKC l))) (split_on LF s).
Proof.
  unfold normalizeForFuzzyMatch. rewrite split_plain, split_join.
  - by rewrite nfkc_lines, !map_map.
  - intros H%map_eq_nil. by apply split_on_nonempty in H.
  - apply Forall_fmap. eapply Forall_impl; [apply split_parts_no_sep|]. intros l Hl H. by apply Hl, trimEnd_sub.
Qed.

Lemma view_view s : view (view s) = view s.
Proof.
  unfold normalizeForFuzzyMatch at 1. rewrite nfkc_settled, view_lines, map_map.
  rewrite (map_ext _ (λ l, map plain (trimEnd (NFKC l)))) by (intros; apply trimEnd_plain).
  rewrite <-view_lines, join_split. unfold normalizeForFuzzyMatch. rewrite map_map. apply map_ext, plain_plain.
Qed.
End View.

(** ** Counting *)

Lemma indexOf_le n a b i : indexOf n (a ++ n ++ b) = Some i → (i <= length a)%nat.
Proof.
  revert i. induction a as [|c a IH]; intros i.
  - assert (startsWith n (n ++ b) = true) as E by (apply startsWith_spec; by exists b).
    destruct (n ++ b); simpl; rewrite E; by intros [= <-].
  - simpl. destruct (startsWith n (c :: a ++ n ++ b)); [intros [= <-]; lia|].
    intros (j & Hj%IH & ->)%fmap_Some. lia.
Qed.

Lemma indexOf_found n a b : ∃ i, indexOf n (a ++ n ++ b) = Some i ∧ (i <= length a)%nat.
Proof.
  destruct (indexOf n (a ++ n ++ b)) as [i|] eqn:E; [|by rewrite indexOf_None in E; destruct (E a b)].
  exists i. split; [done|]. by apply indexOf_le in E.
Qed.

Lemma splitFuel_found n fuel a b : n ≠ [] → (length (a ++ n ++ b) <= fuel)%nat → (2 <= length (splitFuel fuel n (a ++ n ++ b)))%nat.
Proof.
  intros Hn Hf. destruct fuel as [|fuel]; [rewrite !length_app in Hf; destruct n; simpl in *; [done|lia]|].
  cbn [splitFuel]. destruct (indexOf_found n a b) as (i & -> & _). simpl.
  assert (∀ f t, (1 <= length (splitFuel f n t))%nat) as H.
  { intros [|f] t; simpl; [lia|]. destruct (indexOf n t); simpl; lia. }
  specialize (H fuel (drop (i + length n) (a ++ n ++ b))). lia.
Qed.

(** Two places that do not overlap count as two. *)
Lemma splitStr_twice n a b c : n ≠ [] → (3 <= length (splitStr n (a ++ n ++ b ++ n ++ c)))%nat.
Proof.
  intros Hn. set (s := a ++ n ++ b ++ n ++ c). assert (splitStr n s = splitFuel (length s) n s) as -> by by destruct n.
  assert (Hl : (0 < length n)%nat) by (destruct n; [done|simpl; lia]).
  assert (Hs : (length s = length a + length n + length b + length n + length c)%nat) by (unfold s; rewrite !length_app; lia).
  destruct (length s) as [|fuel] eqn:Ef; [lia|]. cbn [splitFuel].
  destruct (indexOf_found n a (b ++ n ++ c)) as (i & Hi & Hle). fold s in Hi. rewrite Hi. simpl.
  assert (∃ a', drop (i + length n) s = a' ++ n ++ c ∧ (length (a' ++ n ++ c) <= fuel)%nat) as (a' & -> & Hf).
  { exists (drop (i + length n) (a ++ n ++ b)). split.
    - unfold s. rewrite (app_assoc n), (app_assoc a), (drop_app_le (a ++ n ++ b)); [done|rewrite !length_app; lia].
    - rewrite length_app, length_drop, !length_app. lia. }
  pose proof (splitFuel_found n fuel a' c Hn Hf). lia.
Qed.

(** ** Matching *)

Section Edits.
Context (NFKC : jstr → jstr) `{!Nfkc NFKC}.
Abbreviation view := (normalizeForFuzzyMatch NFKC).

(** [m] is the text of the base that edit [e] replaces: the old text, or its
    view when it does not occur. *)
Definition stands (base : jstr) (e : Edit) (m : jstr) : Prop :=
  m = oldText e ∨ (indexOf (oldText e) base = None ∧ is_Some (indexOf (view (oldText e)) (view base)) ∧ m = view (oldText e)).

(** No two places of the view show the old text. *)
Definition once (base old : jstr) : Prop := view old ≠ [] → ∀ a b c, view base ≠ a ++ view old ++ b ++ view old ++ c.

Lemma count_once base old : countOccurrences NFKC base old <= 1 → once base old.
Proof.
  unfold countOccurrences, once. intros H Hn a b c E. rewrite E in H.
  pose proof (splitStr_twice (view old) a b c Hn). lia.
Qed.

Lemma matchEdits_ok base i edits rs :
  (∀ e m, e ∈ edits → fuzzyFindText NFKC base (oldText e) = Some m → usedFuzzyMatch m = true → view base = base) →
  matchEdits NFKC base i edits = Ok rs →
  Forall2 (λ e r, ∃ m, stands base e m ∧ occursAt m base (matchIndex r) ∧ matchLength r = length m ∧ r_newText r = newText e) edits rs
  ∧ Forall (λ e, once base (oldText e)) edits.
Proof.
  revert i rs. induction edits as [|e edits IH]; intros i rs Hv; simpl; [intros [= <-]; by split|].
  destruct (fuzzyFindText NFKC base (oldText e)) as [m|] eqn:Em; [|done].
  destruct (Z.ltb_spec 1 (countOccurrences NFKC base (oldText e))) as [|Hc]; [done|].
  destruct (matchEdits NFKC base (S i) edits) as [rs'|] eqn:Er; [|done]. intros [= <-].
  apply IH in Er as [Hrs Hon]; [|intros e' m' He'; apply Hv; by right]. apply count_once in Hc.
  split; [constructor; [|done]|by constructor].
  pose proof (Hv e m (list_elem_of_here _ _) Em) as Hvb. unfold fuzzyFindText in Em.
  destruct (indexOf (oldText e) base) as [j|] eqn:Ej.
  - injection Em as <-. exists (oldText e). split; [by left|]. split; [by apply indexOf_Some|done].
  - destruct (indexOf (view (oldText e)) (view base)) as [j|] eqn:Ev; [|done]. injection Em as <-.
    exists (view (oldText e)). split; [right; by eauto|]. split; [|done]. apply indexOf_Some in Ev. simpl.
    by rewrite (Hvb eq_refl) in Ev.
Qed.

Lemma pieces_of base edits rs :
  Forall2 (λ e r, ∃ m, stands base e m ∧ occursAt m base (matchIndex r) ∧ matchLength r = length m ∧ r_newText r = newText e) edits rs →
  Forall2 (λ e p, stands base e p.1 ∧ p.2 = newText e) edits (map (pieceOf base 0) rs)
  ∧ Forall (λ r, (0 <= matchIndex r)%nat ∧ (matchIndex r + matchLength r <= 0 + length base)%nat) rs.
Proof.
  intros H. split.
  - apply Forall2_fmap_r. eapply Forall2_impl; [exact H|]. intros e r (m & Hst & [Ho _] & Hl & Hn). unfold pieceOf. simpl.
    by rewrite Nat.sub_0_r, Hl, Ho.
  - induction H as [|e r edits rs (m & _ & [_ Hb] & Hl & _) _ IH]; constructor; [lia|done].
Qed.

Lemma needsFuzzy_false content edits e m :
  needsFuzzy NFKC content edits = false → e ∈ edits → fuzzyFindText NFKC content (oldText e) = Some m → usedFuzzyMatch m = false.
Proof.
  intros H He Hm. destruct (usedFuzzyMatch m) eqn:E; [|done]. exfalso. unfold needsFuzzy in H.
  assert (existsb (λ e, match fuzzyFindText NFKC content (oldText e) with Some m => usedFuzzyMatch m | None => false end) edits = true); [|congruence].
  apply existsb_exists. exists e. rewrite Hm. split; [by apply list_elem_of_In|done].
Qed.

Lemma stands_exact content edits e m :
  needsFuzzy NFKC content edits = false → e ∈ edits → stands content e m → m = oldText e.
Proof.
  intros H He [->|(Hn & [j Hj] & ->)]; [done|]. exfalso.
  enough (true = false) by done. eapply (needsFuzzy_false content edits e (mkMatch j (length (view (oldText e))) true)); [done|done|].
  unfold fuzzyFindText. by rewrite Hn, Hj.
Qed.

Lemma exact_pieces content edits l ps :
  needsFuzzy NFKC content edits = false → (∀ e, e ∈ l → e ∈ edits) →
  Forall2 (λ e p, stands content e p.1 ∧ p.2 = newText e) l ps → ps = map (λ e, (oldText e, newText e)) l.
Proof.
  intros Hn Hl Hp. induction Hp as [|e [a b] l ps [Hst Hb] _ IH]; [done|]. simpl in *. subst b.
  rewrite IH by (intros; apply Hl; by right). rewrite (stands_exact content edits e a); [done|done|apply Hl; by left|done].
Qed.

Lemma edit_pieces content edits new :
  applyEditsToNormalizedContent NFKC content edits = Ok new →
  let es := map normalizeEdit edits in
  content ≠ new ∧
  ∃ pieces ordered, ordered ≡ₚ pieces ∧
    if needsFuzzy NFKC content es then
      Forall2 (λ e p, stands (view content) e p.1 ∧ p.2 = newText e) es pieces
      ∧ Forall (λ e, once (view content) (oldText e)) es
      ∧ PerLines (splitLinesWithEndings content) (splitLinesWithEndings (view content)) ordered new
    else
      pieces = map (λ e, (oldText e, newText e)) es
      ∧ Forall (λ e, once content (oldText e)) es
      ∧ Splices ordered content new.
Proof.
  intros H es. unfold applyEditsToNormalizedContent in H. fold es in H.
  destruct (firstEmpty 0 es); [done|]. apply rbind_ok in H as (rs & Hrs & H).
  destruct (firstOverlap (sortReplacements rs)) as [[]|] eqn:Eo; [done|]. apply rbind_ok in H as (new' & Hnew & H).
  case_bool_decide as Hne; [done|]. injection H as ->. split; [done|].
  apply firstOverlap_apart in Eo.
  destruct (needsFuzzy NFKC content es) eqn:En.
  - apply matchEdits_ok in Hrs as [Hm Hon]; [|intros; apply view_view, _]. apply pieces_of in Hm as [Hp _].
    exists (map (pieceOf (view content) 0) rs), (map (pieceOf (view content) 0) (sortReplacements rs)).
    split; [by rewrite sortReplacements_perm|]. split; [done|]. split; [done|]. by apply preserving_per.
  - apply matchEdits_ok in Hrs as [Hm Hon].
    2:{ intros e m He Hf Hu. rewrite (needsFuzzy_false content es e m) in Hu; done. }
    apply pieces_of in Hm as [Hp Hb]. injection Hnew as <-.
    exists (map (pieceOf content 0) rs), (map (pieceOf content 0) (sortReplacements rs)).
    split; [by rewrite sortReplacements_perm|]. split; [|split; [done|]].
    + by apply (exact_pieces content es es).
    + apply applyReplacements_splices; [done|]. by rewrite sortReplacements_perm.
Qed.


(** *** Refusals *)

(** The first place of an old text that is seen once is edited. *)
Theorem first_place_is_edited a old new b :
  normalizeToLF old = old → normalizeToLF new = new → old ≠ [] → old ≠ new →
  indexOf old (a ++ old ++ b) = Some (length a) → countOccurrences NFKC (a ++ old ++ b) old <= 1 →
  applyEditsToNormalizedContent NFKC (a ++ old ++ b) [mkEdit old new] = Ok (a ++ new ++ b).
Proof.
  intros Ho Hn Hne Hdiff Hi Hc. unfold applyEditsToNormalizedContent.
  assert (map normalizeEdit [mkEdit old new] = [mkEdit old new]) as -> by (simpl; unfold normalizeEdit; simpl; by rewrite Ho, Hn).
  assert (firstEmpty 0 [mkEdit old new] = None) as -> by (simpl; by destruct old).
  unfold needsFuzzy, fuzzyFindText. simpl. rewrite Hi. simpl. unfold fuzzyFindText. simpl. rewrite Hi. simpl.
  destruct (Z.ltb_spec 1 (countOccurrences NFKC (a ++ old ++ b) old)); [lia|]. simpl.
  unfold applyReplacements. simpl. rewrite Nat.sub_0_r, take_app_length, drop_app_add', drop_app_length by done.
  rewrite bool_decide_eq_false_2; [done|]. intros E%app_inv_head%app_inv_tail. done.
Qed.

(** The last line of a text, without its ending. *)
Definition lastLine (s : jstr) : jstr := default [] (last (split_on LF s)).

Lemma linesFrom_count line s :
  LF ∉ line →
  (length (linesFrom line s) + (if decide (lastLine (line ++ s) = []) then 1 else 0) = length (split_on LF s))%nat.
Proof.
  revert line. induction s as [|c s IH]; intros line Hl.
  - rewrite app_nil_r. assert (split_on LF line = [line]) as E.
    { change line with (join [LF] [line]) at 1. apply split_join; [done|]. by repeat constructor. }
    assert (lastLine line = line) as -> by (unfold lastLine; by rewrite E).
    destruct line; [rewrite decide_True by done|rewrite decide_False by done]; done.
  - simpl linesFrom. destruct (Z.eqb_spec c LF) as [->|Hc].
    + specialize (IH [] (not_elem_of_nil _)). simpl in IH |- *. rewrite <-IH.
      assert (lastLine (line ++ LF :: s) = lastLine s) as ->; [|lia].
      unfold lastLine. pose proof (split_join LF (line :: split_on LF s)) as Hj.
      assert (join [LF] (line :: split_on LF s) = line ++ LF :: s) as Ej.
      { pose proof (split_on_nonempty LF s). simpl. destruct (split_on LF s) eqn:Es; [done|]. rewrite <-Es, join_split. done. }
      rewrite Ej in Hj. rewrite Hj; [|done|constructor; [done|apply split_parts_no_sep]].
      rewrite last_cons. pose proof (split_on_nonempty LF s). destruct (last (split_on LF s)) eqn:El; [done|].
      by apply last_None in El.
    + specialize (IH (line ++ [c])). rewrite <-app_assoc in IH. simpl in IH. rewrite IH.
      * simpl. destruct (Z.eqb_spec c LF); [done|]. pose proof (split_on_nonempty LF s). by destruct (split_on LF s).
      * intros [?|?%list_elem_of_singleton]%elem_of_app; [done|]. by subst.
Qed.

Lemma view_lastLine s : lastLine (view s) = map plain (trimEnd (NFKC (lastLine s))).
Proof.
  unfold lastLine. rewrite view_lines by apply _. rewrite fmap_last.
  pose proof (split_on_nonempty LF s). destruct (last (split_on LF s)) eqn:E; [done|]. by apply last_None in E.
Qed.

(** The two texts have the same number of lines, but for a last line of white
    space alone. *)
Lemma view_line_count s :
  length (splitLinesWithEndings s) = length (splitLinesWithEndings (view s))
  ↔ (lastLine s = [] ∨ trimEnd (NFKC (lastLine s)) ≠ []).
Proof.
  pose proof (linesFrom_count [] s (not_elem_of_nil _)) as H1.
  pose proof (linesFrom_count [] (view s) (not_elem_of_nil _)) as H2. simpl in H1, H2.
  rewrite view_lastLine in H2. rewrite (view_lines NFKC) in H2. rewrite length_map in H2. unfold splitLinesWithEndings.
  destruct (decide (lastLine s = [])) as [E|E], (decide (map plain _ = [])) as [E'|E'].
  - split; [by left|lia].
  - exfalso. apply E'. rewrite E, nfkc_nil. done.
  - split; [lia|]. intros [?|H]; [done|]. apply map_eq_nil in E'. done.
  - split; [|lia]. intros _. right. intros H. apply E'. by rewrite H.
Qed.

(** In a file whose last line is white space alone, with no line feed after
    it, no edit that needs the fuzzy match is ever made: the view has a line
    less, and the tool refuses. *)
Theorem blank_last_line_refuses content edits :
  lastLine content ≠ [] → trimEnd (NFKC (lastLine content)) = [] →
  needsFuzzy NFKC content (map normalizeEdit edits) = true →
  ∃ err, applyEditsToNormalizedContent NFKC content edits = Throw err.
Proof.
  intros Hl Hb Hf. unfold applyEditsToNormalizedContent. destruct (firstEmpty 0 (map normalizeEdit edits)); [by eexists|].
  rewrite Hf. destruct (matchEdits NFKC (view content) 0 (map normalizeEdit edits)) as [rs|err]; [|by exists err]. simpl.
  destruct (firstOverlap (sortReplacements rs)) as [[]|]; [by eexists|].
  unfold applyReplacementsPreservingUnchangedLines, getLineSpans. rewrite spansFrom_length.
  destruct (Nat.eqb_spec (length (splitLinesWithEndings content)) (length (splitLinesWithEndings (view content)))) as [E|E]; simpl.
  - apply view_line_count in E as [E|E]; done.
  - by eexists.
Qed.

End Edits.

(** ** The form of a file *)

Lemma restore_app a b e : restoreLineEndings (a ++ b) e = restoreLineEndings a e ++ restoreLineEndings b e.
Proof. destruct e; [apply flat_map_app|done]. Qed.

Lemma replaceCrLf_other c s : c ≠ CR → replaceCrLf (c :: s) = c :: replaceCrLf s.
Proof. intros Hc. destruct s as [|d s]; [done|]. cbn [replaceCrLf]. by rewrite (proj2 (Z.eqb_neq c CR)). Qed.

Lemma normalize_no_cr s : CR ∉ s → normalizeToLF s = s.
Proof.
  intros Hs. unfold normalizeToLF. assert (replaceCrLf s = s) as ->.
  { induction s as [|c s IH]; [done|]. apply not_elem_of_cons in Hs as [Hc Hs]. rewrite replaceCrLf_other by done. by rewrite IH. }
  induction s as [|c s IH]; [done|]. apply not_elem_of_cons in Hs as [Hc Hs]. simpl.
  rewrite (proj2 (Z.eqb_neq c CR)) by done. by rewrite IH.
Qed.

Lemma replaceCrLf_restore t : CR ∉ t → replaceCrLf (restoreLineEndings t crlf) = t.
Proof.
  induction t as [|c t IH]; intros Ht; [done|]. apply not_elem_of_cons in Ht as [Hc Ht]. specialize (IH Ht). simpl in *.
  destruct (Z.eqb_spec c LF) as [->|Hn]; [simpl; by rewrite IH|]. simpl app.
  rewrite replaceCrLf_other by done. by rewrite IH.
Qed.

Lemma normalize_restore t e : CR ∉ t → normalizeToLF (restoreLineEndings t e) = t.
Proof.
  intros Ht. destruct e; [|by apply normalize_no_cr].
  unfold normalizeToLF. rewrite replaceCrLf_restore by done.
  induction t as [|c t IH]; [done|]. apply not_elem_of_cons in Ht as [Hc Ht]. simpl.
  rewrite (proj2 (Z.eqb_neq c CR)) by done. by rewrite IH.
Qed.

Lemma indexOf_absent c n s : c ∈ n → c ∉ s → indexOf n s = None.
Proof.
  intros Hn Hs. apply indexOf_None. intros a b ->. apply Hs. rewrite !elem_of_app. auto.
Qed.

Lemma indexOf_skip x n c s : x ≠ c → indexOf (x :: n) (c :: s) = S <$> indexOf (x :: n) s.
Proof. intros H. cbn [indexOf startsWith]. by rewrite (proj2 (Z.eqb_neq x c) H). Qed.

Lemma restore_indexOf t :
  CR ∉ t → LF ∈ t →
  ∃ k, indexOf [CR; LF] (restoreLineEndings t crlf) = Some k ∧ indexOf [LF] (restoreLineEndings t crlf) = Some (S k).
Proof.
  induction t as [|c t IH]; intros Hcr Hlf; [by apply not_elem_of_nil in Hlf|].
  apply not_elem_of_cons in Hcr as [Hc Hcr].
  cbn [restoreLineEndings flat_map] in *. destruct (Z.eqb_spec c LF) as [->|Hn]; [by exists O|].
  apply elem_of_cons in Hlf as [?|Hlf]; [by subst|]. destruct (IH Hcr Hlf) as (k & H1 & H2). exists (S k).
  simpl app. rewrite !indexOf_skip by done. by rewrite H1, H2.
Qed.

Lemma detect_restore t e : CR ∉ t → (e = crlf → LF ∈ t) → detectLineEnding (restoreLineEndings t e) = e.
Proof.
  intros Hcr He. unfold detectLineEnding. destruct e.
  - destruct (restore_indexOf t Hcr (He eq_refl)) as (k & -> & ->). by rewrite (proj2 (Nat.ltb_lt _ _)) by lia.
  - rewrite (indexOf_absent CR [CR; LF]); [by destruct (indexOf [LF] _)|by left|done].
Qed.

Definition bomOf (b : bool) : jstr := if b then [BOM] else [].

Lemma strip_bom b s : (b = false → head s ≠ Some BOM) → stripBom (bomOf b ++ s) = (bomOf b, s).
Proof.
  intros H. destruct b; simpl; [done|]. destruct s as [|c s]; [done|]. unfold stripBom.
  destruct (Z.eqb_spec c BOM) as [->|]; [|done]. by destruct (H eq_refl).
Qed.

(** Splicing commutes with the change of the line endings. *)
Lemma Splices_restore es s s' e :
  Splices es s s' →
  Splices (map (λ p, (restoreLineEndings p.1 e, restoreLineEndings p.2 e)) es) (restoreLineEndings s e) (restoreLineEndings s' e).
Proof.
  induction 1 as [s|pre old new es s s' H IH]; simpl; [constructor|]. rewrite !restore_app. by constructor.
Qed.

(** A file keeps its form.  Let a file have one kind of line ending, and a
    byte order mark or none.  The edits see its lines as ended by line feeds,
    and what is written has the mark and the endings again: with exact matches
    it is the file's own text with the old texts, in the file's endings, replaced. *)
Theorem edit_keeps_file_form NFKC `{!Nfkc NFKC} (b : bool) t e edits out :
  CR ∉ t → (e = crlf → LF ∈ t) → (b = false → head t ≠ Some BOM) →
  editText NFKC (bomOf b ++ restoreLineEndings t e) edits = Ok out ↔
  ∃ new, applyEditsToNormalizedContent NFKC t edits = Ok new ∧ out = bomOf b ++ restoreLineEndings new e
    ∧ (needsFuzzy NFKC t (map normalizeEdit edits) = false →
       ∃ ps, ps ≡ₚ map (λ ed, (restoreLineEndings (oldText ed) e, restoreLineEndings (newText ed) e)) (map normalizeEdit edits)
             ∧ Splices ps (restoreLineEndings t e) (restoreLineEndings new e)).
Proof.
  intros Hcr He Hb. unfold editText. rewrite strip_bom.
  2:{ intros Hbf. specialize (Hb Hbf). destruct t as [|c t]; [by destruct e|]. simpl in *. destruct e; simpl; [|done].
      destruct (Z.eqb_spec c LF); simpl; done. }
  rewrite detect_restore, normalize_restore by done. split.
  - intros (new & Hnew & [= <-])%rbind_ok. exists new. split; [done|]. split; [done|]. intros Hf.
    destruct (edit_pieces NFKC t edits new Hnew) as (_ & ps & ordered & Hp & H). rewrite Hf in H. destruct H as (-> & _ & H).
    apply (Splices_restore _ _ _ e) in H. eexists. split; [|exact H]. rewrite Hp. by rewrite !map_map.
  - intros (new & -> & -> & _). done.
Qed.

(** ** Witnesses *)

(** A normal form of the full-width Latin letters and signs. *)
Definition narrow (c : Z) : Z := if between 0xff01 0xff5e c then c - 0xfee0 else c.
Definition narrowAll (s : jstr) : jstr := map narrow s.

Lemma narrow_LF c : narrow c = LF ↔ c = LF.
Proof. unfold narrow, between, LF. destruct ((0xff01 <=? c) && (c <=? 0xff5e)) eqn:E; lia. Qed.

Lemma narrow_plain c : narrow (plain (narrow c)) = plain (narrow c).
Proof.
  assert (Hn : narrow (narrow c) = narrow c) by (unfold narrow, between; destruct ((0xff01 <=? c) && (c <=? 0xff5e)) eqn:E; [|by rewrite E];
    destruct ((0xff01 <=? c - 0xfee0) && (c - 0xfee0 <=? 0xff5e)) eqn:E'; lia).
  destruct (plain_cases (narrow c)) as [H|[[H _]|[Hin _]]]; [by rewrite H|by rewrite H|]. plain_const Hin.
Qed.

#[export] Instance narrow_Nfkc : Nfkc narrowAll.
Proof.
  split; [done| |].
  - intros s. unfold narrowAll. induction s as [|c s IH]; [done|]. simpl. destruct (Z.eqb_spec c LF) as [->|Hc]; [simpl; by rewrite IH|].
    rewrite (proj2 (Z.eqb_neq _ _)) by by rewrite narrow_LF. rewrite IH. by destruct (split_on LF s).
  - intros s. unfold normalizeForFuzzyMatch, narrowAll. rewrite map_map. apply map_ext_in. intros c Hc.
    assert (∃ d, c = narrow d) as [d ->]; [|apply narrow_plain].
    assert (Hall : ∀ ls, Forall (λ l, ∀ x, x ∈ l → ∃ d, x = narrow d) ls → ∀ x, x ∈ join [LF] ls → ∃ d, x = narrow d).
    { induction ls as [|l ls IH]; intros Hls x Hx; [by apply not_elem_of_nil in Hx|]. apply Forall_cons in Hls as [Hl Hls].
      simpl in Hx. destruct ls as [|l' ls]; [by apply Hl|].
      apply elem_of_app in Hx as [Hx|[Hx|Hx]%elem_of_cons]; [by apply Hl| |by apply IH]. exists LF. by subst. }
    apply list_elem_of_In in Hc. eapply Hall; [|exact Hc]. apply Forall_fmap, Forall_forall. intros l Hl x Hx%trimEnd_sub.
    assert (x ∈ join [LF] (split_on LF (map narrow s))) as Hj.
    { clear Hc Hall. induction (split_on LF (map narrow s)) as [|l' ls IH]; [by apply not_elem_of_nil in Hl|].
      apply elem_of_cons in Hl as [->|Hl]; simpl; (destruct ls; [done || by apply not_elem_of_nil in Hl|]); rewrite elem_of_app, elem_of_cons; auto. }
    rewrite join_split in Hj. apply list_elem_of_fmap in Hj as (d & -> & _). by exists d.
Qed.

(** The text [it’s ok], a line feed and [fine]. *)
Definition curlyText : jstr := js "it" ++ [0x2019] ++ js "s ok" ++ [LF] ++ js "fine".


Lemma first_place_is_edited_witness :
  applyEditsToNormalizedContent narrowAll (js "a x b") [mkEdit (js "x") (js "y")] = Ok (js "a y b").
Proof.
  refine (first_place_is_edited narrowAll (js "a ") (js "x") (js "y") (js " b") _ _ _ _ _ _);
    first [discriminate | vm_compute; reflexivity | vm_compute; discriminate].
Defined.

Lemma blank_last_line_refuses_witness :
  ∃ err, applyEditsToNormalizedContent narrowAll (js "it" ++ [0x2019] ++ js "s" ++ [LF] ++ js "  ") [mkEdit (js "it's") (js "it is")] = Throw err.
Proof.
  refine (blank_last_line_refuses narrowAll _ _ _ _ _).
  - vm_compute. discriminate.
  - vm_compute. reflexivity.
  - vm_compute. reflexivity.
Defined.

Lemma edit_keeps_file_form_witness :
  ∃ new, applyEditsToNormalizedContent narrowAll (js "a" ++ [LF] ++ js "b") [mkEdit (js "b") (js "c")] = Ok new
    ∧ [BOM] ++ js "a" ++ [CR; LF] ++ js "c" = bomOf true ++ restoreLineEndings new crlf.
Proof.
  destruct (proj1 (edit_keeps_file_form narrowAll true (js "a" ++ [LF] ++ js "b") crlf [mkEdit (js "b") (js "c")]
      ([BOM] ++ js "a" ++ [CR; LF] ++ js "c") ltac:(by apply (bool_decide_unpack _)) ltac:(intros _; by apply (bool_decide_unpack _)) ltac:(discriminate)))
    as (new & H1 & H2 & _).
  - vm_compute. reflexivity.
  - by exists new.
Defined.

(** ** Where the tool does more than it says *)

(** One [CR LF] first, and every line of the file gets one, touched or not. *)
Theorem mixed_endings_change :
  editText narrowAll (js "a" ++ [CR; LF] ++ js "b" ++ [LF] ++ js "c") [mkEdit (js "c") (js "d")]
  = Ok (js "a" ++ [CR; LF] ++ js "b" ++ [CR; LF] ++ js "d").
Proof. vm_compute. reflexivity. Qed.

(** Two places that overlap count as one: the first is edited. *)
Theorem overlapping_places_are_one :
  occursAt (js "aa") (js "aaa") 0 ∧ occursAt (js "aa") (js "aaa") 1
  ∧ editText narrowAll (js "aaa") [mkEdit (js "aa") (js "b")] = Ok (js "ba").
Proof. split; [split; simpl; [done|lia]|]. split; [split; simpl; [done|lia]|]. vm_compute. reflexivity. Qed.

(** An old text of white space alone, which the file does not have, is found at
    the start of a file of two characters. *)
Theorem blank_text_is_found :
  indexOf (js "  ") (js "ab") = None ∧ editText narrowAll (js "ab") [mkEdit (js "  ") (js "x")] = Ok (js "xab").
Proof. split; vm_compute; reflexivity. Qed.

End EditProofs.
