(* ===== verification/FileTools.v ===== *)
(** * The file Working tools (harness/src/file-tools.ts)

    [read], [write] and [edit] over the file operations of the spawner.  A tool
    is a [Prog], a tree of the operations it asks for in their order: what the
    file system answers, and what else changes it between two operations, is
    the world's ([run]).  Node's words for an error number, [fileURLToPath] and
    the Unicode normal forms are parameters.  Offsets and limits are integers. *)

From Stdlib Require Import Lia ZArith.
From stdpp Require Import base list strings sets.
From S2P Require Import Prelude JsString Json JsObject Utf8 Truncate Edit.

Open Scope Z_scope.

Module FileTools.

(** ** Paths, as node:path's posix functions read them *)

Definition SLASH : Z := 47.
Definition DOT : jstr := js ".".
Definition DOTS : jstr := js "..".

Definition isAbsolute (p : jstr) : bool := match p with c :: _ => c =? SLASH | [] => false end.

(** [normalizeString]: the segments that stay, last first. [above]: a [..] that
    nothing precedes stays. *)
Definition pushSegment (above : bool) (stack : list jstr) (seg : jstr) : list jstr :=
  if bool_decide (seg = []) || bool_decide (seg = DOT) then stack
  else if bool_decide (seg = DOTS) then
    match stack with
    | top :: rest => if bool_decide (top = DOTS) then (if above then seg :: stack else stack) else rest
    | [] => if above then [seg] else []
    end
  else seg :: stack.

Definition normalSegments (above : bool) (p : jstr) : list jstr :=
  rev (foldl (pushSegment above) [] (split_on SLASH p)).

(** [posix.normalize] *)
Definition normalize (p : jstr) : jstr :=
  match p with
  | [] => DOT
  | _ =>
      let abs := isAbsolute p in
      let body := join [SLASH] (normalSegments (negb abs) p) in
      let trail := if ends_with SLASH p then [SLASH] else [] in
      match body with
      | [] => if abs then [SLASH] else DOT ++ trail
      | _ => (if abs then [SLASH] else []) ++ body ++ trail
      end
  end.

(** [join(a, b)] *)
Definition joinPath (a b : jstr) : jstr :=
  match a, b with
  | [], [] => DOT
  | [], _ => normalize b
  | _, [] => normalize a
  | _, _ => normalize (a ++ [SLASH] ++ b)
  end.

(** [dirname] and [basename] of a resolved path. *)
Definition dirname (p : jstr) : jstr :=
  match rev (split_on SLASH p) with
  | _ :: d => match join [SLASH] (rev d) with [] => [SLASH] | d' => d' end
  | [] => [SLASH]
  end.

Definition basename (p : jstr) : jstr := default [] (last (split_on SLASH p)).

Section Environment.
Context (processCwd : jstr) (fileURLToPath : jstr → option jstr) (NFKC NFD : jstr → jstr).
(** Node's words for an error code. *)
Context (systemErrorMessage : jstr → option jstr).

(** [resolve(p)] and [resolve(cwd, p)] *)
Definition resolveAbsolute (p : jstr) : jstr := [SLASH] ++ join [SLASH] (normalSegments false p).

Definition resolve1 (p : jstr) : jstr :=
  resolveAbsolute (if isAbsolute p then p else processCwd ++ [SLASH] ++ p).

Definition resolve2 (cwd p : jstr) : jstr :=
  resolve1 (if isAbsolute p then p else match cwd with [] => p | _ => cwd ++ [SLASH] ++ p end).

Definition resolvePath (cwd path home : jstr) : jstr :=
  let normalized :=
    if bool_decide (path = js "~") then home
    else if Edit.startsWith (js "~/") path then joinPath home (drop 2 path)
    else if Edit.startsWith (js "file://") path then default path (fileURLToPath path)
    else path in
  if isAbsolute normalized then resolve1 normalized else resolve2 cwd normalized.

Record At := mkAt { cwd : jstr; home : jstr }.

Definition plainUnicodeSpace (c : Z) : Z :=
  if (c =? 0xa0) || Edit.between 0x2000 0x200a c || (c =? 0x202f) || (c =? 0x205f) || (c =? 0x3000) then 32 else c.

Definition resolveToolPath (at_ : At) (path : jstr) : jstr :=
  let spaced := map plainUnicodeSpace path in
  resolvePath (cwd at_) (if Edit.startsWith (js "@") spaced then drop 1 spaced else spaced) (home at_).

(** The variants that [read] tries. *)
Definition upper (c : Z) : Z := if (97 <=? c) && (c <=? 122) then c - 32 else c.

(** [.replace(/ (AM|PM)\./gi, "\u202F$1.")] *)
Fixpoint narrowBeforeAmPm (fuel : nat) (s : jstr) : jstr :=
  match fuel, s with
  | S f, c :: a :: m :: d :: s' =>
      if (c =? 32) && ((upper a =? 65) || (upper a =? 80)) && (upper m =? 77) && (d =? 46)
      then 0x202f :: a :: m :: d :: narrowBeforeAmPm f s'
      else c :: narrowBeforeAmPm f (a :: m :: d :: s')
  | _, _ => s
  end.

Definition curlyApostrophe (s : jstr) : jstr := map (λ c, if c =? 39 then 0x2019 else c) s.

Definition readVariants (resolved : jstr) : list jstr :=
  [resolved; narrowBeforeAmPm (length resolved) resolved; NFD resolved; curlyApostrophe resolved; curlyApostrophe (NFD resolved)].

(** [new Set(l)]: each value at its first place. *)
Fixpoint firstPlaces (seen l : list jstr) : list jstr :=
  match l with
  | [] => []
  | x :: l' => if bool_decide (x ∈ seen) then firstPlaces seen l' else x :: firstPlaces (seen ++ [x]) l'
  end.

(** ** Errors *)

(** What a file operation of the spawner fails with: [FileOpError], or another
    error. *)
Inductive Failure :=
| OpError (code syscall path : jstr)
| OtherError (message : jstr).

(** What a tool throws: a [FileError], or another error, with a code or none. *)
Inductive Thrown :=
| FileError (code message : jstr)
| PlainError (code : option jstr) (message : jstr).

Definition messageOf (t : Thrown) : jstr := match t with FileError _ m | PlainError _ m => m end.

Definition fileErrorCode (code : option jstr) : jstr :=
  match code with
  | None => js "unknown"
  | Some c =>
      if bool_decide (c = js "ABORT_ERR") then js "aborted"
      else if bool_decide (c = js "ENOENT") then js "not_found"
      else if bool_decide (c = js "EACCES") || bool_decide (c = js "EPERM") then js "permission_denied"
      else if bool_decide (c = js "ENOTDIR") then js "not_directory"
      else if bool_decide (c = js "EISDIR") then js "is_directory"
      else if bool_decide (c = js "EINVAL") then js "invalid"
      else js "unknown"
  end.

Definition fileError (t : Thrown) : Thrown :=
  match t with
  | FileError _ _ => t
  | PlainError c m => FileError (fileErrorCode c) m
  end.

Definition codeOf (t : Thrown) : jstr := match fileError t with FileError c _ => c | PlainError _ _ => [] end.

Definition nodeError (err : Failure) (path : jstr) (syscall : option jstr) : Thrown :=
  match err with
  | OtherError m => PlainError None m
  | OpError code call0 opPath =>
      let words := default code (systemErrorMessage code) in
      let call := default (if bool_decide (call0 = js "stat") || bool_decide (call0 = js "lstat") then js "lstat" else call0) syscall in
      let named :=
        if bool_decide (call = js "read") || bool_decide (call = js "write") then []
        else js " '" ++ (if bool_decide (call = js "mkdir") then opPath else path) ++ js "'" in
      PlainError (Some code) (code ++ js ": " ++ words ++ js ", " ++ call ++ named)
  end.

(** ** Programs over the file operations *)

Inductive StatKind := statFile | statDirectory | statOther.
Record StatAnswer := mkStat { kind : StatKind; realpath : jstr }.

Inductive Prog (A : Type) :=
| Done (r : result Thrown A)
| Stat (path : jstr) (k : result Failure StatAnswer → Prog A)
| ReadFile (path : jstr) (k : result Failure (list Z) → Prog A)
| WriteFile (path : jstr) (data : list Z) (k : result Failure () → Prog A)
| Aborted (k : bool → Prog A).  (** [signal?.aborted] *)
#[global] Arguments Done {A}.
#[global] Arguments Stat {A}.
#[global] Arguments ReadFile {A}.
#[global] Arguments WriteFile {A}.
#[global] Arguments Aborted {A}.

(** [try] with what is done after it, or after what it threw. *)
Fixpoint attempt {A B} (p : Prog A) (k : result Thrown A → Prog B) : Prog B :=
  match p with
  | Done r => k r
  | Stat path f => Stat path (λ a, attempt (f a) k)
  | ReadFile path f => ReadFile path (λ a, attempt (f a) k)
  | WriteFile path d f => WriteFile path d (λ a, attempt (f a) k)
  | Aborted f => Aborted (λ a, attempt (f a) k)
  end.

Definition andThen {A B} (p : Prog A) (k : A → Prog B) : Prog B :=
  attempt p (λ r, match r with Ok a => k a | Throw e => Done (Throw e) end).

Definition throw {A} (t : Thrown) : Prog A := Done (Throw t).
Definition fail {A} (m : jstr) : Prog A := throw (PlainError None m).

Inductive Kind := kFile | kDirectory | kSymlink.

#[export] Instance Kind_eq_dec : EqDecision Kind.
Proof. solve_decision. Defined.

Definition isLink (path real : jstr) : Prog bool :=
  Stat (dirname path) (λ a,
    match a with
    | Throw _ => Done (Ok false)
    | Ok folder => Done (Ok (negb (bool_decide (real = joinPath (realpath folder) (basename path)))))
    end).

Definition kindOf (path : jstr) : Prog Kind :=
  Stat path (λ a,
    match a with
    | Throw e => throw (fileError (nodeError e path (Some (js "lstat"))))
    | Ok stats =>
        match kind stats with
        | statFile => Done (Ok kFile)
        | k =>
            andThen (isLink path (realpath stats)) (λ l : bool,
              if l then Done (Ok kSymlink)
              else match k with
                   | statDirectory => Done (Ok kDirectory)
                   | _ => throw (FileError (js "invalid") (js "Unsupported file type"))
                   end)
        end
    end).

Definition exists_ (path : jstr) : Prog bool :=
  attempt (kindOf path) (λ r,
    match r with
    | Ok _ => Done (Ok true)
    | Throw (FileError c m) => if bool_decide (c = js "not_found") then Done (Ok false) else throw (FileError c m)
    | Throw t => throw t
    end).

Fixpoint firstThere (resolved : jstr) (variants : list jstr) : Prog jstr :=
  match variants with
  | [] => Done (Ok resolved)
  | v :: vs => andThen (exists_ v) (λ there : bool, if there then Done (Ok v) else firstThere resolved vs)
  end.

Definition resolveReadToolPath (at_ : At) (path : jstr) : Prog jstr :=
  let resolved := resolveToolPath at_ path in firstThere resolved (firstPlaces [] (readVariants resolved)).

Definition writeContent (path content : jstr) : Prog () :=
  Aborted (λ b : bool,
    if b then throw (FileError (js "aborted") (js "aborted"))
    else WriteFile path (Utf8.encode content) (λ a,
           match a with Ok u => Done (Ok u) | Throw e => throw (fileError (nodeError e path None)) end)).

Definition readContent (path : jstr) : Prog (list Z) :=
  ReadFile path (λ a, match a with Ok bs => Done (Ok bs) | Throw e => throw (nodeError e path None) end).

Definition mutationKey (path : jstr) : Prog jstr :=
  Stat path (λ a,
    match a with
    | Ok s => Done (Ok (realpath s))
    | Throw (OpError c call p) =>
        if bool_decide (c = js "ENOENT") then Done (Ok path)
        else throw (fileError (nodeError (OpError c call p) path (Some (js "realpath"))))
    | Throw e => throw (fileError (nodeError e path (Some (js "realpath"))))
    end).

(** ** Images, by their first bytes *)

Definition byteAt (b : list Z) (i : nat) : Z := default 0 (b !! i).

Definition readUint16LE (b : list Z) (o : nat) : Z := byteAt b o + Z.shiftl (byteAt b (o + 1)) 8.
Definition readUint32BE (b : list Z) (o : nat) : Z :=
  byteAt b o * 0x1000000 + Z.shiftl (byteAt b (o + 1)) 16 + Z.shiftl (byteAt b (o + 2)) 8 + byteAt b (o + 3).
Definition readUint32LE (b : list Z) (o : nat) : Z :=
  byteAt b o + Z.shiftl (byteAt b (o + 1)) 8 + Z.shiftl (byteAt b (o + 2)) 16 + byteAt b (o + 3) * 0x1000000.

(** [startsWith(buffer, bytes)] and [startsWithAscii(buffer, offset, text)] *)
Definition bytesAt (b : list Z) (o : nat) (bytes : list Z) : bool := bool_decide (take (length bytes) (drop o b) = bytes).

Definition PNG_SIGNATURE : list Z := [0x89; 0x50; 0x4e; 0x47; 0x0d; 0x0a; 0x1a; 0x0a].

Definition isPng (b : list Z) : bool :=
  (16 <=? Z.of_nat (length b)) && (readUint32BE b 8 =? 13) && bytesAt b 12 (js "IHDR").

(** Each round goes at least 12 bytes on. *)
Fixpoint animatedFrom (fuel : nat) (b : list Z) (offset : nat) : bool :=
  match fuel with
  | O => false
  | S f =>
      if (offset + 8 <=? length b)%nat then
        let chunkLength := readUint32BE b offset in
        if bytesAt b (offset + 4) (js "acTL") then true
        else if bytesAt b (offset + 4) (js "IDAT") then false
        else
          let nextOffset := Z.of_nat offset + 8 + chunkLength + 4 in
          if (nextOffset <=? Z.of_nat offset) || (Z.of_nat (length b) <? nextOffset) then false
          else animatedFrom f b (Z.to_nat nextOffset)
      else false
  end.

Definition isAnimatedPng (b : list Z) : bool := animatedFrom (length b) b (length PNG_SIGNATURE).

Definition isBmp (b : list Z) : bool :=
  let len := Z.of_nat (length b) in
  if len <? 26 then false
  else
    let declaredFileSize := readUint32LE b 2 in
    let pixelDataOffset := readUint32LE b 10 in
    let dibHeaderSize := readUint32LE b 14 in
    if negb (declaredFileSize =? 0) && (declaredFileSize <? 26) then false
    else if pixelDataOffset <? 14 + dibHeaderSize then false
    else if negb (declaredFileSize =? 0) && (declaredFileSize <=? pixelDataOffset) then false
    else
      let good (colorPlanes bitsPerPixel : Z) := (colorPlanes =? 1) && bool_decide (bitsPerPixel ∈ [1; 4; 8; 16; 24; 32]) in
      if dibHeaderSize =? 12 then good (readUint16LE b 22) (readUint16LE b 24)
      else if (40 <=? dibHeaderSize) && (dibHeaderSize <=? 124) then
        if len <? 30 then false else good (readUint16LE b 26) (readUint16LE b 28)
      else false.

Inductive Mime := jpeg | png | gif | webp | bmp.

#[export] Instance Mime_eq_dec : EqDecision Mime.
Proof. solve_decision. Defined.

Definition mimeText (m : Mime) : jstr :=
  match m with jpeg => js "image/jpeg" | png => js "image/png" | gif => js "image/gif" | webp => js "image/webp" | bmp => js "image/bmp" end.

Definition detectSupportedImageMimeType (b : list Z) : option Mime :=
  if bytesAt b 0 [0xff; 0xd8; 0xff] then (if bool_decide (b !! 3%nat = Some 0xf7) then None else Some jpeg)
  else if bytesAt b 0 PNG_SIGNATURE then (if isPng b && negb (isAnimatedPng b) then Some png else None)
  else if bytesAt b 0 (js "GIF") then Some gif
  else if bytesAt b 0 (js "RIFF") && bytesAt b 8 (js "WEBP") then Some webp
  else if bytesAt b 0 (js "BM") && isBmp b then Some bmp
  else None.

(** ** read *)

(** A number in a text. *)
Definition num (n : Z) : jstr := if n <? 0 then js "-" ++ of_int (- n) else of_int n.

(** [l.slice(a, b)]: an index below zero counts from the end. *)
Definition sliceIndex (len i : Z) : Z := if i <? 0 then Z.max 0 (len + i) else Z.min i len.
Definition sliceLines (l : list jstr) (a b : Z) : list jstr :=
  let len := Z.of_nat (length l) in
  let from := sliceIndex len a in let to := sliceIndex len b in
  take (Z.to_nat (to - from)) (drop (Z.to_nat from) l).

(** What a read of text shows. *)
Inductive ReadNote :=
| NoNote
| Showing (first_ last_ total : Z) (byBytes : bool) (nextOffset : Z)
| More (remaining nextOffset : Z).

Inductive ReadOut :=
| LineTooLong (line size : Z)
| Shown (content : jstr) (note : ReadNote).

Definition defaultLimits : Truncate.TruncationOptions := {| Truncate.optLines := None; Truncate.optBytes := None |}.

(** [new TextDecoder().decode(bytes)]: a leading byte order mark is dropped. *)
Definition decodeText (bs : list Z) : jstr :=
  match Utf8.decode bs with c :: s => if c =? Edit.BOM then s else c :: s | [] => [] end.

Definition readLines (allLines : list jstr) (offset limit : option Z) : result Thrown ReadOut :=
  let total := Z.of_nat (length allLines) in
  let startLine := match offset with Some o => if o =? 0 then 0 else Z.max 0 (o - 1) | None => 0 end in
  if total <=? startLine then
    Throw (PlainError None (js "Offset " ++ num (default 0 offset) ++ js " is beyond end of file (" ++ num total ++ js " lines total)"))
  else
    let '(selectedContent, userLimitedLines) :=
      match limit with
      | Some l => let endLine := Z.min (startLine + l) total in
                  (join [10] (sliceLines allLines startLine endLine), Some (endLine - startLine))
      | None => (join [10] (drop (Z.to_nat startLine) allLines), None)
      end in
    match Truncate.truncateHead selectedContent defaultLimits with
    | None => Throw (PlainError None (js "undefined"))
    | Some t =>
        if Truncate.firstLineExceedsLimit t then
          Ok (LineTooLong (startLine + 1) (utf8ByteLength (default [] (allLines !! Z.to_nat startLine))))
        else if Truncate.truncated t then
          let endLineDisplay := startLine + 1 + Truncate.outputLines t - 1 in
          Ok (Shown (Truncate.content t)
                (Showing (startLine + 1) endLineDisplay total
                   (match Truncate.truncatedBy t with Some Truncate.lines => false | _ => true end) (endLineDisplay + 1)))
        else
          match userLimitedLines with
          | Some u =>
              if startLine + u <? total
              then Ok (Shown (Truncate.content t) (More (total - (startLine + u)) (startLine + u + 1)))
              else Ok (Shown (Truncate.content t) NoNote)
          | None => Ok (Shown (Truncate.content t) NoNote)
          end
    end.

Definition readText (path : jstr) (r : ReadOut) : jstr :=
  match r with
  | LineTooLong n size =>
      js "[Line " ++ num n ++ js " is " ++ Truncate.formatSize size ++ js ", exceeds " ++ Truncate.formatSize Truncate.DEFAULT_MAX_BYTES
      ++ js " limit. Use bash: sed -n '" ++ num n ++ js "p' " ++ path ++ js " | head -c " ++ num Truncate.DEFAULT_MAX_BYTES ++ js "]"
  | Shown c NoNote => c
  | Shown c (Showing a b total byBytes next) =>
      c ++ [10; 10] ++ js "[Showing lines " ++ num a ++ js "-" ++ num b ++ js " of " ++ num total
      ++ (if byBytes then js " (" ++ Truncate.formatSize Truncate.DEFAULT_MAX_BYTES ++ js " limit)" else [])
      ++ js ". Use offset=" ++ num next ++ js " to continue.]"
  | Shown c (More remaining next) =>
      c ++ [10; 10] ++ js "[" ++ num remaining ++ js " more lines in file. Use offset=" ++ num next ++ js " to continue.]"
  end.

Inductive ToolContent := TextOut (text : jstr) | ImageOut (data : list Z) (mimeType : Mime).

Definition readTool (at_ : At) (path : jstr) (offset limit : option Z) : Prog (list ToolContent) :=
  andThen (resolveReadToolPath at_ path) (λ absolutePath,
  Aborted (λ b : bool,
  if b then throw (FileError (js "aborted") (js "aborted")) else
  attempt (readContent absolutePath) (λ r,
    match r with
    | Throw e => throw (fileError e)
    | Ok bytes =>
        match detectSupportedImageMimeType bytes with
        | Some bmp => Done (Ok [TextOut (js "Read image file [image/bmp]" ++ [10] ++ js "[Image omitted: configure an imageProcessor to convert BMP images.]")])
        | Some m => Done (Ok [TextOut (js "Read image file [" ++ mimeText m ++ js "]"); ImageOut bytes m])
        | None =>
            match readLines (split_on 10 (decodeText bytes)) offset limit with
            | Throw e => throw e
            | Ok out => Done (Ok [TextOut (readText path out)])
            end
        end
    end))).

(** ** write and edit *)

Definition ABORTED : jstr := js "Operation aborted".

(** [if (signal?.aborted) throw new Error("Operation aborted")] *)
Definition unlessAborted {A} (p : Prog A) : Prog A := Aborted (λ b : bool, if b then fail ABORTED else p).

(** Both tools run what follows in the file's queue: their key first. *)
Definition writeBody (path absolutePath content : jstr) : Prog jstr :=
  unlessAborted (andThen (writeContent absolutePath content) (λ _,
  unlessAborted (Done (Ok (js "Successfully wrote " ++ num (utf8ByteLength content) ++ js " bytes to " ++ path))))).

(** Before validation: [edits] sent as a JSON string, and the one-edit form. *)
Definition prepareEditArguments (input : Json.json) : Json.json :=
  match input with
  | Json.JObj args0 =>
      let args :=
        match JsObject.objGet (js "edits") args0 with
        | Some (Json.JStr s) =>
            match Json.parse s with Some (Json.JArr l) => JsObject.objSet (js "edits") (Json.JArr l) args0 | _ => args0 end
        | _ => args0
        end in
      match JsObject.objGet (js "oldText") args, JsObject.objGet (js "newText") args with
      | Some (Json.JStr o), Some (Json.JStr n) =>
          let edits := match JsObject.objGet (js "edits") args with Some (Json.JArr l) => l | _ => [] end in
          let rest := JsObject.objDel (js "newText") (JsObject.objDel (js "oldText") args) in
          Json.JObj (JsObject.objSet (js "edits")
            (Json.JArr (edits ++ [Json.JObj [(js "oldText", Json.JStr o); (js "newText", Json.JStr n)]])) rest)
      | _, _ => Json.JObj args
      end
  | _ => input
  end.

Definition editAccessError (path : jstr) (t : Thrown) : Thrown :=
  PlainError None (js "Could not edit file: " ++ path ++ js ". Error code: " ++ codeOf t ++ js ".").

(** [try { ... } catch (err) { throw editAccessError(path, err); }] *)
Definition orAccessError {A B} (path : jstr) (p : Prog A) (k : A → Prog B) : Prog B :=
  attempt p (λ r, match r with Ok a => k a | Throw t => throw (editAccessError path t) end).

Definition editBody (path absolutePath : jstr) (edits : list Edit.Edit) : Prog jstr :=
  unlessAborted (orAccessError path (kindOf absolutePath) (λ k,
  match k with
  | kDirectory => fail (js "Could not edit file: " ++ path ++ js ". Path is not a file.")
  | _ =>
      orAccessError path
        (Aborted (λ b : bool, if b then throw (FileError (js "aborted") (js "aborted")) else readContent absolutePath)) (λ bytes,
      unlessAborted
        (match Edit.editText NFKC (Utf8.decode bytes) edits with
         | Throw e => fail (Edit.editErrorText path (length edits) e)
         | Ok text =>
             unlessAborted (orAccessError path (writeContent absolutePath text) (λ _,
             unlessAborted (Done (Ok (js "Successfully replaced " ++ num (Z.of_nat (length edits)) ++ js " block(s) in " ++ path ++ js ".")))))
         end))
  end)).

Definition writeTool (at_ : At) (path content : jstr) : Prog jstr :=
  let absolutePath := resolveToolPath at_ path in
  andThen (mutationKey absolutePath) (λ _, writeBody path absolutePath content).

Definition editTool (at_ : At) (path : jstr) (edits : list Edit.Edit) : Prog jstr :=
  match edits with
  | [] => fail (js "Edit tool input is invalid. edits must contain at least one replacement.")
  | _ =>
      let absolutePath := resolveToolPath at_ path in
      andThen (mutationKey absolutePath) (λ _, editBody path absolutePath edits)
  end.

End Environment.

(** ** Running a program in a world *)

(** A world answers each operation and goes on; what else happens to the files
    between two operations is part of how it goes on. *)
Record World (W : Type) := mkWorld {
  w_stat : W → jstr → result Failure StatAnswer * W;
  w_read : W → jstr → result Failure (list Z) * W;
  w_write : W → jstr → list Z → result Failure () * W;
  w_aborted : W → bool * W;
}.
#[global] Arguments mkWorld {W}.
#[global] Arguments w_stat {W}.
#[global] Arguments w_read {W}.
#[global] Arguments w_write {W}.
#[global] Arguments w_aborted {W}.

Inductive Call :=
| CStat (path : jstr)
| CRead (path : jstr) (answer : result Failure (list Z))
| CWrite (path : jstr) (data : list Z) (answer : result Failure ())
| CAborted (b : bool).

Fixpoint run {W A} (h : World W) (p : Prog A) (w : W) : result Thrown A * list Call * W :=
  match p with
  | Done r => (r, [], w)
  | Stat path k => let '(a, w) := w_stat h w path in let '(r, cs, w) := run h (k a) w in (r, CStat path :: cs, w)
  | ReadFile path k => let '(a, w) := w_read h w path in let '(r, cs, w) := run h (k a) w in (r, CRead path a :: cs, w)
  | WriteFile path d k => let '(a, w) := w_write h w path d in let '(r, cs, w) := run h (k a) w in (r, CWrite path d a :: cs, w)
  | Aborted k => let '(a, w) := w_aborted h w in let '(r, cs, w) := run h (k a) w in (r, CAborted a :: cs, w)
  end.

(** ** The mutation queue *)

(** A call in the queue: its file's key, the call whose chain it waits for, and
    where it stands.  A chain is done when its call is and the chain before it
    is. *)
Inductive Stage := waiting | running | finished.

#[export] Instance Stage_eq_dec : EqDecision Stage.
Proof. solve_decision. Defined.

Record Mutation := mkMutation { m_key : jstr; currentQueue : option nat; stage : Stage }.

Record MutationQueue := mkQueue { queues : JsObject.obj nat; calls : list Mutation }.

Definition newQueue : MutationQueue := mkQueue [] [].

Fixpoint chainDone (fuel : nat) (l : list Mutation) (q : option nat) : bool :=
  match q with
  | None => true
  | Some i =>
      match fuel, l !! i with
      | S f, Some m => bool_decide (stage m = finished) && chainDone f l (currentQueue m)
      | _, _ => false
      end
  end.

(** A registration whose key is known: the calls register one at a time. *)
Definition enter (key : jstr) (q : MutationQueue) : MutationQueue :=
  mkQueue (JsObject.objSet key (length (calls q)) (queues q))
    (calls q ++ [mkMutation key (JsObject.objGet key (queues q)) waiting]).

Definition setStage (s : Stage) (m : Mutation) : Mutation := mkMutation (m_key m) (currentQueue m) s.

(** [await currentQueue], then [fn()] starts. *)
Definition begin (i : nat) (q : MutationQueue) : option MutationQueue :=
  m ← calls q !! i;
  if bool_decide (stage m = waiting) && chainDone (length (calls q)) (calls q) (currentQueue m)
  then Some (mkQueue (queues q) (<[i := setStage running m]> (calls q)))
  else None.

(** The [finally] block. *)
Definition finish (i : nat) (q : MutationQueue) : option MutationQueue :=
  m ← calls q !! i;
  if bool_decide (stage m = running)
  then Some (mkQueue (if bool_decide (JsObject.objGet (m_key m) (queues q) = Some i) then JsObject.objDel (m_key m) (queues q) else queues q)
               (<[i := setStage finished m]> (calls q)))
  else None.

(** The steps of the queue, in any order that its guards allow. *)
Inductive queueStep (q : MutationQueue) : MutationQueue → Prop :=
| step_enter key : queueStep q (enter key q)
| step_begin i q' : begin i q = Some q' → queueStep q q'
| step_finish i q' : finish i q = Some q' → queueStep q q'.

End FileTools.
