(* ===== verification/FileToolsProofs.v ===== *)
(** * What the file tools promise

    The paths, the operations that an edit asks for, the pages of a read and
    the queue of the mutations, of FileTools.v. *)

From Stdlib Require Import Lia ZArith.
From stdpp Require Import base list strings sets relations.
From S2P Require Import Prelude JsString JsObject Utf8 Truncate Edit EditProofs FileTools.

Open Scope Z_scope.

Module FileToolsProofs.
Import FileTools.

(** ** Paths *)

(** A name of a path. *)
Definition nameOk (seg : jstr) : Prop := seg ≠ [] ∧ seg ≠ DOT ∧ seg ≠ DOTS ∧ SLASH ∉ seg.

Definition normalPath (p : jstr) : Prop := ∃ segs, p = [SLASH] ++ join [SLASH] segs ∧ Forall nameOk segs.

Lemma pushSegment_ok stack seg :
  Forall nameOk stack → SLASH ∉ seg → Forall nameOk (pushSegment false stack seg).
Proof.
  intros Hs Hseg. unfold pushSegment. destruct (bool_decide (seg = [])) eqn:E1; [done|].
  destruct (bool_decide (seg = DOT)) eqn:E2; [done|]. simpl. apply bool_decide_eq_false in E1, E2.
  case_bool_decide as E3; [|by constructor].
  destruct stack as [|top rest]; [done|]. apply Forall_cons in Hs as [[_ (_ & Ht & _)] Hs]. by case_bool_decide.
Qed.

Lemma normalSegments_ok p : Forall nameOk (normalSegments false p).
Proof.
  unfold normalSegments. apply Forall_rev. pose proof (split_parts_no_sep SLASH p) as Hp.
  assert (∀ l stack, Forall (λ s, SLASH ∉ s) l → Forall nameOk stack → Forall nameOk (foldl (pushSegment false) stack l)) as H.
  { induction l as [|seg l IH]; intros stack Hl Hst; [done|]. apply Forall_cons in Hl as [Hseg Hl]. simpl.
    apply IH; [done|]. by apply pushSegment_ok. }
  by apply H.
Qed.

Lemma resolve1_normal processCwd p : normalPath (resolve1 processCwd p).
Proof. eexists. split; [reflexivity|]. apply normalSegments_ok. Qed.


(** ** All the runs of a program *)

Fixpoint allRuns {A} (p : Prog A) (P : result Thrown A → list Call → Prop) : Prop :=
  match p with
  | Done r => P r []
  | Stat path k => ∀ a, allRuns (k a) (λ r cs, P r (CStat path :: cs))
  | ReadFile path k => ∀ a, allRuns (k a) (λ r cs, P r (CRead path a :: cs))
  | WriteFile path d k => ∀ a, allRuns (k a) (λ r cs, P r (CWrite path d a :: cs))
  | Aborted k => ∀ a, allRuns (k a) (λ r cs, P r (CAborted a :: cs))
  end.

Lemma allRuns_run {W A} (h : World W) (p : Prog A) P w r cs w' :
  allRuns p P → run h p w = (r, cs, w') → P r cs.
Proof.
  revert P w r cs. induction p as [r0|path k IH|path k IH|path d k IH|k IH]; intros P w r cs Hp; simpl in *.
  - intros [= <- <- _]. done.
  - destruct (w_stat h w path) as [a w1]. destruct (run h (k a) w1) as [[r1 cs1] w2] eqn:E. intros [= <- <- <-]. by eapply (IH a (λ r cs, P r (CStat path :: cs))).
  - destruct (w_read h w path) as [a w1]. destruct (run h (k a) w1) as [[r1 cs1] w2] eqn:E. intros [= <- <- <-]. by eapply (IH a (λ r cs, P r (CRead path a :: cs))).
  - destruct (w_write h w path d) as [a w1]. destruct (run h (k a) w1) as [[r1 cs1] w2] eqn:E. intros [= <- <- <-]. by eapply (IH a (λ r cs, P r (CWrite path d a :: cs))).
  - destruct (w_aborted h w) as [a w1]. destruct (run h (k a) w1) as [[r1 cs1] w2] eqn:E. intros [= <- <- <-]. by eapply (IH a (λ r cs, P r (CAborted a :: cs))).
Qed.

Lemma allRuns_mono {A} (p : Prog A) (P Q : result Thrown A → list Call → Prop) :
  allRuns p P → (∀ r cs, P r cs → Q r cs) → allRuns p Q.
Proof.
  revert P Q. induction p as [r0|path k IH|path k IH|path d k IH|k IH]; intros P Q Hp H; simpl in *; [by apply H|..];
    (intros a; eapply IH; [apply Hp|]; intros r cs; apply H).
Qed.

Lemma allRuns_attempt {A B} (p : Prog A) (k : result Thrown A → Prog B) Q P :
  allRuns p Q → (∀ r cs, Q r cs → allRuns (k r) (λ r' cs', P r' (cs ++ cs'))) → allRuns (attempt p k) P.
Proof.
  revert P Q. induction p as [r0|path f IH|path f IH|path d f IH|f IH]; intros P Q Hp H; simpl in *; [by apply (H r0 [])|..];
    (intros a; eapply IH; [apply Hp|]; intros r cs Hr; apply (H _ _ Hr)).
Qed.

(** The writes of a run. *)
Definition isWrite (c : Call) : bool := match c with CWrite _ _ _ => true | _ => false end.
Definition writes (cs : list Call) : list Call := filter (λ c, isWrite c = true) cs.

Definition quiet {A} (p : Prog A) : Prop := allRuns p (λ _ cs, writes cs = []).

Lemma quiet_attempt {A B} (p : Prog A) (k : result Thrown A → Prog B) :
  quiet p → (∀ r, quiet (k r)) → quiet (attempt p k).
Proof.
  intros Hp Hk. eapply allRuns_attempt; [exact Hp|]. intros r cs Hcs. eapply allRuns_mono; [apply Hk|].
  intros r' cs' H. unfold writes in *. by rewrite filter_app, Hcs, H.
Qed.

Lemma quiet_kindOf words path : quiet (kindOf words path).
Proof.
  intros [a|e]; [|done]. destruct (kind a); [done|..];
    (eapply quiet_attempt; [intros [f|e]; done|]); intros [[]|t]; done.
Qed.

Lemma quiet_mutationKey words path : quiet (mutationKey words path).
Proof. intros [a|[c call p|m]]; [done| |done]. simpl. by case_bool_decide. Qed.

Lemma quiet_readContent words path : quiet (readContent words path).
Proof. intros [a|e]; done. Qed.

(** ** The operations of an edit *)

Section Edit.
Context (processCwd : jstr) (fileURLToPath : jstr → option jstr) (NFKC : jstr → jstr) (words : jstr → option jstr).

Definition replaced (path : jstr) (edits : list Edit.Edit) : jstr :=
  js "Successfully replaced " ++ num (Z.of_nat (length edits)) ++ js " block(s) in " ++ path ++ js ".".

(** One write of [text], and how the tool ends after it. *)
Definition Wrote (path abs : jstr) (edits : list Edit.Edit) (text : jstr) (r : result Thrown jstr) (cs : list Call) : Prop :=
  ∃ ans before after, cs = before ++ CWrite abs (Utf8.encode text) ans :: after ∧ writes before = [] ∧ writes after = []
    ∧ match ans with
      | Ok _ => r = Ok (replaced path edits) ∨ r = Throw (PlainError None ABORTED)
      | Throw _ => ∃ e, r = Throw e
      end.

Definition Refused (r : result Thrown jstr) (cs : list Call) : Prop := writes cs = [] ∧ ∃ e, r = Throw e.

Definition AfterRead (path abs : jstr) (edits : list Edit.Edit) (bytes : list Z) (r : result Thrown jstr) (cs : list Call) : Prop :=
  Refused r cs ∨ ∃ text, Edit.editText NFKC (Utf8.decode bytes) edits = Ok text ∧ Wrote path abs edits text r cs.

Definition EditRun (path abs : jstr) (edits : list Edit.Edit) (r : result Thrown jstr) (cs : list Call) : Prop :=
  Refused r cs ∨ ∃ bytes before after, cs = before ++ CRead abs (Ok bytes) :: after ∧ writes before = []
    ∧ AfterRead path abs edits bytes r after.

Lemma writes_app a b : writes (a ++ b) = writes a ++ writes b.
Proof. apply filter_app. Qed.

Lemma Refused_pre pre r cs : writes pre = [] → Refused r cs → Refused r (pre ++ cs).
Proof. intros Hp [Hc He]. split; [|done]. by rewrite writes_app, Hp, Hc. Qed.

Lemma Wrote_pre path abs edits text pre r cs : writes pre = [] → Wrote path abs edits text r cs → Wrote path abs edits text r (pre ++ cs).
Proof.
  intros Hp (ans & b & a & -> & Hb & Ha & H). exists ans, (pre ++ b), a. rewrite <-app_assoc. split; [done|].
  split; [|done]. by rewrite writes_app, Hp, Hb.
Qed.

Lemma EditRun_pre path abs edits pre r cs : writes pre = [] → EditRun path abs edits r cs → EditRun path abs edits r (pre ++ cs).
Proof.
  intros Hp [H|(bytes & b & a & -> & Hb & H)]; [left; by apply Refused_pre|]. right. exists bytes, (pre ++ b), a.
  rewrite <-app_assoc. split; [done|]. split; [|done]. by rewrite writes_app, Hp, Hb.
Qed.

Lemma AfterRead_pre path abs edits bytes pre r cs :
  writes pre = [] → AfterRead path abs edits bytes r cs → AfterRead path abs edits bytes r (pre ++ cs).
Proof.
  intros Hp [H|(text & Ht & H)]; [left; by apply Refused_pre|]. right. exists text. split; [done|]. by apply Wrote_pre.
Qed.

Lemma write_runs path abs edits text :
  allRuns (orAccessError path (writeContent words abs text) (λ _, unlessAborted (Done (Ok (replaced path edits)))))
    (λ r cs, Refused r cs ∨ Wrote path abs edits text r cs).
Proof.
  intros [|]; [left; split; [done|by eexists]|]. intros [[]|e].
  - intros [|]; right; [exists (Ok ()), [CAborted false], [CAborted true]|exists (Ok ()), [CAborted false], [CAborted false]]; by auto.
  - right. exists (Throw e), [CAborted false], []. split; [done|]. split; [done|]. split; [done|]. by eexists.
Qed.

Lemma afterRead_runs path abs edits bytes :
  allRuns
    (unlessAborted
        (match Edit.editText NFKC (Utf8.decode bytes) edits with
         | Throw e => fail (Edit.editErrorText path (length edits) e)
         | Ok text =>
             unlessAborted (orAccessError path (writeContent words abs text) (λ _,
             unlessAborted (Done (Ok (replaced path edits)))))
         end)) (AfterRead path abs edits bytes).
Proof.
  intros [|]; [left; split; [done|by eexists]|].
  destruct (Edit.editText NFKC (Utf8.decode bytes) edits) as [text|e] eqn:E; [|left; split; [done|by eexists]].
  intros [|]; [left; split; [done|by eexists]|].
  eapply allRuns_mono; [apply write_runs|]. intros r cs [H|H].
  - apply (AfterRead_pre _ _ _ _ [CAborted false; CAborted false]); [done|by left].
  - apply (AfterRead_pre _ _ _ _ [CAborted false; CAborted false]); [done|]. right. by exists text.
Qed.

Lemma editBody_runs path abs edits : allRuns (editBody NFKC words path abs edits) (EditRun path abs edits).
Proof.
  intros [|]; [left; split; [done|by eexists]|].
  eapply (allRuns_attempt _ _ (λ _ cs, writes cs = [])); [apply quiet_kindOf|]. intros r cs Hcs.
  destruct r as [k|t]; [|left; split; [by rewrite app_nil_r|by eexists]].
  assert (Hpre : writes (CAborted false :: cs) = []) by done.
  destruct (decide (k = kDirectory)) as [->|Hk]; [left; split; [by rewrite app_nil_r|by eexists]|].
  assert (Hrest : allRuns (orAccessError path
        (Aborted (λ b : bool, if b then throw (FileError (js "aborted") (js "aborted")) else readContent words abs)) (λ bytes,
      unlessAborted
        (match Edit.editText NFKC (Utf8.decode bytes) edits with
         | Throw e => fail (Edit.editErrorText path (length edits) e)
         | Ok text =>
             unlessAborted (orAccessError path (writeContent words abs text) (λ _,
             unlessAborted (Done (Ok (replaced path edits)))))
         end))) (EditRun path abs edits)).
  { intros [|]; [left; split; [done|by eexists]|]. intros [bytes|e]; [|left; split; [done|by eexists]].
    eapply allRuns_mono; [apply afterRead_runs|]. intros r cs' H. right. by exists bytes, [CAborted false], cs'. }
  destruct k; [|done|]; (eapply allRuns_mono; [exact Hrest|]; intros r cs'; by apply (EditRun_pre _ _ _ (CAborted false :: cs))).
Qed.

(** C28: Whatever the file system does and whatever else runs meanwhile, an edit
    writes at most once, to its own path, and what it writes is the edited text
    of what it read from there before.  If it writes nothing it fails; if it
    answers success the write did; and after a write that did it fails only
    because it was aborted. *)
Theorem edit_writes_what_it_read {W} (h : World W) at_ path edits w r cs w' :
  run h (editTool processCwd fileURLToPath NFKC words at_ path edits) w = (r, cs, w') →
  EditRun path (resolveToolPath processCwd fileURLToPath at_ path) edits r cs.
Proof.
  apply allRuns_run. unfold editTool. destruct edits as [|e edits]; [left; split; [done|by eexists]|].
  eapply (allRuns_attempt _ _ (λ _ cs, writes cs = [])); [apply quiet_mutationKey|]. intros [k|t] cs0 Hcs.
  - eapply allRuns_mono; [apply editBody_runs|]. intros r0 cs1. by apply EditRun_pre.
  - left. split; [by rewrite app_nil_r|by eexists].
Qed.

End Edit.

(** ** The pages of a read *)

Abbreviation linesOf := Truncate.splitLinesForCounting.

(** The lines that are counted are the lines, but for an empty last one. *)
Lemma counted_lines sel :
  sel ≠ [] → Forall (λ l, 10 ∉ l) sel → ∃ tail, sel = linesOf (join [10] sel) ++ tail ∧ (tail = [] ∨ tail = [[]]).
Proof.
  intros Hne Hlf. pose proof (split_join 10 sel Hne Hlf) as Hs. unfold linesOf.
  destruct (join [10] sel) as [|c s] eqn:Ej.
  { exists [[]]. split; [|by right]. rewrite <-Hs. done. }
  rewrite Hs. destruct (ends_with 10 (c :: s)) eqn:Ee; [|exists []; rewrite app_nil_r; auto].
  exists [[]]. split; [|by right].
  destruct sel as [|l sel _] using rev_ind; [done|]. rewrite removelast_last. f_equal. f_equal.
  apply Forall_app in Hlf as [_ Hl]. apply Forall_cons in Hl as [Hl _].
  destruct l as [|x l _] using rev_ind; [done|]. exfalso. apply Hl.
  unfold ends_with in Ee. rewrite <-Ej in Ee.
  assert (last (join [10] (sel ++ [l ++ [x]])) = Some x) as E.
  { destruct sel as [|p ps] using rev_ind; [simpl; apply last_snoc|].
    rewrite join_snoc by by destruct ps. by rewrite !app_assoc, last_snoc. }
  rewrite E in Ee. apply Z.eqb_eq in Ee as ->. apply elem_of_app. right. by left.
Qed.

(** One read without a limit: the rest of the file, or its first lines and where
    to go on, or the line that is too long. *)
Lemma read_step all start :
  Forall (λ l, 10 ∉ l) all → (start < length all)%nat →
  (readLines all (Some (Z.of_nat start + 1)) None = Ok (Shown (join [10] (drop start all)) NoNote)
     ∧ utf8ByteLength (join [10] (drop start all)) <= Truncate.DEFAULT_MAX_BYTES)
  ∨ (∃ l, all !! start = Some l ∧ Truncate.DEFAULT_MAX_BYTES < utf8ByteLength l
       ∧ readLines all (Some (Z.of_nat start + 1)) None = Ok (LineTooLong (Z.of_nat start + 1) (utf8ByteLength l)))
  ∨ (∃ k by_, (0 < k)%nat ∧ (start + k < length all)%nat
       ∧ utf8ByteLength (join [10] (take k (drop start all))) <= Truncate.DEFAULT_MAX_BYTES ∧ Z.of_nat k <= Truncate.DEFAULT_MAX_LINES
       ∧ readLines all (Some (Z.of_nat start + 1)) None
         = Ok (Shown (join [10] (take k (drop start all)))
                (Showing (Z.of_nat start + 1) (Z.of_nat start + Z.of_nat k) (Z.of_nat (length all)) by_ (Z.of_nat start + Z.of_nat k + 1)))).
Proof.
  intros Hlf Hlt. set (sel := drop start all).
  assert (Hsel : sel ≠ []) by (intros E; apply (f_equal length) in E; unfold sel in E; rewrite length_drop in E; simpl in E; lia).
  assert (Hslf : Forall (λ l, 10 ∉ l) sel) by by apply Forall_drop.
  destruct (counted_lines sel Hsel Hslf) as (tl & Htl & Htl').
  assert (Hred : readLines all (Some (Z.of_nat start + 1)) None =
    match Truncate.truncateHead (join [10] sel) defaultLimits with
    | None => Throw (PlainError None (js "undefined"))
    | Some t =>
        if Truncate.firstLineExceedsLimit t then Ok (LineTooLong (Z.of_nat start + 1) (utf8ByteLength (default [] (all !! start))))
        else if Truncate.truncated t then
          let endLineDisplay := Z.of_nat start + 1 + Truncate.outputLines t - 1 in
          Ok (Shown (Truncate.content t)
                (Showing (Z.of_nat start + 1) endLineDisplay (Z.of_nat (length all))
                   (match Truncate.truncatedBy t with Some Truncate.lines => false | _ => true end) (endLineDisplay + 1)))
        else Ok (Shown (Truncate.content t) NoNote)
    end).
  { unfold readLines. destruct (Z.eqb_spec (Z.of_nat start + 1) 0); [lia|].
    replace (0 `max` (Z.of_nat start + 1 - 1))%Z with (Z.of_nat start) by lia.
    destruct (Z.leb_spec (Z.of_nat (length all)) (Z.of_nat start)); [lia|]. by rewrite Nat2Z.id. }
  rewrite Hred. clear Hred. unfold Truncate.truncateHead. cbn [Truncate.optLines Truncate.optBytes defaultLimits default].
  set (ml := Truncate.DEFAULT_MAX_LINES). set (mb := Truncate.DEFAULT_MAX_BYTES).
  destruct ((Z.of_nat (length (linesOf (join [10] sel))) <=? ml) && (utf8ByteLength (join [10] sel) <=? mb)) eqn:Efit.
  { left. split; [done|]. zbool. lia. }
  destruct (linesOf (join [10] sel)) as [|first rest] eqn:Els.
  { exfalso. destruct Htl' as [->| ->]; [by destruct sel|]. simpl in Htl. rewrite Htl in Efit. done. }
  destruct (Z.ltb_spec mb (utf8ByteLength first)) as [Hbig|Hok].
  { right. left. exists first. assert (all !! start = Some first) as Hl.
    { rewrite <-(Nat.add_0_r start), <-lookup_drop. fold sel. by rewrite Htl. }
    split; [done|]. split; [done|]. cbn [Truncate.firstLineExceedsLimit]. by rewrite Hl. }
  right. right. destruct (Truncate.headLoop_spec (first :: rest) ml mb []) as (k & rest' & bl & H1 & H2 & H3); [done|done|].
  change (Z.of_nat (length (@nil jstr))) with 0 in H1. change (utf8ByteLength (join [10] [])) with 0 in H1.
  rewrite H1. simpl in H2. destruct H3 as [_ Hfit Hlines Hstop].
  assert (Htk : take (length k) sel = k) by (rewrite Htl, H2, <-app_assoc; apply take_app_length).
  assert (Hk0 : (0 < length k)%nat).
  { destruct k as [|x k]; [|simpl; lia]. exfalso. simpl in H2. subst rest'. destruct Hstop as [?|[?|Hs]]; [done|done|]. simpl in Hs. lia. }
  assert (Hkl : (length k < length sel)%nat).
  { rewrite Htl, H2, !length_app. destruct rest' as [|x rest']; [|simpl; lia]. destruct Htl' as [->| ->]; [|simpl; lia]. exfalso.
    rewrite app_nil_r in H2. rewrite app_nil_r in Htl. rewrite Htl, H2 in Efit. fold ml in Hlines. zbool. lia. }
  exists (length k), (match (if (ml <=? Z.of_nat (length k)) && (utf8ByteLength (join [10] k) <=? mb) then Truncate.lines else bl) with Truncate.lines => false | _ => true end).
  split; [done|]. split; [unfold sel in Hkl; rewrite length_drop in Hkl; lia|]. rewrite Htk. split; [done|]. split; [done|].
  unfold Truncate.kept_result.
  cbn [Truncate.firstLineExceedsLimit Truncate.truncated Truncate.content Truncate.outputLines Truncate.truncatedBy].
  repeat f_equal; lia.
Qed.

(** Reading on by the offsets that the answers name. *)
Fixpoint readOn (fuel : nat) (all : list jstr) (offset : Z) : option (list jstr) :=
  match fuel with
  | O => None
  | S f =>
      match readLines all (Some offset) None with
      | Ok (Shown c NoNote) => Some [c]
      | Ok (Shown c (Showing _ _ _ _ next)) => cons c <$> readOn f all next
      | _ => None
      end
  end.

Lemma join_app (ps qs : list jstr) : ps ≠ [] → qs ≠ [] → join [10] (ps ++ qs) = join [10] ps ++ [10] ++ join [10] qs.
Proof.
  intros Hp Hq. induction ps as [|p ps IH]; [done|]. destruct ps as [|p' ps].
  - simpl. by destruct qs.
  - change (join [10] ((p :: p' :: ps) ++ qs)) with (p ++ [10] ++ join [10] ((p' :: ps) ++ qs)). rewrite IH by done.
    change (join [10] (p :: p' :: ps)) with (p ++ [10] ++ join [10] (p' :: ps)). by rewrite <-!app_assoc.
Qed.

Lemma readOn_all all start fuel :
  Forall (λ l, 10 ∉ l) all → Forall (λ l, utf8ByteLength l <= Truncate.DEFAULT_MAX_BYTES) all →
  (start < length all)%nat → (length all - start <= fuel)%nat →
  ∃ pages, readOn fuel all (Z.of_nat start + 1) = Some pages ∧ pages ≠ []
    ∧ join [10] pages = join [10] (drop start all)
    ∧ Forall (λ p, utf8ByteLength p <= Truncate.DEFAULT_MAX_BYTES) pages.
Proof.
  intros Hlf Hsize. revert start. induction fuel as [|fuel IH]; intros start Hlt Hf; [lia|]. cbn [readOn].
  destruct (read_step all start Hlf Hlt) as [[-> Hb]|[(l & Hl & Hbig & _)|(k & by_ & Hk & Hnext & Hb & _ & ->)]].
  - eexists. split; [done|]. by repeat constructor.
  - exfalso. apply (Forall_lookup_1 _ _ _ _ Hsize) in Hl. simpl in Hl. lia.
  - replace (Z.of_nat start + Z.of_nat k + 1) with (Z.of_nat (start + k) + 1) by lia.
    destruct (IH (start + k)%nat) as (pages & -> & Hne & Hj & Hp); [lia|lia|].
    eexists. split; [done|]. split; [done|]. split; [|by constructor].
    change (join [10] (?p :: pages)) with (join [10] ([p] ++ pages)). rewrite join_app by done. rewrite Hj.
    change (join [10] [?p]) with p. rewrite <-join_app.
    + by rewrite <-drop_drop, take_drop.
    + intros E. apply (f_equal length) in E. rewrite length_take, length_drop in E. simpl in E. lia.
    + intros E. apply (f_equal length) in E. rewrite length_drop in E. simpl in E. lia.
Qed.

(** A file can be read to its end.  If no line of its text is over the limit
    of bytes, reads that go on at the offsets which the answers name end, each
    answer is within the limit, and the answers, one after the other, are the
    text. *)
Theorem read_reaches_the_end text :
  Forall (λ l, utf8ByteLength l <= Truncate.DEFAULT_MAX_BYTES) (split_on 10 text) →
  ∃ pages, readOn (length (split_on 10 text)) (split_on 10 text) 1 = Some pages
    ∧ join [10] pages = text ∧ Forall (λ p, utf8ByteLength p <= Truncate.DEFAULT_MAX_BYTES) pages.
Proof.
  intros Hs. pose proof (split_on_nonempty 10 text) as Hne.
  destruct (readOn_all (split_on 10 text) 0 (length (split_on 10 text))) as (pages & H1 & _ & H2 & H3).
  - apply split_parts_no_sep.
  - done.
  - destruct (split_on 10 text); [done|simpl; lia].
  - lia.
  - exists pages. split; [done|]. split; [|done]. by rewrite H2, drop_0, join_split.
Qed.

(** A limit below zero counts from the end of the file: it shows almost all of
    it, and says that there is more than the file has. *)
Theorem negative_limit_shows_the_rest :
  readLines (split_on 10 (js "a" ++ [10] ++ js "b" ++ [10] ++ js "c")) None (Some (-1))
  = Ok (Shown (js "a" ++ [10] ++ js "b") (More 4 0)).
Proof. vm_compute. reflexivity. Qed.

(** ** The scan of a PNG's chunks *)

Lemma readUint32BE_nonneg b o : Forall (λ x, 0 <= x <= 255) b → 0 <= readUint32BE b o.
Proof.
  intros Hb. assert (∀ i, 0 <= byteAt b i) as H.
  { intros i. unfold byteAt. destruct (b !! i) as [x|] eqn:E; [|done]. by apply (Forall_lookup_1 _ _ _ _ Hb) in E as [? _]. }
  unfold readUint32BE. pose proof (H o). pose proof (H (o + 3)%nat).
  pose proof (proj2 (Z.shiftl_nonneg (byteAt b (o + 1)) 16) (H _)). pose proof (proj2 (Z.shiftl_nonneg (byteAt b (o + 2)) 8) (H _)). lia.
Qed.

(** The fuel is enough: more of it changes nothing. *)
Lemma animatedFrom_fuel b offset f f' :
  Forall (λ x, 0 <= x <= 255) b → (length b - offset <= f)%nat → (f <= f')%nat → (0 < f)%nat ∨ (length b < offset + 8)%nat →
  animatedFrom f' b offset = animatedFrom f b offset.
Proof.
  intros Hb. revert offset f'. induction f as [|f IH]; intros offset f' Hf Hff H0.
  { destruct f' as [|f']; [done|]. simpl. destruct H0 as [?|?]; [lia|]. by rewrite (proj2 (Nat.leb_gt _ _)) by lia. }
  destruct f' as [|f']; [lia|]. cbn [animatedFrom]. destruct (Nat.leb_spec (offset + 8) (length b)); [|done].
  destruct (bytesAt b (offset + 4) (js "acTL")); [done|]. destruct (bytesAt b (offset + 4) (js "IDAT")); [done|].
  pose proof (readUint32BE_nonneg b offset Hb) as Hn. set (n := Z.of_nat offset + 8 + readUint32BE b offset + 4).
  destruct ((n <=? Z.of_nat offset) || (Z.of_nat (length b) <? n)) eqn:E; [done|]. zbool. apply IH; [lia|lia|].
  destruct f; [right; lia|left; lia].
Qed.

(** ** The mutation queue *)

Record QueueInv (q : MutationQueue) : Prop := {
  qi_order : ∀ j m i m', calls q !! j = Some m → stage m ≠ waiting → (i < j)%nat → calls q !! i = Some m' →
             m_key m' = m_key m → stage m' = finished;
  qi_prev : ∀ j m p, calls q !! j = Some m → currentQueue m = Some p →
            (p < j)%nat ∧ (∃ mp, calls q !! p = Some mp ∧ m_key mp = m_key m)
            ∧ ∀ i mi, (p < i < j)%nat → calls q !! i = Some mi → m_key mi ≠ m_key m;
  qi_first : ∀ j m i m', calls q !! j = Some m → currentQueue m = None → (i < j)%nat → calls q !! i = Some m' →
             m_key m' = m_key m → stage m' = finished;
  qi_last : ∀ k i, JsObject.objGet k (queues q) = Some i →
            ∃ m, calls q !! i = Some m ∧ m_key m = k ∧ stage m ≠ finished
                 ∧ ∀ i' m', (i < i')%nat → calls q !! i' = Some m' → m_key m' ≠ k;
  qi_idle : ∀ k i m, JsObject.objGet k (queues q) = None → calls q !! i = Some m → m_key m = k → stage m = finished;
}.

Lemma enter_inv key q : QueueInv q → QueueInv (enter key q).
Proof.
  intros I. unfold enter. set (n := length (calls q)). set (new := mkMutation key (JsObject.objGet key (queues q)) waiting).
  assert (Hget : ∀ i m, (calls q ++ [new]) !! i = Some m → calls q !! i = Some m ∨ (i = n ∧ m = new)).
  { intros i m [H|[Hi H]]%lookup_app_Some; [by left|]. right. destruct (i - length (calls q))%nat as [|d] eqn:E; [|done].
    injection H as <-. split; [unfold n; lia|done]. }
  assert (Hold : ∀ i m, calls q !! i = Some m → (i < n)%nat ∧ (calls q ++ [new]) !! i = Some m).
  { intros i m H. split; [by apply lookup_lt_Some in H|]. by apply lookup_app_l_Some. }
  assert (Hbelow : ∀ i m, (i < n)%nat → (calls q ++ [new]) !! i = Some m → calls q !! i = Some m).
  { intros i m Hi [?|[-> _]]%Hget; [done|lia]. }
  split; simpl.
  - intros j m i m' [Hj|[-> ->]]%Hget Hst Hij Hi; [|by destruct Hst].
    apply (qi_order _ I j m i m' Hj Hst Hij). apply Hbelow; [|done]. apply Hold in Hj. lia.
  - intros j m p [Hj|[-> ->]]%Hget Hp.
    + destruct (qi_prev _ I j m p Hj Hp) as (Hlt & (mp & Hmp & Hk) & Hb). split; [done|]. split; [exists mp; split; [by apply Hold|done]|].
      intros i mi Hi Hmi. apply (Hb i); [done|]. apply Hbelow; [|done]. apply Hold in Hj. lia.
    + simpl in Hp. destruct (qi_last _ I key p Hp) as (mp & Hmp & Hk & _ & Hb). split; [by apply Hold in Hmp as [? _]|].
      split; [exists mp; split; [by apply Hold|done]|]. intros i mi Hi Hmi. apply (Hb i); [lia|]. apply Hbelow; [lia|done].
  - intros j m i m' [Hj|[-> ->]]%Hget Hq Hij Hi Hk.
    + apply (qi_first _ I j m i m' Hj Hq Hij); [|done]. apply Hbelow; [|done]. apply Hold in Hj. lia.
    + simpl in *. by apply (qi_idle _ I key i m' Hq (Hbelow _ _ Hij Hi)).
  - intros k i. rewrite JsObject.objGet_objSet. case_decide as E.
    + intros [= <-]. exists new. subst. split; [by rewrite lookup_app_r, Nat.sub_diag by lia|]. split; [done|]. split; [done|].
      intros i' m' Hi' [H|[-> _]]%Hget; [apply Hold in H; lia|lia].
    + intros H. destruct (qi_last _ I k i H) as (m & Hm & Hk & Hs & Hb). exists m. split; [by apply Hold|]. split; [done|]. split; [done|].
      intros i' m' Hi' [H'|[-> ->]]%Hget; [by apply (Hb i')|simpl; congruence].
  - intros k i m. rewrite JsObject.objGet_objSet. case_decide as E; [done|].
    intros Hn [Hi|[-> ->]]%Hget Hk; [by apply (qi_idle _ I k i)|simpl in Hk; congruence].
Qed.

(** A change of a stage that lets nothing pass. *)
Lemma setStage_inv q qs i m s :
  QueueInv q → calls q !! i = Some m → s ≠ waiting →
  (stage m = finished → s = finished) →
  (∀ i' m', (i' < i)%nat → calls q !! i' = Some m' → m_key m' = m_key m → stage m' = finished) →
  (∀ k, JsObject.objGet k qs = if decide (k = m_key m ∧ s = finished ∧ JsObject.objGet k (queues q) = Some i) then None else JsObject.objGet k (queues q)) →
  QueueInv (mkQueue qs (<[i := setStage s m]> (calls q))).
Proof.
  intros I Hi Hs Hfin Hall Hqs.
  assert (Hget : ∀ j x, <[i := setStage s m]> (calls q) !! j = Some x →
    ∃ y, calls q !! j = Some y ∧ m_key x = m_key y ∧ currentQueue x = currentQueue y ∧ (stage y = finished → stage x = finished)
         ∧ (j = i → stage x = s) ∧ (j ≠ i → x = y)).
  { intros j x. destruct (decide (j = i)) as [->|Hne].
    - rewrite list_lookup_insert_eq by (by apply lookup_lt_Some in Hi). intros [= <-]. exists m. split_and!; done.
    - rewrite list_lookup_insert_ne by done. intros H. exists x. split_and!; done. }
  assert (Hput : ∀ j y, calls q !! j = Some y → ∃ x, <[i := setStage s m]> (calls q) !! j = Some x ∧ m_key x = m_key y ∧ (j ≠ i → x = y) ∧ (j = i → stage x = s)).
  { intros j y Hy. destruct (decide (j = i)) as [->|Hne].
    - exists (setStage s m). rewrite list_lookup_insert_eq by (by apply lookup_lt_Some in Hi). simplify_eq. split_and!; done.
    - exists y. rewrite list_lookup_insert_ne by done. split_and!; done. }
  split; simpl.
  - intros j x k x' Hj Hst Hkj Hk Hkey. destruct (Hget _ _ Hj) as (y & Hy & Eky & _ & _ & Hyi & Hyn).
    destruct (Hget _ _ Hk) as (y' & Hy' & Eky' & _ & Hf' & _). apply Hf'. destruct (decide (j = i)) as [->|Hne].
    + simplify_eq. apply (Hall k y' Hkj Hy'). congruence.
    + rewrite (Hyn Hne) in *. apply (qi_order _ I j y k y' Hy Hst Hkj Hy'). congruence.
  - intros j x p Hj Hp. destruct (Hget _ _ Hj) as (y & Hy & Eky & Ecy & _). rewrite Ecy in Hp.
    destruct (qi_prev _ I j y p Hy Hp) as (Hlt & (mp & Hmp & Hk) & Hb). split; [done|]. split.
    + destruct (Hput _ _ Hmp) as (x' & Hx' & Ek' & _). exists x'. split; [done|]. congruence.
    + intros i0 mi Hi0 Hmi. destruct (Hget _ _ Hmi) as (y0 & Hy0 & Ek0 & _). rewrite Ek0, Eky. by apply (Hb i0).
  - intros j x k x' Hj Hq Hkj Hk Hkey. destruct (Hget _ _ Hj) as (y & Hy & Eky & Ecy & _).
    destruct (Hget _ _ Hk) as (y' & Hy' & Eky' & _ & Hf' & _). apply Hf'. apply (qi_first _ I j y k y' Hy); [congruence|done|done|congruence].
  - intros k j. rewrite Hqs. destruct (decide _) as [E|E]; [done|]. intros H. destruct (qi_last _ I k j H) as (y & Hy & Hk & Hsy & Hb).
    destruct (Hput _ _ Hy) as (x & Hx & Ekx & Hne & Heq). exists x. split; [done|]. split; [congruence|]. split.
    + destruct (decide (j = i)) as [->|Hji]; [|by rewrite (Hne Hji)]. rewrite (Heq eq_refl). intros ->. apply E. simplify_eq. done.
    + intros i' m' Hi' Hm'. destruct (Hget _ _ Hm') as (y' & Hy' & Ek' & _). rewrite Ek'. by apply (Hb i').
  - intros k j x. rewrite Hqs. destruct (decide _) as [E|E].
    + intros _ Hx Hk. destruct E as (-> & -> & Hq). destruct (Hget _ _ Hx) as (y & Hy & Eky & _ & Hf & Hyi & Hyn).
      destruct (decide (j = i)) as [->|Hji]; [by apply Hyi|]. apply Hf.
      destruct (qi_last _ I _ _ Hq) as (m0 & Hm0 & _ & _ & Hb). destruct (decide (j < i)%nat) as [Hlt|Hge].
      * apply (Hall j y Hlt Hy). congruence.
      * exfalso. apply (Hb j y); [lia|done|congruence].
    + intros Hn Hx Hk. destruct (Hget _ _ Hx) as (y & Hy & Eky & _ & Hf & _). apply Hf. apply (qi_idle _ I k j y Hn Hy). congruence.
Qed.

Lemma chainDone_finished fuel l p : chainDone fuel l (Some p) = true → ∃ m, l !! p = Some m ∧ stage m = finished.
Proof.
  destruct fuel as [|fuel]; [done|]. simpl. destruct (l !! p) as [m|]; [|done]. rewrite andb_true_iff, bool_decide_eq_true. naive_solver.
Qed.

Lemma begin_inv i q q' : QueueInv q → begin i q = Some q' → QueueInv q'.
Proof.
  intros I. unfold begin. destruct (calls q !! i) as [m|] eqn:Ei; [|done]. simpl.
  destruct (bool_decide (stage m = waiting)) eqn:Es; [|done]. simpl. destruct (chainDone _ _ _) eqn:Ec; [|done]. intros [= <-].
  apply bool_decide_eq_true in Es. apply setStage_inv; [done|done|done|congruence| |].
  - intros i' m' Hlt Hi' Hk. destruct (currentQueue m) as [p|] eqn:Ep; [|by apply (qi_first _ I i m i' m')].
    destruct (qi_prev _ I i m p Ei Ep) as (Hp & (mp & Hmp & Hkp) & Hb). apply chainDone_finished in Ec as (mp' & Hmp' & Hf).
    assert (mp' = mp) as -> by congruence. destruct (decide (i' = p)) as [->|Hne]; [by simplify_eq|].
    destruct (decide (i' < p)%nat) as [Hlp|Hge].
    + apply (qi_order _ I p mp i' m' Hmp); [congruence|done|done|congruence].
    + exfalso. apply (Hb i' m'); [lia|done|done].
  - intros k. destruct (decide _) as [E|E]; [|done]. destruct E as (_ & ? & _). done.
Qed.

Lemma finish_inv i q q' : QueueInv q → finish i q = Some q' → QueueInv q'.
Proof.
  intros I. unfold finish. destruct (calls q !! i) as [m|] eqn:Ei; [|done]. simpl.
  destruct (bool_decide (stage m = running)) eqn:Es; [|done]. intros [= <-]. apply bool_decide_eq_true in Es.
  apply setStage_inv; [done|done|done|done| |].
  - intros i' m' Hlt Hi' Hk. apply (qi_order _ I i m i' m' Ei); [congruence|done|done|done].
  - intros k. destruct (decide (JsObject.objGet (m_key m) (queues q) = Some i)) as [E|E].
    + rewrite bool_decide_eq_true_2 by done. destruct (decide (k = m_key m)) as [->|Hne].
      * rewrite decide_True by done. destruct (JsObject.objGet (m_key m) (JsObject.objDel (m_key m) (queues q))) eqn:Eg; [|done].
        exfalso. assert (m_key m ∈ (JsObject.objDel (m_key m) (queues q)).*1) as Hin by (apply JsObject.objGet_is_Some; by eexists).
        apply list_elem_of_fmap in Hin as (kv & -> & [Hkv _]%list_elem_of_filter). done.
      * rewrite decide_False by naive_solver. by apply JsObject.objGet_objDel.
    + rewrite bool_decide_eq_false_2 by done. rewrite decide_False; [done|]. intros (-> & _ & ?). done.
Qed.

Lemma queue_inv q : rtc queueStep newQueue q → QueueInv q.
Proof.
  intros H. refine (rtc_invariant queueStep QueueInv _ _ _ H _).
  - intros q1 q2 I [key|i q' Hs|i q' Hs]; [by apply enter_inv|by eapply begin_inv|by eapply finish_inv].
  - split; simpl; intros; simplify_eq.
Qed.

Lemma chainDone_true q fuel p mp :
  QueueInv q → calls q !! p = Some mp → stage mp = finished → (p < fuel)%nat → chainDone fuel (calls q) (Some p) = true.
Proof.
  intros I. revert p mp. induction fuel as [|fuel IH]; intros p mp Hp Hs Hf; [lia|]. simpl. rewrite Hp.
  rewrite bool_decide_eq_true_2 by done. simpl. destruct (currentQueue mp) as [p'|] eqn:E; [|by destruct fuel].
  destruct (qi_prev _ I p mp p' Hp E) as (Hlt & (m' & Hm' & Hk) & _). apply (IH p' m'); [done| |lia].
  apply (qi_order _ I p mp p' m' Hp); [congruence|done|done|done].
Qed.

Lemma queue_progress q j mj :
  QueueInv q → calls q !! j = Some mj → stage mj = waiting →
  ∃ i mi, calls q !! i = Some mi ∧ m_key mi = m_key mj ∧ (stage mi = running ∨ is_Some (begin i q)).
Proof.
  intros I. revert mj. induction j as [j IH] using lt_wf_ind. intros mj Hj Hs.
  assert (Hb : chainDone (length (calls q)) (calls q) (currentQueue mj) = true → is_Some (begin j q)).
  { intros Hc. unfold begin. rewrite Hj. simpl. rewrite bool_decide_eq_true_2, Hc by done. simpl. by eexists. }
  destruct (currentQueue mj) as [p|] eqn:Ep.
  2:{ exists j, mj. split; [done|]. split; [done|]. right. apply Hb. by destruct (length (calls q)). }
  destruct (qi_prev _ I j mj p Hj Ep) as (Hlt & (mp & Hmp & Hk) & _). destruct (stage mp) eqn:Esp.
  - destruct (IH p Hlt mp Hmp Esp) as (i & mi & Hi & Hki & H). exists i, mi. split; [done|]. split; [congruence|done].
  - exists p, mp. split; [done|]. split; [done|by left].
  - exists j, mj. split; [done|]. split; [done|]. right. apply Hb. eapply chainDone_true; [done|done|done|].
    by apply lookup_lt_Some in Hmp.
Qed.

(** The writes and edits of one file never run together.  However the calls
    register, start and end, of the calls with one key at most one runs, each
    starts only after those registered before it have ended, and while one
    waits, one of the same key runs or can start.  When all have ended the map
    of the queues is empty. *)
Theorem one_writer_per_file q :
  rtc queueStep newQueue q →
  (∀ i j mi mj, calls q !! i = Some mi → calls q !! j = Some mj → m_key mi = m_key mj →
     stage mi = running → stage mj = running → i = j)
  ∧ (∀ i j mi mj, (i < j)%nat → calls q !! i = Some mi → calls q !! j = Some mj → m_key mi = m_key mj →
       stage mj ≠ waiting → stage mi = finished)
  ∧ (∀ j mj, calls q !! j = Some mj → stage mj = waiting →
       ∃ i mi, calls q !! i = Some mi ∧ m_key mi = m_key mj ∧ (stage mi = running ∨ is_Some (begin i q)))
  ∧ (Forall (λ m, stage m = finished) (calls q) → queues q = []).
Proof.
  intros I%queue_inv. assert (Hord : ∀ i j mi mj, (i < j)%nat → calls q !! i = Some mi → calls q !! j = Some mj →
    m_key mi = m_key mj → stage mj ≠ waiting → stage mi = finished) by (intros i j mi mj Hlt Hi Hj Hk Hs; by apply (qi_order _ I j mj i mi)).
  split; [|split; [done|split]].
  - intros i j mi mj Hi Hj Hk Hri Hrj. destruct (lt_eq_lt_dec i j) as [[Hlt|]|Hlt]; [|done|].
    + specialize (Hord i j mi mj Hlt Hi Hj Hk). rewrite Hrj, Hri in Hord. discriminate (Hord ltac:(done)).
    + specialize (Hord j i mj mi Hlt Hj Hi (eq_sym Hk)). rewrite Hrj, Hri in Hord. discriminate (Hord ltac:(done)).
  - intros j mj Hj Hs. by apply (queue_progress q j).
  - intros Hall. destruct (queues q) as [|[k i] l] eqn:E; [done|]. exfalso.
    destruct (qi_last _ I k i) as (m & Hm & _ & Hs & _); [rewrite E; simpl; by rewrite bool_decide_eq_true_2|].
    apply Hs. by apply (Forall_lookup_1 _ _ _ _ Hall Hm).
Qed.

(** ** Witnesses *)

(** A world with one file, which nothing else touches. *)
Definition oneFile (p : jstr) : World (list Z) :=
  mkWorld
    (λ w x, (if bool_decide (x = p) then Ok (mkStat statFile p) else Throw (OpError (js "ENOENT") (js "stat") x), w))
    (λ w x, (if bool_decide (x = p) then Ok w else Throw (OpError (js "ENOENT") (js "open") x), w))
    (λ w x d, if bool_decide (x = p) then (Ok (), d) else (Throw (OpError (js "EACCES") (js "open") x), w))
    (λ w, (false, w)).

Definition notesPath : jstr := js "/repo/notes.md".

Definition oneEdit : result Thrown jstr * list Call * list Z :=
  FileTools.run (oneFile notesPath)
    (editTool (js "/") (λ _, None) EditProofs.narrowAll (λ _, None) (mkAt (js "/repo") (js "/root")) (js "notes.md")
       [Edit.mkEdit (js "old") (js "new")]) (js "one old file").

Lemma edit_writes_what_it_read_witness :
  EditRun EditProofs.narrowAll (js "notes.md") notesPath [Edit.mkEdit (js "old") (js "new")] oneEdit.1.1 oneEdit.1.2
  ∧ oneEdit.2 = js "one new file" ∧ oneEdit.1.1 = Ok (js "Successfully replaced 1 block(s) in notes.md.").
Proof.
  split; [|split; vm_compute; reflexivity].
  exact (edit_writes_what_it_read (js "/") (λ _, None) EditProofs.narrowAll (λ _, None) (oneFile notesPath) (mkAt (js "/repo") (js "/root"))
           (js "notes.md") [Edit.mkEdit (js "old") (js "new")] (js "one old file") oneEdit.1.1 oneEdit.1.2 oneEdit.2
           ltac:(vm_compute; reflexivity)).
Defined.

Definition threeLines : jstr := js "a" ++ [10] ++ js "b" ++ [10].

Lemma read_reaches_the_end_witness :
  ∃ pages, readOn 3 (split_on 10 threeLines) 1 = Some pages ∧ join [10] pages = threeLines.
Proof.
  destruct (read_reaches_the_end threeLines) as (pages & H1 & H2 & _).
  - apply (bool_decide_unpack _). vm_compute. reflexivity.
  - by exists pages.
Defined.

(** Two calls of one file and one of another: the first runs, the second waits. *)
Definition threeCalls : MutationQueue :=
  default newQueue (begin 0 (enter (js "/b") (enter (js "/a") (enter (js "/a") newQueue)))).

Lemma threeCalls_reached : rtc queueStep newQueue threeCalls.
Proof.
  eapply rtc_l; [apply (step_enter _ (js "/a"))|]. eapply rtc_l; [apply (step_enter _ (js "/a"))|].
  eapply rtc_l; [apply (step_enter _ (js "/b"))|]. apply rtc_once. apply (step_begin _ 0%nat). reflexivity.
Qed.

Lemma one_writer_per_file_witness :
  ∃ i mi, calls threeCalls !! i = Some mi ∧ m_key mi = js "/a" ∧ (stage mi = running ∨ is_Some (begin i threeCalls)).
Proof.
  exact (proj1 (proj2 (proj2 (one_writer_per_file threeCalls threeCalls_reached))) 1%nat (mkMutation (js "/a") (Some 0%nat) waiting) eq_refl eq_refl).
Defined.

(** ** Where two calls of one file run together *)

(** A folder [/link] that is a link to [/real]: the file [/link/x] is not there,
    and then it is. *)
Definition linked : World bool :=
  @mkWorld bool
    (λ w x, (if w then Ok (mkStat statFile (js "/real/x")) else Throw (OpError (js "ENOENT") (js "stat") x), w))
    (λ w x, (Throw (OpError (js "ENOENT") (js "open") x), w)) (λ w x d, (Ok (), true)) (λ w, (false, w)).

(** A file that is not there has its path as its key, and once the first call
    has made it, its canonical path: a second call under the same name starts
    while the first one runs. *)
Theorem new_file_has_two_keys :
  (FileTools.run linked (mutationKey (λ _, None) (js "/link/x")) false).1.1 = Ok (js "/link/x")
  ∧ (FileTools.run linked (mutationKey (λ _, None) (js "/link/x")) true).1.1 = Ok (js "/real/x")
  ∧ ∃ q, rtc queueStep (enter (js "/real/x") (enter (js "/link/x") newQueue)) q
         ∧ stage <$> calls q = [running; running].
Proof.
  split; [vm_compute; reflexivity|]. split; [vm_compute; reflexivity|]. eexists. split.
  - eapply rtc_l; [apply (step_begin _ 0%nat); reflexivity|]. apply rtc_once, (step_begin _ 1%nat). reflexivity.
  - reflexivity.
Qed.

End FileToolsProofs.
