(* ===== verification/Program.v ===== *)
(** * Programs over operations

    A handler of the source, as the tree of what it asks for in its order.  Each
    operation answers a value of its own type or throws; what it answers, and
    what changes between two operations, is a [World]'s.  [wp] says that every
    operation of a program is asked for where a condition on what came before it
    holds, whatever the answers. *)

From stdpp Require Import base list sets.
From S2P Require Import Prelude.

Module Program.

Section Programs.
Context {Op : Type} (reply : Op → Type) (Thrown : Type).

Inductive Prog (A : Type) :=
| Ret (a : A)
| Raise (e : Thrown)
| Call (o : Op) (k : result Thrown (reply o) → Prog A).

(** What was asked, and what it answered. *)
Record Event := mkEvent { asked : Op; answered : result Thrown (reply asked) }.

(** A world answers by what was asked before. *)
Definition World := list Event → ∀ o : Op, result Thrown (reply o).
End Programs.

#[global] Arguments Ret {Op reply Thrown A}.
#[global] Arguments Raise {Op reply Thrown A}.
#[global] Arguments Call {Op reply Thrown A}.
#[global] Arguments mkEvent {Op reply Thrown}.
#[global] Arguments asked {Op reply Thrown}.
#[global] Arguments answered {Op reply Thrown}.

Section Running.
Context {Op : Type} {reply : Op → Type} {Thrown : Type}.
Implicit Types (tr : list (Event reply Thrown)).

(** [try] with what is done after it, or after what it threw. *)
Fixpoint attempt {A B} (p : Prog reply Thrown A) (k : result Thrown A → Prog reply Thrown B) : Prog reply Thrown B :=
  match p with
  | Ret a => k (Ok a)
  | Raise e => k (Throw e)
  | Call o f => Call o (λ r, attempt (f r) k)
  end.

Definition ask (o : Op) : Prog reply Thrown (reply o) := Call o (λ r, match r with Ok a => Ret a | Throw e => Raise e end).

Fixpoint exec {A} (w : World reply Thrown) (p : Prog reply Thrown A) tr : result Thrown A * list (Event reply Thrown) :=
  match p with
  | Ret a => (Ok a, tr)
  | Raise e => (Throw e, tr)
  | Call o k => exec w (k (w tr o)) (tr ++ [mkEvent o (w tr o)])
  end.

(** An operation was asked for, and answered. *)
Definition seen tr (o : Op) (r : reply o) : Prop := mkEvent o (Ok r) ∈ tr.

Lemma seen_app tr new o r : seen tr o r → seen (tr ++ new) o r.
Proof. unfold seen. set_solver. Qed.

Lemma seen_snoc tr o r : seen (tr ++ [mkEvent o (Ok r)]) o r.
Proof. unfold seen. set_solver. Qed.
End Running.

#[export] Instance prog_bind {Op} {reply : Op → Type} {Thrown} : MBind (Prog reply Thrown) :=
  λ A B f p, attempt p (λ r, match r with Ok a => f a | Throw e => Raise e end).

Lemma exec_attempt {Op} {reply : Op → Type} {Thrown A B} (p : Prog reply Thrown A) (k : result Thrown A → Prog reply Thrown B) w tr :
  exec w (attempt p k) tr = exec w (k (exec w p tr).1) (exec w p tr).2.
Proof. revert tr. induction p as [a|e|o f IH]; intros tr; simpl; [done|done|]. by rewrite IH. Qed.

Lemma exec_bind {Op} {reply : Op → Type} {Thrown A B} (p : Prog reply Thrown A) (f : A → Prog reply Thrown B) w tr :
  exec w (p ≫= f) tr = match exec w p tr with (Ok a, tr') => exec w (f a) tr' | (Throw e, tr') => (Throw e, tr') end.
Proof. unfold mbind, prog_bind. rewrite exec_attempt. by destruct (exec w p tr) as [[a|e] tr']. Qed.

(** The next operation, and what is done with its answer. *)
Lemma exec_step {Op} {reply : Op → Type} {Thrown B} o (f : reply o → Prog reply Thrown B) w tr :
  exec w (ask o ≫= f) tr =
  match w tr o with Ok a => exec w (f a) (tr ++ [mkEvent o (Ok a)]) | Throw e => (Throw e, tr ++ [mkEvent o (Throw e)]) end.
Proof. simpl. by destruct (w tr o). Qed.

(** ** Programs whose every operation is allowed *)

Section Logic.
Context {Op : Type} {reply : Op → Type} {Thrown : Type} (P : list (Event reply Thrown) → Op → Prop).
Implicit Types (tr : list (Event reply Thrown)).

(** Every operation of the program satisfies [P] where it is asked, and what it
    ends with satisfies [Q]. *)
Fixpoint wp {A} (p : Prog reply Thrown A) tr (Q : result Thrown A → list (Event reply Thrown) → Prop) : Prop :=
  match p with
  | Ret a => Q (Ok a) tr
  | Raise e => Q (Throw e) tr
  | Call o k => P tr o ∧ ∀ r, wp (k r) (tr ++ [mkEvent o r]) Q
  end.

Lemma wp_mono {A} (p : Prog reply Thrown A) tr (Q Q' : result Thrown A → list (Event reply Thrown) → Prop) :
  (∀ r tr', Q r tr' → Q' r tr') → wp p tr Q → wp p tr Q'.
Proof. intros HQ. revert tr. induction p as [a|e|o k IH]; intros tr; simpl; [apply HQ..|]. intros [H1 H2]. split; [done|]. eauto. Qed.

Lemma wp_attempt {A B} (p : Prog reply Thrown A) (k : result Thrown A → Prog reply Thrown B) tr Q :
  wp p tr (λ r tr', wp (k r) tr' Q) → wp (attempt p k) tr Q.
Proof. revert tr. induction p as [a|e|o f IH]; intros tr; simpl; [done|done|]. intros [H1 H2]. split; [done|]. eauto. Qed.

Lemma wp_bind {A B} (p : Prog reply Thrown A) (f : A → Prog reply Thrown B) tr Q :
  wp p tr (λ r tr', match r with Ok a => wp (f a) tr' Q | Throw e => Q (Throw e) tr' end) → wp (p ≫= f) tr Q.
Proof. intros H. apply wp_attempt. eapply wp_mono; [|exact H]. by intros []. Qed.

Lemma wp_ask o tr Q : P tr o → (∀ r, Q r (tr ++ [mkEvent o r])) → wp (ask o) tr Q.
Proof. intros H HQ. split; [done|]. intros [a|e]; apply HQ. Qed.

Lemma exec_wp {A} (p : Prog reply Thrown A) tr Q w : wp p tr Q → Q (exec w p tr).1 (exec w p tr).2.
Proof. revert tr. induction p as [a|e|o k IH]; intros tr; simpl; [done|done|]. intros [_ H]. by apply IH. Qed.

Lemma exec_extends {A} (p : Prog reply Thrown A) tr w : ∃ new, (exec w p tr).2 = tr ++ new.
Proof.
  revert tr. induction p as [a|e|o k IH]; intros tr; simpl; [exists []; by rewrite app_nil_r..|].
  destruct (IH (w tr o) (tr ++ [mkEvent o (w tr o)])) as [new ->]. exists (mkEvent o (w tr o) :: new). by rewrite <- app_assoc.
Qed.

(** What was asked in a run was allowed where it was asked. *)
Lemma exec_allowed {A} (p : Prog reply Thrown A) tr Q w pre e post :
  wp p tr Q → (exec w p tr).2 = tr ++ pre ++ e :: post → P (tr ++ pre) (asked e).
Proof.
  revert tr pre. induction p as [a|x|o k IH]; intros tr pre; simpl.
  - intros _ H. rewrite <- (app_nil_r tr) in H at 1. apply app_inv_head in H. by destruct pre.
  - intros _ H. rewrite <- (app_nil_r tr) in H at 1. apply app_inv_head in H. by destruct pre.
  - intros [H1 H2] H. destruct pre as [|e' pre].
    + destruct (exec_extends (k (w tr o)) (tr ++ [mkEvent o (w tr o)]) w) as [new E]. rewrite E in H.
      rewrite <- app_assoc in H. apply app_inv_head in H. injection H as <- _. by rewrite app_nil_r.
    + destruct (exec_extends (k (w tr o)) (tr ++ [mkEvent o (w tr o)]) w) as [new E].
      assert (e' = mkEvent o (w tr o)) as ->.
      { rewrite E, <- app_assoc in H. apply app_inv_head in H. by injection H. }
      specialize (IH (w tr o) (tr ++ [mkEvent o (w tr o)]) pre (H2 (w tr o))). rewrite <- !app_assoc in IH. by apply IH.
Qed.
End Logic.

Definition anyEnd {Op} {reply : Op → Type} {Thrown A} (_ : result Thrown A) (_ : list (Event reply Thrown)) : Prop := True.

(** ** Programs that report what they did *)

Section Report.
Context {Op : Type} {reply : Op → Type} {Thrown : Type} (P : list (Event reply Thrown) → Op → Prop).

(** Every operation is allowed, and what it answers is [R] of what it added. *)
Definition reports {A} (p : Prog reply Thrown A) (tr : list (Event reply Thrown)) (R : A → list (Event reply Thrown) → Prop) : Prop :=
  wp P p tr (λ r tr', ∀ a, r = Ok a → ∃ new, tr' = tr ++ new ∧ R a new).

Lemma reports_bind {A B} (p : Prog reply Thrown A) (f : A → Prog reply Thrown B) tr (R : A → list (Event reply Thrown) → Prop) S :
  reports p tr R → (∀ a new, R a new → reports (f a) (tr ++ new) (λ b new', S b (new ++ new'))) → reports (p ≫= f) tr S.
Proof.
  intros Hp Hf. apply wp_bind. eapply wp_mono; [|exact Hp]. intros [a|e] tr' H; [|done].
  destruct (H a eq_refl) as (new & -> & HR). eapply wp_mono; [|exact (Hf a new HR)].
  intros r tr' Hr b Eb. destruct (Hr b Eb) as (new' & -> & HS). exists (new ++ new'). by rewrite app_assoc.
Qed.

Lemma reports_ret {A} (a : A) tr (R : A → list (Event reply Thrown) → Prop) : R a [] → reports (Ret a) tr R.
Proof. intros H b [= <-]. exists []. by rewrite app_nil_r. Qed.

Lemma reports_ask o tr (R : reply o → list (Event reply Thrown) → Prop) :
  P tr o → (∀ a, R a [mkEvent o (Ok a)]) → reports (ask o) tr R.
Proof. intros H HR. apply wp_ask; [done|]. intros [a|e] b; [|done]. intros [= <-]. by eexists. Qed.

Lemma reports_step {B} o (f : reply o → Prog reply Thrown B) tr S :
  P tr o → (∀ a, reports (f a) (tr ++ [mkEvent o (Ok a)]) (λ b new, S b (mkEvent o (Ok a) :: new))) → reports (ask o ≫= f) tr S.
Proof.
  intros H Hf. eapply reports_bind; [apply (reports_ask o tr (λ a new, new = [mkEvent o (Ok a)])); done|]. intros a new ->. apply Hf.
Qed.

Lemma reports_try {B} o (k : result Thrown (reply o) → Prog reply Thrown B) tr S :
  P tr o → (∀ r, reports (k r) (tr ++ [mkEvent o r]) (λ b new, S b (mkEvent o r :: new))) → reports (attempt (ask o) k) tr S.
Proof.
  intros H Hk. apply wp_attempt, wp_ask; [done|]. intros r. eapply wp_mono; [|exact (Hk r)].
  intros r' tr' Hr b Eb. destruct (Hr b Eb) as (new & -> & HS). exists (mkEvent o r :: new). by rewrite <- app_assoc.
Qed.

Lemma reports_mono {A} (p : Prog reply Thrown A) tr (R S : A → list (Event reply Thrown) → Prop) :
  (∀ a new, R a new → S a new) → reports p tr R → reports p tr S.
Proof. intros H Hp. eapply wp_mono; [|exact Hp]. intros r tr' Hr a Ea. destruct (Hr a Ea) as (new & -> & HR). exists new. auto. Qed.
End Report.

(** *** Automation *)

(** What is asked, one operation at a time. *)
Ltac wp_step :=
  lazymatch goal with
  | |- wp _ (Ret _) _ _ => cbn [wp]; cbv beta iota
  | |- wp _ (Raise _) _ _ => cbn [wp]; cbv beta iota
  | |- anyEnd _ _ => exact I
  | |- @wp ?Op ?reply ?T ?P _ (ask ?o) ?tr ?Q =>
      refine (@wp_ask Op reply T P o tr Q _ _); [|intros [?|?]; cbv beta iota]
  | |- wp _ (attempt _ _) _ _ => apply wp_attempt
  | |- wp _ (_ ≫= _) _ _ => apply wp_bind
  | |- wp _ (match ?x with _ => _ end) _ _ => let E := fresh "E" in destruct x eqn:E
  | |- wp _ (let _ := _ in _) _ _ => cbv zeta
  | |- wp _ ((λ _, _) _) _ _ => cbv beta
  end.

(** The next operation of a program that reports. *)
Ltac report_step :=
  lazymatch goal with
  | |- @reports ?Op ?reply ?T ?P _ (ask ?o ≫= ?f) ?tr ?S => refine (@reports_step Op reply T P _ o f tr S _ _)
  | |- @reports ?Op ?reply ?T ?P _ (ask ?o) ?tr ?R => refine (@reports_ask Op reply T P o tr R _ _)
  | |- @reports ?Op ?reply ?T ?P _ (attempt (ask ?o) ?k) ?tr ?S => refine (@reports_try Op reply T P _ o k tr S _ _)
  end.

Ltac seen_tac := unfold seen; rewrite ?elem_of_app, ?list_elem_of_singleton; tauto.
End Program.
