(* ===== verification/Tokens.v ===== *)
(** * Tokens and Callers (orchestrator/src/tokens.ts, orchestrator/src/callers.ts)

    How a bearer becomes a principal, and what a principal may do.  A bearer and
    a slot are header values, so their units are bytes.  The HMAC ([sign]), the
    hash and the library that checks a JWT are parameters. *)

From Stdlib Require Import Lia ZArith.
From stdpp Require Import base list strings sets.
From S2P Require Import Prelude JsString Json JsObject Utf8 RunList Edit.

Open Scope Z_scope.

Module Tokens.
Import Json RunList.

(** ** Scopes *)

Inductive Scope := start | answer | cancel | read | steer.

#[export] Instance Scope_eq_dec : EqDecision Scope.
Proof. solve_decision. Defined.

Definition SCOPES : list Scope := [start; answer; cancel; read; steer].

(** The grant of each scope; [None]: the scope is not stated. *)
Definition Scopes := Scope → option Grant.

Inductive Via := token | jwt | hook.

#[export] Instance Via_eq_dec : EqDecision Via.
Proof. solve_decision. Defined.

Record Caller := mkCaller { via : Via; name : jstr; shown : option jstr; may : Scopes; onBehalfOf : option jstr }.

Definition EVERY_SCOPE : Scopes := λ _, Some All.

Definition instanceCaller : Caller := mkCaller token (js "instance") None EVERY_SCOPE None.

Definition isInstanceCaller (c : Caller) : bool := bool_decide (via c = token) && bool_decide (name c = js "instance").

Definition callerMay (c : Caller) (s : Scope) (workflow : jstr) : bool := grantOpens (may c s) workflow.

Definition callerMayAnswer (c : Caller) (workflow gate : jstr) : bool := grantOpensGate (may c answer) workflow gate.

Definition callerHasScope (c : Caller) (s : Scope) : bool :=
  match may c s with None => false | Some All => true | Some (Items l) => (0 <? length l)%nat end.

Definition callerMayAny (c : Caller) (workflow : jstr) : bool := existsb (λ s, callerMay c s workflow) SCOPES.

(** *** Joined scopes *)

(** [[...item.gates].sort()]: by the UTF-16 units. *)
Fixpoint unitsLe (a b : jstr) : bool :=
  match a, b with
  | [], _ => true
  | _ :: _, [] => false
  | x :: a', y :: b' => if x =? y then unitsLe a' b' else x <? y
  end.

Fixpoint insertName (x : jstr) (l : list jstr) : list jstr :=
  match l with [] => [x] | y :: l' => if unitsLe x y then x :: l else y :: insertName x l' end.

Definition sortNames (l : list jstr) : list jstr := foldr insertName [] l.

Definition itemKey (i : GrantItem) : jstr :=
  match i with
  | GName n => n
  | GGates w gates => stringify (JArr [JStr w; JArr (JStr <$> sortNames gates)])
  end.

Fixpoint distinctItems (seen : list jstr) (l : list GrantItem) : list GrantItem :=
  match l with
  | [] => []
  | i :: l' => if bool_decide (itemKey i ∈ seen) then distinctItems seen l' else i :: distinctItems (seen ++ [itemKey i]) l'
  end.

Definition joinItems (a b : list GrantItem) : list GrantItem := distinctItems [] (a ++ b).

Definition joinGrant (joined grant : option Grant) : option Grant :=
  match grant with
  | None => joined
  | Some All => Some All
  | Some (Items l) =>
      match joined with
      | Some All => Some All
      | Some (Items l0) => Some (Items (joinItems l0 l))
      | None => Some (Items (joinItems [] l))
      end
  end.

Definition joinScopes (grants : list Scopes) : Scopes := λ s, foldl (λ joined m, joinGrant joined (m s)) None grants.

(** ** Authenticators *)

(** [None] is [undefined], the bearer is not its own. *)
Inductive CallerAnswer := Claimed (c : Caller) | RefusedBearer (why : jstr).

Definition CallerAuthenticator := jstr → option CallerAnswer.

(** [timingSafeEqual] over the UTF-8 bytes. *)
Definition constantTimeEqual (a b : jstr) : bool := bool_decide (Utf8.encode a = Utf8.encode b).

Definition instanceTokenAuthenticator (instanceToken : jstr) : CallerAuthenticator :=
  λ bearer, if constantTimeEqual bearer instanceToken then Some (Claimed instanceCaller) else None.

Record NamedToken := mkNamed { n_name : jstr; digest : jstr; n_may : Scopes }.

Definition CALLER_TOKEN_PREFIX : jstr := js "jr2c_".

Section Crypto.
Context {Key : Type} (sign : Key → jstr → jstr) (sha256 : jstr → jstr).

Definition namedTokenAuthenticator (tokens : list NamedToken) : CallerAuthenticator :=
  λ bearer,
    if negb (Edit.startsWith CALLER_TOKEN_PREFIX bearer) then None
    else
      let d := sha256 bearer in
      match last (filter (λ t, constantTimeEqual d (digest t) = true) tokens) with
      | None => Some (RefusedBearer (js "no named Caller token has this value " ++ [8212] ++ js " it was rotated, or never made"))
      | Some found => Some (Claimed (mkCaller token (n_name found) None (n_may found) None))
      end.

Definition namedTokens (declared : JsObject.obj Scopes) (digests : JsObject.obj jstr) : list NamedToken :=
  omap (λ d, match JsObject.objGet d.1 digests with
             | Some ((_ :: _) as x) => Some (mkNamed d.1 x d.2)
             | _ => None
             end) declared.

(** *** JWT issuers *)

(** The claims that an entry reads, where it names another than the default. *)
Record JwtIssuer := mkIssuer {
  issuer : jstr;
  audience : jstr;
  jwks : option jstr;
  claim_name : option jstr;
  claim_shown : option jstr;
  claim_groups : option jstr;
  groups : JsObject.obj Scopes;
}.

Section Jwt.
(** [decodeJwt], and [jwtVerify] with the entry's keys: the payload, or the
    error's message. *)
Context (decodeJwt : jstr → option json) (jwtVerify : jstr → JwtIssuer → result jstr json).

Definition valuesOf (claim : option json) : list jstr :=
  match claim with
  | Some (JStr s) => [s]
  | Some (JArr l) => omap (λ v, match v with JStr s => Some s | _ => None end) l
  | _ => []
  end.

(** A text that is not empty *)
Definition textClaim (c : jstr) (payload : json) : option jstr :=
  match prop c payload with Some (JStr ((_ :: _) as x)) => Some x | _ => None end.

Definition ofIssuer (iss : option json) (i : JwtIssuer) : bool :=
  match iss with Some (JStr s) => bool_decide (issuer i = s) | _ => false end.

Definition jwtCaller (entry : JwtIssuer) (payload : json) : CallerAnswer :=
  let cn := default (js "sub") (claim_name entry) in
  match textClaim cn payload with
  | None => RefusedBearer (js "a JWT of " ++ issuer entry ++ js " has no " ++ [34] ++ cn ++ [34] ++ js " claim, which names its Caller")
  | Some n =>
      let s := textClaim (default (js "email") (claim_shown entry)) payload in
      let values := valuesOf (prop (default (js "groups") (claim_groups entry)) payload) in
      Claimed (mkCaller jwt n (if bool_decide (s = Some n) then None else s)
                 (joinScopes (omap (λ v, JsObject.objGet v (groups entry)) values)) None)
  end.

Definition jwtAuthenticator (issuers : list JwtIssuer) : CallerAuthenticator :=
  λ bearer,
    if negb (length (split_on 46 bearer) =? 3)%nat then None
    else
      match decodeJwt bearer with
      | None => None
      | Some unverified =>
          match head (filter (λ i, ofIssuer (prop (js "iss") unverified) i = true) issuers) with
          | None => None
          | Some entry =>
              match jwtVerify bearer entry with
              | Throw why => Some (RefusedBearer (js "a JWT of " ++ issuer entry ++ js " did not verify: " ++ why))
              | Ok payload => Some (jwtCaller entry payload)
              end
          end
      end.
End Jwt.

(** *** The issuers' key sets *)

(** A slot of the cache: its promise, and when it failed. *)
Inductive Slot := SPending | SReady | SFailed (at_ : Z).

Definition failedAt (s : Slot) : option Z := match s with SFailed t => Some t | _ => None end.

(** The slots ever made, and the map from an entry's id to its slot. *)
Record KeySets := mkKeySets { slots : list Slot; byId : JsObject.obj nat }.

Definition noKeySets : KeySets := mkKeySets [] [].

Definition idOf (entry : JwtIssuer) : jstr :=
  stringify (JArr [JStr (issuer entry); match jwks entry with Some u => JStr u | None => JNull end]).

(** [now() - failedAt < cooldownMs], or it did not fail. *)
Definition stillKept (cooldown now : Z) (s : option Slot) : bool :=
  match s ≫= failedAt with None => true | Some t => now - t <? cooldown end.

(** The slot, the cache after it, and whether a discovery was fetched. *)
Definition keySetOf (cooldown now : Z) (entry : JwtIssuer) (c : KeySets) : nat * KeySets * bool :=
  let made := (length (slots c), mkKeySets (slots c ++ [SPending]) (JsObject.objSet (idOf entry) (length (slots c)) (byId c)),
               bool_decide (jwks entry = None)) in
  match JsObject.objGet (idOf entry) (byId c) with
  | Some i => if stillKept cooldown now (slots c !! i) then (i, c, false) else made
  | None => made
  end.

Definition prune (current : list JwtIssuer) (c : KeySets) : KeySets :=
  mkKeySets (slots c) (filter (λ m, m.1 ∈ idOf <$> current) (byId c)).

(** What a claimed JWT does to the cache. *)
Definition askKeys (cooldown now : Z) (current : list JwtIssuer) (entry : JwtIssuer) (c : KeySets) : nat * KeySets * bool :=
  keySetOf cooldown now entry (prune current c).

(** A slot's promise settles. *)
Definition settleSlot (i : nat) (ok : bool) (now : Z) (c : KeySets) : KeySets :=
  match slots c !! i with
  | Some SPending => mkKeySets (<[i := if ok then SReady else SFailed now]> (slots c)) (byId c)
  | _ => c
  end.

(** ** The digests of the named tokens *)

Inductive FileRead := Absent | Unreadable | FileText (raw : jstr).

Record Watch := mkWatch { digests : JsObject.obj jstr; text : option jstr }.

Definition digestsOf (raw : jstr) : option (JsObject.obj jstr) :=
  match parse raw with
  | Some (JObj l) =>
      let parsed := foldl (λ o m, JsObject.objSet m.1 m.2 o) [] l in
      Some (omap (λ m, match m.2 with JStr s => Some (m.1, s) | _ => None end) parsed)
  | _ => None
  end.

Definition readDigests (f : FileRead) (w : Watch) : Watch :=
  match f with
  | Absent => mkWatch [] None
  | Unreadable => w
  | FileText raw => match digestsOf raw with Some d => mkWatch d (Some raw) | None => w end
  end.

(** The reads so far, the one at the start first. *)
Definition watchCallerDigests (reads : list FileRead) : Watch := foldl (λ w f, readDigests f w) (mkWatch [] None) reads.

(** ** Signed names *)

Definition DOTC : Z := 46.

Definition sandboxToken (key : Key) (sandbox : jstr) : jstr := sandbox ++ [DOTC] ++ sign key sandbox.

Definition CONTROL_PREFIX : jstr := js "agent:".

Definition controlToken (key : Key) (pod : jstr) : jstr :=
  let n := CONTROL_PREFIX ++ pod in n ++ [DOTC] ++ sign key n.

Definition controlStandIn (key : Key) (pod : jstr) : jstr := sign key (js "control-standin:" ++ pod).
Definition harnessToken (key : Key) (placement : jstr) : jstr := sign key (js "harness:" ++ placement).
Definition effectorKey (key : Key) (placement : jstr) : jstr := sign key (js "effector:" ++ placement).

Definition alnum (c : Z) : bool := ((97 <=? c) && (c <=? 122)) || ((48 <=? c) && (c <=? 57)).

(** [/^[a-z0-9]([-a-z0-9.]*[a-z0-9])?$/] *)
Definition isPodName (n : jstr) : bool :=
  match head n, last n with
  | Some c, Some d => alnum c && alnum d && forallb (λ x, alnum x || (x =? 45) || (x =? 46)) n
  | _, _ => false
  end.

(** The parts before and after the last dot. *)
Definition cutLast (s : jstr) : option (jstr * jstr) :=
  match rev (split_on DOTC s) with
  | after :: ((_ :: _) as before) => Some (join [DOTC] (rev before), after)
  | _ => None
  end.

(** ** Principals *)

Inductive Principal :=
| PCaller (c : Caller)
| Publisher
| PSandbox (sandbox : jstr)
| PAgent (sandbox slot : jstr).

Record Options := mkOptions {
  instanceToken : jstr;
  signingKey : Key;
  publishToken : option jstr;
  named : option (list NamedToken);
  callers : list CallerAuthenticator;
}.

Definition seam (o : Options) : list CallerAuthenticator :=
  [instanceTokenAuthenticator (instanceToken o)]
  ++ match named o with Some l => [namedTokenAuthenticator l] | None => [] end ++ callers o.

(** The first that claims the bearer decides. *)
Fixpoint callerOf (l : list CallerAuthenticator) (bearer : jstr) : option Principal :=
  match l with
  | [] => None
  | a :: l' =>
      match a bearer with
      | None => callerOf l' bearer
      | Some (RefusedBearer _) => None
      | Some (Claimed c) => Some (PCaller c)
      end
  end.

Definition createAuthenticator (o : Options) (bearer slot : option jstr) : option Principal :=
  match bearer with
  | None | Some [] => None
  | Some b =>
      if match publishToken o with Some p => constantTimeEqual b p | None => false end then Some Publisher
      else
        match cutLast b with
        | None | Some ([], _) => callerOf (seam o) b
        | Some (n, sig) =>
            if negb (constantTimeEqual sig (sign (signingKey o) n)) then callerOf (seam o) b
            else if Edit.startsWith CONTROL_PREFIX n then
              let pod := drop (length CONTROL_PREFIX) n in
              match slot with
              | Some ((_ :: _) as s) => if isPodName pod then Some (PAgent pod s) else None
              | _ => None
              end
            else if isPodName n then Some (PSandbox n) else None
        end
  end.

End Crypto.

(** ** What a principal may do *)

Definition isInstancePrincipal (p : Principal) : bool :=
  match p with PCaller c => isInstanceCaller c | _ => false end.

Definition mayDeliverToAgent (p : Principal) (sandbox slot : option jstr) : bool :=
  if isInstancePrincipal p then true
  else
    match p with
    | PAgent sb sl => bool_decide (sandbox = Some sb) && bool_decide (slot = Some sl)
    | _ => false
    end.

Definition mayAskForSandbox (p : Principal) (sandbox : jstr) : bool :=
  if isInstancePrincipal p then true
  else match p with PSandbox sb => bool_decide (sb = sandbox) | _ => false end.

(** *** What a run records of a Caller *)

Record CallerRecord := mkRecord { r_via : Via; r_name : jstr; r_shown : option jstr; r_onBehalfOf : option jstr }.

Definition callerRecord (c : Caller) : CallerRecord := mkRecord (via c) (name c) (shown c) (onBehalfOf c).

Definition viaText (v : Via) : jstr := match v with token => js "token" | jwt => js "jwt" | hook => js "hook" end.

Definition callerText (c : CallerRecord) : jstr :=
  viaText (r_via c) ++ js "/" ++ r_name c
  ++ match r_shown c with Some s => js " (" ++ s ++ js ")" | None => [] end
  ++ match r_onBehalfOf c with Some s => js " on behalf of " ++ s | None => [] end.

End Tokens.
