(* ===== verification/TokensProofs.v ===== *)
(** * What a bearer opens: proofs about [Tokens]

    Which bearers make which principal, what joined grants open, how often an
    issuer's discovery is fetched, and which digests the named tokens are
    compared with. *)

From Stdlib Require Import Lia ZArith.
From stdpp Require Import base list strings sets.
From S2P Require Import Prelude JsString Json JsObject Utf8 RunList Edit EditProofs Tokens.

Open Scope Z_scope.

Module TokensProofs.
Import Json RunList Tokens.

(** ** Comparing texts *)

(** A text whose UTF-8 form says which text it is. *)
Lemma constantTimeEqual_spec a b :
  Utf8.well_formed a = true → Utf8.well_formed b = true → constantTimeEqual a b = bool_decide (a = b).
Proof.
  intros Ha Hb. unfold constantTimeEqual. apply bool_decide_ext. split; [|by intros ->].
  intros E. pose proof (Utf8.decode_encode_app a [] Ha) as H1. pose proof (Utf8.decode_encode_app b [] Hb) as H2.
  rewrite E, H2 in H1. rewrite !app_nil_r in H1. by rewrite H1.
Qed.

(** A header's value: each unit is a byte. *)
Definition headerText (s : jstr) : Prop := Forall (λ c, 0 <= c <= 255) s.

Lemma headerText_well_formed s : headerText s → Utf8.well_formed s = true.
Proof.
  induction 1 as [|c s Hc Hs IH]; [done|]. simpl.
  assert (is_high c = false) as -> by (unfold is_high; lia).
  assert (is_low c = false) as -> by (unfold is_low; lia). rewrite IH. unfold Utf8.between. lia.
Qed.

(** ** The last dot *)

Lemma split_on_no_sep sep s : sep ∉ s → split_on sep s = [s].
Proof.
  induction s as [|c s IH]; [done|]. intros [H1 H2]%not_elem_of_cons. simpl.
  destruct (c =? sep) eqn:E; [by apply Z.eqb_eq in E|]. by rewrite IH.
Qed.

Lemma split_on_app sep a b : sep ∉ b → split_on sep (a ++ [sep] ++ b) = split_on sep a ++ [b].
Proof.
  intros Hb. induction a as [|c a IH]; simpl.
  - by rewrite Z.eqb_refl, split_on_no_sep.
  - simpl in IH. destruct (c =? sep); [by rewrite IH|]. rewrite IH.
    destruct (split_on sep a) eqn:E; [by apply split_on_nonempty in E|done].
Qed.

Lemma cutLast_app n sig : DOTC ∉ sig → cutLast (n ++ [DOTC] ++ sig) = Some (n, sig).
Proof.
  intros H. unfold cutLast. rewrite split_on_app by done. rewrite rev_app_distr. simpl.
  destruct (rev (split_on DOTC n)) as [|x l] eqn:E.
  - apply (f_equal (@rev _)) in E. rewrite rev_involutive in E. by apply split_on_nonempty in E.
  - rewrite <- E, rev_involutive, join_split. done.
Qed.

Lemma cutLast_some s n sig : cutLast s = Some (n, sig) → s = n ++ [DOTC] ++ sig ∧ DOTC ∉ sig.
Proof.
  unfold cutLast. intros H. pose proof (join_split DOTC s) as Hj. pose proof (split_parts_no_sep DOTC s) as Hp.
  destruct (rev (split_on DOTC s)) as [|a [|b l]] eqn:E; try done. injection H as <- <-.
  apply (f_equal (@rev _)) in E. rewrite rev_involutive in E. rewrite E in Hj, Hp.
  cbn [rev] in *. rewrite join_snoc in Hj by (destruct (rev l); done). rewrite <- Hj. split; [done|].
  rewrite !Forall_app, !Forall_singleton in Hp. apply Hp.
Qed.

(** ** The scopes of a JWT, joined *)

(** A workflow name that a key is not mistaken for: no JSON array. *)
Definition plainName (i : GrantItem) : Prop :=
  match i with
  | GName n => head n ≠ Some 91
  | GGates w gates => Forall unit_ok w ∧ Forall (Forall unit_ok) gates
  end.

Lemma insertName_perm x l : insertName x l ≡ₚ x :: l.
Proof.
  induction l as [|y l IH]; simpl; [done|]. destruct (unitsLe x y); [done|]. rewrite IH. constructor.
Qed.

Lemma sortNames_perm l : sortNames l ≡ₚ l.
Proof. induction l as [|x l IH]; simpl; [done|]. by rewrite insertName_perm, IH. Qed.

Lemma stringify_inj a b : units_ok a → units_ok b → stringify a = stringify b → a = b.
Proof. intros Ha Hb E. apply parse_stringify in Ha, Hb. rewrite E in Ha. congruence. Qed.

Lemma itemKey_ok w gates : Forall unit_ok w → Forall (Forall unit_ok) gates → units_ok (JArr [JStr w; JArr (JStr <$> sortNames gates)]).
Proof.
  intros Hw Hg. constructor. repeat constructor; [done|]. apply Forall_fmap.
  rewrite sortNames_perm. eapply Forall_impl; [exact Hg|]. by constructor.
Qed.

(** Items of one key open the same. *)
Lemma itemKey_same i j :
  plainName i → plainName j → itemKey i = itemKey j →
  itemName i = itemName j ∧ match i, j with
                            | GName _, GName _ => True
                            | GGates _ g, GGates _ g' => ∀ x, x ∈ g ↔ x ∈ g'
                            | _, _ => False
                            end.
Proof.
  destruct i as [n|w g], j as [n'|w' g']; cbn [plainName itemName itemKey].
  - by intros _ _ ->.
  - intros H _ ->. by destruct H.
  - intros _ H <-. by destruct H.
  - intros [H1 H2] [H3 H4] E. apply stringify_inj in E; [|by apply itemKey_ok..]. injection E as -> E.
    apply list_fmap_eq_inj in E; [|by intros ?? [= ->]]. split; [done|]. intros x. by rewrite <- (sortNames_perm g), E, sortNames_perm.
Qed.

(** What an item opens, at a Gate or at any. *)
Definition itemOpens (workflow : jstr) (gate : option jstr) (i : GrantItem) : bool :=
  match gate, i with
  | Some g, GGates w gates => nameOpens w workflow && bool_decide (g ∈ gates)
  | _, _ => nameOpens (itemName i) workflow
  end.

Definition opens (workflow : jstr) (gate : option jstr) (g : option Grant) : bool :=
  match g with None => false | Some All => true | Some (Items l) => existsb (itemOpens workflow gate) l end.

Lemma opens_grant w g : opens w None g = grantOpens g w.
Proof. by destruct g as [[]|]. Qed.

Lemma opens_gate w gate g : opens w (Some gate) g = grantOpensGate g w gate.
Proof. by destruct g as [[|l]|]; [| |]; simpl; [|induction l as [|[] l IH]; simpl; rewrite ?IH|]. Qed.

Lemma itemOpens_key w gate i j : plainName i → plainName j → itemKey i = itemKey j → itemOpens w gate i = itemOpens w gate j.
Proof.
  intros Hi Hj E. destruct (itemKey_same i j Hi Hj E) as [H1 H2].
  destruct i, j; cbn [itemName] in H1; try done; subst; destruct gate; try done. simpl. f_equal. by apply bool_decide_ext.
Qed.

Lemma distinctItems_opens w gate seen l :
  Forall plainName l →
  existsb (itemOpens w gate) l = true →
  existsb (itemOpens w gate) (distinctItems seen l) = true ∨ ∃ i, i ∈ l ∧ itemKey i ∈ seen ∧ itemOpens w gate i = true.
Proof.
  intros Hl. revert seen. induction Hl as [|i l Hi Hl IH]; [done|]. intros seen. simpl. intros [H|H]%orb_prop.
  - destruct (bool_decide _) eqn:E; [apply bool_decide_eq_true in E; right; exists i; split; [left|done]|].
    left. simpl. by rewrite H.
  - destruct (bool_decide (itemKey i ∈ seen)) eqn:E.
    + destruct (IH seen H) as [?|(j & ? & ?)]; [by left|]. right. exists j. split; [by right|done].
    + simpl. destruct (IH (seen ++ [itemKey i]) H) as [->|(j & Hj & Hk & Ho)]; [left; apply orb_true_r|].
      apply elem_of_app in Hk as [Hk|Hk%list_elem_of_singleton]; [right; exists j; split; [by right|done]|].
      left. rewrite (itemOpens_key w gate i j), Ho; [done|done| |done].
      by eapply Forall_forall in Hl.
Qed.

Lemma distinctItems_sub seen l i : i ∈ distinctItems seen l → i ∈ l.
Proof.
  revert seen. induction l as [|j l IH]; intros seen; simpl; [done|].
  destruct (bool_decide _); [intros ?%IH; by right|]. intros [->|?%IH]%elem_of_cons; [left|by right].
Qed.

Lemma existsb_sub {A} (f : A → bool) l l' : (∀ x, x ∈ l → x ∈ l') → existsb f l = true → existsb f l' = true.
Proof. intros Hs (x & Hx & Hf)%existsb_exists. apply existsb_exists. exists x. split; [|done]. apply list_elem_of_In, Hs, list_elem_of_In, Hx. Qed.

Lemma existsb_same {A} (f g : A → bool) l : (∀ x, f x = g x) → existsb f l = existsb g l.
Proof. intros H. induction l as [|x l IH]; simpl; [done|]. by rewrite H, IH. Qed.

Lemma joinItems_opens w gate a b :
  Forall plainName (a ++ b) →
  existsb (itemOpens w gate) (joinItems a b) = existsb (itemOpens w gate) a || existsb (itemOpens w gate) b.
Proof.
  intros H. rewrite <- existsb_app. apply eq_true_iff_eq. split.
  - apply existsb_sub. intros i. apply distinctItems_sub.
  - intros E. destruct (distinctItems_opens w gate [] (a ++ b) H E) as [?|(? & _ & Hk & _)]; [done|]. by apply not_elem_of_nil in Hk.
Qed.

Definition plainGrant (g : option Grant) : Prop := match g with Some (Items l) => Forall plainName l | _ => True end.

Lemma joinItems_plain a b : Forall plainName (a ++ b) → Forall plainName (joinItems a b).
Proof. rewrite !Forall_forall. intros H i Hi. apply H. by apply distinctItems_sub in Hi. Qed.

Lemma joinGrant_opens w gate j g :
  plainGrant j → plainGrant g → plainGrant (joinGrant j g) ∧ opens w gate (joinGrant j g) = opens w gate j || opens w gate g.
Proof.
  intros Hj Hg. destruct g as [[|l]|]; simpl; [by rewrite orb_true_r| |by rewrite orb_false_r].
  destruct j as [[|l0]|]; simpl; [done| |].
  - assert (Forall plainName (l0 ++ l)) by (by apply Forall_app). split; [by apply joinItems_plain|]. by apply joinItems_opens.
  - split; [by apply joinItems_plain|]. by apply (joinItems_opens w gate [] l).
Qed.

Lemma joinScopes_opens w gate s (grants : list Scopes) j :
  plainGrant j → Forall (λ m : Scopes, plainGrant (m s)) grants →
  opens w gate (foldl (λ joined m, joinGrant joined (m s)) j grants)
  = opens w gate j || existsb (λ m, opens w gate (m s)) grants.
Proof.
  intros Hj H. revert j Hj. induction H as [|m l Hm Hl IH]; intros j Hj; simpl; [by rewrite orb_false_r|].
  destruct (joinGrant_opens w gate j (m s) Hj Hm) as [Hp Ho]. rewrite IH by done. by rewrite Ho, orb_assoc.
Qed.

(** Joined scopes open what one of them opens, and nothing else: a Caller
    whose JWT names several groups may act on a Workflow, or answer a Gate of
    it, exactly when the scopes of one of the groups let it. No Workflow's
    name is a JSON array, which a key of an item could be taken for. *)
Theorem joined_scopes_are_union grants s workflow gate :
  Forall (λ m : Scopes, plainGrant (m s)) grants →
  grantOpens (joinScopes grants s) workflow = existsb (λ m, grantOpens (m s) workflow) grants
  ∧ grantOpensGate (joinScopes grants s) workflow gate = existsb (λ m, grantOpensGate (m s) workflow gate) grants.
Proof.
  intros H. unfold joinScopes. rewrite <- opens_grant, <- opens_gate, !(joinScopes_opens _ _ s grants None) by done.
  split; apply existsb_same; intros m; [apply opens_grant|apply opens_gate].
Qed.

(** ** Which bearer is which principal *)

(** What is known of the HMAC: its text is in the base64url alphabet. *)
Class Hmac {Key} (sign : Key → jstr → jstr) : Prop :=
  sign_base64url key v : Forall (λ c, alnum c || ((65 <=? c) && (c <=? 90)) || (c =? 45) || (c =? 95) = true) (sign key v).

Section Exact.
Context {Key : Type} (sign : Key → jstr → jstr) (sha256 : jstr → jstr) `{!Hmac sign}.

Lemma sign_no_dot key v : DOTC ∉ sign key v.
Proof.
  intros H. pose proof (sign_base64url key v) as Hs. rewrite Forall_forall in Hs. by apply Hs in H.
Qed.

Lemma sign_ascii key v : Utf8.well_formed (sign key v) = true.
Proof.
  apply Utf8.ascii_well_formed. eapply Forall_impl; [apply (sign_base64url key v)|].
  intros c H. unfold alnum in H. lia.
Qed.

(** A bearer as [createAuthenticator] reads it, and the options it is given. *)
Definition publishes (o : @Options Key) (bearer : jstr) : bool :=
  match publishToken o with Some p => constantTimeEqual bearer p | None => false end.

(** A text that the key signed under its name. *)
Definition signed (key : Key) (n : jstr) : jstr := n ++ [DOTC] ++ sign key n.

Lemma signed_cases key bearer :
  headerText bearer →
  (∃ n, n ≠ [] ∧ bearer = signed key n ∧ cutLast bearer = Some (n, sign key n))
  ∨ ((∀ n, n ≠ [] → bearer ≠ signed key n)
     ∧ match cutLast bearer with
       | None | Some ([], _) => True
       | Some (n, sig) => constantTimeEqual sig (sign key n) = false
       end).
Proof.
  intros Hb. destruct (cutLast bearer) as [[n sig]|] eqn:E.
  - pose proof (cutLast_some _ _ _ E) as [-> Hs].
    assert (Utf8.well_formed sig = true) as Hw.
    { apply headerText_well_formed. unfold headerText in Hb. rewrite !Forall_app in Hb. apply Hb. }
    destruct (decide (n ≠ [] ∧ sig = sign key n)) as [[Hn ->]|Hd]; [left; by exists n|]. right. split.
    + intros m Hm Eq. apply Hd. unfold signed in Eq. rewrite Eq, cutLast_app in E by apply sign_no_dot. by injection E as <- <-.
    + destruct n as [|c n]; [done|]. rewrite constantTimeEqual_spec; [|exact Hw|apply sign_ascii]. apply bool_decide_eq_false. naive_solver.
  - right. split; [|done]. intros n _ ->. unfold signed in E. by rewrite cutLast_app in E by apply sign_no_dot.
Qed.

(** What the bearer of a signed name is. *)
Definition podPrincipal (slot : option jstr) (n : jstr) : option Principal :=
  if Edit.startsWith CONTROL_PREFIX n then
    match slot with
    | Some ((_ :: _) as s) => if isPodName (drop (length CONTROL_PREFIX) n) then Some (PAgent (drop (length CONTROL_PREFIX) n) s) else None
    | _ => None
    end
  else if isPodName n then Some (PSandbox n) else None.

(** The whole of [createAuthenticator], by what its bearer is. *)
Lemma authenticator_reads (o : @Options Key) bearer slot :
  headerText bearer → bearer ≠ [] →
  createAuthenticator sign sha256 o (Some bearer) slot =
  if publishes o bearer then Some Publisher
  else match cutLast bearer with
       | Some (n, sig) =>
           if bool_decide (n ≠ []) && bool_decide (bearer = signed (signingKey o) n) then podPrincipal slot n
           else callerOf (seam sha256 o) bearer
       | None => callerOf (seam sha256 o) bearer
       end.
Proof.
  intros Hb Hne. unfold createAuthenticator. destruct bearer as [|b bearer]; [done|]. set (B := b :: bearer) in *.
  fold (publishes o B). destruct (publishes o B); [done|].
  destruct (signed_cases (signingKey o) B Hb) as [(n & Hn & E & Hc)|[Hno Hc]].
  - rewrite Hc. destruct n as [|c n]; [done|].
    rewrite constantTimeEqual_spec, !bool_decide_eq_true_2 by (done || apply sign_ascii). done.
  - destruct (cutLast B) as [[[|c n] sig]|] eqn:Ec; [done| |done]. rewrite Hc. simpl.
    rewrite (bool_decide_eq_false_2 (B = _)) by (by apply Hno). done.
Qed.

Lemma colon_not_pod n : 58 ∈ n → isPodName n = false.
Proof.
  intros H. unfold isPodName. destruct (head n); [|done]. destruct (last n); [|done].
  destruct (forallb _ n) eqn:E; [|by rewrite andb_false_r].
  rewrite forallb_forall in E. specialize (E 58 (proj1 (list_elem_of_In _ _) H)). done.
Qed.

Lemma control_not_pod n : Edit.startsWith CONTROL_PREFIX n = true → isPodName n = false.
Proof. intros [t ->]%EditProofs.startsWith_spec. apply colon_not_pod, elem_of_app. left. apply list_elem_of_In; vm_compute; auto 10. Qed.

Lemma pod_is_name n : isPodName n = true → n ≠ [].
Proof. by destruct n. Qed.

Lemma publishes_spec o bearer :
  headerText bearer → (∀ p, publishToken o = Some p → Utf8.well_formed p = true) →
  publishes o bearer = bool_decide (publishToken o = Some bearer).
Proof.
  intros Hb Hp. unfold publishes. destruct (publishToken o) as [p|] eqn:E; [|done].
  rewrite constantTimeEqual_spec; [|by apply headerText_well_formed|by apply Hp]. apply bool_decide_ext. naive_solver.
Qed.

(** The bearer is a signed name, or it is for the seam. *)
Lemma authenticator_cases (o : @Options Key) bearer slot :
  headerText bearer → bearer ≠ [] → (∀ p, publishToken o = Some p → Utf8.well_formed p = true) → publishToken o ≠ Some bearer →
  (∃ n, n ≠ [] ∧ bearer = signed (signingKey o) n ∧ createAuthenticator sign sha256 o (Some bearer) slot = podPrincipal slot n)
  ∨ ((∀ n, n ≠ [] → bearer ≠ signed (signingKey o) n)
     ∧ createAuthenticator sign sha256 o (Some bearer) slot = callerOf (seam sha256 o) bearer).
Proof.
  intros Hb Hne Hw Hp. rewrite authenticator_reads by done. rewrite publishes_spec, bool_decide_eq_false_2 by done.
  destruct (signed_cases (signingKey o) bearer Hb) as [(n & Hn & E & ->)|[Hno _]].
  - left. exists n. rewrite !bool_decide_eq_true_2 by done. done.
  - right. split; [done|]. destruct (cutLast bearer) as [[n sig]|]; [|done].
    destruct (decide (n ≠ [])) as [H|H]; [|by rewrite (bool_decide_eq_false_2 (n ≠ []))].
    rewrite (bool_decide_eq_false_2 (bearer = _)) by (by apply Hno). by rewrite andb_false_r.
Qed.

Lemma signed_inj key n m : signed key n = signed key m → n = m.
Proof.
  intros E. pose proof (cutLast_app n (sign key n) (sign_no_dot _ _)) as H1.
  pose proof (cutLast_app m (sign key m) (sign_no_dot _ _)) as H2. unfold signed in E. rewrite E in H1. congruence.
Qed.

Lemma callerOf_caller l bearer p : callerOf l bearer = Some p → ∃ c, p = PCaller c.
Proof. induction l as [|a l IH]; simpl; [done|]. destruct (a bearer) as [[c|]|]; [intros [= <-]; eauto|done|done]. Qed.

Lemma podPrincipal_agent slot n pod s :
  podPrincipal slot n = Some (PAgent pod s) ↔ n = CONTROL_PREFIX ++ pod ∧ isPodName pod = true ∧ slot = Some s ∧ s ≠ [].
Proof.
  unfold podPrincipal. split.
  - destruct (Edit.startsWith CONTROL_PREFIX n) eqn:E; [|by destruct (isPodName n)].
    apply EditProofs.startsWith_spec in E as [t ->]. rewrite drop_app_length.
    destruct slot as [[|c s']|]; [done| |done]. destruct (isPodName t) eqn:Ep; [|done]. by intros [= <- <-].
  - intros (-> & Hp & -> & Hs). assert (Edit.startsWith CONTROL_PREFIX (CONTROL_PREFIX ++ pod) = true) as -> by (apply EditProofs.startsWith_spec; eauto).
    rewrite drop_app_length, Hp. by destruct s.
Qed.

Lemma podPrincipal_sandbox slot n sb : podPrincipal slot n = Some (PSandbox sb) ↔ n = sb ∧ isPodName sb = true.
Proof.
  unfold podPrincipal. split.
  - destruct (Edit.startsWith CONTROL_PREFIX n); [destruct slot as [[|? ?]|]; try done; by destruct (isPodName _)|].
    destruct (isPodName n) eqn:E; [|done]. by intros [= <-].
  - intros [-> H]. destruct (Edit.startsWith CONTROL_PREFIX sb) eqn:E; [apply control_not_pod in E; congruence|]. by rewrite H.
Qed.

Lemma podPrincipal_kind slot n p : podPrincipal slot n = Some p → (∃ pod s, p = PAgent pod s) ∨ ∃ sb, p = PSandbox sb.
Proof.
  unfold podPrincipal. destruct (Edit.startsWith _ n).
  - destruct slot as [[|? ?]|]; try done. destruct (isPodName _); [|done]. intros [= <-]. eauto.
  - destruct (isPodName n); [|done]. intros [= <-]. eauto.
Qed.

(** What the pods' own tokens are. *)
Lemma control_principal (o : @Options Key) pod slot :
  let t := controlToken sign (signingKey o) pod in
  headerText t → (∀ p, publishToken o = Some p → Utf8.well_formed p = true) → publishToken o ≠ Some t →
  createAuthenticator sign sha256 o (Some t) slot
  = match slot with Some ((_ :: _) as s) => if isPodName pod then Some (PAgent pod s) else None | _ => None end.
Proof.
  intros t Ht Hw Hp. destruct (authenticator_cases o t slot Ht ltac:(done) Hw Hp) as [(n & _ & E & ->)|[Hno _]].
  - apply signed_inj in E as <-. unfold podPrincipal.
    assert (Edit.startsWith CONTROL_PREFIX (CONTROL_PREFIX ++ pod) = true) as -> by (apply EditProofs.startsWith_spec; eauto).
    by rewrite drop_app_length.
  - by destruct (Hno (CONTROL_PREFIX ++ pod)).
Qed.

Lemma sandbox_principal (o : @Options Key) pod slot :
  let t := sandboxToken sign (signingKey o) pod in
  headerText t → isPodName pod = true → (∀ p, publishToken o = Some p → Utf8.well_formed p = true) → publishToken o ≠ Some t →
  createAuthenticator sign sha256 o (Some t) slot = Some (PSandbox pod).
Proof.
  intros t Ht Hn Hw Hp. assert (t ≠ []) as Hne by (unfold t, sandboxToken; by destruct pod).
  destruct (authenticator_cases o t slot Ht Hne Hw Hp) as [(n & _ & E & ->)|[Hno _]].
  - apply signed_inj in E as <-. by apply podPrincipal_sandbox.
  - destruct (Hno pod); [by apply pod_is_name|done].
Qed.

(** C5: A bearer is one principal, and exactly these bearers are it. The
    publish token alone is the publisher. The control token of a pod alone, on
    a request that states a slot, is that pod's Agent; the fetch token of a pod
    alone is its Sandbox; a text that the key signed under any other name is
    nobody; and no text that the key signed reaches an authenticator of
    Callers. *)
Theorem principals_are_exact (o : @Options Key) bearer slot :
  headerText bearer → bearer ≠ [] → (∀ p, publishToken o = Some p → Utf8.well_formed p = true) →
  let answer := createAuthenticator sign sha256 o (Some bearer) slot in
  (answer = Some Publisher ↔ publishToken o = Some bearer)
  ∧ (publishToken o ≠ Some bearer →
     (∀ pod s, answer = Some (PAgent pod s) ↔ bearer = controlToken sign (signingKey o) pod ∧ isPodName pod = true ∧ slot = Some s ∧ s ≠ [])
     ∧ (∀ pod, answer = Some (PSandbox pod) ↔ bearer = sandboxToken sign (signingKey o) pod ∧ isPodName pod = true)
     ∧ (∀ c, answer = Some (PCaller c) ↔ (∀ n, n ≠ [] → bearer ≠ signed (signingKey o) n) ∧ callerOf (seam sha256 o) bearer = Some (PCaller c))
     ∧ (∀ n, n ≠ [] → bearer = signed (signingKey o) n → isPodName n = false → (∀ pod, isPodName pod = true → n ≠ CONTROL_PREFIX ++ pod) → answer = None)).
Proof.
  intros Hb Hne Hw answer. split.
  { unfold answer. rewrite authenticator_reads, publishes_spec by done. destruct (bool_decide _) eqn:E; [by apply bool_decide_eq_true in E|].
    apply bool_decide_eq_false in E. split; [|done]. intros H. exfalso.
    destruct (authenticator_cases o bearer slot Hb Hne Hw E) as [(n & _ & _ & Ha)|[_ Ha]];
      rewrite authenticator_reads, publishes_spec, bool_decide_eq_false_2 in Ha by done; rewrite Ha in H.
    - apply podPrincipal_kind in H. naive_solver.
    - apply callerOf_caller in H. naive_solver. }
  intros Hp. unfold answer. destruct (authenticator_cases o bearer slot Hb Hne Hw Hp) as [(n & Hn & E & ->)|[Hno ->]].
  - split_and!.
    + intros pod s. rewrite podPrincipal_agent. unfold controlToken. fold (signed (signingKey o) (CONTROL_PREFIX ++ pod)). rewrite E.
      split; [intros (-> & ?); done|]. intros (->%signed_inj & ?). done.
    + intros pod. rewrite podPrincipal_sandbox. unfold sandboxToken. fold (signed (signingKey o) pod). rewrite E.
      split; [intros (-> & ?); done|]. intros (->%signed_inj & ?). done.
    + intros c. split; [intros H%podPrincipal_kind; naive_solver|]. intros [H _]. by destruct (H n Hn).
    + intros m _ Em Hm1 Hm2. assert (n = m) as -> by (apply (signed_inj (signingKey o)); congruence).
      destruct (podPrincipal slot m) as [p|] eqn:Ep; [|done]. destruct (podPrincipal_kind _ _ _ Ep) as [(pod & s & ->)|[sb ->]].
      * apply podPrincipal_agent in Ep as (-> & Hpod & _). by destruct (Hm2 pod).
      * apply podPrincipal_sandbox in Ep as [-> ?]. congruence.
  - split_and!.
    + intros pod s. split; [intros [c H]%callerOf_caller; discriminate|]. intros (-> & _). by destruct (Hno (CONTROL_PREFIX ++ pod)).
    + intros pod. split; [intros [c H]%callerOf_caller; discriminate|]. intros [-> H%pod_is_name]. by destruct (Hno pod).
    + intros c. naive_solver.
    + intros n Hn E. by destruct (Hno n Hn).
Qed.

(** ** The seam *)

Lemma named_claims l bearer a :
  namedTokenAuthenticator sha256 l bearer = Some (Claimed a) →
  ∃ t, t ∈ l ∧ constantTimeEqual (sha256 bearer) (digest t) = true ∧ a = mkCaller token (n_name t) None (n_may t) None.
Proof.
  unfold namedTokenAuthenticator. destruct (negb _); [done|]. destruct (last _) as [t|] eqn:E; [|done]. intros [= <-].
  apply last_Some_elem_of, list_elem_of_filter in E as [H1 H2]. exists t. done.
Qed.

Lemma jwt_claims decodeJwt jwtVerify issuers bearer c :
  jwtAuthenticator decodeJwt jwtVerify issuers bearer = Some (Claimed c) → via c = jwt.
Proof.
  unfold jwtAuthenticator. destruct (negb _); [done|]. destruct (decodeJwt bearer); [|done]. destruct (head _) as [i|]; [|done].
  destruct (jwtVerify bearer i); [|done]. unfold jwtCaller. destruct (textClaim _ _); [|done]. by intros [= <-].
Qed.

(** The options of an Instance: its named tokens, and its issuers. *)
Definition instanceOptions decodeJwt jwtVerify issuers (o : @Options Key) : Prop :=
  callers o = [jwtAuthenticator decodeJwt jwtVerify issuers]
  ∧ ∀ l t, named o = Some l → t ∈ l → n_name t ≠ js "instance".

(** The Instance token is the operator, and nothing else is: no named
    token, no JWT, and no text that the signing key makes. *)
Theorem operator_is_the_instance_token decodeJwt jwtVerify issuers (o : @Options Key) bearer slot :
  headerText bearer → bearer ≠ [] → Utf8.well_formed (instanceToken o) = true →
  (∀ p, publishToken o = Some p → Utf8.well_formed p = true) → instanceOptions decodeJwt jwtVerify issuers o →
  (∃ p, createAuthenticator sign sha256 o (Some bearer) slot = Some p ∧ isInstancePrincipal p = true)
  ↔ bearer = instanceToken o ∧ publishToken o ≠ Some bearer ∧ ∀ n, n ≠ [] → bearer ≠ signed (signingKey o) n.
Proof.
  intros Hb Hne Hi Hw [Hc Hn]. split.
  - intros (p & Ha & Hp). destruct (decide (publishToken o = Some bearer)) as [E|E].
    { rewrite authenticator_reads, publishes_spec, bool_decide_eq_true_2 in Ha by done. by injection Ha as <-. }
    destruct (authenticator_cases o bearer slot Hb Hne Hw E) as [(n & _ & _ & H)|[Hno H]]; rewrite H in Ha.
    { destruct (podPrincipal_kind _ _ _ Ha) as [(? & ? & ->)|[? ->]]; done. }
    split; [|done]. revert Ha. unfold seam. rewrite Hc. simpl. unfold instanceTokenAuthenticator.
    rewrite constantTimeEqual_spec by (done || by apply headerText_well_formed).
    destruct (bool_decide (bearer = instanceToken o)) eqn:Eb; [by apply bool_decide_eq_true in Eb|].
    destruct (named o) as [l|] eqn:El; simpl; [destruct (namedTokenAuthenticator sha256 l bearer) as [[a|]|] eqn:Ea; [|done|]|].
    { intros [= <-]. apply named_claims in Ea as (t & Ht & _ & ->). simpl in Hp. unfold isInstanceCaller in Hp. simpl in Hp.
      apply bool_decide_eq_true in Hp. by destruct (Hn l t). }
    all: destruct (jwtAuthenticator _ _ _ _) as [[a|]|] eqn:Ej; try done; intros [= <-]; apply jwt_claims in Ej; simpl in Hp; unfold isInstanceCaller in Hp; by rewrite Ej in Hp.
  - intros (-> & Hp & Hno). exists (PCaller instanceCaller). split; [|done].
    destruct (authenticator_cases o _ slot Hb Hne Hw Hp) as [(n & Hn' & E & _)|[_ ->]]; [by destruct (Hno n Hn')|].
    unfold seam. simpl. unfold instanceTokenAuthenticator. by rewrite constantTimeEqual_spec, bool_decide_eq_true_2.
Qed.

End Exact.

(** ** What the digests are read from *)

(** The digests are those of the file's last whole content: a write seen
    half done and a failed read keep the digests that were read before it, the
    text that [loaded] names is the one that gave the digests, and a file that
    is gone leaves none. *)
Theorem digests_are_of_the_text reads f :
  let w := watchCallerDigests reads in
  let w' := watchCallerDigests (reads ++ [f]) in
  match text w with Some raw => digestsOf raw = Some (digests w) | None => digests w = [] end
  ∧ (w' = w ∨ (f = Absent ∧ digests w' = [] ∧ text w' = None) ∨ ∃ raw d, f = FileText raw ∧ digestsOf raw = Some d ∧ digests w' = d ∧ text w' = Some raw).
Proof.
  intros w w'. split.
  - unfold w, watchCallerDigests. clear. induction reads as [|r reads IH] using rev_ind; [done|].
    rewrite foldl_app. simpl. destruct r as [| |raw]; simpl; [done|done|]. destruct (digestsOf raw) eqn:E; [done|exact IH].
  - unfold w', w, watchCallerDigests. rewrite foldl_app. simpl. destruct f as [| |raw]; simpl; [eauto|eauto|].
    destruct (digestsOf raw) as [d|] eqn:E; [|by left]. right; right. exists raw, d. done.
Qed.

(** ** The key sets *)

Section Pace.
Context (cooldown : Z) (id : jstr).

(** Asks and settlements at times that do not go back, while the config names
    [id]; [log] holds the discoveries of [id] that were fetched, last first. *)
Inductive asked : KeySets → Z → list Z → Prop :=
| asked_start t : asked noKeySets t []
| asked_ask c t log t' current entry i c' fetched :
    asked c t log → t <= t' → entry ∈ current → id ∈ idOf <$> current →
    askKeys cooldown t' current entry c = (i, c', fetched) →
    asked c' t' (if fetched && bool_decide (idOf entry = id) then t' :: log else log)
| asked_settle c t log t' i ok : asked c t log → t <= t' → asked (settleSlot i ok t' c) t' log.

(** The last discovery's slot is the one the cache holds. *)
Definition paceInv (c : KeySets) (t : Z) (log : list Z) : Prop :=
  match log with
  | [] => True
  | t0 :: _ => t0 <= t ∧ ∃ i s, JsObject.objGet id (byId c) = Some i ∧ slots c !! i = Some s ∧ ∀ tf, failedAt s = Some tf → t0 <= tf
  end.

Fixpoint paced (log : list Z) : Prop :=
  match log with
  | t2 :: ((t1 :: _) as rest) => t1 + cooldown <= t2 ∧ paced rest
  | _ => True
  end.

Lemma prune_get current c : id ∈ idOf <$> current → JsObject.objGet id (byId (prune current c)) = JsObject.objGet id (byId c).
Proof.
  intros H. simpl. induction (byId c) as [|[k v] l IH]; [done|].
  destruct (decide (k = id)) as [->|Hne].
  - rewrite filter_cons_True by done. simpl. by rewrite bool_decide_eq_true_2.
  - destruct (decide (k ∈ idOf <$> current)); [rewrite filter_cons_True by done|rewrite filter_cons_False by done];
      simpl; rewrite !bool_decide_eq_false_2 by done; done.
Qed.

Lemma keySetOf_get entry t c i c' fetched :
  keySetOf cooldown t entry c = (i, c', fetched) →
  (c' = c ∧ fetched = false ∧ ∃ i, JsObject.objGet (idOf entry) (byId c) = Some i ∧ stillKept cooldown t (slots c !! i) = true)
  ∨ (slots c' = slots c ++ [SPending] ∧ byId c' = JsObject.objSet (idOf entry) (length (slots c)) (byId c)
     ∧ ∀ i, JsObject.objGet (idOf entry) (byId c) = Some i → stillKept cooldown t (slots c !! i) = false).
Proof.
  unfold keySetOf. destruct (JsObject.objGet _ _) as [j|]; [destruct (stillKept _ _ _) eqn:E|]; intros [= <- <- <-]; [left|right..]; simpl.
  - eauto.
  - split_and!; [done..|]. by intros i [= <-].
  - done.
Qed.

Lemma settle_slot i ok t c j s :
  slots c !! j = Some s → ∃ s', slots (settleSlot i ok t c) !! j = Some s' ∧ (s' = s ∨ ∀ tf, failedAt s' = Some tf → tf = t).
Proof.
  intros Hj. unfold settleSlot. destruct (slots c !! i) as [si|] eqn:Ei; [|eauto]. destruct si; [|eauto..]. simpl.
  destruct (decide (j = i)) as [->|Hne]; [|rewrite list_lookup_insert_ne by done; eauto].
  rewrite list_lookup_insert_eq by (by eapply lookup_lt_Some). eexists. split; [done|]. right. destruct ok; [done|]. by intros tf [= ->].
Qed.

Lemma asked_inv c t log : asked c t log → paceInv c t log ∧ paced log.
Proof.
  induction 1 as [t|c t log t' current entry i c' fetched _ [IH Hp] Ht _ Hid Hk|c t log t' i ok _ [IH Hp] Ht]; [done| |].
  - unfold askKeys in Hk. apply keySetOf_get in Hk as [(-> & -> & _)|(Es & Eb & Hold)].
    { split; [|done]. destruct log as [|t0 log]; [done|]. destruct IH as [H0 (j & s & Hj & Hs)]. split; [lia|].
      exists j, s. by rewrite prune_get. }
    destruct (decide (idOf entry = id)) as [He|He].
    + assert (∃ i s, JsObject.objGet id (byId c') = Some i ∧ slots c' !! i = Some s ∧ failedAt s = None) as (j' & s' & Hj' & Hs' & Hf').
      { exists (length (slots (prune current c))), SPending. rewrite Eb, Es, JsObject.objGet_objSet, decide_True by done.
        split_and!; [done| |done]. by rewrite lookup_app_r, Nat.sub_diag by lia. }
      assert (∀ t0 l, t0 <= t' → paceInv c' t' (t0 :: l)) as Hnew by (intros t0 l H0; split; [done|]; exists j', s'; naive_solver).
      destruct log as [|t0 log]; [by destruct (fetched && _); split; [apply Hnew; lia| | |]|]. destruct IH as [H0 (j & s & Hj & Hs & Hf)].
      destruct (fetched && _); [|split; [apply Hnew; lia|done]]. split; [apply Hnew; lia|]. split; [|done].
      rewrite He, prune_get in Hold by done. specialize (Hold j Hj). unfold stillKept in Hold. cbn [slots prune] in Hold. rewrite Hs in Hold. simpl in Hold.
      destruct (failedAt s) as [tf|]; [|done]. specialize (Hf tf eq_refl). lia.
    + rewrite (bool_decide_eq_false_2 (_ = _)), andb_false_r by done. split; [|done].
      destruct log as [|t0 log]; [done|]. destruct IH as [H0 (j & s & Hj & Hs & Hf)]. split; [lia|]. exists j, s.
      rewrite Eb, Es, JsObject.objGet_objSet, decide_False, prune_get by done. split_and!; [done| |done]. by apply lookup_app_l_Some.
  - split; [|done]. destruct log as [|t0 log]; [done|]. destruct IH as [H0 (j & s & Hj & Hs & Hf)]. split; [lia|].
    destruct (settle_slot i ok t' c j s Hs) as (s' & Hs' & Hc). exists j, s'. split_and!; [|done|].
    + rewrite <- Hj. unfold settleSlot. destruct (slots c !! i) as [[]|]; done.
    + intros tf Htf. destruct Hc as [->|Hc]; [auto|]. rewrite (Hc tf Htf). lia.
Qed.

Lemma objSet_keys_le {V} k (v : V) o ks : NoDup o.*1 → o.*1 ⊆ ks → k ∈ ks → NoDup (JsObject.objSet k v o).*1 ∧ (JsObject.objSet k v o).*1 ⊆ ks.
Proof.
  intros Hn Hs Hk. split; [by apply JsObject.objSet_NoDup|]. intros x [->|H]%JsObject.objSet_keys; [done|by apply Hs].
Qed.

Lemma prune_keys current c : NoDup (byId c).*1 → NoDup (byId (prune current c)).*1 ∧ (byId (prune current c)).*1 ⊆ idOf <$> current.
Proof.
  intros Hd. split; [|intros k (m & -> & [H _]%list_elem_of_filter)%list_elem_of_fmap; done].
  simpl. induction (byId c) as [|m l IH]; [constructor|]. apply NoDup_cons in Hd as [H1 H2].
  destruct (decide (m.1 ∈ idOf <$> current)); [rewrite filter_cons_True by done|rewrite filter_cons_False by done; auto].
  apply NoDup_cons. split; [|auto]. intros (x & E & [_ Hx]%list_elem_of_filter)%list_elem_of_fmap. apply H1. rewrite E. by apply list_elem_of_fmap_2.
Qed.

Lemma ask_keys t current entry c i c' fetched :
  NoDup (byId c).*1 → entry ∈ current → askKeys cooldown t current entry c = (i, c', fetched) →
  NoDup (byId c').*1 ∧ (byId c').*1 ⊆ idOf <$> current.
Proof.
  intros [Hn Hs]%(prune_keys current) He Hk. apply keySetOf_get in Hk as [(-> & _)|(_ & -> & _)]; [done|].
  apply objSet_keys_le; [done..|]. by apply list_elem_of_fmap_2.
Qed.

Lemma asked_keys c t log : asked c t log → NoDup (byId c).*1.
Proof.
  induction 1 as [t|c t log t' current entry i c' fetched _ IH _ He _ Hk|c t log t' i ok _ IH _]; [constructor| |].
  - by eapply ask_keys.
  - unfold settleSlot. by destruct (slots c !! i) as [[]|].
Qed.

(** JWTs cannot make the Orchestrator fetch at will: while the config names
    an issuer, two discoveries of it start at least the cooldown apart,
    however many JWTs name it and whatever the fetches answer; and after each
    JWT the cache has at most one key set for each entry of the config. *)
Theorem discovery_is_paced c t log t' current entry i c' fetched :
  asked c t log → entry ∈ current → askKeys cooldown t' current entry c = (i, c', fetched) →
  paced log ∧ NoDup (byId c').*1 ∧ (byId c').*1 ⊆ idOf <$> current ∧ (length (byId c') <= length current)%nat.
Proof.
  intros Ha He Hk. split; [by eapply asked_inv|].
  destruct (ask_keys _ _ _ _ _ _ _ (asked_keys _ _ _ Ha) He Hk) as [Hn Hs]. split_and!; [done..|].
  pose proof (submseteq_length _ _ (NoDup_submseteq _ _ Hn Hs)) as H. by rewrite !length_fmap in H.
Qed.
End Pace.

(** ** Witnesses *)

(** A signature of one letter. *)
Definition toySign (key : Z) (v : jstr) : jstr := [97 + foldl Z.add key v mod 26].

#[export] Instance toySign_hmac : Hmac toySign.
Proof.
  intros key v. unfold toySign. constructor; [|constructor]. pose proof (Z.mod_pos_bound (foldl Z.add key v) 26 ltac:(lia)).
  unfold alnum. lia.
Qed.

Definition toyDigest (v : jstr) : jstr := rev v.

Definition reviewer : Scopes := λ s, match s with answer => Some (Items [GGates (js "plan") [js "review"]]) | _ => None end.
Definition planner : Scopes := λ s, match s with answer | read => Some (Items [GName (js "plan"); GName (js "code")]) | _ => None end.

Lemma joined_scopes_are_union_witness :
  grantOpensGate (joinScopes [reviewer; planner] answer) (js "plan/weekly") (js "review") = true
  ∧ grantOpens (joinScopes [reviewer; planner] answer) (js "ship") = false.
Proof.
  assert (Forall (λ m : Scopes, plainGrant (m answer)) [reviewer; planner]) as H.
  { repeat constructor; try (by vm_compute); apply js_units. }
  split; (eapply eq_trans; [apply (joined_scopes_are_union [reviewer; planner] answer _ (js "review") H)|by vm_compute]).
Defined.

Definition toyOptions : @Options Z :=
  mkOptions (js "operator") 7 (Some (js "publish")) (Some [mkNamed (js "ci") (toyDigest (js "jr2c_ci")) reviewer])
    [jwtAuthenticator (λ _, None) (λ _ _, Throw []) []].

Definition toyToken : jstr := controlToken toySign 7 (js "pod-1").

Lemma headerText_check s : forallb (λ c, (0 <=? c) && (c <=? 255)) s = true → headerText s.
Proof. intros H. apply Forall_forall. intros c Hc. rewrite forallb_forall in H. specialize (H c (proj1 (list_elem_of_In _ _) Hc)). lia. Qed.

Lemma toyToken_header : headerText toyToken.
Proof. apply headerText_check. by vm_compute. Qed.

Lemma toy_publish p : publishToken toyOptions = Some p → Utf8.well_formed p = true.
Proof. intros [= <-]. by vm_compute. Qed.

Lemma principals_are_exact_witness :
  createAuthenticator toySign toyDigest toyOptions (Some toyToken) (Some (js "coder")) = Some (PAgent (js "pod-1") (js "coder")).
Proof.
  destruct (principals_are_exact toySign toyDigest toyOptions toyToken (Some (js "coder")) toyToken_header ltac:(done) toy_publish) as [_ H].
  apply H; [by vm_compute|]. split_and!; by vm_compute.
Defined.

Lemma operator_is_the_instance_token_witness :
  ∃ p, createAuthenticator toySign toyDigest toyOptions (Some (js "operator")) None = Some p ∧ isInstancePrincipal p = true.
Proof.
  apply (operator_is_the_instance_token toySign toyDigest (λ _, None) (λ _ _, Throw []) [] toyOptions (js "operator") None).
  - apply headerText_check. by vm_compute.
  - done.
  - by vm_compute.
  - apply toy_publish.
  - split; [done|]. intros l t [= <-] ->%list_elem_of_singleton. by vm_compute.
  - split_and!; [done|by vm_compute|]. intros n Hn E. apply (f_equal (λ s, bool_decide (DOTC ∈ s))) in E. revert E.
    rewrite (bool_decide_eq_true_2 (DOTC ∈ signed _ _ _)); [by vm_compute|]. unfold signed. rewrite !elem_of_app. right; left. by left.
Defined.

Definition dex : JwtIssuer := mkIssuer (js "https://dex") (js "jr2") None None None None [(js "ops", planner)].

Definition dexAt5 : KeySets := (askKeys 30 5 [dex] dex noKeySets).1.2.
Definition dexFailed : KeySets := settleSlot 0 false 6 dexAt5.
Definition dexAt40 : KeySets := (askKeys 30 40 [dex] dex dexFailed).1.2.

Lemma discovery_is_paced_witness : paced 30 [40; 5] ∧ (length (byId dexAt40) <= 1)%nat.
Proof.
  assert (asked 30 (idOf dex) dexAt5 5 [5]) as H1.
  { apply (asked_ask 30 (idOf dex) noKeySets 5 [] 5 [dex] dex 0 dexAt5 true); [constructor|lia|set_solver|set_solver|by vm_compute]. }
  assert (asked 30 (idOf dex) dexFailed 6 [5]) as H2 by (apply (asked_settle _ _ dexAt5 5); [done|lia]).
  assert (asked 30 (idOf dex) dexAt40 40 [40; 5]) as H3.
  { apply (asked_ask 30 (idOf dex) dexFailed 6 [5] 40 [dex] dex 1 dexAt40 true); [done|lia|set_solver|set_solver|by vm_compute]. }
  destruct (discovery_is_paced 30 (idOf dex) dexAt40 40 [40; 5] 41 [dex] dex 1 dexAt40 false H3) as (Hp & _ & _ & Hl);
    [set_solver|by vm_compute|]. split; [exact Hp|exact Hl].
Defined.

End TokensProofs.
