(* ===== verification/Http.v ===== *)
(** * The HTTP API (orchestrator/src/http.ts)

    The access bands, the route table, and the handlers of every route that is
    not open.  A handler is a [Prog]: a tree of what it asks of the host, the
    stores and the request's body, in its order.  What those answer, and what
    changes between two of them, is the world's ([exec]).  The bearer becomes a
    principal by [Tokens]. *)

From Stdlib Require Import Lia ZArith.
From stdpp Require Import base list strings sets.
From S2P Require Import Prelude JsString Json JsObject Utf8 RunList Edit Keep Kept Delivery Tokens Program.

Open Scope Z_scope.

Module Http.
Import Program Json RunList Tokens.

(** ** Requests and answers *)

Record Req := mkReq {
  authorization : option jstr;
  h_slot : option jstr;
  h_onBehalfOf : option jstr;
  h_dispatchedBy : option jstr;
  h_keyOnly : option jstr;
  h_kitVersion : option jstr;
  h_hash : option jstr;
  query : jstr → option jstr;
}.

(** A run's status: the members that a handler reads, and the whole object. *)
Record RunStatus := mkStatus { s_runId : jstr; s_workflow : jstr; s_status : jstr; s_object : JsObject.obj json }.

Inductive Feed :=
| FinalStatus (s : RunStatus)   (** the status, and [gone] where it is active *)
| LiveRun (runId : jstr)
| FollowConversation (instanceId : jstr) (after : Z).

Inductive Answer :=
| AJson (status : Z) (v : json)
| ANull (status : Z)
| AStream (f : Feed).

Abbreviation quoted := Delivery.quoted.
Definition EM : jstr := [32; 0x2014; 32].

Definition errorMember (text : jstr) : jstr * json := (js "error", JStr text).
Definition fault (status : Z) (text : jstr) : Answer := AJson status (JObj [errorMember text]).

(** [{ ...o, [k]: v }] *)
Definition with_ (k : string) (v : json) (o : JsObject.obj json) : JsObject.obj json := JsObject.objSet (js k) v o.

(** [...(v !== undefined ? { k: v } : {})] *)
Definition maybe (k : string) (v : option json) : list (jstr * json) :=
  match v with Some x => [(js k, x)] | None => [] end.

(** ** What a handler asks for *)

Record Surface := mkSurface { su_sandbox : option jstr; su_slot : option jstr; su_object : JsObject.obj json }.

Record StartOptions := mkStart { dispatchedBy : option json; startedBy : CallerRecord }.

Record Started := mkStarted { st_runId : jstr; st_instanceId : jstr; existing : bool }.

Record GateView := mkGate { g_gate : jstr; g_acceptsNow : list jstr; g_object : json }.

Record HeldNotice := mkHeld { hn_id : jstr; hn_steering : bool; hn_notice : json }.

Record KeptRow := mkKept { k_agent : jstr; k_instanceId : jstr; k_bytes : Z; k_cut : bool; k_swept : option jstr }.

Record ChartPut := mkPut { p_name : jstr; p_hash : jstr; p_unrunnable : option jstr; p_created : bool }.

Inductive Op :=
| ReadBody
| Read (runId : jstr)
| Status (runId : jstr)
| Stopping
| RestorePending
| Dispatched (workflow key : jstr)
| Unrunnable (name : jstr)
| IsStanding (name : jstr)
| ResumeStanding (name : jstr) (by_ : CallerRecord) (dropHeld : bool)
| Start (name : jstr) (input : json) (o : StartOptions)
| History (q : RunListQuery) (readable : Grant)
| SweptRuns (runIds : list jstr)
| Repos
| Candidates (prefix : jstr) (limit : Z)
| GateInbox (opens : jstr → jstr → bool) (workflow : option jstr)
| Gates (runId : jstr) (opens : option (jstr → bool))
| SendToGate (runId gate : jstr) (body : json) (by_ : CallerRecord) (opens : option (jstr → bool))
| Cancel (runId : jstr) (keep : bool) (by_ : CallerRecord)
| Agents (runId : jstr)
| Steer (runId agent text : jstr) (by_ : CallerRecord)
| ListKept (runId : jstr)
| Place (instanceId : jstr)
| AgentRun (instanceId : jstr)
| Conversation (runId instanceId : jstr)
| Entries (instanceId : jstr) (after limit : Z)
| AgentSurface (instanceId : jstr)
| SurfaceServed (instanceId : jstr)
| BoundaryNotices (instanceId : jstr)
| NoticesHeard (instanceId : jstr) (ids : list jstr)
| SendToAgent (instanceId : jstr) (body : json)
| Append (runId instanceId agent : jstr) (entries : list Keep.KeptEntry)
| ParkedDelivery (instanceId deliveryId : jstr)
| DeliveryScope (instanceId deliveryId : jstr)
| AwaitDelivery (instanceId deliveryId : jstr)
| FetchRepo (sandbox identity : jstr)
| Publish (kitVersion hash : option jstr)
| StandingView
| PutChart (wrapper name : jstr) (chart : json)
| RemoveChart (wrapper name : jstr)
| HookLog (name : jstr) (limit : Z).

Definition reply (o : Op) : Type :=
  match o with
  | ReadBody => jstr
  | Read _ | Status _ => option RunStatus
  | Stopping | RestorePending | IsStanding _ | ParkedDelivery _ _ | Conversation _ _ => bool
  | Dispatched _ _ => option (jstr * jstr)
  | Unrunnable _ => option jstr
  | ResumeStanding _ _ _ => JsObject.obj json
  | Start _ _ _ => Started
  | History _ _ => list (jstr * JsObject.obj json) * option jstr
  | SweptRuns _ => list jstr
  | Repos | GateInbox _ _ | Steer _ _ _ _ | Entries _ _ _ | SendToAgent _ _ | Append _ _ _ _ | FetchRepo _ _ | HookLog _ _ => json
  | Candidates _ _ => list jstr
  | Gates _ _ => list GateView
  | SendToGate _ _ _ _ _ | Cancel _ _ _ | SurfaceServed _ | RemoveChart _ _ => ()
  | Agents _ | AwaitDelivery _ _ => option json
  | ListKept _ => list KeptRow
  | Place _ => option Delivery.ConversationPlace
  | AgentRun _ => option jstr
  | AgentSurface _ => option Surface
  | BoundaryNotices _ => list HeldNotice
  | NoticesHeard _ _ => Z
  | DeliveryScope _ _ => option (option jstr * option jstr)
  | Publish _ _ => Z * JsObject.obj json
  | StandingView => list json
  | PutChart _ _ _ => ChartPut
  end.

(** What the host throws, by the class that a handler tells apart. *)
Inductive Thrown :=
| ChartRefusal (report : list jstr)
| EventValidationError (message : jstr) (allowed : option json)
| UnknownWorkflowError (message : jstr)
| UnknownAddressError (message : jstr)
| NotTakenError (message : jstr)
| GateRefused (gate : jstr)
| OutstandingError (message : jstr) (outstanding : option jstr)
| SteeringRefused (message : jstr) (status : Z) (agents : option json)
| StandingRefused (message : jstr)
| UnmountedRepoError (message : jstr)
| NamedChartError (status : Z) (body : json)
| OtherThrow (message : jstr).

Definition errMessage (e : Thrown) : jstr :=
  match e with
  | ChartRefusal report => js "Chart refused:" ++ [10] ++ join [10] ((λ line, js "- " ++ line) <$> report)
  | EventValidationError m _ | UnknownWorkflowError m | UnknownAddressError m | NotTakenError m | OutstandingError m _
  | SteeringRefused m _ _ | StandingRefused m | UnmountedRepoError m | OtherThrow m => m
  | GateRefused g => js "the " ++ quoted (js "answer") ++ js " scope does not open Gate " ++ quoted g
  | NamedChartError _ body => match prop (js "error") body with Some (JStr m) => m | _ => stringify body end
  end.

Abbreviation Prog := (Program.Prog reply Thrown).
Abbreviation Event := (Program.Event reply Thrown).
Abbreviation World := (Program.World reply Thrown).
Abbreviation ask := (Program.ask (reply := reply) (Thrown := Thrown)).

(** ** The access bands *)

(** [/^Bearer\s+(.+)$/i], trimmed: none where nothing is left. *)
Definition lower (c : Z) : Z := if (65 <=? c) && (c <=? 90) then c + 32 else c.
Definition lineEnd (c : Z) : bool := (c =? 10) || (c =? 13) || (c =? 0x2028) || (c =? 0x2029).

Definition bearerOf (q : Req) : option jstr :=
  let header := default [] (authorization q) in
  let rest := drop 6 header in
  if bool_decide (lower <$> take 6 header = js "bearer") && match rest with c :: _ => is_space c | [] => false end then
    let text := trim_start rest in
    if existsb lineEnd text then None else match trim text with [] => None | b => Some b end
  else None.

Definition scopeText (s : Scope) : jstr :=
  match s with start => js "start" | answer => js "answer" | cancel => js "cancel" | read => js "read" | steer => js "steer" end.

Definition PUBLISHER_ONLY : jstr := js "the publish token publishes an Assembly (PUT /assembly) and does nothing else".
Definition NOT_A_CALLER : jstr :=
  js "this route needs a Caller, and a Sandbox token is not one: no Agent reaches run state, run control or a Gate".
Definition ON_BEHALF_OF_MAX : Z := 256.

Definition callerLabel (c : Caller) : jstr := js "the Caller " ++ viaText (via c) ++ js "/" ++ name c.

Definition UNAUTHORIZED : Answer := fault 401 (js "unauthorized").

(** What a guarded route needs of its Caller. *)
Inductive Need := AnyCaller | OneOf (scopes : list Scope).

Inductive HttpBand := open_ | authenticated_ | guarded_ (need : Need) | instanceOnly_ | publishOnly_ | hook_.

(** ** The app *)

Definition STEERING_TEXT_MAX : Z := 16 * 1024.
Definition CONVERSATION_PAGE_DEFAULT : Z := 1000.
Definition CONVERSATION_PAGE_MAX : Z := 5000.
Definition HOOK_LOG_DEFAULT : Z := 50.
Definition HOOK_LOG_MAX : Z := 1000.
Definition MIN_RUN_ID_PREFIX : Z := 4.
Definition RESOLVE_SCAN : Z := 200.
Definition RESOLVE_LIMIT : Z := 10.
Definition CONVERSATION_SWEPT : jstr := js "conversation swept: no space".

(** What the app was built with. *)
Record AppOptions := mkApp { hasConversations : bool; hasCharts : bool; hasHooks : bool; hasAssembly : bool; hasFetch : bool; dataPlane : bool }.

Section App.
(** [auth]; none leaves the surface open, for tests. *)
Context (auth : option (option jstr → option jstr → option Principal)) (opts : AppOptions).
(** The words of V8 and of zod, [Number] of a text where it is an integer, and
    [parseRunListQuery] at the request's time. *)
Context (parseError : jstr → jstr) (zodIssues issue : json → jstr) (Number : jstr → option Z)
        (parseRunListQuery : (jstr → option jstr) → jstr + RunListQuery).

Definition principalFor (q : Req) : option (option Principal) := (λ a, a (bearerOf q) (h_slot q)) <$> auth.

Definition authenticated (q : Req) (next : Principal → Prog Answer) : Prog Answer :=
  match principalFor q with
  | None => next (PCaller instanceCaller)
  | Some None => Ret UNAUTHORIZED
  | Some (Some Publisher) => Ret (fault 403 PUBLISHER_ONLY)
  | Some (Some p) => next p
  end.

Definition onBehalfHeader (q : Req) : option jstr := trim <$> h_onBehalfOf q.

(** [onBehalfOf && caller.via !== "hook"] *)
Definition onBehalf (claim : option jstr) (c : Caller) : Caller :=
  match claim with
  | Some ((_ :: _) as x) =>
      if bool_decide (via c = hook) then c else mkCaller (via c) (name c) (shown c) (may c) (Some x)
  | _ => c
  end.

(** [if (refused) return refused] *)
Definition unless (refused : option Answer) (next : Prog Answer) : Prog Answer :=
  match refused with Some a => Ret a | None => next end.

Definition scopeMember (l : list Scope) : json :=
  match l with [s] => JStr (scopeText s) | _ => JArr (JStr ∘ scopeText <$> l) end.

Definition scopeRefusal (need : Need) (c : Caller) : option Answer :=
  match need with
  | AnyCaller => None
  | OneOf l =>
      if existsb (callerHasScope c) l then None
      else Some (AJson 403 (JObj [
        errorMember (callerLabel c ++ js " has no " ++ join (js " or ") (quoted ∘ scopeText <$> l) ++ js " scope for any Workflow (ADR-0078)");
        (js "scope", scopeMember l)]))
  end.

Definition guarded (need : Need) (q : Req) (next : Caller → Prog Answer) : Prog Answer :=
  if match onBehalfHeader q with Some x => ON_BEHALF_OF_MAX <? Keep.strlen x | None => false end then
    Ret (fault 400 (js "the jr2-on-behalf-of header is longer than 256 characters"))
  else
    let go c := let c := onBehalf (onBehalfHeader q) c in
                unless (scopeRefusal need c) (next c) in
    match principalFor q with
    | None => go instanceCaller
    | Some None => Ret UNAUTHORIZED
    | Some (Some Publisher) => Ret (fault 403 PUBLISHER_ONLY)
    | Some (Some (PCaller c)) => go c
    | Some (Some _) => Ret (fault 403 NOT_A_CALLER)
    end.

Definition instanceOnly (q : Req) (next : Prog Answer) : Prog Answer :=
  match principalFor q with
  | None => next
  | Some None => Ret UNAUTHORIZED
  | Some (Some Publisher) => Ret (fault 403 PUBLISHER_ONLY)
  | Some (Some (PCaller c)) =>
      if isInstancePrincipal (PCaller c) then next
      else Ret (fault 403 (js "this route needs the Instance token: no scope opens it, so " ++ callerLabel c ++ js " cannot"))
  | Some (Some _) => Ret (fault 403 NOT_A_CALLER)
  end.

Definition NEEDS_PUBLISH : jstr :=
  js "publishing an Assembly needs the publish token (JR2_PUBLISH_TOKEN in the instance Secret), which "
  ++ js "`jr2 up` reads through the kube API" ++ EM ++ js "the Instance token does not publish (ADR-0069)".

Definition publishOnly (q : Req) (next : Prog Answer) : Prog Answer :=
  match (λ a, a (bearerOf q) None) <$> auth with
  | None | Some (Some Publisher) => next
  | Some None => Ret UNAUTHORIZED
  | Some (Some _) => Ret (fault 403 NEEDS_PUBLISH)
  end.

(** [mayAnswer] and [mayFor]: the refusal, or none. *)
Definition mayAnswer (c : Caller) (workflow gate : jstr) : option Answer :=
  if callerMayAnswer c workflow gate then None
  else Some (AJson 403 (JObj [
    errorMember (callerLabel c ++ js " needs the " ++ quoted (js "answer") ++ js " scope for Gate " ++ quoted gate
                 ++ js " of Workflow " ++ quoted workflow ++ js " (ADR-0078)");
    (js "scope", JStr (js "answer")); (js "workflow", JStr workflow); (js "gate", JStr gate)])).

Definition mayFor (c : Caller) (s : Scope) (workflow : jstr) : option Answer :=
  if callerMay c s workflow then None
  else Some (AJson 403 (JObj [
    errorMember (callerLabel c ++ js " needs the " ++ quoted (scopeText s) ++ js " scope for Workflow " ++ quoted workflow ++ js " (ADR-0078)");
    (js "scope", JStr (scopeText s)); (js "workflow", JStr workflow)])).

(** [readJson(c.req.text())]: a body that cannot be read is [{}]. *)
Definition readBody : Prog json :=
  attempt (ask ReadBody) (λ r, match r with Ok raw => Ret (Delivery.readJson raw) | Throw _ => Ret (JObj []) end).

Definition recordJson (c : CallerRecord) : JsObject.obj json :=
  [(js "via", JStr (viaText (r_via c))); (js "name", JStr (r_name c))]
  ++ maybe "shown" (JStr <$> r_shown c) ++ maybe "onBehalfOf" (JStr <$> r_onBehalfOf c).

(** ** Callers and runs *)

Definition itemJson (i : GrantItem) : json :=
  match i with
  | GName n => JStr n
  | GGates w gates => JObj [(js "workflow", JStr w); (js "gates", JArr (JStr <$> gates))]
  end.

Definition grantJson (g : Grant) : json :=
  match g with All => JStr (js "all") | Items l => JArr (itemJson <$> l) end.

(** The members of [may] in the order of [SCOPES]. *)
Definition callerJson (c : Caller) : json :=
  JObj ([(js "via", JStr (viaText (via c))); (js "name", JStr (name c))] ++ maybe "shown" (JStr <$> shown c)
        ++ [(js "may", JObj (omap (λ s, pair (scopeText s) ∘ grantJson <$> may c s) SCOPES))]
        ++ maybe "onBehalfOf" (JStr <$> onBehalfOf c)).

Definition whoami (q : Req) : Prog Answer := guarded AnyCaller q (λ c, Ret (AJson 200 (callerJson c))).

(** [routingOf] *)
Definition routingOf (by_ : json) : json :=
  match by_ with
  | JObj l => JObj (filter (λ m, m.1 ≠ js "effect" ∧ m.1 ≠ js "key" ∧ m.1 ≠ js "hook") l)
  | _ => by_
  end.

Definition truthy (v : json) : bool :=
  match v with
  | JNull | JBool false => false
  | JNum n => negb (n =? 0)
  | JStr s => negb (bool_decide (s = []))
  | _ => true
  end.

Definition truthyMember (k : string) (o : JsObject.obj json) : option json :=
  match JsObject.objGet (js k) o with Some v => if truthy v then Some v else None | None => None end.

Definition slotAndRun (v : json) : json := JObj (maybe "slot" (prop (js "slot") v) ++ maybe "run" (prop (js "run") v)).

Definition observe (s : RunStatus) : JsObject.obj json :=
  let o := s_object s in
  [(js "runId", JStr (s_runId s)); (js "workflow", JStr (s_workflow s)); (js "status", JStr (s_status s))]
  ++ maybe "value" (JsObject.objGet (js "value") o) ++ maybe "children" (JsObject.objGet (js "children") o)
  ++ maybe "bound" ((λ _, JBool true) <$> truthyMember "bound" o)
  ++ maybe "chartHashes" (truthyMember "chartHashes" o)
  ++ maybe "dispatchedBy" (routingOf <$> truthyMember "dispatchedBy" o)
  ++ maybe "dispatched" ((λ v, match v with JArr l => JArr (slotAndRun <$> l) | _ => v end) <$> truthyMember "dispatched" o).

(** [`${v ?? ""}`] *)
Fixpoint toText (v : json) : jstr :=
  match v with
  | JNull => []
  | JBool true => js "true"
  | JBool false => js "false"
  | JNum n => of_Z n
  | JStr s => s
  | JArr l => join [44] (map toText l)
  | JObj _ => js "[object Object]"
  end.

(** ** Starting a run *)

Record DispatchedBy := mkBy { by_run : jstr; by_slot : jstr; by_effect : jstr; by_depth : Z; by_instance : jstr }.

Definition text1 (k : string) (v : json) : option jstr :=
  match prop (js k) v with Some (JStr ((_ :: _) as s)) => Some s | _ => None end.

(** [DispatchedByHeader.safeParse] *)
Definition dispatchedByHeader (v : json) : option DispatchedBy :=
  run ← text1 "run" v; slot ← text1 "slot" v; effect ← text1 "effect" v; instance ← text1 "instance" v;
  match prop (js "depth") v with
  | Some (JNum n) => if (0 <? n) && (n <=? Delivery.MAX_SAFE_INTEGER) then Some (mkBy run slot effect n instance) else None
  | _ => None
  end.

Definition dispatchedByOf (raw : option jstr) : jstr + option DispatchedBy :=
  match raw with
  | None => inr None
  | Some r =>
      match parse r with
      | None => inl (js "the jr2-dispatched-by header is not JSON: " ++ parseError r ++ js " (ADR-0071)")
      | Some v =>
          match dispatchedByHeader v with
          | None => inl (js "the jr2-dispatched-by header must be { run, slot, effect, depth, instance }: " ++ zodIssues v ++ js " (ADR-0071)")
          | Some b => inr (Some b)
          end
      end
  end.

Definition byJson (b : DispatchedBy) : json :=
  JObj [(js "run", JStr (by_run b)); (js "slot", JStr (by_slot b)); (js "effect", JStr (by_effect b));
        (js "depth", JNum (by_depth b)); (js "instance", JStr (by_instance b))].

(** [dispatchKeyOf] of a header, which has no key of its own *)
Definition dispatchKeyOf (b : DispatchedBy) : jstr := by_effect b.

Definition runJson (runId instanceId : jstr) (more : list (jstr * json)) : json :=
  JObj ([(js "runId", JStr runId); (js "instanceId", JStr instanceId)] ++ more).

Definition existingMember (b : bool) : jstr * json := (js "existing", JBool b).

(** The start of a run that no key has. *)
Definition startNew (c : Caller) (q : Req) (name : jstr) (by_ : option DispatchedBy) : Prog Answer :=
  unrunnable ← (if hasCharts opts then ask (Unrunnable name) else Ret None);
  match unrunnable with
  | Some why => Ret (fault 409 (js "named Chart " ++ quoted name ++ js " cannot run: " ++ why))
  | None =>
      standing ← ask (IsStanding name);
      if (standing : bool) then
        match by_ with
        | Some _ => Ret (fault 409 (quoted name ++ js " is a standing Workflow: jr2 starts its run, and a dispatch cannot (ADR-0017)"))
        | None =>
            attempt (ask (ResumeStanding name (callerRecord c) (bool_decide (query q (js "drop-held") = Some (js "true"))))) (λ r,
              match r with
              | Ok resumed => Ret (AJson 201 (JObj (with_ "resumed" (JBool true) resumed)))
              | Throw (StandingRefused _ as e) => Ret (fault 409 (errMessage e))
              | Throw e => Ret (fault 500 (errMessage e))
              end)
        end
      else
        input ← readBody;
        attempt (ask (Start name input (mkStart (byJson <$> by_) (callerRecord c)))) (λ r,
          match r with
          | Ok s => if existing s then Ret (AJson 200 (runJson (st_runId s) (st_instanceId s) [existingMember true]))
                    else Ret (AJson 201 (runJson (st_runId s) (st_instanceId s) []))
          | Throw (ChartRefusal report) => Ret (AJson 422 (JObj [errorMember (js "refused"); (js "report", JArr (JStr <$> report))]))
          | Throw (EventValidationError _ _ as e) => Ret (fault 400 (errMessage e))
          | Throw (UnknownWorkflowError _ as e) => Ret (fault 404 (errMessage e))
          | Throw e => Ret (fault 500 (errMessage e))
          end)
  end.

Definition startRun (c : Caller) (q : Req) (name : jstr) : Prog Answer :=
  unless (mayFor c start name)
    match dispatchedByOf (h_dispatchedBy q) with
    | inl why => Ret (fault 400 why)
    | inr by_ =>
        let keyOnly := h_keyOnly q in
        if bool_decide (is_Some keyOnly) && (negb (bool_decide (keyOnly = Some (js "true"))) || bool_decide (by_ = None)) then
          Ret (fault 400 (js "the jr2-key-only header is " ++ quoted (js "true") ++ js ", with a jr2-dispatched-by header that carries the key (ADR-0071)"))
        else
          match by_ with
          | None => startNew c q name None
          | Some b =>
              found ← ask (Dispatched name (dispatchKeyOf b));
              match found with
              | Some (runId, instanceId) => Ret (AJson 200 (runJson runId instanceId [existingMember true]))
              | None => if bool_decide (is_Some keyOnly) then Ret (AJson 200 (JObj [existingMember false])) else startNew c q name (Some b)
              end
          end
    end.

Definition startWorkflow (name : jstr) (q : Req) : Prog Answer := guarded (OneOf [start]) q (λ c, startRun c q name).

(** [chartName] *)
Definition chartName (wrapper name : jstr) : jstr := wrapper ++ [47] ++ name.

Definition startChart (wrapper name : jstr) (q : Req) : Prog Answer :=
  guarded (OneOf [start]) q (λ c, startRun c q (chartName wrapper name)).

(** ** Reading runs *)

Definition sweptMember : json := JStr CONVERSATION_SWEPT.

Definition sweptOf (runIds : list jstr) : Prog (list jstr) := if hasConversations opts then ask (SweptRuns runIds) else Ret [].

Definition listRuns (q : Req) : Prog Answer :=
  guarded (OneOf [read]) q (λ c,
    match parseRunListQuery (query q) with
    | inl why => Ret (fault 400 why)
    | inr lq =>
        page ← ask (History lq (default (Items []) (may c read)));
        swept ← sweptOf page.1.*1;
        Ret (AJson 200 (JObj ([(js "runs", JArr ((λ r, JObj (if bool_decide (r.1 ∈ swept) then with_ "swept" sweptMember r.2 else r.2)) <$> page.1))]
                              ++ maybe "next" (JStr <$> page.2))))
    end).

Definition listRepos (q : Req) : Prog Answer :=
  instanceOnly q
    (repos ← ask Repos;
     Ret (AJson 200 (JObj [(js "dataPlane", JBool (dataPlane opts)); (js "repos", repos)]))).

(** [filterAsync] over the candidates: the runs of a Workflow in any scope. *)
Fixpoint ownRuns (c : Caller) (ids : list jstr) : Prog (list jstr) :=
  match ids with
  | [] => Ret []
  | id :: ids' =>
      found ← ask (Read id);
      rest ← ownRuns c ids';
      Ret (match found with Some s => if callerMayAny c (s_workflow s) then id :: rest else rest | None => rest end)
  end.

Definition resolveRun (q : Req) : Prog Answer :=
  guarded AnyCaller q (λ c,
    let prefix := default [] (query q (js "prefix")) in
    if Keep.strlen prefix <? MIN_RUN_ID_PREFIX then Ret (fault 400 (js "prefix must be at least 4 characters"))
    else
      found ← (if existsb (λ s, match may c s with Some All => true | _ => false end) SCOPES
               then ask (Candidates prefix (RESOLVE_LIMIT + 1))
               else ids ← ask (Candidates prefix RESOLVE_SCAN); ownRuns c ids);
      Ret (AJson 200 (JObj [(js "prefix", JStr prefix); (js "runIds", JArr (JStr <$> take (Z.to_nat RESOLVE_LIMIT) found));
                            (js "truncated", JBool (RESOLVE_LIMIT <? Z.of_nat (length found)))]))).

Definition gateInbox (q : Req) : Prog Answer :=
  guarded (OneOf [answer]) q (λ c,
    gates ← ask (GateInbox (callerMayAnswer c) (match query q (js "workflow") with Some [] => None | w => w end));
    Ret (AJson 200 (JObj [(js "gates", gates)]))).

Definition noRun (runId : jstr) : Answer := fault 404 (js "no run " ++ quoted runId).

Definition getRun (runId : jstr) (q : Req) : Prog Answer :=
  guarded (OneOf [read; answer]) q (λ c,
    found ← ask (Read runId);
    match found with
    | None => Ret (noRun runId)
    | Some s =>
        swept ← sweptOf [runId];
        let o := if bool_decide (runId ∈ swept) then with_ "swept" sweptMember (s_object s) else s_object s in
        let mayRead := callerMay c read (s_workflow s) in
        let mayGates := callerMay c answer (s_workflow s) in
        unless (if negb mayRead && negb mayGates then mayFor c read (s_workflow s) else None)
          (if negb mayGates then Ret (AJson 200 (JObj o))
           else
             gates ← ask (Gates runId (Some (callerMayAnswer c (s_workflow s))));
             let member := JArr (g_object <$> gates) in
             Ret (AJson 200 (JObj (with_ "gates" member
               (if negb mayRead then observe (mkStatus (s_runId s) (s_workflow s) (s_status s) o) else o)))))
    end).

Definition runEvents (runId : jstr) (q : Req) : Prog Answer :=
  guarded (OneOf [read]) q (λ c,
    live ← ask (Status runId);
    match live with
    | Some s => unless (mayFor c read (s_workflow s)) (Ret (AStream (LiveRun runId)))
    | None =>
        final ← ask (Read runId);
        match final with
        | None => Ret (noRun runId)
        | Some s => unless (mayFor c read (s_workflow s)) (Ret (AStream (FinalStatus s)))
        end
    end).

(** ** Moving runs *)

Definition OK_TRUE : Answer := AJson 200 (JObj [(js "ok", JBool true)]).

Definition sendGate (runId gate : jstr) (q : Req) : Prog Answer :=
  guarded (OneOf [answer]) q (λ c,
    body ← readBody;
    live ← ask (Status runId);
    unless (live ≫= λ s, mayFor c answer (s_workflow s))
      (attempt (ask (SendToGate runId gate body (callerRecord c) ((λ s, callerMayAnswer c (s_workflow s)) <$> live))) (λ r,
         match r with
         | Ok _ => Ret OK_TRUE
         | Throw (GateRefused name as e) =>
             match live ≫= λ s, mayAnswer c (s_workflow s) name with Some a => Ret a | None => Raise e end
         | Throw (UnknownAddressError _ as e) => Ret (fault 404 (errMessage e))
         | Throw (EventValidationError _ _ as e) => Ret (fault 400 (errMessage e))
         | Throw (NotTakenError _ as e) =>
             gates ← ask (Gates runId None);
             let now := match head (filter (λ g, g_gate g = gate) gates) with Some g => g_acceptsNow g | None => [] end in
             Ret (AJson 409 (JObj [errorMember (errMessage e); (js "acceptsNow", JArr (JStr <$> now))]))
         | Throw e => Raise e
         end))).

Definition cancelRun (runId : jstr) (q : Req) : Prog Answer :=
  guarded (OneOf [cancel]) q (λ c,
    known ← ask (Read runId);
    unless (known ≫= λ s, mayFor c cancel (s_workflow s))
      (body ← readBody;
       match prop (js "type") body with
       | Some (JStr t) =>
           if bool_decide (t = js "CANCEL") then
             match prop (js "keep") body with
             | None | Some (JBool _) =>
                 let keep := match prop (js "keep") body with Some (JBool b) => b | _ => false end in
                 attempt (ask (Cancel runId keep (callerRecord c))) (λ r,
                   match r with Ok _ => Ret OK_TRUE | Throw e => Ret (fault 404 (errMessage e)) end)
             | Some _ => Ret (fault 400 (quoted (js "keep") ++ js " must be a boolean"))
             end
           else Ret (fault 400 (js "unknown event type " ++ quoted t ++ js " (accepts: CANCEL)"))
       | v => Ret (fault 400 (js "unknown event type " ++ quoted (default [] (toText <$> v)) ++ js " (accepts: CANCEL)"))
       end)).

Definition listAgents (runId : jstr) (q : Req) : Prog Answer :=
  guarded (OneOf [steer]) q (λ c,
    known ← ask (Read runId);
    match known with
    | None => Ret (noRun runId)
    | Some s => unless (mayFor c steer (s_workflow s)) (agents ← ask (Agents runId); Ret (AJson 200 (default (JArr []) agents)))
    end).

Definition steerRun (runId : jstr) (q : Req) : Prog Answer :=
  guarded (OneOf [steer]) q (λ c,
    known ← ask (Read runId);
    match known with
    | None => Ret (noRun runId)
    | Some s =>
        unless (mayFor c steer (s_workflow s))
          (body ← readBody;
           match text1 "agent" body with
           | None => Ret (fault 400 (js "a Steering message names an Agent slot: { agent, text } (see GET /runs/" ++ runId ++ js "/agents)"))
           | Some agent =>
               match prop (js "text") body with
               | Some (JStr text) =>
                   if bool_decide (trim text = []) then Ret (fault 400 (js "a Steering message has a text: { agent, text }"))
                   else if STEERING_TEXT_MAX <? utf8ByteLength text then
                     Ret (fault 413 (js "the text is longer than 16384 bytes (16 KiB)"))
                   else
                     attempt (ask (Steer runId agent text (callerRecord c))) (λ r,
                       match r with
                       | Ok v => Ret (AJson 202 v)
                       | Throw (SteeringRefused m status agents) => Ret (AJson status (JObj ([errorMember m] ++ maybe "agents" agents)))
                       | Throw e => Raise e
                       end)
               | _ => Ret (fault 400 (js "a Steering message has a text: { agent, text }"))
               end
           end)
    end).

(** ** The kept conversations *)

Definition conversationOpen (runId instanceId : jstr) : Prog bool :=
  stopping ← ask Stopping;
  if (stopping : bool) then Ret false else run ← ask (AgentRun instanceId); Ret (bool_decide (run = Some runId)).

Definition keepsNo (runId instanceId : jstr) : Answer :=
  fault 404 (js "run " ++ quoted runId ++ js " keeps no conversation " ++ quoted instanceId).

Definition conversationsRun (c : Caller) (runId : jstr) (instanceId : option jstr) : Prog (option Answer) :=
  match instanceId with
  | Some i =>
      if Edit.startsWith (runId ++ [47]) i then
        known ← ask (Read runId);
        Ret (match known with None => Some (noRun runId) | Some s => mayFor c read (s_workflow s) end)
      else Ret (Some (keepsNo runId i))
  | None =>
      known ← ask (Read runId);
      Ret (match known with None => Some (noRun runId) | Some s => mayFor c read (s_workflow s) end)
  end.

(** A list's programs, one after the other *)
Fixpoint each {A B} (f : A → Prog B) (l : list A) : Prog (list B) :=
  match l with
  | [] => Ret []
  | x :: l' => y ← f x; ys ← each f l'; Ret (y :: ys)
  end.

Definition keptJson (r : KeptRow) (slot : option jstr) (isOpen : bool) : json :=
  JObj ([(js "agent", JStr (k_agent r))] ++ maybe "slot" (JStr <$> slot)
        ++ [(js "instanceId", JStr (k_instanceId r)); (js "open", JBool isOpen); (js "bytes", JNum (k_bytes r)); (js "cut", JBool (k_cut r))]
        ++ maybe "swept" (JStr <$> k_swept r)).

Definition listConversations (runId : jstr) (q : Req) : Prog Answer :=
  guarded (OneOf [read]) q (λ c,
    refused ← conversationsRun c runId None;
    unless refused
      (kept ← (if hasConversations opts then ask (ListKept runId) else Ret []);
       slots ← each (λ r, place ← ask (Place (k_instanceId r)); Ret (place ≫= Delivery.p_slot)) kept;
       rows ← each (λ rs, isOpen ← conversationOpen runId (k_instanceId rs.1); Ret (keptJson rs.1 rs.2 isOpen)) (zip kept slots);
       Ret (AJson 200 (JArr rows)))).

(** The query's integer, or the default where it names none; none where it is
    no integer. *)
Definition queryInt (q : Req) (k : string) (d : Z) : option Z :=
  match query q (js k) with None => Some d | Some text => Number text end.

Definition entryQuery (q : Req) : jstr + (Z * Z) :=
  let said k := quoted (default (js "undefined") (query q (js k))) in
  let badAfter := inl (js "after is a sequence number (an integer of -1 or more), not " ++ said "after") in
  let badLimit := inl (js "limit is an integer from 1 to 5000, not " ++ said "limit") in
  match queryInt q "after" (-1), queryInt q "limit" CONVERSATION_PAGE_DEFAULT with
  | Some a, l =>
      if a <? -1 then badAfter
      else match l with
           | Some l => if (l <? 1) || (CONVERSATION_PAGE_MAX <? l) then badLimit else inr (a, l)
           | None => badLimit
           end
  | None, _ => badAfter
  end.

Definition getConversation (runId instanceId : jstr) (q : Req) : Prog Answer :=
  guarded (OneOf [read]) q (λ c,
    refused ← conversationsRun c runId (Some instanceId);
    unless refused
      match entryQuery q with
      | inl why => Ret (fault 400 why)
      | inr (after, limit) =>
          known ← (if hasConversations opts then ask (Conversation runId instanceId) else Ret false);
          if (known : bool) then entries ← ask (Entries instanceId after limit); Ret (AJson 200 entries)
          else Ret (keepsNo runId instanceId)
      end).

Definition followConversation (runId instanceId : jstr) (q : Req) : Prog Answer :=
  guarded (OneOf [read]) q (λ c,
    refused ← conversationsRun c runId (Some instanceId);
    unless refused
      match entryQuery q with
      | inl why => Ret (fault 400 why)
      | inr (after, _) =>
          if hasConversations opts then
            known ← ask (Conversation runId instanceId);
            isOpen ← (if (known : bool) then Ret true else conversationOpen runId instanceId);
            if (isOpen : bool) then Ret (AStream (FollowConversation instanceId after)) else Ret (keepsNo runId instanceId)
          else Ret (keepsNo runId instanceId)
      end).

(** ** The Agent's routes *)

Definition restorePendingMessage (what : jstr) : jstr :=
  js "the Orchestrator has not restored its runs yet (no current Assembly)" ++ EM ++ js "ask again for " ++ what.

Definition stoppingMessage (what : jstr) : jstr := js "the Orchestrator is stopping" ++ EM ++ js "ask again for " ++ what.

Definition cannotSpeak (instanceId : jstr) : Answer := fault 403 (js "this token cannot speak for instance " ++ quoted instanceId).

(** The surface, or the answer. *)
Definition agentRegistration (p : Principal) (instanceId : jstr) : Prog (Answer + Surface) :=
  stopping ← ask Stopping;
  if (stopping : bool) then Ret (inl (fault 503 (stoppingMessage (js "instance " ++ quoted instanceId))))
  else
    surface ← ask (AgentSurface instanceId);
    match surface with
    | None =>
        pending ← ask RestorePending;
        if (pending : bool) then Ret (inl (fault 503 (restorePendingMessage (js "instance " ++ quoted instanceId))))
        else Ret (inl (fault 404 (js "no live agent surface for instance " ++ quoted instanceId)))
    | Some s => Ret (if mayDeliverToAgent p (su_sandbox s) (su_slot s) then inr s else inl (cannotSpeak instanceId))
    end.

Definition noticeJson (h : HeldNotice) : json := JObj [(js "id", JStr (hn_id h)); (js "notice", hn_notice h)].
Definition steeringJson (h : HeldNotice) : json := JObj [(js "id", JStr (hn_id h)); (js "message", hn_notice h)].

Definition getSurface (instanceId : jstr) (q : Req) : Prog Answer :=
  authenticated q (λ p,
    reg ← agentRegistration p instanceId;
    match reg with
    | inl a => Ret a
    | inr s =>
        _ ← ask (SurfaceServed instanceId);
        held ← ask (BoundaryNotices instanceId);
        let steering := filter (λ h, hn_steering h = true) held in
        let o := with_ "notices" (JArr (noticeJson <$> filter (λ h, hn_steering h = false) held)) (su_object s) in
        Ret (AJson 200 (JObj (match steering with [] => o | _ => with_ "steering" (JArr (steeringJson <$> steering)) o end)))
    end).

Definition stringsOf (v : option json) : option (list jstr) :=
  match v with Some (JArr l) => mapM (λ x, match x with JStr s => Some s | _ => None end) l | _ => None end.

Definition postNotices (instanceId : jstr) (q : Req) : Prog Answer :=
  authenticated q (λ p,
    reg ← agentRegistration p instanceId;
    match reg with
    | inl a => Ret a
    | inr _ =>
        body ← readBody;
        match stringsOf (prop (js "heard") body) with
        | None => Ret (fault 400 (js "an acknowledgment names the notices heard: { heard: string[] }"))
        | Some heard => n ← ask (NoticesHeard instanceId heard); Ret (AJson 200 (JObj [(js "heard", JNum n)]))
        end
    end).

Definition postConversation (instanceId : jstr) (q : Req) : Prog Answer :=
  authenticated q (λ p,
    if negb (hasConversations opts) then Ret (fault 404 (js "this Orchestrator keeps no conversation"))
    else if bool_decide (is_Some auth) && match p with PAgent _ _ => false | _ => true end then
      Ret (fault 403 (js "only the Harness of the conversation's pod writes it: this token cannot (ADR-0023)"))
    else
      text ← ask ReadBody;
      if Delivery.CONVERSATION_BATCH_MAX <? utf8ByteLength text then
        Ret (fault 413 (js "a batch is at most " ++ of_int Delivery.CONVERSATION_BATCH_MAX ++ js " bytes: send fewer entries"))
      else
        match Delivery.conversationBatch (Delivery.readJson text) with
        | None => Ret (fault 400 (js "a batch is { entries: Array<{ id, seq, at, kind, text }> }: " ++ issue (Delivery.readJson text)))
        | Some entries =>
            found ← ask (Place instanceId);
            match found with
            | None => Ret (fault 404 (js "no run for instance " ++ quoted instanceId))
            | Some place =>
                match Delivery.p_agent place with
                | None =>
                    if Delivery.p_live place then
                      Ret (fault 409 (js "the run does not name instance " ++ quoted instanceId ++ js " yet" ++ EM ++ js "send again"))
                    else Ret (fault 404 (js "run " ++ quoted (Delivery.p_runId place) ++ js " has no conversation " ++ quoted instanceId))
                | Some agent =>
                    if match p with
                       | PAgent sb sl => negb (bool_decide (Delivery.p_sandbox place = Some sb) && bool_decide (Delivery.p_slot place = Some sl))
                       | _ => false
                       end
                    then Ret (fault 403 (js "this token cannot write the conversation of instance " ++ quoted instanceId))
                    else r ← ask (Append (Delivery.p_runId place) instanceId agent entries); Ret (AJson 200 r)
                end
            end
        end).

Definition postAgentEvent (instanceId : jstr) (q : Req) : Prog Answer :=
  authenticated q (λ p,
    reg ← agentRegistration p instanceId;
    match reg with
    | inl a => Ret a
    | inr _ =>
        body ← readBody;
        attempt (ask (SendToAgent instanceId body)) (λ r,
          match r with
          | Ok receipt => Ret (AJson 200 receipt)
          | Throw (UnknownAddressError _ as e) => Ret (fault 404 (errMessage e))
          | Throw (OutstandingError m out) =>
              Ret (AJson 409 (JObj ([errorMember m; (js "refused", JStr (js "outstanding"))]
                                    ++ maybe "outstanding" (JStr <$> out) ++ [(js "allowed", JArr [])])))
          | Throw (EventValidationError m allowed) => Ret (AJson 400 (JObj ([errorMember m] ++ maybe "allowed" allowed)))
          | Throw e => Raise e
          end)
    end).

Definition noDelivery (instanceId deliveryId : jstr) : Answer :=
  fault 404 (js "no delivery " ++ quoted deliveryId ++ js " for instance " ++ quoted instanceId).

Definition getDelivery (instanceId deliveryId : jstr) (q : Req) : Prog Answer :=
  authenticated q (λ p,
    let again := Ret (fault 503 (stoppingMessage (js "delivery " ++ quoted deliveryId))) in
    stopping ← ask Stopping;
    parked ← (if (stopping : bool) then Ret true else ask (ParkedDelivery instanceId deliveryId));
    if (parked : bool) then again
    else
      scope ← ask (DeliveryScope instanceId deliveryId);
      match scope with
      | None =>
          pending ← ask RestorePending;
          if (pending : bool) then Ret (fault 503 (restorePendingMessage (js "delivery " ++ quoted deliveryId)))
          else Ret (noDelivery instanceId deliveryId)
      | Some (sandbox, slot) =>
          if mayDeliverToAgent p sandbox slot then
            receipt ← ask (AwaitDelivery instanceId deliveryId);
            stopping' ← ask Stopping;
            if (stopping' : bool) then again
            else Ret (match receipt with Some v => AJson 200 v | None => noDelivery instanceId deliveryId end)
          else Ret (cannotSpeak instanceId)
      end).

Definition fetchRepo (sandbox : jstr) (q : Req) : Prog Answer :=
  authenticated q (λ p,
    if negb (mayAskForSandbox p sandbox) then Ret (fault 403 (js "this token cannot ask for Sandbox " ++ quoted sandbox))
    else if negb (hasFetch opts) then Ret (fault 404 (js "this instance runs no Workspace, so it holds no Repo cache to ask"))
    else
      body ← readBody;
      match text1 "identity" body with
      | None => Ret (fault 400 (js "a fetch names the Repo's identity: { identity }"))
      | Some identity =>
          attempt (ask (FetchRepo sandbox identity)) (λ r,
            match r with
            | Ok v => Ret (AJson 200 v)
            | Throw (UnmountedRepoError _ as e) => Ret (fault 404 (errMessage e))
            | Throw e => Raise e
            end)
      end).

(** ** The operator's routes *)

Definition putAssembly (q : Req) : Prog Answer :=
  publishOnly q
    (if negb (hasAssembly opts) then Ret (fault 404 (js "this instance has no publish door"))
     else
       r ← ask (Publish (h_kitVersion q) (h_hash q));
       if r.1 =? 200 then
         standing ← ask StandingView;
         Ret (match standing with [] => AJson 200 (JObj r.2) | l => AJson 200 (JObj (with_ "standing" (JArr l) r.2)) end)
       else Ret (AJson r.1 (JObj r.2))).

Definition chartError (e : Thrown) : Prog Answer :=
  match e with NamedChartError status body => Ret (AJson status body) | _ => Raise e end.

Definition noCharts : Answer := fault 404 (js "this instance keeps no named Charts").

Definition putChart (wrapper name : jstr) (q : Req) : Prog Answer :=
  instanceOnly q
    (if negb (hasCharts opts) then Ret noCharts
     else
       attempt (ask ReadBody) (λ body,
         match match body with Ok raw => match parse raw with Some v => inr v | None => inl (parseError raw) end | Throw e => inl (errMessage e) end with
         | inl why => Ret (AJson 422 (JObj [errorMember (js "refused"); (js "report", JArr [JStr (js "(chart): the body is not JSON: " ++ why)])]))
         | inr chart =>
             attempt (ask (PutChart wrapper name chart)) (λ r,
               match r with
               | Ok put =>
                   Ret (AJson (if p_created put then 201 else 200)
                     (JObj ([(js "name", JStr (p_name put)); (js "origin", JStr (js "runtime")); (js "hash", JStr (p_hash put))]
                            ++ maybe "unrunnable" (JStr <$> p_unrunnable put))))
               | Throw e => chartError e
               end)
         end)).

Definition deleteChart (wrapper name : jstr) (q : Req) : Prog Answer :=
  instanceOnly q
    (if negb (hasCharts opts) then Ret noCharts
     else attempt (ask (RemoveChart wrapper name)) (λ r, match r with Ok _ => Ret (ANull 204) | Throw e => chartError e end)).

Definition hookLog (hookName : jstr) (q : Req) : Prog Answer :=
  instanceOnly q
    (match queryInt q "limit" HOOK_LOG_DEFAULT with
     | Some n =>
         if (n <? 1) || (HOOK_LOG_MAX <? n) then Ret (fault 400 (js "limit is a whole number from 1 to 1000"))
         else if hasHooks opts then v ← ask (HookLog hookName n); Ret (AJson 200 v)
         else Ret (AJson 200 (JObj [(js "hook", JStr hookName); (js "declared", JBool false); (js "lines", JArr [])]))
     | None => Ret (fault 400 (js "limit is a whole number from 1 to 1000"))
     end).

(** ** The routes *)

(** The routes that a credential opens, with their parameters. *)
Inductive Route :=
| RWhoami
| RHookLog (name : jstr)
| RPutAssembly
| RPutChart (wrapper name : jstr)
| RDeleteChart (wrapper name : jstr)
| RStartChart (wrapper name : jstr)
| RStart (name : jstr)
| RRuns
| RRepos
| RResolve
| RGates
| RRun (runId : jstr)
| RSendGate (runId gate : jstr)
| RRunEvents (runId : jstr)
| RConversations (runId : jstr)
| RConversation (runId instanceId : jstr)
| RFollow (runId instanceId : jstr)
| RCancel (runId : jstr)
| RAgents (runId : jstr)
| RSteer (runId : jstr)
| RSurface (instanceId : jstr)
| RAgentEvent (instanceId : jstr)
| RDelivery (instanceId deliveryId : jstr)
| RNotices (instanceId : jstr)
| RKeep (instanceId : jstr)
| RFetch (sandbox : jstr).

Definition handle (r : Route) (q : Req) : Prog Answer :=
  match r with
  | RWhoami => whoami q
  | RHookLog n => hookLog n q
  | RPutAssembly => putAssembly q
  | RPutChart w n => putChart w n q
  | RDeleteChart w n => deleteChart w n q
  | RStartChart w n => startChart w n q
  | RStart n => startWorkflow n q
  | RRuns => listRuns q
  | RRepos => listRepos q
  | RResolve => resolveRun q
  | RGates => gateInbox q
  | RRun r => getRun r q
  | RSendGate r g => sendGate r g q
  | RRunEvents r => runEvents r q
  | RConversations r => listConversations r q
  | RConversation r i => getConversation r i q
  | RFollow r i => followConversation r i q
  | RCancel r => cancelRun r q
  | RAgents r => listAgents r q
  | RSteer r => steerRun r q
  | RSurface i => getSurface i q
  | RAgentEvent i => postAgentEvent i q
  | RDelivery i d => getDelivery i d q
  | RNotices i => postNotices i q
  | RKeep i => postConversation i q
  | RFetch s => fetchRepo s q
  end.

End App.

(** ** The route table *)

Inductive Method := GET | POST | PUT | DELETE.

(** The columns that a caller goes by; the others are the reference page's. *)
Record HttpRoute := mkRoute { method : Method; path : jstr; band : HttpBand }.

Definition one (s : Scope) : HttpBand := guarded_ (OneOf [s]).

Definition HTTP_ROUTES : list HttpRoute := [
  mkRoute GET (js "/healthz") open_;
  mkRoute GET (js "/readyz") open_;
  mkRoute GET (js "/whoami") (guarded_ AnyCaller);
  mkRoute POST (js "/hooks/:name") hook_;
  mkRoute GET (js "/hooks/:name") instanceOnly_;
  mkRoute GET (js "/workflows") open_;
  mkRoute GET (js "/assembly") open_;
  mkRoute PUT (js "/assembly") publishOnly_;
  mkRoute GET (js "/workflows/:wrapper/chart-schema") open_;
  mkRoute PUT (js "/workflows/:wrapper/charts/:name") instanceOnly_;
  mkRoute DELETE (js "/workflows/:wrapper/charts/:name") instanceOnly_;
  mkRoute POST (js "/workflows/:wrapper/charts/:name/runs") (one start);
  mkRoute GET (js "/workflows/:name/runs/:runId/machine") open_;
  mkRoute GET (js "/") open_;
  mkRoute GET (js "/console/config") open_;
  mkRoute GET (js "/workflows/:name") open_;
  mkRoute POST (js "/workflows/:name/runs") (one start);
  mkRoute GET (js "/workflows/:name/machine") open_;
  mkRoute GET (js "/workflows/:name/runs") open_;
  mkRoute GET (js "/workflows/:name/events") open_;
  mkRoute GET (js "/workflows/:name/runs/:runId/events") open_;
  mkRoute GET (js "/assets/style.css") open_;
  mkRoute GET (js "/assets/elk.js") open_;
  mkRoute GET (js "/assets/:file{[\w.-]+\.ts}") open_;
  mkRoute GET (js "/assets/components/:file{[\w.-]+\.ts}") open_;
  mkRoute GET (js "/assets/vendor/:file") open_;
  mkRoute GET (js "/runs") (one read);
  mkRoute GET (js "/repos") instanceOnly_;
  mkRoute GET (js "/runs/resolve") (guarded_ AnyCaller);
  mkRoute GET (js "/gates") (one answer);
  mkRoute GET (js "/runs/:runId") (guarded_ (OneOf [read; answer]));
  mkRoute POST (js "/runs/:runId/gates/:gate/events") (one answer);
  mkRoute GET (js "/runs/:runId/events") (one read);
  mkRoute GET (js "/runs/:runId/conversations") (one read);
  mkRoute GET (js "/runs/:runId/conversations/:instanceId") (one read);
  mkRoute GET (js "/runs/:runId/conversations/:instanceId/events") (one read);
  mkRoute POST (js "/runs/:runId/events") (one cancel);
  mkRoute GET (js "/runs/:runId/agents") (one steer);
  mkRoute POST (js "/runs/:runId/steering") (one steer);
  mkRoute GET (js "/agents/:instanceId/surface") authenticated_;
  mkRoute POST (js "/agents/:instanceId/events") authenticated_;
  mkRoute GET (js "/agents/:instanceId/deliveries/:deliveryId") authenticated_;
  mkRoute POST (js "/agents/:instanceId/notices") authenticated_;
  mkRoute POST (js "/agents/:instanceId/conversation") authenticated_;
  mkRoute POST (js "/sandboxes/:name/fetch") authenticated_
].

(** The method and the path that a handler is registered with. *)
Definition addressOf (r : Route) : Method * jstr :=
  match r with
  | RWhoami => (GET, js "/whoami")
  | RHookLog _ => (GET, js "/hooks/:name")
  | RPutAssembly => (PUT, js "/assembly")
  | RPutChart _ _ => (PUT, js "/workflows/:wrapper/charts/:name")
  | RDeleteChart _ _ => (DELETE, js "/workflows/:wrapper/charts/:name")
  | RStartChart _ _ => (POST, js "/workflows/:wrapper/charts/:name/runs")
  | RStart _ => (POST, js "/workflows/:name/runs")
  | RRuns => (GET, js "/runs")
  | RRepos => (GET, js "/repos")
  | RResolve => (GET, js "/runs/resolve")
  | RGates => (GET, js "/gates")
  | RRun _ => (GET, js "/runs/:runId")
  | RSendGate _ _ => (POST, js "/runs/:runId/gates/:gate/events")
  | RRunEvents _ => (GET, js "/runs/:runId/events")
  | RConversations _ => (GET, js "/runs/:runId/conversations")
  | RConversation _ _ => (GET, js "/runs/:runId/conversations/:instanceId")
  | RFollow _ _ => (GET, js "/runs/:runId/conversations/:instanceId/events")
  | RCancel _ => (POST, js "/runs/:runId/events")
  | RAgents _ => (GET, js "/runs/:runId/agents")
  | RSteer _ => (POST, js "/runs/:runId/steering")
  | RSurface _ => (GET, js "/agents/:instanceId/surface")
  | RAgentEvent _ => (POST, js "/agents/:instanceId/events")
  | RDelivery _ _ => (GET, js "/agents/:instanceId/deliveries/:deliveryId")
  | RNotices _ => (POST, js "/agents/:instanceId/notices")
  | RKeep _ => (POST, js "/agents/:instanceId/conversation")
  | RFetch _ => (POST, js "/sandboxes/:name/fetch")
  end.

#[export] Instance Method_eq_dec : EqDecision Method.
Proof. solve_decision. Defined.

(** The table's row for a handler. *)
Definition rowOf (r : Route) : option HttpRoute := head (filter (λ x, (method x, path x) = addressOf r) HTTP_ROUTES).

End Http.
