(* ===== verification/HttpProofs.v ===== *)
(** * Who reaches what over HTTP: proofs about [Http]

    A request's principal decides what its handler may ask of the host: every
    operation that moves a run, delivers to an Agent, writes a conversation,
    fetches a Repo or publishes is asked for by a principal that may, on what
    the handler read before it. *)

From Stdlib Require Import Lia ZArith.
From stdpp Require Import base list strings sets.
From S2P Require Import Prelude JsString Json JsObject Utf8 RunList Edit EditProofs Keep Kept Delivery Tokens TokensProofs Program Http.

Open Scope Z_scope.

Module HttpProofs.
Import Program Json RunList Tokens TokensProofs Http.

Section Access.
Context (authenticator : option jstr → option jstr → option Principal) (opts : AppOptions).
Context (parseError : jstr → jstr) (zodIssues issue : json → jstr) (Number : jstr → option Z)
        (parseRunListQuery : (jstr → option jstr) → jstr + RunListQuery).

Abbreviation auth := (Some authenticator).
Abbreviation handler := (handle auth opts parseError zodIssues issue Number parseRunListQuery).

(** The principal of a request: [PUT /assembly] states no slot. *)
Definition principalOf (r : Route) (q : Req) : option Principal :=
  authenticator (bearerOf q) (match r with RPutAssembly => None | _ => h_slot q end).

(** ** What each operation needs *)

Section Allowed.
Context (q : Req) (p : option Principal).

(** The principal is a Caller, which acts for whom the request says. *)
Definition asCaller (f : Caller → Prop) : Prop := ∃ c, p = Some (PCaller c) ∧ f (onBehalf (onBehalfHeader q) c).

Definition readIn (tr : list Event) (c : Caller) (s : Scope) (runId : jstr) : Prop :=
  ∃ st, seen tr (Read runId) (Some st) ∧ callerMay c s (s_workflow st) = true.

Definition spokenFor (tr : list Event) (instanceId : jstr) : Prop :=
  ∃ pr s, p = Some pr ∧ seen tr (AgentSurface instanceId) (Some s) ∧ mayDeliverToAgent pr (su_sandbox s) (su_slot s) = true.

Definition allowed (tr : list Event) (o : Op) : Prop :=
  match o with
  | ReadBody | Stopping | RestorePending | Place _ | AgentSurface _ | ParkedDelivery _ _ | DeliveryScope _ _ => is_Some p
  | Read _ | Status _ | AgentRun _ | Candidates _ _ | SweptRuns _ => asCaller (λ _, True)
  | Dispatched w _ | Unrunnable w | IsStanding w => asCaller (λ c, callerMay c start w = true)
  | ResumeStanding w by_ _ => asCaller (λ c, callerMay c start w = true ∧ by_ = callerRecord c)
  | Start w _ so => asCaller (λ c, callerMay c start w = true ∧ startedBy so = callerRecord c)
  | History _ g => asCaller (λ c, g = default (Items []) (may c read))
  | GateInbox opens _ => asCaller (λ c, opens = callerMayAnswer c)
  | Gates runId (Some opens) =>
      asCaller (λ c, ∃ st, seen tr (Read runId) (Some st) ∧ callerMay c answer (s_workflow st) = true ∧ opens = callerMayAnswer c (s_workflow st))
  | Gates runId None =>
      asCaller (λ _, ∃ gate body by_ opens m, last tr = Some (mkEvent (SendToGate runId gate body by_ opens) (Throw (NotTakenError m))))
  | SendToGate runId _ _ by_ opens =>
      asCaller (λ c, by_ = callerRecord c ∧ ∃ live, last tr = Some (mkEvent (Status runId) (Ok live))
        ∧ opens = ((λ st, callerMayAnswer c (s_workflow st)) <$> live) ∧ ∀ st, live = Some st → callerMay c answer (s_workflow st) = true)
  | Cancel runId _ by_ =>
      asCaller (λ c, by_ = callerRecord c ∧ ∃ known, seen tr (Read runId) known ∧ ∀ st, known = Some st → callerMay c cancel (s_workflow st) = true)
  | Agents runId => asCaller (λ c, readIn tr c steer runId)
  | Steer runId _ _ by_ => asCaller (λ c, by_ = callerRecord c ∧ readIn tr c steer runId)
  | ListKept runId => asCaller (λ c, readIn tr c read runId)
  | Conversation runId i => asCaller (λ c, readIn tr c read runId ∧ Edit.startsWith (runId ++ [47]) i = true)
  | Entries i _ _ => asCaller (λ c, ∃ runId, readIn tr c read runId ∧ Edit.startsWith (runId ++ [47]) i = true)
  | SurfaceServed i | BoundaryNotices i | NoticesHeard i _ | SendToAgent i _ => spokenFor tr i
  | Append runId i agent _ =>
      ∃ sb sl place, p = Some (PAgent sb sl) ∧ seen tr (Place i) (Some place)
        ∧ Delivery.p_sandbox place = Some sb ∧ Delivery.p_slot place = Some sl
        ∧ Delivery.p_agent place = Some agent ∧ Delivery.p_runId place = runId
  | AwaitDelivery i d =>
      ∃ pr sb sl, p = Some pr ∧ seen tr (DeliveryScope i d) (Some (sb, sl)) ∧ mayDeliverToAgent pr sb sl = true
  | FetchRepo sb _ => ∃ pr, p = Some pr ∧ mayAskForSandbox pr sb = true
  | Publish _ _ | StandingView => p = Some Publisher
  | Repos | PutChart _ _ _ | RemoveChart _ _ | HookLog _ _ => ∃ pr, p = Some pr ∧ isInstancePrincipal pr = true
  end.
End Allowed.

(** ** The bands *)

Lemma wp_guarded P need q next :
  (∀ c, authenticator (bearerOf q) (h_slot q) = Some (PCaller c) → wp P (next (onBehalf (onBehalfHeader q) c)) [] anyEnd) →
  wp P (guarded auth need q next) [] anyEnd.
Proof.
  intros H. unfold guarded. destruct (match onBehalfHeader q with Some _ => _ | None => _ end); [exact I|]. simpl.
  destruct (authenticator _ _) as [[c| | |]|] eqn:E; try exact I.
  destruct (scopeRefusal _ _); [exact I|]. by apply H.
Qed.

Lemma wp_authenticated P q next :
  (∀ pr, authenticator (bearerOf q) (h_slot q) = Some pr → wp P (next pr) [] anyEnd) → wp P (authenticated auth q next) [] anyEnd.
Proof. intros H. unfold authenticated. simpl. destruct (authenticator _ _) as [[]|] eqn:E; try exact I; by apply H. Qed.

Lemma wp_instanceOnly P q next :
  (∀ pr, authenticator (bearerOf q) (h_slot q) = Some pr → isInstancePrincipal pr = true → wp P next [] anyEnd) →
  wp P (instanceOnly auth q next) [] anyEnd.
Proof.
  intros H. unfold instanceOnly. simpl. destruct (authenticator _ _) as [[]|] eqn:E; try exact I.
  simpl. destruct (isInstanceCaller c) eqn:Ec; [|exact I]. by eapply H.
Qed.

Lemma wp_publishOnly P q next :
  (authenticator (bearerOf q) None = Some Publisher → wp P next [] anyEnd) → wp P (publishOnly auth q next) [] anyEnd.
Proof. intros H. unfold publishOnly. simpl. destruct (authenticator _ _) as [[]|] eqn:E; try exact I. by apply H. Qed.

Lemma mayFor_none c s w : mayFor c s w = None → callerMay c s w = true.
Proof. unfold mayFor. by destruct (callerMay c s w). Qed.

(** *** Automation *)

(** A step, through the body's reading and a refusal. *)
Ltac wp_step :=
  lazymatch goal with
  | |- wp _ readBody _ _ => unfold readBody
  | |- wp _ (unless ?r _) _ _ => let E := fresh "Erefused" in destruct r eqn:E; cbn [unless]
  | _ => Program.wp_step
  end.

Ltac allow :=
  cbn [allowed];
  match goal with
  | |- is_Some _ => eexists; eassumption
  | |- asCaller _ _ _ => eexists; split; [eassumption|]; try done
  | |- _ => idtac
  end.

Lemma startNew_allowed q c name by_ tr :
  authenticator (bearerOf q) (h_slot q) = Some (PCaller c) → callerMay (onBehalf (onBehalfHeader q) c) start name = true →
  wp (allowed q (authenticator (bearerOf q) (h_slot q))) (startNew opts (onBehalf (onBehalfHeader q) c) q name by_) tr anyEnd.
Proof.
  intros Hc Hm. unfold startNew. repeat wp_step; allow.
Qed.

Abbreviation scoped q prog := (wp (allowed q (authenticator (bearerOf q) (h_slot q))) prog [] anyEnd).

Ltac by_band :=
  lazymatch goal with
  | |- wp _ (guarded _ _ _ _) _ _ => apply wp_guarded; intros c Hc
  | |- wp _ (authenticated _ _ _) _ _ => apply wp_authenticated; intros pr Hpr
  | |- wp _ (instanceOnly _ _ _) _ _ => apply wp_instanceOnly; intros pr Hpr Hinst
  end.

Lemma startRun_scoped q name c :
  authenticator (bearerOf q) (h_slot q) = Some (PCaller c) →
  scoped q (startRun opts parseError zodIssues (onBehalf (onBehalfHeader q) c) q name).
Proof.
  intros Hc. unfold startRun. wp_step; [wp_step; exact I|]. apply mayFor_none in Erefused.
  repeat first [by apply startNew_allowed|wp_step]; allow.
Qed.

Lemma listRuns_scoped q : scoped q (listRuns auth opts parseRunListQuery q).
Proof. unfold listRuns. by_band. unfold sweptOf. repeat wp_step; allow. Qed.

Lemma ownRuns_scoped q c ids tr Q :
  authenticator (bearerOf q) (h_slot q) = Some (PCaller c) → (∀ r tr', Q r tr') →
  wp (allowed q (authenticator (bearerOf q) (h_slot q))) (ownRuns (onBehalf (onBehalfHeader q) c) ids) tr Q.
Proof.
  intros Hc HQ. revert tr Q HQ. induction ids as [|id ids IH]; intros tr Q HQ; cbn [ownRuns]; [apply HQ|].
  repeat wp_step; [by allow| |apply HQ]. apply IH. intros [] ?; [|apply HQ]. wp_step. apply HQ.
Qed.

Lemma resolveRun_scoped q : scoped q (resolveRun auth q).
Proof.
  unfold resolveRun. by_band. repeat wp_step; try allow. apply ownRuns_scoped; [done|]. intros [] ?; repeat wp_step.
Qed.

Lemma getRun_scoped q runId : scoped q (getRun auth opts runId q).
Proof.
  unfold getRun. by_band. unfold sweptOf. repeat wp_step; allow.
  all: eexists; split_and!; [seen_tac|by apply negb_false_iff|done].
Qed.

Lemma runEvents_scoped q runId : scoped q (runEvents auth runId q).
Proof. unfold runEvents. by_band. repeat wp_step; allow. Qed.

Lemma sendGate_scoped q runId gate : scoped q (sendGate auth runId gate q).
Proof.
  unfold sendGate. by_band. repeat wp_step; allow.
  all: first [split; [done|]; eexists; rewrite last_snoc; split_and!; [done|done|intros st ->; by apply mayFor_none]
             |do 5 eexists; by rewrite last_snoc].
Qed.

Lemma cancelRun_scoped q runId : scoped q (cancelRun auth runId q).
Proof.
  unfold cancelRun. by_band. repeat wp_step; allow.
  all: split; [done|]; eexists; split; [seen_tac|intros st ->; by apply mayFor_none].
Qed.

Ltac read_in := eexists; split; [seen_tac|by apply mayFor_none].

Lemma listAgents_scoped q runId : scoped q (listAgents auth runId q).
Proof. unfold listAgents. by_band. repeat wp_step; allow. read_in. Qed.

Lemma steerRun_scoped q runId : scoped q (steerRun auth runId q).
Proof. unfold steerRun. by_band. repeat wp_step; allow. all: split; [done|read_in]. Qed.

(** The run was read, and is in the Caller's scope. *)
Lemma wp_conversationsRun q c runId i Q :
  authenticator (bearerOf q) (h_slot q) = Some (PCaller c) →
  (∀ r tr, (r = Ok None → readIn tr (onBehalf (onBehalfHeader q) c) read runId ∧ ∀ x, i = Some x → Edit.startsWith (runId ++ [47]) x = true) → Q r tr) →
  wp (allowed q (authenticator (bearerOf q) (h_slot q))) (conversationsRun (onBehalf (onBehalfHeader q) c) runId i) [] Q.
Proof.
  intros Hc HQ. unfold conversationsRun. repeat wp_step; try by allow.
  all: apply HQ; try done.
  all: match goal with a : reply (Read _) |- _ => destruct a as [st|]; [|done] end.
  all: intros [= ?%mayFor_none]; split; [exists st; split; [seen_tac|done]|naive_solver].
Qed.

Lemma wp_conversationOpen q c runId i tr Q :
  authenticator (bearerOf q) (h_slot q) = Some (PCaller c) → (∀ r new, Q r (tr ++ new)) →
  wp (allowed q (authenticator (bearerOf q) (h_slot q))) (conversationOpen runId i) tr Q.
Proof. intros Hc HQ. unfold conversationOpen. repeat wp_step; try by allow. all: rewrite <- ?app_assoc; apply HQ. Qed.

Lemma wp_each {A B} P (f : A → Prog B) l tr Q :
  (∀ x tr Q', (∀ r tr', Q' r tr') → wp P (f x) tr Q') → (∀ r tr', Q r tr') → wp P (each f l) tr Q.
Proof.
  intros Hf. revert tr Q. induction l as [|x l IH]; intros tr Q HQ; cbn [each]; [apply HQ|].
  wp_step. apply Hf. intros [] tr'; [|apply HQ]. wp_step. apply IH. intros [] ?; [wp_step|]; apply HQ.
Qed.

Lemma listConversations_scoped q runId : scoped q (listConversations auth opts runId q).
Proof.
  unfold listConversations. by_band. wp_step. apply wp_conversationsRun; [done|]. intros [[a|]|] tr Hr; [exact I| |exact I].
  cbn [unless]. destruct (Hr eq_refl) as [Hin _]. repeat wp_step; [by allow| |].
  all: try (apply wp_each; [intros x tr' Q' HQ; repeat wp_step; [by allow|apply HQ..]|]).
  all: intros [] tr'; repeat wp_step.
  all: apply wp_each; [|intros [] ?; repeat wp_step].
  all: intros x tr'' Q' HQ; wp_step; eapply wp_conversationOpen; [done|]; intros [] new; repeat wp_step; apply HQ.
Qed.

Lemma readIn_app tr new c s runId : readIn tr c s runId → readIn (tr ++ new) c s runId.
Proof. intros (st & H & ?). exists st. split; [|done]. apply elem_of_app. by left. Qed.

Lemma getConversation_scoped q runId i : scoped q (getConversation auth opts Number runId i q).
Proof.
  unfold getConversation. by_band. wp_step. apply wp_conversationsRun; [done|]. intros [[a|]|] tr Hr; [exact I| |exact I].
  cbn [unless]. destruct (Hr eq_refl) as [Hin Hs]. specialize (Hs i eq_refl). repeat wp_step; allow.
  exists runId. split; [by apply readIn_app|done].
Qed.

Lemma followConversation_scoped q runId i : scoped q (followConversation auth opts Number runId i q).
Proof.
  unfold followConversation. by_band. wp_step. apply wp_conversationsRun; [done|]. intros [[a|]|] tr Hr; [exact I| |exact I].
  cbn [unless]. destruct (Hr eq_refl) as [Hin Hs]. specialize (Hs i eq_refl). repeat wp_step; allow.
  eapply wp_conversationOpen; [done|]. intros [] new; repeat wp_step.
Qed.

(** The surface was read, and the principal may speak for it. *)
Lemma wp_agentRegistration q pr i Q :
  authenticator (bearerOf q) (h_slot q) = Some pr →
  (∀ r tr, (∀ s, r = Ok (inr s) → spokenFor (authenticator (bearerOf q) (h_slot q)) tr i) → Q r tr) →
  wp (allowed q (authenticator (bearerOf q) (h_slot q))) (agentRegistration pr i) [] Q.
Proof.
  intros Hpr HQ. unfold agentRegistration. repeat wp_step; try by allow.
  all: apply HQ; try done. intros s'. destruct (mayDeliverToAgent _ _ _) eqn:Em; [|done]. intros _.
  exists pr, s. split_and!; [done|seen_tac|done].
Qed.

Lemma spokenFor_app p tr new i : spokenFor p tr i → spokenFor p (tr ++ new) i.
Proof. intros (pr & s & ? & H & ?). exists pr, s. split_and!; [done| |done]. apply elem_of_app. by left. Qed.

Ltac at_surface Hs :=
  wp_step; apply wp_agentRegistration; [done|]; intros [[a|s]|] tr Hs; [exact I|specialize (Hs s eq_refl)|exact I].

Ltac spoken := repeat (assumption || apply spokenFor_app).

Lemma getSurface_scoped q i : scoped q (getSurface auth i q).
Proof. unfold getSurface. by_band. at_surface Hs. repeat wp_step; allow; spoken. Qed.

Lemma postNotices_scoped q i : scoped q (postNotices auth i q).
Proof. unfold postNotices. by_band. at_surface Hs. repeat wp_step; allow; spoken. Qed.

Lemma postAgentEvent_scoped q i : scoped q (postAgentEvent auth i q).
Proof. unfold postAgentEvent. by_band. at_surface Hs. repeat wp_step; allow; spoken. Qed.

Lemma postConversation_scoped q i : scoped q (postConversation auth opts issue i q).
Proof.
  unfold postConversation. by_band. rewrite (bool_decide_eq_true_2 (is_Some auth)) by eauto.
  destruct pr as [c| |sb|sb sl]; repeat wp_step; allow; try done.
  match goal with E : negb _ = false |- _ => apply negb_false_iff, andb_true_iff in E as [H1%bool_decide_eq_true H2%bool_decide_eq_true] end.
  do 3 eexists. split_and!; [done|seen_tac|done..].
Qed.

Lemma getDelivery_scoped q i d : scoped q (getDelivery auth i d q).
Proof. unfold getDelivery. by_band. repeat wp_step; allow. do 3 eexists. split_and!; [done|seen_tac|done]. Qed.

Lemma fetchRepo_scoped q sb : scoped q (fetchRepo auth opts sb q).
Proof. unfold fetchRepo. by_band. repeat wp_step; allow. all: eexists; split; [done|]; by apply negb_false_iff. Qed.

Lemma operator_scoped q prog : (∀ p, p = authenticator (bearerOf q) (h_slot q) → (∃ pr, p = Some pr ∧ isInstancePrincipal pr = true) → wp (allowed q p) prog [] anyEnd) →
  scoped q (instanceOnly auth q prog).
Proof. intros H. by_band. apply H; eauto. Qed.

Lemma listRepos_scoped q : scoped q (listRepos auth opts q).
Proof. apply operator_scoped. intros p Hp Hi. repeat wp_step; cbn [allowed]; done. Qed.

Lemma putChart_scoped q w n : scoped q (putChart auth opts parseError w n q).
Proof.
  apply operator_scoped. intros p Hp Hi. unfold chartError. repeat wp_step; cbn [allowed]; try done.
  all: destruct Hi as (pr & -> & _); by eexists.
Qed.

Lemma deleteChart_scoped q w n : scoped q (deleteChart auth opts w n q).
Proof. apply operator_scoped. intros p Hp Hi. unfold chartError. repeat wp_step; cbn [allowed]; done. Qed.

Lemma hookLog_scoped q n : scoped q (hookLog auth opts Number n q).
Proof. apply operator_scoped. intros p Hp Hi. repeat wp_step; cbn [allowed]; done. Qed.

Lemma putAssembly_scoped q : wp (allowed q (authenticator (bearerOf q) None)) (putAssembly auth opts q) [] anyEnd.
Proof. apply wp_publishOnly. intros Hp. repeat wp_step; cbn [allowed]; done. Qed.

Lemma handler_scoped r q : wp (allowed q (principalOf r q)) (handler r q) [] anyEnd.
Proof.
  destruct r; unfold principalOf; cbn [handle]; unfold whoami, startChart, startWorkflow, gateInbox.
  - by_band. by wp_step.
  - apply hookLog_scoped.
  - apply putAssembly_scoped.
  - apply putChart_scoped.
  - apply deleteChart_scoped.
  - by_band. by apply startRun_scoped.
  - by_band. by apply startRun_scoped.
  - apply listRuns_scoped.
  - apply listRepos_scoped.
  - apply resolveRun_scoped.
  - by_band. repeat wp_step; allow.
  - apply getRun_scoped.
  - apply sendGate_scoped.
  - apply runEvents_scoped.
  - apply listConversations_scoped.
  - apply getConversation_scoped.
  - apply followConversation_scoped.
  - apply cancelRun_scoped.
  - apply listAgents_scoped.
  - apply steerRun_scoped.
  - apply getSurface_scoped.
  - apply postAgentEvent_scoped.
  - apply getDelivery_scoped.
  - apply postNotices_scoped.
  - apply postConversation_scoped.
  - apply fetchRepo_scoped.
Qed.


(** ** The route table *)

(** Whether a band lets a principal in. *)
Definition bandOpens (b : HttpBand) (p : option Principal) : bool :=
  match b, p with
  | open_, _ | hook_, _ => true
  | authenticated_, Some Publisher => false
  | authenticated_, Some _ => true
  | guarded_ AnyCaller, Some (PCaller _) => true
  | guarded_ (OneOf l), Some (PCaller c) => existsb (callerHasScope c) l
  | instanceOnly_, Some pr => isInstancePrincipal pr
  | publishOnly_, Some Publisher => true
  | _, _ => false
  end.

Definition needsCredential (x : HttpRoute) : bool := match band x with open_ | hook_ => false | _ => true end.

(** A handler of each route, whatever its parameters. *)
Definition anyRoutes : list Route := [
  RWhoami; RHookLog []; RPutAssembly; RPutChart [] []; RDeleteChart [] []; RStartChart [] []; RStart []; RRuns; RRepos; RResolve;
  RGates; RRun []; RSendGate [] []; RRunEvents []; RConversations []; RConversation [] []; RFollow [] []; RCancel []; RAgents [];
  RSteer []; RSurface []; RAgentEvent []; RDelivery [] []; RNotices []; RKeep []; RFetch []].

(** The program answers a refusal, and asks nothing. *)
Definition refuses (p : Prog Answer) : Prop := ∃ status v, p = Ret (AJson status v) ∧ status ∈ [400; 401; 403].

Lemma refuses_fault status text : status ∈ [400; 401; 403] → refuses (Ret (fault status text)).
Proof. intros H. by exists status, (JObj [errorMember text]). Qed.

Ltac refuse := apply refuses_fault; set_solver.

Lemma onBehalf_has x c l : existsb (callerHasScope (onBehalf x c)) l = existsb (callerHasScope c) l.
Proof. destruct x as [[|? ?]|]; try done. simpl. by case_bool_decide. Qed.

Lemma guarded_refuses need q next :
  bandOpens (guarded_ need) (authenticator (bearerOf q) (h_slot q)) = false → refuses (guarded auth need q next).
Proof.
  intros H. unfold guarded. destruct (match onBehalfHeader q with Some _ => _ | None => _ end); [refuse|]. simpl.
  destruct (authenticator _ _) as [[c| |sb|sb sl]|]; [|refuse..].
  destruct need as [|l]; [done|]. cbn [bandOpens] in H. simpl. rewrite onBehalf_has, H. do 2 eexists. split; [done|set_solver].
Qed.

Lemma authenticated_refuses q next :
  bandOpens authenticated_ (authenticator (bearerOf q) (h_slot q)) = false → refuses (authenticated auth q next).
Proof. unfold authenticated. simpl. destruct (authenticator _ _) as [[]|]; [done| |done|done|]; intros _; refuse. Qed.

Lemma instanceOnly_refuses q next :
  bandOpens instanceOnly_ (authenticator (bearerOf q) (h_slot q)) = false → refuses (instanceOnly auth q next).
Proof.
  unfold instanceOnly. simpl. destruct (authenticator _ _) as [[c| |sb|sb sl]|]; [|intros _; refuse..].
  simpl. intros ->. refuse.
Qed.

Lemma publishOnly_refuses q next :
  bandOpens publishOnly_ (authenticator (bearerOf q) None) = false → refuses (publishOnly auth q next).
Proof. unfold publishOnly. simpl. destruct (authenticator _ _) as [[]|]; [|done|..]; intros _; refuse. Qed.

Lemma handler_refuses r q row : rowOf r = Some row → bandOpens (band row) (principalOf r q) = false → refuses (handler r q).
Proof.
  intros Hr. destruct r; vm_compute in Hr; injection Hr as <-; cbn [band]; unfold principalOf;
    first [apply guarded_refuses | apply authenticated_refuses | apply instanceOnly_refuses | apply publishOnly_refuses].
Qed.

(** C29: The route table is what the server does. Each row that names a
    credential has its handler, each handler has its row, and a request whose
    principal the row's band does not let in is answered 401 or 403 (400 where
    its claim is too long) before the handler asks the host for anything. *)
Theorem table_is_enforced r q w :
  (∀ row, row ∈ HTTP_ROUTES → needsCredential row = true → ∃ r', rowOf r' = Some row)
  ∧ ∃ row, rowOf r = Some row ∧ row ∈ HTTP_ROUTES
    ∧ (bandOpens (band row) (principalOf r q) = false →
       (exec w (handler r q) []).2 = [] ∧ ∃ status v, (exec w (handler r q) []).1 = Ok (AJson status v) ∧ status ∈ [400; 401; 403]).
Proof.
  split.
  - intros row Hr Hn. assert (filter (λ x, needsCredential x = true) HTTP_ROUTES = omap rowOf anyRoutes) as E by (by vm_compute).
    assert (row ∈ omap rowOf anyRoutes) as (r' & _ & H)%list_elem_of_omap; [|eauto]. rewrite <- E. by apply list_elem_of_filter.
  - assert (is_Some (rowOf r)) as [row Hrow] by (destruct r; vm_compute; eauto). exists row. split_and!; [done| |].
    + apply head_Some_elem_of, list_elem_of_filter in Hrow. apply Hrow.
    + intros Hb. destruct (handler_refuses r q row Hrow Hb) as (status & v & -> & Hs). simpl. eauto.
Qed.

(** ** The pods' tokens *)

(** What a pod's control token, with a slot, may ask for. *)
Definition podMay (pod slot : jstr) (tr : list Event) (o : Op) : Prop :=
  match o with
  | ReadBody | Stopping | RestorePending | Place _ | AgentSurface _ | ParkedDelivery _ _ | DeliveryScope _ _ => True
  | SurfaceServed i | BoundaryNotices i | NoticesHeard i _ | SendToAgent i _ =>
      ∃ s, seen tr (AgentSurface i) (Some s) ∧ su_sandbox s = Some pod ∧ su_slot s = Some slot
  | AwaitDelivery i d => seen tr (DeliveryScope i d) (Some (Some pod, Some slot))
  | Append runId i agent _ =>
      ∃ place, seen tr (Place i) (Some place) ∧ Delivery.p_sandbox place = Some pod ∧ Delivery.p_slot place = Some slot
        ∧ Delivery.p_agent place = Some agent ∧ Delivery.p_runId place = runId
  | _ => False
  end.

(** What its fetch token may ask for. *)
Definition fetchMay (pod : jstr) (o : Op) : Prop :=
  match o with
  | ReadBody | Stopping | RestorePending | Place _ | AgentSurface _ | ParkedDelivery _ _ | DeliveryScope _ _ => True
  | FetchRepo sb _ => sb = pod
  | _ => False
  end.

Lemma mayDeliver_agent pod slot sb sl :
  mayDeliverToAgent (PAgent pod slot) sb sl = true → sb = Some pod ∧ sl = Some slot.
Proof. unfold mayDeliverToAgent. simpl. intros [H1%bool_decide_eq_true H2%bool_decide_eq_true]%andb_true_iff. done. Qed.

(** What an operation needs, by the operation. *)
Ltac case_op o :=
  destruct o as [| | | | | | | | | | | | | | |runId [|] | | | | | | | | | | | | | | | | | | | | | | | | ];
  cbn [allowed]; unfold asCaller, spokenFor, is_Some.

(** A principal that is no Caller is refused by case. *)
Ltac no_caller := first [done | by intros (? & [=] & ?) | by intros (? & [= <-] & ?)].

Lemma allowed_agent q pod slot tr o : allowed q (Some (PAgent pod slot)) tr o → podMay pod slot tr o.
Proof.
  case_op o; cbn [podMay]; try no_caller.
  all: try (intros (pr & s & [= <-] & Hs & [? ?]%mayDeliver_agent); eauto).
  - intros (sb & sl & place & [= <- <-] & ?). eauto.
  - intros (pr & sb & sl & [= <-] & Hs & [-> ->]%mayDeliver_agent). done.
Qed.

Lemma allowed_nobody q tr o : ¬ allowed q None tr o.
Proof. clear. case_op o; naive_solver. Qed.

Lemma allowed_sandbox q pod tr o : allowed q (Some (PSandbox pod)) tr o → fetchMay pod o.
Proof.
  case_op o; cbn [fetchMay]; try no_caller.
  all: try (by intros (pr & s & [= <-] & _ & ?)); try (by intros (sb & sl & place & [=] & ?)).
  - by intros (pr & sb & sl & [= <-] & _ & ?).
  - intros (pr & [= <-] & H). unfold mayAskForSandbox in H. simpl in H. by apply bool_decide_eq_true in H.
Qed.

(** ** From the header *)

Lemma trim_start_token s : head s ≠ None → Forall (λ c, is_space c = false) s → trim_start s = s.
Proof. destruct s as [|c s]; [done|]. intros _ H. apply Forall_cons in H as [H _]. simpl. by rewrite H. Qed.

Lemma trim_token s : s ≠ [] → Forall (λ c, is_space c = false) s → trim s = s.
Proof.
  intros Hne H. unfold trim. rewrite (trim_start_token s); [|by destruct s|done].
  rewrite trim_start_token; [apply rev_involutive| |by apply Forall_rev].
  destruct (rev s) eqn:E; [|done]. apply (f_equal (@rev _)) in E. rewrite rev_involutive in E. by subst.
Qed.

(** A header with the scheme, a space, and a token of plain characters. *)
Lemma bearer_plain q t :
  authorization q = Some (js "Bearer " ++ t) → t ≠ [] → Forall (λ c, is_space c = false) t → bearerOf q = Some t.
Proof.
  intros Ha Hne Ht. unfold bearerOf. rewrite Ha. change (default [] (Some (js "Bearer " ++ t))) with (js "Bearer " ++ t). cbv zeta.
  assert (drop 6 (js "Bearer " ++ t) = 32 :: t) as -> by done.
  assert (lower <$> take 6 (js "Bearer " ++ t) = js "bearer") as -> by (by vm_compute).
  rewrite bool_decide_eq_true_2 by done. change (is_space 32) with true. cbn [andb].
  assert (trim_start (32 :: t) = t) as -> by (simpl; apply trim_start_token; [by destruct t|done]).
  assert (existsb lineEnd t = false) as ->.
  { apply not_true_is_false. intros (c & Hc & Hl)%existsb_exists. rewrite Forall_forall in Ht. specialize (Ht c (proj2 (list_elem_of_In _ _) Hc)).
    unfold lineEnd in Hl. unfold is_space in Ht. lia. }
  rewrite trim_token by done. by destruct t.
Qed.

End Access.

(** ** From the header to the host *)

Section Bearers.
Context {Key : Type} (sign : Key → jstr → jstr) (sha256 : jstr → jstr) `{!Hmac sign} (o : @Options Key) (opts : AppOptions).
Context (parseError : jstr → jstr) (zodIssues issue : json → jstr) (Number : jstr → option Z)
        (parseRunListQuery : (jstr → option jstr) → jstr + RunListQuery).

Abbreviation server :=
  (handle (Some (createAuthenticator sign sha256 o)) opts parseError zodIssues issue Number parseRunListQuery).

Lemma pod_plain n : isPodName n = true → Forall (λ c, alnum c || (c =? 45) || (c =? 46) = true) n.
Proof.
  unfold isPodName. destruct (head n); [|done]. destruct (last n); [|done].
  intros [_ H]%andb_true_iff. apply Forall_forall. intros c Hc. rewrite forallb_forall in H. by apply H, list_elem_of_In.
Qed.

Definition tokenChar (c : Z) : Prop := 33 <= c <= 126.

Lemma token_plain s : Forall tokenChar s → Forall (λ c, is_space c = false) s ∧ headerText s.
Proof. intros H. split; (eapply Forall_impl; [exact H|]); unfold tokenChar, is_space; intros c Hc; lia. Qed.

Lemma signed_plain n : Forall tokenChar n → Forall tokenChar (signed sign (signingKey o) n).
Proof.
  intros Hn. unfold signed. rewrite !Forall_app. split_and!; [done| |].
  - constructor; [|constructor]. unfold tokenChar, DOTC. lia.
  - eapply Forall_impl; [apply (sign_base64url (signingKey o) n)|]. unfold alnum, tokenChar. intros c Hc. lia.
Qed.

Lemma pod_token_chars pod : isPodName pod = true → Forall tokenChar pod ∧ Forall tokenChar (CONTROL_PREFIX ++ pod).
Proof.
  intros H%pod_plain. assert (Forall tokenChar pod) as Hp by (eapply Forall_impl; [exact H|]; unfold alnum, tokenChar; intros c Hc; lia).
  split; [done|]. rewrite Forall_app. split; [|done]. unfold CONTROL_PREFIX, tokenChar. cbn. repeat (constructor; [lia|]). constructor.
Qed.

(** C4: A pod's tokens open its own doors, and no other. A request with a
    pod's control token asks, whatever its route, for nothing but the Agents'
    operations, and only for a registration, a delivery or a ledger row of
    that pod and of the slot that the request states; with none stated it
    asks for nothing. A request with a pod's fetch token asks for fetches for
    that pod alone. Neither starts, reads, steers or cancels a run, answers a
    Gate, publishes, or writes a Chart. *)
Theorem pod_tokens_open_their_doors r q w pod pre e post :
  isPodName pod = true → (∀ p, publishToken o = Some p → Utf8.well_formed p = true) →
  (exec w (server r q) []).2 = pre ++ e :: post →
  (authorization q = Some (js "Bearer " ++ controlToken sign (signingKey o) pod) →
   publishToken o ≠ Some (controlToken sign (signingKey o) pod) →
   ∃ slot, h_slot q = Some slot ∧ slot ≠ [] ∧ podMay pod slot pre (Program.asked e))
  ∧ (authorization q = Some (js "Bearer " ++ sandboxToken sign (signingKey o) pod) →
     publishToken o ≠ Some (sandboxToken sign (signingKey o) pod) → fetchMay pod (Program.asked e)).
Proof.
  intros Hpod Hw He. destruct (pod_token_chars pod Hpod) as [Hc1 Hc2].
  pose proof (exec_allowed _ _ [] _ w pre e post (handler_scoped _ opts parseError zodIssues issue Number parseRunListQuery r q) He) as Ha.
  split; intros Hq Hp.
  - destruct (token_plain _ (signed_plain _ Hc2)) as [Hs Ht]. unfold principalOf in Ha.
    rewrite (bearer_plain q _ Hq ltac:(done) Hs) in Ha. cbn [app] in Ha.
    rewrite (control_principal sign sha256 o pod _ Ht Hw Hp), Hpod in Ha.
    destruct r; try (by destruct (allowed_nobody _ _ _ Ha)); (destruct (h_slot q) as [[|x slot]|]; [by destruct (allowed_nobody _ _ _ Ha)| |by destruct (allowed_nobody _ _ _ Ha)]);
      eexists; split_and!; try done; by apply (allowed_agent q).
  - destruct (token_plain _ (signed_plain _ Hc1)) as [Hs Ht]. unfold principalOf in Ha.
    rewrite (bearer_plain q (sandboxToken sign (signingKey o) pod) Hq) in Ha; [|unfold sandboxToken; by destruct pod|done].
    rewrite (sandbox_principal sign sha256 o pod) in Ha by done. by eapply allowed_sandbox.
Qed.
End Bearers.

(** ** The same route as [Delivery]'s *)

Definition deliveryPrincipal (p : Principal) : Delivery.Principal :=
  match p with
  | PCaller _ => Delivery.caller
  | Publisher => Delivery.publisher
  | PSandbox sb => Delivery.sandboxToken sb
  | PAgent sb sl => Delivery.agent sb sl
  end.

Definition deliveryResponse (r : result Thrown Answer) : Delivery.Response :=
  match r with
  | Ok (AJson status v) => Delivery.mkResponse status false (Some v)
  | _ => Delivery.crash
  end.

(** A host, a store and a body that answer as [Delivery]'s. *)
Definition deliveryWorld (h : Delivery.Host) (raw now : jstr) (db : Kept.Db) : World := λ _ o,
  match o with
  | ReadBody => Ok raw
  | Place i => match Delivery.conversationPlace i h with Ok p => Ok p | Throw _ => Throw (OtherThrow []) end
  | Append runId i agent entries =>
      match Kept.append runId i agent entries now db with
      | Ok (r, _) => Ok (JObj [(js "kept", JNum (Kept.a_kept r)); (js "cut", JBool (Kept.a_cut r))])
      | Throw _ => Throw (OtherThrow [])
      end
  | _ => Throw (OtherThrow [])
  end.

(** The handler of [POST /agents/:instanceId/conversation] answers as the route
    that the delivery of conversations is proved with. *)
Theorem keep_route_is_deliverys authenticator opts issue i q h raw now db :
  hasConversations opts = true →
  deliveryResponse (exec (deliveryWorld h raw now db) (postConversation (Some authenticator) opts issue i q) []).1
  = (Delivery.postConversation issue (Some (deliveryPrincipal <$> authenticator (bearerOf q) (h_slot q))) h i raw now (Some db)).1.
Proof.
  intros Hc. unfold postConversation, authenticated, Delivery.postConversation. cbn [principalFor fmap option_fmap option_map].
  destruct (authenticator (bearerOf q) (h_slot q)) as [[c| |sb|sb sl]|]; try done; cbn [fmap option_fmap option_map deliveryPrincipal Delivery.authenticated];
    rewrite Hc, !(bool_decide_eq_true_2 (is_Some (Some _))) by eauto; try done.
  cbn [negb andb Delivery.isAgent mbind prog_bind attempt ask exec deliveryWorld].
  destruct (Delivery.CONVERSATION_BATCH_MAX <? utf8ByteLength raw); [done|].
  destruct (Delivery.conversationBatch (Delivery.readJson raw)) as [entries|]; [|done].
  cbn [mbind prog_bind attempt ask exec deliveryWorld].
  destruct (Delivery.conversationPlace i h) as [[place|]|]; [|done..]. cbn [exec attempt].
  destruct (Delivery.p_agent place) as [agent|]; [|by destruct (Delivery.p_live place)].
  cbn [Delivery.wrongToken]. destruct (negb _); [done|].
  cbn [mbind prog_bind attempt ask exec deliveryWorld]. destruct (Kept.append _ _ _ _ _ _) as [[r db']|]; done.
Qed.

(** ** Witnesses *)

Definition bareReq (header : jstr) (slot : option jstr) : Req := mkReq (Some header) slot None None None None None (λ _, None).
Definition allOptions : AppOptions := mkApp true true true true true true.
Definition toyAuth := createAuthenticator toySign toyDigest toyOptions.

Abbreviation toyServer := (handle (Some toyAuth) allOptions (λ _, []) (λ _, []) (λ _, []) (λ _, None) (λ _, inl [])).

(** A live run of a named Chart, with one Agent's registration. *)
Definition weekly : RunStatus := mkStatus (js "r1") (js "plan/weekly") (js "active") [].
Definition coderSurface : Surface := mkSurface (Some (js "pod-1")) (Some (js "coder")) [].

Definition toyWorld : World := λ _ o,
  match o with
  | ReadBody => Ok (js "{}")
  | Read _ | Status _ => Ok (Some weekly)
  | Stopping | RestorePending => Ok false
  | AgentSurface _ => Ok (Some coderSurface)
  | SendToAgent _ _ => Ok (JObj [])
  | SendToGate _ _ _ _ _ => Ok ()
  | _ => Throw (OtherThrow [])
  end.

(** The named token [ci] answers the Gate that its scope names. *)
Definition gateReq : Req := bareReq (js "Bearer jr2c_ci") None.
Definition gateRoute : Route := RSendGate (js "r1") (js "g1").
Definition ci : Caller := mkCaller token (js "ci") None reviewer None.
Definition gateEvent : Event :=
  mkEvent (SendToGate (js "r1") (js "g1") (JObj []) (callerRecord ci) (Some (callerMayAnswer ci (js "plan/weekly")))) (Ok ()).
Definition gatePre : list Event := [mkEvent ReadBody (Ok (js "{}")); mkEvent (Status (js "r1")) (Ok (Some weekly))].

(** What a [Status] answered. *)
Definition liveIn (e : Event) : option RunStatus :=
  match Program.asked e as o return result Thrown (reply o) → option RunStatus with
  | Status _ => λ r, match r with Ok live => live | Throw _ => None end
  | _ => λ _, None
  end (answered e).


(** The control token of [pod-1] delivers to that pod's registration. *)
Definition podReq : Req := bareReq (js "Bearer " ++ toyToken) (Some (js "coder")).
Definition podEvent : Event := mkEvent (SendToAgent (js "r1/coder") (JObj [])) (Ok (JObj [])).
Definition podPre : list Event :=
  [mkEvent Stopping (Ok false); mkEvent (AgentSurface (js "r1/coder")) (Ok (Some coderSurface)); mkEvent ReadBody (Ok (js "{}"))].

Lemma pod_tokens_open_their_doors_witness :
  (exec toyWorld (toyServer (RAgentEvent (js "r1/coder")) podReq) []).1 = Ok (AJson 200 (JObj []))
  ∧ ∃ s, seen podPre (AgentSurface (js "r1/coder")) (Some s) ∧ su_sandbox s = Some (js "pod-1").
Proof.
  split; [by vm_compute|].
  destruct (pod_tokens_open_their_doors toySign toyDigest toyOptions allOptions (λ _, []) (λ _, []) (λ _, []) (λ _, None) (λ _, inl [])
              (RAgentEvent (js "r1/coder")) podReq toyWorld (js "pod-1") podPre podEvent []) as [H _].
  - by vm_compute.
  - apply toy_publish.
  - vm_compute. reflexivity.
  - destruct H as (slot & _ & _ & s & Hs & Hsb & _); [by vm_compute|by vm_compute|]. by exists s.
Defined.

End HttpProofs.
