(* ===== verification/Hooks.v ===== *)
(** * The Hook's door

    [orchestrator/src/hooks.ts] and [orchestrator/src/hook-kinds/]: what a kind
    reads from a request, the verifiers, the door's [deliver] in its order, and
    the text that a person reads.  [deliver] is a [Program.Prog]: the tree of
    what it asks of the config, the clock, the Instance Effector, the hook log
    and the run host.  [HookLog.step] runs any number of deliveries over one
    hook log. *)

From Stdlib Require Import ZArith.
From stdpp Require Import base list strings.
From S2P Require Import Prelude JsString Json JsObject Utf8 Sql Edit Keep Notices Delivery Store RunList Tokens Program Http.

Open Scope Z_scope.

(** ** Kinds: hook-kinds/index.ts and door.ts *)

Module HookKinds.
Import Json JsObject Program.

Abbreviation quoted := Delivery.quoted.
Abbreviation startsWith := Edit.startsWith.

(** A [Headers]: its names are in lowercase, and the values of one name are
    joined. *)
Definition Headers := obj jstr.

Definition lowerCase (s : jstr) : jstr := Http.lower <$> s.

Definition headersGet (name : jstr) (h : Headers) : option jstr := objGet (lowerCase name) h.

Record HookRequest := mkRequest { rq_headers : obj jstr; rq_body : list Z; rq_text : jstr }.

(** [new TextDecoder("utf-8").decode]: a byte order mark at the start is not part of the text. *)
Definition textDecode (bytes : list Z) : jstr :=
  match bytes with
  | 0xef :: 0xbb :: 0xbf :: rest => decode rest
  | _ => decode bytes
  end.

Definition hookRequest (headers : Headers) (body : list Z) (strip : option jstr) : HookRequest :=
  let out := foldl (λ out nv,
    let lower := lowerCase nv.1 in
    objSet lower (match objGet lower out with Some had => had ++ js ", " ++ nv.2 | None => nv.2 end) out) [] headers in
  mkRequest (match strip with Some s => objDel (lowerCase s) out | None => out end) body (textDecode body).

(** *** Bodies *)

Section Bodies.
(** [JSON.parse], none where it throws. *)
Context (parseJson : jstr → option json).

Definition jsonOf (req : HookRequest) : result jstr json :=
  match parseJson (rq_text req) with Some v => Ok v | None => Throw (js "the body is not JSON") end.
End Bodies.

(** Percent decoding of a form's bytes. *)
Fixpoint percentDecode (bs : list Z) : list Z :=
  match bs with
  | 37 :: ((h :: l :: rest) as more) =>
      match Json.hex_val h, Json.hex_val l with
      | Some a, Some b => a * 16 + b :: percentDecode rest
      | _, _ => 37 :: percentDecode more
      end
  | b :: rest => b :: percentDecode rest
  | [] => []
  end.

Definition formText (bs : list Z) : jstr := decode (percentDecode ((λ b, if b =? 43 then 32 else b) <$> bs)).

(** The bytes before the first [=], and after it. *)
Fixpoint cutAtEq (bs : list Z) : list Z * list Z :=
  match bs with
  | [] => ([], [])
  | b :: rest => if b =? 61 then ([], rest) else let '(n, v) := cutAtEq rest in (b :: n, v)
  end.

(** [new URLSearchParams(text)]: the pairs in their order. *)
Definition searchParams (text : jstr) : list (jstr * jstr) :=
  let t := match text with 63 :: t' => t' | _ => text end in
  (λ piece, let '(n, v) := cutAtEq piece in (formText n, formText v))
    <$> filter (λ p, p ≠ []) (split_on 38 (encode t)).

Definition form (req : HookRequest) : obj jstr :=
  foldl (λ out nv, match objGet nv.1 out with Some _ => out | None => objSet nv.1 nv.2 out end) [] (searchParams (rq_text req)).

(** An own property of a value: of an array, an index or its length. *)
Definition ownProp (v : json) (step : jstr) : option json :=
  match v with
  | JObj _ => prop step v
  | JArr l =>
      if bool_decide (step = js "length") then Some (JNum (Z.of_nat (length l)))
      else match indexOf step with Some i => l !! Z.to_nat i | None => None end
  | _ => None
  end.

Definition at_ (v : json) (path : jstr) : option json :=
  foldl (λ here step, here ≫= λ h, ownProp h step) (Some v) (split_on 46 path).

(** *** Signatures *)

Inductive SignedPart := SText (s : jstr) | SBytes (b : list Z).
Inductive Signature := Hex (s : jstr) | Base64 (s : jstr).

(** [s_at]: a time that is no finite number is [Some None]. *)
Record Signed := mkSigned { s_bytes : list SignedPart; s_signature : Signature; s_at : option (option Z) }.

Definition signedBytes (s : Signed) : list Z :=
  s_bytes s ≫= λ p, match p with SText t => encode t | SBytes b => b end.

Definition hexDigit (c : Z) : bool := match Json.hex_val c with Some _ => true | None => false end.

Fixpoint hexBytes (s : jstr) : option (list Z) :=
  match s with
  | [] => Some []
  | h :: l :: rest =>
      match Json.hex_val h, Json.hex_val l, hexBytes rest with
      | Some a, Some b, Some bs => Some (a * 16 + b :: bs)
      | _, _, _ => None
      end
  | _ => None
  end.

Definition base64Val (c : Z) : option Z :=
  if between 65 90 c then Some (c - 65)
  else if between 97 122 c then Some (c - 71)
  else if between 48 57 c then Some (c + 4)
  else if c =? 43 then Some 62
  else if c =? 47 then Some 63 else None.

(** The bytes of groups of four digits, the last of which may have two or
    three. *)
Fixpoint base64Bytes (ds : list Z) : list Z :=
  match ds with
  | a :: b :: c :: d :: rest => [a * 4 + b / 16; b mod 16 * 16 + c / 4; c mod 4 * 64 + d] ++ base64Bytes rest
  | [a; b; c] => [a * 4 + b / 16; b mod 16 * 16 + c / 4]
  | [a; b] => [a * 4 + b / 16]
  | _ => []
  end.

(** At most two [=] at the end. *)
Definition unpad (s : jstr) : jstr :=
  match rev s with
  | 61 :: 61 :: r => rev r
  | 61 :: r => rev r
  | _ => s
  end.

Definition signatureBytes (s : Signed) : option (list Z) :=
  match s_signature s with
  | Hex [] => None
  | Hex h => hexBytes h
  | Base64 b =>
      let digits := unpad b in
      match mapM base64Val digits with
      | Some ((_ :: _) as ds) => if (length b mod 4 =? 0)%nat then Some (base64Bytes ds) else None
      | _ => None
      end
  end.

(** *** The kind *)

Inductive MacAlg := sha256Alg | sha1Alg | sha512Alg.

(** [inl] is [Signed], [inr] the reason of [Unsigned]; it may throw. *)
Definition SignedOf := HookRequest → result jstr (Signed + jstr).

Inductive Verify :=
| VMac (alg : MacAlg) (signed : SignedOf)
| VEd25519 (signed : SignedOf)
| VToken (header : jstr).

Record Answer := mkAnswer { a_body : json; a_then : option (jstr * json) }.

Inductive ReadBy := service | person.

#[export] Instance ReadBy_eq_dec : EqDecision ReadBy.
Proof. solve_decision. Defined.

Record Delivery := mkDelivery {
  d_key : jstr;
  d_id : jstr;
  d_payload : json;
  d_onBehalfOf : option jstr;
  d_readBy : option ReadBy;
}.

Inductive ReadOut := Handshake (a : Answer) | Delivered (d : Delivery).

(** A zod schema, as it is written. *)
Inductive Schema :=
| zString | zNumber | zBoolean
| zNullable (s : Schema) | zOptional (s : Schema) | zArray (s : Schema)
| zUnion (l : list Schema)
| zLoose (fields : list (jstr * Schema)).

Record HookKind := mkKind {
  k_id : jstr;
  k_events : obj Schema;
  k_verify : Verify;
  k_read : HookRequest → result jstr ReadOut;
  k_answer : option (jstr → Delivery → result jstr Answer);
  k_maxText : option Z;
  k_posts : list jstr;
}.

Definition endsWithStar (k : jstr) : bool := bool_decide (drop (length k - 2) k = js ".*") && (2 <=? length k)%nat.

Definition schemaFor (kind : HookKind) (key : jstr) : option Schema :=
  match objGet key (k_events kind) with
  | Some s => Some s
  | None =>
      snd <$> foldl (λ (best : option (nat * Schema)) ks,
        if negb (endsWithStar ks.1) then best
        else
          let prefix := take (length ks.1 - 1) ks.1 in
          if (length prefix <? length key)%nat && startsWith prefix key
             && match best with Some (n, _) => (n <? length prefix)%nat | None => true end
          then Some (length prefix, ks.2) else best) None (k_events kind)
  end.

(** *** A Hook *)

Inductive HookCredential := CSecret (secret : jstr) | CPublicKey (key : jstr).

Inductive HookMay := MayAll | MayNames (l : list jstr).

Record HookParts := mkParts { p_kind : HookKind; p_credential : HookCredential; p_may : HookMay }.

(** [/^[0-9a-f]{64}$/i] *)
Definition PUBLIC_KEY (s : jstr) : bool := (length s =? 64)%nat && forallb hexDigit s.

Definition credentialOf (kind : HookKind) (hook : option json) : result jstr HookCredential :=
  match k_verify kind with
  | VEd25519 _ =>
      match hook ≫= prop (js "publicKey") with
      | Some (JStr k) =>
          if PUBLIC_KEY k then Ok (CPublicKey (lowerCase k))
          else Throw (js "a " ++ k_id kind ++ js " Hook takes publicKey: the Ed25519 public key in hex (64 characters)")
      | _ => Throw (js "a " ++ k_id kind ++ js " Hook takes publicKey: the Ed25519 public key in hex (64 characters)")
      end
  | _ =>
      match (hook ≫= prop (js "secret")) ≫= prop (js "secret") with
      | Some (JStr ((_ :: _) as s)) => Ok (CSecret s)
      | _ => Throw (js "a " ++ k_id kind ++ js " Hook takes secret: a named secret, secret(" ++ quoted (js "NAME") ++ js ")")
      end
  end.

Definition nonEmptyText (v : json) : option jstr := match v with JStr ((_ :: _) as s) => Some s | _ => None end.

Definition mayOf (id : jstr) (may : option json) : result jstr HookMay :=
  match may with
  | None => Ok MayAll
  | Some m =>
      match prop (js "answer") m with
      | Some (JStr s) =>
          if bool_decide (s = js "all") then Ok MayAll
          else Throw (js "a " ++ id ++ js " Hook's may.answer is " ++ quoted (js "all") ++ js " or a list of Workflow names")
      | Some (JArr l) =>
          match mapM nonEmptyText l with
          | Some names => Ok (MayNames names)
          | None => Throw (js "a " ++ id ++ js " Hook's may.answer is " ++ quoted (js "all") ++ js " or a list of Workflow names")
          end
      | _ => Throw (js "a " ++ id ++ js " Hook's may.answer is " ++ quoted (js "all") ++ js " or a list of Workflow names")
      end
  end.

(** The constructor that [defineHookKind] makes of a kind. *)
Definition makeHook (kind : HookKind) (hook : option json) : result jstr HookParts :=
  credential ← credentialOf kind hook;
  may ← mayOf (k_id kind) (hook ≫= prop (js "may"));
  Ok (mkParts kind credential may).

End HookKinds.

(** ** The kinds of jr2 *)

Module Kinds.
Import Json JsObject Program HookKinds.

(** [text] of gitlab.ts, slack.ts and discord.ts. *)
Definition textOf (v : option json) : option jstr := v ≫= nonEmptyText.

Definition fieldText (v : option jstr) : option jstr := match v with Some [] => None | _ => v end.

Definition looseOf (l : list (string * Schema)) : Schema := zLoose ((λ f, (js f.1, f.2)) <$> l).

Section Kinds.
Context (parseJson : jstr → option json).
Abbreviation body := (jsonOf parseJson).

(** *** GitHub *)

Definition githubUser : Schema := looseOf [("login", zString)].

Definition githubEvents : obj Schema := [
  (js "pull_request_review.submitted", looseOf [
    ("review", looseOf [("state", zString); ("body", zNullable zString); ("user", githubUser); ("commit_id", zString)]);
    ("pull_request", looseOf [("html_url", zString)])]);
  (js "issue_comment.created", looseOf [
    ("comment", looseOf [("body", zString); ("user", githubUser); ("author_association", zString)]);
    ("issue", looseOf [("pull_request", zOptional (looseOf [("html_url", zString)]))])]);
  (js "check_suite.completed", looseOf [
    ("check_suite", looseOf [("head_sha", zString); ("conclusion", zNullable zString)])])].

Definition header (req : HookRequest) (name : jstr) : result jstr jstr :=
  match objGet name (rq_headers req) with
  | Some ((_ :: _) as v) => Ok v
  | _ => Throw (js "no " ++ name ++ js " header")
  end.

Definition githubSigned (req : HookRequest) : result jstr (Signed + jstr) :=
  match objGet (js "x-hub-signature-256") (rq_headers req) with
  | Some sig =>
      if startsWith (js "sha256=") sig
      then Ok (inl (mkSigned [SBytes (rq_body req)] (Hex (drop 7 sig)) None))
      else Ok (inr (js "no X-Hub-Signature-256 header"))
  | None => Ok (inr (js "no X-Hub-Signature-256 header"))
  end.

Definition githubRead (req : HookRequest) : result jstr ReadOut :=
  event ← header req (js "x-github-event");
  if bool_decide (event = js "ping") then Ok (Handshake (mkAnswer JNull None))
  else
    p ← body req;
    let action := textOf (prop (js "action") p) in
    let by_ := prop (js "sender") p ≫= prop (js "login") in
    id ← header req (js "x-github-delivery");
    Ok (Delivered (mkDelivery (match action with Some a => event ++ js "." ++ a | None => event end) id p (textOf by_) None)).

Definition github : HookKind := mkKind (js "github") githubEvents (VMac sha256Alg githubSigned) githubRead None None [].

(** *** GitLab *)

Definition gitlabUser : Schema := looseOf [("username", zString)].
Definition gitlabPipeline : Schema := looseOf [("object_attributes", looseOf [("sha", zString); ("status", zString)])].

Definition gitlabEvents : obj Schema := [
  (js "merge_request.approved", looseOf [
    ("user", gitlabUser);
    ("object_attributes", looseOf [("url", zString); ("last_commit", looseOf [("id", zString)])])]);
  (js "note.MergeRequest", looseOf [
    ("user", gitlabUser); ("object_attributes", looseOf [("note", zString)]); ("merge_request", looseOf [("url", zString)])]);
  (js "pipeline.success", gitlabPipeline);
  (js "pipeline.failed", gitlabPipeline)].

Definition gitlabRead (req : HookRequest) : result jstr ReadOut :=
  p ← body req;
  match textOf (at_ p (js "object_kind")) with
  | None => Throw (js "the body has no object_kind")
  | Some kind =>
      let second :=
        if bool_decide (kind = js "note") then textOf (at_ p (js "object_attributes.noteable_type"))
        else match textOf (at_ p (js "object_attributes.action")) with
             | Some a => Some a
             | None => textOf (at_ p (js "object_attributes.status"))
             end in
      let id := match fieldText (objGet (js "idempotency-key") (rq_headers req)) with
                | Some i => Some i
                | None => fieldText (objGet (js "x-gitlab-event-uuid") (rq_headers req))
                end in
      match id with
      | None => Throw (js "no Idempotency-Key or X-Gitlab-Event-UUID header")
      | Some i =>
          Ok (Delivered (mkDelivery (match second with Some s => kind ++ js "." ++ s | None => kind end) i p
                           (textOf (at_ p (js "user.username"))) None))
      end
  end.

Definition gitlab : HookKind := mkKind (js "gitlab") gitlabEvents (VToken (js "x-gitlab-token")) gitlabRead None None [].

(** *** Slack *)

Definition slackEvents : obj Schema := [
  (js "slash_command.*", looseOf [("text", zString); ("user_id", zString); ("channel_id", zString)]);
  (js "block_actions.*", looseOf [
    ("user", looseOf [("id", zString)]);
    ("channel", zOptional (looseOf [("id", zString)]));
    ("message", zOptional (looseOf [("ts", zString)]));
    ("actions", zArray (looseOf [("action_id", zString); ("value", zOptional zString)]));
    ("response_url", zString)]);
  (js "event_callback.app_mention", looseOf [
    ("event", looseOf [("user", zString); ("text", zString); ("channel", zString); ("ts", zString)])])].

Definition need (v : option jstr) (what : jstr) : result jstr jstr :=
  match v with Some x => Ok x | None => Throw (js "no " ++ what) end.

Definition slackEscape (s : jstr) : jstr :=
  s ≫= λ c, if c =? 38 then js "&amp;" else if c =? 60 then js "&lt;" else if c =? 62 then js "&gt;" else [c].

Definition isForm (req : HookRequest) : bool :=
  startsWith (js "application/x-www-form-urlencoded") (lowerCase (default [] (objGet (js "content-type") (rq_headers req)))).

Definition RESPONSE_HOST : jstr := js "https://hooks.slack.com/".

(** [/^\d+$/] *)
Definition allDigits (s : jstr) : bool := negb (bool_decide (s = [])) && forallb Json.is_digit s.

Definition slackSigned (req : HookRequest) : result jstr (Signed + jstr) :=
  match objGet (js "x-slack-request-timestamp") (rq_headers req), objGet (js "x-slack-signature") (rq_headers req) with
  | Some ts, Some sig =>
      if allDigits ts && startsWith (js "v0=") sig
      then Ok (inl (mkSigned [SText (js "v0:"); SText ts; SText (js ":"); SBytes (rq_body req)] (Hex (drop 3 sig))
                      (Some (Some (read_digits 10 0 ts)))))
      else Ok (inr (js "no Slack signature or timestamp"))
  | _, _ => Ok (inr (js "no Slack signature or timestamp"))
  end.

Definition slackRead (req : HookRequest) : result jstr ReadOut :=
  if isForm req then
    let f := form req in
    match objGet (js "payload") f with
    | Some raw =>
        match parseJson raw with
        | None => Throw (js "the payload field is not JSON")
        | Some p =>
            type ← need (textOf (prop (js "type") p)) (js "payload type");
            let action := textOf (prop (js "actions") p ≫= λ a, ownProp a (js "0") ≫= prop (js "action_id")) in
            let by_ := textOf (prop (js "user") p ≫= prop (js "id")) in
            id ← need (textOf (prop (js "trigger_id") p)) (js "trigger_id");
            Ok (Delivered (mkDelivery (match action with Some a => type ++ js "." ++ a | None => type end) id p by_ (Some person)))
        end
    | None =>
        command ← need (fieldText (objGet (js "command") f)) (js "command");
        id ← need (fieldText (objGet (js "trigger_id") f)) (js "trigger_id");
        Ok (Delivered (mkDelivery (js "slash_command." ++ command) id (JObj ((λ nv, (nv.1, JStr nv.2)) <$> f))
                         (fieldText (objGet (js "user_id") f)) (Some person)))
    end
  else
    p ← body req;
    type ← need (textOf (prop (js "type") p)) (js "type");
    if bool_decide (type = js "url_verification")
    then Ok (Handshake (mkAnswer (JObj [(js "challenge", JStr (default [] (textOf (prop (js "challenge") p))))]) None))
    else
      let event := textOf (prop (js "event") p ≫= prop (js "type")) in
      let by_ := textOf (prop (js "event") p ≫= prop (js "user")) in
      id ← need (textOf (prop (js "event_id") p)) (js "event_id");
      Ok (Delivered (mkDelivery (match event with Some e => type ++ js "." ++ e | None => type end) id p by_ None)).

Definition slackAnswer (t : jstr) (d : Delivery) : result jstr Answer :=
  if startsWith (js "block_actions.") (d_key d) then
    match d_payload d with
    | JNull => Throw (js "Cannot read properties of null (reading 'response_url')")
    | payload =>
        match textOf (prop (js "response_url") payload) with
        | Some url =>
            if startsWith RESPONSE_HOST url
            then Ok (mkAnswer JNull (Some (url, JObj [(js "response_type", JStr (js "ephemeral"));
                                                      (js "replace_original", JBool false); (js "text", JStr (slackEscape t))])))
            else Ok (mkAnswer JNull None)
        | None => Ok (mkAnswer JNull None)
        end
    end
  else Ok (mkAnswer (JObj [(js "response_type", JStr (js "ephemeral")); (js "text", JStr (slackEscape t))]) None).

Definition slack : HookKind :=
  mkKind (js "slack") slackEvents (VMac sha256Alg slackSigned) slackRead (Some slackAnswer) (Some 4000) [RESPONSE_HOST].

(** *** Discord *)

Definition discordUser : Schema := looseOf [("id", zString)].

Definition discordEvents : obj Schema := [
  (js "application_command.*", looseOf [
    ("channel_id", zString);
    ("member", zOptional (looseOf [("user", discordUser)]));
    ("user", zOptional discordUser);
    ("data", looseOf [
      ("name", zString);
      ("options", zOptional (zArray (looseOf [("name", zString); ("value", zOptional (zUnion [zString; zNumber; zBoolean]))])))])]);
  (js "message_component", looseOf [
    ("member", zOptional (looseOf [("user", discordUser)]));
    ("user", zOptional discordUser);
    ("data", looseOf [("custom_id", zString)]);
    ("message", looseOf [("id", zString)])])].

Definition PING : Z := 1.
Definition APPLICATION_COMMAND : Z := 2.
Definition MESSAGE_COMPONENT : Z := 3.

(** [String(v)]; [None] is [undefined]. *)
Fixpoint stringOf (v : json) : jstr :=
  match v with
  | JNull => js "null"
  | JBool b => if b then js "true" else js "false"
  | JNum n => of_Z n
  | JStr s => s
  | JArr l => join (js ",") ((λ x, match x with JNull => [] | _ => stringOf x end) <$> l)
  | JObj _ => js "[object Object]"
  end.

Definition discordSigned (req : HookRequest) : result jstr (Signed + jstr) :=
  match objGet (js "x-signature-timestamp") (rq_headers req), objGet (js "x-signature-ed25519") (rq_headers req) with
  | Some ts, Some sig =>
      if allDigits ts
      then Ok (inl (mkSigned [SText ts; SBytes (rq_body req)] (Hex sig) (Some (Some (read_digits 10 0 ts)))))
      else Ok (inr (js "no Discord signature or timestamp"))
  | _, _ => Ok (inr (js "no Discord signature or timestamp"))
  end.

Definition isNumber (n : Z) (v : option json) : bool := match v with Some (JNum m) => m =? n | _ => false end.

Definition discordRead (req : HookRequest) : result jstr ReadOut :=
  p ← body req;
  let type := at_ p (js "type") in
  if isNumber PING type then Ok (Handshake (mkAnswer (JObj [(js "type", JNum 1)]) None))
  else
    match textOf (at_ p (js "id")) with
    | None => Throw (js "the interaction has no id")
    | Some id =>
        let by_ := match textOf (at_ p (js "member.user.id")) with Some b => Some b | None => textOf (at_ p (js "user.id")) end in
        let key :=
          if isNumber APPLICATION_COMMAND type then js "application_command." ++ default [] (textOf (at_ p (js "data.name")))
          else if isNumber MESSAGE_COMPONENT type then js "message_component"
          else js "interaction." ++ match type with Some v => stringOf v | None => js "undefined" end in
        Ok (Delivered (mkDelivery key id p by_ (Some person)))
    end.

Definition discordAnswer (t : jstr) (_ : Delivery) : result jstr Answer :=
  Ok (mkAnswer (JObj [(js "type", JNum 4); (js "data", JObj [(js "content", JStr t); (js "flags", JNum 64)])]) None).

Definition discord : HookKind :=
  mkKind (js "discord") discordEvents (VEd25519 discordSigned) discordRead (Some discordAnswer) (Some 2000) [].

(** *** The general kind *)

Inductive Field := FHeader (name : jstr) | FJson (path : jstr).

Inductive WebhookVerify :=
| WMac (header : jstr) (alg : option MacAlg) (prefix : option jstr) (base64 : bool)
| WToken (header : jstr).

Inductive KeySpec := KField (f : Field) | KName (name : Field) (action : option Field).

Record WebhookSpec := mkSpec {
  w_id : jstr;
  w_events : obj Schema;
  w_verify : WebhookVerify;
  w_key : KeySpec;
  w_delivery : Field;
  w_onBehalfOf : option Field;
}.

Definition pick (req : HookRequest) (b : json) (f : Field) : option jstr :=
  match f with
  | FHeader h => fieldText (objGet (lowerCase h) (rq_headers req))
  | FJson path => match at_ b path with Some (JNum n) => Some (of_Z n) | v => textOf v end
  end.

Definition webhookSigned (h prefix : jstr) (base64 : bool) (req : HookRequest) : result jstr (Signed + jstr) :=
  match objGet h (rq_headers req) with
  | Some raw =>
      if startsWith prefix raw
      then let value := drop (length prefix) raw in
           Ok (inl (mkSigned [SBytes (rq_body req)] (if base64 then Base64 value else Hex value) None))
      else Ok (inr (js "no " ++ h ++ js " header"))
  | None => Ok (inr (js "no " ++ h ++ js " header"))
  end.

Definition webhookRead (spec : WebhookSpec) (req : HookRequest) : result jstr ReadOut :=
  b ← body req;
  let name := match w_key spec with KField f => pick req b f | KName n _ => pick req b n end in
  let action := match w_key spec with KName _ (Some a) => pick req b a | _ => None end in
  let id := pick req b (w_delivery spec) in
  match name, id with
  | None, _ => Throw (js "the delivery has no event name")
  | _, None => Throw (js "the delivery has no delivery id")
  | Some n, Some i =>
      Ok (Delivered (mkDelivery (match action with Some a => n ++ js "." ++ a | None => n end) i b
                       (w_onBehalfOf spec ≫= pick req b) None))
  end.

Definition webhook (spec : WebhookSpec) : HookKind :=
  mkKind (w_id spec) (w_events spec)
    (match w_verify spec with
     | WMac h alg prefix base64 => VMac (default sha256Alg alg) (webhookSigned (lowerCase h) (default [] prefix) base64)
     | WToken h => VToken (lowerCase h)
     end)
    (webhookRead spec) None None [].

End Kinds.
End Kinds.

(** ** The door *)

Module Door.
Import Json JsObject HookKinds.

Definition HOOK_WINDOW_S : Z := 300.
Definition HOOK_BODY_MAX : Z := 2 * 1024 * 1024.

(** *** The outcome *)

Inductive Verdict := held | existing | hold_full | reread | skipped | paused.

#[export] Instance Verdict_eq_dec : EqDecision Verdict.
Proof. solve_decision. Defined.

Record SourceLine := mkSource {
  sl_pool : jstr;
  sl_workflow : jstr;
  sl_source : jstr;
  sl_verdict : Verdict;
  sl_key : option jstr;
  sl_run : option jstr;
  sl_reason : option jstr;
}.

Record DeliveredTo := mkDeliveredTo { dt_run : jstr; dt_workflow : jstr; dt_gate : jstr; dt_event : jstr }.
Record RefusedBy := mkRefusedBy { rb_run : jstr; rb_gate : jstr; rb_event : option jstr; rb_reason : jstr }.

Inductive Target := source | gate.

#[export] Instance Target_eq_dec : EqDecision Target.
Proof. solve_decision. Defined.

Record HookReply := mkReply {
  hr_target : Target;
  hr_workflow : jstr;
  hr_run : jstr;
  hr_gate : jstr;
  hr_text : option jstr;
  hr_skipped : bool;
  hr_error : option jstr;
}.

Record HookFanIn := mkFanIn {
  fi_delivered : list DeliveredTo;
  fi_refused : list RefusedBy;
  fi_ignored : Z;
  fi_sources : list SourceLine;
  fi_waiting : option (list jstr);
  fi_replies : option (list HookReply);
}.

(** zod's issue: its path, as text, and its message. *)
Record Issue := mkIssue { i_path : list jstr; i_message : jstr }.

Record HookOutcome := mkOutcome {
  o_delivery : jstr;
  o_seen : bool;
  o_delivered : list DeliveredTo;
  o_refused : list RefusedBy;
  o_ignored : Z;
  o_sources : list SourceLine;
  o_payloadRefused : option (jstr * jstr * list Issue);
}.

Definition verdictText (v : Verdict) : jstr :=
  js match v with
     | held => "held" | existing => "existing" | hold_full => "hold-full" | reread => "reread" | skipped => "skipped" | paused => "paused"
     end.

Definition member (k : string) (s : jstr) : jstr * json := (js k, JStr s).
Definition optMember (k : string) (s : option jstr) : list (jstr * json) := match s with Some x => [member k x] | None => [] end.

Definition sourceJson (s : SourceLine) : json :=
  JObj ([member "pool" (sl_pool s); member "workflow" (sl_workflow s); member "source" (sl_source s);
         member "verdict" (verdictText (sl_verdict s))]
        ++ optMember "key" (sl_key s) ++ optMember "run" (sl_run s) ++ optMember "reason" (sl_reason s)).

Definition outcomeMembers (o : HookOutcome) : list (jstr * json) :=
  [member "delivery" (o_delivery o); (js "seen", JBool (o_seen o));
   (js "delivered", JArr ((λ d, JObj [member "run" (dt_run d); member "workflow" (dt_workflow d);
                                      member "gate" (dt_gate d); member "event" (dt_event d)]) <$> o_delivered o));
   (js "refused", JArr ((λ r, JObj ([member "run" (rb_run r); member "gate" (rb_gate r)] ++ optMember "event" (rb_event r)
                                    ++ [member "reason" (rb_reason r)])) <$> o_refused o));
   (js "ignored", JNum (o_ignored o));
   (js "sources", JArr (sourceJson <$> o_sources o))]
  ++ match o_payloadRefused o with
     | Some (kind, key, issues) =>
         [(js "payloadRefused", JObj [member "kind" kind; member "key" key;
           (js "issues", JArr ((λ i, JObj [(js "path", JArr (JStr <$> i_path i)); member "message" (i_message i)]) <$> issues))])]
     | None => []
     end.

Definition outcomeJson (o : HookOutcome) : json := JObj (outcomeMembers o).

(** *** The text that a person reads *)

(** [byText(a, b) < 0] *)
Definition textBefore (a b : jstr) : bool := negb (Tokens.unitsLe b a).

Definition replyBefore (a b : HookReply) : bool :=
  if bool_decide (hr_target a = hr_target b) then
    if bool_decide (hr_workflow a = hr_workflow b) then textBefore (hr_run a) (hr_run b)
    else textBefore (hr_workflow a) (hr_workflow b)
  else bool_decide (hr_target a = source).

Definition says (r : HookReply) : option jstr := match hr_text r with Some [] => None | t => t end.

Definition joinReplies (replies : list HookReply) : jstr :=
  let sorted := Sql.orderBy replyBefore replies in
  let said := filter (λ r, is_Some (says r)) sorted in
  let spoke := filter (λ r, hr_skipped r = false) said in
  let shown := match spoke with [] => said | _ => spoke end in
  join [10] (Notices.uniq (omap says shown)).

Definition named (workflows : list jstr) : jstr := join (js ", ") (Tokens.sortNames (Notices.uniq workflows)).

Definition causeText (o : HookOutcome) (status : Z) (waiting : list jstr) : option jstr :=
  if status =? 429 then
    let full := sl_workflow <$> filter (λ s, sl_verdict s = hold_full) (o_sources o) in
    Some (js "jr2 cannot take this now: the Pool of " ++ named full ++ js " holds as many items as it can. Try again later.")
  else if status =? 503 then
    Some (js "jr2 cannot take this now: the Pool of " ++ named waiting ++ js " has no live run. Try again in a minute.")
  else None.

(** A text in a template: an absent field is [undefined]. *)
Definition shownField (s : option jstr) : jstr := default (js "undefined") s.

Definition sourceText (s : SourceLine) : list jstr :=
  let at_ := sl_workflow s ++ js " " ++ sl_pool s in
  match sl_verdict s with
  | held => [at_ ++ js ": took the item " ++ shownField (sl_key s) ++ js "."]
  | existing =>
      [at_ ++ js ": the item " ++ shownField (sl_key s) ++ js " is already in jr2"
       ++ match sl_run s with Some ((_ :: _) as r) => js " (run " ++ r ++ js ")" | _ => [] end ++ js "."]
  | hold_full => [at_ ++ js ": cannot hold the item " ++ shownField (sl_key s) ++ js " now."]
  | reread => [at_ ++ js ": reads its items again."]
  | paused => [js "The Pool of " ++ sl_workflow s ++ js " is paused, so it took nothing."]
  | skipped => []
  end.

Definition doorText (o : HookOutcome) : jstr :=
  if o_seen o then js "jr2 got this before, and did not do it again."
  else match o_payloadRefused o with
  | Some (kind, key, issues) =>
      let why := match issues with
                 | first :: _ =>
                     match i_message first with
                     | [] => []
                     | m => js " (" ++ match i_path first with [] => [] | p => join (js ".") p ++ js ": " end ++ m ++ js ")"
                     end
                 | [] => []
                 end in
      js "jr2 cannot use this: the " ++ kind ++ js " payload " ++ quoted key ++ js " is not in the form that jr2 knows" ++ why ++ js "."
  | None =>
      let lines := (o_sources o ≫= sourceText)
        ++ ((λ d, dt_workflow d ++ js " " ++ dt_run d ++ js ": " ++ dt_gate d ++ js " took " ++ quoted (dt_event d) ++ js ".") <$> o_delivered o)
        ++ ((λ r, rb_run r ++ js ": " ++ rb_gate r ++ js " did not take it: " ++ rb_reason r) <$> o_refused o) in
      match lines with
      | _ :: _ => join [10] lines
      | [] =>
          match filter (λ s, sl_verdict s = skipped) (o_sources o) with
          | [] => js "Nothing in jr2 waits for this now."
          | l => join [10] ((λ s, sl_workflow s ++ js ": did nothing: " ++ default (js "no reason") (sl_reason s)) <$> l)
          end
      end
  end.

Definition chatText (o : HookOutcome) (status : Z) (replies : list HookReply) (waiting : list jstr) : jstr :=
  let joined := joinReplies replies in
  match joined, causeText o status waiting with
  | [], Some cause => cause
  | [], None => doorText o
  | _, None => joined
  | _, Some cause => if bool_decide (cause ∈ split_on 10 joined) then joined else joined ++ [10] ++ cause
  end.

(** [Array.from(text)]: the code points, each as its units. *)
Fixpoint codePoints (s : jstr) : list jstr :=
  match s with
  | c :: ((d :: rest) as more) =>
      if is_high c && is_low d then [c; d] :: codePoints rest else [c] :: codePoints more
  | [c] => [[c]]
  | [] => []
  end.

Definition cutText (text : jstr) (max : option Z) : jstr :=
  match max with
  | None => text
  | Some m =>
      let points := codePoints text in
      if Z.of_nat (length points) <=? m then text
      else concat (take (Z.to_nat (Z.max 0 (m - 1))) points) ++ [0x2026]
  end.

(** *** What the door asks for *)

Record MacCheck := mkMac { m_secret : jstr; m_alg : MacAlg; m_bytes : list Z; m_signature : list Z }.

Record HookIn := mkHookIn {
  in_hook : jstr;
  in_kind : jstr;
  in_key : jstr;
  in_delivery : jstr;
  in_payload : json;
  in_caller : Tokens.CallerRecord;
  in_may : jstr → bool;
  in_person : bool;
}.

(** The config's Hooks, the reader of the body, the digests, the clock as a
    number and as text, the Instance Effector's check and its post, the hook
    log, and the run host's fan-in. *)
Inductive Op :=
| Hooks
| ReadBody (max : Z)
| Digests
| Now
| NowText
| Mac (c : MacCheck)
| Claim (hook delivery digest : jstr)
| WriteLine (l : Store.HookLogLine) (claimed : option Z)
| DeliverHook (d : HookIn)
| Post (url : jstr) (v : json).

Definition reply (o : Op) : Type :=
  match o with
  | Hooks => option (obj HookParts)
  | ReadBody _ => option (list Z)
  | Digests => obj jstr
  | Now => Z
  | NowText => jstr
  | Mac _ => bool
  | Claim _ _ _ => option Z
  | WriteLine _ _ => unit
  | DeliverHook _ => HookFanIn
  | Post _ _ => unit
  end.

Import Program.

Abbreviation Prog := (Program.Prog reply jstr).
Abbreviation Event := (Program.Event reply jstr).
Abbreviation ask := (Program.ask (reply := reply) (Thrown := jstr)).

Record HookAnswer := mkHookAnswer { ha_status : Z; ha_body : json; ha_after : option (Prog unit) }.

Definition refusal (status : Z) (error : jstr) : HookAnswer := mkHookAnswer status (JObj [member "error" error]) None.

Inductive HookBody := Bytes (b : list Z) | Reader.

Section Deliver.
(** Whether there is an Instance Effector; SHA-256 of bytes as hex; Ed25519 with
    a public key in hex, none where it throws; zod's [safeParse]. *)
Context (hasMac hasPost : bool) (sha256 : list Z → jstr) (ed25519 : jstr → list Z → list Z → option bool)
        (safeParse : Schema → json → list Issue + json).

(** [sha256] gives hex, so its letters are ASCII. *)
Definition sameHex (a b : jstr) : bool := bool_decide (encode (lowerCase a) = encode (lowerCase b)).

Definition inWindow (now : Z) (at_ : option Z) : bool :=
  match at_ with Some t => Z.abs (now - t * 1000) <=? HOOK_WINDOW_S * 1000 | None => false end.

(** The check of a signature over [bytes], after the time. *)
Definition checkSignature (parts : HookParts) (bytes signature : list Z) : Prog (option HookAnswer) :=
  let matches (ok : bool) := if ok then None else Some (refusal 401 (js "the delivery's signature does not match")) in
  match k_verify (p_kind parts) with
  | VEd25519 _ =>
      match p_credential parts with
      | CPublicKey key => Ret (matches (default false (ed25519 key bytes signature)))
      | CSecret _ => Ret (Some (refusal 401 (js "the Hook has no public key")))
      end
  | VMac alg _ =>
      if negb hasMac
      then Ret (Some (refusal 503 (js "the Hook's signature cannot be checked now: no Instance Effector (ADR-0068)")))
      else
        let secret := match p_credential parts with CSecret s => s | CPublicKey _ => [] end in
        attempt (ask (Mac (mkMac secret alg bytes signature))) (λ r,
          match r with
          | Ok ok => Ret (matches ok)
          | Throw _ => Ret (Some (refusal 503 (js "the Hook's signature cannot be checked now: the Instance Effector did not answer")))
          end)
  | VToken _ => Ret None
  end.

Definition verifySigned (parts : HookParts) (signedOf : SignedOf) (req : HookRequest) : Prog (HookRequest + HookAnswer) :=
  match signedOf req with
  | Throw why => Ret (inr (refusal 401 (js "the delivery is not signed: " ++ why)))
  | Ok (inr why) => Ret (inr (refusal 401 (js "the delivery is not signed: " ++ why)))
  | Ok (inl signed) =>
      timely ← match s_at signed with
               | Some t => now ← ask Now; Ret (inWindow now t)
               | None => Ret true
               end;
      if negb timely
      then Ret (inr (refusal 401 (js "the delivery's signed time is more than " ++ of_int HOOK_WINDOW_S ++ js " s from the door's clock")))
      else match signatureBytes signed with
      | None => Ret (inr (refusal 401 (js "the delivery's signature is not well formed")))
      | Some signature =>
          refused ← checkSignature parts (signedBytes signed) signature;
          Ret (match refused with Some a => inr a | None => inl req end)
      end
  end.

Definition verify (parts : HookParts) (headers : Headers) (body : list Z) : Prog (HookRequest + HookAnswer) :=
  match k_verify (p_kind parts) with
  | VToken header =>
      let sent := headersGet header headers in
      digest ← match p_credential parts with
               | CSecret secret => digests ← ask Digests; Ret (objGet secret digests)
               | CPublicKey _ => Ret None
               end;
      match sent, digest with
      | Some s, Some d =>
          if sameHex (sha256 (encode s)) d then Ret (inl (hookRequest headers body (Some header)))
          else Ret (inr (refusal 401 (js "the delivery does not carry the Hook's token")))
      | _, _ => Ret (inr (refusal 401 (js "the delivery does not carry the Hook's token")))
      end
  | VMac _ signedOf | VEd25519 signedOf => verifySigned parts signedOf (hookRequest headers body None)
  end.

(** [write]: a fault of the store is a line of the server's own log. *)
Definition write (l : jstr → Store.HookLogLine) (claimed : option Z) : Prog unit :=
  attempt (t ← ask NowText; ask (WriteLine (l t) claimed)) (λ _, Ret ()).

(** Who reads the answer. *)
Definition byPerson (kind : HookKind) (d : Delivery) : bool :=
  bool_decide (d_readBy d = Some person) && match k_answer kind with Some _ => true | None => false end.

(** The answer to a delivery that the door read. *)
Definition answerOf (name : jstr) (kind : HookKind) (d : Delivery) (o : HookOutcome) (status : Z)
    (replies : option (list HookReply)) (waiting : option (list jstr)) : Prog HookAnswer :=
  match (if byPerson kind d then k_answer kind else None) with
  | None => Ret (mkHookAnswer status (outcomeJson o) None)
  | Some answer =>
      let text := cutText (chatText o status (default [] replies) (default [] waiting)) (k_maxText kind) in
      match answer text d with
      | Throw _ => Ret (mkHookAnswer 200 (JStr text) None)
      | Ok (mkAnswer body None) => Ret (mkHookAnswer 200 body None)
      | Ok (mkAnswer body (Some (post, v))) =>
          let fail error := write (λ at_, Store.mkLine name at_ Store.follow_up 0 (Some (d_id d)) None (Some (d_key d))
                                    (Some (JObj [member "post" post; member "error" error]))) None in
          if negb (existsb (λ prefix, startsWith prefix post) (k_posts kind)) then
            _ ← fail (js "the " ++ k_id kind ++ js " kind gave a follow-up to a url outside its posts ("
                      ++ join (js ", ") (k_posts kind) ++ js ")");
            Ret (mkHookAnswer 200 body None)
          else
            Ret (mkHookAnswer 200 body (Some (
              if negb hasPost then fail (js "no Instance Effector, so the door cannot post a follow-up (ADR-0068)")
              else attempt (ask (Post post v)) (λ r, match r with Ok _ => Ret () | Throw e => fail e end))))
      end
  end.

(** The Hook as a Caller: [answer] alone. *)
Definition hookCaller (name : jstr) (may : HookMay) : Tokens.Caller :=
  Tokens.mkCaller Tokens.hook name None
    (λ s, match s with
          | Tokens.answer => Some (match may with MayAll => RunList.All | MayNames l => RunList.Items (RunList.GName <$> l) end)
          | _ => None
          end) None.

Definition NOTHING : HookFanIn := mkFanIn [] [] 0 [] None None.

Definition outcomeOf (id : jstr) (fan : HookFanIn) : HookOutcome :=
  mkOutcome id false (fi_delivered fan) (fi_refused fan) (fi_ignored fan) (fi_sources fan) None.

(** The log's detail: the outcome, and the replies that failed. *)
Definition detailOf (o : HookOutcome) (fan : HookFanIn) : json :=
  match filter (λ r, is_Some (hr_error r)) (default [] (fi_replies fan)) with
  | [] => outcomeJson o
  | failed =>
      JObj (outcomeMembers o ++ [(js "replyErrors",
        JArr ((λ r, JObj ([member "run" (hr_run r); member "gate" (hr_gate r)] ++ optMember "error" (hr_error r))) <$> failed))])
  end.

(** What the fan-in's answer is: the kind of the line, and the status. *)
Definition fanEnd (fan : HookFanIn) : Store.HookKind * Z :=
  match fi_waiting fan with
  | Some (_ :: _) => (Store.no_live_run, 503)
  | _ =>
      if (0 <? length (fi_sources fan))%nat && forallb (λ s, bool_decide (sl_verdict s = hold_full)) (fi_sources fan)
      then (Store.hold_full, 429) else (Store.delivered, 200)
  end.

(** From the claim to the answer. *)
Definition fanIn (name : jstr) (parts : HookParts) (d : Delivery) (digest : jstr) (payload : option json) (claimed : Z) :
    Prog HookAnswer :=
  let kind := p_kind parts in
  let onBehalfOf := match d_onBehalfOf d with
                    | Some ((_ :: _) as by_) => Some (take (Z.to_nat Http.ON_BEHALF_OF_MAX) by_)
                    | _ => None
                    end in
  let may := hookCaller name (p_may parts) in
  fan ← match payload with
        | Some p => ask (DeliverHook (mkHookIn name (k_id kind) (d_key d) (d_id d) p
                          (Tokens.mkRecord Tokens.hook name None onBehalfOf) (Tokens.callerMay may Tokens.answer) (byPerson kind d)))
        | None => Ret NOTHING
        end;
  let outcome := outcomeOf (d_id d) fan in
  let '(line, status) := fanEnd fan in
  _ ← write (λ at_, Store.mkLine name at_ line status (Some (d_id d)) (Some digest) (Some (d_key d)) (Some (detailOf outcome fan)))
        (Some claimed);
  answerOf name kind d outcome status (fi_replies fan) (if status =? 503 then fi_waiting fan else None).

(** From the verified request to the answer. *)
Definition deliverRead (name : jstr) (parts : HookParts) (body : list Z) (verified : HookRequest) : Prog HookAnswer :=
  let kind := p_kind parts in
  let digest := sha256 body in
  let cannotRead error :=
    _ ← write (λ at_, Store.mkLine name at_ Store.unreadable 400 None (Some digest) None (Some (JObj [member "error" error]))) None;
    Ret (refusal 400 (js "the " ++ k_id kind ++ js " kind cannot read the delivery: " ++ error)) in
  match k_read kind verified with
  | Throw error => cannotRead error
  | Ok (Handshake a) =>
      _ ← write (λ at_, Store.mkLine name at_ Store.handshake 200 None None None None) None;
      Ret (mkHookAnswer 200 (a_body a) None)
  | Ok (Delivered d) =>
      let id := d_id d in
      let key := d_key d in
      if bool_decide (id = []) || bool_decide (key = []) then cannotRead (js "the kind gave no delivery id or no event key")
      else
        let go payload :=
          claimed ← ask (Claim name id digest);
          match claimed with
          | None =>
              let outcome := mkOutcome id true [] [] 0 [] None in
              _ ← write (λ at_, Store.mkLine name at_ Store.seen 200 (Some id) (Some digest) (Some key) (Some (outcomeJson outcome))) None;
              answerOf name kind d outcome 200 None None
          | Some n => fanIn name parts d digest payload n
          end in
        match schemaFor kind key with
        | None => go None
        | Some schema =>
            match safeParse schema (d_payload d) with
            | inr payload => go (Some payload)
            | inl issues =>
                let outcome := mkOutcome id false [] [] 0 [] (Some (k_id kind, key, issues)) in
                _ ← write (λ at_, Store.mkLine name at_ Store.payload_refused 200 (Some id) (Some digest) (Some key)
                                    (Some (outcomeJson outcome))) None;
                answerOf name kind d outcome 200 None None
            end
        end
  end.

Definition deliver (name : jstr) (headers : Headers) (source : HookBody) : Prog HookAnswer :=
  hooks ← ask Hooks;
  match hooks with
  | None =>
      Ret (refusal 503 (js "the Orchestrator has no current Assembly, so no Hook is declared now " ++ [0x2014] ++ js " ask again"))
  | Some hooks =>
      match objGet name hooks with
      | None => Ret (refusal 404 (js "no Hook named " ++ quoted name ++ js " in the current Assembly's config"))
      | Some parts =>
          body ← match source with Bytes b => Ret (Some b) | Reader => ask (ReadBody HOOK_BODY_MAX) end;
          let tooLarge :=
            _ ← write (λ at_, Store.mkLine name at_ Store.too_large 413 None None None
                                (Some (JObj [(js "limit", JNum HOOK_BODY_MAX)]))) None;
            Ret (refusal 413 (js "the delivery's body is larger than " ++ of_int HOOK_BODY_MAX ++ js " bytes, the most the door reads")) in
          match body with
          | None => tooLarge
          | Some bytes =>
              if HOOK_BODY_MAX <? Z.of_nat (length bytes) then tooLarge
              else
                verified ← verify parts headers bytes;
                match verified with
                | inr refused => Ret refused
                | inl req => deliverRead name parts bytes req
                end
          end
      end
  end.

End Deliver.

(** [log]: the Hook, whether the config declares it, and its lines. *)
Definition log (hooks : option (obj HookParts)) (db : Store.Store) (name : jstr) (limit : Z) :
    result Store.Fault (jstr * bool * list Store.HookLogLine) :=
  lines ← Store.hookLog name limit db;
  Ok (name, match hooks with Some h => bool_decide (is_Some (objGet name h)) | None => false end, lines).

End Door.

(** ** Deliveries over one hook log *)

Module HookLog.
Import Program HookKinds Door.

Record Request := mkSent { q_name : jstr; q_headers : Headers; q_body : HookBody }.

(** The store, and what is left of each delivery. *)
Record World := mkWorld { w_db : Store.Store; w_deliveries : list (Request * Prog HookAnswer) }.

(** A delivery starts, asks for one operation (the store's clock then), or
    starts its follow-up; the store does something else; the process ends. *)
Inductive Label :=
| LStart (q : Request)
| LAsked (i : nat) (e : Event) (now : jstr)
| LAfter (i : nat)
| LStore (o : Store.Op)
| LCrash.

(** What the hook log answers; each call may fail and change nothing.  The other
    operations answer what they like. *)
Inductive answers (now : jstr) (db : Store.Store) : ∀ o : Op, result jstr (reply o) → Store.Store → Prop :=
| answers_claim h dl dg :
    answers now db (Claim h dl dg) (Ok (Store.claimHookDelivery h dl dg now db).1) (Store.claimHookDelivery h dl dg now db).2
| answers_write l claimed : answers now db (WriteLine l claimed) (Ok tt) (Store.writeHookLine l claimed db)
| answers_fault o e : answers now db o (Throw e) db
| answers_other o r :
    match o with Claim _ _ _ | WriteLine _ _ => False | _ => True end → answers now db o r db.

(** The store's calls that are not the door's. *)
Definition notDoors (o : Store.Op) : Prop := match o with Store.OClaim _ _ _ _ | Store.OHookLine _ _ => False | _ => True end.

Definition gone : HookAnswer := mkHookAnswer 0 Json.JNull None.

Section Steps.
Context (hasMac hasPost : bool) (sha256 : list Z → jstr) (ed25519 : jstr → list Z → list Z → option bool)
        (safeParse : Schema → Json.json → list Issue + Json.json).

Inductive step : World → Label → World → Prop :=
| step_start db ds q :
    step (mkWorld db ds) (LStart q)
      (mkWorld db (ds ++ [(q, deliver hasMac hasPost sha256 ed25519 safeParse (q_name q) (q_headers q) (q_body q))]))
| step_asked db ds i q o k r now db' :
    ds !! i = Some (q, Call o k) → answers now db o r db' →
    step (mkWorld db ds) (LAsked i (mkEvent o r) now) (mkWorld db' (<[i := (q, k r)]> ds))
| step_after db ds i q a p :
    ds !! i = Some (q, Ret a) → ha_after a = Some p →
    step (mkWorld db ds) (LAfter i) (mkWorld db (<[i := (q, attempt p (λ _, Ret gone))]> ds))
| step_store db ds o : notDoors o → step (mkWorld db ds) (LStore o) (mkWorld (Store.exec db o) ds)
| step_crash db ds : step (mkWorld db ds) LCrash (mkWorld db ((λ d, (d.1, Ret gone)) <$> ds)).

Inductive runs : World → list Label → World → Prop :=
| runs_nil w : runs w [] w
| runs_snoc w ls w1 lb w2 : runs w ls w1 → step w1 lb w2 → runs w (ls ++ [lb]) w2.
End Steps.

(** What one delivery asked for. *)
Definition eventsOf (i : nat) (ls : list Label) : list Event :=
  omap (λ lb, match lb with LAsked j e _ => if (j =? i)%nat then Some e else None | _ => None end) ls.

End HookLog.
