(* ===== verification/HooksProofs.v ===== *)
(** * The Hook's door: proofs about [Hooks]

    What reaches the hook log, the Gates and the follow-up comes from a request
    that the Hook's verifier took; of the deliveries of a Hook that share an id
    or a body, a second one is claimed only after the first gave its claim
    back; and the text that a person reads keeps to its limit. *)

From Stdlib Require Import Lia ZArith.
From stdpp Require Import base list strings sets.
From S2P Require Import Prelude JsString Json JsObject Utf8 Sql Edit Keep Notices Delivery Store StoreProofs RunList Tokens Program Http Hooks.

Open Scope Z_scope.

Module HooksProofs.
Import Program Json JsObject HookKinds Kinds Door HookLog.

Section Access.
Context (hasMac hasPost : bool) (sha256 : list Z → jstr) (ed25519 : jstr → list Z → list Z → option bool)
        (safeParse : Schema → json → list Issue + json).
Abbreviation deliver_ := (deliver hasMac hasPost sha256 ed25519 safeParse).

(** ** What each operation needs *)

Section Allowed.
Context (name : jstr) (headers : Headers) (source : HookBody).

(** The config declared the Hook when the door read it. *)
Definition declared (tr : list Event) (parts : HookParts) : Prop :=
  ∃ hooks, seen tr Hooks (Some hooks) ∧ objGet name hooks = Some parts.

(** The body, which is within the limit. *)
Definition bodyIs (tr : list Event) (body : list Z) : Prop :=
  match source with Bytes b => b = body | Reader => seen tr (ReadBody HOOK_BODY_MAX) (Some body) end
  ∧ Z.of_nat (length body) <= HOOK_BODY_MAX.

(** The signature of what the service signed is the Hook's, and its time is near. *)
Definition signedWell (tr : list Event) (signedOf : SignedOf) (req : HookRequest) (good : list Z → list Z → Prop) : Prop :=
  ∃ signed signature, signedOf req = Ok (inl signed) ∧ signatureBytes signed = Some signature
    ∧ (∀ t, s_at signed = Some t → ∃ now, seen tr Now now ∧ inWindow now t = true)
    ∧ good (signedBytes signed) signature.

Definition secretOf (c : HookCredential) : jstr := match c with CSecret s => s | CPublicKey _ => [] end.

(** The verifier took the request [req]. *)
Definition verified (tr : list Event) (parts : HookParts) (body : list Z) (req : HookRequest) : Prop :=
  match k_verify (p_kind parts) with
  | VToken h =>
      req = hookRequest headers body (Some h)
      ∧ ∃ secret digests sent digest, p_credential parts = CSecret secret ∧ seen tr Digests digests
          ∧ objGet secret digests = Some digest ∧ headersGet h headers = Some sent ∧ sameHex (sha256 (encode sent)) digest = true
          ∧ objGet (lowerCase h) (rq_headers req) = None
  | VMac alg signedOf =>
      req = hookRequest headers body None
      ∧ signedWell tr signedOf req (λ bytes sig, seen tr (Mac (mkMac (secretOf (p_credential parts)) alg bytes sig)) true)
  | VEd25519 signedOf =>
      req = hookRequest headers body None
      ∧ signedWell tr signedOf req (λ bytes sig, ∃ key, p_credential parts = CPublicKey key ∧ ed25519 key bytes sig = Some true)
  end.

(** The request came from the service of the Hook. *)
Definition heard (tr : list Event) (parts : HookParts) (body : list Z) (req : HookRequest) : Prop :=
  declared tr parts ∧ bodyIs tr body ∧ verified tr parts body req.

(** The kind read it as a delivery. *)
Definition readAs (parts : HookParts) (req : HookRequest) (d : Delivery) : Prop :=
  k_read (p_kind parts) req = Ok (Delivered d) ∧ d_id d ≠ [] ∧ d_key d ≠ [].

(** What a handler gets of the payload: the schema's output. *)
Definition parsedAs (parts : HookParts) (d : Delivery) (payload : option json) : Prop :=
  match schemaFor (p_kind parts) (d_key d) with
  | None => payload = None
  | Some schema => ∃ v, payload = Some v ∧ safeParse schema (d_payload d) = inr v
  end.

(** The delivery that claimed [n]. *)
Definition claims (tr : list Event) (parts : HookParts) (d : Delivery) (payload : option json) (digest : jstr) (n : Z) : Prop :=
  (∃ body req, heard tr parts body req ∧ readAs parts req d ∧ digest = sha256 body) ∧ parsedAs parts d payload
  ∧ seen tr (Claim name (d_id d) digest) (Some n).

Definition noClaim (tr : list Event) : Prop := ∀ h dl dg r, mkEvent (Claim h dl dg) r ∉ tr.
Definition noFanIn (tr : list Event) : Prop := ∀ d r, mkEvent (DeliverHook d) r ∉ tr.

Definition inOf (parts : HookParts) (d : Delivery) (payload : json) (x : HookIn) : Prop :=
  in_hook x = name ∧ in_kind x = k_id (p_kind parts) ∧ in_key x = d_key d ∧ in_delivery x = d_id d ∧ in_payload x = payload
  ∧ (∀ w, in_may x w = match p_may parts with MayAll => true | MayNames l => existsb (λ n, RunList.nameOpens n w) l end)
  ∧ Tokens.r_via (in_caller x) = Tokens.hook ∧ Tokens.r_name (in_caller x) = name
  ∧ Tokens.r_onBehalfOf (in_caller x) =
      match d_onBehalfOf d with Some ((_ :: _) as by_) => Some (take (Z.to_nat Http.ON_BEHALF_OF_MAX) by_) | _ => None end
  ∧ in_person x = byPerson (p_kind parts) d.

(** A line that finishes the claim [n]: its kind and its status are the fan-in's. *)
Definition finishes (tr : list Event) (l : Store.HookLogLine) (n : Z) : Prop :=
  ∃ parts d payload digest fan, claims tr parts d payload digest n
    ∧ match payload with Some _ => ∃ x, seen tr (DeliverHook x) fan | None => fan = NOTHING end
    ∧ (Store.kind l, Store.line_status l) = fanEnd fan
    ∧ Store.hook l = name ∧ Store.delivery l = Some (d_id d) ∧ Store.digest l = Some digest.

Definition allowed (tr : list Event) (o : Op) : Prop :=
  match o with
  | Hooks | ReadBody _ | Digests | Now | NowText => True
  | Mac c => ∃ parts body, declared tr parts ∧ bodyIs tr body ∧ m_secret c = secretOf (p_credential parts)
  | Claim h dl dg =>
      h = name ∧ noClaim tr ∧ ∃ parts body req d, heard tr parts body req ∧ readAs parts req d ∧ dl = d_id d ∧ dg = sha256 body
  | DeliverHook x =>
      noFanIn tr ∧ ∃ parts d payload digest n, claims tr parts d (Some payload) digest n ∧ inOf parts d payload x
  | WriteLine l (Some n) => finishes tr l n
  | WriteLine l None =>
      Store.hook l = name
      ∧ match Store.kind l with
        | Store.pending | Store.delivered | Store.hold_full | Store.no_live_run => False
        | Store.too_large => True
        | Store.seen => ∃ dl dg, Store.delivery l = Some dl ∧ Store.digest l = Some dg ∧ seen tr (Claim name dl dg) None
        | _ => ∃ parts body req, heard tr parts body req
        end
  | Post url _ =>
      ∃ parts body req, heard tr parts body req ∧ ∃ prefix, prefix ∈ k_posts (p_kind parts) ∧ Edit.startsWith prefix url = true
  end.

(** What a delivery ends with: a follow-up that is allowed too. *)
Definition endOk (r : result jstr HookAnswer) (tr : list Event) : Prop :=
  match r with
  | Ok a => match ha_after a with Some p => wp allowed p tr anyEnd | None => True end
  | Throw _ => True
  end.
End Allowed.

Lemma objGet_deleted {V} k (o : obj V) : objGet k (objDel k o) = None.
Proof.
  destruct (objGet k (objDel k o)) eqn:E; [|done]. assert (k ∈ (objDel k o).*1) as H by (apply objGet_is_Some; eauto).
  apply list_elem_of_fmap in H as (kv & -> & H). apply list_elem_of_filter in H as [H _]. done.
Qed.

(** ** Traces that grow *)

(** Neither a claim nor a fan-in. *)
Definition quiet (new : list Event) : Prop :=
  Forall (λ e, match asked e with Claim _ _ _ | DeliverHook _ => False | _ => True end) new.

Lemma noClaim_quiet tr new : noClaim tr → quiet new → noClaim (tr ++ new).
Proof. intros H1 H2 h dl dg r [H|H]%elem_of_app; [by eapply H1|]. unfold quiet in H2. rewrite Forall_forall in H2. by apply H2 in H. Qed.

Lemma noFanIn_quiet tr new : noFanIn tr → quiet new → noFanIn (tr ++ new).
Proof. intros H1 H2 d r [H|H]%elem_of_app; [by eapply H1|]. unfold quiet in H2. rewrite Forall_forall in H2. by apply H2 in H. Qed.

Section Growing.
Context (name : jstr) (headers : Headers) (source : HookBody).
Abbreviation heard_ := (heard name headers source).
Abbreviation claims_ := (claims name headers source).

Lemma declared_app tr new parts : declared name tr parts → declared name (tr ++ new) parts.
Proof. intros (hooks & H & E). exists hooks. split; [by apply seen_app|done]. Qed.

Lemma bodyIs_app tr new body : bodyIs source tr body → bodyIs source (tr ++ new) body.
Proof. intros [H1 H2]. split; [|done]. destruct source; [done|by apply seen_app]. Qed.

Lemma signedWell_app tr new signedOf req (good good' : list Z → list Z → Prop) :
  (∀ b s, good b s → good' b s) → signedWell tr signedOf req good → signedWell (tr ++ new) signedOf req good'.
Proof.
  intros Hg (signed & sig & H1 & H2 & H3 & H4). exists signed, sig. repeat split; [done..| |by apply Hg].
  intros t Ht. destruct (H3 t Ht) as (now & Hn & Hw). exists now. split; [by apply seen_app|done].
Qed.

Lemma verified_app tr new parts body req : verified headers tr parts body req → verified headers (tr ++ new) parts body req.
Proof.
  unfold verified. destruct (k_verify _) as [alg sg|sg|h].
  - intros [E H]. split; [done|]. eapply signedWell_app; [|exact H]. intros b s. apply seen_app.
  - intros [E H]. split; [done|]. eapply signedWell_app; [|exact H]. auto.
  - intros (E & secret & digests & sent & digest & H1 & H2 & H3). split; [done|].
    exists secret, digests, sent, digest. repeat split; [done| |by destruct_and! H3..]. by apply seen_app.
Qed.

Lemma heard_app tr new parts body req : heard_ tr parts body req → heard_ (tr ++ new) parts body req.
Proof. intros (H1 & H2 & H3). split; [by apply declared_app|]. split; [by apply bodyIs_app|by apply verified_app]. Qed.

Lemma claims_app tr new parts d payload digest n : claims_ tr parts d payload digest n → claims_ (tr ++ new) parts d payload digest n.
Proof.
  intros ((body & req & H1 & H2 & H3) & H4 & H5). split; [|split; [done|by apply seen_app]].
  exists body, req. split; [by apply heard_app|done].
Qed.
End Growing.

(** ** The door, piece by piece *)

Section Pieces.
Context (name : jstr) (headers : Headers) (source : HookBody).
Abbreviation heard_ := (heard name headers source).
Abbreviation claims_ := (claims name headers source).
Abbreviation allowed_ := (allowed name headers source).
Abbreviation endOk_ := (endOk name headers source).

Lemma wp_write l claimed tr Q :
  (∀ t, allowed_ (tr ++ [mkEvent NowText (Ok t)]) (WriteLine (l t) claimed)) → (∀ new, quiet new → Q (Ok ()) (tr ++ new)) →
  wp allowed_ (write l claimed) tr Q.
Proof.
  intros Ha HQ. unfold write. apply wp_attempt. repeat wp_step; try done; cbn [wp]; rewrite <- ?app_assoc; apply HQ; repeat constructor.
Qed.

Lemma follow_up_ok kind d post v tr Q parts body req :
  kind = p_kind parts → heard_ tr parts body req → existsb (λ prefix, Edit.startsWith prefix post) (k_posts kind) = true →
  (∀ new r, Q r (tr ++ new)) →
  let fail error := write (λ at_, Store.mkLine name at_ Store.follow_up 0 (Some (d_id d)) None (Some (d_key d))
                      (Some (JObj [member "post" post; member "error" error]))) None in
  wp allowed_ (if negb hasPost then fail (js "no Instance Effector, so the door cannot post a follow-up (ADR-0068)")
               else attempt (ask (Post post v)) (λ r, match r with Ok _ => Ret () | Throw e => fail e end)) tr Q.
Proof.
  intros -> Hh Hp HQ fail.
  assert (∀ error new, wp allowed_ (fail error) (tr ++ new) Q) as Hf.
  { intros error new. apply wp_write; [|intros; rewrite <- app_assoc; apply HQ].
    intros t. split; [done|]. exists parts, body, req. rewrite <- app_assoc. by apply heard_app. }
  destruct hasPost; simpl negb; cbv iota; [|rewrite <- (app_nil_r tr); apply Hf].
  repeat wp_step.
  - exists parts, body, req. split; [done|]. apply existsb_exists in Hp as (prefix & Hin & Hs). exists prefix. by rewrite list_elem_of_In.
  - apply HQ.
  - apply Hf.
Qed.

Lemma answerOf_ok d o status replies waiting tr parts body req :
  heard_ tr parts body req → wp allowed_ (answerOf hasPost name (p_kind parts) d o status replies waiting) tr endOk_.
Proof.
  intros Hh. unfold answerOf. destruct (if byPerson _ _ then _ else _) as [answer|]; [|exact I].
  destruct (answer _ d) as [[b [[post v]|]]|e]; [|exact I..].
  destruct (existsb _ (k_posts _)) eqn:Hp; simpl negb; cbv iota.
  - simpl. eapply follow_up_ok; eauto. done.
  - apply wp_bind, wp_write; [|done]. intros t. split; [done|]. exists parts, body, req. by apply heard_app.
Qed.

Lemma hookCaller_may may w :
  Tokens.callerMay (hookCaller name may) Tokens.answer w
  = match may with MayAll => true | MayNames l => existsb (λ n, RunList.nameOpens n w) l end.
Proof.
  unfold Tokens.callerMay, hookCaller. simpl. destruct may as [|l]; [done|]. unfold RunList.grantOpens.
  induction l as [|n l IH]; [done|]. cbn [existsb]. rewrite <- IH. done.
Qed.

Lemma fanIn_ok parts d digest payload n tr :
  claims_ tr parts d payload digest n → noFanIn tr → wp allowed_ (fanIn hasPost name parts d digest payload n) tr endOk_.
Proof.
  intros Hc Hn. pose proof Hc as ((body & req & Hh & _) & _).
  assert (∀ fan new, match payload with Some _ => ∃ x, seen (tr ++ new) (DeliverHook x) fan | None => fan = NOTHING end →
    wp allowed_ (let outcome := outcomeOf (d_id d) fan in
      let '(line, status) := fanEnd fan in
      _ ← write (λ at_, Store.mkLine name at_ line status (Some (d_id d)) (Some digest) (Some (d_key d)) (Some (detailOf outcome fan)))
            (Some n);
      answerOf hasPost name (p_kind parts) d outcome status (fi_replies fan) (if status =? 503 then fi_waiting fan else None))
      (tr ++ new) endOk_) as Hrest.
  { intros fan new Hfan. cbv zeta. destruct (fanEnd fan) as [line status] eqn:Ef. apply wp_bind, wp_write.
    - intros t. rewrite <- app_assoc. exists parts, d, payload, digest, fan. split; [by apply claims_app|]. split; [|by rewrite Ef].
      destruct payload; [|done]. destruct Hfan as [x Hx]. exists x. rewrite app_assoc. by apply seen_app.
    - intros new' _. rewrite <- app_assoc. eapply answerOf_ok. by apply heard_app. }
  unfold fanIn. cbv zeta. apply wp_bind. destruct payload as [p|].
  - wp_step; [|intros; cbn [allowed]..].
    + split; [done|]. exists parts, d, p, digest, n. split; [done|]. repeat split. intros w. apply hookCaller_may.
    + apply Hrest. eexists. apply seen_snoc.
    + exact I.
  - cbn [wp]. rewrite <- (app_nil_r tr). by apply Hrest.
Qed.

(** A line that claims nothing. *)
Lemma plain_line_ok l tr Q (a : Prog HookAnswer) parts body req :
  heard_ tr parts body req → (∀ t, Store.hook (l t) = name ∧ Store.kind (l t) ∈ [Store.unreadable; Store.handshake; Store.payload_refused]) →
  (∀ new, quiet new → wp allowed_ a (tr ++ new) Q) → wp allowed_ (_ ← write l None; a) tr Q.
Proof.
  intros Hh Hl Ha. apply wp_bind, wp_write; [|done]. intros t. destruct (Hl t) as [H1 H2]. split; [done|].
  assert (∃ parts body req, heard_ (tr ++ [mkEvent NowText (Ok t)]) parts body req) as He
    by (exists parts, body, req; by apply heard_app).
  rewrite !elem_of_cons in H2. destruct H2 as [-> |[-> |[-> |H2]]]; [done..|]. by apply elem_of_nil in H2.
Qed.

Lemma deliverRead_ok parts body req tr :
  heard_ tr parts body req → noClaim tr → noFanIn tr → wp allowed_ (deliverRead hasPost sha256 safeParse name parts body req) tr endOk_.
Proof.
  intros Hh Hnc Hnf. unfold deliverRead. cbv zeta.
  assert (∀ (l : jstr → Store.HookLogLine) a, (∀ t, Store.hook (l t) = name ∧ Store.kind (l t) ∈ [Store.unreadable; Store.handshake; Store.payload_refused]) →
    ha_after a = None → wp allowed_ (_ ← write l None; Ret a) tr endOk_) as Hend.
  { intros l a Hl Ea. eapply plain_line_ok; [done|done|]. intros new _. cbn [wp]. unfold endOk. by rewrite Ea. }
  destruct (k_read _ req) as [[a|d]|error] eqn:Er; [apply Hend; [split; [done|set_solver]|done]| |apply Hend; [split; [done|set_solver]|done]].
  destruct (bool_decide (d_id d = []) || bool_decide (d_key d = [])) eqn:En; [apply Hend; [split; [done|set_solver]|done]|].
  apply orb_false_iff in En as [Ei%bool_decide_eq_false Ek%bool_decide_eq_false].
  assert (∀ payload, parsedAs parts d payload → wp allowed_ (
    claimed ← ask (Claim name (d_id d) (sha256 body));
    match claimed with
    | None =>
        _ ← write (λ at_, Store.mkLine name at_ Store.seen 200 (Some (d_id d)) (Some (sha256 body)) (Some (d_key d))
                    (Some (outcomeJson (mkOutcome (d_id d) true [] [] 0 [] None)))) None;
        answerOf hasPost name (p_kind parts) d (mkOutcome (d_id d) true [] [] 0 [] None) 200 None None
    | Some n => fanIn hasPost name parts d (sha256 body) payload n
    end) tr endOk_) as Hgo.
  { intros payload Hp. apply wp_bind. wp_step.
    - split; [done|]. split; [done|]. by exists parts, body, req, d.
    - match goal with r : reply _ |- _ => destruct r as [n|] end.
      + apply fanIn_ok.
        * split; [|split; [done|apply seen_snoc]]. exists body, req. split; [by apply heard_app|done].
        * intros x r' [H|H%list_elem_of_singleton]%elem_of_app; [by eapply Hnf|discriminate].
      + apply wp_bind, wp_write.
        * intros t. split; [done|]. exists (d_id d), (sha256 body). split; [done|]. split; [done|]. apply seen_app, seen_snoc.
        * intros new _. eapply answerOf_ok. by do 2 apply heard_app.
    - exact I. }
  destruct (schemaFor _ _) as [schema|] eqn:Es; [|apply Hgo; unfold parsedAs; by rewrite Es].
  destruct (safeParse schema _) as [issues|v] eqn:Ev; [|apply Hgo; unfold parsedAs; rewrite Es; by exists v].
  eapply plain_line_ok; [done|split; [done|set_solver]|]. intros new _. eapply answerOf_ok. by apply heard_app.
Qed.

(** What the verifier leaves: the request it took, or an answer with no follow-up. *)
Definition verifyEnd (parts : HookParts) (body : list Z) (tr : list Event) (r : result jstr (HookRequest + HookAnswer)) (tr' : list Event) : Prop :=
  ∃ new, tr' = tr ++ new ∧ quiet new
    ∧ match r with Ok (inl req) => verified headers tr' parts body req | Ok (inr a) => ha_after a = None | Throw _ => True end.

Lemma verifyEnd_refuses parts body tr new a : quiet new → ha_after a = None → verifyEnd parts body tr (Ok (inr a)) (tr ++ new).
Proof. by exists new. Qed.

(** The signature is the Hook's. *)
Definition goodSignature (tr : list Event) (parts : HookParts) (bytes sig : list Z) : Prop :=
  match k_verify (p_kind parts) with
  | VMac alg _ => seen tr (Mac (mkMac (secretOf (p_credential parts)) alg bytes sig)) true
  | VEd25519 _ => ∃ key, p_credential parts = CPublicKey key ∧ ed25519 key bytes sig = Some true
  | VToken _ => True
  end.

(** Nothing was asked. *)
Ltac stay := exists []; rewrite app_nil_r; split; [done|]; split; [by constructor|].

(** The last operation neither claims nor fans in. *)
Ltac asked_one := eexists; split; [done|]; split; [by repeat constructor|].

Lemma checkSignature_ok parts bytes sig body tr :
  declared name tr parts → bodyIs source tr body →
  wp allowed_ (checkSignature hasMac ed25519 parts bytes sig) tr (λ r tr', ∃ new, tr' = tr ++ new ∧ quiet new
    ∧ match r with Ok None => goodSignature tr' parts bytes sig | Ok (Some a) => ha_after a = None | Throw _ => True end).
Proof.
  intros Hd Hb. unfold checkSignature, goodSignature. destruct (k_verify _) as [alg sg|sg|h].
  - destruct hasMac; simpl negb; cbv iota; [|by stay].
    repeat wp_step.
    + by exists parts, body.
    + asked_one.
      match goal with r : reply _ |- _ => destruct r end; [apply seen_snoc|done].
    + by asked_one.
  - destruct (p_credential parts) as [s|key]; stay; [done|].
    destruct (ed25519 key bytes sig) as [[]|] eqn:E; simpl; [by eauto|done..].
  - by stay.
Qed.

Lemma verifySigned_ok parts signedOf body tr :
  match k_verify (p_kind parts) with VMac _ s | VEd25519 s => s = signedOf | VToken _ => False end →
  declared name tr parts → bodyIs source tr body →
  wp allowed_ (verifySigned hasMac ed25519 parts signedOf (hookRequest headers body None)) tr (verifyEnd parts body tr).
Proof.
  intros Hs Hd Hb. unfold verifySigned.
  assert (∀ a, ha_after a = None → verifyEnd parts body tr (Ok (inr a)) tr) as Hno.
  { intros a Ha. rewrite <- (app_nil_r tr) at 2. by apply verifyEnd_refuses; [constructor|]. }
  destruct (signedOf _) as [[signed|why]|why] eqn:Eo; [|by apply Hno..]. apply wp_bind.
  apply (wp_mono _ _ _ (λ r tr', ∃ new, tr' = tr ++ new ∧ quiet new
    ∧ (r = Ok true → ∀ t, s_at signed = Some t → ∃ now, seen tr' Now now ∧ inWindow now t = true))).
  - intros [timely|e] tr' (new & -> & Hq & Ht); [|by exists new].
    destruct timely; simpl negb; cbv iota; [|by apply verifyEnd_refuses].
    destruct (signatureBytes signed) as [sig|] eqn:Eg; [|by apply verifyEnd_refuses]. apply wp_bind.
    eapply wp_mono; [|by apply (checkSignature_ok _ _ _ body); [apply declared_app|apply bodyIs_app]].
    intros [[a|]|e] tr' (new' & -> & Hq' & Hr); cbn [wp]; rewrite <- app_assoc; eexists;
      (split; [done|]; split; [by apply Forall_app|]); [done| |done].
    rewrite app_assoc.
    assert (∀ good, good (signedBytes signed) sig → signedWell ((tr ++ new) ++ new') signedOf (hookRequest headers body None) good) as Hw.
    { intros good Hgood. exists signed, sig. repeat split; [done..| |done]. intros t Et. destruct (Ht eq_refl t Et) as (now & Hn & Hi).
      exists now. split; [by apply seen_app|done]. }
    unfold verified, goodSignature in *. destruct (k_verify _) as [alg sg|sg|h]; [subst sg..|done]; (split; [done|]); by apply Hw.
  - destruct (s_at signed) as [t|].
    + repeat wp_step; [exact I| |by asked_one].
      cbn [wp]. asked_one. intros [= Ew] t' [= <-]. eexists. split; [apply seen_snoc|done].
    + by stay.
Qed.

Lemma verify_ok parts body tr :
  declared name tr parts → bodyIs source tr body → wp allowed_ (verify hasMac sha256 ed25519 parts headers body) tr (verifyEnd parts body tr).
Proof.
  intros Hd Hb. unfold verify. destruct (k_verify (p_kind parts)) as [alg sg|sg|h] eqn:Ev;
    [apply verifySigned_ok; [by rewrite Ev|done..]|apply verifySigned_ok; [by rewrite Ev|done..]|].
  cbv zeta. apply wp_bind. destruct (p_credential parts) as [secret|key] eqn:Ec.
  - apply wp_bind. wp_step; [exact I| |by asked_one].
    cbn [wp]. destruct (headersGet h headers) as [sent|] eqn:Eh; [|apply verifyEnd_refuses; [by repeat constructor|done]].
    match goal with r : reply _ |- _ => destruct (objGet secret r) as [digest|] eqn:Eo end;
      [|apply verifyEnd_refuses; [by repeat constructor|done]].
    destruct (sameHex _ _) eqn:Es; cbn [wp]; [|apply verifyEnd_refuses; [by repeat constructor|done]].
    asked_one. unfold verified. rewrite Ev. split; [done|].
    eexists secret, _, sent, digest. split; [done|]. split; [apply seen_snoc|]. repeat split; [done..|]. apply objGet_deleted.
  - cbn [wp]. destruct (headersGet h headers); by stay.
Qed.

(** Every operation of a delivery is allowed. *)
Lemma deliver_ok : wp allowed_ (deliver_ name headers source) [] endOk_.
Proof.
  unfold deliver. apply wp_bind. wp_step; [exact I| |exact I].
  match goal with r : reply _ |- _ => destruct r as [hooks|] end; [|exact I].
  destruct (objGet name hooks) as [parts|] eqn:Ep; [|exact I]. apply wp_bind.
  set (tr := [] ++ _). assert (declared name tr parts) as Hd by (exists hooks; split; [unfold tr; apply seen_snoc|done]).
  assert (quiet tr) as Hq by (unfold tr; by repeat constructor). clearbody tr.
  cbv zeta. set (tooLarge := mbind _ (write _ _)).
  assert (∀ tr, wp allowed_ tooLarge tr endOk_) as Hlarge by (intros tr'; by apply wp_bind, wp_write).
  assert (∀ bytes new, quiet new → bodyIs source (tr ++ new) bytes →
    wp allowed_ (verified ← verify hasMac sha256 ed25519 parts headers bytes;
                 match verified with inr refused => Ret refused | inl req => deliverRead hasPost sha256 safeParse name parts bytes req end)
      (tr ++ new) endOk_) as Hgo.
  { intros bytes new Hn Hb. apply wp_bind. eapply wp_mono; [|apply verify_ok; [by apply declared_app|done]].
    intros [[req|a]|e] tr' (new' & -> & Hq' & Hr); [|cbn [wp]; unfold endOk; by rewrite Hr|exact I].
    assert (quiet ((tr ++ new) ++ new')) as Hall by (by apply Forall_app; split; [apply Forall_app|]).
    apply deliverRead_ok; [split; [by do 2 apply declared_app|split; [by apply bodyIs_app|done]]|..].
    - rewrite <- (app_nil_l (_ ++ new')). apply noClaim_quiet; [intros h dl dg r H; by apply elem_of_nil in H|done].
    - rewrite <- (app_nil_l (_ ++ new')). apply noFanIn_quiet; [intros x r H; by apply elem_of_nil in H|done]. }
  destruct source as [b|] eqn:Esrc.
  - cbn [wp]. destruct (HOOK_BODY_MAX <? Z.of_nat (length b)) eqn:El; [apply Hlarge|]. zbool.
    rewrite <- (app_nil_r tr). apply Hgo; [constructor|done].
  - wp_step; [exact I| |exact I]. match goal with r : reply _ |- _ => destruct r as [b|] end; [|apply Hlarge].
    destruct (HOOK_BODY_MAX <? Z.of_nat (length b)) eqn:El; [apply Hlarge|]. zbool.
    apply Hgo; [by repeat constructor|]. split; [apply seen_snoc|done].
Qed.

End Pieces.


(** ** Many deliveries *)

Abbreviation runs_ := (runs hasMac hasPost sha256 ed25519 safeParse).
Abbreviation step_ := (step hasMac hasPost sha256 ed25519 safeParse).

Definition allowedFor (q : Request) := allowed (q_name q) (q_headers q) (q_body q).

(** What is left of each delivery is still allowed, after what it asked for. *)
Definition restOk (ls : list Label) (w : World) : Prop :=
  ∀ i, match w_deliveries w !! i with
       | Some (q, p) => wp (allowedFor q) p (eventsOf i ls) (endOk (q_name q) (q_headers q) (q_body q))
       | None => eventsOf i ls = []
       end.

Lemma eventsOf_app i l1 l2 : eventsOf i (l1 ++ l2) = eventsOf i l1 ++ eventsOf i l2.
Proof. apply omap_app. Qed.

Lemma eventsOf_asked i e now : eventsOf i [LAsked i e now] = [e].
Proof. unfold eventsOf. simpl. by rewrite Nat.eqb_refl. Qed.

Lemma eventsOf_other i j e now : j ≠ i → eventsOf i [LAsked j e now] = [].
Proof. intros H. unfold eventsOf. simpl. by rewrite (proj2 (Nat.eqb_neq j i)). Qed.

Lemma eventsOf_none i ls lb : match lb with LAsked _ _ _ => False | _ => True end → eventsOf i ls ++ eventsOf i [lb] = eventsOf i ls.
Proof. intros H. destruct lb; try done; apply app_nil_r. Qed.

Lemma restOk_step ls w lb w' : restOk ls w → step_ w lb w' → restOk (ls ++ [lb]) w'.
Proof.
  intros H Hs i. rewrite eventsOf_app. specialize (H i) as Hi. destruct Hs as [db ds q|db ds j q o k r now db' Hj Ha|db ds j q a p Hj Hp|db ds o Ho|db ds];
    cbn [w_deliveries] in *.
  - rewrite eventsOf_none by done. destruct (decide (i < length ds)%nat) as [Hl|Hl].
    + by rewrite lookup_app_l by done.
    + rewrite lookup_app_r by lia. rewrite (lookup_ge_None_2 ds i) in Hi by lia. rewrite Hi.
      destruct (i - length ds)%nat as [|n]; [apply deliver_ok|done].
  - destruct (decide (j = i)) as [->|Hn].
    + rewrite Hj in Hi. rewrite eventsOf_asked. rewrite list_lookup_insert_eq by (by eapply lookup_lt_Some). apply Hi.
    + by rewrite eventsOf_other, app_nil_r, list_lookup_insert_ne.
  - rewrite eventsOf_none by done. destruct (decide (j = i)) as [->|Hn]; [|by rewrite list_lookup_insert_ne].
    rewrite Hj in Hi. rewrite list_lookup_insert_eq by (by eapply lookup_lt_Some). cbn [wp] in Hi. unfold endOk in Hi. rewrite Hp in Hi.
    apply wp_attempt. eapply wp_mono; [|exact Hi]. done.
  - by rewrite eventsOf_none.
  - rewrite eventsOf_none, list_lookup_fmap by done. by destruct (ds !! i) as [[q p]|].
Qed.

Lemma restOk_runs db ls w : runs_ (mkWorld db []) ls w → restOk ls w.
Proof.
  remember (mkWorld db []) as w0 eqn:E. induction 1 as [w|w ls w1 lb w2 H IH Hs]; subst.
  - intros i. done.
  - eapply restOk_step; [by apply IH|done].
Qed.

Lemma runs_join w l1 w1 l2 w2 : runs_ w l1 w1 → runs_ w1 l2 w2 → runs_ w (l1 ++ l2) w2.
Proof.
  intros H1 H2. induction H2 as [w1|w1 ls wa lb wb H IH Hs]; [by rewrite app_nil_r|]. rewrite app_assoc. econstructor; [by apply IH|done].
Qed.

Lemma runs_split w l1 l2 w' : runs_ w (l1 ++ l2) w' → ∃ w1, runs_ w l1 w1 ∧ runs_ w1 l2 w'.
Proof.
  revert w'. induction l2 as [|lb l2 IH] using rev_ind; intros w'.
  - rewrite app_nil_r. intros H. exists w'. split; [done|constructor].
  - rewrite app_assoc. intros H. remember ((l1 ++ l2) ++ [lb]) as ls eqn:E. destruct H as [w|w ls w1 lb' w2' Hr Hs]; [by destruct (l1 ++ l2)|].
    apply app_inj_tail in E as [-> ->]. destruct (IH _ Hr) as (w2 & H1 & H2). exists w2. split; [done|by econstructor].
Qed.

(** What a delivery asked for was allowed then. *)
Lemma runs_allowed db pre i e now post w :
  runs_ (mkWorld db []) (pre ++ LAsked i e now :: post) w → ∃ q, allowedFor q (eventsOf i pre) (asked e).
Proof.
  intros (w1 & Hp & Hr)%runs_split. apply restOk_runs in Hp. change (LAsked i e now :: post) with ([LAsked i e now] ++ post) in Hr.
  apply runs_split in Hr as (w2 & Hs & _). remember [LAsked i e now] as ls eqn:E. destruct Hs as [|w' ls w1' lb w2' Hn Hs]; [done|].
  destruct ls as [|? ls]; [|by destruct ls]. simpl in E. injection E as ->. remember [] as nil eqn:En. destruct Hn; [|by destruct ls].
  inversion Hs as [|? ds ? q o k r ? db' Hi Ha| | |]; subst. specialize (Hp i). simpl in Hp. rewrite Hi in Hp. exists q. apply Hp.
Qed.

(** *** Ids *)

Abbreviation seqOf w := (Store.hookSeq (w_db w)).

Lemma init_hookSeq now db : Store.hookSeq (Store.init now db) = Store.hookSeq db.
Proof.
  assert (∀ c db, Store.hookSeq (Store.addColumn c db) = Store.hookSeq db) as Ha by (intros c d; unfold Store.addColumn; by case_bool_decide).
  rewrite StoreProofs.init_parts, Ha. simpl. rewrite !Ha. unfold StoreProofs.dispatchPart. case_bool_decide; simpl; by rewrite !Ha.
Qed.

Lemma seq_other db o : notDoors o → Store.hookSeq (Store.exec db o) = Store.hookSeq db.
Proof.
  destruct o; simpl; try done; intros _.
  - unfold Store.sweep. by case_bool_decide.
  - apply init_hookSeq.
Qed.

Lemma seq_write l c db : Store.hookSeq db <= Store.hookSeq (Store.writeHookLine l c db).
Proof. unfold Store.writeHookLine. destruct c; simpl; lia. Qed.

(** The id that a step claimed. *)
Definition claimedId (lb : Label) : option Z :=
  match lb with
  | LAsked _ (mkEvent o r) _ =>
      match o return result jstr (reply o) → option Z with
      | Claim _ _ _ => λ r, match r with Ok n => n | Throw _ => None end
      | _ => λ _, None
      end r
  | _ => None
  end.

Abbreviation claimOf n lb := (claimedId lb = Some n).

(** A claim's id is new. *)
Lemma seq_step w lb w' : step_ w lb w' → seqOf w <= seqOf w' ∧ ∀ n, claimOf n lb → seqOf w < n <= seqOf w'.
Proof.
  destruct 1 as [db ds q|db ds j q o k r now db' Hj Ha|db ds j q a p Hj Hp|db ds o Ho|db ds]; cbn [w_db]; try by split; [lia|].
  - destruct Ha as [h dl dg|l c|o e|o r Ho].
    + unfold Store.claimHookDelivery. destruct (existsb _ _) eqn:E; simpl; (split; [lia|]); intros n En; [done|]. injection En as <-. lia.
    + split; [apply seq_write|done].
    + split; [lia|]. by destruct o.
    + split; [lia|]. by destruct o.
  - rewrite seq_other by done. by split; [lia|].
Qed.

Lemma seq_runs w ls w' : runs_ w ls w' → seqOf w <= seqOf w' ∧ ∀ n lb, lb ∈ ls → claimOf n lb → seqOf w < n <= seqOf w'.
Proof.
  induction 1 as [w|w ls w1 lb w2 H [IH1 IH2] Hs]; [split; [lia|]; intros n lb Hin; by apply elem_of_nil in Hin|].
  apply seq_step in Hs as [H1 H2]. split; [lia|]. intros n lb' [Hin|Hin%list_elem_of_singleton]%elem_of_app Hc.
  - specialize (IH2 n lb' Hin Hc). lia.
  - subst. specialize (H2 n Hc). lia.
Qed.

(** An id is claimed once. *)
Lemma claim_unique w l0 lb l1 w' n lb' :
  runs_ w (l0 ++ lb :: l1) w' → claimOf n lb → claimOf n lb' → lb' ∈ l0 ++ lb :: l1 → lb' = lb.
Proof.
  intros (w1 & H0 & H1)%runs_split Hn Hn' Hin. change (lb :: l1) with ([lb] ++ l1) in H1. apply runs_split in H1 as (w2 & Hs & H1).
  apply seq_runs in H0 as [_ H0], H1 as [_ H1], Hs as [_ Hs]. specialize (Hs n lb ltac:(set_solver) Hn).
  apply elem_of_app in Hin as [Hin|[->|Hin]%elem_of_cons]; [|done|].
  - specialize (H0 n lb' Hin Hn'). lia.
  - specialize (H1 n lb' Hin Hn'). lia.
Qed.

(** *** Claims *)

(** A sweep is not past the claim's time. *)
Definition notSwept (now : jstr) (lb : Label) : Prop :=
  match lb with LStore (Store.OSweep t) => Sql.textLt now t = false | _ => True end.

#[local] Existing Instance Store.HookKind_eq_dec.

Definition released (n : Z) (ls : list Label) : Prop :=
  ∃ k l t, LAsked k (mkEvent (WriteLine l (Some n)) (Ok ())) t ∈ ls ∧ Store.kind l ∉ Store.CLAIMED_KINDS.

Abbreviation claimed h dl dg now n w := (Exists (StoreProofs.claimLine h dl dg now n) (Store.hook_log (w_db w))).

Lemma claimed_step h dl dg now n w lb w' :
  step_ w lb w' → notSwept now lb → claimed h dl dg now n w → claimed h dl dg now n w' ∨ released n [lb].
Proof.
  intros Hs Hn Hc. destruct Hs as [db ds q|db ds j q o k r t db' Hj Ha|db ds j q a p Hj Hp|db ds o Ho|db ds]; cbn [w_db] in *; try by left.
  - destruct Ha as [h' dl' dg'|l c|o e|o r Ho]; try by left.
    + left. by apply (StoreProofs.claim_kept _ _ _ _ _ db (Store.OClaim h' dl' dg' t)).
    + destruct c as [m|]; [|left; by apply (StoreProofs.claim_kept _ _ _ _ _ db (Store.OHookLine l None))].
      destruct (decide (m = n)) as [->|Hm]; [destruct (decide (Store.kind l ∈ Store.CLAIMED_KINDS)) as [Hk|Hk]|].
      * left. apply (StoreProofs.claim_kept _ _ _ _ _ db (Store.OHookLine l (Some n))); [by intros _|done].
      * right. exists j, l, t. split; [set_solver|done].
      * left. apply (StoreProofs.claim_kept _ _ _ _ _ db (Store.OHookLine l (Some m))); [by intros ->|done].
  - left. apply (StoreProofs.claim_kept _ _ _ _ _ db o); [|done]. by destruct o.
Qed.

Lemma claimed_runs h dl dg now n w ls w' :
  runs_ w ls w' → Forall (notSwept now) ls → claimed h dl dg now n w → claimed h dl dg now n w' ∨ released n ls.
Proof.
  induction 1 as [w|w ls w1 lb w2 H IH Hs]; [by left|]. intros [HF Hlb%(proj1 (Forall_singleton _ _))]%Forall_app Hc.
  destruct (IH HF Hc) as [Hc'|(k & l & t & Hin & Hk)].
  - destruct (claimed_step _ _ _ _ _ _ _ _ Hs Hlb Hc') as [?|(k & l & t & Hin & Hk)]; [by left|]. right. exists k, l, t. set_solver.
  - right. exists k, l, t. set_solver.
Qed.

Lemma step_answers w lb w' :
  step_ w lb w' → match lb with LAsked _ e now => answers now (w_db w) (asked e) (answered e) (w_db w') | _ => True end.
Proof. by destruct 1. Qed.

Lemma answers_claims now db o r db' :
  answers now db o r db' →
  match o return result jstr (reply o) → Prop with
  | Claim h dl dg => λ r, ∀ n, r = Ok (Some n) →
      (Store.claimHookDelivery h dl dg now db).1 = Some n ∧ db' = (Store.claimHookDelivery h dl dg now db).2
  | _ => λ _, True
  end r.
Proof. destruct 1 as [h dl dg| |o e|o r Ho]; [|done|by destruct o..]. intros n [= E]. done. Qed.

Lemma step_claims w i h dl dg n now w' :
  step_ w (LAsked i (mkEvent (Claim h dl dg) (Ok (Some n))) now) w' →
  (Store.claimHookDelivery h dl dg now (w_db w)).1 = Some n ∧ w_db w' = (Store.claimHookDelivery h dl dg now (w_db w)).2.
Proof. intros Hs%step_answers%answers_claims. by apply Hs. Qed.

Lemma claim_row h dl dg now db n :
  (Store.claimHookDelivery h dl dg now db).1 = Some n →
  Exists (StoreProofs.claimLine h dl dg now n) (Store.hook_log (Store.claimHookDelivery h dl dg now db).2).
Proof.
  unfold Store.claimHookDelivery. destruct (existsb _ _); [done|]. simpl. intros [= <-]. rewrite Exists_app. right.
  constructor. repeat split. simpl. left.
Qed.

Lemma runs_cons w lb ls w' : runs_ w (lb :: ls) w' → ∃ w1, step_ w lb w1 ∧ runs_ w1 ls w'.
Proof.
  change (lb :: ls) with ([lb] ++ ls). intros (w1 & Hs & Hr)%runs_split. exists w1. split; [|done].
  remember [lb] as l eqn:E. destruct Hs as [|w0 l1 w2 lb' w3 Hn Hs]; [done|].
  destruct l1 as [|? l1]; [|by destruct l1]. injection E as ->. remember [] as nil eqn:En. destruct Hn; [done|by destruct ls0].
Qed.

Lemma eventsOf_elem i ls e : e ∈ eventsOf i ls → ∃ now, LAsked i e now ∈ ls.
Proof.
  unfold eventsOf. intros (lb & Hin & Hl)%list_elem_of_omap. destruct lb as [|j e' now| | |]; try done.
  destruct (j =? i)%nat eqn:E; [|done]. injection Hl as ->. apply Nat.eqb_eq in E as ->. by exists now.
Qed.

Lemma fanEnd_counts fan : (fanEnd fan).1 ∈ Store.CLAIMED_KINDS ∨ (fanEnd fan = (Store.no_live_run, 503) ∧ ∃ x l, fi_waiting fan = Some (x :: l))
  ∨ (fanEnd fan = (Store.hold_full, 429) ∧ Forall (λ s, sl_verdict s = hold_full) (fi_sources fan)).
Proof.
  unfold fanEnd. destruct (fi_waiting fan) as [[|x l]|]; [|right; left; split; [done|by exists x, l]|];
    (destruct (_ && _) eqn:E; [|left; simpl; unfold Store.CLAIMED_KINDS; set_solver]);
    right; right; (split; [done|]); apply andb_true_iff in E as [_ E]; apply Forall_forall; intros s Hs;
    rewrite forallb_forall in E; apply (bool_decide_eq_true_1 _), E; by apply list_elem_of_In.
Qed.

(** C6: Of the deliveries of one Hook that share an id or a body, a second one
    reaches the fan-in only after the first gave its claim back: however the
    deliveries interleave, whatever fails, and through any end of the process,
    a later claim with the id or the digest of an earlier one means that the
    earlier delivery was fanned in, that a Pool had no live run or every Source
    was full, and that its line says so (503, 429). A sweep past the claim's
    time, which is the log's retention, is the one exception. *)
Theorem fan_in_once db w l0 i h dl dg n now l1 j dl' dg' m now' l2 :
  runs_ (mkWorld db [])
    (l0 ++ LAsked i (mkEvent (Claim h dl dg) (Ok (Some n))) now :: l1 ++ LAsked j (mkEvent (Claim h dl' dg') (Ok (Some m))) now' :: l2) w →
  dl' = dl ∨ dg' = dg → Forall (notSwept now) l1 →
  ∃ l t (fan : HookFanIn) x,
    LAsked i (mkEvent (WriteLine l (Some n)) (Ok ())) t ∈ l1
    ∧ (mkEvent (DeliverHook x) (Ok fan) : Event) ∈ eventsOf i (l0 ++ LAsked i (mkEvent (Claim h dl dg) (Ok (Some n))) now :: l1)
    ∧ ((Store.kind l, Store.line_status l) = (Store.no_live_run, 503) ∧ (∃ p ps, fi_waiting fan = Some (p :: ps))
       ∨ (Store.kind l, Store.line_status l) = (Store.hold_full, 429) ∧ Forall (λ s, sl_verdict s = hold_full) (fi_sources fan)).
Proof.
  intros Hr Hsame Hsw. set (c1 := LAsked i _ now) in *. set (c2 := LAsked j _ now') in *.
  pose proof Hr as (w1 & H0 & (w2 & Hs1 & (w3 & H1 & Hr2)%runs_split)%runs_cons)%runs_split.
  apply runs_cons in Hr2 as (w4 & Hs2 & _). apply step_claims in Hs1 as [Hc1 E1], Hs2 as [Hc2 _].
  assert (released n l1) as (k & l & t & Hin & Hk).
  { destruct (claimed_runs h dl dg now n w2 l1 w3 H1 Hsw) as [Hc|]; [rewrite E1; by apply claim_row| |done].
    exfalso. by rewrite (StoreProofs.claim_refused _ _ _ _ _ _ Hc) in Hc2. }
  apply list_elem_of_split in Hin as (p1 & p2 & ->).
  replace (l0 ++ c1 :: (p1 ++ LAsked k (mkEvent (WriteLine l (Some n)) (Ok ())) t :: p2) ++ c2 :: l2)
    with ((l0 ++ c1 :: p1) ++ LAsked k (mkEvent (WriteLine l (Some n)) (Ok ())) t :: p2 ++ c2 :: l2) in Hr
    by (rewrite <- ?app_assoc; simpl; by rewrite <- ?app_assoc).
  destruct (runs_allowed _ _ _ _ _ _ _ Hr) as (q & Hq). destruct Hq as (parts & d & payload & digest & fan & Hcl & Hfan & Ef & _).
  destruct Hcl as (_ & _ & Hseen). apply eventsOf_elem in Hseen as (t' & Hin).
  assert (LAsked k (mkEvent (Claim (q_name q) (d_id d) digest) (Ok (Some n))) t' = c1) as Ek.
  { eapply (claim_unique _ l0 c1); [|done|done|]; [rewrite <- app_assoc in Hr; exact Hr|]. simpl. set_solver. }
  injection Ek as -> _ _. exists l, t, fan.
  assert (∃ x, (mkEvent (DeliverHook x) (Ok fan) : Event) ∈ eventsOf i (l0 ++ c1 :: p1)) as [x Hx].
  { destruct payload; [done|]. subst fan. exfalso. apply Hk. injection Ef as -> _. simpl. set_solver. }
  exists x. split; [set_solver|]. split.
  - replace (l0 ++ c1 :: p1 ++ _) with ((l0 ++ c1 :: p1) ++ LAsked i (mkEvent (WriteLine l (Some n)) (Ok ())) t :: p2) by (by rewrite <- app_assoc).
    rewrite eventsOf_app. set_solver.
  - destruct (fanEnd_counts fan) as [Hf|[[Hf Hw]|[Hf Hw]]]; rewrite <- Ef in Hf; [done|by left|by right].
Qed.

(** *** A copy's own line *)

Lemma step_writes w i l now w' :
  step_ w (LAsked i (mkEvent (WriteLine l None) (Ok ())) now) w' → w_db w' = Store.writeHookLine l None (w_db w).
Proof.
  intros Hs%step_answers. simpl in Hs.
  assert (∀ now db o r db', answers now db o r db' → match o return result jstr (reply o) → Prop with
    | WriteLine l c => λ r, r = Ok () → db' = Store.writeHookLine l c db | _ => λ _, True end r) as Ha.
  { destruct 1 as [| |o e|o r Ho]; [done|done|by destruct o..]. }
  by apply (Ha _ _ _ _ _ Hs).
Qed.

(** Who finishes a claim made it before. *)
Lemma finish_claimed db ls w k l n r t :
  runs_ (mkWorld db []) ls w → LAsked k (mkEvent (WriteLine l (Some n)) r) t ∈ ls → ∃ lb, lb ∈ ls ∧ claimOf n lb.
Proof.
  intros Hr (p1 & p2 & ->)%list_elem_of_split.
  destruct (runs_allowed _ _ _ _ _ _ _ Hr) as (q & parts & d & payload & digest & fan & (_ & _ & Hseen) & _).
  apply eventsOf_elem in Hseen as (t' & Hin). exists (LAsked k (mkEvent (Claim (q_name q) (d_id d) digest) (Ok (Some n))) t').
  split; [set_solver|done].
Qed.

(** A copy that was answered [seen] claims too. After the line of a copy,
    no delivery with its id or its body is heard again within the log's
    retention: also where the copy came while the first delivery was pending,
    and the first then gave its claim back for a 429 or a 503 so that the
    service's next send would be heard. *)
Theorem seen_copy_claims db w l0 j l t l1 i h dl dg dl' dg' r now l2 :
  runs_ (mkWorld db []) (l0 ++ LAsked j (mkEvent (WriteLine l None) (Ok ())) t :: l1 ++ LAsked i (mkEvent (Claim h dl' dg') (Ok r)) now :: l2) w →
  Store.kind l = Store.seen → Store.hook l = h → Store.delivery l = Some dl → Store.digest l = Some dg →
  dl' = dl ∨ dg' = dg → Forall (notSwept (Store.at_ l)) l1 → r = None.
Proof.
  intros Hr Hk Hh Hdl Hdg Hsame Hsw. destruct r as [m|]; [exfalso|done].
  set (c := LAsked j _ t) in *. set (ci := LAsked i _ now) in *.
  pose proof Hr as (w1 & H0 & (w2 & Hs1 & (w3 & H1 & Hr2)%runs_split)%runs_cons)%runs_split.
  apply runs_cons in Hr2 as (w4 & Hs2 & _). apply step_claims in Hs2 as [Hc2 _]. apply step_writes in Hs1 as E1.
  set (n := seqOf w1 + 1).
  assert (claimed h dl dg (Store.at_ l) n w2) as Hc.
  { rewrite E1. simpl. rewrite Exists_app. right. constructor. repeat split; simpl; try done. rewrite Hk. do 2 right. left. }
  destruct (claimed_runs h dl dg (Store.at_ l) n w2 l1 w3 H1 Hsw Hc) as [Hc'|(k & l' & t' & Hin & _)].
  - by rewrite (StoreProofs.claim_refused _ _ _ _ _ _ Hc') in Hc2.
  - assert (runs_ (mkWorld db []) (l0 ++ c :: l1) w3) as Hr3.
    { eapply runs_join; [done|]. change (c :: l1) with ([c] ++ l1). eapply runs_join; [|done]. eapply (runs_snoc _ _ _ _ _ _ []); [constructor|done]. }
    assert (LAsked k (mkEvent (WriteLine l' (Some n)) (Ok ())) t' ∈ l0 ++ c :: l1) as Hin' by set_solver.
    destruct (finish_claimed _ _ _ _ _ _ _ _ Hr3 Hin') as (lb & Hlb & Hn).
    apply seq_runs in H0 as [_ H0], H1 as [_ H1]. rewrite E1 in H1. simpl in H1.
    apply elem_of_app in Hlb as [Hlb|[->|Hlb]%elem_of_cons]; [|done|].
    + specialize (H0 n lb Hlb Hn). unfold n in H0. lia.
    + specialize (H1 n lb Hlb Hn). unfold n in H1. lia.
Qed.

End Access.

(** ** The text that a person reads *)

Lemma codePoints_pair c d s : is_high c && is_low d = true → codePoints (c :: d :: s) = [c; d] :: codePoints s.
Proof. intros H. cbn [codePoints]. by rewrite H. Qed.

Lemma codePoints_single c s : match head s with Some d => is_high c && is_low d = false | None => True end → codePoints (c :: s) = [c] :: codePoints s.
Proof. destruct s as [|d s]; [done|]. simpl head. intros H. cbn [codePoints]. by rewrite H. Qed.

Lemma codePoints_head d s n : ∃ p ps, take (S n) (codePoints (d :: s)) = (d :: p) :: ps.
Proof. destruct s as [|e s]; [by exists [], []; destruct n|]. cbn [codePoints]. destruct (is_high d && is_low e); simpl; eauto. Qed.

(** The first points of a text, with an ellipsis after them, are points. *)
Lemma codePoints_cut s n e : is_low e = false → codePoints (concat (take n (codePoints s)) ++ [e]) = take n (codePoints s) ++ [[e]].
Proof.
  intros He. revert n. induction s as [|c|c d s H IH|c d s H IH] using utf16_ind; intros [|n]; try done.
  - rewrite codePoints_single by done. destruct n; simpl; by rewrite He, andb_false_r.
  - rewrite codePoints_pair by done. simpl take. rewrite concat_cons, <- app_assoc. cbn [app].
    rewrite codePoints_pair by done. by rewrite IH.
  - rewrite codePoints_single by done. rewrite firstn_cons, concat_cons, <- app_assoc. cbn [app].
    rewrite codePoints_single; [by rewrite IH|]. destruct n as [|n]; [simpl; by rewrite He, andb_false_r|].
    destruct (codePoints_head d s n) as (p & ps & ->). done.
Qed.

(** The text that a person reads keeps to the kind's limit, and no character
    of it is cut in two: a text of at most [m] code points is whole, and a
    longer one is its first [m - 1] code points and an ellipsis. *)
Theorem person_text_fits s m :
  0 < m →
  Z.of_nat (length (codePoints (cutText s (Some m)))) <= m
  ∧ (Z.of_nat (length (codePoints s)) <= m → cutText s (Some m) = s)
  ∧ (m < Z.of_nat (length (codePoints s)) →
     codePoints (cutText s (Some m)) = take (Z.to_nat (m - 1)) (codePoints s) ++ [[0x2026]]).
Proof.
  intros Hm. unfold cutText. destruct (Z.of_nat (length (codePoints s)) <=? m) eqn:E; zbool; [split; [done|]; split; [done|]; lia|].
  rewrite Z.max_r by lia. rewrite codePoints_cut by done. split; [|split; [lia|done]]. rewrite length_app, length_take. simpl. lia.
Qed.

Lemma person_text_fits_witness :
  Z.of_nat (length (codePoints (cutText [0xd83d; 0xde00; 97; 98; 99] (Some 2)))) <= 2
  ∧ cutText [0xd83d; 0xde00; 97; 98; 99] (Some 2) = [0xd83d; 0xde00; 0x2026].
Proof. split; [exact (proj1 (person_text_fits [0xd83d; 0xde00; 97; 98; 99] 2 ltac:(lia)))|vm_compute; reflexivity]. Defined.

(** The escape of a text that fits Slack's limit may be longer than it. *)
Example slack_escape_is_longer :
  let text := cutText (replicate 4000 38) (k_maxText (slack Json.parse)) in
  Z.of_nat (length (codePoints text)) = 4000 ∧ Z.of_nat (length (codePoints (slackEscape text))) = 20000.
Proof. split; vm_compute; reflexivity. Qed.

(** ** Runs that evaluate *)

Section Play.
Context (hasMac hasPost : bool) (sha256 : list Z → jstr) (ed25519 : jstr → list Z → list Z → option bool)
        (safeParse : Schema → json → list Issue + json).

(** A delivery starts, or its next operation gets the store's answer, or else
    the one given. *)
Inductive Choice := CStart (q : Request) | CAsk (i : nat) (now : jstr) (ans : ∀ o : Op, result jstr (reply o)).

Definition serve (now : jstr) (db : Store.Store) (ans : ∀ o, result jstr (reply o)) (o : Op) : result jstr (reply o) * Store.Store :=
  match o return result jstr (reply o) * Store.Store with
  | Claim h dl dg => (Ok (Store.claimHookDelivery h dl dg now db).1, (Store.claimHookDelivery h dl dg now db).2)
  | WriteLine l c => (Ok (), Store.writeHookLine l c db)
  | o => (ans o, db)
  end.

Lemma serve_answers now db ans o : answers now db o (serve now db ans o).1 (serve now db ans o).2.
Proof. destruct o; try (by apply answers_other); [apply answers_claim|apply answers_write]. Qed.

Fixpoint play (w : World) (cs : list Choice) : list Label * World :=
  match cs with
  | [] => ([], w)
  | c :: cs' =>
      let next :=
        match c with
        | CStart q => Some (LStart q, mkWorld (w_db w)
            (w_deliveries w ++ [(q, deliver hasMac hasPost sha256 ed25519 safeParse (q_name q) (q_headers q) (q_body q))]))
        | CAsk i now ans =>
            match w_deliveries w !! i with
            | Some (q, Call o k) =>
                let s := serve now (w_db w) ans o in
                Some (LAsked i (mkEvent o s.1) now, mkWorld s.2 (<[i := (q, k s.1)]> (w_deliveries w)))
            | _ => None
            end
        end in
      match next with
      | Some (lb, w') => let '(ls, w2) := play w' cs' in (lb :: ls, w2)
      | None => play w cs'
      end
  end.

Lemma play_runs w cs : runs hasMac hasPost sha256 ed25519 safeParse w (play w cs).1 (play w cs).2.
Proof.
  revert w. induction cs as [|c cs IH]; intros w; [constructor|]. cbn [play].
  assert (∀ lb w', step hasMac hasPost sha256 ed25519 safeParse w lb w' →
    runs hasMac hasPost sha256 ed25519 safeParse w (let '(ls, w2) := play w' cs in (lb :: ls, w2)).1 (let '(ls, w2) := play w' cs in (lb :: ls, w2)).2) as Hs.
  { intros lb w' Hstep. specialize (IH w'). destruct (play w' cs) as [ls w2]. simpl. change (lb :: ls) with ([lb] ++ ls).
    eapply runs_join; [|exact IH]. eapply (runs_snoc _ _ _ _ _ _ []); [constructor|done]. }
  destruct w as [db ds]. destruct c as [q|i now ans]; cbn [w_db w_deliveries].
  - apply Hs. constructor.
  - destruct (ds !! i) as [[q [a|e|o k]]|] eqn:Ei; [apply IH..| |apply IH]. apply Hs. econstructor; [done|apply serve_answers].
Qed.
End Play.

(** *** Deliveries of a GitLab Hook *)

Definition toyPayload : json :=
  JObj [(js "object_kind", JStr (js "pipeline")); (js "object_attributes", JObj [(js "status", JStr (js "success"))])].
Definition toyBody : list Z := encode (stringify toyPayload).
(** A parser of that body alone. *)
Definition toyParse (s : jstr) : option json := if bool_decide (s = stringify toyPayload) then Some toyPayload else None.
Definition toyHook : HookParts := mkParts (gitlab toyParse) (CSecret (js "GL")) MayAll.
Definition toyHeaders : Headers := [(js "x-gitlab-token", js "abc"); (js "idempotency-key", js "d1")].
Definition toySent : Request := mkSent (js "gl") toyHeaders (Bytes toyBody).

Definition fullSource : HookFanIn :=
  mkFanIn [] [] 0 [mkSource (js "r1") (js "plan") (js "source") hold_full (Some (js "k")) None None] None None.

Definition toyAnswers (fan : HookFanIn) (o : Op) : result jstr (reply o) :=
  match o return result jstr (reply o) with
  | Hooks => Ok (Some [(js "gl", toyHook)])
  | ReadBody _ => Ok None
  | Digests => Ok [(js "GL", js "abc")]
  | Now => Ok 0
  | NowText => Ok (js "2026-01-01T00:00:00.000Z")
  | Mac _ => Ok false
  | Claim _ _ _ => Ok None
  | WriteLine _ _ => Ok ()
  | DeliverHook _ => Ok fan
  | Post _ _ => Ok ()
  end.

Definition toyAsk (i : nat) : Choice := CAsk i (js "2026-01-01T00:00:00.000Z") (toyAnswers fullSource).
Definition toyPlay (cs : list Choice) : list Label * World :=
  play true true (λ b, b) (λ _ _ _, None) (λ _ v, inr v) (mkWorld Store.empty []) cs.

(** A delivery that every Source is too full for, and the service's next send. *)
Definition sentAgain : list Choice := CStart toySent :: replicate 6 (toyAsk 0) ++ CStart toySent :: replicate 3 (toyAsk 1).
(** A copy that comes while the first is pending, and the next send. *)
Definition sentTwice : list Choice :=
  CStart toySent :: replicate 3 (toyAsk 0) ++ CStart toySent :: replicate 5 (toyAsk 1) ++ replicate 3 (toyAsk 0)
  ++ CStart toySent :: replicate 3 (toyAsk 2).

Definition toyTime : jstr := js "2026-01-01T00:00:00.000Z".
Definition toyLabel (cs : list Choice) (i : nat) : Label := default LCrash ((toyPlay cs).1 !! i).

Definition noSweep (lb : Label) : bool := match lb with LStore _ => false | _ => true end.

Lemma noSweep_kept now ls : forallb noSweep ls = true → Forall (notSwept now) ls.
Proof. induction ls as [|lb ls IH]; constructor; simpl in *; [by destruct lb|by apply IH; destruct lb]. Qed.

(** The line that a step wrote. *)
Definition lineOf (lb : Label) : Store.HookLogLine :=
  match lb with
  | LAsked _ (mkEvent (WriteLine l _) _) _ => l
  | _ => Store.mkLine [] [] Store.pending 0 None None None None
  end.

Lemma toyPlay_runs cs ls :
  ls = (toyPlay cs).1 → runs true true (λ b, b) (λ _ _ _, None) (λ _ v, inr v) (mkWorld Store.empty []) ls (toyPlay cs).2.
Proof. intros ->. apply play_runs. Qed.


Lemma fan_in_once_witness :
  let ls := (toyPlay sentAgain).1 in
  ∃ l t (fan : HookFanIn) x,
    LAsked 0 (mkEvent (WriteLine l (Some 1)) (Ok ())) t ∈ take 6 (drop 4 ls)
    ∧ (mkEvent (DeliverHook x) (Ok fan) : Event) ∈ eventsOf 0
        (take 3 ls ++ LAsked 0 (mkEvent (Claim (js "gl") (js "d1") toyBody) (Ok (Some 1))) toyTime :: take 6 (drop 4 ls))
    ∧ ((Store.kind l, Store.line_status l) = (Store.no_live_run, 503) ∧ (∃ p ps, fi_waiting fan = Some (p :: ps))
       ∨ (Store.kind l, Store.line_status l) = (Store.hold_full, 429) ∧ Forall (λ s, sl_verdict s = hold_full) (fi_sources fan)).
Proof.
  intros ls.
  apply (fan_in_once true true (λ b, b) (λ _ _ _, None) (λ _ v, inr v) Store.empty (toyPlay sentAgain).2 (take 3 ls) 0 (js "gl")
           (js "d1") toyBody 1 toyTime (take 6 (drop 4 ls)) 1 (js "d1") toyBody 2 toyTime []); [|by left|].
  - refine (toyPlay_runs sentAgain _ _). vm_compute. reflexivity.
  - apply noSweep_kept. vm_compute. reflexivity.
Defined.

(** The copy's line is at 9, the first delivery gives its claim back at 12, and
    the next send asks at 16. *)
Lemma seen_copy_claims_witness :
  (Store.kind (lineOf (toyLabel sentTwice 12)), Store.line_status (lineOf (toyLabel sentTwice 12))) = (Store.hold_full, 429)
  ∧ claimedId (toyLabel sentTwice 16) = None.
Proof.
  split; [vm_compute; reflexivity|]. set (ls := (toyPlay sentTwice).1).
  apply (seen_copy_claims true true (λ b, b) (λ _ _ _, None) (λ _ v, inr v) Store.empty (toyPlay sentTwice).2 (take 9 ls) 1
           (lineOf (toyLabel sentTwice 9)) toyTime (take 6 (drop 10 ls)) 2 (js "gl") (js "d1") toyBody (js "d1") toyBody
           (claimedId (toyLabel sentTwice 16)) toyTime []);
    [|vm_compute; reflexivity..|by left|apply noSweep_kept; vm_compute; reflexivity].
  refine (toyPlay_runs sentTwice _ _). vm_compute. reflexivity.
Defined.

End HooksProofs.
