(* ===== verification/FanIn.v ===== *)
(** * The fan-in of a Hook's delivery

    [deliverHook] of [orchestrator/src/run-host.ts]: one delivery to the open
    Gates that hear it, and to the Sources of Pools, through their hand-overs.
    It is a [Program.Prog] over what it asks of the host: the registrations and
    the live runs may change wherever it asks, and an author's handler and reply
    are fields of the registration. *)

From Stdlib Require Import ZArith.
From stdpp Require Import base list strings.
From S2P Require Import Prelude JsString Json JsObject Notices Delivery Tokens Program Hooks.

Open Scope Z_scope.

Module FanIn.
Import Json JsObject HookKinds Door Program.

(** A live run and a registration are objects: [ident] is which one. *)
Record LiveRun := mkRun { r_ident : Z; r_runId : jstr; r_workflow : jstr }.

(** What a handler gives: nothing, or an event, or it throws. *)
Definition AnyHandler := json → Tokens.CallerRecord → result jstr (option json).

Inductive GateOutcome :=
| GDelivered (event : json) (run : jstr)
| GRefused (event : option json) (reason run : jstr).

(** What a [reply] gives: nothing, a value, or it throws. *)
Definition GateReply := GateOutcome → Tokens.CallerRecord → result jstr (option json).

Record Hooked := mkHooked { h_hooks : obj (obj AnyHandler); h_reply : option GateReply; h_delivers : list jstr }.

(** A verdict as the seat gives it: the line, and the carried item. *)
Record SourceHeard := mkHeard {
  hd_verdict : Verdict;
  hd_key : option jstr;
  hd_run : option jstr;
  hd_reason : option jstr;
  hd_item : option json;
}.

Record SourceSeat := mkSeat {
  ss_hears : jstr → jstr → bool;
  ss_reply : option (SourceHeard → Tokens.CallerRecord → result jstr (option json));
}.

Record Registration := mkReg {
  g_ident : Z;
  g_id : jstr;
  g_isGate : bool;
  g_hooked : option Hooked;
  g_source : option SourceSeat;
}.

(** A run's mark that a Gate did not take a delivery. *)
Record HookRefused := mkMark { k_hook : jstr; k_delivery : jstr; k_gate : jstr; k_event : option jstr; k_reason : jstr }.

Definition STANDING_HOPS : nat := 3.

(** *** What it asks of the host *)

Inductive Op :=
| Registered                                   (* the live runs and the registrations of each *)
| IsOpen (run : LiveRun) (reg : Registration)  (* the run is live, and its table holds this very registration *)
| IsLive (run : LiveRun)
| AnswersOf (run : LiveRun)                    (* the Gates and deliveries of the run's answers *)
| SendToGate (runId gate : jstr) (event : json) (by_ : Tokens.CallerRecord) (delivery : jstr)
| Feed (run : LiveRun) (mark : HookRefused)
| SourceAfter (run : LiveRun) (kind key : jstr)
| IsStanding (workflow : jstr)
| Hear (run : LiveRun) (reg : Registration) (d : HookIn)
| Persist (run : LiveRun)
| WithoutRun (kind key : jstr).                (* the standing Workflows that hear it and have no live run, and whether paused *)

Definition reply (o : Op) : Type :=
  match o with
  | Registered => list (LiveRun * list Registration)
  | IsOpen _ _ | IsLive _ | IsStanding _ => bool
  | AnswersOf _ => list (jstr * option jstr)
  | SendToGate _ _ _ _ _ | Feed _ _ | Persist _ => unit
  | SourceAfter _ _ _ => option (LiveRun * Registration)
  | Hear _ _ _ => SourceHeard
  | WithoutRun _ _ => list (jstr * option jstr)
  end.

Abbreviation Prog := (Program.Prog reply jstr).
Abbreviation Event := (Program.Event reply jstr).
Abbreviation World := (Program.World reply jstr).
Abbreviation ask := (Program.ask (reply := reply) (Thrown := jstr)).

Section Fan.
Context (d : HookIn).

(** *** Targets *)

Definition handlerOf (reg : Registration) : option AnyHandler :=
  g_hooked reg ≫= λ h, objGet (in_kind d) (h_hooks h) ≫= objGet (in_key d).

Definition hearsHere (reg : Registration) : bool :=
  match g_source reg with Some s => ss_hears s (in_kind d) (in_key d) | None => false end.

(** The runs that the Hook may answer, with their Gates. *)
Definition gatesOf (runs : list (LiveRun * list Registration)) : list (LiveRun * Registration) :=
  runs ≫= λ rr, if in_may d (r_workflow rr.1) then pair rr.1 <$> filter (λ g, g_isGate g = true) rr.2 else [].

Definition targetsOf (runs : list (LiveRun * list Registration)) : list (LiveRun * Registration * AnyHandler) :=
  omap (λ t, pair t <$> handlerOf t.2) (gatesOf runs).

Definition sourcesOf (runs : list (LiveRun * list Registration)) : list (LiveRun * Registration) :=
  filter (λ t, hearsHere t.2 = true) (gatesOf runs).

(** *** Replies *)

Definition typeOf (v : json) : string :=
  match v with JNull | JArr _ | JObj _ => "object" | JBool _ => "boolean" | JNum _ => "number" | JStr _ => "string" end.

Definition runReply (target : Target) (run : LiveRun) (gate : jstr) (skip : bool) (given : result jstr (option json)) : HookReply :=
  let place := mkReply target (r_workflow run) (r_runId run) gate in
  match given with
  | Throw e => place None skip (Some (js "its reply threw: " ++ e))
  | Ok None | Ok (Some (JStr [])) => place None skip None
  | Ok (Some (JStr s)) => place (Some s) skip None
  | Ok (Some v) => place None skip (Some (js "its reply gave " ++ js (typeOf v) ++ js ", not text"))
  end.

(** *** Gates *)

(** What one target adds. *)
Record Part := mkPart {
  pt_delivered : list DeliveredTo;
  pt_refused : list RefusedBy;
  pt_ignored : Z;
  pt_sources : list SourceLine;
  pt_handedOn : list jstr;
  pt_replies : list HookReply;
}.

Definition emptyPart : Part := mkPart [] [] 0 [] [] [].

Definition addPart (a b : Part) : Part :=
  mkPart (pt_delivered a ++ pt_delivered b) (pt_refused a ++ pt_refused b) (pt_ignored a + pt_ignored b)
    (pt_sources a ++ pt_sources b) (pt_handedOn a ++ pt_handedOn b) (pt_replies a ++ pt_replies b).

Definition gateReplies (run : LiveRun) (reg : Registration) (o : GateOutcome) : list HookReply :=
  match (if in_person d then g_hooked reg ≫= h_reply else None) with
  | Some f => [runReply gate run (g_id reg) false (f o (in_caller d))]
  | None => []
  end.

Definition refuse (run : LiveRun) (reg : Registration) (reason : jstr) (event : option jstr) (given : option json) : Prog Part :=
  _ ← ask (Feed run (mkMark (in_hook d) (in_delivery d) (g_id reg) event reason));
  Ret (mkPart [] [mkRefusedBy (r_runId run) (g_id reg) event reason] 0 [] []
         (gateReplies run reg (GRefused given reason (r_runId run)))).

Definition delivers (reg : Registration) : list jstr := match g_hooked reg with Some h => h_delivers h | None => [] end.

Definition toGate (run : LiveRun) (reg : Registration) (handler : AnyHandler) : Prog Part :=
  isOpen ← ask (IsOpen run reg);
  if negb isOpen then Ret emptyPart
  else
    answers ← ask (AnswersOf run);
    if existsb (λ a, bool_decide (a.2 = Some (in_delivery d)) && bool_decide (a.1 = g_id reg)) answers then Ret emptyPart
    else
      match handler (in_payload d) (in_caller d) with
      | Throw e => refuse run reg (js "its handler threw: " ++ e) None None
      | Ok None => Ret (mkPart [] [] 1 [] [] [])
      | Ok (Some event) =>
          match prop (js "type") event with
          | Some (JStr type) =>
              if bool_decide (type ∈ delivers reg) then
                attempt (ask (SendToGate (r_runId run) (g_id reg) event (in_caller d) (in_delivery d))) (λ r,
                  match r with
                  | Throw e => refuse run reg e (Some type) (Some event)
                  | Ok _ => Ret (mkPart [mkDeliveredTo (r_runId run) (r_workflow run) (g_id reg) type] [] 0 [] []
                                   (gateReplies run reg (GDelivered event (r_runId run))))
                  end)
              else
                refuse run reg (js "its handler gave " ++ quoted type ++ js ", which is not in the Gate's delivers ("
                                ++ join (js ", ") (delivers reg) ++ js ")") (Some type) None
          | _ =>
              refuse run reg (js "its handler gave no event type, which is not in the Gate's delivers ("
                              ++ join (js ", ") (delivers reg) ++ js ")") None None
          end
      end.

Fixpoint toGates (targets : list (LiveRun * Registration * AnyHandler)) : Prog Part :=
  match targets with
  | [] => Ret emptyPart
  | (run, reg, handler) :: rest => a ← toGate run reg handler; b ← toGates rest; Ret (addPart a b)
  end.

(** *** Sources *)

Definition lineOf (run : LiveRun) (reg : Registration) (h : SourceHeard) : SourceLine :=
  mkSource (r_runId run) (r_workflow run) (g_id reg) (hd_verdict h) (hd_key h) (hd_run h) (hd_reason h).

Definition sourceReplies (run : LiveRun) (reg : Registration) (h : SourceHeard) : list HookReply :=
  match (if in_person d then g_source reg ≫= ss_reply else None) with
  | Some f => [runReply source run (g_id reg) (bool_decide (hd_verdict h = skipped)) (f h (in_caller d))]
  | None => []
  end.

(** [for (let hops = 0; ; hops++)]; [None] is fuel that ran out. *)
Fixpoint toSource (fuel : nat) (hops : nat) (run : LiveRun) (reg : Registration) : Prog (option Part) :=
  match fuel with
  | O => Ret None
  | S fuel =>
      isOpen ← ask (IsOpen run reg);
      if negb isOpen then
        next ← ask (SourceAfter run (in_kind d) (in_key d));
        match next with
        | None => Ret (Some emptyPart)
        | Some (run', reg') =>
            if (STANDING_HOPS <=? hops)%nat then Ret (Some (mkPart [] [] 0 [] [r_workflow run] []))
            else toSource fuel (S hops) run' reg'
        end
      else
        h ← ask (Hear run reg d);
        ended ← (if bool_decide (hd_verdict h = skipped) then
                   isLive ← ask (IsLive run);
                   if negb isLive then ask (IsStanding (r_workflow run)) else Ret false
                 else Ret false);
        if (ended : bool) then toSource fuel (S hops) run reg
        else
          _ ← (if bool_decide (hd_verdict h = held) then
                 isLive ← ask (IsLive run);
                 if (isLive : bool) then ask (Persist run) else Ret ()
               else Ret ());
          Ret (Some (mkPart [] [] 0 [lineOf run reg h] [] (sourceReplies run reg h)))
  end.

(** A round for each hop, one that hears, and one that follows for the last time. *)
Definition ROUNDS : nat := STANDING_HOPS + 2.

Fixpoint toSources (sources : list (LiveRun * Registration)) : Prog Part :=
  match sources with
  | [] => Ret emptyPart
  | (run, reg) :: rest =>
      a ← toSource ROUNDS 0 run reg;
      b ← toSources rest;
      Ret (addPart (default emptyPart a) b)
  end.

Definition pausedLine (p : jstr * jstr) : SourceLine := mkSource p.2 p.1 (js "source") paused None None None.

Definition deliverHook : Prog HookFanIn :=
  runs ← ask Registered;
  gates ← toGates (targetsOf runs);
  sources ← toSources (sourcesOf runs);
  without ← ask (WithoutRun (in_kind d) (in_key d));
  let mine := filter (λ w, in_may d w.1 = true) without in
  let out := addPart gates sources in
  let waiting := Notices.uniq ((filter (λ w, w.2 = None) mine).*1 ++ pt_handedOn out) in
  Ret (mkFanIn (pt_delivered out) (pt_refused out) (pt_ignored out)
         (pt_sources out ++ omap (λ w, (λ head, pausedLine (w.1, head)) <$> w.2) mine)
         (match waiting with [] => None | _ => Some waiting end)
         (if in_person d then Some (pt_replies out) else None)).

End Fan.
End FanIn.
