(* ===== verification/FanInProofs.v ===== *)
(** * The fan-in of a Hook's delivery: proofs about [FanIn]

    A Gate gets a delivery at most once, while it is open and the Hook may
    answer its Workflow, and the outcome says what happened; following a Pool's
    hand-overs ends. *)

From Stdlib Require Import Lia ZArith.
From stdpp Require Import base list strings sets.
From S2P Require Import Prelude JsString Json JsObject Notices NoticesProofs Delivery Store Tokens Program Hooks FanIn.

Open Scope Z_scope.

Module FanInProofs.
Import Program Json JsObject HookKinds Door FanIn.

Section Fan.
Context (d : HookIn).

(** ** What each operation needs *)

(** The run's answers do not have this delivery at this Gate. *)
Definition notTaken (reg : Registration) (answers : list (jstr * option jstr)) : Prop := (g_id reg, Some (in_delivery d)) ∉ answers.

Definition allowed (tr : list Event) (o : Op) : Prop :=
  match o with
  | SendToGate runId gid event by_ delivery =>
      ∃ runs run reg handler answers pre type,
        seen tr Registered runs ∧ (run, reg, handler) ∈ targetsOf d runs ∧ in_may d (r_workflow run) = true ∧ g_isGate reg = true
        ∧ tr = pre ++ [mkEvent (IsOpen run reg) (Ok true); mkEvent (AnswersOf run) (Ok answers)] ∧ notTaken reg answers
        ∧ handler (in_payload d) (in_caller d) = Ok (Some event) ∧ prop (js "type") event = Some (JStr type) ∧ type ∈ delivers reg
        ∧ runId = r_runId run ∧ gid = g_id reg ∧ by_ = in_caller d ∧ delivery = in_delivery d
  | Hear run reg x => x = d ∧ last tr = Some (mkEvent (IsOpen run reg) (Ok true))
  | Persist run => ∃ pre reg h, tr = pre ++ [mkEvent (Hear run reg d) (Ok h); mkEvent (IsLive run) (Ok true)] ∧ hd_verdict h = held
  | _ => True
  end.

(** ** What the outcome says of it *)

(** A Gate that took the delivery, and one that did not. *)
Definition taken (e : Event) : option (jstr * jstr) :=
  match e with
  | mkEvent o r =>
      match o return result jstr (reply o) → option (jstr * jstr) with
      | SendToGate runId gid _ _ _ => λ r, match r with Ok _ => Some (runId, gid) | Throw _ => None end
      | _ => λ _, None
      end r
  end.

Definition marked (e : Event) : option (jstr * jstr) :=
  match asked e with Feed run mark => Some (r_runId run, k_gate mark) | _ => None end.

(** The Gates that got the delivery, and the Sources that were asked. *)
Definition sentTo (e : Event) : option (jstr * jstr) := match asked e with SendToGate runId gid _ _ _ => Some (runId, gid) | _ => None end.
Definition hearing (e : Event) : option (jstr * jstr) := match asked e with Hear run reg _ => Some (r_runId run, g_id reg) | _ => None end.

(** What a Source answered. *)
Definition heardOf (e : Event) : option (LiveRun * Registration * SourceHeard) :=
  match e with
  | mkEvent o r =>
      match o return result jstr (reply o) → option (LiveRun * Registration * SourceHeard) with
      | Hear run reg _ => λ r, match r with Ok h => Some (run, reg, h) | Throw _ => None end
      | _ => λ _, None
      end r
  end.

Definition deliveredTo (p : Part) : list (jstr * jstr) := (λ x, (dt_run x, dt_gate x)) <$> pt_delivered p.
Definition refusedBy (p : Part) : list (jstr * jstr) := (λ x, (rb_run x, rb_gate x)) <$> pt_refused p.

(** The outcome's lines are the operations. *)
Definition truly (p : Part) (new : list Event) : Prop := deliveredTo p = omap taken new ∧ refusedBy p = omap marked new.

Lemma truly_add p q new new' : truly p new → truly q new' → truly (addPart p q) (new ++ new').
Proof.
  intros [H1 H2] [H3 H4]. unfold truly, deliveredTo, refusedBy in *. simpl. by rewrite !fmap_app, !omap_app, H1, H2, H3, H4.
Qed.

(** ** Gates *)

Lemma refuse_truly run reg reason event given tr :
  reports allowed (refuse d run reg reason event given) tr (λ p new, truly p new ∧ omap sentTo new = [] ∧ omap hearing new = [] ∧ pt_sources p = []).
Proof. unfold refuse. report_step; [exact I|]. intros a. apply reports_ret. by repeat split. Qed.

Lemma targets_reached runs run reg handler :
  (run, reg, handler) ∈ targetsOf d runs → in_may d (r_workflow run) = true ∧ g_isGate reg = true ∧ handlerOf d reg = Some handler.
Proof.
  unfold targetsOf. intros ([run' reg'] & Hin & E)%list_elem_of_omap. simpl in E. destruct (handlerOf d reg') eqn:Eh; [|done]. injection E as -> -> ->.
  apply list_elem_of_bind in Hin as ([run' regs] & Hin & _). simpl in Hin. destruct (in_may d (r_workflow run')) eqn:Em; [|by apply elem_of_nil in Hin].
  apply list_elem_of_fmap in Hin as (g & [= -> ->] & Hg). by apply list_elem_of_filter in Hg as [Hg _].
Qed.

(** What a target adds: at most one send, to it. *)
Definition gateReport (run : LiveRun) (reg : Registration) (p : Part) (new : list Event) : Prop :=
  truly p new ∧ omap sentTo new `sublist_of` [(r_runId run, g_id reg)] ∧ omap hearing new = [] ∧ pt_sources p = [].

Lemma notTaken_exists reg answers :
  existsb (λ a, bool_decide (a.2 = Some (in_delivery d)) && bool_decide (a.1 = g_id reg)) answers = false → notTaken reg answers.
Proof.
  intros H Hin. assert (existsb (λ a : jstr * option jstr, bool_decide (a.2 = Some (in_delivery d)) && bool_decide (a.1 = g_id reg)) answers = true); [|congruence].
  apply existsb_exists. eexists. split; [by apply list_elem_of_In|]. simpl. by rewrite !bool_decide_eq_true_2.
Qed.

Lemma refuse_report run reg reason event given tr new0 :
  omap taken new0 = [] → omap marked new0 = [] → omap hearing new0 = [] → omap sentTo new0 `sublist_of` [(r_runId run, g_id reg)] →
  reports allowed (refuse d run reg reason event given) tr (λ p new, gateReport run reg p (new0 ++ new)).
Proof.
  intros H1 H2 H3 H4. eapply reports_mono; [|apply refuse_truly]. intros p new ([Ht Hm] & Hs & Hh & Hl). unfold gateReport, truly.
  rewrite !omap_app, H1, H2, H3, Hs, Hh, app_nil_r. by repeat split.
Qed.

Lemma toGate_report runs run reg handler tr :
  seen tr Registered runs → (run, reg, handler) ∈ targetsOf d runs → reports allowed (toGate d run reg handler) tr (gateReport run reg).
Proof.
  intros Hs Ht. destruct (targets_reached _ _ _ _ Ht) as (Hm & Hg & _). unfold toGate.
  assert (∀ p pre tr, omap taken pre = deliveredTo p → omap marked pre = refusedBy p → omap sentTo pre = [] → omap hearing pre = [] → pt_sources p = [] →
    reports allowed (Ret p) tr (λ b new, gateReport run reg b (pre ++ new))) as Hret.
  { intros p pre tr' H1 H2 H3 H4 H5. apply reports_ret. rewrite app_nil_r. repeat split; [done..| |done|done]. rewrite H3. apply sublist_nil_l. }
  report_step; [exact I|]. intros isOpen. destruct isOpen; simpl negb; cbv iota; [|by apply (Hret _ [_])].
  report_step; [exact I|]. intros answers. destruct (existsb _ answers) eqn:Ea; [by apply (Hret _ [_; _])|].
  apply notTaken_exists in Ea.
  assert (∀ reason event given tr, reports allowed (refuse d run reg reason event given) tr
    (λ b new, gateReport run reg b (mkEvent (IsOpen run reg) (Ok true) :: mkEvent (AnswersOf run) (Ok answers) :: new))) as Href.
  { intros reason event given tr'. apply (refuse_report _ _ _ _ _ _ [_; _]); try done. apply sublist_nil_l. }
  destruct (handler _ _) as [[event|]|e] eqn:Eh; [|by apply (Hret _ [_; _])|apply Href].
  destruct (prop (js "type") event) as [[| | |type| |]|] eqn:Et; try apply Href.
  destruct (bool_decide (type ∈ delivers reg)) eqn:Ed; [|apply Href]. apply bool_decide_eq_true in Ed.
  report_step.
  - exists runs, run, reg, handler, answers, tr, type. split; [by do 2 apply seen_app|]. by rewrite <- app_assoc.
  - intros [a|e].
    + apply reports_ret. split; [done|]. split; [done|done].
    + apply (refuse_report _ _ _ _ _ _ [_; _; _]); done.
Qed.

Lemma toGates_report runs targets tr :
  seen tr Registered runs → (∀ t, t ∈ targets → t ∈ targetsOf d runs) →
  reports allowed (toGates d targets) tr (λ p new,
    truly p new ∧ omap sentTo new `sublist_of` (λ t, (r_runId t.1.1, g_id t.1.2)) <$> targets ∧ omap hearing new = [] ∧ pt_sources p = []).
Proof.
  revert tr. induction targets as [|[[run reg] handler] targets IH]; intros tr Hs Ht; [by apply reports_ret|].
  cbn [toGates]. eapply reports_bind; [apply (toGate_report runs); [done|apply Ht; by left]|].
  intros p new (Hp & Hsent & Hh & Hl). eapply reports_bind; [apply IH; [by apply seen_app|intros t Hin; apply Ht; by right]|].
  intros q new' (Hq & Hsent' & Hh' & Hl'). apply reports_ret. rewrite !app_nil_r. split; [by apply truly_add|].
  simpl. rewrite !omap_app, Hh, Hh', Hl, Hl'. split; [|done]. by apply (sublist_app _ [_]).
Qed.

(** ** Sources *)

(** A verdict is in the outcome, but for a skip of a run that had ended. *)
Definition sourceReport (p : Part) (new : list Event) : Prop :=
  truly p new ∧ omap sentTo new = [] ∧ (length (pt_sources p) <= 1)%nat
  ∧ (∀ l, l ∈ pt_sources p → ∃ run reg h, seen new (Hear run reg d) h ∧ l = lineOf run reg h)
  ∧ (∀ run reg h, seen new (Hear run reg d) h →
       lineOf run reg h ∈ pt_sources p ∨ hd_verdict h = skipped ∧ seen new (IsLive run) false).

(** Events that do not hear, before a report. *)
Lemma sourceReport_cons e p new :
  taken e = None → marked e = None → sentTo e = None → hearing e = None → sourceReport p new → sourceReport p (e :: new).
Proof.
  intros H1 H2 H3 H4 ([Ht Hm] & Hs & Hl & Hin & Hall). unfold sourceReport, truly. simpl. rewrite H1, H2, H3.
  split; [done|]. split; [done|]. split; [done|]. split.
  - intros l Hl'. destruct (Hin l Hl') as (run & reg & h & He & E). exists run, reg, h. split; [by right|done].
  - intros run reg h [<-|He]%elem_of_cons; [done|]. destruct (Hall run reg h He) as [?|[? ?]]; [by left|right]. split; [done|by right].
Qed.

Lemma sourceReport_none p : pt_delivered p = [] → pt_refused p = [] → pt_sources p = [] → sourceReport p [].
Proof.
  intros H1 H2 H3. unfold sourceReport, truly, deliveredTo, refusedBy. rewrite H1, H2, H3. repeat split; [simpl; lia|set_solver|].
  intros run reg h H. by apply elem_of_nil in H.
Qed.

Definition quietEvent (e : Event) : Prop := taken e = None ∧ marked e = None ∧ sentTo e = None ∧ hearing e = None.

Lemma sourceReport_quiet new0 p new : Forall quietEvent new0 → sourceReport p new → sourceReport p (new0 ++ new).
Proof. intros H Hp. induction H as [|e l (H1 & H2 & H3 & H4) _ IH]; [done|]. by apply sourceReport_cons. Qed.

(** A skip of a run that ended is asked again. *)
Lemma sourceReport_again run reg h p new :
  hd_verdict h = skipped → seen new (IsLive run) false → sourceReport p new → sourceReport p (mkEvent (Hear run reg d) (Ok h) :: new).
Proof.
  intros Hv Hl ([Ht Hm] & Hs & Hn & Hin & Hall). unfold sourceReport, truly. simpl.
  assert (∀ o r, seen new o r → seen (mkEvent (Hear run reg d) (Ok h) :: new) o r) as Hmono by (intros; by right).
  split; [done|]. split; [done|]. split; [done|]. split.
  - intros l Hl'. destruct (Hin l Hl') as (run' & reg' & h' & He & E). eauto 6.
  - intros run' reg' h' [He|He]%elem_of_cons.
    + apply (f_equal heardOf) in He. injection He as -> -> ->. right. auto.
    + destruct (Hall run' reg' h' He) as [?|[? ?]]; auto.
Qed.

Lemma sourceReport_line run reg h replies new :
  Forall quietEvent new → sourceReport (mkPart [] [] 0 [lineOf run reg h] [] replies) (mkEvent (Hear run reg d) (Ok h) :: new).
Proof.
  intros Hq. assert (sourceReport emptyPart (new ++ [])) as ([Ht Hm] & Hs & _ & _ & Hall).
  { apply sourceReport_quiet; [done|by apply sourceReport_none]. }
  rewrite app_nil_r in *. unfold sourceReport, truly. simpl. split; [done|]. split; [done|]. split; [done|]. split.
  - intros l ->%list_elem_of_singleton. exists run, reg, h. split; [by left|done].
  - intros run' reg' h' [He|He]%elem_of_cons.
    + apply (f_equal heardOf) in He. injection He as -> -> ->. left. by left.
    + destruct (Hall run' reg' h' He) as [H|[? ?]]; [by apply elem_of_nil in H|right]. split; [done|by right].
Qed.

Lemma quiet_nil : Forall quietEvent [].
Proof. constructor. Qed.

Lemma toSource_report fuel hops run reg tr :
  reports allowed (toSource d fuel hops run reg) tr (λ r new, sourceReport (default emptyPart r) new).
Proof.
  revert hops run reg tr. induction fuel as [|fuel IH]; intros hops run reg tr; [by apply reports_ret, sourceReport_none|].
  cbn [toSource]. report_step; [exact I|]. intros [|]; simpl negb; cbv iota.
  - report_step; [split; [done|apply last_snoc]|]. intros h.
    eapply (reports_bind _ _ _ _ (λ ended new, Forall quietEvent new ∧ (hd_verdict h ≠ skipped → new = [])
      ∧ (ended = true → hd_verdict h = skipped ∧ seen new (IsLive run) false))).
    + destruct (bool_decide (hd_verdict h = skipped)) eqn:Ev; [|apply reports_ret; by repeat constructor]. apply bool_decide_eq_true in Ev.
      report_step; [exact I|]. intros [|]; simpl negb; cbv iota; [apply reports_ret; by repeat constructor|].
      report_step; [exact I|]. intros a. split; [by repeat constructor|]. split; [done|]. intros _. split; [done|by left].
    + intros ended new (Hq & Hnil & He). destruct ended.
      * destruct (He eq_refl) as [Hv Hl]. eapply reports_mono; [|apply IH]. intros b new' Hb.
        apply sourceReport_cons; [done..|]. apply sourceReport_again; [done|by apply seen_app|]. by apply sourceReport_quiet.
      * eapply (reports_bind _ _ _ _ (λ _ new', Forall quietEvent new')).
        -- destruct (bool_decide (hd_verdict h = held)) eqn:Ev; [|apply reports_ret; apply quiet_nil]. apply bool_decide_eq_true in Ev.
           rewrite Hnil by (by rewrite Ev). rewrite app_nil_r.
           report_step; [exact I|]. intros [|]; [|apply reports_ret; by repeat constructor].
           report_step; [|intros a; by repeat constructor]. exists (tr ++ [mkEvent (IsOpen run reg) (Ok true)]), reg, h. by rewrite <- !app_assoc.
        -- intros _ new' Hq'. apply reports_ret. rewrite app_nil_r. apply sourceReport_cons; [done..|]. apply sourceReport_line. by apply Forall_app.
  - report_step; [exact I|]. intros [[run' reg']|]; [|apply reports_ret; do 2 (apply sourceReport_cons; [done..|]); by apply sourceReport_none].
    destruct (STANDING_HOPS <=? hops)%nat; [apply reports_ret; do 2 (apply sourceReport_cons; [done..|]); by apply sourceReport_none|].
    eapply reports_mono; [|apply IH]. intros b new' Hb. by do 2 (apply sourceReport_cons; [done..|]).
Qed.

(** ** The whole fan-in *)

(** Its lines are the verdicts, and each verdict is a line, but for a skip of a
    run that had ended. *)
Definition sourcesReport (p : Part) (new : list Event) : Prop :=
  truly p new ∧ omap sentTo new = []
  ∧ (∀ l, l ∈ pt_sources p → ∃ run reg h, seen new (Hear run reg d) h ∧ l = lineOf run reg h)
  ∧ (∀ run reg h, seen new (Hear run reg d) h → lineOf run reg h ∈ pt_sources p ∨ hd_verdict h = skipped ∧ seen new (IsLive run) false).

Lemma sourcesReport_add p q new new' : sourcesReport p new → sourcesReport q new' → sourcesReport (addPart p q) (new ++ new').
Proof.
  intros (Ht & Hs & Hin & Hall) (Ht' & Hs' & Hin' & Hall'). split; [by apply truly_add|].
  assert (∀ o r, seen new' o r → seen (new ++ new') o r) as Hr by (unfold seen; set_solver).
  split; [by rewrite omap_app, Hs, Hs'|]. simpl. split.
  - intros l [Hl|Hl]%elem_of_app; [destruct (Hin l Hl) as (run & reg & h & He & E)|destruct (Hin' l Hl) as (run & reg & h & He & E)];
      exists run, reg, h; (split; [auto using seen_app|done]).
  - intros run reg h [He|He]%elem_of_app.
    + destruct (Hall run reg h He) as [?|[? ?]]; [left; set_solver|right]. auto using seen_app.
    + destruct (Hall' run reg h He) as [?|[? ?]]; [left; set_solver|right]. auto.
Qed.

Lemma toSources_report sources tr : reports allowed (toSources d sources) tr sourcesReport.
Proof.
  revert tr. induction sources as [|[run reg] sources IH]; intros tr.
  - apply reports_ret. split; [done|]. split; [done|]. split; [intros l H; by apply elem_of_nil in H|intros run reg h H; by apply elem_of_nil in H].
  - cbn [toSources]. eapply reports_bind; [apply toSource_report|]. intros a new (Ht & Hs & _ & Hin & Hall).
    eapply reports_bind; [apply IH|]. intros b new' Hb. apply reports_ret. rewrite app_nil_r. by apply sourcesReport_add.
Qed.

(** What is true of a fan-in that ended. *)
Definition fanReport (fan : HookFanIn) (tr : list Event) : Prop :=
  ∃ runs without, seen tr Registered runs ∧ seen tr (WithoutRun (in_kind d) (in_key d)) without
  ∧ (λ x, (dt_run x, dt_gate x)) <$> fi_delivered fan = omap taken tr
  ∧ (λ x, (rb_run x, rb_gate x)) <$> fi_refused fan = omap marked tr
  ∧ omap sentTo tr `sublist_of` (λ t, (r_runId t.1.1, g_id t.1.2)) <$> targetsOf d runs
  ∧ (∀ run reg h, seen tr (Hear run reg d) h → lineOf run reg h ∈ fi_sources fan ∨ hd_verdict h = skipped ∧ seen tr (IsLive run) false)
  ∧ (∀ l, l ∈ fi_sources fan →
       (∃ run reg h, seen tr (Hear run reg d) h ∧ l = lineOf run reg h)
       ∨ (∃ w head, (w, Some head) ∈ without ∧ in_may d w = true ∧ l = pausedLine (w, head)))
  ∧ (∀ w, (w, None) ∈ without → in_may d w = true →
       (∃ ws, fi_waiting fan = Some ws ∧ w ∈ ws) ∧ fanEnd fan = (Store.no_live_run, 503)).


Lemma deliverHook_report : reports allowed (deliverHook d) [] fanReport.
Proof.
  unfold deliverHook. report_step; [exact I|]. intros runs.
  eapply reports_bind; [apply (toGates_report runs); [apply seen_snoc|done]|]. intros gates gnew ([Hgd Hgm] & Hgs & Hgh & Hgl).
  eapply reports_bind; [apply toSources_report|]. intros sources snew ([Hsd Hsm] & Hss & Hsin & Hsall).
  report_step; [exact I|]. intros without. cbv zeta. apply reports_ret.
  set (tr := _ :: gnew ++ snew ++ [_]).
  assert (∀ o r, seen snew o r → seen tr o r) as Hsn by (unfold seen, tr; set_solver).
  assert (∀ run reg h, seen tr (Hear run reg d) h → seen snew (Hear run reg d) h) as Hback.
  { intros run reg h [He|[He|[He|He%list_elem_of_singleton]%elem_of_app]%elem_of_app]%elem_of_cons; [discriminate| |done|discriminate].
    exfalso. assert ((r_runId run, g_id reg) ∈ omap hearing gnew) as Hin; [|rewrite Hgh in Hin; by apply elem_of_nil in Hin].
    apply list_elem_of_omap. by eexists. }
  exists runs, without. split; [unfold seen, tr; set_solver|]. split; [unfold seen, tr; set_solver|].
  unfold tr. simpl. rewrite !omap_app, !fmap_app. simpl. rewrite !app_nil_r.
  split; [unfold deliveredTo in *; by rewrite Hgd, Hsd|]. split; [unfold refusedBy in *; by rewrite Hgm, Hsm|].
  split; [by rewrite Hss, app_nil_r|]. rewrite Hgl. fold tr. split; [|split].
  - intros run reg h He%Hback. destruct (Hsall run reg h He) as [H|[H1 H2]]; [left; set_solver|right]. split; [done|by apply Hsn].
  - intros l [Hl|Hl]%elem_of_app.
    + left. destruct (Hsin l Hl) as (run & reg & h & He & E). exists run, reg, h. split; [by apply Hsn|done].
    + right. apply list_elem_of_omap in Hl as ([w [head|]] & Hin & E); [|done]. apply list_elem_of_filter in Hin as [Hm Hin].
      exists w, head. by injection E as <-.
  - intros w Hw Hm. set (ws := Notices.uniq _). assert (w ∈ ws) as Hin.
    { apply (proj2 (NoticesProofs.uniq_elem (λ _, None) _ _)), elem_of_app. left. apply list_elem_of_fmap. exists (w, None). split; [done|].
      apply list_elem_of_filter. split; [done|]. by apply list_elem_of_filter. }
    unfold fanEnd. simpl. fold ws. destruct ws; [by apply elem_of_nil in Hin|]. split; [by eexists|done].
Qed.


(** ** Following hand-overs *)

Section Ends.
Context (w : World).

(** A run that was seen to be gone is not open again. *)
Hypothesis gone_stays : ∀ tr run reg, seen tr (IsLive run) false → w tr (IsOpen run reg) ≠ Ok true.

Abbreviation follow fuel hops run reg tr := (exec w (toSource d fuel hops run reg) tr).

(** The next operation of a run. *)
Ltac run_step :=
  match goal with
  | |- context [@exec ?Op ?reply ?T ?B ?w (ask ?o ≫= ?f) ?tr] =>
      change (@exec Op reply T B w (ask o ≫= f) tr) with (@exec Op reply T B w (@mbind _ prog_bind (reply o) B f (ask o)) tr);
      rewrite (@exec_step Op reply T B o f w tr); destruct (w tr o) eqn:?
  end.

(** The look for an end after a skip, and the save after a hold. *)
Definition endedAfter (run : LiveRun) (h : SourceHeard) : Prog bool :=
  if bool_decide (hd_verdict h = skipped) then
    isLive ← ask (IsLive run);
    if negb isLive then ask (IsStanding (r_workflow run)) else Ret false
  else Ret false.

Definition savedAfter (run : LiveRun) (h : SourceHeard) : Prog unit :=
  if bool_decide (hd_verdict h = held) then
    isLive ← ask (IsLive run);
    if (isLive : bool) then ask (Persist run) else Ret ()
  else Ret ().

Lemma toSource_step fuel hops run reg :
  toSource d (S fuel) hops run reg =
  (isOpen ← ask (IsOpen run reg);
   if negb isOpen then
     next ← ask (SourceAfter run (in_kind d) (in_key d));
     match next with
     | None => Ret (Some emptyPart)
     | Some (run', reg') =>
         if (STANDING_HOPS <=? hops)%nat then Ret (Some (mkPart [] [] 0 [] [r_workflow run] []))
         else toSource d fuel (S hops) run' reg'
     end
   else
     h ← ask (Hear run reg d);
     ended ← endedAfter run h;
     if (ended : bool) then toSource d fuel (S hops) run reg
     else _ ← savedAfter run h; Ret (Some (mkPart [] [] 0 [lineOf run reg h] [] (sourceReplies d run reg h)))).
Proof. done. Qed.

Lemma endedAfter_gone run h tr : (exec w (endedAfter run h) tr).1 = Ok true → seen (exec w (endedAfter run h) tr).2 (IsLive run) false.
Proof.
  unfold endedAfter. case_bool_decide; [|done]. run_step; [|done]. destruct a; simpl negb; cbv iota; [done|]. simpl. intros _.
  destruct (w _ (IsStanding _)); simpl; apply seen_app, (seen_snoc tr (IsLive run) false).
Qed.

Lemma follow_ends fuel hops run reg tr :
  (hops <= STANDING_HOPS ∧ STANDING_HOPS + 2 <= hops + fuel)%nat ∨ (seen tr (IsLive run) false ∧ STANDING_HOPS <= hops ∧ 1 <= fuel)%nat →
  (follow fuel hops run reg tr).1 ≠ Ok None.
Proof.
  revert hops run reg tr. induction fuel as [|fuel IH]; intros hops run reg tr H; [lia|].
  rewrite toSource_step. run_step; [|done]. destruct a; simpl negb; cbv iota.
  - destruct H as [[H1 H2]|(Hg & _)]; [|by destruct (gone_stays tr run reg Hg)]. run_step; [|done]. rewrite exec_bind.
    destruct (exec w (endedAfter _ _) _) as [[[]|e] tr'] eqn:Ee; [| |done].
    + apply IH. destruct (decide (S hops <= STANDING_HOPS)%nat); [left; lia|right]. split; [|lia].
      match type of Ee with exec w _ ?t = _ => pose proof (endedAfter_gone run a t) as Hgone end. rewrite Ee in Hgone. by apply Hgone.
    + rewrite exec_bind. by destruct (exec w (savedAfter _ _) tr') as [[]].
  - run_step; [|done]. destruct a as [[run' reg']|]; [|done]. destruct (STANDING_HOPS <=? hops)%nat eqn:Eh; [done|]. zbool.
    apply IH. left. lia.
Qed.

Lemma follow_more fuel hops run reg tr :
  (follow fuel hops run reg tr).1 ≠ Ok None → follow (S fuel) hops run reg tr = follow fuel hops run reg tr.
Proof.
  revert hops run reg tr. induction fuel as [|fuel IH]; intros hops run reg tr H; [done|]. revert H.
  rewrite (toSource_step fuel), (toSource_step (S fuel)).
  assert (∀ o (f g : reply o → Prog (option Part)) tr, (∀ a tr', (exec w (f a) tr').1 ≠ Ok None → exec w (g a) tr' = exec w (f a) tr') →
    (exec w (ask o ≫= f) tr).1 ≠ Ok None → exec w (ask o ≫= g) tr = exec w (ask o ≫= f) tr) as Hstep.
  { intros o f g tr' Hfg. rewrite !exec_step. destruct (w tr' o); [apply Hfg|done]. }
  apply (Hstep (IsOpen run reg)). intros [|] tr1; simpl negb; cbv iota.
  - apply (Hstep (Hear run reg d)). intros h tr2. rewrite !exec_bind. destruct (exec w (endedAfter run h) tr2) as [[[]|e] tr3]; [apply IH|done|done].
  - apply (Hstep (SourceAfter run (in_kind d) (in_key d))). intros [[run' reg']|] tr2; [|done].
    destruct (STANDING_HOPS <=? hops)%nat; [done|]. apply IH.
Qed.

(** Following a Pool's hand-overs ends. Where a run that ended does not
    come back, the loop over the new runs' Sources, which the code leaves
    without a bound on its rounds, ends within two rounds more than the hops
    it allows, whatever runs take over: more rounds change nothing. *)
Theorem following_ends run reg tr fuel :
  (ROUNDS <= fuel)%nat → follow fuel 0 run reg tr = follow ROUNDS 0 run reg tr ∧ (follow ROUNDS 0 run reg tr).1 ≠ Ok None.
Proof.
  intros Hf. assert (∀ n, (follow (ROUNDS + n) 0 run reg tr).1 ≠ Ok None) as He by (intros n; apply follow_ends; left; unfold ROUNDS; lia).
  split; [|specialize (He 0%nat); by rewrite Nat.add_0_r in He].
  replace fuel with (ROUNDS + (fuel - ROUNDS))%nat by lia. generalize (fuel - ROUNDS)%nat. clear fuel Hf.
  induction n as [|n IH]; [by rewrite Nat.add_0_r|]. rewrite <- IH, Nat.add_succ_r. by apply follow_more.
Qed.
End Ends.

End Fan.

(** ** A host *)

Definition toyCaller : Tokens.CallerRecord := Tokens.mkRecord Tokens.hook (js "gl") None None.
Definition toyIn : HookIn :=
  mkHookIn (js "gl") (js "gitlab") (js "pipeline.success") (js "d1") JNull toyCaller (λ _, true) false.
Definition toyRun : LiveRun := mkRun 1 (js "r1") (js "plan").
Definition goEvent : json := JObj [(js "type", JStr (js "go"))].
Definition toyGate : Registration :=
  mkReg 1 (js "review") true
    (Some (mkHooked [(js "gitlab", [(js "pipeline.success", λ _ _, Ok (Some goEvent))])] None [js "go"])) None.
Definition toySource : Registration := mkReg 2 (js "source") true None (Some (mkSeat (λ _ _, true) None)).

(** Every Gate is open, and a Pool of another Workflow waits for a run. *)
Definition toyHost (tr : list Event) (o : Op) : result jstr (reply o) :=
  match o return result jstr (reply o) with
  | Registered => Ok [(toyRun, [toyGate; toySource])]
  | IsOpen _ _ | IsLive _ | IsStanding _ => Ok true
  | AnswersOf _ => Ok []
  | SendToGate _ _ _ _ _ | Feed _ _ | Persist _ => Ok ()
  | SourceAfter _ _ _ => Ok None
  | Hear _ _ _ => Ok (mkHeard held (Some (js "k")) None None None)
  | WithoutRun _ _ => Ok [(js "other", None)]
  end.

(** Every run has ended when it is asked for, and another one has taken over. *)
Definition toyHandovers (tr : list Event) (o : Op) : result jstr (reply o) :=
  match o return result jstr (reply o) with
  | IsOpen _ _ => Ok false
  | SourceAfter _ _ _ => Ok (Some (toyRun, toySource))
  | o => toyHost tr o
  end.


Lemma following_ends_witness :
  exec toyHandovers (toSource toyIn 100 0 toyRun toySource) [] = exec toyHandovers (toSource toyIn ROUNDS 0 toyRun toySource) []
  ∧ (exec toyHandovers (toSource toyIn ROUNDS 0 toyRun toySource) []).1 = Ok (Some (mkPart [] [] 0 [] [js "plan"] [])).
Proof.
  split; [|vm_compute; reflexivity].
  apply (following_ends toyIn toyHandovers); [|unfold ROUNDS, STANDING_HOPS; lia]. intros tr run reg _. discriminate.
Defined.

End FanInProofs.
