(* ===== verification/Standing.v ===== *)
(** * Standing Pools: the run that jr2 keeps
    (orchestrator/src/run-host.ts, orchestrator/src/instance.ts)

    [Host] is what the run host keeps of its standing Workflows: the registry,
    the hosted runs, the heads (in memory and in the table of the store), one
    timer a Workflow, and the saved rows.  An operation is a function of it;
    [M] is a method that may throw and keeps what it wrote before.  An
    asynchronous method is cut at its [await]: [Keep] and [Resume] are the
    calls that wait for a row.  The actors are xstate's: [Start] is what a start
    gave, and a [Label] says how an actor moved or ended.  [exec] is one step of
    the process, [die] its end and the next boot. *)

From Stdlib Require Import ZArith.
From stdpp Require Import base list strings.
From S2P Require Import Prelude JsString Json JsObject IsoDate Store Pool Tokens.

Open Scope Z_scope.

Module Standing.
Import JsObject.
Abbreviation Head := Store.StandingHead.

(** ** Data *)

Inductive EndedStatus := done | failed | error | cancelled | lost | drifted.

#[export] Instance EndedStatus_eq_dec : EqDecision EndedStatus.
Proof. solve_decision. Defined.

Record StandingPoolInfo := mkInfo { i_id : jstr; i_callee : jstr; i_hears : jstr → jstr → bool }.

(** A registered Machine: which object it is, what it says of itself when it is a
    standing Pool, and the hash of its Assembly. *)
Record WorkflowDef := mkDef { d_machine : Z; d_standing : option StandingPoolInfo; d_assembly : option jstr }.

(** A row of the Effect ledger. *)
Record EffectRow := mkEffect { e_kind : jstr; e_settled : bool; e_output : option Json.json; e_run : option Json.json }.

(** What the host reads of an actor: its context, its children with their Effect
    ids, and the run's ledger. *)
Record Snapshot := mkSnap { s_ctx : Pool.PoolCtx; s_children : obj (option jstr); s_effects : obj EffectRow }.

Inductive Why := boot | publish | hand_over | resume.

(** A hosted run; [input] is what a hand-over gave its actor (a restored one starts
    from its snapshot). *)
Record LiveRun := mkRun {
  runId : jstr;
  workflow : jstr;
  def : WorkflowDef;
  startedBy : option Why;
  resumedBy : option Tokens.CallerRecord;
  input : Pool.StandingCarry;
  actor : Snapshot;
  handedOverTo : option jstr;
  boundWithNoRun : bool;
}.

Definition set_actor v (r : LiveRun) : LiveRun :=
  mkRun (runId r) (workflow r) (def r) (startedBy r) (resumedBy r) (input r) v (handedOverTo r) (boundWithNoRun r).
Definition set_handedOverTo v (r : LiveRun) : LiveRun :=
  mkRun (runId r) (workflow r) (def r) (startedBy r) (resumedBy r) (input r) (actor r) v (boundWithNoRun r).
Definition set_boundWithNoRun v (r : LiveRun) : LiveRun :=
  mkRun (runId r) (workflow r) (def r) (startedBy r) (resumedBy r) (input r) (actor r) (handedOverTo r) v.

(** A saved run: its end ([None]: live), its Workflow, who started and resumed it,
    its blob's context and the run that took over. *)
Record Stored := mkStored {
  st_ended : option EndedStatus;
  st_workflow : jstr;
  st_startedBy : option Why;
  st_resumedBy : option Tokens.CallerRecord;
  st_ctx : Pool.PoolCtx;
  st_handedOverTo : option jstr;
}.

(** The callback of a timer with what it closes over. *)
Inductive Timer :=
| Age (run : jstr) (due : Z)
| Backoff (run : jstr) (ctx : Pool.PoolCtx) (streak : Z) (due : Z).

(** [keepStanding] under way: the Workflows still to keep, and the one whose row
    is being read, with the head and the row that were read. *)
Record Keep := mkKeep { k_why : Why; k_rest : list (jstr * WorkflowDef); k_at : option (jstr * Head * option Stored) }.

(** [resumeStanding] under way, with the context of the blob that it read. *)
Record Resume := mkResume { z_workflow : jstr; z_by : Tokens.CallerRecord; z_dropHeld : bool; z_ctx : option Pool.PoolCtx }.

Record StandingOptions := mkOpts { o_dispatches : Z; o_ageMs : Z; o_backoffMs : Z → Z }.

Definition STANDING_BOUND : Z * Z := (500, 24 * 60 * 60 * 1000).
Definition STANDING_ERRORS_PAUSE : Z := 3.
Definition standingBackoff (n : Z) : Z := Z.min 60000 (1000 * 4 ^ (n - 1)).
Definition defaultOptions : StandingOptions := mkOpts STANDING_BOUND.1 STANDING_BOUND.2 standingBackoff.

Record Host := mkHost {
  workflowDefs : obj WorkflowDef;
  runs : list LiveRun;
  unhosted : list jstr;
  heads : obj Head;
  timers : obj Timer;
  table : list Head;
  rows : obj Stored;
  clock : Z;
  stopping : bool;
  restorePending : bool;
  bounds : list jstr;
  keeping : option Keep;
  resuming : list Resume;
  exits : nat;
}.

Definition set_workflowDefs v (h : Host) : Host :=
  mkHost v (runs h) (unhosted h) (heads h) (timers h) (table h) (rows h) (clock h) (stopping h) (restorePending h) (bounds h) (keeping h) (resuming h) (exits h).
Definition set_runs v (h : Host) : Host :=
  mkHost (workflowDefs h) v (unhosted h) (heads h) (timers h) (table h) (rows h) (clock h) (stopping h) (restorePending h) (bounds h) (keeping h) (resuming h) (exits h).
Definition set_unhosted v (h : Host) : Host :=
  mkHost (workflowDefs h) (runs h) v (heads h) (timers h) (table h) (rows h) (clock h) (stopping h) (restorePending h) (bounds h) (keeping h) (resuming h) (exits h).
Definition set_heads v (h : Host) : Host :=
  mkHost (workflowDefs h) (runs h) (unhosted h) v (timers h) (table h) (rows h) (clock h) (stopping h) (restorePending h) (bounds h) (keeping h) (resuming h) (exits h).
Definition set_timers v (h : Host) : Host :=
  mkHost (workflowDefs h) (runs h) (unhosted h) (heads h) v (table h) (rows h) (clock h) (stopping h) (restorePending h) (bounds h) (keeping h) (resuming h) (exits h).
Definition set_table v (h : Host) : Host :=
  mkHost (workflowDefs h) (runs h) (unhosted h) (heads h) (timers h) v (rows h) (clock h) (stopping h) (restorePending h) (bounds h) (keeping h) (resuming h) (exits h).
Definition set_rows v (h : Host) : Host :=
  mkHost (workflowDefs h) (runs h) (unhosted h) (heads h) (timers h) (table h) v (clock h) (stopping h) (restorePending h) (bounds h) (keeping h) (resuming h) (exits h).
Definition set_clock v (h : Host) : Host :=
  mkHost (workflowDefs h) (runs h) (unhosted h) (heads h) (timers h) (table h) (rows h) v (stopping h) (restorePending h) (bounds h) (keeping h) (resuming h) (exits h).
Definition set_stopping v (h : Host) : Host :=
  mkHost (workflowDefs h) (runs h) (unhosted h) (heads h) (timers h) (table h) (rows h) (clock h) v (restorePending h) (bounds h) (keeping h) (resuming h) (exits h).
Definition set_restorePending v (h : Host) : Host :=
  mkHost (workflowDefs h) (runs h) (unhosted h) (heads h) (timers h) (table h) (rows h) (clock h) (stopping h) v (bounds h) (keeping h) (resuming h) (exits h).
Definition set_bounds v (h : Host) : Host :=
  mkHost (workflowDefs h) (runs h) (unhosted h) (heads h) (timers h) (table h) (rows h) (clock h) (stopping h) (restorePending h) v (keeping h) (resuming h) (exits h).
Definition set_keeping v (h : Host) : Host :=
  mkHost (workflowDefs h) (runs h) (unhosted h) (heads h) (timers h) (table h) (rows h) (clock h) (stopping h) (restorePending h) (bounds h) v (resuming h) (exits h).
Definition set_resuming v (h : Host) : Host :=
  mkHost (workflowDefs h) (runs h) (unhosted h) (heads h) (timers h) (table h) (rows h) (clock h) (stopping h) (restorePending h) (bounds h) (keeping h) v (exits h).
Definition set_exits v (h : Host) : Host :=
  mkHost (workflowDefs h) (runs h) (unhosted h) (heads h) (timers h) (table h) (rows h) (clock h) (stopping h) (restorePending h) (bounds h) (keeping h) (resuming h) v.

(** ** Methods that may throw *)

Definition M (A : Type) : Type := Host → result jstr A * Host.

Definition ret {A} (a : A) : M A := λ h, (Ok a, h).
Definition throw {A} (e : jstr) : M A := λ h, (Throw e, h).
Definition bindM {A B} (m : M A) (f : A → M B) : M B := λ h,
  match m h with
  | (Ok a, h') => f a h'
  | (Throw e, h') => (Throw e, h')
  end.
Definition modify (f : Host → Host) : M unit := λ h, (Ok tt, f h).

#[local] Notation "'do' x <- m ; k" := (bindM m (λ x, k)) (at level 10, x name, m at level 100, k at level 200).
#[local] Notation "m ;;; k" := (bindM m (λ _, k)) (at level 199, right associativity).

(** What a start of a Workflow gives: the door refuses, or the run's actor is
    started under a new id, and may end in that very call. *)
Inductive Start :=
| Refused (message : jstr)
| Began (id : jstr) (snap : Snapshot)
| BeganAndEnded (id : jstr) (snap : Snapshot) (status : EndedStatus) (ok : bool).

Section Host.
Context (opts : StandingOptions) (otherDate : jstr → option Z).

(** ** Heads, runs and timers *)

Definition putHead (hd : Head) (t : list Head) : list Head :=
  Store.standing (Store.writeStanding hd (Store.mkStore [] [] [] 0 t [])).

Definition writeHead (hd : Head) (h : Host) : Host :=
  set_table (putHead hd (table h)) (set_heads (objSet (Store.h_workflow hd) hd (heads h)) h).

Definition headOf (w : jstr) (h : Host) : option Head := objGet w (heads h).

Definition isStanding (w : jstr) (h : Host) : bool :=
  bool_decide (is_Some (objGet w (workflowDefs h) ≫= d_standing)).

Definition hostedOf (w : jstr) (h : Host) : list LiveRun := filter (λ r, workflow r = w) (runs h).

Definition findRun (id : jstr) (h : Host) : option LiveRun := List.find (λ r, bool_decide (runId r = id)) (runs h).

Definition standingRun (w : jstr) (h : Host) : option LiveRun :=
  let hosted := hostedOf w h in
  match List.find (λ r, bool_decide (Some (runId r) = Store.h_run <$> headOf w h)) hosted with
  | Some r => Some r
  | None => last hosted
  end.

Definition clearStandingTimer (w : jstr) (h : Host) : Host := set_timers (objDel w (timers h)) h.

Definition setStandingTimer (w : jstr) (ms : Z) (fn : Z → Timer) (h : Host) : Host :=
  let h := clearStandingTimer w h in
  set_timers (objSet w (fn (clock h + Z.max 0 ms)) (timers h)) h.

Definition armAge (w : jstr) (run : LiveRun) (h : Host) : Host :=
  let since :=
    match (headOf w h) ≫= (λ hd, IsoDate.dateParse otherDate (Store.h_since hd)) with
    | Some t => if t =? 0 then clock h else t
    | None => clock h
    end in
  setStandingTimer w (since + o_ageMs opts - clock h) (Age (runId run)) h.

(** ** What a run took *)

Definition effectRun (row : EffectRow) : option jstr :=
  if bool_decide (e_kind row ≠ js "dispatch") then None
  else
    match (if e_settled row then e_output row ≫= Json.prop (js "run") else e_run row) with
    | Some (Json.JStr ((_ :: _) as r)) => Some r
    | _ => None
    end.

Definition tookOf (r : LiveRun) : bool * nat :=
  let s := actor r in
  Pool.standingTook (s_ctx s)
    (λ k, match objGet k (s_children s) with
          | Some (Some effectId) => bool_decide (is_Some (objGet effectId (s_effects s) ≫= effectRun))
          | _ => false
          end).

(** ** The end of a run *)

(** [store.save]: a save that fails is logged, and the row stays. *)
Definition save (r : LiveRun) (status : option EndedStatus) (ok : bool) (h : Host) : Host :=
  if ok then set_rows (objSet (runId r) (mkStored status (workflow r) (startedBy r) (resumedBy r) (s_ctx (actor r)) (handedOverTo r)) (rows h)) h else h.

Definition untrack (id : jstr) (h : Host) : Host := set_runs (filter (λ r, runId r ≠ id) (runs h)) h.

Definition paused (why : Store.Paused) (streak : Z) (hd : Head) : Head :=
  Store.mkHead (Store.h_workflow hd) (Store.h_run hd) (Store.h_since hd) streak (Some why).

Definition counted (streak : Z) (hd : Head) : Head :=
  Store.mkHead (Store.h_workflow hd) (Store.h_run hd) (Store.h_since hd) streak (Store.h_paused hd).

Definition standingEnded (r : LiveRun) (status : EndedStatus) (h : Host) : Host :=
  let w := workflow r in
  match headOf w h with
  | None => h
  | Some hd =>
      if bool_decide (Store.h_run hd ≠ runId r) || bool_decide (is_Some (handedOverTo r)) then h
      else
        let h := clearStandingTimer w h in
        if bool_decide (status = cancelled) then writeHead (paused Store.cancel (Store.h_streak hd) hd) h
        else
          let atBound := boundWithNoRun r in
          if negb atBound && bool_decide (status ≠ error) && bool_decide (status ≠ failed) then h
          else
            let streak := if atBound || negb (tookOf r).1 then Store.h_streak hd + 1 else 0 in
            if STANDING_ERRORS_PAUSE <? streak then writeHead (paused (if atBound then Store.bound else Store.errors) streak hd) h
            else
              let h := writeHead (counted streak hd) h in
              setStandingTimer w (o_backoffMs opts (Z.max 1 streak)) (Backoff (runId r) (s_ctx (actor r)) streak) h
  end.

(** [persist] with an end, the whole of what it does to this state. *)
Definition persistEnd (r : LiveRun) (status : EndedStatus) (ok : bool) (h : Host) : Host :=
  standingEnded r status (untrack (runId r) (save r (Some status) ok h)).

(** ** Starting a run *)

Definition startNow (w : jstr) (carry : Pool.StandingCarry) (why : option Why) (by_ : option Tokens.CallerRecord) (st : Start) : M jstr := λ h,
  match objGet w (workflowDefs h) with
  | None => (Throw (js "no workflow registered as " ++ w), h)
  | Some d =>
      match st with
      | Refused m => (Throw m, h)
      | Began id snap => (Ok id, set_runs (runs h ++ [mkRun id w d why by_ carry snap None false]) h)
      | BeganAndEnded id snap status ok =>
          let r := mkRun id w d why by_ carry snap None false in
          (Ok id, persistEnd r status ok (set_runs (runs h ++ [r]) h))
      end
  end.

Definition carryOf (dropHeld : bool) (ctx : option Pool.PoolCtx) : Pool.StandingCarry :=
  match ctx with Some c => Pool.standingCarryOf dropHeld c | None => Pool.noCarry end.

Definition startStanding (w : jstr) (why : Why) (ctx : option Pool.PoolCtx) (dropHeld : bool)
    (by_ : option Tokens.CallerRecord) (streak : Z) (st : Start) : M jstr :=
  modify (clearStandingTimer w) ;;;
  do id <- startNow w (carryOf dropHeld ctx) (Some why) by_ st;
  modify (λ h, writeHead (Store.mkHead w id (IsoDate.toISOString (clock h)) streak None) h) ;;;
  modify (λ h, match findRun id h with Some r => armAge w r h | None => h end) ;;;
  ret id.

Definition handOverLive (r : LiveRun) (st : Start) (ok : bool) : M unit :=
  do id <- startStanding (workflow r) hand_over (Some (s_ctx (actor r))) false None 0 st;
  modify (persistEnd (set_handedOverTo (Some id) r) done ok).

Definition handOverFrom (w : jstr) (ctx : option Pool.PoolCtx) (why : Why) (dropHeld : bool)
    (by_ : option Tokens.CallerRecord) (streak : Z) (st : Start) : M jstr :=
  startStanding w why ctx dropHeld by_ streak st.

(** ** The bound *)

(** [checkBound], from a save: [true] asks for the check in a microtask. *)
Definition checkBound (r : LiveRun) (h : Host) : bool :=
  bool_decide (Store.h_run <$> headOf (workflow r) h = Some (runId r))
  && (o_dispatches opts <=? Z.of_nat (Pool.taken (s_ctx (actor r))))
  && negb (negb (tookOf r).1 && (Nat.eqb (tookOf r).2 0)).

(** The microtask. *)
Definition atBound (id : jstr) (st : Start) (ok : bool) : M unit := λ h,
  match findRun id h with
  | None => (Ok tt, h)
  | Some r =>
      let w := workflow r in
      if bool_decide (Store.h_run <$> headOf w h ≠ Some id) || negb (isStanding w h) then (Ok tt, h)
      else if (tookOf r).1 then handOverLive r st ok h
      else (Ok tt, persistEnd (set_boundWithNoRun true r) done ok h)
  end.

(** ** Timers *)

Definition fireAge (w id : jstr) (st : Start) (ok : bool) : M unit := λ h,
  match findRun id h with
  | Some r => if bool_decide (Store.h_run <$> headOf w h = Some id) then handOverLive r st ok h else (Ok tt, h)
  | None => (Ok tt, h)
  end.

(** The back-off's callback catches what the start throws. *)
Definition fireBackoff (w id : jstr) (ctx : Pool.PoolCtx) (streak : Z) (st : Start) (h : Host) : Host :=
  if bool_decide (Store.h_run <$> headOf w h ≠ Some id) || bool_decide (hostedOf w h ≠ []) || negb (isStanding w h) then h
  else (startStanding w hand_over (Some ctx) false None streak st h).2.

(** ** Keeping one run of each standing Workflow *)

Definition sameDef (a b : WorkflowDef) : bool :=
  bool_decide (d_assembly a = d_assembly b) && bool_decide (d_machine a = d_machine b).

(** [keepOne] up to its [await]: done, or the head and the row that it read. *)
Definition keepOne (w : jstr) (d : WorkflowDef) (why : Why) (st : Start) (ok : bool) : M (option (Head * option Stored)) := λ h,
  match standingRun w h with
  | Some live =>
      let h :=
        if bool_decide (Store.h_run <$> headOf w h ≠ Some (runId live))
        then writeHead (Store.mkHead w (runId live) (IsoDate.toISOString (clock h)) 0 None) h else h in
      if negb (sameDef (def live) d) then bindM (handOverLive live st ok) (λ _, ret None) h
      else (Ok None, armAge w live h)
  | None =>
      if bool_decide (is_Some (headOf w h ≫= Store.h_paused)) then (Ok None, h)
      else if bool_decide (is_Some (objGet w (timers h))) then (Ok None, h)
      else
        match headOf w h with
        | Some hd =>
            if bool_decide (Store.h_run hd ∈ unhosted h) then (Ok None, h)
            else (Ok (Some (hd, objGet (Store.h_run hd) (rows h))), h)
        | None => bindM (startStanding w why None false None 0 st) (λ _, ret None) h
        end
  end.

(** [keepOne] after it. *)
Definition keepLoaded (w : jstr) (hd : Head) (stored : option Stored) (why : Why) (st : Start) : M unit := λ h,
  match stored with
  | Some row =>
      match st_ended row with
      | None => (Ok tt, h)
      | Some cancelled => (Ok tt, writeHead (paused Store.cancel (Store.h_streak hd) hd) h)
      | Some _ => bindM (handOverFrom w (Some (st_ctx row)) hand_over false None (Store.h_streak hd) st) (λ _, ret tt) h
      end
  | None => bindM (startStanding w why None false None 0 st) (λ _, ret tt) h
  end.

(** One turn of [keepStanding]'s loop, which catches what [keepOne] throws. *)
Definition keepNext (k : Keep) (st : Start) (ok : bool) (h : Host) : Host :=
  match k_at k with
  | Some (w, hd, stored) => (keepLoaded w hd stored (k_why k) st (set_keeping (Some (mkKeep (k_why k) (k_rest k) None)) h)).2
  | None =>
      match k_rest k with
      | [] => set_keeping None h
      | (w, d) :: rest =>
          let h := set_keeping (Some (mkKeep (k_why k) rest None)) h in
          if bool_decide (is_Some (d_standing d)) then
            match keepOne w d (k_why k) st ok h with
            | (Ok (Some (hd, stored)), h) => set_keeping (Some (mkKeep (k_why k) rest (Some (w, hd, stored)))) h
            | (_, h) => h
            end
          else h
      end
  end.

(** ** Resuming a paused Workflow *)

Definition resumeRefused (w : jstr) (h : Host) : bool :=
  negb (isStanding w h) || bool_decide (is_Some (standingRun w h)) || negb (bool_decide (is_Some (headOf w h ≫= Store.h_paused))).

(** [resumeStanding] up to its [await]; [None] is a refusal. *)
Definition resumeStanding (w : jstr) (by_ : Tokens.CallerRecord) (dropHeld : bool) (h : Host) : option Resume :=
  if resumeRefused w h then None
  else Some (mkResume w by_ dropHeld (headOf w h ≫= λ hd, st_ctx <$> objGet (Store.h_run hd) (rows h))).

(** [resumeStanding] after it. *)
Definition resumeLoaded (z : Resume) (st : Start) : M jstr := λ h,
  let w := z_workflow z in
  if bool_decide (is_Some (standingRun w h)) || negb (bool_decide (is_Some (headOf w h ≫= Store.h_paused)))
  then (Throw (js "was resumed a moment ago"), h)
  else handOverFrom w (z_ctx z) resume (z_dropHeld z) (Some (z_by z)) 0 st h.

(** ** What a reader sees *)

Inductive ViewState := live | paused_ | waiting.

Record StandingView := mkView {
  v_workflow : jstr;
  v_pool : jstr;
  v_callee : jstr;
  v_state : ViewState;
  v_run : option jstr;
  v_held : nat;
  v_why : option Store.Paused;
}.

Definition viewOf (w : jstr) (info : StandingPoolInfo) (h : Host) : StandingView :=
  match standingRun w h with
  | Some r => mkView w (i_id info) (i_callee info) live (Some (runId r)) (length (Pool.sc_held (Pool.standingCarryOf false (s_ctx (actor r))))) None
  | None =>
      let row := headOf w h ≫= λ hd, objGet (Store.h_run hd) (rows h) in
      mkView w (i_id info) (i_callee info) (if bool_decide (is_Some (headOf w h ≫= Store.h_paused)) then paused_ else waiting)
        (Store.h_run <$> headOf w h) (length (Pool.sc_held (carryOf false (st_ctx <$> row)))) (headOf w h ≫= Store.h_paused)
  end.

Definition standingView (h : Host) : list StandingView :=
  omap (λ wd, (λ info, viewOf wd.1 info h) <$> d_standing wd.2) (workflowDefs h).

(** The standing Workflows that hear a kind and key and have no live run, with the
    run of a paused one's head. *)
Definition standingWithoutRun (kind key : jstr) (may : jstr → bool) (h : Host) : list (jstr * option jstr) :=
  omap (λ wd,
    match d_standing wd.2 with
    | Some info =>
        if negb (i_hears info kind key) || negb (may wd.1) || bool_decide (is_Some (standingRun wd.1 h)) then None
        else Some (wd.1, headOf wd.1 h ≫= λ hd, match Store.h_paused hd with Some _ => Some (Store.h_run hd) | None => None end)
    | None => None
    end) (workflowDefs h).

(** The live run that took over from a run that a hand-over ended, with the first of
    its Gates ([byRun]) whose Source hears the delivery. *)
Definition standingSourceAfter {Reg} (byRun : jstr → list Reg) (hears : Reg → bool) (ended : LiveRun) (h : Host) : option (LiveRun * Reg) :=
  if negb (isStanding (workflow ended) h) then None
  else
    match standingRun (workflow ended) h with
    | Some run => if bool_decide (runId run = runId ended) then None else pair run <$> List.find hears (byRun (runId run))
    | None => None
    end.

(** ** The process *)

Definition isChartName (n : jstr) : bool :=
  match list_find (λ c, c = 47) n with
  | Some (at_, _) => negb (Nat.eqb at_ 0) && negb (Nat.eqb (S at_) (length n))
  | None => false
  end.

(** [swap]: register each Workflow of the Assembly, and drop the others. *)
Definition swap (loaded : obj WorkflowDef) (h : Host) : Host :=
  let defs := foldl (λ o wd, objSet wd.1 wd.2 o) (workflowDefs h) loaded in
  set_workflowDefs (filter (λ wd, isChartName wd.1 = true ∨ wd.1 ∈ loaded.*1) defs) h.

(** The end of the process, and the next one before its restore: the rows and the
    table of heads are what it kept. *)
Definition die (h : Host) : Host :=
  mkHost [] [] [] (foldl (λ o hd, objSet (Store.h_workflow hd) hd o) [] (table h)) [] (table h) (rows h) (clock h)
    false true [] None [] (exits h).

(** A callback that throws ends the process. *)
Definition orDie (r : result jstr unit * Host) : Host :=
  match r.1 with
  | Ok _ => r.2
  | Throw _ => die (set_exits (S (exits r.2)) r.2)
  end.

(** What the restore makes of a live row. *)
Inductive Restored :=
| Reattached (d : WorkflowDef) (children : obj (option jstr)) (effects : obj EffectRow)
| MarkedLost
| MarkedDrifted
| Left.

Definition endRow (status : EndedStatus) (row : Stored) : Stored :=
  mkStored (Some status) (st_workflow row) (st_startedBy row) (st_resumedBy row) (st_ctx row) (st_handedOverTo row).

Definition restoreRow (id : jstr) (o : Restored) (row : Stored) (h : Host) : Host :=
  match o with
  | Reattached d ch ef =>
      let r := mkRun id (st_workflow row) d (st_startedBy row) (st_resumedBy row) Pool.noCarry (mkSnap (st_ctx row) ch ef) None false in
      set_unhosted (filter (λ i, i ≠ id) (unhosted h)) (set_runs (runs h ++ [r]) h)
  | MarkedLost => set_rows (objSet id (endRow lost row) (rows h)) h
  | MarkedDrifted => set_rows (objSet id (endRow drifted row) (rows h)) h
  | Left => set_unhosted (unhosted h ++ [id]) h
  end.

Inductive Label :=
| Swap (loaded : obj WorkflowDef)
| KeepStart (why : Why)
| KeepNext (st : Start) (ok : bool)
| StartRun (w : jstr) (st : Start)
| Move (id : jstr) (snap : Snapshot)
| Save (id : jstr) (ok : bool)
| Ends (id : jstr) (status : EndedStatus) (ok : bool)
| Bound (id : jstr) (st : Start) (ok : bool)
| Fire (w : jstr) (st : Start) (ok : bool)
| ResumeAsk (w : jstr) (by_ : Tokens.CallerRecord) (dropHeld : bool)
| ResumeGo (st : Start)
| Tick (ms : Z)
| Close
| Kill
| Restore (id : jstr) (o : Restored)
| RestoreDone.

Definition startOf (l : Label) : option Start :=
  match l with
  | KeepNext st _ | StartRun _ st | Bound _ st _ | Fire _ st _ | ResumeGo st => Some st
  | _ => None
  end.

Definition idOf (st : Start) : option jstr :=
  match st with Began id _ | BeganAndEnded id _ _ _ => Some id | Refused _ => None end.

(** An id that [newId] gives is new. *)
Definition isFresh (id : jstr) (h : Host) : bool :=
  bool_decide (id ∉ runId <$> runs h) && bool_decide (id ∉ (rows h).*1) && bool_decide (id ∉ (λ kv, Store.h_run kv.2) <$> heads h).

Definition freshFor (l : Label) (h : Host) : bool :=
  match startOf l ≫= idOf with Some id => isFresh id h | None => true end.

Definition isLiveRow (row : Stored) : bool := bool_decide (st_ended row = None).

Definition due (t : Timer) : Z := match t with Age _ d | Backoff _ _ _ d => d end.

Definition exec (l : Label) (h : Host) : option Host :=
  if negb (freshFor l h) then None
  else
    match l with
    | Swap loaded => Some (swap loaded h)
    | KeepStart why =>
        if restorePending h || bool_decide (is_Some (keeping h)) then None
        else Some (set_keeping (Some (mkKeep why (workflowDefs h) None)) h)
    | KeepNext st ok => (λ k, keepNext k st ok h) <$> keeping h
    | StartRun w st => if isStanding w h then None else Some (startNow w Pool.noCarry None None st h).2
    | Move id snap =>
        (λ _, set_runs ((λ r, if bool_decide (runId r = id) then set_actor snap r else r) <$> runs h) h) <$> findRun id h
    | Save id ok =>
        (λ r, let h := save r None ok h in if checkBound r h then set_bounds (bounds h ++ [id]) h else h) <$> findRun id h
    | Ends id status ok => (λ r, persistEnd r status ok h) <$> findRun id h
    | Bound id st ok =>
        if bool_decide (id ∈ bounds h) then Some (orDie (atBound id st ok (set_bounds (filter (λ i, i ≠ id) (bounds h)) h))) else None
    | Fire w st ok =>
        match objGet w (timers h) with
        | Some t =>
            if due t <=? clock h then
              let h := set_timers (objDel w (timers h)) h in
              if stopping h then Some h
              else
                match t with
                | Age id _ => Some (orDie (fireAge w id st ok h))
                | Backoff id ctx streak _ => Some (fireBackoff w id ctx streak st h)
                end
            else None
        | None => None
        end
    | ResumeAsk w by_ drop =>
        Some (match resumeStanding w by_ drop h with Some z => set_resuming (resuming h ++ [z]) h | None => h end)
    | ResumeGo st =>
        match resuming h with
        | z :: rest => Some (resumeLoaded z st (set_resuming rest h)).2
        | [] => None
        end
    | Tick ms => if 0 <=? ms then Some (set_clock (clock h + ms) h) else None
    | Close => Some (set_stopping true h)
    | Kill => Some (die h)
    | Restore id o =>
        if negb (restorePending h) || bool_decide (is_Some (findRun id h)) then None
        else
          match objGet id (rows h) with
          | Some row => if isLiveRow row then Some (restoreRow id o row h) else None
          | None => None
          end
    | RestoreDone =>
        if forallb (λ kv, negb (isLiveRow kv.2) || bool_decide (is_Some (findRun kv.1 h)) || bool_decide (kv.1 ∈ unhosted h)) (rows h)
        then Some (set_restorePending false h) else None
    end.

Fixpoint execs (ls : list Label) (h : Host) : option Host :=
  match ls with
  | [] => Some h
  | l :: ls' => exec l h ≫= execs ls'
  end.

(** A new Orchestrator on an empty volume. *)
Definition newHost (t : Z) : Host := mkHost [] [] [] [] [] [] [] t false true [] None [] 0.

End Host.

End Standing.
