(* ===== verification/StandingProofs.v ===== *)
(** * Standing Pools: one run, kept, paused and handed over

    Proofs about [Standing]. *)

From Stdlib Require Import Lia ZArith.
From stdpp Require Import base list strings sets.
From S2P Require Import Prelude JsString Json JsObject IsoDate Store Pool Tokens Standing.

Open Scope Z_scope.

Module StandingProofs.
Import JsObject Standing.

(** ** Tables and lists of runs *)

Lemma objGet_del_same {V} k (o : obj V) : objGet k (objDel k o) = None.
Proof.
  destruct (objGet k (objDel k o)) eqn:E; [|done]. exfalso.
  assert (k ∈ (objDel k o).*1) as H by (apply objGet_is_Some; eauto).
  apply list_elem_of_fmap in H as ([k' v'] & -> & H). apply list_elem_of_filter in H as [H _]. done.
Qed.

Lemma objGet_del {V} k k' (o : obj V) : objGet k (objDel k' o) = if decide (k = k') then None else objGet k o.
Proof. case_decide; [subst; apply objGet_del_same|by apply objGet_objDel]. Qed.

Lemma objSet_in {V} k (v : V) o x : x ∈ objSet k v o → x = (k, v) ∨ x ∈ o.
Proof.
  induction o as [|[k' v'] o IH]; simpl; [rewrite list_elem_of_singleton; by left|].
  case_bool_decide; rewrite !elem_of_cons; naive_solver.
Qed.

Lemma objSets_in {V} (l : obj V) (o : obj V) x : x ∈ foldl (λ o wd, objSet wd.1 wd.2 o) o l → x ∈ l ∨ x ∈ o.
Proof.
  revert o. induction l as [|[k' v'] l IH]; intros o; simpl; [by right|]. intros [H|H]%IH; [left; by right|].
  apply objSet_in in H as [->|H]; [left; by left|by right].
Qed.

(** The heads that the table of the store gives a new process. *)
Abbreviation ofTable := (foldl (λ o hd, objSet (Store.h_workflow hd) hd o) []).

Lemma ofTable_snoc t hd w : objGet w (ofTable (t ++ [hd])) = if decide (w = Store.h_workflow hd) then Some hd else objGet w (ofTable t).
Proof. rewrite foldl_app. simpl. apply objGet_objSet. Qed.

Lemma ofTable_has t w : is_Some (objGet w (ofTable t)) ↔ w ∈ Store.h_workflow <$> t.
Proof.
  induction t as [|hd t IH] using rev_ind; [simpl; rewrite is_Some_alt; set_solver|].
  rewrite ofTable_snoc, fmap_app, elem_of_app, <- IH. simpl. case_decide; [split; [set_solver|by eexists]|set_solver].
Qed.

Lemma ofTable_replace t hd w :
  objGet w (ofTable ((λ x, if bool_decide (Store.h_workflow x = Store.h_workflow hd) then hd else x) <$> t))
  = if decide (w = Store.h_workflow hd ∧ w ∈ Store.h_workflow <$> t) then Some hd else objGet w (ofTable t).
Proof.
  induction t as [|x t IH] using rev_ind; [simpl; case_decide; [set_solver|done]|].
  rewrite fmap_app. simpl (_ <$> [x]). rewrite !ofTable_snoc, IH, fmap_app.
  case_bool_decide as E; repeat case_decide; set_solver.
Qed.

Lemma ofTable_putHead t hd w : objGet w (ofTable (putHead hd t)) = if decide (w = Store.h_workflow hd) then Some hd else objGet w (ofTable t).
Proof.
  unfold putHead, Store.writeStanding. simpl. case_bool_decide as E; simpl; [|apply ofTable_snoc].
  rewrite ofTable_replace. repeat case_decide; naive_solver.
Qed.

Lemma findRun_Some id h r : findRun id h = Some r → r ∈ runs h ∧ runId r = id.
Proof.
  intros H. apply find_some in H as [H1 H2]. apply bool_decide_eq_true in H2. split; [by apply list_elem_of_In|done].
Qed.

Lemma findRun_None id h : findRun id h = None ↔ id ∉ runId <$> runs h.
Proof.
  unfold findRun. split.
  - intros H Hi. apply list_elem_of_fmap in Hi as (r & -> & Hr). apply list_elem_of_In in Hr.
    pose proof (find_none _ _ H r Hr) as HN. apply bool_decide_eq_false in HN. done.
  - intros H. destruct (List.find _ _) as [r|] eqn:E; [|done]. apply findRun_Some in E as [Hr <-].
    exfalso. apply H. apply list_elem_of_fmap. eauto.
Qed.

Lemma hostedOf_elem w h r : r ∈ hostedOf w h ↔ workflow r = w ∧ r ∈ runs h.
Proof. unfold hostedOf. by rewrite list_elem_of_filter. Qed.

Lemma standingRun_Some w h r : standingRun w h = Some r → workflow r = w ∧ r ∈ runs h.
Proof.
  unfold standingRun. rewrite <- hostedOf_elem. destruct (List.find _ _) as [r'|] eqn:E.
  - intros [= <-]. apply find_some in E as [E _]. by apply list_elem_of_In.
  - intros H. by apply last_Some_elem_of.
Qed.

Lemma standingRun_None w h : standingRun w h = None → ∀ r, r ∈ runs h → workflow r ≠ w.
Proof.
  unfold standingRun. destruct (List.find _ _); [done|]. intros H%last_None r Hr Hw.
  assert (r ∈ hostedOf w h) as Hin by (by apply hostedOf_elem). rewrite H in Hin. by apply elem_of_nil in Hin.
Qed.

(** ** The invariant *)

Section Inv.
Context (opts : StandingOptions) (otherDate : jstr → option Z) (stands : jstr → bool).

Abbreviation runIds h := (runId <$> runs h).
Abbreviation headRun w h := (Store.h_run <$> headOf w h).

(** A row that is live. *)
Definition liveRow (id w : jstr) (h : Host) : Prop :=
  ∃ row, objGet id (rows h) = Some row ∧ st_ended row = None ∧ st_workflow row = w.

(** A row that ended, with its context. *)
Definition endedRow (id : jstr) (c : Pool.PoolCtx) (h : Host) : Prop :=
  ∃ row, objGet id (rows h) = Some row ∧ st_ended row ≠ None ∧ st_ctx row = c.

Definition keptAt (w : jstr) (h : Host) : Prop := ∃ k hd stored, keeping h = Some k ∧ k_at k = Some (w, hd, stored).

(** [ex] is the run that a hand-over is about to end. *)
Record Inv (ex : jstr → Prop) (h : Host) : Prop := mkInv {
  inv_runs : ∀ r, r ∈ runs h → stands (workflow r) = true → ¬ ex (runId r) → headRun (workflow r) h = Some (runId r);
  inv_rows : ∀ id w, liveRow id w h → stands w = true → ¬ ex id → headRun w h = Some id;
  inv_ids : NoDup (runIds h);
  inv_own : ∀ r, r ∈ runs h → handedOverTo r = None ∧ boundWithNoRun r = false;
  inv_defs : ∀ w d, (w, d) ∈ workflowDefs h → (is_Some (d_standing d) ↔ stands w = true);
  inv_heads : ∀ w hd, headOf w h = Some hd → stands w = true ∧ Store.h_workflow hd = w;
  inv_owner : ∀ w hd, headOf w h = Some hd →
    (∀ r, r ∈ runs h → runId r = Store.h_run hd → workflow r = w)
    ∧ ∀ row, objGet (Store.h_run hd) (rows h) = Some row → st_workflow row = w;
  inv_table : ∀ w, objGet w (ofTable (table h)) = headOf w h;
  inv_streak : ∀ w hd, headOf w h = Some hd → 0 <= Store.h_streak hd ∧ (Store.h_paused hd = None → Store.h_streak hd <= STANDING_ERRORS_PAUSE);
  inv_timers : ∀ w t, objGet w (timers h) = Some t → is_Some (headOf w h);
  inv_backoff : ∀ w id c s d, objGet w (timers h) = Some (Backoff id c s d) →
    ∃ hd, headOf w h = Some hd ∧ Store.h_run hd = id ∧ Store.h_paused hd = None ∧ Store.h_streak hd = s ∧ endedRow id c h ∧ id ∉ runIds h;
  inv_paused : ∀ w hd, headOf w h = Some hd → Store.h_paused hd ≠ None →
    objGet w (timers h) = None ∧ (∃ c, endedRow (Store.h_run hd) c h) ∧ Store.h_run hd ∉ runIds h;
  inv_keep : ∀ k, keeping h = Some k →
    restorePending h = false ∧ (∀ w d, (w, d) ∈ k_rest k → (is_Some (d_standing d) ↔ stands w = true)) ∧
    ∀ w hd stored, k_at k = Some (w, hd, stored) →
      headOf w h = Some hd ∧ Store.h_paused hd = None ∧ objGet w (timers h) = None
      ∧ (Store.h_run hd ∉ runIds h) ∧ objGet (Store.h_run hd) (rows h) = stored;
}.

Abbreviation none := (λ _ : jstr, False).

(** *** Small changes *)

(** A change that leaves the runs, the rows, the heads, the timers and the
    registry alone. *)
Lemma standing_inv_other ex h h' :
  Inv ex h → runs h' = runs h → rows h' = rows h → heads h' = heads h → timers h' = timers h → table h' = table h →
  workflowDefs h' = workflowDefs h → keeping h' = keeping h → (restorePending h' = true → restorePending h = true) → Inv ex h'.
Proof.
  destruct h, h'. simpl. intros H -> -> -> -> -> -> -> E. destruct H. constructor; try assumption.
  intros k Hk. destruct (inv_keep0 k Hk) as (Hp & Hr & Ha). simpl in *. split; [|split; [exact Hr|exact Ha]].
  destruct restorePending1; [|done]. by rewrite E in Hp.
Qed.

Lemma inv_weaken (ex ex' : jstr → Prop) h :
  Inv ex h → (∀ id, ex id → ¬ ex' id → (id ∉ runIds h) ∧ ∀ w, ¬ liveRow id w h) → Inv ex' h.
Proof.
  intros [] H. constructor; try done.
  - intros r Hr Hs Hx. apply inv_runs0; [done..|]. intros He. destruct (H _ He Hx) as [H1 _]. apply H1, list_elem_of_fmap. eauto.
  - intros id w Hl Hs Hx. apply inv_rows0; [done..|]. intros He. destruct (H _ He Hx) as [_ H1]. by apply (H1 w).
Qed.

Lemma inv_clearTimer ex h w : Inv ex h → Inv ex (clearStandingTimer w h).
Proof.
  intros []. unfold clearStandingTimer. constructor; simpl; try done; setoid_rewrite objGet_del.
  - intros w' t. case_decide; [done|]. eauto.
  - intros w' id c s d. case_decide; [done|]. eauto.
  - intros w' hd H1 H2. destruct (inv_paused0 w' hd H1 H2) as (Ht & Hp). split; [by case_decide|done].
  - intros k Hk. destruct (inv_keep0 k Hk) as (Hp & Hr & Ha). split; [done|]. split; [done|]. intros w' hd st Hat.
    destruct (Ha _ _ _ Hat) as (? & ? & Ht & ? & ?). split_and!; try done. by case_decide.
Qed.

Lemma headOf_writeHead w hd h : headOf w (writeHead hd h) = if decide (w = Store.h_workflow hd) then Some hd else headOf w h.
Proof. apply objGet_objSet. Qed.

Lemma inv_writeHead (ex ex' : jstr → Prop) h hd :
  Inv ex h → stands (Store.h_workflow hd) = true →
  0 <= Store.h_streak hd ∧ (Store.h_paused hd = None → Store.h_streak hd <= STANDING_ERRORS_PAUSE) →
  ¬ keptAt (Store.h_workflow hd) h → objGet (Store.h_workflow hd) (timers h) = None →
  (∀ r, r ∈ runs h → workflow r = Store.h_workflow hd → ¬ ex' (runId r) → runId r = Store.h_run hd) →
  (∀ id, liveRow id (Store.h_workflow hd) h → ¬ ex' id → id = Store.h_run hd) →
  (Store.h_paused hd ≠ None → (∃ c, endedRow (Store.h_run hd) c h) ∧ Store.h_run hd ∉ runIds h) →
  (∀ r, r ∈ runs h → workflow r ≠ Store.h_workflow hd → ex (runId r) → ex' (runId r)) →
  (∀ id w, liveRow id w h → w ≠ Store.h_workflow hd → ex id → ex' id) →
  (∀ r, r ∈ runs h → runId r = Store.h_run hd → workflow r = Store.h_workflow hd) →
  (∀ row, objGet (Store.h_run hd) (rows h) = Some row → st_workflow row = Store.h_workflow hd) →
  Inv ex' (writeHead hd h).
Proof.
  intros [] Hs Hst Hk Ht Hr Hrow Hp He1 He2 Ho1 Ho2. constructor; try setoid_rewrite headOf_writeHead; simpl; try done.
  - intros r Hin Hw Hx. case_decide as E; [simpl; f_equal; symmetry; by apply Hr|]. apply inv_runs0; eauto.
  - intros id w Hl Hw Hx. case_decide as E; [subst; simpl; f_equal; symmetry; by apply Hrow|]. apply inv_rows0; eauto.
  - intros w hd'. case_decide; [intros [= <-]; by subst|]. eauto.
  - intros w hd'. case_decide; [intros [= <-]; by subst|]. apply inv_owner0.
  - intros w. rewrite ofTable_putHead. case_decide; [done|]. apply inv_table0.
  - intros w hd'. case_decide; [by intros [= <-]|]. eauto.
  - intros w t Hw. case_decide; [by eexists|]. eauto.
  - intros w id c s d Hw. case_decide; [subst; congruence|]. eauto.
  - intros w hd' H1 H2. case_decide; [|eauto]. subst. injection H1 as ->. split; [done|]. by apply Hp.
  - intros k Hkk. destruct (inv_keep0 k Hkk) as (? & ? & Ha). split; [done|]. split; [done|]. intros w hd' st Hat.
    case_decide as E; [|by apply Ha]. subst. exfalso. apply Hk. by exists k, hd', st.
Qed.

Lemma timers_set w ms fn h w' :
  objGet w' (timers (setStandingTimer w ms fn h)) = if decide (w' = w) then Some (fn (clock h + Z.max 0 ms)) else objGet w' (timers h).
Proof. unfold setStandingTimer, clearStandingTimer. simpl. rewrite objGet_objSet, objGet_del. by repeat case_decide. Qed.

Lemma inv_setTimer ex h w ms fn hd :
  Inv ex h → headOf w h = Some hd → Store.h_paused hd = None → ¬ keptAt w h →
  (∀ id c s d, fn (clock h + Z.max 0 ms) = Backoff id c s d → Store.h_run hd = id ∧ Store.h_streak hd = s ∧ endedRow id c h ∧ id ∉ runIds h) →
  Inv ex (setStandingTimer w ms fn h).
Proof.
  intros [] Hh Hpa Hk Hb. constructor; try done.
  - intros w' t. rewrite timers_set. case_decide as E; [subst; intros _; exists hd; exact Hh|]. apply inv_timers0.
  - intros w' id c s d. rewrite timers_set. case_decide as E; [|apply inv_backoff0]. subst. intros [= H].
    destruct (Hb _ _ _ _ H) as (? & ? & ? & ?). by exists hd.
  - intros w' hd' H1 H2. destruct (inv_paused0 w' hd' H1 H2) as (Ht & Hp). split; [|exact Hp]. rewrite timers_set.
    case_decide; [|done]. subst. change (headOf w h = Some hd') in H1. congruence.
  - intros k Hkk. destruct (inv_keep0 k Hkk) as (? & ? & Ha). split; [done|]. split; [done|]. intros w' hd' st Hat.
    destruct (Ha _ _ _ Hat) as (? & ? & Ht & ? & ?). rewrite timers_set. split_and!; try done. case_decide as E; [|done].
    exfalso. apply Hk. rewrite <- E. by exists k, hd', st.
Qed.

Lemma inv_armAge ex h w r hd :
  Inv ex h → headOf w h = Some hd → Store.h_paused hd = None → ¬ keptAt w h → Inv ex (armAge opts otherDate w r h).
Proof. intros. unfold armAge. eapply inv_setTimer; done. Qed.

(** *** Saves and ends *)

(** A run that is being saved or ended is hosted. *)
Definition hosted (r : LiveRun) (h : Host) : Prop := ∃ r0, r0 ∈ runs h ∧ runId r0 = runId r ∧ workflow r0 = workflow r.

Lemma hosted_in r h : r ∈ runs h → hosted r h.
Proof. by exists r. Qed.

Lemma hosted_id r h : hosted r h → runId r ∈ runIds h.
Proof. intros (r0 & H & <- & _). apply list_elem_of_fmap. eauto. Qed.

Lemma not_kept r h ex hd : Inv ex h → runId r ∈ runIds h → headOf (workflow r) h = Some hd → Store.h_run hd = runId r → ¬ keptAt (workflow r) h.
Proof.
  intros HI Hr Hh E (k & hd' & st & Hk & Ha). destruct (inv_keep _ _ HI k Hk) as (_ & _ & H).
  destruct (H _ _ _ Ha) as (H1 & _ & _ & H2 & _). assert (hd' = hd) as -> by congruence. by rewrite E in H2.
Qed.

(** The row of a hosted run is rewritten. *)
Lemma inv_save (ex : jstr → Prop) h r s ok : Inv ex h → hosted r h → (s = None → ¬ ex (runId r)) → Inv ex (save r s ok h).
Proof.
  intros HI Hr Hx. pose proof (hosted_id _ _ Hr) as Hid. destruct ok; [|done]. unfold save. set (row := mkStored _ _ _ _ _ _).
  assert (∀ id c, endedRow id c h → id ∉ runIds h → endedRow id c (set_rows (objSet (runId r) row (rows h)) h)) as HE.
  { intros id c (row0 & H1 & H2) Hn. exists row0. simpl. rewrite objGet_objSet. case_decide; [by subst|done]. }
  destruct HI. constructor; simpl; try done.
  - intros id w (row0 & H1 & H2 & H3) Hs Hex. simpl in H1. rewrite objGet_objSet in H1. case_decide as E; [|apply inv_rows0; [by exists row0|done..]].
    simplify_eq. simpl in *. destruct Hr as (r0 & Hr0 & E1 & E2). rewrite <- E1, <- E2. apply inv_runs0; [done| |]; congruence.
  - intros w hd Hh. destruct (inv_owner0 _ _ Hh) as [H1 H2]. split; [done|]. intros row0. rewrite objGet_objSet.
    case_decide as E; [|apply H2]. intros [= <-]. simpl. destruct Hr as (r0 & Hr0 & E1 & E2). rewrite <- E2. apply H1; [done|]. by rewrite E1.
  - intros w id c s' d Ht. destruct (inv_backoff0 _ _ _ _ _ Ht) as (hd & ? & ? & ? & ? & ? & ?). exists hd. split_and!; auto.
  - intros w hd H1 H2. destruct (inv_paused0 _ _ H1 H2) as (? & [c Hc] & ?). split_and!; eauto.
  - intros k Hk. destruct (inv_keep0 k Hk) as (? & ? & Ha). split; [done|]. split; [done|]. intros w hd st Hat.
    destruct (Ha _ _ _ Hat) as (? & ? & ? & ? & ?). split_and!; try done. rewrite objGet_objSet. case_decide as E; [|done].
    by rewrite E in *.
Qed.

Lemma runIds_untrack id h : runIds (untrack id h) = filter (λ i, i ≠ id) (runIds h).
Proof.
  unfold untrack. simpl. induction (runs h) as [|r l IH]; [done|]. rewrite fmap_cons, !filter_cons.
  repeat case_decide; try done. by rewrite fmap_cons, IH.
Qed.

Lemma untrack_elem id h r : r ∈ runs (untrack id h) ↔ runId r ≠ id ∧ r ∈ runs h.
Proof. unfold untrack. simpl. by rewrite list_elem_of_filter. Qed.

Lemma inv_untrack (ex : jstr → Prop) h id : Inv ex h → Inv ex (untrack id h).
Proof.
  intros HI. assert (∀ i, i ∉ runIds h → i ∉ runIds (untrack id h)) as HN.
  { intros i Hi. rewrite runIds_untrack. intros H. by apply list_elem_of_filter in H as [_ H]. }
  destruct HI. constructor; try done.
  - intros r Hr. apply untrack_elem in Hr as [_ Hr]. exact (inv_runs0 r Hr).
  - rewrite runIds_untrack. by apply NoDup_filter.
  - intros r Hr. apply untrack_elem in Hr as [_ Hr]. exact (inv_own0 r Hr).
  - intros w hd Hh. destruct (inv_owner0 _ _ Hh) as [H1 H2]. split; [|done]. intros r Hr. apply untrack_elem in Hr as [_ Hr]. by apply H1.
  - intros w i c s d Ht. destruct (inv_backoff0 _ _ _ _ _ Ht) as (hd & ? & ? & ? & ? & ? & ?). exists hd. split_and!; auto.
  - intros w hd H1 H2. destruct (inv_paused0 _ _ H1 H2) as (? & ? & ?). split_and!; eauto.
  - intros k Hk. destruct (inv_keep0 k Hk) as (? & ? & Ha). split; [done|]. split; [done|]. intros w hd st Hat.
    destruct (Ha _ _ _ Hat) as (? & ? & ? & ? & ?). split_and!; auto.
Qed.

Lemma inv_running ex h r hd : Inv ex h → runId r ∈ runIds h → headOf (workflow r) h = Some hd → Store.h_run hd = runId r → Store.h_paused hd = None.
Proof.
  intros HI Hr Hh E. destruct (Store.h_paused hd) eqn:Ep; [|done]. exfalso.
  destruct (inv_paused _ _ HI _ _ Hh) as (_ & _ & H); [by rewrite Ep|]. by rewrite E in H.
Qed.

(** A run that is saved ended and untracked is live nowhere. *)
Lemma inv_gone (ex : jstr → Prop) h r status :
  Inv ex h → hosted r h → (∀ id, ex id → id = runId r) → Inv none (untrack (runId r) (save r (Some status) true h)).
Proof.
  intros HI Hr Hx. eapply inv_weaken; [by apply inv_untrack, inv_save|].
  intros id ->%Hx _. split; [rewrite runIds_untrack; intros [H _]%list_elem_of_filter; done|].
  intros w (row & H1 & H2 & _). simpl in H1. rewrite objGet_objSet, decide_True in H1 by done. by injection H1 as <-.
Qed.

Lemma gone_ended r status h : endedRow (runId r) (s_ctx (actor r)) (untrack (runId r) (save r (Some status) true h)).
Proof. eexists. split; [simpl; by rewrite objGet_objSet, decide_True|]. done. Qed.

(** The head of an ended run is written again: paused, or with its streak. *)
Lemma inv_rewrite h w hd hd' :
  Inv none h → headOf w h = Some hd → ¬ keptAt w h → Store.h_workflow hd' = w → Store.h_run hd' = Store.h_run hd →
  0 <= Store.h_streak hd' ∧ (Store.h_paused hd' = None → Store.h_streak hd' <= STANDING_ERRORS_PAUSE) →
  (∃ c, endedRow (Store.h_run hd) c h) → Store.h_run hd ∉ runIds h →
  Inv none (writeHead hd' (clearStandingTimer w h)).
Proof.
  intros HI Hh Hk E1 E2 Hst He Hn. destruct (inv_heads _ _ HI _ _ Hh) as [Hs _]. rewrite <- E1 in *.
  apply inv_writeHead with none; [by apply inv_clearTimer|done|done|done| | | | |done|done| |].
  - simpl. apply objGet_del_same.
  - intros r Hr Hw Hx. simpl in Hr. rewrite E2. pose proof (inv_runs _ _ HI r Hr) as H. rewrite Hw, Hh in H. simpl in H. specialize (H Hs Hx). congruence.
  - intros id Hl Hx. rewrite E2. pose proof (inv_rows _ _ HI id _ Hl Hs Hx) as H. rewrite Hh in H. simpl in H. congruence.
  - intros _. by rewrite E2.
  - rewrite E2. apply (inv_owner _ _ HI _ _ Hh).
  - rewrite E2. apply (inv_owner _ _ HI _ _ Hh).
Qed.

Lemma inv_standingEnded h r status hd :
  Inv none h → headOf (workflow r) h = Some hd → Store.h_paused hd = None → Store.h_run hd = runId r → ¬ keptAt (workflow r) h →
  endedRow (runId r) (s_ctx (actor r)) h → runId r ∉ runIds h → Inv none (standingEnded opts r status h).
Proof.
  intros HI Hh Hp E Hk He Hn. unfold standingEnded. rewrite Hh. destruct (_ || _); [done|].
  destruct (inv_heads _ _ HI _ _ Hh) as [Hs Hw]. destruct (inv_streak _ _ HI _ _ Hh) as [H0 H3]. specialize (H3 Hp).
  case_bool_decide as Ec.
  { eapply inv_rewrite; simpl; try done; rewrite E; [|done]. by eexists. }
  destruct (negb (boundWithNoRun r) && _ && _); [by apply inv_clearTimer|].
  set (streak := if boundWithNoRun r || _ then _ else _). assert (0 <= streak) by (unfold streak; destruct (_ || _); lia).
  destruct (STANDING_ERRORS_PAUSE <? streak) eqn:E3.
  { eapply inv_rewrite; simpl; try done; rewrite E; [|done]. by eexists. }
  zbool. eapply inv_setTimer with (counted streak hd).
  - eapply inv_rewrite; simpl; try done; rewrite E; [|done]. by eexists.
  - rewrite headOf_writeHead. by rewrite decide_True.
  - done.
  - done.
  - intros id c s d [= <- <- <- <-]. split_and!; done.
Qed.

Lemma inv_persistEnd (ex : jstr → Prop) h r status :
  Inv ex h → hosted r h → (∀ id, ex id → id = runId r) → Inv none (persistEnd opts r status true h).
Proof.
  intros HI Hr Hx. unfold persistEnd. pose proof (inv_gone _ _ _ status HI Hr Hx) as HG. set (h' := untrack _ _) in *.
  change (headOf (workflow r) h') with (headOf (workflow r) h). destruct (headOf (workflow r) h) as [hd|] eqn:Hh.
  2: { unfold standingEnded. change (headOf (workflow r) h') with (headOf (workflow r) h). by rewrite Hh. }
  destruct (decide (Store.h_run hd = runId r)) as [E|N].
  - eapply inv_standingEnded; [done|exact Hh| |done| | |].
    + eapply inv_running; [exact HI| |exact Hh|done]. by apply hosted_id.
    + intros H. eapply not_kept; [exact HI| |exact Hh|done|exact H]. by apply hosted_id.
    + apply gone_ended.
    + subst h'. rewrite runIds_untrack. intros [H _]%list_elem_of_filter. done.
  - unfold standingEnded. change (headOf (workflow r) h') with (headOf (workflow r) h). rewrite Hh.
    rewrite (bool_decide_eq_true_2 (Store.h_run hd ≠ _)) by done. done.
Qed.

(** *** Starts *)

Lemma fresh_spec id h : isFresh id h = true → (id ∉ runIds h) ∧ objGet id (rows h) = None ∧ ∀ w hd, headOf w h = Some hd → Store.h_run hd ≠ id.
Proof.
  unfold isFresh. rewrite !andb_true_iff, !bool_decide_eq_true. intros [[H1 H2] H3]. split; [done|]. split.
  - destruct (objGet id (rows h)) eqn:E; [|done]. exfalso. apply H2, objGet_is_Some. eauto.
  - intros w hd Hh Hid. apply H3, list_elem_of_fmap. exists (w, hd). split; [done|]. by apply objGet_elem.
Qed.

Lemma fresh_clear id w h : isFresh id h = true → isFresh id (clearStandingTimer w h) = true.
Proof. done. Qed.

Lemma inv_track ex h r :
  Inv ex h → isFresh (runId r) h = true → handedOverTo r = None → boundWithNoRun r = false →
  Inv (λ i, ex i ∨ i = runId r) (set_runs (runs h ++ [r]) h).
Proof.
  intros HI (Hn & Hrow & Hhd)%fresh_spec Ho Hb.
  assert (∀ i, i ∉ runIds h → i ≠ runId r → i ∉ runIds (set_runs (runs h ++ [r]) h)) as HN.
  { intros i H1 H2. simpl. rewrite fmap_app, elem_of_app. simpl. rewrite list_elem_of_singleton. naive_solver. }
  assert (∀ i row, objGet i (rows h) = Some row → i ≠ runId r) as HR by (intros i row H ->; congruence).
  destruct HI. constructor; try done.
  - intros r' Hr Hs Hx. simpl in Hr. apply elem_of_app in Hr as [Hr| ->%list_elem_of_singleton]; [|exfalso; auto]. apply (inv_runs0 r' Hr); auto.
  - intros id w Hl Hs Hx. apply (inv_rows0 id w Hl Hs). auto.
  - simpl. rewrite fmap_app. apply NoDup_app. split; [done|]. split; [|apply NoDup_singleton]. simpl. intros i Hi ->%list_elem_of_singleton. done.
  - intros r' Hr. simpl in Hr. apply elem_of_app in Hr as [Hr| ->%list_elem_of_singleton]; [|done]. exact (inv_own0 r' Hr).
  - intros w hd Hh. destruct (inv_owner0 _ _ Hh) as [H1 H2]. split; [|done]. intros r' Hr. simpl in Hr.
    apply elem_of_app in Hr as [Hr| ->%list_elem_of_singleton]; [by apply H1|]. intros E. by destruct (Hhd w hd).
  - intros w id c s d Ht. destruct (inv_backoff0 _ _ _ _ _ Ht) as (hd & ? & ? & ? & ? & He & ?). exists hd. split_and!; auto.
    apply HN; [done|]. destruct He as (row & He & _). eauto.
  - intros w hd H1 H2. destruct (inv_paused0 _ _ H1 H2) as (? & ? & ?). split_and!; eauto.
  - intros k Hk. destruct (inv_keep0 k Hk) as (? & ? & Ha). split; [done|]. split; [done|]. intros w hd st Hat.
    destruct (Ha _ _ _ Hat) as (? & ? & ? & ? & ?). split_and!; eauto.
Qed.

(** A run that ends in its own start is no head yet: its end is saved and no more. *)
Lemma ended_at_start r status h :
  (∀ w hd, headOf w h = Some hd → Store.h_run hd ≠ runId r) →
  persistEnd opts r status true h = untrack (runId r) (save r (Some status) true h).
Proof.
  intros H. unfold persistEnd, standingEnded. set (h' := untrack _ _). change (headOf (workflow r) h') with (headOf (workflow r) h).
  destruct (headOf (workflow r) h) as [hd|] eqn:E; [|done]. by rewrite (bool_decide_eq_true_2 (Store.h_run hd ≠ runId r)) by eauto.
Qed.

(** What a label's start may be: its id is new, and the save of an end in that
    very call is not lost. *)
Definition goodStart (st : Start) (h : Host) : Prop :=
  match st with
  | Refused _ => True
  | Began id _ => isFresh id h = true
  | BeganAndEnded id _ _ ok => isFresh id h = true ∧ ok = true
  end.

(** The new head over a state that nothing of the Workflow but its old head is live in. *)
Lemma inv_newHead (ex : jstr → Prop) h w id s n :
  Inv ex h → stands w = true → 0 <= n <= STANDING_ERRORS_PAUSE → ¬ keptAt w h → objGet w (timers h) = None →
  (∀ r, r ∈ runs h → ex (runId r) → runId r = id ∧ workflow r = w) → (∀ i w', liveRow i w' h → ¬ ex i) →
  (∀ r, r ∈ runs h → runId r = id → workflow r = w) → (∀ row, objGet id (rows h) = Some row → st_workflow row = w) →
  Inv (λ i, headRun w h = Some i) (writeHead (Store.mkHead w id s n None) h).
Proof.
  intros HI Hs Hn Hk Ht Hex Hlive Ho1 Ho2. apply inv_writeHead with ex; simpl; try done; [lia|..].
  - intros r Hr Hw Hx. destruct (decide (runId r = id)) as [|N]; [done|]. exfalso. apply Hx. rewrite <- Hw.
    apply (inv_runs _ _ HI r Hr); [by rewrite Hw|]. intros He. by apply N, Hex.
  - intros i Hl Hx. exfalso. apply Hx. apply (inv_rows _ _ HI i w Hl Hs). by apply (Hlive i w).
  - intros r Hr Hw He. exfalso. by apply Hw, Hex.
  - intros i w' Hl _ He. exfalso. by apply (Hlive i w').
Qed.

Lemma runIds_track r h : runIds (set_runs (runs h ++ [r]) h) = runIds h ++ [runId r].
Proof. simpl. by rewrite fmap_app. Qed.

(** What a hand-over or a first start leaves: the new head, the new run when it
    lives, and the rows and runs that were there. *)
Record Started (w : jstr) (why : Why) (ctx : option Pool.PoolCtx) (drop : bool) (by_ : option Tokens.CallerRecord) (s : Z) (st : Start)
    (id : jstr) (h h' : Host) : Prop := mkStarted {
  sd_id : idOf st = Some id;
  sd_def : ∃ d, objGet w (workflowDefs h) = Some d ∧
    runs h' = runs h ++ match st with
                        | Began _ snap => [mkRun id w d (Some why) by_ (carryOf drop ctx) snap None false]
                        | _ => []
                        end;
  sd_heads : ∀ w', headOf w' h' = if decide (w' = w) then Some (Store.mkHead w id (IsoDate.toISOString (clock h)) s None) else headOf w' h;
  sd_rows : ∀ i, i ≠ id → objGet i (rows h') = objGet i (rows h);
  sd_row : ∀ row, objGet id (rows h') = Some row → st_ended row ≠ None;
  sd_keep : keeping h' = keeping h ∧ workflowDefs h' = workflowDefs h ∧ restorePending h' = restorePending h ∧ exits h' = exits h;
  sd_inv : Inv (λ i, headRun w h = Some i) h';
}.

Lemma startStanding_began w why ctx drop by_ s id snap d h :
  Inv none h → stands w = true → ¬ keptAt w h → 0 <= s <= STANDING_ERRORS_PAUSE → isFresh id h = true → objGet w (workflowDefs h) = Some d →
  ∃ h', startStanding opts otherDate w why ctx drop by_ s (Began id snap) h = (Ok id, h')
    ∧ Started w why ctx drop by_ s (Began id snap) id h h'.
Proof.
  intros HI Hs Hk Hn Hf Hd. unfold startStanding, bindM, modify, startNow, ret. cbn [workflowDefs clearStandingTimer set_timers]. rewrite Hd.
  set (r := mkRun _ _ _ _ _ _ _ _ _). set (h1 := clearStandingTimer w h). set (h2 := set_runs (runs h1 ++ [r]) h1).
  set (hd := Store.mkHead _ _ _ _ _). eexists. split; [reflexivity|].
  destruct (fresh_spec _ _ Hf) as (Hnr & Hrow & Hhd).
  assert (Inv (λ i, False ∨ i = id) h2) as HI2 by (apply (inv_track none h1 r); [by apply inv_clearTimer|done..]).
  assert (Inv (λ i, headRun w h = Some i) (writeHead hd h2)) as HI3.
  { apply (inv_newHead _ h2 w id _ s HI2 Hs Hn Hk).
    - simpl. apply objGet_del_same.
    - intros r' Hr [[]|Hid]. split; [done|]. simpl in Hr. apply elem_of_app in Hr as [Hr| ->%list_elem_of_singleton]; [|done].
      exfalso. apply Hnr, list_elem_of_fmap. by exists r'.
    - intros i w' (row & H1 & _) [[]|Hid]. subst. simpl in H1. congruence.
    - intros r' Hr Hid. simpl in Hr. apply elem_of_app in Hr as [Hr| ->%list_elem_of_singleton]; [|done].
      exfalso. apply Hnr, list_elem_of_fmap. by exists r'.
    - intros row Hr'. change (objGet id (rows h) = Some row) in Hr'. congruence. }
  assert (headOf w (writeHead hd h2) = Some hd) as HH by (rewrite headOf_writeHead; by rewrite decide_True).
  set (h4 := match findRun id (writeHead hd h2) with Some _ => _ | None => _ end).
  assert (Inv (λ i, headRun w h = Some i) h4 ∧ runs h4 = runs h2 ∧ (∀ w', headOf w' h4 = headOf w' (writeHead hd h2))
          ∧ rows h4 = rows h ∧ keeping h4 = keeping h ∧ workflowDefs h4 = workflowDefs h ∧ restorePending h4 = restorePending h ∧ exits h4 = exits h) as (H1 & H2 & H3 & H4 & H5).
  { unfold h4. destruct (findRun id _); [|split_and!; try done]. split; [by eapply inv_armAge|]. split_and!; done. }
  constructor; try done.
  - exists d. by rewrite H2.
  - intros w'. rewrite H3, headOf_writeHead. done.
  - intros i _. by rewrite H4.
  - intros row. rewrite H4, Hrow. done.
Qed.

Lemma startStanding_ended w why ctx drop by_ s id snap status d h :
  Inv none h → stands w = true → ¬ keptAt w h → 0 <= s <= STANDING_ERRORS_PAUSE → isFresh id h = true → objGet w (workflowDefs h) = Some d →
  ∃ h', startStanding opts otherDate w why ctx drop by_ s (BeganAndEnded id snap status true) h = (Ok id, h')
    ∧ Started w why ctx drop by_ s (BeganAndEnded id snap status true) id h h'.
Proof.
  intros HI Hs Hk Hn Hf Hd. unfold startStanding, bindM, modify, startNow, ret. cbn [workflowDefs clearStandingTimer set_timers]. rewrite Hd.
  set (r := mkRun _ _ _ _ _ _ _ _ _). set (h1 := clearStandingTimer w h). set (h2 := set_runs (runs h1 ++ [r]) h1).
  destruct (fresh_spec _ _ Hf) as (Hnr & Hrow & Hhd).
  assert (hosted r h2) as Hr by (exists r; split; [simpl; apply elem_of_app; right; by apply list_elem_of_singleton|done]).
  assert (Inv (λ i, False ∨ i = id) h2) as HI2 by (apply (inv_track none h1 r); [by apply inv_clearTimer|done..]).
  pose proof (inv_gone _ _ _ status HI2 Hr ltac:(intros i [[]| ->]; done)) as HI3.
  rewrite (ended_at_start r status h2) by exact Hhd. set (h3 := untrack _ _) in *. set (hd := Store.mkHead _ _ _ _ _).
  assert (runs h3 = runs h) as ER.
  { unfold h3. simpl. rewrite filter_app, filter_cons_False, filter_nil, app_nil_r by (intros H; by apply H).
    apply filter_all. apply Forall_forall. intros r' Hr' E. apply Hnr, list_elem_of_fmap. by exists r'. }
  assert (findRun id (writeHead hd h3) = None) as ->.
  { apply findRun_None. change (runs (writeHead hd h3)) with (runs h3). by rewrite ER. }
  eexists. split; [reflexivity|]. constructor; try done.
  - exists d. split; [done|]. change (runs (writeHead hd h3)) with (runs h3). by rewrite ER, app_nil_r.
  - intros w'. rewrite headOf_writeHead. reflexivity.
  - intros i Hi. simpl. by rewrite objGet_objSet, decide_False.
  - intros row. simpl. rewrite objGet_objSet, decide_True by done. by intros [= <-].
  - apply (inv_newHead none h3 w id _ s HI3 Hs Hn Hk); [simpl; apply objGet_del_same|done|auto| |].
    + rewrite ER. intros r' Hr' E. exfalso. apply Hnr, list_elem_of_fmap. by exists r'.
    + intros row. simpl. rewrite objGet_objSet, decide_True by done. by intros [= <-].
Qed.

(** A start of a standing Workflow's run. *)
Lemma startStanding_spec w why ctx drop by_ s st h :
  Inv none h → stands w = true → ¬ keptAt w h → 0 <= s <= STANDING_ERRORS_PAUSE → goodStart st h →
  match startStanding opts otherDate w why ctx drop by_ s st h with
  | (Throw _, h') => h' = clearStandingTimer w h
  | (Ok id, h') => Started w why ctx drop by_ s st id h h'
  end.
Proof.
  intros HI Hs Hk Hn Hg. destruct (objGet w (workflowDefs h)) as [d|] eqn:Hd.
  - destruct st as [m|id snap|id snap status ok].
    + unfold startStanding, bindM, modify, startNow. cbn [workflowDefs clearStandingTimer set_timers]. by rewrite Hd.
    + by destruct (startStanding_began w why ctx drop by_ s id snap d h) as (h' & -> & H).
    + destruct Hg as [Hf ->]. by destruct (startStanding_ended w why ctx drop by_ s id snap status d h) as (h' & -> & H).
  - unfold startStanding, bindM, modify, startNow. cbn [workflowDefs clearStandingTimer set_timers]. by rewrite Hd.
Qed.

Lemma goodStart_fresh st h id : goodStart st h → idOf st = Some id → isFresh id h = true.
Proof. destruct st; simpl; [done|intros ? [= <-]; done|intros [? _] [= <-]; done]. Qed.

(** With nothing of the old head live, the new run is all that is. *)
Lemma inv_started_idle w why ctx drop by_ s st id h h' :
  goodStart st h → Started w why ctx drop by_ s st id h h' →
  (∀ hd, headOf w h = Some hd → (Store.h_run hd ∉ runIds h) ∧ ∀ w', ¬ liveRow (Store.h_run hd) w' h) → Inv none h'.
Proof.
  intros Hg HS Hidle. pose proof (goodStart_fresh _ _ _ Hg (sd_id _ _ _ _ _ _ _ _ _ _ HS)) as (_ & _ & Hhd)%fresh_spec.
  eapply inv_weaken; [exact (sd_inv _ _ _ _ _ _ _ _ _ _ HS)|]. intros i Hi _. destruct (headOf w h) as [hd|] eqn:Eh; [|done].
  injection Hi as <-. destruct (Hidle hd eq_refl) as [H1 H2]. pose proof (Hhd _ _ Eh) as Hne. split.
  - destruct (sd_def _ _ _ _ _ _ _ _ _ _ HS) as (d & _ & ->). rewrite fmap_app. intros [H|H]%elem_of_app; [done|].
    destruct st; simpl in H; [set_solver| |set_solver]. apply list_elem_of_singleton in H. done.
  - intros w' (row & E & Hl). rewrite (sd_rows _ _ _ _ _ _ _ _ _ _ HS) in E by done. apply (H2 w'). by exists row.
Qed.

Lemma started_hosted w why ctx drop by_ s st id h h' r : Started w why ctx drop by_ s st id h h' → r ∈ runs h → r ∈ runs h'.
Proof. intros HS Hr. destruct (sd_def _ _ _ _ _ _ _ _ _ _ HS) as (d & _ & ->). apply elem_of_app. by left. Qed.

(** The start of a hand-over from the live run that the head names. *)
Lemma handOver_spec h r st :
  Inv none h → r ∈ runs h → stands (workflow r) = true → headRun (workflow r) h = Some (runId r) → goodStart st h →
  ¬ keptAt (workflow r) h ∧
  match startStanding opts otherDate (workflow r) hand_over (Some (s_ctx (actor r))) false None 0 st h with
  | (Throw _, h') => h' = clearStandingTimer (workflow r) h
  | (Ok id, h') => Started (workflow r) hand_over (Some (s_ctx (actor r))) false None 0 st id h h'
  end.
Proof.
  intros HI Hr Hs Hh Hg. destruct (headOf (workflow r) h) as [hd|] eqn:Eh; [|done]. injection Hh as Ehd.
  assert (¬ keptAt (workflow r) h) as Hk by (eapply not_kept; [done| |exact Eh|done]; apply list_elem_of_fmap; eauto).
  split; [done|]. apply startStanding_spec; [done..|unfold STANDING_ERRORS_PAUSE; lia|done].
Qed.

Lemma inv_handOverLive h r st :
  Inv none h → r ∈ runs h → stands (workflow r) = true → headRun (workflow r) h = Some (runId r) → goodStart st h →
  Inv none (handOverLive opts otherDate r st true h).2.
Proof.
  intros HI Hr Hs Hh Hg. unfold handOverLive, bindM, modify. destruct (handOver_spec h r st HI Hr Hs Hh Hg) as [_ HS].
  destruct (headOf (workflow r) h) as [hd|] eqn:Eh; [|done]. injection Hh as Ehd.
  destruct (startStanding _ _ _ _ _ _ _ _ _ h) as [[id|e] h']; simpl; [|subst; by apply inv_clearTimer].
  eapply inv_persistEnd; [exact (sd_inv _ _ _ _ _ _ _ _ _ _ HS)| |].
  - exists r. split; [by eapply started_hosted|done].
  - intros i Hi. rewrite Eh in Hi. simpl in *. congruence.
Qed.

(** A live run of a standing Workflow is its head. *)
Lemma live_is_head h r : Inv none h → r ∈ runs h → stands (workflow r) = true → headRun (workflow r) h = Some (runId r).
Proof. intros HI Hr Hs. apply (inv_runs _ _ HI); [done|done|by intros []]. Qed.

Lemma inv_atBound h id st : Inv none h → goodStart st h → Inv none (atBound opts otherDate id st true h).2.
Proof.
  intros HI Hg. unfold atBound. destruct (findRun id h) as [r|] eqn:Er; [|done]. apply findRun_Some in Er as [Hr Hid].
  destruct (decide (headRun (workflow r) h = Some id)) as [Hh|N]; [|by rewrite bool_decide_eq_true_2].
  rewrite bool_decide_eq_false_2 by (intros H; by apply H). destruct (negb _); [done|]. cbn [orb]. rewrite <- Hid in Hh.
  assert (stands (workflow r) = true) as Hs.
  { destruct (headOf (workflow r) h) eqn:Eh; [|done]. by apply (inv_heads _ _ HI) in Eh as []. }
  destruct (tookOf r).1; [by apply inv_handOverLive|]. simpl. eapply inv_persistEnd; [done|by exists r|done].
Qed.

Lemma inv_fireAge h w id st : Inv none h → goodStart st h → Inv none (fireAge opts otherDate w id st true h).2.
Proof.
  intros HI Hg. unfold fireAge. destruct (findRun id h) as [r|] eqn:Er; [|done]. apply findRun_Some in Er as [Hr Hid].
  case_bool_decide as Hh; [|done]. destruct (headOf w h) as [hd|] eqn:Eh; [|done]. injection Hh as Ehd.
  destruct (inv_heads _ _ HI _ _ Eh) as [Hs _]. destruct (inv_owner _ _ HI _ _ Eh) as [Ho _].
  assert (workflow r = w) as Hw by (apply Ho; [done|congruence]). subst w.
  apply inv_handOverLive; try done. by apply live_is_head.
Qed.

Lemma ended_not_live id c w h : endedRow id c h → ¬ liveRow id w h.
Proof. intros (row & H1 & H2 & _) (row' & H3 & H4 & _). congruence. Qed.

(** A start with nothing of the Workflow live. *)
Lemma inv_startIdle h w why ctx drop by_ s st :
  Inv none h → stands w = true → ¬ keptAt w h → 0 <= s <= STANDING_ERRORS_PAUSE → goodStart st h →
  (∀ hd, headOf w h = Some hd → (Store.h_run hd ∉ runIds h) ∧ ∀ w', ¬ liveRow (Store.h_run hd) w' h) →
  Inv none (startStanding opts otherDate w why ctx drop by_ s st h).2.
Proof.
  intros HI Hs Hk Hn Hg Hidle. pose proof (startStanding_spec w why ctx drop by_ s st h HI Hs Hk Hn Hg) as HS.
  destruct (startStanding _ _ _ _ _ _ _ _ _ h) as [[id|e] h']; simpl; [by eapply inv_started_idle|]. subst. by apply inv_clearTimer.
Qed.

Lemma inv_fireBackoff h w id c s st hd :
  Inv none h → headOf w h = Some hd → Store.h_run hd = id → Store.h_paused hd = None → Store.h_streak hd = s → endedRow id c h →
  id ∉ runIds h → ¬ keptAt w h → goodStart st h → Inv none (fireBackoff opts otherDate w id c s st h).
Proof.
  intros HI Hh Hid Hp Hst He Hn Hk Hg. unfold fireBackoff. destruct (_ || _); [done|].
  destruct (inv_heads _ _ HI _ _ Hh) as [Hs _]. destruct (inv_streak _ _ HI _ _ Hh) as [H0 H3]. specialize (H3 Hp).
  apply inv_startIdle; try done; [lia|]. intros hd' E. assert (hd' = hd) as -> by congruence. rewrite Hid. split; [done|].
  intros w'. by eapply ended_not_live.
Qed.

(** The head's run is not hosted where nothing of the Workflow is. *)
Lemma head_not_hosted ex h w hd : Inv ex h → headOf w h = Some hd → standingRun w h = None → Store.h_run hd ∉ runIds h.
Proof.
  intros HI Hh Hr H. apply list_elem_of_fmap in H as (r & E & H). destruct (inv_owner _ _ HI _ _ Hh) as [Ho _].
  by apply (standingRun_None _ _ Hr r H), Ho.
Qed.

(** What [keepOne] leaves when it goes to read a row. *)
Definition readyAt (w : jstr) (hd : Head) (stored : option Stored) (h : Host) : Prop :=
  headOf w h = Some hd ∧ Store.h_paused hd = None ∧ objGet w (timers h) = None ∧ (Store.h_run hd ∉ runIds h)
  ∧ objGet (Store.h_run hd) (rows h) = stored.

Lemma inv_keepOne h w d why st :
  Inv none h → stands w = true → ¬ keptAt w h → goodStart st h →
  Inv none (keepOne opts otherDate w d why st true h).2 ∧
  ∀ hd stored h', keepOne opts otherDate w d why st true h = (Ok (Some (hd, stored)), h') → h' = h ∧ readyAt w hd stored h.
Proof.
  intros HI Hs Hk Hg. unfold keepOne. destruct (standingRun w h) as [live|] eqn:EL.
  - apply standingRun_Some in EL as [Hw Hl]. subst w. pose proof (live_is_head _ _ HI Hl Hs) as Hh.
    rewrite bool_decide_eq_false_2 by (intros H; by apply H). destruct (negb _).
    + unfold bindM, ret. pose proof (inv_handOverLive h live st HI Hl Hs Hh Hg) as H.
      destruct (handOverLive _ _ _ _ _ h) as [[[]|e] h'] eqn:E; simpl in *; done.
    + split; [|done]. destruct (headOf (workflow live) h) as [hd|] eqn:Eh; [|done]. injection Hh as E. simpl.
      eapply inv_armAge; [done|exact Eh| |done]. eapply inv_running; [done| |exact Eh|done]. apply list_elem_of_fmap. eauto.
  - case_bool_decide as Ep; [done|]. case_bool_decide as Et; [done|]. destruct (headOf w h) as [hd|] eqn:Eh.
    + case_bool_decide; [done|]. split; [done|]. intros hd' st' h' [= <- <- <-]. split; [done|]. split_and!; try done.
      * destruct (Store.h_paused hd) eqn:E; [|done]. exfalso. apply Ep. simpl. by rewrite E.
      * destruct (objGet w (timers h)); [|done]. exfalso. by apply Et.
      * by eapply head_not_hosted.
    + unfold bindM, ret. assert (Inv none (startStanding opts otherDate w why None false None 0 st h).2) as H.
      { apply inv_startIdle; try done. by rewrite Eh. }
      destruct (startStanding _ _ _ _ _ _ _ _ _ h) as [[id|e] h'] eqn:E; simpl in *; done.
Qed.

Lemma inv_keepLoaded h w hd stored why st :
  Inv none h → readyAt w hd stored h → ¬ keptAt w h → goodStart st h → Inv none (keepLoaded opts otherDate w hd stored why st h).2.
Proof.
  intros HI (Hh & Hp & Ht & Hn & Hrow) Hk Hg. destruct (inv_heads _ _ HI _ _ Hh) as [Hs Hw].
  destruct (inv_streak _ _ HI _ _ Hh) as [H0 H3]. specialize (H3 Hp).
  assert (∀ s ctx why, 0 <= s <= STANDING_ERRORS_PAUSE → (∀ row, stored = Some row → st_ended row ≠ None) →
            Inv none (bindM (startStanding opts otherDate w why ctx false None s st) (λ _, ret tt) h).2) as HST.
  { intros s ctx why' Hs' Hend. unfold bindM, ret.
    assert (Inv none (startStanding opts otherDate w why' ctx false None s st h).2) as H.
    { apply inv_startIdle; try done. intros hd' E. assert (hd' = hd) as -> by congruence. split; [done|].
      intros w' (row & E1 & E2 & _). rewrite Hrow in E1. by apply (Hend row). }
    by destruct (startStanding _ _ _ _ _ _ _ _ _ h) as [[id|e] h']. }
  unfold keepLoaded. destruct stored as [row|]; [|apply HST; [unfold STANDING_ERRORS_PAUSE; lia|done]].
  destruct (st_ended row) as [e|] eqn:Ee; [|done].
  assert (Inv none (bindM (handOverFrom opts otherDate w (Some (st_ctx row)) hand_over false None (Store.h_streak hd) st) (λ _, ret tt) h).2) as HF.
  { apply HST; [lia|]. intros row' [= <-]. by rewrite Ee. }
  destruct e; try exact HF. simpl.
  apply inv_writeHead with none; simpl; try done; try (rewrite Hw; done).
  - intros r Hr Hwr _. pose proof (live_is_head _ _ HI Hr) as H. rewrite Hwr, Hw, Hh in H. specialize (H Hs). by injection H as ->.
  - intros i Hl _. rewrite Hw in Hl. pose proof (inv_rows _ _ HI i w Hl Hs ltac:(by intros [])) as H. rewrite Hh in H. by injection H as ->.
  - intros _. split; [|done]. exists (st_ctx row), row. by rewrite Ee.
  - rewrite Hw. apply (inv_owner _ _ HI _ _ Hh).
  - rewrite Hw. apply (inv_owner _ _ HI _ _ Hh).
Qed.

Lemma inv_setKeeping h k :
  Inv none h → (∀ k', k = Some k' → restorePending h = false ∧ (∀ w d, (w, d) ∈ k_rest k' → (is_Some (d_standing d) ↔ stands w = true))
                          ∧ ∀ w hd stored, k_at k' = Some (w, hd, stored) → readyAt w hd stored h) →
  Inv none (set_keeping k h).
Proof. intros [] H. constructor; assumption. Qed.

Lemma goodStart_same st h h' : runs h' = runs h → rows h' = rows h → heads h' = heads h → goodStart st h → goodStart st h'.
Proof. intros E1 E2 E3. unfold goodStart, isFresh. by rewrite E1, E2, E3. Qed.

Lemma not_keptAt w h k : keeping h = Some k → k_at k = None → ¬ keptAt w h.
Proof. intros H1 H2 (k' & hd & st & H3 & H4). congruence. Qed.

Lemma inv_keepNext h k st : Inv none h → keeping h = Some k → goodStart st h → Inv none (keepNext opts otherDate k st true h).
Proof.
  intros HI Hk Hg. destruct (inv_keep _ _ HI k Hk) as (Hp & Hrest & Hat). unfold keepNext.
  assert (∀ rest, (∀ x, x ∈ rest → x ∈ k_rest k) → Inv none (set_keeping (Some (mkKeep (k_why k) rest None)) h)) as HK.
  { intros rest Hr. apply inv_setKeeping; [done|]. intros k' [= <-]. simpl. split; [done|]. split; [|done]. intros w d Hin. apply Hrest. by apply Hr. }
  destruct (k_at k) as [[[w hd] stored]|] eqn:Ea.
  - apply inv_keepLoaded; [by apply HK|exact (Hat _ _ _ eq_refl)|by eapply not_keptAt|by eapply goodStart_same].
  - destruct (k_rest k) as [|[w d] rest] eqn:Er; [by apply inv_setKeeping|].
    assert (∀ x, x ∈ rest → x ∈ (w, d) :: rest) as Hsub by (intros x Hx; by right).
    case_bool_decide as Hd; [|by apply HK]. set (h1 := set_keeping _ h).
    destruct (inv_keepOne h1 w d (k_why k) st) as [H1 H2]; [by apply HK|by apply (Hrest w d (list_elem_of_here _ _))|by eapply not_keptAt|by eapply goodStart_same|].
    destruct (keepOne _ _ _ _ _ _ _ h1) as [[[[hd stored]|]|e] h'] eqn:E; [|exact H1|exact H1].
    destruct (H2 _ _ _ eq_refl) as [-> Hrd]. apply inv_setKeeping; [by apply HK|]. intros k' [= <-]. simpl. split; [done|]. split.
    + intros w' d' Hin. apply Hrest. by right.
    + intros w' hd' st' [= <- <- <-]. exact Hrd.
Qed.

Lemma inv_resumeLoaded h z st : Inv none h → goodStart st h → Inv none (resumeLoaded opts otherDate z st h).2.
Proof.
  intros HI Hg. unfold resumeLoaded. case_bool_decide; [done|]. simpl.
  destruct (headOf (z_workflow z) h) as [hd|] eqn:Eh; [|done]. simpl. case_bool_decide as Hp; [|done]. simpl.
  destruct (inv_heads _ _ HI _ _ Eh) as [Hs _].
  destruct (inv_paused _ _ HI _ _ Eh) as (Ht & [c Hc] & Hn); [intros E; rewrite E in Hp; by destruct Hp|].
  apply inv_startIdle; try done.
  - intros (k & hd' & st' & Hk & Ha). destruct (inv_keep _ _ HI k Hk) as (_ & _ & HA). destruct (HA _ _ _ Ha) as (H1 & H2 & _).
    assert (hd' = hd) as -> by congruence. rewrite H2 in Hp. by destruct Hp.
  - intros hd' E. assert (hd' = hd) as -> by congruence. split; [done|]. intros w'. by eapply ended_not_live.
Qed.

(** Runs of other Workflows may live beside. *)
Lemma inv_ordinary ex h :
  Inv ex h → (∀ r, r ∈ runs h → ex (runId r) → stands (workflow r) = false) → (∀ i w, liveRow i w h → ex i → stands w = false) → Inv none h.
Proof.
  intros [] H1 H2. constructor; try assumption.
  - intros r Hr Hs _. apply inv_runs0; [done|done|]. intros Hx. rewrite (H1 r Hr Hx) in Hs. done.
  - intros id w Hl Hs _. apply inv_rows0; [done|done|]. intros Hx. rewrite (H2 id w Hl Hx) in Hs. done.
Qed.

Lemma inv_startRun h w st : Inv none h → isStanding w h = false → goodStart st h → Inv none (startNow opts w Pool.noCarry None None st h).2.
Proof.
  intros HI Hn Hg. unfold startNow. destruct (objGet w (workflowDefs h)) as [d|] eqn:Ed; [|done].
  assert (stands w = false) as Hs.
  { unfold isStanding in Hn. rewrite Ed in Hn. apply bool_decide_eq_false in Hn. simpl in Hn.
    destruct (stands w) eqn:E; [|done]. exfalso. by apply Hn, (inv_defs _ _ HI _ _ (objGet_elem _ _ _ Ed)). }
  destruct st as [m|id snap|id snap status ok]; simpl; [done| |].
  - destruct (fresh_spec _ _ Hg) as (Hnr & Hrow & _).
    eapply inv_ordinary; [exact (inv_track none h (mkRun id w d None None Pool.noCarry snap None false) HI Hg eq_refl eq_refl)|..].
    + intros r Hr [[]|E]. simpl in Hr. apply elem_of_app in Hr as [Hr| ->%list_elem_of_singleton]; [|done].
      exfalso. apply Hnr, list_elem_of_fmap. by exists r.
    + intros i w' (row & E & _) [[]|E']. simpl in *. subst i. congruence.
  - destruct Hg as [Hf ->]. eapply inv_persistEnd; [exact (inv_track none h (mkRun id w d None None Pool.noCarry snap None false) HI Hf eq_refl eq_refl)|..].
    + eexists. split; [simpl; apply elem_of_app; right; by apply list_elem_of_singleton|done].
    + intros i [[]| ->]; done.
Qed.

Lemma standing_inv_move h id snap :
  Inv none h → Inv none (set_runs ((λ r, if bool_decide (runId r = id) then set_actor snap r else r) <$> runs h) h).
Proof.
  intros HI. set (f := λ r, if bool_decide (runId r = id) then set_actor snap r else r). assert (∀ r, runId (f r) = runId r ∧ workflow (f r) = workflow r ∧ handedOverTo (f r) = handedOverTo r ∧ boundWithNoRun (f r) = boundWithNoRun r) as Hf
    by (intros r; unfold f; by case_bool_decide).
  assert (runIds (set_runs (f <$> runs h) h) = runIds h) as HE.
  { simpl. rewrite <- list_fmap_compose. apply list_fmap_ext. intros i r _. apply Hf. }
  destruct HI. constructor; try assumption; rewrite ?HE; try assumption.
  - intros r Hr. simpl in Hr. apply list_elem_of_fmap in Hr as (r0 & -> & Hr). destruct (Hf r0) as (-> & -> & _). by apply inv_runs0.
  - intros r Hr. simpl in Hr. apply list_elem_of_fmap in Hr as (r0 & -> & Hr). destruct (Hf r0) as (_ & _ & -> & ->). by apply inv_own0.
  - intros w hd Hh. destruct (inv_owner0 _ _ Hh) as [H1 H2]. split; [|done]. intros r Hr. simpl in Hr.
    apply list_elem_of_fmap in Hr as (r0 & -> & Hr). destruct (Hf r0) as (-> & -> & _). by apply H1.
Qed.

Lemma inv_die h : Inv none h → Inv none (die h).
Proof.
  intros []. assert (∀ w, headOf w (die h) = headOf w h) as EH by (intros w; apply inv_table0).
  constructor; simpl; try done; try (by intros ? H; apply elem_of_nil in H); try setoid_rewrite EH; try done.
  - by constructor.
  - by intros w d Hd%elem_of_nil.
  - intros w hd Hh. destruct (inv_owner0 _ _ Hh) as [_ H]. split; [by intros r Hr%elem_of_nil|done].
  - intros w hd H1 H2. destruct (inv_paused0 _ _ H1 H2) as (_ & H & _). split; [done|]. split; [done|]. apply not_elem_of_nil.
Qed.

Lemma inv_orDie (r : result jstr unit * Host) : Inv none r.2 → Inv none (orDie r).
Proof. destruct r as [[[]|e] h]; simpl; [done|]. intros H. apply inv_die. by eapply standing_inv_other. Qed.

Lemma inv_restore h id o row :
  Inv none h → objGet id (rows h) = Some row → st_ended row = None → findRun id h = None → restorePending h = true → Inv none (restoreRow id o row h).
Proof.
  intros HI Hrow Hl Hn Hp. apply findRun_None in Hn.
  assert (keeping h = None) as HK. { destruct (keeping h) eqn:E; [|done]. destruct (inv_keep _ _ HI _ E) as [H _]. congruence. }
  assert (∀ i c, endedRow i c h → i ≠ id) as HE by (intros i c (row' & H1 & H2 & _) ->; congruence).
  assert (∀ status, Inv none (set_rows (objSet id (endRow status row) (rows h)) h)) as HM.
  { intros status. destruct HI. constructor; simpl; rewrite ?HK; try done.
    - intros i w (row' & H1 & H2 & H3) Hs. simpl in H1. rewrite objGet_objSet in H1. case_decide; [by simplify_eq|]. apply inv_rows0; [by exists row'|done].
    - intros w hd Hh. destruct (inv_owner0 _ _ Hh) as [H1 H2]. split; [done|]. intros row'. rewrite objGet_objSet. case_decide as E; [|apply H2].
      intros [= <-]. simpl. apply H2. congruence.
    - intros w i c s d Ht. destruct (inv_backoff0 _ _ _ _ _ Ht) as (hd & ? & ? & ? & ? & He & ?). exists hd. split_and!; auto.
      pose proof (HE _ _ He). destruct He as (row' & E & He). exists row'. simpl. by rewrite objGet_objSet, decide_False.
    - intros w hd H1 H2. destruct (inv_paused0 _ _ H1 H2) as (? & [c Hc] & ?). split_and!; try done. pose proof (HE _ _ Hc).
      destruct Hc as (row' & E & Hc). exists c, row'. simpl. by rewrite objGet_objSet, decide_False. }
  destruct o as [d ch ef| | |]; simpl; [|apply HM|apply HM|by eapply standing_inv_other].
  eapply standing_inv_other with (h := set_runs (runs h ++ [_]) h); [|reflexivity..|done]. set (r := mkRun _ _ _ _ _ _ _ _ _).
  assert (∀ i, i ∉ runIds h → i ≠ id → i ∉ runIds (set_runs (runs h ++ [r]) h)) as HN.
  { intros i H1 H2. rewrite runIds_track, elem_of_app, list_elem_of_singleton. intros [|]; done. }
  destruct HI. constructor; try assumption; try (simpl; rewrite HK; done).
  - intros r' Hr Hs _. simpl in Hr. apply elem_of_app in Hr as [Hr| ->%list_elem_of_singleton]; [by apply inv_runs0; auto|].
    apply (inv_rows0 id); [by exists row|done|by intros []].
  - rewrite runIds_track. apply NoDup_app. split; [done|]. split; [|apply NoDup_singleton]. intros i Hi ->%list_elem_of_singleton. done.
  - intros r' Hr. simpl in Hr. apply elem_of_app in Hr as [Hr| ->%list_elem_of_singleton]; [by apply inv_own0|done].
  - intros w hd Hh. destruct (inv_owner0 _ _ Hh) as [H1 H2]. split; [|done]. intros r' Hr. simpl in Hr.
    apply elem_of_app in Hr as [Hr| ->%list_elem_of_singleton]; [by apply H1|]. simpl. intros E. apply H2. by rewrite <- E.
  - intros w i c s d0 Ht. destruct (inv_backoff0 _ _ _ _ _ Ht) as (hd & ? & ? & ? & ? & He & ?). exists hd. split_and!; eauto.
  - intros w hd H1 H2. destruct (inv_paused0 _ _ H1 H2) as (? & [c Hc] & ?). split_and!; eauto.
Qed.

Lemma inv_swap h loaded :
  Inv none h → (∀ w d, (w, d) ∈ loaded → (is_Some (d_standing d) ↔ stands w = true)) → Inv none (swap loaded h).
Proof.
  intros [] H. constructor; try assumption. intros w d Hd. unfold swap in Hd. simpl in Hd.
  apply list_elem_of_filter in Hd as [_ Hd]. apply objSets_in in Hd as [Hd|Hd]; [by apply H|by apply inv_defs0].
Qed.

(** ** Labels *)

(** The save of an end is not lost, and a Workflow's name stands in each Assembly
    that has it, or in none. *)
Definition savedStart (st : Start) : Prop := match st with BeganAndEnded _ _ _ ok => ok = true | _ => True end.

Definition sound (l : Label) : Prop :=
  match l with
  | Swap loaded => ∀ w d, (w, d) ∈ loaded → (is_Some (d_standing d) ↔ stands w = true)
  | KeepNext st ok | Bound _ st ok | Fire _ st ok => ok = true ∧ savedStart st
  | StartRun _ st | ResumeGo st => savedStart st
  | Ends _ _ ok => ok = true
  | _ => True
  end.

Lemma fresh_good l h st : freshFor l h = true → startOf l = Some st → savedStart st → goodStart st h.
Proof. unfold freshFor. intros H Hl Hs. rewrite Hl in H. destruct st; simpl in *; done. Qed.

Lemma keptAt_timer ex h w : Inv ex h → keptAt w h → objGet w (timers h) = None.
Proof. intros HI (k & hd & st & Hk & Ha). destruct (inv_keep _ _ HI k Hk) as (_ & _ & H). by destruct (H _ _ _ Ha) as (_ & _ & ? & _). Qed.

Lemma standing_inv_exec l h h' : Inv none h → sound l → exec opts otherDate l h = Some h' → Inv none h'.
Proof.
  intros HI Hs. unfold exec. destruct (freshFor l h) eqn:Ef; [|done]. cbn [negb]. pose proof (fresh_good l h) as Hg. rewrite Ef in Hg.
  destruct l as [loaded|why|st ok|w st|id snap|id ok|id status ok|id st ok|w st ok|w by_ drop|st|ms| | |id o|]; simpl in Hs.
  - intros [= <-]. by apply inv_swap.
  - destruct (restorePending h) eqn:Ep; [done|]. case_bool_decide; [done|]. intros [= <-]. apply inv_setKeeping; [done|].
    intros k' [= <-]. simpl. split; [done|]. split; [|done]. apply (inv_defs _ _ HI).
  - destruct Hs as [-> Hs]. destruct (keeping h) as [k|] eqn:Ek; [|done]. intros [= <-]. apply inv_keepNext; [done..|by apply Hg].
  - destruct (isStanding w h) eqn:Ew; [done|]. intros [= <-]. apply inv_startRun; [done..|by apply Hg].
  - destruct (findRun id h); [|done]. intros [= <-]. by apply standing_inv_move.
  - destruct (findRun id h) as [r|] eqn:Er; [|done]. intros [= <-]. apply findRun_Some in Er as [Hr _].
    assert (Inv none (save r None ok h)) by (apply inv_save; [done|by apply hosted_in|by intros _ []]).
    destruct (checkBound _ _ _); [|done]. by eapply standing_inv_other.
  - subst ok. destruct (findRun id h) as [r|] eqn:Er; [|done]. intros [= <-]. apply findRun_Some in Er as [Hr _].
    eapply inv_persistEnd; [done|by apply hosted_in|done].
  - destruct Hs as [-> Hs]. case_bool_decide; [|done]. intros [= <-]. apply inv_orDie, inv_atBound; [by eapply standing_inv_other|].
    eapply goodStart_same; [reflexivity..|by apply Hg].
  - destruct Hs as [-> Hs]. destruct (objGet w (timers h)) as [tm|] eqn:Et; [|done]. destruct (_ <=? _); [|done].
    assert (Inv none (clearStandingTimer w h)) as HC by (by apply inv_clearTimer).
    assert (goodStart st (clearStandingTimer w h)) as HG by (eapply goodStart_same; [reflexivity..|by apply Hg]).
    cbn [stopping set_timers]. destruct (stopping h); [intros [= <-]; exact HC|]. destruct tm as [id d|id c s d]; intros [= <-].
    + by apply inv_orDie, inv_fireAge.
    + destruct (inv_backoff _ _ HI _ _ _ _ _ Et) as (hd & H1 & H2 & H3 & H4 & H5 & H6). eapply inv_fireBackoff; try done.
      intros Hk. change (keptAt w h) in Hk. pose proof (keptAt_timer _ _ _ HI Hk). congruence.
  - intros [= <-]. destruct (resumeStanding _ _ _ h); [|done]. by eapply standing_inv_other.
  - destruct (resuming h) as [|z rest] eqn:Er; [done|]. intros [= <-]. apply inv_resumeLoaded; [by eapply standing_inv_other|].
    eapply goodStart_same; [reflexivity..|by apply Hg].
  - destruct (0 <=? ms); [|done]. intros [= <-]. by eapply standing_inv_other.
  - intros [= <-]. by eapply standing_inv_other.
  - intros [= <-]. by apply inv_die.
  - destruct (restorePending h) eqn:Ep; [|done]. cbn [negb orb]. case_bool_decide as Hf; [done|].
    destruct (objGet id (rows h)) as [row|] eqn:Erow; [|done]. unfold isLiveRow. case_bool_decide as Hl; [|done]. intros [= <-].
    apply inv_restore; try done. by destruct (findRun id h); [exfalso; apply Hf|].
  - destruct (forallb _ _); [|done]. intros [= <-]. by eapply standing_inv_other.
Qed.

Lemma inv_execs ls h h' : Inv none h → Forall sound ls → execs opts otherDate ls h = Some h' → Inv none h'.
Proof.
  intros HI HS. revert h HI. induction HS as [|l ls Hl _ IH]; intros h HI; simpl; [by intros [= <-]|].
  destruct (exec _ _ l h) as [h1|] eqn:E; [|done]. simpl. apply IH. by eapply standing_inv_exec.
Qed.

Lemma standing_inv_new t : Inv none (newHost t).
Proof.
  constructor; simpl; try done; try (by intros ? H; apply elem_of_nil in H);
  [by intros id w (row & H & _)|by constructor|by intros w d H%elem_of_nil].
Qed.

(** What a state that the process reaches keeps. *)
Definition reaches (t : Z) (ls : list Label) (h : Host) : Prop := Forall sound ls ∧ execs opts otherDate ls (newHost t) = Some h.

Lemma reaches_inv t ls h : reaches t ls h → Inv none h.
Proof. intros [HS HE]. eapply inv_execs; [apply standing_inv_new|done..]. Qed.

Lemma NoDup_ids_eq (l : list LiveRun) r r' : NoDup (runId <$> l) → r ∈ l → r' ∈ l → runId r = runId r' → r = r'.
Proof.
  induction l as [|x l IH]; [by intros _ H%elem_of_nil|]. rewrite fmap_cons, NoDup_cons, !elem_of_cons.
  intros [Hx Hn] [->|Hr] [->|Hr'] E; try done.
  - exfalso. apply Hx, list_elem_of_fmap. eauto.
  - exfalso. apply Hx, list_elem_of_fmap. eauto.
  - by apply IH.
Qed.


(** ** The life of a standing Workflow

    What a standing Workflow promises, without the registry, the timers, the rows
    and the waits: it has a run, waits for the next one, or is paused. *)
Inductive Life :=
| Absent
| Living (run : jstr) (streak : Z)
| Waiting (run : jstr) (streak : Z)
| Resting (run : jstr) (streak : Z) (why : Store.Paused).

#[local] Instance Paused_eq_dec : EqDecision Store.Paused.
Proof. solve_decision. Defined.

#[local] Instance Life_eq_dec : EqDecision Life.
Proof. solve_decision. Defined.

(** A run that is hosted, or whose row is live for the next restore. *)
Definition alive (id : jstr) (h : Host) : bool :=
  bool_decide (is_Some (findRun id h)) || match objGet id (rows h) with Some row => isLiveRow row | None => false end.

Definition lifeOfHead (hd : Head) (a : bool) : Life :=
  match Store.h_paused hd with
  | Some why => Resting (Store.h_run hd) (Store.h_streak hd) why
  | None => if a then Living (Store.h_run hd) (Store.h_streak hd) else Waiting (Store.h_run hd) (Store.h_streak hd)
  end.

Definition lifeOf (w : jstr) (h : Host) : Life :=
  match headOf w h with None => Absent | Some hd => lifeOfHead hd (alive (Store.h_run hd) h) end.

(** A run that starts lives, or ended in its own start. *)
Definition born (id : jstr) (s : Z) (x : Life) : Prop := x = Living id s ∨ x = Waiting id s.

(** Which Workflow a label resumes. *)
Definition resumes (l : Label) (h : Host) : option jstr :=
  match l, resuming h with ResumeGo _, z :: _ => Some (z_workflow z) | _, _ => None end.

Definition tookRun (id : jstr) (h : Host) (b : bool) : Prop := ∃ r, findRun id h = Some r ∧ (tookOf r).1 = b.

(** Its steps: what may follow, and what must have happened for it. *)
Inductive lives (w : jstr) (l : Label) (h : Host) : Life → Life → Prop :=
| life_same x : lives w l h x x
| life_first id x : born id 0 x → lives w l h Absent x
| life_handOver r s id x : born id 0 x → lives w l h (Living r s) x
| life_backoff r s id x : born id s x → lives w l h (Waiting r s) x
| life_unsaved r s id x : objGet r (rows h) = None → born id 0 x → lives w l h (Waiting r s) x
| life_resume r s why id x : resumes l h = Some w → born id 0 x → lives w l h (Resting r s why) x
| life_counted r s : s < STANDING_ERRORS_PAUSE → tookRun r h false → lives w l h (Living r s) (Waiting r (s + 1))
| life_pause r s why : s = STANDING_ERRORS_PAUSE → why ≠ Store.cancel → tookRun r h false → lives w l h (Living r s) (Resting r (s + 1) why)
| life_fruitful r s : tookRun r h true → lives w l h (Living r s) (Waiting r 0)
| life_ended r s : (∀ status ok, l = Ends r status ok → status = done ∨ status = lost ∨ status = drifted) → lives w l h (Living r s) (Waiting r s)
| life_cancel r s ok : l = Ends r cancelled ok → lives w l h (Living r s) (Resting r s Store.cancel)
| life_cancelled r s row : objGet r (rows h) = Some row → st_ended row = Some cancelled → lives w l h (Waiting r s) (Resting r s Store.cancel).

(** *** Liveness of a run across the operations *)

Lemma alive_spec id h : alive id h = true ↔ id ∈ runIds h ∨ ∃ w, liveRow id w h.
Proof.
  unfold alive. rewrite orb_true_iff, bool_decide_eq_true. split.
  - intros [[r Hr]|H]; [left; apply findRun_Some in Hr as [Hr <-]; apply list_elem_of_fmap; eauto|right].
    destruct (objGet id (rows h)) as [row|] eqn:E; [|done]. unfold isLiveRow in H. apply bool_decide_eq_true in H. exists (st_workflow row), row. done.
  - intros [H|(w & row & E & Hl & _)].
    + left. destruct (findRun id h) eqn:E; [by eexists|]. by apply findRun_None in E.
    + right. rewrite E. unfold isLiveRow. by apply bool_decide_eq_true.
Qed.

Lemma alive_false id h : id ∉ runIds h → (∀ w, ¬ liveRow id w h) → alive id h = false.
Proof. intros H1 H2. destruct (alive id h) eqn:E; [|done]. apply alive_spec in E as [E|[w E]]; [done|by destruct (H2 w)]. Qed.

Lemma alive_ended id c h : endedRow id c h → id ∉ runIds h → alive id h = false.
Proof. intros H1 H2. apply alive_false; [done|]. intros w. by eapply ended_not_live. Qed.

Lemma alive_in r h : r ∈ runs h → alive (runId r) h = true.
Proof. intros H. apply alive_spec. left. apply list_elem_of_fmap. eauto. Qed.

(** Two states with the same head, the same hosted ids and the same row of its run
    give a Workflow the same life. *)
Lemma life_frame w h h' :
  headOf w h' = headOf w h →
  (∀ hd, headOf w h = Some hd → (Store.h_run hd ∈ runIds h' ↔ Store.h_run hd ∈ runIds h) ∧ objGet (Store.h_run hd) (rows h') = objGet (Store.h_run hd) (rows h)) →
  lifeOf w h' = lifeOf w h.
Proof.
  intros E H. unfold lifeOf. rewrite E. destruct (headOf w h) as [hd|]; [|done]. destruct (H hd eq_refl) as [H1 H2]. f_equal.
  unfold alive. rewrite H2. f_equal. apply bool_decide_ext. rewrite <- !not_eq_None_Some, !findRun_None. tauto.
Qed.

(** The head that the end of its run leaves. *)
Definition endedHead (r : LiveRun) (status : EndedStatus) (hd : Head) : Head :=
  if bool_decide (status = cancelled) then paused Store.cancel (Store.h_streak hd) hd
  else if negb (boundWithNoRun r) && bool_decide (status ≠ error) && bool_decide (status ≠ failed) then hd
  else
    let streak := if boundWithNoRun r || negb (tookOf r).1 then Store.h_streak hd + 1 else 0 in
    if STANDING_ERRORS_PAUSE <? streak then paused (if boundWithNoRun r then Store.bound else Store.errors) streak hd
    else counted streak hd.

Lemma standingEnded_state r status h : runs (standingEnded opts r status h) = runs h ∧ rows (standingEnded opts r status h) = rows h.
Proof.
  unfold standingEnded. destruct (headOf _ h); [|done]. destruct (_ || _); [done|]. case_bool_decide; [done|].
  destruct (_ && _); [done|]. destruct (_ <? _); done.
Qed.

Lemma standingEnded_head r status h hd w :
  headOf (workflow r) h = Some hd → Store.h_workflow hd = workflow r → Store.h_run hd = runId r → handedOverTo r = None →
  headOf w (standingEnded opts r status h) = if decide (w = workflow r) then Some (endedHead r status hd) else headOf w h.
Proof.
  intros Hh Hw Hr Ho. unfold standingEnded, endedHead. rewrite Hh, Ho, Hr. rewrite bool_decide_eq_false_2 by (intros H; by apply H).
  rewrite (bool_decide_eq_false_2 (is_Some _)) by (by intros []). cbn [orb].
  assert (∀ hd', Store.h_workflow hd' = workflow r → headOf w (writeHead hd' (clearStandingTimer (workflow r) h)) = if decide (w = workflow r) then Some hd' else headOf w h) as HW.
  { intros hd' <-. by rewrite headOf_writeHead. }
  case_bool_decide; [by rewrite HW|]. destruct (negb _ && _ && _).
  - case_decide; [by subst|done].
  - destruct (_ <? _); [by rewrite HW|].
    match goal with |- headOf w (setStandingTimer ?a ?b ?c ?d) = _ => change (headOf w (setStandingTimer a b c d)) with (headOf w d) end. by rewrite HW.
Qed.

Lemma standingEnded_other r status h w : headRun w h ≠ Some (runId r) → (∀ hd, headOf (workflow r) h = Some hd → Store.h_workflow hd = workflow r) →
  headOf w (standingEnded opts r status h) = headOf w h.
Proof.
  intros Hn Hw. destruct (headOf (workflow r) h) as [hd|] eqn:Hh; [|unfold standingEnded; by rewrite Hh].
  destruct (decide (Store.h_run hd = runId r)) as [E|N]; [destruct (handedOverTo r) as [x|] eqn:Ho|].
  - unfold standingEnded. rewrite Hh, Ho. rewrite (bool_decide_eq_true_2 (is_Some (Some x))) by eauto. by rewrite orb_true_r.
  - rewrite (standingEnded_head r status h hd w) by auto. case_decide; [|done]. subst. rewrite Hh in Hn. simpl in Hn. congruence.
  - unfold standingEnded. rewrite Hh. by rewrite (bool_decide_eq_true_2 (Store.h_run hd ≠ runId r)).
Qed.

(** *** Life across the operations *)

Lemma life_gone_other w h r status :
  headRun w h ≠ Some (runId r) → lifeOf w (untrack (runId r) (save r (Some status) true h)) = lifeOf w h.
Proof.
  intros Hn. apply life_frame; [done|]. intros hd Hh. rewrite Hh in Hn. simpl in Hn. assert (Store.h_run hd ≠ runId r) by congruence. split.
  - rewrite runIds_untrack, list_elem_of_filter. simpl. naive_solver.
  - simpl. by rewrite objGet_objSet, decide_False.
Qed.

Lemma life_persistEnd_other ex w h r status : Inv ex h → headRun w h ≠ Some (runId r) → lifeOf w (persistEnd opts r status true h) = lifeOf w h.
Proof.
  intros HI Hn. rewrite <- (life_gone_other w h r status Hn). unfold persistEnd. set (h1 := untrack _ _). destruct (standingEnded_state r status h1) as [E1 E2].
  apply life_frame; [|by rewrite E1, E2]. apply standingEnded_other; [done|]. intros hd Hh. by apply (inv_heads _ _ HI) in Hh as [].
Qed.

Lemma life_persistEnd_head ex h r status hd :
  Inv ex h → hosted r h → headOf (workflow r) h = Some hd → Store.h_run hd = runId r → handedOverTo r = None →
  lifeOf (workflow r) (persistEnd opts r status true h) = lifeOfHead (endedHead r status hd) false.
Proof.
  intros HI Hr Hh E Ho. unfold lifeOf, persistEnd. set (h1 := untrack _ _). destruct (standingEnded_state r status h1) as [E1 E2].
  destruct (inv_heads _ _ HI _ _ Hh) as [_ Hw].
  rewrite (standingEnded_head r status h1 hd) by done. rewrite decide_True by done.
  assert (Store.h_run (endedHead r status hd) = runId r) as ->.
  { unfold endedHead. case_bool_decide; [done|]. destruct (_ && _); [done|]. destruct (_ <? _); done. }
  f_equal. pose proof (gone_ended r status h) as (row & H1 & H2 & _). eapply alive_ended with (s_ctx (actor r)); [exists row|].
  - rewrite E2. split; [exact H1|]. split; [done|]. simpl in H1. rewrite objGet_objSet, decide_True in H1 by done. by injection H1 as <-.
  - rewrite E1. unfold h1. change (runId r ∉ runIds (untrack (runId r) (save r (Some status) true h))). rewrite runIds_untrack. intros [H _]%list_elem_of_filter. done.
Qed.

Lemma life_started w why ctx drop by_ s st id h h' :
  goodStart st h → Started w why ctx drop by_ s st id h h' → born id s (lifeOf w h') ∧ ∀ w', w' ≠ w → lifeOf w' h' = lifeOf w' h.
Proof.
  intros Hg HS. pose proof (goodStart_fresh _ _ _ Hg (sd_id _ _ _ _ _ _ _ _ _ _ HS)) as (Hnr & _ & Hhd)%fresh_spec. split.
  - unfold lifeOf. rewrite (sd_heads _ _ _ _ _ _ _ _ _ _ HS), decide_True by done. unfold lifeOfHead, born. simpl. destruct (alive id h'); auto.
  - intros w' Hw. apply life_frame.
    + by rewrite (sd_heads _ _ _ _ _ _ _ _ _ _ HS), decide_False.
    + intros hd Hh. pose proof (Hhd _ _ Hh). split; [|by rewrite (sd_rows _ _ _ _ _ _ _ _ _ _ HS)].
      destruct (sd_def _ _ _ _ _ _ _ _ _ _ HS) as (d & _ & ->). rewrite fmap_app, elem_of_app.
      destruct st as [|i snap|i snap status ok]; simpl; rewrite ?elem_of_nil, ?list_elem_of_singleton; simpl; naive_solver.
Qed.

Lemma life_start w why ctx drop by_ s st h w' :
  Inv none h → stands w = true → ¬ keptAt w h → 0 <= s <= STANDING_ERRORS_PAUSE → goodStart st h →
  let h' := (startStanding opts otherDate w why ctx drop by_ s st h).2 in
  lifeOf w' h' = lifeOf w' h ∨ w' = w ∧ ∃ id, born id s (lifeOf w h').
Proof.
  intros HI Hs Hk Hn Hg. pose proof (startStanding_spec w why ctx drop by_ s st h HI Hs Hk Hn Hg) as HS. cbv zeta.
  destruct (startStanding _ _ _ _ _ _ _ _ _ h) as [[id|e] h']; [|subst; by left]. destruct (life_started _ _ _ _ _ _ _ _ _ _ Hg HS) as [H1 H2].
  destruct (decide (w' = w)) as [->|N]; [right; eauto|left; by apply H2].
Qed.

(** A hosted run that the head names makes its Workflow live. *)
Lemma life_hosted ex h r hd : Inv ex h → r ∈ runs h → headOf (workflow r) h = Some hd → Store.h_run hd = runId r →
  lifeOf (workflow r) h = Living (runId r) (Store.h_streak hd).
Proof.
  intros HI Hr Hh E. unfold lifeOf. rewrite Hh, E, alive_in by done. unfold lifeOfHead.
  rewrite (inv_running _ _ r _ HI); [by rewrite E|apply list_elem_of_fmap; eauto|done..].
Qed.

Lemma life_handOverLive h r st w :
  Inv none h → r ∈ runs h → stands (workflow r) = true → headRun (workflow r) h = Some (runId r) → goodStart st h →
  let h' := (handOverLive opts otherDate r st true h).2 in
  lifeOf w h' = lifeOf w h ∨ w = workflow r ∧ ∃ s id, lifeOf w h = Living (runId r) s ∧ born id 0 (lifeOf w h').
Proof.
  intros HI Hr Hs Hh Hg. unfold handOverLive, bindM, modify. destruct (handOver_spec h r st HI Hr Hs Hh Hg) as [_ HS].
  destruct (headOf (workflow r) h) as [hd|] eqn:Eh; [|done]. injection Hh as Ehd.
  destruct (startStanding _ _ _ _ _ _ _ _ _ h) as [[id|e] h1]; [|simpl; subst; by left]. cbv zeta. cbn [snd].
  destruct (life_started _ _ _ _ _ _ _ _ _ _ Hg HS) as [H1 H2].
  pose proof (goodStart_fresh _ _ _ Hg (sd_id _ _ _ _ _ _ _ _ _ _ HS)) as (Hnr & _ & Hhd)%fresh_spec.
  rewrite (life_persistEnd_other _ w h1 _ done (sd_inv _ _ _ _ _ _ _ _ _ _ HS)).
  - destruct (decide (w = workflow r)) as [->|N]; [right|left; by apply H2]. split; [done|]. exists (Store.h_streak hd), id.
    split; [by eapply life_hosted|done].
  - simpl. rewrite (sd_heads _ _ _ _ _ _ _ _ _ _ HS). case_decide as Ew; simpl.
    + intros [= E]. apply Hnr. rewrite E. apply list_elem_of_fmap. eauto.
    + destruct (headOf w h) as [hd'|] eqn:Eh'; [|done]. simpl. intros [= E]. apply Ew.
      symmetry. by apply (inv_owner _ _ HI _ _ Eh').
Qed.

Lemma life_alive w h h' :
  headOf w h' = headOf w h → (∀ hd, headOf w h = Some hd → alive (Store.h_run hd) h' = alive (Store.h_run hd) h) → lifeOf w h' = lifeOf w h.
Proof. intros E H. unfold lifeOf. rewrite E. destruct (headOf w h) as [hd|]; [|done]. by rewrite H. Qed.

Lemma life_waiting w h hd : headOf w h = Some hd → Store.h_paused hd = None → alive (Store.h_run hd) h = false →
  lifeOf w h = Waiting (Store.h_run hd) (Store.h_streak hd).
Proof. intros Hh Hp Ha. unfold lifeOf, lifeOfHead. by rewrite Hh, Hp, Ha. Qed.

Lemma lives_eq w l h0 h h' : lifeOf w h' = lifeOf w h → lives w l h0 (lifeOf w h) (lifeOf w h').
Proof. intros ->. apply life_same. Qed.

Definition notEnds (l : Label) : Prop := ∀ id status ok, l ≠ Ends id status ok.

Lemma life_die w l h0 h : Inv none h → notEnds l → lives w l h0 (lifeOf w h) (lifeOf w (die h)).
Proof.
  intros HI Hl. unfold lifeOf at 2. change (headOf w (die h)) with (objGet w (ofTable (table h))). rewrite (inv_table _ _ HI).
  unfold lifeOf. destruct (headOf w h) as [hd|] eqn:Eh; [|apply life_same]. unfold lifeOfHead. destruct (Store.h_paused hd); [apply life_same|].
  destruct (alive (Store.h_run hd) (die h)) eqn:E.
  - assert (alive (Store.h_run hd) h = true) as ->; [|apply life_same]. apply alive_spec. apply alive_spec in E as [E|E]; [by apply elem_of_nil in E|by right].
  - destruct (alive (Store.h_run hd) h); [|apply life_same]. apply life_ended. intros status ok ->. by destruct (Hl (Store.h_run hd) status ok).
Qed.

Lemma handOverLive_throw h r st e h' :
  Inv none h → r ∈ runs h → stands (workflow r) = true → headRun (workflow r) h = Some (runId r) → goodStart st h →
  handOverLive opts otherDate r st true h = (Throw e, h') → h' = clearStandingTimer (workflow r) h.
Proof.
  intros HI Hr Hs Hh Hg. unfold handOverLive, bindM, modify. destruct (handOver_spec h r st HI Hr Hs Hh Hg) as [_ HS].
  destruct (headOf (workflow r) h) as [hd|] eqn:Eh; [|done]. injection Hh as Ehd.
  destruct (startStanding _ _ _ _ _ _ _ _ _ h) as [[id|e'] h1]; [done|]. by intros [= <- <-].
Qed.

(** A hand-over in a callback, where a throw ends the process. *)
Lemma life_orDie w l h0 h r st :
  Inv none h → r ∈ runs h → stands (workflow r) = true → headRun (workflow r) h = Some (runId r) → goodStart st h → notEnds l →
  lives w l h0 (lifeOf w h) (lifeOf w (orDie (handOverLive opts otherDate r st true h))).
Proof.
  intros HI Hr Hs Hh Hg Hl. pose proof (life_handOverLive h r st w HI Hr Hs Hh Hg) as HL. cbv zeta in HL.
  destruct (handOverLive _ _ _ _ _ h) as [[[]|e] h'] eqn:E; unfold orDie; simpl in *.
  - destruct HL as [->|(-> & s & id & -> & HB)]; [apply life_same|by eapply life_handOver].
  - apply handOverLive_throw in E as ->; try done. set (h2 := set_exits _ _).
    change (lifeOf w h) with (lifeOf w h2). apply life_die; [|done]. eapply standing_inv_other; [by apply (inv_clearTimer _ _ (workflow r)) in HI|done..].
Qed.

Lemma runs_unique h r r' : Inv none h → r ∈ runs h → r' ∈ runs h → runId r = runId r' → r = r'.
Proof. intros HI. apply NoDup_ids_eq. apply (inv_ids _ _ HI). Qed.

Lemma findRun_in h r : Inv none h → r ∈ runs h → findRun (runId r) h = Some r.
Proof.
  intros HI Hr. destruct (findRun (runId r) h) as [r'|] eqn:E.
  - apply findRun_Some in E as [Hr' E]. f_equal. by apply (runs_unique h).
  - apply findRun_None in E. exfalso. apply E, list_elem_of_fmap. eauto.
Qed.

(** The end of a hosted run, for the Workflow whose head it is. *)
Lemma life_end w l h r r' status :
  Inv none h → r ∈ runs h → runId r' = runId r → workflow r' = workflow r → handedOverTo r' = None → tookOf r' = tookOf r →
  (boundWithNoRun r' = true → (tookOf r).1 = false) → (status = cancelled → l = Ends (runId r) cancelled true) →
  (boundWithNoRun r' = false → l = Ends (runId r) status true) → (boundWithNoRun r' = true → status = done) →
  lives w l h (lifeOf w h) (lifeOf w (persistEnd opts r' status true h)).
Proof.
  intros HI Hr Eid Ew Ho Et Hb Hc Hl Hd. destruct (decide (headRun w h = Some (runId r))) as [Hh|N].
  2: { rewrite (life_persistEnd_other none w h r' status HI); [apply life_same|by rewrite Eid]. }
  destruct (headOf w h) as [hd|] eqn:Eh; [|done]. injection Hh as Ehd.
  assert (workflow r = w) as Hw by (by apply (inv_owner _ _ HI _ _ Eh)). subst w.
  rewrite (life_hosted none h r hd) by done.
  assert (hosted r' h) as Hho by (exists r; by rewrite Eid, Ew).
  pose proof (life_persistEnd_head none h r' status hd HI Hho) as HP. rewrite Ew, Eid in HP. rewrite HP by done. clear HP.
  destruct (inv_streak _ _ HI _ _ Eh) as [H0 H3]. specialize (H3 (inv_running none h r hd HI ltac:(apply list_elem_of_fmap; eauto) Eh Ehd)).
  assert (Store.h_paused hd = None) as Hp by (eapply inv_running; [done| |exact Eh|done]; apply list_elem_of_fmap; eauto).
  unfold endedHead. case_bool_decide as Es.
  { unfold lifeOfHead. simpl. rewrite Ehd. eapply life_cancel. by apply Hc. }
  rewrite Et. assert (∀ b, (tookOf r).1 = b → tookRun (runId r) h b) as HT by (intros b Hbb; exists r; split; [by apply findRun_in|done]).
  assert (0 <= STANDING_ERRORS_PAUSE) as HPP by (unfold STANDING_ERRORS_PAUSE; lia).
  destruct (boundWithNoRun r') eqn:Eb; cbn [negb andb orb].
  - destruct (_ <? _) eqn:E3; zbool; unfold lifeOfHead; simpl; rewrite ?Hp, Ehd.
    + apply life_pause; [lia|done|by apply HT, Hb].
    + apply life_counted; [lia|by apply HT, Hb].
  - specialize (Hl eq_refl). destruct (bool_decide (status ≠ error) && bool_decide (status ≠ failed)) eqn:Ec.
    + zbool. unfold lifeOfHead. rewrite Hp, Ehd. apply life_ended. intros status' ok'. rewrite Hl. intros [= <- <-].
      destruct status; try done; auto.
    + destruct (tookOf r).1 eqn:E1; cbn [negb].
      * replace (STANDING_ERRORS_PAUSE <? 0) with false by (symmetry; apply Z.ltb_ge; lia).
        unfold lifeOfHead. simpl. rewrite Hp, Ehd. apply life_fruitful. by apply HT.
      * destruct (_ <? _) eqn:E3; zbool; unfold lifeOfHead; simpl; rewrite ?Hp, Ehd.
        -- apply life_pause; [lia|done|by apply HT].
        -- apply life_counted; [lia|by apply HT].
Qed.

Lemma life_keepLoaded w l h0 h w0 hd stored why st :
  Inv none h → readyAt w0 hd stored h → ¬ keptAt w0 h → goodStart st h → rows h0 = rows h →
  lives w l h0 (lifeOf w h) (lifeOf w (keepLoaded opts otherDate w0 hd stored why st h).2).
Proof.
  intros HI (Hh & Hp & Ht & Hn & Hrow) Hk Hg HR. destruct (inv_heads _ _ HI _ _ Hh) as [Hs Hw].
  destruct (inv_streak _ _ HI _ _ Hh) as [H0 H3]. specialize (H3 Hp).
  assert (∀ s ctx why, 0 <= s <= STANDING_ERRORS_PAUSE → (s = Store.h_streak hd ∨ s = 0 ∧ stored = None) → (∀ row, stored = Some row → st_ended row ≠ None) →
            lives w l h0 (lifeOf w h) (lifeOf w (bindM (startStanding opts otherDate w0 why ctx false None s st) (λ _, ret tt) h).2)) as HST.
  { intros s ctx why' Hs' Hor Hend. unfold bindM, ret. pose proof (life_start w0 why' ctx false None s st h w HI Hs Hk Hs' Hg) as HL. cbv zeta in HL.
    assert (lives w l h0 (lifeOf w h) (lifeOf w (startStanding opts otherDate w0 why' ctx false None s st h).2)) as HH.
    { destruct HL as [->|(-> & id & HB)]; [apply life_same|]. rewrite (life_waiting w0 h hd Hh Hp).
      - destruct Hor as [->|[-> ->]]; [by eapply life_backoff|]. eapply life_unsaved; [by rewrite HR|done].
      - apply alive_false; [done|]. intros w' (row & E1 & E2 & _). rewrite Hrow in E1. by apply (Hend row). }
    by destruct (startStanding _ _ _ _ _ _ _ _ _ h) as [[id|e] h']. }
  unfold keepLoaded. destruct stored as [row|]; [|apply HST; [unfold STANDING_ERRORS_PAUSE; lia|by right|done]].
  destruct (st_ended row) as [e|] eqn:Ee; [|apply life_same].
  assert (lives w l h0 (lifeOf w h) (lifeOf w (bindM (handOverFrom opts otherDate w0 (Some (st_ctx row)) hand_over false None (Store.h_streak hd) st) (λ _, ret tt) h).2)) as HF.
  { apply HST; [lia|by left|]. intros row' [= <-]. by rewrite Ee. }
  destruct e; try exact HF. cbn [snd]. destruct (decide (w = w0)) as [->|N].
  - rewrite (life_waiting w0 h hd Hh Hp).
    + unfold lifeOf. rewrite headOf_writeHead. cbn [paused Store.h_workflow]. rewrite Hw, decide_True by done. unfold lifeOfHead. simpl.
      eapply life_cancelled; [by rewrite HR|done].
    + apply alive_false; [done|]. intros w' (row' & E1 & E2 & _). congruence.
  - rewrite (life_alive w h (writeHead _ h)); [apply life_same| |done]. rewrite headOf_writeHead. simpl. by rewrite decide_False by congruence.
Qed.

Lemma life_keepOne w l h0 h w0 d why st :
  Inv none h → stands w0 = true → ¬ keptAt w0 h → goodStart st h →
  lives w l h0 (lifeOf w h) (lifeOf w (keepOne opts otherDate w0 d why st true h).2).
Proof.
  intros HI Hs Hk Hg. unfold keepOne. destruct (standingRun w0 h) as [live|] eqn:EL.
  - apply standingRun_Some in EL as [Hw Hl]. subst w0. pose proof (live_is_head _ _ HI Hl Hs) as Hh.
    rewrite bool_decide_eq_false_2 by (intros H; by apply H). destruct (negb _); [|apply life_same].
    unfold bindM, ret. pose proof (life_handOverLive h live st w HI Hl Hs Hh Hg) as H. cbv zeta in H.
    assert (lives w l h0 (lifeOf w h) (lifeOf w (handOverLive opts otherDate live st true h).2)) as HH.
    { destruct H as [->|(-> & s & id & -> & HB)]; [apply life_same|by eapply life_handOver]. }
    by destruct (handOverLive _ _ _ _ _ h) as [[[]|e] h'].
  - case_bool_decide; [apply life_same|]. case_bool_decide; [apply life_same|]. destruct (headOf w0 h) as [hd|] eqn:Eh.
    + case_bool_decide; apply life_same.
    + unfold bindM, ret. pose proof (life_start w0 why None false None 0 st h w HI Hs Hk ltac:(unfold STANDING_ERRORS_PAUSE; lia) Hg) as HL. cbv zeta in HL.
      assert (lives w l h0 (lifeOf w h) (lifeOf w (startStanding opts otherDate w0 why None false None 0 st h).2)) as HH.
      { destruct HL as [->|(-> & id & HB)]; [apply life_same|]. unfold lifeOf at 1. rewrite Eh. by eapply life_first. }
      by destruct (startStanding _ _ _ _ _ _ _ _ _ h) as [[id|e] h'].
Qed.

Lemma life_keepNext w l h k st :
  Inv none h → keeping h = Some k → goodStart st h → lives w l h (lifeOf w h) (lifeOf w (keepNext opts otherDate k st true h)).
Proof.
  intros HI Hk Hg. destruct (inv_keep _ _ HI k Hk) as (Hp & Hrest & Hat). unfold keepNext.
  assert (∀ rest, (∀ x, x ∈ rest → x ∈ k_rest k) → Inv none (set_keeping (Some (mkKeep (k_why k) rest None)) h)) as HK.
  { intros rest Hr. apply inv_setKeeping; [done|]. intros k' [= <-]. simpl. split; [done|]. split; [|done]. intros w' d Hin. apply Hrest. by apply Hr. }
  destruct (k_at k) as [[[w0 hd] stored]|] eqn:Ea.
  - set (h1 := set_keeping _ h). change (lifeOf w h) with (lifeOf w h1).
    apply life_keepLoaded; [by apply HK|exact (Hat _ _ _ eq_refl)|by eapply not_keptAt|by eapply goodStart_same|done].
  - destruct (k_rest k) as [|[w0 d] rest] eqn:Er; [apply life_same|].
    assert (∀ x, x ∈ rest → x ∈ (w0, d) :: rest) as Hsub by (intros x Hx; by right).
    case_bool_decide as Hd; [|apply life_same]. set (h1 := set_keeping _ h). change (lifeOf w h) with (lifeOf w h1).
    assert (lives w l h (lifeOf w h1) (lifeOf w (keepOne opts otherDate w0 d (k_why k) st true h1).2)) as HL.
    { apply life_keepOne; [by apply HK|by apply (Hrest w0 d (list_elem_of_here _ _))|by eapply not_keptAt|by eapply goodStart_same]. }
    destruct (keepOne _ _ _ _ _ _ _ h1) as [[[[hd stored]|]|e] h'] eqn:E; exact HL.
Qed.

Lemma life_startRun w l h w0 st :
  Inv none h → isStanding w0 h = false → goodStart st h → lives w l h (lifeOf w h) (lifeOf w (startNow opts w0 Pool.noCarry None None st h).2).
Proof.
  intros HI Hn Hg. unfold startNow. destruct (objGet w0 (workflowDefs h)) as [d|] eqn:Ed; [|apply life_same].
  destruct st as [m|id snap|id snap status ok]; simpl; [apply life_same| |].
  - destruct (fresh_spec _ _ Hg) as (Hnr & Hrow & Hhd). apply lives_eq, life_frame; [done|]. intros hd Hh. split; [|done].
    rewrite runIds_track, elem_of_app, list_elem_of_singleton. simpl. pose proof (Hhd _ _ Hh). naive_solver.
  - destruct Hg as [Hf ->]. destruct (fresh_spec _ _ Hf) as (Hnr & Hrow & Hhd). set (r := mkRun _ _ _ _ _ _ _ _ _).
    rewrite (ended_at_start r status) by exact Hhd. apply lives_eq. rewrite (life_gone_other w).
    + apply life_frame; [done|]. intros hd Hh. split; [|done].
      rewrite runIds_track, elem_of_app, list_elem_of_singleton. simpl. pose proof (Hhd _ _ Hh). naive_solver.
    + simpl. change (headRun w h ≠ Some id). destruct (headOf w h) as [hd|] eqn:E; [|done]. simpl. pose proof (Hhd _ _ E). congruence.
Qed.

Lemma life_restore w l h id o row :
  Inv none h → objGet id (rows h) = Some row → st_ended row = None → notEnds l → lives w l h (lifeOf w h) (lifeOf w (restoreRow id o row h)).
Proof.
  intros HI Hrow Hl HE.
  assert (∀ status, lives w l h (lifeOf w h) (lifeOf w (set_rows (objSet id (endRow status row) (rows h)) h))) as HM.
  { intros status. destruct (decide (headRun w h = Some id)) as [Hh|N].
    2: { apply lives_eq, life_frame; [done|]. intros hd Hh. split; [done|]. simpl. rewrite objGet_objSet, decide_False; [done|].
         rewrite Hh in N. simpl in N. congruence. }
    unfold lifeOf. change (headOf w (set_rows _ h)) with (headOf w h). destruct (headOf w h) as [hd|] eqn:Eh; [|done]. injection Hh as Ehd.
    unfold lifeOfHead. destruct (Store.h_paused hd) eqn:Ep; [apply life_same|].
    assert (alive (Store.h_run hd) h = true) as ->. { apply alive_spec. right. exists (st_workflow row), row. by rewrite Ehd. }
    destruct (alive _ _); [apply life_same|]. apply life_ended. intros s ok ->. by destruct (HE (Store.h_run hd) s ok). }
  destruct o as [d ch ef| | |]; simpl; [|apply HM|apply HM|apply life_same].
  apply lives_eq, life_alive; [done|]. intros hd Hh. set (h' := set_unhosted _ _).
  destruct (decide (Store.h_run hd = id)) as [E|N].
  - transitivity true; [|symmetry]; apply alive_spec; [left|right; exists (st_workflow row), row; by rewrite E].
    rewrite E. change (id ∈ runIds (set_runs (runs h ++ [mkRun id (st_workflow row) d (st_startedBy row) (st_resumedBy row) Pool.noCarry (mkSnap (st_ctx row) ch ef) None false]) h)).
    rewrite runIds_track. apply elem_of_app. right. by apply list_elem_of_singleton.
  - unfold alive. f_equal. apply bool_decide_ext. rewrite <- !not_eq_None_Some, !findRun_None.
    change (runs h') with (runs h ++ [mkRun id (st_workflow row) d (st_startedBy row) (st_resumedBy row) Pool.noCarry (mkSnap (st_ctx row) ch ef) None false]).
    rewrite fmap_app, elem_of_app. simpl. rewrite list_elem_of_singleton. naive_solver.
Qed.

Lemma lives_host w l h h1 x y :
  rows h1 = rows h → runs h1 = runs h → resuming h1 = resuming h → lives w l h1 x y → lives w l h x y.
Proof.
  intros E1 E2 E3 H. assert (∀ id b, tookRun id h1 b → tookRun id h b) as HT by (unfold tookRun, findRun; intros id b; by rewrite E2).
  assert (resumes l h1 = resumes l h) as HR by (unfold resumes; by rewrite E3).
  destruct H; try (econstructor; eauto; fail).
  - eapply life_unsaved; [by rewrite <- E1|done].
  - eapply life_resume; [by rewrite <- HR|done].
  - eapply life_cancelled; [by rewrite <- E1|done].
Qed.

Lemma life_atBound w h id st :
  Inv none h → goodStart st h → lives w (Bound id st true) h (lifeOf w h) (lifeOf w (orDie (atBound opts otherDate id st true h))).
Proof.
  intros HI HG. unfold atBound. destruct (findRun id h) as [r|] eqn:Er; [|apply life_same]. apply findRun_Some in Er as [Hr Hid].
  destruct (decide (headRun (workflow r) h = Some id)) as [Hh|N]; [|rewrite bool_decide_eq_true_2 by done; apply life_same].
  rewrite bool_decide_eq_false_2 by (intros H'; by apply H'). destruct (negb _); [apply life_same|]. cbn [orb]. rewrite <- Hid in Hh.
  assert (stands (workflow r) = true) as Hst.
  { destruct (headOf (workflow r) h) eqn:Eh; [|done]. by apply (inv_heads _ _ HI) in Eh as []. }
  destruct (tookOf r).1 eqn:Et; [by apply life_orDie|]. destruct (inv_own _ _ HI r Hr) as [Ho _].
  by apply (life_end w (Bound id st true) h r (set_boundWithNoRun true r) done HI Hr eq_refl eq_refl Ho eq_refl (λ _, Et)).
Qed.

Lemma life_fireAge w l h w0 id st :
  Inv none h → goodStart st h → notEnds l → lives w l h (lifeOf w h) (lifeOf w (orDie (fireAge opts otherDate w0 id st true h))).
Proof.
  intros HI HG Hl. unfold fireAge. destruct (findRun id h) as [r|] eqn:Er; [|apply life_same]. apply findRun_Some in Er as [Hr Hid].
  case_bool_decide as Hh; [|apply life_same]. destruct (headOf w0 h) as [hd|] eqn:Eh; [|done]. injection Hh as Ehd.
  destruct (inv_heads _ _ HI _ _ Eh) as [Hst _]. destruct (inv_owner _ _ HI _ _ Eh) as [Ho _].
  assert (workflow r = w0) as Hw by (apply Ho; [done|congruence]). subst w0. apply life_orDie; try done. by apply live_is_head.
Qed.

Lemma life_fireBackoff w l h w0 id c s st hd :
  Inv none h → headOf w0 h = Some hd → Store.h_run hd = id → Store.h_paused hd = None → Store.h_streak hd = s → endedRow id c h →
  id ∉ runIds h → ¬ keptAt w0 h → goodStart st h → lives w l h (lifeOf w h) (lifeOf w (fireBackoff opts otherDate w0 id c s st h)).
Proof.
  intros HI H1 H2 H3 H4 H5 H6 Hk HG. unfold fireBackoff. destruct (_ || _); [apply life_same|].
  destruct (inv_heads _ _ HI _ _ H1) as [Hst _]. destruct (inv_streak _ _ HI _ _ H1) as [H0 HS3]. specialize (HS3 H3).
  pose proof (life_start w0 hand_over (Some c) false None s st _ w HI Hst Hk ltac:(lia) HG) as HL. cbv zeta in HL.
  destruct HL as [->|(-> & i & HB)]; [apply life_same|].
  rewrite (life_waiting w0 h hd H1 H3); [rewrite H4; by eapply life_backoff|]. rewrite H2. by eapply alive_ended.
Qed.

Lemma life_resumeLoaded w h h0 z rest st :
  Inv none h → goodStart st h → rows h0 = rows h → resuming h0 = z :: rest →
  lives w (ResumeGo st) h0 (lifeOf w h) (lifeOf w (resumeLoaded opts otherDate z st h).2).
Proof.
  intros HI HG HR Er. unfold resumeLoaded. case_bool_decide; [apply life_same|]. cbn [orb].
  destruct (headOf (z_workflow z) h) as [hd|] eqn:Eh; [|apply life_same]. simpl. case_bool_decide as Hp; [|apply life_same]. cbn [negb].
  destruct (inv_heads _ _ HI _ _ Eh) as [Hst _].
  assert (¬ keptAt (z_workflow z) h) as Hk.
  { intros (k & hd' & st' & Hk & Ha). destruct (inv_keep _ _ HI k Hk) as (_ & _ & HA). destruct (HA _ _ _ Ha) as (H1 & H2 & _).
    assert (hd' = hd) as -> by congruence. rewrite H2 in Hp. by destruct Hp. }
  pose proof (life_start (z_workflow z) resume (z_ctx z) (z_dropHeld z) (Some (z_by z)) 0 st h w HI Hst Hk ltac:(unfold STANDING_ERRORS_PAUSE; lia) HG) as HL.
  cbv zeta in HL. destruct HL as [E|(-> & i & HB)]; [by apply lives_eq|].
  destruct Hp as [why Hp]. replace (lifeOf (z_workflow z) h) with (Resting (Store.h_run hd) (Store.h_streak hd) why).
  - eapply life_resume; [simpl; by rewrite Er|exact HB].
  - symmetry. unfold lifeOf. rewrite Eh. unfold lifeOfHead. by rewrite Hp.
Qed.

Lemma life_fire w h w0 st h' : Inv none h → savedStart st → exec opts otherDate (Fire w0 st true) h = Some h' →
  lives w (Fire w0 st true) h (lifeOf w h) (lifeOf w h').
Proof.
  intros HI Hs. unfold exec. destruct (freshFor _ h) eqn:Ef; [|done]. cbn [negb].
  destruct (objGet w0 (timers h)) as [tm|] eqn:Et; [|done]. destruct (_ <=? _); [|done].
  assert (Inv none (clearStandingTimer w0 h)) as HC by (by apply inv_clearTimer).
  assert (goodStart st (clearStandingTimer w0 h)) as HG by (eapply goodStart_same; [reflexivity..|by eapply fresh_good]).
  cbn [stopping set_timers]. destruct (stopping h); [intros [= <-]; apply life_same|]. fold (clearStandingTimer w0 h).
  change (lifeOf w h) with (lifeOf w (clearStandingTimer w0 h)). destruct tm as [id d|id c s d]; intros [= <-].
  - by apply (lives_host _ _ _ (clearStandingTimer w0 h)), life_fireAge.
  - destruct (inv_backoff _ _ HI _ _ _ _ _ Et) as (hd & H1 & H2 & H3 & H4 & H5 & H6).
    apply (lives_host _ _ _ (clearStandingTimer w0 h)); [done..|]. eapply life_fireBackoff; try done.
    intros Hk. change (keptAt w0 h) in Hk. pose proof (keptAt_timer _ _ _ HI Hk). congruence.
Qed.

Lemma life_exec w l h h' : Inv none h → sound l → exec opts otherDate l h = Some h' → lives w l h (lifeOf w h) (lifeOf w h').
Proof.
  intros HI Hs HE. destruct l as [loaded|why|st ok|w0 st|id snap|id ok|id status ok|id st ok|w0 st ok|w0 by_ drop|st|ms| | |id o|].
  9: { destruct Hs as [-> Hs]. by apply life_fire. }
  all: revert HE; unfold exec; destruct (freshFor _ h) eqn:Ef; [|done]; cbn [negb]; pose proof (λ st, fresh_good _ h st Ef) as Hg; simpl in Hs.
  - intros [= <-]. apply life_same.
  - destruct (_ || _); [done|]. intros [= <-]. apply life_same.
  - destruct Hs as [-> Hs]. destruct (keeping h) as [k|] eqn:Ek; [|done]. intros [= <-]. apply life_keepNext; [done..|by apply Hg].
  - destruct (isStanding w0 h) eqn:Ew; [done|]. intros [= <-]. apply life_startRun; [done..|by apply Hg].
  - destruct (findRun id h); [|done]. intros [= <-]. apply lives_eq, life_frame; [done|]. intros hd _. split; [|done].
    simpl. rewrite <- list_fmap_compose. erewrite list_fmap_ext; [reflexivity|]. intros i r _. simpl. by case_bool_decide.
  - destruct (findRun id h) as [r|] eqn:Er; [|done]. intros [= <-]. apply findRun_Some in Er as [Hr _].
    assert (lives w (Save id ok) h (lifeOf w h) (lifeOf w (save r None ok h))) as HL; [|by destruct (checkBound _ _ _)].
    destruct ok; [|apply life_same]. apply lives_eq, life_alive; [done|]. intros hd _. destruct (decide (Store.h_run hd = runId r)) as [E|N].
    + rewrite E, !alive_in by done. done.
    + unfold alive. simpl. by rewrite objGet_objSet, decide_False.
  - subst ok. destruct (findRun id h) as [r|] eqn:Er; [|done]. intros [= <-]. apply findRun_Some in Er as [Hr Hid]. subst id.
    destruct (inv_own _ _ HI r Hr) as [Ho Hb]. apply life_end with r; try done; try congruence.
  - destruct Hs as [-> Hs]. case_bool_decide; [|done]. intros [= <-]. set (h1 := set_bounds _ h). change (lifeOf w h) with (lifeOf w h1).
    apply (lives_host _ _ _ h1); [done..|]. apply life_atBound; [by eapply standing_inv_other|]. eapply goodStart_same; [reflexivity..|by apply Hg].
  - intros [= <-]. destruct (resumeStanding _ _ _ h); apply life_same.
  - destruct (resuming h) as [|z rest] eqn:Er; [done|]. intros [= <-]. set (h1 := set_resuming rest h). change (lifeOf w h) with (lifeOf w h1).
    eapply life_resumeLoaded; [by eapply standing_inv_other|eapply goodStart_same; [reflexivity..|by apply Hg]|done|done].
  - destruct (0 <=? ms); [|done]. intros [= <-]. apply life_same.
  - intros [= <-]. apply life_same.
  - intros [= <-]. by apply life_die.
  - destruct (restorePending h) eqn:Ep; [|done]. cbn [negb orb]. case_bool_decide as Hf; [done|].
    destruct (objGet id (rows h)) as [row|] eqn:Erow; [|done]. unfold isLiveRow. case_bool_decide as Hl; [|done]. intros [= <-].
    by apply life_restore.
  - destruct (forallb _ _); [|done]. intros [= <-]. apply life_same.
Qed.

(** *** What follows from the life *)


(** No step of a trace resumes the Workflow. *)
Fixpoint neverResumed (w : jstr) (ls : list Label) (h : Host) : Prop :=
  match ls with
  | [] => True
  | l :: ls' => resumes l h ≠ Some w ∧ match exec opts otherDate l h with Some h1 => neverResumed w ls' h1 | None => True end
  end.

Lemma resting_stays w ls h h' r s why :
  Inv none h → Forall sound ls → neverResumed w ls h → execs opts otherDate ls h = Some h' → lifeOf w h = Resting r s why → lifeOf w h' = Resting r s why.
Proof.
  intros HI HS. revert h HI. induction HS as [|l ls Hl _ IH]; intros h HI HN; simpl in *; [by intros [= <-]|]. destruct HN as [HN1 HN].
  destruct (exec opts otherDate l h) as [h1|] eqn:E; [|done]. simpl. intros HE HL. eapply IH; [by eapply standing_inv_exec|done..|].
  pose proof (life_exec w l h h1 HI Hl E) as H. rewrite HL in H. by inversion H.
Qed.


(** The lives that a trace goes through. *)
Fixpoint livesOf (w : jstr) (ls : list Label) (h : Host) : list (Life * Life) :=
  match ls with
  | [] => []
  | l :: ls' => match exec opts otherDate l h with Some h1 => (lifeOf w h, lifeOf w h1) :: livesOf w ls' h1 | None => [] end
  end.

(** A step of a loop of runs in which no item starts a run: nothing, an end that
    counts, or the hand-over after it. *)
Definition loops (xy : Life * Life) : bool :=
  bool_decide (xy.1 = xy.2) ||
  match xy with
  | (Living r s, Waiting r' s') | (Living r s, Resting r' s' _) => bool_decide (r = r') && bool_decide (s' = s + 1)
  | (Waiting r s, Living r' s') => bool_decide (s' = s)
  | _ => false
  end.

Definition starts (xy : Life * Life) : bool :=
  match xy with (Waiting _ _, Living _ _) => true | _ => false end.

(** How many hand-overs the loop has left. *)
Definition left (x : Life) : Z :=
  match x with
  | Absent | Resting _ _ _ => 0
  | Living _ s => STANDING_ERRORS_PAUSE - s
  | Waiting _ s => STANDING_ERRORS_PAUSE + 1 - s
  end.

Lemma left_pos w h : Inv none h → 0 <= left (lifeOf w h).
Proof.
  intros HI. unfold lifeOf. destruct (headOf w h) as [hd|] eqn:Eh; [|done]. destruct (inv_streak _ _ HI _ _ Eh) as [_ H]. unfold lifeOfHead.
  destruct (Store.h_paused hd); [done|]. specialize (H eq_refl). destruct (alive _ _); simpl; lia.
Qed.

Lemma loops_left xy : 0 <= left xy.1 → loops xy = true → (if starts xy then 1 else 0) + left xy.2 <= left xy.1.
Proof.
  destruct xy as [x y]. unfold loops. simpl. rewrite orb_true_iff, bool_decide_eq_true. intros Hp [->|H]; [destruct y; simpl; lia|].
  destruct x, y; simpl in *; try done; zbool; subst; try lia.
Qed.

Lemma waiting_streak w h r s : Inv none h → lifeOf w h = Waiting r s → s <= STANDING_ERRORS_PAUSE.
Proof.
  intros HI. unfold lifeOf. destruct (headOf w h) as [hd|] eqn:Eh; [|done]. destruct (inv_streak _ _ HI _ _ Eh) as [_ H]. unfold lifeOfHead.
  destruct (Store.h_paused hd); [done|]. specialize (H eq_refl). destruct (alive _ _); [done|]. by intros [= <- <-].
Qed.

Abbreviation handOvers w ls h := (Z.of_nat (length (filter (λ xy, starts xy = true) (livesOf w ls h)))).

Lemma loops_total w ls h h' :
  Inv none h → Forall sound ls → execs opts otherDate ls h = Some h' → forallb loops (livesOf w ls h) = true → lifeOf w h ≠ Absent →
  handOvers w ls h + left (lifeOf w h') <= left (lifeOf w h) ∧ lifeOf w h' ≠ Absent.
Proof.
  intros HI HS. revert h HI. induction HS as [|l ls Hl _ IH]; intros h HI HE HL Hna; simpl in *; [injection HE as <-; split; [lia|done]|].
  destruct (exec opts otherDate l h) as [h1|] eqn:E; [|done]. simpl in HE, HL. apply andb_true_iff in HL as [HL1 HL].
  pose proof (loops_left (lifeOf w h, lifeOf w h1) (left_pos w h HI) HL1) as Hstep. simpl in Hstep.
  assert (lifeOf w h1 ≠ Absent) as Hna1.
  { intros Ea. unfold loops in HL1. simpl in HL1. rewrite Ea, orb_true_iff, bool_decide_eq_true in HL1. destruct HL1 as [?|Hx]; [done|].
    by destruct (lifeOf w h). }
  destruct (IH h1 (standing_inv_exec _ _ _ HI Hl E) HE HL Hna1) as [H1 H2]. split; [|done].
  rewrite filter_cons. destruct (starts (lifeOf w h, lifeOf w h1)) eqn:Es; simpl in Es, Hstep; rewrite Es in Hstep; [rewrite decide_True by done|rewrite decide_False by done]; simpl length; lia.
Qed.


(** What a Hook's fan-in is told of a Workflow with no live run: the paused ones by
    the run of their head, which is what their life says. *)
Lemma without_run_is_resting t ls h kind key may w p :
  reaches t ls h → (w, p) ∈ standingWithoutRun kind key may h →
  hostedOf w h = [] ∧ ∀ r, p = Some r ↔ ∃ s why, lifeOf w h = Resting r s why.
Proof.
  intros _ H. apply list_elem_of_omap in H as ([w0 d] & _ & H). simpl in H. destruct (d_standing d) as [info|]; [|done].
  destruct (_ || _) eqn:E; [done|]. apply orb_false_iff in E as [_ E]. apply bool_decide_eq_false in E. injection H as <- <-. split.
  - destruct (standingRun w0 h) eqn:Er; [exfalso; by apply E|]. destruct (hostedOf w0 h) as [|r l] eqn:Eh; [done|].
    assert (r ∈ hostedOf w0 h) as [Hw Hr]%hostedOf_elem by (rewrite Eh; by left). by destruct (standingRun_None _ _ Er r).
  - intros r. unfold lifeOf. destruct (headOf w0 h) as [hd|]; simpl; [|split; [done|by intros (? & ? & ?)]]. unfold lifeOfHead.
    destruct (Store.h_paused hd); [split; [intros [= ->]; eauto|by intros (? & ? & [= -> _ _])]|].
    split; [done|]. intros (? & ? & H). by destruct (alive _ _).
Qed.

(** ** What a new run is given *)

(** The context that a start of the Workflow carries from, and whether its held
    items are dropped: the live run's, or what a resume read, or the row of the
    run that the head names. *)
Definition sourceOf (w : jstr) (l : Label) (h : Host) : bool * option Pool.PoolCtx :=
  match standingRun w h with
  | Some r => (false, Some (s_ctx (actor r)))
  | None =>
      match l, resuming h with
      | ResumeGo _, z :: _ => (z_dropHeld z, z_ctx z)
      | _, _ => (false, headOf w h ≫= λ hd, st_ctx <$> objGet (Store.h_run hd) (rows h))
      end
  end.

(** Each run that is new was given what the source carries. *)
Definition given (l : Label) (h h1 h' : Host) : Prop :=
  ∀ r, r ∈ runs h' → r ∈ runs h1 ∨ stands (workflow r) = false ∨ input r = carryOf (sourceOf (workflow r) l h).1 (sourceOf (workflow r) l h).2.

Lemma given_subset l h h1 h' : (∀ r, r ∈ runs h' → r ∈ runs h1) → given l h h1 h'.
Proof. intros H r Hr. left. by apply H. Qed.

Lemma persistEnd_runs r status ok h r' : r' ∈ runs (persistEnd opts r status ok h) → r' ∈ runs h.
Proof.
  unfold persistEnd. destruct (standingEnded_state r status (untrack (runId r) (save r (Some status) ok h))) as [-> _].
  intros [_ H]%untrack_elem. by destruct ok.
Qed.

Lemma given_start w why ctx drop by_ s st l h0 h :
  Inv none h → stands w = true → ¬ keptAt w h → 0 <= s <= STANDING_ERRORS_PAUSE → goodStart st h →
  carryOf drop ctx = carryOf (sourceOf w l h0).1 (sourceOf w l h0).2 →
  given l h0 h (startStanding opts otherDate w why ctx drop by_ s st h).2.
Proof.
  intros HI Hs Hk Hn Hg Hc. pose proof (startStanding_spec w why ctx drop by_ s st h HI Hs Hk Hn Hg) as HS.
  destruct (startStanding _ _ _ _ _ _ _ _ _ h) as [[id|e] h']; [|subst; by apply given_subset]. intros r Hr. simpl in Hr.
  destruct (sd_def _ _ _ _ _ _ _ _ _ _ HS) as (d & _ & E). rewrite E in Hr. apply elem_of_app in Hr as [Hr|Hr]; [by left|]. right. right.
  destruct st; simpl in Hr; [by apply elem_of_nil in Hr| |by apply elem_of_nil in Hr]. apply list_elem_of_singleton in Hr as ->. exact Hc.
Qed.

(** The live run of a standing Workflow is the one that is found. *)
Lemma standingRun_live h r : Inv none h → r ∈ runs h → stands (workflow r) = true → standingRun (workflow r) h = Some r.
Proof.
  intros HI Hr Hs. destruct (standingRun (workflow r) h) as [r'|] eqn:E; [|by destruct (standingRun_None _ _ E r)].
  apply standingRun_Some in E as [Hw Hr']. f_equal. apply (runs_unique h); [done..|].
  pose proof (live_is_head _ _ HI Hr Hs) as H1. pose proof (live_is_head _ _ HI Hr') as H2. rewrite Hw in H2. specialize (H2 Hs). congruence.
Qed.

Lemma given_handOver l h0 h r st :
  Inv none h → r ∈ runs h → stands (workflow r) = true → headRun (workflow r) h = Some (runId r) → goodStart st h →
  runs h0 = runs h → heads h0 = heads h →
  given l h0 h (handOverLive opts otherDate r st true h).2.
Proof.
  intros HI Hr Hs Hh Hg ER EH. unfold handOverLive, bindM, modify.
  destruct (handOver_spec h r st HI Hr Hs Hh Hg) as [Hk _].
  assert (sourceOf (workflow r) l h0 = (false, Some (s_ctx (actor r)))) as HSrc.
  { unfold sourceOf. replace (standingRun (workflow r) h0) with (Some r); [done|]. rewrite <- (standingRun_live h r) by done.
    unfold standingRun, hostedOf, headOf. by rewrite ER, EH. }
  pose proof (given_start (workflow r) hand_over (Some (s_ctx (actor r))) false None 0 st l h0 h HI Hs Hk ltac:(unfold STANDING_ERRORS_PAUSE; lia) Hg) as HG.
  rewrite HSrc in HG. specialize (HG eq_refl).
  destruct (startStanding _ _ _ _ _ _ _ _ _ h) as [[id|e] h1]; [|exact HG]. intros r' Hr'. simpl in Hr'. apply persistEnd_runs in Hr'. by apply HG.
Qed.

Lemma given_die l h0 h1 h : given l h0 h1 (die h).
Proof. intros r Hr. by apply elem_of_nil in Hr. Qed.

Lemma given_orDie l h0 h r : given l h0 h r.2 → given l h0 h (orDie r).
Proof. destruct r as [[[]|e] h']; simpl; [done|]. intros _. apply given_die. Qed.

(** With no run of the Workflow hosted, and no resume, the source is the row of its head. *)
Lemma source_row w l h hd : headOf w h = Some hd → Store.h_run hd ∉ runIds h → Inv none h → stands w = true → (∀ st, l ≠ ResumeGo st) →
  sourceOf w l h = (false, st_ctx <$> objGet (Store.h_run hd) (rows h)).
Proof.
  intros Hh Hn HI Hs Hl. unfold sourceOf. destruct (standingRun w h) as [r|] eqn:E.
  - exfalso. apply standingRun_Some in E as [Hw Hr]. apply Hn. pose proof (live_is_head _ _ HI Hr) as H. rewrite Hw, Hh in H. specialize (H Hs).
    injection H as ->. apply list_elem_of_fmap. eauto.
  - rewrite Hh. simpl. destruct l; try done. by destruct (Hl st).
Qed.

Lemma given_keepLoaded l h0 h w hd stored why st :
  Inv none h → readyAt w hd stored h → ¬ keptAt w h → goodStart st h → sourceOf w l h0 = (false, st_ctx <$> stored) →
  given l h0 h (keepLoaded opts otherDate w hd stored why st h).2.
Proof.
  intros HI (Hh & Hp & Ht & Hn & Hrow) Hk Hg HSrc. destruct (inv_heads _ _ HI _ _ Hh) as [Hs Hw].
  destruct (inv_streak _ _ HI _ _ Hh) as [H0 H3]. specialize (H3 Hp).
  assert (∀ s why, 0 <= s <= STANDING_ERRORS_PAUSE →
            given l h0 h (bindM (startStanding opts otherDate w why (st_ctx <$> stored) false None s st) (λ _, ret tt) h).2) as HST.
  { intros s why' Hs'. pose proof (given_start w why' (st_ctx <$> stored) false None s st l h0 h HI Hs Hk Hs' Hg) as HG. rewrite HSrc in HG.
    specialize (HG eq_refl). unfold bindM, ret. by destruct (startStanding _ _ _ _ _ _ _ _ _ h) as [[id|e] h']. }
  unfold keepLoaded. destruct stored as [row|]; [|apply HST; unfold STANDING_ERRORS_PAUSE; lia].
  destruct (st_ended row) as [e|]; [|by apply given_subset].
  destruct e; try (apply (HST (Store.h_streak hd) hand_over); lia). by apply given_subset.
Qed.

Lemma given_keepOne l h0 h w d why st :
  Inv none h → stands w = true → ¬ keptAt w h → goodStart st h → (∀ st', l ≠ ResumeGo st') → runs h0 = runs h → heads h0 = heads h →
  given l h0 h (keepOne opts otherDate w d why st true h).2.
Proof.
  intros HI Hs Hk Hg Hl ER EH. unfold keepOne. destruct (standingRun w h) as [live|] eqn:EL.
  - apply standingRun_Some in EL as [Hw Hin]. subst w. pose proof (live_is_head _ _ HI Hin Hs) as Hh.
    rewrite bool_decide_eq_false_2 by (intros H; by apply H). destruct (negb _); [|by apply given_subset].
    pose proof (given_handOver l h0 h live st HI Hin Hs Hh Hg ER EH) as HG. unfold bindM, ret.
    by destruct (handOverLive _ _ _ _ _ h) as [[[]|e] h'].
  - case_bool_decide; [by apply given_subset|]. case_bool_decide; [by apply given_subset|]. destruct (headOf w h) as [hd|] eqn:Eh.
    + case_bool_decide; by apply given_subset.
    + pose proof (given_start w why None false None 0 st l h0 h HI Hs Hk ltac:(unfold STANDING_ERRORS_PAUSE; lia) Hg) as HG.
      assert (sourceOf w l h0 = (false, None)) as HSrc.
      { unfold sourceOf. replace (standingRun w h0) with (standingRun w h) by (unfold standingRun, hostedOf, headOf; by rewrite ER, EH).
        rewrite EL. replace (headOf w h0) with (headOf w h) by (unfold headOf; by rewrite EH). rewrite Eh. destruct l; try done. by destruct (Hl st0). }
      rewrite HSrc in HG. specialize (HG eq_refl). unfold bindM, ret. by destruct (startStanding _ _ _ _ _ _ _ _ _ h) as [[id|e] h'].
Qed.

Lemma given_keepNext l h k st :
  Inv none h → keeping h = Some k → goodStart st h → (∀ st', l ≠ ResumeGo st') → given l h h (keepNext opts otherDate k st true h).
Proof.
  intros HI Hk Hg Hl. destruct (inv_keep _ _ HI k Hk) as (Hp & Hrest & Hat). unfold keepNext.
  assert (∀ rest, (∀ x, x ∈ rest → x ∈ k_rest k) → Inv none (set_keeping (Some (mkKeep (k_why k) rest None)) h)) as HK.
  { intros rest Hr. apply inv_setKeeping; [done|]. intros k' [= <-]. simpl. split; [done|]. split; [|done]. intros w' d Hin. apply Hrest. by apply Hr. }
  destruct (k_at k) as [[[w0 hd] stored]|] eqn:Ea.
  - destruct (Hat _ _ _ eq_refl) as (H1 & H2 & H3 & H4 & H5). destruct (inv_heads _ _ HI _ _ H1) as [Hs _].
    set (h1 := set_keeping _ h). assert (given l h h1 (keepLoaded opts otherDate w0 hd stored (k_why k) st h1).2) as HL; [|exact HL].
    apply given_keepLoaded; [by apply HK|done|by eapply not_keptAt|by eapply goodStart_same|]. rewrite (source_row w0 l h hd) by done. by rewrite H5.
  - destruct (k_rest k) as [|[w0 d] rest] eqn:Er; [by apply given_subset|].
    assert (∀ x, x ∈ rest → x ∈ (w0, d) :: rest) as Hsub by (intros x Hx; by right).
    case_bool_decide as Hd; [|by apply given_subset]. set (h1 := set_keeping _ h).
    assert (given l h h1 (keepOne opts otherDate w0 d (k_why k) st true h1).2) as HL.
    { apply given_keepOne; [by apply HK|by apply (Hrest w0 d (list_elem_of_here _ _))|by eapply not_keptAt|by eapply goodStart_same|done..]. }
    destruct (keepOne _ _ _ _ _ _ _ h1) as [[[[hd stored]|]|e] h'] eqn:E; exact HL.
Qed.

Lemma given_fire h w0 st h' : Inv none h → savedStart st → exec opts otherDate (Fire w0 st true) h = Some h' → given (Fire w0 st true) h h h'.
Proof.
  intros HI Hs. unfold exec. destruct (freshFor _ h) eqn:Ef; [|done]. cbn [negb].
  destruct (objGet w0 (timers h)) as [tm|] eqn:Et; [|done]. destruct (_ <=? _); [|done].
  assert (Inv none (clearStandingTimer w0 h)) as HC by (by apply inv_clearTimer).
  assert (goodStart st (clearStandingTimer w0 h)) as HG by (eapply goodStart_same; [reflexivity..|by eapply fresh_good]).
  cbn [stopping set_timers]. destruct (stopping h); [intros [= <-]; by apply given_subset|]. fold (clearStandingTimer w0 h).
  destruct tm as [id d|id c s d]; intros [= <-].
  - apply (given_orDie _ h h). unfold fireAge. destruct (findRun id (clearStandingTimer w0 h)) as [r|] eqn:Er; [|by apply given_subset].
    apply findRun_Some in Er as [Hr Hid]. case_bool_decide as Hh; [|by apply given_subset].
    destruct (headOf w0 (clearStandingTimer w0 h)) as [hd|] eqn:Eh; [|done]. injection Hh as Ehd.
    destruct (inv_heads _ _ HC _ _ Eh) as [Hst _]. destruct (inv_owner _ _ HC _ _ Eh) as [Ho _].
    assert (workflow r = w0) as Hw by (apply Ho; [done|congruence]). subst w0.
    apply (given_handOver _ h (clearStandingTimer (workflow r) h)); try done. by apply live_is_head.
  - destruct (inv_backoff _ _ HI _ _ _ _ _ Et) as (hd & H1 & H2 & H3 & H4 & (row & H5 & _ & H5') & H6). unfold fireBackoff.
    destruct (_ || _); [by apply given_subset|].
    destruct (inv_heads _ _ HI _ _ H1) as [Hst _]. destruct (inv_streak _ _ HI _ _ H1) as [H0 HS3]. specialize (HS3 H3).
    apply (given_start w0 hand_over (Some c) false None s st _ h (clearStandingTimer w0 h)); try done; [|lia|].
    + intros Hk. change (keptAt w0 h) in Hk. pose proof (keptAt_timer _ _ _ HI Hk). congruence.
    + rewrite (source_row w0 _ h hd) by (try done; by rewrite H2). by rewrite H2, H5, <- H5'.
Qed.

Lemma given_resume h z rest st :
  Inv none h → resuming h = z :: rest → goodStart st h → given (ResumeGo st) h h (resumeLoaded opts otherDate z st (set_resuming rest h)).2.
Proof.
  intros HI Er Hg. set (h1 := set_resuming rest h). assert (Inv none h1) as HI1 by (by eapply standing_inv_other).
  unfold resumeLoaded. case_bool_decide as Hr; [by apply given_subset|]. cbn [orb].
  destruct (headOf (z_workflow z) h1) as [hd|] eqn:Eh; [|by apply given_subset]. simpl. case_bool_decide as Hp; [|by apply given_subset]. cbn [negb].
  destruct (inv_heads _ _ HI1 _ _ Eh) as [Hst _]. apply (given_start _ resume (z_ctx z) (z_dropHeld z) (Some (z_by z)) 0 st _ h h1); try done.
  - intros (k & hd' & st' & Hk & Ha). destruct (inv_keep _ _ HI1 k Hk) as (_ & _ & HA). destruct (HA _ _ _ Ha) as (H1 & H2 & _).
    assert (hd' = hd) as -> by congruence. rewrite H2 in Hp. by destruct Hp.
  - unfold sourceOf. change (standingRun (z_workflow z) h1) with (standingRun (z_workflow z) h) in Hr.
    destruct (standingRun (z_workflow z) h); [exfalso; by apply Hr|]. by rewrite Er.
Qed.

Lemma given_atBound h1 h id st l : Inv none h → goodStart st h → runs h1 = runs h → heads h1 = heads h → given l h1 h (orDie (atBound opts otherDate id st true h)).
Proof.
  intros HI HG ER EH. apply given_orDie. unfold atBound. destruct (findRun id h) as [r|] eqn:Er; [|by apply given_subset].
  apply findRun_Some in Er as [Hr Hid].
  destruct (decide (headRun (workflow r) h = Some id)) as [Hh|N]; [|rewrite bool_decide_eq_true_2 by done; by apply given_subset].
  rewrite bool_decide_eq_false_2 by (intros H'; by apply H'). destruct (negb _); [by apply given_subset|]. cbn [orb]. rewrite <- Hid in Hh.
  assert (stands (workflow r) = true) as Hst.
  { destruct (headOf (workflow r) h) eqn:Eh; [|done]. by apply (inv_heads _ _ HI) in Eh as []. }
  destruct (tookOf r).1; [by apply given_handOver|]. apply given_subset. intros r'. apply persistEnd_runs.
Qed.


(** ** What ends the process *)

Lemma exits_persistEnd r status ok h : exits (persistEnd opts r status ok h) = exits h.
Proof.
  assert (∀ h1, exits (standingEnded opts r status h1) = exits h1) as HE.
  { intros h1. unfold standingEnded. destruct (headOf _ h1); [|done]. destruct (_ || _); [done|]. case_bool_decide; [done|].
    destruct (_ && _); [done|]. destruct (_ <? _); done. }
  unfold persistEnd. rewrite HE. by destruct ok.
Qed.

Lemma exits_startNow w c why by_ st h : exits (startNow opts w c why by_ st h).2 = exits h.
Proof. unfold startNow. destruct (objGet w (workflowDefs h)); [|done]. destruct st; try done. simpl. by rewrite exits_persistEnd. Qed.

Lemma exits_startStanding w why ctx drop by_ s st h : exits (startStanding opts otherDate w why ctx drop by_ s st h).2 = exits h.
Proof.
  unfold startStanding, bindM, modify, ret. pose proof (exits_startNow w (carryOf drop ctx) (Some why) by_ st (clearStandingTimer w h)) as HE.
  destruct (startNow _ _ _ _ _ _ _) as [[id|e] h1]; simpl in *; [|done]. by destruct (findRun id _).
Qed.

Lemma exits_handOverLive r st ok h : exits (handOverLive opts otherDate r st ok h).2 = exits h.
Proof.
  unfold handOverLive, bindM, modify. pose proof (exits_startStanding (workflow r) hand_over (Some (s_ctx (actor r))) false None 0 st h) as HE.
  destruct (startStanding _ _ _ _ _ _ _ _ _ h) as [[id|e] h1]; simpl in *; [|done]. by rewrite exits_persistEnd.
Qed.

Lemma exits_keepNext k st ok h : exits (keepNext opts otherDate k st ok h) = exits h.
Proof.
  unfold keepNext. destruct (k_at k) as [[[w hd] stored]|].
  - unfold keepLoaded. set (h1 := set_keeping _ h). change (exits h) with (exits h1). unfold handOverFrom, bindM, ret.
    assert (∀ why ctx s, exits (match startStanding opts otherDate w why ctx false None s st h1 with (Ok _, h') => (Ok tt, h') | (Throw e, h') => (@Throw jstr unit e, h') end).2 = exits h1) as HB.
    { intros why ctx s. pose proof (exits_startStanding w why ctx false None s st h1). by destruct (startStanding _ _ _ _ _ _ _ _ _ h1) as [[id|e] h2]. }
    destruct stored as [row|]; [|apply HB]. destruct (st_ended row) as [[]|]; try done; apply HB.
  - destruct (k_rest k) as [|[w d] rest]; [done|]. case_bool_decide; [|done]. set (h1 := set_keeping _ h).
    assert (exits (keepOne opts otherDate w d (k_why k) st ok h1).2 = exits h) as HE; [|by destruct (keepOne _ _ _ _ _ _ _ h1) as [[[[hd stored]|]|e] h2]].
    change (exits h) with (exits h1). unfold keepOne. destruct (standingRun w h1) as [live|].
    + set (h2 := if bool_decide _ then _ else _). assert (exits h2 = exits h1) as <- by (unfold h2; by case_bool_decide). destruct (negb _); [|done].
      unfold bindM, ret. pose proof (exits_handOverLive live st ok h2). by destruct (handOverLive _ _ _ _ _ h2) as [[[]|e] h3].
    + case_bool_decide; [done|]. case_bool_decide; [done|]. destruct (headOf w h1); [by case_bool_decide|]. unfold bindM, ret.
      pose proof (exits_startStanding w (k_why k) None false None 0 st h1). by destruct (startStanding _ _ _ _ _ _ _ _ _ h1) as [[id|e] h2].
Qed.

(** A hand-over that the door does not refuse throws when the Workflow is not registered, and only then. *)
Lemma handOverLive_unknown r st ok h : (∀ m, st ≠ Refused m) →
  (∃ e, (handOverLive opts otherDate r st ok h).1 = Throw e) ↔ objGet (workflow r) (workflowDefs h) = None.
Proof.
  intros Hst. unfold handOverLive, startStanding, bindM, modify, ret, startNow. cbn [workflowDefs clearStandingTimer set_timers].
  destruct (objGet (workflow r) (workflowDefs h)); [|simpl; split; [done|eauto]].
  destruct st as [m| |]; [by destruct (Hst m)|simpl; split; [by intros [? ?]|done]..].
Qed.

Lemma exits_orDie (r : result jstr unit * Host) n : exits r.2 = n → (exits (orDie r) ≠ n ↔ ∃ e, r.1 = Throw e).
Proof. destruct r as [[[]|e] h]; simpl; intros <-; split; [done|by intros [? ?]|eauto|intros _; simpl; lia]. Qed.

Lemma exits_other l h h' :
  (∀ m, startOf l ≠ Some (Refused m)) → (∀ w st ok, l ≠ Fire w st ok) → exec opts otherDate l h = Some h' → exits h' = exits h.
Proof.
  intros Hst Hf. unfold exec. destruct (negb _); [done|].
  destruct l as [loaded|why|st ok|w0 st|id snap|id ok|id status ok|id st ok|w0 st ok|w0 by_ drop|st|ms| | |id o|].
  - by intros [= <-].
  - destruct (_ || _); [done|]. by intros [= <-].
  - destruct (keeping h) as [k|]; [|done]. intros [= <-]. apply exits_keepNext.
  - destruct (isStanding w0 h); [done|]. intros [= <-]. apply exits_startNow.
  - destruct (findRun id h); [|done]. by intros [= <-].
  - destruct (findRun id h); [|done]. intros [= <-]. destruct (checkBound _ _ _); by destruct ok.
  - destruct (findRun id h); [|done]. intros [= <-]. apply exits_persistEnd.
  - case_bool_decide; [|done]. intros [= <-]. set (h1 := set_bounds _ h). change (exits h) with (exits h1). unfold atBound.
    destruct (findRun id h1) as [r|]; [|done]. case_bool_decide; [done|]. destruct (isStanding (workflow r) h1) eqn:Ei; [|done]. cbn [negb orb].
    destruct (tookOf r).1; [|unfold orDie; simpl; by rewrite exits_persistEnd].
    destruct (decide (exits (orDie (handOverLive opts otherDate r st ok h1)) = exits h1)) as [|N]; [done|].
    apply exits_orDie in N; [|apply exits_handOverLive]. apply handOverLive_unknown in N; [|intros m ->; by destruct (Hst m)].
    unfold isStanding in Ei. rewrite N in Ei. by apply bool_decide_eq_true in Ei as [].
  - by destruct (Hf w0 st ok).
  - intros [= <-]. by destruct (resumeStanding _ _ _ h).
  - destruct (resuming h) as [|z rest]; [done|]. intros [= <-]. unfold resumeLoaded. destruct (_ || _); [done|]. unfold handOverFrom. by rewrite exits_startStanding.
  - destruct (0 <=? ms); [|done]. by intros [= <-].
  - by intros [= <-].
  - by intros [= <-].
  - destruct (_ || _); [done|]. destruct (objGet id (rows h)) as [row|]; [|done]. destruct (isLiveRow row); [|done]. intros [= <-]. by destruct o.
  - destruct (forallb _ _); [|done]. by intros [= <-].
Qed.

Lemma exits_fireAge w id st h : Inv none h → (∀ m, st ≠ Refused m) →
  exits (orDie (fireAge opts otherDate w id st true h)) ≠ exits h ↔ headRun w h = Some id ∧ id ∈ runIds h ∧ objGet w (workflowDefs h) = None.
Proof.
  intros HI Hst. unfold fireAge. destruct (findRun id h) as [r|] eqn:Er.
  2: { split; [done|]. intros (_ & H & _). by apply findRun_None in Er. }
  apply findRun_Some in Er as [Hr Hid]. case_bool_decide as Hh; [|split; [done|by intros [? _]]].
  destruct (headOf w h) as [hd|] eqn:Eh; [|done]. injection Hh as Ehd.
  assert (workflow r = w) as Hw by (apply (inv_owner _ _ HI _ _ Eh); [done|congruence]).
  rewrite exits_orDie by apply exits_handOverLive. rewrite handOverLive_unknown, Hw by done.
  split; [|by intros (_ & _ & H)]. intros H. split_and!; [by rewrite <- Ehd|apply list_elem_of_fmap; eauto|done].
Qed.

(** C36: a timer or a microtask of the standing Pools ends the whole process in one
    case, when no start is refused: the age timer of a run whose Workflow a
    publish removed.  The hand-over throws out of the timer's callback, with
    every other run hosted there. *)
Theorem what_ends_the_process t ls h l h' :
  reaches t ls h → sound l → (∀ m, startOf l ≠ Some (Refused m)) → exec opts otherDate l h = Some h' →
  exits h' ≠ exits h ↔
  ∃ w st id d, l = Fire w st true ∧ objGet w (timers h) = Some (Age id d) ∧ stopping h = false ∧ headRun w h = Some id ∧ id ∈ runIds h
    ∧ objGet w (workflowDefs h) = None.
Proof.
  intros HI%reaches_inv Hs Hst HE.
  destruct l as [| | | | | | | |w st ok| | | | | | |]; try (rewrite (exits_other _ _ _ Hst ltac:(done) HE); split; [done|by intros (? & ? & ? & ? & ? & _)]).
  destruct Hs as [-> Hs]. assert (∀ m, st ≠ Refused m) as Hst' by (intros m ->; by apply (Hst m)). clear Hst.
  revert HE. unfold exec. destruct (negb _); [done|]. destruct (objGet w (timers h)) as [tm|] eqn:Et; [|done]. destruct (_ <=? _); [|done].
  cbn [stopping set_timers]. destruct (stopping h) eqn:Es; [intros [= <-]; split; [done|intros (? & ? & ? & ? & _ & _ & H & _); congruence]|].
  fold (clearStandingTimer w h). assert (Inv none (clearStandingTimer w h)) as HC by (by apply inv_clearTimer).
  destruct tm as [id d|id c s d]; intros [= <-].
  - change (exits h) with (exits (clearStandingTimer w h)). rewrite exits_fireAge by done. split.
    + intros (H1 & H2 & H3). by exists w, st, id, d.
    + intros (w' & st' & id' & d' & [= <- <-] & H1 & _ & H2). rewrite Et in H1. injection H1 as <- <-. exact H2.
  - split.
    + unfold fireBackoff. destruct (_ || _); [done|]. by rewrite exits_startStanding.
    + intros (w' & st' & id' & d' & [= <- <-] & H1 & _). congruence.
Qed.

End Inv.

(** ** A process, step by step *)

Definition noDate (_ : jstr) : option Z := None.
Definition alerts : jstr := js "alerts".
Definition only (w : jstr) : bool := bool_decide (w = alerts).

Definition poolOf (machine : Z) (hash : string) : WorkflowDef :=
  mkDef machine (Some (mkInfo (js "pool") (js "triage") (λ _ _, true))) (Some (js hash)).

Definition holding (hs : list Pool.Held) : Snapshot := mkSnap (Pool.mkCtx 1 [] [] [] None hs [] [] [] false 0 [] []) [] [].
Definition anItem : Pool.Held := Pool.mkHeld (js "x") Json.JNull None.

(** [sound] of a label, decided. *)
Definition savedStartB (st : Start) : bool := match st with BeganAndEnded _ _ _ ok => ok | _ => true end.

Definition soundB (stands : jstr → bool) (l : Label) : bool :=
  match l with
  | Swap loaded => forallb (λ wd, eqb (bool_decide (is_Some (d_standing wd.2))) (stands wd.1)) loaded
  | KeepNext st ok | Bound _ st ok | Fire _ st ok => ok && savedStartB st
  | StartRun _ st | ResumeGo st => savedStartB st
  | Ends _ _ ok => ok
  | _ => true
  end.

Lemma savedStartB_sound st : savedStartB st = true → savedStart st.
Proof. by destruct st. Qed.

Lemma soundB_sound stands l : soundB stands l = true → sound stands l.
Proof.
  destruct l; simpl; try done; try apply savedStartB_sound.
  - intros H w d Hin. rewrite forallb_forall in H. apply list_elem_of_In, H in Hin. apply eqb_prop in Hin. simpl in Hin. rewrite <- Hin.
    by rewrite bool_decide_eq_true.
  - intros [-> H]%andb_true_iff. split; [done|by apply savedStartB_sound].
  - intros [-> H]%andb_true_iff. split; [done|by apply savedStartB_sound].
  - intros [-> H]%andb_true_iff. split; [done|by apply savedStartB_sound].
Qed.

Lemma soundsB_sound stands ls : forallb (soundB stands) ls = true → Forall (sound stands) ls.
Proof. intros H. apply Forall_forall. intros l Hl. apply soundB_sound. rewrite forallb_forall in H. by apply H, list_elem_of_In. Qed.

Definition after (ls : list Label) (h : Host) : Host := default h (execs defaultOptions noDate ls h).

Definition T0 : Z := 1000000000000.

(** A boot that starts the first run, which takes an item from a Hook. *)
Definition upLabels : list Label :=
  [Swap [(alerts, poolOf 1 "a1")]; RestoreDone; KeepStart boot; KeepNext (Began (js "A") (holding [])) true; KeepNext (Refused []) true;
   Save (js "A") true; Move (js "A") (holding [anItem]); Save (js "A") true].
Definition upHost : Host := after upLabels (newHost T0).

Lemma up_reached : reaches defaultOptions noDate only T0 upLabels upHost.
Proof. split; [apply soundsB_sound; vm_compute; reflexivity|vm_compute; reflexivity]. Qed.

(** A publish that hands the run over. *)
Definition republish : list Label :=
  [Swap [(alerts, poolOf 2 "a2")]; KeepStart publish; KeepNext (Began (js "B") (holding [anItem])) true].



(** A cancel, then a death and a boot with everything that could start a run. *)
Definition cancelled_ : list Label := upLabels ++ [Ends (js "A") cancelled true].
Definition reboot : list Label :=
  [Kill; Swap [(alerts, poolOf 2 "a2")]; RestoreDone; KeepStart boot; KeepNext (Began (js "B") (holding [])) true].


(** Four runs in a row that end error with no item started. *)
Definition poison : list Label :=
  [Ends (js "A") error true; Tick 1000; Fire alerts (Began (js "B") (holding [anItem])) true;
   Ends (js "B") failed true; Tick 4000; Fire alerts (Began (js "C") (holding [anItem])) true;
   Ends (js "C") error true; Tick 16000; Fire alerts (Began (js "D") (holding [anItem])) true; Ends (js "D") error true].


(** The back-off after an error, which carries the held item. *)
Definition errored : list Label := upLabels ++ [Ends (js "A") error true; Tick 1000].
Definition errorHost : Host := after errored (newHost T0).
Definition fireB : Label := Fire alerts (Began (js "B") (holding [anItem])) true.


(** A publish that removes the Workflow, and a day. *)
Definition removed : list Label := upLabels ++ [Swap []; Tick 86400000].

Lemma what_ends_the_process_witness :
  let h := after removed (newHost T0) in exits h = 0%nat ∧ exits (after [fireB] h) ≠ exits h.
Proof.
  cbv zeta. split; [vm_compute; reflexivity|].
  apply (what_ends_the_process defaultOptions noDate only T0 removed (after removed (newHost T0)) fireB).
  - split; [apply soundsB_sound; vm_compute; reflexivity|vm_compute; reflexivity].
  - apply soundB_sound. vm_compute. reflexivity.
  - discriminate.
  - vm_compute. reflexivity.
  - exists alerts, (Began (js "B") (holding [anItem])), (js "A"), 1000086400000. split_and!; try (vm_compute; reflexivity).
    vm_compute. by left.
Defined.

(** A process that dies after a hand-over and before the new run's first save: the
    head names a run with no row, so the next boot starts one with nothing, and
    the items that the old run held are in no run. *)
Definition lostHandOver (hs : list Pool.Held) : list Label :=
  upLabels ++ [Move (js "A") (holding hs); Save (js "A") true] ++ republish ++
  [Kill; Swap [(alerts, poolOf 2 "a2")]; RestoreDone; KeepStart boot; KeepNext (Refused []) true; KeepNext (Began (js "C") (holding [])) true].

Theorem death_in_a_hand_over_loses hs :
  let h := after (lostHandOver hs) (newHost T0) in
  (λ r, (runId r, input r)) <$> runs h = [(js "C", Pool.noCarry)]
  ∧ (λ kv, (kv.1, st_handedOverTo kv.2, Pool.held (st_ctx kv.2))) <$> rows h = [(js "A", Some (js "B"), hs)].
Proof. vm_compute. split; reflexivity. Qed.

(** Why the labels must be sound.  An end whose save is lost leaves a live row
    beside the next run's: the next boot hosts both. *)
Example lost_end_hosts_two :
  runId <$> hostedOf alerts (after
    (upLabels ++ [Ends (js "A") error false; Tick 1000; Fire alerts (Began (js "B") (holding [anItem])) true; Save (js "B") true;
                  Kill; Swap [(alerts, poolOf 1 "a1")]; Restore (js "A") (Reattached (poolOf 1 "a1") [] []);
                  Restore (js "B") (Reattached (poolOf 1 "a1") [] []); RestoreDone; KeepStart boot; KeepNext (Refused []) true]) (newHost T0))
  = [js "A"; js "B"].
Proof. vm_compute. reflexivity. Qed.

(** A name that comes to stand: the newest of its ordinary runs is handed over, and
    the others run on beside the standing one. *)
Example ordinary_run_is_handed_over :
  let plain := mkDef 3 None (Some (js "a0")) in
  let h := after [Swap [(alerts, plain)]; RestoreDone; StartRun alerts (Began (js "P") (holding [])); StartRun alerts (Began (js "Q") (holding []));
                  Swap [(alerts, poolOf 1 "a1")]; KeepStart publish; KeepNext (Began (js "A") (holding [])) true] (newHost T0) in
  runId <$> hostedOf alerts h = [js "P"; js "A"] ∧ (st_handedOverTo <$> objGet (js "Q") (rows h)) = Some (Some (js "A")).
Proof. vm_compute. split; reflexivity. Qed.

(** A name that no longer stands: at its age the run is handed over all the same, to
    a run of the ordinary Machine. *)
Example ordinary_machine_takes_over :
  let plain := mkDef 3 None (Some (js "a2")) in
  let h := after (upLabels ++ [Swap [(alerts, plain)]; Tick 86400000; Fire alerts (Began (js "B") (holding [])) true]) (newHost T0) in
  (λ r, (runId r, d_standing (def r), startedBy r)) <$> runs h = [(js "B", None, Some hand_over)].
Proof. vm_compute. reflexivity. Qed.

(** The defaults: the waits of the back-off, and the age. *)
Example backoff_waits : standingBackoff <$> [1; 2; 3; 4; 5] = [1000; 4000; 16000; 60000; 60000].
Proof. vm_compute. reflexivity. Qed.

End StandingProofs.
