(* ===== verification/ChartRef.v ===== *)
(** * The data of a Chart: references, generic actions, identity

    [packages/orchestrator/src/chart.ts] (paths, placeholders, [$ref] objects,
    [lookup], [resolveReferences], [resolveSource], [canonicalJson],
    [jsonFaults], [measure]) and [open-body.ts] (the four generic actions, which
    write the run's context).

    A Chart's text is JSON ([Json.json]); the run's data is [val], JavaScript's
    values as these functions can meet and make them: lists with holes, members
    that hold [undefined], and the functions that every object inherits.
    Numbers are integers that a double holds exactly, and an integer segment is
    an array index (below 2^32 - 1). *)

From Stdlib Require Import Lia ZArith.
From stdpp Require Import base list strings sets.
From S2P Require Import Prelude JsString Json JsObject Sql.
Import Json JsObject Sql.

Open Scope Z_scope.

Module ChartRef.

(** ** Paths *)

Definition isAlpha (c : Z) : bool := ((65 <=? c) && (c <=? 90)) || ((97 <=? c) && (c <=? 122)).
Definition isWordDash (c : Z) : bool := isAlpha c || is_digit c || (c =? 95) || (c =? 45).

(** [/^[A-Za-z0-9_-]+$/] *)
Definition NAME (s : jstr) : bool := negb (bool_decide (s = [])) && forallb isWordDash s.

(** An integer as a path writes it: [0], or digits that start with another
    one. *)
Definition integerText (s : jstr) : bool :=
  match s with
  | [] => false
  | c :: s' => if c =? 48 then bool_decide (s' = []) else is_digit c && forallb is_digit s'
  end.

(** An identifier ([A-Za-z_], then [A-Za-z0-9_-]), or an integer. *)
Definition SEGMENT (s : jstr) : bool :=
  match s with
  | [] => false
  | c :: s' => ((isAlpha c || (c =? 95)) && forallb isWordDash s') || integerText s
  end.

Definition FORBIDDEN_SEGMENTS : list jstr := [js "__proto__"; js "prototype"; js "constructor"].
Definition ROOTS : list jstr := [js "context"; js "event"; js "input"].

Inductive fault :=
| NotAPath (path : jstr)
| Walks (path s : jstr)
| NoSuchRoot (ref : jstr)
| WholeRoot (ref root : jstr)
| NotAReference (ref : jstr).

Fixpoint segmentsFault (path : jstr) (segments : list jstr) : option fault :=
  match segments with
  | [] => None
  | s :: rest =>
      if negb (SEGMENT s) then Some (NotAPath path)
      else if bool_decide (s ∈ FORBIDDEN_SEGMENTS) then Some (Walks path s)
      else segmentsFault path rest
  end.

Definition pathFault (path : jstr) : option fault := segmentsFault path (split_on 46 path).

Definition referenceFault (ref : jstr) : option fault :=
  match split_on 46 ref with
  | [] => None
  | root :: rest =>
      if negb (bool_decide (root ∈ ROOTS)) then Some (NoSuchRoot ref)
      else match rest with
           | [] => Some (WholeRoot ref root)
           | _ => match pathFault (join [46] rest) with
                  | Some _ => Some (NotAReference ref)
                  | None => None
                  end
           end
  end.

(** An integer segment is a number, every other a property name. *)
Inductive seg := SName (s : jstr) | SIndex (n : Z).

#[export] Instance seg_eq_dec : EqDecision seg.
Proof. solve_decision. Defined.

Definition segOf (s : jstr) : seg := if integerText s then SIndex (read_digits 10 0 s) else SName s.
Definition pathSegments (path : jstr) : list seg := map segOf (split_on 46 path).
Definition segText (s : seg) : jstr := match s with SName k => k | SIndex n => of_int n end.

(** ** Placeholders

    Two braces, a text with no brace, two braces: the leftmost match, and on from
    its end. *)

Definition isBrace (c : Z) : bool := (c =? 123) || (c =? 125).

Fixpoint span (s : jstr) : jstr * jstr :=
  match s with
  | [] => ([], [])
  | c :: s' => if isBrace c then ([], s) else let '(a, b) := span s' in (c :: a, b)
  end.

Definition matchAt (s : jstr) : option (jstr * jstr) :=
  match s with
  | a :: b :: r =>
      if (a =? 123) && (b =? 123) then
        match span r with
        | (m, c :: d :: rest) => if (c =? 125) && (d =? 125) then Some (m, rest) else None
        | _ => None
        end
      else None
  | _ => None
  end.

Inductive piece := Lit (c : Z) | Hole (m : jstr).

Fixpoint scan (fuel : nat) (s : jstr) : list piece :=
  match fuel, s with
  | S f, c :: s' =>
      match matchAt s with
      | Some (m, rest) => Hole m :: scan f rest
      | None => Lit c :: scan f s'
      end
  | _, _ => []
  end.

Definition pieces (s : jstr) : list piece := scan (length s) s.

(** The contents of the placeholders, in order. *)
Definition matchAll (s : jstr) : list jstr :=
  omap (λ p, match p with Hole m => Some m | Lit _ => None end) (pieces s).

(** [WHOLE_PLACEHOLDER]: the string is one placeholder. *)
Definition wholePlaceholder (s : jstr) : option jstr :=
  match matchAt s with Some (m, []) => Some m | _ => None end.

(** ** Values *)

Inductive val :=
| VUndef
| VNull
| VBool (b : bool)
| VNum (n : Z)
| VStr (s : jstr)
| VFun (name : jstr)
| VArr (l : list (option val))
| VObj (l : list (jstr * val)).

Fixpoint ofJson (v : json) : val :=
  match v with
  | JNull => VNull
  | JBool b => VBool b
  | JNum n => VNum n
  | JStr s => VStr s
  | JArr l => VArr (map (λ x, Some (ofJson x)) l)
  | JObj l => VObj (map (λ m, (m.1, ofJson m.2)) l)
  end.

(** [Object.entries]: the members in the order of [Object.keys]. *)
Definition entries {V} (o : obj V) : list (jstr * V) :=
  omap (λ k, (λ v, (k, v)) <$> objGet k o) (objectKeys o.*1).

(** What [JSON.stringify] prints: [None] is [undefined]. *)
Fixpoint toJson (v : val) : option json :=
  match v with
  | VUndef | VFun _ => None
  | VNull => Some JNull
  | VBool b => Some (JBool b)
  | VNum n => Some (JNum n)
  | VStr s => Some (JStr s)
  | VArr l => Some (JArr (map (λ o, match o with
                                    | Some x => default JNull (toJson x)
                                    | None => JNull
                                    end) l))
  | VObj l =>
      Some (JObj (omap (λ m, (λ x, (m.1, x)) <$> m.2) (entries (map (λ m, (m.1, toJson m.2)) l))))
  end.

(** How a value stands in a text: a string as itself, an object or a list as
    its JSON, anything else through [String]. *)
Definition shown (v : val) : jstr :=
  match v with
  | VUndef => js "undefined"
  | VNull => js "null"
  | VBool b => if b then js "true" else js "false"
  | VNum n => of_Z n
  | VStr s => s
  | VFun name => js "function " ++ name ++ js "() { [native code] }"
  | VArr _ | VObj _ => match toJson v with Some j => stringify j | None => [] end
  end.

(** The own property of a value at a segment, [None] where it has none
    ([Object.hasOwn], then the read). *)
Definition own (v : val) (s : seg) : option val :=
  match v with
  | VObj l => objGet (segText s) l
  | VArr l =>
      match s with
      | SIndex n => mjoin (l !! Z.to_nat n)
      | SName k => if bool_decide (k = js "length") then Some (VNum (Z.of_nat (length l))) else None
      end
  | _ => None
  end.

(** ** [lookup] and [resolveReferences] *)

Record scope := Scope { sc_context : val; sc_event : val; sc_input : val }.

Inductive refError :=
| NoRoot (ref : jstr) (root : seg)
| NothingAt (ref : jstr) (s : seg)
| Nothing (ref : jstr).

(** What the error says. *)
Definition quoted (s : jstr) : jstr := [34] ++ s ++ [34].
Definition errorText (e : refError) : jstr :=
  match e with
  | NoRoot ref root => js "Chart reference " ++ quoted ref ++ js ": no root " ++ quoted (segText root)
  | NothingAt ref s =>
      js "Chart reference " ++ quoted ref ++ js " resolves to nothing (at " ++ quoted (segText s) ++ js ")"
  | Nothing ref => js "Chart reference " ++ quoted ref ++ js " resolves to nothing"
  end.

Fixpoint walkOwn (ref : jstr) (v : val) (rest : list seg) : result refError val :=
  match rest with
  | [] => match v with VUndef => Throw (Nothing ref) | _ => Ok v end
  | s :: rest' =>
      match own v s with
      | None => Throw (NothingAt ref s)
      | Some x =>
          if bool_decide (segText s ∈ FORBIDDEN_SEGMENTS) then Throw (NothingAt ref s) else walkOwn ref x rest'
      end
  end.

Definition rootOf (root : seg) (sc : scope) : option val :=
  if bool_decide (root = SName (js "context")) then Some (sc_context sc)
  else if bool_decide (root = SName (js "event")) then Some (sc_event sc)
  else if bool_decide (root = SName (js "input")) then Some (sc_input sc)
  else None.

Definition lookup (sc : scope) (ref : jstr) : result refError val :=
  match pathSegments ref with
  | [] => Throw (Nothing ref)
  | root :: rest =>
      match rootOf root sc with
      | None => Throw (NoRoot ref root)
      | Some v => walkOwn ref v rest
      end
  end.

(** The results in order, or the first throw. *)
Fixpoint sequence {E A} (l : list (result E A)) : result E (list A) :=
  match l with
  | [] => Ok []
  | r :: l' => x ← r; xs ← sequence l'; Ok (x :: xs)
  end.

Definition pieceText (sc : scope) (p : piece) : result refError jstr :=
  match p with
  | Lit c => Ok [c]
  | Hole m => v ← lookup sc (trim m); Ok (shown v)
  end.

(** [{ "$ref": "..." }] alone. *)
Definition refKey : jstr := js "$ref".
Definition refObject (l : list (jstr * json)) : option jstr :=
  match objGet refKey l with
  | Some (JStr r) => if bool_decide (length l = 1%nat) then Some r else None
  | _ => None
  end.

Definition keyed {E V} (m : jstr * result E V) : result E (jstr * V) := v ← m.2; Ok (m.1, v).

Fixpoint resolveReferences (sc : scope) (value : json) : result refError val :=
  match value with
  | JStr s =>
      match wholePlaceholder s with
      | Some m => lookup sc (trim m)
      | None => ts ← sequence (map (pieceText sc) (pieces s)); Ok (VStr (concat ts))
      end
  | JArr l => xs ← sequence (map (resolveReferences sc) l); Ok (VArr (map Some xs))
  | JObj l =>
      match refObject l with
      | Some r => lookup sc r
      | None =>
          ms ← sequence (map keyed (entries (map (λ m, (m.1, resolveReferences sc m.2)) l)));
          Ok (VObj ms)
      end
  | _ => Ok (ofJson value)
  end.

(** Every reference a value makes, in the order met. *)
Fixpoint referencesOf (value : json) : list jstr :=
  match value with
  | JStr s => map trim (matchAll s)
  | JArr l => concat (map referencesOf l)
  | JObj l =>
      match refObject l with
      | Some r => [r]
      | None => concat (map snd (entries (map (λ m, (m.1, referencesOf m.2)) l)))
      end
  | _ => []
  end.

(** A reference by itself. *)
Definition wholeRefOf (v : json) : option jstr :=
  match v with
  | JStr s => trim <$> wholePlaceholder s
  | JObj l => refObject l
  | _ => None
  end.

Definition isRef (v : json) : bool := bool_decide (is_Some (wholeRefOf v)).

(** The source of a generic [set] or [append]: [None] when it is one reference
    whose path is absent. *)
Definition resolveSource (sc : scope) (value : json) : result refError (option val) :=
  match wholeRefOf value with
  | Some ref => match lookup sc ref with Ok v => Ok (Some v) | Throw _ => Ok None end
  | None => v ← resolveReferences sc value; Ok (Some v)
  end.

(** ** The references of a template, as the grammar checks them *)

Inductive issue :=
| RefFault (path : list seg) (f : fault)
| RefNotAlone (path : list seg)
| RefNotString (path : list seg).

Definition faultIssue (path : list seg) (ref : jstr) : list issue :=
  match referenceFault ref with Some f => [RefFault path f] | None => [] end.

Fixpoint referenceIssues (path : list seg) (value : json) : list issue :=
  match value with
  | JStr s => concat (map (λ m, faultIssue path (trim m)) (matchAll s))
  | JArr l => concat (imap (λ i issues, issues (path ++ [SIndex (Z.of_nat i)]))
                      (map (λ v p, referenceIssues p v) l))
  | JObj l =>
      match objGet refKey l with
      | Some ref =>
          if negb (bool_decide (length l = 1%nat)) then [RefNotAlone path]
          else match ref with
               | JStr r => faultIssue (path ++ [SName refKey]) r
               | _ => [RefNotString (path ++ [SName refKey])]
               end
      | None => concat (map snd (entries (map (λ m, (m.1, referenceIssues (path ++ [SName m.1]) m.2)) l)))
      end
  | _ => []
  end.

(** ** The generic actions (open-body.ts) *)

(** The functions that an object inherits from [Object.prototype], under the
    names that a path may hold ([constructor] and [__proto__] it may not). *)
Definition INHERITED : list jstr :=
  map js ["hasOwnProperty"; "isPrototypeOf"; "propertyIsEnumerable"; "toLocaleString"; "toString"; "valueOf";
          "__defineGetter__"; "__defineSetter__"; "__lookupGetter__"; "__lookupSetter__"]%string.

(** [obj[k]]: the own member, else the inherited one, else [undefined]. *)
Definition member (k : jstr) (o : obj val) : val :=
  match objGet k o with
  | Some v => v
  | None => if bool_decide (k ∈ INHERITED) then VFun k else VUndef
  end.

(** [[...list]]: a hole is read as [undefined]. *)
Definition spread (l : list (option val)) : list (option val) := map (λ o, Some (default VUndef o)) l.

(** [list[n]] and [list[n] = v]: a write past the end leaves holes. *)
Definition element (n : Z) (l : list (option val)) : val := default VUndef (mjoin (l !! Z.to_nat n)).
Definition setElement (n : Z) (v : val) (l : list (option val)) : list (option val) :=
  let i := Z.to_nat n in
  if bool_decide (i < length l)%nat then <[i := Some v]> l
  else l ++ replicate (i - length l) None ++ [Some v].

Fixpoint withPath (path : list seg) (fn : val → val) (value : val) : val :=
  match path with
  | [] => fn value
  | SIndex n :: rest =>
      let list := match value with VArr l => spread l | _ => [] end in
      VArr (setElement n (withPath rest fn (element n list)) list)
  | SName k :: rest =>
      let o := match value with VObj l => l | _ => [] end in
      VObj (objSet k (withPath rest fn (member k o)) o)
  end.

Fixpoint withoutPath (path : list seg) (value : val) : val :=
  match path with
  | [] => value
  | head :: rest =>
      match value with
      | VArr l =>
          match head with
          | SIndex n =>
              if bool_decide (length l <= Z.to_nat n)%nat then value
              else let list := spread l in
                   match rest with
                   | [] => VArr (delete (Z.to_nat n) list)
                   | _ => VArr (<[Z.to_nat n := Some (withoutPath rest (element n list))]> list)
                   end
          | SName _ => value
          end
      | VObj o =>
          match objGet (segText head) o with
          | None => value
          | Some x =>
              match rest with
              | [] => VObj (objDel (segText head) o)
              | _ => VObj (objSet (segText head) (withoutPath rest x) o)
              end
          end
      | _ => value
      end
  end.

(** xstate's [assign] merges what the function returns into the context:
    [Object.assign({}, context, update)]. *)
Definition assign (context : obj val) (update : val) : obj val :=
  match update with
  | VObj l => foldl (λ o m, objSet m.1 m.2 o) context (entries l)
  | VArr l =>
      foldl (λ o m, objSet m.1 m.2 o) context
        (omap id (imap (λ i x, (λ v, (of_int (Z.of_nat i), v)) <$> x) l))
  | _ => context
  end.

Inductive action :=
| ASet (path : jstr) (from : json)
| AAppend (path : jstr) (from : json)
| AIncrement (path : jstr) (by_ : option Z)
| AClear (path : jstr).

Definition appended (v old : val) : val :=
  match old with
  | VArr l => VArr (spread l ++ [Some v])
  | VUndef => VArr [Some v]
  | _ => VArr [Some old; Some v]
  end.

Definition incremented (n : Z) (old : val) : val :=
  VNum ((match old with VNum m => m | _ => 0 end) + n).

(** What [actionOf] gives a generic action: [None] is [absent], a source that
    resolved to nothing. *)
Inductive PathParams :=
| PSet (path : jstr) (value : option val)
| PAppend (path : jstr) (value : option val)
| PIncrement (path : jstr) (by_ : Z)
| PClear (path : jstr).

Definition actionOf (sc : scope) (a : action) : result refError PathParams :=
  match a with
  | ASet path from => source ← resolveSource sc from; Ok (PSet path source)
  | AAppend path from => source ← resolveSource sc from; Ok (PAppend path source)
  | AIncrement path by_ => Ok (PIncrement path (default 1 by_))
  | AClear path => Ok (PClear path)
  end.

(** The four actions, as [assign]s on the context. *)
Definition GENERIC (context : obj val) (p : PathParams) : obj val :=
  match p with
  | PSet _ None | PAppend _ None => assign context (VObj context)
  | PSet path (Some v) => assign context (withPath (pathSegments path) (λ _, v) (VObj context))
  | PAppend path (Some v) => assign context (withPath (pathSegments path) (appended v) (VObj context))
  | PIncrement path n => assign context (withPath (pathSegments path) (incremented n) (VObj context))
  | PClear path =>
      match pathSegments path with
      | [s] => assign context (VObj [(segText s, VUndef)])
      | segments => assign context (withoutPath segments (VObj context))
      end
  end.

(** An action of a run: its params, from the context, the event and the input,
    and then the write; a throw is the body's refusal. *)
Definition runAction (sc : scope) (a : action) (context : obj val) : result refError (obj val) :=
  p ← actionOf (Scope (VObj context) (sc_event sc) (sc_input sc)) a; Ok (GENERIC context p).

(** ** Canonical form *)

(** [.sort()]: by code units. *)
Definition byName {V} (a b : jstr * V) : bool := bytesLt a.1 b.1.

Fixpoint canonicalJson (v : json) : jstr :=
  match v with
  | JArr l => [91] ++ join [44] (map canonicalJson l) ++ [93]
  | JObj l =>
      [123] ++ join [44] (map (λ m, quote m.1 ++ [58] ++ m.2)
                            (orderBy byName (entries (map (λ m, (m.1, canonicalJson m.2)) l)))) ++ [125]
  | _ => stringify v
  end.

(** The sha256 of the text's UTF-8 bytes, in hex, is the runtime's. *)
Section Hash.
Context (sha256hex : jstr → jstr).

Definition chartDigest (text : json) : jstr := sha256hex (canonicalJson text).
Definition chartHash (text : json) : jstr := take 12 (chartDigest text).

End Hash.

(** ** The raw JSON's faults *)

Definition MAX_JSON_DEPTH : nat := 64.

Inductive jsonFault :=
| TooDeep (path : list seg)
| BadKey (path : list seg) (key : jstr).

Definition jsonStack : Type := list (json * list seg).

(** The members of an object: what is reported, and what is pushed. *)
Definition objectFaults (path : list seg) (ms : list (jstr * json)) : list jsonFault :=
  omap (λ m, if bool_decide (m.1 ∈ FORBIDDEN_SEGMENTS) then Some (BadKey (path ++ [SName m.1]) m.1) else None)
    (entries ms).
Definition objectPushes (path : list seg) (ms : list (jstr * json)) : jsonStack :=
  omap (λ m, if bool_decide (m.1 ∈ FORBIDDEN_SEGMENTS) then None else Some (m.2, path ++ [SName m.1]))
    (entries ms).

(** One turn of the loop on the value it popped. *)
Definition faultStep (v : json) (path : list seg) : list jsonFault * jsonStack :=
  match v with
  | JArr l =>
      if bool_decide (MAX_JSON_DEPTH <= length path)%nat then ([TooDeep path], [])
      else ([], imap (λ i x, (x, path ++ [SIndex (Z.of_nat i)])) l)
  | JObj ms =>
      if bool_decide (MAX_JSON_DEPTH <= length path)%nat then ([TooDeep path], [])
      else (objectFaults path ms, objectPushes path ms)
  | _ => ([], [])
  end.

(** The stack's top is the head. *)
Fixpoint faultLoop (fuel : nat) (stack : jsonStack) (out : list jsonFault) : list jsonFault :=
  match fuel, stack with
  | S f, (v, path) :: stack' =>
      if (length out <? 8)%nat then
        let '(fs, pushes) := faultStep v path in
        faultLoop f (rev pushes ++ stack') (out ++ fs)
      else out
  | _, _ => out
  end.

(** The values of a text: each is popped at most once. *)
Fixpoint nodes (v : json) : nat :=
  match v with
  | JArr l => S (list_sum (map nodes l))
  | JObj l => S (list_sum (map (λ m, nodes m.2) l))
  | _ => 1
  end.

Definition jsonFaults (v : json) : list jsonFault := faultLoop (nodes v) [(v, [])] [].

(** ** The count of states and their nesting *)

Definition MAX_NESTING : nat := 8.

(** [walk(node, d)], which goes on while [d + 1] is at most [MAX_NESTING + 1]:
    [left] is how far it may still go. *)
Fixpoint measureAt (left : nat) (d : nat) (node : json) : nat * nat :=
  match node with
  | JObj l =>
      match objGet (js "states") l with
      | Some (JObj children) =>
          foldl (λ acc m,
            let '(n, deep) := match left with
                              | O => (0%nat, 0%nat)
                              | S left' => measureAt left' (S d) m.2
                              end in
            ((acc.1 + 1 + n)%nat, ((acc.2 `max` S d) `max` deep)%nat)) (0%nat, 0%nat) (entries children)
      | _ => (0%nat, 0%nat)
      end
  | _ => (0%nat, 0%nat)
  end.

Definition measure (text : json) : nat * nat := measureAt (S MAX_NESTING) 0 text.

End ChartRef.
