(* ===== verification/ChartRefProofs.v ===== *)
(** * The data of a Chart: proofs

    The canonical text of a Chart is equal for two texts exactly when they hold
    the same values, whatever the order of their members; resolving a template
    is looking up its references in order and putting the values in their places
    once; the raw JSON's faults are none exactly for a text that is no deeper
    than the bound and has no key of the prototype. *)

From Stdlib Require Import Lia ZArith.
From stdpp Require Import base list strings sets sorting.
From S2P Require Import Prelude JsString Json JsObject Sql ChartRef.
Import Json JsObject Sql ChartRef.

Open Scope Z_scope.

Module ChartRefProofs.

(** ** Members in the order of the keys *)

Definition onValue {V W} (f : V → W) (m : jstr * V) : jstr * W := (m.1, f m.2).

Lemma keys_onValue {V W} (f : V → W) (o : obj V) : (map (onValue f) o).*1 = o.*1.
Proof. induction o as [|m o IH]; [done|]. cbn. by f_equal. Qed.

Lemma objGet_onValue {V W} (f : V → W) k (o : obj V) : objGet k (map (onValue f) o) = f <$> objGet k o.
Proof. induction o as [|[k' v] o IH]; [done|]. cbn. by case_bool_decide. Qed.

Lemma entries_onValue {V W} (f : V → W) (o : obj V) : entries (map (onValue f) o) = map (onValue f) (entries o).
Proof.
  unfold entries. rewrite keys_onValue. induction (objectKeys o.*1) as [|k ks IH]; [done|].
  cbn [omap list_omap]. rewrite objGet_onValue, IH. by destruct (objGet k o).
Qed.

Lemma elem_of_entries {V} k v (o : obj V) : (k, v) ∈ entries o ↔ objGet k o = Some v.
Proof.
  unfold entries. rewrite list_elem_of_omap. split.
  - intros (k' & _ & H). destruct (objGet k' o) eqn:E; [|done]. by injection H as -> ->.
  - intros H. exists k. rewrite H. split; [|done]. rewrite objectKeys_perm. apply objGet_is_Some. by eexists.
Qed.

Lemma entries_sub {V} (P : jstr * V → Prop) (o : obj V) : Forall P o → Forall P (entries o).
Proof.
  rewrite !Forall_forall. intros H [k v] Hm. apply elem_of_entries, objGet_elem in Hm. auto.
Qed.

Lemma NoDup_entries {V} (o : obj V) : NoDup o.*1 → NoDup (entries o).*1.
Proof.
  intros HN. unfold entries. rewrite <- objectKeys_perm in HN. revert HN.
  induction (objectKeys o.*1) as [|k ks IH]; [constructor|]. intros [N1 N2]%NoDup_cons.
  cbn [omap list_omap]. destruct (objGet k o) as [v|]; cbn; [|auto].
  constructor; [|auto]. intros ([k' v'] & -> & Hm)%list_elem_of_fmap. cbn in *.
  apply list_elem_of_omap in Hm as (k2 & Hk2 & E). destruct (objGet k2 o); [|done].
  by injection E as -> ->.
Qed.

Lemma entries_perm {V} (o : obj V) : NoDup o.*1 → entries o ≡ₚ o.
Proof.
  intros HN. apply NoDup_Permutation.
  - by apply (NoDup_fmap_1 fst), NoDup_entries.
  - by apply (NoDup_fmap_1 fst).
  - intros [k v]. rewrite elem_of_entries. split; [apply objGet_elem|by apply objGet_NoDup].
Qed.


(** ** The canonical text *)

Lemma byName_sorted {V} (l : list (jstr * V)) :
  NoDup l.*1 → StronglySorted (λ a b, byName a b = true) (orderBy byName l).
Proof.
  intros HN. apply (orderBy_sorted _ (λ m, m ∈ l)).
  - intros a. apply bytesLt_irrefl.
  - intros a b c. apply bytesLt_trans.
  - intros [k v] [k' v'] H1 H2. destruct (bytesLt_total k k') as [?|[->|?]]; [auto| |auto].
    right; left. f_equal. apply (objGet_NoDup _ _ _ HN) in H1, H2. congruence.
  - by apply Forall_forall.
  - by apply (NoDup_fmap_1 fst).
Qed.

Lemma orderBy_byName_onValue {V W} (f : V → W) (l : list (jstr * V)) :
  orderBy byName (map (onValue f) l) = map (onValue f) (orderBy byName l).
Proof.
  unfold orderBy. induction l as [|m l IH]; [done|]. cbn [map foldr]. rewrite IH. generalize (foldr (insertBy byName) [] l). intros k.
  induction k as [|x k IHk]; [done|]. cbn [map insertBy].
  change (byName (onValue f x) (onValue f m)) with (byName x m). destruct (byName x m); [|done].
  cbn [map]. by rewrite IHk.
Qed.

(** Two objects with distinct names hold the same members, in any order, when
    they hold the same value under every name. *)
Lemma sorted_members {V} (a b : obj V) :
  NoDup a.*1 → NoDup b.*1 →
  orderBy byName (entries a) = orderBy byName (entries b) ↔ ∀ k, objGet k a = objGet k b.
Proof.
  intros Na Nb. split.
  - intros E k. apply option_eq. intros v. rewrite <- !elem_of_entries.
    rewrite <- (orderBy_perm byName (entries a)), E. by rewrite orderBy_perm.
  - intros E. apply (sorted_unique byName).
    + intros x. apply bytesLt_irrefl.
    + intros x y z. apply bytesLt_trans.
    + by apply byName_sorted, NoDup_entries.
    + by apply byName_sorted, NoDup_entries.
    + rewrite !orderBy_perm. apply NoDup_Permutation.
      * by apply (NoDup_fmap_1 fst), NoDup_entries.
      * by apply (NoDup_fmap_1 fst), NoDup_entries.
      * intros [k v]. by rewrite !elem_of_entries, E.
Qed.

(** The value with every object's members in the canonical order. *)
Fixpoint normal (v : json) : json :=
  match v with
  | JArr l => JArr (map normal l)
  | JObj l => JObj (orderBy byName (entries (map (onValue normal) l)))
  | _ => v
  end.

Lemma canonical_normal v : canonicalJson v = stringify (normal v).
Proof.
  induction v as [|b|n|s|l HF|l HF] using json_rect'; try done.
  - cbn. do 3 f_equal. rewrite map_map. apply map_ext_Forall. exact HF.
  - cbn [canonicalJson normal stringify]. do 3 f_equal.
    change (map (λ m, (m.1, canonicalJson m.2)) l) with (map (onValue canonicalJson) l).
    assert (map (onValue canonicalJson) l = map (onValue stringify) (map (onValue normal) l)) as ->.
    { rewrite map_map. apply map_ext_Forall. eapply Forall_impl; [exact HF|]. intros m E. unfold onValue. cbn. by f_equal. }
    by rewrite entries_onValue, orderBy_byName_onValue, map_map.
Qed.

(** Every object has each name once. *)
Inductive distinct : json → Prop :=
| d_null : distinct JNull
| d_bool b : distinct (JBool b)
| d_num n : distinct (JNum n)
| d_str s : distinct (JStr s)
| d_arr l : Forall distinct l → distinct (JArr l)
| d_obj l : NoDup l.*1 → Forall (λ m, distinct m.2) l → distinct (JObj l).

(** The same value: lists item by item, objects name by name. *)
Inductive same : json → json → Prop :=
| s_null : same JNull JNull
| s_bool b : same (JBool b) (JBool b)
| s_num n : same (JNum n) (JNum n)
| s_str s : same (JStr s) (JStr s)
| s_arr l l' : Forall2 same l l' → same (JArr l) (JArr l')
| s_obj l l' : (∀ k, option_Forall2 same (objGet k l) (objGet k l')) → same (JObj l) (JObj l').

Lemma normal_units v : units_ok v → units_ok (normal v).
Proof.
  induction v as [|b|n|s|l HF|l HF] using json_rect'; intros Hv; try done.
  - inversion Hv as [| | | |? Hl|]; subst. cbn. constructor. apply Forall_map.
    rewrite Forall_forall in *. auto.
  - inversion Hv as [| | | | |? Hk Hl]; subst. cbn.
    assert (∀ P, Forall P (map (onValue normal) l) →
                 Forall P (orderBy byName (entries (map (onValue normal) l)))) as Hp.
    { intros P HP. rewrite orderBy_perm. by apply entries_sub. }
    constructor; apply Hp, Forall_map; [exact Hk|].
    rewrite Forall_forall in *. intros m Hm. exact (HF m Hm (Hl m Hm)).
Qed.

Lemma normal_same v : ∀ w, distinct v → distinct w → normal v = normal w ↔ same v w.
Proof.
  induction v as [|b|n|s|l HF|l HF] using json_rect'; intros w Hv Hw.
  1-4: destruct w; cbn; split; intros E; inversion E; subst; constructor.
  - destruct w as [| | | |l'|]; cbn; try (split; [done|intros E; inversion E]).
    inversion Hv as [| | | |? Hl|]; subst. inversion Hw as [| | | |? Hl'|]; subst.
    trans (Forall2 same l l'); [|split; [by constructor|intros E; by inversion E]].
    clear Hv Hw. revert l' Hl'. induction HF as [|x l Hx HF IH]; intros [|y l'] Hl'; cbn.
    + split; [by constructor|done].
    + split; [done|intros E; inversion E].
    + split; [done|intros E; inversion E].
    + apply Forall_cons in Hl as [Hd Hl]. apply Forall_cons in Hl' as [Hd' Hl'].
      specialize (IH Hl l' Hl'). specialize (Hx y Hd Hd'). split.
      * intros E. injection E as E1 E2. constructor; [tauto|]. apply IH. by rewrite E2.
      * intros E. inversion E; subst. f_equal. f_equal; [tauto|].
        assert (JArr (map normal l) = JArr (map normal l')) as E' by tauto. by injection E'.
  - destruct w as [| | | | |l']; try (cbn; split; [done|intros E; inversion E]).
    inversion Hv as [| | | | |? N Hl]; subst. inversion Hw as [| | | | |? N' Hl']; subst.
    trans (∀ k, option_Forall2 same (objGet k l) (objGet k l')); [|split; [by constructor|intros E; by inversion E]].
    trans (∀ k, objGet k (map (onValue normal) l) = objGet k (map (onValue normal) l')).
    { rewrite <- sorted_members by (by rewrite keys_onValue). cbn. split; [by intros [= ->]|by intros ->]. }
    apply forall_proper. intros k. rewrite !objGet_onValue.
    rewrite Forall_forall in HF, Hl, Hl'.
    destruct (objGet k l) as [x|] eqn:Ex, (objGet k l') as [y|] eqn:Ey; cbn;
      try (split; [done|intros E; by inversion E]); [|split; [constructor|done]].
    apply objGet_elem in Ex, Ey. specialize (HF _ Ex y (Hl _ Ex) (Hl' _ Ey)). cbn in HF. split.
    + intros [= E]. constructor. tauto.
    + intros E. inversion E; subst. f_equal. tauto.
Qed.

(** C24: the canonical text is a Chart's identity: two texts have one canonical
    JSON exactly when they hold the same values, whatever the order in which
    their members are written; so a text's digest is that of every rewriting of
    it, and two texts with one digest hold the same values unless sha256
    collides. *)
Theorem canonical_identity sha256hex v w :
  units_ok v → units_ok w → distinct v → distinct w →
  (canonicalJson v = canonicalJson w ↔ same v w) ∧
  (same v w → chartHash sha256hex v = chartHash sha256hex w) ∧
  (chartDigest sha256hex v = chartDigest sha256hex w →
   same v w ∨ ∃ a b, a ≠ b ∧ sha256hex a = sha256hex b).
Proof.
  intros Uv Uw Dv Dw.
  assert (canonicalJson v = canonicalJson w ↔ same v w) as H.
  { rewrite <- normal_same by done. rewrite !canonical_normal. split; [|by intros ->]. intros E.
    assert (Some (normal v) = Some (normal w)) as E'; [|by injection E'].
    rewrite <- !parse_stringify by (by apply normal_units). by rewrite E. }
  split; [done|]. split.
  - intros E%H. unfold chartHash, chartDigest. by rewrite E.
  - intros E. destruct (decide (canonicalJson v = canonicalJson w)) as [?|N]; [left; tauto|right; eauto].
Qed.

Definition sample1 : json := JObj [(js "b", JNum 1); (js "a", JArr [JNull; JObj []])].
Definition sample2 : json := JObj [(js "a", JArr [JNull; JObj []]); (js "b", JNum 1)].

Lemma sample_ok v : v = sample1 ∨ v = sample2 → units_ok v ∧ distinct v.
Proof.
  intros [-> | ->]; split; repeat first [apply js_units | constructor | set_solver by done].
Defined.

Lemma canonical_identity_witness : ∃ f, chartHash f sample1 = chartHash f sample2.
Proof.
  exists id. apply (canonical_identity id sample1 sample2).
  1-4: apply sample_ok; auto.
  constructor. intros k. cbn. repeat case_bool_decide; subst; try done; repeat constructor.
Defined.

(** ** Resolving is substitution

    [fill] puts values, in order, in the places where a template has its
    references.  It reads the template alone. *)

Definition filler (A : Type) : Type := list val → A * list val.

Definition pop : filler val := λ vs, match vs with v :: vs' => (v, vs') | [] => (VUndef, []) end.

Fixpoint fillAll {A} (fs : list (filler A)) : filler (list A) :=
  λ vs, match fs with
        | [] => ([], vs)
        | f :: fs' => let '(x, vs1) := f vs in let '(xs, vs2) := fillAll fs' vs1 in (x :: xs, vs2)
        end.

Definition after {A B} (g : A → B) (f : filler A) : filler B := λ vs, let '(x, vs') := f vs in (g x, vs').

Definition fillPiece (p : piece) : filler jstr :=
  match p with
  | Lit c => λ vs, ([c], vs)
  | Hole _ => after shown pop
  end.

Fixpoint fill (value : json) : filler val :=
  match value with
  | JStr s =>
      match wholePlaceholder s with
      | Some _ => pop
      | None => after (λ ts, VStr (concat ts)) (fillAll (map fillPiece (pieces s)))
      end
  | JArr l => after (λ xs, VArr (map Some xs)) (fillAll (map fill l))
  | JObj l =>
      match refObject l with
      | Some _ => pop
      | None => after VObj (fillAll (map (λ m, after (pair m.1) m.2) (entries (map (λ m, (m.1, fill m.2)) l))))
      end
  | _ => λ vs, (ofJson value, vs)
  end.

Lemma sequence_app {E A} (a b : list (result E A)) :
  sequence (a ++ b) = xs ← sequence a; ys ← sequence b; Ok (xs ++ ys).
Proof.
  induction a as [|r a IH]; cbn.
  - by destruct (sequence b).
  - rewrite IH. destruct r as [x|]; cbn; [|done]. destruct (sequence a); cbn; [|done]. by destruct (sequence b).
Qed.

Section Agrees.
Context (sc : scope).

(** A computation that makes these references in this order, and is [f] of what
    they give. *)
Definition agrees {A} (refs : list jstr) (r : result refError A) (f : filler A) : Prop :=
  match sequence (map (lookup sc) refs) with
  | Throw e => r = Throw e
  | Ok xs => ∀ rest, ∃ y, r = Ok y ∧ f (xs ++ rest) = (y, rest)
  end.

Lemma agrees_pure {A} (x : A) : agrees [] (Ok x) (λ vs, (x, vs)).
Proof. intros rest. by exists x. Qed.

Lemma agrees_lookup ref : agrees [ref] (lookup sc ref) pop.
Proof. unfold agrees. cbn. destruct (lookup sc ref) as [v|]; cbn; [|done]. intros rest. by exists v. Qed.

Lemma agrees_after {A B} (g : A → B) refs r f :
  agrees refs r f → agrees refs (x ← r; Ok (g x)) (after g f).
Proof.
  unfold agrees, after. destruct (sequence _) as [xs|e]; [|by intros ->].
  intros H rest. destruct (H rest) as (y & -> & E). exists (g y). by rewrite E.
Qed.

Lemma agrees_all {T A} (refs : T → list jstr) (r : T → result refError A) (f : T → filler A) l :
  Forall (λ t, agrees (refs t) (r t) (f t)) l →
  agrees (concat (map refs l)) (sequence (map r l)) (fillAll (map f l)).
Proof.
  induction 1 as [|t l Ht _ IH]; [apply agrees_pure|]. unfold agrees in *. cbn [map concat].
  rewrite map_app, sequence_app. destruct (sequence (map (lookup sc) (refs t))) as [xs|e]; cbn; [|by rewrite Ht].
  destruct (sequence (map (lookup sc) (concat (map refs l)))) as [ys|e]; cbn.
  - intros rest. destruct (Ht (ys ++ rest)) as (y & -> & E1). destruct (IH rest) as (z & -> & E2).
    exists (y :: z). cbn. rewrite <- app_assoc, E1, E2. done.
  - destruct (Ht []) as (y & -> & _). cbn. by rewrite IH.
Qed.

Lemma agrees_piece p :
  agrees (match p with Hole m => [trim m] | Lit _ => [] end) (pieceText sc p) (fillPiece p).
Proof. destruct p as [c|m]; [apply agrees_pure|]. apply (agrees_after shown), agrees_lookup. Qed.

Lemma trims ps :
  map trim (omap (λ p, match p with Hole m => Some m | Lit _ => None end) ps) =
  concat (map (λ p, match p with Hole m => [trim m] | Lit _ => [] end) ps).
Proof. induction ps as [|[c|m] ps IH]; cbn; [done|exact IH|by f_equal]. Qed.

Lemma whole_matchAll s m : wholePlaceholder s = Some m → matchAll s = [m].
Proof.
  unfold wholePlaceholder, matchAll, pieces. destruct (matchAt s) as [[m' rest]|] eqn:E; [|done].
  destruct rest; [|done]. intros [= ->]. destruct s as [|c s]; [done|]. cbn [length scan]. rewrite E.
  by destruct (length s).
Qed.

Lemma resolve_agrees v : agrees (referencesOf v) (resolveReferences sc v) (fill v).
Proof.
  induction v as [|b|n|s|l HF|l HF] using json_rect'; try apply agrees_pure.
  - cbn [referencesOf resolveReferences fill]. destruct (wholePlaceholder s) as [m|] eqn:E.
    + rewrite (whole_matchAll _ _ E). apply agrees_lookup.
    + unfold matchAll. rewrite trims. apply (agrees_after (λ ts, VStr (concat ts))).
      apply agrees_all, Forall_true, agrees_piece.
  - apply (agrees_after (λ xs, VArr (map Some xs))). by apply agrees_all.
  - cbn [referencesOf resolveReferences fill]. destruct (refObject l); [apply agrees_lookup|].
    apply (agrees_after VObj).
    change (map (λ m, (m.1, referencesOf m.2)) l) with (map (onValue referencesOf) l).
    change (map (λ m, (m.1, resolveReferences sc m.2)) l) with (map (onValue (resolveReferences sc)) l).
    change (map (λ m, (m.1, fill m.2)) l) with (map (onValue fill) l).
    rewrite !entries_onValue, !map_map.
    apply (agrees_all (λ m, referencesOf m.2) (λ m, keyed (onValue (resolveReferences sc) m))
             (λ m, after (pair m.1) (fill m.2))).
    eapply Forall_impl; [apply entries_sub, HF|]. intros m Hm. cbn. by apply (agrees_after (pair m.1)).
Qed.

End Agrees.

(** C17: resolving a template is looking up the references that it makes, in
    their order, and putting the values in their places once: it throws exactly
    what the first reference that resolves to nothing throws, it reads nothing
    else of the run's data, and no value that it puts in is read for references
    again. *)
Theorem resolving_is_substitution sc v :
  resolveReferences sc v = (xs ← sequence (map (lookup sc) (referencesOf v)); Ok (fill v xs).1).
Proof.
  pose proof (resolve_agrees sc v) as H. unfold agrees in H. destruct (sequence _) as [xs|e]; [|done].
  destruct (H []) as (y & -> & E). rewrite app_nil_r in E. cbn. by rewrite E.
Qed.

(** ** The raw JSON *)

(** Under [d] objects and lists, the text nests no deeper than the bound and has
    no key of the prototype. *)
Inductive clean : nat → json → Prop :=
| c_null d : clean d JNull
| c_bool d b : clean d (JBool b)
| c_num d n : clean d (JNum n)
| c_str d s : clean d (JStr s)
| c_arr d l : (d < MAX_JSON_DEPTH)%nat → Forall (clean (S d)) l → clean d (JArr l)
| c_obj d l : (d < MAX_JSON_DEPTH)%nat → Forall (λ m, (m.1 ∉ FORBIDDEN_SEGMENTS) ∧ clean (S d) m.2) l → clean d (JObj l).

Definition cleanItem (i : json * list seg) : Prop := clean (length i.2) i.1.
Definition weight (st : jsonStack) : nat := list_sum (map (λ i, nodes i.1) st).

Lemma faultLoop_out f st out : out `prefix_of` faultLoop f st out.
Proof.
  revert st out. induction f as [|f IH]; intros [|[v p] st] out; cbn [faultLoop]; try done.
  destruct (_ <? _)%nat; [|done]. destruct (faultStep v p) as [fs ps].
  etrans; [|apply IH]. by eexists.
Qed.

Lemma weight_cons i st : weight (i :: st) = (nodes i.1 + weight st)%nat.
Proof. done. Qed.

Lemma weight_app a b : weight (a ++ b) = (weight a + weight b)%nat.
Proof. unfold weight. by rewrite map_app, list_sum_app. Qed.

Lemma weight_perm a b : a ≡ₚ b → weight a = weight b.
Proof. unfold weight. induction 1; cbn; [done|by f_equal|lia|congruence]. Qed.

Lemma weight_imap l g n :
  weight (imap (λ i x, (x, g (n + i)%nat)) l) = list_sum (map nodes l).
Proof.
  revert n. induction l as [|x l IH]; intros n; [done|]. cbn [imap map]. unfold weight in *. cbn [map list_sum foldr fst].
  change (foldr Nat.add 0%nat) with list_sum. rewrite <- (IH (S n)). do 3 f_equal. apply imap_ext. intros i y _. cbn. do 2 f_equal. lia.
Qed.

Lemma Forall_imap {A B} (P : B → Prop) (f : nat → A → B) (l : list A) :
  Forall P (imap f l) ↔ ∀ i x, l !! i = Some x → P (f i x).
Proof.
  rewrite Forall_lookup. split.
  - intros H i x Hx. apply (H i). by rewrite list_lookup_imap, Hx.
  - intros H i y. rewrite list_lookup_imap. destruct (l !! i) eqn:E; [|done]. intros [= <-]. eauto.
Qed.

(** What one object adds to the stack weighs less than the object. *)
Lemma pushes_weight p ms : NoDup ms.*1 → (weight (objectPushes p ms) <= list_sum (map (λ m, nodes m.2) ms))%nat.
Proof.
  intros HN. trans (list_sum (map (λ m, nodes m.2) (entries ms))).
  - unfold objectPushes. induction (entries ms) as [|m l IH]; [done|]. cbn [omap list_omap].
    change (list_sum (map (λ m, nodes m.2) (m :: l))) with (nodes m.2 + list_sum (map (λ m, nodes m.2) l))%nat.
    case_bool_decide; rewrite ?weight_cons; cbn [fst]; lia.
  - assert (∀ a b : list (jstr * json), a ≡ₚ b → list_sum (map (λ m, nodes m.2) a) = list_sum (map (λ m, nodes m.2) b)) as Hs.
    { induction 1; cbn; [done|by f_equal|lia|congruence]. }
    by rewrite (Hs _ _ (entries_perm ms HN)).
Qed.

(** One turn of the loop reports nothing and leaves clean values exactly when
    the value is clean. *)
Lemma faultStep_clean v p :
  distinct v →
  (clean (length p) v ↔ (faultStep v p).1 = [] ∧ Forall cleanItem (faultStep v p).2).
Proof.
  intros Hd. destruct v as [|b|n|s|l|ms]; try (cbn; split; [by repeat constructor|constructor]).
  - cbn [faultStep]. case_bool_decide as Hb; cbn.
    { split; [inversion 1; subst; lia|by intros [? _]]. }
    rewrite Forall_imap. unfold cleanItem. cbn. split.
    + inversion 1 as [| | | |? ? _ HF|]; subst. split; [done|]. intros i x Hx.
      rewrite length_app, Nat.add_1_r. by eapply Forall_lookup_1.
    + intros [_ H]. constructor; [lia|]. apply Forall_lookup. intros i x Hx. specialize (H i x Hx).
      by rewrite length_app, Nat.add_1_r in H.
  - inversion Hd as [| | | | |? HN _]; subst. cbn [faultStep]. case_bool_decide as Hb; cbn.
    { split; [inversion 1; subst; lia|by intros [? _]]. }
    trans (Forall (λ m, (m.1 ∉ FORBIDDEN_SEGMENTS) ∧ clean (S (length p)) m.2) ms).
    { split; [by inversion 1|constructor; [lia|done]]. }
    trans (Forall (λ m, (m.1 ∉ FORBIDDEN_SEGMENTS) ∧ clean (S (length p)) m.2) (entries ms)); [by rewrite (entries_perm ms HN)|].
    unfold objectFaults, objectPushes.
    induction (entries ms) as [|m l IH]; [split; [by repeat constructor|constructor]|].
    cbn [omap list_omap]. rewrite Forall_cons. case_bool_decide; cbn; [naive_solver|].
    assert (cleanItem (m.2, p ++ [SName m.1]) ↔ clean (S (length p)) m.2) as Hm.
    { unfold cleanItem. cbn. by rewrite length_app, Nat.add_1_r. }
    rewrite Forall_cons, IH, Hm. tauto.
Qed.

Lemma faultStep_distinct v p : distinct v → Forall (λ i, distinct i.1) (faultStep v p).2.
Proof.
  destruct v as [|b|n|s|l|ms]; intros Hd; try constructor; cbn [faultStep]; case_bool_decide; try constructor.
  - inversion Hd as [| | | |? HF|]; subst. cbn. apply Forall_imap. intros i x Hx. by eapply Forall_lookup_1 in HF.
  - inversion Hd as [| | | | |? _ HF]; subst. cbn. unfold objectPushes.
    induction (entries_sub _ _ HF) as [|m l Hm _ IH]; [constructor|]. cbn [omap list_omap].
    case_bool_decide; [exact IH|by constructor].
Qed.

Lemma faultStep_weight v p : distinct v → (S (weight (faultStep v p).2) <= nodes v)%nat.
Proof.
  intros Hd. destruct v as [|b|n|s|l|ms]; try (cbn; lia); cbn [faultStep]; case_bool_decide; cbn [fst snd nodes];
    try (cbn; lia).
  - apply le_n_S. pose proof (weight_imap l (λ i, p ++ [SIndex (Z.of_nat i)]) 0) as E. cbn in E. by rewrite E.
  - apply le_n_S, pushes_weight. by inversion Hd.
Qed.

Lemma faultLoop_clean f st :
  (weight st <= f)%nat → Forall (λ i, distinct i.1) st →
  (faultLoop f st [] = [] ↔ Forall cleanItem st).
Proof.
  revert st. induction f as [|f IH]; intros [|[v p] st] Hw HD; cbn [faultLoop]; try (split; [by constructor|done]).
  { rewrite weight_cons in Hw. destruct v; cbn [fst nodes] in Hw; lia. }
  apply Forall_cons in HD as [Hd HD]. cbn in Hd.
  pose proof (faultStep_clean v p Hd) as Hc. pose proof (faultStep_distinct v p Hd) as Hd'.
  pose proof (faultStep_weight v p Hd) as Hw'. rewrite Forall_cons. unfold cleanItem at 1. cbn [fst snd length].
  rewrite Hc. destruct (faultStep v p) as [fs ps]; cbn [fst snd] in *. cbn [Nat.ltb Nat.leb app].
  destruct fs as [|x fs].
  - rewrite IH.
    + rewrite Forall_app, <- (Permutation_rev ps). naive_solver.
    + rewrite weight_app, (weight_perm (rev ps) ps) by (symmetry; apply Permutation_rev).
      rewrite weight_cons in Hw. cbn [fst] in Hw. lia.
    + by rewrite Forall_app, <- (Permutation_rev ps).
  - split; [|naive_solver]. intros E. destruct (faultLoop_out f (rev ps ++ st) (x :: fs)) as [k Hk].
    by rewrite E in Hk.
Qed.

(** The walk of the raw text, with its own stack and its stop at eight lines,
    finds nothing exactly when there is nothing to find. *)
Theorem raw_faults_are_found v : distinct v → (jsonFaults v = [] ↔ clean 0 v).
Proof.
  intros Hd. unfold jsonFaults. rewrite faultLoop_clean.
  - rewrite Forall_singleton. done.
  - unfold weight. cbn. lia.
  - by constructor.
Qed.

(** ** The generic actions *)

(** What a write's function gets: the old value at the path. *)
Fixpoint oldAt (path : list seg) (value : val) : val :=
  match path with
  | [] => value
  | SIndex n :: rest => oldAt rest (element n (match value with VArr l => spread l | _ => [] end))
  | SName k :: rest => oldAt rest (member k (match value with VObj l => l | _ => [] end))
  end.

(** The path takes no list for an object and no object for a list: where it
    does, the write starts a new one in its place. *)
Fixpoint fits (path : list seg) (value : val) : bool :=
  match path with
  | [] => true
  | SIndex n :: rest =>
      match value with VArr l => fits rest (element n (spread l)) | VObj _ => false | _ => true end
  | SName k :: rest =>
      match value with VObj o => fits rest (member k o) | VArr _ => false | _ => true end
  end.

(** Two segments that name two places; [length] is the list's own. *)
Definition apart (a b : seg) : Prop :=
  segText a ≠ segText b ∧ (∀ n, a = SIndex n → b ≠ SName (js "length")).

Definition natural (s : seg) : Prop := match s with SIndex n => 0 <= n | SName _ => True end.

Lemma lookup_spread i l : spread l !! i = (λ o, Some (default VUndef o)) <$> l !! i.
Proof. apply list_lookup_fmap. Qed.

Lemma lookup_setElement n v l i :
  0 <= n → mjoin (setElement n v l !! i) = if bool_decide (i = Z.to_nat n) then Some v else mjoin (l !! i).
Proof.
  intros Hn. unfold setElement. cbn zeta. case_bool_decide as Hi.
  - rewrite list_lookup_insert. case_decide as Hx; case_bool_decide; try naive_solver. 
  - case_bool_decide as E.
    + subst. rewrite app_assoc, lookup_app_r, length_app, length_replicate; [|rewrite length_app, length_replicate; lia].
      replace (_ - _)%nat with 0%nat by lia. done.
    + destruct (decide (i < length l)%nat); [by rewrite lookup_app_l|].
      rewrite lookup_app_r by lia. rewrite (lookup_ge_None_2 l) by lia.
      destruct (decide (i < Z.to_nat n)%nat).
      * rewrite lookup_app_l by (rewrite length_replicate; lia). by rewrite lookup_replicate_2 by lia.
      * rewrite lookup_ge_None_2; [done|]. rewrite length_app, length_replicate. cbn. lia.
Qed.

Lemma written_here ref path fn v :
  Forall (λ s, segText s ∉ FORBIDDEN_SEGMENTS) path → Forall natural path → fn (oldAt path v) ≠ VUndef →
  walkOwn ref (withPath path fn v) path = Ok (fn (oldAt path v)).
Proof.
  revert v. induction path as [|s path IH]; intros v HF HN Hv.
  - cbn in *. by destruct (fn v).
  - apply Forall_cons in HF as [Hs HF]. apply Forall_cons in HN as [Hn HN].
    destruct s as [k|n]; cbn [withPath walkOwn own segText oldAt] in *.
    + rewrite objGet_objSet, decide_True by done. rewrite bool_decide_eq_false_2 by done. by apply IH.
    + rewrite lookup_setElement, bool_decide_eq_true_2 by done. rewrite bool_decide_eq_false_2 by done. by apply IH.
Qed.

Lemma walk_cons ref v s rest y :
  walkOwn ref v (s :: rest) = Ok y ↔
  ∃ x, own v s = Some x ∧ (segText s ∉ FORBIDDEN_SEGMENTS) ∧ walkOwn ref x rest = Ok y.
Proof.
  cbn. destruct (own v s) as [x|]; [|naive_solver]. case_bool_decide; [naive_solver|].
  split; [eauto|]. by intros (? & [= ->] & _ & ?).
Qed.

Lemma walk_undef ref rest y : walkOwn ref VUndef rest ≠ Ok y.
Proof. by destruct rest. Qed.

(** At the segment where the paths part, the write changes nothing. *)
Lemma apart_own a b rest fn v x :
  apart a b → natural a → natural b → fits (a :: rest) v = true → x ≠ VUndef →
  (own (withPath (a :: rest) fn v) b = Some x ↔ own v b = Some x).
Proof.
  intros [Hab Hl] Ha Hb Hf Hx. destruct a as [k|n]; cbn [withPath own segText] in *.
  - rewrite objGet_objSet, decide_False by done. destruct v; try done; cbn; tauto.
  - destruct b as [k|m].
    + rewrite bool_decide_eq_false_2 by (intros ->; by eapply Hl). destruct v; try done; cbn; try tauto.
      case_bool_decide; [subst; by destruct (Hl n)|tauto].
    + assert (m ≠ n) as Hmn by (intros ->; done). cbn in Ha, Hb.
      rewrite lookup_setElement, bool_decide_eq_false_2 by lia.
      destruct v as [| | | | | |l|o]; try done; cbn [own]; rewrite ?lookup_nil; try done.
      rewrite lookup_spread. destruct (l !! Z.to_nat m) as [[z|]|]; cbn; [tauto|naive_solver|done].
Qed.

(** What the write goes on with below a segment. *)
Definition child (s : seg) (v : val) : val :=
  match s with
  | SIndex n => element n (match v with VArr l => spread l | _ => [] end)
  | SName k => member k (match v with VObj l => l | _ => [] end)
  end.

Lemma member_new k : own (member k []) = λ _, None.
Proof. unfold member. cbn. by case_bool_decide. Qed.

Lemma own_written s rest fn v :
  natural s → own (withPath (s :: rest) fn v) s = Some (withPath rest fn (child s v)).
Proof.
  intros Hs. destruct s as [k|n]; cbn [withPath own segText child].
  - by rewrite objGet_objSet, decide_True.
  - by rewrite lookup_setElement, bool_decide_eq_true_2.
Qed.

Lemma fits_child s rest v : fits (s :: rest) v = true → fits rest (child s v) = true.
Proof.
  assert (∀ k, fits rest (member k []) = true) as Hm.
  { intros k. unfold member. cbn. case_bool_decide; by destruct rest as [|[]]. }
  assert (∀ n, fits rest (element n []) = true) as He.
  { intros n. unfold element. rewrite lookup_nil. by destruct rest as [|[]]. }
  destruct s as [k|n], v as [| | | | | |l|o]; cbn [fits child]; auto.
Qed.

Lemma own_child s rest v :
  fits (s :: rest) v = true →
  own v s = Some (child s v) ∨ own v s = None ∧ own (child s v) = (λ _, None) ∨ own v s = None ∧ child s v = VUndef.
Proof.
  intros Hf. destruct s as [k|n], v as [| | | | | |l|o]; try done; cbn [own child segText].
  all: try (right; left; split; [done|]; first [apply member_new|unfold element; by rewrite lookup_nil]).
  - unfold member. destruct (objGet k o); [by left|]. right; left. by case_bool_decide.
  - unfold element. rewrite lookup_spread. destruct (l !! Z.to_nat n) as [[x|]|]; cbn; auto.
Qed.

Lemma written_beside ref c a b p q fn v y :
  apart a b → Forall natural (c ++ a :: p) → natural b → fits (c ++ a :: p) v = true →
  (walkOwn ref (withPath (c ++ a :: p) fn v) (c ++ b :: q) = Ok y ↔ walkOwn ref v (c ++ b :: q) = Ok y).
Proof.
  intros Hab HN Hb. revert v. induction c as [|s c IH]; intros v Hf.
  - cbn [app] in *. apply Forall_cons in HN as [Ha _]. rewrite !walk_cons. split; intros (x & Hx & ? & Hw).
    all: assert (x ≠ VUndef) as Hu by (intros ->; by apply walk_undef in Hw).
    all: exists x; split; [by eapply (apart_own a b p fn v x)|done].
  - cbn [app] in *. apply Forall_cons in HN as [Hs HN].
    pose proof (own_child _ _ _ Hf) as Hc. specialize (IH HN _ (fits_child _ _ _ Hf)).
    rewrite !walk_cons, own_written by done. split.
    + intros (x & [= <-] & Hn & Hw). apply IH in Hw. destruct Hc as [E|[[_ E]|[_ E]]].
      * eauto.
      * destruct c; cbn [app] in Hw; rewrite walk_cons, E in Hw; naive_solver.
      * rewrite E in Hw. by apply walk_undef in Hw.
    + intros (x & Hx & Hn & Hw). eexists. split; [done|]. split; [done|]. apply IH.
      destruct Hc as [E|[[E _]|[E _]]]; congruence.
Qed.

Definition refTo (path : jstr) : jstr := js "context." ++ path.

Lemma lookup_refTo sc path :
  lookup sc (refTo path) = walkOwn (refTo path) (sc_context sc) (pathSegments path).
Proof. done. Qed.

Lemma pathSegments_cons path : ∃ s rest, pathSegments path = s :: rest.
Proof.
  unfold pathSegments. pose proof (split_on_nonempty 46 path) as H. destruct (split_on 46 path); [done|]. by eexists _, _.
Qed.

Lemma index_not_forbidden n : 0 <= n → of_int n ∉ FORBIDDEN_SEGMENTS.
Proof.
  intros Hn. pose proof (digits_of_int n Hn) as HF. unfold FORBIDDEN_SEGMENTS. rewrite !elem_of_cons, elem_of_nil.
  intros [E|[E|[E|[]]]]; rewrite E in HF; apply Forall_cons in HF as [HF _]; discriminate HF.
Qed.

Lemma read_digits_nonneg b a s : 0 <= b → 0 <= a → 0 <= read_digits b a s.
Proof.
  intros Hb. revert a. induction s as [|c s IH]; intros a Ha; [done|]. cbn. unfold digit_val.
  destruct (_ && _) eqn:E; [|done]. apply IH. zbool. nia.
Qed.

Lemma path_admitted path :
  pathFault path = None →
  Forall (λ s, segText s ∉ FORBIDDEN_SEGMENTS) (pathSegments path) ∧ Forall natural (pathSegments path).
Proof.
  unfold pathFault, pathSegments. induction (split_on 46 path) as [|s l IH]; cbn; [by repeat constructor|].
  destruct (SEGMENT s); [|done]. cbn. case_bool_decide as Hs; [done|]. intros [H1 H2]%IH.
  assert (0 <= read_digits 10 0 s) by (by apply read_digits_nonneg).
  rewrite !Forall_cons. unfold segOf. destruct (integerText s); [|done].
  split; split; [by apply index_not_forbidden|done|done|done].
Qed.

Lemma objGet_foldl l (ms : obj val) ctx k :
  (∀ m, m ∈ ms → objGet m.1 l = Some m.2) →
  objGet k (foldl (λ o m, objSet m.1 m.2 o) ctx ms) =
  if decide (k ∈ ms.*1) then objGet k l else objGet k ctx.
Proof.
  revert ctx. induction ms as [|m ms IH]; intros ctx H; [done|]. cbn [foldl].
  rewrite IH by (intros; apply H; by right). rewrite objGet_objSet.
  assert (objGet m.1 l = Some m.2) as Hm by (apply H; by left).
  repeat case_decide; subst; cbn in *; try done; set_solver.
Qed.

(** [assign] merges: the update's members, then the context's own. *)
Lemma objGet_assign ctx l k :
  objGet k (assign ctx (VObj l)) = match objGet k l with Some v => Some v | None => objGet k ctx end.
Proof.
  cbn. rewrite (objGet_foldl l) by (intros [k' v']; apply elem_of_entries).
  case_decide as Hk.
  - apply list_elem_of_fmap in Hk as ([k' v'] & -> & E%elem_of_entries). cbn. by rewrite E.
  - destruct (objGet k l) as [v|] eqn:E; [|done]. destruct Hk. apply list_elem_of_fmap.
    exists (k, v). by rewrite elem_of_entries.
Qed.

Lemma walk_members ref a b path :
  path ≠ [] → (∀ k, objGet k a = objGet k b) → walkOwn ref (VObj a) path = walkOwn ref (VObj b) path.
Proof. intros Hp H. destruct path as [|s path]; [done|]. cbn. by rewrite H. Qed.

(** A write below a name changes the context to what [withPath] gives. *)
Lemma assign_withPath ref ctx k rest fn path :
  path ≠ [] →
  walkOwn ref (VObj (assign ctx (withPath (SName k :: rest) fn (VObj ctx)))) path =
  walkOwn ref (withPath (SName k :: rest) fn (VObj ctx)) path.
Proof.
  intros Hp. cbn [withPath]. apply walk_members; [done|]. intros k'. rewrite objGet_assign, objGet_objSet.
  case_decide; [done|]. by destruct (objGet k' ctx).
Qed.

Lemma walk_defined ref v path y : walkOwn ref v path = Ok y → y ≠ VUndef.
Proof.
  revert v. induction path as [|s path IH]; intros v; cbn.
  - by destruct v; intros [= <-].
  - destruct (own v s); [|done]. case_bool_decide; [done|]. apply IH.
Qed.

Lemma lookup_defined sc ref y : lookup sc ref = Ok y → y ≠ VUndef.
Proof. unfold lookup. destruct (pathSegments ref) as [|r p]; [done|]. destruct (rootOf r sc); [|done]. apply walk_defined. Qed.

Lemma resolve_defined sc v y : resolveReferences sc v = Ok y → y ≠ VUndef.
Proof.
  destruct v as [|b|n|s|l|l]; cbn [resolveReferences ofJson]; try (by intros [= <-]).
  - destruct (wholePlaceholder s); [apply lookup_defined|]. destruct (sequence _); [|done]. by intros [= <-].
  - destruct (sequence _); [|done]. by intros [= <-].
  - destruct (refObject l); [apply lookup_defined|]. destruct (sequence _); [|done]. by intros [= <-].
Qed.

Lemma source_defined sc v y : resolveSource sc v = Ok (Some y) → y ≠ VUndef.
Proof.
  unfold resolveSource. destruct (wholeRefOf v).
  - destruct (lookup sc _) eqn:E; [|done]. intros [= ->]. by eapply lookup_defined.
  - destruct (resolveReferences sc v) eqn:E; [|done]. intros [= ->]. by eapply resolve_defined.
Qed.

(** The write that an action makes: where, and the new value of the old. *)
Definition writeOf (sc : scope) (a : action) : option (jstr * (val → val)) :=
  match a with
  | ASet path from => match resolveSource sc from with Ok (Some v) => Some (path, λ _, v) | _ => None end
  | AAppend path from => match resolveSource sc from with Ok (Some v) => Some (path, appended v) | _ => None end
  | AIncrement path by_ => Some (path, incremented (default 1 by_))
  | AClear _ => None
  end.

Definition withContext (sc : scope) (ctx : obj val) : scope := Scope (VObj ctx) (sc_event sc) (sc_input sc).

Lemma generic_runs sc a ctx path fn :
  writeOf (withContext sc ctx) a = Some (path, fn) →
  runAction sc a ctx = Ok (assign ctx (withPath (pathSegments path) fn (VObj ctx))) ∧ ∀ old, fn old ≠ VUndef.
Proof.
  unfold runAction. change (Scope (VObj ctx) (sc_event sc) (sc_input sc)) with (withContext sc ctx).
  destruct a as [p from|p from|p n|p]; cbn [writeOf actionOf]; try done.
  - destruct (resolveSource _ from) as [[v|]|] eqn:E; try done. intros [= <- <-]. apply source_defined in E. done.
  - destruct (resolveSource _ from) as [[v|]|] eqn:E; try done. intros [= <- <-]. split; [done|].
    intros []; done.
  - intros [= <- <-]. done.
Qed.


Definition ctx0 : obj val := [(js "ticket", VObj [(js "notes", VArr [Some (VNum 1)]); (js "title", VStr (js "t"))])].
Definition sc0 : scope := Scope (VObj ctx0) (VObj []) (VObj []).


(** A reference walks own properties, but a write reads the inherited one: the
    first [append] at a path whose name every object inherits keeps a function as
    the list's first item. *)
Theorem append_keeps_inherited :
  runAction sc0 (AAppend (js "valueOf") (JNum 7)) ctx0 =
  Ok (ctx0 ++ [(js "valueOf", VArr [Some (VFun (js "valueOf")); Some (VNum 7)])]).
Proof. by vm_compute. Qed.

(** The context is an object, so a write whose path begins with an integer reads
    a new list in its place: however often it runs, an [increment] there gives
    its first value, and an [append] a list of one. *)
Theorem integer_head_forgets n v m :
  ∀ ctx : obj val, objGet (js "0") ctx = Some v →
  runAction sc0 (AIncrement (js "0") (Some n)) ctx = Ok (objSet (js "0") (VNum n) ctx) ∧
  runAction sc0 (AAppend (js "0") (JNum m)) ctx = Ok (objSet (js "0") (VArr [Some (VNum m)]) ctx).
Proof. done. Qed.

End ChartRefProofs.
