(* ===== verification/ChartDoor.v ===== *)
(** * The Chart door

    [packages/orchestrator/src/chart.ts]: [admitChart] and the class [Door], the
    static check that every Chart passes before it runs (rules 3 to 8: names,
    events, minted Agents, structure, dataflow, lent input shapes).

    The grammar (rule 2) is zod's walk of a schema; [ChartText] and the types
    below are what it gives.  A state is its key path from the root, so two nodes
    are one when their paths are.  What the checks note and report is one log in
    the order of their calls ([entry]); a report's line is its rule, its path in
    the Chart and what it says as a constructor of [fault] with the names that
    the text quotes. *)

From Stdlib Require Import Lia ZArith.
From stdpp Require Import base list strings sets.
From S2P Require Import Prelude JsString Json JsObject Sql Edit FileTools ChartRef.
Import Json JsObject Sql Edit FileTools ChartRef.

Open Scope Z_scope.

Module ChartDoor.

(** ** The Chart text *)

(** [T | T[]] *)
Inductive oneOrMany (A : Type) : Type := One (a : A) | Many (l : list A).
Arguments One {A}.
Arguments Many {A}.

Inductive ChartGuard :=
| GName (name : jstr)
| GType (type : jstr) (params : option json)
| GNot (g : ChartGuard)
| GAnd (l : list ChartGuard)
| GOr (l : list ChartGuard).

Inductive ChartAction :=
| Generic (a : action)
| Lent (type : jstr) (params : option json).

(** A transition: a target alone, or the object form. *)
Inductive ChartTransition :=
| TTarget (target : jstr)
| TObject (target : option (oneOrMany jstr)) (guard : option ChartGuard) (actions : list ChartAction) (reenter : bool).

Abbreviation ChartTransitions := (oneOrMany ChartTransition).

Record ChartInvoke := Invoke {
  i_src : jstr;
  i_id : option jstr;
  i_input : option json;
  i_onDone : option ChartTransitions;
  i_onError : option ChartTransitions;
}.

Inductive kind := Atomic | Compound | Parallel | Final | History.

#[export] Instance kind_eq_dec : EqDecision kind.
Proof. solve_decision. Defined.

(** What a state has beside its child states. *)
Record StateBody := Body {
  s_type : option kind;
  s_initial : option jstr;
  s_history : bool;
  s_invoke : option (oneOrMany ChartInvoke);
  s_on : option (list (jstr * ChartTransitions));
  s_always : option ChartTransitions;
  s_after : option (list (jstr * ChartTransitions));
  s_entry : list ChartAction;
  s_exit : list ChartAction;
  s_output : option json;
}.

Inductive ChartState := State (body : StateBody) (states : list (jstr * ChartState)).

Definition bodyOf (s : ChartState) : StateBody := let 'State b _ := s in b.
Definition statesOf (s : ChartState) : list (jstr * ChartState) := let 'State _ l := s in l.

Record ChartAgent := Minted { a_model : jstr; a_workspace : option jstr }.

Record ChartText := Chart {
  c_id : option jstr;
  c_context : option (list (jstr * json));
  c_events : list (jstr * json);
  c_agents : list (jstr * ChartAgent);
  c_initial : jstr;
  c_states : list (jstr * ChartState);
  c_output : option json;
}.

(** [listAt(v, path)] *)
Definition listAt {A} (v : option (oneOrMany A)) (path : jstr) : list (A * jstr) :=
  match v with
  | None => []
  | Some (One a) => [(a, path)]
  | Some (Many l) => imap (λ i a, (a, path ++ js "." ++ of_int (Z.of_nat i))) l
  end.

Definition listOf {A} (v : option (oneOrMany A)) : list A := (listAt v []).*1.

(** ** The tree *)

Abbreviation path := (list jstr).

(** The doc path: [states.review.states.wait]. *)
Definition docOf (p : path) : jstr := join [46] (concat (map (λ k, [js "states"; k]) p)).

Definition kindOf (s : ChartState) : kind :=
  match s_type (bodyOf s) with
  | Some k => k
  | None => match statesOf s with [] => Atomic | _ => Compound end
  end.

Fixpoint stateAt (s : ChartState) (p : path) : option ChartState :=
  match p with
  | [] => Some s
  | k :: p' => match objGet k (statesOf s) with Some c => stateAt c p' | None => None end
  end.

(** The states below one, each before its own children ([index], [descendants]). *)
Fixpoint below (p : path) (s : ChartState) : list (path * ChartState) :=
  let 'State _ l := s in
  concat (map snd (entries (map (λ m, (m.1, (p ++ [m.1], m.2) :: below (p ++ [m.1]) m.2)) l))).

(** A state and those above it, up to the root. *)
Definition ups (p : path) : list path := map (λ n, take n p) (rev (seq 0 (S (length p)))).

Definition parentOf (p : path) : path := take (pred (length p)) p.

Definition isAncestorOrSelf (a b : path) : bool := bool_decide (a `prefix_of` b).

(** The states a state's entry enters below it. *)
Fixpoint enterDown (p : path) (s : ChartState) : list path :=
  let 'State b l := s in
  let kids := map (λ m, (m.1, enterDown (p ++ [m.1]) m.2)) l in
  p :: match kindOf s with
       | Parallel => concat (map snd (entries kids))
       | Compound => match s_initial b with Some i => default [] (objGet i kids) | None => [] end
       | _ => []
       end.

Section Tree.
Context (chart : ChartText).

(** The root node; its state is the Chart's [initial] and [states]. *)
Definition root : ChartState :=
  State (Body (Some Compound) (Some (c_initial chart)) false None None None None [] [] None) (c_states chart).

Definition nodeAt (p : path) : option ChartState := stateAt root p.
Definition nodes : list (path * ChartState) := below [] root.
Definition kindAt (p : path) : option kind := kindOf <$> nodeAt p.

Definition childrenOf (p : path) : list path :=
  match nodeAt p with
  | Some s => map (λ k, p ++ [k]) (objectKeys (statesOf s).*1)
  | None => []
  end.

Definition descendants (p : path) : list path := match nodeAt p with Some s => (below p s).*1 | None => [] end.
Definition enterAt (p : path) : list path := match nodeAt p with Some s => enterDown p s | None => [] end.

(** ** Targets *)

Inductive targetFault := NeedsId | OtherId (id : jstr) | NoState.

Definition walk (from keys : path) : targetFault + path :=
  match nodeAt (from ++ keys) with Some _ => inr (from ++ keys) | None => inl NoState end.

Definition resolveTarget (target : jstr) (source : path) : targetFault + path :=
  match target with
  | 35 :: rest =>
      match split_on 46 rest, c_id chart with
      | id :: keys, Some own_id => if bool_decide (id = own_id) then walk [] keys else inl (OtherId id)
      | _, None => inl NeedsId
      | [], _ => inl NoState
      end
  | 46 :: rest => walk source (split_on 46 rest)
  | _ => walk (parentOf source) (split_on 46 target)
  end.

(** ** [always] cycles *)

Record edge := Edge {
  e_from : path;
  e_targets : list path;
  e_guarded : bool;
  e_reenter : bool;
  e_doc : jstr;
}.

Definition domainOf (e : edge) : path :=
  if bool_decide (e_targets e = []) then e_from e
  else if negb (e_reenter e)
          && forallb (λ t, negb (bool_decide (t = e_from e)) && isAncestorOrSelf (e_from e) t) (e_targets e)
  then e_from e
  else default [] (head (filter (λ a, forallb (isAncestorOrSelf a) (e_targets e) = true) (tail (ups (e_from e))))).

(** What one target adds: it and the states above it, with the other regions of
    each parallel state at or below the domain, and what its entry enters. *)
Definition enteredByTarget (domain t : path) : list path :=
  concat (map (λ n, n ::
    (if bool_decide (kindAt n = Some Parallel) && isAncestorOrSelf domain n
     then concat (map enterAt (filter (λ c, isAncestorOrSelf c t = false) (childrenOf n)))
     else [])) (ups t))
  ++ (if bool_decide (kindAt t = Some History) then descendants (parentOf t) else enterAt t).

Definition enteredBy (e : edge) : list path :=
  if bool_decide (e_targets e = []) then ups (e_from e)
  else concat (map (enteredByTarget (domainOf e)) (e_targets e)).

(** The other regions of the parallel states above the domain. *)
Definition keptBy (e : edge) : list path :=
  concat (map (λ a,
    if bool_decide (a ≠ []) && bool_decide (kindAt (parentOf a) = Some Parallel)
    then concat (map (λ c, c :: descendants c) (filter (λ c, c ≠ a) (childrenOf (parentOf a))))
    else []) (ups (domainOf e))).

End Tree.

(** The search itself, over the edges by number: [entered i j] when edge [i]
    enters the source of edge [j], [kept i j] when it may leave it active. *)
Section Cycles.
Context (entered kept : nat → nat → bool) (guarded : nat → bool).

(** One pass of the fixed point; the live set shrinks as the pass goes. *)
Definition livePass (live : list nat) : list nat :=
  foldl (λ live i, if existsb (λ j, entered j i) live then live else filter (λ j, j ≠ i) live) live live.

Fixpoint liveFix (fuel : nat) (live : list nat) : list nat :=
  match fuel with
  | O => live
  | S f => let live' := livePass live in
           if (length live' <? length live)%nat then liveFix f live' else live'
  end.

Definition nextOf (live : list nat) (i : nat) : list nat := filter (λ j, entered i j || kept i j = true) live.

(** The loop over [next[cur]]: a way back to [i], or what is pushed. *)
Fixpoint visit (i : nat) (trail next : list nat) (seen : list nat) (stack : list (nat * list nat)) :
    option (list nat * list (nat * list nat)) :=
  match next with
  | [] => Some (seen, stack)
  | j :: next' =>
      if bool_decide (j = i) then None
      else if bool_decide (j ∈ seen) then visit i trail next' seen stack
      else visit i trail next' (seen ++ [j]) ((j, trail ++ [j]) :: stack)
  end.

(** The search from edge [i]: the trail of the cycle it finds. *)
Fixpoint search (live : list nat) (i : nat) (fuel : nat) (seen : list nat) (stack : list (nat * list nat)) :
    option (list nat) :=
  match fuel, stack with
  | S f, (cur, trail) :: stack' =>
      match visit i trail (nextOf live cur) seen stack' with
      | None => Some trail
      | Some (seen', stack'') => search live i f seen' stack''
      end
  | _, _ => None
  end.

(** The edges in order; [reported] holds the unguarded edges of the cycles
    found. *)
Fixpoint cycleLoop (live : list nat) (n : nat) (todo : list nat) (reported : list nat) : list (nat * list nat) :=
  match todo with
  | [] => []
  | i :: todo' =>
      if guarded i || bool_decide (i ∈ reported) || negb (bool_decide (i ∈ live)) then cycleLoop live n todo' reported
      else match search live i (S n) [] [(i, [i])] with
           | Some trail =>
               (i, trail) :: cycleLoop live n todo' (reported ++ filter (λ k, guarded k = false) trail)
           | None => cycleLoop live n todo' reported
           end
  end.

(** The cycles reported among [n] edges: each unguarded edge that one was found
    from, with its trail. *)
Definition cyclesOf (n : nat) : list (nat * list nat) :=
  cycleLoop (liveFix (S n) (seq 0 n)) n (seq 0 n) [].

End Cycles.

Section Edges.
Context (chart : ChartText).

Definition enteredEdge (edges : list edge) (i j : nat) : bool :=
  match edges !! i, edges !! j with
  | Some e, Some f => bool_decide (e_from f ∈ enteredBy chart e)
  | _, _ => false
  end.

Definition keptEdge (edges : list edge) (i j : nat) : bool :=
  match edges !! i, edges !! j with
  | Some e, Some f => bool_decide (e_from f ∈ keptBy chart e)
  | _, _ => false
  end.

Definition guardedEdge (edges : list edge) (i : nat) : bool :=
  match edges !! i with Some e => e_guarded e | None => false end.

Definition alwaysCycles (edges : list edge) : list (nat * list nat) :=
  cyclesOf (enteredEdge edges) (keptEdge edges) (guardedEdge edges) (length edges).

End Edges.

(** ** What the Open body lends *)

Record Lends := MkLends {
  l_agents : list jstr;
  l_effects : list jstr;
  l_machines : list jstr;
  l_gates : list jstr;
  l_guards : list jstr;
  l_actions : list jstr;
  l_delays : list jstr;
  l_gate : bool;
  l_fail : bool;
}.

(** The declaration; [d_wallMs] is [durationMs] of its wall clock, in whole
    milliseconds. *)
Record OpenBodyDeclaration := Declaration {
  d_lends : Lends;
  d_models : list jstr;
  d_workspace : list jstr;
  d_size : Z;
  d_wallMs : option Z;
}.

Inductive expectation := ExpectNew | ExpectExisting.

(** An Effect's parts, as the door reads them (effect.ts): a command's argv slots
    ([None] where the argv is Open), whether it pins a commit, whether it names a
    secret, and the cut's [expect]; and the keys of the other kinds. *)
Inductive EffectParts :=
| Command (args : option (list jstr)) (pin credentialed : bool) (cut : option (option expectation))
| HttpEffect (inputKeys : list jstr) (file : bool)
| Push (inputKeys : list jstr) (force : bool)
| Dispatch (inputKeys : option (list jstr))
| Mcp (inputKeys : list jstr).

Record InputShape := Shape { sh_required : list jstr; sh_optional : list jstr; sh_oneOf : option (list jstr) }.

Definition CUT_SHAPE : InputShape :=
  Shape [js "path"] [js "from"] (Some [js "branch"; js "detach"]).

Definition inputShapeOf (parts : EffectParts) : option InputShape :=
  match parts with
  | Dispatch keys => (λ ks, Shape ks [] None) <$> keys
  | Push keys _ | Mcp keys => Some (Shape keys [] None)
  | HttpEffect keys file => Some (Shape keys (if file then [js "worktree"] else []) None)
  | Command _ _ _ (Some _) => Some CUT_SHAPE
  | Command None _ _ None => None
  | Command (Some args) pin credentialed None =>
      let keys := args ++ (if pin then [js "sha"] else []) in
      Some (if credentialed then Shape (keys ++ [js "worktree"]) [] None else Shape keys [js "worktree"] None)
  end.

Definition shapeKeys (sh : InputShape) : list jstr := sh_required sh ++ sh_optional sh ++ default [] (sh_oneOf sh).
Definition inputKeysOf (parts : EffectParts) : option (list jstr) := shapeKeys <$> inputShapeOf parts.

Inductive actorLogic :=
| AgentLogic (workspace : option jstr)
| EffectLogic (parts : EffectParts)
| GateSlotLogic (delivers : list jstr)
| OtherLogic.

(** The implementations that the lent names have now. *)
Record LentParts := MkLent {
  p_actors : list (jstr * actorLogic);
  p_guards : list jstr;
  p_actions : list jstr;
  p_delays : list jstr;
}.

Record AdmitOptions := MkOptions { o_inputKeys : option (list jstr); o_repoSlots : option (list jstr) }.

(** [name in object]: an own key, or one that every object inherits. *)
Definition inObject (name : jstr) (keys : list jstr) : bool :=
  bool_decide (name ∈ keys) || bool_decide (name ∈ INHERITED ++ [js "constructor"; js "__proto__"]).

(** ** The log of the checks *)

Inductive InvokeKind := KAgent | KMinted | KEffect | KMachine | KGate | KFail.

#[export] Instance InvokeKind_eq_dec : EqDecision InvokeKind.
Proof. solve_decision. Defined.

Inductive EventScope :=
| SNone
| SEvent (name : jstr)
| SMechanism (name : jstr)
| SDone
| SError
| SSkip.

Inductive writeKind := WSet | WAppend | WIncrement.

#[export] Instance writeKind_eq_dec : EqDecision writeKind.
Proof. solve_decision. Defined.

Record write := Write { w_path : list seg; w_kind : writeKind; w_from : option json; w_scope : EventScope; w_at : jstr }.

(** Why a reference may resolve to nothing. *)
Inductive refFault :=
| SuppliedByNothing
| WrittenFromOptional (w : write) (source : jstr)
| NotInInput
| InputBelow
| NoEventHere
| NotTheOutput
| NotTheError
| NotAMechanismField
| OptionalMechanismField
| NoObjectHere
| NotAField
| NoListHere
| TooFewItems
| OptionalField.

Inductive fault :=
| NotLentNow (name : jstr)
| GateSlotDelivers (src : jstr) (outside : list jstr)
| GateNotLent
| FailNotLent
| NoActor (src : jstr)
| TakesNoParams (type : jstr)
| NotALentGuard (name : jstr)
| NotAnAction (type : jstr)
| PastTimer (key : jstr)
| PastWallClock (key : jstr)
| NotADelay (key : jstr)
| StarRefused
| ActorEventRefused (name : jstr)
| DottedEvent (name : jstr)
| UndeclaredEvent (name : jstr)
| NotAPayloadKeyword (key : jstr)
| NotASchema
| PropertiesNotAnObject
| ItemsAreAList
| TypeField
| NotAnObjectSchema
| SenderField
| SchemaThrows
| Unhandled (name : jstr)
| IsALentName (slot : jstr)
| ModelNotAllowed (model : jstr)
| WorkspaceNotAllowed (access : jstr)
| InitialNotAState (initial : jstr)
| NoChildStates
| NoInitial
| InitialNotAChild (initial : jstr)
| InitialOfAnother
| HasChildStates
| FinalHas (key : jstr)
| OutputNotRead
| OutputOfAnother
| HistoryOfAnother
| BadTarget (target : jstr) (f : targetFault)
| AlwaysCycle (states : list path)
| AgentOnDone
| ParallelAtAgent (src : jstr)
| NothingEndsTurn (src : jstr)
| TwoTurns (slot : jstr) (states : list path)
| SentByReference
| SentByNoParty (id : jstr)
| BadReference (ref : jstr) (f : refFault)
| BadInput
| NotAnInputKey (key : jstr)
| GateIdNotLiteral
| NoInputKeys (src : jstr)
| CutWithoutExpect (src : jstr)
| CutBesideForcePush (src force : jstr)
| InputShapeFault (src : jstr) (missing extra : list jstr)
| DetachedFrom
| SlotNotAString
| NotAWorktreePath (value : jstr)
| NoSuchSlot (value : jstr)
| SlotFolder (cwd : jstr)
| NoReason
| BadReason
| NamesPlacement
| NoPrompt
| PromptNotAString
| CwdNotAString
| NoCwd
| BadContinue
| ModelNotLiteral
| BadThinkingLevel.

Record line := Line { ln_rule : Z; ln_path : jstr; ln_what : fault }.

Inductive entry :=
| ELine (l : line)
| EWrite (w : write)
| ERef (ref path : jstr) (scope : EventScope) (optionalOk : bool)
| EEdge (e : edge)
| ESentBy (id path : jstr)
| EHandled (name : jstr).

(** [this.fail(rule, path: ...)] *)
Definition fail (rule : Z) (path : jstr) (f : fault) : list entry := [ELine (Line rule path f)].

Definition linesOf (log : list entry) : list line := omap (λ e, match e with ELine l => Some l | _ => None end) log.
Definition writesOf (log : list entry) : list write := omap (λ e, match e with EWrite w => Some w | _ => None end) log.
Definition edgesOf (log : list entry) : list edge := omap (λ e, match e with EEdge x => Some x | _ => None end) log.
Definition handledOf (log : list entry) : list jstr := omap (λ e, match e with EHandled n => Some n | _ => None end) log.
Definition sentBysOf (log : list entry) : list (jstr * jstr) :=
  omap (λ e, match e with ESentBy i p => Some (i, p) | _ => None end) log.
Definition refsOf (log : list entry) : list (jstr * jstr * EventScope * bool) :=
  omap (λ e, match e with ERef r p s o => Some (r, p, s, o) | _ => None end) log.

(** [path.key] and [path.i] *)
Definition dot (path key : jstr) : jstr := path ++ [46] ++ key.
Definition dotN (path : jstr) (i : nat) : jstr := dot path (of_int (Z.of_nat i)).

(** ** A payload's schema *)

Definition PAYLOAD_KEYWORDS : list jstr :=
  map js ["type"; "properties"; "required"; "items"; "enum"; "const"; "description"; "title";
          "additionalProperties"; "minimum"; "maximum"; "exclusiveMinimum"; "exclusiveMaximum";
          "minLength"; "maxLength"; "minItems"; "maxItems"]%string.

Fixpoint subsetFaults (node : json) (path : list jstr) : list (list jstr * fault) :=
  match node with
  | JBool _ => if bool_decide (last path = Some (js "additionalProperties")) then [] else [(path, NotASchema)]
  | JObj l =>
      concat (map snd (entries (map (λ m, (m.1,
        let here := path ++ [m.1] in
        if bool_decide (m.1 = js "$schema") && bool_decide (path = []) then []
        else if negb (bool_decide (m.1 ∈ PAYLOAD_KEYWORDS)) then [(here, NotAPayloadKeyword m.1)]
        else if bool_decide (m.1 = js "properties") then
          match m.2 with
          | JObj l' => concat (map snd (entries (map (λ m', (m'.1, subsetFaults m'.2 (here ++ [m'.1]))) l')))
          | _ => [(here, PropertiesNotAnObject)]
          end
        else if bool_decide (m.1 = js "items") then
          match m.2 with JArr _ => [(here, ItemsAreAList)] | _ => subsetFaults m.2 here end
        else if bool_decide (m.1 = js "additionalProperties") then subsetFaults m.2 here
        else [])) l)))
  | _ => [(path, NotASchema)]
  end.

(** [node.key] of a schema: [None] is [undefined]. *)
Definition field (key : jstr) (node : json) : option json :=
  match node with JObj l => objGet key l | _ => None end.

(** [Object.hasOwn(props, name)] of an object or a list, and the read. *)
Definition ownJson (props : json) (name : jstr) : option json :=
  match props with
  | JObj l => objGet name l
  | JArr l => if bool_decide (name = js "length") then Some (JNum (Z.of_nat (length l))) else None
  | _ => None
  end.

Definition payloadSchemaFaults (schema : json) : list (list jstr * fault) :=
  subsetFaults schema [] ++
  match field (js "properties") schema with
  | Some props =>
      if bool_decide (is_Some (ownJson props (js "type"))) then [([js "properties"; js "type"], TypeField)] else []
  | None => []
  end.

(** What [z.fromJSONSchema] makes of a schema. *)
Inductive zodOutcome := ZThrows | ZOther | ZObject (shape : list jstr).

(** [MECHANISM_EVENTS]: the fields, and whether each is always there. *)
Definition MECHANISM_EVENTS : list (jstr * list (jstr * bool)) :=
  [(js "agent.fault", [(js "type", true); (js "instanceId", true); (js "reason", true)]);
   (js "workspace.lost", [(js "type", true); (js "reason", false); (js "message", false)])].

Definition SENT_BY : jstr := js "jr2.sentBy".
Definition FAILURE_GUARD : jstr := js "jr2.failure".
Definition READY_GUARD : jstr := js "jr2.ready".
Definition MAX_TIMER_MS : Z := 2147483647.
Definition MAX_STATES : nat := 200.
Definition AGENT_INPUT_KEYS : list jstr := map js ["prompt"; "cwd"; "continue"; "model"; "thinkingLevel"]%string.
Definition PLACEMENT_INPUT_KEYS : list jstr := map js ["endpoint"; "sandbox"]%string.
Definition THINKING : list jstr := map js ["off"; "minimal"; "low"; "medium"; "high"; "xhigh"]%string.

(** ** The door's checks *)

Section Door.
Context (chart : ChartText) (decl : OpenBodyDeclaration) (lent : LentParts) (options : AdmitOptions).
Context (fromJSONSchema : json → zodOutcome).

Abbreviation lends := (d_lends decl).

(** *** Rule 3: names *)

Definition lentNow (name : jstr) : bool := inObject name (p_actors lent).*1.

(** What an invoke's [src] names, or the line that refuses it. *)
Definition srcKind (src : jstr) : fault + InvokeKind :=
  let declared := l_agents lends ++ l_effects lends ++ l_machines lends ++ l_gates lends in
  if bool_decide (src ∈ declared) && negb (lentNow src) then inl (NotLentNow src)
  else if bool_decide (src ∈ l_agents lends) then inr KAgent
  else if bool_decide (src ∈ l_effects lends) then inr KEffect
  else if bool_decide (src ∈ l_machines lends) then inr KMachine
  else if bool_decide (src ∈ l_gates lends) then
    let outside := match objGet src (p_actors lent) with
                   | Some (GateSlotLogic delivers) => filter (λ d, d ∉ (c_events chart).*1) delivers
                   | _ => []
                   end in
    match outside with [] => inr KGate | _ => inl (GateSlotDelivers src outside) end
  else if bool_decide (src = js "gate") then (if l_gate lends then inr KGate else inl GateNotLent)
  else if bool_decide (src = js "fail") then (if l_fail lends then inr KFail else inl FailNotLent)
  else if bool_decide (src ∈ (c_agents chart).*1) then inr KMinted
  else inl (NoActor src).

Definition invokeKind (inv : ChartInvoke) : option InvokeKind :=
  match srcKind (i_src inv) with inr k => Some k | inl _ => None end.

(** [checkRefs] notes the references of a value. *)
Definition checkRefs (value : json) (path : jstr) (scope : EventScope) (optionalOk : bool) : list entry :=
  map (λ ref, ERef ref path scope (optionalOk && isRef value)) (referencesOf value).

Definition checkParams (params : option json) (path : jstr) (scope : EventScope) : list entry :=
  match params with Some v => checkRefs v (dot path (js "params")) scope false | None => [] end.

Definition checkGuardName (name path : jstr) : list entry :=
  if bool_decide (name = FAILURE_GUARD) || bool_decide (name = READY_GUARD) then []
  else if bool_decide (name ∈ l_guards lends) && negb (inObject name (p_guards lent)) then fail 3 path (NotLentNow name)
  else if negb (bool_decide (name ∈ l_guards lends)) then fail 3 path (NotALentGuard name)
  else [].

Fixpoint checkGuard (guard : ChartGuard) (path : jstr) (scope : EventScope) : list entry :=
  match guard with
  | GName name => checkGuardName name path
  | GNot g => checkGuard g (dot path (js "not")) scope
  | GAnd l => concat (imap (λ i check, check (dotN (dot path (js "and")) i)) (map (λ g p, checkGuard g p scope) l))
  | GOr l => concat (imap (λ i check, check (dotN (dot path (js "or")) i)) (map (λ g p, checkGuard g p scope) l))
  | GType type params =>
      if bool_decide (type = SENT_BY) then
        match params ≫= field (js "id") with
        | Some (JStr id) => [ESentBy id (dot path (js "params.id"))]
        | _ => []
        end
      else if bool_decide (type = FAILURE_GUARD) || bool_decide (type = READY_GUARD) then
        match params with Some _ => fail 3 (dot path (js "params")) (TakesNoParams type) | None => [] end
      else checkGuardName type (dot path (js "type")) ++ checkParams params path scope
  end.

Definition checkAction (a : ChartAction) (path : jstr) (scope : EventScope) : list entry :=
  match a with
  | Generic (ASet p from) =>
      checkRefs from (dot path (js "from")) scope true ++ [EWrite (Write (pathSegments p) WSet (Some from) scope path)]
  | Generic (AAppend p from) =>
      checkRefs from (dot path (js "from")) scope true ++ [EWrite (Write (pathSegments p) WAppend (Some from) scope path)]
  | Generic (AIncrement p _) => [EWrite (Write (pathSegments p) WIncrement None scope path)]
  | Generic (AClear _) => []
  | Lent t params =>
      (if bool_decide (t ∈ l_actions lends) && negb (inObject t (p_actions lent)) then
         fail 3 (dot path (js "type")) (NotLentNow t)
       else if negb (bool_decide (t ∈ l_actions lends)) then fail 3 (dot path (js "type")) (NotAnAction t)
       else [])
      ++ checkParams params path scope
  end.

Definition checkActions (l : list ChartAction) (path : jstr) (scope : EventScope) : list entry :=
  concat (imap (λ i a, checkAction a (dotN path i) scope) l).

Definition checkDelay (key path : jstr) : list entry :=
  if integerText key then
    let ms := read_digits 10 0 key in
    if MAX_TIMER_MS <? ms then fail 3 path (PastTimer key)
    else match d_wallMs decl with
         | Some wall => if wall <? ms then fail 3 path (PastWallClock key) else []
         | None => []
         end
  else if bool_decide (key ∈ l_delays lends) && negb (inObject key (p_delays lent)) then fail 3 path (NotLentNow key)
  else if negb (bool_decide (key ∈ l_delays lends)) then fail 3 path (NotADelay key)
  else [].

(** An [on] key: what is logged, and its scope where it is not refused. *)
Definition onScope (name path : jstr) : list entry * option EventScope :=
  if bool_decide (name = js "*") then (fail 3 path StarRefused, None)
  else if Edit.startsWith (js "xstate.done.actor.") name || Edit.startsWith (js "xstate.error.actor.") name then
    (fail 3 path (ActorEventRefused name), None)
  else if bool_decide (name ∈ MECHANISM_EVENTS.*1) then ([], Some (SMechanism name))
  else if bool_decide (46 ∈ name) then (fail 3 path (DottedEvent name), None)
  else if negb (bool_decide (name ∈ (c_events chart).*1)) then
    ([EHandled name] ++ fail 4 path (UndeclaredEvent name), None)
  else ([EHandled name], Some (SEvent name)).

(** *** Rule 4: events *)

(** The payload schema is read, then [defineEvent] refuses a field [sender]. *)
Definition eventDef (name : jstr) (schema : json) : list entry :=
  let at_ := dot (dot (js "events") name) (js "input") in
  match payloadSchemaFaults schema with
  | [] =>
      match fromJSONSchema schema with
      | ZThrows => fail 4 at_ SchemaThrows
      | ZOther => fail 4 at_ NotAnObjectSchema
      | ZObject shape =>
          if negb (NAME name) then fail 4 at_ SchemaThrows
          else if inObject (js "sender") shape then fail 4 at_ SenderField else []
      end
  | faults => map (λ f, ELine (Line 4 (join [46] (at_ :: f.1)) f.2)) faults
  end.

Definition checkEvents : list entry := concat (map (λ m, eventDef m.1 m.2) (entries (c_events chart))).

Definition checkUnhandled (handled : list jstr) : list entry :=
  concat (map (λ name, if bool_decide (name ∈ handled) then [] else fail 4 (dot (js "events") name) (Unhandled name))
            (objectKeys (c_events chart).*1)).

(** *** Rule 5: minted Agents *)

Definition checkAgents : list entry :=
  let lentNames := l_agents lends ++ l_effects lends ++ l_machines lends ++ l_gates lends ++ [js "gate"; js "fail"] in
  concat (map (λ m,
    let path := dot (js "agents") m.1 in
    let access := default (js "write") (a_workspace m.2) in
    (if bool_decide (m.1 ∈ lentNames) then fail 5 path (IsALentName m.1) else [])
    ++ (if bool_decide (a_model m.2 ∈ d_models decl) then [] else fail 5 (dot path (js "model")) (ModelNotAllowed (a_model m.2)))
    ++ (if bool_decide (access ∈ d_workspace decl) then [] else fail 5 (dot path (js "workspace")) (WorkspaceNotAllowed access)))
    (entries (c_agents chart))).

(** *** Rule 6: structure *)

Definition present {A} (o : option A) : bool := match o with Some _ => true | None => false end.

Definition checkStructure (p : path) (s : ChartState) : list entry :=
  let doc := docOf p in
  let b := bodyOf s in
  let k := kindOf s in
  (if bool_decide (k = Compound) then
     match statesOf s, s_initial b with
     | [], _ => fail 6 doc NoChildStates
     | _, None => fail 6 (dot doc (js "initial")) NoInitial
     | kids, Some i => if bool_decide (i ∈ kids.*1) then [] else fail 6 (dot doc (js "initial")) (InitialNotAChild i)
     end
   else if present (s_initial b) then fail 6 (dot doc (js "initial")) InitialOfAnother else [])
  ++ (if (bool_decide (k = Atomic) || bool_decide (k = Final) || bool_decide (k = History))
         && negb (bool_decide (statesOf s = [])) then fail 6 (dot doc (js "states")) HasChildStates else [])
  ++ (if bool_decide (k = Final) then
        (if present (s_on b) then fail 6 (dot doc (js "on")) (FinalHas (js "on")) else [])
        ++ (if present (s_invoke b) then fail 6 (dot doc (js "invoke")) (FinalHas (js "invoke")) else [])
        ++ (if present (s_always b) then fail 6 (dot doc (js "always")) (FinalHas (js "always")) else [])
        ++ (if present (s_after b) then fail 6 (dot doc (js "after")) (FinalHas (js "after")) else [])
        ++ (if present (s_output b) && negb (bool_decide (parentOf p = [])) then fail 6 (dot doc (js "output")) OutputNotRead
            else if present (s_output b) && present (c_output chart) then fail 6 (dot doc (js "output")) OutputNotRead
            else [])
      else if present (s_output b) then fail 6 (dot doc (js "output")) OutputOfAnother else [])
  ++ (if s_history b && negb (bool_decide (k = History)) then fail 6 (dot doc (js "history")) HistoryOfAnother else []).

(** A transition's targets, guard, actions and reenter. *)
Definition targetsAt (t : ChartTransition) (tpath : jstr) : list (jstr * jstr) :=
  match t with
  | TTarget target => [(target, tpath)]
  | TObject target _ _ _ => listAt target (dot tpath (js "target"))
  end.
Definition guardOf (t : ChartTransition) : option ChartGuard := match t with TObject _ g _ _ => g | _ => None end.
Definition actionsOf (t : ChartTransition) : list ChartAction := match t with TObject _ _ a _ => a | _ => [] end.
Definition reenterOf (t : ChartTransition) : bool := match t with TObject _ _ _ r => r | _ => false end.

Definition checkTransition (source : path) (scope : EventScope) (always : bool) (t : ChartTransition) (tpath : jstr) :
    list entry :=
  let found := map (λ m, (m, resolveTarget chart m.1 source)) (targetsAt t tpath) in
  let targets := omap (λ r, match r.2 with inr n => Some n | inl _ => None end) found in
  let unresolved := existsb (λ r, match r.2 with inl _ => true | inr _ => false end) found in
  concat (map (λ r, match r.2 with inl f => fail 6 r.1.2 (BadTarget r.1.1 f) | inr _ => [] end) found)
  ++ match guardOf t with Some g => checkGuard g (dot tpath (js "guard")) scope | None => [] end
  ++ checkActions (actionsOf t) (dot tpath (js "actions")) scope
  ++ (if always && negb unresolved then [EEdge (Edge source targets (present (guardOf t)) (reenterOf t) tpath)] else []).

Definition checkTransitions (ts : option ChartTransitions) (path : jstr) (source : list jstr) (scope : EventScope)
    (always : bool) : list entry :=
  concat (map (λ m, checkTransition source scope always m.1 m.2) (listAt ts path)).

(** *** Rule 8: lent input shapes *)

Definition repoSlots : list jstr := default [] (o_repoSlots options).

(** Where the Workspace has Repo Slots, [worktree] is required. *)
Definition shapeHere (sh : InputShape) : InputShape :=
  if bool_decide (repoSlots = []) || negb (bool_decide (js "worktree" ∈ sh_optional sh)) then sh
  else Shape (sh_required sh ++ [js "worktree"]) (filter (λ k, k ≠ js "worktree") (sh_optional sh)) (sh_oneOf sh).

Definition lentEffects : list (jstr * EffectParts) :=
  omap (λ name, match objGet name (p_actors lent) with Some (EffectLogic parts) => Some (name, parts) | _ => None end)
    (l_effects lends).

Definition lentForcePush : option jstr :=
  fst <$> head (filter (λ m, (match m.2 with Push _ force => force | _ => false end) = true) lentEffects).

(** [/work/<slot>/<name>]: one folder under a slot, whose name begins with no
    dot and no dash. *)
Definition worktreeSlot (value : jstr) : option jstr :=
  match split_on 47 value with
  | [a; b; slot; c :: name] =>
      if bool_decide (a = []) && bool_decide (b = js "work") && negb (bool_decide (slot = []))
         && negb ((c =? 46) || (c =? 45)) then Some slot else None
  | _ => None
  end.

Definition checkLiteralPath (value path : jstr) : list entry :=
  match referencesOf (JStr value) with
  | [] =>
      match worktreeSlot value with
      | None => fail 8 path (NotAWorktreePath value)
      | Some slot =>
          match o_repoSlots options with
          | Some slots => if bool_decide (slot ∈ slots) then [] else fail 8 path (NoSuchSlot value)
          | None => []
          end
      end
  | _ => []
  end.

(** A Repo Slot's folder, [/work/<slot>] with or without a last slash. *)
Definition slotFolder (cwd : jstr) : option jstr :=
  match split_on 47 (FileTools.normalize cwd) with
  | [a; b; slot] | [a; b; slot; []] =>
      if bool_decide (a = []) && bool_decide (b = js "work") && negb (bool_decide (slot = [])) then Some slot else None
  | _ => None
  end.

Definition slotFolderFault (cwd : jstr) (slots : list jstr) : bool :=
  match slotFolder cwd with Some slot => bool_decide (slot ∈ slots) | None => false end.

Definition checkCwd (value path : jstr) : list entry :=
  match referencesOf (JStr value) with
  | [] => if slotFolderFault value repoSlots then fail 8 path (SlotFolder value) else []
  | _ => []
  end.

(** An object that is no [$ref]: its members. *)
Definition inputObject (input : option json) : option (list (jstr * json)) :=
  match input with
  | Some (JObj l) => if bool_decide (refKey ∈ l.*1) then None else Some l
  | _ => None
  end.

Definition isString (v : json) : bool := match v with JStr _ => true | _ => false end.
Definition isText (v : json) : bool := match v with JStr (_ :: _) => true | _ => false end.

Definition checkFailInput (input : option json) (ipath : jstr) : list entry :=
  match inputObject input with
  | None => fail 8 ipath BadInput
  | Some l =>
      concat (map (λ k, if bool_decide (k = js "reason") || bool_decide (k = js "detail") then []
                        else fail 8 (dot ipath k) (NotAnInputKey k)) (objectKeys l.*1))
      ++ match objGet (js "reason") l with
         | None => fail 8 (dot ipath (js "reason")) NoReason
         | Some r => if negb (isText r) && negb (isRef r)
                     then fail 8 (dot ipath (js "reason")) BadReason else []
         end
  end.

Definition checkGateInput (input : option json) (ipath : jstr) : list entry :=
  match input, inputObject input with
  | None, _ => []
  | _, None => fail 8 ipath BadInput
  | _, Some l =>
      concat (map (λ k, if bool_decide (k = js "gate") || bool_decide (k = js "meta") then []
                        else fail 8 (dot ipath k) (NotAnInputKey k)) (objectKeys l.*1))
      ++ match objGet (js "gate") l with
         | None => []
         | Some id => if negb (isString id) || negb (bool_decide (referencesOf id = []))
                      then fail 8 (dot ipath (js "gate")) GateIdNotLiteral else []
         end
  end.

(** A dispatch with no input schema: the callee's door is the check. *)
Definition checkDispatchInput (input : option json) (ipath : jstr) : list entry :=
  match input, inputObject input with
  | None, _ => []
  | _, None => fail 8 ipath BadInput
  | _, Some l =>
      concat (map (λ m, if negb (isString m.2) && negb (isRef m.2) then fail 8 (dot ipath m.1) SlotNotAString else [])
                (entries l))
  end.

(** A lent cut states what it expects, and none takes an existing branch beside
    a push that forces. *)
Definition checkCut (src : jstr) (parts : EffectParts) (ipath : jstr) : list entry :=
  match parts with
  | Command _ _ _ (Some None) => fail 8 ipath (CutWithoutExpect src)
  | Command _ _ _ (Some (Some ExpectExisting)) =>
      match lentForcePush with Some force => fail 8 ipath (CutBesideForcePush src force) | None => [] end
  | _ => []
  end.

Definition isCut (parts : EffectParts) : bool := match parts with Command _ _ _ (Some _) => true | _ => false end.

Definition checkSlots (keys : list jstr) (l : list (jstr * json)) (ipath : jstr) : list entry :=
  concat (map (λ m,
    if bool_decide (m.1 ∈ keys) then
      if negb (isString m.2) && negb (isRef m.2) then fail 8 (dot ipath m.1) SlotNotAString
      else if bool_decide (m.1 = js "worktree") || bool_decide (m.1 = js "path") then
        match m.2 with JStr v => checkLiteralPath v (dot ipath m.1) | _ => [] end
      else []
    else []) (entries l)).

Definition checkEffectInput (src : jstr) (input : option json) (ipath : jstr) : list entry :=
  match objGet src (p_actors lent) with
  | Some (EffectLogic parts) =>
      match inputShapeOf parts, parts with
      | None, Dispatch _ => checkDispatchInput input ipath
      | None, _ => fail 8 ipath (NoInputKeys src)
      | Some sh, _ =>
          let shape := shapeHere sh in
          let keys := shapeKeys sh in
          checkCut src parts ipath
          ++ (if negb (present input) && bool_decide (sh_required shape = []) && negb (present (sh_oneOf shape)) then []
              else match inputObject input with
                   | None => fail 8 ipath BadInput
                   | Some l =>
                       let given := objectKeys l.*1 in
                       let missing := filter (λ k, k ∉ given) (sh_required shape) in
                       let extra := filter (λ k, k ∉ keys) given in
                       let ofOne := match sh_oneOf shape with
                                    | Some ks => length (filter (λ k, k ∈ given) ks)
                                    | None => 1%nat
                                    end in
                       (if negb (bool_decide (missing = [])) || negb (bool_decide (extra = []))
                           || negb (bool_decide (ofOne = 1%nat))
                        then fail 8 ipath (InputShapeFault src missing extra) else [])
                       ++ (if isCut parts && bool_decide (js "detach" ∈ given) && bool_decide (js "from" ∈ given)
                           then fail 8 ipath DetachedFrom else [])
                       ++ checkSlots keys l ipath
                   end)
      end
  | _ => fail 8 ipath (NoInputKeys src)
  end.

(** Does this Agent read [/work]? *)
Definition worksInWorkspace (src : jstr) (minted : bool) : bool :=
  let access := if minted then objGet src (c_agents chart) ≫= a_workspace
                else match objGet src (p_actors lent) with Some (AgentLogic w) => w | _ => None end in
  negb (bool_decide (access = Some (js "none"))).

Definition checkAgentInput (src : jstr) (minted : bool) (input : option json) (ipath : jstr) : list entry :=
  match inputObject input with
  | None => fail 8 ipath BadInput
  | Some l =>
      let cwd := objGet (js "cwd") l in
      concat (map (λ k,
        if bool_decide (k ∈ PLACEMENT_INPUT_KEYS) then fail 8 (dot ipath k) NamesPlacement
        else if negb (bool_decide (k ∈ AGENT_INPUT_KEYS)) then fail 8 (dot ipath k) (NotAnInputKey k)
        else []) (objectKeys l.*1))
      ++ match objGet (js "prompt") l with
         | None => fail 8 ipath NoPrompt
         | Some v => if isString v then [] else fail 8 (dot ipath (js "prompt")) PromptNotAString
         end
      ++ match cwd with
         | Some (JStr v) => []
         | Some _ => fail 8 (dot ipath (js "cwd")) CwdNotAString
         | None => if negb (bool_decide (repoSlots = [])) && worksInWorkspace src minted then fail 8 ipath NoCwd else []
         end
      ++ match cwd with
         | Some (JStr v) => if worksInWorkspace src minted then checkCwd v (dot ipath (js "cwd")) else []
         | _ => []
         end
      ++ match objGet (js "continue") l with
         | None | Some (JBool true) => []
         | Some _ => fail 8 (dot ipath (js "continue")) BadContinue
         end
      ++ match objGet (js "model") l with
         | None => []
         | Some (JStr m) =>
             if negb (bool_decide (referencesOf (JStr m) = [])) then fail 8 (dot ipath (js "model")) ModelNotLiteral
             else if bool_decide (m ∈ d_models decl) then [] else fail 8 (dot ipath (js "model")) (ModelNotAllowed m)
         | Some _ => fail 8 (dot ipath (js "model")) ModelNotLiteral
         end
      ++ match objGet (js "thinkingLevel") l with
         | None => []
         | Some (JStr t) => if bool_decide (t ∈ THINKING) then [] else fail 8 (dot ipath (js "thinkingLevel")) BadThinkingLevel
         | Some _ => fail 8 (dot ipath (js "thinkingLevel")) BadThinkingLevel
         end
  end.

Definition checkInvokeInput (inv : ChartInvoke) (k : InvokeKind) (path : jstr) : list entry :=
  let ipath := dot path (js "input") in
  match k with
  | KMachine => []
  | KFail => checkFailInput (i_input inv) ipath
  | KGate => checkGateInput (i_input inv) ipath
  | KEffect => checkEffectInput (i_src inv) (i_input inv) ipath
  | KAgent => checkAgentInput (i_src inv) false (i_input inv) ipath
  | KMinted => checkAgentInput (i_src inv) true (i_input inv) ipath
  end.

(** *** The walk of a state *)

Definition checkInvoke (source : list jstr) (inv : ChartInvoke) (path : jstr) : list entry :=
  match srcKind (i_src inv) with inl f => fail 3 (dot path (js "src")) f | inr _ => [] end
  ++ match i_input inv with Some v => checkRefs v (dot path (js "input")) SNone false | None => [] end
  ++ match invokeKind inv with Some k => checkInvokeInput inv k path | None => [] end
  ++ checkTransitions (i_onDone inv) (dot path (js "onDone")) source SDone false
  ++ checkTransitions (i_onError inv) (dot path (js "onError")) source SError false.

Definition checkState (p : list jstr) (s : ChartState) : list entry :=
  let doc := docOf p in
  let b := bodyOf s in
  checkStructure p s
  ++ checkActions (s_entry b) (dot doc (js "entry")) SNone
  ++ checkActions (s_exit b) (dot doc (js "exit")) SNone
  ++ concat (map (λ m, checkInvoke p m.1 m.2) (listAt (s_invoke b) (dot doc (js "invoke"))))
  ++ concat (map (λ m,
       let path := dot (dot doc (js "on")) m.1 in
       let '(log, scope) := onScope m.1 path in
       log ++ checkTransitions (Some m.2) path p (default SSkip scope) false) (entries (default [] (s_on b))))
  ++ checkTransitions (s_always b) (dot doc (js "always")) p SNone true
  ++ concat (map (λ m,
       let path := dot (dot doc (js "after")) m.1 in
       checkDelay m.1 path ++ checkTransitions (Some m.2) path p SNone false) (entries (default [] (s_after b))))
  ++ match s_output b with Some v => checkRefs v (dot doc (js "output")) SNone false | None => [] end.

(** *** Rules 3 and 6: the parties *)

Definition isTurn (k : option InvokeKind) : bool :=
  match k with Some KAgent | Some KMinted => true | _ => false end.

Definition invokesOf (s : ChartState) : list ChartInvoke := listOf (s_invoke (bodyOf s)).

Definition invokesParty (s : ChartState) : bool :=
  existsb (λ inv, isTurn (invokeKind inv) || bool_decide (invokeKind inv = Some KGate)) (invokesOf s).

(** Does the state handle a Chart event? *)
Definition handles (s : ChartState) : bool :=
  existsb (λ k, bool_decide (k ∈ (c_events chart).*1)) (default [] (s_on (bodyOf s))).*1.

Definition leaves (s : ChartState) : bool :=
  present (s_after (bodyOf s)) || present (s_always (bodyOf s))
  || existsb (λ inv, negb (isTurn (invokeKind inv)) && (present (i_onDone inv) || present (i_onError inv))) (invokesOf s).

(** A Chart event handled below, with no state between that invokes a party. *)
Fixpoint handledBelow (s : ChartState) : bool :=
  let 'State _ l := s in
  existsb (λ m, negb (invokesParty m.2) && (handles m.2 || handledBelow m.2)) l.

Definition endsTurn (p : list jstr) : bool :=
  existsb (λ n, match nodeAt chart n with
                | Some s => handles s || leaves s || bool_decide (kindAt chart (parentOf n) = Some Parallel)
                | None => false
                end) (filter (λ n, n ≠ []) (ups p))
  || match nodeAt chart p with Some s => handledBelow s | None => false end.

Fixpoint odds {A} (l : list A) : list A :=
  match l with _ :: x :: l' => x :: odds l' | _ => [] end.

(** An unnamed Gate's invoke id: the state's key path, with an ordinal where the
    state has several. *)
Fixpoint gateIdsFrom (key : jstr) (several : bool) (ordinal : nat) (l : list ChartInvoke) : list jstr :=
  match l with
  | [] => []
  | inv :: l' =>
      if bool_decide (invokeKind inv = Some KGate) then
        match i_id inv with
        | Some id => id :: gateIdsFrom key several ordinal l'
        | None => (if several then dotN key ordinal else key) :: gateIdsFrom key several (S ordinal) l'
        end
      else gateIdsFrom key several ordinal l'
  end.

Definition gateIdsOf (n : list jstr * ChartState) : list jstr :=
  let unnamed := filter (λ inv, invokeKind inv = Some KGate ∧ i_id inv = None) (invokesOf n.2) in
  gateIdsFrom (join [46] (odds (split_on 46 (docOf n.1)))) (1 <? length unnamed)%nat 0 (invokesOf n.2).

Definition gateIds : list jstr := concat (map gateIdsOf (nodes chart)).

(** The Agents that states invoke, state by state. *)
Definition turns : list (jstr * list jstr) :=
  concat (map (λ n, map (λ inv, (i_src inv, n.1)) (filter (λ inv, isTurn (invokeKind inv) = true) (invokesOf n.2)))
            (nodes chart)).

(** The first of each, in order. *)
Definition firsts (l : list jstr) : list jstr := foldl (λ acc x, if bool_decide (x ∈ acc) then acc else acc ++ [x]) [] l.

Definition turnLines (p : list jstr) (inv : ChartInvoke) (path : jstr) : list entry :=
  if isTurn (invokeKind inv) then
    (if present (i_onDone inv) then fail 6 (dot path (js "onDone")) AgentOnDone else [])
    ++ match head (filter (λ n, kindAt chart n = Some Parallel) (p :: descendants chart p)) with
       | Some n => fail 6 (docOf n) (ParallelAtAgent (i_src inv))
       | None => []
       end
    ++ (if endsTurn p then [] else fail 6 (docOf p) (NothingEndsTurn (i_src inv)))
  else [].

(** The nearest state at or above both. *)
Definition nearestCommon (a b : list jstr) : option (list jstr) := head (filter (λ n, isAncestorOrSelf n b = true) (ups a)).

Definition together (a b : list jstr) : bool :=
  isAncestorOrSelf a b || isAncestorOrSelf b a
  || bool_decide ((nearestCommon a b ≫= kindAt chart) = Some Parallel).

(** The states, each one added once, that can be active with another of them. *)
Fixpoint clashes (states : list (list jstr)) (acc : list (list jstr)) : list (list jstr) :=
  match states with
  | [] => acc
  | a :: rest =>
      let add x acc := if bool_decide (x ∈ acc) then acc else acc ++ [x] in
      clashes rest (foldl (λ acc b, if together a b then add b (add a acc) else acc) acc rest)
  end.

Definition statesOfAgent (slot : jstr) : list (list jstr) := (filter (λ t, t.1 = slot) turns).*2.

Definition isSubstring (needle s : jstr) : bool :=
  existsb (λ n, Edit.startsWith needle (drop n s)) (seq 0 (S (length s))).

Definition checkParties (sentBys : list (jstr * jstr)) : list entry :=
  concat (map (λ n, concat (map (λ m, turnLines n.1 m.1 m.2)
                              (listAt (s_invoke (bodyOf n.2)) (dot (docOf n.1) (js "invoke"))))) (nodes chart))
  ++ concat (map (λ slot, match clashes (statesOfAgent slot) [] with
                          | [] => []
                          | clash => fail 6 (join (js ", ") (map docOf clash)) (TwoTurns slot clash)
                          end) (firsts turns.*1))
  ++ concat (map (λ s, if isSubstring (js "{{") s.1 then fail 3 s.2 SentByReference
                       else if bool_decide (s.1 ∈ turns.*1) || bool_decide (s.1 ∈ gateIds) then []
                       else fail 3 s.2 (SentByNoParty s.1)) sentBys).

(** *** Rule 7: dataflow *)

(** A reference is always supplied, or may resolve to nothing ([optional]: its
    one fault is a field that may be absent); or the check itself throws. *)
Inductive refCheck := Supplied | Faulty (optional : bool) (f : refFault) | Throws.

(** Is the path a required field, all the way down, of a payload's schema? A
    property of [null] throws. *)
Fixpoint schemaSupplies (node : json) (rest : list seg) (optional : bool) : refCheck :=
  match rest with
  | [] => if optional then Faulty true OptionalField else Supplied
  | SName s :: rest' =>
      match node with
      | JNull => Throws
      | _ =>
          let props := field (js "properties") node in
          match field (js "type") node, props with
          | (None | Some (JStr _)) as type, Some ((JObj _ | JArr _) as props) =>
              if match type with Some (JStr t) => bool_decide (t = js "object") | _ => true end then
                match ownJson props s with
                | None => Faulty false NotAField
                | Some sub =>
                    let required := match field (js "required") node with
                                    | Some (JArr l) => existsb (λ v, match v with JStr k => bool_decide (k = s) | _ => false end) l
                                    | _ => false
                                    end in
                    schemaSupplies sub rest' (optional || negb required)
                end
              else Faulty false NoObjectHere
          | _, _ => Faulty false NoObjectHere
          end
      end
  | SIndex n :: rest' =>
      match node with
      | JNull => Throws
      | _ =>
          match field (js "items") node, field (js "type") node with
          | Some ((JObj _ | JArr _) as items), Some (JStr t) =>
              if bool_decide (t = js "array") then
                let min := match field (js "minItems") node with Some (JNum m) => m | _ => 0 end in
                if min <=? n then Faulty false TooFewItems else schemaSupplies items rest' optional
              else Faulty false NoListHere
          | _, _ => Faulty false NoListHere
          end
      end
  end.

Definition mechanismCheck (name : jstr) (rest : list seg) : refCheck :=
  match rest with
  | [s] =>
      match objGet name MECHANISM_EVENTS ≫= objGet (segText s) with
      | None => Faulty false NotAMechanismField
      | Some false => Faulty true OptionalMechanismField
      | Some true => Supplied
      end
  | _ => Faulty false NotAMechanismField
  end.

Definition eventCheck (scope : EventScope) (rest : list seg) : refCheck :=
  match scope with
  | SNone => Faulty false NoEventHere
  | SDone => if bool_decide (rest = [SName (js "output")]) then Supplied else Faulty false NotTheOutput
  | SError => if bool_decide (rest = [SName (js "error")]) then Supplied else Faulty false NotTheError
  | SMechanism name => mechanismCheck name rest
  | SSkip => Supplied
  | SEvent name =>
      if bool_decide (rest = [SName (js "type")]) || bool_decide (rest = [SName (js "sender")])
         || bool_decide (rest = [SName (js "sender"); SName (js "party")])
         || bool_decide (rest = [SName (js "sender"); SName (js "id")])
      then Supplied
      else schemaSupplies (default JNull (objGet name (c_events chart))) rest false
  end.

Definition inputCheck (rest : list seg) : refCheck :=
  match o_inputKeys options, rest with
  | None, _ => Supplied
  | Some keys, s :: rest' =>
      if negb (bool_decide (segText s ∈ keys)) then Faulty false NotInInput
      else match rest' with [] => Supplied | _ => Faulty false InputBelow end
  | Some _, [] => Faulty false NotInInput
  end.

(** What supplies a context path. *)
Inductive supply := Yes | No | Optionally (w : write) (source : jstr) | SThrows.

Definition refCheckWith (supplies : list seg → supply) (ref : jstr) (scope : EventScope) : refCheck :=
  match pathSegments ref with
  | root :: rest =>
      if bool_decide (root = SName (js "context")) then
        match supplies rest with
        | Yes => Supplied
        | No => Faulty false SuppliedByNothing
        | Optionally w source => Faulty false (WrittenFromOptional w source)
        | SThrows => Throws
        end
      else if bool_decide (root = SName (js "input")) then inputCheck rest
      else eventCheck scope rest
  | [] => eventCheck scope []
  end.

(** Is the path in the initial context? *)
Fixpoint inInitial (v : val) (rest : list seg) : bool :=
  match rest with
  | [] => true
  | s :: rest' => match own v s with Some x => inInitial x rest' | None => false end
  end.

Definition isPrefix (a b : list seg) : bool := bool_decide (map segText a `prefix_of` map segText b).

(** The loop over the writes; [check] is [refCheck] one level deeper. *)
Fixpoint writesSupply (check : jstr → EventScope → refCheck) (rest : list seg) (ws : list write) (optional : supply) : supply :=
  match ws with
  | [] => optional
  | w :: ws' =>
      let atOrAbove := isPrefix rest (w_path w) in
      if negb atOrAbove && negb (bool_decide (w_kind w = WSet) && isPrefix (w_path w) rest)
      then writesSupply check rest ws' optional
      else
        let source := match w_kind w with WIncrement => None | _ => w_from w ≫= wholeRefOf end in
        match (match source with Some r => check r (w_scope w) | None => Supplied end) with
        | Throws => SThrows
        | Faulty true _ =>
            writesSupply check rest ws' (match optional with No => Optionally w (default [] source) | _ => optional end)
        | _ =>
            if atOrAbove then Yes
            else match source with
                 | None => writesSupply check rest ws' optional
                 | Some r =>
                     match check (dot r (join [46] (map segText (drop (length (w_path w)) rest)))) (w_scope w) with
                     | Supplied => Yes
                     | Throws => SThrows
                     | _ => writesSupply check rest ws' optional
                     end
                 end
        end
  end.

(** [contextSupplies(rest, depth)], with [left] levels to [MAX_NESTING]. *)
Fixpoint contextSupplies (left : nat) (ws : list write) (rest : list seg) : supply :=
  match left with
  | O => No
  | S left' =>
      if inInitial (VObj (map (λ m, (m.1, ofJson m.2)) (default [] (c_context chart)))) rest then Yes
      else writesSupply (refCheckWith (contextSupplies left' ws)) rest ws No
  end.

Definition refCheckAt (ws : list write) (ref : jstr) (scope : EventScope) : refCheck :=
  refCheckWith (contextSupplies (S MAX_NESTING) ws) ref scope.

(** Every reference that was noted; [None] when a check throws. *)
Fixpoint checkAllRefs (ws : list write) (refs : list (jstr * jstr * EventScope * bool)) : option (list entry) :=
  match refs with
  | [] => Some []
  | (ref, path, scope, optionalOk) :: refs' =>
      match refCheckAt ws ref scope with
      | Throws => None
      | Supplied => checkAllRefs ws refs'
      | Faulty optional f =>
          if optional && optionalOk then checkAllRefs ws refs'
          else (λ log, fail 7 path (BadReference ref f) ++ log) <$> checkAllRefs ws refs'
      end
  end.

(** *** [doorAdmit] *)

Definition checkInitial : list entry :=
  if bool_decide (c_initial chart ∈ (c_states chart).*1) then []
  else fail 6 (js "initial") (InitialNotAState (c_initial chart)).

Definition cycleLines (edges : list edge) : list entry :=
  concat (map (λ c, match edges !! c.1 with
                    | Some e => fail 6 (e_doc e) (AlwaysCycle (omap (λ k, e_from <$> edges !! k) c.2))
                    | None => []
                    end) (alwaysCycles chart edges)).

(** The walk of every state, with what comes before it. *)
Definition walkLog : list entry :=
  checkEvents ++ checkAgents ++ checkInitial ++ concat (map (λ n, checkState n.1 n.2) (nodes chart)).

Definition outputLog : list entry :=
  match c_output chart with Some v => checkRefs v (js "output") SNone false | None => [] end.

(** The whole log, in order; [None] when a check throws. *)
Definition doorLog : option (list entry) :=
  let log := walkLog
             ++ checkUnhandled (handledOf walkLog)
             ++ cycleLines (edgesOf walkLog)
             ++ checkParties (sentBysOf walkLog)
             ++ outputLog in
  (λ refs, log ++ refs) <$> checkAllRefs (writesOf log) (refsOf log).

(** The lines by rule, each rule's in order. *)
Definition byRule (lines : list line) : list line :=
  concat (map (λ r, filter (λ l, ln_rule l = r) lines) [3; 4; 5; 6; 7; 8]).

Inductive admission :=
| Accepted (gates : list jstr)
| Refused (report : list line)
| NotCompiled (lines : list jstr)
| Thrown.

(** [trial] is the lines of the trial compile (open-body.ts). *)
Definition doorAdmit (trial : ChartText → list jstr) : admission :=
  match doorLog with
  | None => Thrown
  | Some log =>
      match linesOf log with
      | [] => match trial chart with [] => Accepted (firsts gateIds) | lines => NotCompiled lines end
      | lines => Refused (byRule lines)
      end
  end.

End Door.

(** ** [admitChart]

    [safeParse] is zod's walk of the grammar. *)

Inductive sizeFault :=
| TextTooLong (size : Z)
| TooManyStates (states : nat)
| StatesTooDeep (depth : nat).

Inductive outcome :=
| RawRefused (faults : list jsonFault)
| SizeRefused (faults : list sizeFault)
| GrammarRefused
| Door (size : Z) (chart : ChartText) (a : admission).

Definition sizeFaults (decl : OpenBodyDeclaration) (text : json) : list sizeFault :=
  let size := utf8ByteLength (canonicalJson text) in
  let '(states, depth) := measure text in
  (if d_size decl <? size then [TextTooLong size] else [])
  ++ (if (MAX_STATES <? states)%nat then [TooManyStates states] else [])
  ++ (if (MAX_NESTING <? depth)%nat then [StatesTooDeep depth] else []).

Definition admitChart (fromJSONSchema : json → zodOutcome) (safeParse : json → option ChartText)
    (trial : ChartText → list jstr)
    (text : json) (decl : OpenBodyDeclaration) (lent : LentParts) (options : AdmitOptions) : outcome :=
  match jsonFaults text with
  | [] =>
      match sizeFaults decl text with
      | [] =>
          match safeParse text with
          | None => GrammarRefused
          | Some chart =>
              Door (utf8ByteLength (canonicalJson text)) chart (doorAdmit chart decl lent options fromJSONSchema trial)
          end
      | faults => SizeRefused faults
      end
  | faults => RawRefused faults
  end.

End ChartDoor.
