(* ===== verification/ChartCycles.v ===== *)
(** * The Chart door's cycle check: proofs

    The search of [checkAlwaysCycles] finds nothing exactly when no edge without
    a guard lies on a cycle of the edges that it keeps; and then, whatever xstate
    does that its documentation of a microstep allows, no run of [always] steps
    fires such an edge more often than a bound that the Chart alone gives. *)

From Stdlib Require Import Lia ZArith.
From stdpp Require Import base list strings sets relations.
From S2P Require Import Prelude JsString Json JsObject Sql ChartRef ChartRefProofs ChartDoor.
Import JsObject ChartRef ChartDoor.

Open Scope nat_scope.

Module ChartCycles.

Section Graph.
Context (entered : nat → nat → bool).

Abbreviation livePass := (livePass entered).
Abbreviation liveFix := (liveFix entered).

(** ** The fixed point *)

Lemma filter_drop (i : nat) l : NoDup l → i ∈ l → S (length (filter (λ j, j ≠ i) l)) = length l.
Proof.
  induction l as [|x l IH]; [by intros _ ?%elem_of_nil|]. intros [N1 N2]%NoDup_cons [->|H]%elem_of_cons.
  - rewrite filter_cons, decide_False by naive_solver. cbn. rewrite filter_all; [done|].
    apply Forall_forall. intros y Hy ->. done.
  - rewrite filter_cons, decide_True by (intros ->; done). cbn. by rewrite IH.
Qed.

(** Edges that are not live have a rank, and are entered only by such edges of a
    lower one. *)
Definition ranked (n : nat) (live : list nat) : Prop :=
  NoDup live ∧ (∀ i, i ∈ live → i < n) ∧
  ∃ rank : nat → nat, ∀ i, i < n → i ∉ live →
    rank i + length live < n ∧ ∀ j, j < n → entered j i = true → (j ∉ live) ∧ rank j < rank i.

Lemma dropped_in (i : nat) (l : list nat) (j : nat) : j ∈ filter (λ j, j ≠ i) l ↔ j ≠ i ∧ j ∈ l.
Proof. by rewrite list_elem_of_filter. Qed.

Lemma live_length n live : ranked n live → length live ≤ n.
Proof.
  intros (HN & Hlt & _). rewrite <- (length_seq n 0). apply submseteq_length, NoDup_submseteq; [done|].
  intros j Hj. apply elem_of_seq. split; [lia|]. by apply Hlt.
Qed.

Lemma ranked_drop n live i :
  ranked n live → i ∈ live → existsb (λ j, entered j i) live = false → ranked n (filter (λ j, j ≠ i) live).
Proof.
  intros H Hi He. pose proof (live_length _ _ H) as Hn. destruct H as (HN & Hlt & rank & Hr).
  pose proof (filter_drop i live HN Hi) as Hlen.
  split; [by apply NoDup_filter|]. split; [intros j [_ Hj]%dropped_in; by apply Hlt|].
  exists (λ j, if decide (j = i) then n - length live else rank j). intros j Hj Hjl.
  assert (j = i ∨ j ∉ live) as Hcase.
  { destruct (decide (j = i)); [by left|]. right. intros Hin. apply Hjl, dropped_in. done. }
  case_decide as E; [subst j|destruct Hcase as [?|Hjl']; [done|]].
  - split; [lia|]. intros k Hk Hek.
    assert (k ∉ live) as Hkl.
    { intros Hkl. assert (existsb (λ j, entered j i) live = true) as E; [|congruence].
      apply existsb_exists. exists k. by rewrite <- list_elem_of_In. }
    rewrite dropped_in, decide_False by (intros ->; done). destruct (Hr k Hk Hkl). split; [tauto|lia].
  - destruct (Hr j Hj Hjl') as [H1 H2]. split; [lia|].
    intros k Hk Hek. destruct (H2 k Hk Hek) as [Hkl Hkr].
    rewrite dropped_in, decide_False by (intros ->; done). split; [tauto|done].
Qed.

Lemma ranked_pass n live : ranked n live → ranked n (livePass live).
Proof.
  unfold ChartDoor.livePass. intros H.
  assert (∀ todo acc, NoDup todo → (∀ i, i ∈ todo → i ∈ acc) → ranked n acc →
    ranked n (foldl (λ live i, if existsb (λ j, entered j i) live then live else filter (λ j, j ≠ i) live) acc todo)) as Hg.
  { induction todo as [|i todo IH]; intros acc HN Hs Ha; [done|]. apply NoDup_cons in HN as [Hi HN]. cbn [foldl].
    destruct (existsb _ acc) eqn:E.
    - apply IH; [done|intros j Hj; apply Hs; by right|done].
    - apply IH; [done| |apply ranked_drop; [done|apply Hs; by left|done]].
      intros j Hj. apply dropped_in. split; [intros ->; done|apply Hs; by right]. }
  apply Hg; [by destruct H|done|done].
Qed.

Lemma ranked_fix n fuel live : ranked n live → ranked n (liveFix fuel live).
Proof.
  revert live. induction fuel as [|f IH]; intros live H; [done|]. cbn [ChartDoor.liveFix].
  destruct (length (livePass live) <? length live); [apply IH|]; by apply ranked_pass.
Qed.

Lemma ranked_all n : ranked n (seq 0 n).
Proof.
  split; [apply NoDup_seq|]. split; [intros i Hi%elem_of_seq; lia|].
  exists (λ _, 0). intros i Hi []. apply elem_of_seq. lia.
Qed.

(** ** The search *)

Context (kept : nat → nat → bool) (guarded : nat → bool).

Abbreviation nextOf := (nextOf entered kept).
Abbreviation search := (search entered kept).

Section Search.
Context (live : list nat) (i : nat).

(** Where an edge's way can go. *)
Definition step (a b : nat) : Prop := b ∈ nextOf live a.

Lemma step_live a b : step a b → b ∈ live.
Proof. intros [_ H]%list_elem_of_filter. done. Qed.

(** What a turn of the loop leaves. *)
Lemma visit_spec trail next seen stack :
  match visit i trail next seen stack with
  | None => i ∈ next
  | Some (seen', stack') =>
      (i ∉ next) ∧ ∃ new, NoDup new ∧ (∀ j, j ∈ new → j ∈ next ∧ (j ∉ seen)) ∧ seen' = seen ++ new ∧
        (∀ x, x ∈ stack'.*1 ↔ x ∈ new ∨ x ∈ stack.*1) ∧ length stack' = length new + length stack ∧
        ∀ j, j ∈ next → j ∈ seen'
  end.
Proof.
  revert seen stack. induction next as [|j next IH]; intros seen stack; cbn [visit].
  - split; [set_solver|]. exists []. rewrite app_nil_r. repeat split; try done; [constructor|set_solver..].
  - case_bool_decide as Hj; [subst; by left|]. case_bool_decide as Hs.
    + specialize (IH seen stack). destruct (visit _ _ _ _ _) as [[seen' stack']|]; [|by right].
      destruct IH as (H1 & new & H2 & H3 & -> & H4 & H5 & H6). split; [set_solver|]. exists new.
      split; [done|]. split; [set_solver|]. split; [done|]. split; [done|]. split; [done|set_solver].
    + specialize (IH (seen ++ [j]) ((j, trail ++ [j]) :: stack)).
      destruct (visit _ _ _ _ _) as [[seen' stack']|]; [|by right].
      destruct IH as (H1 & new & H2 & H3 & -> & H4 & H5 & H6). split; [set_solver|]. exists (j :: new).
      split; [constructor; [set_solver|done]|]. split; [set_solver|]. split; [by rewrite <- app_assoc|].
      split; [intros x; rewrite H4; cbn; set_solver|]. split; [rewrite H5; cbn; lia|set_solver].
Qed.

(** The search ends with nothing only when everything it can reach is seen and
    leads nowhere to [i]. *)
Lemma search_none fuel seen stack :
  NoDup seen → (∀ j, j ∈ seen → j ∈ live) → i ∉ seen →
  length live + length stack ≤ fuel + length seen →
  (∀ x, x ∈ stack.*1 → x = i ∨ x ∈ seen) →
  (∀ x, x = i ∨ x ∈ seen → x ∉ stack.*1 → ∀ y, step x y → y ∈ seen) →
  search live i fuel seen stack = None →
  ∃ all : list nat, (∀ x, x ∈ seen → x ∈ all) ∧ (i ∉ all) ∧ ∀ x, x = i ∨ x ∈ all → ∀ y, step x y → y ∈ all.
Proof.
  revert seen stack. induction fuel as [|f IH]; intros seen stack HN Hsub Hi Hfuel Hst Hcl; cbn [ChartDoor.search].
  - intros _. destruct stack as [|x stack].
    + exists seen. split; [done|]. split; [done|]. intros x Hx. apply Hcl; [done|set_solver].
    + assert (length seen ≤ length live) by (by apply submseteq_length, NoDup_submseteq). cbn in Hfuel. lia.
  - destruct stack as [|[cur trail] stack].
    { intros _. exists seen. split; [done|]. split; [done|]. intros x Hx. apply Hcl; [done|set_solver]. }
    pose proof (visit_spec trail (nextOf live cur) seen stack) as Hv.
    destruct (visit _ _ _ _ _) as [[seen' stack']|]; [|done].
    destruct Hv as (Hni & new & Hnd & Hnew & -> & Hmem & Hlen & Hall). intros Hs.
    assert (∀ j, j ∈ new → j ∈ live) as Hnl by (intros j [Hj _]%Hnew; by apply step_live in Hj).
    destruct (IH (seen ++ new) stack') as (all & H1 & H2 & H3); try done.
    + apply NoDup_app. split; [done|]. split; [|done]. intros j Hj Hj2. by apply Hnew in Hj2 as [_ ?].
    + set_solver.
    + intros [?|Hin]%elem_of_app; [done|]. apply Hnew in Hin as [Hin _]. done.
    + rewrite length_app, Hlen. cbn in Hfuel. lia.
    + intros x Hx%Hmem. destruct Hx as [Hx|Hx]; [set_solver|]. destruct (Hst x); set_solver.
    + intros x Hx Hnx y Hy. rewrite Hmem in Hnx. destruct (decide (x = cur)) as [->|Hc]; [by apply Hall|].
      apply elem_of_app. left. apply (Hcl x); [|cbn; set_solver|done].
      destruct Hx as [->|Hx]; [by left|]. apply elem_of_app in Hx as [?|?]; [by right|naive_solver].
    + exists all. set_solver.
Qed.

Lemma search_complete n :
  (length live ≤ n) → search live i (S n) [] [(i, [i])] = None → ¬ tc step i i.
Proof.
  intros Hn Hs. destruct (search_none (S n) [] [(i, [i])]) as (all & _ & Hi & Hcl); try done.
  - constructor.
  - set_solver.
  - set_solver.
  - cbn. lia.
  - set_solver.
  - set_solver.
  - intros Ht. apply Hi. assert (∀ x, tc step x i → (x = i ∨ x ∈ all) → i ∈ all) as Hg; [|by apply (Hg i); [|left]].
    intros x Hx. induction Hx as [x y Hxy|x y z Hxy _ IH]; intros Hx; [by eapply Hcl|].
    apply IH; [done..|]. right. by eapply Hcl.
Qed.

(** Every edge on the stack is reached from [i]. *)
Lemma search_sound fuel seen stack trail :
  (∀ x, x ∈ stack.*1 → x = i ∨ tc step i x) → search live i fuel seen stack = Some trail → tc step i i.
Proof.
  revert seen stack. induction fuel as [|f IH]; intros seen stack Hst; cbn [ChartDoor.search]; [by destruct stack|].
  destruct stack as [|[cur tr] stack]; [done|]. pose proof (visit_spec tr (nextOf live cur) seen stack) as Hv.
  assert (∀ y, y ∈ nextOf live cur → tc step i y) as Hn.
  { intros y Hy. destruct (Hst cur) as [->|Ht]; [by left|by apply tc_once|]. by eapply tc_r. }
  destruct (visit _ _ _ _ _) as [[seen' stack']|]; [|intros _; by apply Hn].
  destruct Hv as (_ & new & _ & Hnew & _ & Hmem & _ & _). apply IH. intros x Hx%Hmem.
  destruct Hx as [Hx|Hx]; [right; apply Hn, Hnew, Hx|]. apply Hst. by right.
Qed.

End Search.

(** The edges that the check keeps, of [n]. *)
Definition liveOf (n : nat) : list nat := liveFix (S n) (seq 0 n).

Lemma cycleLoop_none live n todo :
  cycleLoop entered kept guarded live n todo [] = [] ↔
  ∀ i, i ∈ todo → guarded i = false → i ∈ live → search live i (S n) [] [(i, [i])] = None.
Proof.
  induction todo as [|i todo IH]; cbn [cycleLoop]; [split; [by intros _ ? ?%elem_of_nil|done]|].
  rewrite bool_decide_eq_false_2, orb_false_r by apply not_elem_of_nil.
  destruct (guarded i) eqn:Eg; [|case_bool_decide as Hl]; cbn [orb negb].
  - rewrite IH. split; [|intros H j Hj; apply H; by right].
    intros H j [->|Hj]%elem_of_cons; [congruence|by apply H].
  - destruct (search live i (S n) [] [(i, [i])]) as [tr|] eqn:Es.
    + split; [done|]. intros H. specialize (H i ltac:(by left) Eg Hl). congruence.
    + rewrite IH. split; [|intros H j Hj; apply H; by right].
      intros H j [->|Hj]%elem_of_cons; [done|by apply H].
  - rewrite IH. split; [|intros H j Hj; apply H; by right].
    intros H j [->|Hj]%elem_of_cons; [done|by apply H].
Qed.

(** No cycle is reported exactly when no edge without a guard lies on one. *)
Lemma cycles_none n :
  cyclesOf entered kept guarded n = [] ↔
  ∀ i, i ∈ liveOf n → guarded i = false → ¬ tc (step (liveOf n)) i i.
Proof.
  assert (ranked n (liveOf n)) as Hr by apply ranked_fix, ranked_all.
  pose proof (live_length _ _ Hr) as Hn. destruct Hr as (_ & Hlt & _).
  unfold cyclesOf. fold (liveOf n). rewrite cycleLoop_none. split.
  - intros H i Hi Hg. eapply search_complete; [done|]. apply H; [|done..]. apply elem_of_seq. split; [lia|by apply Hlt].
  - intros H i _ Hg Hi. destruct (search _ _ _ _ _) as [tr|] eqn:Es; [|done]. exfalso.
    eapply (H i Hi Hg), search_sound; [|done]. cbn. intros x [->|[]%elem_of_nil]%elem_of_cons. by left.
Qed.

End Graph.

(** ** The tree *)

Lemma state_ind' (P : ChartState → Prop) :
  (∀ b l, Forall (λ m, P m.2) l → P (State b l)) → ∀ s, P s.
Proof.
  intros H. fix IH 1. intros [b l]. apply H. revert l. fix IHl 1. intros [|m l]; constructor; [apply IH|apply IHl].
Qed.

(** The entries of what was computed member by member. *)
Lemma entries_computed {V W} (g : jstr → V → W) (o : obj V) x :
  x ∈ map snd (entries (map (λ m, (m.1, g m.1 m.2)) o)) → ∃ k v, objGet k o = Some v ∧ x = g k v.
Proof.
  intros ([k w] & -> & H)%list_elem_of_fmap. apply ChartRefProofs.elem_of_entries in H. cbn.
  assert (objGet k (map (λ m, (m.1, g m.1 m.2)) o) = g k <$> objGet k o) as E.
  { clear H. induction o as [|[k' v'] o IH]; [done|]. cbn. case_bool_decide; [by subst|done]. }
  rewrite E in H. destruct (objGet k o) as [v|] eqn:Ev; [|done]. injection H as <-. eauto.
Qed.

Lemma below_prefix s : ∀ p q s', (q, s') ∈ below p s → ∃ k r, q = p ++ k :: r.
Proof.
  induction s as [b l HF] using state_ind'. intros p q s'. cbn [below].
  intros H%list_elem_of_In%in_concat. destruct H as (x & Hx & Hq). apply list_elem_of_In in Hx, Hq.
  apply (entries_computed (λ k v, (p ++ [k], v) :: below (p ++ [k]) v)) in Hx as (k & v & Hk & ->).
  apply elem_of_cons in Hq as [[= -> ->]|Hq]; [by exists k, []|].
  rewrite Forall_forall in HF. apply objGet_elem in Hk.
  destruct (HF _ Hk _ _ _ Hq) as (k' & r & ->). exists k, (k' :: r). by rewrite <- app_assoc.
Qed.

Lemma ups_prefix p a : a ∈ ups p ↔ a `prefix_of` p.
Proof.
  unfold ups. rewrite list_elem_of_fmap. split.
  - intros (n & -> & _). apply prefix_take.
  - intros [k ->]. exists (length a). rewrite take_app_length. split; [done|].
    rewrite list_elem_of_In, <- in_rev, <- list_elem_of_In, elem_of_seq, length_app. lia.
Qed.

Section Geometry.
Context (chart : ChartText).

Lemma domain_above e : domainOf e `prefix_of` e_from e.
Proof.
  unfold domainOf. case_bool_decide; [done|]. destruct (_ && _); [done|].
  destruct (filter _ (tail (ups (e_from e)))) as [|a l] eqn:E; cbn; [apply prefix_nil|].
  assert (a ∈ filter (λ a, forallb (isAncestorOrSelf a) (e_targets e) = true) (tail (ups (e_from e)))) as Ha.
  { rewrite E. by left. }
  apply list_elem_of_filter in Ha as [_ Ha]. apply ups_prefix.
  destruct (ups (e_from e)) as [|u us]; [done|]. cbn in Ha. by right.
Qed.

Lemma children_form p c : c ∈ childrenOf chart p → ∃ k, c = p ++ [k].
Proof.
  unfold childrenOf. destruct (nodeAt chart p); [|by intros ?%elem_of_nil].
  intros (k & -> & _)%list_elem_of_fmap. eauto.
Qed.

Lemma descendants_prefix p d : d ∈ descendants chart p → p `prefix_of` d.
Proof.
  unfold descendants. destruct (nodeAt chart p) as [s|]; [|by intros ?%elem_of_nil].
  intros ([q s'] & -> & H)%list_elem_of_fmap. apply below_prefix in H as (k & r & ->). cbn. by eexists.
Qed.

(** An edge's own source is never in another region. *)
Lemma source_not_kept e : e_from e ∉ keptBy chart e.
Proof.
  unfold keptBy. intros H%list_elem_of_In%in_concat. destruct H as (x & Hx & Hin).
  apply list_elem_of_In in Hx, Hin. apply list_elem_of_fmap in Hx as (a & -> & Ha%ups_prefix).
  case_bool_decide as Hne; cbn in Hin; [|by apply elem_of_nil in Hin].
  case_bool_decide; [|by apply elem_of_nil in Hin].
  apply list_elem_of_In, in_concat in Hin as (y & Hy & Hin). apply list_elem_of_In in Hy, Hin.
  apply list_elem_of_fmap in Hy as (c & -> & Hc). apply list_elem_of_filter in Hc as [Hca Hc].
  apply children_form in Hc as [k ->].
  assert ((parentOf a ++ [k]) `prefix_of` e_from e) as Hp.
  { apply elem_of_cons in Hin as [->|Hin]; [done|by apply descendants_prefix]. }
  assert (a `prefix_of` e_from e) as Hp' by (etrans; [done|apply domain_above]).
  apply Hca. destruct Hp as [r1 E1], Hp' as [r2 E2]. rewrite E1 in E2. apply app_inj_1 in E2 as [? _]; [done|].
  unfold parentOf. rewrite length_app, length_take. cbn. destruct a; [done|]. cbn. lia.
Qed.

(** A targetless edge keeps its own source. *)
Lemma targetless_enters_itself e : e_targets e = [] → e_from e ∈ enteredBy chart e.
Proof. intros E. unfold enteredBy. rewrite E, bool_decide_eq_true_2 by done. by apply ups_prefix. Qed.

End Geometry.

(** ** Runs of [always] steps

    xstate takes [always] transitions in microsteps: [microstep C es C'] when the
    edges [es] (by number) fire together in the configuration [C], the active
    states, and leave [C'].  What the check relies on is what the transition's
    domain means: a fired edge's source is active; an edge with targets exits
    every state below its domain and enters what [enteredBy] lists, so a state
    that is active after it is one of those or lies in another region; and a
    state that was not active is entered by some edge with targets. *)
Section Runs.
Context (chart : ChartText) (edges : list edge).
Context (microstep : list path → list nat → list path → Prop).

Class Microsteps : Prop := {
  ms_enabled : ∀ C es C' i, microstep C es C' → i ∈ es → ∃ e, edges !! i = Some e ∧ e_from e ∈ C;
  ms_inside : ∀ C es C' i e s, microstep C es C' → i ∈ es → edges !! i = Some e → e_targets e ≠ [] → s ∈ C' →
    s ∈ enteredBy chart e ∨ s ∈ keptBy chart e;
  ms_entered : ∀ C es C' s, microstep C es C' → s ∈ C' →
    s ∈ C ∨ ∃ i e, i ∈ es ∧ edges !! i = Some e ∧ e_targets e ≠ [] ∧ s ∈ enteredBy chart e;
}.

(** A run: what fires at each step. *)
Inductive run : list path → list (list nat) → Prop :=
| run_nil C : run C []
| run_cons C es C' rest : microstep C es C' → run C' rest → run C (es :: rest).

(** How often an edge fires. *)
Definition fires (i : nat) (steps : list (list nat)) : nat := length (filter (λ es, i ∈ es) steps).

Definition firesAny (l : list nat) (steps : list (list nat)) : nat := list_sum (map (λ i, fires i steps) l).

Lemma fires_cons i es steps : fires i (es :: steps) = (if decide (i ∈ es) then 1 else 0) + fires i steps.
Proof. unfold fires. rewrite filter_cons. by case_decide. Qed.

Lemma firesAny_cons l es steps :
  firesAny l steps ≤ firesAny l (es :: steps) ∧
  ((∃ i, i ∈ l ∧ i ∈ es) → S (firesAny l steps) ≤ firesAny l (es :: steps)).
Proof.
  assert (∀ j l, firesAny (j :: l) = λ st, fires j st + firesAny l st) as Hc by done.
  induction l as [|j l [IH1 IH2]]; [split; [done|intros (? & ?%elem_of_nil & _); done]|].
  rewrite !Hc, fires_cons. split; [lia|]. intros (i & [->|Hi]%elem_of_cons & He).
  - rewrite decide_True by done. lia.
  - specialize (IH2 ltac:(eauto)). lia.
Qed.

Lemma firesAny_bound l steps b : Forall (λ i, fires i steps ≤ b) l → firesAny l steps ≤ length l * b.
Proof.
  induction 1 as [|i l Hi _ IH]; [done|]. change (firesAny (i :: l) steps) with (fires i steps + firesAny l steps).
  cbn. lia.
Qed.

Context {xs : Microsteps}.

Abbreviation n := (length edges).
Abbreviation entered := (enteredEdge chart edges).
Abbreviation kept := (keptEdge chart edges).
Abbreviation live := (liveOf entered n).

Definition entering (d : nat) : list nat := filter (λ j, entered j d = true) (seq 0 n).

Lemma in_entering i d e f :
  edges !! i = Some e → edges !! d = Some f → e_from f ∈ enteredBy chart e → i ∈ entering d.
Proof.
  intros Ei Ed H. apply list_elem_of_filter. split.
  - unfold enteredEdge. rewrite Ei, Ed. by apply bool_decide_eq_true.
  - apply elem_of_seq. split; [lia|]. by eapply lookup_lt_Some.
Qed.

(** An edge that does not enter its own source fires again only after an edge
    that enters it. *)
Lemma fires_again d f steps C :
  edges !! d = Some f → entered d d = false → run C steps →
  fires d steps ≤ (if decide (e_from f ∈ C) then 1 else 0) + firesAny (entering d) steps.
Proof.
  intros Ed Hd Hrun. induction Hrun as [C|C es C' steps Hm Hrun IH]; [cbn; lia|].
  assert (e_from f ∉ enteredBy chart f) as Hself.
  { unfold enteredEdge in Hd. rewrite Ed in Hd. by apply bool_decide_eq_false in Hd. }
  destruct (firesAny_cons (entering d) es steps) as [H1 H2]. rewrite fires_cons.
  destruct (decide (d ∈ es)) as [Hin|Hin].
  - destruct (ms_enabled _ _ _ _ Hm Hin) as (f' & E & HC). rewrite Ed in E. injection E as <-.
    rewrite (decide_True _ _ HC). assert (e_from f ∉ C') as Hout.
    { intros HC'. assert (e_targets f ≠ []) as Ht by (intros E; by apply Hself, targetless_enters_itself).
      destruct (ms_inside _ _ _ _ _ _ Hm Hin Ed Ht HC') as [?|?]; [done|by eapply source_not_kept]. }
    rewrite decide_False in IH by done. lia.
  - destruct (decide (e_from f ∈ C')) as [HC'|HC']; [|lia].
    destruct (ms_entered _ _ _ _ Hm HC') as [HC|(i & e & Hi & Ei & _ & He)].
    + rewrite decide_True by done. lia.
    + specialize (H2 ltac:(exists i; split; [by eapply in_entering|done])). lia.
Qed.

(** What the check drops fires a bounded number of times. *)
Lemma dropped_bounded d steps C :
  d < n → d ∉ live → run C steps → fires d steps ≤ S n ^ n.
Proof.
  destruct (ranked_fix entered n (S n) (seq 0 n) (ranked_all _ n)) as (_ & _ & rank & Hr). fold (liveOf entered n) in Hr.
  intros Hd Hl Hrun. assert (∀ r d, rank d < r → d < n → d ∉ live → fires d steps ≤ S n ^ r) as Hb.
  - clear d Hd Hl. induction r as [|r IH]; intros d Hrk Hd Hl; [lia|].
    destruct (lookup_lt_is_Some_2 edges d Hd) as [f Ef]. destruct (Hr d Hd Hl) as [_ Hj].
    assert (entered d d = false) as Hself.
    { destruct (entered d d) eqn:E; [|done]. destruct (Hj d Hd E). lia. }
    pose proof (fires_again d f steps C Ef Hself Hrun) as Hf.
    assert (firesAny (entering d) steps ≤ length (entering d) * S n ^ r) as Hs.
    { apply firesAny_bound, Forall_forall. intros j Hjd. apply list_elem_of_filter in Hjd as [Hjd Hjn].
      apply elem_of_seq in Hjn. destruct (Hj j ltac:(lia) Hjd). apply IH; [lia|lia|done]. }
    assert (length (entering d) ≤ n) as Hlen.
    { unfold entering. rewrite <- (length_seq n 0) at 2. apply length_filter. }
    assert (1 ≤ S n ^ r) by (apply Nat.neq_0_lt_0, Nat.pow_nonzero; lia).
    rewrite Nat.pow_succ_r'. destruct (decide _); nia.
  - etrans; [apply (Hb (S (rank d))); [lia|done|done]|]. apply Nat.pow_le_mono_r; [lia|].
    destruct (Hr d Hd Hl). lia.
Qed.

(** An edge that can fire next is a step of the check's graph. *)
Lemma next_step g e i f :
  edges !! g = Some e → edges !! i = Some f → i ∈ live →
  e_from f ∈ enteredBy chart e ∨ e_from f ∈ keptBy chart e → step entered kept live g i.
Proof.
  intros Eg Ei Hl H. apply list_elem_of_filter. split; [|done].
  unfold enteredEdge, keptEdge. rewrite Eg, Ei. apply orb_true_iff. by rewrite !bool_decide_eq_true.
Qed.

(** After [i] fired, and as long as no dropped edge fires: every active state is
    one that the edge [g], which [i] leads to, entered or may have kept. *)
Definition armed (i : nat) (C : list path) : Prop :=
  ∃ g e, (g = i ∨ tc (step entered kept live) i g) ∧ edges !! g = Some e ∧
    ∀ s, s ∈ C → s ∈ enteredBy chart e ∨ s ∈ keptBy chart e.

Definition dropped : list nat := filter (λ d, d ∉ live) (seq 0 n).

Lemma armed_fires i C es C' :
  armed i C → microstep C es C' → ∀ j f, j ∈ es → edges !! j = Some f → j ∈ live →
  tc (step entered kept live) i j.
Proof.
  intros (g & e & Hg & Eg & HC) Hm j f Hj Ej Hl. destruct (ms_enabled _ _ _ _ Hm Hj) as (f' & E & Hin).
  rewrite Ej in E. injection E as <-. assert (step entered kept live g j) as Hs by (eapply next_step; eauto).
  destruct Hg as [->|Hg]; [by apply tc_once|by eapply tc_r].
Qed.

Definition aims (j : nat) : bool :=
  match edges !! j with Some e => negb (bool_decide (e_targets e = [])) | None => false end.

Lemma aims_spec j : aims j = true ↔ ∃ e, edges !! j = Some e ∧ e_targets e ≠ [].
Proof. unfold aims. destruct (edges !! j) as [e|]; [|naive_solver]. rewrite negb_true_iff, bool_decide_eq_false. naive_solver. Qed.

Lemma armed_step i C es C' :
  armed i C → microstep C es C' → (∀ j, j ∈ es → j ∈ live) → armed i C'.
Proof.
  intros Ha Hm Hl.
  destruct (decide (Exists (λ j, aims j = true) es)) as [He|He].
  - apply Exists_exists in He as (j & Hj & (e & Ej & Ht)%aims_spec). exists j, e.
    split; [right; by eapply (armed_fires _ _ es); eauto|]. split; [done|]. intros s Hs. by eapply ms_inside.
  - destruct Ha as (g & e & Hg & Eg & HC). exists g, e. split; [done|]. split; [done|].
    intros s Hs. destruct (ms_entered _ _ _ _ Hm Hs) as [?|(i' & e' & Hi & Ei & Ht & _)]; [auto|].
    destruct He. apply Exists_exists. exists i'. rewrite aims_spec. eauto.
Qed.

Lemma live_bounded i e steps C :
  edges !! i = Some e → e_targets e ≠ [] → ¬ tc (step entered kept live) i i → i ∈ live → run C steps →
  fires i steps ≤ 1 + firesAny dropped steps ∧ (armed i C → fires i steps ≤ firesAny dropped steps).
Proof.
  intros Ei Ht Hno Hl Hrun. induction Hrun as [C|C es C' steps Hm Hrun [IH1 IH2]]; [cbn; lia|].
  destruct (firesAny_cons dropped es steps) as [H1 H2]. rewrite fires_cons.
  assert (i ∈ es → armed i C') as Harm.
  { intros Hi. exists i, e. split; [by left|]. split; [done|]. intros s Hs. by eapply ms_inside. }
  destruct (decide (Exists (λ j, j ∉ live) es)) as [Hd|Hd].
  - apply Exists_exists in Hd as (j & Hj & Hjl). destruct (ms_enabled _ _ _ _ Hm Hj) as (f & Ej & _).
    assert (j ∈ dropped) as Hjd.
    { apply list_elem_of_filter. split; [done|]. apply elem_of_seq. split; [lia|by eapply lookup_lt_Some]. }
    specialize (H2 ltac:(eauto)). case_decide as Hi; [specialize (IH2 (Harm Hi))|]; lia.
  - assert (∀ j, j ∈ es → j ∈ live) as Hall.
    { intros j Hj. destruct (decide (j ∈ live)); [done|]. destruct Hd. apply Exists_exists. eauto. }
    case_decide as Hi.
    + specialize (IH2 (Harm Hi)). split; [lia|]. intros Ha. destruct Hno. by eapply (armed_fires i C es).
    + split; [lia|]. intros Ha. specialize (IH2 (armed_step _ _ _ _ Ha Hm Hall)). lia.
Qed.

Lemma unguarded_bounded i e steps C :
  alwaysCycles chart edges = [] → edges !! i = Some e → e_guarded e = false → run C steps →
  fires i steps ≤ 1 + n * S n ^ n.
Proof.
  unfold alwaysCycles. rewrite cycles_none. intros Hno Ei Hg Hrun.
  assert (i < n) as Hi by (by eapply lookup_lt_Some).
  assert (firesAny dropped steps ≤ n * S n ^ n) as Hd.
  { etrans; [apply (firesAny_bound _ _ (S n ^ n))|].
    - apply Forall_forall. intros d [Hd Hdn]%list_elem_of_filter. apply elem_of_seq in Hdn.
      eapply dropped_bounded; [lia|done|done].
    - apply Nat.mul_le_mono_r. unfold dropped. rewrite <- (length_seq n 0) at 2. apply length_filter. }
  destruct (decide (i ∈ live)) as [Hl|Hl].
  - assert (¬ tc (step entered kept live) i i) as Hc.
    { apply Hno; [done|]. unfold guardedEdge. by rewrite Ei. }
    assert (e_targets e ≠ []) as Ht.
    { intros E. apply Hc, tc_once. eapply next_step; [done|done|done|]. left. by apply targetless_enters_itself. }
    destruct (live_bounded i e steps C Ei Ht Hc Hl Hrun). lia.
  - pose proof (dropped_bounded i steps C Hi Hl Hrun). destruct n; nia.
Qed.

End Runs.

End ChartCycles.
