(* ===== verification/ChartDoorProofs.v ===== *)
(** * The Chart door: proofs

    What an admitted Chart can name ([authority_is_lent]), that its [always]
    steps end unless its guards keep them going ([always_steps_end]), that a
    reference to a field which the schema requires resolves
    ([required_field_resolves]), and what the dataflow check costs and where it
    throws. *)

From Stdlib Require Import Lia ZArith.
From stdpp Require Import base list strings sets.
From S2P Require Import Prelude JsString Json JsObject Sql ChartRef ChartRefProofs ChartDoor ChartCycles.
Import Json JsObject ChartRef ChartRefProofs ChartDoor ChartCycles.

Open Scope Z_scope.

Module ChartDoorProofs.

(** ** A log with no line *)

Definition quiet (log : list entry) : Prop := linesOf log = [].

Lemma quiet_app a b : quiet (a ++ b) ↔ quiet a ∧ quiet b.
Proof. unfold quiet, linesOf. rewrite omap_app. split; [apply app_eq_nil|]. by intros [-> ->]. Qed.

Lemma quiet_concat l : quiet (concat l) ↔ Forall quiet l.
Proof.
  induction l as [|a l IH]; cbn [concat]; [split; [constructor|done]|]. rewrite quiet_app, Forall_cons, IH. done.
Qed.

Lemma quiet_fail rule path f : ¬ quiet (fail rule path f).
Proof. done. Qed.

(** The walk of a mapped list. *)
Lemma quiet_map {A} (f : A → list entry) l x : quiet (concat (map f l)) → x ∈ l → quiet (f x).
Proof.
  intros H%quiet_concat Hx. rewrite Forall_forall in H. apply H, list_elem_of_fmap. eauto.
Qed.

Lemma quiet_imap {A} (f : nat → A → list entry) l x : quiet (concat (imap f l)) → x ∈ l → ∃ i, quiet (f i x).
Proof.
  intros H%quiet_concat [i Hi]%list_elem_of_lookup. exists i. rewrite Forall_lookup in H.
  apply (H i). by rewrite list_lookup_imap, Hi.
Qed.

#[local] Ltac quiets :=
  repeat match goal with
  | H : quiet (_ ++ _) |- _ => apply quiet_app in H as [? ?]
  | H : quiet (fail _ _ _) |- _ => by apply quiet_fail in H
  | H : quiet (ELine _ :: _) |- _ => discriminate H
  end.

(** ** Every state is walked *)

Lemma entries_get {V W} (g : jstr → V → W) (o : obj V) k v :
  objGet k o = Some v → g k v ∈ map snd (entries (map (λ m, (m.1, g m.1 m.2)) o)).
Proof.
  intros H. apply list_elem_of_fmap. exists (k, g k v). split; [done|]. apply elem_of_entries.
  induction o as [|[k' v'] o IH]; [done|]. cbn in *. case_bool_decide; [subst; by injection H as ->|auto].
Qed.

Lemma below_complete s : ∀ p q s', q ≠ [] → stateAt s q = Some s' → (p ++ q, s') ∈ below p s.
Proof.
  induction s as [b l HF] using state_ind'. intros p [|k q] s' Hq H; [done|]. cbn in H.
  destruct (objGet k l) as [c|] eqn:Ek; [|done]. cbn [below].
  apply list_elem_of_In, in_concat. exists ((p ++ [k], c) :: below (p ++ [k]) c).
  rewrite <- !list_elem_of_In. split; [by apply (entries_get (λ k v, (p ++ [k], v) :: below (p ++ [k]) v))|].
  destruct q as [|k' q]; [injection H as ->; by left|]. right.
  replace (p ++ k :: k' :: q) with ((p ++ [k]) ++ k' :: q) by (by rewrite <- app_assoc).
  rewrite Forall_forall in HF. apply objGet_elem in Ek. by apply (HF _ Ek).
Qed.

Lemma nodes_complete chart p s : p ≠ [] → nodeAt chart p = Some s → (p, s) ∈ nodes chart.
Proof. intros Hp H. by apply (below_complete (root chart) []). Qed.

(** ** What an admitted Chart's log says *)

Section Accepted.
Context (chart : ChartText) (decl : OpenBodyDeclaration) (lent : LentParts) (options : AdmitOptions).

Abbreviation lends := (d_lends decl).

Lemma admitted_quiet zod trial gates :
  doorAdmit chart decl lent options zod trial = Accepted gates →
  let walkLog := walkLog chart decl lent options zod in
  quiet walkLog ∧ quiet (checkUnhandled chart (handledOf walkLog)) ∧ quiet (cycleLines chart (edgesOf walkLog)) ∧
  quiet (checkParties chart decl lent (sentBysOf walkLog)).
Proof.
  unfold doorAdmit. destruct (doorLog _ _ _ _ _) as [log|] eqn:E; [|done].
  destruct (linesOf log) eqn:El; [|done]. intros _. cbn zeta.
  set (walkLog := walkLog chart decl lent options zod) in *.
  unfold doorLog in E. apply fmap_Some in E as (refs & _ & ->). change (quiet ((walkLog ++ checkUnhandled chart (handledOf walkLog) ++
    cycleLines chart (edgesOf walkLog) ++ checkParties chart decl lent (sentBysOf walkLog) ++ outputLog chart) ++ refs)) in El.
  quiets. done.
Qed.

Lemma admitted_state zod trial gates p s :
  doorAdmit chart decl lent options zod trial = Accepted gates → p ≠ [] → nodeAt chart p = Some s →
  quiet (checkState chart decl lent options p s).
Proof.
  intros (H & _)%admitted_quiet Hp Hn. unfold ChartDoor.walkLog in H. quiets.
  by eapply (quiet_map (λ n, checkState chart decl lent options n.1 n.2) (nodes chart) (p, s)); [|apply nodes_complete].
Qed.

(** *** The parts of a state *)

Definition transitionsOf (s : ChartState) : list ChartTransition :=
  concat (map (λ inv, listOf (i_onDone inv) ++ listOf (i_onError inv)) (invokesOf s))
  ++ concat (map (λ m, listOf (Some m.2)) (entries (default [] (s_on (bodyOf s)))))
  ++ listOf (s_always (bodyOf s))
  ++ concat (map (λ m, listOf (Some m.2)) (entries (default [] (s_after (bodyOf s))))).

Definition actionsOfState (s : ChartState) : list ChartAction :=
  s_entry (bodyOf s) ++ s_exit (bodyOf s) ++ concat (map actionsOf (transitionsOf s)).

(** The guards that a guard asks for by name. *)
Fixpoint guardNames (g : ChartGuard) : list jstr :=
  match g with
  | GName n => [n]
  | GType t _ => if bool_decide (t = SENT_BY) then [] else [t]
  | GNot g => guardNames g
  | GAnd l | GOr l => concat (map guardNames l)
  end.

Lemma guard_ind' (P : ChartGuard → Prop) :
  (∀ n, P (GName n)) → (∀ t ps, P (GType t ps)) → (∀ g, P g → P (GNot g)) →
  (∀ l, Forall P l → P (GAnd l)) → (∀ l, Forall P l → P (GOr l)) → ∀ g, P g.
Proof.
  intros H1 H2 H3 H4 H5. fix IH 1. intros [n|t ps|g|l|l]; [apply H1|apply H2|apply H3, IH|apply H4|apply H5].
  all: revert l; fix IHl 1; intros [|g l]; constructor; [apply IH|apply IHl].
Qed.

Definition lentGuard (n : jstr) : Prop :=
  n = FAILURE_GUARD ∨ n = READY_GUARD ∨ n ∈ l_guards lends ∧ inObject n (p_guards lent) = true.

Lemma guardName_ok n path : quiet (checkGuardName decl lent n path) → lentGuard n.
Proof.
  unfold checkGuardName, lentGuard. repeat case_bool_decide; cbn [andb orb negb]; auto.
  - destruct (inObject n (p_guards lent)); cbn [negb]; intros; quiets; auto.
  - intros; quiets.
Qed.

Lemma checks_ok {A} (check : A → jstr → list entry) (path : nat → jstr) (l : list A) x :
  quiet (concat (imap (λ i c, c (path i)) (map check l))) → x ∈ l → ∃ p, quiet (check x p).
Proof.
  intros H Hx. assert (check x ∈ map check l) as Hc by (apply list_elem_of_fmap; eauto).
  destruct (quiet_imap _ _ _ H Hc) as [i Hi]. eauto.
Qed.

Lemma chartGuard_ok g : ∀ path scope n, quiet (checkGuard decl lent g path scope) → n ∈ guardNames g → lentGuard n.
Proof.
  induction g as [m|t ps|g IH|l HF|l HF] using guard_ind'; intros path scope n H Hn; cbn [checkGuard guardNames] in *.
  - apply list_elem_of_singleton in Hn as ->. by eapply guardName_ok.
  - case_bool_decide; [by apply elem_of_nil in Hn|]. apply list_elem_of_singleton in Hn as ->.
    destruct (bool_decide (t = FAILURE_GUARD)) eqn:E1; [left; by apply bool_decide_eq_true in E1|].
    destruct (bool_decide (t = READY_GUARD)) eqn:E2; [right; left; by apply bool_decide_eq_true in E2|].
    cbn in H. quiets. by eapply guardName_ok.
  - by eapply IH.
  - apply list_elem_of_In, in_concat in Hn as (ns & Hns & Hn). apply list_elem_of_In in Hns, Hn.
    apply list_elem_of_fmap in Hns as (g & -> & Hg). rewrite Forall_forall in HF.
    destruct (checks_ok _ _ _ _ H Hg) as [p Hp]. by eapply HF.
  - apply list_elem_of_In, in_concat in Hn as (ns & Hns & Hn). apply list_elem_of_In in Hns, Hn.
    apply list_elem_of_fmap in Hns as (g & -> & Hg). rewrite Forall_forall in HF.
    destruct (checks_ok _ _ _ _ H Hg) as [p Hp]. by eapply HF.
Qed.

Definition lentAction (a : ChartAction) : Prop :=
  match a with
  | Generic _ => True
  | Lent t _ => t ∈ l_actions lends ∧ inObject t (p_actions lent) = true
  end.

Lemma actions_ok l path scope a : quiet (checkActions decl lent l path scope) → a ∈ l → lentAction a.
Proof.
  intros H Ha. destruct (quiet_imap _ _ _ H Ha) as [i Hi]. destruct a as [|t ps]; [done|]. cbn in *. quiets.
  case_bool_decide; cbn in *; [|quiets]. destruct (inObject t _); cbn in *; [done|quiets].
Qed.

Lemma listAt_fst {A} (v : option (oneOrMany A)) path : (listAt v path).*1 = listOf v.
Proof.
  unfold listOf. destruct v as [[a|l]|]; [done| |done]. cbn.
  apply list_eq. intros i. rewrite !list_lookup_fmap, !list_lookup_imap. by destruct (l !! i).
Qed.

Lemma in_listAt {A} (v : option (oneOrMany A)) path x : x ∈ listOf v → ∃ p, (x, p) ∈ listAt v path.
Proof. rewrite <- (listAt_fst v path). intros ([y p] & -> & H)%list_elem_of_fmap. eauto. Qed.

(** What the walk says of one transition. *)
Definition transitionOk (source : list jstr) (t : ChartTransition) : Prop :=
  (∀ g n, guardOf t = Some g → n ∈ guardNames g → lentGuard n) ∧
  (∀ a, a ∈ actionsOf t → lentAction a) ∧
  (∀ target p, (target, p) ∈ targetsAt t [] → ∃ q, resolveTarget chart target source = inr q).

Lemma targetsAt_fst t p : (targetsAt t p).*1 = (targetsAt t []).*1.
Proof. destruct t; [done|]. cbn [targetsAt]. by rewrite !listAt_fst. Qed.

Lemma transition_ok source scope always t tpath :
  quiet (checkTransition chart decl lent source scope always t tpath) → transitionOk source t.
Proof.
  unfold checkTransition. cbn zeta. intros H. quiets. split; [|split].
  - intros g n Eg Hn. rewrite Eg in *. by eapply chartGuard_ok.
  - intros a Ha. by eapply actions_ok.
  - intros target p Ht.
    assert (target ∈ (targetsAt t tpath).*1) as Hin.
    { rewrite targetsAt_fst. apply list_elem_of_fmap. by exists (target, p). }
    apply list_elem_of_fmap in Hin as (m & -> & Hm).
    rewrite map_map in *. match goal with H : quiet (concat (map _ (targetsAt t tpath))) |- _ =>
      apply (quiet_map _ _ _ H) in Hm end. cbn in Hm.
    destruct (resolveTarget chart m.1 source) as [f|q]; [quiets|eauto].
Qed.

Lemma transitions_ok ts path source scope always t :
  quiet (checkTransitions chart decl lent ts path source scope always) → t ∈ listOf ts → transitionOk source t.
Proof.
  intros H Ht. destruct (in_listAt ts path t Ht) as [p Hp]. apply (quiet_map _ _ _ H) in Hp.
  by eapply transition_ok.
Qed.

#[local] Ltac by_transitions :=
  match goal with
  | H : quiet (checkTransitions _ _ _ ?ts _ _ _ _), Ht : ?t ∈ listOf ?ts |- transitionOk _ ?t =>
      exact (transitions_ok _ _ _ _ _ _ H Ht)
  end.

#[local] Ltac by_actions :=
  match goal with
  | H : quiet (checkActions _ _ ?l _ _), Ha : ?a ∈ ?l |- lentAction ?a => exact (actions_ok _ _ _ _ H Ha)
  end.

(** *** Invokes *)

Definition lentSrc (src : jstr) : Prop :=
  (src ∈ l_agents lends ++ l_effects lends ++ l_machines lends ++ l_gates lends ∧ lentNow lent src = true) ∨
  (src = js "gate" ∧ l_gate lends = true) ∨
  (src = js "fail" ∧ l_fail lends = true) ∨
  src ∈ (c_agents chart).*1.

Lemma srcKind_ok src k : srcKind chart decl lent src = inr k → lentSrc src.
Proof.
  unfold srcKind, lentSrc. cbn zeta.
  set (l := l_agents lends ++ l_effects lends ++ l_machines lends ++ l_gates lends).
  assert (∀ x, x ∈ l_agents lends ∨ x ∈ l_effects lends ∨ x ∈ l_machines lends ∨ x ∈ l_gates lends → x ∈ l) as Hl.
  { intros x. unfold l. rewrite !elem_of_app. tauto. }
  case_bool_decide; destruct (lentNow lent src); cbn [andb negb]; try done.
  all: repeat (case_bool_decide; [try (intros _; by auto 10)|]).
  all: try (destruct (match objGet src (p_actors lent) with Some (GateSlotLogic _) => _ | _ => _ end); [|done]).
  all: try (destruct (l_gate lends); [|done]); try (destruct (l_fail lends); [|done]); try done; intros _; auto 10.
Qed.

(** The Turn's input: the keys of a Frame, and a model that the body allows. *)
Definition turnInputOk (input : option json) : Prop :=
  ∃ l, input = Some (JObj l) ∧ (∀ k, k ∈ l.*1 → k ∈ AGENT_INPUT_KEYS ∧ k ∉ PLACEMENT_INPUT_KEYS) ∧
    (∀ v, objGet (js "model") l = Some v → ∃ m, v = JStr m ∧ m ∈ d_models decl ∧ referencesOf v = []).

Lemma agentInput_ok src minted input ipath :
  quiet (checkAgentInput chart decl lent options src minted input ipath) → turnInputOk input.
Proof.
  unfold checkAgentInput. destruct (inputObject input) as [l|] eqn:E; intros H; [|quiets]. cbn zeta in H. quiets.
  exists l. split; [|split].
  - unfold inputObject in E. destruct input as [[| | | | |l']|]; try done.
    destruct (bool_decide (refKey ∈ l'.*1)); [done|]. by injection E as ->.
  - intros k Hk. assert (k ∈ objectKeys l.*1) as Hk' by (by rewrite objectKeys_perm).
    match goal with H : quiet (concat (map _ (objectKeys l.*1))) |- _ => pose proof (quiet_map _ _ k H Hk') as Hq end.
    clear - Hq. cbn beta in Hq. repeat case_bool_decide; cbn [negb] in *; quiets; done.
  - intros v Ev. rewrite Ev in *.
    match goal with H : quiet (match v with JStr _ => _ | _ => _ end) |- _ => rename H into Hq end.
    clear - Hq. destruct v as [| | |m| |]; quiets. exists m. split; [done|].
    repeat case_bool_decide; cbn [negb] in *; quiets; done.
Qed.

Definition invokeOk (inv : ChartInvoke) : Prop :=
  lentSrc (i_src inv) ∧
  (invokeKind chart decl lent inv = Some KAgent ∨ invokeKind chart decl lent inv = Some KMinted → turnInputOk (i_input inv)).

Lemma invoke_ok p inv path :
  quiet (checkInvoke chart decl lent options p inv path) →
  invokeOk inv ∧ (∀ t, t ∈ listOf (i_onDone inv) ++ listOf (i_onError inv) → transitionOk p t).
Proof.
  unfold checkInvoke, invokeOk, invokeKind. intros H. quiets. split; [split|].
  - destruct (srcKind chart decl lent (i_src inv)) eqn:E; [quiets|by eapply srcKind_ok].
  - destruct (srcKind chart decl lent (i_src inv)) as [|[]]; intros [[=]|[=]]; cbn [checkInvokeInput] in *;
      by eapply agentInput_ok.
  - intros t [Ht|Ht]%elem_of_app; by_transitions.
Qed.

Definition lentDelay (key : jstr) : Prop :=
  (integerText key = true ∧ read_digits 10 0 key <= MAX_TIMER_MS ∧
   ∀ wall, d_wallMs decl = Some wall → read_digits 10 0 key <= wall) ∨
  (key ∈ l_delays lends ∧ inObject key (p_delays lent) = true).

Lemma delay_ok key path : quiet (checkDelay decl lent key path) → lentDelay key.
Proof.
  unfold checkDelay, lentDelay. destruct (integerText key).
  - cbn zeta. destruct (Z.ltb_spec MAX_TIMER_MS (read_digits 10 0 key)); intros H'; [quiets|]. left.
    split; [done|]. split; [done|]. intros wall Ew. rewrite Ew in H'.
    destruct (Z.ltb_spec wall (read_digits 10 0 key)); [quiets|done].
  - case_bool_decide; cbn [andb negb]; destruct (inObject _ _); cbn [negb]; intros; quiets; auto.
Qed.

(** What the walk says of one state. *)
Definition stateOk (p : list jstr) (s : ChartState) : Prop :=
  (∀ inv, inv ∈ invokesOf s → invokeOk inv) ∧
  (∀ t, t ∈ transitionsOf s → transitionOk p t) ∧
  (∀ a, a ∈ actionsOfState s → lentAction a) ∧
  (∀ key ts, (key, ts) ∈ entries (default [] (s_after (bodyOf s))) → lentDelay key).

Lemma in_concat_map {A B} (f : A → list B) l x : x ∈ concat (map f l) ↔ ∃ a, a ∈ l ∧ x ∈ f a.
Proof.
  rewrite list_elem_of_In, in_concat. setoid_rewrite <- list_elem_of_In. split.
  - intros (y & Hy & Hx). apply list_elem_of_fmap in Hy as (a & -> & Ha). eauto.
  - intros (a & Ha & Hx). exists (f a). split; [|done]. apply list_elem_of_fmap. eauto.
Qed.

Lemma state_ok p s : quiet (checkState chart decl lent options p s) → stateOk p s.
Proof.
  unfold checkState. cbn zeta. intros H. quiets.
  assert (∀ inv, inv ∈ invokesOf s →
    invokeOk inv ∧ (∀ t, t ∈ listOf (i_onDone inv) ++ listOf (i_onError inv) → transitionOk p t)) as Hi.
  { intros inv Hinv. unfold invokesOf in Hinv. destruct (in_listAt _ (dot (docOf p) (js "invoke")) _ Hinv) as [q Hq].
    eapply (invoke_ok _ _ q). by eapply (quiet_map (λ m, checkInvoke chart decl lent options p m.1 m.2)) in Hq. }
  assert (∀ t, t ∈ transitionsOf s → transitionOk p t) as Ht.
  { intros t. unfold transitionsOf. rewrite !elem_of_app, !in_concat_map.
    intros [(inv & Hinv & Ht)|[(m & Hm & Ht)|[Ht|(m & Hm & Ht)]]].
    - by eapply (Hi inv Hinv).
    - match goal with H : quiet (concat (map _ (entries (default [] (s_on _))))) |- _ =>
        apply (quiet_map _ _ m) in H; [|done]; cbn beta in H;
        destruct (onScope chart m.1 (dot (dot (docOf p) (js "on")) m.1)) as [log scope] end. quiets. by_transitions.
    - by_transitions.
    - match goal with H : quiet (concat (map _ (entries (default [] (s_after _))))) |- _ =>
        apply (quiet_map _ _ m) in H; [|done]; cbn beta in H end. quiets. by_transitions. }
  split; [by intros inv Hinv; apply Hi|]. split; [done|]. split.
  - intros a. unfold actionsOfState. rewrite !elem_of_app, in_concat_map. intros [Ha|[Ha|(t & Htt & Ha)]].
    + by_actions.
    + by_actions.
    + by eapply (Ht t Htt).
  - intros key ts Hk. match goal with H : quiet (concat (map _ (entries (default [] (s_after _))))) |- _ =>
      apply (quiet_map _ _ (key, ts)) in H; [|done]; cbn beta zeta in H end. quiets. by eapply delay_ok.
Qed.

(** A minted Agent takes a name that nothing lends, a model and a Workspace
    access that the body allows. *)
Definition mintedOk (slot : jstr) (a : ChartAgent) : Prop :=
  (slot ∉ l_agents lends ++ l_effects lends ++ l_machines lends ++ l_gates lends ++ [js "gate"; js "fail"]) ∧
  a_model a ∈ d_models decl ∧ default (js "write") (a_workspace a) ∈ d_workspace decl.

Lemma agents_ok slot a : quiet (checkAgents chart decl) → objGet slot (c_agents chart) = Some a → mintedOk slot a.
Proof.
  unfold checkAgents. cbn zeta. intros H Ha. apply elem_of_entries in Ha. apply (quiet_map _ _ _ H) in Ha.
  cbn [fst snd] in Ha. unfold mintedOk. repeat case_bool_decide; quiets; done.
Qed.

End Accepted.

(** C14: an admitted Chart's authority is what its Open body lends: every state's
    invokes name a part that is lent and is there now, the kit's [gate] or [fail]
    where it is lent, or an Agent that the Chart mints; an Agent's input names no
    placement and no model but one that the body allows; every guard, action and
    delay is lent and there now (or the kit's own); every target is a state; and a
    minted Agent takes a free name, an allowed model and an allowed Workspace
    access. *)
Theorem authority_is_lent chart decl lent options zod trial gates :
  doorAdmit chart decl lent options zod trial = Accepted gates →
  (∀ p s, p ≠ [] → nodeAt chart p = Some s → stateOk chart decl lent p s) ∧
  (∀ slot a, objGet slot (c_agents chart) = Some a → mintedOk decl slot a).
Proof.
  intros H. split.
  - intros p s Hp Hn. by eapply state_ok, admitted_state.
  - intros slot a Ha. apply admitted_quiet in H as [H _]. unfold walkLog in H.
    repeat match goal with H : quiet (_ ++ _) |- _ => apply quiet_app in H as [? ?] end. by apply (agents_ok chart).
Qed.

(** ** [always] steps *)

Lemma cycleLoop_from entered kept guarded live n todo reported c :
  c ∈ cycleLoop entered kept guarded live n todo reported → c.1 ∈ todo.
Proof.
  revert reported. induction todo as [|i todo IH]; intros reported; cbn [cycleLoop]; [by intros ?%elem_of_nil|].
  destruct (_ || _); [right; by eapply IH|]. destruct (search _ _ _ _ _ _ _) as [tr|]; [|right; by eapply IH].
  intros [->|H]%elem_of_cons; [by left|right; by eapply IH].
Qed.

Lemma no_cycle_lines chart edges : quiet (cycleLines chart edges) → alwaysCycles chart edges = [].
Proof.
  unfold cycleLines. intros H. destruct (alwaysCycles chart edges) as [|c l] eqn:E; [done|]. exfalso.
  assert (c ∈ alwaysCycles chart edges) as Hc by (rewrite E; by left).
  assert (c.1 < length edges)%nat as Hlt.
  { unfold alwaysCycles, cyclesOf in Hc. apply cycleLoop_from, elem_of_seq in Hc. lia. }
  destruct (lookup_lt_is_Some_2 _ _ Hlt) as [e Ee].
  assert (c ∈ c :: l) as Hin by (by left). apply (quiet_map _ _ _ H) in Hin. cbn beta in Hin. rewrite Ee in Hin.
  by apply quiet_fail in Hin.
Qed.

Lemma edges_in log e : EEdge e ∈ log → e ∈ edgesOf log.
Proof. intros H. apply list_elem_of_omap. by exists (EEdge e). Qed.

(** The edge of a transition. *)
Definition edgeOf (chart : ChartText) (p : list jstr) (t : ChartTransition) (e : edge) : Prop :=
  e_from e = p ∧ e_guarded e = present (guardOf t) ∧ e_reenter e = reenterOf t ∧
  map inr (e_targets e) = map (λ target, resolveTarget chart target p) (targetsAt t []).*1.

Lemma always_edge chart decl lent p t tpath scope :
  transitionOk chart decl lent p t →
  ∃ e, EEdge e ∈ checkTransition chart decl lent p scope true t tpath ∧ edgeOf chart p t e.
Proof.
  intros (_ & _ & Hr). unfold checkTransition. cbn zeta.
  set (found := map (λ m, (m, resolveTarget chart m.1 p)) (targetsAt t tpath)).
  assert (Forall (λ r, ∃ q, r.2 = inr q) found) as HF.
  { apply Forall_forall. intros r (m & -> & Hm)%list_elem_of_fmap. cbn.
    assert (m.1 ∈ (targetsAt t []).*1) as Hin.
    { rewrite <- (targetsAt_fst t tpath). apply list_elem_of_fmap. eauto. }
    apply list_elem_of_fmap in Hin as ([target p'] & Em & Hin). rewrite Em. by eapply Hr. }
  assert (existsb (λ r, match r.2 with inl _ => true | inr _ => false end) found = false) as ->.
  { clear -HF. induction HF as [|r l [q E] _ IH]; [done|]. cbn. by rewrite E. }
  eexists. split.
  - rewrite !elem_of_app. right. right. right. cbn. by left.
  - split; [done|]. split; [done|]. split; [done|]. cbn.
    trans (map snd found).
    + clear -HF. induction HF as [|r l [q E] _ IH]; [done|]. cbn. rewrite E. cbn. by f_equal.
    + unfold found. rewrite map_map. cbn. rewrite <- (targetsAt_fst t tpath). by rewrite map_map.
Qed.

Definition alwaysBound (n : nat) : nat := (1 + n * S n ^ n)%nat.


(** ** References to an event's fields *)

(** What a schema's keywords mean (JSON Schema), for a payload that was checked
    against it. *)
Class SchemaChecks (valid : json → json → Prop) : Prop := {
  sv_object : ∀ schema v, field (js "type") schema = Some (JStr (js "object")) → valid schema v → ∃ l, v = JObj l;
  sv_required : ∀ schema ks k l, field (js "required") schema = Some (JArr ks) → JStr k ∈ ks →
    valid schema (JObj l) → is_Some (objGet k l);
  sv_property : ∀ schema props k sub l x, field (js "properties") schema = Some (JObj props) →
    objGet k props = Some sub → objGet k l = Some x → valid schema (JObj l) → valid sub x;
  sv_array : ∀ schema v, field (js "type") schema = Some (JStr (js "array")) → valid schema v → ∃ l, v = JArr l;
  sv_items : ∀ schema items l, field (js "items") schema = Some items → valid schema (JArr l) → Forall (valid items) l;
  sv_minItems : ∀ schema m l, field (js "minItems") schema = Some (JNum m) → valid schema (JArr l) → m <= Z.of_nat (length l);
}.

(** The schemas that the path walks by name say that they are objects. *)
Fixpoint typed (node : json) (rest : list seg) : bool :=
  match rest with
  | [] => true
  | SName s :: rest' =>
      match field (js "type") node, field (js "properties") node with
      | Some (JStr t), Some (JObj props) =>
          bool_decide (t = js "object") && match objGet s props with Some sub => typed sub rest' | None => true end
      | _, _ => false
      end
  | SIndex _ :: rest' => match field (js "items") node with Some items => typed items rest' | None => true end
  end.

Lemma own_object l s : own (ofJson (JObj l)) s = ofJson <$> objGet (segText s) l.
Proof.
  cbn [ofJson own]. change (map (λ m, (m.1, ofJson m.2)) l) with (map (onValue ofJson) l). apply objGet_onValue.
Qed.

Section Fields.
Context (valid : json → json → Prop) {checks : SchemaChecks valid}.

(** The name case of the check, where the schema says that it is an object. *)
Lemma supplies_name node s rest optional props :
  field (js "type") node = Some (JStr (js "object")) → field (js "properties") node = Some (JObj props) →
  schemaSupplies node (SName s :: rest) optional = Supplied →
  ∃ sub ks, objGet s props = Some sub ∧ field (js "required") node = Some (JArr ks) ∧ JStr s ∈ ks ∧
    schemaSupplies sub rest false = Supplied ∧ optional = false.
Proof.
  intros Ht Hp H.
  assert (∀ rest node, schemaSupplies node rest true ≠ Supplied) as Hopt.
  { clear. induction rest as [|[s|n] rest IH]; intros node; cbn [schemaSupplies]; [done| |].
    - destruct node; try done. all: repeat (case_match; try done). all: by apply IH.
    - destruct node; try done. all: repeat (case_match; try done). all: by apply IH. }
  destruct node as [| | | | |m]; try done. cbn [schemaSupplies] in H. rewrite Ht, Hp in H.
  rewrite bool_decide_eq_true_2 in H by done. cbn [ownJson] in H.
  destruct (objGet s props) as [sub|] eqn:Es; [|done]. exists sub.
  destruct (field (js "required") (JObj m)) as [[| | | |ks|]|]; cbn [negb] in H;
    rewrite ?orb_true_r in H; try (by apply Hopt in H).
  destruct optional; cbn [orb] in H; [by apply Hopt in H|]. exists ks. split; [done|]. split; [done|].
  destruct (existsb _ ks) eqn:Ee; cbn [negb] in H; [|by apply Hopt in H].
  apply existsb_exists in Ee as (v & Hv & E). destruct v as [| | |k| |]; try done.
  apply bool_decide_eq_true in E as ->. by rewrite <- list_elem_of_In in Hv.
Qed.

Lemma supplied_walks ref rest : ∀ schema v,
  schemaSupplies schema rest false = Supplied → typed schema rest = true → valid schema v →
  Forall (λ s, segText s ∉ FORBIDDEN_SEGMENTS) rest → Forall natural rest →
  ∃ y, walkOwn ref (ofJson v) rest = Ok y.
Proof.
  induction rest as [|s rest IH]; intros schema v H Ht Hv HF HN.
  { exists (ofJson v). cbn. by destruct v. }
  apply Forall_cons in HF as [Hf HF]. apply Forall_cons in HN as [Hn HN].
  assert (∃ x sub, own (ofJson v) s = Some (ofJson x) ∧ schemaSupplies sub rest false = Supplied ∧
            typed sub rest = true ∧ valid sub x) as (x & sub & Eo & Hs & Ht' & Hv').
  { destruct s as [k|n]; cbn [typed] in Ht.
    - destruct (field (js "type") schema) as [[| | |t| |]|] eqn:Et; try done.
      destruct (field (js "properties") schema) as [[| | | | |props]|] eqn:Ep; try done.
      apply andb_true_iff in Ht as [->%bool_decide_eq_true Ht].
      destruct (supplies_name _ _ _ _ _ Et Ep H) as (sub & ks & Es & Er & Hk & Hs & _). rewrite Es in Ht.
      destruct (sv_object _ _ Et Hv) as [l ->]. destruct (sv_required _ _ _ _ Er Hk Hv) as [x Ex].
      exists x, sub. split; [rewrite own_object; cbn [segText]; by rewrite Ex|]. split; [done|]. split; [done|]. by eapply sv_property.
    - destruct schema as [| | | | |m]; try done. cbn [schemaSupplies] in H.
      destruct (field (js "items") (JObj m)) as [items|] eqn:Ei; [|done].
      destruct (field (js "type") (JObj m)) as [[| | |t| |]|] eqn:Et; try by destruct items.
      assert (bool_decide (t = js "array") = true ∧
        ((match field (js "minItems") (JObj m) with Some (JNum k) => k | _ => 0 end) <=? n) = false ∧
        schemaSupplies items rest false = Supplied) as (->%bool_decide_eq_true & Hmin & Hs).
      { destruct items; try done; destruct (bool_decide _); try done; destruct (_ <=? _); done. }
      destruct (sv_array _ _ Et Hv) as [l ->]. pose proof (sv_items _ _ _ Ei Hv) as HI.
      apply Z.leb_gt in Hmin. cbn in Hn.
      assert (n < Z.of_nat (length l)) as Hlen.
      { destruct (field (js "minItems") (JObj m)) as [[| |k| | |]|] eqn:Em; try lia.
        pose proof (sv_minItems _ _ _ Em Hv). lia. }
      destruct (lookup_lt_is_Some_2 l (Z.to_nat n) ltac:(lia)) as [x Ex].
      exists x, items. split; [|split; [done|split; [done|]]].
      + cbn [ofJson own]. rewrite list_lookup_fmap, Ex. done.
      + by eapply Forall_lookup_1. }
  destruct (IH sub x Hs Ht' Hv' HF HN) as [y Hy]. exists y. apply walk_cons. eauto.
Qed.

End Fields.

(** The event as the registration delivers it: [{ type, ...payload, sender }]. *)
Definition delivered (name party id : jstr) (payload : list (jstr * json)) : list (jstr * json) :=
  (js "type", JStr name) :: payload ++ [(js "sender", JObj [(js "party", JStr party); (js "id", JStr id)])].

(** C26: a reference that the door found supplied by a Chart event resolves on
    every delivery of that event whose payload its schema admits, where each
    schema that the path walks by name says [type: object]. *)
Theorem required_field_resolves valid chart name schema party id payload p sc :
  SchemaChecks valid →
  eventCheck chart (SEvent name) (pathSegments p) = Supplied → pathFault p = None →
  objGet name (c_events chart) = Some schema → typed schema (pathSegments p) = true →
  valid schema (JObj payload) → js "type" ∉ payload.*1 → js "sender" ∉ payload.*1 →
  sc_event sc = ofJson (JObj (delivered name party id payload)) →
  ∃ y, lookup sc (js "event." ++ p) = Ok y.
Proof.
  intros Hc He [HF HN]%path_admitted Hs Ht Hv Nt Ns Esc.
  change (lookup sc (js "event." ++ p)) with (walkOwn (js "event." ++ p) (sc_event sc) (pathSegments p)). rewrite Esc.
  cbn [eventCheck] in He. rewrite Hs in He. cbn [default] in He.
  assert (∀ k x, objGet k payload = Some x → objGet k (delivered name party id payload) = Some x) as Hget.
  { intros k x Hx. unfold delivered. cbn [objGet]. rewrite bool_decide_eq_false_2; [by rewrite objGet_app, Hx|].
    intros ->. apply Nt, objGet_is_Some. eauto. }
  assert (objGet (js "sender") (delivered name party id payload) =
          Some (JObj [(js "party", JStr party); (js "id", JStr id)])) as Hsend.
  { unfold delivered. cbn [objGet]. rewrite bool_decide_eq_false_2 by done. rewrite objGet_app.
    destruct (objGet (js "sender") payload) eqn:E; [|done]. destruct Ns. apply objGet_is_Some. by rewrite E. }
  destruct (bool_decide (pathSegments p = [SName (js "type")])) eqn:E1.
  { apply bool_decide_eq_true in E1 as ->. by exists (VStr name). }
  destruct (bool_decide (pathSegments p = [SName (js "sender")])) eqn:E2.
  { apply bool_decide_eq_true in E2 as ->. eexists. cbn [walkOwn]. rewrite own_object. cbn [segText]. by rewrite Hsend. }
  destruct (bool_decide (pathSegments p = [SName (js "sender"); SName (js "party")])) eqn:E3.
  { apply bool_decide_eq_true in E3 as ->. exists (VStr party). cbn [walkOwn]. rewrite own_object. cbn [segText]. by rewrite Hsend. }
  destruct (bool_decide (pathSegments p = [SName (js "sender"); SName (js "id")])) eqn:E4.
  { apply bool_decide_eq_true in E4 as ->. exists (VStr id). cbn [walkOwn]. rewrite own_object. cbn [segText]. by rewrite Hsend. }
  cbn [orb] in He. destruct (supplied_walks valid (js "event." ++ p) _ _ _ He Ht Hv HF HN) as [y Hy]. exists y.
  destruct (pathSegments_cons p) as (s & rest & Ep). rewrite Ep in *. apply walk_cons in Hy as (x & Hx & Hy).
  apply walk_cons. exists x. split; [|done]. rewrite own_object in *. destruct (objGet (segText s) payload) as [z|] eqn:Ez; [|done].
  by rewrite (Hget _ _ Ez).
Qed.

(** *** A check of payloads *)

Definition typeOk (t : option json) (v : json) : bool :=
  match t with
  | Some (JStr t) =>
      match v with
      | JObj _ => bool_decide (t = js "object")
      | JArr _ => bool_decide (t = js "array")
      | JStr _ => bool_decide (t = js "string")
      | JNum _ => bool_decide (t = js "number") || bool_decide (t = js "integer")
      | JBool _ => bool_decide (t = js "boolean")
      | JNull => bool_decide (t = js "null")
      end
  | _ => true
  end.

(** The keywords as JSON Schema defines them: [properties] and [required] say
    something of objects, [items] and [minItems] of lists. *)
Fixpoint validates (v schema : json) : bool :=
  typeOk (field (js "type") schema) v &&
  match v with
  | JObj l =>
      match field (js "required") schema with
      | Some (JArr ks) => forallb (λ k, match k with JStr k => bool_decide (k ∈ l.*1) | _ => true end) ks
      | _ => true
      end
      && forallb (λ m, match field (js "properties") schema with
                       | Some (JObj props) => match objGet m.1 props with Some sub => validates m.2 sub | None => true end
                       | _ => true
                       end) l
  | JArr l =>
      match field (js "minItems") schema with Some (JNum m) => m <=? Z.of_nat (length l) | _ => true end
      && match field (js "items") schema with Some items => forallb (λ x, validates x items) l | None => true end
  | _ => true
  end.

#[export] Instance validates_checks : SchemaChecks (λ schema v, validates v schema = true).
Proof.
  split.
  - intros schema v Et H. destruct v; cbn [validates typeOk] in H; rewrite Et in H; try done. eauto.
  - intros schema ks k l Er Hk H. cbn [validates] in H. rewrite Er in H. rewrite !andb_true_iff in H.
    destruct H as (_ & H & _). rewrite forallb_forall in H. apply list_elem_of_In, H, bool_decide_eq_true in Hk.
    by apply objGet_is_Some.
  - intros schema props k sub l x Ep Es Ex H. cbn [validates] in H. rewrite Ep, !andb_true_iff in H.
    destruct H as (_ & _ & H). rewrite forallb_forall in H. apply objGet_elem, list_elem_of_In, H in Ex.
    cbn in Ex. by rewrite Es in Ex.
  - intros schema v Et H. destruct v; cbn [validates typeOk] in H; rewrite Et in H; try done. eauto.
  - intros schema items l Ei H. cbn [validates] in H. rewrite Ei, !andb_true_iff in H. destruct H as (_ & _ & H).
    rewrite forallb_forall in H. apply Forall_forall. intros x Hx. apply H. by apply list_elem_of_In.
  - intros schema m l Em H. cbn [validates] in H. rewrite Em, !andb_true_iff in H. destruct H as (_ & H & _). by apply Z.leb_le.
Qed.

Definition obj_ (l : list (string * json)) : json := JObj (map (λ m, (js m.1, m.2)) l).
Definition str_ (s : string) : json := JStr (js s).

(** A payload [{ r: { n: string } }]; without [type], the inner schema says
    nothing of a value that is no object. *)
Definition innerSchema (type : list (string * json)) : json :=
  obj_ (type ++ [("properties", obj_ [("n", obj_ [("type", str_ "string")])]); ("required", JArr [str_ "n"])]%string).
Definition goSchema (type : list (string * json)) : json :=
  obj_ [("type", str_ "object"); ("properties", obj_ [("r", innerSchema type)]); ("required", JArr [str_ "r"])]%string.

(** The work's Agent picks [go], whose field a [set] keeps for the output. *)
Definition finalState : ChartState := State (Body (Some Final) None false None None None None [] [] None) [].
Definition workState (from : string) : ChartState :=
  State (Body None None false
    (Some (One (Invoke (js "writer") None (Some (obj_ [("prompt", str_ "Do {{input.topic}}")]%string)) None None)))
    (Some [(js "go", One (TObject (Some (One (js "done"))) None [Generic (ASet (js "result") (str_ from))] false))])
    None None [] [] None) [].
Definition workChart (schema : json) (from : string) : ChartText :=
  Chart None None [(js "go", schema)] [] (js "work") [(js "work", workState from); (js "done", finalState)]
    (Some (str_ "{{context.result}}")).
Definition sampleDecl : OpenBodyDeclaration :=
  Declaration (MkLends [js "writer"] [] [] [] [] [] [] false false) [] [] 65536 (Some 1800000).
Definition sampleLent : LentParts := MkLent [(js "writer", AgentLogic None)] [] [] [].
Definition sampleOptions : AdmitOptions := MkOptions (Some [js "topic"]) None.
Definition admitSample (chart : ChartText) : admission :=
  doorAdmit chart sampleDecl sampleLent sampleOptions (λ _, ZObject [js "r"]) (λ _, []).

Lemma authority_is_lent_witness :
  stateOk (workChart (goSchema [("type", str_ "object")]%string) "{{event.r.n}}") sampleDecl sampleLent
    [js "work"] (workState "{{event.r.n}}").
Proof.
  eapply (authority_is_lent _ sampleDecl sampleLent sampleOptions (λ _, ZObject [js "r"]) (λ _, []) []); by vm_compute.
Defined.

Lemma required_field_resolves_witness :
  ∃ y, lookup (Scope VUndef (ofJson (JObj (delivered (js "go") (js "agent") (js "writer")
                 [(js "r", JObj [(js "n", JStr (js "ok"))])]))) VUndef) (js "event." ++ js "r.n") = Ok y.
Proof.
  apply (required_field_resolves (λ schema v, validates v schema = true)
    (workChart (goSchema [("type", str_ "object")]%string) "{{event.r.n}}") (js "go")
    (goSchema [("type", str_ "object")]%string) (js "agent") (js "writer") [(js "r", JObj [(js "n", JStr (js "ok"))])]).
  1: exact validates_checks.
  1-5: by vm_compute.
  1-2: apply (bool_decide_eq_true_1 _); by vm_compute.
  reflexivity.
Defined.

(** Without [type] in the inner schema the Chart is admitted all the same, and a
    payload that the schema admits leaves the reference with nothing. *)
Theorem untyped_schema_passes :
  let payload := [(js "r", JNum 5)] in
  admitSample (workChart (goSchema []) "{{event.r.n}}") = Accepted [] ∧
  validates (JObj payload) (goSchema []) = true ∧
  ∃ e, lookup (Scope VUndef (ofJson (JObj (delivered (js "go") (js "agent") (js "writer") payload))) VUndef)
         (js "event.r.n") = Throw e.
Proof. vm_compute. split; [done|]. split; [done|]. by eexists. Qed.

(** A field whose schema is [null] has its line, but a reference below it makes
    the check throw before the lines are reported. *)
Definition nullSchema : json :=
  obj_ [("type", str_ "object"); ("properties", obj_ [("r", JNull)]); ("required", JArr [str_ "r"])]%string.

Theorem null_field_throws :
  payloadSchemaFaults nullSchema = [([js "properties"; js "r"], NotASchema)] ∧
  admitSample (workChart nullSchema "{{event.r}}") =
    Refused [Line 4 (js "events.go.input.properties.r") NotASchema] ∧
  admitSample (workChart nullSchema "{{event.r.n}}") = Thrown.
Proof. by vm_compute. Qed.

(** A Chart whose first state goes on at once. *)
Definition onceChart : ChartText :=
  Chart None None [] [] (js "a")
    [(js "a", State (Body None None false None None (Some (One (TTarget (js "b")))) None [] [] None) []);
     (js "b", finalState)] None.
Definition onceEdge : edge := Edge [js "a"] [[js "b"]] false false (js "states.a.always").

(** xstate's one microstep of it. *)
Definition onceStep (C : list (list jstr)) (es : list nat) (C' : list (list jstr)) : Prop :=
  C = [[]; [js "a"]] ∧ es = [0%nat] ∧ C' = [[]; [js "b"]].

Lemma once_edges :
  edgesOf (walkLog onceChart sampleDecl sampleLent sampleOptions (λ _, ZOther)) = [onceEdge].
Proof. by vm_compute. Qed.

Lemma once_entered s : s ∈ [[]; [js "b"]] → s ∈ enteredBy onceChart onceEdge.
Proof. intros [->|[->|[]%elem_of_nil]%elem_of_cons]%elem_of_cons; apply (bool_decide_eq_true_1 _); by vm_compute. Qed.

Lemma once_microsteps : Microsteps onceChart [onceEdge] onceStep.
Proof.
  split.
  - intros C es C' i (-> & -> & ->) ->%list_elem_of_singleton. exists onceEdge. split; [done|]. right. by left.
  - intros C es C' i e s (-> & -> & ->) ->%list_elem_of_singleton [= <-] _ Hs. left. by apply once_entered.
  - intros C es C' s (-> & -> & ->) Hs. right. exists 0%nat, onceEdge. split; [by left|]. split; [done|].
    split; [done|by apply once_entered].
Qed.


(** ** What the dataflow check costs

    [contextCalls] counts the calls of [contextSupplies] that one such call makes
    and is, along the same ways. *)
Section Cost.
Context (chart : ChartText) (options : AdmitOptions).

Definition callsOfRef (calls : list seg → nat) (ref : jstr) : nat :=
  match pathSegments ref with
  | root :: rest => if bool_decide (root = SName (js "context")) then calls rest else 0%nat
  | [] => 0%nat
  end.

Fixpoint writesCalls (cost : jstr → nat) (check : jstr → EventScope → refCheck) (rest : list seg) (ws : list write) : nat :=
  match ws with
  | [] => 0%nat
  | w :: ws' =>
      let atOrAbove := isPrefix rest (w_path w) in
      if negb atOrAbove && negb (bool_decide (w_kind w = WSet) && isPrefix (w_path w) rest)
      then writesCalls cost check rest ws'
      else
        let source := match w_kind w with WIncrement => None | _ => w_from w ≫= wholeRefOf end in
        (match source with Some r => cost r | None => 0 end +
         match (match source with Some r => check r (w_scope w) | None => Supplied end) with
         | Throws => 0
         | Faulty true _ => writesCalls cost check rest ws'
         | _ =>
             if atOrAbove then 0
             else match source with
                  | None => writesCalls cost check rest ws'
                  | Some r =>
                      let below := dot r (join [46%Z] (map segText (drop (length (w_path w)) rest))) in
                      cost below + match check below (w_scope w) with
                                   | Supplied | Throws => 0
                                   | _ => writesCalls cost check rest ws'
                                   end
                  end
         end)%nat
  end.

Fixpoint contextCalls (left : nat) (ws : list write) (rest : list seg) : nat :=
  match left with
  | O => 1
  | S left' =>
      S (if inInitial (VObj (map (λ m, (m.1, ofJson m.2)) (default [] (c_context chart)))) rest then 0
         else writesCalls (callsOfRef (contextCalls left' ws)) (refCheckWith chart options (contextSupplies chart options left' ws))
                rest ws)
  end%nat.

(** [set x from {{context.x}}], wherever it stands. *)
Definition selfWrite (w : write) : Prop := w = Write [SName (js "x")] WSet (Some (str_ "{{context.x}}")) SNone (w_at w).

Context (all : list write).
Hypothesis no_context : c_context chart = None.
Hypothesis all_self : Forall selfWrite all.

Abbreviation x := [SName (js "x")].
Abbreviation xy := [SName (js "x"); SName (js "y")].

Lemma self_supplies left : contextSupplies chart options left all x = Yes ∨ contextSupplies chart options left all x = No.
Proof.
  induction left as [|left IH]; [by right|].
  cbn [contextSupplies]. rewrite no_context. change (inInitial _ _) with false. cbn match.
  set (check := refCheckWith _ _ _).
  assert (check (js "context.x") SNone = Supplied ∨ check (js "context.x") SNone = Faulty false SuppliedByNothing) as Hc.
  { unfold check, refCheckWith. change (pathSegments (js "context.x")) with (SName (js "context") :: x). cbn match.
    rewrite bool_decide_eq_true_2 by done. destruct IH as [-> | ->]; auto. }
  clearbody check. induction all_self as [|w ws -> _ _]; [by right|left].
  cbn [writesSupply w_path w_kind w_from w_scope]. change (isPrefix x x) with true. cbn [negb andb].
  change (Some (str_ "{{context.x}}") ≫= wholeRefOf) with (Some (js "context.x")). cbn match. by destruct Hc as [-> | ->].
Qed.

(** The two references that the loop checks for [context.x.y]. *)
Lemma self_step left ws :
  let check := refCheckWith chart options (contextSupplies chart options left all) in
  let cost := callsOfRef (contextCalls left all) in
  contextSupplies chart options left all xy = No → Forall selfWrite ws →
  writesSupply check xy ws No = No ∧
  (length ws * contextCalls left all xy <= writesCalls cost check xy ws)%nat.
Proof.
  intros check cost Hno Hws.
  assert (check (js "context.x") SNone = Supplied ∨ check (js "context.x") SNone = Faulty false SuppliedByNothing) as H1.
  { unfold check, refCheckWith. change (pathSegments (js "context.x")) with (SName (js "context") :: x). cbn match.
    rewrite bool_decide_eq_true_2 by done. destruct (self_supplies left) as [-> | ->]; auto. }
  assert (check (js "context.x.y") SNone = Faulty false SuppliedByNothing) as H2.
  { unfold check, refCheckWith. change (pathSegments (js "context.x.y")) with (SName (js "context") :: xy). cbn match.
    rewrite bool_decide_eq_true_2 by done. by rewrite Hno. }
  assert (cost (js "context.x.y") = contextCalls left all xy) as H3.
  { unfold cost, callsOfRef. change (pathSegments (js "context.x.y")) with (SName (js "context") :: xy). cbn match.
    by rewrite bool_decide_eq_true_2. }
  induction Hws as [|w ws -> _ [IH1 IH2]]; [done|].
  cbn [writesSupply writesCalls w_path w_kind w_from w_scope]. change (isPrefix xy x) with false. change (isPrefix x xy) with true.
  rewrite (bool_decide_eq_true_2 (WSet = WSet)) by done. cbn [negb andb]. cbn match.
  change (Some (str_ "{{context.x}}") ≫= wholeRefOf) with (Some (js "context.x")). cbn match. cbn zeta.
  change (dot (js "context.x") (join [46] (map segText (drop (length x) xy)))) with (js "context.x.y").
  rewrite H2, H3. destruct H1 as [-> | ->]; (split; [done|]); cbn [length Nat.mul]; lia.
Qed.

Lemma self_explodes left :
  contextSupplies chart options left all xy = No ∧ (length all ^ left <= contextCalls left all xy)%nat.
Proof.
  induction left as [|left [IH1 IH2]]; [done|]. destruct (self_step left all IH1 all_self) as [H1 H2].
  cbn [contextSupplies contextCalls]. rewrite no_context. change (inInitial _ _) with false. cbn match.
  split; [exact H1|]. rewrite Nat.pow_succ_r'. etrans; [|apply le_S, H2]. by apply Nat.mul_le_mono_l.
Qed.

End Cost.

(** One state that sets [x] from itself [n] times, and an output below it. *)
Definition loopState (n : nat) : ChartState :=
  State (Body None None false None None None None
    (replicate n (Generic (ASet (js "x") (str_ "{{context.x}}")))) [] None) [].
Definition loopChart (n : nat) : ChartText :=
  Chart None None [] [] (js "a") [(js "a", loopState n)] (Some (str_ "{{context.x.y}}")).

Lemma writes_of_actions n (path : nat → jstr) decl lent :
  let ws := writesOf (concat (imap (λ i a, checkAction decl lent a (path i) SNone)
                               (replicate n (Generic (ASet (js "x") (str_ "{{context.x}}")))))) in
  length ws = n ∧ Forall selfWrite ws.
Proof.
  revert path. induction n as [|n IH]; intros path; [done|]. cbn [replicate imap concat].
  destruct (IH (λ i, path (S i))) as [H1 H2]. unfold writesOf in *. rewrite omap_app. split.
  - rewrite length_app. unfold compose. cbn [plus]. by rewrite H1.
  - apply Forall_app. split; [by repeat constructor|]. exact H2.
Qed.


(** A write supplies its own source: a Chart whose only write of [x] is a [set]
    from [context.x] is admitted, with an output that reads [context.x]; the
    action then writes nothing, and the output resolves to nothing. *)
Definition selfChart : ChartText :=
  Chart None None [] [] (js "a")
    [(js "a", State (Body (Some Final) None false None None None None
                (s_entry (bodyOf (loopState 1))) [] None) [])] (Some (str_ "{{context.x}}")).

Theorem self_supply_passes :
  admitSample selfChart = Accepted [] ∧
  (∀ sc, runAction sc (ASet (js "x") (str_ "{{context.x}}")) [] = Ok []) ∧
  ∃ e, resolveReferences (Scope (VObj []) VUndef VUndef) (str_ "{{context.x}}") = Throw e.
Proof. split; [by vm_compute|]. split; [done|]. by eexists. Qed.

End ChartDoorProofs.
